(* ===== verification/_CoqProject ===== *)
-Q . S2P
Prelude.v
Policy.v
SigBuffer.v
Layout.v
RdSet.v
WrSet.v
SharerMap.v
BlkDir.v
TsProtocol.v
BlkData.v
Forest.v
QueueLock.v
FixedLock.v
BlkLock.v
DataRuns.v
SegTable.v
SigTable.v
MtxTable.v
IdAllocator.v
SegLease.v
BlkVers.v
Space.v
BlkVersOps.v
SpaceInv.v
SpaceSys.v
SpaceRc.v
SpaceStale.v
SpaceData.v
SpaceFence.v
SpaceDrf.v
SvmFault.v
Linear.v
Spinlock.v
Deque.v
SyncQueue.v
LockQueue.v
McsQueue.v
RingBuf.v
Delegator.v
DelegatorInv.v
DelegatorSafe.v
DelegatorThm.v
DelegatorErr.v
RequestHolder.v
ProxyMpi.v
ProxyMpiThm.v
Sched.v
SchedInv.v
SchedSafe.v
SchedStep.v
SchedSwitch.v
SchedLock.v
SchedOps.v
SchedLoop.v
SchedRun.v
SchedThm.v
Mutex.v
MutexInv.v
MutexSafe.v
MutexCv.v
MutexStep.v
MutexQueue.v
MutexProgress.v
MutexThm.v
LoopSched.v
OmpWorker.v
Omp.v
OmpInv.v
OmpSafe.v
OmpPhase.v
OmpProgress.v
OmpTerm.v
OmpThm.v
OmpMain.v
FacadeHeap.v
FacadeSpmd.v
