(* ===== verification/Prelude.v ===== *)
(** Verification of MENPS, a page-based distributed shared memory with its
    threading library.

    * The program

    MENPS runs one shared-memory program on the processes of an MPI job. Its
    live parts are medsm2 (the distributed shared memory), cmpth (user-level
    threads: work-stealing workers, queues, locks), meqdc (a layer that lets
    many threads share a communication library that only one of them may call),
    mecom2 and medev2 (communication), meomp (the OpenMP runtime on top) and
    mefdn (utilities). All paths below are under src/; medsm2/dsm stands for
    medsm2/include/menps/medsm2/dsm, and likewise for the others.

    An access of the application to a page that it may not access raises a
    signal (SvmFault), which asks the address space of the process (Space) for
    the right. The address space owns the segment table (SegTable), the read set
    (RdSet), the write set (WrSet), the release signature (SigBuffer) and the
    mutexes (MtxTable). The segment table keeps, per block, a global lock with
    attached data (BlkLock over QueueLock or FixedLock), a directory entry per
    process (BlkDir) and the memory of each process (BlkData). Locks, barriers
    and atomic operations carry signatures: lists of write notices, which tell
    the acquirer which of its copies are out of date.

    * The files

    The root file, this one, is the prelude: errors, machine integers, byte
    codec, the standard algorithms the sources call, tactics and hints.

    medsm2, the protocol:
    - Policy: the build options (medsm2/CMakeLists.txt, common.hpp) and the
      policy of src/mpi_svm_space.cpp as one record, so that each component is
      written once for all builds.
    - SigBuffer: sig_buffer.hpp, rel_sig.hpp. Layout: blk_flag_table.hpp and the
      address arithmetic of seg_table.hpp, svm/svm_seg_table.hpp,
      svm_blk_table.hpp, svm_space.hpp. RdSet: rd_ts_state.hpp, rd_set.hpp,
      unordered_rd_set.hpp. WrSet: wr_set.hpp. SharerMap: sharer_map.hpp.
    - BlkDir: blk_dir_table.hpp. TsProtocol: its operations composed into a
      protocol of any number of processes for one block.
    - BlkData: blk_data_table.hpp, the byte loops and the AVX2 loop. DataRuns:
      triples for its operations.
    - Forest, QueueLock: queue_lock_table.hpp; the waiters of the lock form a
      forest. FixedLock: fixed_lock_table.hpp. BlkLock: blk_lock_table.hpp over
      the interface [GlobalLock], which both lock tables implement.
    - SegTable: seg_table.hpp, every operation. SegLease: their effect on leases
      and timestamps. SigTable: sig_table.hpp. MtxTable: mtx_table.hpp, proved
      against an abstract table of mutexes. IdAllocator: id_allocator.hpp.
    - Space: space.hpp with its fences, mutexes and barriers. SpaceInv, SpaceSys:
      the invariant of the system. SpaceRc: what a program without data races
      may expect to read. SpaceStale: runs in which it reads something else.
      SpaceDrf: the builds in which it does not; BlkVers, BlkVersOps (a ghost
      history of the contents of a block), SpaceData and SpaceFence (the bytes of
      the system and its calls) carry the proof. SvmFault: the signal handler.

    cmpth, the threads:
    - Linear: concurrent objects, histories, linearizability by forward
      simulation. Spinlock: sync/basic_spinlock.hpp. Deque:
      wd/chaselev_worker_deque.hpp, wd/spinlock_worker_deque.hpp.
    - SyncQueue: what a queue of lock waiters promises. LockQueue: the invariant
      that every client of such a queue keeps. McsQueue: sync/basic_mcs_core.hpp, basic_mcs_queue.hpp. RingBuf:
      sync/basic_ring_buf_core.hpp, basic_ring_buf_queue.hpp.
    - Delegator, DelegatorInv, DelegatorSafe, DelegatorThm, DelegatorErr:
      sync/basic_sync_delegator.hpp and wss/basic_suspended_thread.hpp over the
      abstract queue and the interface [Consumer] with its laws.
    - Sched: the work-stealing scheduler and its threads, wss/basic_worker.hpp,
      basic_worker_task.hpp, basic_scheduler.hpp, basic_thread.hpp,
      basic_thread_funcs.hpp and the task types of sct, over the interface
      [WorkerDeque]. SchedInv: where every continuation is. SchedSafe, SchedStep,
      SchedSwitch, SchedLock, SchedOps, SchedLoop, SchedRun: every step keeps the
      invariant. SchedThm: the deques of Deque meet the interface, safety,
      progress, and two defects.
    - Mutex: sync/basic_mcs_mutex.hpp, basic_mcs_cv.hpp, basic_cv_barrier.hpp, over
      the abstract queue. MutexInv: its invariant. MutexSafe, MutexCv, MutexStep,
      MutexQueue: every step keeps it. MutexProgress: who can make a step.
      MutexThm: the theorems.
    meqdc, the shared communication library:
    - RequestHolder: mpi/proxy_mpi_request_holder.hpp. ProxyMpi, ProxyMpiThm:
      mpi/proxy_mpi_facade.hpp, which is a client of the delegation lock and
      implements its consumer.

    meomp, the OpenMP runtime:
    - LoopSched: the static schedule of loops and the arguments of parallel regions
      (src/meomp.cpp), and the parallel for of cmpth (exec/basic_for_loop.hpp).
    - OmpWorker: the worker of a thread, which switches between user code and
      runtime (src/omp_worker.hpp over wss/basic_single_worker.hpp of cmpth); Omp: the
      master, the slaves and the child threads of all processes as a step relation
      (src/dist_worker.hpp, child_worker.hpp, child_worker_group.hpp); OmpInv: its
      invariant; OmpSafe: the steps keep it; OmpPhase: where a process is by its calls
      of the barrier of the address space; OmpProgress, OmpTerm: no deadlock, and a
      rank that every step lowers; OmpThm: the theorems. The barrier of a process is
      an arrival and a departure, which MutexThm justifies.
    - OmpMain: the stacks of the threads, the options of the environment and the
      packed arguments of main (src/meomp.cpp).
    The facade of medsm2, itf/basic_dsm_facade.hpp:
    - FacadeHeap: the linear allocator of the heap. FacadeSpmd: the SPMD regions.
    * How the code is modelled

    A component is a record, an operation a function on it. Fallible code
    returns [result]: the failures are the assertions, the exceptions, the aborts
    and the accesses out of bounds of the source. Machine integers are Z with
    their wrap-around where the code depends on it: timestamps and sizes are
    64-bit unsigned, the deque indices are compared as signed differences.
    Concurrent code is a state with one program counter per thread or process and
    one value of it per access to shared memory; the model interleaves the
    accesses in any order. The memory order is sequential consistency. Code that
    is not under src/ is a parameter with its documented contract: the MPI
    library ([Mpi], [MpiLaws]), the order in which parallel loops run, the
    padding bytes of structures.

    * What the theorems show

    - The memory model: in SpaceDrf, a program without data races reads the last
      value that was stored, in the builds with migration and without lazy merges,
      until a process takes over the timestamp of a truncated signature. SpaceStale
      shows that fast releases and lazy merges, which the default build has, and
      truncated signatures make a process read an older value. For all timestamp
      builds, in SpaceSys, a legal call of any process keeps the invariant or, in
      the builds that detect races, reports a race, and the write notices of the
      releases that happened before a point of a process are honoured by the
      leases of its copies. In TsProtocol, coherence by timestamps of one block
      with all interleavings of directory operations, in the builds without fast
      release. In SegTable, the blocks stay coherent and atomic operations behave
      as one variable; in SvmFault, an access ends.
    - The locks of medsm2: mutual exclusion, the data of the last holder, and no
      deadlock, for all interleavings of remote accesses.
    - The functions: merges of signatures and of data equal their specification,
      the vector loop equals the byte loop, serialization round-trips, timestamps
      do not overflow.
    - The objects of cmpth are linearizable; the delegation lock excludes, keeps
      the order, loses no waiter and does not deadlock. The MPI proxy on top of it
      is as safe, but a thread whose delegated operation the library completes at
      once sleeps for ever.
    - The scheduler, for two or more workers: no assertion fails, a thread is at
      one place at a time and runs on one worker, a join returns for a finished
      thread, and the locks of the descriptors do not deadlock.
    - The mutex with its condition variable and barrier loses no suspended thread
      and does not deadlock, notify_all wakes everybody, and nobody leaves the
      barrier before all have arrived.
    - The static schedule partitions the iterations of a loop, and the parallel for
      makes the calls of the sequential one, when no machine integer overflows.
    - The OpenMP runtime, for any application, processes and threads: no worker
      fails, the barriers synchronise all threads of all processes, nobody runs in a
      region while the main function is outside of it, and every run ends.
    - The heap gives out disjoint blocks while the requests are not close to 2^64;
      main packs its arguments faithfully. A program with a barrier in an SPMD region
      does not end when it has two processes.
    - Error theorems show where the code does not do what it means to; PROJECT.json
      lists them as findings.

    Bounds and fuel: [solo_fuel] of BlkLock is the number of processes plus six,
    which the laws of the lock tables prove to be enough; the merge of SigBuffer
    and the AVX2 loop of BlkData run on the length of their lists; the loop over
    the blocks of a range has one unit of fuel per block it can visit; an access
    of SvmFault has the fuel 2, and the theorem says that this is enough. The
    indices of the Chase-Lev deque stay below 2^63 (a theorem), the counters of
    the ring buffer are integers.

    * What is not modelled

    - In medsm2: writes of the application while a block is merged; fast release
      against a remote compare-and-swap; the overflow of the generation counter of
      the write set; the operations of the segment table in the directory-coherence
      build (its directory entries and the sharer map are modelled); the mapping of
      memory; calls of different processes to the address space interleave as whole
      calls, the interleaving inside them is that of TsProtocol, QueueLock and
      FixedLock.
    - In cmpth: memory orders weaker than sequential consistency, spurious failures
      of weak compare-and-swap (they repeat a loop), context switches in assembly.
    - In meqdc: the fields of the delegation lock that only its holder accesses are
      updated together in a step; the completion of a request is one step.
    - The communication layers medev2 and mecom2, the proxy for UCX of meqdc, medsm3
      (the rewrite of medsm2 behind a build option that is off by default), the entry
      points, nested regions and profiling of meomp, the dlmalloc sources in mefdn, and the superseded projects under old/.
      PROJECT.json gives the reason for each. *)
From Stdlib Require Import ZArith Lia Sorted Permutation.
From stdpp Require Import base tactics list gmap sorting.

#[global] Open Scope Z_scope.

Create HintDb menps discriminated.
Create Rewrite HintDb menps.

(** * Fallible code *)

(** How a call can fail: a [MEFDN_ASSERT], [throw std::bad_alloc], the data
    race exceptions of [report_data_race], [abort()], and, undefined behaviour in
    the source, an access outside an object and an overflow of a signed
    integer. *)
Inductive failure :=
| AssertionFailure
| BadAlloc
| DataRaceAt (index : nat)
| DataRaceLost
| Aborted
| OutOfBounds
| Overflow.

#[export] Instance failure_eq_dec : EqDecision failure.
Proof. solve_decision. Defined.

(** The value of a call that either returns or fails. *)
Inductive result (A : Type) :=
| Ok (a : A)
| Fail (f : failure).
Arguments Ok {A} a.
Arguments Fail {A} f.

#[export] Instance result_ret : MRet result := λ A a, Ok a.
#[export] Instance result_bind : MBind result :=
  λ A B k m, match m with Ok a => k a | Fail f => Fail f end.
#[export] Instance result_fmap : FMap result :=
  λ A B k m, match m with Ok a => Ok (k a) | Fail f => Fail f end.

(** [MEFDN_ASSERT(b)]. *)
Definition assert_ (b : bool) : result () :=
  if b then Ok tt else Fail AssertionFailure.

Definition is_ok {A} (m : result A) : bool :=
  match m with Ok _ => true | Fail _ => false end.

Lemma assert_true (b : bool) : b = true → assert_ b = Ok tt.
Proof. by intros ->. Qed.

Lemma assert_ok (b : bool) u : assert_ b = Ok u → b = true.
Proof. by destruct b. Qed.

Lemma bind_ok {A B} (m : result A) (k : A → result B) b :
  (m ≫= k) = Ok b ↔ ∃ a, m = Ok a ∧ k a = Ok b.
Proof.
  destruct m; cbn; split.
  - intros H. by exists a.
  - by intros (? & [= ->] & ?).
  - done.
  - by intros (? & ? & ?).
Qed.

Lemma bind_Ok {A B} (a : A) (k : A → result B) : (Ok a ≫= k) = k a.
Proof. done. Qed.

Lemma bind_assoc {A B C} (m : result A) (f : A → result B) (g : B → result C) :
  ((m ≫= f) ≫= g) = (m ≫= λ a, f a ≫= g).
Proof. by destruct m. Qed.

(** Inverts every successful bind and assertion of the context. *)
Ltac inv_ok :=
  repeat match goal with
  | H : (_ ≫= _) = Ok _ |- _ => apply bind_ok in H as (? & ? & H)
  | H : mret _ = Ok _ |- _ => injection H; clear H; intros; subst
  | H : Ok _ = Ok _ |- _ => injection H; clear H; intros; subst
  | H : Fail _ = Ok _ |- _ => discriminate H
  | H : assert_ _ = Ok _ |- _ => apply assert_ok in H
  end; simplify_eq.

(** Case analysis on the boolean tests of the goal and the context. *)
Ltac case_bool :=
  match goal with
  | |- context [if ?b then _ else _] => destruct b eqn:?
  | H : context [if ?b then _ else _] |- _ => destruct b eqn:?
  end.

(** Turns the boolean comparisons of the context into propositions. *)
Ltac bool_to_prop :=
  repeat match goal with
  | H : (_ && _)%bool = true |- _ => apply andb_prop in H as [? ?]
  | H : (_ || _)%bool = false |- _ => apply orb_false_elim in H as [? ?]
  | H : (_ || _)%bool = true |- _ => apply orb_prop in H
  | H : (_ && _)%bool = false |- _ => apply andb_false_iff in H
  | H : negb _ = true |- _ => apply negb_true_iff in H
  | H : negb _ = false |- _ => apply negb_false_iff in H
  | H : (_ <? _) = true |- _ => apply Z.ltb_lt in H
  | H : (_ <? _) = false |- _ => apply Z.ltb_ge in H
  | H : (_ <=? _) = true |- _ => apply Z.leb_le in H
  | H : (_ <=? _) = false |- _ => apply Z.leb_gt in H
  | H : (_ =? _) = true |- _ => apply Z.eqb_eq in H
  | H : (_ =? _) = false |- _ => apply Z.eqb_neq in H
  | H : Z.gtb _ _ = _ |- _ => rewrite Z.gtb_ltb in H
  | H : Z.geb _ _ = _ |- _ => rewrite Z.geb_leb in H
  end.

Ltac bool_lia := bool_to_prop; (lia || (destruct_or?; lia)).

(** * 64-bit unsigned integers *)

Definition u64_mod : Z := 2 ^ 64.

(** The value a [uint64_t]/[size_t] expression takes: arithmetic wraps. *)
Definition u64 (x : Z) : Z := x mod u64_mod.

(** [x] is a value of type [uint64_t]. *)
Definition is_u64 (x : Z) : Prop := 0 ≤ x < u64_mod.

Lemma u64_mod_pos : 0 < u64_mod.
Proof. reflexivity. Qed.

Lemma u64_small x : is_u64 x → u64 x = x.
Proof. unfold is_u64, u64. apply Z.mod_small. Qed.

Lemma u64_is_u64 x : is_u64 (u64 x).
Proof. apply Z.mod_pos_bound, u64_mod_pos. Qed.

Lemma u64_idemp x : u64 (u64 x) = u64 x.
Proof. apply u64_small, u64_is_u64. Qed.

Lemma is_u64_max x y : is_u64 x → is_u64 y → is_u64 (x `max` y).
Proof. unfold is_u64. lia. Qed.

#[export] Hint Resolve u64_is_u64 is_u64_max : menps.
#[export] Hint Rewrite u64_idemp : menps.

(** * Little-endian bytes *)

(** A byte is a [Z] in [0,256). *)
Definition is_byte (b : Z) : Prop := 0 ≤ b < 256.

(** The [n] bytes of an unsigned integer in memory order on x86-64. *)
Fixpoint le_bytes (n : nat) (x : Z) : list Z :=
  match n with
  | O => []
  | S n => x mod 256 :: le_bytes n (x / 256)
  end.

(** The integer stored in a run of bytes. *)
Fixpoint le_value (bs : list Z) : Z :=
  match bs with
  | [] => 0
  | b :: bs => b + 256 * le_value bs
  end.

Lemma length_le_bytes n x : length (le_bytes n x) = n.
Proof. revert x. induction n; intros x; simpl; auto. Qed.

Lemma le_value_bytes n x :
  0 ≤ x < 256 ^ Z.of_nat n → le_value (le_bytes n x) = x.
Proof.
  revert x. induction n as [|n IH]; intros x Hx; cbn [le_bytes le_value].
  - simpl in Hx. lia.
  - rewrite IH; [rewrite (Z.div_mod x 256) at 3; lia|].
    rewrite Nat2Z.inj_succ, Z.pow_succ_r in Hx by lia.
    split; [apply Z.div_pos; lia|]. apply Z.div_lt_upper_bound; lia.
Qed.

#[export] Hint Rewrite length_le_bytes : menps.

(** [memcpy] of [src] over the front of [dst]. *)
Definition overwrite {A} (src dst : list A) : list A :=
  src ++ drop (length src) dst.

Lemma length_overwrite {A} (src dst : list A) :
  (length src ≤ length dst)%nat → length (overwrite src dst) = length dst.
Proof. intros. unfold overwrite. rewrite length_app, length_drop. lia. Qed.

(** * The algorithms of [<algorithm>] *)

Section algorithms.
Context {A : Type}.

(** [std::merge]: takes from the second range only when its head compares
    strictly before the head of the first. *)
Fixpoint std_merge (comp : A → A → bool) (l1 : list A) : list A → list A :=
  fix aux l2 :=
    match l1, l2 with
    | [], _ => l2
    | _, [] => l1
    | x1 :: l1', x2 :: l2' =>
        if comp x2 x1 then x2 :: aux l2' else x1 :: std_merge comp l1' l2
    end.

(** [std::unique]: keeps the first element of each run of equal ones. *)
Fixpoint std_unique (eqb : A → A → bool) (l : list A) : list A :=
  match l with
  | [] => []
  | x :: l' =>
      match std_unique eqb l' with
      | [] => [x]
      | y :: r => if eqb x y then x :: r else x :: y :: r
      end
  end.

(** Sorted for the comparator: no element compares before an earlier one. *)
Definition sorted_by (comp : A → A → bool) : list A → Prop :=
  StronglySorted (λ a b, comp b a = false).
End algorithms.

(** What [std::sort] promises: a sorted permutation; the order of equivalent
    elements is not specified, so the components are written against this
    interface and not against one sorting function. *)
Class StdSort {A} (comp : A → A → bool) := {
  std_sort : list A → list A;
  std_sort_perm : ∀ l, std_sort l ≡ₚ l;
  std_sort_sorted : ∀ l, sorted_by comp (std_sort l);
}.
Arguments std_sort {A} comp {_} l.

Lemma std_merge_perm {A} comp (l1 l2 : list A) :
  std_merge comp l1 l2 ≡ₚ l1 ++ l2.
Proof.
  revert l2. induction l1 as [|x1 l1 IH1]; intros l2.
  { by destruct l2. }
  induction l2 as [|x2 l2 IH2]; simpl.
  - by rewrite app_nil_r.
  - destruct (comp x2 x1).
    + rewrite IH2. by rewrite (Permutation_middle (x1 :: l1) l2 x2).
    + by rewrite IH1.
Qed.

Lemma std_merge_nil_l {A} (comp : A → A → bool) l : std_merge comp [] l = l.
Proof. by destruct l. Qed.

Lemma std_merge_nil_r {A} (comp : A → A → bool) l : std_merge comp l [] = l.
Proof. by destruct l. Qed.

Lemma elem_of_std_merge {A} comp (l1 l2 : list A) x :
  x ∈ std_merge comp l1 l2 ↔ x ∈ l1 ∨ x ∈ l2.
Proof. by rewrite std_merge_perm, elem_of_app. Qed.

(** A comparator is a strict weak order when "not after" is transitive. *)
Class StrictWeak {A} (comp : A → A → bool) := {
  comp_asym : ∀ a b, comp a b = true → comp b a = false;
  comp_trans_not : ∀ a b c, comp b a = false → comp c b = false → comp c a = false;
}.

Lemma comp_flip {A} {comp : A → A → bool} `{!StrictWeak comp} a b c :
  comp a b = true → comp c b = false → comp c a = false.
Proof. intros H1%comp_asym H2. by apply (comp_trans_not a b c). Qed.

Lemma std_merge_sorted {A} (comp : A → A → bool) `{!StrictWeak comp} l1 l2 :
  sorted_by comp l1 → sorted_by comp l2 → sorted_by comp (std_merge comp l1 l2).
Proof.
  unfold sorted_by. revert l2. induction l1 as [|x1 l1 IH1]; intros l2.
  { by destruct l2. }
  induction l2 as [|x2 l2 IH2]; intros H1 H2; [done|].
  apply StronglySorted_cons in H1 as Hc1. destruct Hc1 as [F1 S1].
  apply StronglySorted_cons in H2 as Hc2. destruct Hc2 as [F2 S2].
  simpl. destruct (comp x2 x1) eqn:E; apply StronglySorted_cons.
  - split; [|by apply IH2]. apply Forall_forall. intros y Hy.
    apply (elem_of_std_merge comp (x1 :: l1)) in Hy as [[->|Hy]%elem_of_cons|Hy].
    + by apply comp_asym.
    + rewrite Forall_forall in F1. specialize (F1 y Hy). by apply (comp_flip x2 x1 y).
    + rewrite Forall_forall in F2. by apply F2.
  - split; [|by apply IH1]. apply Forall_forall. intros y Hy.
    apply elem_of_std_merge in Hy as [Hy|[->|Hy]%elem_of_cons].
    + rewrite Forall_forall in F1. by apply F1.
    + done.
    + rewrite Forall_forall in F2. specialize (F2 y Hy).
      by apply (comp_trans_not x1 x2 y).
Qed.

(** ** Insertion sort: one admissible [std::sort] *)
Section insertion.
Context {A : Type} (comp : A → A → bool) `{!StrictWeak comp}.

Fixpoint ins (x : A) (l : list A) : list A :=
  match l with
  | [] => [x]
  | y :: l' => if comp y x then y :: ins x l' else x :: y :: l'
  end.

Definition ins_sort (l : list A) : list A := foldr ins [] l.

Lemma ins_perm x l : ins x l ≡ₚ x :: l.
Proof.
  induction l as [|y l IH]; simpl; [done|]. destruct (comp y x); [|done].
  rewrite IH. constructor.
Qed.

Lemma ins_sort_perm l : ins_sort l ≡ₚ l.
Proof. induction l as [|x l IH]; simpl; [done|]. by rewrite ins_perm, IH. Qed.

Lemma ins_sorted x l : sorted_by comp l → sorted_by comp (ins x l).
Proof.
  unfold sorted_by. induction l as [|y l IH]; intros Hs; simpl.
  { by repeat constructor. }
  apply StronglySorted_cons in Hs as Hc. destruct Hc as [F S].
  destruct (comp y x) eqn:E; apply StronglySorted_cons.
  - split; [|auto]. rewrite ins_perm. constructor; [by apply comp_asym|done].
  - split; [|done]. constructor; [done|]. eapply Forall_impl; [done|].
    intros z Hz. by apply (comp_trans_not x y z).
Qed.

Lemma ins_sort_sorted l : sorted_by comp (ins_sort l).
Proof. induction l; simpl; [constructor|by apply ins_sorted]. Qed.

#[export] Instance StdSort_insertion : StdSort comp | 100 :=
  {| std_sort := ins_sort; std_sort_perm := ins_sort_perm;
     std_sort_sorted := ins_sort_sorted |}.
End insertion.

#[export] Instance StrictWeak_ltb : StrictWeak Z.ltb.
Proof. split; intros *; rewrite ?Z.ltb_ge, ?Z.ltb_lt; lia. Qed.

(** On a total order all sorting functions agree. *)
Lemma sorted_by_ltb_unique (l1 l2 : list Z) :
  sorted_by Z.ltb l1 → sorted_by Z.ltb l2 → l1 ≡ₚ l2 → l1 = l2.
Proof.
  unfold sorted_by. intros H1 H2 Hp.
  apply (StronglySorted_unique_strong (λ a b, (b <? a) = false)); try done.
  intros ?????? . bool_lia.
Qed.

(** ** [std::unique] on a sorted range *)
Lemma elem_of_std_unique (l : list Z) x :
  x ∈ std_unique Z.eqb l ↔ x ∈ l.
Proof.
  induction l as [|y l IH]; simpl; [done|].
  destruct (std_unique Z.eqb l) as [|z r] eqn:E.
  - rewrite !elem_of_cons, <-IH. done.
  - destruct (Z.eqb_spec y z) as [->|?].
    + rewrite (elem_of_cons l), <-IH, !elem_of_cons. naive_solver.
    + by rewrite (elem_of_cons l), <-IH, elem_of_cons.
Qed.

Lemma std_unique_strict (l : list Z) :
  sorted_by Z.ltb l → StronglySorted Z.lt (std_unique Z.eqb l).
Proof.
  unfold sorted_by. induction l as [|y l IH]; simpl; intros Hs; [constructor|].
  apply StronglySorted_cons in Hs as [F S]. specialize (IH S).
  assert (Forall (Z.le y) (std_unique Z.eqb l)) as Hle.
  { apply Forall_forall. intros z Hz. rewrite elem_of_std_unique in Hz.
    rewrite Forall_forall in F. specialize (F z Hz). bool_lia. }
  destruct (std_unique Z.eqb l) as [|z r] eqn:E; [by repeat constructor|].
  apply Forall_cons in Hle as [Hyz Hle].
  destruct (Z.eqb_spec y z) as [->|Hne]; [done|].
  apply StronglySorted_cons in IH as IH'. destruct IH' as [Fz Sr].
  apply StronglySorted_cons. split; [|done].
  constructor; [lia|]. eapply Forall_impl; [exact Fz|]. simpl. intros; lia.
Qed.

Lemma StronglySorted_lt_NoDup (l : list Z) : StronglySorted Z.lt l → NoDup l.
Proof.
  induction l as [|x l IH]; intros Hs; [constructor|].
  apply StronglySorted_cons in Hs as [F S]. constructor; [|auto].
  intros Hx. rewrite Forall_forall in F. specialize (F x Hx). lia.
Qed.
