(* ===== verification/Policy.v ===== *)
(** The build configuration and the policy types of medsm2.

    [policy] collects the CMake options of medsm2 (the macros the sources
    test with [#ifdef]) and the constants of [dsm_base_policy]
    (medsm2/src/mpi_svm_space.cpp), so that every component file is written
    once for all builds; [default_policy] is the build CMakeLists.txt
    produces. Also here: the write notice [wn_entry_type], the comparators of
    the policy, and the integer helpers of mefdn. *)
From Stdlib Require Import ZArith Lia.
From stdpp Require Import base tactics list.
From S2P Require Import Prelude.

Record policy := {
  max_space_size : Z;
  max_seg_size : Z;
  lease_ts : Z;
  max_rel_sig_len : nat;
  wr_count_threshold : Z;
  max_fast_rel_threshold : Z;
  enable_migration : bool;
  enable_lazy_merge : bool;
  enable_fast_release : bool;
  enable_needs_local_comp : bool;
  use_simd_diff : bool;
  enable_race_detection : bool;
  use_sig_buffer_merge_table : bool;
  use_directory_coherence : bool;
  enable_fault_classification : bool;
}.

(** The defaults of medsm2/CMakeLists.txt. *)
Definition default_policy : policy := {|
  max_space_size := 0x100000000000;
  max_seg_size := 0x100000000000 / 64;
  lease_ts := 10;
  max_rel_sig_len := 1024;
  wr_count_threshold := 2;
  max_fast_rel_threshold := 64;
  enable_migration := true;
  enable_lazy_merge := true;
  enable_fast_release := true;
  enable_needs_local_comp := false;
  use_simd_diff := true;
  enable_race_detection := true;
  use_sig_buffer_merge_table := true;
  use_directory_coherence := false;
  enable_fault_classification := true;
|}.

(** The build with every optional feature off. *)
Definition plain_policy : policy := {|
  max_space_size := 0x100000000000;
  max_seg_size := 0x100000000000 / 64;
  lease_ts := 10;
  max_rel_sig_len := 1024;
  wr_count_threshold := 2;
  max_fast_rel_threshold := 64;
  enable_migration := false;
  enable_lazy_merge := false;
  enable_fast_release := false;
  enable_needs_local_comp := false;
  use_simd_diff := false;
  enable_race_detection := false;
  use_sig_buffer_merge_table := false;
  use_directory_coherence := false;
  enable_fault_classification := false;
|}.

(** The [#error] conditions of medsm2/common.hpp. *)
Definition config_allowed (P : policy) : bool :=
  negb (negb (enable_migration P) && enable_lazy_merge P)
  && negb (negb (enable_lazy_merge P) && enable_fast_release P)
  && negb (enable_lazy_merge P && use_directory_coherence P).

(** The conditions on the constants the theorems about timestamps use: the
    lease is a [uint64_t], and the thresholds are at least one. *)
Record policy_ok (P : policy) : Prop := {
  policy_config : config_allowed P = true;
  policy_lease : is_u64 (lease_ts P);
  policy_threshold : 1 ≤ wr_count_threshold P;
  policy_fast : 1 ≤ max_fast_rel_threshold P;
}.

Lemma default_policy_ok : policy_ok default_policy.
Proof. split; vm_compute; intuition congruence. Qed.

(** [fault_kind_t]. *)
Inductive fault_kind := fault_unknown | fault_read | fault_write | fault_exec.

(** [dsm_base_policy::wn_entry_type]: a write notice. *)
Record wn_entry := Wn {
  wn_home_proc : Z;
  wn_blk_id : Z;
  wn_rd_ts : Z;
  wn_wr_ts : Z;
}.

#[export] Instance wn_entry_eq_dec : EqDecision wn_entry.
Proof. solve_decision. Defined.

Definition is_greater_rd_ts (a b : Z) : bool := b <? a.
Definition is_greater_wr_ts (a b : Z) : bool := b <? a.
Definition make_init_wr_ts : Z := 0.
Definition get_wr_ts (wn : wn_entry) : Z := wn_wr_ts wn.

(** [is_valid_mutex_id]. *)
Definition is_valid_mutex_id (mtx_id : Z) : bool := negb (mtx_id =? 0).

(** [sig_buffer::greater_wn]. *)
Definition greater_wn (a b : wn_entry) : bool :=
  is_greater_wr_ts (get_wr_ts a) (get_wr_ts b).

#[export] Instance StrictWeak_greater_wn : StrictWeak greater_wn.
Proof.
  split; unfold greater_wn, is_greater_wr_ts; intros *;
    rewrite ?Z.ltb_ge, ?Z.ltb_lt; lia.
Qed.

Lemma greater_wn_false a b : greater_wn b a = false ↔ wn_wr_ts b ≤ wn_wr_ts a.
Proof. unfold greater_wn, is_greater_wr_ts, get_wr_ts. by rewrite Z.ltb_ge. Qed.

Lemma is_greater_rd_ts_true a b : is_greater_rd_ts a b = true ↔ b < a.
Proof. apply Z.ltb_lt. Qed.

Lemma is_greater_rd_ts_false a b : is_greater_rd_ts a b = false ↔ a ≤ b.
Proof. apply Z.ltb_ge. Qed.

#[export] Hint Rewrite greater_wn_false is_greater_rd_ts_true
  is_greater_rd_ts_false : menps.

(** * mefdn/arithmetic.hpp *)

(** The loop of [floor_log2]: [while ((x >>= 1) > 0) ++result;]. *)
Fixpoint floor_log2_loop (fuel : nat) (x result : Z) : Z :=
  match fuel with
  | O => result
  | S fuel =>
      let x := Z.shiftr x 1 in
      if 0 <? x then floor_log2_loop fuel x (result + 1) else result
  end.

(** 64 iterations are enough for a [size_t]. *)
Definition floor_log2 (x : Z) : Z := floor_log2_loop 64 x 0.

Definition is_power_of_2 (x : Z) : bool :=
  negb (x =? 0) && (Z.land x (u64 (x - 1)) =? 0).

(** [fdn::roundup_divide] (cmpth/fdn/fdn.hpp). *)
Definition roundup_divide (x y : Z) : Z := u64 (u64 (x + y) - 1) / y.

Lemma floor_log2_loop_spec fuel x r :
  0 ≤ x < 2 ^ Z.of_nat fuel → floor_log2_loop fuel x r = r + Z.log2 x.
Proof.
  revert x r. induction fuel as [|fuel IH]; intros x r Hx.
  { simpl in *. replace x with 0 by lia. simpl. lia. }
  cbn [floor_log2_loop].
  rewrite Nat2Z.inj_succ, Z.pow_succ_r in Hx by lia.
  rewrite Z.shiftr_div_pow2, Z.pow_1_r by lia.
  destruct (Z.ltb_spec 0 (x / 2)) as [H|H].
  - rewrite IH by (split; [lia|apply Z.div_lt_upper_bound; lia]).
    assert (Z.log2 (x / 2) = Z.log2 x - 1) as ->; [|lia].
    assert (2 ≤ x) as H2.
    { destruct (Z_lt_le_dec x 2); [|done]. rewrite Z.div_small in H; lia. }
    change (x / 2) with (x / 2 ^ 1). rewrite <-Z.shiftr_div_pow2, Z.log2_shiftr by lia.
    apply Z.log2_le_mono in H2. change (Z.log2 2) with 1 in H2. lia.
  - assert (x < 2) as Hlt.
    { destruct (Z_lt_le_dec x 2); [done|].
      assert (1 ≤ x / 2) by (apply Z.div_le_lower_bound; lia). lia. }
    assert (x = 0 ∨ x = 1) as [-> | ->] by lia; cbn; lia.
Qed.

Lemma floor_log2_spec x : is_u64 x → floor_log2 x = Z.log2 x.
Proof. intros H. unfold floor_log2. rewrite floor_log2_loop_spec; [lia|exact H]. Qed.

Lemma pow2_testbits x n :
  0 < x → Z.land x (x - 1) = 0 → Z.testbit x n = true → n = Z.log2 x.
Proof.
  intros Hx Hl Hn.
  destruct (Z.eq_dec n (Z.log2 x)) as [|Hne]; [done|exfalso].
  assert (0 ≤ n) by (destruct (Z_lt_le_dec n 0); [by rewrite Z.testbit_neg_r in Hn|done]).
  assert (n < Z.log2 x).
  { destruct (Z_lt_le_dec n (Z.log2 x)); [done|].
    rewrite Z.bits_above_log2 in Hn by lia. done. }
  assert (2 ^ Z.log2 x + 1 ≤ x) as Hge.
  { pose proof (Z.log2_spec x Hx). destruct (Z.eq_dec x (2 ^ Z.log2 x)) as [Heq|]; [|lia].
    rewrite Heq, Z.pow2_bits_false in Hn by lia. done. }
  assert (Z.log2 (x - 1) = Z.log2 x) as Hlog.
  { apply Z.log2_unique; [apply Z.log2_nonneg|]. pose proof (Z.log2_spec x Hx). lia. }
  assert (Z.testbit (Z.land x (x - 1)) (Z.log2 x) = true) as Hb.
  { rewrite Z.land_spec, Z.bit_log2 by done. rewrite <-Hlog at 1.
    rewrite Z.bit_log2 by (pose proof (Z.pow_pos_nonneg 2 (Z.log2 x)); 
      pose proof (Z.log2_nonneg x); lia). done. }
  by rewrite Hl, Z.bits_0 in Hb.
Qed.

Lemma is_power_of_2_spec x :
  is_u64 x → is_power_of_2 x = true → x = 2 ^ floor_log2 x.
Proof.
  intros Hr H. unfold is_power_of_2 in H. bool_to_prop.
  assert (0 < x) by (unfold is_u64 in Hr; lia).
  rewrite u64_small in * by (unfold is_u64 in *; lia).
  rewrite floor_log2_spec by done. apply Z.bits_inj'. intros n Hn.
  rewrite Z.pow2_bits_eqb by apply Z.log2_nonneg.
  destruct (Z.testbit x n) eqn:E.
  - symmetry. apply Z.eqb_eq. symmetry. by apply pow2_testbits.
  - destruct (Z.eqb_spec (Z.log2 x) n) as [<-|]; [|done].
    by rewrite Z.bit_log2 in E.
Qed.

Lemma roundup_divide_spec x y :
  0 ≤ x → 0 < y → x + y < u64_mod →
  let n := roundup_divide x y in x ≤ n * y < x + y.
Proof.
  intros Hx Hy Hb n. unfold n, roundup_divide.
  rewrite (u64_small (x + y)), u64_small by (unfold is_u64; lia).
  pose proof (Z.div_mod (x + y - 1) y). pose proof (Z.mod_pos_bound (x + y - 1) y). lia.
Qed.
