(* ===== verification/SigBuffer.v ===== *)
(** Release signatures: sig_buffer.hpp and rel_sig.hpp of medsm2/dsm.

    A signature is the list of write notices a process must honour at its next
    acquire, newest first, together with a minimum write timestamp that stands
    for every notice that was dropped. [merge] is written twice in the source
    (a table of per-block flags, or [std::merge] and a hash set); both are
    here, over the interface [FlagTable] that the segment table implements. *)
From Stdlib Require Import ZArith Lia Sorted Permutation.
From stdpp Require Import base tactics list gmap sorting.
From S2P Require Import Prelude.
From S2P Require Import Policy.

(** The state of class [sig_buffer]. *)
Record sig_buffer := SigBuffer { min_wr_ts : Z; wn_vec : list wn_entry }.

#[export] Instance sig_buffer_eq_dec : EqDecision sig_buffer.
Proof. solve_decision. Defined.

(** [sig_buffer() = default]. *)
Definition empty_sig : sig_buffer := SigBuffer 0 [].

(** What [merge] needs of the segment table: one flag per block. [ft_known]
    says that the block id belongs to a registered segment. *)
Class FlagTable (F : Type) := {
  ft_known : F → Z → Prop;
  ft_get : F → Z → bool;
  try_set_flag : F → Z → result (bool * F);
  unset_flag : F → Z → result F;
}.

Class FlagTableLaws (F : Type) `{FlagTable F} := {
  try_set_flag_spec : ∀ f b, ft_known f b →
    ∃ f', try_set_flag f b = Ok (negb (ft_get f b), f')
      ∧ (∀ c, ft_known f' c ↔ ft_known f c)
      ∧ (∀ c, ft_known f c → ft_get f' c = if decide (c = b) then true else ft_get f c);
  unset_flag_spec : ∀ f b, ft_known f b → ft_get f b = true →
    ∃ f', unset_flag f b = Ok f'
      ∧ (∀ c, ft_known f' c ↔ ft_known f c)
      ∧ (∀ c, ft_known f c → ft_get f' c = if decide (c = b) then false else ft_get f c);
}.

(** * Operations *)

Definition create_from_wns `{!StdSort greater_wn} (wns : list wn_entry) : sig_buffer :=
  SigBuffer make_init_wr_ts (std_sort greater_wn wns).

Definition create_from_ts (ts : Z) : sig_buffer := SigBuffer ts [].

Definition truncate (max_size : nat) (s : sig_buffer) : sig_buffer :=
  match wn_vec s !! max_size with
  | Some wn => SigBuffer (min_wr_ts s `max` get_wr_ts wn) (take max_size (wn_vec s))
  | None => s
  end.

(** One iteration of the loop of [merge] under
    [MEDSM2_USE_SIG_BUFFER_MERGE_TABLE]: the notice is kept when the flag of
    its block was still clear; then [rest], the remaining iterations. *)
Definition merge_table_visit `{FlagTable F} (wn : wn_entry)
    (rest : F → result (list wn_entry * F)) (f : F) : result (list wn_entry * F) :=
  match try_set_flag f (wn_blk_id wn) with
  | Ok (set, f) => '(out, f) ← rest f; Ok (if set : bool then wn :: out else out, f)
  | Fail e => Fail e
  end.

(** The loop: while both lists have notices the newer head goes first (the
    second list's on a tie), then the rest of the other one. *)
Fixpoint merge_table_loop `{FlagTable F} (a : list wn_entry) :
    list wn_entry → F → result (list wn_entry * F) :=
  fix inner (b : list wn_entry) : F → result (list wn_entry * F) :=
    match a, b with
    | [], [] => λ f, Ok ([], f)
    | wa :: a', [] => merge_table_visit wa (merge_table_loop a' [])
    | [], wb :: b' => merge_table_visit wb (inner b')
    | wa :: a', wb :: b' =>
        if greater_wn wa wb then merge_table_visit wa (merge_table_loop a' (wb :: b'))
        else merge_table_visit wb (inner b')
    end.

(** [for (const auto& wn : new_wn_vec) seg_tbl.unset_flag(wn.blk_id);] *)
Fixpoint unset_flags `{FlagTable F} (wns : list wn_entry) (f : F) : result F :=
  match wns with
  | [] => Ok f
  | wn :: wns => f ← unset_flag f (wn_blk_id wn); unset_flags wns f
  end.

Definition merge_table `{FlagTable F} (a b : list wn_entry) (f : F) :
    result (list wn_entry * F) :=
  '(out, f) ← merge_table_loop a b f;
  f ← unset_flags out f;
  Ok (out, f).

(** The duplicate removal of the other variant: [exist_ids] is the hash set. *)
Fixpoint remove_duplicated (exist_ids : gset Z) (l : list wn_entry) : list wn_entry :=
  match l with
  | [] => []
  | wn :: l =>
      if decide (wn_blk_id wn ∈ exist_ids) then remove_duplicated exist_ids l
      else wn :: remove_duplicated ({[wn_blk_id wn]} ∪ exist_ids) l
  end.

Definition merge_std (a b : list wn_entry) : list wn_entry :=
  remove_duplicated ∅ (std_merge greater_wn a b).

(** [sig_buffer::merge]. *)
Definition merge `{FlagTable F} (P : policy) (f : F) (sig_a sig_b : sig_buffer) :
    result (sig_buffer * F) :=
  '(new_wn_vec, f) ←
    (if use_sig_buffer_merge_table P
     then merge_table (wn_vec sig_a) (wn_vec sig_b) f
     else Ok (merge_std (wn_vec sig_a) (wn_vec sig_b), f));
  Ok (SigBuffer (min_wr_ts sig_a `max` min_wr_ts sig_b) new_wn_vec, f).

(** ** Serialization

    A [header] is two 8-byte integers; a [wn_entry_type] is a 4-byte [int],
    4 bytes of padding and three 8-byte integers. The padding bytes of an
    entry are not specified, so they are a parameter of the writers, like the
    contents of the uninitialised buffer. *)
Definition sizeof_header : Z := 16.
Definition sizeof_wn_entry : Z := 32.

Definition get_size_in_bytes (num_wns : Z) : Z :=
  u64 (sizeof_header + num_wns * sizeof_wn_entry).

(** A 4-byte [int] in two's complement. *)
Definition to_int32 (x : Z) : Z := if x <? 2 ^ 31 then x else x - 2 ^ 32.

Definition write_wn (pad : wn_entry → list Z) (wn : wn_entry) : list Z :=
  le_bytes 4 (wn_home_proc wn mod 2 ^ 32) ++ pad wn ++
  le_bytes 8 (wn_blk_id wn) ++ le_bytes 8 (wn_rd_ts wn) ++ le_bytes 8 (wn_wr_ts wn).

Definition write_sig (pad : wn_entry → list Z) (s : sig_buffer) : list Z :=
  le_bytes 8 (min_wr_ts s) ++ le_bytes 8 (Z.of_nat (length (wn_vec s))) ++
  mjoin (write_wn pad <$> wn_vec s).

Definition serialize_to (pad : wn_entry → list Z) (s : sig_buffer)
    (dest : list Z) (dest_size : Z) : result (list Z) :=
  let required :=
    u64 (sizeof_header + Z.of_nat (length (wn_vec s)) * sizeof_wn_entry) in
  _ ← assert_ (required <=? dest_size);
  Ok (overwrite (write_sig pad s) dest).

(** [serialize]: [uninit] is what the fresh array of [size] bytes held. *)
Definition serialize (pad : wn_entry → list Z) (uninit : list Z)
    (s : sig_buffer) (size : Z) : result (list Z) :=
  let required := get_size_in_bytes (Z.of_nat (length (wn_vec s))) in
  _ ← assert_ (required <=? size);
  serialize_to pad s uninit size.

Definition read_u64 (off : nat) (src : list Z) : Z := le_value (take 8 (drop off src)).

(** The [wn_entry_type] at the front of a byte range. *)
Definition read_wn (src : list Z) : result wn_entry :=
  if Z.of_nat (length src) <? sizeof_wn_entry then Fail OutOfBounds
  else Ok (Wn (to_int32 (le_value (take 4 src)))
            (read_u64 8 src) (read_u64 16 src) (read_u64 24 src)).

(** [wn_vector_type wn_vec(wrs, wrs + num_entries)]. *)
Fixpoint read_wns (n : nat) (src : list Z) : result (list wn_entry) :=
  match n with
  | O => Ok []
  | S n => wn ← read_wn src; wns ← read_wns n (drop 32 src); Ok (wn :: wns)
  end.

Definition deserialize_from (src : list Z) (src_size : Z) : result sig_buffer :=
  _ ← assert_ (sizeof_header <=? src_size);
  let min_wr_ts := read_u64 0 src in
  let num_entries := read_u64 8 src in
  let required := get_size_in_bytes num_entries in
  _ ← assert_ (required <=? src_size);
  wns ← read_wns (Z.to_nat num_entries) (drop 16 src);
  Ok (SigBuffer min_wr_ts wns).

(** ** Class [rel_sig]: its state is one signature, every method runs under
    its mutex. *)
Definition rel_sig_merge `{FlagTable F} (P : policy) (f : F) (self sig : sig_buffer) :
    result (sig_buffer * F) :=
  '(merged_sig, f) ← merge P f self sig;
  Ok (truncate (max_rel_sig_len P) merged_sig, f).

Definition rel_sig_merge_wns `{FlagTable F, !StdSort greater_wn} (P : policy) (f : F)
    (self : sig_buffer) (wns : list wn_entry) : result (sig_buffer * F) :=
  rel_sig_merge P f self (create_from_wns wns).

Definition serialize_and_clear (pad : wn_entry → list Z) (uninit : list Z)
    (self : sig_buffer) (size : Z) : result (list Z * sig_buffer) :=
  ret ← serialize pad uninit self size;
  Ok (ret, empty_sig).

Definition get_max_size_in_bytes (P : policy) : Z :=
  get_size_in_bytes (Z.of_nat (max_rel_sig_len P)).

Definition get_sig (self : sig_buffer) (clear_sig : bool) : sig_buffer * sig_buffer :=
  if clear_sig then (self, empty_sig) else (self, self).

(** * What a signature promises

    [latest l b] is the newest write timestamp a list of notices holds for
    block [b], or [-1]; a signature covers a write of block [b] at [ts] when
    acquiring it invalidates every copy leased only up to before [ts]. *)
Definition latest (l : list wn_entry) (b : Z) : Z :=
  foldr (λ wn m, if decide (wn_blk_id wn = b) then wn_wr_ts wn `max` m else m) (-1) l.

Definition covers (s : sig_buffer) (b ts : Z) : Prop :=
  ts ≤ min_wr_ts s ∨ ∃ wn, wn ∈ wn_vec s ∧ wn_blk_id wn = b ∧ ts ≤ wn_wr_ts wn.

(** The well-formed signatures: newest first, one notice per block. *)
Record sig_wf (s : sig_buffer) : Prop := {
  sig_sorted : sorted_by greater_wn (wn_vec s);
  sig_nodup : NoDup (wn_blk_id <$> wn_vec s);
}.

(** Signatures that make the same promises. *)
Definition sig_equiv (s1 s2 : sig_buffer) : Prop :=
  min_wr_ts s1 = min_wr_ts s2 ∧ ∀ b, latest (wn_vec s1) b = latest (wn_vec s2) b.

#[export] Instance sig_equiv_equivalence : Equivalence sig_equiv.
Proof.
  split; unfold sig_equiv.
  - done.
  - intros s1 s2 [H1 H2]. by split.
  - intros s1 s2 s3 [H1 H2] [H3 H4]. split; [congruence|]. intros b. by rewrite H2.
Qed.

Lemma latest_ge l b ts :
  0 ≤ ts → ts ≤ latest l b ↔ ∃ wn, wn ∈ l ∧ wn_blk_id wn = b ∧ ts ≤ wn_wr_ts wn.
Proof.
  intros Hts. induction l as [|wn l IH]; simpl.
  - split; [lia|]. intros (? & Hin & _). by apply not_elem_of_nil in Hin.
  - case_decide.
    + rewrite Z.max_le_iff, IH. split.
      * intros [?|(w & ? & ? & ?)]; [exists wn|exists w]; set_solver.
      * intros (w & [->|?]%elem_of_cons & ? & ?); [by left|right; eauto].
    + rewrite IH. split; intros (w & Hin & ? & ?).
      * exists w. set_solver.
      * apply elem_of_cons in Hin as [->|?]; [done|eauto].
Qed.

Lemma covers_latest s b ts :
  0 ≤ ts → covers s b ts ↔ ts ≤ min_wr_ts s ∨ ts ≤ latest (wn_vec s) b.
Proof. intros. unfold covers. by rewrite latest_ge. Qed.

#[export] Instance latest_perm : Proper ((≡ₚ) ==> eq ==> eq) latest.
Proof.
  intros l1 l2 Hl b ? <-. unfold latest.
  induction Hl; simpl; repeat case_decide; try congruence; lia.
Qed.

Lemma latest_app l1 l2 b : -1 ≤ latest l2 b → latest (l1 ++ l2) b = latest l1 b `max` latest l2 b.
Proof.
  intros. induction l1 as [|w l1 IH]; simpl; [lia|]. case_decide; rewrite IH; lia.
Qed.

Lemma latest_lower l b : -1 ≤ latest l b.
Proof. induction l; simpl; [lia|]. case_decide; lia. Qed.

Lemma latest_not_in l b : b ∉ (wn_blk_id <$> l) → latest l b = -1.
Proof.
  induction l as [|w l IH]; simpl; [done|]. intros Hn%not_elem_of_cons.
  destruct Hn as [? ?]. rewrite decide_False by congruence. auto.
Qed.

Lemma sorted_head_latest w l :
  sorted_by greater_wn (w :: l) → latest l (wn_blk_id w) `max` wn_wr_ts w = wn_wr_ts w `max` (-1).
Proof.
  intros [_ F]%StronglySorted_inv. induction l as [|x l IH]; simpl; [lia|].
  apply Forall_cons in F as [Fx F]. rewrite greater_wn_false in Fx.
  specialize (IH F). case_decide; lia.
Qed.

Lemma remove_duplicated_latest ex l b :
  Forall (λ wn, 0 ≤ wn_wr_ts wn) l → sorted_by greater_wn l →
  latest (remove_duplicated ex l) b = if decide (b ∈ ex) then -1 else latest l b.
Proof.
  revert ex. induction l as [|w l IH]; intros ex Hpos Hs; cbn [remove_duplicated].
  { simpl. by case_decide. }
  apply Forall_cons in Hpos as [Hw Hpos].
  pose proof (sorted_head_latest w l Hs) as Hhd.
  apply StronglySorted_cons in Hs as [_ Hs].
  destruct (decide (wn_blk_id w ∈ ex)) as [Hin|Hin]; cbn [latest foldr].
  - rewrite IH by done. fold (latest l b). repeat case_decide; simplify_eq; done.
  - fold (latest l b). fold (latest (remove_duplicated ({[wn_blk_id w]} ∪ ex) l) b).
    rewrite IH by done.
    destruct (decide (wn_blk_id w = b)) as [<-|Hne].
    + rewrite (decide_True (P := wn_blk_id w ∈ {[wn_blk_id w]} ∪ ex)) by set_solver.
      rewrite decide_False by done. lia.
    + destruct (decide (b ∈ ex)).
      * by rewrite decide_True by set_solver.
      * by rewrite decide_False by set_solver.
Qed.

Lemma remove_duplicated_sublist ex l : sublist (remove_duplicated ex l) l.
Proof.
  revert ex. induction l as [|w l IH]; intros ex; simpl; [done|].
  case_decide; [by constructor|by constructor].
Qed.

Lemma remove_duplicated_ids ex l w :
  w ∈ l → wn_blk_id w ∉ ex → wn_blk_id w ∈ wn_blk_id <$> remove_duplicated ex l.
Proof.
  revert ex. induction l as [|x l IH]; intros ex Hw Hex; simpl.
  { by apply not_elem_of_nil in Hw. }
  destruct (decide (wn_blk_id x = wn_blk_id w)) as [Heq|Hne].
  - rewrite decide_False by congruence. rewrite fmap_cons, Heq. by constructor.
  - apply elem_of_cons in Hw as [->|Hw]; [done|]. case_decide; [by apply IH|].
    rewrite fmap_cons. right. apply IH; [done|]. set_solver.
Qed.

Lemma remove_duplicated_nodup ex l :
  NoDup (wn_blk_id <$> remove_duplicated ex l)
  ∧ ∀ b, b ∈ ex → b ∉ (wn_blk_id <$> remove_duplicated ex l).
Proof.
  revert ex. induction l as [|w l IH]; intros ex; simpl.
  { split; [constructor|]. set_solver. }
  case_decide as Hin; [apply IH|]. destruct (IH ({[wn_blk_id w]} ∪ ex)) as [IH1 IH2].
  split; [rewrite fmap_cons; constructor; [apply IH2; set_solver|done]|].
  intros b Hb. rewrite fmap_cons, not_elem_of_cons. split; [set_solver|]. apply IH2. set_solver.
Qed.

Lemma sorted_sublist (l k : list wn_entry) :
  sublist l k → sorted_by greater_wn k → sorted_by greater_wn l.
Proof.
  unfold sorted_by. induction 1 as [|x l k Hs IH|x l k Hs IH]; intros Hk; [done| |].
  - apply StronglySorted_cons in Hk as [F S]. apply StronglySorted_cons.
    split; [|auto]. rewrite Forall_forall in *.
    intros y Hy. apply F. by eapply elem_of_sublist.
  - apply StronglySorted_cons in Hk as [F S]. auto.
Qed.

(** ** The flag-table variant is the duplicate removal of a merge *)
Section merge_table.
Context `{FlagTableLaws F}.

Definition all_known (f : F) (l : list wn_entry) : Prop :=
  Forall (λ wn, ft_known f (wn_blk_id wn)) l.

(** The flags that are set are exactly those of [ex]. *)
Definition flags_are (f : F) (ex : gset Z) : Prop :=
  ∀ b, ft_known f b → ft_get f b = bool_decide (b ∈ ex).

(** What the loop from flags [f] over a rest [l] must return. *)
Definition loop_post (ex : gset Z) (l : list wn_entry) (f : F)
    (r : result (list wn_entry * F)) : Prop :=
  ∃ f', r = Ok (remove_duplicated ex l, f')
    ∧ (∀ b, ft_known f' b ↔ ft_known f b)
    ∧ flags_are f' (ex ∪ list_to_set (wn_blk_id <$> l)).

Lemma merge_table_visit_spec w f ex rest l :
  ft_known f (wn_blk_id w) → all_known f l → flags_are f ex →
  (∀ f ex, all_known f l → flags_are f ex → loop_post ex l f (rest f)) →
  loop_post ex (w :: l) f (merge_table_visit w rest f).
Proof.
  intros Hk Hl Hf IH. unfold merge_table_visit.
  destruct (try_set_flag_spec f (wn_blk_id w) Hk) as (f1 & -> & Hk1 & Hg1).
  assert (flags_are f1 ({[wn_blk_id w]} ∪ ex)) as Hf1.
  { intros b Hb. rewrite Hg1 by (by apply Hk1). case_decide as E.
    - symmetry. apply bool_decide_eq_true. set_solver.
    - rewrite Hf by (by apply Hk1). apply bool_decide_ext. set_solver. }
  destruct (IH f1 ({[wn_blk_id w]} ∪ ex)) as (f2 & E2 & Hk2 & Hg2); [|done|].
  { eapply Forall_impl; [exact Hl|]. intros x. apply Hk1. }
  exists f2. rewrite (Hf _ Hk), E2. cbn [negb]. split; [|split].
  - cbn [remove_duplicated]. case_decide as Hin.
    + rewrite bool_decide_true by done.
      by replace ({[wn_blk_id w]} ∪ ex) with ex by set_solver.
    + by rewrite bool_decide_false by done.
  - intros b. by rewrite Hk2, Hk1.
  - intros b Hb. rewrite Hg2 by done. apply bool_decide_ext. set_solver.
Qed.

Lemma all_known_merge f a b :
  all_known f (std_merge greater_wn b a) ↔ all_known f a ∧ all_known f b.
Proof. unfold all_known. rewrite std_merge_perm, Forall_app. tauto. Qed.

Lemma merge_table_loop_spec a b f ex :
  all_known f a → all_known f b → flags_are f ex →
  loop_post ex (std_merge greater_wn b a) f (merge_table_loop a b f).
Proof.
  revert b f ex. induction a as [|wa a IHa]; intros b.
  - rewrite std_merge_nil_r.
    induction b as [|wb b IHb]; intros f ex Ha Hb Hf.
    + exists f. simpl. rewrite union_empty_r_L. done.
    + apply Forall_cons in Hb as [Hw Hb]. cbn [merge_table_loop].
      apply merge_table_visit_spec; try done.
      intros. apply IHb; [constructor|done|done].
  - induction b as [|wb b IHb]; intros f ex Ha Hb Hf;
      apply Forall_cons in Ha as Ha'; destruct Ha' as [Hwa Ha'].
    + cbn [merge_table_loop std_merge]. apply merge_table_visit_spec; try done.
      intros f' ex' ? ?. pose proof (IHa [] f' ex') as IH.
      rewrite std_merge_nil_l in IH. apply IH; [done|constructor|done].
    + apply Forall_cons in Hb as Hb'. destruct Hb' as [Hwb Hb'].
      cbn [merge_table_loop std_merge]. destruct (greater_wn wa wb) eqn:E.
      * apply merge_table_visit_spec; try done.
        { by apply (all_known_merge f a (wb :: b)). }
        intros f' ex' Hm Hf'. apply (all_known_merge f' a (wb :: b)) in Hm as [? ?].
        by apply (IHa (wb :: b)).
      * apply merge_table_visit_spec; try done.
        { by apply (all_known_merge f (wa :: a) b). }
        intros f' ex' Hm Hf'. apply (all_known_merge f' (wa :: a) b) in Hm as [? ?].
        by apply IHb.
Qed.

Lemma unset_flags_spec l f ex :
  all_known f l → flags_are f (ex ∪ list_to_set (wn_blk_id <$> l)) →
  NoDup (wn_blk_id <$> l) → (∀ b, b ∈ wn_blk_id <$> l → b ∉ ex) →
  ∃ f', unset_flags l f = Ok f' ∧ (∀ b, ft_known f' b ↔ ft_known f b) ∧ flags_are f' ex.
Proof.
  revert f. induction l as [|w l IH]; intros f Hk Hf Hnd Hdis.
  { exists f. simpl in *. rewrite union_empty_r_L in Hf. done. }
  apply Forall_cons in Hk as [Hw Hk]. rewrite fmap_cons in *.
  apply NoDup_cons in Hnd as [Hnin Hnd].
  destruct (unset_flag_spec f (wn_blk_id w)) as (f1 & E1 & Hk1 & Hg1); [done| |].
  { rewrite Hf by done. apply bool_decide_eq_true. set_solver. }
  destruct (IH f1) as (f2 & E2 & Hk2 & Hf2).
  - eapply Forall_impl; [exact Hk|]. intros x. apply Hk1.
  - intros b Hb. rewrite Hg1 by (by apply Hk1). case_decide as E.
    + subst. symmetry. apply bool_decide_eq_false.
      specialize (Hdis (wn_blk_id w)). rewrite elem_of_union, elem_of_list_to_set.
      intros [Hin|Hin]; [|done]. apply Hdis; [set_solver|done].
    + rewrite Hf by (by apply Hk1). apply bool_decide_ext. set_solver.
  - done.
  - intros b Hb. apply Hdis. set_solver.
  - exists f2. cbn [unset_flags]. rewrite E1. cbn. split; [done|].
    split; [|done]. intros b. by rewrite Hk2, Hk1.
Qed.
End merge_table.

(** * Properties *)

(** Write timestamps are [uint64_t], in particular not negative. *)
Definition wns_ok (l : list wn_entry) : Prop := Forall (λ wn, 0 ≤ wn_wr_ts wn) l.

Lemma remove_duplicated_merge_latest a b c :
  wns_ok a → wns_ok b → sorted_by greater_wn a → sorted_by greater_wn b →
  latest (remove_duplicated ∅ (std_merge greater_wn a b)) c
  = latest a c `max` latest b c.
Proof.
  intros Ha Hb Sa Sb. rewrite remove_duplicated_latest.
  - rewrite decide_False by set_solver. rewrite std_merge_perm.
    apply latest_app, latest_lower.
  - unfold wns_ok in *. rewrite std_merge_perm, Forall_app. done.
  - apply std_merge_sorted; [apply _|done|done].
Qed.

(** The shape both variants of [merge] give their result. *)
Lemma merge_vec `{FlagTableLaws F} P f sa sb :
  all_known f (wn_vec sa) → all_known f (wn_vec sb) → flags_are f ∅ →
  ∃ f' a b, merge P f sa sb
      = Ok (SigBuffer (min_wr_ts sa `max` min_wr_ts sb)
              (remove_duplicated ∅ (std_merge greater_wn a b)), f')
    ∧ (∀ c, ft_known f' c ↔ ft_known f c) ∧ flags_are f' ∅
    ∧ ((a, b) = (wn_vec sa, wn_vec sb) ∨ (a, b) = (wn_vec sb, wn_vec sa)).
Proof.
  intros Ha Hb Hf. unfold merge. destruct (use_sig_buffer_merge_table P).
  - destruct (merge_table_loop_spec (wn_vec sa) (wn_vec sb) f ∅) as (f1 & E1 & Hk1 & Hf1);
      [done..|].
    set (out := remove_duplicated _ _) in *.
    assert (out `sublist_of` std_merge greater_wn (wn_vec sb) (wn_vec sa)) as Hsub
      by apply remove_duplicated_sublist.
    destruct (unset_flags_spec out f1 ∅) as (f2 & E2 & Hk2 & Hf2).
    + apply Forall_forall. intros w Hw. apply Hk1.
      assert (all_known f (std_merge greater_wn (wn_vec sb) (wn_vec sa))) as Hall
        by by apply all_known_merge.
      unfold all_known in Hall. rewrite Forall_forall in Hall. apply Hall.
      by eapply elem_of_sublist.
    + intros b Hb'. rewrite Hf1 by done. apply bool_decide_ext.
      rewrite !elem_of_union, !elem_of_list_to_set.
      split; intros [?|Hin]; try set_solver; right; last first.
      { apply list_elem_of_fmap in Hin as (w & -> & Hw). apply list_elem_of_fmap.
        exists w. split; [done|]. by eapply elem_of_sublist. }
      apply list_elem_of_fmap in Hin as (w & -> & Hw).
      by apply (remove_duplicated_ids ∅ _ w).
    + apply remove_duplicated_nodup.
    + set_solver.
    + exists f2, (wn_vec sb), (wn_vec sa). unfold merge_table. rewrite E1. cbn.
      rewrite E2. cbn. split; [done|]. split; [|auto].
      intros c. by rewrite Hk2, Hk1.
  - exists f, (wn_vec sa), (wn_vec sb). cbn. auto.
Qed.

Lemma merge_correct `{FlagTableLaws F} P f sa sb
    (Hka : all_known f (wn_vec sa)) (Hkb : all_known f (wn_vec sb))
    (Hf : flags_are f ∅) (Hwa : sig_wf sa) (Hwb : sig_wf sb)
    (Hoa : wns_ok (wn_vec sa)) (Hob : wns_ok (wn_vec sb)) :
  ∃ s f', merge P f sa sb = Ok (s, f') ∧ flags_are f' ∅ ∧ sig_wf s
    ∧ min_wr_ts s = min_wr_ts sa `max` min_wr_ts sb
    ∧ ∀ b, latest (wn_vec s) b = latest (wn_vec sa) b `max` latest (wn_vec sb) b.
Proof.
  destruct (merge_vec P f sa sb) as (f' & a & b & E & _ & Hf' & Hab); [done..|].
  eexists _, f'. split; [done|]. split; [done|]. cbn.
  destruct Hwa as [Sa Na], Hwb as [Sb Nb].
  split; [split; cbn|split; [done|]].
  - eapply sorted_sublist; [apply remove_duplicated_sublist|].
    apply std_merge_sorted; [apply _|..]; destruct Hab; by simplify_eq.
  - apply remove_duplicated_nodup.
  - intros c. destruct Hab; simplify_eq.
    + by apply remove_duplicated_merge_latest.
    + rewrite Z.max_comm. by apply remove_duplicated_merge_latest.
Qed.

(** C34: [sig_buffer::merge] always succeeds on signatures of registered
    blocks and leaves every block flag clear; its result is again sorted
    newest first with one notice per block, its minimum write timestamp is
    the larger of the two, and for every block it holds the newest of the
    write timestamps the two signatures hold. *)
Theorem merge_spec `{FlagTableLaws F} P f sa sb
    (Hka : all_known f (wn_vec sa)) (Hkb : all_known f (wn_vec sb))
    (Hf : flags_are f ∅) (Hwa : sig_wf sa) (Hwb : sig_wf sb)
    (Hoa : wns_ok (wn_vec sa)) (Hob : wns_ok (wn_vec sb)) :
  ∃ s f', merge P f sa sb = Ok (s, f') ∧ flags_are f' ∅ ∧ sig_wf s
    ∧ min_wr_ts s = min_wr_ts sa `max` min_wr_ts sb
    ∧ ∀ b, latest (wn_vec s) b = latest (wn_vec sa) b `max` latest (wn_vec sb) b.
Proof. by apply merge_correct. Qed.

(** The two builds of [merge] (block flags, or [std::merge] and a hash
    set) make the same promises, although they order notices of equal
    timestamps differently. *)
Theorem merge_variants_equiv `{FlagTableLaws F} P1 P2 f sa sb
    (Hka : all_known f (wn_vec sa)) (Hkb : all_known f (wn_vec sb))
    (Hf : flags_are f ∅) (Hwa : sig_wf sa) (Hwb : sig_wf sb)
    (Hoa : wns_ok (wn_vec sa)) (Hob : wns_ok (wn_vec sb)) :
  ∃ s1 s2 f1 f2, merge P1 f sa sb = Ok (s1, f1) ∧ merge P2 f sa sb = Ok (s2, f2)
    ∧ sig_equiv s1 s2.
Proof.
  destruct (merge_vec P1 f sa sb) as (f1 & a1 & b1 & E1 & _ & _ & Hab1); [done..|].
  destruct (merge_vec P2 f sa sb) as (f2 & a2 & b2 & E2 & _ & _ & Hab2); [done..|].
  do 4 eexists. split; [done|]. split; [done|]. split; cbn [min_wr_ts wn_vec]; [done|]. intros b.
  destruct Hwa as [Sa _], Hwb as [Sb _].
  destruct Hab1 as [[= -> ->]|[= -> ->]], Hab2 as [[= -> ->]|[= -> ->]]; try done;
    rewrite !remove_duplicated_merge_latest by done; lia.
Qed.

(** What every flag update preserves, a merge preserves. *)
Section merge_rel.
Context `{FlagTable F} (R : F → F → Prop) `{!PreOrder R}.
Context (Htry : ∀ f b x f', try_set_flag f b = Ok (x, f') → R f f').
Context (Hunset : ∀ f b f', unset_flag f b = Ok f' → R f f').

Definition keeps_rel (rest : F → result (list wn_entry * F)) : Prop :=
  ∀ f out f', rest f = Ok (out, f') → R f f'.

Lemma merge_table_visit_rel wn rest : keeps_rel rest → keeps_rel (merge_table_visit wn rest).
Proof using All.
  intros Hr f out f' E. unfold merge_table_visit in E.
  destruct (try_set_flag f (wn_blk_id wn)) as [[x f1]|] eqn:E1; [|done].
  apply bind_ok in E as ([out1 f2] & E2 & [= _ <-]). etrans; [by eapply Htry|by eapply Hr].
Qed.

Lemma merge_table_loop_rel a b : keeps_rel (merge_table_loop a b).
Proof using All.
  revert b. induction a as [|wa a IHa]; intros b; induction b as [|wb b IHb]; cbn.
  - by intros f out f' [= _ <-].
  - by apply merge_table_visit_rel.
  - by apply merge_table_visit_rel.
  - destruct (greater_wn wa wb); by apply merge_table_visit_rel.
Qed.

Lemma unset_flags_rel wns f f' : unset_flags wns f = Ok f' → R f f'.
Proof using All.
  revert f. induction wns as [|w wns IH]; intros f E; cbn in E; [by simplify_eq|].
  apply bind_ok in E as (f1 & E1 & E). etrans; [by eapply Hunset|by apply IH].
Qed.

Lemma merge_rel P f sa sb s f' : merge P f sa sb = Ok (s, f') → R f f'.
Proof using All.
  unfold merge. intros E. apply bind_ok in E as ([v f1] & E1 & [= _ <-]).
  destruct (use_sig_buffer_merge_table P); [|by simplify_eq]. unfold merge_table in E1.
  apply bind_ok in E1 as ([out f2] & E1 & E2). apply bind_ok in E2 as (f3 & E2 & [= _ <-]).
  etrans; [by eapply merge_table_loop_rel|by eapply unset_flags_rel].
Qed.

Lemma rel_sig_merge_rel P f self sig s f' : rel_sig_merge P f self sig = Ok (s, f') → R f f'.
Proof using All.
  unfold rel_sig_merge. intros E. apply bind_ok in E as ([v f1] & E1 & [= _ <-]).
  by eapply merge_rel.
Qed.
End merge_rel.

(** ** Truncation and coverage *)
Lemma truncate_length n s : (length (wn_vec (truncate n s)) ≤ n)%nat.
Proof.
  unfold truncate. destruct (wn_vec s !! n) eqn:E; cbn.
  - rewrite length_take. lia.
  - by apply lookup_ge_None in E.
Qed.

Lemma truncate_wf n s : sig_wf s → sig_wf (truncate n s).
Proof.
  intros [Hs Hn]. unfold truncate. destruct (wn_vec s !! n) eqn:E; [|done].
  split; cbn.
  - eapply sorted_sublist; [apply sublist_take|done].
  - rewrite fmap_take. eapply sublist_NoDup; [done|apply sublist_take].
Qed.

Lemma truncate_wns_ok n s : wns_ok (wn_vec s) → wns_ok (wn_vec (truncate n s)).
Proof.
  unfold truncate. destruct (wn_vec s !! n); [|done]. cbn. apply Forall_take.
Qed.

Lemma truncate_correct n s b ts (Hs : sig_wf s) :
  covers s b ts → covers (truncate n s) b ts.
Proof.
  unfold truncate. destruct (wn_vec s !! n) as [wn|] eqn:E; [|done].
  intros [Hts|(w & Hw & Hb & Hts)]; [left; cbn; lia|].
  rewrite <-(take_drop n (wn_vec s)), elem_of_app in Hw. destruct Hw as [Hw|Hw].
  - right. eauto.
  - left. cbn. rewrite (drop_S _ _ _ E) in Hw.
    assert (wn_wr_ts w ≤ wn_wr_ts wn); [|unfold get_wr_ts; lia].
    apply elem_of_cons in Hw as [->|Hw]; [done|].
    destruct Hs as [Hs _]. rewrite <-(take_drop_middle _ _ _ E) in Hs.
    apply StronglySorted_app in Hs as (_ & _ & Hs).
    apply StronglySorted_cons in Hs as [F _]. rewrite Forall_forall in F.
    specialize (F w Hw). by rewrite greater_wn_false in F.
Qed.

(** Truncating a well-formed signature to [n] notices loses nothing a
    reader relies on: every write that was covered stays covered, because the
    minimum write timestamp rises to that of the newest dropped notice. *)
Theorem truncate_covers n s b ts (Hs : sig_wf s) :
  covers s b ts → covers (truncate n s) b ts.
Proof. by apply truncate_correct. Qed.

Lemma create_from_wns_wf `{!StdSort greater_wn} wns :
  NoDup (wn_blk_id <$> wns) → sig_wf (create_from_wns wns).
Proof.
  intros Hn. split; cbn; [apply std_sort_sorted|]. by rewrite std_sort_perm.
Qed.

Lemma create_from_wns_covers `{!StdSort greater_wn} wns w :
  w ∈ wns → covers (create_from_wns wns) (wn_blk_id w) (wn_wr_ts w).
Proof.
  intros Hw. right. exists w. cbn. rewrite std_sort_perm. done.
Qed.

Lemma flags_known_mono `{FlagTable F} f l k :
  (∀ w, w ∈ l → w ∈ k) → all_known f k → all_known f l.
Proof. unfold all_known. rewrite !Forall_forall. eauto. Qed.

Lemma rel_sig_merge_correct `{FlagTableLaws F} P f self sig
    (Hka : all_known f (wn_vec self)) (Hkb : all_known f (wn_vec sig))
    (Hf : flags_are f ∅) (Hwa : sig_wf self) (Hwb : sig_wf sig)
    (Hoa : wns_ok (wn_vec self)) (Hob : wns_ok (wn_vec sig)) :
  ∃ s f', rel_sig_merge P f self sig = Ok (s, f') ∧ flags_are f' ∅ ∧ sig_wf s
    ∧ (length (wn_vec s) ≤ max_rel_sig_len P)%nat
    ∧ (∀ b ts, 0 ≤ ts → covers self b ts ∨ covers sig b ts → covers s b ts)
    ∧ (∀ c, ft_known f' c ↔ ft_known f c)
    ∧ (∀ w, w ∈ wn_vec s → w ∈ wn_vec self ∨ w ∈ wn_vec sig)
    ∧ (min_wr_ts s = min_wr_ts self ∨ min_wr_ts s = min_wr_ts sig
       ∨ ∃ w, (w ∈ wn_vec self ∨ w ∈ wn_vec sig) ∧ min_wr_ts s = wn_wr_ts w).
Proof.
  destruct (merge_correct P f self sig) as (m & f' & E & Hf' & Hw & Hmin & Hlat); [done..|].
  destruct (merge_vec P f self sig) as (f1 & a & b & E1 & Hk & _ & Hab); [done..|].
  assert (∀ w, w ∈ wn_vec m → w ∈ wn_vec self ∨ w ∈ wn_vec sig) as Hsub.
  { rewrite E in E1. injection E1 as -> _. cbn. intros w Hin.
    eapply elem_of_sublist in Hin; [|apply remove_duplicated_sublist].
    apply elem_of_std_merge in Hin. destruct Hab; simplify_eq; naive_solver. }
  rewrite E in E1. injection E1 as _ <-.
  exists (truncate (max_rel_sig_len P) m), f'. unfold rel_sig_merge. rewrite E. cbn.
  split; [done|]. split; [done|]. split; [by apply truncate_wf|].
  split; [apply truncate_length|]. split; [|split; [done|]].
  - intros c ts Hts Hc. apply truncate_correct; [done|].
    rewrite !covers_latest in * by done. rewrite Hmin, Hlat. lia.
  - unfold truncate. destruct (wn_vec m !! max_rel_sig_len P) as [w|] eqn:Ew; cbn; split.
    + intros x Hx. apply Hsub. eapply elem_of_sublist; [done|apply sublist_take].
    + apply list_elem_of_lookup_2 in Ew as Hin. unfold get_wr_ts. apply Hsub in Hin.
      destruct (Z.max_spec (min_wr_ts m) (wn_wr_ts w)) as [[_ ->]|[_ ->]]; [eauto|].
      rewrite Hmin. destruct (Z.max_spec (min_wr_ts self) (min_wr_ts sig)) as [[_ ->]|[_ ->]]; auto.
    + done.
    + rewrite Hmin. destruct (Z.max_spec (min_wr_ts self) (min_wr_ts sig)) as [[_ ->]|[_ ->]]; auto.
Qed.

(** [rel_sig::merge] keeps its promise to later releases: the stored
    signature stays well formed and within [max_rel_sig_len] notices, and
    every write that either the old signature or the merged one covered is
    still covered. *)
Theorem rel_sig_merge_covers `{FlagTableLaws F} P f self sig
    (Hka : all_known f (wn_vec self)) (Hkb : all_known f (wn_vec sig))
    (Hf : flags_are f ∅) (Hwa : sig_wf self) (Hwb : sig_wf sig)
    (Hoa : wns_ok (wn_vec self)) (Hob : wns_ok (wn_vec sig)) :
  ∃ s f', rel_sig_merge P f self sig = Ok (s, f') ∧ flags_are f' ∅ ∧ sig_wf s
    ∧ (length (wn_vec s) ≤ max_rel_sig_len P)%nat
    ∧ ∀ b ts, 0 ≤ ts → covers self b ts ∨ covers sig b ts → covers s b ts.
Proof.
  destruct (rel_sig_merge_correct P f self sig) as (s & f' & ? & ? & ? & ? & ? & _); [done..|].
  by exists s, f'.
Qed.

(** ** Serialization round trip *)
Record wn_in_range (wn : wn_entry) : Prop := {
  wnr_home : - 2 ^ 31 ≤ wn_home_proc wn < 2 ^ 31;
  wnr_blk : is_u64 (wn_blk_id wn);
  wnr_rd : is_u64 (wn_rd_ts wn);
  wnr_wr : is_u64 (wn_wr_ts wn);
}.

Record sig_in_range (s : sig_buffer) : Prop := {
  sr_min : is_u64 (min_wr_ts s);
  sr_wns : Forall wn_in_range (wn_vec s);
  sr_size : is_u64 (sizeof_header + Z.of_nat (length (wn_vec s)) * sizeof_wn_entry);
}.

Lemma le_value_u64 x : is_u64 x → le_value (le_bytes 8 x) = x.
Proof. intros H. apply le_value_bytes. exact H. Qed.

Lemma read_u64_at pre x post off :
  off = length pre → is_u64 x → read_u64 off (pre ++ le_bytes 8 x ++ post) = x.
Proof.
  intros -> Hx. unfold read_u64. rewrite drop_app_length.
  rewrite take_app_length' by (by rewrite length_le_bytes). by apply le_value_u64.
Qed.

Lemma read_u64_front x post : is_u64 x → read_u64 0 (le_bytes 8 x ++ post) = x.
Proof. intros. by apply (read_u64_at []). Qed.

Lemma to_int32_mod x : - 2 ^ 31 ≤ x < 2 ^ 31 → to_int32 (x mod 2 ^ 32) = x.
Proof.
  intros Hx. unfold to_int32. destruct (Z_lt_le_dec x 0).
  - replace (x mod 2 ^ 32) with (x + 2 ^ 32) by (rewrite <-(Z.mod_add x 1), Z.mod_small; lia).
    destruct (Z.ltb_spec (x + 2 ^ 32) (2 ^ 31)); lia.
  - rewrite Z.mod_small by lia. destruct (Z.ltb_spec x (2 ^ 31)); lia.
Qed.

Section roundtrip.
Variable pad : wn_entry → list Z.
Hypothesis pad_length : ∀ wn, length (pad wn) = 4%nat.

Lemma length_write_wn wn : length (write_wn pad wn) = 32%nat.
Proof. unfold write_wn. by rewrite !length_app, !length_le_bytes, pad_length. Qed.

Lemma write_wns_cons w wns :
  mjoin (write_wn pad <$> w :: wns) = write_wn pad w ++ mjoin (write_wn pad <$> wns).
Proof. done. Qed.

Lemma length_write_wns wns : length (mjoin (write_wn pad <$> wns)) = (32 * length wns)%nat.
Proof.
  induction wns as [|w wns IH]; [done|].
  rewrite write_wns_cons, length_app, IH, length_write_wn. simpl. lia.
Qed.

Lemma length_write_sig s : length (write_sig pad s) = (16 + 32 * length (wn_vec s))%nat.
Proof.
  unfold write_sig. rewrite !length_app, !length_le_bytes, length_write_wns. lia.
Qed.

Lemma read_write_wn wn rest :
  wn_in_range wn → read_wn (write_wn pad wn ++ rest) = Ok wn.
Proof.
  intros [Hh Hb Hr Hw]. unfold read_wn.
  destruct (Z.ltb_spec (Z.of_nat (length (write_wn pad wn ++ rest))) sizeof_wn_entry) as [Hl|_].
  { rewrite length_app, length_write_wn in Hl. unfold sizeof_wn_entry in Hl. lia. }
  unfold write_wn. rewrite <-!app_assoc.
  rewrite (take_app_length' (le_bytes 4 _)) by (by rewrite length_le_bytes).
  rewrite le_value_bytes by (apply Z.mod_pos_bound; lia).
  rewrite to_int32_mod by done. destruct wn as [h b r w].
  cbn [wn_home_proc wn_blk_id wn_rd_ts wn_wr_ts] in *. f_equal. f_equal.
  - rewrite (app_assoc (le_bytes 4 _)). apply read_u64_at; [|done].
    by rewrite length_app, length_le_bytes, pad_length.
  - rewrite (app_assoc (pad _)), (app_assoc (le_bytes 4 _)). apply read_u64_at; [|done].
    by rewrite !length_app, !length_le_bytes, pad_length.
  - rewrite (app_assoc (le_bytes 8 b)), (app_assoc (pad _)), (app_assoc (le_bytes 4 _)).
    apply read_u64_at; [|done].
    by rewrite !length_app, !length_le_bytes, pad_length.
Qed.

Lemma read_write_wns wns rest :
  Forall wn_in_range wns →
  read_wns (length wns) (mjoin (write_wn pad <$> wns) ++ rest) = Ok wns.
Proof.
  induction 1 as [|w wns Hw Hwns IH]; [done|]. cbn [length read_wns].
  rewrite write_wns_cons, <-app_assoc, read_write_wn, bind_Ok by done.
  rewrite drop_app_length' by (by rewrite length_write_wn).
  by rewrite IH.
Qed.

Lemma serialize_correct s uninit size
    (Hs : sig_in_range s) (Hsize : size = Z.of_nat (length uninit))
    (Hfit : get_size_in_bytes (Z.of_nat (length (wn_vec s))) ≤ size) :
  ∃ buf, serialize pad uninit s size = Ok buf ∧ length buf = length uninit
    ∧ deserialize_from buf size = Ok s.
Proof.
  destruct Hs as [Hmin Hwns Hsz]. unfold get_size_in_bytes in *.
  rewrite u64_small in Hfit by done.
  unfold sizeof_header, sizeof_wn_entry in *.
  exists (overwrite (write_sig pad s) uninit). unfold serialize, serialize_to, get_size_in_bytes.
  unfold sizeof_header, sizeof_wn_entry. rewrite u64_small by done.
  rewrite !assert_true by (apply Z.leb_le; lia). split; [done|].
  split; [apply length_overwrite; rewrite length_write_sig; lia|].
  unfold deserialize_from. unfold sizeof_header. rewrite (assert_true (16 <=? size)) by (apply Z.leb_le; lia).
  cbn [mbind result_bind]. unfold overwrite, write_sig. rewrite <-!app_assoc.
  assert (is_u64 (Z.of_nat (length (wn_vec s)))) as Hlen by (unfold is_u64 in *; lia).
  rewrite read_u64_front by done.
  rewrite (read_u64_at (le_bytes 8 _)) by (rewrite ?length_le_bytes; done).
  rewrite assert_true
    by (apply Z.leb_le; unfold get_size_in_bytes, sizeof_header, sizeof_wn_entry;
        rewrite u64_small; done).
  cbn [mbind result_bind]. rewrite Nat2Z.id, (app_assoc (le_bytes 8 _)).
  rewrite drop_app_length' by (by rewrite length_app, !length_le_bytes).
  rewrite read_write_wns by done. by destruct s.
Qed.

(** C37: a signature that fits the buffer survives the trip through bytes,
    whatever the padding and the rest of the uninitialised buffer hold: the
    reader of [deserialize_from] gets back exactly the signature the writer
    of [serialize] stored. *)
Theorem serialize_roundtrip s uninit size
    (Hs : sig_in_range s) (Hsize : size = Z.of_nat (length uninit))
    (Hfit : get_size_in_bytes (Z.of_nat (length (wn_vec s))) ≤ size) :
  ∃ buf, serialize pad uninit s size = Ok buf ∧ length buf = length uninit
    ∧ deserialize_from buf size = Ok s.
Proof. exact (serialize_correct s uninit size Hs Hsize Hfit). Qed.
End roundtrip.

(** * The theorems on concrete signatures

    Flags for every block id, kept in a set. *)
#[local] Instance set_flag_table : FlagTable (gset Z) := {|
  ft_known := λ _ _, True;
  ft_get := λ f b, bool_decide (b ∈ f);
  try_set_flag := λ f b, Ok (negb (bool_decide (b ∈ f)), {[b]} ∪ f);
  unset_flag := λ f b, if decide (b ∈ f) then Ok (f ∖ {[b]}) else Fail AssertionFailure;
|}.

#[local] Instance set_flag_laws : FlagTableLaws (gset Z).
Proof.
  split.
  - intros f b _. eexists. split; [done|]. split; [done|]. intros c _. cbn.
    case_decide; [apply bool_decide_eq_true|apply bool_decide_ext]; set_solver.
  - intros f b _ Hb. cbn in *. apply bool_decide_eq_true in Hb.
    rewrite decide_True by done. eexists. split; [done|]. split; [done|]. intros c _.
    case_decide; [apply bool_decide_eq_false|apply bool_decide_ext]; set_solver.
Qed.

Definition demo_sig_a : sig_buffer := SigBuffer 3 [Wn 0 4096 30 20; Wn 1 8192 25 15].
Definition demo_sig_b : sig_buffer := SigBuffer 5 [Wn 2 8192 28 18; Wn 2 0 17 7].

Lemma demo_sig_wf : sig_wf demo_sig_a ∧ sig_wf demo_sig_b.
Proof.
  split; split; cbn; repeat (constructor || (apply not_elem_of_cons; split) ||
    (apply not_elem_of_nil) || done).
Qed.

Lemma demo_known l : all_known (∅ : gset Z) l.
Proof. by induction l; constructor. Qed.

Lemma demo_flags : flags_are (∅ : gset Z) ∅.
Proof. done. Qed.

Lemma demo_sigs_ok : wns_ok (wn_vec demo_sig_a) ∧ wns_ok (wn_vec demo_sig_b).
Proof. split; repeat constructor; done. Qed.

Lemma merge_spec_witness :
  ∃ s f', merge default_policy (∅ : gset Z) demo_sig_a demo_sig_b = Ok (s, f')
    ∧ min_wr_ts s = 5 ∧ latest (wn_vec s) 8192 = 18.
Proof.
  destruct (merge_spec default_policy ∅ demo_sig_a demo_sig_b (demo_known _) (demo_known _)
    demo_flags (proj1 demo_sig_wf) (proj2 demo_sig_wf) (proj1 demo_sigs_ok)
    (proj2 demo_sigs_ok)) as (s & f' & E & _ & _ & Hmin & Hlat).
  exists s, f'. split; [exact E|]. split; [exact Hmin|]. rewrite Hlat. reflexivity.
Defined.

Lemma merge_variants_equiv_witness :
  ∃ s1 s2 f1 f2, merge default_policy (∅ : gset Z) demo_sig_a demo_sig_b = Ok (s1, f1)
    ∧ merge plain_policy (∅ : gset Z) demo_sig_a demo_sig_b = Ok (s2, f2) ∧ sig_equiv s1 s2.
Proof.
  exact (merge_variants_equiv default_policy plain_policy ∅ demo_sig_a demo_sig_b
    (demo_known _) (demo_known _) demo_flags (proj1 demo_sig_wf) (proj2 demo_sig_wf)
    (proj1 demo_sigs_ok) (proj2 demo_sigs_ok)).
Defined.

Lemma truncate_covers_witness : covers (truncate 1 demo_sig_a) 8192 15.
Proof.
  apply (truncate_covers 1 demo_sig_a 8192 15 (proj1 demo_sig_wf)).
  right. exists (Wn 1 8192 25 15). split; [set_solver|]. split; [reflexivity|]. cbn. lia.
Defined.

Lemma rel_sig_merge_covers_witness :
  ∃ s f', rel_sig_merge default_policy (∅ : gset Z) demo_sig_a demo_sig_b = Ok (s, f')
    ∧ covers s 8192 18.
Proof.
  destruct (rel_sig_merge_covers default_policy ∅ demo_sig_a demo_sig_b (demo_known _)
    (demo_known _) demo_flags (proj1 demo_sig_wf) (proj2 demo_sig_wf) (proj1 demo_sigs_ok)
    (proj2 demo_sigs_ok)) as (s & f' & E & _ & _ & _ & Hc).
  exists s, f'. split; [exact E|]. apply Hc; [lia|]. right. right.
  exists (Wn 2 8192 28 18). split; [set_solver|]. split; [reflexivity|]. cbn. lia.
Defined.

Lemma serialize_roundtrip_witness :
  ∃ buf, serialize (λ _, [7; 7; 7; 7]) (replicate 100 255) demo_sig_a 100 = Ok buf
    ∧ deserialize_from buf 100 = Ok demo_sig_a.
Proof.
  destruct (serialize_roundtrip (λ _, [7; 7; 7; 7]) (λ _, eq_refl) demo_sig_a
    (replicate 100 255) 100) as (buf & E & _ & D).
  - split; [vm_compute; intuition congruence|
      repeat constructor; vm_compute; intuition congruence|
      vm_compute; intuition congruence].
  - reflexivity.
  - vm_compute. congruence.
  - exists buf. split; [exact E|exact D].
Defined.
