(* ===== verification/Layout.v ===== *)
(** Addresses, segments and blocks: blk_flag_table.hpp and the address parts
    of seg_table.hpp, svm_seg_table.hpp, svm_blk_table.hpp and svm_space.hpp.

    A block id is the offset of the block's first byte from the start of the
    shared space ([app_ptr_start_] is the null pointer, so it is the address
    itself). The segment of a block is found by shifting its id; its position
    in the segment by shifting or dividing the distance from the segment's
    first byte. [SegFlags] is the [FlagTable] the signatures are merged with. *)
From Stdlib Require Import ZArith Lia.
From stdpp Require Import base tactics list gmap.
From S2P Require Import Prelude.
From S2P Require Import Policy.
From S2P Require Import SigBuffer.

(** * blk_flag_table *)

(** [init]: [make_unique<bool []>] value-initialises the flags. *)
Definition flags_init (num_blks : Z) : list bool := replicate (Z.to_nat num_blks) false.

Definition try_set (flags : list bool) (blk_pos : Z) : result (bool * list bool) :=
  match flags !! Z.to_nat blk_pos with
  | Some true => Ok (false, flags)
  | Some false => Ok (true, <[Z.to_nat blk_pos := true]> flags)
  | None => Fail OutOfBounds
  end.

Definition unset (flags : list bool) (blk_pos : Z) : result (list bool) :=
  match flags !! Z.to_nat blk_pos with
  | Some b => _ ← assert_ b; Ok (<[Z.to_nat blk_pos := false]> flags)
  | None => Fail OutOfBounds
  end.

(** * svm_blk_table: the address part of its state *)
Record blk_tbl := BlkTbl {
  bt_blk_size : Z;
  bt_num_blks : Z;
  bt_ln2_blk_size : Z;
  bt_priv_app_ptr : Z;
  bt_flags : list bool;
}.

(** The fields [coll_make] computes. *)
Definition blk_tbl_coll_make (blk_size num_blks priv_app_ptr : Z) : blk_tbl :=
  BlkTbl blk_size num_blks
    (if is_power_of_2 blk_size then floor_log2 blk_size else 0)
    priv_app_ptr (flags_init num_blks).

(** A [ptrdiff_t] read back from 64 bits. *)
Definition to_int64 (x : Z) : Z := if x <? 2 ^ 63 then x else x - u64_mod.

(** [get_blk_pos_from_blk_id]. In [diff / blk_size_] the signed difference is
    converted to [size_t] first. *)
Definition get_blk_pos_from_blk_id (t : blk_tbl) (blk_id : Z) : result Z :=
  let diff := blk_id - bt_priv_app_ptr t in
  let ln2 := bt_ln2_blk_size t in
  if 0 <? ln2 then
    let ret := Z.shiftr diff ln2 in
    _ ← assert_ (ret =? to_int64 (u64 diff / bt_blk_size t));
    Ok (u64 ret)
  else Ok (u64 diff / bt_blk_size t).

(** * svm_seg_table::get_seg_id *)
Definition get_seg_id (P : policy) (blk_id : Z) : result Z :=
  let ret := Z.shiftr blk_id (floor_log2 (max_seg_size P)) in
  _ ← assert_ (ret =? blk_id / max_seg_size P);
  Ok ret.

(** * seg_table: [blk_tbls_] is a vector of pointers, null until
    [set_blk_table]. *)
Abbreviation seg_table := (list (option blk_tbl)).

Definition seg_table_init (P : policy) : seg_table :=
  replicate (Z.to_nat (max_space_size P / max_seg_size P)) None.

Definition set_blk_table (seg_id : Z) (t : blk_tbl) (st : seg_table) : result seg_table :=
  _ ← assert_ (seg_id <? Z.of_nat (length st));
  Ok (<[Z.to_nat seg_id := Some t]> st).

(** [* this->blk_tbls_[seg_id]] after [MEFDN_ASSERT(this->blk_tbls_[seg_id])]. *)
Definition get_blk_tbl (st : seg_table) (seg_id : Z) : result blk_tbl :=
  match st !! Z.to_nat seg_id with
  | Some (Some t) => Ok t
  | Some None => Fail AssertionFailure
  | None => Fail OutOfBounds
  end.

Definition get_blk_size (st : seg_table) (seg_id : Z) : result Z :=
  _ ← assert_ (seg_id <? Z.of_nat (length st));
  t ← get_blk_tbl st seg_id;
  Ok (bt_blk_size t).

Definition get_blk_pos (st : seg_table) (seg_id blk_id : Z) : result Z :=
  _ ← assert_ (seg_id <? Z.of_nat (length st));
  t ← get_blk_tbl st seg_id;
  get_blk_pos_from_blk_id t blk_id.

(** The segment, table and position of a block, as every method of
    [seg_table] that takes a block id looks them up. *)
Definition locate (P : policy) (st : seg_table) (blk_id : Z) : result (Z * blk_tbl * Z) :=
  seg_id ← get_seg_id P blk_id;
  t ← get_blk_tbl st seg_id;
  blk_pos ← get_blk_pos_from_blk_id t blk_id;
  Ok (seg_id, t, blk_pos).

Definition set_flags (t : blk_tbl) (flags : list bool) : blk_tbl :=
  BlkTbl (bt_blk_size t) (bt_num_blks t) (bt_ln2_blk_size t) (bt_priv_app_ptr t) flags.

Definition seg_try_set_flag (P : policy) (st : seg_table) (blk_id : Z) :
    result (bool * seg_table) :=
  '(seg_id, t, blk_pos) ← locate P st blk_id;
  '(set, flags) ← try_set (bt_flags t) blk_pos;
  Ok (set, <[Z.to_nat seg_id := Some (set_flags t flags)]> st).

Definition seg_unset_flag (P : policy) (st : seg_table) (blk_id : Z) : result seg_table :=
  '(seg_id, t, blk_pos) ← locate P st blk_id;
  flags ← unset (bt_flags t) blk_pos;
  Ok (<[Z.to_nat seg_id := Some (set_flags t flags)]> st).

(** * svm_space: from addresses to blocks *)

(** [get_blk_id_from_app_ptr]. *)
Definition get_blk_id_from_app_ptr (P : policy) (st : seg_table) (ptr : Z) : result Z :=
  let diff := ptr in
  let seg_id := diff / max_seg_size P in
  blk_size ← get_blk_size st seg_id;
  Ok (diff - diff mod blk_size).

(** [get_sig_id]: the signature of a block is numbered by its position. *)
Definition get_sig_id (P : policy) (st : seg_table) (blk_id : Z) : result Z :=
  let seg_id := blk_id / max_seg_size P in
  get_blk_pos st seg_id blk_id.

(** The offset of an atomic variable in its block, as
    [compare_exchange_strong_acquire_general] and [store_release_general] of
    [svm_space] compute it. *)
Definition get_amo_target (P : policy) (st : seg_table) (ptr : Z) : result (Z * Z * Z) :=
  blk_id ← get_blk_id_from_app_ptr P st ptr;
  sig_id ← get_sig_id P st blk_id;
  Ok (blk_id, sig_id, ptr - blk_id).

(** The loop [for (auto d = diff; d < diff + ssize; d += blk_size)]. *)
Fixpoint for_all_blocks_loop (fuel : nat) (d last blk_size : Z) : list Z :=
  match fuel with
  | O => []
  | S fuel =>
      if d <? last
      then (d - d mod blk_size) :: for_all_blocks_loop fuel (d + blk_size) last blk_size
      else []
  end.

(** [for_all_blocks]: the block ids [func] is called with. The loop makes at
    most [size / blk_size + 1] iterations. *)
Definition for_all_blocks (P : policy) (st : seg_table) (ptr size : Z) : result (list Z) :=
  let diff := ptr in
  let seg_id := diff / max_seg_size P in
  blk_size ← get_blk_size st seg_id;
  Ok (for_all_blocks_loop (Z.to_nat (size / blk_size + 1)) diff (diff + size) blk_size).

(** The four images of a segment in the address space. *)
Definition get_max_num_segs (P : policy) : Z := max_space_size P / max_seg_size P.
Definition get_priv_app_ptr_from_seg (P : policy) (seg_id : Z) : Z :=
  seg_id * max_seg_size P.
Definition get_priv_sys_ptr_from_seg (P : policy) (seg_id : Z) : Z :=
  (seg_id + get_max_num_segs P) * max_seg_size P.
Definition get_pub_ptr_from_seg (P : policy) (seg_id : Z) : Z :=
  (seg_id + 2 * get_max_num_segs P) * max_seg_size P.
Definition get_snapshot_ptr_from_seg (P : policy) (seg_id : Z) : Z :=
  (seg_id + 3 * get_max_num_segs P) * max_seg_size P.

(** [coll_alloc_seg], the part that registers the table of a new segment.
    [new_seg_id_] starts at 1: segment 0 is the global variables. *)
Record svm_layout := SvmLayout { new_seg_id : Z; seg_tbl : seg_table }.

Definition coll_alloc_seg (P : policy) (seg_size blk_size : Z) (s : svm_layout) :
    result (Z * svm_layout) :=
  let seg_id := new_seg_id s in
  let priv_app_ptr := get_priv_app_ptr_from_seg P seg_id in
  let num_blks := roundup_divide seg_size blk_size in
  st ← set_blk_table seg_id (blk_tbl_coll_make blk_size num_blks priv_app_ptr) (seg_tbl s);
  Ok (priv_app_ptr, SvmLayout (seg_id + 1) st).

Definition coll_alloc_global_var_seg (P : policy) (seg_size blk_size start_ptr : Z)
    (s : svm_layout) : result svm_layout :=
  let num_blks := roundup_divide seg_size blk_size in
  st ← set_blk_table 0 (blk_tbl_coll_make blk_size num_blks start_ptr) (seg_tbl s);
  Ok (SvmLayout (new_seg_id s) st).

Lemma get_blk_size_lookup (st : seg_table) i t :
  st !! i = Some (Some t) → get_blk_size st (Z.of_nat i) = Ok (bt_blk_size t).
Proof.
  intros Hi. pose proof (lookup_lt_Some _ _ _ Hi).
  unfold get_blk_size, get_blk_tbl. rewrite Nat2Z.id, Hi, assert_true; [done|].
  apply Z.ltb_lt. lia.
Qed.

Lemma get_blk_pos_lookup (st : seg_table) i t blk_id :
  st !! i = Some (Some t) → get_blk_pos st (Z.of_nat i) blk_id = get_blk_pos_from_blk_id t blk_id.
Proof.
  intros Hi. pose proof (lookup_lt_Some _ _ _ Hi).
  unfold get_blk_pos, get_blk_tbl. rewrite Nat2Z.id, Hi, assert_true; [done|].
  apply Z.ltb_lt. lia.
Qed.

(** * Well-formed layouts *)

(** A table registered for segment [seg_id]: its blocks lie in the segment and
    are aligned, and it was filled in by [coll_make]. *)
Record blk_tbl_wf (P : policy) (seg_id : Z) (t : blk_tbl) : Prop := {
  btw_size : 0 < bt_blk_size t;
  btw_num : 0 ≤ bt_num_blks t;
  btw_ln2 : bt_ln2_blk_size t =
    if is_power_of_2 (bt_blk_size t) then floor_log2 (bt_blk_size t) else 0;
  btw_first : seg_id * max_seg_size P ≤ bt_priv_app_ptr t;
  btw_last : bt_priv_app_ptr t + bt_num_blks t * bt_blk_size t
             ≤ (seg_id + 1) * max_seg_size P;
  btw_align : bt_priv_app_ptr t mod bt_blk_size t = 0;
  btw_flags : Z.of_nat (length (bt_flags t)) = bt_num_blks t;
}.

(** The constructor of [svm_seg_table] asserts that [max_seg_size] is a power
    of two; the space must fit the positive half of the address range. *)
Record layout_wf (P : policy) (st : seg_table) : Prop := {
  lw_pow2 : is_power_of_2 (max_seg_size P) = true;
  lw_range : 0 < max_seg_size P ≤ max_space_size P ∧ max_space_size P < 2 ^ 63;
  lw_length : Z.of_nat (length st) = max_space_size P / max_seg_size P;
  lw_tables : ∀ i t, st !! i = Some (Some t) → blk_tbl_wf P (Z.of_nat i) t;
}.

(** Block [blk_id] is number [pos] of the table [t] of segment [i]. *)
Record at_pos (st : seg_table) (i : nat) (t : blk_tbl) (pos blk_id : Z) : Prop := {
  ap_tbl : st !! i = Some (Some t);
  ap_pos : 0 ≤ pos < bt_num_blks t;
  ap_id : blk_id = bt_priv_app_ptr t + pos * bt_blk_size t;
}.

Section layout.
Context (P : policy) (st : seg_table) (Hwf : layout_wf P st).

(** Every address of a segment is below 2^63 and in exactly that segment. *)
Lemma seg_addr i t a :
  st !! i = Some (Some t) →
  bt_priv_app_ptr t ≤ a < bt_priv_app_ptr t + bt_num_blks t * bt_blk_size t →
  0 ≤ a < 2 ^ 63 ∧ a / max_seg_size P = Z.of_nat i.
Proof.
  intros Hi Ha. destruct Hwf as [_ [Hm Hs] Hl Ht].
  destruct (Ht _ _ Hi) as [_ _ _ Hf Hla _ _].
  apply lookup_lt_Some in Hi.
  assert (a / max_seg_size P = Z.of_nat i) as Hdiv.
  { symmetry. apply (Z.div_unique_pos _ _ _ (a - Z.of_nat i * max_seg_size P)); lia. }
  split; [|done]. split; [nia|].
  assert (Z.of_nat i + 1 ≤ max_space_size P / max_seg_size P) by lia.
  pose proof (Z.mul_div_le (max_space_size P) (max_seg_size P)). nia.
Qed.

Lemma blk_size_u64 i t :
  st !! i = Some (Some t) → 0 < bt_num_blks t → is_u64 (bt_blk_size t).
Proof.
  intros Hi Hn. pose proof (lw_tables _ _ Hwf _ _ Hi) as [Hsz _ _ Hf _ _ _].
  destruct (seg_addr i t (bt_priv_app_ptr t + bt_num_blks t * bt_blk_size t - 1))
    as [Ha _]; [done|nia|].
  destruct Hwf as [_ [Hm Hs] _ _]. unfold is_u64, u64_mod. nia.
Qed.

Lemma get_seg_id_spec a : 0 ≤ a → get_seg_id P a = Ok (a / max_seg_size P).
Proof.
  intros Ha. unfold get_seg_id. destruct Hwf as [Hp [Hm Hs] _ _].
  assert (is_u64 (max_seg_size P)) as Hu by (unfold is_u64, u64_mod; lia).
  assert (Z.shiftr a (floor_log2 (max_seg_size P)) = a / max_seg_size P) as ->.
  { pose proof (is_power_of_2_spec _ Hu Hp) as Hpow.
    assert (0 ≤ floor_log2 (max_seg_size P))
      by (rewrite floor_log2_spec by done; apply Z.log2_nonneg).
    rewrite Z.shiftr_div_pow2 by done. by rewrite <-Hpow. }
  rewrite assert_true by (apply Z.eqb_refl). done.
Qed.

Lemma get_blk_pos_spec i t pos off blk_id :
  st !! i = Some (Some t) → 0 ≤ pos < bt_num_blks t → 0 ≤ off < bt_blk_size t →
  blk_id = bt_priv_app_ptr t + pos * bt_blk_size t + off →
  get_blk_pos_from_blk_id t blk_id = Ok pos.
Proof.
  intros Hi Hpos Hoff ->. destruct (seg_addr i t
    (bt_priv_app_ptr t + pos * bt_blk_size t + off)) as [Ha _]; [done|nia|].
  destruct Hwf as [_ [Hm Hs] _ Ht]. destruct (Ht _ _ Hi) as [Hsz _ Hln Hf _ _ _].
  assert (0 ≤ bt_priv_app_ptr t) by nia.
  unfold get_blk_pos_from_blk_id.
  replace (bt_priv_app_ptr t + pos * bt_blk_size t + off - bt_priv_app_ptr t)
    with (pos * bt_blk_size t + off) by lia.
  assert (pos < 2 ^ 63) by nia.
  rewrite (u64_small (pos * _ + _)) by (unfold is_u64, u64_mod; nia).
  assert ((pos * bt_blk_size t + off) / bt_blk_size t = pos) as Hd
    by (symmetry; apply (Z.div_unique_pos _ _ _ off); lia).
  rewrite Hd. destruct (Z.ltb_spec 0 (bt_ln2_blk_size t)) as [Hl|]; [|done].
  destruct (is_power_of_2 (bt_blk_size t)) eqn:Hpow; [|lia].
  assert (Z.shiftr (pos * bt_blk_size t + off) (bt_ln2_blk_size t) = pos) as ->.
  { rewrite Z.shiftr_div_pow2, Hln by lia. rewrite <-is_power_of_2_spec; [done| |done].
    apply (blk_size_u64 i); [done|lia]. }
  unfold to_int64. destruct (Z.ltb_spec pos (2 ^ 63)); [|lia].
  rewrite assert_true by apply Z.eqb_refl. cbn.
  rewrite u64_small by (unfold is_u64, u64_mod; lia). done.
Qed.

Lemma locate_spec i t pos blk_id :
  at_pos st i t pos blk_id → locate P st blk_id = Ok (Z.of_nat i, t, pos).
Proof.
  intros [Hi Hpos ->]. pose proof (lw_tables _ _ Hwf _ _ Hi) as Htw.
  pose proof (btw_size _ _ _ Htw).
  destruct (seg_addr i t (bt_priv_app_ptr t + pos * bt_blk_size t)) as [Ha Hdiv];
    [done|nia|].
  unfold locate. rewrite get_seg_id_spec by lia. rewrite bind_Ok, Hdiv.
  unfold get_blk_tbl. rewrite Nat2Z.id, Hi, bind_Ok.
  rewrite (get_blk_pos_spec i t pos 0); [done|done|done|lia|lia].
Qed.

Lemma at_pos_inj i t pos b i' t' pos' b' :
  at_pos st i t pos b → at_pos st i' t' pos' b' → b = b' ↔ i = i' ∧ pos = pos'.
Proof.
  intros H1 H2. split; [intros <-|intros [<- <-]].
  - pose proof (locate_spec _ _ _ _ H1) as E1. rewrite (locate_spec _ _ _ _ H2) in E1.
    naive_solver lia.
  - destruct H1 as [E1 _ ->], H2 as [E2 _ ->]. by simplify_eq.
Qed.
End layout.

(** An address inside a registered segment leads to the block that
    contains it: the computed block id is the start of block number [pos], the
    signature number is [pos], and the offset of the variable stays inside the
    block, on both the shifting and the dividing path. *)
Theorem get_amo_target_spec P st i t pos off
    (Hwf : layout_wf P st) (Ht : st !! i = Some (Some t))
    (Hpos : 0 ≤ pos < bt_num_blks t) (Hoff : 0 ≤ off < bt_blk_size t) :
  let blk_id := bt_priv_app_ptr t + pos * bt_blk_size t in
  get_amo_target P st (blk_id + off) = Ok (blk_id, pos, off)
  ∧ locate P st blk_id = Ok (Z.of_nat i, t, pos).
Proof.
  intros blk_id. split; [|by apply locate_spec].
  pose proof (lw_tables _ _ Hwf _ _ Ht) as [Hsz _ _ _ _ Hal _].
  destruct (seg_addr P st Hwf i t (blk_id + off)) as [Ha Hdiv]; [done|unfold blk_id; nia|].
  destruct (seg_addr P st Hwf i t blk_id) as [Hb Hdivb]; [done|unfold blk_id; nia|].
  pose proof (lookup_lt_Some _ _ _ Ht) as Hlt.
  assert ((blk_id + off) mod bt_blk_size t = off) as Hmod.
  { unfold blk_id. rewrite (Z.div_mod (bt_priv_app_ptr t) (bt_blk_size t)), Hal by lia.
    rewrite Z.add_0_r, (Z.mul_comm (bt_blk_size t)), <-Z.mul_add_distr_r, Z.add_comm,
      Z.mod_add, Z.mod_small; lia. }
  unfold get_amo_target, get_blk_id_from_app_ptr, get_sig_id.
  rewrite Hdiv, (get_blk_size_lookup _ _ _ Ht), !bind_Ok, Hmod.
  replace (blk_id + off - off) with blk_id by lia.
  rewrite Hdivb, (get_blk_pos_lookup _ _ _ _ Ht).
  rewrite (get_blk_pos_spec P st Hwf i t pos 0); [|done|done|lia|unfold blk_id; lia].
  rewrite bind_Ok. f_equal. f_equal. lia.
Qed.

(** * Registering a segment *)

Lemma blk_tbl_coll_make_wf P seg_id blk_size num_blks start :
  0 < blk_size → 0 ≤ num_blks → seg_id * max_seg_size P ≤ start →
  start + num_blks * blk_size ≤ (seg_id + 1) * max_seg_size P → start mod blk_size = 0 →
  blk_tbl_wf P seg_id (blk_tbl_coll_make blk_size num_blks start).
Proof.
  intros. split; cbn; try done. unfold flags_init. rewrite length_replicate. lia.
Qed.

Lemma set_blk_table_wf P st seg_id t :
  layout_wf P st → 0 ≤ seg_id < Z.of_nat (length st) → blk_tbl_wf P seg_id t →
  ∃ st', set_blk_table seg_id t st = Ok st' ∧ layout_wf P st'
    ∧ st' = <[Z.to_nat seg_id := Some t]> st.
Proof.
  intros [Hp Hr Hl Ht] Hi Htw. eexists. unfold set_blk_table.
  rewrite assert_true by (apply Z.ltb_lt; lia). split; [done|]. split; [|done].
  split; [done|done|by rewrite length_insert|].
  intros j t'. destruct (decide (j = Z.to_nat seg_id)) as [->|Hne].
  - rewrite list_lookup_insert_eq by lia. intros [= <-]. by rewrite Z2Nat.id by lia.
  - rewrite list_lookup_insert_ne by done. apply Ht.
Qed.

Lemma seg_table_init_wf P :
  is_power_of_2 (max_seg_size P) = true →
  0 < max_seg_size P ≤ max_space_size P ∧ max_space_size P < 2 ^ 63 →
  layout_wf P (seg_table_init P).
Proof.
  intros Hp Hr. unfold seg_table_init. split; [done|done| |].
  - rewrite length_replicate, Z2Nat.id; [done|]. apply Z.div_pos; lia.
  - intros i t Hi. by apply lookup_replicate in Hi as [? _].
Qed.

(** C39: allocating a segment whose size is a positive multiple of its block
    size and fits, while segment numbers remain, succeeds, keeps the layout
    well formed, leaves every other segment alone, and returns the address at
    which block 0 of the new segment starts. *)
Theorem coll_alloc_seg_spec P s seg_size blk_size
    (Hwf : layout_wf P (seg_tbl s))
    (Hid : 0 ≤ new_seg_id s < Z.of_nat (length (seg_tbl s)))
    (Hblk : 0 < blk_size) (Hseg : 0 < seg_size ≤ max_seg_size P)
    (Hdiv : seg_size mod blk_size = 0) (Halign : max_seg_size P mod blk_size = 0) :
  let first := new_seg_id s * max_seg_size P in
  ∃ s' t, coll_alloc_seg P seg_size blk_size s = Ok (first, s')
    ∧ layout_wf P (seg_tbl s') ∧ new_seg_id s' = new_seg_id s + 1
    ∧ at_pos (seg_tbl s') (Z.to_nat (new_seg_id s)) t 0 first
    ∧ bt_num_blks t * bt_blk_size t = seg_size
    ∧ ∀ j, j ≠ Z.to_nat (new_seg_id s) → seg_tbl s' !! j = seg_tbl s !! j.
Proof.
  intros first. destruct (lw_range _ _ Hwf) as [[Hm Hms] H63].
  assert (seg_size = seg_size / blk_size * blk_size) as Hd
    by (pose proof (Z.div_mod seg_size blk_size); lia).
  assert (roundup_divide seg_size blk_size * blk_size = seg_size) as Hn.
  { pose proof (roundup_divide_spec seg_size blk_size) as Hr. cbv zeta in Hr.
    assert (blk_size ≤ seg_size).
    { destruct (Z_lt_le_dec seg_size blk_size); [|done].
      rewrite Z.mod_small in Hdiv; lia. }
    assert (roundup_divide seg_size blk_size = seg_size / blk_size); [|congruence].
    unfold u64_mod in Hr. set (n := roundup_divide seg_size blk_size) in *.
    set (q := seg_size / blk_size) in *. clearbody n q. subst seg_size. nia. }
  set (t := blk_tbl_coll_make blk_size (roundup_divide seg_size blk_size) first).
  destruct (set_blk_table_wf P (seg_tbl s) (new_seg_id s) t) as (st' & E & Hwf' & Hst');
    [done|done| |].
  { apply blk_tbl_coll_make_wf; [done|nia|unfold first; lia|unfold first; lia|].
    unfold first. apply Z.mod_divide; [lia|]. apply Z.divide_mul_r.
    apply Z.mod_divide; [lia|done]. }
  exists (SvmLayout (new_seg_id s + 1) st'), t. unfold coll_alloc_seg, get_priv_app_ptr_from_seg.
  fold first. fold t. rewrite E. cbn [mbind result_bind seg_tbl new_seg_id].
  split; [done|]. split; [done|]. split; [done|]. split; [|split; [done|]].
  - split; [rewrite Hst'; apply list_lookup_insert_eq; lia|cbn; nia|cbn; lia].
  - intros j Hj. rewrite Hst'. by apply list_lookup_insert_ne.
Qed.

(** * The block flags of the segment table

    [seg_table] implements the interface [sig_buffer::merge] needs. *)
Definition seg_flag_table (P : policy) : FlagTable seg_table := {|
  ft_known := λ st b, layout_wf P st ∧ ∃ i t pos, at_pos st i t pos b;
  ft_get := λ st b,
    match locate P st b with
    | Ok (_, t, pos) => default false (bt_flags t !! Z.to_nat pos)
    | Fail _ => false
    end;
  try_set_flag := seg_try_set_flag P;
  unset_flag := seg_unset_flag P;
|}.

Section seg_flags.
Context (P : policy).
#[local] Instance seg_ft : FlagTable seg_table := seg_flag_table P.

(** Overwriting the flags of segment [i]'s table keeps everything else. *)
Lemma update_flags_wf st i t flags :
  layout_wf P st → st !! i = Some (Some t) → length flags = length (bt_flags t) →
  layout_wf P (<[i := Some (set_flags t flags)]> st).
Proof.
  intros [Hp Hr Hl Ht] Hi Hf. split; [done|done|by rewrite length_insert|].
  intros j t'. destruct (decide (j = i)) as [->|].
  - rewrite list_lookup_insert_eq by (by eapply lookup_lt_Some). intros [= <-].
    destruct (Ht i t Hi). split; cbn; try done. congruence.
  - rewrite list_lookup_insert_ne by done. apply Ht.
Qed.

Lemma update_flags_at st i t flags j t' pos b :
  st !! i = Some (Some t) →
  at_pos st j t' pos b →
  at_pos (<[i := Some (set_flags t flags)]> st) j
    (if decide (j = i) then set_flags t flags else t') pos b.
Proof.
  intros Hi [Hj Hpos Hb]. case_decide as E.
  - subst j. rewrite Hi in Hj. simplify_eq. split; [|done|done].
    apply list_lookup_insert_eq. by eapply lookup_lt_Some.
  - split; [|done|done]. by rewrite list_lookup_insert_ne.
Qed.

Lemma update_flags_at_inv st i t flags j t' pos b :
  st !! i = Some (Some t) →
  at_pos (<[i := Some (set_flags t flags)]> st) j t' pos b →
  ∃ t'', at_pos st j t'' pos b.
Proof.
  intros Hi [Hj Hpos Hb]. destruct (decide (j = i)) as [->|].
  - rewrite list_lookup_insert_eq in Hj by (by eapply lookup_lt_Some).
    simplify_eq. exists t. by split.
  - rewrite list_lookup_insert_ne in Hj by done. exists t'. by split.
Qed.

(** What one flag update at position [pos] of segment [i] does. *)
Lemma update_flag_spec st i t pos b v :
  layout_wf P st → at_pos st i t pos b →
  let st' := <[i := Some (set_flags t (<[Z.to_nat pos := v]> (bt_flags t)))]> st in
  (∀ c, ft_known st' c ↔ ft_known st c)
  ∧ ∀ c, ft_known st c → ft_get st' c = if decide (c = b) then v else ft_get st c.
Proof.
  intros Hwf Hb st'. pose proof (ap_tbl _ _ _ _ _ Hb) as Hi.
  assert (layout_wf P st') as Hwf' by (apply update_flags_wf; rewrite ?length_insert; done).
  split.
  - intros c. split; intros [_ (j & t' & p & Hc)]; (split; [done|]).
    + destruct (update_flags_at_inv _ _ _ _ _ _ _ _ Hi Hc) as [t'' ?]. eauto.
    + eapply update_flags_at in Hc; [|done]. eauto.
  - intros c [_ (j & t' & p & Hc)]. cbn.
    rewrite (locate_spec P st' Hwf' _ _ _ _ (update_flags_at _ _ _ _ _ _ _ _ Hi Hc)).
    rewrite (locate_spec P st Hwf _ _ _ _ Hc).
    pose proof (at_pos_inj P st Hwf _ _ _ _ _ _ _ _ Hc Hb) as Hinj.
    pose proof (ap_pos _ _ _ _ _ Hc). pose proof (ap_pos _ _ _ _ _ Hb).
    pose proof (lw_tables _ _ Hwf _ _ Hi) as Htw. pose proof (btw_flags _ _ _ Htw).
    destruct (decide (j = i)) as [->|Hne].
    + pose proof (ap_tbl _ _ _ _ _ Hc) as Hi'. rewrite Hi in Hi'. simplify_eq. cbn.
      destruct (decide (p = pos)) as [->|].
      * rewrite list_lookup_insert_eq by lia. by rewrite decide_True by (by apply Hinj).
      * rewrite list_lookup_insert_ne by lia. rewrite decide_False; [done|].
        intros E%Hinj. naive_solver.
    + rewrite decide_False; [done|]. intros E%Hinj. naive_solver.
Qed.

Lemma flag_lookup st i t pos b :
  layout_wf P st → at_pos st i t pos b →
  ∃ v, bt_flags t !! Z.to_nat pos = Some v ∧ ft_get st b = v.
Proof.
  intros Hwf Hb. pose proof (ap_pos _ _ _ _ _ Hb).
  pose proof (lw_tables _ _ Hwf _ _ (ap_tbl _ _ _ _ _ Hb)) as Htw.
  pose proof (btw_flags _ _ _ Htw).
  destruct (lookup_lt_is_Some_2 (bt_flags t) (Z.to_nat pos)) as [v Hv]; [lia|].
  exists v. split; [done|]. cbn. by rewrite (locate_spec P st Hwf _ _ _ _ Hb), Hv.
Qed.

#[export] Instance seg_flag_laws : FlagTableLaws seg_table.
Proof.
  split.
  - intros st b [Hwf (i & t & pos & Hb)].
    destruct (flag_lookup _ _ _ _ _ Hwf Hb) as (v & Hv & Hget).
    cbn [try_set_flag seg_ft seg_flag_table]. unfold seg_try_set_flag.
    rewrite (locate_spec P st Hwf _ _ _ _ Hb), bind_Ok, Nat2Z.id. unfold try_set. rewrite Hv.
    destruct v; rewrite bind_Ok; eexists; rewrite Hget; cbn [negb];
      (split; [done|]).
    + pose proof (update_flag_spec st i t pos b true Hwf Hb) as Hu.
      by rewrite (list_insert_id (bt_flags t)) in Hu.
    + by apply (update_flag_spec st i t pos b true).
  - intros st b [Hwf (i & t & pos & Hb)] Hset.
    destruct (flag_lookup _ _ _ _ _ Hwf Hb) as (v & Hv & Hget).
    cbn [unset_flag seg_ft seg_flag_table]. unfold seg_unset_flag.
    rewrite (locate_spec P st Hwf _ _ _ _ Hb), bind_Ok, Nat2Z.id. unfold unset. rewrite Hv.
    rewrite Hset in Hget. subst v. cbn [assert_]. rewrite !bind_Ok.
    eexists. split; [done|]. by apply (update_flag_spec st i t pos b false).
Qed.

(** ** A merge changes the flags only *)

(** A layout without its flags. *)
Definition shape (st : seg_table) : seg_table := option_map (λ t, set_flags t []) <$> st.

Definition same_shape (st st' : seg_table) : Prop := shape st' = shape st.

#[export] Instance same_shape_preorder : PreOrder same_shape.
Proof. split; unfold same_shape; [done|congruence]. Qed.

Lemma locate_tbl st blk_id i t pos :
  locate P st blk_id = Ok (i, t, pos) → st !! Z.to_nat i = Some (Some t).
Proof.
  unfold locate, get_blk_tbl. intros E. apply bind_ok in E as (seg & _ & E).
  apply bind_ok in E as (t1 & Et & E). apply bind_ok in E as (pos1 & _ & [= <- <- _]).
  destruct (st !! Z.to_nat seg) as [[t2|]|]; by simplify_eq.
Qed.

Lemma set_flags_shape st i t flags :
  st !! i = Some (Some t) → same_shape st (<[i := Some (set_flags t flags)]> st).
Proof.
  intros Hi. unfold same_shape, shape. rewrite list_fmap_insert. apply list_insert_id.
  by rewrite list_lookup_fmap, Hi.
Qed.

Lemma seg_try_set_flag_shape st b x st' : seg_try_set_flag P st b = Ok (x, st') → same_shape st st'.
Proof.
  unfold seg_try_set_flag. intros E. apply bind_ok in E as ([[i t] pos] & El & E).
  apply bind_ok in E as ([set flags] & _ & [= _ <-]). eapply set_flags_shape, locate_tbl, El.
Qed.

Lemma seg_unset_flag_shape st b st' : seg_unset_flag P st b = Ok st' → same_shape st st'.
Proof.
  unfold seg_unset_flag. intros E. apply bind_ok in E as ([[i t] pos] & El & E).
  apply bind_ok in E as (flags & _ & [= <-]). eapply set_flags_shape, locate_tbl, El.
Qed.

(** The block is found at the same place. *)
Lemma locate_shape st st' blk_id i t pos :
  same_shape st st' → locate P st blk_id = Ok (i, t, pos) →
  ∃ t', locate P st' blk_id = Ok (i, t', pos).
Proof.
  intros Hs El. apply locate_tbl in El as Hi. unfold locate in *.
  apply bind_ok in El as (seg & Eseg & E). apply bind_ok in E as (t1 & Et & E).
  apply bind_ok in E as (pos1 & Ep & [= -> -> ->]). rewrite Eseg, bind_Ok.
  apply (f_equal (λ l : seg_table, l !! Z.to_nat i)) in Hs. unfold shape in Hs.
  rewrite !list_lookup_fmap, Hi in Hs.
  unfold get_blk_tbl. destruct (st' !! Z.to_nat i) as [[t'|]|]; try done. cbn in Hs.
  rewrite bind_Ok. injection Hs as H1 H2 H3 H4. exists t'. unfold get_blk_pos_from_blk_id in *.
  rewrite H1, H3, H4. rewrite Ep. done.
Qed.

Lemma blk_id_shape st st' ptr b :
  same_shape st st' → get_blk_id_from_app_ptr P st ptr = Ok b → get_blk_id_from_app_ptr P st' ptr = Ok b.
Proof.
  intros Hs E. unfold get_blk_id_from_app_ptr, get_blk_size in *. set (seg_id := ptr / max_seg_size P) in *.
  assert (length st' = length st) as ->.
  { apply (f_equal length) in Hs. unfold shape in Hs. by rewrite !length_fmap in Hs. }
  apply bind_ok in E as (sz & E & Eb). apply bind_ok in E as ([] & Ea & E). rewrite Ea, bind_Ok.
  apply bind_ok in E as (t & Et & [= <-]).
  apply (f_equal (λ l : seg_table, l !! Z.to_nat seg_id)) in Hs. unfold shape in Hs.
  rewrite !list_lookup_fmap in Hs. unfold get_blk_tbl in *.
  destruct (st !! Z.to_nat seg_id) as [[t0|]|]; simplify_eq.
  destruct (st' !! Z.to_nat seg_id) as [[t'|]|]; try done. cbn in Hs. injection Hs as H1 H2 H3 H4.
  rewrite bind_Ok. cbn [mbind result_bind]. congruence.
Qed.

Lemma seg_merge_shape Q (st : seg_table) self sig s st' :
  rel_sig_merge Q st self sig = Ok (s, st') → same_shape st st'.
Proof.
  apply (rel_sig_merge_rel same_shape); [apply seg_try_set_flag_shape|apply seg_unset_flag_shape].
Qed.
End seg_flags.

(** * Iterating over the blocks of a range *)

Lemma for_all_blocks_loop_elem fuel d last blk b :
  0 < blk → last - d ≤ Z.of_nat fuel * blk →
  b ∈ for_all_blocks_loop fuel d last blk ↔
  ∃ k, 0 ≤ k ∧ d + k * blk < last ∧ b = (d + k * blk) - (d + k * blk) mod blk.
Proof.
  intros Hblk. revert d. induction fuel as [|fuel IH]; intros d Hf.
  { cbn. rewrite elem_of_nil. split; [done|]. intros (k & ? & ? & _). nia. }
  cbn [for_all_blocks_loop]. destruct (Z.ltb_spec d last) as [Hlt|Hge].
  - rewrite elem_of_cons, IH by lia. split.
    + intros [->|(k & ? & ? & ->)].
      * exists 0. rewrite Z.mul_0_l, Z.add_0_r. auto with lia.
      * exists (k + 1). replace (d + (k + 1) * blk) with (d + blk + k * blk) by ring. auto with lia.
    + intros (k & ? & ? & ->). destruct (decide (k = 0)) as [->|].
      * left. by rewrite Z.mul_0_l, Z.add_0_r.
      * right. exists (k - 1). replace (d + blk + (k - 1) * blk) with (d + k * blk) by ring.
        auto with lia.
  - rewrite elem_of_nil. split; [done|]. intros (k & ? & ? & _). nia.
Qed.

Lemma for_all_blocks_elem P st i t ptr size b :
  layout_wf P st → st !! i = Some (Some t) → 0 ≤ size →
  bt_priv_app_ptr t ≤ ptr < bt_priv_app_ptr t + bt_num_blks t * bt_blk_size t →
  ∃ l, for_all_blocks P st ptr size = Ok l ∧
    (b ∈ l ↔ ∃ k, 0 ≤ k ∧ ptr + k * bt_blk_size t < ptr + size
      ∧ b = (ptr + k * bt_blk_size t) - (ptr + k * bt_blk_size t) mod bt_blk_size t).
Proof.
  intros Hwf Hi Hsize Hp. pose proof (lw_tables _ _ Hwf _ _ Hi) as [Hsz _ _ _ _ _ _].
  destruct (seg_addr P st Hwf i t ptr) as [_ Hdiv]; [done|done|].
  unfold for_all_blocks. rewrite Hdiv, (get_blk_size_lookup _ _ _ Hi), bind_Ok.
  eexists. split; [done|]. apply for_all_blocks_loop_elem; [done|].
  pose proof (Z.div_mod size (bt_blk_size t)).
  pose proof (Z.mod_pos_bound size (bt_blk_size t)).
  assert (0 ≤ size / bt_blk_size t) by (apply Z.div_pos; lia).
  rewrite Z2Nat.id by lia. lia.
Qed.

(** For a range that starts on a block boundary, [for_all_blocks] (the
    loop of [pin] and [unpin]) visits exactly the blocks that the range
    [ptr, ptr + size) touches. *)
Theorem for_all_blocks_aligned P st i t ptr size b
    (Hwf : layout_wf P st) (Hi : st !! i = Some (Some t)) (Hsize : 0 ≤ size)
    (Hp : bt_priv_app_ptr t ≤ ptr < bt_priv_app_ptr t + bt_num_blks t * bt_blk_size t)
    (Hal : ptr mod bt_blk_size t = 0) (Hb : b mod bt_blk_size t = 0) :
  ∃ l, for_all_blocks P st ptr size = Ok l
    ∧ (b ∈ l ↔ ptr < b + bt_blk_size t ∧ b < ptr + size).
Proof.
  destruct (for_all_blocks_elem P st i t ptr size b) as (l & E & Hl); [done..|].
  exists l. split; [done|]. rewrite Hl.
  pose proof (btw_size _ _ _ (lw_tables _ _ Hwf _ _ Hi)) as Hsz.
  set (s := bt_blk_size t) in *. clearbody s.
  split.
  - intros (k & Hk & Hlt & ->). rewrite Z.mod_add, Hal by lia. nia.
  - intros [H1 H2]. exists ((b - ptr) / s).
    assert ((b - ptr) mod s = 0) as Hm by (by rewrite Zminus_mod, Hb, Hal).
    pose proof (Z.div_mod (b - ptr) s) as Hd. rewrite Hm in Hd.
    replace (ptr + (b - ptr) / s * s) with b by lia.
    rewrite Hb. split; [|lia]. assert (- s < b - ptr) by lia.
    assert (-1 < (b - ptr) / s) by nia. lia.
Qed.

(** For a range that starts inside a block and is a whole number of
    blocks long, the loop never visits the last block the range touches: the
    block of its last byte keeps its old state when such a range is pinned. *)
Theorem for_all_blocks_misses_last P st i t ptr n
    (Hwf : layout_wf P st) (Hi : st !! i = Some (Some t)) (Hn : 0 < n)
    (Hp : bt_priv_app_ptr t ≤ ptr < bt_priv_app_ptr t + bt_num_blks t * bt_blk_size t)
    (Hun : ptr mod bt_blk_size t ≠ 0) :
  let size := n * bt_blk_size t in
  let last_byte := ptr + size - 1 in
  ∃ l, for_all_blocks P st ptr size = Ok l
    ∧ last_byte - last_byte mod bt_blk_size t ∉ l.
Proof.
  intros size last_byte.
  pose proof (btw_size _ _ _ (lw_tables _ _ Hwf _ _ Hi)) as Hsz.
  destruct (for_all_blocks_elem P st i t ptr size (last_byte - last_byte mod bt_blk_size t))
    as (l & E & Hl); [done|done|unfold size; nia|done|].
  exists l. split; [done|]. rewrite Hl. intros (k & Hk & Hlt & Heq).
  unfold last_byte, size in *. set (s := bt_blk_size t) in *. clearbody s.
  rewrite Z.mod_add in Heq by lia.
  replace (ptr + n * s - 1) with (ptr - 1 + n * s) in Heq by lia. rewrite Z.mod_add in Heq by lia.
  assert ((ptr - 1) mod s = ptr mod s - 1) as Hm.
  { pose proof (Z.mod_pos_bound ptr s). symmetry.
    apply (Z.mod_unique_pos _ _ (ptr / s)); [lia|]. pose proof (Z.div_mod ptr s). lia. }
  rewrite Hm in Heq. assert (k < n) by nia. assert ((n - k) * s = 0) by lia. nia.
Qed.

(** * The theorems on a concrete layout: one segment of four 4096-byte blocks
    in the default build *)
Definition demo_tbl : blk_tbl := blk_tbl_coll_make 4096 4 (2 ^ 38).
Definition demo_layout : seg_table := <[1%nat := Some demo_tbl]> (seg_table_init default_policy).

Lemma demo_init_wf : layout_wf default_policy (seg_table_init default_policy).
Proof. apply seg_table_init_wf; vm_compute; intuition congruence. Qed.

Lemma demo_layout_wf : layout_wf default_policy demo_layout.
Proof.
  destruct (set_blk_table_wf default_policy (seg_table_init default_policy) 1 demo_tbl)
    as (st & _ & Hwf & ->); [apply demo_init_wf|vm_compute; intuition congruence| |exact Hwf].
  apply blk_tbl_coll_make_wf; vm_compute; intuition congruence.
Qed.

Lemma demo_lookup : demo_layout !! 1%nat = Some (Some demo_tbl).
Proof. vm_compute. reflexivity. Qed.

Lemma get_amo_target_witness :
  get_amo_target default_policy demo_layout (2 ^ 38 + 2 * 4096 + 12)
  = Ok (2 ^ 38 + 2 * 4096, 2, 12).
Proof.
  refine (proj1 (get_amo_target_spec default_policy demo_layout 1 demo_tbl 2 12
    demo_layout_wf demo_lookup _ _)); vm_compute; intuition congruence.
Defined.

Lemma coll_alloc_seg_witness :
  ∃ s' t, coll_alloc_seg default_policy 0x4000 0x1000
      (SvmLayout 1 (seg_table_init default_policy)) = Ok (2 ^ 38, s')
    ∧ at_pos (seg_tbl s') 1 t 0 (2 ^ 38).
Proof.
  destruct (coll_alloc_seg_spec default_policy (SvmLayout 1 (seg_table_init default_policy))
    0x4000 0x1000 demo_init_wf) as (s' & t & E & _ & _ & Hat & _);
    [vm_compute; intuition congruence..|].
  exists s', t. split; [exact E|exact Hat].
Defined.

Lemma for_all_blocks_aligned_witness :
  ∃ l, for_all_blocks default_policy demo_layout (2 ^ 38) 5000 = Ok l
    ∧ (2 ^ 38 + 4096 ∈ l ↔ 2 ^ 38 < 2 ^ 38 + 4096 + 4096 ∧ 2 ^ 38 + 4096 < 2 ^ 38 + 5000).
Proof.
  apply (for_all_blocks_aligned default_policy demo_layout 1 demo_tbl);
    [apply demo_layout_wf|apply demo_lookup|vm_compute; intuition congruence..].
Defined.

Lemma for_all_blocks_misses_last_witness :
  ∃ l, for_all_blocks default_policy demo_layout (2 ^ 38 + 10) 4096 = Ok l
    ∧ 2 ^ 38 + 4096 ∉ l.
Proof.
  apply (for_all_blocks_misses_last default_policy demo_layout 1 demo_tbl (2 ^ 38 + 10) 1
    demo_layout_wf demo_lookup); vm_compute; intuition congruence.
Defined.
