(* ===== verification/RdSet.v ===== *)
(** The read set of a process: rd_ts_state.hpp, rd_set.hpp and
    unordered_rd_set.hpp of medsm2/dsm.

    The read set remembers every block the process may read together with the
    timestamp its lease ends at, and the process's minimum write timestamp.
    The priority queue is a list kept in increasing order of timestamp; which
    of several equal timestamps is on top is not specified in the source, and
    no property below depends on it. *)
From Stdlib Require Import ZArith Lia Sorted Permutation.
From stdpp Require Import base tactics list gmap sorting.
From S2P Require Import Prelude.
From S2P Require Import Policy.

(** * rd_ts_state: the minimum write timestamp a caller works with (the
    pointer to the read set is the read set of the same process). *)
Definition make_new_wr_ts (min_wr_ts old_rd_ts : Z) : Z :=
  u64 (old_rd_ts + 1) `max` min_wr_ts.

Definition make_new_rd_ts (P : policy) (min_wr_ts wr_ts rd_ts : Z) : Z :=
  u64 (wr_ts `max` min_wr_ts + lease_ts P) `max` rd_ts.

Definition is_valid_rd_ts (min_wr_ts rd_ts : Z) : bool :=
  negb (is_greater_rd_ts min_wr_ts rd_ts).

(** * rd_set *)
Record rd_entry := RdEntry { re_blk_id : Z; re_rd_ts : Z }.

#[export] Instance rd_entry_eq_dec : EqDecision rd_entry.
Proof. solve_decision. Defined.

(** The order of the queue ([greater_ts] makes the least timestamp the top). *)
Definition lower_ts (a b : rd_entry) : bool := is_greater_rd_ts (re_rd_ts b) (re_rd_ts a).

#[export] Instance StrictWeak_lower_ts : StrictWeak lower_ts.
Proof.
  split; unfold lower_ts, is_greater_rd_ts; intros *; rewrite ?Z.ltb_ge, ?Z.ltb_lt; lia.
Qed.

Record rd_set := RdSet { rs_pq : list rd_entry; rs_min_wr_ts : Z }.

(** [rd_set()]. *)
Definition rd_set_init : rd_set := RdSet [] 0.

(** [pq_.push(e)]. *)
Definition pq_push (e : rd_entry) (pq : list rd_entry) : list rd_entry := ins lower_ts e pq.

Definition add_readable (blk_id rd_ts : Z) (rs : rd_set) : result rd_set :=
  _ ← assert_ (negb (is_greater_rd_ts (rs_min_wr_ts rs) rd_ts));
  Ok (RdSet (pq_push (RdEntry blk_id rd_ts) (rs_pq rs)) (rs_min_wr_ts rs)).

Definition get_ts_state (rs : rd_set) : Z := rs_min_wr_ts rs.

(** The loop of [self_invalidate] that pops every expired entry. *)
Fixpoint pop_expired (min_wr_ts : Z) (pq : list rd_entry) : list Z * list rd_entry :=
  match pq with
  | [] => ([], [])
  | e :: pq' =>
      if negb (is_greater_rd_ts min_wr_ts (re_rd_ts e)) then ([], pq)
      else let '(blk_ids, pq'') := pop_expired min_wr_ts pq' in
           (re_blk_id e :: blk_ids, pq'')
  end.

(** The first critical section of [self_invalidate]; [None] is the early
    return when the minimum write timestamp does not grow. *)
Definition self_invalidate_begin (min_wr_ts : Z) (rs : rd_set) : option (list Z * rd_set) :=
  if negb (is_greater_rd_ts min_wr_ts (rs_min_wr_ts rs)) then None
  else let '(blk_ids, pq) := pop_expired min_wr_ts (rs_pq rs) in
       Some (blk_ids, RdSet pq min_wr_ts).

(** The last critical section: entries that turned out to be valid again. *)
Definition self_invalidate_end (new_ents : list rd_entry) (rs : rd_set) : rd_set :=
  RdSet (fold_left (λ pq e, pq_push e pq) new_ents (rs_pq rs)) (rs_min_wr_ts rs).

(** [self_invalidate] over a state [S] that contains the read set: [func] runs
    with the mutex released and may itself use the read set. *)
Section self_invalidate.
Context {S : Type} (get : S → rd_set) (put : rd_set → S → S).

Fixpoint self_invalidate_loop (func : Z → Z → S → result (Z * S)) (min_wr_ts : Z)
    (blk_ids : list Z) (s : S) : result (list rd_entry * S) :=
  match blk_ids with
  | [] => Ok ([], s)
  | blk_id :: blk_ids =>
      '(rd_ts, s) ← func min_wr_ts blk_id s;
      '(new_ents, s) ← self_invalidate_loop func min_wr_ts blk_ids s;
      Ok (if negb (is_greater_rd_ts min_wr_ts rd_ts)
          then RdEntry blk_id rd_ts :: new_ents else new_ents, s)
  end.

Definition self_invalidate (func : Z → Z → S → result (Z * S)) (min_wr_ts : Z) (s : S) :
    result S :=
  match self_invalidate_begin min_wr_ts (get s) with
  | None => Ok s
  | Some (blk_ids, rs) =>
      '(new_ents, s) ← self_invalidate_loop func min_wr_ts blk_ids (put rs s);
      Ok (put (self_invalidate_end new_ents (get s)) s)
  end.

(** [self_invalidate_all]. *)
Definition self_invalidate_all (func : Z → S → result S) (s : S) : result S :=
  let blk_ids := re_blk_id <$> rs_pq (get s) in
  foldl (λ r blk_id, s ← r; func blk_id s)
    (Ok (put (RdSet [] (rs_min_wr_ts (get s))) s)) blk_ids.
End self_invalidate.

(** * unordered_rd_set: the read set of the directory-coherence build *)
Definition unordered_add_readable (blk_id : Z) (blk_ids : gset Z) : gset Z :=
  {[blk_id]} ∪ blk_ids.

Section unordered.
Context {S : Type}.

(** [func] returns [still_readable]. *)
Fixpoint unordered_loop (func : Z → S → result (bool * S)) (l : list Z) (s : S) :
    result (list Z * S) :=
  match l with
  | [] => Ok ([], s)
  | blk_id :: l =>
      match func blk_id s with
      | Ok (still_readable, s) =>
          '(removed, s) ← unordered_loop func l s;
          Ok (if still_readable : bool then removed else blk_id :: removed, s)
      | Fail e => Fail e
      end
  end.

Definition unordered_self_invalidate (func : Z → S → result (bool * S))
    (blk_ids : gset Z) (s : S) : result (gset Z * S) :=
  '(removed, s) ← unordered_loop func (elements blk_ids) s;
  Ok (blk_ids ∖ list_to_set removed, s).
End unordered.

(** * Well-formed read sets: ordered, and no lease ends before the minimum
    write timestamp. *)
Record rd_set_wf (rs : rd_set) : Prop := {
  rw_sorted : sorted_by lower_ts (rs_pq rs);
  rw_valid : Forall (λ e, rs_min_wr_ts rs ≤ re_rd_ts e) (rs_pq rs);
}.

Lemma rd_set_init_wf : rd_set_wf rd_set_init.
Proof. split; constructor. Qed.

Lemma pq_push_wf e rs :
  rd_set_wf rs → rs_min_wr_ts rs ≤ re_rd_ts e →
  rd_set_wf (RdSet (pq_push e (rs_pq rs)) (rs_min_wr_ts rs)).
Proof.
  intros [Hs Hv] He. unfold pq_push. split; cbn.
  - by apply ins_sorted; [apply _|].
  - rewrite ins_perm. by constructor.
Qed.

Lemma add_readable_wf blk_id rd_ts rs rs' :
  rd_set_wf rs → add_readable blk_id rd_ts rs = Ok rs' →
  rd_set_wf rs' ∧ rs_min_wr_ts rs' = rs_min_wr_ts rs.
Proof.
  intros Hwf H. unfold add_readable in H. inv_ok. split; [|done].
  apply pq_push_wf; [done|]. cbn. unfold is_greater_rd_ts in *. bool_lia.
Qed.

(** [add_readable] succeeds exactly for a lease that has not ended. *)
Lemma add_readable_ok blk_id rd_ts rs :
  rs_min_wr_ts rs ≤ rd_ts →
  add_readable blk_id rd_ts rs
  = Ok (RdSet (pq_push (RdEntry blk_id rd_ts) (rs_pq rs)) (rs_min_wr_ts rs)).
Proof.
  intros H. unfold add_readable. rewrite assert_true; [done|].
  apply negb_true_iff. by apply is_greater_rd_ts_false.
Qed.

Lemma self_invalidate_end_wf new_ents rs :
  rd_set_wf rs → Forall (λ e, rs_min_wr_ts rs ≤ re_rd_ts e) new_ents →
  rd_set_wf (self_invalidate_end new_ents rs).
Proof.
  unfold self_invalidate_end. intros Hwf Hn. revert rs Hwf Hn.
  induction new_ents as [|e l IH]; intros [pq m] Hwf Hn; cbn in *; [done|].
  apply Forall_cons in Hn as [He Hl].
  apply (IH (RdSet (pq_push e pq) m)); [|done]. by apply (pq_push_wf e (RdSet pq m)).
Qed.

Lemma pop_expired_spec m pq ids pq' :
  sorted_by lower_ts pq → pop_expired m pq = (ids, pq') →
  ∃ expired, pq = expired ++ pq' ∧ ids = re_blk_id <$> expired
    ∧ Forall (λ e, re_rd_ts e < m) expired ∧ Forall (λ e, m ≤ re_rd_ts e) pq'.
Proof.
  revert ids pq'. induction pq as [|e pq IH]; intros ids pq' Hs E; cbn in E.
  { simplify_eq. exists []. auto. }
  apply StronglySorted_cons in Hs as [F S].
  destruct (is_greater_rd_ts m (re_rd_ts e)) eqn:G; cbn in E.
  - destruct (pop_expired m pq) as [ids1 pq1] eqn:E1. simplify_eq.
    destruct (IH ids1 pq' S eq_refl) as (ex & -> & -> & Hex & Hpq).
    exists (e :: ex). split; [done|]. split; [done|]. split; [|done].
    constructor; [by apply is_greater_rd_ts_true|done].
  - simplify_eq. exists []. split; [done|]. split; [done|]. split; [done|].
    apply is_greater_rd_ts_false in G. constructor; [done|].
    eapply Forall_impl; [exact F|]. intros x Hx. unfold lower_ts in Hx.
    rewrite is_greater_rd_ts_false in Hx. lia.
Qed.

Lemma self_invalidate_begin_correct m rs (Hwf : rd_set_wf rs) :
  match self_invalidate_begin m rs with
  | None => m ≤ rs_min_wr_ts rs
  | Some (blk_ids, rs') =>
      rs_min_wr_ts rs < m ∧ rd_set_wf rs' ∧ rs_min_wr_ts rs' = m
      ∧ (∀ e, e ∈ rs_pq rs' ↔ e ∈ rs_pq rs ∧ m ≤ re_rd_ts e)
      ∧ ∀ b, b ∈ blk_ids ↔ ∃ e, e ∈ rs_pq rs ∧ re_blk_id e = b ∧ re_rd_ts e < m
  end.
Proof.
  unfold self_invalidate_begin. destruct Hwf as [Hs Hv].
  destruct (is_greater_rd_ts m (rs_min_wr_ts rs)) eqn:G; cbn.
  2: { by apply is_greater_rd_ts_false. }
  destruct (pop_expired m (rs_pq rs)) as [ids pq] eqn:E. cbn.
  destruct (pop_expired_spec m _ _ _ Hs E) as (ex & Heq & -> & Hex & Hpq).
  rewrite Heq in *. apply StronglySorted_app in Hs as (_ & _ & Hs).
  split; [by apply is_greater_rd_ts_true|]. split; [by split|]. split; [done|].
  rewrite Forall_forall in Hex, Hpq. split.
  - intros e. rewrite elem_of_app. split; [auto|].
    intros [[He|He] Hm]; [|done]. specialize (Hex e He). cbn in Hex. lia.
  - intros b. rewrite list_elem_of_fmap. split.
    + intros (e & -> & He). exists e. rewrite elem_of_app. auto.
    + intros (e & [He|He]%elem_of_app & <- & Hm); [eauto|].
      specialize (Hpq e He). cbn in Hpq. lia.
Qed.

(** The critical section that starts self-invalidation pops exactly the
    blocks whose lease ended before the new minimum write timestamp, keeps all
    the others, and raises the minimum; when the minimum does not grow nothing
    changes. *)
Theorem self_invalidate_begin_spec m rs (Hwf : rd_set_wf rs) :
  match self_invalidate_begin m rs with
  | None => m ≤ rs_min_wr_ts rs
  | Some (blk_ids, rs') =>
      rs_min_wr_ts rs < m ∧ rd_set_wf rs' ∧ rs_min_wr_ts rs' = m
      ∧ (∀ e, e ∈ rs_pq rs' ↔ e ∈ rs_pq rs ∧ m ≤ re_rd_ts e)
      ∧ ∀ b, b ∈ blk_ids ↔ ∃ e, e ∈ rs_pq rs ∧ re_blk_id e = b ∧ re_rd_ts e < m
  end.
Proof. by apply self_invalidate_begin_correct. Qed.

Section self_invalidate_wf.
Context {S : Type} (get : S → rd_set) (put : rd_set → S → S).
Context (get_put : ∀ rs s, get (put rs s) = rs).
Context (func : Z → Z → S → result (Z * S)).

(** The callback keeps the read set well formed and its minimum in place. *)
Definition func_keeps : Prop := ∀ m b s r s',
  rd_set_wf (get s) → func m b s = Ok (r, s') →
  rd_set_wf (get s') ∧ rs_min_wr_ts (get s') = rs_min_wr_ts (get s).

Lemma self_invalidate_loop_wf m ids s ents s' :
  func_keeps → rd_set_wf (get s) → self_invalidate_loop func m ids s = Ok (ents, s') →
  rd_set_wf (get s') ∧ rs_min_wr_ts (get s') = rs_min_wr_ts (get s)
  ∧ Forall (λ e, m ≤ re_rd_ts e) ents.
Proof.
  intros Hf. revert s ents. induction ids as [|b ids IH]; intros s ents Hwf E; cbn in E.
  { by simplify_eq. }
  apply bind_ok in E as ([r s1] & E1 & E). apply bind_ok in E as ([l s2] & E2 & E).
  injection E; clear E; intros <- <-.
  destruct (Hf _ _ _ _ _ Hwf E1) as [Hwf1 Hm1].
  destruct (IH s1 l Hwf1 E2) as (Hwf2 & Hm2 & Hl).
  split; [done|]. split; [congruence|].
  destruct (is_greater_rd_ts m r) eqn:G; cbn; [done|].
  constructor; [by apply is_greater_rd_ts_false|done].
Qed.

(** [rd_set::self_invalidate] preserves the invariant of the read set:
    afterwards every remaining entry, including the ones the callback put
    back, has a lease that reaches the process's minimum write timestamp,
    which is the larger of the old one and the argument. *)
Theorem self_invalidate_wf m s s'
    (Hf : func_keeps) (Hwf : rd_set_wf (get s))
    (E : self_invalidate get put func m s = Ok s') :
  rd_set_wf (get s') ∧ rs_min_wr_ts (get s') = rs_min_wr_ts (get s) `max` m.
Proof.
  unfold self_invalidate in E.
  pose proof (self_invalidate_begin_correct m (get s) Hwf) as Hb.
  destruct (self_invalidate_begin m (get s)) as [[ids rs]|].
  - destruct Hb as (Hlt & Hwf1 & Hm1 & _).
    apply bind_ok in E as ([ents s1] & E1 & E). injection E; clear E; intros <-.
    destruct (self_invalidate_loop_wf m ids (put rs s) ents s1) as (Hwf2 & Hm2 & Hents);
      [done|by rewrite get_put|done|].
    rewrite get_put in *. split; [|cbn; lia].
    apply self_invalidate_end_wf; [done|]. by rewrite Hm2, Hm1.
  - simplify_eq. split; [done|lia].
Qed.
End self_invalidate_wf.

(** * Concrete read sets *)
Definition demo_rd_set : rd_set := RdSet [RdEntry 0 12; RdEntry 4096 15; RdEntry 8192 30] 10.

Lemma demo_rd_set_wf : rd_set_wf demo_rd_set.
Proof. split; cbn; repeat constructor; done. Qed.

Lemma self_invalidate_begin_witness :
  self_invalidate_begin 15 demo_rd_set
    = Some ([0], RdSet [RdEntry 4096 15; RdEntry 8192 30] 15) ∧ 10 < 15.
Proof.
  split; [reflexivity|].
  exact (proj1 (self_invalidate_begin_spec 15 demo_rd_set demo_rd_set_wf)).
Defined.

(** The callback finds block 0 leased again until 40 and the others expired. *)
Definition demo_func (m b : Z) (s : rd_set) : result (Z * rd_set) :=
  Ok (if b =? 0 then 40 else 0, s).

Lemma demo_func_keeps : func_keeps id demo_func.
Proof. intros m b s r s' Hwf E. unfold demo_func in E. by simplify_eq. Qed.

Lemma self_invalidate_wf_witness :
  self_invalidate id (λ rs _, rs) demo_func 20 demo_rd_set
    = Ok (RdSet [RdEntry 8192 30; RdEntry 0 40] 20)
  ∧ rd_set_wf (RdSet [RdEntry 8192 30; RdEntry 0 40] 20).
Proof.
  split; [reflexivity|].
  exact (proj1 (self_invalidate_wf id (λ rs _, rs) (λ _ _, eq_refl) demo_func 20 demo_rd_set
    (RdSet [RdEntry 8192 30; RdEntry 0 40] 20) demo_func_keeps demo_rd_set_wf eq_refl)).
Defined.
