(* ===== verification/WrSet.v ===== *)
(** The write set of a process: wr_set.hpp of medsm2/dsm.

    Two parts: the data path of a release fence (which blocks are released,
    which stay in the write set), with the release callback and the scheduling
    of the parallel loop as parameters; and the generation protocol by which
    concurrent fences share one release, as an executable step function over
    the threads that use the write set. *)
From Stdlib Require Import ZArith Lia Sorted Permutation.
From stdpp Require Import base tactics list gmap sorting.
From S2P Require Import Prelude.

Record wr_set := WrSet {
  ws_new_ids : list Z;
  ws_dirty_ids : list Z;
  ws_gen : Z;
  ws_is_releasing : bool;
}.

(** [wr_set()]. *)
Definition wr_set_init : wr_set := WrSet [] [] 0 false.

Definition add_writable (blk_id : Z) (ws : wr_set) : wr_set :=
  WrSet (ws_new_ids ws ++ [blk_id]) (ws_dirty_ids ws) (ws_gen ws) (ws_is_releasing ws).

(** * The data path of a release *)

(** [new_ids_] moved out, sorted, merged with [dirty_ids_], duplicates
    removed: the IDs to release. *)
Definition collect_ids (ws : wr_set) : list Z :=
  std_unique Z.eqb (std_merge Z.ltb (ws_dirty_ids ws) (std_sort Z.ltb (ws_new_ids ws))).

Definition take_new_ids (ws : wr_set) : wr_set :=
  WrSet [] (ws_dirty_ids ws) (ws_gen ws) (ws_is_releasing ws).

(** The chunks [for_loop_strided] hands out: [first] is 0, [stride], ... and a
    chunk covers the indices from [first] to [min(first + stride, num)]. *)
Definition release_stride (num_released num_workers : nat) : nat :=
  let stride := (num_released / (16 * num_workers))%nat in
  if (stride =? 0)%nat then 1%nat else stride.

Fixpoint release_chunks (fuel first stride num : nat) : list (list nat) :=
  match fuel with
  | O => []
  | S fuel =>
      if (num <=? first)%nat then []
      else seq first ((first + stride) `min` num - first)
             :: release_chunks fuel (first + stride) stride num
  end.

Section release.
Context {R T W : Type} (is_still_writable : R → bool).
Context (rel_func : Z → T → result (R * T)).
Context (make_wn_vec : list Z → list R → list W).

(** The body of the parallel loop for the indices in the order they run;
    [rel_results[i]] is kept with its index. *)
Fixpoint release_loop (ids : list Z) (order : list nat) (t : T) :
    result (gmap nat R * T) :=
  match order with
  | [] => Ok (∅, t)
  | i :: order =>
      match ids !! i with
      | None => Fail OutOfBounds
      | Some blk_id =>
          '(r, t) ← rel_func blk_id t;
          '(rs, t) ← release_loop ids order t;
          Ok (<[i := r]> rs, t)
      end
  end.

(** [rel_results] as the array the next steps read. *)
Definition rel_results (ids : list Z) (rs : gmap nat R) : list R :=
  omap (λ i, rs !! i) (seq 0 (length ids)).

(** [std::remove_if] with the predicate [! is_still_writable]. *)
Fixpoint remove_clean (ids : list Z) (rs : list R) : list Z :=
  match ids, rs with
  | id :: ids, r :: rs =>
      if is_still_writable r then id :: remove_clean ids rs else remove_clean ids rs
  | _, _ => []
  end.

(** [start_release_for_all_blocks] of the thread selected for this
    generation; [order] is the interleaving of the parallel loop. *)
Definition release_all_blocks (order : list nat) (ws : wr_set) (t : T) :
    result (list W * wr_set * T) :=
  let ids := collect_ids ws in
  '(rs, t) ← release_loop ids order t;
  let results := rel_results ids rs in
  let wn_vec := make_wn_vec ids results in
  Ok (wn_vec, WrSet [] (remove_clean ids results) (ws_gen ws) (ws_is_releasing ws), t).
End release.

(** [finish_release]. *)
Definition finish_release (ws : wr_set) : result wr_set :=
  _ ← assert_ (ws_is_releasing ws);
  Ok (WrSet (ws_new_ids ws) (ws_dirty_ids ws) (ws_gen ws + 1) false).

(** ** The order in which the loop may run *)

(** Every index runs exactly once. *)
Definition is_schedule (n : nat) (order : list nat) : Prop := order ≡ₚ seq 0 n.

Lemma release_chunks_seq fuel first stride num :
  (0 < stride)%nat → (num ≤ first + fuel)%nat →
  concat (release_chunks fuel first stride num) = seq first (num - first).
Proof.
  intros Hs. revert first. induction fuel as [|fuel IH]; intros first Hf; cbn.
  { replace (num - first)%nat with 0%nat by lia. done. }
  destruct (Nat.leb_spec num first).
  { replace (num - first)%nat with 0%nat by lia. done. }
  cbn. rewrite IH by lia.
  destruct (Nat.le_gt_cases (first + stride) num).
  - rewrite Nat.min_l by done.
    replace (num - first)%nat with (stride + (num - (first + stride)))%nat by lia.
    rewrite seq_app. do 2 f_equal. lia.
  - rewrite Nat.min_r by lia.
    replace (num - (first + stride))%nat with 0%nat by lia. by rewrite app_nil_r.
Qed.

Lemma release_stride_pos n w : (0 < release_stride n w)%nat.
Proof. unfold release_stride. destruct (Nat.eqb_spec (n / (16 * w)) 0); lia. Qed.

(** Any order of the chunks is a schedule. *)
Lemma release_chunks_schedule n w cs :
  cs ≡ₚ release_chunks n 0 (release_stride n w) n → is_schedule n (concat cs).
Proof.
  intros Hp. unfold is_schedule.
  replace (seq 0 n) with (seq 0 (n - 0)) by (f_equal; lia).
  rewrite <-(release_chunks_seq n 0 (release_stride n w) n) by
    (try apply release_stride_pos; lia).
  clear -Hp. induction Hp; cbn; [done|by f_equiv|by rewrite !app_assoc, (Permutation_app_comm x)|etrans; eauto].
Qed.

(** ** The invariant of the write set *)
Definition wr_set_wf (ws : wr_set) : Prop := StronglySorted Z.lt (ws_dirty_ids ws).

Lemma lt_sorted_by (l : list Z) : StronglySorted Z.lt l → sorted_by Z.ltb l.
Proof.
  unfold sorted_by. induction 1 as [|x l Hs IH F]; constructor; [done|].
  eapply Forall_impl; [exact F|]. cbn. intros y Hy. apply Z.ltb_ge. lia.
Qed.

Lemma elem_of_collect_ids ws b :
  b ∈ collect_ids ws ↔ b ∈ ws_dirty_ids ws ∨ b ∈ ws_new_ids ws.
Proof.
  unfold collect_ids. rewrite elem_of_std_unique, elem_of_std_merge.
  by rewrite (std_sort_perm (ws_new_ids ws)).
Qed.

Lemma collect_ids_sorted ws : wr_set_wf ws → StronglySorted Z.lt (collect_ids ws).
Proof.
  intros Hwf. apply std_unique_strict, std_merge_sorted;
    [apply _|by apply lt_sorted_by|apply std_sort_sorted].
Qed.

Lemma remove_clean_sublist {R} (w : R → bool) ids rs :
  sublist (remove_clean w ids rs) ids.
Proof.
  revert rs. induction ids as [|i ids IH]; intros [|r rs]; cbn;
    try (apply sublist_nil_l); [].
  destruct (w r); by constructor.
Qed.

Lemma StronglySorted_sublist (l l' : list Z) :
  sublist l l' → StronglySorted Z.lt l' → StronglySorted Z.lt l.
Proof.
  induction 1 as [|x l l' Hs IH|x l l' Hs IH]; intros H; [done| |];
    apply StronglySorted_cons in H as [F S]; [|auto].
  apply StronglySorted_cons. split; [|auto].
  rewrite Forall_forall in F |- *. intros y Hy. apply F. by eapply elem_of_sublist.
Qed.

(** ** What the loop does *)
Section loop.
Context {R T : Type} (rel_func : Z → T → result (R * T)).

(** [calls] lists the calls of [rel_func], their results, in execution order. *)
Inductive runs : list (Z * R) → T → T → Prop :=
| runs_nil t : runs [] t t
| runs_cons b r calls t t1 t2 :
    rel_func b t = Ok (r, t1) → runs calls t1 t2 → runs ((b, r) :: calls) t t2.

Lemma release_loop_runs ids order t rs t' :
  NoDup order → release_loop rel_func ids order t = Ok (rs, t') →
  ∃ calls, runs calls t t'
    ∧ Forall2 (λ i c, ids !! i = Some c.1 ∧ rs !! i = Some c.2) order calls
    ∧ ∀ i, is_Some (rs !! i) ↔ i ∈ order.
Proof.
  revert t rs. induction order as [|i order IH]; intros t rs Hnd E; cbn in E.
  { simplify_eq. exists []. split; [constructor|]. split; [constructor|].
    intros i. rewrite lookup_empty. split; [by intros []|by intros ?%not_elem_of_nil]. }
  apply NoDup_cons in Hnd as [Hni Hnd].
  destruct (ids !! i) as [b|] eqn:Ei; [|done].
  apply bind_ok in E as ([r t1] & E1 & E). apply bind_ok in E as ([rs1 t2] & E2 & E).
  injection E; clear E; intros <- <-.
  destruct (IH t1 rs1 Hnd E2) as (calls & Hr & HF & Hd).
  exists ((b, r) :: calls). split; [by econstructor|]. split.
  - constructor; [by rewrite lookup_insert_eq|].
    eapply Forall2_impl; [apply (Forall2_same_length_lookup_2 _ _ _);
      [by eapply Forall2_length|]|].
    2: { exact (λ _ _ H, H). }
    intros j k c Hj Hc. eapply (Forall2_lookup_lr _ _ _ _ _ _ HF Hj) in Hc as [? ?].
    split; [done|]. rewrite lookup_insert_ne; [done|].
    intros ->. apply Hni. by eapply list_elem_of_lookup_2.
  - intros j. rewrite elem_of_cons, <-Hd. destruct (decide (j = i)) as [->|Hne].
    + rewrite lookup_insert_eq. split; [auto|by eauto].
    + rewrite lookup_insert_ne by done. naive_solver.
Qed.

Lemma rel_results_lookup ids (rs : gmap nat R) i :
  (∀ j, is_Some (rs !! j) ↔ j ∈ seq 0 (length ids)) → (i < length ids)%nat →
  rel_results ids rs !! i = rs !! i.
Proof.
  intros Hd Hi. unfold rel_results.
  assert (∀ n k, (∀ j, (k ≤ j < k + n)%nat → is_Some (rs !! j)) → (i < n)%nat →
    omap (λ i, rs !! i) (seq k n) !! i = rs !! (k + i)%nat) as Hgen.
  { clear. induction i as [|i IH]; intros n k Hk Hn; destruct n as [|n]; try lia;
      cbn [seq omap list_omap].
    - destruct (Hk k ltac:(lia)) as [r Hr]. rewrite Hr. cbn. by rewrite Nat.add_0_r.
    - destruct (Hk k ltac:(lia)) as [r Hr]. rewrite Hr. cbn.
      etrans; [apply IH; [intros; apply Hk|]; lia|]. f_equal. lia. }
  rewrite Hgen; [done| |done]. intros j Hj. apply Hd. apply elem_of_seq. lia.
Qed.
End loop.

(** Every call of the loop paired with its block: the array of results. *)
Section results.
Context {R : Type} (ids : list Z) (rs : gmap nat R).
Context (Hall : ∀ j, is_Some (rs !! j) ↔ j ∈ seq 0 (length ids)).

Lemma length_rel_results : length (rel_results ids rs) = length ids.
Proof.
  assert (∀ l : list nat, Forall (λ i, is_Some (rs !! i)) l →
    length (omap (λ i, rs !! i) l) = length l) as Hom.
  { clear. induction 1 as [|i l [r Hr] _ IH]; [done|]. cbn. rewrite Hr. cbn. by f_equal. }
  unfold rel_results. rewrite Hom, length_seq; [done|].
  apply Forall_forall. intros j Hj. by apply Hall.
Qed.

Lemma omap_lookup_seq {A} (l : list A) : omap (λ i, l !! i) (seq 0 (length l)) = l.
Proof.
  assert (∀ k (l' : list A), k = length l' →
    omap (λ i, (l' ++ l) !! i) (seq k (length l)) = l) as Hgen; [|by apply (Hgen 0%nat [])].
  induction l as [|x l IH]; intros k l' ->; [done|].
  cbn [length seq omap list_omap]. rewrite lookup_app_r, Nat.sub_diag by done. cbn.
  f_equal. rewrite (cons_middle x l' l), app_assoc.
  apply IH. rewrite length_app. cbn. lia.
Qed.

Lemma calls_perm order (calls : list (Z * R)) :
  is_schedule (length ids) order →
  Forall2 (λ i c, ids !! i = Some c.1 ∧ rs !! i = Some c.2) order calls →
  calls ≡ₚ zip ids (rel_results ids rs).
Proof.
  intros Hord HF. set (l := zip ids (rel_results ids rs)).
  assert (calls = omap (λ i, l !! i) order) as ->.
  { assert (Forall (λ i, (i < length ids)%nat) order) as Hb.
    { apply Forall_forall. intros i. rewrite Hord, elem_of_seq. lia. }
    unfold l. clear Hord l. induction HF as [|i [b r] order calls [Hi Hr] HF IH]; [done|].
    apply Forall_cons in Hb as [Hbi Hb]. cbn [omap list_omap]. cbn in Hi, Hr.
    rewrite lookup_zip_with, Hi. cbn. rewrite rel_results_lookup, Hr by done. cbn.
    f_equal. by apply IH. }
  rewrite Hord. replace (length ids) with (length l).
  - by rewrite omap_lookup_seq.
  - unfold l. rewrite length_zip_with, length_rel_results. lia.
Qed.
End results.

Lemma elem_of_remove_clean_zip {R} (w : R → bool) ids rs b :
  b ∈ remove_clean w ids rs ↔ ∃ r, (b, r) ∈ zip ids rs ∧ w r = true.
Proof.
  revert rs. induction ids as [|x ids IH]; intros [|r rs]; cbn.
  1-3: split; [by intros ?%not_elem_of_nil|by intros (? & ?%not_elem_of_nil & ?)].
  destruct (w r) eqn:E; rewrite ?elem_of_cons, IH; setoid_rewrite elem_of_cons; split.
  - intros [->|(r' & ? & ?)]; [by exists r; auto|by exists r'; auto].
  - intros (r' & [[= -> ->]|?] & ?); [by left|right; eauto].
  - intros (r' & ? & ?). exists r'. auto.
  - intros (r' & [[= -> ->]|?] & ?); [congruence|eauto].
Qed.

(** A release fence releases every block that was in the write set or was
    added to it since the last fence, each exactly once whatever the order of
    the parallel loop, leaves in the write set exactly the released blocks
    that are still writable, in order, and takes all the new blocks. *)
Theorem release_all_blocks_spec {R T W} (is_still_writable : R → bool)
    (rel_func : Z → T → result (R * T)) (make_wn_vec : list Z → list R → list W)
    order ws t wn_vec ws' t'
    (Hwf : wr_set_wf ws) (Hord : is_schedule (length (collect_ids ws)) order)
    (E : release_all_blocks is_still_writable rel_func make_wn_vec order ws t
         = Ok (wn_vec, ws', t')) :
  ∃ calls results,
    runs rel_func calls t t'
    ∧ calls ≡ₚ zip (collect_ids ws) results
    ∧ length results = length (collect_ids ws)
    ∧ NoDup (collect_ids ws)
    ∧ (∀ b, b ∈ calls.*1 ↔ b ∈ ws_dirty_ids ws ∨ b ∈ ws_new_ids ws)
    ∧ wn_vec = make_wn_vec (collect_ids ws) results
    ∧ wr_set_wf ws' ∧ ws_new_ids ws' = []
    ∧ (∀ b, b ∈ ws_dirty_ids ws' ↔ ∃ r, (b, r) ∈ calls ∧ is_still_writable r = true).
Proof.
  unfold release_all_blocks in E. apply bind_ok in E as ([rs t1] & E & H).
  injection H; clear H; intros <- <- <-.
  pose proof (collect_ids_sorted ws Hwf) as Hs. set (ids := collect_ids ws) in *.
  assert (NoDup order) as Hnd by (rewrite Hord; apply NoDup_seq).
  destruct (release_loop_runs rel_func ids order t rs t1 Hnd E) as (calls & Hr & HF & Hd).
  assert (∀ j, is_Some (rs !! j) ↔ j ∈ seq 0 (length ids)) as Hall.
  { intros j. by rewrite Hd, Hord. }
  pose proof (length_rel_results ids rs Hall) as Hlen.
  pose proof (calls_perm ids rs Hall order calls Hord HF) as Hperm.
  exists calls, (rel_results ids rs). split_and!; try done.
  - by apply StronglySorted_lt_NoDup.
  - intros b. rewrite Hperm, fst_zip by lia. apply elem_of_collect_ids.
  - unfold wr_set_wf. cbn. eapply StronglySorted_sublist; [apply remove_clean_sublist|done].
  - intros b. cbn. rewrite elem_of_remove_clean_zip. by setoid_rewrite Hperm.
Qed.

(** * The generation protocol *)

(** Where a thread that called [start_release_for_all_blocks] is: in the first
    wait loop, in the second one, selected to release, or returned with
    [needs_release]. The argument of the waits is its [gen]. *)
Inductive fence_state :=
| WaitPrevious (gen : Z)
| WaitSelected (gen : Z)
| Selected
| Returned (needs_release : bool).

#[export] Instance fence_state_eq_dec : EqDecision fence_state.
Proof. solve_decision. Defined.

(** The second wait loop: [while (gen_ - gen <= 0) wait; return { false, {} }]. *)
Definition wait_selected (gen : Z) (ws : wr_set) : wr_set * fence_state :=
  if ws_gen ws - gen <=? 0 then (ws, WaitSelected gen) else (ws, Returned false).

(** The test of [is_releasing_] after the first wait loop. *)
Definition try_select (gen : Z) (ws : wr_set) : wr_set * fence_state :=
  if ws_is_releasing ws then wait_selected gen ws
  else (WrSet (ws_new_ids ws) (ws_dirty_ids ws) (ws_gen ws) true, Selected).

(** The first wait loop: [while (gen_ - gen < 0) wait]. *)
Definition wait_previous (gen : Z) (ws : wr_set) : wr_set * fence_state :=
  if ws_gen ws - gen <? 0 then (ws, WaitPrevious gen) else try_select gen ws.

(** The critical section a call of [start_release_for_all_blocks] runs first. *)
Definition start_release (ws : wr_set) : wr_set * fence_state :=
  wait_previous (ws_gen ws + (if ws_is_releasing ws then 1 else 0)) ws.

(** The write set with its threads. [fp_started] and [fp_finished] count the
    releases that were started and finished, and [fp_called] remembers for
    each thread how many were started before its call. *)
Record fence_proto := FenceProto {
  fp_ws : wr_set;
  fp_threads : gmap nat fence_state;
  fp_started : Z;
  fp_finished : Z;
  fp_called : gmap nat Z;
}.

Definition fence_init : fence_proto := FenceProto wr_set_init ∅ 0 0 ∅.

(** A thread calls, is woken up from a wait (also spuriously), or the selected
    thread finishes the release. *)
Inductive fence_event := Call (t : nat) | Wake (t : nat) | Finish (t : nat).

Definition is_selected (st : fence_state) : bool :=
  match st with Selected => true | _ => false end.

Definition put_thread (t : nat) (r : wr_set * fence_state) (p : fence_proto) : fence_proto :=
  FenceProto r.1 (<[t := r.2]> (fp_threads p))
    (if is_selected r.2 then fp_started p + 1 else fp_started p)
    (fp_finished p) (fp_called p).

Definition fence_step (e : fence_event) (p : fence_proto) : option fence_proto :=
  match e with
  | Call t =>
      let p' := FenceProto (fp_ws p) (fp_threads p) (fp_started p) (fp_finished p)
                  (<[t := fp_started p]> (fp_called p)) in
      match fp_threads p !! t with
      | None | Some (Returned _) => Some (put_thread t (start_release (fp_ws p)) p')
      | _ => None
      end
  | Wake t =>
      match fp_threads p !! t with
      | Some (WaitPrevious gen) => Some (put_thread t (wait_previous gen (fp_ws p)) p)
      | Some (WaitSelected gen) => Some (put_thread t (wait_selected gen (fp_ws p)) p)
      | _ => None
      end
  | Finish t =>
      match fp_threads p !! t, finish_release (fp_ws p) with
      | Some Selected, Ok ws =>
          Some (FenceProto ws (<[t := Returned true]> (fp_threads p))
                  (fp_started p) (fp_finished p + 1) (fp_called p))
      | _, _ => None
      end
  end.

Inductive fence_reachable : fence_proto → Prop :=
| reach_init : fence_reachable fence_init
| reach_step e p p' :
    fence_reachable p → fence_step e p = Some p' → fence_reachable p'.

Definition thread_ok (p : fence_proto) (t : nat) (st : fence_state) : Prop :=
  match st with
  | WaitPrevious gen =>
      fp_called p !! t = Some gen ∧ gen ≤ fp_started p
  | WaitSelected gen =>
      fp_called p !! t = Some gen ∧ gen ≤ ws_gen (fp_ws p)
      ∧ (gen = ws_gen (fp_ws p) → ws_is_releasing (fp_ws p) = true)
  | Selected => True
  | Returned needs =>
      ∃ c, fp_called p !! t = Some c ∧ c < fp_finished p
  end.

Record fence_inv (p : fence_proto) : Prop := {
  fi_finished : fp_finished p = ws_gen (fp_ws p);
  fi_started :
    fp_started p = ws_gen (fp_ws p) + (if ws_is_releasing (fp_ws p) then 1 else 0);
  fi_threads : map_Forall (thread_ok p) (fp_threads p);
  fi_called_selected : ∀ t, fp_threads p !! t = Some Selected →
    ∃ c, fp_called p !! t = Some c ∧ c ≤ ws_gen (fp_ws p);
  fi_selected : ∀ t1 t2, fp_threads p !! t1 = Some Selected →
    fp_threads p !! t2 = Some Selected → t1 = t2;
  fi_releasing :
    ws_is_releasing (fp_ws p) = true ↔ ∃ t, fp_threads p !! t = Some Selected;
}.

Lemma fence_init_inv : fence_inv fence_init.
Proof.
  split; cbn; try done.
  all: intros *; rewrite ?lookup_empty; try done.
  split; [done|]. intros [t Ht]. by rewrite lookup_empty in Ht.
Qed.

(** Only the state of thread [t], which is not selected, changes. *)
Lemma put_unselected_inv p t st :
  fence_inv p → fp_threads p !! t ≠ Some Selected → is_selected st = false →
  thread_ok p t st → fence_inv (put_thread t (fp_ws p, st) p).
Proof.
  intros [Hf Hs Ht Hcs Hsel Hr] Hnt Hst Hok. unfold put_thread. cbn. rewrite Hst.
  assert (∀ t', <[t:=st]> (fp_threads p) !! t' = Some Selected
    ↔ fp_threads p !! t' = Some Selected) as Hsame.
  { intros t'. destruct (decide (t' = t)) as [->|Hne].
    - rewrite lookup_insert_eq. split; [by intros [= ->]|done].
    - by rewrite lookup_insert_ne. }
  split; cbn; try done.
  - apply map_Forall_insert_2; done.
  - intros t' Ht'%Hsame. by apply Hcs.
  - intros t1 t2 H1%Hsame H2%Hsame. by apply Hsel.
  - rewrite Hr. by setoid_rewrite Hsame.
Qed.

(** Thread [t] is selected to release. *)
Lemma put_selected_inv p t gen :
  fence_inv p → fp_called p !! t = Some gen → gen ≤ ws_gen (fp_ws p) →
  ws_is_releasing (fp_ws p) = false →
  fence_inv (put_thread t (WrSet (ws_new_ids (fp_ws p)) (ws_dirty_ids (fp_ws p))
    (ws_gen (fp_ws p)) true, Selected) p).
Proof.
  intros [Hf Hs Ht Hcs Hsel Hr] Hc Hgen Hrel. unfold put_thread. cbn.
  rewrite Hrel in Hs, Hr.
  assert (∀ t', <[t:=Selected]> (fp_threads p) !! t' = Some Selected → t' = t) as Honly.
  { intros t'. destruct (decide (t' = t)) as [->|Hne]; [done|].
    rewrite lookup_insert_ne by done. intros Hx.
    assert (false = true) by (apply Hr; eauto). done. }
  split; cbn; try done; try lia.
  - apply map_Forall_insert_2; [done|]. intros t' st' Ht'. specialize (Ht t' st' Ht').
    destruct st'; cbn in *; try done; [|naive_solver].
    destruct Ht as (? & ?). split; [done|lia].
  - intros t' ->%Honly. by exists gen.
  - intros t1 t2 ->%Honly ->%Honly. done.
  - split; [|done]. intros _. exists t. by rewrite lookup_insert_eq.
Qed.

Lemma wait_selected_inv p t gen :
  fence_inv p → fp_threads p !! t ≠ Some Selected → fp_called p !! t = Some gen →
  gen ≤ ws_gen (fp_ws p) →
  (gen = ws_gen (fp_ws p) → ws_is_releasing (fp_ws p) = true) →
  fence_inv (put_thread t (wait_selected gen (fp_ws p)) p).
Proof.
  intros Hinv Hnt Hc Hle Heq. unfold wait_selected.
  case_bool; bool_to_prop; apply put_unselected_inv; try done.
  exists gen. split; [done|]. rewrite (fi_finished p Hinv). lia.
Qed.

Lemma wait_previous_inv p t gen :
  fence_inv p → fp_threads p !! t ≠ Some Selected → fp_called p !! t = Some gen →
  gen ≤ fp_started p → fence_inv (put_thread t (wait_previous gen (fp_ws p)) p).
Proof.
  intros Hinv Hnt Hc Hle. unfold wait_previous.
  case_bool; bool_to_prop; [by apply put_unselected_inv|].
  unfold try_select. destruct (ws_is_releasing (fp_ws p)) eqn:Hrel.
  - apply wait_selected_inv; auto with lia.
  - apply (put_selected_inv p t gen); auto with lia.
Qed.

Lemma fence_call_inv p t :
  fence_inv p → (∀ st, fp_threads p !! t = Some st → ∃ b, st = Returned b) →
  fence_inv (put_thread t (start_release (fp_ws p))
    (FenceProto (fp_ws p) (delete t (fp_threads p)) (fp_started p) (fp_finished p)
      (<[t := fp_started p]> (fp_called p)))).
Proof.
  intros [Hf Hs Ht Hcs Hsel Hr] Hret. unfold start_release. rewrite <-Hs.
  assert (∀ t', fp_threads p !! t' = Some Selected → t' ≠ t) as Hne.
  { intros t' Ht' ->. by destruct (Hret _ Ht') as [? ?]. }
  apply (wait_previous_inv (FenceProto (fp_ws p) (delete t (fp_threads p)) (fp_started p)
    (fp_finished p) (<[t := fp_started p]> (fp_called p))) t (fp_started p));
    cbn; [split; cbn| | |]; try done.
  - intros t' st' Ht'. apply lookup_delete_Some in Ht' as [Hn Ht'].
    specialize (Ht t' st' Ht'). destruct st'; cbn in *; by rewrite ?lookup_insert_ne.
  - intros t' [Hn Ht']%lookup_delete_Some. rewrite lookup_insert_ne by done. by apply Hcs.
  - intros t1 t2 [_ H1]%lookup_delete_Some [_ H2]%lookup_delete_Some. by apply Hsel.
  - rewrite Hr. split; intros [t' Ht']; exists t'.
    + rewrite lookup_delete_ne; [done|]. intros ->. by apply (Hne t' Ht').
    + by apply lookup_delete_Some in Ht' as [_ ?].
  - by rewrite lookup_delete_eq.
  - by rewrite lookup_insert_eq.
Qed.

Lemma fence_finish_inv p t ws :
  fence_inv p → fp_threads p !! t = Some Selected → finish_release (fp_ws p) = Ok ws →
  fence_inv (FenceProto ws (<[t := Returned true]> (fp_threads p))
    (fp_started p) (fp_finished p + 1) (fp_called p)).
Proof.
  intros [Hf Hs Ht Hcs Hsel Hr] Hst E. unfold finish_release in E. inv_ok.
  assert (ws_is_releasing (fp_ws p) = true) as Hrel by done. rewrite Hrel in *.
  destruct (Hcs t Hst) as (c & Hc & Hle).
  assert (∀ t', <[t:=Returned true]> (fp_threads p) !! t' = Some Selected → False) as Hno.
  { intros t'. destruct (decide (t' = t)) as [->|Hn]; [by rewrite lookup_insert_eq|].
    rewrite lookup_insert_ne by done. intros Hx. apply Hn. by apply Hsel. }
  split; cbn; try lia.
  - apply map_Forall_insert_2; [exists c; split; [done|cbn; lia]|].
    intros t' st' Ht'. specialize (Ht t' st' Ht').
    destruct st' as [g|g| |b]; cbn in *; try done.
    + destruct Ht as (? & ? & ?). split_and!; [done|lia|intros; exfalso; lia].
    + destruct Ht as (c' & ? & ?). exists c'. split; [done|lia].
  - intros t' Hx. by destruct (Hno t' Hx).
  - intros t1 t2 Hx. by destruct (Hno t1 Hx).
  - split; [done|]. intros [t' Hx]. by destruct (Hno t' Hx).
Qed.

Lemma fence_step_inv e p p' : fence_inv p → fence_step e p = Some p' → fence_inv p'.
Proof.
  intros Hinv E. destruct e as [t|t|t]; cbn in E.
  - assert (∀ q, put_thread t (start_release (fp_ws p)) q
      = put_thread t (start_release (fp_ws p)) (FenceProto (fp_ws q)
          (delete t (fp_threads q)) (fp_started q) (fp_finished q) (fp_called q))) as Hdel.
    { intros q. unfold put_thread. cbn. by rewrite insert_delete_eq. }
    destruct (fp_threads p !! t) as [[| | |b]|] eqn:Et; simplify_eq;
      rewrite Hdel; cbn; apply fence_call_inv; [done| |done|];
      intros st; rewrite Et; naive_solver.
  - destruct (fp_threads p !! t) as [[g|g| |]|] eqn:Et; simplify_eq;
      pose proof (fi_threads p Hinv t _ Et) as Hok; cbn in Hok.
    + apply wait_previous_inv; naive_solver.
    + apply wait_selected_inv; naive_solver.
  - destruct (fp_threads p !! t) as [[| | |]|] eqn:Et; try done.
    destruct (finish_release (fp_ws p)) eqn:Ef; simplify_eq. by apply fence_finish_inv.
Qed.

Lemma fence_reachable_inv p : fence_reachable p → fence_inv p.
Proof.
  induction 1; [apply fence_init_inv|]. by eapply fence_step_inv.
Qed.

(** Whatever the interleaving of threads, wake-ups and completions, at
    most one thread releases at a time, [is_releasing_] says whether one does,
    and a fence returns only after a release that was started after its call
    has finished (release number [c], counting from 0, when [c] were started
    before the call): a thread that shared another thread's release sees all
    its earlier writes released. *)
Theorem fence_protocol_safe p (H : fence_reachable p) :
  (∀ t1 t2, fp_threads p !! t1 = Some Selected →
            fp_threads p !! t2 = Some Selected → t1 = t2)
  ∧ (ws_is_releasing (fp_ws p) = true ↔ ∃ t, fp_threads p !! t = Some Selected)
  ∧ (∀ t needs, fp_threads p !! t = Some (Returned needs) →
       ∃ c, fp_called p !! t = Some c ∧ c < fp_finished p)
  ∧ fp_finished p = ws_gen (fp_ws p).
Proof.
  apply fence_reachable_inv in H. split; [apply (fi_selected p H)|].
  split; [apply (fi_releasing p H)|]. split; [|apply (fi_finished p H)].
  intros t needs Ht. exact (fi_threads p H t _ Ht).
Qed.

(** No thread is left waiting: when no release is in progress, a waiting
    thread that is woken up leaves its wait loop, either selected or
    returning; and while one is, its thread can finish. *)
Theorem fence_protocol_progress p (H : fence_reachable p) :
  (ws_is_releasing (fp_ws p) = false → ∀ t gen,
     fp_threads p !! t = Some (WaitPrevious gen) ∨ fp_threads p !! t = Some (WaitSelected gen) →
     ∃ p', fence_step (Wake t) p = Some p'
       ∧ (fp_threads p' !! t = Some Selected ∨ fp_threads p' !! t = Some (Returned false)))
  ∧ (ws_is_releasing (fp_ws p) = true → ∃ t p', fence_step (Finish t) p = Some p'
       ∧ fp_threads p' !! t = Some (Returned true) ∧ ws_is_releasing (fp_ws p') = false).
Proof.
  apply fence_reachable_inv in H. split; intros Hrel.
  - pose proof (fi_started p H) as Hs. rewrite Hrel in Hs.
    intros t gen [Ht|Ht]; pose proof (fi_threads p H t _ Ht) as Hok; cbn in Hok |- *;
      rewrite Ht; eexists; (split; [done|]); cbn; rewrite lookup_insert_eq.
    + unfold wait_previous. case_bool; [bool_lia|]. unfold try_select. rewrite Hrel. auto.
    + unfold wait_selected. case_bool; [|auto]. bool_to_prop.
      destruct Hok as (_ & ? & Hx). rewrite Hx in Hrel by lia. done.
  - destruct (proj1 (fi_releasing p H) Hrel) as [t Ht]. exists t. cbn. rewrite Ht.
    unfold finish_release. rewrite Hrel. cbn. eexists. split; [done|]. cbn.
    by rewrite lookup_insert_eq.
Qed.

(** * Concrete runs *)
Definition demo_ws : wr_set := WrSet [12288; 4096; 12288] [4096; 8192] 0 true.

(** Only block 8192 stays writable. *)
Definition demo_rel (b : Z) (n : nat) : result (bool * nat) := Ok (b =? 8192, S n).

Lemma release_all_blocks_witness :
  release_all_blocks id demo_rel zip [2; 0; 1]%nat demo_ws 0%nat
    = Ok ([(4096, false); (8192, true); (12288, false)], WrSet [] [8192] 0 true, 3%nat)
  ∧ wr_set_wf (WrSet [] [8192] 0 true).
Proof.
  split; [reflexivity|].
  assert (wr_set_wf demo_ws) as Hwf by (cbv; repeat constructor).
  assert (is_schedule (length (collect_ids demo_ws)) [2; 0; 1]%nat) as Hord.
  { change (collect_ids demo_ws) with [4096; 8192; 12288]. cbn.
    apply (Permutation_app_comm [2]%nat [0; 1]%nat). }
  destruct (release_all_blocks_spec id demo_rel zip [2; 0; 1]%nat demo_ws 0%nat
    [(4096, false); (8192, true); (12288, false)] (WrSet [] [8192] 0 true) 3%nat
    Hwf Hord eq_refl) as (calls & results & H).
  exact (proj1 (proj2 (proj2 (proj2 (proj2 (proj2 (proj2 H))))))).
Defined.

Fixpoint run_fences (es : list fence_event) (p : fence_proto) : option fence_proto :=
  match es with
  | [] => Some p
  | e :: es => p' ← fence_step e p; run_fences es p'
  end.

Lemma run_fences_reachable es p p' :
  fence_reachable p → run_fences es p = Some p' → fence_reachable p'.
Proof.
  revert p. induction es as [|e es IH]; intros p Hp E; cbn in E; [by simplify_eq|].
  destruct (fence_step e p) as [q|] eqn:Eq; [|done]. apply (IH q); [|done].
  by eapply reach_step.
Qed.

(** Threads 1 and 2 call during the release of thread 0; one of them releases
    for both. *)
Definition demo_fences : list fence_event :=
  [Call 0; Call 1; Call 2; Wake 1; Finish 0; Wake 2; Wake 1].

Definition demo_proto : fence_proto := default fence_init (run_fences demo_fences fence_init).
Definition demo_proto_end : fence_proto :=
  default fence_init (run_fences [Finish 2%nat; Wake 1%nat] demo_proto).

Lemma demo_proto_reachable : fence_reachable demo_proto.
Proof. apply (run_fences_reachable demo_fences fence_init); [constructor|reflexivity]. Qed.

Lemma demo_proto_end_reachable : fence_reachable demo_proto_end.
Proof.
  apply (run_fences_reachable [Finish 2%nat; Wake 1%nat] demo_proto);
    [apply demo_proto_reachable|reflexivity].
Qed.

Lemma fence_protocol_safe_witness :
  fp_threads demo_proto_end !! 1%nat = Some (Returned false)
  ∧ ∃ c, fp_called demo_proto_end !! 1%nat = Some c ∧ c < fp_finished demo_proto_end.
Proof.
  split; [reflexivity|].
  exact (proj1 (proj2 (proj2 (fence_protocol_safe demo_proto_end demo_proto_end_reachable)))
    1%nat false eq_refl).
Defined.

Lemma fence_protocol_progress_witness :
  ws_is_releasing (fp_ws demo_proto) = true
  ∧ ∃ t p', fence_step (Finish t) demo_proto = Some p'
       ∧ fp_threads p' !! t = Some (Returned true) ∧ ws_is_releasing (fp_ws p') = false.
Proof.
  split; [reflexivity|].
  exact (proj2 (fence_protocol_progress demo_proto demo_proto_reachable) eq_refl).
Defined.
