(* ===== verification/SharerMap.v ===== *)
(** The set of sharing processes of a block, sharer_map.hpp of medsm2/dsm
    (directory-coherence build): a bitmap of bytes indexed by process ID. *)
From Stdlib Require Import ZArith Lia.
From stdpp Require Import base tactics list.
From S2P Require Import Prelude.

(** [bm_]: the bytes of the map. *)
Abbreviation sharer_map := (list Z).

(** [sharer_map(size)]. *)
Definition sharer_map_init (size : nat) : sharer_map := replicate size 0.

(** The stores convert back to [unsigned char]. *)
Definition u8 (x : Z) : Z := Z.land x 255.

(** [bm_[proc_id >> 3]], checked. *)
Definition get_byte (p : Z) (bm : sharer_map) : result Z :=
  match bm !! Z.to_nat (Z.shiftr p 3) with Some b => Ok b | None => Fail OutOfBounds end.

Definition sharer_set (p : Z) (bm : sharer_map) : result sharer_map :=
  b ← get_byte p bm;
  Ok (<[Z.to_nat (Z.shiftr p 3) := u8 (Z.lor b (Z.shiftl 1 (Z.land p 7)))]> bm).

Definition sharer_unset (p : Z) (bm : sharer_map) : result sharer_map :=
  b ← get_byte p bm;
  Ok (<[Z.to_nat (Z.shiftr p 3) := u8 (Z.land b (Z.shiftl 255 (Z.land p 7)))]> bm).

Definition sharer_is_set (p : Z) (bm : sharer_map) : result bool :=
  b ← get_byte p bm;
  Ok (negb (Z.land (Z.shiftr b (Z.land p 7)) 1 =? 0)).

(** [copy_from]: the first [size] bytes of a buffer. *)
Definition sharer_copy_from (bm : list Z) (size : nat) : sharer_map := take size bm.

Definition get_sharer_map_size (num_procs : Z) : Z := Z.shiftr (num_procs - 1) 3 + 1.

(** * Specification *)

(** [p] is a member; out-of-range processes are not. *)
Definition member (p : Z) (bm : sharer_map) : bool :=
  match bm !! Z.to_nat (Z.shiftr p 3) with
  | Some b => Z.testbit b (Z.land p 7)
  | None => false
  end.

(** A process ID the map has room for. *)
Definition in_map (p : Z) (bm : sharer_map) : Prop :=
  0 ≤ p ∧ (Z.to_nat (Z.shiftr p 3) < length bm)%nat.

Lemma land7 p : Z.land p 7 = p mod 8.
Proof. change 7 with (Z.ones 3). by rewrite Z.land_ones. Qed.

Lemma land7_bound p : 0 ≤ Z.land p 7 < 8.
Proof. rewrite land7. apply Z.mod_pos_bound. lia. Qed.

Lemma shiftr3 p : Z.shiftr p 3 = p / 8.
Proof. by rewrite Z.shiftr_div_pow2. Qed.

Lemma get_byte_ok p bm : in_map p bm → ∃ b, get_byte p bm = Ok b
  ∧ bm !! Z.to_nat (Z.shiftr p 3) = Some b.
Proof.
  intros [_ H]. apply lookup_lt_is_Some in H as [b Hb]. exists b.
  unfold get_byte. by rewrite Hb.
Qed.

Lemma testbit_u8 x n : 0 ≤ n < 8 → Z.testbit (u8 x) n = Z.testbit x n.
Proof.
  intros H. unfold u8. change 255 with (Z.ones 8).
  rewrite Z.land_spec, Z.ones_spec_low by lia. apply andb_true_r.
Qed.

(** Two processes in the same byte are told apart by their low bits. *)
Lemma same_byte p q :
  0 ≤ p → 0 ≤ q → Z.to_nat (Z.shiftr p 3) = Z.to_nat (Z.shiftr q 3) →
  p = q + (Z.land p 7 - Z.land q 7).
Proof.
  rewrite !land7, !shiftr3. intros Hp Hq E.
  assert (p / 8 = q / 8).
  { apply Z2Nat.inj in E; [done|apply Z.div_pos; lia|apply Z.div_pos; lia]. }
  rewrite (Z.div_mod p 8), (Z.div_mod q 8) at 1 by lia. lia.
Qed.

Lemma sharer_is_set_spec p bm : in_map p bm → sharer_is_set p bm = Ok (member p bm).
Proof.
  intros H. destruct (get_byte_ok p bm H) as (b & Hb & Hl).
  unfold sharer_is_set, member. rewrite Hb, Hl. cbn. f_equal.
  pose proof (land7_bound p). change 1 with (Z.ones 1).
  rewrite Z.land_ones, Z.pow_1_r by lia.
  rewrite <-Z.bit0_mod, Z.shiftr_spec, Z.add_0_l by lia. by destruct (Z.testbit _ _).
Qed.

(** The update of one byte: the membership of [q] afterwards. *)
Lemma member_insert p q bm b :
  in_map p bm → 0 ≤ q →
  member q (<[Z.to_nat (Z.shiftr p 3) := b]> bm)
  = if decide (Z.to_nat (Z.shiftr q 3) = Z.to_nat (Z.shiftr p 3))
    then Z.testbit b (Z.land q 7) else member q bm.
Proof.
  intros [_ Hp] Hq. unfold member. case_decide as E.
  - rewrite E, list_lookup_insert_eq; done.
  - by rewrite list_lookup_insert_ne.
Qed.

Lemma testbit_pow2 n m : 0 ≤ n → 0 ≤ m → Z.testbit (Z.shiftl 1 n) m = (m =? n).
Proof.
  intros. rewrite Z.shiftl_1_l, Z.pow2_bits_eqb by done. by rewrite Z.eqb_sym.
Qed.

Lemma sharer_set_member p q bm bm' :
  in_map p bm → 0 ≤ q → sharer_set p bm = Ok bm' →
  length bm' = length bm ∧ member q bm' = (q =? p) || member q bm.
Proof.
  intros H Hq E. destruct (get_byte_ok p bm H) as (b & Hb & Hl).
  unfold sharer_set in E. rewrite Hb in E. cbn in E. simplify_eq.
  split; [by rewrite length_insert|]. rewrite member_insert by done.
  pose proof (land7_bound p). pose proof (land7_bound q).
  case_decide as Es.
  - pose proof (same_byte q p Hq (proj1 H) Es).
    rewrite testbit_u8, Z.lor_spec, testbit_pow2 by lia.
    unfold member. rewrite Es, Hl. rewrite orb_comm. f_equal.
    destruct (Z.eqb_spec (Z.land q 7) (Z.land p 7)), (Z.eqb_spec q p); try done; try lia.
  - destruct (Z.eqb_spec q p) as [->|]; done.
Qed.

Lemma testbit_mask n m : 0 ≤ n → 0 ≤ m < 8 → Z.testbit (Z.shiftl 255 n) m = (n <=? m).
Proof.
  intros Hn Hm. rewrite Z.shiftl_spec by lia. change 255 with (Z.ones 8).
  destruct (Z.leb_spec n m).
  - apply Z.ones_spec_low. lia.
  - apply Z.testbit_neg_r. lia.
Qed.

(** What [unset(p)] really does: it keeps [p] and removes every lower process
    of the same byte. *)
Lemma sharer_unset_member p q bm bm' :
  in_map p bm → 0 ≤ q → sharer_unset p bm = Ok bm' →
  length bm' = length bm
  ∧ member q bm' = member q bm && negb ((q / 8 =? p / 8) && (q <? p)).
Proof.
  intros H Hq E. destruct (get_byte_ok p bm H) as (b & Hb & Hl).
  unfold sharer_unset in E. rewrite Hb in E. cbn in E. simplify_eq.
  split; [by rewrite length_insert|]. rewrite member_insert by done.
  pose proof (land7_bound p). pose proof (land7_bound q). destruct H as [Hp _].
  case_decide as Es.
  - pose proof (same_byte q p Hq Hp Es).
    rewrite testbit_u8, Z.land_spec, testbit_mask by lia.
    unfold member. rewrite Es, Hl. f_equal.
    assert (q / 8 = p / 8) as ->.
    { rewrite <-!shiftr3. apply Z2Nat.inj; [| |done]; rewrite shiftr3; apply Z.div_pos; lia. }
    rewrite Z.eqb_refl. cbn.
    destruct (Z.leb_spec (Z.land p 7) (Z.land q 7)), (Z.ltb_spec q p); done || lia.
  - destruct (Z.eqb_spec (q / 8) (p / 8)) as [E8|]; cbn; [|by rewrite andb_true_r].
    exfalso. apply Es. by rewrite !shiftr3, E8.
Qed.

(** The map made for [num_procs] processes has room for all of them. *)
Lemma sharer_map_size_ok num_procs p :
  0 ≤ p < num_procs →
  in_map p (sharer_map_init (Z.to_nat (get_sharer_map_size num_procs))).
Proof.
  intros Hp. split; [lia|]. unfold sharer_map_init, get_sharer_map_size.
  rewrite length_replicate, !shiftr3.
  assert (p / 8 ≤ (num_procs - 1) / 8) by (apply Z.div_le_mono; lia).
  assert (0 ≤ p / 8) by (apply Z.div_pos; lia). lia.
Qed.

(** [unset] does not do what its name says. On every map that has a member [p],
    the bitmap after [unset(p)] still contains [p], and every other sharer
    below [p] in the same byte is gone. *)
Theorem sharer_unset_wrong p bm bm'
    (Hin : in_map p bm) (Hm : member p bm = true) (E : sharer_unset p bm = Ok bm') :
  sharer_is_set p bm' = Ok true
  ∧ ∀ q, 0 ≤ q < p → q / 8 = p / 8 → sharer_is_set q bm' = Ok false.
Proof.
  assert (∀ q, 0 ≤ q → q / 8 = p / 8 → in_map q bm') as Hin'.
  { intros q Hq E8. destruct (sharer_unset_member p p bm bm' Hin) as [Hl _]; [apply Hin|done|].
    split; [done|]. rewrite shiftr3, E8, <-shiftr3, Hl. apply Hin. }
  split.
  - rewrite sharer_is_set_spec by (apply Hin'; [apply Hin|done]).
    destruct (sharer_unset_member p p bm bm' Hin) as [_ ->]; [apply Hin|done|].
    by rewrite Hm, Z.ltb_irrefl, andb_false_r.
  - intros q [Hq Hlt] E8. rewrite sharer_is_set_spec by (by apply Hin').
    destruct (sharer_unset_member p q bm bm' Hin Hq E) as [_ ->].
    rewrite E8, Z.eqb_refl. cbn.
    assert ((q <? p) = true) as -> by (by apply Z.ltb_lt). by rewrite andb_false_r.
Qed.

(** Processes 1, 3 and 4 share; unsetting 3 leaves 3 and 4. *)
Lemma sharer_unset_wrong_witness :
  sharer_unset 3 [26] = Ok [24] ∧ sharer_is_set 3 [24] = Ok true.
Proof.
  split; [reflexivity|].
  apply (sharer_unset_wrong 3 [26] [24]); [split; [lia|vm_compute; lia]|reflexivity|reflexivity].
Defined.
