(* ===== verification/BlkDir.v ===== *)
(** The block directory of a process: blk_dir_table.hpp of medsm2/dsm.

    One [local_entry] per block: its state (which mirrors the protection of
    the application's pages), the probable home process, the timestamps of the
    local copy and the counters that drive write protection and fast release.
    Every operation runs with the entry's mutex held ([check_locked]) and is a
    function of the entry; the read set, the write set and the lock entry it
    touches are arguments and results. *)
From Stdlib Require Import ZArith Lia.
From stdpp Require Import base tactics list gmap.
From S2P Require Import Prelude.
From S2P Require Import Policy.
From S2P Require Import RdSet.
From S2P Require Import WrSet.
From S2P Require Import SharerMap.

(** [state_type]. *)
Inductive blk_state :=
| invalid_clean
| invalid_dirty
| readonly_clean
| readonly_dirty
| writable
| pinned.

#[export] Instance blk_state_eq_dec : EqDecision blk_state.
Proof. solve_decision. Defined.

Record local_entry := LocalEntry {
  le_home_proc : Z;
  le_state : blk_state;
  le_wr_count : Z;
  le_cur_wr_ts : Z;
  le_cur_rd_ts : Z;
  le_is_written_last : bool;
  le_fast_rel_count : Z;
  le_fast_rel_threshold : Z;
}.

Definition set_state (st : blk_state) (le : local_entry) : local_entry :=
  LocalEntry (le_home_proc le) st (le_wr_count le) (le_cur_wr_ts le) (le_cur_rd_ts le)
    (le_is_written_last le) (le_fast_rel_count le) (le_fast_rel_threshold le).

(** [coll_make]: zero-initialized entries with this process as the home. *)
Definition init_entry (P : policy) (this_proc : Z) : local_entry :=
  LocalEntry this_proc invalid_clean 0 0 0 false 0 (if enable_fast_release P then 1 else 0).

Definition dir_coll_make (P : policy) (this_proc : Z) (num_blks : nat) : list local_entry :=
  replicate num_blks (init_entry P this_proc).

(** [global_entry]: the timestamps kept in the lock-attached data. *)
Record global_entry := GlobalEntry { ge_wr_ts : Z; ge_rd_ts : Z }.

Definition is_invalid (st : blk_state) : bool :=
  match st with invalid_clean | invalid_dirty => true | _ => false end.

Definition is_readonly (st : blk_state) : bool :=
  match st with readonly_clean | readonly_dirty => true | _ => false end.

Definition state_eqb (a b : blk_state) : bool := bool_decide (a = b).

(** * Timestamps *)
Definition make_new_ts (P : policy) (min_wr_ts : Z) (is_written : bool) (wr_ts rd_ts : Z) :
    global_entry :=
  let new_wr_ts := if is_written then make_new_wr_ts min_wr_ts rd_ts else wr_ts in
  GlobalEntry new_wr_ts (make_new_rd_ts P min_wr_ts new_wr_ts rd_ts).

(** [update_ts]: the old lock entry is returned, the new one is written. *)
Definition update_ts (P : policy) (min_wr_ts : Z) (ge : global_entry) :
    global_entry * global_entry :=
  (ge, make_new_ts P min_wr_ts true (ge_wr_ts ge) (ge_rd_ts ge)).

(** * Upgrading a block *)
Record start_read_result := StartRead {
  sr_needs_read : bool;
  sr_needs_latest_read : bool;
  sr_is_dirty : bool;
  sr_home_proc : Z;
  sr_rd_ts : Z;
}.

(** [min_wr_ts] is the timestamp state the operation loads; [rs] is the read
    set when the block is added to it (other threads of the process may have
    raised its minimum in between). *)
Definition start_read (P : policy) (min_wr_ts blk_id : Z) (rs : rd_set) (le : local_entry) :
    result (start_read_result * rd_set * local_entry) :=
  if negb (is_invalid (le_state le)) then
    Ok (StartRead false false false 0 0, rs, le)
  else
    let cur_rd_ts := le_cur_rd_ts le in
    let needs_latest_read :=
      if use_directory_coherence P then true else negb (is_valid_rd_ts min_wr_ts cur_rd_ts) in
    let is_dirty := state_eqb (le_state le) invalid_dirty in
    let ret := StartRead true needs_latest_read is_dirty (le_home_proc le) cur_rd_ts in
    if needs_latest_read then Ok (ret, rs, le)
    else
      rs ← add_readable blk_id cur_rd_ts rs;
      Ok (ret, rs, set_state (if is_dirty then readonly_dirty else readonly_clean) le).

Record start_write_result := StartWrite {
  sw_needs_protect : bool;
  sw_needs_twin : bool;
  sw_is_writable : bool;
}.

Definition start_write (P : policy) (min_wr_ts blk_id : Z) (ws : wr_set) (ge : global_entry)
    (le : local_entry) : start_write_result * wr_set * global_entry * local_entry :=
  if is_readonly (le_state le) then
    let needs_twin := state_eqb (le_state le) readonly_clean in
    let le := set_state writable le in
    let ws := add_writable blk_id ws in
    let ge := if enable_fast_release P && le_is_written_last le
              then snd (update_ts P min_wr_ts ge) else ge in
    (StartWrite true needs_twin true, ws, ge, le)
  else if state_eqb (le_state le) writable || state_eqb (le_state le) pinned then
    (StartWrite false false true, ws, ge, le)
  else (StartWrite false false false, ws, ge, le).

Definition set_pinned (le : local_entry) : result local_entry :=
  _ ← assert_ (state_eqb (le_state le) writable);
  Ok (set_state pinned le).

Definition set_unpinned (le : local_entry) : result local_entry :=
  _ ← assert_ (state_eqb (le_state le) pinned);
  Ok (set_state writable le).

(** * Release *)
Record check_release_result := CheckRelease {
  cr_needs_release : bool;
  cr_is_fast_released : bool;
}.

Definition check_release (P : policy) (le : local_entry) : check_release_result :=
  let needs_release :=
    negb (state_eqb (le_state le) invalid_clean || state_eqb (le_state le) readonly_clean) in
  CheckRelease needs_release
    (enable_fast_release P
     && (le_is_written_last le && (le_fast_rel_count le <? le_fast_rel_threshold le))).

Definition fast_release (P : policy) (min_wr_ts : Z) (ge : global_entry) (le : local_entry) :
    global_entry * global_entry * local_entry :=
  let '(new_ts, ge') := update_ts P min_wr_ts ge in
  (new_ts, ge',
   LocalEntry (le_home_proc le) (le_state le) (le_wr_count le) (ge_wr_ts ge) (ge_rd_ts ge)
     (le_is_written_last le) (u64 (le_fast_rel_count le + 1)) (le_fast_rel_threshold le)).

(** * Invalidation *)
Record invalidate_result := Invalidate {
  iv_is_ignored : bool;
  iv_needs_protect : bool;
  iv_needs_merge : bool;
  iv_still_readable : bool;
}.

Definition set_invalid_state (is_invalidated : bool) (le : local_entry) :
    invalidate_result * local_entry :=
  if is_invalidated then
    match le_state le with
    | invalid_clean | invalid_dirty => (Invalidate false false false false, le)
    | readonly_clean => (Invalidate false true false false, set_state invalid_clean le)
    | readonly_dirty => (Invalidate false true false false, set_state invalid_dirty le)
    | writable => (Invalidate false true false false, set_state invalid_dirty le)
    | pinned => (Invalidate false false true true, le)
    end
  else (Invalidate true false false true, le).

(** [invalidate]: by a write timestamp. *)
Definition invalidate (new_wr_ts : Z) (le : local_entry) : invalidate_result * local_entry :=
  set_invalid_state (is_greater_rd_ts new_wr_ts (le_cur_rd_ts le)) le.

Definition acquire (new_home_proc new_rd_ts new_wr_ts : Z) (le : local_entry) :
    invalidate_result * local_entry :=
  let '(ret, le) := invalidate new_wr_ts le in
  if negb (iv_is_ignored ret) then
    (ret, LocalEntry new_home_proc (le_state le) (le_wr_count le) new_wr_ts new_rd_ts
            (le_is_written_last le) (le_fast_rel_count le) (le_fast_rel_threshold le))
  else (ret, le).

(** [self_invalidate] of the timestamp build, with the timestamps it returns. *)
Definition self_invalidate (min_wr_ts : Z) (le : local_entry) :
    invalidate_result * Z * Z * local_entry :=
  let '(ret, le) := invalidate min_wr_ts le in
  (ret, le_cur_wr_ts le, le_cur_rd_ts le, le).

(** [self_invalidate] of the directory build, by the invalidation flag. *)
Definition self_invalidate_dir (inv_flag : bool) (le : local_entry) :
    invalidate_result * local_entry :=
  set_invalid_state inv_flag le.

(** * Transactions *)

(** [lock_global_result] of the timestamp build. *)
Record lock_global_result := LockGlobal {
  glk_owner : Z;
  glk_last_writer_proc : Z;
  glk_home_ts : global_entry;
}.

Record begin_transaction_result := BeginTransaction {
  bt_owner : Z;
  bt_ts : global_entry;
  bt_is_remotely_updated : bool;
  bt_is_dirty : bool;
  bt_needs_protect_before : bool;
  bt_needs_protect_after : bool;
  bt_is_write_protected : bool;
  bt_needs_local_copy : bool;
  bt_needs_local_comp : bool;
}.

Definition begin_transaction (P : policy) (this_proc : Z) (glk : lock_global_result)
    (le : local_entry) : begin_transaction_result :=
  let state := le_state le in
  let wr_count := le_wr_count le in
  let is_remotely_updated := negb (glk_last_writer_proc glk =? this_proc) in
  let is_dirty :=
    state_eqb state invalid_dirty || state_eqb state readonly_dirty
    || state_eqb state writable || state_eqb state pinned in
  let needs_protect_before :=
    state_eqb state writable
    && (is_remotely_updated || (wr_count_threshold P <=? wr_count)) in
  let needs_protect_after := state_eqb state invalid_clean || state_eqb state invalid_dirty in
  let is_write_protected :=
    negb (state_eqb state writable || state_eqb state pinned) || needs_protect_before in
  let needs_local_copy :=
    if enable_lazy_merge P then wr_count_threshold P <=? u64 (wr_count + 2) else true in
  let needs_local_comp :=
    if enable_needs_local_comp P then wr_count_threshold P <=? u64 (wr_count + 1) else true in
  BeginTransaction (glk_owner glk) (glk_home_ts glk) is_remotely_updated is_dirty
    needs_protect_before needs_protect_after is_write_protected
    needs_local_copy needs_local_comp.

(** [release_merge_result] of the data table. *)
Record merge_result := MergeResult { mg_is_written : bool; mg_is_migrated : bool }.

Record end_transaction_result := EndTransaction {
  et_new_owner : Z;
  et_last_writer_proc : Z;
  et_new_ts : global_entry;
  et_is_still_writable : bool;
}.

(** The counters [(wr_count, is_written_last, fast_rel_count,
    fast_rel_threshold)] after a transaction. *)
Definition end_counts (P : policy) (bt : begin_transaction_result) (mg : merge_result)
    (le : local_entry) : Z * bool * Z * Z :=
  if enable_fast_release P then
    let is_written_last := negb (bt_is_remotely_updated bt) && mg_is_written mg in
    if bt_is_write_protected bt then (0, is_written_last, 0, 1)
    else if bt_needs_local_comp bt && mg_is_written mg then
      (0, is_written_last, 0,
       u64 (le_fast_rel_threshold le * 2) `min` max_fast_rel_threshold P)
    else
      (u64 (le_wr_count le + u64 (le_fast_rel_count le + 1)), is_written_last, 0, 1)
  else
    ((if bt_is_write_protected bt || (bt_needs_local_comp bt && mg_is_written mg)
      then 0 else u64 (le_wr_count le + 1)),
     le_is_written_last le, le_fast_rel_count le, le_fast_rel_threshold le).

(** [end_transaction] of the timestamp build. [min_wr_ts] is the timestamp
    state of the caller, [reloaded] the one loaded again for an invalid block
    and [rs] the read set when the block is added. *)
Definition end_transaction (P : policy) (this_proc min_wr_ts reloaded blk_id : Z)
    (glk : lock_global_result) (bt : begin_transaction_result) (mg : merge_result)
    (rs : rd_set) (le : local_entry) :
    result (end_transaction_result * rd_set * local_entry) :=
  let new_owner := if mg_is_migrated mg then this_proc else bt_owner bt in
  let new_last_writer_proc :=
    if mg_is_written mg then this_proc else glk_last_writer_proc glk in
  let old_state := le_state le in
  let my_min_wr_ts := if is_invalid old_state then reloaded else min_wr_ts in
  let new_ts :=
    make_new_ts P my_min_wr_ts (mg_is_written mg) (ge_wr_ts (bt_ts bt)) (ge_rd_ts (bt_ts bt)) in
  rs ← (if is_invalid old_state then add_readable blk_id (ge_rd_ts new_ts) rs else Ok rs);
  let is_still_writable := negb (bt_is_write_protected bt) in
  let new_state := if is_still_writable then old_state else readonly_clean in
  let '(wr_count, is_written_last, fast_rel_count, fast_rel_threshold) := end_counts P bt mg le in
  Ok (EndTransaction new_owner new_last_writer_proc new_ts is_still_writable, rs,
      LocalEntry new_owner new_state wr_count (ge_wr_ts new_ts) (ge_rd_ts new_ts)
        is_written_last fast_rel_count fast_rel_threshold).

(** ** The directory build *)

(** The loop over all processes: the sharers to invalidate and the map without
    them. *)
Fixpoint collect_sharers (this_proc : Z) (procs : list Z) (sharers : sharer_map) :
    result (list Z * sharer_map) :=
  match procs with
  | [] => Ok ([], sharers)
  | proc_id :: procs =>
      match sharer_is_set proc_id sharers with
      | Fail e => Fail e
      | Ok is_set =>
          if negb (proc_id =? this_proc) && is_set then
            sharers ← sharer_unset proc_id sharers;
            '(inv, sharers) ← collect_sharers this_proc procs sharers;
            Ok (proc_id :: inv, sharers)
          else collect_sharers this_proc procs sharers
      end
  end.

(** [end_transaction] of the directory build: besides the entry, the processes
    whose invalidation flag is set, and the new sharers; this process's own
    flag is cleared. *)
Definition end_transaction_dir (P : policy) (this_proc num_procs blk_id : Z)
    (last_writer_proc : Z) (sharers : sharer_map)
    (bt : begin_transaction_result) (mg : merge_result)
    (blk_ids : gset Z) (le : local_entry) :
    result (Z * Z * bool * list Z * sharer_map * gset Z * local_entry) :=
  let new_owner := if mg_is_migrated mg then this_proc else bt_owner bt in
  let new_last_writer_proc := if mg_is_written mg then this_proc else last_writer_proc in
  let old_state := le_state le in
  let blk_ids := if is_invalid old_state then unordered_add_readable blk_id blk_ids else blk_ids in
  let is_still_writable := negb (bt_is_write_protected bt) in
  let new_state := if is_still_writable then old_state else readonly_clean in
  let '(wr_count, is_written_last, fast_rel_count, fast_rel_threshold) := end_counts P bt mg le in
  '(inv_sharers, sharers) ←
    (if mg_is_written mg
     then collect_sharers this_proc (seqZ 0 num_procs) sharers
     else Ok ([], sharers));
  sharers ← sharer_set this_proc sharers;
  Ok (new_owner, new_last_writer_proc, is_still_writable, inv_sharers, sharers, blk_ids,
      LocalEntry new_owner new_state wr_count (le_cur_wr_ts le) (le_cur_rd_ts le)
        is_written_last fast_rel_count fast_rel_threshold).

(** * Specification *)

(** The page protection a state stands for ("the block state indicates the
    page protection of the local data block"). *)
Inductive page_prot := ProtNone | ProtRead | ProtReadWrite.

#[export] Instance page_prot_eq_dec : EqDecision page_prot.
Proof. solve_decision. Defined.

Definition prot_of (st : blk_state) : page_prot :=
  match st with
  | invalid_clean | invalid_dirty => ProtNone
  | readonly_clean | readonly_dirty => ProtRead
  | writable | pinned => ProtReadWrite
  end.

(** The states in which the private data may hold unreleased writes. *)
Definition dirty_state (st : blk_state) : bool :=
  match st with invalid_clean | readonly_clean => false | _ => true end.

Lemma state_eqb_true a b : state_eqb a b = true ↔ a = b.
Proof. apply bool_decide_eq_true. Qed.

Lemma bt_is_dirty_spec P p glk le :
  bt_is_dirty (begin_transaction P p glk le) = dirty_state (le_state le).
Proof. cbn. by destruct (le_state le). Qed.

Lemma check_release_dirty P le :
  cr_needs_release (check_release P le) = dirty_state (le_state le).
Proof. cbn. by destruct (le_state le). Qed.

(** No timestamp computed from [wr_ts], [rd_ts] and [min_wr_ts] overflows. *)
Definition ts_fits (P : policy) (min_wr_ts wr_ts rd_ts : Z) : Prop :=
  0 ≤ min_wr_ts ∧ 0 ≤ wr_ts ∧ 0 ≤ rd_ts ∧ 0 ≤ lease_ts P
  ∧ ((rd_ts + 1) `max` min_wr_ts) `max` wr_ts + lease_ts P < u64_mod.

Lemma ts_fits_pos P m w r : ts_fits P m w r →
  0 ≤ m ∧ 0 ≤ w ∧ 0 ≤ r ∧ 0 ≤ lease_ts P ∧ r + 1 < u64_mod
  ∧ m + lease_ts P < u64_mod ∧ w + lease_ts P < u64_mod ∧ r + 1 + lease_ts P < u64_mod.
Proof. unfold ts_fits. lia. Qed.

(** The timestamps of a transaction: the closed form without wrap-around. *)
Lemma make_new_ts_eq P m b w r :
  ts_fits P m w r →
  let w' := if b : bool then (r + 1) `max` m else w in
  make_new_ts P m b w r = GlobalEntry w' ((w' `max` m + lease_ts P) `max` r).
Proof.
  intros H%ts_fits_pos. unfold make_new_ts, make_new_rd_ts, make_new_wr_ts.
  rewrite (u64_small (r + 1)) by (unfold is_u64; lia).
  f_equal. destruct b; rewrite u64_small by (unfold is_u64; lia); done.
Qed.

Lemma make_new_ts_correct P min_wr_ts is_written wr_ts rd_ts
    (Hfit : ts_fits P min_wr_ts wr_ts rd_ts) :
  let new_ts := make_new_ts P min_wr_ts is_written wr_ts rd_ts in
  (is_written = true → rd_ts < ge_wr_ts new_ts ∧ min_wr_ts ≤ ge_wr_ts new_ts)
  ∧ (is_written = false → ge_wr_ts new_ts = wr_ts)
  ∧ rd_ts ≤ ge_rd_ts new_ts
  ∧ is_valid_rd_ts min_wr_ts (ge_rd_ts new_ts) = true
  ∧ ge_wr_ts new_ts + lease_ts P ≤ ge_rd_ts new_ts
  ∧ (wr_ts ≤ rd_ts → wr_ts ≤ ge_wr_ts new_ts).
Proof.
  cbn zeta. rewrite make_new_ts_eq by done. apply ts_fits_pos in Hfit. cbn.
  unfold is_valid_rd_ts. rewrite negb_true_iff, is_greater_rd_ts_false.
  destruct is_written; split_and!; intros; try done; lia.
Qed.

(** The timestamps a transaction generates: a write is ordered after
    every lease given out before and not before the process's minimum write
    timestamp; a read keeps the write timestamp; the new lease never ends
    before the old one, the minimum, or [lease_ts] past the write. *)
Theorem make_new_ts_spec P min_wr_ts is_written wr_ts rd_ts
    (Hfit : ts_fits P min_wr_ts wr_ts rd_ts) :
  let new_ts := make_new_ts P min_wr_ts is_written wr_ts rd_ts in
  (is_written = true → rd_ts < ge_wr_ts new_ts ∧ min_wr_ts ≤ ge_wr_ts new_ts)
  ∧ (is_written = false → ge_wr_ts new_ts = wr_ts)
  ∧ rd_ts ≤ ge_rd_ts new_ts
  ∧ is_valid_rd_ts min_wr_ts (ge_rd_ts new_ts) = true
  ∧ ge_wr_ts new_ts + lease_ts P ≤ ge_rd_ts new_ts
  ∧ (wr_ts ≤ rd_ts → wr_ts ≤ ge_wr_ts new_ts).
Proof. by apply make_new_ts_correct. Qed.

Lemma acquire_correct home rd_ts wr_ts le ret le' (E : acquire home rd_ts wr_ts le = (ret, le')) :
  iv_is_ignored ret = negb (is_greater_rd_ts wr_ts (le_cur_rd_ts le))
  ∧ (iv_is_ignored ret = true → le' = le ∧ wr_ts ≤ le_cur_rd_ts le)
  ∧ (iv_is_ignored ret = false →
       le_cur_rd_ts le < wr_ts ∧ le_home_proc le' = home
       ∧ le_cur_wr_ts le' = wr_ts ∧ le_cur_rd_ts le' = rd_ts
       ∧ (is_invalid (le_state le') = true ∨ le_state le' = pinned))
  ∧ dirty_state (le_state le') = dirty_state (le_state le)
  ∧ (prot_of (le_state le') =
       (if iv_needs_protect ret then ProtNone else prot_of (le_state le)))
  ∧ (iv_needs_merge ret = true ↔ iv_is_ignored ret = false ∧ le_state le = pinned).
Proof.
  unfold acquire, invalidate in E.
  destruct (is_greater_rd_ts wr_ts (le_cur_rd_ts le)) eqn:G; rewrite ?is_greater_rd_ts_true,
    ?is_greater_rd_ts_false in G; cbn in E.
  - destruct (le_state le) eqn:Est; cbn in E; simplify_eq; cbn; rewrite ?Est; cbn;
      split_and!; naive_solver.
  - simplify_eq. cbn. split_and!; naive_solver.
Qed.

(** Applying a write notice: a notice newer than the local lease
    invalidates every unpinned copy and records the notice's home and
    timestamps for the next read; an older one changes nothing and the local
    copy was already newer. In both cases unreleased writes of the block stay
    recorded, the page protection changes exactly when the result asks for it,
    and a pinned block, which stays readable, must be merged. *)
Theorem acquire_spec home rd_ts wr_ts le ret le' (E : acquire home rd_ts wr_ts le = (ret, le')) :
  iv_is_ignored ret = negb (is_greater_rd_ts wr_ts (le_cur_rd_ts le))
  ∧ (iv_is_ignored ret = true → le' = le ∧ wr_ts ≤ le_cur_rd_ts le)
  ∧ (iv_is_ignored ret = false →
       le_cur_rd_ts le < wr_ts ∧ le_home_proc le' = home
       ∧ le_cur_wr_ts le' = wr_ts ∧ le_cur_rd_ts le' = rd_ts
       ∧ (is_invalid (le_state le') = true ∨ le_state le' = pinned))
  ∧ dirty_state (le_state le') = dirty_state (le_state le)
  ∧ (prot_of (le_state le') =
       (if iv_needs_protect ret then ProtNone else prot_of (le_state le)))
  ∧ (iv_needs_merge ret = true ↔ iv_is_ignored ret = false ∧ le_state le = pinned).
Proof. by apply acquire_correct. Qed.

(** ** Upgrades *)

Lemma start_read_correct P blk_id rs le (Hwf : rd_set_wf rs) :
  ∃ ret rs' le', start_read P (get_ts_state rs) blk_id rs le = Ok (ret, rs', le')
  ∧ rd_set_wf rs' ∧ rs_min_wr_ts rs' = rs_min_wr_ts rs
  ∧ dirty_state (le_state le') = dirty_state (le_state le)
  ∧ sr_needs_read ret = is_invalid (le_state le)
  ∧ (if sr_needs_read ret && negb (sr_needs_latest_read ret)
     then is_readonly (le_state le') = true
          ∧ RdEntry blk_id (le_cur_rd_ts le) ∈ rs_pq rs'
          ∧ rs_min_wr_ts rs ≤ le_cur_rd_ts le ∧ sr_home_proc ret = le_home_proc le
     else le' = le ∧ rs' = rs)
  ∧ (sr_needs_latest_read ret = true ↔ is_invalid (le_state le) = true
       ∧ (use_directory_coherence P = true ∨ le_cur_rd_ts le < rs_min_wr_ts rs)).
Proof.
  unfold start_read, get_ts_state.
  destruct (is_invalid (le_state le)) eqn:Hi; cbn [negb].
  2: { eexists _, _, _. split; [done|]. cbn. split_and!; naive_solver. }
  destruct (if use_directory_coherence P then true else _) eqn:Hn; cbn [negb].
  - eexists _, _, _. split; [done|]. cbn. split_and!; try done. split; [|done]. intros _.
    split; [done|]. destruct (use_directory_coherence P); [by left|right].
    unfold is_valid_rd_ts in Hn. rewrite negb_involutive in Hn.
    by apply is_greater_rd_ts_true in Hn.
  - destruct (use_directory_coherence P); [done|]. unfold is_valid_rd_ts in Hn.
    rewrite negb_involutive in Hn. apply is_greater_rd_ts_false in Hn.
    rewrite add_readable_ok by done. cbn [mbind result_bind].
    eexists _, _, _. split; [done|].
    cbn [rs_pq rs_min_wr_ts sr_needs_read sr_needs_latest_read sr_home_proc set_state le_state andb negb].
    split_and!; try done.
    + by apply (pq_push_wf (RdEntry blk_id (le_cur_rd_ts le))).
    + destruct (le_state le); done.
    + by destruct (state_eqb _ _).
    + unfold pq_push. rewrite ins_perm. by left.
    + split; [done|]. intros [_ [?|?]]; [done|lia].
Qed.

(** Starting to read never fails when no other thread raises the minimum
    write timestamp meanwhile: a valid copy is left alone, an expired lease
    asks for a transaction, and a live lease makes the block readable again,
    keeping its unreleased writes, and adds it to the read set. *)
Theorem start_read_spec P blk_id rs le (Hwf : rd_set_wf rs) :
  ∃ ret rs' le', start_read P (get_ts_state rs) blk_id rs le = Ok (ret, rs', le')
  ∧ rd_set_wf rs' ∧ rs_min_wr_ts rs' = rs_min_wr_ts rs
  ∧ dirty_state (le_state le') = dirty_state (le_state le)
  ∧ sr_needs_read ret = is_invalid (le_state le)
  ∧ (if sr_needs_read ret && negb (sr_needs_latest_read ret)
     then is_readonly (le_state le') = true
          ∧ RdEntry blk_id (le_cur_rd_ts le) ∈ rs_pq rs'
          ∧ rs_min_wr_ts rs ≤ le_cur_rd_ts le ∧ sr_home_proc ret = le_home_proc le
     else le' = le ∧ rs' = rs)
  ∧ (sr_needs_latest_read ret = true ↔ is_invalid (le_state le) = true
       ∧ (use_directory_coherence P = true ∨ le_cur_rd_ts le < rs_min_wr_ts rs)).
Proof. exact (start_read_correct P blk_id rs le Hwf). Qed.

(** The three outcomes of [start_read] without a race. *)
Lemma start_read_cases P blk_id rs le :
  use_directory_coherence P = false → rd_set_wf rs →
  (is_invalid (le_state le) = false
   ∧ start_read P (get_ts_state rs) blk_id rs le = Ok (StartRead false false false 0 0, rs, le))
  ∨ (is_invalid (le_state le) = true ∧ ∃ rs' live,
      let dirty := state_eqb (le_state le) invalid_dirty in
      start_read P (get_ts_state rs) blk_id rs le
      = Ok (StartRead true (negb live) dirty (le_home_proc le) (le_cur_rd_ts le), rs',
            if live then set_state (if dirty then readonly_dirty else readonly_clean) le else le)
      ∧ rd_set_wf rs' ∧ rs_min_wr_ts rs' = rs_min_wr_ts rs ∧ (live = false → rs' = rs)).
Proof.
  intros Hd Hwf. unfold start_read, get_ts_state. rewrite Hd.
  destruct (is_invalid (le_state le)); [right|by left]. split; [done|]. cbn [negb].
  destruct (is_valid_rd_ts (rs_min_wr_ts rs) (le_cur_rd_ts le)) eqn:Hv; cbn [negb].
  - exists (RdSet (pq_push (RdEntry blk_id (le_cur_rd_ts le)) (rs_pq rs)) (rs_min_wr_ts rs)), true.
    unfold is_valid_rd_ts in Hv. rewrite negb_true_iff, is_greater_rd_ts_false in Hv.
    rewrite add_readable_ok by done. cbn zeta. cbn [negb mbind result_bind].
    split; [done|]. split; [by apply (pq_push_wf (RdEntry blk_id (le_cur_rd_ts le)))|done].
  - by exists rs, false.
Qed.

(** [start_read] reads the minimum write timestamp before it takes the
    read set's mutex; when another thread's acquire raises the minimum past
    the lease in between, the assertion of [add_readable] fails although the
    lease was valid when it was tested. *)
Theorem start_read_race P blk_id rs min_wr_ts le
    (Hts : use_directory_coherence P = false)
    (Hinv : is_invalid (le_state le) = true)
    (Hold : min_wr_ts ≤ le_cur_rd_ts le) (Hnew : le_cur_rd_ts le < rs_min_wr_ts rs) :
  start_read P min_wr_ts blk_id rs le = Fail AssertionFailure.
Proof.
  unfold start_read. rewrite Hinv, Hts. cbn [negb]. unfold is_valid_rd_ts.
  rewrite negb_involutive, (proj2 (is_greater_rd_ts_false _ _) Hold).
  unfold add_readable. by rewrite (proj2 (is_greater_rd_ts_true _ _) Hnew).
Qed.

(** ** Counters *)

(** With fast release, the threshold stays between one and its maximum, and no
    more fast releases than the threshold follow one another. *)
Record counts_ok (P : policy) (le : local_entry) : Prop := {
  co_threshold : 1 ≤ le_fast_rel_threshold le ≤ max_fast_rel_threshold P;
  co_count : 0 ≤ le_fast_rel_count le ≤ le_fast_rel_threshold le;
}.

(** The maximum is far from the range of [size_t]. *)
Definition fast_threshold_ok (P : policy) : Prop :=
  1 ≤ max_fast_rel_threshold P < 2 ^ 62.

Lemma init_entry_counts P this_proc :
  enable_fast_release P = true → fast_threshold_ok P → counts_ok P (init_entry P this_proc).
Proof. unfold fast_threshold_ok. intros E ?. split; cbn; rewrite E; lia. Qed.

Lemma double_threshold P t :
  fast_threshold_ok P → 1 ≤ t ≤ max_fast_rel_threshold P →
  1 ≤ u64 (t * 2) `min` max_fast_rel_threshold P ≤ max_fast_rel_threshold P.
Proof.
  unfold fast_threshold_ok. intros ? ?. rewrite u64_small; [lia|].
  unfold is_u64, u64_mod. lia.
Qed.

Lemma end_counts_ok P bt mg le w l c t :
  enable_fast_release P = true → fast_threshold_ok P → counts_ok P le →
  end_counts P bt mg le = (w, l, c, t) →
  c = 0 ∧ 1 ≤ t ≤ max_fast_rel_threshold P
  ∧ l = negb (bt_is_remotely_updated bt) && mg_is_written mg.
Proof.
  intros E Hmax [Ht Hc] H. unfold end_counts in H. rewrite E in H.
  pose proof Hmax as Hmax'. unfold fast_threshold_ok in Hmax'.
  destruct (bt_is_write_protected bt); [simplify_eq; split_and!; done || lia|].
  destruct (_ && _); simplify_eq; (split; [done|]).
  - split; [by apply double_threshold|done].
  - split; [lia|done].
Qed.

(** A fast release is only taken below the threshold, so it keeps the
    counters in range. *)
Lemma fast_release_counts P m ge le ts ge' le' :
  fast_threshold_ok P → counts_ok P le →
  cr_is_fast_released (check_release P le) = true →
  fast_release P m ge le = (ts, ge', le') → counts_ok P le' ∧ le_state le' = le_state le.
Proof.
  unfold fast_threshold_ok. intros Hmax [Ht Hc] Hf E. cbn in Hf, E. simplify_eq.
  bool_to_prop. split; [|done].
  split; cbn; [done|]. rewrite u64_small by (unfold is_u64, u64_mod; lia). lia.
Qed.

(** ** The whole transaction of the directory *)

(** How the protection of the pages moves during a transaction. *)
Definition prot_after (bt : begin_transaction_result) (prot : page_prot) : page_prot :=
  if bt_needs_protect_before bt || bt_needs_protect_after bt then ProtRead else prot.

Lemma transaction_prot P p glk le :
  let bt := begin_transaction P p glk le in
  prot_of (if negb (bt_is_write_protected bt) then le_state le else readonly_clean)
  = prot_after bt (prot_of (le_state le)).
Proof.
  cbn. unfold prot_after. cbn. destruct (le_state le); try done.
  by destruct (negb (glk_last_writer_proc glk =? p) || (wr_count_threshold P <=? le_wr_count le)).
Qed.

(** A write-protected transaction makes its block clean; the others leave a
    block that is (and was) writable. *)
Lemma transaction_state P p glk le :
  let bt := begin_transaction P p glk le in
  bt_is_write_protected bt = false → le_state le = writable ∨ le_state le = pinned.
Proof. cbn. destruct (le_state le); cbn; auto; done. Qed.

Lemma end_transaction_correct P this_proc min_wr_ts reloaded blk_id glk mg rs le
    (Hwf : rd_set_wf rs) (Hmin : rs_min_wr_ts rs ≤ reloaded)
    (Hfit : ts_fits P (if is_invalid (le_state le) then reloaded else min_wr_ts)
              (ge_wr_ts (glk_home_ts glk)) (ge_rd_ts (glk_home_ts glk))) :
  let bt := begin_transaction P this_proc glk le in
  ∃ et rs' le',
    end_transaction P this_proc min_wr_ts reloaded blk_id glk bt mg rs le = Ok (et, rs', le')
    ∧ rd_set_wf rs' ∧ rs_min_wr_ts rs' = rs_min_wr_ts rs
    ∧ is_invalid (le_state le') = false
    ∧ prot_of (le_state le') = prot_after bt (prot_of (le_state le))
    ∧ et_is_still_writable et = dirty_state (le_state le')
    ∧ (le_state le = pinned ↔ le_state le' = pinned)
    ∧ (le_state le = writable → glk_last_writer_proc glk ≠ this_proc →
         bt_needs_protect_before bt = true)
    ∧ GlobalEntry (le_cur_wr_ts le') (le_cur_rd_ts le') = et_new_ts et
    ∧ le_home_proc le' = et_new_owner et
    ∧ et_last_writer_proc et
      = (if mg_is_written mg then this_proc else glk_last_writer_proc glk)
    ∧ (is_invalid (le_state le) = true → RdEntry blk_id (le_cur_rd_ts le') ∈ rs_pq rs')
    ∧ (is_invalid (le_state le) = false → rs' = rs).
Proof.
  intros bt. unfold end_transaction.
  destruct (end_counts P bt mg le) as [[[wc wl] fc] ft] eqn:Ec.
  set (m := if is_invalid (le_state le) then reloaded else min_wr_ts) in *.
  pose proof (make_new_ts_correct P m (mg_is_written mg) _ _ Hfit) as (_ & _ & _ & Hv & _).
  set (ts := make_new_ts P m (mg_is_written mg) (ge_wr_ts (glk_home_ts glk))
    (ge_rd_ts (glk_home_ts glk))) in *.
  assert (∃ rs', (if is_invalid (le_state le) then add_readable blk_id (ge_rd_ts ts) rs
    else Ok rs) = Ok rs' ∧ rd_set_wf rs' ∧ rs_min_wr_ts rs' = rs_min_wr_ts rs
    ∧ (is_invalid (le_state le) = true → RdEntry blk_id (ge_rd_ts ts) ∈ rs_pq rs')
    ∧ (is_invalid (le_state le) = false → rs' = rs)) as (rs' & Hadd & Hwf' & Hm' & Hin & Hsame).
  { destruct (is_invalid (le_state le)) eqn:Hi; [|by exists rs].
    unfold is_valid_rd_ts in Hv. rewrite negb_true_iff, is_greater_rd_ts_false in Hv.
    assert (rs_min_wr_ts rs ≤ ge_rd_ts ts) by (change m with reloaded in Hv; lia).
    rewrite add_readable_ok by done. eexists. split; [done|].
    split; [by apply (pq_push_wf (RdEntry blk_id (ge_rd_ts ts)))|].
    split; [done|]. split; [|done]. intros _. cbn. unfold pq_push. rewrite ins_perm. by left. }
  change (ge_wr_ts (bt_ts bt)) with (ge_wr_ts (glk_home_ts glk)).
  change (ge_rd_ts (bt_ts bt)) with (ge_rd_ts (glk_home_ts glk)).
  fold m ts. rewrite Hadd. cbn [mbind result_bind].
  eexists _, _, _. split; [done|].
  cbn [le_state et_is_still_writable le_cur_wr_ts le_cur_rd_ts et_new_ts le_home_proc
       et_new_owner et_last_writer_proc].
  pose proof (transaction_prot P this_proc glk le) as Hprot. cbn zeta in Hprot.
  fold bt in Hprot. rewrite Hprot.
  pose proof (transaction_state P this_proc glk le) as Hst. cbn zeta in Hst; fold bt in Hst.
  split; [done|]. split; [done|].
  assert (bt_is_write_protected bt = true ∨
    bt_is_write_protected bt = false ∧ (le_state le = writable ∨ le_state le = pinned)) as Hwp.
  { destruct (bt_is_write_protected bt); [by left|right; auto]. }
  split_and!; try done.
  - destruct Hwp as [-> | [-> [-> | ->]]]; done.
  - destruct Hwp as [-> | [-> [-> | ->]]]; done.
  - unfold bt. cbn. destruct (le_state le); cbn; try done; by destruct (_ || _).
  - intros Hw Hl. unfold bt. cbn. rewrite Hw. cbn. apply Z.eqb_neq in Hl. by rewrite Hl.
Qed.

(** A directory transaction, from [begin_transaction] to
    [end_transaction], succeeds whatever the merge in between found; it makes
    the block readable, records the new home, the new last writer and the new
    timestamps, adds the block to the read set exactly when it was invalid,
    and leaves it dirty only when it stays writable. A writable block that
    another process wrote last is always write-protected before its data is
    merged. *)
Theorem end_transaction_spec P this_proc min_wr_ts reloaded blk_id glk mg rs le
    (Hwf : rd_set_wf rs) (Hmin : rs_min_wr_ts rs ≤ reloaded)
    (Hfit : ts_fits P (if is_invalid (le_state le) then reloaded else min_wr_ts)
              (ge_wr_ts (glk_home_ts glk)) (ge_rd_ts (glk_home_ts glk))) :
  let bt := begin_transaction P this_proc glk le in
  ∃ et rs' le',
    end_transaction P this_proc min_wr_ts reloaded blk_id glk bt mg rs le = Ok (et, rs', le')
    ∧ rd_set_wf rs' ∧ rs_min_wr_ts rs' = rs_min_wr_ts rs
    ∧ is_invalid (le_state le') = false
    ∧ prot_of (le_state le') = prot_after bt (prot_of (le_state le))
    ∧ et_is_still_writable et = dirty_state (le_state le')
    ∧ (le_state le = pinned ↔ le_state le' = pinned)
    ∧ (le_state le = writable → glk_last_writer_proc glk ≠ this_proc →
         bt_needs_protect_before bt = true)
    ∧ GlobalEntry (le_cur_wr_ts le') (le_cur_rd_ts le') = et_new_ts et
    ∧ le_home_proc le' = et_new_owner et
    ∧ et_last_writer_proc et
      = (if mg_is_written mg then this_proc else glk_last_writer_proc glk)
    ∧ (is_invalid (le_state le) = true → RdEntry blk_id (le_cur_rd_ts le') ∈ rs_pq rs')
    ∧ (is_invalid (le_state le) = false → rs' = rs).
Proof. exact (end_transaction_correct P this_proc min_wr_ts reloaded blk_id glk mg rs le Hwf Hmin Hfit). Qed.

(** What a transaction publishes. *)
Lemma end_transaction_published P this_proc min_wr_ts reloaded blk_id glk bt mg rs le et rs' le' :
  end_transaction P this_proc min_wr_ts reloaded blk_id glk bt mg rs le = Ok (et, rs', le') →
  et_new_ts et = make_new_ts P (if is_invalid (le_state le) then reloaded else min_wr_ts)
                   (mg_is_written mg) (ge_wr_ts (bt_ts bt)) (ge_rd_ts (bt_ts bt))
  ∧ et_new_owner et = (if mg_is_migrated mg then this_proc else bt_owner bt)
  ∧ le_state le' = (if negb (bt_is_write_protected bt) then le_state le else readonly_clean).
Proof.
  unfold end_transaction. destruct (end_counts P bt mg le) as [[[? ?] ?] ?].
  intros E. by apply bind_ok in E as (rs1 & _ & [= <- _ <-]).
Qed.

(** Timestamps that are at most [T], and how far one operation raises them. *)
Definition ts_below (T : Z) (ge : global_entry) : Prop :=
  0 ≤ ge_wr_ts ge ≤ T ∧ 0 ≤ ge_rd_ts ge ≤ T.

Lemma ts_below_fits P T m ge :
  ts_below T ge → 0 ≤ m ≤ T → 0 ≤ lease_ts P → T + 1 + lease_ts P < u64_mod →
  ts_fits P m (ge_wr_ts ge) (ge_rd_ts ge).
Proof. unfold ts_below, ts_fits. lia. Qed.

Lemma make_new_ts_below P T m b ge :
  ts_below T ge → 0 ≤ m ≤ T → 0 ≤ lease_ts P → T + 1 + lease_ts P < u64_mod →
  ts_below (T + 1 + lease_ts P) (make_new_ts P m b (ge_wr_ts ge) (ge_rd_ts ge)).
Proof.
  intros Hb Hm Hl Hf. rewrite make_new_ts_eq by by eapply ts_below_fits.
  unfold ts_below in *. cbn. destruct b; lia.
Qed.

(** ** Fast release *)

(** The first fast release after a transaction announces the same
    timestamps as the transaction did. A process that applied the
    transaction's write notice (so its copy carries the notice's lease)
    therefore ignores the notice of the fast release: the writes made between
    the two are not invalidated there. *)
Theorem fast_release_same_notice P this_proc min_wr_ts reloaded blk_id glk mg rs le et rs' le' m
    (Hfast : enable_fast_release P = true) (Hmax : fast_threshold_ok P)
    (Hcnt : counts_ok P le)
    (Hlocal : glk_last_writer_proc glk = this_proc) (Hwr : mg_is_written mg = true)
    (E : end_transaction P this_proc min_wr_ts reloaded blk_id glk
           (begin_transaction P this_proc glk le) mg rs le = Ok (et, rs', le'))
    (Hstill : et_is_still_writable et = true)
    (Hts : ge_wr_ts (et_new_ts et) ≤ ge_rd_ts (et_new_ts et)) :
  check_release P le' = CheckRelease true true
  ∧ (∃ ge' le'', fast_release P m (et_new_ts et) le' = (et_new_ts et, ge', le''))
  ∧ ∀ home le2 ret le3 le4,
      acquire home (ge_rd_ts (et_new_ts et)) (ge_wr_ts (et_new_ts et)) le2 = (ret, le3) →
      iv_is_ignored ret = false → le_cur_rd_ts le4 = le_cur_rd_ts le3 →
      acquire home (ge_rd_ts (et_new_ts et)) (ge_wr_ts (et_new_ts et)) le4
      = (Invalidate true false false true, le4).
Proof.
  pose proof (transaction_state P this_proc glk le) as Hst. cbn zeta in Hst.
  assert (bt_is_remotely_updated (begin_transaction P this_proc glk le) = false) as Hrem.
  { cbn. rewrite Hlocal. by rewrite Z.eqb_refl. }
  set (bt := begin_transaction P this_proc glk le) in *. clearbody bt.
  unfold end_transaction in E.
  destruct (end_counts P bt mg le) as [[[wc wl] fc] ft] eqn:Ec.
  destruct (end_counts_ok P bt mg le wc wl fc ft Hfast Hmax Hcnt Ec) as (-> & Hft & ->).
  apply bind_ok in E as (rs1 & _ & E). injection E; clear E; intros <- <- <-.
  cbn [et_is_still_writable et_new_ts] in *. split_and!.
  - unfold check_release. cbn [le_state le_is_written_last le_fast_rel_count le_fast_rel_threshold].
    rewrite Hfast, Hrem, Hwr, Hstill. cbn [negb andb].
    apply negb_true_iff in Hstill. destruct (Hst Hstill) as [-> | ->]; cbn; f_equal;
      apply Z.ltb_lt; lia.
  - by eexists _, _.
  - intros home le2 ret le3 le4 Ha Hign H4.
    destruct (acquire_correct _ _ _ _ _ _ Ha) as (_ & _ & Hnew & _).
    destruct (Hnew Hign) as (_ & _ & _ & Hrd & _).
    unfold acquire, invalidate. rewrite H4, Hrd.
    rewrite (proj2 (is_greater_rd_ts_false _ _)) by done. done.
Qed.

(** ** The sharers of the directory build *)

Lemma collect_sharers_spec this_proc n k sharers inv sharers' :
  0 ≤ n → 0 ≤ k → (∀ p, 0 ≤ p < k + n → in_map p sharers) →
  collect_sharers this_proc (seqZ k n) sharers = Ok (inv, sharers') →
  (∀ p, p ∈ inv ↔ k ≤ p < k + n ∧ p ≠ this_proc ∧ member p sharers = true)
  ∧ length sharers' = length sharers
  ∧ ∀ p, 0 ≤ p → member p sharers' = true → member p sharers = true.
Proof.
  intros Hn. revert k sharers inv sharers'. pattern n. apply natlike_ind; [| |done]; clear n Hn.
  { intros k sharers inv sharers' Hk Hin E. rewrite seqZ_nil in E by done. cbn in E.
    simplify_eq. split; [|done]. intros p. split; [by intros ?%not_elem_of_nil|lia]. }
  intros n Hn IH k sharers inv sharers' Hk Hin E.
  rewrite seqZ_cons in E by lia. replace (Z.pred (Z.succ n)) with n in E by lia.
  cbn in E. rewrite sharer_is_set_spec in E by (apply Hin; lia). cbn in E.
  assert (∀ p, 0 ≤ p < Z.succ k + n → in_map p sharers) as Hin1 by (intros; apply Hin; lia).
  destruct (negb (k =? this_proc) && member k sharers) eqn:Hk'.
  2: { destruct (IH (Z.succ k) sharers inv sharers') as (He & Hr); [lia|done..|].
       split; [|done]. intros p. rewrite He. bool_to_prop.
       split; [naive_solver lia|]. intros (Hb & Hp & Hm). split_and!; try done; [|lia].
       destruct (decide (p = k)) as [->|]; [|lia].
       destruct Hk' as [H|H]; [apply negb_false_iff, Z.eqb_eq in H|]; congruence. }
  bool_to_prop. apply bind_ok in E as (sh1 & E1 & E).
  apply bind_ok in E as ([inv1 sh2] & E2 & E). injection E; clear E; intros <- <-.
  assert (in_map k sharers) as Hink by (apply Hin; lia).
  assert (∀ q, 0 ≤ q → length sh1 = length sharers
    ∧ member q sh1 = member q sharers && negb ((q / 8 =? k / 8) && (q <? k))) as Hun.
  { intros q Hq. by apply sharer_unset_member. }
  destruct (IH (Z.succ k) sh1 inv1 sh2) as (He & Hlen & Hsub); [lia| |done|].
  { intros p Hp. destruct (Hin1 p Hp) as [? ?]. split; [done|]. by destruct (Hun k Hk) as [-> _]. }
  split; [|split].
  - intros p. rewrite elem_of_cons, He. split.
    + intros [->|(Hb & Hp & Hm)]; [split_and!; done || lia|].
      destruct (Hun p) as [_ E]; [lia|]. rewrite E in Hm. apply andb_prop in Hm as [? _].
      split_and!; done || lia.
    + intros (Hb & Hp & Hm). destruct (decide (p = k)) as [->|Hne]; [by left|right].
      split_and!; [lia|lia|done|]. destruct (Hun p) as [_ ->]; [lia|]. rewrite Hm.
      assert ((p <? k) = false) as -> by (apply Z.ltb_ge; lia). by rewrite andb_false_r.
  - rewrite Hlen. by destruct (Hun k Hk) as [-> _].
  - intros p Hp Hmem. apply Hsub in Hmem; [|done].
    destruct (Hun p Hp) as [_ E]. rewrite E in Hmem. by apply andb_prop in Hmem as [? _].
Qed.

(** A transaction of the directory build that wrote the block sends the
    invalidation flag to exactly the other sharers, although [unset] clears
    the wrong bits of the map while the loop runs; the resulting map contains
    this process and no process that did not share the block. *)
Theorem end_transaction_dir_invalidates P this_proc num_procs blk_id lw sharers bt mg ids le
    owner lw' still inv sharers' ids' le'
    (Hproc : 0 ≤ this_proc < num_procs)
    (Hmap : ∀ p, 0 ≤ p < num_procs → in_map p sharers) (Hwr : mg_is_written mg = true)
    (E : end_transaction_dir P this_proc num_procs blk_id lw sharers bt mg ids le
         = Ok (owner, lw', still, inv, sharers', ids', le')) :
  lw' = this_proc
  ∧ (∀ p, p ∈ inv ↔ 0 ≤ p < num_procs ∧ p ≠ this_proc ∧ sharer_is_set p sharers = Ok true)
  ∧ sharer_is_set this_proc sharers' = Ok true
  ∧ ∀ p, 0 ≤ p < num_procs → p ≠ this_proc →
      sharer_is_set p sharers' = Ok true → sharer_is_set p sharers = Ok true.
Proof.
  unfold end_transaction_dir in E. rewrite Hwr in E.
  destruct (end_counts P bt mg le) as [[[wc wl] fc] ft].
  apply bind_ok in E as ([inv1 sh1] & E1 & E). apply bind_ok in E as (sh2 & E2 & E).
  injection E as <- <- <- <- <- <- <-.
  destruct (collect_sharers_spec this_proc num_procs 0 sharers inv1 sh1) as (He & Hl & Hsub);
    [lia|done|done|done|].
  assert (∀ p, 0 ≤ p < num_procs → in_map p sh1) as Hmap1.
  { intros p Hp. destruct (Hmap p Hp). split; [done|by rewrite Hl]. }
  assert (∀ q, 0 ≤ q → length sh2 = length sh1
    ∧ member q sh2 = (q =? this_proc) || member q sh1) as Hset.
  { intros q Hq. apply sharer_set_member; auto. }
  assert (∀ p, 0 ≤ p < num_procs → in_map p sh2) as Hmap2.
  { intros p Hp. destruct (Hmap1 p Hp). split; [done|]. by destruct (Hset p) as [-> _]; [lia|]. }
  split; [done|]. split; [|split].
  - intros p. rewrite He. split; intros (Hb & Hn & Hm); (split; [lia|]; split; [done|]);
      revert Hm; rewrite sharer_is_set_spec by (apply Hmap; lia); congruence.
  - rewrite sharer_is_set_spec by auto. destruct (Hset this_proc) as [_ ->]; [lia|].
    by rewrite Z.eqb_refl.
  - intros p Hp Hne. rewrite !sharer_is_set_spec by auto. destruct (Hset p) as [_ ->]; [lia|].
    rewrite (proj2 (Z.eqb_neq _ _)) by done. cbn. intros [= Hm]. f_equal. apply Hsub; [lia|done].
Qed.

(** * Concrete blocks *)
Definition demo_glk : lock_global_result := LockGlobal 0 0 (GlobalEntry 5 15).

(** Writable here and written by this process last. *)
Definition demo_le : local_entry := LocalEntry 0 writable 0 5 15 false 0 1.

Lemma make_new_ts_witness :
  make_new_ts default_policy 7 true 5 15 = GlobalEntry 16 26
  ∧ 15 < ge_wr_ts (make_new_ts default_policy 7 true 5 15).
Proof.
  split; [reflexivity|].
  assert (ts_fits default_policy 7 5 15) as Hfit by (vm_compute; intuition congruence).
  exact (proj1 (proj1 (make_new_ts_spec default_policy 7 true 5 15 Hfit) eq_refl)).
Defined.

Lemma acquire_spec_witness :
  le_cur_rd_ts demo_le < 20 ∧ dirty_state (le_state (snd (acquire 2 30 20 demo_le))) = true.
Proof.
  split; [reflexivity|].
  exact (proj1 (proj2 (proj2 (proj2 (acquire_spec 2 30 20 demo_le _ _ eq_refl))))).
Defined.

Lemma start_read_witness :
  ∃ ret rs' le', start_read default_policy 10 64 demo_rd_set (set_state invalid_dirty demo_le)
    = Ok (ret, rs', le') ∧ rd_set_wf rs'.
Proof.
  destruct (start_read_spec default_policy 64 demo_rd_set (set_state invalid_dirty demo_le)
    demo_rd_set_wf) as (ret & rs' & le' & E & Hwf & _).
  exists ret, rs', le'. split; [exact E|exact Hwf].
Defined.

Lemma start_read_race_witness :
  start_read default_policy 10 64 (RdSet [] 16) (set_state invalid_clean demo_le)
  = Fail AssertionFailure.
Proof. apply start_read_race; [reflexivity|reflexivity|vm_compute; congruence|reflexivity]. Defined.

Lemma end_transaction_witness :
  ∃ et rs' le', end_transaction default_policy 0 10 10 64 demo_glk
      (begin_transaction default_policy 0 demo_glk demo_le) (MergeResult true true)
      demo_rd_set demo_le = Ok (et, rs', le')
    ∧ rd_set_wf rs'.
Proof.
  destruct (end_transaction_spec default_policy 0 10 10 64 demo_glk (MergeResult true true)
    demo_rd_set demo_le demo_rd_set_wf) as (et & rs' & le' & E & Hwf & _);
    [vm_compute; congruence|vm_compute; intuition congruence|].
  exists et, rs', le'. split; [exact E|exact Hwf].
Defined.

Definition demo_et : end_transaction_result := EndTransaction 0 0 (GlobalEntry 16 26) true.
Definition demo_le' : local_entry := LocalEntry 0 writable 0 16 26 true 0 2.

Lemma fast_release_same_notice_witness :
  end_transaction default_policy 0 10 10 64 demo_glk
    (begin_transaction default_policy 0 demo_glk demo_le) (MergeResult true true)
    demo_rd_set demo_le = Ok (demo_et, demo_rd_set, demo_le')
  ∧ check_release default_policy demo_le' = CheckRelease true true.
Proof.
  split; [reflexivity|].
  refine (proj1 (fast_release_same_notice default_policy 0 10 10 64 demo_glk
    (MergeResult true true) demo_rd_set demo_le demo_et demo_rd_set demo_le' 10
    eq_refl _ _ eq_refl eq_refl eq_refl eq_refl _)).
  - vm_compute. intuition congruence.
  - split; vm_compute; intuition congruence.
  - vm_compute. congruence.
Defined.

(** Processes 1, 3 and 4 of 8 share; process 3 writes. *)
Definition demo_bt : begin_transaction_result :=
  begin_transaction plain_policy 3 (LockGlobal 0 0 (GlobalEntry 0 0)) demo_le.

Lemma end_transaction_dir_witness :
  end_transaction_dir plain_policy 3 8 64 0 [26] demo_bt (MergeResult true false) ∅ demo_le
  = Ok (0, 3, false, [1; 4], [24], ∅, LocalEntry 0 readonly_clean 0 5 15 false 0 1)
  ∧ sharer_is_set 3 [24] = Ok true.
Proof.
  split; [reflexivity|].
  refine (proj1 (proj2 (proj2 (end_transaction_dir_invalidates plain_policy 3 8 64 0 [26] demo_bt
    (MergeResult true false) ∅ demo_le 0 3 false [1; 4] [24] ∅
    (LocalEntry 0 readonly_clean 0 5 15 false 0 1) _ _ eq_refl eq_refl)))).
  - lia.
  - intros p Hp. split; [lia|]. rewrite shiftr3. cbn. rewrite Z.div_small by lia. lia.
Defined.
