(* ===== verification/TsProtocol.v ===== *)
(** Timestamp coherence of one block across the processes of the system.

    The directory operations of BlkDir.v composed into a transition system:
    every process has its local entry, read set and write set; the
    lock-attached data of the block (owner, last writer, timestamps) is the
    global entry that transactions read and write one at a time (QueueLock.v);
    [cl_log] records the write notices of all the releases, oldest first. Each
    process carries the number of writes its copy is known to include.

    The transition system covers every timestamp build, with the fast releases
    of the default one. The coherence theorem is about the builds without them:
    [fast_release_keeps_stale] is a run of the default build in which a process
    keeps a copy that misses a release, for the reason that
    [BlkDir.fast_release_same_notice] gives. *)
From Stdlib Require Import ZArith Lia.
From stdpp Require Import base tactics list gmap.
From S2P Require Import Prelude.
From S2P Require Import Policy.
From S2P Require Import RdSet.
From S2P Require Import WrSet.
From S2P Require Import BlkDir.

Record proc_state := ProcState {
  ps_rs : rd_set;
  ps_ws : wr_set;
  ps_le : local_entry;
  ps_ver : nat;
}.

(** A write notice of the block: the home process and the timestamps. *)
Record notice := Notice { nt_home : Z; nt_ts : global_entry }.

Record cluster := Cluster {
  cl_procs : gmap Z proc_state;
  cl_owner : Z;
  cl_last_writer : Z;
  cl_ge : global_entry;
  cl_log : list notice;
}.

Definition set_proc (p : Z) (ps : proc_state) (cl : cluster) : cluster :=
  Cluster (<[p := ps]> (cl_procs cl)) (cl_owner cl) (cl_last_writer cl) (cl_ge cl) (cl_log cl).

Definition set_ge (ge : global_entry) (cl : cluster) : cluster :=
  Cluster (cl_procs cl) (cl_owner cl) (cl_last_writer cl) ge (cl_log cl).

Section protocol.
Context (P : policy) (blk_id : Z).

(** [do_transaction] on the directory: lock, [begin_transaction], merge,
    [end_transaction], unlock. *)
Definition transaction (p min_wr_ts : Z) (mg : merge_result) (ps : proc_state)
    (cl : cluster) : result cluster :=
  let glk := LockGlobal (cl_owner cl) (cl_last_writer cl) (cl_ge cl) in
  let bt := begin_transaction P p glk (ps_le ps) in
  '(et, rs, le) ← end_transaction P p min_wr_ts (get_ts_state (ps_rs ps)) blk_id glk bt mg
                    (ps_rs ps) (ps_le ps);
  let log := if mg_is_written mg
             then cl_log cl ++ [Notice (et_new_owner et) (et_new_ts et)] else cl_log cl in
  Ok (Cluster (<[p := ProcState rs (ps_ws ps) le (length log)]> (cl_procs cl))
        (et_new_owner et) (et_last_writer_proc et) (et_new_ts et) log).

(** [release] of [seg_table]: nothing when the block is clean, a fast release
    by the owner of the lock when the directory allows it, else a transaction. *)
Definition release (p : Z) (mg : merge_result) (ps : proc_state) (cl : cluster) : result cluster :=
  let ret := check_release P (ps_le ps) in
  if negb (cr_needs_release ret) then Ok cl
  else if cr_is_fast_released ret && (cl_owner cl =? p) then
    let '(new_ts, ge, le) := fast_release P (get_ts_state (ps_rs ps)) (cl_ge cl) (ps_le ps) in
    let log := cl_log cl ++ [Notice p new_ts] in
    Ok (Cluster (<[p := ProcState (ps_rs ps) (ps_ws ps) le (length log)]> (cl_procs cl))
          (cl_owner cl) (cl_last_writer cl) ge log)
  else transaction p (get_ts_state (ps_rs ps)) mg ps cl.

(** Applying the [i]-th write notice. A pinned block is merged by a
    transaction right away ([seg_table::acquire]). *)
Definition acquire_notice (p : Z) (i : nat) (min_wr_ts : Z) (mg : merge_result)
    (ps : proc_state) (cl : cluster) : result cluster :=
  match cl_log cl !! i with
  | None => Fail OutOfBounds
  | Some n =>
      let '(ret, le) := acquire (nt_home n) (ge_rd_ts (nt_ts n)) (ge_wr_ts (nt_ts n)) (ps_le ps) in
      let ps' := ProcState (ps_rs ps) (ps_ws ps) le
                   (if iv_is_ignored ret then ps_ver ps else S i) in
      if iv_needs_merge ret then transaction p min_wr_ts mg ps' cl
      else Ok (set_proc p ps' cl)
  end.

(** The operations that stay inside a process. A write writes the timestamps
    of the lock entry at its process, in the builds with fast release. *)
Inductive local_op :=
| OpStartRead | OpStartWrite | OpPin | OpUnpin | OpSelfInvalidate (min_wr_ts : Z).

Definition local_step (op : local_op) (ge : global_entry) (ps : proc_state) : result (proc_state * global_entry) :=
  let le := ps_le ps in
  match op with
  | OpStartRead =>
      '(_, rs, le) ← start_read P (get_ts_state (ps_rs ps)) blk_id (ps_rs ps) le;
      Ok (ProcState rs (ps_ws ps) le (ps_ver ps), ge)
  | OpStartWrite =>
      let '(_, ws, ge, le) := start_write P (get_ts_state (ps_rs ps)) blk_id (ps_ws ps) ge le in
      Ok (ProcState (ps_rs ps) ws le (ps_ver ps), ge)
  | OpPin => le ← set_pinned le; Ok (ProcState (ps_rs ps) (ps_ws ps) le (ps_ver ps), ge)
  | OpUnpin => le ← set_unpinned le; Ok (ProcState (ps_rs ps) (ps_ws ps) le (ps_ver ps), ge)
  | OpSelfInvalidate m =>
      let '(_, _, _, le) := self_invalidate m le in
      Ok (ProcState (ps_rs ps) (ps_ws ps) le (ps_ver ps), ge)
  end.

(** The lock entry of a process that does not own the lock is overwritten when
    it gets the lock. *)
Definition local_call (p : Z) (op : local_op) (ps : proc_state) (cl : cluster) : result cluster :=
  '(ps', ge) ← local_step op (cl_ge cl) ps;
  Ok (set_ge (if cl_owner cl =? p then ge else cl_ge cl) (set_proc p ps' cl)).

(** One step; [step_other] is what the other blocks and the fences of the
    process do to its read set. A step that makes timestamps assumes that they
    fit 64 bits. *)
Inductive step : cluster → cluster → Prop :=
| step_transaction p ps min_wr_ts mg cl cl' :
    cl_procs cl !! p = Some ps →
    (∀ m, m = min_wr_ts ∨ m = get_ts_state (ps_rs ps) →
       ts_fits P m (ge_wr_ts (cl_ge cl)) (ge_rd_ts (cl_ge cl))) →
    transaction p min_wr_ts mg ps cl = Ok cl' → step cl cl'
| step_acquire p ps i min_wr_ts mg cl cl' :
    cl_procs cl !! p = Some ps →
    (∀ m, m = min_wr_ts ∨ m = get_ts_state (ps_rs ps) →
       ts_fits P m (ge_wr_ts (cl_ge cl)) (ge_rd_ts (cl_ge cl))) →
    acquire_notice p i min_wr_ts mg ps cl = Ok cl' → step cl cl'
| step_release p ps mg cl cl' :
    cl_procs cl !! p = Some ps →
    ts_fits P (get_ts_state (ps_rs ps)) (ge_wr_ts (cl_ge cl)) (ge_rd_ts (cl_ge cl)) →
    release p mg ps cl = Ok cl' → step cl cl'
| step_local p ps op cl cl' :
    cl_procs cl !! p = Some ps → local_call p op ps cl = Ok cl' → step cl cl'
| step_other p ps rs cl :
    cl_procs cl !! p = Some ps → rd_set_wf rs → rs_min_wr_ts (ps_rs ps) ≤ rs_min_wr_ts rs →
    step cl (set_proc p (ProcState rs (ps_ws ps) (ps_le ps) (ps_ver ps)) cl).

(** The start: no process has a copy, no write was released. *)
Definition cluster_init (procs : list Z) (owner : Z) : cluster :=
  Cluster (list_to_map ((λ p, (p, ProcState rd_set_init wr_set_init (init_entry P p) 0)) <$> procs))
    owner owner (GlobalEntry 0 0) [].

Inductive reachable (procs : list Z) (owner : Z) : cluster → Prop :=
| reachable_init : reachable procs owner (cluster_init procs owner)
| reachable_step cl cl' : reachable procs owner cl → step cl cl' → reachable procs owner cl'.

(** * The invariant *)
Record cluster_inv (cl : cluster) : Prop := {
  ci_ge : 0 ≤ ge_wr_ts (cl_ge cl) ≤ ge_rd_ts (cl_ge cl);
  (** No copy is leased longer than the global entry says. *)
  ci_lease : ∀ p ps, cl_procs cl !! p = Some ps → le_cur_rd_ts (ps_le ps) ≤ ge_rd_ts (cl_ge cl);
  ci_log_lease : ∀ i n, cl_log cl !! i = Some n →
    ge_wr_ts (nt_ts n) ≤ ge_rd_ts (nt_ts n) ≤ ge_rd_ts (cl_ge cl);
  (** A later write is ordered after every lease of an earlier one. *)
  ci_log_order : ∀ i j n m, (i < j)%nat → cl_log cl !! i = Some n → cl_log cl !! j = Some m →
    ge_rd_ts (nt_ts n) < ge_wr_ts (nt_ts m);
  (** A write that a copy does not include is ordered after its lease. *)
  ci_copy : ∀ p ps i n, cl_procs cl !! p = Some ps → cl_log cl !! i = Some n →
    (ps_ver ps ≤ i)%nat → le_cur_rd_ts (ps_le ps) < ge_wr_ts (nt_ts n);
}.

Lemma lookup_snoc {A} (l : list A) x i y :
  (l ++ [x]) !! i = Some y → l !! i = Some y ∨ i = length l ∧ y = x.
Proof. rewrite lookup_snoc_Some. naive_solver. Qed.

(** A step that keeps the global entry and the log, and either keeps the
    timestamps and the version of [p] or applies notice [i] to it. *)
Lemma set_proc_inv p ps ps' cl :
  cluster_inv cl → cl_procs cl !! p = Some ps →
  (le_cur_rd_ts (ps_le ps') = le_cur_rd_ts (ps_le ps) ∧ ps_ver ps' = ps_ver ps)
  ∨ (∃ i n, cl_log cl !! i = Some n ∧ le_cur_rd_ts (ps_le ps') = ge_rd_ts (nt_ts n)
     ∧ ps_ver ps' = S i) →
  cluster_inv (set_proc p ps' cl).
Proof.
  intros [Hge Hl Hll Hlo Hc] Hp Hps. split; cbn; try done.
  - intros q qs. destruct (decide (q = p)) as [->|Hne].
    + rewrite lookup_insert_eq. intros [= <-].
      destruct Hps as [[-> _]|(i & n & Hn & -> & _)]; [by eapply Hl|]. by apply (Hll i n).
    + rewrite lookup_insert_ne by done. by apply Hl.
  - intros q qs i n. destruct (decide (q = p)) as [->|Hne].
    + rewrite lookup_insert_eq. intros [= <-] Hi Hle.
      destruct Hps as [[-> Hv]|(j & m & Hm & -> & Hv)]; rewrite Hv in Hle.
      * by eapply Hc.
      * by apply (Hlo j i).
    + rewrite lookup_insert_ne by done. by apply Hc.
Qed.

(** The timestamps a transaction writes. *)
Lemma transaction_inv p min_wr_ts mg ps cl cl' :
  cluster_inv cl →
  (∀ m, m = min_wr_ts ∨ m = get_ts_state (ps_rs ps) →
     ts_fits P m (ge_wr_ts (cl_ge cl)) (ge_rd_ts (cl_ge cl))) →
  transaction p min_wr_ts mg ps cl = Ok cl' → cluster_inv cl'.
Proof.
  intros [Hge Hl Hll Hlo Hc] Hfit E. unfold transaction in E.
  apply bind_ok in E as ([[et rs] le] & E & H). injection H; clear H; intros <-.
  unfold end_transaction in E.
  set (m := if is_invalid (le_state (ps_le ps)) then _ else _) in E.
  assert (ts_fits P m (ge_wr_ts (cl_ge cl)) (ge_rd_ts (cl_ge cl))) as Hf.
  { apply Hfit. unfold m. destruct (is_invalid _); auto. }
  pose proof (make_new_ts_correct P m (mg_is_written mg) _ _ Hf) as (Hwr & Hnw & Hrd & _ & Hlease & Hmon).
  cbn [bt_ts begin_transaction glk_home_ts] in E.
  set (ts := make_new_ts P m (mg_is_written mg) (ge_wr_ts (cl_ge cl)) (ge_rd_ts (cl_ge cl))) in *.
  clearbody m ts. apply bind_ok in E as (rs1 & _ & E).
  destruct (end_counts _ _ _ _) as [[[wc wl] fc] ft]. injection E; clear E; intros <- <- <-.
  cbn [et_new_ts et_new_owner et_last_writer_proc].
  assert (0 ≤ lease_ts P) as Hlt by apply Hf.
  split; cbn [cl_ge cl_procs cl_log].
  - lia.
  - intros q qs. destruct (decide (q = p)) as [->|Hne].
    + rewrite lookup_insert_eq. intros [= <-]. done.
    + rewrite lookup_insert_ne by done. intros Hq. specialize (Hl q qs Hq). lia.
  - intros i n Hi. destruct (mg_is_written mg).
    + apply lookup_snoc in Hi as [Hi|[-> ->]]; cbn; [|lia].
      specialize (Hll i n Hi). lia.
    + specialize (Hll i n Hi). lia.
  - intros i j n n' Hij Hi Hj. destruct (mg_is_written mg); [|by apply (Hlo i j)].
    apply lookup_snoc in Hj as [Hj|[-> ->]]; apply lookup_snoc in Hi as [Hi|[-> ->]].
    + by apply (Hlo i j).
    + apply lookup_lt_Some in Hj. lia.
    + cbn. specialize (Hll i n Hi). specialize (Hwr eq_refl). lia.
    + lia.
  - intros q qs i n Hq Hi Hver. destruct (decide (q = p)) as [->|Hne].
    + rewrite lookup_insert_eq in Hq. injection Hq as <-. cbn in Hver.
      apply lookup_lt_Some in Hi. lia.
    + rewrite lookup_insert_ne in Hq by done. destruct (mg_is_written mg); [|by eapply Hc].
      apply lookup_snoc in Hi as [Hi|[-> ->]]; [by eapply Hc|]. cbn.
      specialize (Hl q qs Hq). specialize (Hwr eq_refl). lia.
Qed.

Lemma acquire_notice_inv p i min_wr_ts mg ps cl cl' :
  cluster_inv cl → cl_procs cl !! p = Some ps →
  (∀ m, m = min_wr_ts ∨ m = get_ts_state (ps_rs ps) →
     ts_fits P m (ge_wr_ts (cl_ge cl)) (ge_rd_ts (cl_ge cl))) →
  acquire_notice p i min_wr_ts mg ps cl = Ok cl' → cluster_inv cl'.
Proof.
  intros Hinv Hp Hfit E. unfold acquire_notice in E.
  destruct (cl_log cl !! i) as [n|] eqn:Hi; [|done].
  destruct (acquire _ _ _ _) as [ret le] eqn:Ea.
  destruct (acquire_correct _ _ _ _ _ _ Ea) as (_ & Hign & Hnew & _).
  destruct (iv_needs_merge ret); [by eapply transaction_inv; [..|exact E]|].
  injection E as <-. eapply set_proc_inv; [done..|]. cbn.
  destruct (iv_is_ignored ret).
  - left. by destruct (Hign eq_refl) as [-> _].
  - right. exists i, n. destruct (Hnew eq_refl) as (_ & _ & _ & Hrd & _). done.
Qed.

Context (Hfast : enable_fast_release P = false).

Lemma release_inv p mg ps cl cl' :
  cluster_inv cl →
  ts_fits P (get_ts_state (ps_rs ps)) (ge_wr_ts (cl_ge cl)) (ge_rd_ts (cl_ge cl)) →
  release p mg ps cl = Ok cl' → cluster_inv cl'.
Proof using Hfast.
  intros Hinv Hf E. unfold release, check_release in E. rewrite Hfast in E. cbn in E.
  destruct (negb _); [by injection E as <-|]. eapply transaction_inv; [done| |exact E]. by intros m [-> | ->].
Qed.

(** Local operations leave the timestamps alone. *)
Lemma local_step_ts op ge ps ps' ge' :
  local_step op ge ps = Ok (ps', ge') →
  ge' = ge ∧ le_cur_rd_ts (ps_le ps') = le_cur_rd_ts (ps_le ps) ∧ ps_ver ps' = ps_ver ps.
Proof using Hfast.
  destruct op; cbn; intros E.
  - apply bind_ok in E as ([[r rs] le] & E & H). injection H as <- <-. split_and!; [done| |done]. cbn.
    unfold start_read in E. repeat case_bool; inv_ok; done.
  - destruct (start_write _ _ _ _ _ _) as [[[r ws] ge1] le] eqn:Es. injection E as <- <-.
    unfold start_write in Es. rewrite Hfast in Es. cbn in Es. repeat case_bool; simplify_eq; done.
  - apply bind_ok in E as (le & E & H). injection H as <- <-. unfold set_pinned in E. by inv_ok.
  - apply bind_ok in E as (le & E & H). injection H as <- <-. unfold set_unpinned in E. by inv_ok.
  - unfold self_invalidate, invalidate in E.
    destruct (set_invalid_state _ _) as [r le] eqn:Es. injection E as <- <-. split_and!; [done| |done]. cbn.
    unfold set_invalid_state in Es. destruct (is_greater_rd_ts _ _), (le_state (ps_le ps));
      by simplify_eq.
Qed.

Lemma local_call_inv p op ps cl cl' :
  cluster_inv cl → cl_procs cl !! p = Some ps → local_call p op ps cl = Ok cl' → cluster_inv cl'.
Proof using Hfast.
  intros Hinv Hp E. unfold local_call in E. apply bind_ok in E as ([ps' ge] & E & [= <-]).
  apply local_step_ts in E as (-> & Hts & Hver).
  replace (if cl_owner cl =? p then cl_ge cl else cl_ge cl) with (cl_ge cl) by by destruct (_ =? _).
  change (set_ge (cl_ge cl) (set_proc p ps' cl)) with (set_proc p ps' cl).
  eapply set_proc_inv; [done..|]. by left.
Qed.

Lemma step_inv cl cl' : cluster_inv cl → step cl cl' → cluster_inv cl'.
Proof using Hfast.
  intros Hinv Hs. destruct Hs as [p ps m mg cl cl' Hp Hf E|p ps i m mg cl cl' Hp Hf E
    |p ps mg cl cl' Hp Hf E|p ps op cl cl' Hp E|p ps rs cl Hp Hwf Hmin].
  - by eapply transaction_inv.
  - by eapply acquire_notice_inv.
  - by eapply release_inv.
  - by eapply local_call_inv.
  - eapply set_proc_inv; [done..|]. by left.
Qed.

Lemma cluster_init_inv procs owner : cluster_inv (cluster_init procs owner).
Proof.
  split; cbn; try done.
  intros p ps H. apply elem_of_list_to_map_2 in H.
  apply list_elem_of_fmap in H as (q & [= -> ->] & _). done.
Qed.

Lemma cluster_reachable_inv procs owner cl : reachable procs owner cl → cluster_inv cl.
Proof using Hfast. induction 1; [apply cluster_init_inv|by eapply step_inv]. Qed.

(** C12: coherence by timestamps, in the builds without fast release and while
    the timestamps fit in 64 bits: in every
    reachable state of the processes that share a block, whatever they did
    before (transactions, releases, acquires, reads, writes, pinning,
    self-invalidations), a process that applies the write notice
    of a release either invalidates its copy (so that its next access reads
    data at least as new, or merges at once when the block is pinned) or
    already has a copy that includes that release. Moreover every lease is
    within the global entry, and the write timestamps of the releases are
    ordered like the releases. With fast releases, which are part of the default
    build, it is false: [fast_release_keeps_stale]. *)
Theorem acquire_never_keeps_stale procs owner cl p ps i n
    (Hr : reachable procs owner cl) (Hp : cl_procs cl !! p = Some ps)
    (Hi : cl_log cl !! i = Some n) :
  let '(ret, le') := acquire (nt_home n) (ge_rd_ts (nt_ts n)) (ge_wr_ts (nt_ts n)) (ps_le ps) in
  ((iv_is_ignored ret = true ∧ le' = ps_le ps ∧ (i < ps_ver ps)%nat)
   ∨ (iv_is_ignored ret = false ∧ le_home_proc le' = nt_home n
      ∧ (prot_of (le_state le') = ProtNone ∨ iv_needs_merge ret = true)))
  ∧ le_cur_rd_ts (ps_le ps) ≤ ge_rd_ts (cl_ge cl)
  ∧ (∀ j m, (i < j)%nat → cl_log cl !! j = Some m → ge_wr_ts (nt_ts n) < ge_wr_ts (nt_ts m)).
Proof using Hfast.
  apply cluster_reachable_inv in Hr. destruct (acquire _ _ _ _) as [ret le'] eqn:E.
  destruct (acquire_correct _ _ _ _ _ _ E) as (_ & Hign & Hnew & Hd & Hprot & Hmerge).
  split; [|split; [by eapply ci_lease|]].
  - destruct (iv_is_ignored ret); [left|right].
    + destruct (Hign eq_refl) as [-> Hle]. split_and!; try done.
      destruct (Nat.lt_ge_cases i (ps_ver ps)) as [|Hge]; [done|].
      pose proof (ci_copy cl Hr p ps i n Hp Hi Hge). lia.
    + destruct (Hnew eq_refl) as (Hlt & Hhome & Hwts & Hrts & Hst). split_and!; try done.
      destruct Hst as [Hst|Hst]; [left; by destruct (le_state le')|right].
      apply Hmerge. split; [done|]. unfold acquire, invalidate in E.
      rewrite (proj2 (is_greater_rd_ts_true _ _)) in E by done. cbn in E.
      destruct (le_state (ps_le ps)) eqn:Es; cbn in E; simplify_eq; try done; cbn in Hst; congruence.
  - intros j m Hij Hj. pose proof (ci_log_lease cl Hr i n Hi).
    pose proof (ci_log_order cl Hr i j n m Hij Hi Hj). lia.
Qed.
End protocol.

(** * A concrete run: process 0 writes and releases, process 1 reads, process 0
    writes and releases again; process 1 must invalidate. *)
Definition demo_ps0 : proc_state :=
  ProcState rd_set_init wr_set_init (init_entry plain_policy 0) 0.
Definition demo_ps1 : proc_state :=
  ProcState rd_set_init wr_set_init (init_entry plain_policy 1) 0.
Definition demo_written : merge_result := MergeResult true true.
Definition demo_init : cluster := cluster_init plain_policy [0; 1] 0.

Definition demo_run : result cluster :=
  cl ← transaction plain_policy 64 0 0 demo_written demo_ps0 demo_init;
  transaction plain_policy 64 1 0 (MergeResult false true) demo_ps1 cl.

Definition demo_cluster : cluster :=
  match demo_run with Ok cl => cl | Fail _ => demo_init end.

Lemma demo_reachable : reachable plain_policy 64 [0; 1] 0 demo_cluster.
Proof.
  assert (∀ m, m = 0 ∨ m = 0 → ts_fits plain_policy m 0 0) as Hf.
  { intros m [-> | ->]; vm_compute; intuition congruence. }
  destruct (transaction plain_policy 64 0 0 demo_written demo_ps0 demo_init) as [cl1|] eqn:E1;
    [|by vm_compute in E1].
  eapply (reachable_step _ _ _ _ cl1).
  - eapply reachable_step; [apply reachable_init|].
    apply (step_transaction _ _ 0 demo_ps0 0 demo_written); [reflexivity|exact Hf|exact E1].
  - apply (step_transaction _ _ 1 demo_ps1 0 (MergeResult false true)).
    + apply (f_equal (λ r, match r with Ok c => cl_procs c !! 1 | Fail _ => None end)) in E1.
      rewrite <-E1. reflexivity.
    + apply (f_equal (λ r, match r with Ok c => cl_ge c | Fail _ => GlobalEntry 0 0 end)) in E1.
      rewrite <-E1. intros m [-> | ->]; vm_compute; intuition congruence.
    + unfold demo_cluster, demo_run. rewrite E1. cbn [mbind result_bind].
      destruct (transaction plain_policy 64 1 0 _ demo_ps1 cl1) eqn:E2; [done|].
      exfalso. revert E2. vm_compute in E1. injection E1 as <-. by vm_compute.
Qed.

Lemma acquire_never_keeps_stale_witness :
  ∃ ps n, cl_procs demo_cluster !! 1 = Some ps ∧ cl_log demo_cluster !! 0%nat = Some n
    ∧ le_cur_rd_ts (ps_le ps) ≤ ge_rd_ts (cl_ge demo_cluster).
Proof.
  eexists _, _. split; [vm_compute; reflexivity|]. split; [vm_compute; reflexivity|].
  exact (proj1 (proj2 (acquire_never_keeps_stale plain_policy 64 eq_refl [0; 1] 0 demo_cluster 1 _ 0%nat _
    demo_reachable eq_refl eq_refl))).
Defined.

(** * Fast release *)

Inductive demo_act :=
| DemoTransaction (p : Z) (mg : merge_result) | DemoRelease (p : Z) (mg : merge_result)
| DemoLocal (p : Z) (op : local_op) | DemoAcquire (p : Z) (i : nat).

Definition act_proc (a : demo_act) : Z :=
  match a with DemoTransaction p _ | DemoRelease p _ | DemoLocal p _ | DemoAcquire p _ => p end.

Definition small_ts (ts : Z) : bool := (0 <=? ts) && (ts <? 2 ^ 32).

(** A step of the default build, while the timestamps are small. *)
Definition fast_act (cl : cluster) (a : demo_act) : option cluster :=
  ps ← cl_procs cl !! act_proc a;
  if small_ts (get_ts_state (ps_rs ps)) && small_ts (ge_wr_ts (cl_ge cl)) && small_ts (ge_rd_ts (cl_ge cl)) then
    match (match a with
           | DemoTransaction p mg => transaction default_policy 64 p 0 mg ps cl
           | DemoRelease p mg => release default_policy 64 p mg ps cl
           | DemoLocal p op => local_call default_policy 64 p op ps cl
           | DemoAcquire p i => acquire_notice default_policy 64 p i 0 (MergeResult false true) ps cl
           end) with Ok cl => Some cl | Fail _ => None end
  else None.

Lemma small_ts_fits m w r :
  small_ts m = true → small_ts w = true → small_ts r = true → ts_fits default_policy m w r.
Proof.
  unfold small_ts, ts_fits. intros Hm Hw Hr. repeat (apply andb_prop in Hm as [Hm ?]).
  apply andb_prop in Hw as [? ?], Hr as [? ?]. bool_to_prop. change (lease_ts default_policy) with 10. unfold u64_mod. lia.
Qed.

Lemma fast_act_step cl a cl' : fast_act cl a = Some cl' → step default_policy 64 cl cl'.
Proof.
  unfold fast_act. intros (ps & Hp & E)%bind_Some. destruct (small_ts _ && _ && _) eqn:Hs; [|done].
  apply andb_prop in Hs as [[Hm Hw]%andb_prop Hr].
  assert (∀ m, m = 0 ∨ m = get_ts_state (ps_rs ps) → ts_fits default_policy m (ge_wr_ts (cl_ge cl)) (ge_rd_ts (cl_ge cl))) as Hf.
  { intros m [-> | ->]; by apply small_ts_fits. }
  destruct a as [p mg|p mg|p op|p i]; case_match; simplify_eq.
  - by eapply step_transaction.
  - eapply step_release; [done|by apply Hf; right|done].
  - by eapply step_local.
  - by eapply step_acquire.
Qed.

Lemma fast_acts_reach l cl cl' procs owner :
  reachable default_policy 64 procs owner cl → foldl (λ r a, cl ← r; fast_act cl a) (Some cl) l = Some cl' →
  reachable default_policy 64 procs owner cl'.
Proof.
  revert cl. induction l as [|a l IH]; intros cl Hr E; cbn in E; [by injection E as <-|].
  destruct (fast_act cl a) as [cl1|] eqn:Ea; [|exfalso; clear -E; induction l as [|b l IH]; [discriminate E|by apply IH]].
  apply (IH cl1); [|done]. eapply reachable_step; [done|by eapply fast_act_step].
Qed.

(** Process 0 writes and releases, process 1 applies the notice and reads, and
    process 0 releases again, fast. *)
Definition fast_acts : list demo_act :=
  [DemoTransaction 0 (MergeResult false true); DemoLocal 0 OpStartWrite; DemoRelease 0 demo_written;
   DemoAcquire 1 0; DemoLocal 1 OpStartRead; DemoRelease 0 demo_written].

Definition fast_end : option cluster :=
  foldl (λ r a, cl ← r; fast_act cl a) (Some (cluster_init default_policy [0; 1] 0)) fast_acts.

(** In the default build, process 1 ignores the second notice although its
    readable copy was made before the second release. *)
Lemma fast_release_keeps_stale :
  ∃ cl ps n, reachable default_policy 64 [0; 1] 0 cl ∧ cl_procs cl !! 1 = Some ps ∧ cl_log cl !! 1%nat = Some n
    ∧ ps_ver ps = 1%nat ∧ prot_of (le_state (ps_le ps)) = ProtRead
    ∧ iv_is_ignored (fst (acquire (nt_home n) (ge_rd_ts (nt_ts n)) (ge_wr_ts (nt_ts n)) (ps_le ps))) = true.
Proof.
  destruct fast_end as [cl|] eqn:E; [|by vm_compute in E].
  pose proof (f_equal (λ r, (λ cl, (cl_procs cl !! 1, cl_log cl !! 1%nat)) <$> r) E) as Hs.
  vm_compute in Hs. injection Hs as Hp Hn. exists cl. eexists _, _. split_and!; [|by symmetry|by symmetry|reflexivity..].
  eapply fast_acts_reach; [apply reachable_init|exact E].
Qed.
