(* ===== verification/BlkData.v ===== *)
(** The data of a block: blk_data_table.hpp of medsm2/dsm.

    For one block, every process has a private copy (the application's pages),
    a public copy (the twin, also what other processes read) and, without
    migration, a snapshot; [blk_mem] holds them with the protection of the
    private pages. The processes' memories are a map from process IDs, and the
    RMA operations of the source are reads and writes of that map. The byte
    loops and the AVX2 loop of the merges are translated one by one; the
    256-bit registers are integers and the casts between bytes and vectors the
    little-endian codec of the prelude. *)
From Stdlib Require Import ZArith Lia.
From stdpp Require Import base tactics list gmap.
From S2P Require Import Prelude.
From S2P Require Import Policy.
From S2P Require Import BlkDir.

(** * Data races *)

(** [report_data_race]: the first byte that was changed on both sides, or the
    [logic_error] when there is none. *)
Fixpoint report_data_race (i : nat) (other_pub my_priv my_pub : list Z) : failure :=
  match other_pub, my_priv, my_pub with
  | o :: other_pub, p :: my_priv, q :: my_pub =>
      if negb (o =? q) && negb (p =? q) then DataRaceAt i
      else report_data_race (S i) other_pub my_priv my_pub
  | _, _, _ => DataRaceLost
  end.

(** * Merging byte by byte *)

(** The body of a merge loop: the new private and public byte, or [None] when
    it reports a data race. *)
Definition read_merge_cell (race_detection : bool) (other_pub my_priv my_pub : Z) :
    option (Z * Z) :=
  if my_pub =? other_pub then Some (my_priv, my_pub)
  else if race_detection && negb (my_priv =? other_pub) then None
  else Some (other_pub, other_pub).

Definition write_merge_cell (race_detection : bool) (other_pub my_priv my_pub : Z) :
    option (Z * Z) :=
  if my_pub =? other_pub then Some (my_priv, my_priv)
  else if race_detection && negb (my_priv =? my_pub) then None
  else Some (other_pub, other_pub).

(** The loop over the block: [done_priv]/[done_pub] are the bytes already
    merged; a race is reported on the arrays as they are at that moment. *)
Fixpoint merge_byte_loop (cell : Z → Z → Z → option (Z * Z)) (all_other done_priv done_pub : list Z)
    (other_pub my_priv my_pub : list Z) : result (list Z * list Z) :=
  match other_pub, my_priv, my_pub with
  | o :: other', p :: priv', q :: pub' =>
      match cell o p q with
      | Some (p', q') =>
          merge_byte_loop cell all_other (done_priv ++ [p']) (done_pub ++ [q']) other' priv' pub'
      | None =>
          Fail (report_data_race 0 all_other (done_priv ++ my_priv) (done_pub ++ my_pub))
      end
  | _, _, _ => Ok (done_priv, done_pub)
  end.

Definition read_merge_byte (P : policy) (other_pub my_priv my_pub : list Z) :
    result (list Z * list Z) :=
  merge_byte_loop (read_merge_cell (enable_race_detection P)) other_pub [] []
    other_pub my_priv my_pub.

Definition write_merge_byte (P : policy) (other_pub my_priv my_pub : list Z) :
    result (list Z * list Z) :=
  merge_byte_loop (write_merge_cell (enable_race_detection P)) other_pub [] []
    other_pub my_priv my_pub.

(** * Merging with AVX2 *)
Definition VECTOR_LEN : nat := 32.
Definition UNROLL_LEN : nat := 8.

(** [reinterpret_cast<vec_buf_type*>] of a byte array of [n] vectors, and back. *)
Fixpoint to_vecs (n : nat) (l : list Z) : list Z :=
  match n with
  | O => []
  | S n => le_value (take VECTOR_LEN l) :: to_vecs n (drop VECTOR_LEN l)
  end.

Definition of_vecs (vs : list Z) : list Z := concat (le_bytes VECTOR_LEN <$> vs).

(** The registers of one lane. *)
Definition result_reg (other_pub my_priv my_pub : Z) : Z :=
  Z.lxor (Z.lxor my_priv my_pub) other_pub.

Definition dr_flag (other_pub my_priv my_pub : Z) : bool :=
  Z.land (Z.lxor other_pub my_pub) (Z.lxor my_priv my_pub) =? 0.

Fixpoint zip3_with {A} (f : Z → Z → Z → A) (l1 l2 l3 : list Z) : list A :=
  match l1, l2, l3 with
  | x :: l1, y :: l2, z :: l3 => f x y z :: zip3_with f l1 l2 l3
  | _, _, _ => []
  end.

(** The loop over groups of [UNROLL_LEN] vectors, [i] of [num] vectors done. *)
Fixpoint merge_simd_loop (fuel : nat) (P : policy) (is_write : bool) (i num : nat)
    (all_other done_priv done_pub : list Z) (other_vec priv_vec pub_vec : list Z) :
    result (list Z * list Z) :=
  match fuel with
  | O => Fail OutOfBounds
  | S fuel =>
      if negb (i <? num)%nat then Ok (done_priv, done_pub) else
      let other_regs := take UNROLL_LEN other_vec in
      let priv_regs := take UNROLL_LEN priv_vec in
      let pub_regs := take UNROLL_LEN pub_vec in
      let result_regs := zip3_with result_reg other_regs priv_regs pub_regs in
      if enable_race_detection P
         && negb (forallb id (zip3_with dr_flag other_regs priv_regs pub_regs))
      then Fail (report_data_race 0 (of_vecs all_other)
                   (of_vecs (done_priv ++ priv_vec)) (of_vecs (done_pub ++ pub_vec)))
      else
        merge_simd_loop fuel P is_write (i + UNROLL_LEN) num all_other
          (done_priv ++ result_regs) (done_pub ++ (if is_write then result_regs else other_regs))
          (drop UNROLL_LEN other_vec) (drop UNROLL_LEN priv_vec) (drop UNROLL_LEN pub_vec)
  end.

Definition merge_simd (P : policy) (is_write : bool) (other_pub my_priv my_pub : list Z) :
    result (list Z * list Z) :=
  let blk_size := length my_priv in
  _ ← assert_ (blk_size mod (VECTOR_LEN * UNROLL_LEN) =? 0)%nat;
  let num := (blk_size / VECTOR_LEN)%nat in
  let all_other := to_vecs num other_pub in
  '(priv, pub) ← merge_simd_loop (S num) P is_write 0 num all_other [] []
                   all_other (to_vecs num my_priv) (to_vecs num my_pub);
  Ok (of_vecs priv, of_vecs pub).

(** [read_merge] and [write_merge]. *)
Definition read_merge (P : policy) (other_pub my_priv my_pub : list Z) :
    result (list Z * list Z) :=
  if use_simd_diff P then merge_simd P false other_pub my_priv my_pub
  else read_merge_byte P other_pub my_priv my_pub.

Definition write_merge (P : policy) (other_pub my_priv my_pub : list Z) (use_simd : bool) :
    result (list Z * list Z) :=
  if use_simd_diff P && use_simd then merge_simd P true other_pub my_priv my_pub
  else write_merge_byte P other_pub my_priv my_pub.

(** * The memory of a block *)
Record blk_mem := BlkMem {
  bm_priv : list Z;
  bm_pub : list Z;
  bm_snapshot : list Z;
  bm_prot : page_prot;
}.

Abbreviation mems := (gmap Z blk_mem).

(** The areas as [svm_blk_table::coll_make] maps and fills them (zeros, or the
    contents of the global variables), inaccessible to the application. *)
Definition init_mem (content : list Z) : blk_mem := BlkMem content content content ProtNone.

Definition get_mem (p : Z) (ms : mems) : result blk_mem :=
  match ms !! p with Some m => Ok m | None => Fail OutOfBounds end.

Definition set_prot (prot : page_prot) (m : blk_mem) : blk_mem :=
  BlkMem (bm_priv m) (bm_pub m) (bm_snapshot m) prot.

(** The copy the local merge uses as the twin: the public one, or the snapshot
    without migration. *)
Definition my_twin (P : policy) (m : blk_mem) : list Z :=
  if enable_migration P then bm_pub m else bm_snapshot m.

Definition set_twin (P : policy) (twin : list Z) (m : blk_mem) : blk_mem :=
  if enable_migration P then BlkMem (bm_priv m) twin (bm_snapshot m) (bm_prot m)
  else BlkMem (bm_priv m) (bm_pub m) twin (bm_prot m).

Definition set_priv (priv : list Z) (m : blk_mem) : blk_mem :=
  BlkMem priv (bm_pub m) (bm_snapshot m) (bm_prot m).

Definition set_pub (pub : list Z) (m : blk_mem) : blk_mem :=
  BlkMem (bm_priv m) pub (bm_snapshot m) (bm_prot m).

(** What a remote process reads: the private copy with lazy merge, otherwise
    the public one. *)
Definition read_other (P : policy) (proc : Z) (ms : mems) : result (list Z) :=
  m ← get_mem proc ms;
  Ok (if enable_lazy_merge P then bm_priv m else bm_pub m).

(** [write_other]: [rma.write] to the public copy of another process. *)
Definition write_other_pub (proc : Z) (data : list Z) (ms : mems) : result mems :=
  m ← get_mem proc ms;
  Ok (<[proc := set_pub data m]> ms).

(** * Operations *)
Definition data_start_read (P : policy) (cur_proc home_proc : Z) (is_dirty : bool) (ms : mems) :
    result mems :=
  ms ← (if enable_migration P && (cur_proc =? home_proc) then Ok ms
        else
          other ← read_other P home_proc ms;
          m ← get_mem cur_proc ms;
          if is_dirty then
            '(priv, twin) ← read_merge P other (bm_priv m) (my_twin P m);
            Ok (<[cur_proc := set_twin P twin (set_priv priv m)]> ms)
          else Ok (<[cur_proc := set_priv other m]> ms));
  m ← get_mem cur_proc ms;
  Ok (<[cur_proc := set_prot ProtRead m]> ms).

Definition data_start_write (P : policy) (cur_proc : Z) (needs_twin : bool) (ms : mems) :
    result mems :=
  m ← get_mem cur_proc ms;
  let m := if needs_twin then set_twin P (bm_priv m) m else m in
  Ok (<[cur_proc := set_prot ProtReadWrite m]> ms).

(** The comparison that decides [is_written]. *)
Definition local_written (P : policy) (bt : begin_transaction_result) (m : blk_mem) : bool :=
  if bt_is_dirty bt then
    if bt_needs_local_comp bt then negb (bool_decide (bm_priv m = my_twin P m)) else true
  else false.

(** The two branches of [release_merge]. *)
Definition merge_local (P : policy) (bt : begin_transaction_result) (is_written : bool)
    (cur_proc : Z) (m : blk_mem) (ms : mems) : mems :=
  if is_written && bt_needs_local_copy bt
  then <[cur_proc := set_twin P (bm_priv m) m]> ms else ms.

Definition merge_remote (P : policy) (glk : lock_global_result) (bt : begin_transaction_result)
    (is_written : bool) (cur_proc : Z) (ms : mems) : result mems :=
  let cur_owner := if enable_migration P then glk_last_writer_proc glk else bt_owner bt in
  other ← read_other P cur_owner ms;
  ms ← (if enable_lazy_merge P && enable_migration P
        then write_other_pub cur_owner other ms else Ok ms);
  m ← get_mem cur_proc ms;
  if is_written then
    '(priv, twin) ← write_merge P other (bm_priv m) (my_twin P m) (bt_is_write_protected bt);
    Ok (<[cur_proc := set_twin P twin (set_priv priv m)]> ms)
  else Ok (<[cur_proc := set_twin P other (set_priv other m)]> ms).

Definition release_merge (P : policy) (cur_proc : Z) (glk : lock_global_result)
    (bt : begin_transaction_result) (ms : mems) : result (merge_result * mems) :=
  m ← get_mem cur_proc ms;
  let m := if bt_needs_protect_before bt then set_prot ProtRead m else m in
  let ms := <[cur_proc := m]> ms in
  let is_written := local_written P bt m in
  ms ← (if negb (bt_is_remotely_updated bt)
        then Ok (merge_local P bt is_written cur_proc m ms)
        else merge_remote P glk bt is_written cur_proc ms);
  m ← get_mem cur_proc ms;
  ms ← (if negb (enable_migration P) && is_written
        then write_other_pub (bt_owner bt) (my_twin P m) ms else Ok ms);
  m ← get_mem cur_proc ms;
  let ms := if bt_needs_protect_after bt then <[cur_proc := set_prot ProtRead m]> ms else ms in
  Ok (MergeResult is_written (enable_migration P), ms).

(** [invalidate]: [mprotect(PROT_NONE)]. *)
Definition data_invalidate (cur_proc : Z) (ms : mems) : result mems :=
  m ← get_mem cur_proc ms;
  Ok (<[cur_proc := set_prot ProtNone m]> ms).

(** [perform_transaction]: [func] may change both local copies. *)
Definition perform_transaction (func : list Z → list Z → list Z * list Z) (cur_proc : Z)
    (ms : mems) : result mems :=
  m ← get_mem cur_proc ms;
  let '(priv, pub) := func (bm_priv m) (bm_pub m) in
  Ok (<[cur_proc := set_pub pub (set_priv priv m)]> ms).

(** A variable of [size] bytes at [offset]. *)
Definition load_at (offset size : nat) (data : list Z) : result Z :=
  if (offset + size <=? length data)%nat
  then Ok (le_value (take size (drop offset data))) else Fail OutOfBounds.

Definition store_at (offset size : nat) (x : Z) (data : list Z) : list Z :=
  take offset data ++ overwrite (le_bytes size x) (drop offset data).

(** [func] returns the new value, and what the caller's closure writes to its
    captured variables. *)
Definition do_amo_at {A} (size offset : nat) (func : Z → Z * A) (cur_proc : Z) (ms : mems) :
    result (bool * A * mems) :=
  m ← get_mem cur_proc ms;
  target ← load_at offset size (bm_pub m);
  target_priv ← load_at offset size (bm_priv m);
  _ ← assert_ (target_priv =? target);
  let '(res, captured) := func target in
  let is_changed := negb (target =? res) in
  Ok (is_changed, captured,
      if is_changed
      then <[cur_proc := set_pub (store_at offset size res (bm_pub m))
                           (set_priv (store_at offset size res (bm_priv m)) m)]> ms
      else ms).

(** * Specification of the merges *)

(** A byte that both sides changed since the twin was made. *)
Definition race_cell (o p q : Z) : bool := negb (o =? q) && negb (p =? q).

Definition has_race (o p q : list Z) : bool := existsb id (zip3_with race_cell o p q).

(** The three-way merge: the remote byte where the remote side changed it, the
    local one elsewhere. *)
Definition merge3_cell (o p q : Z) : Z := if q =? o then p else o.

Definition merge3 (o p q : list Z) : list Z := zip3_with merge3_cell o p q.

Definition race_at (o p q : list Z) (i : nat) : Prop :=
  ∃ a b c, o !! i = Some a ∧ p !! i = Some b ∧ q !! i = Some c ∧ a ≠ c ∧ b ≠ c.

Lemma race_cell_true o p q : race_cell o p q = true ↔ o ≠ q ∧ p ≠ q.
Proof. unfold race_cell. rewrite andb_true_iff, !negb_true_iff, !Z.eqb_neq. done. Qed.

Lemma length_zip3_with {A} (f : Z → Z → Z → A) o p q :
  length o = length p → length q = length p → length (zip3_with f o p q) = length p.
Proof.
  revert p q. induction o as [|x o IH]; intros [|y p] [|z q] H1 H2; try done.
  cbn in *. f_equal. apply IH; lia.
Qed.

Lemma lookup_zip3_with {A} (f : Z → Z → Z → A) o p q i a b c :
  o !! i = Some a → p !! i = Some b → q !! i = Some c →
  zip3_with f o p q !! i = Some (f a b c).
Proof.
  revert p q i. induction o as [|x o IH]; intros [|y p] [|z q] [|i] H1 H2 H3; try done.
  - cbn in *. congruence.
  - cbn in *. by apply IH.
Qed.

Lemma zip3_with_ext {A} (f g : Z → Z → Z → A) o p q :
  (∀ i a b c, o !! i = Some a → p !! i = Some b → q !! i = Some c → f a b c = g a b c) →
  zip3_with f o p q = zip3_with g o p q.
Proof.
  revert p q. induction o as [|x o IH]; intros [|y p] [|z q] H; try done.
  cbn. f_equal; [by apply (H 0%nat)|]. apply IH. intros i a b c. apply (H (S i)).
Qed.

(** What a race report says. *)
Lemma report_data_race_spec k o p q :
  length o = length p → length q = length p →
  if has_race o p q
  then ∃ i, report_data_race k o p q = DataRaceAt (k + i) ∧ race_at o p q i
       ∧ ∀ j, (j < i)%nat → ¬ race_at o p q j
  else report_data_race k o p q = DataRaceLost.
Proof.
  unfold has_race. revert k p q. induction o as [|x o IH]; intros k [|y p] [|z q] H1 H2; try done.
  cbn [zip3_with existsb report_data_race id]. fold (race_cell x y z).
  destruct (race_cell x y z) eqn:E; cbn [orb].
  - exists 0%nat. split; [f_equal; lia|]. apply race_cell_true in E. split; [|lia].
    by exists x, y, z.
  - specialize (IH (S k) p q ltac:(cbn in *; lia) ltac:(cbn in *; lia)).
    destruct (existsb id _); [|done]. destruct IH as (i & Hr & Ha & Hb).
    exists (S i). split; [rewrite Hr; f_equal; lia|]. split; [done|].
    intros [|j] Hj; [|apply Hb; lia].
    intros (a & b & c & [= <-] & [= <-] & [= <-] & Hac & Hbc).
    assert (race_cell x y z = true) by (by apply race_cell_true). congruence.
Qed.

(** Bytes that were merged cannot be reported. *)
Lemma report_data_race_app k o1 p1 q1 o p q :
  length o1 = length p1 → length q1 = length p1 → has_race o1 p1 q1 = false →
  report_data_race k (o1 ++ o) (p1 ++ p) (q1 ++ q) = report_data_race (k + length p1) o p q.
Proof.
  unfold has_race. revert k p1 q1.
  induction o1 as [|x o1 IH]; intros k [|y p1] [|z q1] H1 H2 Hr; try done.
  { cbn. by rewrite Nat.add_0_r. }
  cbn [zip3_with existsb id] in Hr. apply orb_false_elim in Hr as [E Hr].
  cbn [app report_data_race]. fold (race_cell x y z). rewrite E.
  cbn in *. rewrite IH by (done || lia). f_equal. lia.
Qed.

Lemma has_race_same_local o p : has_race o p p = false.
Proof.
  unfold has_race. revert o. induction p as [|y p IH]; intros [|x o]; try done.
  cbn. unfold race_cell. by rewrite Z.eqb_refl, andb_false_r, IH.
Qed.

Lemma has_race_same_other o p : has_race o p o = false.
Proof.
  unfold has_race. revert p. induction o as [|x o IH]; intros [|y p]; try done.
  cbn. unfold race_cell. by rewrite Z.eqb_refl, IH.
Qed.

(** The loop of [write_merge_byte] after the bytes [d] have been merged. *)
Lemma write_merge_loop_spec rd o1 d o p q :
  length o1 = length d → length o = length p → length q = length p →
  merge_byte_loop (write_merge_cell rd) (o1 ++ o) d d o p q
  = if rd && has_race o p q then Fail (report_data_race (length d) o p q)
    else Ok (d ++ merge3 o p q, d ++ merge3 o p q).
Proof.
  revert o1 d p q. induction o as [|x o IH]; intros o1 d [|y p] [|z q] H1 H2 H3; try done.
  { cbn. by rewrite !app_nil_r, andb_false_r. }
  cbn in H2, H3. cbn [merge_byte_loop write_merge_cell].
  unfold has_race, merge3. cbn [zip3_with existsb id].
  unfold write_merge_cell, race_cell at 1, merge3_cell at 1 3.
  rewrite (Z.eqb_sym x z). destruct (z =? x) eqn:E; cbn [negb andb orb].
  - rewrite (cons_middle x o1 o), app_assoc, IH by (rewrite ?length_app; cbn; lia).
    unfold has_race, merge3. destruct (rd && _).
    + f_equal. rewrite length_app. cbn.
      rewrite (Z.eqb_sym x z), E, Nat.add_1_r. done.
    + by rewrite <-!app_assoc.
  - destruct (y =? z) eqn:E2; cbn [negb andb orb].
    + rewrite andb_false_r. cbn [orb].
      rewrite (cons_middle x o1 o), app_assoc, IH by (rewrite ?length_app; cbn; lia).
      unfold has_race, merge3. destruct (rd && _).
      * f_equal. rewrite length_app. cbn. rewrite E2, andb_false_r, Nat.add_1_r. done.
      * by rewrite <-!app_assoc.
    + destruct rd; cbn [andb].
      * f_equal. rewrite report_data_race_app by (done || apply has_race_same_local). done.
      * rewrite (cons_middle x o1 o), app_assoc, IH by (rewrite ?length_app; cbn; lia).
        cbn [andb]. unfold merge3. by rewrite <-!app_assoc.
Qed.

(** The byte merge of a release is the three-way merge: with race
    detection, either some byte was changed on both sides, and the first such
    byte is reported, or none was, and both local copies become the merge that
    keeps every local and every remote change. *)
Theorem write_merge_byte_spec P o p q
    (Hrd : enable_race_detection P = true)
    (Ho : length o = length p) (Hq : length q = length p) :
  match write_merge_byte P o p q with
  | Ok (priv, pub) =>
      (∀ i, ¬ race_at o p q i) ∧ priv = pub ∧ length priv = length p
      ∧ ∀ i a b c, o !! i = Some a → p !! i = Some b → q !! i = Some c →
          priv !! i = Some (if a =? c then b else a)
  | Fail f => ∃ i, f = DataRaceAt i ∧ race_at o p q i ∧ ∀ j, (j < i)%nat → ¬ race_at o p q j
  end.
Proof.
  unfold write_merge_byte. rewrite (write_merge_loop_spec _ [] [] o p q) by done.
  rewrite Hrd. cbn [andb length app].
  pose proof (report_data_race_spec 0 o p q Ho Hq) as Hr.
  destruct (has_race o p q) eqn:E.
  - destruct Hr as (i & -> & ?). by exists i.
  - split; [|split; [done|split; [by apply length_zip3_with|]]].
    + intros i (a & b & c & Ha & Hb & Hc & Hrace).
      assert (true ∈ zip3_with race_cell o p q) as Hin.
      { apply list_elem_of_lookup. exists i. erewrite lookup_zip3_with by done. f_equal.
        by apply race_cell_true. }
      unfold has_race in E. apply list_elem_of_In in Hin.
      assert (existsb id (zip3_with race_cell o p q) = true); [|congruence].
      apply existsb_exists. by exists true.
    + intros i a b c Ha Hb Hc. unfold merge3. erewrite lookup_zip3_with by done.
      unfold merge3_cell. by rewrite Z.eqb_sym.
Qed.

(** ** The byte merge of a read *)

(** What [read_merge_byte] takes for a race. *)
Definition mismatch_cell (o p q : Z) : bool := negb (q =? o) && negb (p =? o).

Lemma read_merge_loop_spec rd o1 d o p q :
  length o1 = length d → length o = length p → length q = length p →
  if rd && existsb id (zip3_with mismatch_cell o p q)
  then ∃ i, merge_byte_loop (read_merge_cell rd) (o1 ++ o) d o1 o p q
            = Fail (report_data_race (length d + i) (drop i o) (drop i p) (drop i q))
  else merge_byte_loop (read_merge_cell rd) (o1 ++ o) d o1 o p q
       = Ok (d ++ merge3 o p q, o1 ++ o).
Proof.
  revert o1 d p q. induction o as [|x o IH]; intros o1 d [|y p] [|z q] H1 H2 H3; try done.
  { cbn. by rewrite !app_nil_r, andb_false_r. }
  cbn in H2, H3. cbn [merge_byte_loop].
  unfold merge3. cbn [zip3_with existsb id].
  unfold read_merge_cell at 1 3, mismatch_cell at 1, merge3_cell at 1.
  assert (∀ y', if rd && existsb id (zip3_with mismatch_cell o p q)
    then ∃ i, merge_byte_loop (read_merge_cell rd) (o1 ++ x :: o) (d ++ [y']) (o1 ++ [x]) o p q
         = Fail (report_data_race (length d + i) (drop i (x :: o)) (drop i (y :: p)) (drop i (z :: q)))
    else merge_byte_loop (read_merge_cell rd) (o1 ++ x :: o) (d ++ [y']) (o1 ++ [x]) o p q
         = Ok (d ++ y' :: merge3 o p q, o1 ++ x :: o)) as Hgo.
  { intros y'. specialize (IH (o1 ++ [x]) (d ++ [y']) p q). rewrite !length_app in IH.
    specialize (IH ltac:(cbn; lia) ltac:(lia) ltac:(lia)).
    rewrite <-!app_assoc in IH. cbn [app] in IH. destruct (rd && _); [|done].
    destruct IH as (i & ->). exists (S i). cbn. do 2 f_equal. lia. }
  destruct (z =? x) eqn:E; cbn [negb andb orb].
  { apply Z.eqb_eq in E as ->. apply Hgo. }
  destruct (y =? x) eqn:E2; cbn [negb andb orb].
  { rewrite andb_false_r. apply Hgo. }
  rewrite andb_true_r. destruct rd; cbn [andb]; [|apply Hgo].
  exists 0%nat. rewrite Nat.add_0_r. cbn [drop]. f_equal.
  apply report_data_race_app; [done|done|apply has_race_same_other].
Qed.

(** Without race detection a read applies the remote changes and keeps the
    local ones; the twin becomes the remote data. *)
Lemma read_merge_byte_no_detection P o p q :
  enable_race_detection P = false → length o = length p → length q = length p →
  read_merge_byte P o p q = Ok (merge3 o p q, o).
Proof.
  intros Hrd Ho Hq. unfold read_merge_byte.
  pose proof (read_merge_loop_spec (enable_race_detection P) [] [] o p q) as H.
  rewrite Hrd in *. by apply H.
Qed.

Lemma has_race_drop i o p q : length o = length p → length q = length p →
  has_race o p q = false → has_race (drop i o) (drop i p) (drop i q) = false.
Proof.
  unfold has_race. revert o p q.
  induction i as [|i IH]; intros [|x o] [|y p] [|z q] H1 H2 H; try done.
  cbn in *. apply orb_false_elim in H as [_ H]. apply IH; [lia|lia|done].
Qed.

(** The race test of the byte merge of a read is wrong: it compares the
    local byte with the remote one instead of with the twin. When the remote
    side changed a byte that this process did not touch, and no byte at all
    was changed on both sides, the read fails with the "lost exact position"
    error instead of taking the remote change. *)
Theorem read_merge_byte_false_race P o p q i a b
    (Hrd : enable_race_detection P = true)
    (Ho : length o = length p) (Hq : length q = length p)
    (Hnone : ∀ j, ¬ race_at o p q j)
    (Ha : o !! i = Some a) (Hp : p !! i = Some b) (Hb : q !! i = Some b) (Hab : a ≠ b) :
  read_merge_byte P o p q = Fail DataRaceLost.
Proof.
  unfold read_merge_byte.
  pose proof (read_merge_loop_spec (enable_race_detection P) [] [] o p q eq_refl Ho Hq) as H.
  rewrite Hrd in *. cbn [andb app length] in H.
  assert (existsb id (zip3_with mismatch_cell o p q) = true) as Hm.
  { apply existsb_exists. exists true. split; [|done]. apply list_elem_of_In.
    apply list_elem_of_lookup. exists i. erewrite lookup_zip3_with by done. f_equal.
    unfold mismatch_cell. apply Z.eqb_neq in Hab. by rewrite Z.eqb_sym, Hab. }
  rewrite Hm in H. destruct H as (k & ->). f_equal.
  pose proof (report_data_race_spec 0 o p q Ho Hq) as Hr.
  destruct (has_race o p q) eqn:E.
  { destruct Hr as (j & _ & Hj & _). by destruct (Hnone j). }
  pose proof (report_data_race_spec (0 + k) (drop k o) (drop k p) (drop k q)) as Hk.
  rewrite has_race_drop in Hk by done. apply Hk; rewrite !length_drop; lia.
Qed.

(** ** The AVX2 merge *)

(** The bits both sides changed in a byte (or in a register). *)
Definition bit_race (o p q : Z) : bool := negb (dr_flag o p q).

Definition bytes (l : list Z) : Prop := Forall is_byte l.

Lemma le_value_nonneg l : bytes l → 0 ≤ le_value l.
Proof. induction 1 as [|b l Hb _ IH]; cbn; unfold is_byte in *; lia. Qed.

Lemma le_bytes_value l : bytes l → le_bytes (length l) (le_value l) = l.
Proof.
  induction 1 as [|b l Hb _ IH]; [done|]. cbn [length le_bytes le_value].
  unfold is_byte in Hb. f_equal.
  - rewrite (Z.mul_comm 256), Z.mod_add by lia. by apply Z.mod_small.
  - rewrite (Z.mul_comm 256), Z.div_add, (Z.div_small b), Z.add_0_l by lia. done.
Qed.

Lemma byte_testbit b n : is_byte b → 8 ≤ n → Z.testbit b n = false.
Proof.
  intros Hb Hn. destruct (Z.eq_dec b 0) as [->|]; [apply Z.bits_0|].
  apply Z.bits_above_log2; [unfold is_byte in Hb; lia|].
  assert (Z.log2 b < 8); [|lia]. apply Z.log2_lt_pow2; unfold is_byte in Hb; lia.
Qed.

Lemma byte_lor b x : is_byte b → b + 256 * x = Z.lor b (Z.shiftl x 8).
Proof.
  intros Hb. replace (256 * x) with (Z.shiftl x 8) by (rewrite Z.shiftl_mul_pow2; lia).
  rewrite <-Z.add_lor_land.
  assert (Z.land b (Z.shiftl x 8) = 0) as ->.
  { apply Z.bits_inj'. intros n Hn. rewrite Z.land_spec, Z.bits_0, Z.shiftl_spec by done.
    destruct (Z.lt_ge_cases n 8).
    - by rewrite (Z.testbit_neg_r x), andb_false_r by lia.
    - by rewrite byte_testbit. }
  by rewrite Z.add_0_r.
Qed.

Lemma is_byte_bits b : (∀ n, 8 ≤ n → Z.testbit b n = false) → 0 ≤ b → is_byte b.
Proof.
  intros Hb H0. split; [done|]. destruct (Z.lt_ge_cases b 256) as [|Hge]; [done|].
  assert (8 ≤ Z.log2 b) by (apply Z.log2_le_pow2; lia).
  specialize (Hb (Z.log2 b) ltac:(done)). by rewrite Z.bit_log2 in Hb by lia.
Qed.

Lemma lxor_is_byte a b : is_byte a → is_byte b → is_byte (Z.lxor a b).
Proof.
  intros Ha Hb. apply is_byte_bits.
  - intros n Hn. by rewrite Z.lxor_spec, !byte_testbit.
  - apply Z.lxor_nonneg. unfold is_byte in *. lia.
Qed.

Lemma land_is_byte a b : is_byte a → is_byte b → is_byte (Z.land a b).
Proof.
  intros Ha Hb. apply is_byte_bits.
  - intros n Hn. by rewrite Z.land_spec, !byte_testbit.
  - apply Z.land_nonneg. unfold is_byte in *. lia.
Qed.

Lemma lxor_cons a b x y : is_byte a → is_byte b →
  Z.lxor (a + 256 * x) (b + 256 * y) = Z.lxor a b + 256 * Z.lxor x y.
Proof.
  intros Ha Hb. rewrite !byte_lor by auto using lxor_is_byte.
  apply Z.bits_inj'. intros n Hn.
  rewrite !Z.lxor_spec, !Z.lor_spec, !Z.shiftl_spec, !Z.lxor_spec by done.
  destruct (Z.lt_ge_cases n 8).
  - rewrite !(Z.testbit_neg_r _ (n - 8)) by lia. by rewrite !orb_false_r.
  - by rewrite (byte_testbit a n), (byte_testbit b n).
Qed.

Lemma land_cons a b x y : is_byte a → is_byte b →
  Z.land (a + 256 * x) (b + 256 * y) = Z.land a b + 256 * Z.land x y.
Proof.
  intros Ha Hb. rewrite !byte_lor by auto using land_is_byte.
  apply Z.bits_inj'. intros n Hn.
  rewrite !Z.land_spec, !Z.lor_spec, !Z.shiftl_spec, !Z.land_spec by done.
  destruct (Z.lt_ge_cases n 8).
  - rewrite !(Z.testbit_neg_r _ (n - 8)) by lia. by rewrite !orb_false_r.
  - by rewrite (byte_testbit a n), (byte_testbit b n).
Qed.

(** A register operation is the byte operation on every byte. *)
Lemma result_reg_bytes o p q :
  bytes o → bytes p → bytes q → length o = length p → length q = length p →
  result_reg (le_value o) (le_value p) (le_value q) = le_value (zip3_with result_reg o p q)
  ∧ bytes (zip3_with result_reg o p q).
Proof.
  revert p q. induction o as [|x o IH]; intros [|y p] [|z q] Ho Hp Hq H1 H2; try done.
  apply Forall_cons in Ho as [Hx Ho]. apply Forall_cons in Hp as [Hy Hp].
  apply Forall_cons in Hq as [Hz Hq]. cbn [zip3_with le_value].
  destruct (IH p q Ho Hp Hq ltac:(cbn in *; lia) ltac:(cbn in *; lia)) as [Hv Hb].
  unfold result_reg in *. rewrite lxor_cons, lxor_cons by auto using lxor_is_byte.
  rewrite Hv. split; [done|]. constructor; [|done]. auto using lxor_is_byte.
Qed.

Lemma dr_flag_bytes o p q :
  bytes o → bytes p → bytes q → length o = length p → length q = length p →
  dr_flag (le_value o) (le_value p) (le_value q)
  = negb (existsb id (zip3_with bit_race o p q)).
Proof.
  revert p q. induction o as [|x o IH]; intros [|y p] [|z q] Ho Hp Hq H1 H2; try done.
  apply Forall_cons in Ho as [Hx Ho]. apply Forall_cons in Hp as [Hy Hp].
  apply Forall_cons in Hq as [Hz Hq]. cbn [zip3_with le_value existsb id].
  specialize (IH p q Ho Hp Hq ltac:(cbn in *; lia) ltac:(cbn in *; lia)).
  unfold dr_flag, bit_race in *. unfold dr_flag in *.
  rewrite !lxor_cons, land_cons by auto using lxor_is_byte.
  rewrite negb_orb, negb_involutive, <-IH.
  assert (is_byte (Z.land (Z.lxor x z) (Z.lxor y z))) as Hb by auto using lxor_is_byte, land_is_byte.
  unfold is_byte in Hb.
  destruct (Z.eqb_spec (Z.land (Z.lxor x z) (Z.lxor y z)) 0) as [->|Hne];
    destruct (Z.eqb_spec (Z.land (Z.lxor (le_value o) (le_value q))
      (Z.lxor (le_value p) (le_value q))) 0) as [->|Hne2]; cbn; try done;
    apply Z.eqb_neq; lia.
Qed.

Lemma zip3_with_split {A} (f : Z → Z → Z → A) n o p q :
  zip3_with f o p q
  = zip3_with f (take n o) (take n p) (take n q) ++ zip3_with f (drop n o) (drop n p) (drop n q).
Proof.
  revert o p q. induction n as [|n IH]; intros [|x o] [|y p] [|z q]; try done; cbn.
  - by destruct (take n o), (drop n o).
  - by destruct (take n o), (drop n o).
  - by destruct (take n o), (take n p), (drop n o), (drop n p).
  - by rewrite <-IH.
Qed.

(** The loop over vectors; [negb (dr_flag ..)] is [bit_race]. *)
Lemma merge_simd_loop_spec fuel P w i num all dp dq o p q :
  (num - i < fuel)%nat → length p = (num - i)%nat → length o = length p → length q = length p →
  let res := zip3_with result_reg in
  if enable_race_detection P && existsb id (zip3_with bit_race o p q)
  then ∃ k, merge_simd_loop fuel P w i num all dp dq o p q
    = Fail (report_data_race 0 (of_vecs all)
        (of_vecs (dp ++ res (take k o) (take k p) (take k q) ++ drop k p))
        (of_vecs (dq ++ (if w then res (take k o) (take k p) (take k q) else take k o)
                     ++ drop k q)))
    ∧ existsb id (zip3_with bit_race (drop k o) (drop k p) (drop k q)) = true
  else merge_simd_loop fuel P w i num all dp dq o p q
       = Ok (dp ++ res o p q, dq ++ (if w then res o p q else o)).
Proof.
  revert i dp dq o p q. induction fuel as [|fuel IH]; intros i dp dq o p q Hf Hp Ho Hq; [lia|]. cbn zeta.
  cbn [merge_simd_loop]. destruct (Nat.ltb_spec i num) as [Hi|Hi]; cbn [negb].
  2: { destruct p; [|cbn in Hp; lia]. destruct o; [|done]. destruct q; [|done].
       rewrite andb_false_r. cbn. by destruct w; rewrite !app_nil_r. }
  set (n := UNROLL_LEN).
  assert (forallb id (zip3_with dr_flag (take n o) (take n p) (take n q))
    = negb (existsb id (zip3_with bit_race (take n o) (take n p) (take n q)))) as Hdr.
  { generalize (take n o), (take n p), (take n q). clear. intros o.
    induction o as [|x o IH]; intros [|y p] [|z q]; try done. cbn. rewrite IH.
    unfold bit_race. by destruct (dr_flag x y z). }
  rewrite Hdr, negb_involutive.
  destruct (enable_race_detection P && existsb id (zip3_with bit_race (take n o) _ _)) eqn:E.
  { rewrite (zip3_with_split bit_race n), existsb_app.
    apply andb_prop in E as [-> E]. rewrite E. cbn [andb orb].
    exists 0%nat. rewrite !drop_0, !take_0. split; [by destruct w|].
    by rewrite (zip3_with_split bit_race n), existsb_app, E. }
  specialize (IH (i + n)%nat (dp ++ zip3_with result_reg (take n o) (take n p) (take n q))
    (dq ++ (if w then zip3_with result_reg (take n o) (take n p) (take n q) else take n o))
    (drop n o) (drop n p) (drop n q)).
  rewrite !length_drop in IH.
  specialize (IH ltac:(unfold n, UNROLL_LEN; lia) ltac:(lia) ltac:(lia) ltac:(lia)). cbn zeta in IH.
  assert (enable_race_detection P && existsb id (zip3_with bit_race o p q)
    = enable_race_detection P && existsb id (zip3_with bit_race (drop n o) (drop n p) (drop n q)))
    as ->.
  { rewrite (zip3_with_split bit_race n o), existsb_app.
    destruct (enable_race_detection P); [|done]. cbn [andb] in E |- *. by rewrite E. }
  destruct (enable_race_detection P && _).
  - destruct IH as (k & -> & Hk). exists (n + k)%nat. rewrite !drop_drop in Hk.
    split; [|done].
    assert (zip3_with result_reg (take (n + k) o) (take (n + k) p) (take (n + k) q)
      = zip3_with result_reg (take n o) (take n p) (take n q)
        ++ zip3_with result_reg (take k (drop n o)) (take k (drop n p)) (take k (drop n q))) as ->.
    { rewrite (zip3_with_split _ n).
      by rewrite !take_take, !Nat.min_l, !take_drop_commute by lia. }
    rewrite <-(take_take_drop o n k), !drop_drop, <-!app_assoc.
    by destruct w; rewrite <-?app_assoc.
  - rewrite IH. rewrite <-!app_assoc.
    rewrite (zip3_with_split result_reg n o). destruct w; [done|]. by rewrite take_drop.
Qed.

(** ** From vectors to bytes *)
Lemma length_to_vecs n l : length (to_vecs n l) = n.
Proof. revert l. induction n; intros l; cbn; auto. Qed.

Lemma to_vecs_drop k n l : drop k (to_vecs n l) = to_vecs (n - k) (drop (VECTOR_LEN * k) l).
Proof.
  revert n l. induction k as [|k IH]; intros n l.
  { by rewrite Nat.mul_0_r, !drop_0, Nat.sub_0_r. }
  destruct n as [|n]; [done|]. cbn [to_vecs drop Nat.sub]. rewrite IH, drop_drop.
  do 2 f_equal. lia.
Qed.

Lemma to_vecs_take k n l : take k (to_vecs n l) = to_vecs (k `min` n) l.
Proof.
  revert n l. induction k as [|k IH]; intros [|n] l; try done. cbn. by rewrite IH.
Qed.

Lemma bytes_take n l : bytes l → bytes (take n l).
Proof. apply Forall_take. Qed.

Lemma bytes_drop n l : bytes l → bytes (drop n l).
Proof. apply Forall_drop. Qed.

Lemma of_to_vecs n l :
  bytes l → (VECTOR_LEN * n ≤ length l)%nat → of_vecs (to_vecs n l) = take (VECTOR_LEN * n) l.
Proof.
  revert l. induction n as [|n IH]; intros l Hl Hn; [by rewrite Nat.mul_0_r|].
  unfold of_vecs in *. cbn [to_vecs fmap list_fmap concat].
  assert (length (take VECTOR_LEN l) = VECTOR_LEN) as Hlen by (rewrite length_take; lia).
  rewrite <-Hlen at 1. rewrite le_bytes_value by by apply bytes_take.
  rewrite IH by (try apply bytes_drop; rewrite ?length_drop; done || lia).
  rewrite take_take_drop. f_equal. lia.
Qed.

Lemma of_vecs_app v1 v2 : of_vecs (v1 ++ v2) = of_vecs v1 ++ of_vecs v2.
Proof. unfold of_vecs. by rewrite fmap_app, concat_app. Qed.

Lemma zip3_with_take {A} (f : Z → Z → Z → A) n o p q :
  zip3_with f (take n o) (take n p) (take n q) = take n (zip3_with f o p q).
Proof.
  revert o p q. induction n as [|n IH]; intros [|x o] [|y p] [|z q]; try done; cbn.
  by rewrite IH.
Qed.

Lemma zip3_with_drop {A} (f : Z → Z → Z → A) n o p q :
  length o = length p → length q = length p →
  zip3_with f (drop n o) (drop n p) (drop n q) = drop n (zip3_with f o p q).
Proof.
  revert o p q. induction n as [|n IH]; intros [|x o] [|y p] [|z q] H1 H2; try done.
  cbn in *. apply IH; lia.
Qed.

(** Byte arrays of [n] vectors. *)
Definition vec_bytes (n : nat) (l : list Z) : Prop :=
  bytes l ∧ length l = (VECTOR_LEN * n)%nat.

Lemma vec_bytes_take n l : vec_bytes (S n) l →
  bytes (take VECTOR_LEN l) ∧ length (take VECTOR_LEN l) = VECTOR_LEN.
Proof. intros [Hb Hl]. split; [by apply bytes_take|rewrite length_take; lia]. Qed.

Lemma vec_bytes_drop n l : vec_bytes (S n) l → vec_bytes n (drop VECTOR_LEN l).
Proof. intros [Hb Hl]. split; [by apply bytes_drop|rewrite length_drop; lia]. Qed.

Lemma vecs_result n o p q : vec_bytes n o → vec_bytes n p → vec_bytes n q →
  zip3_with result_reg (to_vecs n o) (to_vecs n p) (to_vecs n q)
  = to_vecs n (zip3_with result_reg o p q).
Proof.
  revert o p q. induction n as [|n IH]; intros o p q Ho Hp Hq; [done|].
  cbn [to_vecs zip3_with].
  destruct (vec_bytes_take n o Ho), (vec_bytes_take n p Hp), (vec_bytes_take n q Hq).
  f_equal.
  - rewrite <-zip3_with_take. apply result_reg_bytes; congruence || done.
  - rewrite <-zip3_with_drop by (destruct Ho, Hp, Hq; congruence).
    apply IH; by apply vec_bytes_drop.
Qed.

Lemma vecs_race n o p q : vec_bytes n o → vec_bytes n p → vec_bytes n q →
  existsb id (zip3_with bit_race (to_vecs n o) (to_vecs n p) (to_vecs n q))
  = existsb id (zip3_with bit_race o p q).
Proof.
  revert o p q. induction n as [|n IH]; intros o p q Ho Hp Hq.
  { destruct Hp as [_ Hp]. destruct p; [|done]. by destruct o. }
  rewrite (zip3_with_split bit_race VECTOR_LEN o), existsb_app.
  cbn [to_vecs zip3_with existsb id].
  destruct (vec_bytes_take n o Ho), (vec_bytes_take n p Hp), (vec_bytes_take n q Hq).
  rewrite IH by by apply vec_bytes_drop. f_equal.
  unfold bit_race at 1. rewrite dr_flag_bytes, negb_involutive; congruence || done.
Qed.

Lemma vec_bytes_result n o p q : vec_bytes n o → vec_bytes n p → vec_bytes n q →
  vec_bytes n (zip3_with result_reg o p q).
Proof.
  intros [Ho Hlo] [Hp Hlp] [Hq Hlq].
  split; [by apply result_reg_bytes; congruence || done|].
  rewrite length_zip3_with; congruence.
Qed.

Lemma of_to_vecs_all n l : vec_bytes n l → of_vecs (to_vecs n l) = l.
Proof. intros [Hb Hl]. rewrite of_to_vecs by (done || lia). apply take_ge. lia. Qed.

Lemma vec_bytes_prefix n k l : (k ≤ n)%nat → vec_bytes n l →
  vec_bytes k (take (VECTOR_LEN * k) l) ∧ vec_bytes (n - k) (drop (VECTOR_LEN * k) l).
Proof.
  intros Hk [Hb Hl]. split; split;
    [by apply bytes_take|rewrite length_take; unfold VECTOR_LEN in *; lia
    |by apply bytes_drop|rewrite length_drop; unfold VECTOR_LEN in *; lia].
Qed.

Lemma to_vecs_prefix k l m : (VECTOR_LEN * k ≤ m)%nat → to_vecs k (take m l) = to_vecs k l.
Proof.
  revert l m. induction k as [|k IH]; intros l m Hm; [done|]. cbn [to_vecs].
  rewrite take_take, Nat.min_l by lia. f_equal.
  replace m with (VECTOR_LEN + (m - VECTOR_LEN))%nat by lia.
  rewrite <-take_drop_commute. apply IH. lia.
Qed.

(** The arrays when a group reports a race: [k] vectors are merged. *)
Lemma simd_arrays k n l pre : (k ≤ n)%nat → vec_bytes n l → vec_bytes k pre →
  of_vecs (to_vecs k pre ++ drop k (to_vecs n l)) = pre ++ drop (VECTOR_LEN * k) l.
Proof.
  intros Hk Hl Hpre. rewrite of_vecs_app, of_to_vecs_all, to_vecs_drop by done. f_equal.
  apply of_to_vecs_all. by apply vec_bytes_prefix.
Qed.

(** A bit changed on both sides is in a byte changed on both sides. *)
Lemma bit_race_has_race o p q :
  existsb id (zip3_with bit_race o p q) = true → has_race o p q = true.
Proof.
  unfold has_race. revert p q. induction o as [|x o IH]; intros [|y p] [|z q]; try done.
  cbn [zip3_with existsb id]. intros [H|H]%orb_prop; apply orb_true_iff; [left|right; auto].
  apply race_cell_true. unfold bit_race, dr_flag in H. apply negb_true_iff, Z.eqb_neq in H.
  split; intros ->; apply H; by rewrite Z.lxor_nilpotent, ?Z.land_0_l, ?Z.land_0_r.
Qed.

(** The report after [k] merged vectors names a byte of the original arrays. *)
Lemma simd_report (w : bool) m k o p q :
  vec_bytes m o → vec_bytes m p → vec_bytes m q →
  existsb id (zip3_with bit_race (drop k (to_vecs m o)) (drop k (to_vecs m p))
    (drop k (to_vecs m q))) = true →
  let res := zip3_with result_reg (take k (to_vecs m o)) (take k (to_vecs m p))
    (take k (to_vecs m q)) in
  ∃ i, report_data_race 0 (of_vecs (to_vecs m o))
      (of_vecs (res ++ drop k (to_vecs m p)))
      (of_vecs ((if w then res else take k (to_vecs m o)) ++ drop k (to_vecs m q)))
    = DataRaceAt i ∧ race_at o p q i.
Proof.
  intros Ho Hp Hq Hrace. cbn zeta.
  assert (k ≤ m)%nat as Hk.
  { destruct (Nat.le_gt_cases k m) as [|Hgt]; [done|].
    rewrite (drop_ge (to_vecs m o)) in Hrace by (rewrite length_to_vecs; lia). done. }
  set (c := (VECTOR_LEN * k)%nat).
  destruct (vec_bytes_prefix m k o Hk Ho) as [Ho1 Ho2].
  destruct (vec_bytes_prefix m k p Hk Hp) as [Hp1 Hp2].
  destruct (vec_bytes_prefix m k q Hk Hq) as [Hq1 Hq2]. fold c in Ho1, Ho2, Hp1, Hp2, Hq1, Hq2.
  rewrite !to_vecs_drop, vecs_race in Hrace by done. fold c in Hrace.
  rewrite !to_vecs_take, !Nat.min_l by done.
  rewrite <-(to_vecs_prefix k o c), <-(to_vecs_prefix k p c), <-(to_vecs_prefix k q c) by lia.
  rewrite vecs_result by done. set (pre := zip3_with result_reg (take c o) (take c p) (take c q)).
  assert (vec_bytes k pre) as Hpre by by apply vec_bytes_result.
  rewrite (simd_arrays k m p pre) by done. fold c.
  replace (if w then to_vecs k pre else to_vecs k (take c o))
    with (to_vecs k (if w then pre else take c o)) by by destruct w.
  rewrite (simd_arrays k m q) by (done || by destruct w). fold c.
  rewrite of_to_vecs_all by done.
  replace (report_data_race 0 o) with (report_data_race 0 (take c o ++ drop c o))
    by by rewrite take_drop.
  rewrite report_data_race_app.
  2: { by rewrite (proj2 Hpre), (proj2 Ho1). }
  2: { rewrite (proj2 Hpre). destruct w; [apply Hpre|apply Ho1]. }
  2: { destruct w; [apply has_race_same_local|apply has_race_same_other]. }
  apply bit_race_has_race in Hrace.
  pose proof (report_data_race_spec (0 + length pre) (drop c o) (drop c p) (drop c q)) as Hr.
  rewrite Hrace in Hr. destruct Hr as (i & -> & (x & y & z & Hx & Hy & Hz & Hne) & _).
  { by rewrite (proj2 Ho2), (proj2 Hp2). }
  { by rewrite (proj2 Hq2), (proj2 Hp2). }
  exists (c + i)%nat. split; [by rewrite (proj2 Hpre)|].
  exists x, y, z. by rewrite !lookup_drop in Hx, Hy, Hz.
Qed.

Lemma merge_simd_correct P w o p q n
    (Ho : vec_bytes (UNROLL_LEN * n) o) (Hp : vec_bytes (UNROLL_LEN * n) p)
    (Hq : vec_bytes (UNROLL_LEN * n) q) :
  if enable_race_detection P && existsb id (zip3_with bit_race o p q)
  then ∃ i, merge_simd P w o p q = Fail (DataRaceAt i) ∧ race_at o p q i
  else merge_simd P w o p q
       = Ok (zip3_with result_reg o p q, if w then zip3_with result_reg o p q else o).
Proof.
  unfold merge_simd. set (m := (UNROLL_LEN * n)%nat) in *.
  assert (length p / VECTOR_LEN = m)%nat as ->.
  { destruct Hp as [_ ->]. rewrite Nat.mul_comm. by apply Nat.div_mul. }
  rewrite assert_true; cbn [mbind result_bind].
  2: { destruct Hp as [_ ->]. unfold m. apply Nat.eqb_eq.
       rewrite Nat.mul_assoc, Nat.mul_comm. by apply Nat.Div0.mod_mul. }
  pose proof (merge_simd_loop_spec (S m) P w 0 m (to_vecs m o) [] []
    (to_vecs m o) (to_vecs m p) (to_vecs m q)) as H.
  rewrite !length_to_vecs in H. specialize (H ltac:(lia) ltac:(lia) eq_refl eq_refl).
  cbn zeta in H. rewrite vecs_race, !vecs_result in H by done. cbn [app] in H.
  destruct (enable_race_detection P && existsb id (zip3_with bit_race o p q)) eqn:E.
  - destruct H as (k & -> & Hk). cbn [mbind result_bind].
    destruct (simd_report w m k o p q Ho Hp Hq Hk) as (i & -> & Hi). by exists i.
  - rewrite H. cbn [mbind result_bind]. f_equal.
    pose proof (vec_bytes_result m o p q Ho Hp Hq).
    rewrite of_to_vecs_all by done. destruct w; by rewrite of_to_vecs_all.
Qed.

(** The AVX2 merge of a block of whole groups: with race detection it
    fails exactly when some bit was changed on both sides, and then names a
    byte changed on both sides; otherwise every byte of the private copy gets
    the local and the remote changes (as exclusive or), and the twin becomes
    that merge for a release or the remote data for a read. *)
Theorem merge_simd_spec P w o p q n
    (Ho : vec_bytes (UNROLL_LEN * n) o) (Hp : vec_bytes (UNROLL_LEN * n) p)
    (Hq : vec_bytes (UNROLL_LEN * n) q) :
  if enable_race_detection P && existsb id (zip3_with bit_race o p q)
  then ∃ i, merge_simd P w o p q = Fail (DataRaceAt i) ∧ race_at o p q i
  else merge_simd P w o p q
       = Ok (zip3_with result_reg o p q, if w then zip3_with result_reg o p q else o).
Proof. by apply (merge_simd_correct P w o p q n). Qed.

Lemma has_race_false_lookup o p q i a b c :
  has_race o p q = false → o !! i = Some a → p !! i = Some b → q !! i = Some c →
  a = c ∨ b = c.
Proof.
  intros H Ha Hb Hc. destruct (race_cell a b c) eqn:E.
  - exfalso. unfold has_race in H.
    assert (existsb id (zip3_with race_cell o p q) = true); [|congruence].
    apply existsb_exists. exists true. split; [|done]. apply list_elem_of_In.
    apply list_elem_of_lookup. exists i. erewrite lookup_zip3_with by done. by rewrite E.
  - unfold race_cell in E. apply andb_false_iff in E as [E|E];
      apply negb_false_iff, Z.eqb_eq in E; auto.
Qed.

(** Without a byte race the exclusive or is the three-way merge. *)
Lemma result_is_merge3 o p q :
  has_race o p q = false → zip3_with result_reg o p q = merge3 o p q.
Proof.
  intros H. apply zip3_with_ext. intros i a b c Ha Hb Hc. unfold result_reg, merge3_cell.
  destruct (Z.eqb_spec c a) as [->|Hne].
  - by rewrite Z.lxor_assoc, Z.lxor_nilpotent, Z.lxor_0_r.
  - destruct (has_race_false_lookup o p q i a b c H Ha Hb Hc) as [-> | ->]; [done|].
    by rewrite Z.lxor_nilpotent, Z.lxor_0_l.
Qed.

Lemma no_bit_race o p q :
  has_race o p q = false → existsb id (zip3_with bit_race o p q) = false.
Proof.
  intros H. destruct (existsb id (zip3_with bit_race o p q)) eqn:E; [|done].
  apply bit_race_has_race in E. congruence.
Qed.

Definition block_bytes (l : list Z) : Prop :=
  bytes l ∧ ∃ n, length l = (VECTOR_LEN * (UNROLL_LEN * n))%nat.

Lemma block_bytes_vec p l :
  block_bytes p → bytes l → length l = length p →
  ∃ n, vec_bytes (UNROLL_LEN * n) p ∧ vec_bytes (UNROLL_LEN * n) l.
Proof.
  intros [Hp [n Hn]] Hl Hlen. exists n. split; split; congruence || done.
Qed.

Lemma merge_variants_correct P (use_simd : bool) o p q
    (Hp : block_bytes p) (Ho : bytes o) (Hq : bytes q)
    (Hlo : length o = length p) (Hlq : length q = length p)
    (Hrace : has_race o p q = false) :
  write_merge P o p q use_simd = Ok (merge3 o p q, merge3 o p q)
  ∧ (use_simd_diff P = true ∨ enable_race_detection P = false →
     read_merge P o p q = Ok (merge3 o p q, o)).
Proof.
  assert (∃ n, vec_bytes (UNROLL_LEN * n) o ∧ vec_bytes (UNROLL_LEN * n) p
    ∧ vec_bytes (UNROLL_LEN * n) q) as (n & Vo & Vp & Vq).
  { destruct Hp as [Hb [n Hn]]. exists n. split_and!; split; congruence || done. }
  assert (∀ w, merge_simd P w o p q = Ok (merge3 o p q, if w then merge3 o p q else o)) as Hs.
  { intros w. pose proof (merge_simd_correct P w o p q n Vo Vp Vq) as H.
    rewrite no_bit_race, andb_false_r, result_is_merge3 in H by done. exact H. }
  split.
  - unfold write_merge. destruct (use_simd_diff P && use_simd); [apply Hs|].
    unfold write_merge_byte. rewrite (write_merge_loop_spec _ [] [] o p q) by done.
    by rewrite Hrace, andb_false_r.
  - intros Hb. unfold read_merge. destruct (use_simd_diff P); [apply Hs|].
    destruct Hb as [|Hb]; [done|]. by apply read_merge_byte_no_detection.
Qed.

(** The builds of the merge agree where it matters: on a block without a
    byte changed on both sides, the AVX2 and the byte loop of a release both
    produce the three-way merge in both copies, and the AVX2 loop of a read
    (and the byte loop without its race test) produces it in the private copy
    with the remote data as the new twin. *)
Theorem merge_variants_agree P (use_simd : bool) o p q
    (Hp : block_bytes p) (Ho : bytes o) (Hq : bytes q)
    (Hlo : length o = length p) (Hlq : length q = length p)
    (Hrace : has_race o p q = false) :
  write_merge P o p q use_simd = Ok (merge3 o p q, merge3 o p q)
  ∧ (use_simd_diff P = true ∨ enable_race_detection P = false →
     read_merge P o p q = Ok (merge3 o p q, o)).
Proof. by apply merge_variants_correct. Qed.

(** * Specification of the operations *)

Definition mem_ok (m : blk_mem) : Prop :=
  block_bytes (bm_priv m) ∧ bytes (bm_pub m) ∧ length (bm_pub m) = length (bm_priv m).

(** What a transaction reads from the last writer. *)
Definition other_data (P : policy) (om : blk_mem) : list Z :=
  if enable_lazy_merge P then bm_priv om else bm_pub om.

Lemma read_other_ok P proc ms om :
  ms !! proc = Some om → read_other P proc ms = Ok (other_data P om).
Proof. intros H. unfold read_other, get_mem. by rewrite H. Qed.

Lemma get_mem_ok p ms m : ms !! p = Some m → get_mem p ms = Ok m.
Proof. intros H. unfold get_mem. by rewrite H. Qed.

(** The memory of the process after the write protection that may come first. *)
Definition protected_before (bt : begin_transaction_result) (m : blk_mem) : blk_mem :=
  if bt_needs_protect_before bt then set_prot ProtRead m else m.

Lemma protected_before_fields bt m :
  bm_priv (protected_before bt m) = bm_priv m ∧ bm_pub (protected_before bt m) = bm_pub m
  ∧ bm_snapshot (protected_before bt m) = bm_snapshot m.
Proof. unfold protected_before. by destruct (bt_needs_protect_before bt). Qed.

(** The local branch: what it stores for this process. *)
Lemma merge_local_spec P bt w cur m ms :
  enable_migration P = true → ms !! cur = Some m →
  merge_local P bt w cur m ms
  = <[cur := set_pub (if w && bt_needs_local_copy bt then bm_priv m else bm_pub m) m]> ms.
Proof.
  intros Hmig Hm. unfold merge_local, set_twin. rewrite Hmig.
  destruct (w && bt_needs_local_copy bt); [done|]. symmetry. apply insert_id.
  rewrite Hm. by destruct m.
Qed.

(** The remote branch. *)
Lemma merge_remote_spec P glk bt w cur ms m om :
  enable_migration P = true → ms !! cur = Some m → mem_ok m →
  ms !! glk_last_writer_proc glk = Some om → glk_last_writer_proc glk ≠ cur →
  bytes (other_data P om) → length (other_data P om) = length (bm_priv m) →
  has_race (other_data P om) (bm_priv m) (bm_pub m) = false →
  let other := other_data P om in
  let data := if w : bool then merge3 other (bm_priv m) (bm_pub m) else other in
  merge_remote P glk bt w cur ms
  = Ok (<[cur := set_pub data (set_priv data m)]>
          (if enable_lazy_merge P
           then <[glk_last_writer_proc glk := set_pub (bm_priv om) om]> ms else ms)).
Proof.
  intros Hmig Hm (Hp & Hq & Hlq) Hom Hne Hbytes Hlen Hrace other data.
  unfold merge_remote. rewrite Hmig, (read_other_ok P _ _ _ Hom), andb_true_r.
  cbn [mbind result_bind]. fold other.
  set (ms1 := if enable_lazy_merge P then _ else ms).
  assert ((if enable_lazy_merge P then write_other_pub (glk_last_writer_proc glk) other ms else Ok ms)
    = Ok ms1) as ->.
  { unfold ms1, other, other_data, write_other_pub. destruct (enable_lazy_merge P); [|done].
    by rewrite (get_mem_ok _ _ _ Hom). }
  assert (ms1 !! cur = Some m) as Hm1.
  { unfold ms1. destruct (enable_lazy_merge P); [|done]. by rewrite lookup_insert_ne. }
  cbn [mbind result_bind]. rewrite (get_mem_ok _ _ _ Hm1). cbn [mbind result_bind].
  unfold my_twin, set_twin, data. rewrite Hmig. destruct w; [|done].
  destruct (merge_variants_correct P (bt_is_write_protected bt) other (bm_priv m) (bm_pub m))
    as [-> _]; done.
Qed.

(** The end of [release_merge] of the migration build. *)
Lemma release_merge_end P (bt : begin_transaction_result) (w : bool) cur m ms :
  enable_migration P = true → ms !! cur = Some m →
  (m ← get_mem cur ms;
   ms ← (if negb (enable_migration P) && w
         then write_other_pub (bt_owner bt) (my_twin P m) ms else Ok ms);
   m ← get_mem cur ms;
   let ms := if bt_needs_protect_after bt then <[cur := set_prot ProtRead m]> ms else ms in
   Ok (MergeResult w (enable_migration P), ms))
  = Ok (MergeResult w true,
        <[cur := if bt_needs_protect_after bt then set_prot ProtRead m else m]> ms).
Proof.
  intros Hmig Hm. rewrite (get_mem_ok _ _ _ Hm), Hmig. cbn [mbind result_bind negb andb].
  rewrite (get_mem_ok _ _ _ Hm). cbn [mbind result_bind].
  destruct (bt_needs_protect_after bt); [done|]. by rewrite insert_id.
Qed.

Lemma prot_after_spec bt m m1 :
  bm_prot m1 = bm_prot (protected_before bt m) →
  bm_prot (if bt_needs_protect_after bt then set_prot ProtRead m1 else m1)
  = prot_after bt (bm_prot m).
Proof.
  unfold protected_before, prot_after. intros H.
  destruct (bt_needs_protect_before bt), (bt_needs_protect_after bt); cbn in *; done.
Qed.

Lemma after_fields bt m :
  let m' := if bt_needs_protect_after bt then set_prot ProtRead m else m in
  bm_priv m' = bm_priv m ∧ bm_pub m' = bm_pub m.
Proof. cbn. by destruct (bt_needs_protect_after bt). Qed.

(** C35: [release_merge] of the migration build, the step of a transaction
    between [begin_transaction] and [end_transaction], succeeds on a block
    without a byte race. When this process wrote the block last, the twin
    becomes the private data if it differs; otherwise both copies become the
    three-way merge of the last writer's data with the local changes, or the
    last writer's data when there are none, and (with lazy merge) the last
    writer's twin is completed. No other memory changes, and the page
    protection moves as the directory expects. *)
Theorem release_merge_spec P cur glk le ms m om
    (Hmig : enable_migration P = true)
    (Hm : ms !! cur = Some m) (Hok : mem_ok m)
    (Hom : ms !! glk_last_writer_proc glk = Some om)
    (Hbytes : bytes (other_data P om)) (Hlen : length (other_data P om) = length (bm_priv m))
    (Hrace : has_race (other_data P om) (bm_priv m) (bm_pub m) = false) :
  let bt := begin_transaction P cur glk le in
  let is_written := local_written P bt m in
  ∃ m' ms', release_merge P cur glk bt ms = Ok (MergeResult is_written true, ms')
    ∧ ms' !! cur = Some m'
    ∧ bm_prot m' = prot_after bt (bm_prot m)
    ∧ (glk_last_writer_proc glk = cur →
         bm_priv m' = bm_priv m
         ∧ bm_pub m' = (if is_written && bt_needs_local_copy bt then bm_priv m else bm_pub m)
         ∧ ∀ p, p ≠ cur → ms' !! p = ms !! p)
    ∧ (glk_last_writer_proc glk ≠ cur →
         bm_priv m' = (if is_written then merge3 (other_data P om) (bm_priv m) (bm_pub m)
                       else other_data P om)
         ∧ bm_pub m' = bm_priv m'
         ∧ ∀ p, p ≠ cur → ms' !! p
             = if decide (enable_lazy_merge P = true ∧ p = glk_last_writer_proc glk)
               then Some (set_pub (bm_priv om) om) else ms !! p).
Proof.
  intros bt w. unfold release_merge. rewrite (get_mem_ok _ _ _ Hm). cbn [mbind result_bind].
  fold (protected_before bt m). set (m0 := protected_before bt m).
  destruct (protected_before_fields bt m) as (Hpriv & Hpub & _). fold m0 in Hpriv, Hpub.
  assert (local_written P bt m0 = w) as ->.
  { unfold w, local_written, my_twin. by rewrite Hmig, Hpriv, Hpub. }
  set (lw := glk_last_writer_proc glk) in *.
  assert (bt_is_remotely_updated bt = negb (lw =? cur)) as -> by done.
  rewrite negb_involutive.
  destruct (Z.eqb_spec lw cur) as [Heq|Hne].
  - rewrite merge_local_spec, insert_insert_eq by (done || by rewrite lookup_insert_eq).
    cbn [mbind result_bind]. set (m1 := set_pub _ m0).
    rewrite (release_merge_end P bt w cur m1) by (done || by rewrite lookup_insert_eq).
    destruct (after_fields bt m1) as [Ep Eq].
    eexists _, _. split; [done|]. rewrite insert_insert_eq, lookup_insert_eq.
    split; [done|]. split; [by apply prot_after_spec|]. split; [|done]. intros _.
    rewrite Ep, Eq. unfold m1. cbn. rewrite Hpriv, Hpub. split_and!; try done.
    intros p Hp. by rewrite lookup_insert_ne.
  - set (ms0 := <[cur := m0]> ms).
    assert (mem_ok m0) as Hok0 by (unfold mem_ok; by rewrite Hpriv, Hpub).
    rewrite (merge_remote_spec P glk bt w cur ms0 m0 om); rewrite ?Hpriv, ?Hpub; try done;
      [|by unfold ms0; rewrite lookup_insert_eq|by unfold ms0; rewrite lookup_insert_ne by done].
    cbn [mbind result_bind]. set (data := if w then _ else _). set (m1 := set_pub data _).
    rewrite (release_merge_end P bt w cur m1) by (done || by rewrite lookup_insert_eq).
    destruct (after_fields bt m1) as [Ep Eq].
    eexists _, _. split; [done|]. rewrite lookup_insert_eq.
    split; [done|]. split; [by apply prot_after_spec|]. split; [done|]. intros _.
    rewrite Ep, Eq. split_and!; try done. intros p Hp. fold lw.
    rewrite !lookup_insert_ne by done. unfold ms0. destruct (enable_lazy_merge P).
    + destruct (decide (p = lw)) as [->|Hpl].
      * rewrite lookup_insert_eq, decide_True; done.
      * rewrite !lookup_insert_ne, decide_False by naive_solver. done.
    + by rewrite decide_False, lookup_insert_ne by naive_solver.
Qed.

(** ** Atomic operations *)
Lemma length_store_at off size x data :
  (off + size ≤ length data)%nat → length (store_at off size x data) = length data.
Proof.
  intros H. unfold store_at. rewrite length_app, length_overwrite, length_take, length_drop;
    rewrite ?length_le_bytes, ?length_drop; lia.
Qed.

Lemma load_store_at off size x data :
  (off + size ≤ length data)%nat → 0 ≤ x < 256 ^ Z.of_nat size →
  load_at off size (store_at off size x data) = Ok x.
Proof.
  intros H Hx. unfold load_at. rewrite length_store_at by done.
  rewrite (proj2 (Nat.leb_le _ _)) by done. f_equal. unfold store_at, overwrite.
  rewrite drop_app_length' by (rewrite length_take; lia).
  rewrite take_app_length' by by rewrite length_le_bytes.
  by apply le_value_bytes.
Qed.

Lemma store_at_outside off size x data i :
  (off + size ≤ length data)%nat → (i < off ∨ off + size ≤ i)%nat →
  store_at off size x data !! i = data !! i.
Proof.
  intros H Hi. unfold store_at, overwrite. destruct Hi as [Hi|Hi].
  - rewrite lookup_app_l by (rewrite length_take; lia). by apply lookup_take_lt.
  - rewrite lookup_app_r by (rewrite length_take; lia). rewrite length_take, Nat.min_l by lia.
    rewrite lookup_app_r by (rewrite length_le_bytes; lia).
    rewrite drop_drop, lookup_drop, length_le_bytes. f_equal. lia.
Qed.

Lemma do_amo_at_correct {A} size off (func : Z → Z * A) cur ms m
    (Hm : ms !! cur = Some m) (Hclean : bm_priv m = bm_pub m)
    (Hb : (off + size ≤ length (bm_pub m))%nat)
    (Hf : ∀ v, load_at off size (bm_pub m) = Ok v → 0 ≤ (func v).1 < 256 ^ Z.of_nat size) :
  ∃ v m' ms', load_at off size (bm_pub m) = Ok v
    ∧ do_amo_at size off func cur ms
      = Ok (negb (v =? (func v).1), (func v).2, ms')
    ∧ ms' !! cur = Some m' ∧ bm_priv m' = bm_pub m' ∧ bm_prot m' = bm_prot m
    ∧ load_at off size (bm_pub m') = Ok (func v).1
    ∧ length (bm_pub m') = length (bm_pub m)
    ∧ (∀ i, (i < off ∨ off + size ≤ i)%nat → bm_pub m' !! i = bm_pub m !! i)
    ∧ ∀ p, p ≠ cur → ms' !! p = ms !! p.
Proof.
  assert (∃ v, load_at off size (bm_pub m) = Ok v) as [v Hv].
  { unfold load_at. rewrite (proj2 (Nat.leb_le _ _)) by done. eauto. }
  specialize (Hf v Hv). exists v. unfold do_amo_at.
  rewrite (get_mem_ok _ _ _ Hm). cbn [mbind result_bind]. rewrite Hclean, Hv. cbn [mbind result_bind].
  rewrite Z.eqb_refl. cbn [assert_ mbind result_bind].
  destruct (func v) as [res cap] eqn:Ef. cbn [fst snd] in *.
  destruct (Z.eqb_spec v res) as [->|Hne]; cbn [negb].
  - exists m, ms. split_and!; done.
  - eexists _, _. split; [done|]. split; [done|]. rewrite lookup_insert_eq. split; [done|].
    cbn. rewrite load_store_at, length_store_at by done. split_and!; try done.
    + intros i Hi. by apply store_at_outside.
    + intros p Hp. by rewrite lookup_insert_ne.
Qed.

(** An atomic operation on a clean block (its two local copies agree)
    reads the variable, stores the result of the function in both copies,
    leaves every other byte and every other process's memory alone, and
    reports whether the value changed. *)
Theorem do_amo_at_spec {A} size off (func : Z → Z * A) cur ms m
    (Hm : ms !! cur = Some m) (Hclean : bm_priv m = bm_pub m)
    (Hb : (off + size ≤ length (bm_pub m))%nat)
    (Hf : ∀ v, load_at off size (bm_pub m) = Ok v → 0 ≤ (func v).1 < 256 ^ Z.of_nat size) :
  ∃ v m' ms', load_at off size (bm_pub m) = Ok v
    ∧ do_amo_at size off func cur ms
      = Ok (negb (v =? (func v).1), (func v).2, ms')
    ∧ ms' !! cur = Some m' ∧ bm_priv m' = bm_pub m' ∧ bm_prot m' = bm_prot m
    ∧ load_at off size (bm_pub m') = Ok (func v).1
    ∧ length (bm_pub m') = length (bm_pub m)
    ∧ (∀ i, (i < off ∨ off + size ≤ i)%nat → bm_pub m' !! i = bm_pub m !! i)
    ∧ ∀ p, p ≠ cur → ms' !! p = ms !! p.
Proof. exact (do_amo_at_correct size off func cur ms m Hm Hclean Hb Hf). Qed.

(** * Concrete blocks of one group *)
Definition demo_block (l : list Z) : list Z := l ++ replicate (256 - length l) 0.

Lemma demo_block_ok l :
  forallb (λ b, (0 <=? b) && (b <? 256)) l = true → (length l ≤ 256)%nat →
  block_bytes (demo_block l).
Proof.
  intros Hb Hl. split.
  - apply Forall_app. split.
    + apply Forall_forall. intros b Hin. apply list_elem_of_In in Hin.
      rewrite forallb_forall in Hb. specialize (Hb b Hin). unfold is_byte. bool_lia.
    + apply Forall_replicate. unfold is_byte. lia.
  - exists 1%nat. unfold demo_block. rewrite length_app, length_replicate.
    unfold VECTOR_LEN, UNROLL_LEN. lia.
Qed.

(** The remote side changed byte 0, this process byte 1. *)
Definition demo_other : list Z := demo_block [7; 0; 3].
Definition demo_priv : list Z := demo_block [1; 9; 3].
Definition demo_pub : list Z := demo_block [1; 0; 3].

Lemma demo_priv_ok : block_bytes demo_priv.
Proof. apply demo_block_ok; [reflexivity|vm_compute; lia]. Qed.
Lemma demo_other_ok : block_bytes demo_other.
Proof. apply demo_block_ok; [reflexivity|vm_compute; lia]. Qed.
Lemma demo_pub_ok : block_bytes demo_pub.
Proof. apply demo_block_ok; [reflexivity|vm_compute; lia]. Qed.

Lemma write_merge_byte_witness :
  write_merge_byte default_policy demo_other demo_priv demo_pub
    = Ok (demo_block [7; 9; 3], demo_block [7; 9; 3])
  ∧ match write_merge_byte default_policy demo_other demo_priv demo_pub with
    | Ok (priv, pub) =>
        (∀ i, ¬ race_at demo_other demo_priv demo_pub i) ∧ priv = pub
        ∧ length priv = length demo_priv
        ∧ ∀ i a b c, demo_other !! i = Some a → demo_priv !! i = Some b →
            demo_pub !! i = Some c → priv !! i = Some (if a =? c then b else a)
    | Fail f => ∃ i, f = DataRaceAt i ∧ race_at demo_other demo_priv demo_pub i
        ∧ ∀ j, (j < i)%nat → ¬ race_at demo_other demo_priv demo_pub j
    end.
Proof.
  split; [vm_compute; reflexivity|].
  exact (write_merge_byte_spec default_policy demo_other demo_priv demo_pub
    eq_refl eq_refl eq_refl).
Defined.

Lemma demo_no_race i : ¬ race_at demo_other demo_priv demo_pub i.
Proof.
  intros (a & b & c & Ha & Hb & Hc & Hac & Hbc).
  pose proof (has_race_false_lookup demo_other demo_priv demo_pub i a b c
    ltac:(vm_compute; reflexivity) Ha Hb Hc). intuition.
Qed.

Lemma read_merge_byte_false_race_witness :
  read_merge_byte default_policy demo_other demo_priv demo_pub = Fail DataRaceLost.
Proof.
  exact (read_merge_byte_false_race default_policy demo_other demo_priv demo_pub 0 7 1
    eq_refl eq_refl eq_refl demo_no_race eq_refl eq_refl eq_refl ltac:(lia)).
Defined.

Lemma merge_simd_witness :
  merge_simd default_policy true demo_other demo_priv demo_pub
  = Ok (zip3_with result_reg demo_other demo_priv demo_pub,
        zip3_with result_reg demo_other demo_priv demo_pub).
Proof.
  assert (vec_bytes (UNROLL_LEN * 1) demo_other) as Ho by (split; [apply demo_other_ok|reflexivity]).
  assert (vec_bytes (UNROLL_LEN * 1) demo_priv) as Hp by (split; [apply demo_priv_ok|reflexivity]).
  assert (vec_bytes (UNROLL_LEN * 1) demo_pub) as Hq by (split; [apply demo_pub_ok|reflexivity]).
  pose proof (merge_simd_spec default_policy true demo_other demo_priv demo_pub 1 Ho Hp Hq) as H.
  destruct (enable_race_detection default_policy && _) eqn:E; [vm_compute in E; discriminate|].
  exact H.
Defined.

Lemma merge_variants_agree_witness :
  write_merge default_policy demo_other demo_priv demo_pub true
  = Ok (demo_block [7; 9; 3], demo_block [7; 9; 3]).
Proof.
  refine (eq_trans (proj1 (merge_variants_agree default_policy true demo_other demo_priv demo_pub
    demo_priv_ok (proj1 demo_other_ok) (proj1 demo_pub_ok) eq_refl eq_refl _)) _);
    vm_compute; reflexivity.
Defined.

Definition demo_mem : blk_mem := BlkMem demo_priv demo_pub demo_pub ProtReadWrite.
Definition demo_owner_mem : blk_mem := BlkMem demo_other demo_pub demo_pub ProtReadWrite.
Definition demo_mems : mems := {[ 0 := demo_mem; 1 := demo_owner_mem ]}.

Lemma release_merge_witness :
  ∃ m' ms', release_merge default_policy 0 (LockGlobal 1 1 (GlobalEntry 5 15))
      (begin_transaction default_policy 0 (LockGlobal 1 1 (GlobalEntry 5 15)) demo_le) demo_mems
      = Ok (MergeResult true true, ms') ∧ ms' !! 0 = Some m' ∧ bm_prot m' = ProtRead.
Proof.
  destruct (release_merge_spec default_policy 0 (LockGlobal 1 1 (GlobalEntry 5 15)) demo_le
    demo_mems demo_mem demo_owner_mem eq_refl eq_refl
    (conj demo_priv_ok (conj (proj1 demo_pub_ok) eq_refl)) eq_refl (proj1 demo_other_ok) eq_refl
    ltac:(vm_compute; reflexivity)) as (m' & ms' & E & Hm & Hp & _).
  exists m', ms'. split; [exact E|]. split; [exact Hm|]. exact Hp.
Defined.

Definition demo_clean : mems := {[ 0 := BlkMem demo_pub demo_pub demo_pub ProtRead ]}.

Lemma do_amo_at_witness :
  ∃ m' ms', do_amo_at 2 0 (λ v, (v + 1, v)) 0 demo_clean = Ok (true, 1, ms')
    ∧ ms' !! 0 = Some m' ∧ bm_priv m' = bm_pub m'.
Proof.
  destruct (do_amo_at_spec 2 0 (λ v, (v + 1, v)) 0 demo_clean
    (BlkMem demo_pub demo_pub demo_pub ProtRead) eq_refl eq_refl) as (v & m' & ms' & Hv & E & Hm & Hc & _).
  - vm_compute. lia.
  - intros v Hv. vm_compute in Hv. injection Hv as <-. vm_compute. intuition congruence.
  - vm_compute in Hv. injection Hv as <-. exists m', ms'.
    split; [exact E|]. split; [exact Hm|exact Hc].
Defined.
