(* ===== verification/Forest.v ===== *)
(** Forests as lists of edges: the undirected multigraphs in which every edge
    joins two different components of the others. Used by QueueLock.v for the
    graph of probable owners. *)
From Stdlib Require Import ZArith Lia.
From stdpp Require Import base tactics list relations.
From S2P Require Import Prelude.

Section forest.
Context {V : Type}.
Implicit Types (E F : list (V * V)) (a b c u v x y : V).

Definition edge E x y : Prop := (x, y) ∈ E.

(** Connected by edges in either direction. *)
Definition conn E : V → V → Prop := rtsc (edge E).

Fixpoint acyclic E : Prop :=
  match E with
  | [] => True
  | (a, b) :: E => ¬ conn E a b ∧ acyclic E
  end.

Lemma conn_refl E x : conn E x x.
Proof. apply rtc_refl. Qed.

Lemma conn_sym E x y : conn E x y → conn E y x.
Proof. unfold conn. intros H. by symmetry. Qed.

Lemma conn_trans E x y z : conn E x y → conn E y z → conn E x z.
Proof. unfold conn. intros H1 H2. by transitivity y. Qed.

Lemma conn_edge E x y : (x, y) ∈ E → conn E x y.
Proof. intros H. apply rtc_once. by left. Qed.

Lemma conn_mono E F x y : (∀ e, e ∈ E → e ∈ F) → conn E x y → conn F x y.
Proof.
  intros Hsub. induction 1 as [|x y z [H|H] _ IH]; [apply conn_refl|..].
  - apply (conn_trans _ _ y); [apply conn_edge; by apply Hsub|done].
  - apply (conn_trans _ _ y); [apply conn_sym, conn_edge; by apply Hsub|done].
Qed.

Lemma conn_weaken e E x y : conn E x y → conn (e :: E) x y.
Proof. apply conn_mono. intros. by right. Qed.

(** A path that may use one more edge. *)
Lemma conn_cons a b E x y :
  conn ((a, b) :: E) x y →
  conn E x y ∨ (conn E x a ∧ conn E b y) ∨ (conn E x b ∧ conn E a y).
Proof.
  induction 1 as [x|x y z Hxy _ IH]; [left; apply conn_refl|].
  assert (conn E x y ∨ (x = a ∧ y = b) ∨ (x = b ∧ y = a)) as Hstep.
  { destruct Hxy as [[[= -> ->]|H]%elem_of_cons|[[= -> ->]|H]%elem_of_cons]; auto.
    - left. by apply conn_edge.
    - left. by apply conn_sym, conn_edge. }
  destruct Hstep as [H|[[-> ->]|[-> ->]]].
  - destruct IH as [?|[[? ?]|[? ?]]]; eauto using conn_trans.
  - destruct IH as [H|[[H1 H2]|[H1 H2]]]; eauto using conn_refl, conn_trans.
  - destruct IH as [H|[[H1 H2]|[H1 H2]]]; eauto using conn_refl, conn_trans.
Qed.

Lemma acyclic_swap e1 e2 E : acyclic (e1 :: e2 :: E) → acyclic (e2 :: e1 :: E).
Proof.
  destruct e1 as [a1 b1], e2 as [a2 b2]. cbn. intros (H1 & H2 & HE).
  split; [|split; [|done]].
  - intros [H|[[Ha Hb]|[Ha Hb]]]%conn_cons; [done|..]; apply H1.
    + apply (conn_trans _ _ a2); [by apply conn_weaken, conn_sym|].
      apply (conn_trans _ _ b2); [apply conn_edge; by left|by apply conn_weaken, conn_sym].
    + apply (conn_trans _ _ b2); [by apply conn_weaken|].
      apply (conn_trans _ _ a2); [apply conn_sym, conn_edge; by left|by apply conn_weaken].
  - intros H. apply H1. by apply conn_weaken.
Qed.

Lemma conn_perm E F x y : E ≡ₚ F → conn E x y → conn F x y.
Proof. intros H. apply conn_mono. intros e. by rewrite H. Qed.

#[export] Instance acyclic_perm : Proper ((≡ₚ) ==> iff) acyclic.
Proof.
  assert (∀ E F, E ≡ₚ F → acyclic E → acyclic F) as H.
  { induction 1 as [|[a b] E F Hp IH|e1 e2 E|E F G _ IH1 _ IH2]; [done| |apply acyclic_swap|auto].
    cbn. intros [Hn HE]. split; [|auto]. intros Hc. apply Hn. by eapply conn_perm. }
  intros E F Hp. split; apply H; [done|by symmetry].
Qed.

(** In a forest no path avoids an edge and joins its ends. *)
Lemma acyclic_bridge a b E F :
  acyclic E → E ≡ₚ (a, b) :: F → ¬ conn F a b.
Proof. intros HE Hp. rewrite Hp in HE. apply HE. Qed.

(** Moving one end of an edge along another edge keeps the forest. *)
Lemma acyclic_move x a b E :
  acyclic ((x, a) :: E) → (a, b) ∈ E → acyclic ((x, b) :: E).
Proof.
  cbn. intros [Hn HE] Hab. split; [|done]. intros Hc. apply Hn.
  apply (conn_trans _ _ b); [done|]. by apply conn_sym, conn_edge.
Qed.

(** So does turning an edge around. *)
Lemma acyclic_flip a b E : acyclic ((a, b) :: E) → acyclic ((b, a) :: E).
Proof. cbn. intros [Hn HE]. split; [|done]. intros Hc. by apply Hn, conn_sym. Qed.

Lemma acyclic_app_l E F : acyclic (E ++ F) → acyclic E.
Proof.
  induction E as [|[a b] E IH]; [done|]. cbn. intros [Hn HE]. split; [|by apply IH].
  intros Hc. apply Hn. revert Hc. apply conn_mono. intros e He. apply elem_of_app. by left.
Qed.

Lemma acyclic_no_loop a E : ¬ acyclic ((a, a) :: E).
Proof. cbn. intros [Hn _]. apply Hn, conn_refl. Qed.

(** A star is a forest. *)
Lemma acyclic_star (c : V) (l : list V) :
  NoDup l → c ∉ l → acyclic ((λ x, (x, c)) <$> l).
Proof.
  induction 1 as [|x l Hx _ IH]; [done|]. intros [Hc Hcl]%not_elem_of_cons. cbn.
  split; [|by apply IH]. intros Hconn.
  assert (∀ y, conn ((λ x, (x, c)) <$> l) x y → y = x) as Hiso; [|by apply Hc, Hiso].
  intros y. unfold conn, rtsc.
  refine (rtc_ind_r (λ y, y = x) x eq_refl _ y). clear y Hconn.
  intros y z _ Hyz ->.
  destruct Hyz as [H|H]; apply list_elem_of_fmap in H as (w & [= -> ->] & Hw); done.
Qed.
End forest.

(** ** Edges given by labels *)
Section labels.
Context {K V : Type} `{EqDecision K}.
Implicit Types (f g : K → option (V * V)) (ks : list K).

Definition label_edges f ks : list (V * V) := omap f ks.

Lemma label_edges_ext f g ks :
  (∀ k, k ∈ ks → f k = g k) → label_edges f ks = label_edges g ks.
Proof.
  induction ks as [|k ks IH]; intros H; [done|]. unfold label_edges in *. cbn.
  rewrite (H k) by by left. destruct (g k); [f_equal|]; apply IH; intros; apply H; by right.
Qed.

Lemma label_split k ks : NoDup ks → k ∈ ks →
  ∃ ks', ks ≡ₚ (k :: ks') ∧ (k ∉ ks') ∧ NoDup ks' ∧ ∀ j, j ∈ ks' ↔ j ∈ ks ∧ j ≠ k.
Proof.
  intros Hnd Hk. apply elem_of_Permutation in Hk as [ks' Hp]. exists ks'. split; [done|].
  rewrite Hp in Hnd. apply NoDup_cons in Hnd as [Hn Hnd]. split; [done|]. split; [done|].
  intros j. rewrite Hp, elem_of_cons. split; [intros H; split; [auto|by intros ->]|naive_solver].
Qed.

Lemma label_edges_perm f ks ks' : ks ≡ₚ ks' → label_edges f ks ≡ₚ label_edges f ks'.
Proof. unfold label_edges. by intros ->. Qed.

Lemma elem_of_label_edges f ks e : e ∈ label_edges f ks ↔ ∃ k, k ∈ ks ∧ f k = Some e.
Proof. unfold label_edges. rewrite list_elem_of_omap. done. Qed.

(** One label changes. *)
Lemma label_edges_one f g ks k : NoDup ks → k ∈ ks →
  (∀ j, j ∈ ks → j ≠ k → f j = g j) →
  ∃ E, label_edges f ks ≡ₚ option_list (f k) ++ E
     ∧ label_edges g ks ≡ₚ option_list (g k) ++ E
     ∧ ∀ j e, j ∈ ks → j ≠ k → f j = Some e → e ∈ E.
Proof.
  intros Hnd Hk Hfg. destruct (label_split k ks Hnd Hk) as (ks' & Hp & Hn & Hnd' & Hin).
  exists (label_edges f ks').
  assert (∀ h, label_edges h (k :: ks') = option_list (h k) ++ label_edges h ks') as Hc.
  { intros h. unfold label_edges. cbn. by destruct (h k). }
  split; [by rewrite (label_edges_perm f _ _ Hp), Hc|]. split.
  - rewrite (label_edges_perm g _ _ Hp), Hc. f_equiv.
    rewrite (label_edges_ext g f); [done|]. intros j [Hj Hne]%Hin. symmetry. by apply Hfg.
  - intros j e Hj Hjk He. apply elem_of_label_edges. exists j. split; [by apply Hin|done].
Qed.

(** Two labels change. *)
Lemma label_edges_two f g ks k1 k2 : NoDup ks → k1 ∈ ks → k2 ∈ ks → k1 ≠ k2 →
  (∀ j, j ∈ ks → j ≠ k1 → j ≠ k2 → f j = g j) →
  ∃ E, label_edges f ks ≡ₚ option_list (f k1) ++ option_list (f k2) ++ E
     ∧ label_edges g ks ≡ₚ option_list (g k1) ++ option_list (g k2) ++ E
     ∧ ∀ j e, j ∈ ks → j ≠ k1 → j ≠ k2 → f j = Some e → e ∈ E.
Proof.
  intros Hnd H1 H2 Hne Hfg. destruct (label_split k1 ks Hnd H1) as (ks1 & Hp & Hn & Hnd1 & Hin).
  destruct (label_edges_one f g ks1 k2) as (E & Hf & Hg & HE); [done|by apply Hin| |].
  { intros j [Hj Hj1]%Hin Hj2. by apply Hfg. }
  assert (∀ h, label_edges h (k1 :: ks1) = option_list (h k1) ++ label_edges h ks1) as Hc.
  { intros h. unfold label_edges. cbn. by destruct (h k1). }
  exists E. split; [by rewrite (label_edges_perm f _ _ Hp), Hc, Hf|].
  split; [by rewrite (label_edges_perm g _ _ Hp), Hc, Hg|].
  intros j e Hj Hj1 Hj2 He. apply (HE j e); [by apply Hin|done|done].
Qed.
End labels.

(** ** Following links *)

(** In a forest whose edges are the links [v → w] with [f v = Some w], the walk
    along the links ends, after at most as many steps as there are links. *)
Section walks.
Context {V : Type} `{EqDecision V} (f : V → option V).
Implicit Types (vs : list V) (v w x y : V).

Definition link v w : Prop := f v = Some w.

Definition links vs : list (V * V) := label_edges (λ v, pair v <$> f v) vs.

Lemma links_in vs v w : v ∈ vs → f v = Some w → (v, w) ∈ links vs.
Proof. intros Hv Hw. apply elem_of_label_edges. exists v. by rewrite Hw. Qed.

Lemma omap_fmap_links {K} (g : K → option (V * V)) (h : V → K) vs :
  (∀ v, v ∈ vs → g (h v) = pair v <$> f v) → omap g (h <$> vs) = links vs.
Proof.
  induction vs as [|v vs IH]; intros H; [done|]. unfold links, label_edges in *. cbn.
  rewrite H by by left. rewrite IH by (intros; apply H; by right). done.
Qed.

Lemma walk_ends vs x :
  NoDup vs → acyclic (links vs) → (∀ v w, conn (links vs) x v → f v = Some w → v ∈ vs) →
  ∃ k y, (k ≤ length vs)%nat ∧ nsteps link k x y ∧ f y = None ∧ conn (links vs) x y.
Proof.
  remember (length vs) as n eqn:En. revert vs En x.
  induction n as [|n IH]; intros vs En x Hnd Hac Hdom; destruct (f x) as [y|] eqn:Hx.
  2,4: exists 0%nat, x; split_and!; [lia|constructor|done|apply conn_refl].
  { assert (x ∈ vs) as Hin by (eapply Hdom; [apply conn_refl|done]).
    destruct vs; [by apply not_elem_of_nil in Hin|done]. }
  assert (x ∈ vs) as Hin by (eapply Hdom; [apply conn_refl|done]).
  destruct (label_split x vs Hnd Hin) as (vs' & Hp & Hn & Hnd' & Hvs').
  assert (links vs ≡ₚ (x, y) :: links vs') as Hl.
  { unfold links. rewrite (label_edges_perm _ _ _ Hp). unfold label_edges. cbn. by rewrite Hx. }
  rewrite Hl in Hac. destruct Hac as [Hxy Hac].
  assert (∀ v, conn (links vs') y v → conn (links vs) x v) as Hext.
  { intros v Hv. apply (conn_trans _ _ y); [apply conn_edge; rewrite Hl; by left|].
    apply (conn_perm ((x, y) :: links vs')); [by symmetry|by apply conn_weaken]. }
  destruct (IH vs') with (x := y) as (k & z & Hk & Hs & Hz & Hc); [|done|done| |].
  { rewrite Hp in En. cbn in En. lia. }
  { intros v w Hv Hw. apply Hvs'. split; [by eapply Hdom; [apply Hext|]|].
    intros ->. apply Hxy. by apply conn_sym. }
  exists (S k), z. split_and!; [lia| |done|by apply Hext]. by apply (nsteps_l _ _ _ y).
Qed.
End walks.
