(* ===== verification/QueueLock.v ===== *)
(** The migrating distributed lock: queue_lock_table.hpp of medsm2/dsm.

    One lock position. Every process has a lock value ([q_glk]: owned, locked,
    or linked to the probable owner), a copy of the lock-attached data
    ([q_lads]) and a program counter ([q_pc]) with one value per remote or
    shared access of [lock_global] and [unlock_global], so that the accesses of
    different processes interleave; transferred locks travel as messages.
    The value types and [q_latest], the data of the last release, are all there
    is besides the source's state. Within a process the caller's mutex (the
    block or mutex entry lock) admits one call at a time. *)
From Stdlib Require Import ZArith Lia.
From stdpp Require Import base tactics functions list gmap.
From S2P Require Import Prelude.
From S2P Require Import Forest.

Definition make_owned_lock_val : Z := 1.
Definition make_locked_lock_val : Z := 2.
Definition make_linked_lock_val (owner : Z) : Z := owner + 3.

Definition is_valid_linked_lock_val (num_procs lock_val_proc lock_val : Z) : bool :=
  (3 <=? lock_val) && (lock_val <? 3 + num_procs) && negb (lock_val =? 3 + lock_val_proc).

(** [get_probable_owner_from_lock_val]. *)
Definition get_probable_owner_from_lock_val (lock_val_proc lock_val : Z) : result Z :=
  _ ← assert_ (negb (lock_val =? 0));
  Ok (if lock_val <=? 2 then lock_val_proc else lock_val - 3).

Section queue_lock.
Context {L : Type} (num_procs : Z).

(** Where a process is. The comments name the access that comes next. *)
Inductive pc :=
| Idle
| LoadLocal                        (** lock_global: load the local value *)
| CasOwn                           (** CAS the own value from owned to locked *)
| SetLocked (link_val : Z)         (** store "locked" *)
| CasOwned (proc link_val : Z)     (** loop: follow [link_val] and CAS from owned *)
| CasLocked (proc : Z)             (** CAS [proc]'s value from locked *)
| Receive (proc : Z)               (** wait for the message of [proc] *)
| ReadLad (proc : Z)               (** acquired: read the data at [proc] *)
| Holding (owner : Z) (lad : L)    (** lock_global returned *)
| UnlockLoad (lad : L)             (** unlock_global: load the local value *)
| UnlockCas (lad : L)              (** CAS the own value from locked to owned *)
| UnlockSend (next_proc : Z) (lad : L)
| Failed.                          (** an assertion failed *)

Record message := Message { msg_from : Z; msg_to : Z; msg_lad : L }.

Record qstate := QState {
  q_glk : Z → Z;
  q_lads : Z → L;
  q_pc : Z → pc;
  q_msgs : list message;
  q_latest : L;
}.

(** [coll_make]: the owner of position [lk_pos] is [lk_pos % num_procs]. *)
Definition coll_make (lk_pos : Z) (lad0 : L) : qstate :=
  let owner := lk_pos mod num_procs in
  QState (λ p, if owner =? p then make_owned_lock_val else make_linked_lock_val owner)
    (λ _, lad0) (λ _, Idle) [] lad0.

Definition set_pc (p : Z) (c : pc) (s : qstate) : qstate :=
  QState (q_glk s) (q_lads s) (<[p := c]> (q_pc s)) (q_msgs s) (q_latest s).

Definition set_glk (p v : Z) (s : qstate) : qstate :=
  QState (<[p := v]> (q_glk s)) (q_lads s) (q_pc s) (q_msgs s) (q_latest s).

(** [rma.compare_and_swap]: the old value and the new state. *)
Definition compare_and_swap (p expected desired : Z) (s : qstate) : Z * qstate :=
  let old := q_glk s p in
  (old, if old =? expected then set_glk p desired s else s).

(** The part of [unlock_global] after the lock value is known. *)
Definition unlock_next (p link_val : Z) (lad : L) : pc :=
  match get_probable_owner_from_lock_val p link_val with
  | Ok next_proc => UnlockSend next_proc lad
  | Fail _ => Failed
  end.

(** The first message from [from] to [to], and the others. *)
Fixpoint take_message (from to : Z) (msgs : list message) : option (L * list message) :=
  match msgs with
  | [] => None
  | m :: msgs =>
      if (msg_from m =? from) && (msg_to m =? to) then Some (msg_lad m, msgs)
      else '(lad, msgs) ← take_message from to msgs; Some (lad, m :: msgs)
  end.

(** The next access of process [p]; [None] when it is idle, holds the lock, or
    waits for a message that has not arrived. *)
Definition proc_step (p : Z) (s : qstate) : option qstate :=
  match q_pc s p with
  | Idle | Holding _ _ | Failed => None
  | LoadLocal =>
      let link_val := q_glk s p in
      if link_val =? make_locked_lock_val then Some (set_pc p Failed s)
      else if link_val =? make_owned_lock_val then Some (set_pc p CasOwn s)
      else Some (set_pc p (SetLocked link_val) s)
  | CasOwn =>
      let '(cas_result, s) :=
        compare_and_swap p make_owned_lock_val make_locked_lock_val s in
      if cas_result =? make_owned_lock_val then Some (set_pc p (ReadLad p) s)
      else Some (set_pc p (SetLocked cas_result) s)
  | SetLocked link_val =>
      Some (set_pc p (CasOwned p link_val) (set_glk p make_locked_lock_val s))
  | CasOwned proc link_val =>
      match get_probable_owner_from_lock_val proc link_val with
      | Fail _ => Some (set_pc p Failed s)
      | Ok proc =>
          let '(link_val, s) :=
            compare_and_swap proc make_owned_lock_val (make_linked_lock_val p) s in
          if link_val =? make_owned_lock_val then Some (set_pc p (ReadLad proc) s)
          else if link_val =? make_locked_lock_val then Some (set_pc p (CasLocked proc) s)
          else Some (set_pc p (CasOwned proc link_val) s)
      end
  | CasLocked proc =>
      let '(link_val, s) :=
        compare_and_swap proc make_locked_lock_val (make_linked_lock_val p) s in
      if link_val =? make_locked_lock_val then
        if proc =? p then Some (set_pc p Failed s) else Some (set_pc p (Receive proc) s)
      else Some (set_pc p (CasOwned proc link_val) s)
  | Receive proc =>
      '(lad, msgs) ← take_message proc p (q_msgs s);
      Some (set_pc p (Holding proc lad)
              (QState (q_glk s) (q_lads s) (q_pc s) msgs (q_latest s)))
  | ReadLad proc => Some (set_pc p (Holding proc (q_lads s proc)) s)
  | UnlockLoad lad =>
      let link_val := q_glk s p in
      if link_val =? make_owned_lock_val then Some (set_pc p Failed s)
      else
        let s := QState (q_glk s) (<[p := lad]> (q_lads s)) (q_pc s) (q_msgs s) lad in
        if link_val =? make_locked_lock_val then Some (set_pc p (UnlockCas lad) s)
        else Some (set_pc p (unlock_next p link_val lad) s)
  | UnlockCas lad =>
      let '(cas_result, s) :=
        compare_and_swap p make_locked_lock_val make_owned_lock_val s in
      if cas_result =? make_locked_lock_val then Some (set_pc p Idle s)
      else Some (set_pc p (unlock_next p cas_result lad) s)
  | UnlockSend next_proc lad =>
      Some (set_pc p Idle (QState (q_glk s) (q_lads s) (q_pc s)
              (q_msgs s ++ [Message p next_proc lad]) (q_latest s)))
  end.

(** A process calls [lock_global], makes its next access, or calls
    [unlock_global]. *)
Inductive event := CallLock (p : Z) | Step (p : Z) | CallUnlock (p : Z) (lad : L).

Definition event_proc (e : event) : Z :=
  match e with CallLock p | Step p | CallUnlock p _ => p end.

Definition qstep (e : event) (s : qstate) : option qstate :=
  let p := event_proc e in
  if negb ((0 <=? p) && (p <? num_procs)) then None else
  match e with
  | CallLock _ => match q_pc s p with Idle => Some (set_pc p LoadLocal s) | _ => None end
  | Step _ => proc_step p s
  | CallUnlock _ lad =>
      match q_pc s p with Holding _ _ => Some (set_pc p (UnlockLoad lad) s) | _ => None end
  end.

(** [check_owned]; the assertion fails while this process locks. *)
Definition check_owned (p : Z) (s : qstate) : result bool :=
  let lock_val := q_glk s p in
  _ ← assert_ (negb (lock_val =? make_locked_lock_val));
  Ok (lock_val =? make_owned_lock_val).

Inductive reachable (lk_pos : Z) (lad0 : L) : qstate → Prop :=
| reachable_init : reachable lk_pos lad0 (coll_make lk_pos lad0)
| reachable_step e s s' :
    reachable lk_pos lad0 s → qstep e s = Some s' → reachable lk_pos lad0 s'.

Fixpoint run (es : list event) (s : qstate) : option qstate :=
  match es with
  | [] => Some s
  | e :: es => s' ← qstep e s; run es s'
  end.

Lemma run_reachable lk_pos lad0 es s s' :
  reachable lk_pos lad0 s → run es s = Some s' → reachable lk_pos lad0 s'.
Proof.
  revert s. induction es as [|e es IH]; intros s Hs E; cbn in E; [by simplify_eq|].
  destruct (qstep e s) as [s1|] eqn:E1; [|done]. apply (IH s1); [|done].
  by eapply reachable_step.
Qed.

(** * The invariant *)
Definition in_range (p : Z) : Prop := 0 ≤ p < num_procs.

(** The process holds the lock or is about to (or just did) release it. *)
Definition has_token (c : pc) : bool :=
  match c with
  | ReadLad _ | Holding _ _ | UnlockLoad _ | UnlockCas _ | UnlockSend _ _ => true
  | _ => false
  end.

(** The process is in a lock session: its lock value is "locked", or links to
    the process waiting behind it. *)
Definition active (c : pc) : bool :=
  match c with
  | Idle | LoadLocal | CasOwn | SetLocked _ | Failed => false
  | _ => true
  end.

Definition is_receive (c : pc) : bool := match c with Receive _ => true | _ => false end.

(** Where the lock is: free at a process, with a process, or in a message. *)
Inductive location := AtRest (p : Z) | With (p : Z) | Flying (from to : Z).

(** The process [CasOwned] will look at next. *)
Definition target (proc link_val : Z) : Z := if link_val <=? 2 then proc else link_val - 3.

Definition lock_val_ok (v : Z) : Prop := v = 1 ∨ v = 2 ∨ in_range (v - 3).

Definition succ_ok (s : qstate) (p : Z) : Prop :=
  q_glk s p = 2 ∨ ∃ x, in_range x ∧ q_glk s p = x + 3 ∧ q_pc s x = Receive p.

Definition pc_inv (s : qstate) (p : Z) (c : pc) : Prop :=
  match c with
  | Idle | LoadLocal | CasOwn => q_glk s p ≠ 2
  | SetLocked lv => q_glk s p = lv ∧ 3 ≤ lv
  | CasOwned proc lv => succ_ok s p ∧ in_range proc ∧ lock_val_ok lv
  | CasLocked proc | Receive proc | ReadLad proc => succ_ok s p ∧ in_range proc
  | Holding _ _ | UnlockLoad _ | UnlockCas _ => succ_ok s p
  | UnlockSend x _ => q_glk s p = x + 3 ∧ in_range x ∧ q_pc s x = Receive p
  | Failed => False
  end.

(** The data the holder of the lock has, or will read. *)
Definition data_inv (s : qstate) (p : Z) (c : pc) : Prop :=
  match c with
  | ReadLad r => q_lads s r = q_latest s
  | Holding _ lad => lad = q_latest s
  | UnlockCas lad | UnlockSend _ lad => lad = q_latest s ∧ q_lads s p = q_latest s
  | _ => True
  end.

Definition loc_inv (s : qstate) (loc : location) : Prop :=
  match loc with
  | AtRest t => in_range t ∧ q_lads s t = q_latest s ∧ q_msgs s = []
  | With t => in_range t ∧ data_inv s t (q_pc s t) ∧ q_msgs s = []
  | Flying f t => in_range f ∧ in_range t ∧ q_pc s t = Receive f
      ∧ ¬ (active (q_pc s f) = true ∧ q_glk s f = t + 3)
      ∧ q_msgs s = [Message f t (q_latest s)]
  end.

(** The graph of probable owners: one edge per link, and one from every
    process that follows links to the process it looks at next. *)
Definition edge_of (s : qstate) (l : Z * bool) : option (Z * Z) :=
  let p := l.1 in
  if l.2 : bool then
    match q_pc s p with
    | CasOwned proc lv => Some (p, target proc lv)
    | CasLocked proc => Some (p, proc)
    | _ => None
    end
  else if 3 <=? q_glk s p then Some (p, q_glk s p - 3) else None.

Definition labels : list (Z * bool) :=
  ((λ p, (p, false)) <$> seqZ 0 num_procs) ++ ((λ p, (p, true)) <$> seqZ 0 num_procs).

Definition forest (s : qstate) : Prop := acyclic (label_edges (edge_of s) labels).

Record q_inv (s : qstate) (loc : location) : Prop := {
  qi_range : ∀ p, in_range p → lock_val_ok (q_glk s p);
  qi_pc : ∀ p, in_range p → pc_inv s p (q_pc s p);
  qi_recv : ∀ p x, in_range p → in_range x → q_pc s x = Receive p →
    loc = Flying p x ∨ (active (q_pc s p) = true ∧ q_glk s p = x + 3);
  qi_rest : ∀ p, in_range p → q_glk s p = 1 ↔ loc = AtRest p;
  qi_token : ∀ p, in_range p → has_token (q_pc s p) = true ↔ loc = With p;
  qi_loc : loc_inv s loc;
  qi_forest : forest s;
}.

Lemma labels_in p b : (p, b) ∈ labels ↔ in_range p.
Proof.
  unfold labels, in_range. rewrite elem_of_app, !list_elem_of_fmap. split.
  - intros [(q & [= -> ->] & H)|(q & [= -> ->] & H)]; apply elem_of_seqZ in H; lia.
  - intros H. destruct b; [right|left]; exists p; (split; [done|]); apply elem_of_seqZ; lia.
Qed.

Lemma labels_nodup : NoDup labels.
Proof.
  unfold labels. apply NoDup_app. split_and!.
  - apply NoDup_fmap; [by intros ?? [=]|apply NoDup_seqZ].
  - intros x (q & -> & _)%list_elem_of_fmap (q' & [=] & _)%list_elem_of_fmap.
  - apply NoDup_fmap; [by intros ?? [=]|apply NoDup_seqZ].
Qed.

(** ** Frames *)
Lemma pc_inv_frame s s' q :
  q_glk s' q = q_glk s q → q_pc s' q = q_pc s q →
  (active (q_pc s q) = true → ∀ x, in_range x → q_glk s q = x + 3 →
     q_pc s x = Receive q → q_pc s' x = Receive q) →
  pc_inv s q (q_pc s q) → pc_inv s' q (q_pc s' q).
Proof.
  intros Hg Hp Hr. rewrite Hp. unfold pc_inv, succ_ok. rewrite Hg.
  destruct (q_pc s q); cbn in Hr; naive_solver.
Qed.

Lemma forest_same s s' :
  (∀ p, in_range p → edge_of s' (p, false) = edge_of s (p, false)) →
  (∀ p, in_range p → edge_of s' (p, true) = edge_of s (p, true)) →
  forest s → forest s'.
Proof.
  intros H1 H2. unfold forest. rewrite (label_edges_ext (edge_of s') (edge_of s)); [done|].
  intros [p b] Hp%labels_in. destruct b; auto.
Qed.

(** One edge moves along another. *)
Lemma forest_one s s' p b e e' :
  in_range p →
  (∀ q c, in_range q → (q, c) ≠ (p, b) → edge_of s' (q, c) = edge_of s (q, c)) →
  edge_of s (p, b) = Some e → edge_of s' (p, b) = e' →
  (∀ E, acyclic (e :: E) →
     (∀ q c d, in_range q → (q, c) ≠ (p, b) → edge_of s (q, c) = Some d → d ∈ E) →
     acyclic (option_list e' ++ E)) →
  forest s → forest s'.
Proof.
  intros Hp Hsame He He' Hstep. unfold forest.
  destruct (label_edges_one (edge_of s) (edge_of s') labels (p, b)) as (E & Hf & Hg & HE).
  { apply labels_nodup. }
  { by apply labels_in. }
  { intros [q c] Hq%labels_in Hne. symmetry. by apply Hsame. }
  rewrite Hf, Hg, He, He'. cbn [option_list app]. intros H. apply Hstep; [done|].
  intros q c d Hq Hne Hd. apply (HE (q, c)); [by apply labels_in|done|done].
Qed.

(** One edge disappears at one label and another appears at a second one. *)
Lemma forest_two s s' p1 b1 p2 b2 e1 e2 :
  in_range p1 → in_range p2 → (p1, b1) ≠ (p2, b2) →
  (∀ q c, in_range q → (q, c) ≠ (p1, b1) → (q, c) ≠ (p2, b2) →
     edge_of s' (q, c) = edge_of s (q, c)) →
  edge_of s (p1, b1) = Some e1 → edge_of s (p2, b2) = None →
  edge_of s' (p1, b1) = None → edge_of s' (p2, b2) = Some e2 →
  (∀ E, acyclic (e1 :: E) → acyclic (e2 :: E)) →
  forest s → forest s'.
Proof.
  intros Hp1 Hp2 Hne Hsame H1 H2 H1' H2' Hstep. unfold forest.
  destruct (label_edges_two (edge_of s) (edge_of s') labels (p1, b1) (p2, b2))
    as (E & Hf & Hg & _); try done.
  { apply labels_nodup. }
  { by apply labels_in. }
  { by apply labels_in. }
  { intros [q c] Hq%labels_in Hn1 Hn2. symmetry. by apply Hsame. }
  rewrite Hf, Hg, H1, H2, H1', H2'. cbn [option_list app]. apply Hstep.
Qed.

(** ** Steps that move only a program counter *)
Lemma set_pc_eq p c s : q_pc (set_pc p c s) p = c.
Proof. cbn. apply fn_lookup_insert. Qed.

Lemma set_pc_ne p q c s : q ≠ p → q_pc (set_pc p c s) q = q_pc s q.
Proof. intros H. cbn. by apply fn_lookup_insert_ne. Qed.

(** No one but [p] changes, and [p] does not wait before or after. *)
Lemma receive_same p c s x q :
  is_receive (q_pc s p) = false → is_receive c = false →
  q_pc (set_pc p c s) x = Receive q ↔ q_pc s x = Receive q.
Proof.
  intros H1 H2. destruct (decide (x = p)) as [->|Hne].
  - rewrite set_pc_eq. split; intros E; [by rewrite E in H2|by rewrite E in H1].
  - by rewrite set_pc_ne.
Qed.

Lemma pc_inv_receive s s' p c :
  q_glk s' p = q_glk s p → (∀ x q, q_pc s' x = Receive q ↔ q_pc s x = Receive q) →
  pc_inv s p c → pc_inv s' p c.
Proof.
  intros Hg Hr. unfold pc_inv, succ_ok. rewrite Hg.
  destruct c; naive_solver.
Qed.

Lemma inv_set_pc p c s loc :
  q_inv s loc → in_range p →
  is_receive (q_pc s p) = false → is_receive c = false →
  has_token c = has_token (q_pc s p) → active c = active (q_pc s p) →
  (has_token c = true → data_inv s p c) → pc_inv s p c → forest (set_pc p c s) →
  q_inv (set_pc p c s) loc.
Proof.
  intros [Hrg Hpc Hrv Hrest Htok Hloc Hf] Hp Hr1 Hr2 Ht Ha Hd Hc Hf'.
  assert (∀ x q, q_pc (set_pc p c s) x = Receive q ↔ q_pc s x = Receive q) as Hrs.
  { intros. by apply receive_same. }
  assert (∀ q, active (q_pc (set_pc p c s) q) = active (q_pc s q)) as Hact.
  { intros q. destruct (decide (q = p)) as [->|]; [by rewrite set_pc_eq|by rewrite set_pc_ne]. }
  assert (∀ q, has_token (q_pc (set_pc p c s) q) = has_token (q_pc s q)) as Htk.
  { intros q. destruct (decide (q = p)) as [->|]; [by rewrite set_pc_eq|by rewrite set_pc_ne]. }
  split; try done.
  - intros q Hq. destruct (decide (q = p)) as [->|Hne].
    + rewrite set_pc_eq. by apply (pc_inv_receive s).
    + apply (pc_inv_frame s); [done|by rewrite set_pc_ne| |by apply Hpc].
      intros _ x _ _ Hx. by apply Hrs.
  - intros q x Hq Hx E. rewrite Hact. apply Hrv; try done. by apply Hrs.
  - intros q Hq. rewrite Htk. by apply Htok.
  - destruct loc as [t|t|f t]; cbn [loc_inv] in *; try done.
    + destruct Hloc as (Ht1 & Ht2 & Ht3). split_and!; try done.
      destruct (decide (t = p)) as [->|Hne]; [|by rewrite set_pc_ne].
      rewrite set_pc_eq. apply Hd. rewrite Ht. by apply Htok.
    + rewrite Hrs, Hact. done.
Qed.

(** The graph does not change when neither the old nor the new position
    follows links. *)
Definition chasing (c : pc) : bool :=
  match c with CasOwned _ _ | CasLocked _ => true | _ => false end.

Lemma edge_not_chasing s p : chasing (q_pc s p) = false → edge_of s (p, true) = None.
Proof. unfold edge_of. cbn. by destruct (q_pc s p). Qed.

Lemma edge_glk s s' p : q_glk s' p = q_glk s p → edge_of s' (p, false) = edge_of s (p, false).
Proof. unfold edge_of. cbn. by intros ->. Qed.

Lemma edge_pc s s' p : q_pc s' p = q_pc s p → edge_of s' (p, true) = edge_of s (p, true).
Proof. unfold edge_of. cbn. by intros ->. Qed.

Lemma forest_set_pc p c s :
  chasing (q_pc s p) = false → chasing c = false → forest s → forest (set_pc p c s).
Proof.
  intros H1 H2. apply forest_same; intros q Hq; [by apply edge_glk|].
  destruct (decide (q = p)) as [->|Hne]; [|by apply edge_pc, set_pc_ne].
  rewrite !edge_not_chasing; [done|done|by rewrite set_pc_eq].
Qed.

(** A process that follows links moves to another target. *)
Lemma forest_chase p c s t t' :
  in_range p → edge_of s (p, true) = Some (p, t) → edge_of (set_pc p c s) (p, true) = Some (p, t') →
  t' = t ∨ (in_range t ∧ q_glk s t = t' + 3 ∧ 3 ≤ q_glk s t) →
  forest s → forest (set_pc p c s).
Proof.
  intros Hp He He' Ht. apply (forest_one _ _ p true (p, t) (Some (p, t'))); try done.
  { intros q b Hq Hne. destruct b; [|by apply edge_glk].
    apply edge_pc, set_pc_ne. by intros ->. }
  cbn [option_list app]. intros E HE Hin.
  destruct Ht as [->|(Htr & Hg & H3)]; [done|]. apply (acyclic_move _ t); [done|].
  apply (Hin t false); [done|done|]. unfold edge_of. cbn. rewrite (proj2 (Z.leb_le _ _)) by done.
  do 2 f_equal. lia.
Qed.

(** ** Steps that write a lock value *)

(** The edges after an update of one lock value and one program counter. *)
Lemma edge_update_ne s p c r v q b :
  (q, b) ≠ (p, true) → (q, b) ≠ (r, false) →
  edge_of (set_pc p c (set_glk r v s)) (q, b) = edge_of s (q, b).
Proof.
  intros H1 H2. destruct b.
  - apply edge_pc. rewrite set_pc_ne; [done|]. by intros ->.
  - apply edge_glk. cbn. apply fn_lookup_insert_ne. by intros ->.
Qed.

(** The own link becomes the first target. *)
Lemma inv_set_locked p lv s loc :
  q_inv s loc → in_range p → q_pc s p = SetLocked lv →
  q_inv (set_pc p (CasOwned p lv) (set_glk p make_locked_lock_val s)) loc.
Proof.
  intros [Hrg Hpc Hrv Hrest Htok Hloc Hf] Hp Ep.
  pose proof (Hpc p Hp) as Hcp. rewrite Ep in Hcp. destruct Hcp as [Hg H3].
  set (s' := set_pc p _ _).
  assert (q_pc s' p = CasOwned p lv) as Ep' by apply set_pc_eq.
  assert (∀ q, q ≠ p → q_pc s' q = q_pc s q) as Ene by (intros q Hqp; exact (set_pc_ne p q _ _ Hqp)).
  assert (q_glk s' p = 2) as Eg by (cbn; by rewrite fn_lookup_insert).
  assert (∀ q, q ≠ p → q_glk s' q = q_glk s q) as Egn by (intros; cbn; by apply fn_lookup_insert_ne).
  assert (∀ x q, q_pc s' x = Receive q ↔ q_pc s x = Receive q) as Hrs.
  { intros x q. destruct (decide (x = p)) as [->|]; [by rewrite Ep', Ep|by rewrite Ene]. }
  split.
  - intros q Hq. destruct (decide (q = p)) as [->|]; [right; left; done|rewrite Egn; auto].
  - intros q Hq. destruct (decide (q = p)) as [->|Hne].
    + rewrite Ep'. cbn. split; [by left|]. split; [done|]. rewrite <-Hg. by apply Hrg.
    + apply (pc_inv_frame s); [auto|auto|naive_solver|auto].
  - intros q x Hq Hx E. apply Hrs in E. destruct (Hrv q x Hq Hx E) as [|[Ha Hgq]]; [by left|].
    right. destruct (decide (q = p)) as [->|Hne]; [by rewrite Ep in Ha|].
    by rewrite Ene, Egn.
  - intros q Hq. rewrite <-Hrest by done.
    destruct (decide (q = p)) as [->|]; [|by rewrite Egn]. rewrite Eg, Hg. lia.
  - intros q Hq. rewrite <-Htok by done.
    destruct (decide (q = p)) as [->|]; [by rewrite Ep', Ep|by rewrite Ene].
  - destruct loc as [t|t|f t]; cbn [loc_inv] in *; try done.
    + destruct Hloc as (Ht & Hd & Hm). split_and!; try done.
      destruct (decide (t = p)) as [->|]; [by rewrite Ep'|by rewrite Ene].
    + destruct Hloc as (Hfr & Ht & Hpt & Hn & Hm). split_and!; try done; [by apply Hrs|].
      intros [Ha Hgf]. destruct (decide (f = p)) as [->|]; [unfold in_range in *; lia|].
      apply Hn. by rewrite <-(Ene f), <-(Egn f).
  - apply (forest_two s s' p false p true (p, lv - 3) (p, lv - 3)); try done.
    + intros q c Hq H1 H2. by apply edge_update_ne.
    + unfold edge_of. cbn. rewrite Hg. by rewrite (proj2 (Z.leb_le _ _)).
    + apply edge_not_chasing. by rewrite Ep.
    + unfold edge_of. cbn [fst snd]. by rewrite Eg.
    + unfold edge_of. cbn [fst snd]. rewrite Ep'. unfold target.
      by rewrite (proj2 (Z.leb_gt _ _)) by lia.
Qed.

(** The owner takes its own free lock. *)
Lemma inv_cas_own p s loc :
  q_inv s loc → in_range p → q_pc s p = CasOwn → q_glk s p = 1 →
  q_inv (set_pc p (ReadLad p) (set_glk p make_locked_lock_val s)) (With p).
Proof.
  intros [Hrg Hpc Hrv Hrest Htok Hloc Hf] Hp Ep Hg.
  set (s' := set_pc p _ _).
  assert (q_pc s' p = ReadLad p) as Ep' by apply set_pc_eq.
  assert (∀ q, q ≠ p → q_pc s' q = q_pc s q) as Ene by (intros q Hqp; exact (set_pc_ne p q _ _ Hqp)).
  assert (q_glk s' p = 2) as Eg by (cbn; by rewrite fn_lookup_insert).
  assert (∀ q, q ≠ p → q_glk s' q = q_glk s q) as Egn by (intros; cbn; by apply fn_lookup_insert_ne).
  assert (∀ x q, q_pc s' x = Receive q ↔ q_pc s x = Receive q) as Hrs.
  { intros x q. destruct (decide (x = p)) as [->|]; [by rewrite Ep', Ep|by rewrite Ene]. }
  apply (Hrest p Hp) in Hg as Hat. subst loc. destruct Hloc as (_ & Hd & Hm).
  split.
  - intros q Hq. destruct (decide (q = p)) as [->|]; [right; left; done|rewrite Egn; auto].
  - intros q Hq. destruct (decide (q = p)) as [->|Hne].
    + rewrite Ep'. cbn. split; [by left|done].
    + apply (pc_inv_frame s); [auto|auto|naive_solver|auto].
  - intros q x Hq Hx E. apply Hrs in E. destruct (Hrv q x Hq Hx E) as [|[Ha Hgq]]; [done|].
    right. destruct (decide (q = p)) as [->|Hne]; [by rewrite Ep in Ha|].
    by rewrite Ene, Egn.
  - intros q Hq. split; [|done]. intros H1. destruct (decide (q = p)) as [->|Hne]; [congruence|].
    rewrite Egn in H1 by done. apply Hrest in H1; [|done]. congruence.
  - intros q Hq. destruct (decide (q = p)) as [->|Hne]; [by rewrite Ep'|].
    rewrite Ene by done. rewrite Htok by done. split; [done|congruence].
  - cbn. unfold s'. cbn. rewrite fn_lookup_insert. done.
  - apply (forest_same s); [..|done]; intros q Hq.
    + destruct (decide (q = p)) as [->|Hne]; [|by apply edge_glk, Egn].
      unfold edge_of. cbn [fst snd]. by rewrite Eg, Hg.
    + destruct (decide (q = p)) as [->|Hne]; [|by apply edge_pc, Ene].
      rewrite !edge_not_chasing; [done|by rewrite Ep|by rewrite Ep'].
Qed.

(** A process that follows links takes the free lock of [r]. *)
Lemma inv_cas_remote p r s loc :
  q_inv s loc → in_range p → in_range r → edge_of s (p, true) = Some (p, r) →
  succ_ok s p → q_glk s r = 1 →
  q_inv (set_pc p (ReadLad r) (set_glk r (make_linked_lock_val p) s)) (With p).
Proof.
  intros [Hrg Hpc Hrv Hrest Htok Hloc Hf] Hp Hr He Hsucc Hg.
  assert (chasing (q_pc s p) = true) as Hch.
  { destruct (chasing (q_pc s p)) eqn:E; [done|]. by rewrite edge_not_chasing in He. }
  assert (r ≠ p) as Hrp.
  { intros ->. destruct Hsucc as [|(x & Hx & Hx' & _)]; unfold in_range in *; lia. }
  set (s' := set_pc p _ _).
  assert (q_pc s' p = ReadLad r) as Ep' by apply set_pc_eq.
  assert (∀ q, q ≠ p → q_pc s' q = q_pc s q) as Ene by (intros q Hqp; exact (set_pc_ne p q _ _ Hqp)).
  assert (q_glk s' r = p + 3) as Eg by (cbn; by rewrite fn_lookup_insert).
  assert (∀ q, q ≠ r → q_glk s' q = q_glk s q) as Egn by (intros; cbn; by apply fn_lookup_insert_ne).
  assert (∀ x q, q_pc s' x = Receive q ↔ q_pc s x = Receive q) as Hrs.
  { intros x q. destruct (decide (x = p)) as [->|]; [|by rewrite Ene].
    rewrite Ep'. destruct (q_pc s p); done. }
  assert (active (q_pc s r) = false) as Har.
  { destruct (active (q_pc s r)) eqn:E; [|done]. pose proof (Hpc r Hr) as Hcr.
    assert (succ_ok s r ∨ ∃ x, in_range x ∧ q_glk s r = x + 3) as Hs.
    { destruct (q_pc s r); cbn in Hcr; try done; naive_solver. }
    destruct Hs as [[|(x & Hx & Hx' & _)]|(x & Hx & Hx')]; unfold in_range in *; lia. }
  apply (Hrest r Hr) in Hg as Hat. subst loc. destruct Hloc as (_ & Hd & Hm).
  split.
  - intros q Hq. destruct (decide (q = r)) as [->|]; [|rewrite Egn; auto].
    right; right. rewrite Eg. unfold in_range in *. lia.
  - intros q Hq. destruct (decide (q = p)) as [->|Hne].
    + rewrite Ep'. cbn. split; [|done]. unfold succ_ok. rewrite Egn by done.
      destruct Hsucc as [|(x & Hx & Hgx & Hpx)]; [by left|right]. exists x. by rewrite Hrs.
    + destruct (decide (q = r)) as [->|Hnr].
      * rewrite Ene by done. pose proof (Hpc r Hr) as Hcr.
        destruct (q_pc s r) eqn:Er; cbn in Har; try done; cbn in *; try (unfold in_range in *; lia).
      * apply (pc_inv_frame s); [auto|auto|naive_solver|auto].
  - intros q x Hq Hx E. apply Hrs in E. destruct (Hrv q x Hq Hx E) as [|[Ha Hgq]]; [done|].
    right. destruct (decide (q = r)) as [->|Hnr]; [congruence|].
    rewrite Egn by done. split; [|done]. destruct (decide (q = p)) as [->|]; [by rewrite Ep'|by rewrite Ene].
  - intros q Hq. split; [|done]. intros H1.
    destruct (decide (q = r)) as [->|Hnr]; [rewrite Eg in H1; unfold in_range in *; lia|].
    rewrite Egn in H1 by done. apply Hrest in H1; [|done]. congruence.
  - intros q Hq. destruct (decide (q = p)) as [->|Hne]; [by rewrite Ep'|].
    rewrite Ene by done. rewrite Htok by done. split; [done|congruence].
  - cbn. unfold s'. cbn. rewrite fn_lookup_insert. done.
  - apply (forest_two s s' p true r false (p, r) (r, p)); try done.
    + intros q c Hq H1 H2. by apply edge_update_ne.
    + unfold edge_of. cbn. by rewrite Hg.
    + apply edge_not_chasing. by rewrite Ep'.
    + unfold edge_of. cbn [fst snd]. rewrite Eg. rewrite (proj2 (Z.leb_le _ _)) by (unfold in_range in *; lia).
      do 2 f_equal. lia.
    + intros E. apply acyclic_flip.
Qed.

(** A process that follows links becomes the successor of [r]. *)
Lemma inv_cas_locked p r s loc :
  q_inv s loc → in_range p → in_range r → edge_of s (p, true) = Some (p, r) →
  succ_ok s p → q_glk s r = 2 →
  r ≠ p ∧ q_inv (set_pc p (Receive r) (set_glk r (make_linked_lock_val p) s)) loc.
Proof.
  intros [Hrg Hpc Hrv Hrest Htok Hloc Hf] Hp Hr He Hsucc Hg.
  assert (chasing (q_pc s p) = true) as Hch.
  { destruct (chasing (q_pc s p)) eqn:E; [done|]. by rewrite edge_not_chasing in He. }
  assert (active (q_pc s r) = true) as Har.
  { pose proof (Hpc r Hr) as Hcr. destruct (q_pc s r); cbn in Hcr; try done; lia. }
  assert (r ≠ p) as Hrp.
  { intros ->. destruct (label_edges_one (edge_of s) (edge_of s) labels (p, true))
      as (E & Hperm & _); [apply labels_nodup|by apply labels_in|done|].
    unfold forest in Hf. rewrite Hperm, He in Hf. cbn [option_list app] in Hf.
    by apply acyclic_no_loop in Hf. }
  split; [done|]. set (s' := set_pc p _ _).
  assert (q_pc s' p = Receive r) as Ep' by apply set_pc_eq.
  assert (∀ q, q ≠ p → q_pc s' q = q_pc s q) as Ene by (intros q Hqp; exact (set_pc_ne p q _ _ Hqp)).
  assert (q_glk s' r = p + 3) as Eg by (cbn; by rewrite fn_lookup_insert).
  assert (∀ q, q ≠ r → q_glk s' q = q_glk s q) as Egn by (intros; cbn; by apply fn_lookup_insert_ne).
  assert (∀ x q, q_pc s x = Receive q → x ≠ p ∧ q_pc s' x = Receive q) as Hrs.
  { intros x q Hx. assert (x ≠ p) by (intros ->; by rewrite Hx in Hch). by rewrite Ene. }
  assert (∀ q, active (q_pc s' q) = active (q_pc s q)) as Hact.
  { intros q. destruct (decide (q = p)) as [->|]; [rewrite Ep'|by rewrite Ene].
    by destruct (q_pc s p). }
  split.
  - intros q Hq. destruct (decide (q = r)) as [->|]; [|rewrite Egn; auto].
    right; right. rewrite Eg. unfold in_range in *. lia.
  - intros q Hq. destruct (decide (q = p)) as [->|Hne].
    + rewrite Ep'. cbn. split; [|done]. unfold succ_ok. rewrite Egn by done.
      destruct Hsucc as [|(x & Hx & Hgx & Hpx)]; [by left|right]. exists x.
      by destruct (Hrs x p Hpx).
    + destruct (decide (q = r)) as [->|Hnr].
      * rewrite Ene by done. pose proof (Hpc r Hr) as Hcr.
        assert (succ_ok s' r) as Hsr by (right; exists p; rewrite Eg, Ep'; done).
        destruct (q_pc s r); cbn in Har, Hcr |- *; try done;
          try (by split; [done|apply Hcr]). unfold in_range in *; lia.
      * apply (pc_inv_frame s); [auto|auto| |auto]. intros _ x _ _ Hx. by apply Hrs.
  - intros q x Hq Hx E. destruct (decide (x = p)) as [->|Hxp].
    + rewrite Ep' in E. injection E as <-. right. by rewrite Hact, Eg.
    + rewrite Ene in E by done. destruct (Hrv q x Hq Hx E) as [|[Ha Hgq]]; [by left|right].
      rewrite Hact. destruct (decide (q = r)) as [->|]; [unfold in_range in *; lia|].
      by rewrite Egn.
  - intros q Hq. rewrite <-Hrest by done.
    destruct (decide (q = r)) as [->|]; [|by rewrite Egn].
    rewrite Eg, Hg. unfold in_range in *. lia.
  - intros q Hq. rewrite <-Htok by done.
    destruct (decide (q = p)) as [->|]; [rewrite Ep'|by rewrite Ene]. by destruct (q_pc s p).
  - destruct loc as [t|t|f t]; cbn [loc_inv] in *; try done.
    + destruct Hloc as (Ht & Hd & Hm). split_and!; try done.
      destruct (decide (t = p)) as [->|]; [by rewrite Ep'|by rewrite Ene].
    + destruct Hloc as (Hfr & Ht & Hpt & Hn & Hm). split_and!; try done; [by apply Hrs|].
      rewrite Hact. intros [Ha Hgf]. destruct (Hrs t f Hpt) as [Htp _].
      destruct (decide (f = r)) as [->|]; [unfold in_range in *; lia|].
      apply Hn. by rewrite <-(Egn f).
  - apply (forest_two s s' p true r false (p, r) (r, p)); try done.
    + intros q c Hq H1 H2. by apply edge_update_ne.
    + unfold edge_of. cbn. by rewrite Hg.
    + apply edge_not_chasing. by rewrite Ep'.
    + unfold edge_of. cbn [fst snd]. rewrite Eg. rewrite (proj2 (Z.leb_le _ _)) by (unfold in_range in *; lia).
      do 2 f_equal. lia.
    + intros E. apply acyclic_flip.
Qed.

(** The message arrives. *)
Lemma take_message_single f t lad from to r :
  take_message from to [Message f t lad] = Some r → r = (lad, []) ∧ f = from ∧ t = to.
Proof.
  cbn. destruct (Z.eqb_spec f from), (Z.eqb_spec t to); cbn; intros E; by simplify_eq.
Qed.

Lemma inv_receive p f s loc lad msgs :
  q_inv s loc → in_range p → q_pc s p = Receive f →
  take_message f p (q_msgs s) = Some (lad, msgs) →
  q_inv (set_pc p (Holding f lad) (QState (q_glk s) (q_lads s) (q_pc s) msgs (q_latest s))) (With p).
Proof.
  intros [Hrg Hpc Hrv Hrest Htok Hloc Hf] Hp Ep E.
  destruct loc as [t|t|f' t]; cbn [loc_inv] in Hloc;
    [by rewrite (proj2 (proj2 Hloc)) in E|by rewrite (proj2 (proj2 Hloc)) in E|].
  destruct Hloc as (Hfr & Ht & Hpt & Hn & Hm). rewrite Hm in E.
  apply take_message_single in E as ([= -> ->] & -> & ->).
  set (s' := set_pc p _ _).
  assert (q_pc s' p = Holding f (q_latest s)) as Ep' by apply set_pc_eq.
  assert (∀ q, q ≠ p → q_pc s' q = q_pc s q) as Ene by (intros q Hqp; exact (set_pc_ne p q _ _ Hqp)).
  split; try done.
  - intros q Hq. destruct (decide (q = p)) as [->|Hne].
    + rewrite Ep'. pose proof (Hpc p Hp) as Hcp. rewrite Ep in Hcp. destruct Hcp as [Hs _].
      cbn. destruct Hs as [|(x & Hx & Hgx & Hpx)]; [by left|right]. exists x.
      rewrite Ene; [done|]. intros ->. rewrite Ep in Hpx. injection Hpx as ->.
      apply Hn. split; [by rewrite Ep|done].
    + apply (pc_inv_frame s); [done|auto| |auto]. intros Ha x Hx Hgx Hpx.
      destruct (decide (x = p)) as [->|]; [|by rewrite Ene].
      rewrite Ep in Hpx. injection Hpx as ->. by destruct Hn.
  - intros q x Hq Hx Ex. destruct (decide (x = p)) as [->|Hxp]; [by rewrite Ep' in Ex|].
    rewrite Ene in Ex by done. destruct (Hrv q x Hq Hx Ex) as [[= -> ->]|[Ha Hgq]]; [done|right].
    destruct (decide (q = p)) as [->|]; [by rewrite Ep'|by rewrite Ene].
  - intros q Hq. split; [|done]. intros Hg. by apply Hrest in Hg.
  - intros q Hq. destruct (decide (q = p)) as [->|Hne]; [by rewrite Ep'|].
    rewrite Ene by done. rewrite Htok by done. split; [done|congruence].
  - cbn. unfold s'. cbn. by rewrite fn_lookup_insert.
  - apply (forest_same s); [..|done]; intros q Hq; [by apply edge_glk|].
    destruct (decide (q = p)) as [->|Hne]; [|by apply edge_pc, Ene].
    rewrite !edge_not_chasing; [done|by rewrite Ep|by rewrite Ep'].
Qed.

(** ** Releasing *)
Lemma unlock_next_linked p x lad : in_range x → unlock_next p (x + 3) lad = UnlockSend x lad.
Proof.
  unfold in_range. intros H. unfold unlock_next, get_probable_owner_from_lock_val.
  rewrite (proj2 (Z.eqb_neq _ _)) by lia. cbn.
  rewrite (proj2 (Z.leb_gt _ _)) by lia. f_equal. lia.
Qed.

(** The data is stored; the state before a program counter moves. *)
Lemma inv_store_lad p lad c s loc :
  q_inv s loc → in_range p → q_pc s p = UnlockLoad lad →
  has_token c = true → active c = true → is_receive c = false → chasing c = false →
  pc_inv s p c →
  (∀ s', q_latest s' = lad → q_lads s' p = lad → data_inv s' p c) →
  q_inv (set_pc p c (QState (q_glk s) (<[p := lad]> (q_lads s)) (q_pc s) (q_msgs s) lad)) loc.
Proof.
  intros [Hrg Hpc Hrv Hrest Htok Hloc Hf] Hp Ep Ht Ha Hr Hch Hc Hd.
  assert (loc = With p) as -> by (apply Htok; [done|by rewrite Ep]).
  destruct Hloc as (_ & _ & Hm). set (s' := set_pc p c _).
  assert (q_pc s' p = c) as Ep' by apply set_pc_eq.
  assert (∀ q, q ≠ p → q_pc s' q = q_pc s q) as Ene by (intros q Hqp; exact (set_pc_ne p q _ _ Hqp)).
  assert (∀ x q, q_pc s' x = Receive q ↔ q_pc s x = Receive q) as Hrs.
  { intros x q. destruct (decide (x = p)) as [->|]; [|by rewrite Ene].
    rewrite Ep', Ep. split; [|done]. intros ->. done. }
  split; try done.
  - intros q Hq. destruct (decide (q = p)) as [->|Hne].
    + rewrite Ep'. by apply (pc_inv_receive s).
    + apply (pc_inv_frame s); [done|auto| |auto]. intros _ x _ _ Hx. by apply Hrs.
  - intros q x Hq Hx E. apply Hrs in E. destruct (Hrv q x Hq Hx E) as [|[Haq Hg]]; [by left|right].
    split; [|done]. destruct (decide (q = p)) as [->|]; [by rewrite Ep'|by rewrite Ene].
  - intros q Hq. rewrite <-Htok by done.
    destruct (decide (q = p)) as [->|]; [by rewrite Ep', Ep, Ht|by rewrite Ene].
  - cbn [loc_inv]. rewrite Ep'. split_and!; try done. apply Hd; [done|].
    cbn. apply fn_lookup_insert.
  - apply (forest_same s); [..|done]; intros q Hq; [by apply edge_glk|].
    destruct (decide (q = p)) as [->|Hne]; [|by apply edge_pc, Ene].
    rewrite !edge_not_chasing; [done|by rewrite Ep|by rewrite Ep'].
Qed.

(** The lock becomes free. *)
Lemma inv_unlock_cas p lad s loc :
  q_inv s loc → in_range p → q_pc s p = UnlockCas lad → q_glk s p = 2 →
  q_inv (set_pc p Idle (set_glk p make_owned_lock_val s)) (AtRest p).
Proof.
  intros [Hrg Hpc Hrv Hrest Htok Hloc Hf] Hp Ep Hg.
  assert (loc = With p) as -> by (apply Htok; [done|by rewrite Ep]).
  destruct Hloc as (_ & Hd & Hm). rewrite Ep in Hd. destruct Hd as [-> Hlad].
  set (s' := set_pc p Idle _).
  assert (q_pc s' p = Idle) as Ep' by apply set_pc_eq.
  assert (∀ q, q ≠ p → q_pc s' q = q_pc s q) as Ene by (intros q Hqp; exact (set_pc_ne p q _ _ Hqp)).
  assert (q_glk s' p = 1) as Eg by (cbn; by rewrite fn_lookup_insert).
  assert (∀ q, q ≠ p → q_glk s' q = q_glk s q) as Egn by (intros; cbn; by apply fn_lookup_insert_ne).
  assert (∀ x q, q_pc s' x = Receive q ↔ q_pc s x = Receive q) as Hrs.
  { intros x q. destruct (decide (x = p)) as [->|]; [by rewrite Ep', Ep|by rewrite Ene]. }
  split.
  - intros q Hq. destruct (decide (q = p)) as [->|]; [by left|rewrite Egn; auto].
  - intros q Hq. destruct (decide (q = p)) as [->|Hne]; [rewrite Ep'; cbn [pc_inv]; lia|].
    apply (pc_inv_frame s); [auto|auto|naive_solver|auto].
  - intros q x Hq Hx E. apply Hrs in E. destruct (Hrv q x Hq Hx E) as [|[Ha Hgq]]; [done|right].
    destruct (decide (q = p)) as [->|Hne]; [unfold in_range in *; lia|]. by rewrite Ene, Egn.
  - intros q Hq. destruct (decide (q = p)) as [->|Hne]; [by rewrite Eg|].
    rewrite Egn by done. rewrite Hrest by done. split; [done|congruence].
  - intros q Hq. destruct (decide (q = p)) as [->|Hne]; [by rewrite Ep'|].
    rewrite Ene by done. rewrite Htok by done. split; [congruence|done].
  - done.
  - apply (forest_same s); [..|done]; intros q Hq.
    + destruct (decide (q = p)) as [->|Hne]; [|by apply edge_glk, Egn].
      unfold edge_of. cbn [fst snd]. by rewrite Eg, Hg.
    + destruct (decide (q = p)) as [->|Hne]; [|by apply edge_pc, Ene].
      rewrite !edge_not_chasing; [done|by rewrite Ep|by rewrite Ep'].
Qed.

(** The lock is sent to the successor. *)
Lemma inv_unlock_send p x lad s loc :
  q_inv s loc → in_range p → q_pc s p = UnlockSend x lad →
  q_inv (set_pc p Idle (QState (q_glk s) (q_lads s) (q_pc s)
           (q_msgs s ++ [Message p x lad]) (q_latest s))) (Flying p x).
Proof.
  intros [Hrg Hpc Hrv Hrest Htok Hloc Hf] Hp Ep.
  assert (loc = With p) as -> by (apply Htok; [done|by rewrite Ep]).
  destruct Hloc as (_ & Hd & Hm). rewrite Ep in Hd. destruct Hd as [-> Hlad].
  pose proof (Hpc p Hp) as Hcp. rewrite Ep in Hcp. destruct Hcp as (Hg & Hx & Hpx).
  set (s' := set_pc p Idle _).
  assert (q_pc s' p = Idle) as Ep' by apply set_pc_eq.
  assert (∀ q, q ≠ p → q_pc s' q = q_pc s q) as Ene by (intros q Hqp; exact (set_pc_ne p q _ _ Hqp)).
  assert (∀ y q, q_pc s' y = Receive q ↔ q_pc s y = Receive q) as Hrs.
  { intros y q. destruct (decide (y = p)) as [->|]; [by rewrite Ep', Ep|by rewrite Ene]. }
  split; try done.
  - intros q Hq. destruct (decide (q = p)) as [->|Hne].
    + rewrite Ep'. cbn. rewrite Hg. unfold in_range in Hx. lia.
    + apply (pc_inv_frame s); [auto|auto|naive_solver|auto].
  - intros q y Hq Hy E. apply Hrs in E. destruct (Hrv q y Hq Hy E) as [|[Ha Hgq]]; [done|].
    destruct (decide (q = p)) as [->|Hne].
    + left. f_equal. lia.
    + right. by rewrite Ene.
  - intros q Hq. change (q_glk s' q) with (q_glk s q). rewrite Hrest by done. split; done.
  - intros q Hq. destruct (decide (q = p)) as [->|Hne]; [by rewrite Ep'|].
    rewrite Ene by done. rewrite Htok by done. split; [congruence|done].
  - cbn [loc_inv]. split; [done|]. split; [done|]. split; [by apply Hrs|].
    split; [by rewrite Ep'; intros []|]. cbn. by rewrite Hm.
  - apply (forest_same s); [..|done]; intros q Hq; [by apply edge_glk|].
    destruct (decide (q = p)) as [->|Hne]; [|by apply edge_pc, Ene].
    rewrite !edge_not_chasing; [done|by rewrite Ep|by rewrite Ep'].
Qed.

(** ** Every step *)

Lemma lock_val_ok_target proc lv :
  lock_val_ok lv → in_range proc →
  get_probable_owner_from_lock_val proc lv = Ok (target proc lv) ∧ in_range (target proc lv).
Proof.
  intros Hv Hp. unfold get_probable_owner_from_lock_val, target.
  assert (lv ≠ 0) as Hn by (destruct Hv as [|[|]]; unfold in_range in *; lia).
  rewrite (proj2 (Z.eqb_neq _ _)) by done. split; [done|].
  destruct (Z.leb_spec lv 2); [done|]. destruct Hv as [|[|]]; unfold in_range in *; lia || done.
Qed.

(** The moves of a process that follows links. *)
Lemma inv_chase p c s loc t t' :
  q_inv s loc → in_range p → chasing (q_pc s p) = true → chasing c = true →
  pc_inv s p c → edge_of s (p, true) = Some (p, t) →
  edge_of (set_pc p c s) (p, true) = Some (p, t') →
  t' = t ∨ (in_range t ∧ q_glk s t = t' + 3 ∧ 3 ≤ q_glk s t) →
  q_inv (set_pc p c s) loc.
Proof.
  intros Hinv Hp Hch Hch' Hc He He' Ht.
  apply inv_set_pc; try done.
  - by destruct (q_pc s p).
  - by destruct c.
  - destruct (q_pc s p); try done; by destruct c.
  - destruct (q_pc s p); try done; by destruct c.
  - by destruct c.
  - eapply forest_chase; [done|exact He|exact He'|done|]. apply (qi_forest _ _ Hinv).
Qed.

(** Moves between positions that do not follow links. *)
Lemma inv_move p c s loc :
  q_inv s loc → in_range p → is_receive (q_pc s p) = false → is_receive c = false →
  chasing (q_pc s p) = false → chasing c = false →
  has_token c = has_token (q_pc s p) → active c = active (q_pc s p) →
  (has_token c = true → data_inv s p c) → pc_inv s p c → q_inv (set_pc p c s) loc.
Proof.
  intros Hinv Hp Hr Hr' Hch Hch' Ht Ha Hd Hc. apply inv_set_pc; try done.
  apply forest_set_pc; [done|done|apply (qi_forest _ _ Hinv)].
Qed.

Lemma load_local_inv p s loc :
  q_inv s loc → in_range p → q_pc s p = LoadLocal ∨ q_pc s p = CasOwn → q_glk s p ≠ 1 →
  q_inv (set_pc p (SetLocked (q_glk s p)) s) loc.
Proof.
  intros Hinv Hp Ep Hg. assert (q_glk s p ≠ 2) as Hg2.
  { pose proof (qi_pc _ _ Hinv p Hp) as Hcp. by destruct Ep as [Ep|Ep]; rewrite Ep in Hcp. }
  apply inv_move; try done; try (by destruct Ep as [-> | ->]).
  split; [done|]. destruct (qi_range _ _ Hinv p Hp) as [|[|]]; unfold in_range in *; lia.
Qed.

Lemma cas_owned_inv p proc lv s s' loc :
  q_inv s loc → in_range p → q_pc s p = CasOwned proc lv → proc_step p s = Some s' →
  ∃ loc', q_inv s' loc'.
Proof.
  intros Hinv Hp Ep E. pose proof (qi_pc _ _ Hinv p Hp) as Hcp. rewrite Ep in Hcp.
  destruct Hcp as (Hs & Hr & Hv). destruct (lock_val_ok_target proc lv Hv Hr) as [Ht Htr].
  unfold proc_step in E. rewrite Ep, Ht in E. set (t := target proc lv) in *.
  unfold compare_and_swap in E. unfold make_owned_lock_val, make_locked_lock_val in E.
  assert (edge_of s (p, true) = Some (p, t)) as He by (unfold edge_of; cbn; by rewrite Ep).
  destruct (Z.eqb_spec (q_glk s t) 1) as [H1|H1].
  { injection E as <-. exists (With p). by eapply inv_cas_remote. }
  assert (lock_val_ok (q_glk s t)) as Hvt by by apply (qi_range _ _ Hinv).
  destruct (Z.eqb_spec (q_glk s t) 2) as [H2|H2]; injection E as <-; exists loc.
  - eapply (inv_chase _ _ _ _ t t); try done; [by rewrite Ep| |by left].
    unfold edge_of. cbn [fst snd]. by rewrite set_pc_eq.
  - eapply (inv_chase _ _ _ _ t (q_glk s t - 3)); try done; [by rewrite Ep| |].
    + unfold edge_of. cbn [fst snd]. rewrite set_pc_eq. unfold target.
      rewrite (proj2 (Z.leb_gt _ _)); [done|]. destruct Hvt as [|[|]]; unfold in_range in *; lia.
    + right. split; [done|]. destruct Hvt as [|[|]]; unfold in_range in *; lia.
Qed.

Lemma cas_locked_inv p r s s' loc :
  q_inv s loc → in_range p → q_pc s p = CasLocked r → proc_step p s = Some s' →
  ∃ loc', q_inv s' loc'.
Proof.
  intros Hinv Hp Ep E. pose proof (qi_pc _ _ Hinv p Hp) as Hcp. rewrite Ep in Hcp.
  destruct Hcp as (Hs & Hr).
  unfold proc_step in E. rewrite Ep in E.
  unfold compare_and_swap in E. unfold make_owned_lock_val, make_locked_lock_val in E.
  assert (edge_of s (p, true) = Some (p, r)) as He by (unfold edge_of; cbn; by rewrite Ep).
  destruct (Z.eqb_spec (q_glk s r) 2) as [H2|H2].
  { destruct (inv_cas_locked p r s loc) as [Hne Hi]; try done.
    rewrite (proj2 (Z.eqb_neq _ _)) in E by done. injection E as <-. by exists loc. }
  injection E as <-. exists loc.
  assert (lock_val_ok (q_glk s r)) as Hvr by by apply (qi_range _ _ Hinv).
  eapply (inv_chase _ _ _ _ r (target r (q_glk s r))); try done; [by rewrite Ep| |].
  - unfold edge_of. cbn [fst snd]. by rewrite set_pc_eq.
  - unfold target. destruct (Z.leb_spec (q_glk s r) 2); [by left|right].
    split; [done|]. lia.
Qed.

Lemma unlock_inv p s s' loc lad :
  q_inv s loc → in_range p → q_pc s p = UnlockLoad lad ∨ q_pc s p = UnlockCas lad →
  proc_step p s = Some s' → ∃ loc', q_inv s' loc'.
Proof.
  intros Hinv Hp Ep E.
  assert (succ_ok s p) as Hs.
  { pose proof (qi_pc _ _ Hinv p Hp) as Hcp. by destruct Ep as [Ep|Ep]; rewrite Ep in Hcp. }
  unfold proc_step, compare_and_swap, make_owned_lock_val, make_locked_lock_val in E.
  destruct Ep as [Ep|Ep]; rewrite Ep in E; destruct Hs as [Hg|(x & Hx & Hg & Hpx)]; rewrite Hg in E.
  - cbn in E. injection E as <-. exists loc. apply inv_store_lad; try done; [by left|].
    cbn. naive_solver.
  - rewrite (proj2 (Z.eqb_neq _ _)) in E by (unfold in_range in *; lia).
    rewrite (proj2 (Z.eqb_neq _ _)) in E by (unfold in_range in *; lia).
    rewrite unlock_next_linked in E by done. injection E as <-. exists loc.
    apply inv_store_lad; try done. cbn. naive_solver.
  - cbn in E. injection E as <-. exists (AtRest p). by eapply inv_unlock_cas.
  - rewrite (proj2 (Z.eqb_neq _ _)) in E by (unfold in_range in *; lia).
    rewrite unlock_next_linked in E by done. injection E as <-. exists loc.
    apply inv_move; rewrite ?Ep; try done. intros _.
    assert (loc = With p) as -> by (apply (qi_token _ _ Hinv); [done|by rewrite Ep]).
    pose proof (qi_loc _ _ Hinv) as (_ & Hd & _). by rewrite Ep in Hd.
Qed.

Lemma proc_step_inv p s s' loc :
  q_inv s loc → in_range p → proc_step p s = Some s' → ∃ loc', q_inv s' loc'.
Proof.
  intros Hinv Hp E. pose proof (qi_pc _ _ Hinv p Hp) as Hcp.
  destruct (q_pc s p) as [| | |lv|proc lv|proc|proc|proc|o lad|lad|lad|x lad|] eqn:Ep.
  all: try exact (cas_owned_inv p proc lv s s' loc Hinv Hp Ep E).
  all: try exact (cas_locked_inv p proc s s' loc Hinv Hp Ep E).
  all: try exact (unlock_inv p s s' loc lad Hinv Hp (or_introl Ep) E).
  all: try exact (unlock_inv p s s' loc lad Hinv Hp (or_intror Ep) E).
  all: unfold proc_step in E; rewrite Ep in E; try done.
  - unfold make_owned_lock_val, make_locked_lock_val in E. cbn in Hcp.
    rewrite (proj2 (Z.eqb_neq _ _)) in E by done.
    destruct (Z.eqb_spec (q_glk s p) 1) as [H1|H1]; injection E as <-; exists loc.
    + by apply inv_move; rewrite ?Ep.
    + apply load_local_inv; auto.
  - unfold compare_and_swap, make_owned_lock_val in E.
    destruct (Z.eqb_spec (q_glk s p) 1) as [H1|H1]; injection E as <-.
    + exists (With p). by eapply inv_cas_own.
    + exists loc. apply load_local_inv; auto.
  - injection E as <-. exists loc. by apply inv_set_locked.
  - destruct (take_message proc p (q_msgs s)) as [[lad msgs]|] eqn:Em; [|done].
    injection E as <-. exists (With p). by eapply inv_receive.
  - injection E as <-. exists loc.
    assert (loc = With p) as -> by (apply (qi_token _ _ Hinv); [done|by rewrite Ep]).
    pose proof (qi_loc _ _ Hinv) as (_ & Hd & _). rewrite Ep in Hd.
    apply inv_move; rewrite ?Ep; try done. apply Hcp.
  - injection E as <-. exists (Flying p x). by eapply inv_unlock_send.
Qed.

Lemma qstep_inv e s s' loc : q_inv s loc → qstep e s = Some s' → ∃ loc', q_inv s' loc'.
Proof.
  intros Hinv E. unfold qstep in E.
  destruct (negb _) eqn:Hr; [done|]. apply negb_false_iff in Hr. bool_to_prop.
  assert (in_range (event_proc e)) as Hp by done.
  destruct e as [p|p|p lad]; cbn [event_proc] in *.
  - destruct (q_pc s p) eqn:Ep; try done. injection E as <-. exists loc.
    pose proof (qi_pc _ _ Hinv p Hp) as Hcp. rewrite Ep in Hcp.
    by apply inv_move; rewrite ?Ep.
  - by eapply proc_step_inv.
  - destruct (q_pc s p) eqn:Ep; try done. injection E as <-. exists loc.
    pose proof (qi_pc _ _ Hinv p Hp) as Hcp. rewrite Ep in Hcp.
    by apply inv_move; rewrite ?Ep.
Qed.

(** ** The start *)
Lemma coll_make_glk lk_pos lad0 p :
  q_glk (coll_make lk_pos lad0) p = if lk_pos mod num_procs =? p then 1 else lk_pos mod num_procs + 3.
Proof. done. Qed.

Lemma coll_make_edges lk_pos lad0 :
  0 < num_procs → let owner := lk_pos mod num_procs in
  label_edges (edge_of (coll_make lk_pos lad0)) labels
  = (λ x, (x, owner)) <$> filter (λ p, p ≠ owner) (seqZ 0 num_procs).
Proof.
  intros Hn owner. pose proof (Z.mod_pos_bound lk_pos num_procs Hn) as Ho. fold owner in Ho.
  unfold label_edges, labels. rewrite omap_app.
  assert (∀ l, omap (edge_of (coll_make lk_pos lad0)) ((λ p, (p, true)) <$> l) = []) as ->.
  { intros l. induction l; done. }
  rewrite app_nil_r. generalize (seqZ 0 num_procs). intros l.
  induction l as [|p l IH]; [done|]. cbn [fmap list_fmap omap list_omap].
  rewrite IH, filter_cons. unfold edge_of at 1. cbn [fst snd].
  rewrite coll_make_glk. fold owner. destruct (Z.eqb_spec owner p) as [->|Hne].
  - rewrite decide_False by auto. done.
  - rewrite decide_True by auto. rewrite (proj2 (Z.leb_le _ _)) by lia.
    cbn. do 3 f_equal. lia.
Qed.

Lemma coll_make_inv lk_pos lad0 :
  0 < num_procs → q_inv (coll_make lk_pos lad0) (AtRest (lk_pos mod num_procs)).
Proof.
  intros Hn. pose proof (Z.mod_pos_bound lk_pos num_procs Hn) as Ho.
  split; cbn [q_pc coll_make]; try done.
  - intros p Hp. rewrite coll_make_glk. destruct (_ =? p); [by left|right; right].
    unfold in_range. lia.
  - intros p Hp. cbn [pc_inv]. rewrite coll_make_glk. destruct (_ =? p); lia.
  - intros p Hp. rewrite coll_make_glk. destruct (Z.eqb_spec (lk_pos mod num_procs) p) as [->|Hne].
    + done.
    + split; [lia|]. by intros [= ?].
  - unfold forest. rewrite coll_make_edges by done. apply acyclic_star.
    + apply NoDup_filter, NoDup_seqZ.
    + rewrite list_elem_of_filter. by intros [? _].
Qed.

Lemma q_reachable_inv lk_pos lad0 s :
  0 < num_procs → reachable lk_pos lad0 s → ∃ loc, q_inv s loc.
Proof.
  intros Hn. induction 1 as [|e s s' _ [loc IH] E]; [eexists; by apply coll_make_inv|].
  by eapply qstep_inv.
Qed.

(** * Theorems *)

(** C13: mutual exclusion and hand-over: in every reachable state, whatever
    the interleaving of the processes' accesses, at most one process is
    between acquiring and releasing the lock, a process that holds it has the
    data passed to the latest [unlock_global], the lock is free only where no
    one holds it, and no assertion of the source fails (in particular no
    process ever waits for itself). *)
Theorem queue_lock_safe lk_pos lad0 s (Hn : 0 < num_procs) (Hr : reachable lk_pos lad0 s) :
  (∀ p q, in_range p → in_range q → has_token (q_pc s p) = true →
     has_token (q_pc s q) = true → p = q)
  ∧ (∀ p owner lad, in_range p → q_pc s p = Holding owner lad → lad = q_latest s)
  ∧ (∀ p q, in_range p → in_range q → q_glk s p = make_owned_lock_val →
       has_token (q_pc s q) = false ∧ (q_glk s q = make_owned_lock_val → p = q))
  ∧ (∀ p, in_range p → q_pc s p ≠ Failed).
Proof.
  destruct (q_reachable_inv lk_pos lad0 s Hn Hr) as [loc Hinv]. split_and!.
  - intros p q Hp Hq H1 H2. apply (qi_token _ _ Hinv) in H1, H2; [|done..]. congruence.
  - intros p o lad Hp Ep.
    assert (loc = With p) as -> by (apply (qi_token _ _ Hinv); [done|by rewrite Ep]).
    pose proof (qi_loc _ _ Hinv) as (_ & Hd & _). by rewrite Ep in Hd.
  - intros p q Hp Hq Hg. apply (qi_rest _ _ Hinv p Hp) in Hg as ->. split.
    + destruct (has_token (q_pc s q)) eqn:E; [|done]. by apply (qi_token _ _ Hinv) in E.
    + intros Hgq. apply (qi_rest _ _ Hinv q Hq) in Hgq. congruence.
  - intros p Hp Ep. pose proof (qi_pc _ _ Hinv p Hp) as Hc. by rewrite Ep in Hc.
Qed.

(** ** Deadlock freedom *)

(** The process can make its next access, or holds the lock (and will call
    [unlock_global]). *)
Definition can_act (s : qstate) (p : Z) : bool :=
  match q_pc s p with
  | Idle | Failed => false
  | Receive proc => bool_decide (is_Some (take_message proc p (q_msgs s)))
  | _ => true
  end.

Lemma can_act_step s p :
  can_act s p = true →
  is_Some (proc_step p s) ∨ ∃ owner lad, q_pc s p = Holding owner lad.
Proof.
  unfold can_act, proc_step, compare_and_swap. destruct (q_pc s p); try done; intros H.
  all: try (by left; repeat case_match; eauto).
  - left. apply bool_decide_eq_true in H as [[lad msgs] ->]. cbn. eauto.
  - right. eauto.
Qed.

(** A chain of waiting processes, the newest first. *)
Fixpoint wait_chain (s : qstate) (l : list Z) : Prop :=
  match l with
  | x :: (y :: _) as l' => q_pc s y = Receive x ∧ wait_chain s l'
  | _ => True
  end.

Section waiting.
Context (s : qstate) (loc : location) (Hinv : q_inv s loc).
Context (Hstuck : ∀ p, in_range p → can_act s p = false).

(** When no one can act the lock is free, so a process that waits is linked
    from the one it waits for, which waits too. *)
Lemma stuck_wait x p : in_range p → in_range x → q_pc s x = Receive p →
  q_glk s p = x + 3 ∧ ∃ r, q_pc s p = Receive r ∧ in_range r.
Proof using Hinv Hstuck.
  intros Hp Hx Ex.
  destruct (qi_recv _ _ Hinv p x Hp Hx Ex) as [->|[Ha Hg]].
  - pose proof (qi_loc _ _ Hinv) as (_ & _ & _ & _ & Hm). pose proof (Hstuck x Hx) as Hs.
    unfold can_act in Hs. rewrite Ex, Hm in Hs. cbn in Hs. by rewrite !Z.eqb_refl in Hs.
  - split; [done|]. pose proof (Hstuck p Hp) as Hs. pose proof (qi_pc _ _ Hinv p Hp) as Hc.
    unfold can_act in Hs. destruct (q_pc s p) as [| | |lv|pr lv|pr|r|pr|o l|l|l|y l|]; try done.
    exists r. split; [done|]. apply Hc.
Qed.

Lemma chain_conn E x l r :
  wait_chain s (x :: l ++ [r]) → Forall in_range (x :: l ++ [r]) →
  (∀ y z, in_range y → y ≠ r → edge_of s (y, false) = Some (y, z) → (y, z) ∈ E) →
  r ∉ x :: l → conn E x r.
Proof using Hinv Hstuck.
  intros Hc Hin HE. revert x Hc Hin. induction l as [|y l IH]; intros x Hc Hin Hr;
    cbn in Hc; cbn [app] in Hin.
  - destruct Hc as [Hw _]. apply Forall_cons in Hin as [Hx Hin]. apply Forall_cons in Hin as [Hrr _].
    apply conn_edge, HE; [done|intros ->; apply Hr; by left|].
    destruct (stuck_wait r x Hx Hrr Hw) as [Hg _]. unfold edge_of. cbn [fst snd].
    rewrite Hg, (proj2 (Z.leb_le _ _)) by (unfold in_range in *; lia). do 2 f_equal. lia.
  - destruct Hc as [Hw Hc]. apply Forall_cons in Hin as [Hx Hin].
    apply not_elem_of_cons in Hr as [Hrx Hr]. apply (conn_trans _ _ y); [|by apply IH].
    apply conn_edge, HE; [done|by intros ->|].
    apply Forall_cons in Hin as [Hy _].
    destruct (stuck_wait y x Hx Hy Hw) as [Hg _]. unfold edge_of. cbn [fst snd].
    rewrite Hg, (proj2 (Z.leb_le _ _)) by (unfold in_range in *; lia). do 2 f_equal. lia.
Qed.

(** The chain never comes back to one of its processes. *)
Lemma chain_no_cycle x l r :
  wait_chain s (r :: x :: l) → Forall in_range (r :: x :: l) → NoDup (x :: l) → r ∉ x :: l.
Proof using Hinv Hstuck.
  intros Hc Hin Hnd Hr.
  destruct Hc as [Hw Hc]. apply Forall_cons in Hin as [Hrr Hin].
  apply Forall_cons in Hin as Hin'. destruct Hin' as [Hx _].
  destruct (stuck_wait x r Hrr Hx Hw) as [Hg _].
  destruct (label_edges_one (edge_of s) (edge_of s) labels (r, false)) as (E & Hp & _ & HE);
    [apply labels_nodup|by apply labels_in|done|].
  assert (edge_of s (r, false) = Some (r, x)) as He.
  { unfold edge_of. cbn [fst snd].
    rewrite Hg, (proj2 (Z.leb_le _ _)) by (unfold in_range in *; lia). do 2 f_equal. lia. }
  rewrite He in Hp. cbn [option_list app] in Hp.
  pose proof (qi_forest _ _ Hinv) as Hf. unfold forest in Hf. rewrite Hp in Hf.
  apply elem_of_cons in Hr as [->|Hr]; [by apply acyclic_no_loop in Hf|].
  apply list_elem_of_split in Hr as (l1 & l2 & ->).
  destruct Hf as [Hn _]. apply Hn, conn_sym. apply (chain_conn E x l1 r).
  - clear -Hc. revert x Hc. induction l1 as [|y l1 IH]; intros x Hc; cbn in *; [tauto|].
    destruct Hc as [H Hc]. split; [done|]. by apply IH.
  - change (x :: l1 ++ r :: l2) with ((x :: l1) ++ r :: l2) in Hin.
    rewrite (cons_middle r (x :: l1) l2), app_assoc in Hin.
    by apply Forall_app in Hin as [? _].
  - intros y z Hy Hne Hyz. apply (HE (y, false)); [by apply labels_in|congruence|done].
  - change (x :: l1 ++ r :: l2) with ((x :: l1) ++ r :: l2) in Hnd.
    apply NoDup_app in Hnd as (_ & Hd & _). intros Hin1. apply (Hd r Hin1). by left.
Qed.

Lemma chain_grows k x p : in_range x → in_range p → q_pc s x = Receive p →
  ∃ y l, length l = k ∧ NoDup (y :: l) ∧ Forall in_range (y :: l) ∧ wait_chain s (y :: l)
    ∧ ∃ r, q_pc s y = Receive r ∧ in_range r.
Proof using Hinv Hstuck.
  intros Hx Hp Ex. induction k as [|k (y & l & Hl & Hnd & Hin & Hc & r & Ey & Hr)].
  - exists x, []. split_and!; try done; [apply NoDup_singleton|by constructor|eauto].
  - apply Forall_cons in Hin as Hin'. destruct Hin' as [Hy _].
    exists r, (y :: l). split; [cbn; congruence|].
    assert (wait_chain s (r :: y :: l)) as Hc' by done.
    assert (Forall in_range (r :: y :: l)) as Hin' by by constructor.
    split; [constructor; [by apply chain_no_cycle|done]|]. split; [done|]. split; [done|].
    by destruct (stuck_wait y r Hr Hy Ey) as [_ ?].
Qed.

(** So no one waits. *)
Lemma stuck_no_wait x p : in_range x → in_range p → q_pc s x = Receive p → False.
Proof using Hinv Hstuck.
  intros Hx Hp Ex.
  destruct (chain_grows (Z.to_nat num_procs) x p Hx Hp Ex) as (y & l & Hl & Hnd & Hin & _).
  assert (length (y :: l) ≤ length (seqZ 0 num_procs))%nat as Hlen.
  { apply submseteq_length, NoDup_submseteq; [done|]. intros z Hz.
    rewrite Forall_forall in Hin. specialize (Hin z Hz). apply elem_of_seqZ.
    unfold in_range in Hin. lia. }
  rewrite length_seqZ in Hlen. cbn in Hlen. lia.
Qed.
End waiting.

(** C36: deadlock freedom: in every reachable state in which some process has
    called [lock_global] or [unlock_global] or holds the lock, some process
    can make its next access or holds the lock. (The processes that wait for
    one another never form a cycle, because the graph of probable owners stays
    a forest.) *)
Theorem queue_lock_progress lk_pos lad0 s p (Hn : 0 < num_procs)
    (Hr : reachable lk_pos lad0 s) (Hp : in_range p) (Hpc : q_pc s p ≠ Idle) :
  ∃ q, in_range q ∧ (is_Some (proc_step q s) ∨ ∃ owner lad, q_pc s q = Holding owner lad).
Proof.
  destruct (q_reachable_inv lk_pos lad0 s Hn Hr) as [loc Hinv].
  destruct (existsb (can_act s) (seqZ 0 num_procs)) eqn:E.
  { apply existsb_exists in E as (q & Hq & Ha). apply list_elem_of_In, elem_of_seqZ in Hq.
    exists q. split; [unfold in_range; lia|]. by apply can_act_step. }
  exfalso. assert (∀ q, in_range q → can_act s q = false) as Hstuck.
  { intros q Hq. destruct (can_act s q) eqn:Eq; [|done].
    assert (existsb (can_act s) (seqZ 0 num_procs) = true); [|congruence].
    apply existsb_exists. exists q. split; [|done]. apply list_elem_of_In, elem_of_seqZ.
    unfold in_range in Hq. lia. }
  pose proof (qi_pc _ _ Hinv p Hp) as Hc. pose proof (Hstuck p Hp) as Hs. unfold can_act in Hs.
  destruct (q_pc s p) as [| | |lv|pr lv|pr|r|pr|o l|l|l|y l|] eqn:Ep; try done.
  destruct Hc as [_ Hrr]. by apply (stuck_no_wait s loc Hinv Hstuck p r).
Qed.
End queue_lock.
Arguments pc L : clear implicits.
Arguments qstate L : clear implicits.
Arguments event L : clear implicits.

(** * A concrete run of three processes on position 0: process 1 takes the
    free lock of process 0, process 2 queues behind it, process 1 releases with
    the data 7. *)
Definition demo_lock : list (event Z) :=
  [CallLock 1; Step 1; Step 1; Step 1; Step 1;
   CallLock 2; Step 2; Step 2; Step 2; Step 2; Step 2].
Definition demo_unlock : list (event Z) :=
  [CallUnlock 1 7; Step 1; Step 1; Step 2].

Definition demo_waiting : qstate Z :=
  default (coll_make 3 0 5) (run 3 demo_lock (coll_make 3 0 5)).
Definition demo_handed : qstate Z :=
  default (coll_make 3 0 5) (run 3 demo_unlock demo_waiting).

Lemma run_default es s0 s :
  reachable 3 0 5 s → reachable 3 0 5 s0 → reachable 3 0 5 (default s0 (run 3 es s)).
Proof.
  intros Hs H0. destruct (run 3 es s) as [s'|] eqn:E; [exact (run_reachable 3 0 5 es s s' Hs E)|exact H0].
Qed.

Lemma demo_waiting_reachable : reachable 3 0 5 demo_waiting.
Proof. apply run_default; constructor. Qed.

Lemma demo_handed_reachable : reachable 3 0 5 demo_handed.
Proof. apply run_default; [apply demo_waiting_reachable|constructor]. Qed.

Lemma queue_lock_safe_witness :
  q_pc demo_handed 2 = Holding 1 7 ∧ 7 = q_latest demo_handed.
Proof.
  assert (q_pc demo_handed 2 = Holding 1 7) as E by (vm_compute; reflexivity).
  split; [exact E|].
  exact (proj1 (proj2 (queue_lock_safe 3 0 5 demo_handed ltac:(lia) demo_handed_reachable))
    2 1 7 ltac:(split; lia) E).
Defined.

Lemma queue_lock_progress_witness :
  q_pc demo_waiting 2 = Receive 1
  ∧ ∃ q, in_range 3 q ∧ (is_Some (proc_step q demo_waiting)
                         ∨ ∃ owner lad, q_pc demo_waiting q = Holding owner lad).
Proof.
  split; [vm_compute; reflexivity|].
  apply (queue_lock_progress 3 0 5 demo_waiting 2 ltac:(lia) demo_waiting_reachable
    ltac:(split; lia)). vm_compute. congruence.
Defined.
