(* ===== verification/FixedLock.v ===== *)
(** The lock table of the builds without migration: fixed_lock_table.hpp of
    medsm2/dsm. Position [lk_pos] lives at process [lk_pos % num_procs]; a
    process spins on a compare-and-swap of the lock word there, reads the
    lock-attached data, and releases by writing the data and then zero.

    The steps of [lock_global] and [unlock_global] on one position are an
    executable transition system like that of QueueLock.v, with one program
    counter value per remote access. *)
From Stdlib Require Import ZArith Lia.
From stdpp Require Import base tactics functions list.
From S2P Require Import Prelude.
From S2P Require Import Policy.

(** * Where a lock is *)
Record fixed_table := FixedTable {
  ft_num_lks : Z;
  ft_num_lks_per_proc : Z;
  ft_lad_size : Z;
}.

Definition fixed_coll_make (num_procs num_lks lad_size : Z) : fixed_table :=
  FixedTable num_lks (roundup_divide num_lks num_procs) lad_size.

(** The process, the index of its lock word, and the offset of the data
    (a null pointer, here [None], without data). *)
Definition get_lock_location (ft : fixed_table) (num_procs lk_pos : Z) : Z * Z * option Z :=
  let lk_idx := lk_pos / num_procs in
  let proc_id := lk_pos mod num_procs in
  (proc_id, lk_idx, if 0 <? ft_lad_size ft then Some (lk_idx * ft_lad_size ft) else None).

(** Every lock position has a place of its own: the location is inside
    the buffers [coll_make] allocated, different positions never share a lock
    word, and the data of two positions of a process never overlaps. *)
Theorem get_lock_location_spec num_procs num_lks lad_size lk_pos
    (Hn : 0 < num_procs) (Hs : num_lks + num_procs < u64_mod) (Hp : 0 ≤ lk_pos < num_lks)
    (Hl : 0 < lad_size) :
  let ft := fixed_coll_make num_procs num_lks lad_size in
  ∃ proc idx off, get_lock_location ft num_procs lk_pos = (proc, idx, Some off)
    ∧ 0 ≤ proc < num_procs ∧ 0 ≤ idx < ft_num_lks_per_proc ft
    ∧ 0 ≤ off ∧ off + lad_size ≤ ft_num_lks_per_proc ft * lad_size
    ∧ ∀ lk_pos' proc' idx' off', 0 ≤ lk_pos' < num_lks → lk_pos' ≠ lk_pos →
        get_lock_location ft num_procs lk_pos' = (proc', idx', Some off') →
        (proc', idx') ≠ (proc, idx)
        ∧ (proc' = proc → off' + lad_size ≤ off ∨ off + lad_size ≤ off').
Proof.
  unfold get_lock_location. cbn [ft_lad_size ft_num_lks_per_proc fixed_coll_make].
  rewrite (proj2 (Z.ltb_lt 0 lad_size)) by done.
  pose proof (roundup_divide_spec num_lks num_procs ltac:(lia) Hn Hs) as Hr. cbn zeta in Hr.
  set (per := roundup_divide num_lks num_procs) in *.
  pose proof (Z.div_mod lk_pos num_procs ltac:(lia)) as Hd.
  pose proof (Z.mod_pos_bound lk_pos num_procs Hn) as Hm.
  assert (0 ≤ lk_pos / num_procs < per) as Hi.
  { split; [apply Z.div_pos; lia|]. apply Z.div_lt_upper_bound; [done|]. nia. }
  eexists _, _, _. split; [done|]. split_and!; try lia; try nia.
  intros lk_pos' proc' idx' off' Hp' Hne [= <- <- <-].
  pose proof (Z.div_mod lk_pos' num_procs ltac:(lia)) as Hd'.
  assert (lk_pos' mod num_procs = lk_pos mod num_procs →
    lk_pos' / num_procs ≠ lk_pos / num_procs) as Hinj.
  { intros E1 E2. apply Hne. rewrite Hd', Hd, E1, E2. done. }
  split; [intros [= E1 E2]; by apply Hinj|]. intros E. specialize (Hinj E).
  destruct (Z.lt_ge_cases (lk_pos' / num_procs) (lk_pos / num_procs)); [left|right]; nia.
Qed.

Lemma get_lock_location_witness :
  get_lock_location (fixed_coll_make 3 10 24) 3 7 = (1, 2, Some 48)
  ∧ ∃ proc idx off, get_lock_location (fixed_coll_make 3 10 24) 3 7 = (proc, idx, Some off)
    ∧ 0 ≤ idx < 4.
Proof.
  split; [reflexivity|].
  destruct (get_lock_location_spec 3 10 24 7 ltac:(lia) ltac:(vm_compute; done) ltac:(lia)
    ltac:(lia)) as (proc & idx & off & E & _ & Hi & _).
  exists proc, idx, off. split; [exact E|exact Hi].
Defined.

(** * The lock protocol of one position *)
Section fixed_lock.
Context {L : Type}.

Inductive fpc :=
| FIdle
| FCas                  (** CAS the lock word from 0 to 1; again when it fails *)
| FReadLad              (** read the data *)
| FHolding (lad : L)
| FWriteLad (lad : L)   (** unlock_global: write the data *)
| FClear.               (** write zero to the lock word *)

Record fstate := FState { f_lock : Z; f_lad : L; f_pc : Z → fpc; f_latest : L }.

Definition f_init (lad0 : L) : fstate := FState 0 lad0 (λ _, FIdle) lad0.

Inductive fevent := FCallLock (p : Z) | FStep (p : Z) | FCallUnlock (p : Z) (lad : L).

Definition fset_pc (p : Z) (c : fpc) (s : fstate) : fstate :=
  FState (f_lock s) (f_lad s) (<[p := c]> (f_pc s)) (f_latest s).

Definition fstep (e : fevent) (s : fstate) : option fstate :=
  match e with
  | FCallLock p => match f_pc s p with FIdle => Some (fset_pc p FCas s) | _ => None end
  | FCallUnlock p lad =>
      match f_pc s p with FHolding _ => Some (fset_pc p (FWriteLad lad) s) | _ => None end
  | FStep p =>
      match f_pc s p with
      | FIdle | FHolding _ => None
      | FCas =>
          let expected := 0 in let desired := 1 in
          let cas_result := f_lock s in
          if cas_result =? expected
          then Some (fset_pc p FReadLad (FState desired (f_lad s) (f_pc s) (f_latest s)))
          else Some s
      | FReadLad => Some (fset_pc p (FHolding (f_lad s)) s)
      | FWriteLad lad => Some (fset_pc p FClear (FState (f_lock s) lad (f_pc s) lad))
      | FClear => Some (fset_pc p FIdle (FState 0 (f_lad s) (f_pc s) (f_latest s)))
      end
  end.

Inductive freachable (lad0 : L) : fstate → Prop :=
| freachable_init : freachable lad0 (f_init lad0)
| freachable_step e s s' : freachable lad0 s → fstep e s = Some s' → freachable lad0 s'.

Definition holds (c : fpc) : bool :=
  match c with FReadLad | FHolding _ | FWriteLad _ | FClear => true | _ => false end.

Record f_inv (s : fstate) : Prop := {
  fi_one : ∀ p q, holds (f_pc s p) = true → holds (f_pc s q) = true → p = q;
  fi_locked : f_lock s = 0 ∨ f_lock s = 1;
  fi_busy : f_lock s = 1 ↔ ∃ p, holds (f_pc s p) = true;
  fi_lad : f_lad s = f_latest s;
  fi_held : ∀ p lad, f_pc s p = FHolding lad → lad = f_latest s;
}.

(** The effect of a step on the lock word and on who holds the lock. *)
Lemma f_inv_update s p c lk lad :
  f_inv s →
  (lk = 0 ∨ lk = 1) →
  (holds c = true → ∀ q, q ≠ p → holds (f_pc s q) = false) →
  (lk = 1 ↔ holds c = true ∨ ∃ q, q ≠ p ∧ holds (f_pc s q) = true) →
  (∀ l, c = FHolding l → l = lad) →
  (lad = f_latest s ∨ ∀ q, q ≠ p → holds (f_pc s q) = false) →
  f_inv (FState lk lad (<[p := c]> (f_pc s)) lad).
Proof.
  intros [Hone Hv Hb Hl Hh] Hlk Hc Hbusy Hc' Hlad. split; cbn; try done.
  - intros a b. destruct (decide (a = p)) as [->|Ha], (decide (b = p)) as [->|Hb'];
      rewrite ?fn_lookup_insert, ?fn_lookup_insert_ne by done; try done; intros H1 H2.
    + by rewrite (Hc H1 b) in H2.
    + by rewrite (Hc H2 a) in H1.
    + by apply Hone.
  - rewrite Hbusy. split.
    + intros [H|(q & Hq & H)]; [exists p|exists q]; by rewrite ?fn_lookup_insert, ?fn_lookup_insert_ne.
    + intros [q H]. destruct (decide (q = p)) as [->|Hq].
      * rewrite fn_lookup_insert in H. by left.
      * rewrite fn_lookup_insert_ne in H by done. right. by exists q.
  - intros q l. destruct (decide (q = p)) as [->|Hq].
    + rewrite fn_lookup_insert. apply Hc'.
    + rewrite fn_lookup_insert_ne by done. intros E. destruct Hlad as [->|Hno]; [by eapply Hh|].
      specialize (Hno q Hq). by rewrite E in Hno.
Qed.

Lemma f_step_inv e s s' : f_inv s → fstep e s = Some s' → f_inv s'.
Proof.
  intros Hinv E. pose proof Hinv as [Hone Hv Hb Hl Hh].
  assert (∀ p q, holds (f_pc s p) = true → q ≠ p → holds (f_pc s q) = false) as Hex.
  { intros p q Hp Hq. destruct (holds (f_pc s q)) eqn:Eq; [|done]. by destruct Hq; apply Hone. }
  (* a program counter moves and the process holds the lock before iff after *)
  assert (∀ p c, holds c = holds (f_pc s p) → (∀ l, c = FHolding l → l = f_latest s) →
    f_inv (fset_pc p c s)) as Hmove.
  { intros p c Hc Hc'. unfold fset_pc. rewrite Hl.
    apply f_inv_update; try done; [intros H q Hq; apply (Hex p); congruence| |by left].
    rewrite Hb. split.
    - intros [q Hq]. destruct (decide (q = p)) as [->|]; [left; congruence|right; eauto].
    - intros [H|(q & _ & Hq)]; [exists p; congruence|eauto]. }
  destruct e as [p|p|p lad]; cbn in E; destruct (f_pc s p) eqn:Ep; try done.
  - injection E as <-. apply Hmove; by rewrite ?Ep.
  - destruct (Z.eqb_spec (f_lock s) 0) as [H0|H0]; injection E as <-; [|done].
    assert (∀ q, holds (f_pc s q) = false) as Hno.
    { intros q. destruct (holds (f_pc s q)) eqn:Eq; [|done].
      assert (f_lock s = 1) by (apply Hb; eauto). lia. }
    unfold fset_pc. cbn. rewrite Hl. apply f_inv_update; try done; [by right| |by left].
    split; [by left|done].
  - injection E as <-. apply Hmove; [by rewrite Ep|]. intros l [= <-]. done.
  - injection E as <-. assert (holds (f_pc s p) = true) as Hp by by rewrite Ep.
    unfold fset_pc. cbn. apply f_inv_update; try done.
    + intros _ q. by apply Hex.
    + split; [by left|intros _]. apply Hb. eauto.
    + right. intros q. by apply Hex.
  - injection E as <-. assert (holds (f_pc s p) = true) as Hp by by rewrite Ep.
    unfold fset_pc. cbn. rewrite Hl. apply f_inv_update; try done; [by left| |by left].
    split; [done|]. intros [?|(q & Hq & Hh')]; [done|]. by rewrite (Hex p) in Hh'.
  - injection E as <-. apply Hmove; by rewrite ?Ep.
Qed.

(** Mutual exclusion, hand-over and progress of the fixed lock: in every
    reachable state at most one process is between acquiring and releasing, a
    process that holds the lock has the data of the latest release, and when
    nobody holds the lock the next attempt to take it succeeds. *)
Theorem fixed_lock_safe lad0 s (Hr : freachable lad0 s) :
  (∀ p q, holds (f_pc s p) = true → holds (f_pc s q) = true → p = q)
  ∧ (∀ p lad, f_pc s p = FHolding lad → lad = f_latest s)
  ∧ ((∀ p, holds (f_pc s p) = false) → ∀ p, f_pc s p = FCas →
       ∃ s', fstep (FStep p) s = Some s' ∧ f_pc s' p = FReadLad).
Proof.
  assert (f_inv s) as [Hone Hv Hb Hl Hh].
  { induction Hr as [|e s s' _ IH E]; [|by eapply f_step_inv].
    split; cbn; try done; [by left|]. split; [done|by intros []]. }
  split; [done|]. split; [done|]. intros Hno p Ep. cbn. rewrite Ep.
  destruct (Z.eqb_spec (f_lock s) 0) as [H0|H0].
  - eexists. split; [done|]. cbn. by rewrite fn_lookup_insert.
  - destruct Hv as [|H1]; [done|]. apply Hb in H1 as [q Hq]. by rewrite Hno in Hq.
Qed.
End fixed_lock.
Arguments fpc L : clear implicits.
Arguments fstate L : clear implicits.
Arguments fevent L : clear implicits.

Lemma fixed_lock_safe_witness :
  ∃ s : fstate Z, freachable 5 s ∧ f_pc s 1 = FHolding 5 ∧ 5 = f_latest s.
Proof.
  pose (s1 := fset_pc 1 FCas (f_init 5)).
  pose (s2 := fset_pc 1 FReadLad (FState 1 5 (f_pc s1) 5)).
  pose (s3 := fset_pc 1 (FHolding 5) s2).
  assert (freachable 5 s3) as Hr.
  { apply (freachable_step 5 (FStep 1) s2); [|reflexivity].
    apply (freachable_step 5 (FStep 1) s1); [|reflexivity].
    apply (freachable_step 5 (FCallLock 1) (f_init 5)); [constructor|reflexivity]. }
  exists s3. split; [exact Hr|]. split; [reflexivity|].
  exact (proj1 (proj2 (fixed_lock_safe 5 s3 Hr)) 1 5 eq_refl).
Defined.
