(* ===== verification/BlkLock.v ===== *)
(** The global lock of a block: blk_lock_table.hpp of medsm2/dsm.

    [blk_lock_table] attaches the last writer and the timestamps of the block
    to a lock table, the migrating one (QueueLock.v) or the fixed one
    (FixedLock.v). [GlobalLock] is what it needs of a lock table and
    [GlobalLockLaws] what a lock table promises when the operations of
    different processes do not overlap: [lock_global] returns the owner and the
    data of the last release, [unlock_global] publishes new data, and the owner
    of a free migrating lock can see and update the data in place. Both lock
    tables are instances; their calls are runs of the process alone in the
    step systems of their files, so the laws include termination. *)
From Stdlib Require Import ZArith Lia.
From stdpp Require Import base tactics functions list relations.
From S2P Require Import Prelude.
From S2P Require Import Policy.
From S2P Require Import SharerMap.
From S2P Require Import BlkDir.
From S2P Require Import Forest.
From S2P Require Import QueueLock.
From S2P Require Import FixedLock.

(** * The interface of a lock table *)
Class GlobalLock (L K : Type) := {
  lock_global : Z → K → result (Z * L * K);
  unlock_global : Z → L → K → result K;
  (** only of the migrating table *)
  check_owned_by : Z → K → result bool;
  local_lad : Z → K → L;
  set_local_lad : Z → L → K → K;
}.

(** [lk_free k owner lad]: no process is in the lock, [owner] released last and
    [lad] is the attached data; [lk_held k p owner]: [p] holds the lock and
    [owner] will own it after the release. *)
Class GlobalLockLaws (L K : Type) `{GlobalLock L K} (valid : Z → Prop) (migrates : bool) := {
  lk_free : K → Z → L → Prop;
  lk_held : K → Z → Z → Prop;
  lk_free_valid k owner lad : lk_free k owner lad → valid owner;
  lk_lock k owner lad p : lk_free k owner lad → valid p →
    ∃ k', lock_global p k = Ok (owner, lad, k') ∧ lk_held k' p (if migrates then p else owner);
  lk_unlock k p owner lad : lk_held k p owner → valid p →
    ∃ k', unlock_global p lad k = Ok k' ∧ lk_free k' owner lad;
  lk_check_owned k owner lad p : migrates = true → lk_free k owner lad → valid p →
    check_owned_by p k = Ok (p =? owner);
  lk_local k owner lad : migrates = true → lk_free k owner lad → local_lad owner k = lad;
  lk_set_local k owner lad p lad' : migrates = true → lk_free k owner lad → valid p →
    lk_free (set_local_lad p lad' k) owner (if p =? owner then lad' else lad);
}.

(** * The migrating lock table *)
Section queue.
Context {L : Type} (num_procs : Z).
Implicit Types (s : qstate L) (p : Z).

(** Process [p] runs alone until [done]. *)
Fixpoint solo_run (fuel : nat) (done : pc L → bool) (p : Z) (s : qstate L) : option (qstate L) :=
  if done (q_pc s p) then Some s else
  match fuel with
  | O => None
  | S fuel => s' ← qstep num_procs (Step p) s; solo_run fuel done p s'
  end.

Definition is_holding (c : pc L) : bool := match c with Holding _ _ => true | _ => false end.
Definition is_idle (c : pc L) : bool := match c with Idle => true | _ => false end.

(** Enough accesses for a process that runs alone. *)
Definition solo_fuel : nat := (Z.to_nat num_procs + 6)%nat.

Definition queue_lock_global (p : Z) (s : qstate L) : result (Z * L * qstate L) :=
  match s' ← qstep num_procs (CallLock p) s; solo_run solo_fuel is_holding p s' with
  | Some s' => match q_pc s' p with Holding owner lad => Ok (owner, lad, s') | _ => Fail Aborted end
  | None => Fail Aborted
  end.

Definition queue_unlock_global (p : Z) (lad : L) (s : qstate L) : result (qstate L) :=
  match s' ← qstep num_procs (CallUnlock p lad) s; solo_run solo_fuel is_idle p s' with
  | Some s' => Ok s'
  | None => Fail Aborted
  end.

(** [get_lock_entry]: the local buffer of the process. The data is that of the
    lock when this process owns it. *)
Definition queue_set_local (p : Z) (lad : L) (s : qstate L) : qstate L :=
  QState (q_glk s) (<[p := lad]> (q_lads s)) (q_pc s) (q_msgs s)
    (if q_glk s p =? make_owned_lock_val then lad else q_latest s).

#[export] Instance queue_global_lock : GlobalLock L (qstate L) := {
  lock_global := queue_lock_global;
  unlock_global := queue_unlock_global;
  check_owned_by p s := check_owned p s;
  local_lad p s := q_lads s p;
  set_local_lad := queue_set_local;
}.

(** No process is inside the lock. *)
Definition all_idle s : Prop := ∀ p, in_range num_procs p → q_pc s p = Idle.

Definition queue_free s (owner : Z) (lad : L) : Prop :=
  0 < num_procs ∧ q_inv num_procs s (AtRest owner) ∧ all_idle s ∧ q_latest s = lad.

Definition queue_held s (p owner : Z) : Prop :=
  0 < num_procs ∧ q_inv num_procs s (With p) ∧ is_holding (q_pc s p) = true ∧ p = owner
  ∧ ∀ q, in_range num_procs q → q ≠ p → q_pc s q = Idle.

(** ** Running alone *)
Lemma solo_step fuel done p s s' :
  done (q_pc s p) = false → qstep num_procs (Step p) s = Some s' →
  solo_run (S fuel) done p s = solo_run fuel done p s'.
Proof. intros Hd Hs. cbn. by rewrite Hd, Hs. Qed.

Lemma solo_done fuel done p s : done (q_pc s p) = true → solo_run fuel done p s = Some s.
Proof. intros Hd. destruct fuel; cbn; by rewrite Hd. Qed.

Lemma solo_more fuel fuel' done p s s' :
  (fuel ≤ fuel')%nat → solo_run fuel done p s = Some s' → solo_run fuel' done p s = Some s'.
Proof.
  revert fuel' s. induction fuel as [|fuel IH]; intros fuel' s Hle E.
  - cbn in E. destruct (done (q_pc s p)) eqn:Hd; [|done]. simplify_eq. by apply solo_done.
  - destruct (done (q_pc s p)) eqn:Hd.
    + rewrite solo_done in E by done. simplify_eq. by apply solo_done.
    + destruct fuel' as [|fuel']; [lia|]. cbn in *. rewrite Hd in *.
      destruct (qstep num_procs (Step p) s); [|done]. cbn in *. apply IH; [lia|done].
Qed.

Lemma qstep_proc p s : in_range num_procs p → qstep num_procs (Step p) s = proc_step p s.
Proof.
  intros [H1 H2]. unfold qstep. cbn [event_proc].
  by rewrite (proj2 (Z.leb_le _ _) H1), (proj2 (Z.ltb_lt _ _) H2).
Qed.

Lemma solo_inv fuel done p s loc s' :
  q_inv num_procs s loc → solo_run fuel done p s = Some s' →
  done (q_pc s' p) = true ∧ ∃ loc', q_inv num_procs s' loc'.
Proof.
  revert s loc. induction fuel as [|fuel IH]; intros s loc Hinv E; cbn in E;
    destruct (done (q_pc s p)) eqn:Hd; simplify_eq; eauto.
  destruct (qstep num_procs (Step p) s) as [s1|] eqn:E1; [|done].
  destruct (qstep_inv num_procs _ _ _ _ Hinv E1) as [loc1 H1]. by eapply IH.
Qed.

(** ** Following the probable owners *)

(** The links of the lock values. *)
Definition next_owner s (v : Z) : option Z :=
  if (0 <=? v) && (v <? num_procs) && (3 <=? q_glk s v) then Some (q_glk s v - 3) else None.

Lemma next_owner_some s v w :
  next_owner s v = Some w ↔ in_range num_procs v ∧ 3 ≤ q_glk s v ∧ w = q_glk s v - 3.
Proof.
  unfold next_owner, in_range. destruct (_ && _) eqn:E; split; intros H.
  - injection H as <-. bool_to_prop. split_and!; lia.
  - by destruct H as (_ & _ & ->).
  - done.
  - destruct H as (? & ? & _). bool_lia.
Qed.

Lemma probable_owner proc lv : lv ≠ 0 →
  get_probable_owner_from_lock_val proc lv = Ok (target proc lv).
Proof.
  intros H. unfold get_probable_owner_from_lock_val, target.
  by rewrite assert_true by by apply negb_true_iff, Z.eqb_neq.
Qed.

(** The walk to the owner, one compare-and-swap per link. *)
Lemma chase_run k p s proc lv x y :
  in_range num_procs p → q_pc s p = CasOwned proc lv → lv ≠ 0 → target proc lv = x →
  nsteps (link (next_owner s)) k x y → q_glk s y = 1 → p ≠ y →
  ∃ s', solo_run (k + 2) is_holding p s = Some s'
    ∧ q_pc s' p = Holding y (q_lads s y)
    ∧ (∀ q, q ≠ p → q_pc s' q = q_pc s q) ∧ q_latest s' = q_latest s.
Proof.
  intros Hp. revert s proc lv x. induction k as [|k IH]; intros s proc lv x Ep Hlv Hx Hw Hy Hpy.
  - assert (x = y) as -> by by inversion Hw. clear Hw.
    set (s1 := set_pc p (ReadLad y) (set_glk y (make_linked_lock_val p) s)).
    set (s2 := set_pc p (Holding y (q_lads s y)) s1).
    exists s2. split_and!.
    + cbn [Nat.add].
      rewrite (solo_step _ _ _ _ s1); [|by rewrite Ep|].
      2: { rewrite qstep_proc by done. unfold proc_step. rewrite Ep, probable_owner, Hx by done.
           unfold compare_and_swap. by rewrite Hy. }
      rewrite (solo_step _ _ _ _ s2); [|by unfold s1; rewrite set_pc_eq|].
      2: { rewrite qstep_proc by done. unfold proc_step, s1. by rewrite set_pc_eq. }
      apply solo_done. unfold s2. by rewrite set_pc_eq.
    + unfold s2. by rewrite set_pc_eq.
    + intros q Hq. unfold s2, s1. by rewrite !set_pc_ne.
    + done.
  - inversion Hw as [|? ? z ? Hl Hr]; subst. unfold link in Hl.
    apply next_owner_some in Hl as (Hz1 & Hz2 & ->).
    set (x := target proc lv) in *.
    set (s1 := set_pc p (CasOwned x (q_glk s x)) s).
    destruct (IH s1 x (q_glk s x) (q_glk s x - 3)) as (s' & E & E1 & E2 & E3); try done.
    + unfold s1. by rewrite set_pc_eq.
    + lia.
    + unfold target. by rewrite (proj2 (Z.leb_gt _ _)) by lia.
    + exists s'. split_and!; [|done| |done].
      * cbn [Nat.add]. rewrite (solo_step _ _ _ _ s1); [done|by rewrite Ep|].
        rewrite qstep_proc by done. unfold proc_step. rewrite Ep, probable_owner by done. fold x.
        unfold compare_and_swap, make_owned_lock_val, make_locked_lock_val.
        rewrite !(proj2 (Z.eqb_neq (q_glk s x) _)) by lia. done.
      * intros q Hq. rewrite E2 by done. unfold s1. by rewrite set_pc_ne.
Qed.

Lemma links_are_edges s v w :
  next_owner s v = Some w → edge_of s (v, false) = Some (v, w) ∧ in_range num_procs v.
Proof.
  intros (Hv & Hg & ->)%next_owner_some. split; [|done]. unfold edge_of. cbn [fst snd].
  by rewrite (proj2 (Z.leb_le _ _)).
Qed.

Lemma walk_in_range s loc k x y :
  q_inv num_procs s loc → nsteps (link (next_owner s)) k x y →
  in_range num_procs x → in_range num_procs y.
Proof.
  intros Hinv. induction 1 as [|k x y z Hl _ IH]; [done|]. intros _. apply IH.
  apply next_owner_some in Hl as (Hx & Hg & ->).
  destruct (qi_range _ _ _ Hinv x Hx) as [?|[?|?]]; [lia|lia|done].
Qed.

(** The chase of a lone process ends at the owner. *)
Lemma chase_ends s owner p proc lv :
  q_inv num_procs s (AtRest owner) → in_range num_procs p → q_pc s p = CasOwned proc lv →
  (∀ q, in_range num_procs q → q ≠ p → q_pc s q = Idle) →
  ∃ k, (k ≤ Z.to_nat num_procs)%nat ∧ lv ≠ 0 ∧ p ≠ owner ∧ q_glk s owner = 1
     ∧ nsteps (link (next_owner s)) k (target proc lv) owner.
Proof.
  intros Hinv Hp Ep Hidle. set (vs := seqZ 0 num_procs).
  pose proof (qi_pc _ _ _ Hinv p Hp) as Hpc. rewrite Ep in Hpc.
  destruct Hpc as (Hsucc & Hproc & Hlv).
  assert (q_glk s p = 2) as Hgp.
  { destruct Hsucc as [?|(x & Hx & _ & Ex)]; [done|].
    destruct (decide (x = p)) as [->|Hne]; [congruence|]. by rewrite Hidle in Ex. }
  assert (in_range num_procs (target proc lv)) as Hx.
  { unfold target. destruct (lv <=? 2) eqn:E; [done|]. bool_to_prop.
    destruct Hlv as [?|[?|?]]; [lia|lia|done]. }
  destruct (label_edges_one (edge_of s) (edge_of s) (labels num_procs) (p, true))
    as (E & Hperm & _ & HE); [apply labels_nodup|by apply labels_in|done|].
  assert (∀ v w, next_owner s v = Some w → (v, w) ∈ E) as Hlinks.
  { intros v w [He Hv]%links_are_edges. apply (HE (v, false)); [by apply labels_in|done|done]. }
  pose proof (qi_forest _ _ _ Hinv) as Hf. unfold forest in Hf.
  assert (acyclic (links (next_owner s) vs)) as Hac.
  { unfold labels in Hf. unfold label_edges in Hf. rewrite omap_app in Hf.
    apply acyclic_app_l in Hf. rewrite (omap_fmap_links (next_owner s)) in Hf; [done|].
    intros v Hv. unfold edge_of, next_owner. cbn [fst snd]. apply elem_of_seqZ in Hv.
    rewrite (proj2 (Z.leb_le 0 v)), (proj2 (Z.ltb_lt v num_procs)) by lia. by destruct (3 <=? _). }
  rewrite Hperm in Hf. unfold edge_of in Hf at 1. cbn [fst snd] in Hf. rewrite Ep in Hf.
  cbn [option_list app] in Hf. destruct Hf as [Hn _].
  destruct (walk_ends (next_owner s) vs (target proc lv)) as (k & y & Hk & Hw & Hy & Hc).
  { apply NoDup_seqZ. }
  { done. }
  { intros v w _ (Hv & _)%next_owner_some. apply elem_of_seqZ. unfold in_range in Hv. lia. }
  assert (in_range num_procs y) as Hyr by by eapply walk_in_range.
  assert (q_glk s y = 1) as Hy1.
  { assert (¬ 3 ≤ q_glk s y) as H3.
    { intros H3. assert (next_owner s y = Some (q_glk s y - 3)); [|congruence].
      by apply next_owner_some. }
    destruct (qi_range _ _ _ Hinv y Hyr) as [?|[H2|?]]; [done| |unfold in_range in *; lia].
    destruct (decide (y = p)) as [->|Hne].
    - exfalso. apply Hn, conn_sym. revert Hc. apply conn_mono. intros [v w] Hvw.
      apply elem_of_label_edges in Hvw as (v' & _ & Hvw).
      destruct (next_owner s v') as [w'|] eqn:Ev; [|done]. cbn in Hvw. simplify_eq. by apply Hlinks.
    - pose proof (qi_pc _ _ _ Hinv y Hyr) as Hpy. rewrite Hidle in Hpy by done. done. }
  assert (y = owner) as ->.
  { apply (qi_rest _ _ _ Hinv y Hyr) in Hy1. congruence. }
  exists k. split_and!; try done.
  - unfold vs in Hk. by rewrite length_seqZ in Hk.
  - intros ->. destruct Hlv as [?|[?|?]]; unfold in_range in *; lia.
  - intros ->. congruence.
Qed.

(** ** The laws *)
Lemma free_others s owner lad p q c :
  queue_free s owner lad → in_range num_procs q → q ≠ p → q_pc (set_pc p c s) q = Idle.
Proof. intros (_ & _ & Hi & _) Hq Hne. rewrite set_pc_ne by done. by apply Hi. Qed.

Lemma call_lock s p : in_range num_procs p → q_pc s p = Idle →
  qstep num_procs (CallLock p) s = Some (set_pc p LoadLocal s).
Proof.
  intros [H1 H2] Ep. unfold qstep. cbn [event_proc].
  by rewrite (proj2 (Z.leb_le _ _) H1), (proj2 (Z.ltb_lt _ _) H2), Ep.
Qed.

(** The owner takes its own lock with one compare-and-swap. *)
Lemma lock_own s p : in_range num_procs p → q_glk s p = 1 →
  ∃ s', solo_run 3 is_holding p (set_pc p LoadLocal s) = Some s'
    ∧ q_pc s' p = Holding p (q_lads s p)
    ∧ (∀ q, q ≠ p → q_pc s' q = q_pc s q) ∧ q_latest s' = q_latest s.
Proof.
  intros Hp Hg.
  set (s1 := set_pc p LoadLocal s). set (s2 := set_pc p CasOwn s1).
  set (s3 := set_pc p (ReadLad p) (set_glk p make_locked_lock_val s2)).
  exists (set_pc p (Holding p (q_lads s p)) s3). split_and!.
  - rewrite (solo_step _ _ _ _ s2), (solo_step _ _ _ _ s3), (solo_step _ _ _ _ (set_pc p (Holding p (q_lads s p)) s3));
      rewrite ?qstep_proc by done; unfold s3, s2, s1; rewrite ?set_pc_eq; try done.
    + apply solo_done. by rewrite set_pc_eq.
    + unfold proc_step. by rewrite set_pc_eq.
    + unfold proc_step, compare_and_swap. rewrite set_pc_eq. cbn. by rewrite Hg.
    + unfold proc_step. rewrite set_pc_eq. cbn. by rewrite Hg.
  - by rewrite set_pc_eq.
  - intros q Hq. unfold s3, s2, s1. cbn. by rewrite !fn_lookup_insert_ne.
  - done.
Qed.

(** Another process follows the probable owners. *)
Lemma lock_remote s owner lad p :
  queue_free s owner lad → in_range num_procs p → q_glk s p ≠ 1 →
  ∃ s', solo_run solo_fuel is_holding p (set_pc p LoadLocal s) = Some s'
    ∧ q_pc s' p = Holding owner (q_lads s owner)
    ∧ (∀ q, q ≠ p → q_pc s' q = q_pc s q) ∧ q_latest s' = q_latest s.
Proof.
  intros Hfree Hp Hg. pose proof Hfree as (Hn & Hinv & Hidle & _).
  set (lv := q_glk s p) in *.
  pose proof (qi_pc _ _ _ Hinv p Hp) as Hg2. rewrite Hidle in Hg2 by done. cbn in Hg2. fold lv in Hg2.
  set (s1 := set_pc p LoadLocal s). set (s2 := set_pc p (SetLocked lv) s1).
  set (s3 := set_pc p (CasOwned p lv) (set_glk p make_locked_lock_val s2)).
  assert (qstep num_procs (Step p) s1 = Some s2) as E1.
  { rewrite qstep_proc by done. unfold proc_step, s1. rewrite set_pc_eq.
    change (q_glk (set_pc p LoadLocal s) p) with lv. unfold make_locked_lock_val, make_owned_lock_val.
    by rewrite !(proj2 (Z.eqb_neq lv _)). }
  assert (qstep num_procs (Step p) s2 = Some s3) as E2.
  { rewrite qstep_proc by done. unfold proc_step, s2. by rewrite set_pc_eq. }
  destruct (qstep_inv _ _ _ _ _ Hinv (call_lock s p Hp (Hidle p Hp))) as [loc1 H1].
  destruct (qstep_inv _ _ _ _ _ H1 E1) as [loc2 H2].
  destruct (qstep_inv _ _ _ _ _ H2 E2) as [loc3 H3].
  pose proof (qi_loc _ _ _ Hinv) as (Ho & _ & _).
  assert (q_glk s owner = 1) as Hgo by by apply (qi_rest _ _ _ Hinv owner Ho).
  assert (owner ≠ p) as Hop by (intros ->; done).
  assert (loc3 = AtRest owner) as ->.
  { apply (qi_rest _ _ _ H3 owner Ho). unfold s3. cbn. by rewrite fn_lookup_insert_ne. }
  destruct (chase_ends s3 owner p p lv) as (k & Hk & Hlv & _ & Hgo3 & Hw); [done|done| | |].
  { unfold s3. by rewrite set_pc_eq. }
  { intros q Hq Hne. unfold s3, s2, s1. cbn; rewrite !fn_lookup_insert_ne by done. by apply Hidle. }
  destruct (chase_run k p s3 p lv (target p lv) owner) as (s' & E & Epc & Hq & Hlat);
    [done|unfold s3; by rewrite set_pc_eq|done|done|done|done|by intros ->|].
  exists s'. split_and!; [|done| |done].
  - apply (solo_more (S (S (k + 2)))); [unfold solo_fuel; lia|].
    rewrite (solo_step _ _ _ _ s2), (solo_step _ _ _ _ s3); try done;
      [unfold s2; by rewrite set_pc_eq|unfold s1; by rewrite set_pc_eq].
  - intros q Hne. rewrite Hq by done. unfold s3, s2, s1. cbn. by rewrite !fn_lookup_insert_ne.
Qed.

Lemma queue_lock_law s owner lad p :
  queue_free s owner lad → in_range num_procs p →
  ∃ s', queue_lock_global p s = Ok (owner, lad, s') ∧ queue_held s' p p.
Proof.
  intros Hfree Hp. pose proof Hfree as (Hn & Hinv & Hidle & Hlat).
  assert (∃ s', solo_run solo_fuel is_holding p (set_pc p LoadLocal s) = Some s'
    ∧ q_pc s' p = Holding owner (q_lads s owner)
    ∧ (∀ q, q ≠ p → q_pc s' q = q_pc s q) ∧ q_latest s' = q_latest s)
    as (s' & E & Ep & Hq & Hl).
  { destruct (decide (q_glk s p = 1)) as [Hg|Hg]; [|by eapply lock_remote].
    assert (owner = p) as -> by (apply (qi_rest _ _ _ Hinv p Hp) in Hg; congruence).
    destruct (lock_own s p Hp Hg) as (s' & E & H). exists s'. split; [|done].
    apply (solo_more 3); [unfold solo_fuel; lia|done]. }
  pose proof (call_lock s p Hp (Hidle p Hp)) as E0.
  destruct (qstep_inv _ _ _ _ _ Hinv E0) as [loc1 H1].
  destruct (solo_inv _ _ _ _ _ _ H1 E) as (_ & loc' & Hinv').
  assert (loc' = With p) as -> by (apply (qi_token _ _ _ Hinv' p Hp); by rewrite Ep).
  pose proof (qi_loc _ _ _ Hinv') as (_ & Hd & _). rewrite Ep in Hd. cbn in Hd.
  exists s'. split.
  - unfold queue_lock_global. rewrite E0. cbn. rewrite E, Ep. congruence.
  - split_and!; try done; [by rewrite Ep|]. intros q Hqr Hne. rewrite Hq by done. by apply Hidle.
Qed.

Lemma queue_unlock_law s p owner lad :
  queue_held s p owner → in_range num_procs p →
  ∃ s', queue_unlock_global p lad s = Ok s' ∧ queue_free s' owner lad.
Proof.
  intros (Hn & Hinv & Hh & <- & Hidle) Hp.
  destruct (q_pc s p) as [| | | | | | | |o l| | | |] eqn:Ep; try done.
  pose proof (qi_pc _ _ _ Hinv p Hp) as Hpc. rewrite Ep in Hpc.
  assert (q_glk s p = 2) as Hg.
  { destruct Hpc as [?|(x & Hx & _ & Ex)]; [done|].
    destruct (decide (x = p)) as [->|Hne]; [congruence|]. by rewrite Hidle in Ex. }
  set (s1 := set_pc p (UnlockLoad lad) s).
  set (s1' := QState (q_glk s1) (<[p := lad]> (q_lads s1)) (q_pc s1) (q_msgs s1) lad).
  set (s2 := set_pc p (UnlockCas lad) s1').
  set (s3 := set_pc p Idle (set_glk p make_owned_lock_val s2)).
  assert (qstep num_procs (CallUnlock p lad) s = Some s1) as E0.
  { destruct Hp as [Hp1 Hp2]. unfold qstep. cbn [event_proc].
    by rewrite (proj2 (Z.leb_le _ _) Hp1), (proj2 (Z.ltb_lt _ _) Hp2), Ep. }
  assert (solo_run 2 is_idle p s1 = Some s3) as E.
  { rewrite (solo_step _ _ _ _ s2), (solo_step _ _ _ _ s3);
      rewrite ?qstep_proc by done; unfold s3, s2, s1; rewrite ?set_pc_eq; try done.
    - apply solo_done. by rewrite set_pc_eq.
    - unfold proc_step, compare_and_swap. rewrite set_pc_eq. cbn. by rewrite Hg.
    - unfold proc_step. rewrite set_pc_eq. cbn. by rewrite Hg. }
  exists s3. split.
  - unfold queue_unlock_global. rewrite E0. cbn [mbind option_bind].
    rewrite (solo_more 2 _ _ _ _ s3); [done|unfold solo_fuel; lia|done].
  - destruct (qstep_inv _ _ _ _ _ Hinv E0) as [loc1 H1].
    destruct (solo_inv _ _ _ _ _ _ H1 E) as (_ & loc' & Hinv').
    assert (loc' = AtRest p) as ->.
    { apply (qi_rest _ _ _ Hinv' p Hp). unfold s3. cbn. apply fn_lookup_insert. }
    split_and!; try done. intros q Hq. destruct (decide (q = p)) as [->|Hne].
    + unfold s3. by rewrite set_pc_eq.
    + unfold s3, s2, s1', s1. cbn. rewrite !fn_lookup_insert_ne by done. by apply Hidle.
Qed.

(** The owner of a free lock finds the data in its own buffer and may change
    it there; anyone else's buffer is dead. *)
Lemma queue_set_local_law s owner lad p lad' :
  queue_free s owner lad → in_range num_procs p →
  queue_free (queue_set_local p lad' s) owner (if p =? owner then lad' else lad).
Proof.
  intros (Hn & Hinv & Hidle & Hlat) Hp. pose proof Hinv as [Hrg Hpc Hrv Hrest Htok Hloc Hf].
  destruct Hloc as (Ho & Hd & Hm).
  assert (q_glk s p = make_owned_lock_val ↔ p = owner) as Hown.
  { rewrite (Hrest p Hp). split; [by intros [= ->]|by intros ->]. }
  assert (q_latest (queue_set_local p lad' s) = if p =? owner then lad' else lad) as Hl.
  { cbn. destruct (Z.eqb_spec p owner) as [E|E], (Z.eqb_spec (q_glk s p) make_owned_lock_val); tauto. }
  split_and!; try done. split; try done. cbn [loc_inv]. rewrite Hl. split_and!; try done. cbn.
  destruct (Z.eqb_spec p owner) as [->|Hne].
  - apply fn_lookup_insert.
  - rewrite fn_lookup_insert_ne by done. congruence.
Qed.

#[export] Instance queue_lock_laws : GlobalLockLaws L (qstate L) (in_range num_procs) true.
Proof.
  refine {| lk_free := queue_free; lk_held := queue_held |}.
  - intros s owner lad (_ & Hinv & _). apply (qi_loc _ _ _ Hinv).
  - exact queue_lock_law.
  - exact queue_unlock_law.
  - intros s owner lad p _ (_ & Hinv & Hidle & _) Hp. cbn. unfold check_owned.
    pose proof (qi_pc _ _ _ Hinv p Hp) as H2. rewrite Hidle in H2 by done. cbn in H2.
    rewrite assert_true by by apply negb_true_iff, Z.eqb_neq. cbn [mbind result_bind]. f_equal.
    apply eq_true_iff_eq. rewrite !Z.eqb_eq. rewrite (qi_rest _ _ _ Hinv p Hp).
    split; [by intros [= ->]|by intros ->].
  - intros s owner lad _ (_ & Hinv & _ & <-). apply (qi_loc _ _ _ Hinv).
  - intros s owner lad p lad' _. apply queue_set_local_law.
Defined.

Lemma solo_reachable lk_pos lad0 fuel done p s s' :
  reachable num_procs lk_pos lad0 s → solo_run fuel done p s = Some s' →
  reachable num_procs lk_pos lad0 s'.
Proof.
  revert s. induction fuel as [|fuel IH]; intros s Hr E; cbn in E;
    destruct (done (q_pc s p)); simplify_eq; try done.
  destruct (qstep num_procs (Step p) s) as [s1|] eqn:E1; [|done].
  apply (IH s1); [by eapply reachable_step|done].
Qed.

(** A reachable state in which no process is inside the lock is free. *)
Lemma idle_free lk_pos lad0 s :
  0 < num_procs → reachable num_procs lk_pos lad0 s → all_idle s →
  ∃ owner, queue_free s owner (q_latest s).
Proof.
  intros Hn Hr Hidle. destruct (q_reachable_inv _ _ _ _ Hn Hr) as [loc Hinv].
  destruct loc as [o|p|f t].
  - by exists o.
  - exfalso. destruct (qi_loc _ _ _ Hinv) as (Hp & _).
    assert (has_token (q_pc s p) = true) as H by by apply (qi_token _ _ _ Hinv p Hp).
    by rewrite Hidle in H.
  - exfalso. destruct (qi_loc _ _ _ Hinv) as (_ & Ht & E & _). by rewrite Hidle in E.
Qed.

(** The initial state is free. *)
Lemma queue_coll_make_free lk_pos lad0 :
  0 < num_procs → queue_free (coll_make num_procs lk_pos lad0) (lk_pos mod num_procs) lad0.
Proof. intros Hn. split_and!; try done. by apply coll_make_inv. Qed.

(** The migrating lock is a sequential lock: in every reachable state in
    which no process is inside it, a call of [lock_global] by any process
    returns (after at most [num_procs + 6] accesses of its own) the process
    that released last and the data of that release, and after the
    [unlock_global] that follows exactly the caller owns the lock, with its new
    data. *)
Theorem queue_lock_sequential lk_pos lad0 s p
    (Hn : 0 < num_procs) (Hr : reachable num_procs lk_pos lad0 s) (Hidle : all_idle s)
    (Hp : in_range num_procs p) :
  ∃ owner s1, queue_lock_global p s = Ok (owner, q_latest s, s1)
    ∧ (∀ q, in_range num_procs q → check_owned q s = Ok (q =? owner))
    ∧ ∀ lad, ∃ s2, queue_unlock_global p lad s1 = Ok s2
        ∧ reachable num_procs lk_pos lad0 s2 ∧ all_idle s2 ∧ q_latest s2 = lad
        ∧ ∀ q, in_range num_procs q → check_owned q s2 = Ok (q =? p).
Proof.
  destruct (idle_free lk_pos lad0 s Hn Hr Hidle) as [owner Hfree].
  destruct (queue_lock_law s owner _ p Hfree Hp) as (s1 & E1 & Hheld).
  exists owner, s1. split; [done|]. split.
  { intros q Hq. exact (lk_check_owned s owner (q_latest s) q eq_refl Hfree Hq). }
  intros lad. destruct (queue_unlock_law s1 p p lad Hheld Hp) as (s2 & E2 & Hfree2).
  exists s2. split; [done|]. pose proof Hfree2 as (_ & _ & Hidle2 & Hl2).
  split_and!; try done.
  - unfold queue_lock_global in E1. unfold queue_unlock_global in E2.
    destruct (qstep num_procs (CallLock p) s) as [t1|] eqn:C1; [|done]. cbn in E1.
    destruct (solo_run solo_fuel is_holding p t1) as [t2|] eqn:R1; [|done].
    destruct (q_pc t2 p); simplify_eq.
    destruct (qstep num_procs (CallUnlock p (q_latest s2)) s1) as [t3|] eqn:C2; [|done]. cbn in E2.
    destruct (solo_run solo_fuel is_idle p t3) as [t4|] eqn:R2; simplify_eq.
    eapply solo_reachable; [|done]. eapply reachable_step; [|done].
    eapply solo_reachable; [|done]. by eapply reachable_step.
  - intros q Hq. exact (lk_check_owned s2 p lad q eq_refl Hfree2 Hq).
Qed.
End queue.

(** * The fixed lock table *)
Section fixed.
Context {L : Type} (num_procs : Z).

(** A lock with the process of its location. *)
Record fixed_handle := FixedHandle { fh_proc : Z; fh_state : fstate L }.

(** Alone, the first compare-and-swap takes a free lock. *)
Definition fixed_lock_global (p : Z) (h : fixed_handle) : result (Z * L * fixed_handle) :=
  match s ← fstep (FCallLock p) (fh_state h); s ← fstep (FStep p) s; fstep (FStep p) s with
  | Some s =>
      match f_pc s p with
      | FHolding lad => Ok (fh_proc h, lad, FixedHandle (fh_proc h) s)
      | _ => Fail Aborted
      end
  | None => Fail Aborted
  end.

Definition fixed_unlock_global (p : Z) (lad : L) (h : fixed_handle) : result fixed_handle :=
  match s ← fstep (FCallUnlock p lad) (fh_state h); s ← fstep (FStep p) s; fstep (FStep p) s with
  | Some s => Ok (FixedHandle (fh_proc h) s)
  | None => Fail Aborted
  end.

(** The fixed table has no [check_owned] and no local data; the builds that
    use it do not call them. *)
#[export] Instance fixed_global_lock : GlobalLock L fixed_handle := {
  lock_global := fixed_lock_global;
  unlock_global := fixed_unlock_global;
  check_owned_by _ _ := Fail Aborted;
  local_lad _ h := f_lad (fh_state h);
  set_local_lad _ _ h := h;
}.

Definition fixed_free (h : fixed_handle) (owner : Z) (lad : L) : Prop :=
  in_range num_procs owner ∧ fh_proc h = owner ∧ f_lock (fh_state h) = 0
  ∧ f_lad (fh_state h) = lad ∧ ∀ p, f_pc (fh_state h) p = FIdle.

Definition fixed_held (h : fixed_handle) (p owner : Z) : Prop :=
  in_range num_procs owner ∧ fh_proc h = owner
  ∧ (∃ lad, f_pc (fh_state h) p = FHolding lad) ∧ ∀ q, q ≠ p → f_pc (fh_state h) q = FIdle.

#[export] Instance fixed_lock_laws : GlobalLockLaws L fixed_handle (in_range num_procs) false.
Proof.
  refine {| lk_free := fixed_free; lk_held := fixed_held |}; try done.
  - by intros h owner lad [? _].
  - intros [pr s] owner lad p (Ho & Hpr & H0 & Hlad & Hidle) Hp. cbn in *. subst pr.
    unfold fixed_lock_global. cbn. rewrite Hidle. cbn. rewrite fn_lookup_insert, H0. cbn.
    rewrite fn_lookup_insert. cbn. rewrite fn_lookup_insert, Hlad. eexists. split; [done|].
    split_and!; try done; cbn.
    + exists lad. apply fn_lookup_insert.
    + intros q Hq. by rewrite !fn_lookup_insert_ne.
  - intros [pr s] p owner lad (Ho & Hpr & [lad0 Hh] & Hidle) Hp. cbn in *. subst pr.
    unfold fixed_unlock_global. cbn. rewrite Hh. cbn. rewrite fn_lookup_insert. cbn.
    rewrite fn_lookup_insert. cbn. eexists. split; [done|]. split_and!; try done; cbn.
    intros q. destruct (decide (q = p)) as [->|Hq]; [by rewrite fn_lookup_insert|].
    rewrite !fn_lookup_insert_ne by done. by apply Hidle.
Defined.
End fixed.
Arguments fixed_handle L : clear implicits.

(** * blk_lock_table *)

(** [global_entry_with_header]. *)
Record header := Header { hd_last_writer_proc : Z; hd_ge : global_entry }.

(** [sizeof(proc_id_type)] and [sizeof(global_entry_with_header)]. *)
Definition sizeof_proc_id : Z := 4.
Definition sizeof_global_entry_with_header : Z := 24.

Definition get_lad_size (P : policy) (num_procs : Z) : Z :=
  if use_directory_coherence P then sizeof_proc_id + get_sharer_map_size num_procs
  else sizeof_global_entry_with_header.

Section blk_lock.
Context {K : Type} `{GlobalLock header K}.

Definition blk_lock_global (this_proc : Z) (k : K) : result (lock_global_result * K) :=
  '(owner, geh, k) ← lock_global this_proc k;
  Ok (LockGlobal owner (hd_last_writer_proc geh) (hd_ge geh), k).

Definition blk_unlock_global (P : policy) (this_proc : Z) (glk_ret : lock_global_result)
    (et_ret : end_transaction_result) (k : K) : result K :=
  let new_owner := if enable_migration P then this_proc else glk_owner glk_ret in
  _ ← assert_ (et_new_owner et_ret =? new_owner);
  unlock_global this_proc (Header (et_last_writer_proc et_ret) (et_new_ts et_ret)) k.

(** [check_owned] of the migration builds. *)
Definition blk_check_owned (this_proc : Z) (k : K) : result bool := check_owned_by this_proc k.

(** [read_lock_entry] and [write_lock_entry] access the data at this process. *)
Definition read_lock_entry (this_proc : Z) (k : K) : global_entry := hd_ge (local_lad this_proc k).

Definition write_lock_entry (this_proc : Z) (ge : global_entry) (k : K) : K :=
  set_local_lad this_proc (Header (hd_last_writer_proc (local_lad this_proc k)) ge) k.
End blk_lock.

Lemma queue_lock_sequential_witness :
  ∃ s1 : qstate Z, queue_lock_global 3 2 (coll_make 3 1 5) = Ok (1, 5, s1)
  ∧ ∀ lad, ∃ s2, queue_unlock_global 3 2 lad s1 = Ok s2 ∧ q_latest s2 = lad.
Proof.
  destruct (queue_lock_sequential 3 1 5 (coll_make 3 1 5) 2 ltac:(lia)
    ltac:(constructor) ltac:(intros p _; reflexivity) ltac:(split; lia))
    as (owner & s1 & E1 & Hown & Hun).
  assert (owner = 1) as ->.
  { specialize (Hown 1 ltac:(split; lia)). vm_compute in Hown. destruct owner; try discriminate.
    destruct p; try discriminate. reflexivity. }
  exists s1. split; [exact E1|]. intros lad. destruct (Hun lad) as (s2 & E2 & _ & _ & Hl & _).
  exists s2. split; [exact E2|exact Hl].
Defined.
