(* ===== verification/DataRuns.v ===== *)
(** Triples for the data of a block.

    [runs P r Φ]: the call [r] returns and its result satisfies [Φ], or it
    reports a data race in a build with race detection; nothing else can go
    wrong. For every data operation of BlkData.v a triple states that the
    memories keep their shape, how the page protection moves, and where a byte
    range on which the copies of this process agree gets its contents from;
    the triples hold for the migrating and the home-based builds, for the byte
    and the AVX2 merges. *)
From Stdlib Require Import ZArith Lia.
From stdpp Require Import base tactics list gmap.
From S2P Require Import Prelude.
From S2P Require Import Policy.
From S2P Require Import BlkDir.
From S2P Require Import BlkData.

Definition is_race (f : failure) : bool :=
  match f with DataRaceAt _ | DataRaceLost => true | _ => false end.

Definition runs (P : policy) {A} (r : result A) (Φ : A → Prop) : Prop :=
  match r with
  | Ok a => Φ a
  | Fail f => enable_race_detection P = true ∧ is_race f = true
  end.

Lemma runs_bind P {A B} (m : result A) (k : A → result B) Φ Ψ :
  runs P m Φ → (∀ a, Φ a → runs P (k a) Ψ) → runs P (m ≫= k) Ψ.
Proof. destruct m; cbn; auto. Qed.

Lemma runs_mono P {A} (r : result A) (Φ Ψ : A → Prop) :
  runs P r Φ → (∀ a, Φ a → Ψ a) → runs P r Ψ.
Proof. destruct r; cbn; auto. Qed.

Lemma runs_bind_ok P {A B} (m : result A) (k : A → result B) a Φ :
  m = Ok a → runs P (k a) Φ → runs P (m ≫= k) Φ.
Proof. by intros ->. Qed.

Lemma runs_ok P {A} (r : result A) a Φ : runs P r Φ → r = Ok a → Φ a.
Proof. by intros H ->. Qed.

(** * Byte ranges and areas *)

(** Two blocks agree on the bytes of a range. *)
Definition agree (off size : nat) (l k : list Z) : Prop :=
  ∀ i, (off ≤ i < off + size)%nat → l !! i = k !! i.

Lemma agree_refl off size l : agree off size l l.
Proof. done. Qed.

Lemma agree_sym off size l k : agree off size l k → agree off size k l.
Proof. intros H i Hi. symmetry. by apply H. Qed.

Lemma agree_trans off size l k m : agree off size l k → agree off size k m → agree off size l m.
Proof. intros H1 H2 i Hi. rewrite H1 by done. by apply H2. Qed.

Lemma agree_load off size l k :
  length l = length k → agree off size l k → load_at off size l = load_at off size k.
Proof.
  intros Hl H. unfold load_at. rewrite Hl. destruct (_ <=? _)%nat; [|done]. do 2 f_equal.
  apply list_eq. intros i. destruct (decide (i < size)%nat) as [Hi|Hi].
  - rewrite !lookup_take_lt, !lookup_drop by done. apply H. lia.
  - rewrite !lookup_ge_None_2; [done| |]; rewrite length_take; lia.
Qed.

(** Blocks of [n] groups of vectors. *)
Abbreviation area n l := (vec_bytes (UNROLL_LEN * n) l).

Lemma zip3_agree (f : Z → Z → Z → Z) off size o p q :
  (∀ a b, f a b b = a) → length o = length p → length q = length p →
  agree off size p q → agree off size (zip3_with f o p q) o.
Proof.
  intros Hf Ho Hq Hpq i Hi. specialize (Hpq i Hi).
  destruct (o !! i) as [a|] eqn:Ea.
  - assert (is_Some (p !! i)) as [b Hb].
    { apply lookup_lt_is_Some. apply lookup_lt_Some in Ea. lia. }
    rewrite Hb in Hpq. symmetry in Hpq. erewrite lookup_zip3_with by done. by rewrite Hf.
  - apply lookup_ge_None_2. rewrite length_zip3_with by done. apply lookup_ge_None_1 in Ea. lia.
Qed.

Lemma merge3_cell_same a b : merge3_cell a b b = a.
Proof. unfold merge3_cell. destruct (Z.eqb_spec b a); done. Qed.

Lemma result_reg_same a b : result_reg a b b = a.
Proof. unfold result_reg. by rewrite Z.lxor_nilpotent, Z.lxor_0_l. Qed.

Lemma merge3_bytes o p q : bytes o → bytes p → bytes (merge3 o p q).
Proof.
  unfold bytes, merge3. revert p q. induction o as [|a o IH]; intros [|b p] [|c q] Ho Hp; try by constructor.
  apply Forall_cons in Ho as [Ha Ho]. apply Forall_cons in Hp as [Hb Hp].
  cbn. constructor; [|by apply IH]. unfold merge3_cell. by destruct (c =? a).
Qed.

Lemma merge3_area n o p q : area n o → area n p → area n q → area n (merge3 o p q).
Proof.
  intros [Ho Hlo] [Hp Hlp] [Hq Hlq]. split; [by apply merge3_bytes|].
  unfold merge3. rewrite length_zip3_with; congruence.
Qed.

(** * Merges *)

(** A merge of [o] into [p] with the twin [q]. *)
Definition merged (n : nat) (o p q r : list Z) : Prop :=
  area n r ∧ ∀ off size, agree off size p q → agree off size r o.

Lemma merged_merge3 n o p q : area n o → area n p → area n q → merged n o p q (merge3 o p q).
Proof.
  intros Ho Hp Hq. split; [by apply merge3_area|]. intros off size.
  apply zip3_agree; [apply merge3_cell_same| |]; destruct Ho, Hp, Hq; congruence.
Qed.

Lemma merged_result n o p q : area n o → area n p → area n q →
  merged n o p q (zip3_with result_reg o p q).
Proof.
  intros Ho Hp Hq. split; [by apply vec_bytes_result|]. intros off size.
  apply zip3_agree; [apply result_reg_same| |]; destruct Ho, Hp, Hq; congruence.
Qed.

Lemma report_is_race i o p q : is_race (report_data_race i o p q) = true.
Proof.
  revert i p q. induction o as [|a o IH]; intros i [|b p] [|c q]; try done. cbn.
  by destruct (_ && _).
Qed.

Lemma merge_simd_runs P w n o p q : area n o → area n p → area n q →
  runs P (merge_simd P w o p q)
    (λ '(r1, r2), merged n o p q r1 ∧ r2 = if w then r1 else o).
Proof.
  intros Ho Hp Hq. pose proof (merge_simd_correct P w o p q n Ho Hp Hq) as H.
  destruct (enable_race_detection P && _) eqn:E.
  - destruct H as (i & -> & _). apply andb_prop in E as [E _]. by split.
  - rewrite H. cbn. split; [by apply merged_result|done].
Qed.

Lemma write_merge_runs P n o p q s : area n o → area n p → area n q →
  runs P (write_merge P o p q s) (λ '(r1, r2), merged n o p q r1 ∧ r2 = r1).
Proof.
  intros Ho Hp Hq. unfold write_merge. destruct (use_simd_diff P && s).
  { by apply merge_simd_runs. }
  unfold write_merge_byte. rewrite (write_merge_loop_spec _ [] [] o p q);
    [|done|destruct Ho, Hp; congruence|destruct Hp, Hq; congruence].
  destruct (enable_race_detection P && has_race o p q) eqn:E.
  - apply andb_prop in E as [E _]. split; [done|apply report_is_race].
  - cbn. split; [by apply merged_merge3|done].
Qed.

Lemma read_merge_runs P n o p q : area n o → area n p → area n q →
  runs P (read_merge P o p q) (λ '(r1, r2), merged n o p q r1 ∧ r2 = o).
Proof.
  intros Ho Hp Hq. unfold read_merge. destruct (use_simd_diff P).
  { by apply merge_simd_runs. }
  unfold read_merge_byte.
  pose proof (read_merge_loop_spec (enable_race_detection P) [] [] o p q eq_refl) as H.
  specialize (H ltac:(destruct Ho, Hp; congruence) ltac:(destruct Hp, Hq; congruence)).
  cbn [app length] in H. destruct (enable_race_detection P && _) eqn:E.
  - destruct H as (i & ->). apply andb_prop in E as [E _]. split; [done|apply report_is_race].
  - rewrite H. cbn. split; [by apply merged_merge3|done].
Qed.

(** * The memories of a block *)
Record mem_shape (n : nat) (m : blk_mem) : Prop := {
  ms_priv : area n (bm_priv m);
  ms_pub : area n (bm_pub m);
  ms_snapshot : area n (bm_snapshot m);
}.

Definition mems_shape (n : nat) (ms : mems) : Prop := map_Forall (λ _ m, mem_shape n m) ms.

Lemma mem_shape_prot n prot m : mem_shape n m → mem_shape n (set_prot prot m).
Proof. by intros []; split. Qed.

Lemma mem_shape_priv n l m : area n l → mem_shape n m → mem_shape n (set_priv l m).
Proof. by intros ? []; split. Qed.

Lemma mem_shape_pub n l m : area n l → mem_shape n m → mem_shape n (set_pub l m).
Proof. by intros ? []; split. Qed.

Lemma mem_shape_twin P n l m : area n l → mem_shape n m → mem_shape n (set_twin P l m).
Proof. unfold set_twin. intros ? []. by destruct (enable_migration P). Qed.

Lemma mem_shape_my_twin P n m : mem_shape n m → area n (my_twin P m).
Proof. unfold my_twin. intros []. by destruct (enable_migration P). Qed.

Lemma mem_shape_other P n m : mem_shape n m → area n (other_data P m).
Proof. unfold other_data. intros []. by destruct (enable_lazy_merge P). Qed.

Lemma mems_shape_insert n p m ms : mem_shape n m → mems_shape n ms → mems_shape n (<[p := m]> ms).
Proof. intros. by apply map_Forall_insert_2. Qed.

#[export] Hint Resolve mem_shape_prot mem_shape_priv mem_shape_pub mem_shape_twin
  mem_shape_my_twin mem_shape_other mems_shape_insert : menps.

Lemma set_twin_prot P l m : bm_prot (set_twin P l m) = bm_prot m.
Proof. unfold set_twin. by destruct (enable_migration P). Qed.

Lemma set_twin_priv P l m : bm_priv (set_twin P l m) = bm_priv m.
Proof. unfold set_twin. by destruct (enable_migration P). Qed.

Lemma set_twin_pub P l m : enable_migration P = true → bm_pub (set_twin P l m) = l.
Proof. unfold set_twin. by intros ->. Qed.

(** What an operation of [cur] may do to the memories of the others: it keeps
    their protection and, in migration builds, their private data, and can only
    complete their public data. *)
Definition others_kept (P : policy) (cur : Z) (ms ms' : mems) : Prop :=
  ∀ q mq, ms !! q = Some mq → ∃ mq', ms' !! q = Some mq'
    ∧ (q ≠ cur → bm_prot mq' = bm_prot mq
       ∧ (enable_migration P = true → bm_priv mq' = bm_priv mq
          ∧ (bm_pub mq' = bm_pub mq ∨ enable_lazy_merge P = true ∧ bm_pub mq' = bm_priv mq))).

Lemma others_kept_refl P cur ms : others_kept P cur ms ms.
Proof. intros q mq H. exists mq. auto. Qed.

Lemma others_kept_trans P cur ms1 ms2 ms3 :
  others_kept P cur ms1 ms2 → others_kept P cur ms2 ms3 → others_kept P cur ms1 ms3.
Proof.
  intros H1 H2 q mq Hq. destruct (H1 q mq Hq) as (m2 & E2 & H12).
  destruct (H2 q m2 E2) as (m3 & E3 & H23). exists m3. split; [done|]. intros Hne.
  destruct (H12 Hne) as [Hp Hd]. destruct (H23 Hne) as [Hp' Hd'].
  split; [congruence|]. intros Hm. destruct (Hd Hm) as [? Hpub], (Hd' Hm) as [? Hpub'].
  split; [congruence|]. destruct Hpub' as [->|[? ->]]; [|right; split; [done|congruence]].
  destruct Hpub as [->|[? ->]]; [by left|right; done].
Qed.

Lemma others_kept_insert P cur m ms : others_kept P cur ms (<[cur := m]> ms).
Proof.
  intros q mq Hq. destruct (decide (q = cur)) as [->|Hne].
  - exists m. by rewrite lookup_insert_eq.
  - exists mq. rewrite lookup_insert_ne by done. auto.
Qed.

Lemma others_kept_lookup P cur ms ms' p m :
  others_kept P cur ms ms' → ms !! p = Some m → ∃ m', ms' !! p = Some m'.
Proof. intros H E. destruct (H p m E) as (m' & ? & _). by exists m'. Qed.

#[export] Hint Resolve others_kept_refl others_kept_insert : menps.

(** * Operations *)
Section operations.
Context (P : policy) (n : nat).

Lemma data_start_read_runs cur home is_dirty ms m hm :
  mems_shape n ms → ms !! cur = Some m → ms !! home = Some hm →
  runs P (data_start_read P cur home is_dirty ms)
    (λ ms', mems_shape n ms' ∧ ∃ m', ms' = <[cur := m']> ms ∧ bm_prot m' = ProtRead).
Proof.
  intros Hs Hm Hh. unfold data_start_read.
  pose proof (map_Forall_lookup_1 _ _ _ _ Hs Hm) as Sm.
  pose proof (map_Forall_lookup_1 _ _ _ _ Hs Hh) as Sh.
  apply (runs_bind P _ _ (λ ms1, mems_shape n ms1 ∧ ∃ m1, ms1 = <[cur := m1]> ms)).
  - destruct (enable_migration P && (cur =? home)).
    { cbn. split; [done|]. exists m. by rewrite insert_id. }
    rewrite (read_other_ok P home ms hm Hh). cbn [mbind result_bind].
    rewrite (get_mem_ok _ _ _ Hm). cbn [mbind result_bind]. destruct is_dirty.
    + eapply runs_bind; [apply (read_merge_runs P n); eauto with menps; apply Sm|].
      intros [r1 r2] [[Hr _] ->]. cbn. split; [eauto 6 with menps|by eexists].
    + cbn. split; [eauto 6 with menps|by eexists].
  - intros ms1 [Hs1 [m1 ->]]. unfold get_mem. rewrite lookup_insert_eq. cbn.
    rewrite insert_insert_eq. split; [|eauto].
    apply mems_shape_insert; [|done]. apply mem_shape_prot.
    apply (map_Forall_lookup_1 _ _ cur m1 Hs1). apply lookup_insert_eq.
Qed.

Lemma data_start_write_runs cur needs_twin ms m :
  mems_shape n ms → ms !! cur = Some m →
  runs P (data_start_write P cur needs_twin ms)
    (λ ms', mems_shape n ms' ∧ ∃ m', ms' = <[cur := m']> ms ∧ bm_prot m' = ProtReadWrite).
Proof.
  intros Hs Hm. pose proof (map_Forall_lookup_1 _ _ _ _ Hs Hm) as Sm.
  unfold data_start_write. rewrite (get_mem_ok _ _ _ Hm). cbn.
  split; [|eauto]. apply mems_shape_insert; [|done]. apply mem_shape_prot.
  destruct needs_twin; [|done]. apply mem_shape_twin; [apply Sm|done].
Qed.

Lemma data_invalidate_runs cur ms m :
  mems_shape n ms → ms !! cur = Some m →
  runs P (data_invalidate cur ms)
    (λ ms', mems_shape n ms' ∧ ms' = <[cur := set_prot ProtNone m]> ms).
Proof.
  intros Hs Hm. pose proof (map_Forall_lookup_1 _ _ _ _ Hs Hm) as Sm.
  unfold data_invalidate. rewrite (get_mem_ok _ _ _ Hm). cbn. eauto with menps.
Qed.

(** The contents of the copies of [cur] after the merge of a migration build:
    those of the last writer wherever its two copies agreed. *)
Definition merge_data (bt : begin_transaction_result) (om m m' : blk_mem) : Prop :=
  if bt_is_remotely_updated bt then
    bm_pub m' = bm_priv m'
    ∧ ∀ off size, (bt_is_dirty bt = true → agree off size (bm_priv m) (bm_pub m)) →
        agree off size (bm_priv m') (other_data P om)
  else bm_priv m' = bm_priv m ∧ (bm_pub m' = bm_pub m ∨ bm_pub m' = bm_priv m).

(** The put-back of a lazy merge: the last writer's twin is completed. *)
Lemma put_back_runs cur cur_owner ms m xm :
  mems_shape n ms → ms !! cur = Some m → ms !! cur_owner = Some xm →
  runs P (if enable_lazy_merge P && enable_migration P
          then write_other_pub cur_owner (other_data P xm) ms else Ok ms)
    (λ ms1, mems_shape n ms1 ∧ others_kept P cur ms ms1
       ∧ ∃ m1, ms1 !! cur = Some m1 ∧ bm_prot m1 = bm_prot m
         ∧ bm_priv m1 = bm_priv m ∧ (cur_owner ≠ cur → m1 = m)).
Proof.
  intros Hs Hm Hx. pose proof (map_Forall_lookup_1 _ _ _ _ Hs Hx) as Sx.
  destruct (enable_lazy_merge P && enable_migration P) eqn:E; [|cbn; eauto 9 with menps].
  apply andb_prop in E as [E1 E2]. unfold write_other_pub. rewrite (get_mem_ok _ _ _ Hx). cbn.
  split; [eauto with menps|]. split.
  - intros q mq Hq. destruct (decide (q = cur_owner)) as [->|Hne].
    + exists (set_pub (other_data P xm) xm). rewrite lookup_insert_eq. split; [done|]. intros _.
      simplify_eq. split; [done|]. intros _. split; [done|]. right. split; [done|].
      cbn. unfold other_data. by rewrite E1.
    + exists mq. rewrite lookup_insert_ne by done. auto.
  - destruct (decide (cur_owner = cur)) as [->|Hne].
    + exists (set_pub (other_data P xm) xm). rewrite lookup_insert_eq. simplify_eq. done.
    + exists m. rewrite lookup_insert_ne by done. done.
Qed.

Lemma merge_branches_runs cur glk le w ms m om owm :
  let bt := begin_transaction P cur glk le in
  mems_shape n ms → ms !! cur = Some m → ms !! glk_last_writer_proc glk = Some om →
  ms !! glk_owner glk = Some owm → (w = true → bt_is_dirty bt = true) →
  runs P (if negb (bt_is_remotely_updated bt) then Ok (merge_local P bt w cur m ms)
          else merge_remote P glk bt w cur ms)
    (λ ms', mems_shape n ms' ∧ others_kept P cur ms ms'
       ∧ ∃ m', ms' !! cur = Some m' ∧ bm_prot m' = bm_prot m
         ∧ (enable_migration P = true → merge_data bt om m m')).
Proof.
  intros bt Hs Hm Hom How Hw. pose proof (map_Forall_lookup_1 _ _ _ _ Hs Hm) as Sm.
  unfold merge_data. destruct (bt_is_remotely_updated bt) eqn:Hrem; cbn [negb].
  - unfold merge_remote.
    set (cur_owner := if enable_migration P then glk_last_writer_proc glk else bt_owner bt).
    assert (∃ xm, ms !! cur_owner = Some xm ∧ (enable_migration P = true → xm = om)) as (xm & Hx & Hxm).
    { unfold cur_owner. destruct (enable_migration P); [by exists om|by exists owm]. }
    pose proof (map_Forall_lookup_1 _ _ _ _ Hs Hx) as Sx.
    rewrite (read_other_ok P _ ms xm Hx). cbn [mbind result_bind].
    set (other := other_data P xm).
    eapply runs_bind; [by apply (put_back_runs cur cur_owner ms m xm)|].
    intros ms1 (Hs1 & Ho1 & m1 & Hm1 & Hp1 & Hpr1 & Hne1).
    pose proof (map_Forall_lookup_1 _ _ _ _ Hs1 Hm1) as Sm1.
    rewrite (get_mem_ok _ _ _ Hm1). cbn [mbind result_bind].
    assert (cur_owner ≠ cur ∨ enable_migration P = false) as Hdiff.
    { unfold cur_owner. destruct (enable_migration P); [left|by right].
      intros E. cbn in Hrem. apply negb_true_iff, Z.eqb_neq in Hrem. done. }
    destruct w.
    + eapply runs_bind.
      { apply (write_merge_runs P n); [by apply mem_shape_other|apply Sm1|by apply mem_shape_my_twin]. }
      intros [r1 r2] [[Hr Hag] ->]. cbn.
      split; [eauto 6 with menps|]. split; [by eapply others_kept_trans; [|apply others_kept_insert]|].
      eexists. rewrite lookup_insert_eq. split; [done|].
      rewrite set_twin_prot, set_twin_priv. split; [done|]. intros Hmig.
      rewrite set_twin_pub by done. split; [done|]. intros off size Hd. cbn.
      rewrite <-(Hxm Hmig). apply Hag. unfold my_twin. rewrite Hmig.
      destruct Hdiff as [Hd1|]; [|congruence]. rewrite (Hne1 Hd1). by apply Hd, Hw.
    + cbn. split; [eauto 6 with menps|].
      split; [by eapply others_kept_trans; [|apply others_kept_insert]|].
      eexists. rewrite lookup_insert_eq. split; [done|].
      rewrite set_twin_prot, set_twin_priv. split; [done|]. intros Hmig.
      rewrite set_twin_pub by done. split; [done|]. intros off size _. cbn.
      rewrite <-(Hxm Hmig). apply agree_refl.
  - cbn. unfold merge_local. destruct (w && bt_needs_local_copy bt).
    + split; [apply mems_shape_insert; [apply mem_shape_twin; [apply Sm|done]|done]|].
      split; [auto with menps|]. eexists. rewrite lookup_insert_eq. split; [done|].
      rewrite set_twin_prot, set_twin_priv. split; [done|]. intros Hmig.
      rewrite set_twin_pub by done. auto.
    + split; [done|]. split; [auto with menps|]. exists m. auto.
Qed.

Lemma prot_before_after bt m : bm_prot (protected_before bt m)
  = (if bt_needs_protect_before bt then ProtRead else bm_prot m).
Proof. unfold protected_before. by destruct (bt_needs_protect_before bt). Qed.

(** The write-back to the home of the builds without migration. *)
Lemma write_home_runs cur owner data ms ms1 m1 x (Φ : blk_mem → Prop) :
  enable_migration P = false → mems_shape n ms1 → others_kept P cur ms ms1 →
  ms1 !! cur = Some m1 → ms1 !! owner = Some x → area n data →
  runs P (write_other_pub owner data ms1)
    (λ ms2, mems_shape n ms2 ∧ others_kept P cur ms ms2
       ∧ ∃ m2, ms2 !! cur = Some m2 ∧ bm_prot m2 = bm_prot m1
         ∧ (enable_migration P = true → Φ m2)).
Proof.
  intros Hmig Hs Ho Hm Hx Ha. pose proof (map_Forall_lookup_1 _ _ _ _ Hs Hx) as Sx.
  unfold write_other_pub. rewrite (get_mem_ok _ _ _ Hx). cbn. split; [eauto with menps|]. split.
  - intros q mq Hq. destruct (Ho q mq Hq) as (mq' & Hq' & Hk).
    destruct (decide (q = owner)) as [->|Hne].
    + exists (set_pub data x). rewrite lookup_insert_eq. split; [done|]. intros Hne.
      simplify_eq. destruct (Hk Hne) as [? _]. split; [done|]. congruence.
    + exists mq'. rewrite lookup_insert_ne by done. done.
  - destruct (decide (cur = owner)) as [->|Hne].
    + exists (set_pub data x). rewrite lookup_insert_eq. simplify_eq. split; [done|].
      split; [done|]. congruence.
    + exists m1. rewrite lookup_insert_ne by done. split; [done|]. split; [done|]. congruence.
Qed.

(** [release_merge] of every build. *)
Lemma release_merge_runs cur glk le ms m om owm :
  let bt := begin_transaction P cur glk le in
  mems_shape n ms → ms !! cur = Some m → ms !! glk_last_writer_proc glk = Some om →
  ms !! glk_owner glk = Some owm →
  runs P (release_merge P cur glk bt ms)
    (λ '(mg, ms'), mg = MergeResult (local_written P bt m) (enable_migration P)
       ∧ mems_shape n ms' ∧ others_kept P cur ms ms'
       ∧ ∃ m', ms' !! cur = Some m' ∧ bm_prot m' = prot_after bt (bm_prot m)
         ∧ (enable_migration P = true → merge_data bt om m m')).
Proof.
  intros bt Hs Hm Hom How. pose proof (map_Forall_lookup_1 _ _ _ _ Hs Hm) as Sm.
  unfold release_merge. rewrite (get_mem_ok _ _ _ Hm). cbn [mbind result_bind].
  fold (protected_before bt m). set (m0 := protected_before bt m). set (ms0 := <[cur := m0]> ms).
  destruct (protected_before_fields bt m) as (Hpr & Hpu & Hsn). fold m0 in Hpr, Hpu, Hsn.
  assert (mem_shape n m0) as S0 by (destruct Sm; split; by rewrite ?Hpr, ?Hpu, ?Hsn).
  assert (local_written P bt m0 = local_written P bt m) as ->.
  { unfold local_written, my_twin. by rewrite Hpr, Hpu, Hsn. }
  set (w := local_written P bt m).
  assert (w = true → bt_is_dirty bt = true) as Hw by (unfold w, local_written; by destruct (bt_is_dirty bt)).
  assert (∀ q x, ms !! q = Some x → ∃ x', ms0 !! q = Some x' ∧ (q ≠ cur → x' = x)
    ∧ bm_priv x' = bm_priv x ∧ bm_pub x' = bm_pub x) as Hlook.
  { intros q x Hq. unfold ms0. destruct (decide (q = cur)) as [->|Hne].
    - exists m0. rewrite lookup_insert_eq. simplify_eq. done.
    - exists x. rewrite lookup_insert_ne by done. done. }
  destruct (Hlook _ _ Hom) as (om0 & Hom0 & _ & Eop & Eou).
  destruct (Hlook _ _ How) as (owm0 & How0 & _).
  eapply runs_bind.
  { eapply (merge_branches_runs cur glk le w ms0 m0 om0 owm0); try done.
    - by apply mems_shape_insert.
    - apply lookup_insert_eq. }
  intros ms1 (Hs1 & Ho1 & m1 & Hm1 & Hp1 & Hd1).
  assert (others_kept P cur ms ms1) as Ho1' by (eapply others_kept_trans; [apply others_kept_insert|done]).
  pose proof (map_Forall_lookup_1 _ _ _ _ Hs1 Hm1) as S1.
  rewrite (get_mem_ok _ _ _ Hm1). cbn [mbind result_bind].
  apply (runs_bind P _ _ (λ ms2, mems_shape n ms2 ∧ others_kept P cur ms ms2
    ∧ ∃ m2, ms2 !! cur = Some m2 ∧ bm_prot m2 = bm_prot m0
      ∧ (enable_migration P = true → merge_data bt om m m2))).
  - destruct (negb (enable_migration P) && w) eqn:E.
    + apply andb_prop in E as [E _]. apply negb_true_iff in E.
      destruct (others_kept_lookup _ _ _ _ _ _ Ho1' How) as (x & Hx).
      eapply runs_mono; [eapply (write_home_runs cur (bt_owner bt) (my_twin P m1) ms ms1 m1 x
        (merge_data bt om m)); try done; by apply mem_shape_my_twin|].
      cbn. intros ms2 (? & ? & m2 & ? & Hp2 & ?). rewrite Hp1 in Hp2. eauto 9.
    + cbn. split; [done|]. split; [done|]. exists m1. split; [done|]. split; [done|].
      intros Hmig. specialize (Hd1 Hmig). unfold merge_data, other_data in *.
      rewrite Hpr, Hpu, Eop, Eou in Hd1. done.
  - intros ms2 (Hs2 & Ho2 & m2 & Hm2 & Hp2 & Hd2).
    pose proof (map_Forall_lookup_1 _ _ _ _ Hs2 Hm2) as S2.
    rewrite (get_mem_ok _ _ _ Hm2). cbn [mbind result_bind runs]. cbn zeta. split; [done|].
    assert (bm_prot m0 = if bt_needs_protect_before bt then ProtRead else bm_prot m) as Hp0
      by apply prot_before_after.
    unfold prot_after. destruct (bt_needs_protect_after bt).
    + rewrite orb_true_r. split; [by apply mems_shape_insert; [apply mem_shape_prot|]|].
      split; [apply (others_kept_trans P cur ms ms2); [done|apply others_kept_insert]|].
      eexists. rewrite lookup_insert_eq. done.
    + rewrite orb_false_r. split; [done|]. split; [done|]. exists m2. split; [done|].
      split; [congruence|done].
Qed.
End operations.

(** * Atomic operations *)
Lemma bytes_le_bytes k x : bytes (le_bytes k x).
Proof.
  revert x. induction k as [|k IH]; intros x; [by constructor|].
  cbn [le_bytes]. constructor; [|apply IH]. unfold is_byte. apply Z.mod_pos_bound. lia.
Qed.

Lemma store_at_area n off size x data :
  (off + size ≤ length data)%nat → area n data → area n (store_at off size x data).
Proof.
  intros H [Hb Hl]. split; [|by rewrite length_store_at].
  unfold store_at, overwrite. apply Forall_app. split; [by apply bytes_take|].
  apply Forall_app. split; [apply bytes_le_bytes|by apply bytes_drop, bytes_drop].
Qed.

Lemma store_at_agree off size x l k :
  (off + size ≤ length l)%nat → length l = length k →
  agree off size (store_at off size x l) (store_at off size x k).
Proof.
  intros H Hl i Hi. unfold store_at, overwrite.
  assert (length (take off l) = off ∧ length (take off k) = off) as [E1 E2].
  { rewrite !length_take. lia. }
  rewrite !(lookup_app_r (take off _)) by lia. rewrite E1, E2.
  rewrite !lookup_app_l by (rewrite length_le_bytes; lia). done.
Qed.

(** An atomic operation where the two local copies agree on the variable. *)
Lemma do_amo_at_runs {A} n size off (f : Z → Z * A) cur ms m v :
  mems_shape n ms → ms !! cur = Some m → agree off size (bm_priv m) (bm_pub m) →
  load_at off size (bm_pub m) = Ok v → 0 ≤ (f v).1 < 256 ^ Z.of_nat size →
  ∃ m', do_amo_at size off f cur ms = Ok (negb (v =? (f v).1), (f v).2, <[cur := m']> ms)
    ∧ mem_shape n m' ∧ bm_prot m' = bm_prot m
    ∧ agree off size (bm_priv m') (bm_pub m') ∧ load_at off size (bm_pub m') = Ok (f v).1.
Proof.
  intros Hs Hm Hag Hv Hf. pose proof (map_Forall_lookup_1 _ _ _ _ Hs Hm) as Sm.
  assert (length (bm_priv m) = length (bm_pub m)) as Hl.
  { destruct (ms_priv _ _ Sm), (ms_pub _ _ Sm). congruence. }
  assert (off + size ≤ length (bm_pub m))%nat as Hlen.
  { unfold load_at in Hv. destruct (_ <=? _)%nat eqn:E; [|done]. by apply Nat.leb_le. }
  assert (load_at off size (bm_priv m) = Ok v) as Hv' by by rewrite (agree_load _ _ _ (bm_pub m)).
  unfold do_amo_at. rewrite (get_mem_ok _ _ _ Hm). cbn [mbind result_bind].
  rewrite Hv, Hv'. cbn [mbind result_bind]. rewrite Z.eqb_refl. cbn [assert_ mbind result_bind].
  destruct (f v) as [res cap] eqn:Ef. cbn [fst snd] in *.
  destruct (Z.eqb_spec v res) as [->|Hne]; cbn [negb].
  - exists m. by rewrite insert_id.
  - eexists. split; [done|]. cbn [bm_priv bm_pub bm_prot set_pub set_priv]. split_and!.
    + apply mem_shape_pub; [apply store_at_area; [done|apply Sm]|].
      apply mem_shape_priv; [apply store_at_area; [lia|apply Sm]|done].
    + done.
    + apply store_at_agree; [lia|done].
    + by apply load_store_at.
Qed.
