(* ===== verification/SegTable.v ===== *)
(** The operations of the segment table: seg_table.hpp of medsm2/dsm, in the
    timestamp builds.

    A block is its global lock with the attached data (BlkLock.v), one
    directory entry per process (BlkDir.v) and one memory per process
    (BlkData.v); [blk_world] holds them for all processes. An operation is a
    call by one process: it takes the read and write set of that process and
    the block, and returns its result, the sets and the block. Operations of
    different processes on a block are serialized here: [do_transaction] runs
    between [lock_global] and [unlock_global], and the entry mutex serializes
    the operations inside a process; the interleaving inside the lock is
    QueueLock.v's and FixedLock.v's. *)
From Stdlib Require Import ZArith Lia.
From stdpp Require Import base tactics list gmap.
From S2P Require Import Prelude.
From S2P Require Import Policy.
From S2P Require Import Layout.
From S2P Require Import RdSet.
From S2P Require Import WrSet.
From S2P Require Import BlkDir.
From S2P Require Import BlkData.
From S2P Require Import QueueLock.
From S2P Require Import BlkLock.
From S2P Require Import DataRuns.

Record blk_world (K : Type) := BlkWorld {
  bw_lock : K;
  bw_dirs : gmap Z local_entry;
  bw_mems : mems;
}.
Arguments BlkWorld {K} _ _ _.
Arguments bw_lock {K} _.
Arguments bw_dirs {K} _.
Arguments bw_mems {K} _.

(** [do_transaction_result], [start_read_result], [release_result]. *)
Record do_transaction_result := TxResult {
  tx_bt : begin_transaction_result;
  tx_mg : merge_result;
  tx_et : end_transaction_result;
}.

Record seg_read_result := SegRead { sg_is_newly_read : bool; sg_rd_ts : Z }.

Record release_result := Release {
  rl_release_completed : bool;
  rl_is_written : bool;
  rl_is_still_writable : bool;
  rl_new_owner : Z;
  rl_new_ts : global_entry;
}.

Section seg_table.
Context {K : Type} `{GlobalLock header K} (P : policy).
#[local] Abbreviation world := (blk_world K).

Definition get_dir (this_proc : Z) (b : world) : result local_entry :=
  match bw_dirs b !! this_proc with Some le => Ok le | None => Fail OutOfBounds end.

Definition set_dir (this_proc : Z) (le : local_entry) (b : world) : world :=
  BlkWorld (bw_lock b) (<[this_proc := le]> (bw_dirs b)) (bw_mems b).

Definition set_mems (ms : mems) (b : world) : world := BlkWorld (bw_lock b) (bw_dirs b) ms.

(** ** Transactions *)

(** [do_transaction] with the special operation [func]; [rd_ts_st] is the
    timestamp state of the caller. *)
Definition do_transaction {A} (this_proc rd_ts_st blk_id : Z)
    (func : mems → result (bool * A * mems)) (rs : rd_set) (b : world) :
    result (do_transaction_result * A * rd_set * world) :=
  le ← get_dir this_proc b;
  '(glk_ret, lk) ← blk_lock_global this_proc (bw_lock b);
  let bt_ret := begin_transaction P this_proc glk_ret le in
  '(mg_ret, ms) ← release_merge P this_proc glk_ret bt_ret (bw_mems b);
  '(is_changed, a, ms) ← func ms;
  let mg_ret := if is_changed : bool then MergeResult true (mg_is_migrated mg_ret) else mg_ret in
  '(et_ret, rs, le) ← end_transaction P this_proc rd_ts_st (get_ts_state rs) blk_id
                        glk_ret bt_ret mg_ret rs le;
  lk ← blk_unlock_global P this_proc glk_ret et_ret lk;
  Ok (TxResult bt_ret mg_ret et_ret, a, rs,
      BlkWorld lk (<[this_proc := le]> (bw_dirs b)) ms).

(** [do_transaction_default_functor]. *)
Definition default_functor (ms : mems) : result (bool * () * mems) := Ok (false, tt, ms).

Definition do_transaction_default (this_proc rd_ts_st blk_id : Z) (rs : rd_set) (b : world) :
    result (do_transaction_result * rd_set * world) :=
  '(tx_ret, _, rs, b) ← do_transaction this_proc rd_ts_st blk_id default_functor rs b;
  Ok (tx_ret, rs, b).

(** ** Upgrades *)
Definition start_read_locked (this_proc blk_id : Z) (rs : rd_set) (b : world) :
    result (seg_read_result * rd_set * world) :=
  le ← get_dir this_proc b;
  '(start_ret, rs, le) ← start_read P (get_ts_state rs) blk_id rs le;
  let b := set_dir this_proc le b in
  '(rs, b) ←
    (if sr_needs_read start_ret then
       if sr_needs_latest_read start_ret then
         '(_, rs, b) ← do_transaction_default this_proc (get_ts_state rs) blk_id rs b;
         Ok (rs, b)
       else
         ms ← data_start_read P this_proc (sr_home_proc start_ret) (sr_is_dirty start_ret)
                (bw_mems b);
         Ok (rs, set_mems ms b)
     else Ok (rs, b));
  Ok (SegRead (sr_needs_read start_ret) (sr_rd_ts start_ret), rs, b).

Definition start_write_locked (this_proc rd_ts_st blk_id : Z) (ws : wr_set) (b : world) :
    result (start_write_result * wr_set * world) :=
  le ← get_dir this_proc b;
  let '(dir_ret, ws, ge, le') :=
    start_write P rd_ts_st blk_id ws (read_lock_entry this_proc (bw_lock b)) le in
  (* the lock entry is written only when [start_write] calls [update_ts] *)
  let lk := if enable_fast_release P && (sw_needs_protect dir_ret && le_is_written_last le)
            then write_lock_entry this_proc ge (bw_lock b) else bw_lock b in
  let b := BlkWorld lk (<[this_proc := le']> (bw_dirs b)) (bw_mems b) in
  b ← (if sw_needs_protect dir_ret then
         ms ← data_start_write P this_proc (sw_needs_twin dir_ret) (bw_mems b);
         Ok (set_mems ms b)
       else Ok b);
  Ok (dir_ret, ws, b).

Definition seg_start_read := start_read_locked.

Definition seg_start_write (this_proc blk_id : Z) (rs : rd_set) (ws : wr_set) (b : world) :
    result (seg_read_result * start_write_result * rd_set * wr_set * world) :=
  '(read_ret, rs, b) ← start_read_locked this_proc blk_id rs b;
  '(write_ret, ws, b) ← start_write_locked this_proc (get_ts_state rs) blk_id ws b;
  Ok (read_ret, write_ret, rs, ws, b).

Definition seg_pin (this_proc blk_id : Z) (rs : rd_set) (ws : wr_set) (b : world) :
    result (seg_read_result * start_write_result * rd_set * wr_set * world) :=
  '(read_ret, write_ret, rs, ws, b) ← seg_start_write this_proc blk_id rs ws b;
  le ← get_dir this_proc b;
  le ← set_pinned le;
  Ok (read_ret, write_ret, rs, ws, set_dir this_proc le b).

Definition seg_unpin (this_proc : Z) (b : world) : result world :=
  le ← get_dir this_proc b;
  le ← set_unpinned le;
  Ok (set_dir this_proc le b).

(** ** Acquire *)

(** The merge or the protection an invalidation asks for. *)
Definition after_invalidation (this_proc rd_ts_st blk_id : Z) (ret : invalidate_result)
    (rs : rd_set) (b : world) : result (rd_set * world) :=
  if iv_needs_merge ret then
    '(_, rs, b) ← do_transaction_default this_proc rd_ts_st blk_id rs b;
    Ok (rs, b)
  else if iv_needs_protect ret then
    ms ← data_invalidate this_proc (bw_mems b);
    Ok (rs, set_mems ms b)
  else Ok (rs, b).

Definition seg_acquire (this_proc rd_ts_st : Z) (wn : wn_entry) (rs : rd_set) (b : world) :
    result (invalidate_result * rd_set * world) :=
  le ← get_dir this_proc b;
  let '(ret, le) := acquire (wn_home_proc wn) (wn_rd_ts wn) (wn_wr_ts wn) le in
  '(rs, b) ← after_invalidation this_proc rd_ts_st (wn_blk_id wn) ret rs (set_dir this_proc le b);
  Ok (ret, rs, b).

(** Returns the timestamps of the entry too, as [self_invalidate_result]. *)
Definition seg_self_invalidate (this_proc rd_ts_st blk_id : Z) (rs : rd_set) (b : world) :
    result (invalidate_result * Z * rd_set * world) :=
  le ← get_dir this_proc b;
  let '(ret, wr_ts, rd_ts, le) := self_invalidate rd_ts_st le in
  '(rs, b) ← after_invalidation this_proc rd_ts_st blk_id ret rs (set_dir this_proc le b);
  Ok (ret, rd_ts, rs, b).

(** ** Release *)
Definition seg_release (this_proc rd_ts_st blk_id : Z) (rs : rd_set) (b : world) :
    result (release_result * rd_set * world) :=
  le ← get_dir this_proc b;
  let check_ret := check_release P le in
  if negb (cr_needs_release check_ret) then
    Ok (Release false false false this_proc (GlobalEntry 0 0), rs, b)
  else
    is_fast ← (if cr_is_fast_released check_ret then blk_check_owned this_proc (bw_lock b)
               else Ok false);
    if is_fast : bool then
      let '(new_ts, ge, le) := fast_release P rd_ts_st (read_lock_entry this_proc (bw_lock b)) le in
      Ok (Release true true true this_proc new_ts, rs,
          BlkWorld (write_lock_entry this_proc ge (bw_lock b))
            (<[this_proc := le]> (bw_dirs b)) (bw_mems b))
    else
      '(tx_ret, rs, b) ← do_transaction_default this_proc rd_ts_st blk_id rs b;
      Ok (Release true (mg_is_written (tx_mg tx_ret)) (et_is_still_writable (tx_et tx_ret))
            (et_new_owner (tx_et tx_ret)) (et_new_ts (tx_et tx_ret)), rs, b).

(** ** Atomic operations *)

(** [compare_exchange]: success, and the value left in [expected]. *)
Definition cas_functor (expected desired : Z) (target : Z) : Z * (bool * Z) :=
  if target =? expected then (desired, (true, expected)) else (target, (false, target)).

Definition compare_exchange (this_proc blk_id : Z) (size offset : nat) (expected desired : Z)
    (rs : rd_set) (b : world) : result (bool * Z * rd_set * world) :=
  '(_, (is_success, expected), rs, b) ←
    do_transaction this_proc (get_ts_state rs) blk_id
      (do_amo_at size offset (cas_functor expected desired) this_proc) rs b;
  Ok (is_success, expected, rs, b).

Definition atomic_store (this_proc blk_id : Z) (size offset : nat) (value : Z)
    (rs : rd_set) (b : world) : result (rd_set * world) :=
  '(_, _, rs, b) ←
    do_transaction this_proc (get_ts_state rs) blk_id
      (do_amo_at size offset (λ _, (value, tt)) this_proc) rs b;
  Ok (rs, b).

(** ** The table *)

(** [get_local_lock]: every operation finds its block by the block ID. *)
Record seg_world := SegWorld { sw_layout : seg_table; sw_blks : gmap (Z * Z) world }.

Definition with_local_lock {A} (blk_id : Z) (op : world → result (A * world)) (w : seg_world) :
    result (A * seg_world) :=
  '(seg_id, _, blk_pos) ← locate P (sw_layout w) blk_id;
  match sw_blks w !! (seg_id, blk_pos) with
  | Some b => '(a, b) ← op b; Ok (a, SegWorld (sw_layout w) (<[(seg_id, blk_pos) := b]> (sw_blks w)))
  | None => Fail OutOfBounds
  end.
End seg_table.

(** * Calls of one process on a block *)
Inductive seg_op :=
| SegStartRead | SegStartWrite | SegPin | SegUnpin
| SegAcquire (rd_ts_st : Z) (wn : wn_entry)
| SegSelfInvalidate (rd_ts_st : Z)
| SegRelease (rd_ts_st : Z).

(** Runs a call; the boolean tells whether the block stays in the set of dirty
    blocks ([is_still_writable] of a release). *)
Definition seg_run `{GlobalLock header K} (P : policy) (this_proc blk_id : Z) (op : seg_op)
    (rs : rd_set) (ws : wr_set) (b : blk_world K) :
    result (bool * rd_set * wr_set * blk_world K) :=
  match op with
  | SegStartRead =>
      '(_, rs, b) ← seg_start_read P this_proc blk_id rs b; Ok (true, rs, ws, b)
  | SegStartWrite =>
      '(_, _, rs, ws, b) ← seg_start_write P this_proc blk_id rs ws b; Ok (true, rs, ws, b)
  | SegPin =>
      '(_, _, rs, ws, b) ← seg_pin P this_proc blk_id rs ws b; Ok (true, rs, ws, b)
  | SegUnpin => b ← seg_unpin this_proc b; Ok (true, rs, ws, b)
  | SegAcquire rd_ts_st wn =>
      '(_, rs, b) ← seg_acquire P this_proc rd_ts_st wn rs b; Ok (true, rs, ws, b)
  | SegSelfInvalidate rd_ts_st =>
      '(_, _, rs, b) ← seg_self_invalidate P this_proc rd_ts_st blk_id rs b; Ok (true, rs, ws, b)
  | SegRelease rd_ts_st =>
      '(ret, rs, b) ← seg_release P this_proc rd_ts_st blk_id rs b;
      Ok (rl_is_still_writable ret || negb (rl_release_completed ret), rs, ws, b)
  end.

(** When a call is legal: only an unpinned block is pinned and only a pinned
    one unpinned, write notices name a process, and timestamp states are ones
    the read set had. *)
Definition seg_allowed (valid : Z → Prop) (T : Z) (op : seg_op) (st : blk_state) : Prop :=
  match op with
  | SegStartRead | SegStartWrite => True
  | SegPin => st ≠ pinned
  | SegUnpin => st = pinned
  | SegAcquire t wn => 0 ≤ t ≤ T ∧ valid (wn_home_proc wn)
  | SegSelfInvalidate t | SegRelease t => 0 ≤ t ≤ T
  end.

(** What a call promises about the state of the block. *)
Definition seg_promise (op : seg_op) (st : blk_state) : Prop :=
  match op with
  | SegStartRead => is_invalid st = false
  | SegStartWrite => st = writable ∨ st = pinned
  | SegPin => st = pinned
  | SegUnpin => st = writable
  | _ => True
  end.

(** ** Atomic operations on one variable *)
Inductive amo_call :=
| AmoCas (p expected desired : Z)
| AmoStore (p value : Z).

(** What a call returns: the success and the [expected] of a
    compare-exchange. *)
Inductive amo_ret := CasRet (is_success : bool) (expected : Z) | StoreRet.

Definition amo_proc (c : amo_call) : Z := match c with AmoCas p _ _ | AmoStore p _ => p end.

(** Calls of any processes, one after the other; [rss] are their read sets. *)
Fixpoint amo_run `{GlobalLock header K} (P : policy) (blk_id : Z) (size off : nat)
    (calls : list amo_call) (rss : gmap Z rd_set) (b : blk_world K) :
    result (list amo_ret * gmap Z rd_set * blk_world K) :=
  match calls with
  | [] => Ok ([], rss, b)
  | c :: calls =>
      match rss !! amo_proc c with
      | None => Fail OutOfBounds
      | Some rs =>
          '(r, rs, b) ← match c with
            | AmoCas p expected desired =>
                '(ok, e, rs, b) ← compare_exchange P p blk_id size off expected desired rs b;
                Ok (CasRet ok e, rs, b)
            | AmoStore p value =>
                '(rs, b) ← atomic_store P p blk_id size off value rs b; Ok (StoreRet, rs, b)
            end;
          '(rets, rss, b) ← amo_run P blk_id size off calls (<[amo_proc c := rs]> rss) b;
          Ok (r :: rets, rss, b)
      end
  end.

(** The specification: one atomic register. *)
Definition reg_call (c : amo_call) (v : Z) : amo_ret * Z :=
  match c with
  | AmoCas _ expected desired =>
      if v =? expected then (CasRet true expected, desired) else (CasRet false v, v)
  | AmoStore _ value => (StoreRet, value)
  end.

Fixpoint reg_run (calls : list amo_call) (v : Z) : list amo_ret * Z :=
  match calls with
  | [] => ([], v)
  | c :: calls =>
      let '(r, v) := reg_call c v in
      let '(rets, v) := reg_run calls v in
      (r :: rets, v)
  end.

(** The value a call may store fits the variable. *)
Definition amo_value_ok (size : nat) (c : amo_call) : Prop :=
  match c with AmoCas _ _ x | AmoStore _ x => 0 ≤ x < 256 ^ Z.of_nat size end.

(** * The invariant of a block *)
Section seg_inv.
Context {K : Type} {HL : GlobalLock header K} (P : policy) (valid : Z → Prop).
Context {HLaws : @GlobalLockLaws header K HL valid (enable_migration P)}.
Context (Hcfg : config_allowed P = true) (Hdir : use_directory_coherence P = false).
Context (Hlease : 0 ≤ lease_ts P).
Context (n : nat).
#[local] Abbreviation world := (blk_world K).

(** The lock is free and holds the last writer and the timestamps; every
    process has an entry and a memory, whose protection is the one the state of
    the entry stands for. *)
Record blk_wf (b : world) (owner lw : Z) (ge : global_entry) : Prop := {
  bf_lock : lk_free (bw_lock b) owner (Header lw ge);
  bf_last_writer : valid lw;
  bf_shape : mems_shape n (bw_mems b);
  bf_procs : ∀ p, valid p → ∃ le m, bw_dirs b !! p = Some le ∧ bw_mems b !! p = Some m
    ∧ bm_prot m = prot_of (le_state le) ∧ valid (le_home_proc le);
}.

Definition blk_inv (T : Z) (b : world) : Prop :=
  ∃ owner lw ge, blk_wf b owner lw ge ∧ ts_below T ge.

Lemma blk_inv_mono T T' b : T ≤ T' → blk_inv T b → blk_inv T' b.
Proof.
  intros HT (owner & lw & ge & Hwf & Hge). exists owner, lw, ge. split; [done|].
  unfold ts_below in *. lia.
Qed.

(** Updating the entry and the memory of one process. *)
Lemma blk_wf_update b lk owner lw ge owner' lw' ge' p le m ms :
  blk_wf b owner lw ge → lk_free lk owner' (Header lw' ge') → valid lw' →
  mems_shape n ms → others_kept P p (bw_mems b) ms → ms !! p = Some m →
  bm_prot m = prot_of (le_state le) → valid (le_home_proc le) →
  blk_wf (BlkWorld lk (<[p := le]> (bw_dirs b)) ms) owner' lw' ge'.
Proof.
  intros [Hl Hlw Hs Hp] Hl' Hlw' Hs' Ho Hm Hprot Hhome. split; try done. cbn.
  intros q Hq. destruct (decide (q = p)) as [->|Hne].
  - exists le, m. by rewrite lookup_insert_eq.
  - destruct (Hp q Hq) as (leq & mq & Hleq & Hmq & Hpq & Hhq).
    destruct (Ho q mq Hmq) as (mq' & Hmq' & Hk). destruct (Hk Hne) as [Hk1 _].
    exists leq, mq'. rewrite lookup_insert_ne by done. split_and!; try done. congruence.
Qed.

Lemma blk_wf_set_dir b owner lw ge p le0 le :
  blk_wf b owner lw ge → bw_dirs b !! p = Some le0 → valid p →
  prot_of (le_state le) = prot_of (le_state le0) → valid (le_home_proc le) →
  blk_wf (set_dir p le b) owner lw ge.
Proof.
  intros Hwf Hle Hp Hprot Hhome. destruct (bf_procs _ _ _ _ Hwf p Hp) as (le1 & m & E & Hm & Hpm & _).
  apply (blk_wf_update b (bw_lock b) owner lw ge owner lw ge p le m (bw_mems b)); try done;
    [apply Hwf..|apply others_kept_refl|]. congruence.
Qed.

(** ** Transactions *)

(** What [do_transaction] leaves behind. *)
Record tx_post {A} (p : Z) (rs : rd_set) (b : world) (T owner lw : Z) (ge : global_entry)
    (le : local_entry) (m om : blk_mem) (Ψ : blk_mem → bool → A → blk_mem → Prop)
    (tx : do_transaction_result) (a : A) (rs' : rd_set) (b' : world)
    (m1 m2 : blk_mem) (ch : bool) (le' : local_entry) : Prop := {
  tp_rs : rd_set_wf rs' ∧ rs_min_wr_ts rs' = rs_min_wr_ts rs;
  tp_func : Ψ m1 ch a m2;
  tp_merge : enable_migration P = true →
    merge_data P (begin_transaction P p (LockGlobal owner lw ge) le) om m m1;
  tp_mem : bw_mems b' !! p = Some m2;
  tp_others : others_kept P p (bw_mems b) (bw_mems b');
  tp_written : mg_is_written (tx_mg tx)
    = local_written P (begin_transaction P p (LockGlobal owner lw ge) le) m || ch;
  tp_wf : blk_wf b' (if enable_migration P then p else owner)
            (if mg_is_written (tx_mg tx) then p else lw) (et_new_ts (tx_et tx));
  tp_ts : ts_below (T + 1 + lease_ts P) (et_new_ts (tx_et tx));
  tp_dirs : bw_dirs b' = <[p := le']> (bw_dirs b);
  tp_valid : is_invalid (le_state le') = false;
  tp_pinned : le_state le = pinned ↔ le_state le' = pinned;
  tp_still : et_is_still_writable (tx_et tx) = dirty_state (le_state le');
  tp_dirty : dirty_state (le_state le') = true → le_state le' = le_state le;
}.

Lemma do_transaction_runs {A} T p rd_ts_st blk_id (func : mems → result (bool * A * mems)) rs b
    owner lw ge le m om (Ψ : blk_mem → bool → A → blk_mem → Prop) :
  blk_wf b owner lw ge → ts_below T ge → valid p → rd_set_wf rs →
  0 ≤ rd_ts_st ≤ T → 0 ≤ rs_min_wr_ts rs ≤ T → T + 1 + lease_ts P < u64_mod →
  bw_dirs b !! p = Some le → bw_mems b !! p = Some m → bw_mems b !! lw = Some om →
  (∀ ms m1, mems_shape n ms → ms !! p = Some m1 →
     (enable_migration P = true →
      merge_data P (begin_transaction P p (LockGlobal owner lw ge) le) om m m1) →
     runs P (func ms) (λ '(ch, a, ms'), ∃ m2, ms' = <[p := m2]> ms ∧ mem_shape n m2
        ∧ bm_prot m2 = bm_prot m1 ∧ Ψ m1 ch a m2)) →
  runs P (do_transaction P p rd_ts_st blk_id func rs b)
    (λ '(tx, a, rs', b'), ∃ m1 m2 ch le',
       tx_post p rs b T owner lw ge le m om Ψ tx a rs' b' m1 m2 ch le').
Proof using HLaws Hlease.
  intros Hwf Hge Hp Hrs Hst Hmin HT Hle Hm Hom Hfunc.
  set (glk := LockGlobal owner lw ge). set (bt := begin_transaction P p glk le).
  pose proof (lk_lock _ _ _ p (bf_lock _ _ _ _ Hwf) Hp) as (k1 & El & Hheld).
  pose proof (lk_free_valid _ _ _ (bf_lock _ _ _ _ Hwf)) as Hvo.
  destruct (bf_procs _ _ _ _ Hwf owner Hvo) as (_ & owm & _ & Howm & _).
  destruct (bf_procs _ _ _ _ Hwf p Hp) as (le0 & m0 & Hle0 & Hm0 & Hprot & Hhome).
  rewrite Hle in Hle0. rewrite Hm in Hm0. injection Hle0 as <-. injection Hm0 as <-.
  unfold do_transaction, get_dir. rewrite Hle. cbn [mbind result_bind].
  unfold blk_lock_global. rewrite El. cbn [mbind result_bind]. cbn beta iota zeta.
  cbn [hd_last_writer_proc hd_ge]. fold glk. fold bt.
  eapply runs_bind.
  { apply (release_merge_runs P n p glk le (bw_mems b) m om owm); [apply Hwf|done..]. }
  intros [mg ms] (-> & Hs1 & Ho1 & m1 & Hm1 & Hp1 & Hd1).
  eapply runs_bind; [by apply Hfunc|].
  intros [[ch a] ms2] (m2 & -> & S2 & Hp2 & HΨ).
  set (w := local_written P bt m).
  set (mg := if ch then _ else _).
  assert (mg_is_written mg = w || ch ∧ mg_is_migrated mg = enable_migration P) as [Hw Hmig].
  { unfold mg. destruct ch; cbn; by rewrite ?orb_true_r, ?orb_false_r. }
  assert (∀ x, x = rd_ts_st ∨ x = get_ts_state rs → 0 ≤ x ≤ T) as Hx.
  { intros x [-> | ->]; done. }
  destruct (end_transaction_correct P p rd_ts_st (get_ts_state rs) blk_id glk mg rs le Hrs)
    as (et & rs' & le' & E & Hrs' & Hmin' & Hv & Hpt & Hst' & Hpin & _ & _ & Hh & Hlw & _).
  { done. }
  { apply (ts_below_fits P T); try done. by destruct (is_invalid (le_state le)). }
  fold bt in E, Hpt. rewrite E. cbn [mbind result_bind].
  destruct (end_transaction_published _ _ _ _ _ _ _ _ _ _ _ _ _ E) as (Hts & Hown & Hnew).
  rewrite Hmig in Hown. change (bt_owner bt) with owner in Hown.
  pose proof (lk_unlock k1 p _ (Header (et_last_writer_proc et) (et_new_ts et)) Hheld Hp)
    as (k2 & Eu & Hfree).
  unfold blk_unlock_global. change (glk_owner glk) with owner.
  rewrite Hown, Z.eqb_refl. cbn [assert_ mbind result_bind]. rewrite Eu. cbn [mbind result_bind runs].
  exists m1, m2, ch, le'. cbn [bw_mems bw_dirs tx_mg tx_et].
  assert (others_kept P p (bw_mems b) (<[p := m2]> ms)) as Ho2.
  { eapply others_kept_trans; [done|apply others_kept_insert]. }
  split; cbn [bw_mems bw_dirs tx_mg tx_et]; try done; [by rewrite lookup_insert_eq| | |].
  - change (glk_last_writer_proc glk) with lw in Hlw. rewrite Hlw in Hfree.
    eapply (blk_wf_update b); try done.
    + destruct (mg_is_written mg); [done|apply Hwf].
    + by apply mems_shape_insert.
    + by rewrite lookup_insert_eq.
    + rewrite Hp2, Hp1, Hpt. by rewrite Hprot.
    + rewrite Hh, Hown. by case (enable_migration P).
  - rewrite Hts. apply make_new_ts_below; try done. destruct (is_invalid (le_state le)); apply Hx; auto.
  - rewrite Hnew. by destruct (negb _).
Qed.

(** How far one transaction may raise the timestamps of the block. *)
Definition next_ts (T : Z) : Z := T + 1 + lease_ts P.

(** A well-formed block and read set of a process, and the result of an
    operation with the state of its entry. *)
Record op_pre (T p : Z) (rs : rd_set) (b : world) : Prop := {
  op_inv : blk_inv T b;
  op_proc : valid p;
  op_rs : rd_set_wf rs;
  op_min : 0 ≤ rs_min_wr_ts rs ≤ T;
}.

Definition op_post (T p : Z) (rs : rd_set) (S : blk_state → Prop) (rs' : rd_set) (b' : world) : Prop :=
  op_pre T p rs' b' ∧ rs_min_wr_ts rs' = rs_min_wr_ts rs
  ∧ ∃ le', bw_dirs b' !! p = Some le' ∧ S (le_state le').

Lemma op_pre_mono T T' p rs b : T ≤ T' → op_pre T p rs b → op_pre T' p rs b.
Proof using HLaws. intros HT []. split; try done; [by eapply blk_inv_mono|lia]. Qed.

Lemma op_post_intro T T' p rs S rs' b' owner lw ge le' :
  blk_wf b' owner lw ge → ts_below T' ge → T ≤ T' →
  rd_set_wf rs' → valid p → 0 ≤ rs_min_wr_ts rs ≤ T → rs_min_wr_ts rs' = rs_min_wr_ts rs →
  bw_dirs b' !! p = Some le' → S (le_state le') → op_post T' p rs S rs' b'.
Proof using HLaws.
  intros Hwf Hge HT Hrs Hp Hm Hm' Hle HS. split; [|split; [done|by exists le']].
  split; [by exists owner, lw, ge|done|done|lia].
Qed.

(** ** The operations *)

(** A transaction leaves the block readable: clean, or still writable. *)
Lemma tx_default_runs T p rd_ts_st blk_id rs b le :
  op_pre T p rs b → 0 ≤ rd_ts_st ≤ T → next_ts T < u64_mod → bw_dirs b !! p = Some le →
  runs P (do_transaction_default P p rd_ts_st blk_id rs b)
    (λ '(tx, rs', b'), op_post (next_ts T) p rs
       (λ st, is_invalid st = false ∧ (le_state le = pinned ↔ st = pinned)
              ∧ et_is_still_writable (tx_et tx) = dirty_state st
              ∧ (dirty_state st = true → st = le_state le)) rs' b').
Proof using HLaws Hlease.
  intros [(owner & lw & ge & Hwf & Hge) Hp Hrs Hmin] Hst HT Hle.
  destruct (bf_procs _ _ _ _ Hwf p Hp) as (le0 & m & Hle0 & Hm & _).
  destruct (bf_procs _ _ _ _ Hwf lw (bf_last_writer _ _ _ _ Hwf)) as (_ & om & _ & Hom & _).
  unfold do_transaction_default. eapply runs_bind.
  { eapply (do_transaction_runs T p rd_ts_st blk_id default_functor rs b owner lw ge le m om
      (λ m1 _ _ m2, m2 = m1)); try done.
    intros ms m1 Hs Hm1 _. cbn. exists m1. split; [by rewrite insert_id|].
    split; [by apply (map_Forall_lookup_1 _ _ _ _ Hs Hm1)|done]. }
  intros [[[tx []] rs'] b'] (m1 & m2 & ch & le' & []). cbn. destruct tp_rs0 as [Hrs' Hmin'].
  eapply op_post_intro; try done; unfold next_ts; [lia|by rewrite tp_dirs0, lookup_insert_eq].
Qed.

Lemma start_read_locked_runs T p blk_id rs b le :
  op_pre T p rs b → next_ts T < u64_mod → bw_dirs b !! p = Some le →
  runs P (start_read_locked P p blk_id rs b)
    (λ '(ret, rs', b'), sg_is_newly_read ret = is_invalid (le_state le)
       ∧ op_post (next_ts T) p rs
           (λ st, is_invalid st = false ∧ (le_state le = pinned ↔ st = pinned)
                  ∧ (dirty_state st = true → dirty_state (le_state le) = true)) rs' b').
Proof using HLaws Hlease Hdir.
  intros Hpre HT Hle. pose proof Hpre as [(owner & lw & ge & Hwf & Hge) Hp Hrs Hmin].
  destruct (bf_procs _ _ _ _ Hwf p Hp) as (le0 & m & Hle0 & Hm & Hprot & Hhome).
  rewrite Hle in Hle0. injection Hle0 as <-.
  unfold start_read_locked, get_dir. rewrite Hle. cbn [mbind result_bind].
  destruct (start_read_cases P blk_id rs le Hdir Hrs) as [[Hv ->]|(Hv & rs' & live & -> & Hrs' & Hmin' & Hdead)].
  - cbn. split; [done|]. eapply op_post_intro; try done.
    + eapply (blk_wf_set_dir b); done.
    + unfold next_ts. unfold ts_below in *. lia.
    + unfold next_ts. lia.
    + cbn. by rewrite lookup_insert_eq.
  - assert (le_state le = pinned ↔ False) as Hpinned by (destruct (le_state le); naive_solver).
    cbn [mbind result_bind sr_needs_read sr_needs_latest_read]. cbn zeta. destruct live; cbn [negb].
    + set (dirty := state_eqb _ _). set (le' := set_state _ le).
      destruct (bf_procs _ _ _ _ Hwf (le_home_proc le) Hhome) as (_ & hm & _ & Hhm & _).
      cbn [sr_home_proc sr_is_dirty set_dir bw_mems].
      pose proof (data_start_read_runs P n p (le_home_proc le) dirty (bw_mems b) m hm
        (bf_shape _ _ _ _ Hwf) Hm Hhm) as Hr.
      unfold runs in Hr |- *. destruct (data_start_read _ _ _ _ _) as [ms|f]; [|done].
      destruct Hr as (Hs & m' & -> & Hp'). cbn. split; [done|].
      apply (op_post_intro T (next_ts T) p rs _ rs' _ owner lw ge le'); try done.
      * apply (blk_wf_update b (bw_lock b) owner lw ge owner lw ge p le' m'); try done;
          [apply Hwf..|apply others_kept_insert|by rewrite lookup_insert_eq|].
        rewrite Hp'. unfold le'. cbn. by destruct dirty.
      * unfold next_ts, ts_below in *. lia.
      * unfold next_ts. lia.
      * cbn. by rewrite lookup_insert_eq.
      * unfold le', dirty. cbn. rewrite Hpinned. revert Hv. by destruct (le_state le).
    + rewrite (Hdead eq_refl) in *.
      assert (op_pre T p rs (set_dir p le b)) as Hpre'.
      { split; try done. exists owner, lw, ge. split; [|done]. by eapply (blk_wf_set_dir b). }
      pose proof (tx_default_runs T p (get_ts_state rs) blk_id rs (set_dir p le b) le Hpre' Hmin HT
        ltac:(cbn; apply lookup_insert_eq)) as Hr.
      unfold runs in Hr |- *.
      destruct (do_transaction_default _ _ _ _ _ _) as [[[tx rs1] b1]|f]; [|done].
      cbn. split; [done|]. destruct Hr as (Hpost & Hm1 & le1 & Hle1 & Hv1 & Hpin1 & _ & Hd1).
      split; [done|]. split; [done|]. exists le1. split_and!; try done. intros Hd. by rewrite <-Hd1.
Qed.

Lemma fast_migrates : enable_fast_release P = true → enable_migration P = true.
Proof using Hcfg.
  unfold config_allowed in Hcfg. clear -Hcfg.
  destruct (enable_fast_release P), (enable_lazy_merge P), (enable_migration P); done.
Qed.

(** Writing the lock entry in place concerns the block only at the owner. *)
Lemma write_entry_free k owner lw ge p g :
  enable_migration P = true → lk_free k owner (Header lw ge) → valid p →
  lk_free (write_lock_entry p g k) owner (Header lw (if p =? owner then g else ge)).
Proof using HLaws.
  intros Hmig Hfree Hp. unfold write_lock_entry.
  pose proof (lk_set_local k owner _ p (Header (hd_last_writer_proc (local_lad p k)) g) Hmig Hfree Hp) as Hset.
  destruct (Z.eqb_spec p owner) as [->|Hne]; [|done].
  by rewrite (lk_local k owner _ Hmig Hfree) in *.
Qed.

Lemma start_write_locked_runs T p rd_ts_st blk_id rs ws b le :
  op_pre T p rs b → 0 ≤ rd_ts_st ≤ T → next_ts T < u64_mod → bw_dirs b !! p = Some le →
  is_invalid (le_state le) = false →
  runs P (start_write_locked P p rd_ts_st blk_id ws b)
    (λ '(ret, ws', b'), sw_is_writable ret = true
       ∧ ws' = (if is_readonly (le_state le) then add_writable blk_id ws else ws)
       ∧ op_post (next_ts T) p rs
           (λ st, (st = writable ∨ st = pinned) ∧ (le_state le = pinned ↔ st = pinned)
                  ∧ (is_readonly (le_state le) = false → st = le_state le)) rs b').
Proof using HLaws Hlease Hcfg.
  intros Hpre Hst HT Hle Hv. pose proof Hpre as [(owner & lw & ge & Hwf & Hge) Hp Hrs Hmin].
  destruct (bf_procs _ _ _ _ Hwf p Hp) as (le0 & m & Hle0 & Hm & Hprot & Hhome).
  rewrite Hle in Hle0. injection Hle0 as <-.
  unfold start_write_locked, get_dir. rewrite Hle. cbn [mbind result_bind].
  unfold start_write. destruct (is_readonly (le_state le)) eqn:Hro.
  - change (le_is_written_last (set_state writable le)) with (le_is_written_last le).
    set (le' := set_state writable le). set (g0 := read_lock_entry p (bw_lock b)).
    set (g := if enable_fast_release P && le_is_written_last le then _ else _).
    cbn [sw_needs_protect sw_needs_twin]. rewrite andb_true_l.
    set (lk := if enable_fast_release P && le_is_written_last le then write_lock_entry _ _ _ else _). cbn [bw_mems].
    assert (∃ ge', lk_free lk owner (Header lw ge') ∧ ts_below (next_ts T) ge') as (ge' & Hfree & Hge').
    { assert (ts_below (next_ts T) ge) as Hge1 by (unfold next_ts, ts_below in *; lia).
      unfold lk, g. destruct (enable_fast_release P && le_is_written_last le) eqn:E.
      - apply andb_prop in E as [E _]. pose proof (fast_migrates E) as Hmig.
        eexists. split; [apply write_entry_free; [done|apply Hwf|done]|].
        destruct (Z.eqb_spec p owner) as [->|Hne]; [|done]. cbn [snd update_ts].
        unfold g0, read_lock_entry. rewrite (lk_local _ _ _ Hmig (bf_lock _ _ _ _ Hwf)). cbn [hd_ge].
        by apply make_new_ts_below.
      - exists ge. split; [apply Hwf|done]. }
    pose proof (data_start_write_runs P n p (state_eqb (le_state le) readonly_clean) (bw_mems b) m
      (bf_shape _ _ _ _ Hwf) Hm) as Hr.
    unfold runs in Hr |- *. destruct (data_start_write _ _ _ _) as [ms|f]; [|done].
    destruct Hr as (Hs & m' & -> & Hp'). cbn. split; [done|]. split; [done|].
    apply (op_post_intro T (next_ts T) p rs _ rs _ owner lw ge' le'); try done.
    + apply (blk_wf_update b lk owner lw ge owner lw ge' p le' m'); try done;
        [apply Hwf|apply others_kept_insert|by rewrite lookup_insert_eq].
    + unfold next_ts. lia.
    + cbn. by rewrite lookup_insert_eq.
    + cbn. split; [by left|]. split; [|done]. revert Hro; by destruct (le_state le).
  - assert (le_state le = writable ∨ le_state le = pinned) as Hw by (revert Hv Hro; destruct (le_state le); naive_solver).
    assert (state_eqb (le_state le) writable || state_eqb (le_state le) pinned = true) as ->.
    { destruct Hw as [-> | ->]; done. }
    cbn [sw_needs_protect]. rewrite andb_false_r. cbn. split; [done|]. split; [done|].
    apply (op_post_intro T (next_ts T) p rs _ rs _ owner lw ge le); try done.
    + apply (blk_wf_set_dir b owner lw ge p le le); done.
    + unfold next_ts, ts_below in *. lia.
    + unfold next_ts. lia.
    + cbn. by rewrite lookup_insert_eq.
Qed.

Lemma seg_start_write_runs T p blk_id rs ws b le :
  op_pre T p rs b → next_ts (next_ts T) < u64_mod → bw_dirs b !! p = Some le →
  runs P (seg_start_write P p blk_id rs ws b)
    (λ '(read_ret, write_ret, rs', ws', b'), sg_is_newly_read read_ret = is_invalid (le_state le)
       ∧ sw_is_writable write_ret = true
       ∧ op_post (next_ts (next_ts T)) p rs
           (λ st, (st = writable ∨ st = pinned) ∧ (le_state le = pinned ↔ st = pinned)
                  ∧ (dirty_state (le_state le) = true ∨ blk_id ∈ ws_new_ids ws')) rs' b').
Proof using HLaws Hlease Hcfg Hdir.
  intros Hpre HT Hle. unfold seg_start_write.
  assert (next_ts T < u64_mod) as HT1 by (unfold next_ts in *; lia).
  eapply runs_bind; [by apply (start_read_locked_runs T p blk_id rs b le)|].
  intros [[rr rs1] b1] (Hnew & Hpre1 & Hmin1 & le1 & Hle1 & Hv1 & Hpin1 & Hd1).
  eapply runs_bind.
  { apply (start_write_locked_runs (next_ts T) p (get_ts_state rs1) blk_id rs1 ws b1 le1); try done.
    apply Hpre1. }
  intros [[wr ws2] b2] (Hw & Hws & Hpre2 & _ & le2 & Hle2 & Hst2 & Hpin2 & Hd2). cbn.
  split; [done|]. split; [done|]. split; [done|]. split; [done|]. exists le2. split; [done|].
  split; [done|]. split; [by rewrite Hpin1|]. rewrite Hws.
  destruct (is_readonly (le_state le1)) eqn:Hro; [right|left].
  - unfold add_writable. cbn. apply elem_of_app. right. by left.
  - apply Hd1. rewrite <-(Hd2 eq_refl). by destruct Hst2 as [-> | ->].
Qed.

(** Changing the entry without a change of protection. *)
Lemma op_set_dir T p rs b le le' :
  op_pre T p rs b → bw_dirs b !! p = Some le → prot_of (le_state le') = prot_of (le_state le) →
  valid (le_home_proc le') → op_pre T p rs (set_dir p le' b).
Proof using HLaws.
  intros [(owner & lw & ge & Hwf & Hge) Hp Hrs Hm] Hle Hprot Hh. split; try done.
  exists owner, lw, ge. split; [|done]. by eapply blk_wf_set_dir.
Qed.

Lemma after_invalidation_runs T p rd_ts_st blk_id ret rs b le le' :
  op_pre T p rs b → 0 ≤ rd_ts_st ≤ T → next_ts T < u64_mod → bw_dirs b !! p = Some le →
  valid (le_home_proc le') →
  prot_of (le_state le') = (if iv_needs_protect ret then ProtNone else prot_of (le_state le)) →
  (iv_needs_merge ret = true → iv_needs_protect ret = false) →
  runs P (after_invalidation P p rd_ts_st blk_id ret rs (set_dir p le' b))
    (λ '(rs', b'), op_post (next_ts T) p rs
       (λ st, if iv_needs_merge ret
              then is_invalid st = false ∧ (dirty_state st = true → st = le_state le')
              else st = le_state le') rs' b').
Proof using HLaws Hlease.
  intros Hpre Hst HT Hle Hh Hprot Hmp. unfold after_invalidation.
  pose proof Hpre as [(owner & lw & ge & Hwf & Hge) Hp Hrs Hmin].
  destruct (bf_procs _ _ _ _ Hwf p Hp) as (le0 & m & Hle0 & Hm & Hpm & _).
  assert (bw_dirs (set_dir p le' b) !! p = Some le') as Hle' by (cbn; apply lookup_insert_eq).
  assert (T ≤ next_ts T) as HTle by (unfold next_ts; lia).
  destruct (iv_needs_merge ret) eqn:Em.
  - rewrite (Hmp eq_refl) in Hprot.
    eapply runs_bind; [eapply (tx_default_runs T p rd_ts_st blk_id rs (set_dir p le' b) le'); try done|].
    { by apply (op_set_dir T p rs b le le'). }
    intros [[tx rs1] b1] (Hpre1 & Hm1 & le1 & Hle1 & Hv1 & _ & _ & Hd1). cbn.
    split; [done|]. split; [done|]. by exists le1.
  - destruct (iv_needs_protect ret).
    + unfold data_invalidate, get_mem. cbn [set_dir bw_mems]. rewrite Hm. cbn.
      apply (op_post_intro T (next_ts T) p rs _ rs _ owner lw ge le'); try done;
        [|unfold ts_below in *; lia].
      eapply (blk_wf_update b (bw_lock b) owner lw ge owner lw ge p le' (set_prot ProtNone m));
        try done; [apply Hwf..| |apply others_kept_insert|by rewrite lookup_insert_eq].
      apply mems_shape_insert; [apply mem_shape_prot|apply Hwf].
      apply (map_Forall_lookup_1 _ _ _ _ (bf_shape _ _ _ _ Hwf) Hm).
    + cbn. assert (op_pre T p rs (set_dir p le' b)) as Hpre' by by apply (op_set_dir T p rs b le le').
      split; [by eapply op_pre_mono|]. split; [done|]. by exists le'.
Qed.

(** Invalidation by timestamps, for both callers. *)
Lemma set_invalid_state_spec b le ret le' : set_invalid_state b le = (ret, le') →
  prot_of (le_state le') = (if iv_needs_protect ret then ProtNone else prot_of (le_state le))
  ∧ dirty_state (le_state le') = dirty_state (le_state le)
  ∧ (iv_needs_merge ret = true → iv_needs_protect ret = false)
  ∧ le_home_proc le' = le_home_proc le.
Proof.
  unfold set_invalid_state. destruct b; [destruct (le_state le) eqn:E|]; intros [= <- <-];
    cbn; rewrite ?E; done.
Qed.

Lemma seg_acquire_runs T p rd_ts_st wn rs b le :
  op_pre T p rs b → 0 ≤ rd_ts_st ≤ T → next_ts T < u64_mod → bw_dirs b !! p = Some le →
  valid (wn_home_proc wn) →
  runs P (seg_acquire P p rd_ts_st wn rs b)
    (λ '(ret, rs', b'), op_post (next_ts T) p rs
       (λ st, dirty_state st = true → dirty_state (le_state le) = true) rs' b').
Proof using HLaws Hlease.
  intros Hpre Hst HT Hle Hh. unfold seg_acquire, get_dir. rewrite Hle. cbn [mbind result_bind].
  destruct (acquire _ _ _ le) as [ret le'] eqn:E.
  destruct (op_inv _ _ _ _ Hpre) as (owner & lw & ge & Hwf & _).
  destruct (bf_procs _ _ _ _ Hwf p (op_proc _ _ _ _ Hpre)) as (le0 & _ & Hle0 & _ & _ & Hhome).
  rewrite Hle in Hle0. injection Hle0 as <-.
  destruct (acquire_correct _ _ _ _ _ _ E) as (_ & Hign & Hnew & Hdirty & Hprot & _).
  assert (iv_needs_merge ret = true → iv_needs_protect ret = false) as Hmp.
  { revert E. unfold acquire, invalidate. destruct (set_invalid_state _ le) as [r l] eqn:E.
    destruct (set_invalid_state_spec _ _ _ _ E) as (_ & _ & Hmp & _).
    destruct (negb (iv_is_ignored r)); by intros [= <- <-]. }
  eapply runs_bind.
  { apply (after_invalidation_runs T p rd_ts_st (wn_blk_id wn) ret rs b le le'); try done.
    destruct (iv_is_ignored ret); [by destruct (Hign eq_refl) as [-> _]|].
    by destruct (Hnew eq_refl) as (_ & -> & _). }
  intros [rs1 b1] (Hp1 & Hm1 & le1 & Hle1 & HS). cbn. split; [done|]. split; [done|].
  exists le1. split; [done|]. rewrite <-Hdirty. destruct (iv_needs_merge ret); [|by rewrite HS].
  intros Hd. by rewrite <-(proj2 HS Hd).
Qed.

Lemma seg_self_invalidate_runs T p rd_ts_st blk_id rs b le :
  op_pre T p rs b → 0 ≤ rd_ts_st ≤ T → next_ts T < u64_mod → bw_dirs b !! p = Some le →
  runs P (seg_self_invalidate P p rd_ts_st blk_id rs b)
    (λ '(_, _, rs', b'), op_post (next_ts T) p rs
       (λ st, dirty_state st = true → dirty_state (le_state le) = true) rs' b').
Proof using HLaws Hlease.
  intros Hpre Hst HT Hle. unfold seg_self_invalidate, get_dir. rewrite Hle. cbn [mbind result_bind].
  unfold self_invalidate, invalidate. destruct (set_invalid_state _ le) as [ret le'] eqn:E.
  destruct (set_invalid_state_spec _ _ _ _ E) as (Hprot & Hdirty & Hmp & Hhome').
  destruct (op_inv _ _ _ _ Hpre) as (owner & lw & ge & Hwf & _).
  destruct (bf_procs _ _ _ _ Hwf p (op_proc _ _ _ _ Hpre)) as (le0 & _ & Hle0 & _ & _ & Hhome).
  rewrite Hle in Hle0. injection Hle0 as <-.
  eapply runs_bind.
  { apply (after_invalidation_runs T p rd_ts_st blk_id ret rs b le le'); try done. congruence. }
  intros [rs1 b1] (Hp1 & Hm1 & le1 & Hle1 & HS). cbn. split; [done|]. split; [done|].
  exists le1. split; [done|]. rewrite <-Hdirty. destruct (iv_needs_merge ret); [|by rewrite HS].
  intros Hd. by rewrite <-(proj2 HS Hd).
Qed.

Lemma seg_release_runs T p rd_ts_st blk_id rs b le :
  op_pre T p rs b → 0 ≤ rd_ts_st ≤ T → next_ts T < u64_mod → bw_dirs b !! p = Some le →
  runs P (seg_release P p rd_ts_st blk_id rs b)
    (λ '(ret, rs', b'), rl_release_completed ret = dirty_state (le_state le)
       ∧ op_post (next_ts T) p rs
           (λ st, dirty_state st = true → st = le_state le ∧ rl_is_still_writable ret = true) rs' b').
Proof using HLaws Hlease Hcfg.
  intros Hpre Hst HT Hle. pose proof Hpre as [(owner & lw & ge & Hwf & Hge) Hp Hrs Hmin].
  destruct (bf_procs _ _ _ _ Hwf p Hp) as (le0 & m & Hle0 & Hm & Hprot & Hhome).
  rewrite Hle in Hle0. injection Hle0 as <-.
  unfold seg_release, get_dir. rewrite Hle. cbn [mbind result_bind].
  rewrite check_release_dirty. assert (T ≤ next_ts T) as HTle by (unfold next_ts; lia).
  destruct (dirty_state (le_state le)) eqn:Hd; cbn [negb].
  2: { cbn. split; [done|]. split; [by eapply op_pre_mono|]. split; [done|]. exists le. split; [done|].
       rewrite Hd. done. }
  eapply (runs_bind P _ _ (λ f, f = true → enable_migration P = true ∧ p = owner)).
  { destruct (cr_is_fast_released _) eqn:Ef; [|done]. cbn in Ef. apply andb_prop in Ef as [Ef _].
    pose proof (fast_migrates Ef) as Hmig. unfold blk_check_owned.
    rewrite (lk_check_owned _ _ _ p Hmig (bf_lock _ _ _ _ Hwf) Hp). cbn.
    intros Heq%Z.eqb_eq. done. }
  intros [|] Hfast.
  - destruct (Hfast eq_refl) as [Hmig ->]. unfold fast_release, update_ts. cbn [runs].
    split; [done|]. unfold read_lock_entry. rewrite (lk_local _ _ _ Hmig (bf_lock _ _ _ _ Hwf)).
    cbn [hd_ge]. set (g := make_new_ts _ _ _ _ _). set (le' := LocalEntry _ _ _ _ _ _ _ _).
    pose proof (write_entry_free (bw_lock b) owner lw ge owner g Hmig (bf_lock _ _ _ _ Hwf) Hp) as Hfree.
    rewrite Z.eqb_refl in Hfree.
    apply (op_post_intro T (next_ts T) owner rs _ rs _ owner lw g le'); try done.
    + eapply (blk_wf_update b _ owner lw ge owner lw g owner le' m); try done;
        [apply Hwf..|apply others_kept_refl].
    + by apply make_new_ts_below.
    + cbn. by rewrite lookup_insert_eq.
  - eapply runs_bind; [by eapply (tx_default_runs T p rd_ts_st blk_id rs b le)|].
    intros [[tx rs1] b1] (Hpre1 & Hm1 & le1 & Hle1 & Hv1 & _ & Hst1 & Hd1). cbn. split; [done|].
    split; [done|]. split; [done|]. exists le1. split; [done|]. intros Hx. rewrite Hst1.
    split; [by apply Hd1|done].
Qed.

Lemma seg_pin_runs T p blk_id rs ws b le :
  op_pre T p rs b → next_ts (next_ts T) < u64_mod → bw_dirs b !! p = Some le →
  le_state le ≠ pinned →
  runs P (seg_pin P p blk_id rs ws b)
    (λ '(_, _, rs', ws', b'), op_post (next_ts (next_ts T)) p rs
       (λ st, st = pinned ∧ (dirty_state (le_state le) = true ∨ blk_id ∈ ws_new_ids ws')) rs' b').
Proof using HLaws Hlease Hcfg Hdir.
  intros Hpre HT Hle Hnp. unfold seg_pin.
  eapply runs_bind; [by apply (seg_start_write_runs T p blk_id rs ws b le)|].
  intros [[[[rr wr] rs1] ws1] b1] (_ & _ & Hpre1 & Hm1 & le1 & Hle1 & Hst1 & Hpin1 & Hd1).
  assert (le_state le1 = writable) as Hw.
  { destruct Hst1 as [?|Hx]; [done|]. by apply Hpin1 in Hx. }
  unfold get_dir. rewrite Hle1. cbn [mbind result_bind]. unfold set_pinned. rewrite Hw.
  cbn [state_eqb mbind result_bind]. rewrite assert_true by done. cbn.
  split; [|split; [done|]].
  - eapply op_set_dir; [done..| |]; [by rewrite Hw|].
    destruct (op_inv _ _ _ _ Hpre1) as (owner & lw & ge & Hwf & _).
    destruct (bf_procs _ _ _ _ Hwf p (op_proc _ _ _ _ Hpre1)) as (le2 & _ & Hle2 & _ & _ & Hhome).
    cbn. congruence.
  - eexists. split; [apply lookup_insert_eq|]. done.
Qed.

Lemma seg_unpin_runs T p rs b le :
  op_pre T p rs b → bw_dirs b !! p = Some le → le_state le = pinned →
  runs P (seg_unpin p b) (λ b', op_post T p rs (λ st, st = writable) rs b').
Proof using HLaws.
  intros Hpre Hle Hpin. unfold seg_unpin, get_dir. rewrite Hle. cbn [mbind result_bind].
  unfold set_unpinned. rewrite Hpin, assert_true by done. cbn. split; [|split; [done|]].
  - eapply op_set_dir; [done..| |]; [by rewrite Hpin|].
    destruct (op_inv _ _ _ _ Hpre) as (owner & lw & ge & Hwf & _).
    destruct (bf_procs _ _ _ _ Hwf p (op_proc _ _ _ _ Hpre)) as (le2 & _ & Hle2 & _ & _ & Hhome).
    cbn. congruence.
  - eexists. split; [apply lookup_insert_eq|]. done.
Qed.

(** C21: every call of the segment table on a well-formed block either reports
    a data race (in a build with race detection) or succeeds: the lock is free
    again with the new last writer and timestamps, the protection of every
    process's pages is the one its entry says, and the read set is still
    ordered and valid. A read leaves the block readable, a write leaves it
    writable, a pinned block is writable and stays; and a block that may hold
    unreleased writes is in the write set: it was dirty before and a release
    keeps it, or the call added it. *)
Theorem seg_table_safe T p blk_id op rs ws b le
    (Hpre : op_pre T p rs b) (HT : next_ts (next_ts T) < u64_mod)
    (Hle : bw_dirs b !! p = Some le) (Hop : seg_allowed valid T op (le_state le)) :
  runs P (seg_run P p blk_id op rs ws b)
    (λ '(kept, rs', ws', b'), op_post (next_ts (next_ts T)) p rs
       (λ st, seg_promise op st
          ∧ (dirty_state st = true →
               dirty_state (le_state le) = true ∧ kept = true ∨ blk_id ∈ ws_new_ids ws')) rs' b').
Proof using HLaws Hlease Hcfg Hdir.
  assert (next_ts T < u64_mod) as HT1 by (unfold next_ts in *; lia).
  assert (T ≤ next_ts (next_ts T)) as HT0 by (unfold next_ts in *; lia).
  assert (∀ T' S S' rs' b', T' ≤ next_ts (next_ts T) → op_post T' p rs S rs' b' →
    (∀ st, S st → S' st) → op_post (next_ts (next_ts T)) p rs S' rs' b') as Hmono.
  { intros T' S S' rs' b' HT' (Hp' & Hm' & le' & Hle' & HS) Himp.
    split; [by eapply op_pre_mono|]. split; [done|]. exists le'. auto. }
  assert (next_ts T ≤ next_ts (next_ts T)) as HT2 by (unfold next_ts; lia).
  destruct op as [| | | |t wn|t|t]; cbn [seg_run seg_allowed seg_promise] in *.
  - eapply runs_bind; [by apply (start_read_locked_runs T p blk_id rs b le)|].
    intros [[r rs1] b1] (_ & Hpost). cbn. eapply Hmono; [|done|]; [done|]. naive_solver.
  - eapply runs_bind; [by apply (seg_start_write_runs T p blk_id rs ws b le)|].
    intros [[[[r w] rs1] ws1] b1] (_ & _ & Hpost). cbn. eapply Hmono; [|done|]; [done|]. naive_solver.
  - eapply runs_bind; [by apply (seg_pin_runs T p blk_id rs ws b le)|].
    intros [[[[r w] rs1] ws1] b1] Hpost. cbn. eapply Hmono; [|done|]; [done|]. naive_solver.
  - eapply runs_bind; [by apply (seg_unpin_runs T p rs b le)|].
    intros b1 Hpost. cbn. eapply Hmono; [|done|]; [done|]. cbn. rewrite Hop. naive_solver.
  - destruct Hop as [Ht Hwn]. eapply runs_bind; [by apply (seg_acquire_runs T p t wn rs b le)|].
    intros [[r rs1] b1] Hpost. cbn. eapply Hmono; [|done|]; [done|]. naive_solver.
  - eapply runs_bind; [by apply (seg_self_invalidate_runs T p t blk_id rs b le)|].
    intros [[[r rd] rs1] b1] Hpost. cbn. eapply Hmono; [|done|]; [done|]. naive_solver.
  - eapply runs_bind; [by apply (seg_release_runs T p t blk_id rs b le)|].
    intros [[r rs1] b1] (_ & Hpost). cbn. eapply Hmono; [|done|]; [done|].
    cbn. intros st Hst. split; [done|]. intros Hd. destruct (Hst Hd) as [<- ->]. by left.
Qed.

(** ** Atomic operations *)

(** The variable has the value [v]: at the last writer of the block; and every
    process that wrote the block last or has unreleased writes has equal copies
    of the variable (it is only accessed atomically). *)
Record amo_inv (off size : nat) (T v : Z) (b : world) (owner lw : Z) (ge : global_entry) : Prop := {
  ai_wf : blk_wf b owner lw ge;
  ai_ts : ts_below T ge;
  ai_value : ∃ om, bw_mems b !! lw = Some om ∧ load_at off size (other_data P om) = Ok v;
  ai_copies : ∀ p le m, valid p → bw_dirs b !! p = Some le → bw_mems b !! p = Some m →
    dirty_state (le_state le) = true ∨ p = lw → agree off size (bm_priv m) (bm_pub m);
}.

(** After the merge of a transaction this process has the value in both its
    copies. *)
Lemma merged_value off size T v b owner lw ge p le m om m1 :
  amo_inv off size T v b owner lw ge → valid p → bw_dirs b !! p = Some le →
  bw_mems b !! p = Some m → bw_mems b !! lw = Some om → mem_shape n m1 →
  merge_data P (begin_transaction P p (LockGlobal owner lw ge) le) om m m1 →
  agree off size (bm_priv m1) (bm_pub m1) ∧ load_at off size (bm_pub m1) = Ok v.
Proof using HLaws.
  intros Hinv Hp Hle Hm Hom S1 Hd. pose proof (ai_wf _ _ _ _ _ _ _ _ Hinv) as Hwf.
  pose proof (map_Forall_lookup_1 _ _ _ _ (bf_shape _ _ _ _ Hwf) Hm) as Sm.
  pose proof (map_Forall_lookup_1 _ _ _ _ (bf_shape _ _ _ _ Hwf) Hom) as So.
  destruct (ai_value _ _ _ _ _ _ _ _ Hinv) as (om' & Hom' & Hv). simplify_eq.
  pose proof (ai_copies _ _ _ _ _ _ _ _ Hinv p le m Hp Hle Hm) as Hag.
  unfold merge_data in Hd. rewrite bt_is_dirty_spec in Hd.
  change (bt_is_remotely_updated _) with (negb (lw =? p)) in Hd.
  assert (∀ l k, area n l → area n k → length l = length k) as Hlen.
  { intros l k [_ H1] [_ H2]. congruence. }
  destruct (Z.eqb_spec lw p) as [->|Hne]; cbn [negb] in Hd.
  - rewrite Hm in Hom. injection Hom as <-. specialize (Hag (or_intror eq_refl)).
    assert (load_at off size (bm_priv m) = Ok v ∧ load_at off size (bm_pub m) = Ok v) as [Hv1 Hv2].
    { pose proof (agree_load off size (bm_priv m) (bm_pub m)
        (Hlen _ _ (ms_priv _ _ Sm) (ms_pub _ _ Sm)) Hag) as He.
      unfold other_data in Hv. destruct (enable_lazy_merge P); split; congruence. }
    destruct Hd as [-> [-> | ->]]; done.
  - destruct Hd as [-> Hd]. split; [apply agree_refl|].
    rewrite <-Hv. apply agree_load; [apply Hlen; [apply S1|by apply mem_shape_other]|].
    apply Hd. auto.
Qed.

(** A transaction with an atomic operation on the variable. *)
Lemma amo_transaction {A} off size T v b owner lw ge p blk_id rs (f : Z → Z * A) :
  enable_migration P = true → amo_inv off size T v b owner lw ge → valid p → rd_set_wf rs →
  0 ≤ rs_min_wr_ts rs ≤ T → next_ts T < u64_mod → 0 ≤ (f v).1 < 256 ^ Z.of_nat size →
  runs P (do_transaction P p (get_ts_state rs) blk_id (do_amo_at size off f p) rs b)
    (λ '(_, a, rs', b'), a = (f v).2 ∧ rd_set_wf rs' ∧ rs_min_wr_ts rs' = rs_min_wr_ts rs
       ∧ ∃ owner' lw' ge', amo_inv off size (next_ts T) (f v).1 b' owner' lw' ge').
Proof using HLaws Hlease.
  intros Hmig Hinv Hp Hrs Hmin HT Hf. pose proof (ai_wf _ _ _ _ _ _ _ _ Hinv) as Hwf.
  destruct (bf_procs _ _ _ _ Hwf p Hp) as (le & m & Hle & Hm & _).
  destruct (bf_procs _ _ _ _ Hwf lw (bf_last_writer _ _ _ _ Hwf)) as (_ & om & _ & Hom & _).
  eapply runs_mono.
  { apply (do_transaction_runs T p (get_ts_state rs) blk_id (do_amo_at size off f p) rs b
      owner lw ge le m om (λ m1 ch a m2, a = (f v).2 ∧ ch = negb (v =? (f v).1)
        ∧ agree off size (bm_priv m2) (bm_pub m2) ∧ load_at off size (bm_pub m2) = Ok (f v).1));
      try done; [apply Hinv|].
    intros ms m1 Hs Hm1 Hd.
    destruct (merged_value off size T v b owner lw ge p le m om m1) as [Hag Hv]; try done.
    { by apply (map_Forall_lookup_1 _ _ _ _ Hs Hm1). }
    { by apply Hd. }
    destruct (do_amo_at_runs n size off f p ms m1 v Hs Hm1 Hag Hv Hf) as (m2 & -> & S2 & Hp2 & Hag2 & Hv2).
    cbn. exists m2. done. }
  intros [[[tx a] rs'] b'] (m1 & m2 & ch & le' & [[Hrs' Hmin'] (Ha & Hch & Hag2 & Hv2) _ Hm2 Hoth Hw Hwf'
    Hts' Hdirs _ _ _ _]).
  split; [done|]. split; [done|]. split; [done|]. rewrite Hmig in Hwf'.
  set (w := mg_is_written (tx_mg tx)) in *.
  exists p, (if w then p else lw), (et_new_ts (tx_et tx)). split; [done|done| |].
  - pose proof (map_Forall_lookup_1 _ _ _ _ (bf_shape _ _ _ _ Hwf') Hm2) as S2.
    assert (load_at off size (other_data P m2) = Ok (f v).1) as Hv2'.
    { rewrite <-Hv2. apply agree_load.
      - destruct (mem_shape_other P n m2 S2) as [_ ->]. by destruct (ms_pub _ _ S2) as [_ ->].
      - unfold other_data. destruct (enable_lazy_merge P); [done|apply agree_refl]. }
    destruct w; [by exists m2|]. destruct (decide (lw = p)) as [->|Hne]; [by exists m2|].
    destruct (Hoth lw om Hom) as (om' & Hom' & Hk). exists om'. split; [done|].
    destruct (Hk Hne) as [_ Hk']. destruct (Hk' Hmig) as [Hpr Hpu].
    symmetry in Hw. apply orb_false_elim in Hw as [_ Hc]. rewrite Hc in Hch.
    symmetry in Hch. apply negb_false_iff, Z.eqb_eq in Hch. rewrite <-Hch.
    destruct (ai_value _ _ _ _ _ _ _ _ Hinv) as (om1 & Hom1 & Hv). simplify_eq. rewrite <-Hv.
    f_equal. unfold other_data. destruct (enable_lazy_merge P); [done|]. destruct Hpu as [?|[? _]]; done.
  - intros q leq mq Hq Hleq Hmq Hdirty. destruct (decide (q = p)) as [->|Hne].
    { rewrite Hm2 in Hmq. by injection Hmq as <-. }
    rewrite Hdirs, lookup_insert_ne in Hleq by done.
    destruct (bf_procs _ _ _ _ Hwf q Hq) as (leq0 & mq0 & _ & Hmq0 & _).
    destruct (Hoth q mq0 Hmq0) as (mq' & Hmq' & Hk). simplify_eq.
    destruct (Hk Hne) as [_ Hk']. destruct (Hk' Hmig) as [Hpr Hpu]. rewrite Hpr.
    destruct Hpu as [-> |[_ ->]]; [|apply agree_refl].
    apply (ai_copies _ _ _ _ _ _ _ _ Hinv q leq mq0); try done.
    destruct Hdirty as [?|Hql]; [by left|right]. by destruct (mg_is_written _).
Qed.

Lemma cas_functor_reg p e d v :
  reg_call (AmoCas p e d) v
  = (CasRet (cas_functor e d v).2.1 (cas_functor e d v).2.2, (cas_functor e d v).1).
Proof. unfold reg_call, cas_functor. by destruct (v =? e). Qed.

(** One call is one step of the register. *)
Lemma amo_call_runs off size T v b owner lw ge blk_id rs c :
  enable_migration P = true → amo_inv off size T v b owner lw ge → valid (amo_proc c) →
  rd_set_wf rs → 0 ≤ rs_min_wr_ts rs ≤ T → next_ts T < u64_mod →
  amo_value_ok size c → 0 ≤ v < 256 ^ Z.of_nat size →
  runs P (match c with
          | AmoCas p expected desired =>
              '(ok, e, rs, b) ← compare_exchange P p blk_id size off expected desired rs b;
              Ok (CasRet ok e, rs, b)
          | AmoStore p value =>
              '(rs, b) ← atomic_store P p blk_id size off value rs b; Ok (StoreRet, rs, b)
          end)
    (λ '(r, rs', b'), r = (reg_call c v).1 ∧ rd_set_wf rs' ∧ rs_min_wr_ts rs' = rs_min_wr_ts rs
       ∧ 0 ≤ (reg_call c v).2 < 256 ^ Z.of_nat size
       ∧ ∃ owner' lw' ge', amo_inv off size (next_ts T) (reg_call c v).2 b' owner' lw' ge').
Proof using HLaws Hlease.
  intros Hmig Hinv Hp Hrs Hmin HT Hc Hv. destruct c as [p e d|p x]; cbn [amo_proc amo_value_ok] in *.
  - rewrite cas_functor_reg. cbn [fst snd].
    assert (0 ≤ (cas_functor e d v).1 < 256 ^ Z.of_nat size) as Hf.
    { unfold cas_functor. by destruct (v =? e). }
    pose proof (amo_transaction off size T v b owner lw ge p blk_id rs (cas_functor e d)
      Hmig Hinv Hp Hrs Hmin HT Hf) as Hr.
    unfold compare_exchange, runs in *.
    destruct (do_transaction _ _ _ _ _ _ _) as [[[[tx [ok e']] rs'] b']|]; [|done].
    cbn. destruct Hr as (Ha & Hr). rewrite <-Ha. by destruct Hr as (? & ? & ?).
  - pose proof (amo_transaction off size T v b owner lw ge p blk_id rs (λ _, (x, tt))
      Hmig Hinv Hp Hrs Hmin HT Hc) as Hr.
    unfold atomic_store, runs in *.
    destruct (do_transaction _ _ _ _ _ _ _) as [[[[tx []] rs'] b']|]; [|done].
    cbn. by destruct Hr as (_ & ? & ? & ?).
Qed.

(** The read sets of the callers. *)
Definition callers_ok (T : Z) (calls : list amo_call) (rss : gmap Z rd_set) : Prop :=
  Forall (λ c, valid (amo_proc c) ∧ ∃ rs, rss !! amo_proc c = Some rs ∧ rd_set_wf rs
    ∧ 0 ≤ rs_min_wr_ts rs ≤ T) calls.

Lemma callers_ok_insert T T' calls rss p rs rs' :
  callers_ok T calls rss → T ≤ T' → rss !! p = Some rs → rd_set_wf rs' →
  rs_min_wr_ts rs' = rs_min_wr_ts rs → callers_ok T' calls (<[p := rs']> rss).
Proof.
  intros Hc HT Hp Hwf Hmin. eapply Forall_impl; [done|]. cbn.
  intros c (Hv & r & Hr & Hw & Hm). split; [done|].
  destruct (decide (amo_proc c = p)) as [Heq|Hne].
  - rewrite Heq in *. exists rs'. rewrite lookup_insert_eq. simplify_eq. split_and!; [done|done|lia|lia].
  - exists r. rewrite lookup_insert_ne by done. split_and!; [done|done|lia|lia].
Qed.

(** C22: in the migrating builds the compare-exchanges and the stores that any
    processes make on a variable are linearized by the lock of its block: a
    sequence of calls returns what a single atomic register returns, although
    every call first fetches and merges the last writer's copy and the
    variable lives in two copies at every process. *)
Theorem amo_atomic off size T v b owner lw ge blk_id calls rss
    (Hmig : enable_migration P = true) (Hinv : amo_inv off size T v b owner lw ge)
    (Hv : 0 ≤ v < 256 ^ Z.of_nat size) (Hcalls : Forall (amo_value_ok size) calls)
    (Hrss : callers_ok T calls rss)
    (HT : T + Z.of_nat (length calls) * (1 + lease_ts P) < u64_mod) :
  runs P (amo_run P blk_id size off calls rss b)
    (λ '(rets, rss', b'), rets = (reg_run calls v).1
       ∧ ∃ T' owner' lw' ge', amo_inv off size T' (reg_run calls v).2 b' owner' lw' ge').
Proof using HLaws Hlease.
  revert T v b owner lw ge rss Hinv Hv Hrss HT.
  induction calls as [|c calls IH]; intros T v b owner lw ge rss Hinv Hv Hrss HT.
  { cbn. split; [done|]. by exists T, owner, lw, ge. }
  apply Forall_cons in Hcalls as [Hc Hcalls]. specialize (IH Hcalls).
  apply Forall_cons in Hrss as [(Hp & rs & Hrs & Hwf & Hmin) Hrss].
  cbn [amo_run reg_run]. rewrite Hrs. cbn [length] in HT.
  assert (next_ts T + Z.of_nat (length calls) * (1 + lease_ts P) < u64_mod) as HT' by (unfold next_ts; lia).
  eapply runs_bind.
  { apply (amo_call_runs off size T v b owner lw ge blk_id rs c); try done. unfold next_ts in *. nia. }
  intros [[r rs1] b1] (-> & Hwf1 & Hmin1 & Hv1 & owner1 & lw1 & ge1 & Hinv1).
  destruct (reg_call c v) as [r v1]. cbn [fst snd] in *.
  eapply runs_bind.
  { apply (IH (next_ts T) v1 b1 owner1 lw1 ge1); try done.
    eapply callers_ok_insert; try done. unfold next_ts. lia. }
  intros [[rets rss2] b2] (-> & Hend). destruct (reg_run calls v1) as [rets v2]. by cbn in *.
Qed.
End seg_inv.

(** * Atomic operations without migration *)

(** The merge of a clean block in a home-based build touches no other memory. *)
Lemma release_merge_home P cur glk bt ms mg ms' q :
  enable_migration P = false → bt_is_dirty bt = false →
  release_merge P cur glk bt ms = Ok (mg, ms') → q ≠ cur → ms' !! q = ms !! q.
Proof.
  intros Hmig Hclean E Hq. unfold release_merge, local_written, merge_local, merge_remote in E.
  rewrite Hmig, Hclean, !andb_false_r in E. cbn [andb negb] in E. inv_ok.
  repeat match goal with
  | H : (if ?b then _ else _) = Ok _ |- _ => destruct b
  end; inv_ok; repeat case_match; by rewrite ?lookup_insert_ne.
Qed.

Lemma do_amo_at_others {A} size off (f : Z → Z * A) cur ms ch a ms' q :
  do_amo_at size off f cur ms = Ok (ch, a, ms') → q ≠ cur → ms' !! q = ms !! q.
Proof.
  unfold do_amo_at. intros E Hq. inv_ok. destruct (f _) as [res cap]. inv_ok.
  case_match; by rewrite ?lookup_insert_ne.
Qed.

(** In the home-based builds an atomic operation of a process other than
    the home of the block is not published: it changes only the two copies of
    the caller, while the data every other process fetches, the public copy of
    the home, keeps the old value, although the transaction makes the caller
    the last writer. *)
Theorem home_amo_not_published {K A} `{GlobalLock header K} P p rd_ts_st blk_id size off
    (f : Z → Z * A) rs b tx a rs' b' le owner q
    (Hmig : enable_migration P = false) (Hle : bw_dirs b !! p = Some le)
    (Hclean : dirty_state (le_state le) = false)
    (E : do_transaction P p rd_ts_st blk_id (do_amo_at size off f p) rs b = Ok (tx, a, rs', b'))
    (Hown : bt_owner (tx_bt tx) = owner) (Hne : owner ≠ p) (Hq : q ≠ p) :
  bw_mems b' !! owner = bw_mems b !! owner
  ∧ et_new_owner (tx_et tx) = owner
  ∧ (mg_is_written (tx_mg tx) = true → et_last_writer_proc (tx_et tx) = p)
  ∧ ∀ P', read_other P' q (bw_mems b') = read_other P' q (bw_mems b).
Proof.
  unfold do_transaction, get_dir in E. rewrite Hle in E. cbn [mbind result_bind] in E.
  apply bind_ok in E as ([glk lk] & E1 & E). apply bind_ok in E as ([mg ms] & E2 & E).
  apply bind_ok in E as ([[ch a'] ms2] & E3 & E).
  apply bind_ok in E as ([[et rs2] le2] & E4 & E). apply bind_ok in E as (lk2 & E5 & E).
  injection E as <- <- <- <-. cbn [tx_bt tx_et tx_mg bw_mems] in *.
  assert (∀ x, x ≠ p → ms2 !! x = bw_mems b !! x) as Hsame.
  { intros x Hx. rewrite (do_amo_at_others _ _ _ _ _ _ _ _ _ E3 Hx).
    apply (release_merge_home _ _ _ _ _ _ _ _ Hmig ltac:(by rewrite bt_is_dirty_spec) E2 Hx). }
  split; [by apply Hsame|].
  destruct (end_transaction_published _ _ _ _ _ _ _ _ _ _ _ _ _ E4) as (_ & Ho & _).
  assert (mg_is_migrated mg = false) as Hm.
  { unfold release_merge in E2. repeat apply bind_ok in E2 as (? & _ & E2).
    injection E2 as <- _. done. }
  split; [rewrite Ho; destruct ch; cbn; by rewrite ?Hm|]. split.
  - intros Hw. unfold end_transaction in E4. destruct (end_counts _ _ _ _) as [[[? ?] ?] ?].
    apply bind_ok in E4 as (? & _ & E4). injection E4 as <- _ _. cbn. by rewrite Hw.
  - intros P'. unfold read_other, get_mem. by rewrite Hsame.
Qed.

(** * The initial block *)

(** The block after the collective creation: every entry invalid, every copy
    the initial contents, the lock data zeroed. *)
Definition seg_blk_init {K} (P : policy) (num_procs : Z) (lk : K) (content : list Z) : blk_world K :=
  BlkWorld lk (list_to_map ((λ p, (p, init_entry P p)) <$> seqZ 0 num_procs))
    (list_to_map ((λ p, (p, init_mem content)) <$> seqZ 0 num_procs)).

Definition zero_header : header := Header 0 (GlobalEntry 0 0).

Lemma lookup_procs {A} (f : Z → A) num_procs p :
  (list_to_map ((λ p, (p, f p)) <$> seqZ 0 num_procs) : gmap Z A) !! p
  = if decide (0 ≤ p < num_procs) then Some (f p) else None.
Proof.
  assert (NoDup ((λ p, (p, f p)) <$> seqZ 0 num_procs).*1) as Hnd.
  { rewrite <-list_fmap_compose. erewrite list_fmap_ext; [|by intros]. 
    replace (fst ∘ (λ p : Z, (p, f p)) <$> seqZ 0 num_procs) with (seqZ 0 num_procs); [apply NoDup_seqZ|].
    symmetry. apply list_fmap_id. }
  destruct (decide (0 ≤ p < num_procs)) as [Hp|Hp].
  - apply elem_of_list_to_map_1; [done|]. apply list_elem_of_fmap. exists p. split; [done|].
    apply elem_of_seqZ. lia.
  - apply not_elem_of_list_to_map_1. intros (q & -> & Hq)%list_elem_of_fmap.
    apply list_elem_of_fmap in Hq as (x & -> & Hx%elem_of_seqZ). cbn in Hp. lia.
Qed.

Lemma seg_blk_init_wf {K} `{HL : GlobalLock header K} P num_procs
    {HLaws : @GlobalLockLaws header K HL (in_range num_procs) (enable_migration P)}
    n lk owner content :
  0 < num_procs → lk_free lk owner zero_header → area n content →
  blk_wf P (in_range num_procs) n (seg_blk_init P num_procs lk content) owner 0 (GlobalEntry 0 0).
Proof.
  intros Hn Hfree Ha. split; [done|unfold in_range; lia| |].
  - cbn. intros p m Hm. rewrite (lookup_procs (λ _, init_mem content)) in Hm.
    destruct (decide _); [|done]. injection Hm as <-. by split.
  - intros p Hp. exists (init_entry P p), (init_mem content). cbn.
    rewrite (lookup_procs (init_entry P)), (lookup_procs (λ _, init_mem content)).
    rewrite !decide_True by done. done.
Qed.

(** * Concrete blocks of 256 zero bytes *)
Definition demo_zeros : list Z := replicate 256 0.

Lemma demo_zeros_area : vec_bytes (UNROLL_LEN * 1) demo_zeros.
Proof.
  split; [|reflexivity]. apply Forall_replicate. unfold is_byte. lia.
Qed.

(** Two processes and the migrating lock. *)
Definition demo_lock : qstate header := coll_make 2 1 zero_header.
Definition demo_blk : blk_world (qstate header) := seg_blk_init default_policy 2 demo_lock demo_zeros.

Lemma demo_blk_wf :
  blk_wf (HL := queue_global_lock 2) default_policy (in_range 2)
    (HLaws := queue_lock_laws 2) 1 demo_blk 1 0 (GlobalEntry 0 0).
Proof.
  apply seg_blk_init_wf; [lia| |apply demo_zeros_area].
  apply (queue_coll_make_free 2 1 zero_header). lia.
Qed.

Lemma demo_op_pre p : in_range 2 p →
  op_pre (HL := queue_global_lock 2) default_policy (in_range 2)
    (HLaws := queue_lock_laws 2) 1 0 p rd_set_init demo_blk.
Proof.
  intros Hp. split; [|done|apply rd_set_init_wf|cbn; lia].
  exists 1, 0, (GlobalEntry 0 0). split; [apply demo_blk_wf|]. unfold ts_below. cbn. lia.
Qed.

Lemma seg_table_safe_witness :
  ∃ kept rs ws b le, seg_run (H := queue_global_lock 2) default_policy 0 4096 SegPin
      rd_set_init wr_set_init demo_blk = Ok (kept, rs, ws, b)
    ∧ bw_dirs b !! 0 = Some le ∧ le_state le = pinned ∧ 4096 ∈ ws_new_ids ws.
Proof.
  pose proof (seg_table_safe (HL := queue_global_lock 2) default_policy (in_range 2)
    (HLaws := queue_lock_laws 2) eq_refl eq_refl ltac:(vm_compute; discriminate) 1 0 0 4096 SegPin
    rd_set_init wr_set_init demo_blk (init_entry default_policy 0)
    (demo_op_pre 0 ltac:(split; lia)) ltac:(vm_compute; reflexivity) ltac:(vm_compute; reflexivity)
    ltac:(discriminate)) as Hr.
  assert (is_ok (seg_run (H := queue_global_lock 2) default_policy 0 4096 SegPin
    rd_set_init wr_set_init demo_blk) = true) as Hok by (vm_compute; reflexivity).
  unfold runs in Hr. destruct (seg_run _ _ _ _ _ _ _) as [[[[kept rs] ws] b]|f]; [|discriminate].
  destruct Hr as (_ & _ & le & Hle & Hpin & Hd). cbn in Hpin.
  exists kept, rs, ws, b, le. split_and!; try done.
  rewrite Hpin in Hd. destruct (Hd eq_refl) as [[? _]|]; done.
Defined.

Definition demo_calls : list amo_call := [AmoCas 1 0 7; AmoCas 0 0 9; AmoStore 0 3; AmoCas 1 3 5].
Definition demo_rss : gmap Z rd_set := {[ 0 := rd_set_init; 1 := rd_set_init ]}.

Lemma amo_atomic_witness :
  ∃ rss b, amo_run (H := queue_global_lock 2) default_policy 4096 4 8 demo_calls demo_rss demo_blk
    = Ok ([CasRet true 0; CasRet false 7; StoreRet; CasRet true 3], rss, b).
Proof.
  assert (amo_inv (HL := queue_global_lock 2) default_policy (in_range 2)
    (HLaws := queue_lock_laws 2) 1 8 4 0 0 demo_blk 1 0 (GlobalEntry 0 0)) as Hinv.
  { split; [apply demo_blk_wf|unfold ts_below; cbn; lia| |].
    - exists (init_mem demo_zeros). split; [vm_compute; reflexivity|vm_compute; reflexivity].
    - intros p le m Hp _ Hm _. unfold demo_blk, seg_blk_init in Hm. cbn [bw_mems] in Hm.
      rewrite (lookup_procs (λ _, init_mem demo_zeros)), decide_True in Hm by done.
      injection Hm as <-. apply agree_refl. }
  assert (callers_ok (in_range 2) 0 demo_calls demo_rss) as Hc.
  { repeat constructor; try (unfold in_range; cbn; lia); exists rd_set_init;
      (split; [vm_compute; reflexivity|]; split; [apply rd_set_init_wf|cbn; lia]). }
  pose proof (amo_atomic (HL := queue_global_lock 2) default_policy (in_range 2)
    (HLaws := queue_lock_laws 2) ltac:(vm_compute; discriminate) 1 8 4 0 0 demo_blk 1 0
    (GlobalEntry 0 0) 4096 demo_calls demo_rss eq_refl Hinv ltac:(lia)
    ltac:(repeat constructor; cbn; lia) Hc ltac:(vm_compute; reflexivity)) as Hr.
  assert (is_ok (amo_run (H := queue_global_lock 2) default_policy 4096 4 8 demo_calls demo_rss
    demo_blk) = true) as Hok by (vm_compute; reflexivity).
  unfold runs in Hr. destruct (amo_run _ _ _ _ _ _ _) as [[[rets rss] b]|f]; [|discriminate].
  destruct Hr as (-> & _). exists rss, b. reflexivity.
Defined.

(** Three processes and the fixed lock at process 0. *)
Definition demo_home : blk_world (fixed_handle header) :=
  seg_blk_init plain_policy 3 (FixedHandle 0 (FixedLock.f_init zero_header)) demo_zeros.

Definition demo_cas (p : Z) (b : blk_world (fixed_handle header)) :=
  do_transaction plain_policy p 0 4096 (do_amo_at 4 8 (cas_functor 0 1) p) rd_set_init b.

(** Both compare-exchanges of 0 with 1 succeed. *)
Lemma home_amo_not_published_witness :
  ∃ tx e rs b, demo_cas 1 demo_home = Ok (tx, (true, e), rs, b)
    ∧ read_other plain_policy 0 (bw_mems b) = read_other plain_policy 0 (bw_mems demo_home)
    ∧ match demo_cas 2 b with Ok (_, (ok, _), _, _) => ok = true | Fail _ => False end.
Proof.
  destruct (demo_cas 1 demo_home) as [[[[tx [ok e]] rs] b]|f] eqn:E;
    [|vm_compute in E; discriminate].
  assert (match demo_cas 1 demo_home with
    | Ok (tx, (ok, _), _, b) => bt_owner (tx_bt tx) = 0 ∧ ok = true
        ∧ match demo_cas 2 b with Ok (_, (ok, _), _, _) => ok = true | Fail _ => False end
    | Fail _ => False end) as Hrun by (vm_compute; repeat split).
  rewrite E in Hrun. destruct Hrun as (Hown & -> & H2).
  exists tx, e, rs, b. split; [done|]. split; [|done].
  apply (home_amo_not_published plain_policy 1 0 4096 4 8 (cas_functor 0 1) rd_set_init demo_home
    tx (true, e) rs b (init_entry plain_policy 1) 0 0 eq_refl ltac:(vm_compute; reflexivity) eq_refl
    E Hown ltac:(lia) ltac:(lia)).
Defined.
