(* ===== verification/SigTable.v ===== *)
(** The table of signatures of atomic variables: sig_table.hpp of medsm2/dsm.

    A signature lives as bytes at a process, behind a lock word. [get_sig] and
    [merge_sig_to] lock it, read it (and write the merge back) and unlock it;
    every RMA access is a step here, because the lock does not exclude anyone:
    its loop leaves when the compare-and-swap found the word already locked. *)
From Stdlib Require Import ZArith Lia.
From stdpp Require Import base tactics functions list gmap.
From S2P Require Import Prelude.
From S2P Require Import Policy.
From S2P Require Import SigBuffer.

(** * Locations *)
Record sig_table := SigTbl { st_num_sigs : Z; st_sig_bytes : Z }.

Definition sig_coll_init (max_num_sigs sig_size_in_bytes : Z) : sig_table :=
  SigTbl max_num_sigs sig_size_in_bytes.

(** The process, the index of the lock word and the offset of the bytes. *)
Definition get_sig_location (t : sig_table) (num_procs sig_id : Z) : Z * Z * Z :=
  let proc_id := sig_id mod num_procs in
  let sig_pos := (sig_id / num_procs) mod st_num_sigs t in
  (proc_id, sig_pos, sig_pos * st_sig_bytes t).

(** What [merge_sig_to] computes between its read and its write. *)
Definition merge_sig_data `{FlagTable F} (P : policy) (pad : wn_entry → list Z) (uninit : list Z)
    (f : F) (sig_buf : sig_buffer) (sig_bytes : Z) (buf : list Z) : result (list Z) :=
  tbl_sig ← deserialize_from buf sig_bytes;
  '(merged_sig, _) ← merge P f tbl_sig sig_buf;
  serialize pad uninit merged_sig sig_bytes.

(** * The accesses of one location *)
Section protocol.
Context {D : Type}.

(** [get_sig], or [merge_sig_to] with the function it applies to the data. *)
Inductive sig_call := GetSig | MergeSigTo (upd : D → result D).

Inductive spc :=
| SIdle
| SLock (c : sig_call)        (** the loop of [lock] *)
| SRead (c : sig_call)        (** [buf_read] *)
| SWrite (buf : D)            (** [buf_write] of the merge *)
| SUnlock (buf : D)           (** [unlock] *)
| SReturned (buf : D)
| SFailed.                    (** an assertion failed *)

Record sstate := SState { s_lock : Z; s_data : D; s_pc : Z → spc }.

Definition s_init (data : D) : sstate := SState 0 data (λ _, SIdle).

Definition s_set_pc (p : Z) (c : spc) (s : sstate) : sstate :=
  SState (s_lock s) (s_data s) (<[p := c]> (s_pc s)).

Inductive sevent := SCall (p : Z) (c : sig_call) | SStep (p : Z).

Definition sstep (e : sevent) (s : sstate) : option sstate :=
  match e with
  | SCall p c =>
      match s_pc s p with
      | SIdle | SReturned _ => Some (s_set_pc p (SLock c) s)
      | _ => None
      end
  | SStep p =>
      match s_pc s p with
      | SIdle | SReturned _ | SFailed => None
      | SLock c =>
          let expected := 0 in let desired := 1 in
          let cas_result := s_lock s in
          let s := if cas_result =? expected then SState desired (s_data s) (s_pc s) else s in
          if cas_result =? desired then Some (s_set_pc p (SRead c) s) else Some s
      | SRead GetSig => Some (s_set_pc p (SUnlock (s_data s)) s)
      | SRead (MergeSigTo upd) =>
          match upd (s_data s) with
          | Ok buf => Some (s_set_pc p (SWrite buf) s)
          | Fail _ => Some (s_set_pc p SFailed s)
          end
      | SWrite buf => Some (s_set_pc p (SUnlock buf) (SState (s_lock s) buf (s_pc s)))
      | SUnlock buf => Some (s_set_pc p (SReturned buf) (SState 0 (s_data s) (s_pc s)))
      end
  end.

Fixpoint srun (es : list sevent) (s : sstate) : option sstate :=
  match es with
  | [] => Some s
  | e :: es => s' ← sstep e s; srun es s'
  end.

(** A call of a process that runs alone: two compare-and-swaps, the accesses
    and the unlock. *)
Definition lone_merge (p : Z) (upd : D → result D) : list sevent :=
  SCall p (MergeSigTo upd) :: replicate 5 (SStep p).

(** Two calls whose compare-and-swaps alternate. *)
Definition racing_merges (p q : Z) (u1 u2 : D → result D) : list sevent :=
  [SCall p (MergeSigTo u1); SCall q (MergeSigTo u2);
   SStep p; SStep q; SStep p;           (* p swaps 0 to 1, q finds 1, p finds 1 *)
   SStep p; SStep q;                    (* both read *)
   SStep p; SStep p; SStep q; SStep q].

Ltac run_steps :=
  repeat (cbn; first [rewrite fn_lookup_insert | rewrite fn_lookup_insert_ne by congruence
                     | match goal with H : _ = Ok _ |- _ => rewrite H end]).

Lemma lone_merge_ok p upd d d' :
  upd d = Ok d' →
  ∃ s, srun (lone_merge p upd) (s_init d) = Some s ∧ s_data s = d' ∧ s_lock s = 0
    ∧ s_pc s p = SReturned d'.
Proof.
  intros E. unfold lone_merge. run_steps. eexists. split; [done|]. by run_steps.
Qed.

(** The signature lock does not exclude: a call that runs alone returns
    and stores the merge of its signature, but two calls whose
    compare-and-swaps alternate are inside together, both return without an
    error, and the merge of one of them is lost (the data is that of the
    second merge alone). *)
Theorem sig_lock_lost_update p q u1 u2 d d1 d2
    (Hpq : p ≠ q) (H1 : u1 d = Ok d1) (H2 : u2 d = Ok d2) :
  (∃ s, srun (lone_merge p u1) (s_init d) = Some s ∧ s_data s = d1 ∧ s_pc s p = SReturned d1)
  ∧ ∃ s1 s, srun (take 7 (racing_merges p q u1 u2)) (s_init d) = Some s1
    ∧ (s_pc s1 p = SWrite d1 ∧ s_pc s1 q = SWrite d2)
    ∧ srun (racing_merges p q u1 u2) (s_init d) = Some s
    ∧ s_pc s p = SReturned d1 ∧ s_pc s q = SReturned d2 ∧ s_data s = d2.
Proof.
  split.
  { destruct (lone_merge_ok p u1 d d1 H1) as (s & ? & ? & _ & ?). by exists s. }
  unfold racing_merges. run_steps. eexists _, _. split; [done|].
  split; [by run_steps|]. split; [done|]. by run_steps.
Qed.
End protocol.
Arguments sig_call D : clear implicits.
Arguments sevent D : clear implicits.
Arguments sstate D : clear implicits.

Lemma sig_lock_lost_update_witness :
  ∃ s, srun (racing_merges 0 1 (λ d, Ok (d + 1)) (λ d, Ok (d + 10))) (s_init 0) = Some s
    ∧ s_data s = 10.
Proof.
  destruct (sig_lock_lost_update 0 1 (λ d, Ok (d + 1)) (λ d, Ok (d + 10)) 0 1 10
    ltac:(lia) eq_refl eq_refl) as (_ & _ & s & _ & _ & E & _ & _ & Hd).
  exists s. split; [exact E|exact Hd].
Defined.

(** * A full signature *)

Lemma remove_duplicated_id ex l :
  NoDup (wn_blk_id <$> l) → (∀ w, w ∈ l → wn_blk_id w ∉ ex) → remove_duplicated ex l = l.
Proof.
  revert ex. induction l as [|w l IH]; intros ex Hnd Hex; [done|].
  cbn in Hnd. apply NoDup_cons in Hnd as [Hw Hnd]. cbn.
  rewrite decide_False by (apply Hex; by left). f_equal. apply IH; [done|].
  intros x Hx. apply not_elem_of_union. split; [|apply Hex; by right].
  intros E%elem_of_singleton. apply Hw. rewrite <-E. apply list_elem_of_fmap. eauto.
Qed.

(** [merge_sig_to] does not truncate the merged signature to the size of
    the table's buffer: when the signatures of the table and of the caller
    together have notices for more blocks than fit, serializing the merge trips
    the assertion, so a release store aborts (and leaves the lock taken). *)
Theorem merge_sig_overflow `{FlagTableLaws F} P pad uninit f tbl_sig sig_buf sig_bytes buf
    (Hbuf : deserialize_from buf sig_bytes = Ok tbl_sig)
    (Hka : all_known f (wn_vec tbl_sig)) (Hkb : all_known f (wn_vec sig_buf)) (Hf : flags_are f ∅)
    (Hnd : NoDup ((wn_blk_id <$> wn_vec tbl_sig) ++ (wn_blk_id <$> wn_vec sig_buf)))
    (Hfull : sig_bytes < get_size_in_bytes (Z.of_nat (length (wn_vec tbl_sig ++ wn_vec sig_buf)))) :
  merge_sig_data P pad uninit f sig_buf sig_bytes buf = Fail AssertionFailure.
Proof.
  unfold merge_sig_data. rewrite Hbuf. cbn [mbind result_bind].
  destruct (merge_vec P f tbl_sig sig_buf Hka Hkb Hf) as (f' & a & b & -> & _ & _ & Hab).
  cbn [mbind result_bind]. unfold serialize. cbn [wn_vec].
  assert (a ++ b ≡ₚ wn_vec tbl_sig ++ wn_vec sig_buf) as Hp.
  { destruct Hab as [[= -> ->]|[= -> ->]]; [done|apply Permutation_app_comm]. }
  rewrite remove_duplicated_id.
  - rewrite (Permutation_length (std_merge_perm greater_wn a b)), (Permutation_length Hp).
    by rewrite (proj2 (Z.leb_gt _ _) Hfull).
  - rewrite (std_merge_perm greater_wn a b), Hp. by rewrite fmap_app.
  - set_solver.
Qed.


(** A table with room for one notice that holds one, and another to merge. *)
Definition demo_pad (_ : wn_entry) : list Z := [0; 0; 0; 0].
Definition demo_tbl_sig : sig_buffer := SigBuffer 0 [Wn 0 4096 20 10].
Definition demo_sig : sig_buffer := SigBuffer 0 [Wn 1 8192 25 15].

Lemma merge_sig_overflow_witness :
  get_size_in_bytes 1 = 48
  ∧ merge_sig_data (H := set_flag_table) default_policy demo_pad (replicate 48 0) ∅ demo_sig 48
      (write_sig demo_pad demo_tbl_sig) = Fail AssertionFailure.
Proof.
  split; [reflexivity|].
  apply (merge_sig_overflow (H := set_flag_table) (H0 := set_flag_laws) default_policy demo_pad
    (replicate 48 0) ∅ demo_tbl_sig demo_sig 48 (write_sig demo_pad demo_tbl_sig)).
  - vm_compute. reflexivity.
  - apply demo_known.
  - apply demo_known.
  - apply demo_flags.
  - repeat constructor; set_solver.
  - vm_compute. reflexivity.
Defined.
