(* ===== verification/MtxTable.v ===== *)
(** The table of global mutexes: mtx_table.hpp of medsm2/dsm.

    A mutex is a position of the lock table whose attached data is a serialized
    signature: the process that locks gets the signature the last holder
    unlocked with. The table is written over the interface of lock tables
    (BlkLock.v); the theorem says that it implements a table of plain mutexes
    that carry a signature. *)
From Stdlib Require Import ZArith Lia.
From stdpp Require Import base tactics functions list gmap.
From S2P Require Import Prelude.
From S2P Require Import Policy.
From S2P Require Import SigBuffer.
From S2P Require Import QueueLock.
From S2P Require Import BlkLock.

(** * The table *)

(** One mutex: the lock of the lock table, and for every process whether the
    mutex of its [local_entry] is locked. *)
Record mtx_entry (K : Type) := MtxEntry { me_lk : K; me_mtx : Z → bool }.
Arguments MtxEntry {K} me_lk me_mtx.
Arguments me_lk {K} m.
Arguments me_mtx {K} m.

Record mtx_table (K : Type) := MtxTable {
  mt_num_locks : Z;
  mt_sig_bytes : Z;
  mt_ents : gmap Z (mtx_entry K);
}.
Arguments MtxTable {K} mt_num_locks mt_sig_bytes mt_ents.
Arguments mt_num_locks {K} m.
Arguments mt_sig_bytes {K} m.
Arguments mt_ents {K} m.

Section mtx_table.
Context {K : Type} `{GlobalLock (list Z) K}.

(** [lk_coll_make lk_pos lad0] is the lock at a position of a fresh lock table
    with zeroed data. *)
Definition mtx_coll_init (lk_coll_make : Z → list Z → K) (max_num_locks sig_size_in_bytes : Z) :
    mtx_table K :=
  MtxTable max_num_locks sig_size_in_bytes
    (list_to_map ((λ i, (i, MtxEntry (lk_coll_make i (replicate (Z.to_nat sig_size_in_bytes) 0))
                              (λ _, false))) <$> seqZ 0 max_num_locks)).

Definition get_mtx (mtx_id : Z) (t : mtx_table K) : result (mtx_entry K) :=
  match mt_ents t !! mtx_id with Some e => Ok e | None => Fail OutOfBounds end.

Definition set_mtx (mtx_id : Z) (e : mtx_entry K) (t : mtx_table K) : mtx_table K :=
  MtxTable (mt_num_locks t) (mt_sig_bytes t) (<[mtx_id := e]> (mt_ents t)).

(** [lock]; [None] when it waits for another thread of the process that is in
    the mutex. *)
Definition mtx_lock (this_proc mtx_id : Z) (t : mtx_table K) :
    result (option (sig_buffer * mtx_table K)) :=
  _ ← assert_ (is_valid_mutex_id mtx_id);
  e ← get_mtx mtx_id t;
  if me_mtx e this_proc then Ok None
  else
    '(_, buf, lk) ← lock_global this_proc (me_lk e);
    sig_buf ← deserialize_from buf (mt_sig_bytes t);
    Ok (Some (sig_buf, set_mtx mtx_id (MtxEntry lk (<[this_proc := true]> (me_mtx e))) t)).

Definition mtx_unlock (pad : wn_entry → list Z) (uninit : list Z) (this_proc mtx_id : Z)
    (sig_buf : sig_buffer) (t : mtx_table K) : result (mtx_table K) :=
  _ ← assert_ (is_valid_mutex_id mtx_id);
  ser_buf ← serialize pad uninit sig_buf (mt_sig_bytes t);
  e ← get_mtx mtx_id t;
  lk ← unlock_global this_proc ser_buf (me_lk e);
  Ok (set_mtx mtx_id (MtxEntry lk (<[this_proc := false]> (me_mtx e))) t).
End mtx_table.

(** * Specification: mutexes that carry a signature *)
Inductive mtx_call := MLock (p mtx_id : Z) | MUnlock (p mtx_id : Z) (sig : sig_buffer).

(** The holder of every mutex and the signature of its last unlock. *)
Abbreviation mtx_spec := (gmap Z (option Z * sig_buffer)).

Definition mspec_init (max_num_locks : Z) : mtx_spec :=
  list_to_map ((λ i, (i, (None, empty_sig))) <$> seqZ 1 (max_num_locks - 1)).

(** What a call returns and does; [None] when it is not legal: a mutex is
    unlocked by its holder, and a call that locks waits until it is free. *)
Definition mspec_call (c : mtx_call) (m : mtx_spec) : option (option sig_buffer * mtx_spec) :=
  match c with
  | MLock p i =>
      match m !! i with
      | Some (None, s) => Some (Some s, <[i := (Some p, s)]> m)
      | _ => None
      end
  | MUnlock p i s =>
      match m !! i with
      | Some (Some q, _) => if p =? q then Some (None, <[i := (None, s)]> m) else None
      | _ => None
      end
  end.

Fixpoint mspec_run (calls : list mtx_call) (m : mtx_spec) :
    option (list (option sig_buffer) * mtx_spec) :=
  match calls with
  | [] => Some ([], m)
  | c :: calls =>
      '(r, m) ← mspec_call c m; '(rs, m) ← mspec_run calls m; Some (r :: rs, m)
  end.

(** The calls on the table; [uninit] is the memory of the fresh buffers. *)
Definition mtx_do {K} `{GlobalLock (list Z) K} (pad : wn_entry → list Z) (uninit : list Z)
    (c : mtx_call) (t : mtx_table K) : result (option sig_buffer * mtx_table K) :=
  match c with
  | MLock p i =>
      r ← mtx_lock p i t;
      match r with Some (s, t) => Ok (Some s, t) | None => Fail Aborted end
  | MUnlock p i s => t ← mtx_unlock pad uninit p i s t; Ok (None, t)
  end.

Fixpoint mtx_run {K} `{GlobalLock (list Z) K} (pad : wn_entry → list Z) (uninit : list Z)
    (calls : list mtx_call) (t : mtx_table K) : result (list (option sig_buffer) * mtx_table K) :=
  match calls with
  | [] => Ok ([], t)
  | c :: calls =>
      '(r, t) ← mtx_do pad uninit c t; '(rs, t) ← mtx_run pad uninit calls t; Ok (r :: rs, t)
  end.

(** A call of a process of the system whose signature fits the buffers. *)
Definition mtx_call_ok (valid : Z → Prop) (sig_bytes : Z) (c : mtx_call) : Prop :=
  match c with
  | MLock p _ => valid p
  | MUnlock p _ s =>
      valid p ∧ sig_in_range s ∧ get_size_in_bytes (Z.of_nat (length (wn_vec s))) ≤ sig_bytes
  end.

(** A zeroed buffer is the empty signature. *)
Lemma le_value_zeros n : le_value (replicate n 0) = 0.
Proof. induction n as [|n IH]; [done|]. cbn. rewrite IH. done. Qed.

Lemma deserialize_zeros n :
  (16 ≤ n)%nat → deserialize_from (replicate n 0) (Z.of_nat n) = Ok empty_sig.
Proof.
  intros Hn. unfold deserialize_from, read_u64, sizeof_header.
  rewrite (assert_true (16 <=? Z.of_nat n)) by (apply Z.leb_le; lia). cbn [mbind result_bind].
  rewrite !drop_replicate, !take_replicate, !le_value_zeros. cbn [mbind result_bind].
  rewrite assert_true; [done|]. apply Z.leb_le. change (get_size_in_bytes 0) with 16. lia.
Qed.

(** * The table implements the specification *)
Section refinement.
Context {K : Type} `{HLaws : GlobalLockLaws (list Z) K valid migrates}.
Context (pad : wn_entry → list Z) (pad_length : ∀ wn, length (pad wn) = 4%nat).
Context (sig_bytes : nat) (uninit : list Z) (uninit_length : length uninit = sig_bytes).

(** An entry whose mutex is in state [ms] of the specification. *)
Definition mtx_entry_ok (e : mtx_entry K) (ms : option Z * sig_buffer) : Prop :=
  match ms.1 with
  | None => (∃ owner buf, lk_free (me_lk e) owner buf
              ∧ deserialize_from buf (Z.of_nat sig_bytes) = Ok ms.2)
            ∧ ∀ p, me_mtx e p = false
  | Some p => (∃ owner, lk_held (me_lk e) p owner) ∧ valid p
            ∧ ∀ q, me_mtx e q = true ↔ q = p
  end.

(** Mutex 0 is never used. *)
Definition mtx_table_ok (t : mtx_table K) (m : mtx_spec) : Prop :=
  mt_sig_bytes t = Z.of_nat sig_bytes ∧ m !! 0 = None
  ∧ ∀ i ms, m !! i = Some ms → ∃ e, mt_ents t !! i = Some e ∧ mtx_entry_ok e ms.

Lemma set_mtx_ok t m i e ms :
  i ≠ 0 → mtx_table_ok t m → mtx_entry_ok e ms → mtx_table_ok (set_mtx i e t) (<[i := ms]> m).
Proof.
  intros Hi (Hb & H0 & He) Hok. split; [done|]. split; [by rewrite lookup_insert_ne|].
  intros j ms'. destruct (decide (j = i)) as [->|Hne].
  - rewrite lookup_insert_eq. intros [= <-]. exists e. split; [apply lookup_insert_eq|done].
  - rewrite lookup_insert_ne by done. intros (e' & He' & Hok')%He. exists e'.
    split; [cbn; by rewrite lookup_insert_ne|done].
Qed.

Lemma valid_id m i ms : m !! 0 = None → (m : mtx_spec) !! i = Some ms → is_valid_mutex_id i = true ∧ i ≠ 0.
Proof.
  intros H0 Hi. assert (i ≠ 0) as Hne by (intros ->; congruence). split; [|done].
  unfold is_valid_mutex_id. by apply negb_true_iff, Z.eqb_neq.
Qed.

Lemma mtx_lock_ok t m p i s :
  valid p → mtx_table_ok t m → m !! i = Some (None, s) →
  ∃ t', mtx_lock p i t = Ok (Some (s, t')) ∧ mtx_table_ok t' (<[i := (Some p, s)]> m).
Proof.
  intros Hp Hok Hi. pose proof Hok as (Hb & H0 & He).
  destruct (valid_id m i _ H0 Hi) as [Hv Hne].
  destruct (He i _ Hi) as (e & Ee & ((owner & buf & Hfree & Hd) & Hm)). cbn in Hd.
  destruct (lk_lock _ _ _ _ Hfree Hp) as (lk & El & Hheld).
  unfold mtx_lock, get_mtx. rewrite assert_true, Ee, bind_Ok by done. cbn [mbind result_bind].
  rewrite Hm, El. cbn [mbind result_bind]. rewrite Hb, Hd. eexists. split; [done|].
  apply set_mtx_ok; [done..|]. split; [by eexists|]. split; [done|].
  intros q. cbn. destruct (decide (q = p)) as [->|Hq]; [by rewrite fn_lookup_insert|].
  rewrite fn_lookup_insert_ne, Hm by done. done.
Qed.

Lemma mtx_unlock_ok t m p i s0 s :
  mtx_call_ok valid (Z.of_nat sig_bytes) (MUnlock p i s) →
  mtx_table_ok t m → m !! i = Some (Some p, s0) →
  ∃ t', mtx_unlock pad uninit p i s t = Ok t' ∧ mtx_table_ok t' (<[i := (None, s)]> m).
Proof.
  intros (Hp & Hs & Hfit) Hok Hi. pose proof Hok as (Hb & H0 & He).
  destruct (valid_id m i _ H0 Hi) as [Hv Hne].
  destruct (He i _ Hi) as (e & Ee & (owner & Hheld) & _ & Hm).
  destruct (serialize_correct pad pad_length s uninit (Z.of_nat sig_bytes) Hs
    ltac:(by rewrite uninit_length) Hfit) as (buf & Es & _ & Hd).
  destruct (lk_unlock _ _ _ buf Hheld Hp) as (lk & El & Hfree).
  unfold mtx_unlock, get_mtx. rewrite assert_true, bind_Ok, Hb, Es, bind_Ok, Ee, bind_Ok, El by done.
  eexists. split; [done|]. apply set_mtx_ok; [done..|]. split; [by eexists _, _|].
  intros q. cbn. destruct (decide (q = p)) as [->|Hq]; [by rewrite fn_lookup_insert|].
  rewrite fn_lookup_insert_ne by done. destruct (me_mtx e q) eqn:Eq; [|done].
  by apply Hm in Eq.
Qed.

Lemma mtx_run_ok calls t m rs m' :
  mtx_table_ok t m → Forall (mtx_call_ok valid (Z.of_nat sig_bytes)) calls →
  mspec_run calls m = Some (rs, m') →
  ∃ t', mtx_run pad uninit calls t = Ok (rs, t') ∧ mtx_table_ok t' m'.
Proof.
  revert t m rs. induction calls as [|c calls IH]; intros t m rs Hok Hc E; cbn in E.
  { injection E as <- <-. by exists t. }
  apply Forall_cons in Hc as [Hc Hcs].
  destruct (mspec_call c m) as [[r m1]|] eqn:E1; [|done]. cbn in E.
  destruct (mspec_run calls m1) as [[rs1 m2]|] eqn:E2; [|done]. cbn in E. simplify_eq.
  assert (∃ t1, mtx_do pad uninit c t = Ok (r, t1) ∧ mtx_table_ok t1 m1) as (t1 & Ed & Hok1).
  { destruct c as [p i|p i s]; cbn in E1.
    - destruct (m !! i) as [[[q|] s]|] eqn:Ei; simplify_eq.
      destruct (mtx_lock_ok t m p i s) as (t1 & El & H1); [done..|]. exists t1.
      cbn. by rewrite El.
    - destruct (m !! i) as [[[q|] s0]|] eqn:Ei; simplify_eq. destruct (Z.eqb_spec p q) as [->|]; simplify_eq.
      destruct (mtx_unlock_ok t m q i s0 s) as (t1 & El & H1); [done..|]. exists t1.
      cbn. by rewrite El. }
  destruct (IH t1 m1 rs1 Hok1 Hcs E2) as (t' & Er & Hok'). exists t'. split; [|done].
  cbn. rewrite Ed. cbn. by rewrite Er.
Qed.

Lemma mtx_coll_init_ok lk_coll_make num_locks :
  (16 ≤ sig_bytes)%nat →
  (∀ i lad, 0 ≤ i < num_locks → ∃ owner, lk_free (lk_coll_make i lad) owner lad) →
  mtx_table_ok (mtx_coll_init lk_coll_make num_locks (Z.of_nat sig_bytes)) (mspec_init num_locks).
Proof.
  intros Hb Hmk. split; [done|].
  assert (∀ i ms, mspec_init num_locks !! i = Some ms → 1 ≤ i < num_locks ∧ ms = (None, empty_sig)) as Hin.
  { intros i ms Hi. unfold mspec_init in Hi. apply elem_of_list_to_map_2 in Hi.
    apply list_elem_of_fmap in Hi as (j & [= -> ->] & Hj%elem_of_seqZ). split; [lia|done]. }
  split.
  { destruct (mspec_init num_locks !! 0) as [ms|] eqn:E; [|done]. apply Hin in E. lia. }
  intros i ms Hi. apply Hin in Hi as [Hi ->].
  set (e := MtxEntry (lk_coll_make i (replicate sig_bytes 0)) (λ _, false)).
  exists e. split.
  - cbn. rewrite Nat2Z.id. apply elem_of_list_to_map_1.
    + rewrite <-list_fmap_compose. cbn. rewrite list_fmap_id. apply NoDup_seqZ.
    + apply list_elem_of_fmap. exists i. split; [done|]. apply elem_of_seqZ. lia.
  - split; [|done]. destruct (Hmk i (replicate sig_bytes 0) ltac:(lia)) as [owner Hf].
    exists owner, (replicate sig_bytes 0). split; [done|]. by apply deserialize_zeros.
Qed.

(** C32: the table of global mutexes implements mutexes that carry a signature:
    whatever the order in which the processes of the system call [lock] and
    [unlock] on the mutexes, as long as a holder unlocks and a lock is taken
    when it is free, every call succeeds, a mutex has one holder, and [lock]
    returns exactly the signature the last holder of that mutex unlocked with
    (at first the empty signature). *)
Theorem mtx_table_refines lk_coll_make num_locks calls rs m
    (Hb : (16 ≤ sig_bytes)%nat)
    (Hmk : ∀ i lad, 0 ≤ i < num_locks → ∃ owner, lk_free (lk_coll_make i lad) owner lad)
    (Hc : Forall (mtx_call_ok valid (Z.of_nat sig_bytes)) calls)
    (Hrun : mspec_run calls (mspec_init num_locks) = Some (rs, m)) :
  ∃ t, mtx_run pad uninit calls (mtx_coll_init lk_coll_make num_locks (Z.of_nat sig_bytes)) = Ok (rs, t)
    ∧ ∀ i p s, m !! i = Some (Some p, s) → ∃ e, mt_ents t !! i = Some e ∧ ∀ q, me_mtx e q = true ↔ q = p.
Proof.
  destruct (mtx_run_ok calls _ _ rs m (mtx_coll_init_ok lk_coll_make num_locks Hb Hmk) Hc Hrun)
    as (t & E & _ & _ & He).
  exists t. split; [done|]. intros i p s Hi. destruct (He i _ Hi) as (e & Ee & _ & _ & Hm).
  by exists e.
Qed.
End refinement.

(** * A concrete run: two processes hand a mutex over. *)
Definition demo_mtx_sig : sig_buffer := SigBuffer 7 [Wn 0 4096 20 10].
Definition demo_mtx_calls : list mtx_call :=
  [MLock 0 1; MLock 1 3; MUnlock 0 1 demo_mtx_sig; MLock 1 1; MUnlock 1 3 empty_sig; MUnlock 1 1 empty_sig].

Lemma mtx_table_refines_witness :
  ∃ t, mtx_run (H := queue_global_lock 2) (λ _, [0; 0; 0; 0]) (replicate 80 0) demo_mtx_calls
      (mtx_coll_init (λ i lad, coll_make 2 i lad) 4 80)
    = Ok ([Some empty_sig; Some empty_sig; None; Some demo_mtx_sig; None; None], t).
Proof.
  destruct (mtx_table_refines (HLaws := queue_lock_laws 2) (λ _, [0; 0; 0; 0]) (λ _, eq_refl) 80
    (replicate 80 0) eq_refl (λ i lad, coll_make 2 i lad) 4 demo_mtx_calls
    [Some empty_sig; Some empty_sig; None; Some demo_mtx_sig; None; None]
    (default ∅ (snd <$> mspec_run demo_mtx_calls (mspec_init 4)))) as (t & E & _).
  - lia.
  - intros i lad Hi. exists (i mod 2). by apply queue_coll_make_free.
  - unfold demo_mtx_calls, demo_mtx_sig, empty_sig, get_size_in_bytes, in_range.
    repeat constructor; cbn; try done; vm_compute; intuition congruence.
  - vm_compute. reflexivity.
  - exists t. exact E.
Defined.
