(* ===== verification/IdAllocator.v ===== *)
(** The allocator of mutex IDs: id_allocator.hpp of medsm2.

    A counter at process 0 that every process reads once and then increments
    by compare-and-swap. Every RMA access is a step, so calls of different
    processes interleave; [ia_log] records the results of the calls in the order
    of their successful compare-and-swaps. Calls start when the counter is
    initialized ([coll_make] has no barrier after the store of process 0). *)
From Stdlib Require Import ZArith Lia.
From stdpp Require Import base tactics functions list.
From S2P Require Import Prelude.

Section id_allocator.
Variable num_ids : Z.

(** Where a call is. *)
Inductive apc :=
| AIdle
| ARead                          (** before [buf_read] *)
| ACas (expected : Z)            (** before [compare_and_swap] *)
| AReturned (r : result Z).

Record astate := AState { ia_word : Z; ia_pc : Z → apc; ia_log : list (result Z) }.

(** [coll_make]. *)
Definition ia_coll_make : astate := AState 1 (λ _, AIdle) [].

(** What a call whose compare-and-swap took [expected] returns. *)
Definition allocate_result (expected : Z) : result Z :=
  if num_ids <=? expected then Fail BadAlloc else Ok expected.

(** A process calls [allocate], or makes its next access. *)
Inductive aevent := ACall (p : Z) | AStep (p : Z).

Definition astep (e : aevent) (s : astate) : option astate :=
  match e with
  | ACall p =>
      match ia_pc s p with
      | AIdle | AReturned _ => Some (AState (ia_word s) (<[p := ARead]> (ia_pc s)) (ia_log s))
      | _ => None
      end
  | AStep p =>
      match ia_pc s p with
      | AIdle | AReturned _ => None
      | ARead =>
          let expected := ia_word s in
          Some (AState (ia_word s) (<[p := ACas expected]> (ia_pc s)) (ia_log s))
      | ACas expected =>
          let desired := u64 (expected + 1) in
          let cas_result := ia_word s in
          if cas_result =? expected then
            let r := allocate_result expected in
            Some (AState desired (<[p := AReturned r]> (ia_pc s)) (ia_log s ++ [r]))
          else Some (AState (ia_word s) (<[p := ACas cas_result]> (ia_pc s)) (ia_log s))
      end
  end.

Fixpoint arun (es : list aevent) (s : astate) : option astate :=
  match es with
  | [] => Some s
  | e :: es => s' ← astep e s; arun es s'
  end.

(** The results of the first [n] calls. *)
Definition alloc_results (n : nat) : list (result Z) := allocate_result <$> seqZ 1 (Z.of_nat n).

Definition alloc_inv (s : astate) : Prop :=
  ia_log s = alloc_results (length (ia_log s)) ∧ ia_word s = u64 (1 + Z.of_nat (length (ia_log s))).

Lemma alloc_results_snoc n :
  alloc_results (S n) = alloc_results n ++ [allocate_result (1 + Z.of_nat n)].
Proof.
  unfold alloc_results. replace (Z.of_nat (S n)) with (Z.of_nat n + 1) by lia.
  by rewrite seqZ_app, fmap_app by lia.
Qed.

Lemma astep_inv e s s' :
  alloc_inv s → 1 + Z.of_nat (length (ia_log s)) < u64_mod → astep e s = Some s' →
  alloc_inv s' ∧ (length (ia_log s') ≤ S (length (ia_log s)))%nat.
Proof.
  intros [Hl Hw] Hb E. destruct e as [p|p]; cbn in E.
  - destruct (ia_pc s p); simplify_eq; (split; [done|cbn; lia]).
  - destruct (ia_pc s p) as [| |expected|]; simplify_eq.
    + split; [done|cbn; lia].
    + destruct (Z.eqb_spec (ia_word s) expected) as [He|_]; simplify_eq; [|split; [done|cbn; lia]].
      cbn. rewrite length_app. cbn. split; [|lia]. split; cbn.
      * rewrite length_app. cbn. rewrite Nat.add_1_r, alloc_results_snoc, <-Hl, Hw.
        rewrite u64_small; [done|]. unfold is_u64. lia.
      * rewrite Hw, length_app. cbn. rewrite (u64_small (1 + _)) by (unfold is_u64; lia).
        f_equal. lia.
Qed.

Lemma arun_inv es s s' :
  alloc_inv s → 1 + Z.of_nat (length (ia_log s) + length es) < u64_mod → arun es s = Some s' →
  alloc_inv s' ∧ (length (ia_log s') ≤ length (ia_log s) + length es)%nat.
Proof.
  revert s. induction es as [|e es IH]; intros s Hinv Hb E; cbn in E, Hb.
  { simplify_eq. cbn. split; [done|lia]. }
  destruct (astep e s) as [s1|] eqn:E1; [|done].
  destruct (astep_inv e s s1 Hinv ltac:(lia) E1) as [H1 Hl].
  destruct (IH s1 H1 ltac:(lia) E) as [H2 Hl2]. split; [done|cbn; lia].
Qed.

Lemma alloc_results_ok n i x :
  alloc_results n !! i = Some (Ok x) → x = 1 + Z.of_nat i ∧ 1 ≤ x < num_ids.
Proof.
  unfold alloc_results. rewrite list_lookup_fmap. intros H.
  destruct (seqZ _ _ !! i) as [e|] eqn:E; [|done]. apply lookup_seqZ in E as [-> _].
  cbn in H. unfold allocate_result in H. destruct (num_ids <=? _) eqn:El; simplify_eq.
  bool_to_prop. lia.
Qed.

(** Mutex IDs: whatever the interleaving of the calls of [allocate]
    (fewer than 2^64 - 1 accesses), the IDs that the calls return are pairwise
    distinct, are valid mutex IDs (not 0) and positions of the mutex table, and
    a call throws [bad_alloc] only when every ID was handed out; and a call
    that runs alone ends after one read and one compare-and-swap, with the next
    ID or [bad_alloc]. *)
Theorem allocate_unique es s p
    (Hlen : Z.of_nat (length es) < u64_mod - 1) (Hrun : arun es ia_coll_make = Some s) :
  (∀ i j x, ia_log s !! i = Some (Ok x) → ia_log s !! j = Some (Ok x) → i = j)
  ∧ (∀ x, Ok x ∈ ia_log s → 1 ≤ x < num_ids)
  ∧ (Fail BadAlloc ∈ ia_log s → ∀ x, 1 ≤ x < num_ids → Ok x ∈ ia_log s)
  ∧ (ia_pc s p = AIdle → ∃ s', arun [ACall p; AStep p; AStep p] s = Some s'
       ∧ ia_pc s' p = AReturned (allocate_result (1 + Z.of_nat (length (ia_log s))))
       ∧ ia_log s' = ia_log s ++ [allocate_result (1 + Z.of_nat (length (ia_log s)))]).
Proof.
  destruct (arun_inv es ia_coll_make s) as [[Hl Hw] Hn]; [done|cbn; lia|done|].
  cbn in Hn. assert (u64 (1 + Z.of_nat (length (ia_log s))) = 1 + Z.of_nat (length (ia_log s))) as Hu.
  { apply u64_small. unfold is_u64. lia. }
  split_and!.
  - rewrite Hl. intros i j x [-> _]%alloc_results_ok [Hj _]%alloc_results_ok. lia.
  - rewrite Hl. intros x [i [_ Hx]%alloc_results_ok]%list_elem_of_lookup. done.
  - rewrite Hl. unfold alloc_results. intros (e & He & Hin)%list_elem_of_fmap x Hx.
    apply elem_of_seqZ in Hin. symmetry in He. unfold allocate_result in He.
    destruct (num_ids <=? e) eqn:El; [|done]. bool_to_prop.
    apply list_elem_of_fmap. exists x. unfold allocate_result.
    rewrite (proj2 (Z.leb_gt _ _)) by lia. split; [done|]. apply elem_of_seqZ. lia.
  - intros Hp. cbn. rewrite Hp. cbn. rewrite fn_lookup_insert. cbn.
    rewrite fn_lookup_insert, Z.eqb_refl. cbn. eexists. split; [done|]. cbn.
    rewrite fn_lookup_insert, Hw, Hu. done.
Qed.
End id_allocator.

(** Two processes allocate at once: the compare-and-swap of the second fails
    and is repeated. *)
Definition demo_alloc : list aevent :=
  [ACall 0; ACall 1; AStep 0; AStep 1; AStep 0; AStep 1; AStep 1].

Lemma allocate_unique_witness :
  ∃ s, arun 3 demo_alloc ia_coll_make = Some s ∧ ia_log s = [Ok 1; Ok 2]
    ∧ ∀ x, Ok x ∈ ia_log s → 1 ≤ x < 3.
Proof.
  eexists. split; [reflexivity|]. split; [reflexivity|].
  exact (proj1 (proj2 (allocate_unique 3 demo_alloc _ 0 ltac:(vm_compute; reflexivity) eq_refl))).
Defined.
