(* ===== verification/SegLease.v ===== *)
(** What the operations of the segment table do to the leases.

    For every operation of SegTable.v: how the timestamps of the block and the
    leases of the copies move ([eff]), and what the operation promises about
    the copy of the caller: after a write notice or a self-invalidation the
    copy is invalid or its lease reaches the timestamp that was asked for.
    A readable block must be in the read set, because the timestamp of a
    signature is applied to the entries of the read set only; the last theorem
    shows a pinned block that falls out of it. *)
From Stdlib Require Import ZArith Lia.
From stdpp Require Import base tactics list gmap.
From S2P Require Import Prelude.
From S2P Require Import Policy.
From S2P Require Import RdSet.
From S2P Require Import WrSet.
From S2P Require Import BlkDir.
From S2P Require Import BlkData.
From S2P Require Import QueueLock.
From S2P Require Import BlkLock.
From S2P Require Import DataRuns.
From S2P Require Import SegTable.

(** A fact about the result of a call that returned joins its triple. *)
Lemma runs_conj P {A} (r : result A) (Φ Ψ : A → Prop) :
  runs P r Φ → (∀ a, r = Ok a → Φ a → Ψ a) → runs P r Ψ.
Proof. destruct r; cbn; auto. Qed.

(** The read set has an entry of the block that expires with the lease or
    before. *)
Definition in_rd_set (blk_id : Z) (le : local_entry) (rs : rd_set) : Prop :=
  ∃ e, e ∈ rs_pq rs ∧ re_blk_id e = blk_id ∧ re_rd_ts e ≤ le_cur_rd_ts le.

Lemma add_readable_keeps blk_id rd_ts rs rs' :
  add_readable blk_id rd_ts rs = Ok rs' →
  (∀ e, e ∈ rs_pq rs' ↔ e = RdEntry blk_id rd_ts ∨ e ∈ rs_pq rs).
Proof.
  unfold add_readable. intros H e. inv_ok. cbn. unfold pq_push.
  by rewrite ins_perm, elem_of_cons.
Qed.

(** The read set keeps its entries and gets some of the block. *)
Definition rs_grow (blk_id : Z) (rs rs' : rd_set) : Prop :=
  (∀ e, e ∈ rs_pq rs → e ∈ rs_pq rs')
  ∧ ∀ e, e ∈ rs_pq rs' → e ∈ rs_pq rs ∨ re_blk_id e = blk_id.

Lemma rs_grow_refl blk_id rs : rs_grow blk_id rs rs.
Proof. split; auto. Qed.

Lemma rs_grow_trans blk_id rs1 rs2 rs3 :
  rs_grow blk_id rs1 rs2 → rs_grow blk_id rs2 rs3 → rs_grow blk_id rs1 rs3.
Proof.
  intros [K1 N1] [K2 N2]. split; [auto|]. intros e [He|?]%N2; [by apply N1|by right].
Qed.

Lemma rs_grow_add blk_id rd_ts rs rs' : add_readable blk_id rd_ts rs = Ok rs' → rs_grow blk_id rs rs'.
Proof.
  intros H. pose proof (add_readable_keeps _ _ _ _ H) as Hin. split; intros e; rewrite Hin; [auto|]. intros [->|?]; [by right|by left].
Qed.

#[local] Hint Resolve rs_grow_refl : core.

Section lease.
Context {K : Type} {HL : GlobalLock header K} (P : policy) (valid : Z → Prop).
Context {HLaws : @GlobalLockLaws header K HL valid (enable_migration P)}.
Context (Hcfg : config_allowed P = true) (Hdir : use_directory_coherence P = false).
Context (Hlease : 0 ≤ lease_ts P).
Context (n : nat).
#[local] Abbreviation world := (blk_world K).
#[local] Abbreviation blk_wf := (@blk_wf K HL P valid HLaws n).

(** [ge] are the timestamps of the lock entry. *)
Definition blk_at (b : world) (ge : global_entry) : Prop := ∃ owner lw, blk_wf b owner lw ge.

(** A well-formed block at [ge]: its read timestamp bounds every lease. *)
Record coherent (T : Z) (b : world) (ge : global_entry) : Prop := {
  co_at : blk_at b ge;
  co_ts : ts_below T ge;
  co_order : ge_wr_ts ge ≤ ge_rd_ts ge;
  co_lease : ∀ q le, bw_dirs b !! q = Some le → le_cur_rd_ts le ≤ ge_rd_ts ge;
}.

(** What an operation of [p] on a block may do: timestamps and leases only
    grow, the read set keeps its entries, and a block that becomes readable
    enters it. *)
Record eff (T' p blk_id : Z) (rs : rd_set) (b : world) (ge : global_entry)
    (rs' : rd_set) (b' : world) (ge' : global_entry) (le le' : local_entry) : Prop := {
  ef_coh : coherent T' b' ge';
  ef_grow : ge_rd_ts ge ≤ ge_rd_ts ge';
  ef_rs : rd_set_wf rs' ∧ rs_min_wr_ts rs' = rs_min_wr_ts rs;
  ef_keep : rs_grow blk_id rs rs';
  ef_others : ∀ q, q ≠ p → bw_dirs b' !! q = bw_dirs b !! q;
  ef_le : bw_dirs b !! p = Some le;
  ef_le' : bw_dirs b' !! p = Some le';
  ef_lease : le_cur_rd_ts le ≤ le_cur_rd_ts le';
  ef_read : is_invalid (le_state le') = false →
    is_invalid (le_state le) = false ∨ (in_rd_set blk_id le' rs' ∧ rs_min_wr_ts rs ≤ le_cur_rd_ts le');
}.

(** What every operation starts from. *)
Record lease_pre (T p : Z) (rs : rd_set) (b : world) (ge : global_entry) (le : local_entry) : Prop := {
  lp_coh : coherent T b ge;
  lp_proc : valid p;
  lp_rs : rd_set_wf rs;
  lp_min : 0 ≤ rs_min_wr_ts rs ≤ T;
  lp_le : bw_dirs b !! p = Some le;
}.

Lemma lease_pre_op T p rs b ge le : lease_pre T p rs b ge le → op_pre P valid n T p rs b.
Proof using HLaws.
  intros [[(owner & lw & Hwf) Hts _ _] Hp Hrs Hm _]. split; [by exists owner, lw, ge|done..].
Qed.

Lemma coherent_mono T T' b ge : T ≤ T' → coherent T b ge → coherent T' b ge.
Proof using HLaws. intros HT []. split; try done. unfold ts_below in *. lia. Qed.

Lemma eff_refl T p blk_id rs b ge le : lease_pre T p rs b ge le → eff T p blk_id rs b ge rs b ge le le.
Proof using HLaws. intros []. split; auto; lia. Qed.

Lemma eff_mono T T' p blk_id rs b ge rs' b' ge' le le' :
  T ≤ T' → eff T p blk_id rs b ge rs' b' ge' le le' → eff T' p blk_id rs b ge rs' b' ge' le le'.
Proof using HLaws. intros HT []. split; try done. by eapply coherent_mono. Qed.

Lemma eff_pre T T' p blk_id rs b ge rs' b' ge' le le' :
  T ≤ T' → lease_pre T p rs b ge le → eff T' p blk_id rs b ge rs' b' ge' le le' →
  lease_pre T' p rs' b' ge' le'.
Proof using HLaws. intros HT [] [? ? [? Hm]]. split; try done. rewrite Hm. lia. Qed.

Lemma eff_trans T1 T2 p blk_id rs b ge rs1 b1 ge1 rs2 b2 ge2 le le1 le2 :
  eff T1 p blk_id rs b ge rs1 b1 ge1 le le1 → eff T2 p blk_id rs1 b1 ge1 rs2 b2 ge2 le1 le2 →
  eff T2 p blk_id rs b ge rs2 b2 ge2 le le2.
Proof using HLaws.
  intros [? ? [? Hm1] Hk1 Ho1 ? ? ? Hr1] [? ? [? Hm2] Hk2 Ho2 ? ? ? Hr2]. split; try done.
  - lia.
  - split; [done|congruence].
  - by eapply rs_grow_trans.
  - intros q Hq. by rewrite Ho2, Ho1.
  - lia.
  - intros Hv. destruct (Hr2 Hv) as [Hv1|[Hin Hle]]; [|right; split; [done|congruence || lia]].
    destruct (Hr1 Hv1) as [?|[(e & He & Hb & Hle) Hmin]]; [by left|right]. split; [|lia].
    exists e. split; [by apply Hk2|]. split; [done|lia].
Qed.

(** Replacing the entry of [p] without a change of its lease. *)
Lemma eff_set_dir T p blk_id rs b ge le le' :
  lease_pre T p rs b ge le → prot_of (le_state le') = prot_of (le_state le) →
  le_cur_rd_ts le ≤ le_cur_rd_ts le' ≤ ge_rd_ts ge → valid (le_home_proc le') →
  is_invalid (le_state le') = is_invalid (le_state le) →
  eff T p blk_id rs b ge rs (set_dir p le' b) ge le le'.
Proof using HLaws.
  intros [[(owner & lw & Hwf) Hts Ho Hl] Hp Hrs Hm Hle] Hprot Hlt Hh Hv. split; try done.
  - split; try done.
    + exists owner, lw. by eapply blk_wf_set_dir.
    + cbn. intros q leq Hq. destruct (decide (q = p)) as [->|Hne].
      * rewrite lookup_insert_eq in Hq. simplify_eq. lia.
      * rewrite lookup_insert_ne in Hq by done. by eapply Hl.
  - intros q Hq. cbn. by rewrite lookup_insert_ne.
  - cbn. by rewrite lookup_insert_eq.
  - lia.
  - rewrite Hv. by left.
Qed.

(** ** Transactions *)

(** The directory part of a transaction that returned. *)
Lemma do_transaction_inv {A} p rd_ts_st blk_id (func : mems → result (bool * A * mems)) rs b
    owner lw ge le tx a rs' b' :
  blk_wf b owner lw ge → valid p → bw_dirs b !! p = Some le →
  do_transaction P p rd_ts_st blk_id func rs b = Ok (tx, a, rs', b') →
  ∃ mg le', end_transaction P p rd_ts_st (get_ts_state rs) blk_id (LockGlobal owner lw ge)
      (begin_transaction P p (LockGlobal owner lw ge) le) mg rs le = Ok (tx_et tx, rs', le')
    ∧ mg_is_written mg = mg_is_written (tx_mg tx)
    ∧ bw_dirs b' = <[p := le']> (bw_dirs b).
Proof using HLaws.
  intros Hwf Hp Hle E. unfold do_transaction, get_dir in E. rewrite Hle, bind_Ok in E.
  destruct (lk_lock _ _ _ p (bf_lock _ _ _ _ _ _ _ Hwf) Hp) as (k1 & El & _).
  unfold blk_lock_global in E. rewrite El in E. cbn [mbind result_bind] in E.
  cbn [hd_last_writer_proc hd_ge] in E.
  apply bind_ok in E as ([mg ms] & _ & E). apply bind_ok in E as ([[ch a'] ms'] & _ & E).
  cbn zeta in E. apply bind_ok in E as ([[et rs1] le'] & Ee & E).
  apply bind_ok in E as (lk & _ & E). injection E as <- <- <- <-.
  eexists _, le'. split; [exact Ee|]. done.
Qed.

Lemma tx_eff T p blk_id rs b ge le owner lw m mg et rs' le' rd_ts_st b' :
  lease_pre T p rs b ge le → blk_wf b owner lw ge → m = (if is_invalid (le_state le) then get_ts_state rs else rd_ts_st) →
  0 ≤ m ≤ T → next_ts P T < u64_mod →
  end_transaction P p rd_ts_st (get_ts_state rs) blk_id (LockGlobal owner lw ge)
    (begin_transaction P p (LockGlobal owner lw ge) le) mg rs le = Ok (et, rs', le') →
  bw_dirs b' = <[p := le']> (bw_dirs b) → blk_at b' (et_new_ts et) →
  eff (next_ts P T) p blk_id rs b ge rs' b' (et_new_ts et) le le'
  ∧ m ≤ le_cur_rd_ts le' ∧ le_cur_rd_ts le' = ge_rd_ts (et_new_ts et)
  ∧ (mg_is_written mg = true → ge_rd_ts ge < ge_wr_ts (et_new_ts et))
  ∧ (is_invalid (le_state le) = false → rs' = rs).
Proof using HLaws Hlease.
  intros [[_ Hts Hord Hl] Hp Hrs Hmin Hle] Hwf Hm HmT HT E Hd Hat.
  assert (ts_fits P m (ge_wr_ts ge) (ge_rd_ts ge)) as Hfit by by apply (ts_below_fits P T).
  destruct (end_transaction_correct P p rd_ts_st (get_ts_state rs) blk_id (LockGlobal owner lw ge)
    mg rs le Hrs) as (et1 & rs1 & le1 & E1 & Hrs1 & Hm1 & Hv & _ & _ & _ & _ & Hge & _ & _ & Hin & Hsame).
  { done. } { cbn [glk_home_ts]. by rewrite <-Hm. }
  rewrite E in E1. injection E1 as <- <- <-.
  destruct (end_transaction_published _ _ _ _ _ _ _ _ _ _ _ _ _ E) as (Hnew & _ & _).
  cbn [bt_ts begin_transaction glk_home_ts] in Hnew. rewrite <-Hm in Hnew.
  pose proof (make_new_ts_correct P m (mg_is_written mg) _ _ Hfit) as (Hw & _ & Hgrow & Hval & Hwr & Hmon).
  rewrite <-Hnew in *. rewrite <-Hge in *. cbn [ge_rd_ts ge_wr_ts] in *.
  unfold is_valid_rd_ts in Hval. rewrite negb_true_iff, is_greater_rd_ts_false in Hval.
  assert (∀ q leq, bw_dirs b !! q = Some leq → le_cur_rd_ts leq ≤ le_cur_rd_ts le') as Hall.
  { intros q leq Hq. specialize (Hl q leq Hq). lia. }
  assert (rs_grow blk_id rs rs') as Hkeep.
  { destruct (is_invalid (le_state le)) eqn:Hi; [|by rewrite (Hsame eq_refl)].
    unfold end_transaction in E. rewrite Hi in E. destruct (end_counts _ _ _ _) as [[[? ?] ?] ?].
    apply bind_ok in E as (rs2 & Ea & E). injection E as _ <- _. by eapply rs_grow_add. }
  split; [|split; [done|]; split; [done|]; split; [|done]; intros Hwr'; by apply Hw].
  split; try done; cbn [ge_rd_ts ge_wr_ts].
  - split; try done.
    + rewrite Hnew. by apply make_new_ts_below.
    + cbn. lia.
    + cbn. rewrite Hd. intros q leq. destruct (decide (q = p)) as [->|Hne].
      * rewrite lookup_insert_eq. by intros [= <-].
      * rewrite lookup_insert_ne by done. apply Hall.
  - intros q Hq. rewrite Hd. by rewrite lookup_insert_ne.
  - rewrite Hd. by rewrite lookup_insert_eq.
  - by apply (Hall p).
  - intros _. destruct (is_invalid (le_state le)) eqn:Hi; [right|by left].
    split; [|by rewrite Hm in Hval]. exists (RdEntry blk_id (le_cur_rd_ts le')).
    split; [auto|]. split; [done|cbn; lia].
Qed.

(** A functor that keeps the shape and the protection of the copies. *)
Definition func_ok {A} (p : Z) (func : mems → result (bool * A * mems)) : Prop :=
  ∀ ms m1, mems_shape n ms → ms !! p = Some m1 →
  runs P (func ms) (λ '(ch, a, ms'), ∃ m2, ms' = <[p := m2]> ms ∧ mem_shape n m2
    ∧ bm_prot m2 = bm_prot m1).

Lemma default_func_ok p : func_ok p default_functor.
Proof.
  intros ms m1 Hs Hm. exists m1. split; [by rewrite insert_id|].
  split; [by apply (map_Forall_lookup_1 _ _ _ _ Hs Hm)|done].
Qed.

(** What a transaction promises about the copy and what it announces. *)
Record tx_facts (rd_ts_st : Z) (rs rs' : rd_set) (ge : global_entry) (tx : do_transaction_result)
    (le le' : local_entry) : Prop := {
  tf_read : is_invalid (le_state le') = false;
  tf_eq : le_cur_rd_ts le' = ge_rd_ts (et_new_ts (tx_et tx));
  tf_lease : (if is_invalid (le_state le) then rs_min_wr_ts rs else rd_ts_st) ≤ le_cur_rd_ts le';
  tf_written : mg_is_written (tx_mg tx) = true → ge_rd_ts ge < ge_wr_ts (et_new_ts (tx_et tx));
  tf_still : et_is_still_writable (tx_et tx) = dirty_state (le_state le');
  tf_dirty : dirty_state (le_state le') = true → le_state le' = le_state le;
  tf_pinned : le_state le = pinned ↔ le_state le' = pinned;
  tf_owner : valid (et_new_owner (tx_et tx));
  tf_rs : is_invalid (le_state le) = false → rs' = rs;
}.

Lemma transaction_eff_runs {A} T p rd_ts_st blk_id (func : mems → result (bool * A * mems)) rs b ge le :
  lease_pre T p rs b ge le → 0 ≤ rd_ts_st ≤ T → next_ts P T < u64_mod → func_ok p func →
  runs P (do_transaction P p rd_ts_st blk_id func rs b)
    (λ '(tx, a, rs', b'), ∃ le',
       eff (next_ts P T) p blk_id rs b ge rs' b' (et_new_ts (tx_et tx)) le le'
       ∧ tx_facts rd_ts_st rs rs' ge tx le le').
Proof using HLaws Hlease.
  intros Hpre Hst HT Hf. pose proof Hpre as [[(owner & lw & Hwf) Hts _ _] Hp Hrs Hmin Hle].
  destruct (bf_procs _ _ _ _ _ _ _ Hwf p Hp) as (le0 & m & Hle0 & Hm & _).
  destruct (bf_procs _ _ _ _ _ _ _ Hwf lw (bf_last_writer _ _ _ _ _ _ _ Hwf)) as (_ & om & _ & Hom & _).
  eapply runs_conj.
  { eapply (do_transaction_runs P valid Hlease n T p rd_ts_st blk_id func rs b owner lw ge le m om
      (λ _ _ _ _, True)); try done.
    intros ms m1 Hs Hm1 _. eapply runs_mono; [by apply (Hf ms m1)|].
    intros [[ch a] ms'] (m2 & -> & S2 & Hp2). by exists m2. }
  intros [[[tx a] rs'] b'] E (m1 & m2 & ch & le' & Hpost).
  destruct (do_transaction_inv _ _ _ _ _ _ _ _ _ _ _ _ _ _ Hwf Hp Hle E) as (mg & le1 & Ee & Hmg & Hd).
  assert (le1 = le') as ->.
  { pose proof (tp_dirs _ _ _ _ _ _ _ _ _ _ _ _ _ _ _ _ _ _ _ _ _ _ Hpost) as Hd'.
    rewrite Hd' in Hd. apply (f_equal (lookup p)) in Hd. rewrite !lookup_insert_eq in Hd. congruence. }
  set (mts := if is_invalid (le_state le) then get_ts_state rs else rd_ts_st).
  destruct (tx_eff T p blk_id rs b ge le owner lw mts mg (tx_et tx) rs' le' rd_ts_st b')
    as (Heff & Hl & Hl2 & Hw & Hsame); try done.
  - unfold mts. by destruct (is_invalid _).
  - eexists _, _. apply Hpost.
  - exists le'. split; [done|]. split; try apply Hpost; [done..|by rewrite <-Hmg| |done].
    destruct (end_transaction_published _ _ _ _ _ _ _ _ _ _ _ _ _ Ee) as (_ & Hown & _).
    rewrite Hown. destruct (mg_is_migrated mg); [done|]. by eapply lk_free_valid, bf_lock.
Qed.

Lemma tx_default_eff T p rd_ts_st blk_id rs b ge le :
  lease_pre T p rs b ge le → 0 ≤ rd_ts_st ≤ T → next_ts P T < u64_mod →
  runs P (do_transaction_default P p rd_ts_st blk_id rs b)
    (λ '(tx, rs', b'), ∃ le',
       eff (next_ts P T) p blk_id rs b ge rs' b' (et_new_ts (tx_et tx)) le le'
       ∧ tx_facts rd_ts_st rs rs' ge tx le le').
Proof using HLaws Hlease.
  intros Hpre Hst HT. unfold do_transaction_default. eapply runs_bind.
  { apply (transaction_eff_runs T p rd_ts_st blk_id default_functor rs b ge le); try done.
    apply default_func_ok. }
  intros [[[tx []] rs'] b'] H. exact H.
Qed.
(** When only the sets and the block are used. *)
Lemma tx_pair_eff T p rd_ts_st blk_id rs b ge le :
  lease_pre T p rs b ge le → 0 ≤ rd_ts_st ≤ T → next_ts P T < u64_mod →
  runs P ('(_, rs, b) ← do_transaction_default P p rd_ts_st blk_id rs b; Ok (rs, b))
    (λ '(rs', b'), ∃ tx ge' le', eff (next_ts P T) p blk_id rs b ge rs' b' ge' le le'
       ∧ tx_facts rd_ts_st rs rs' ge tx le le').
Proof using HLaws Hlease.
  intros Hpre Hst HT. eapply runs_bind; [by apply (tx_default_eff T p rd_ts_st blk_id rs b ge le)|].
  intros [[tx rs'] b'] (le' & Heff & Hf). by eexists tx, _, le'.
Qed.

(** ** Operations that do not run a transaction *)

(** The attached data of a free lock is unique. *)
Lemma lk_free_unique k o1 o2 (l1 l2 : header) : lk_free k o1 l1 → lk_free k o2 l2 → l1 = l2.
Proof using HLaws.
  intros H1 H2. pose proof (lk_free_valid _ _ _ H1) as Hv.
  destruct (lk_lock _ _ _ o1 H1 Hv) as (k1 & E1 & _).
  destruct (lk_lock _ _ _ o1 H2 Hv) as (k2 & E2 & _). congruence.
Qed.

(** The block keeps its lock (perhaps with newer timestamps [ge']), and the
    entry of [p] becomes [le']. *)
Lemma eff_local T T' p blk_id rs b ge le rs' b' owner lw ge' le' :
  lease_pre T p rs b ge le → op_pre P valid n T' p rs' b' →
  lk_free (bw_lock b') owner (Header lw ge') → ts_below T' ge' → ge_wr_ts ge' ≤ ge_rd_ts ge' →
  ge_rd_ts ge ≤ ge_rd_ts ge' →
  bw_dirs b' = <[p := le']> (bw_dirs b) → le_cur_rd_ts le ≤ le_cur_rd_ts le' ≤ ge_rd_ts ge' →
  rs_min_wr_ts rs' = rs_min_wr_ts rs → rs_grow blk_id rs rs' →
  (is_invalid (le_state le') = false →
    is_invalid (le_state le) = false ∨ (in_rd_set blk_id le' rs' ∧ rs_min_wr_ts rs ≤ le_cur_rd_ts le')) →
  eff T' p blk_id rs b ge rs' b' ge' le le'.
Proof using HLaws.
  intros [[_ _ _ Hl] Hp Hrs Hm Hle] [(o' & l' & g' & Hwf & _) _ Hrs' _] Hfree Hts Hord Hgrow Hd Hlt Hmin
    Hkeep Hread.
  pose proof (lk_free_unique _ _ _ _ _ (bf_lock _ _ _ _ _ _ _ Hwf) Hfree) as [= -> ->].
  split; try done.
  - split; [by exists o', lw|done..|]. rewrite Hd. intros q leq.
    destruct (decide (q = p)) as [->|Hne].
    + rewrite lookup_insert_eq. intros [= <-]. lia.
    + rewrite lookup_insert_ne by done. intros Hq%Hl. lia.
  - intros q Hq. by rewrite Hd, lookup_insert_ne.
  - by rewrite Hd, lookup_insert_eq.
  - lia.
Qed.

(** The common case: the lock is not touched. *)
Lemma eff_frame T T' p blk_id rs b ge le rs' b' le' :
  lease_pre T p rs b ge le → op_pre P valid n T' p rs' b' → T ≤ T' →
  bw_lock b' = bw_lock b →
  bw_dirs b' = <[p := le']> (bw_dirs b) → le_cur_rd_ts le ≤ le_cur_rd_ts le' ≤ ge_rd_ts ge →
  rs_min_wr_ts rs' = rs_min_wr_ts rs → rs_grow blk_id rs rs' →
  (is_invalid (le_state le') = false →
    is_invalid (le_state le) = false ∨ (in_rd_set blk_id le' rs' ∧ rs_min_wr_ts rs ≤ le_cur_rd_ts le')) →
  eff T' p blk_id rs b ge rs' b' ge le le'.
Proof using HLaws.
  intros Hpre Hpost HT Hlk. pose proof Hpre as [[(owner & lw & Hwf) Hts Hord _] _ _ _ _]. intros.
  apply (eff_local T T' p blk_id rs b ge le rs' b' owner lw ge le'); try done.
  - rewrite Hlk. apply Hwf.
  - unfold ts_below in *. lia.
Qed.

(** ** Reads *)
Lemma start_read_locked_eff T p blk_id rs b ge le :
  lease_pre T p rs b ge le → next_ts P T < u64_mod →
  runs P (start_read_locked P p blk_id rs b)
    (λ '(_, rs', b'), ∃ ge' le', eff (next_ts P T) p blk_id rs b ge rs' b' ge' le le'
       ∧ is_invalid (le_state le') = false
       ∧ (le_state le = pinned ↔ le_state le' = pinned)
       ∧ (dirty_state (le_state le') = true → dirty_state (le_state le) = true)).
Proof using HLaws Hlease Hdir.
  intros Hpre HT. pose proof Hpre as [Hco Hp Hrs Hmin Hle].
  pose proof (co_lease _ _ _ Hco p le Hle) as Hl.
  assert (T ≤ next_ts P T) as HTle by (unfold next_ts; lia).
  pose proof (start_read_locked_runs P valid Hdir Hlease n T p blk_id rs b le
    (lease_pre_op _ _ _ _ _ _ Hpre) HT Hle) as Hruns.
  destruct (start_read_cases P blk_id rs le Hdir Hrs) as [[Hv Es]|(Hv & rs1 & live & Es & Hrs1 & Hm1 & Hdead)].
  - assert (start_read_locked P p blk_id rs b = Ok (SegRead false 0, rs, set_dir p le b)) as E.
    { unfold start_read_locked, get_dir. by rewrite Hle, bind_Ok, Es. }
    rewrite E in *.
    destruct Hruns as (_ & Hpost & _). cbn. exists ge, le. split; [|done].
    apply (eff_frame T (next_ts P T) p blk_id rs b ge le rs _ le); auto; lia.
  - destruct live.
    + eapply runs_conj; [exact Hruns|]. intros [[r rs2] b2] E (_ & Hpost & Hm2 & le2 & Hle2 & Hr2 & Hpin & Hd2).
      unfold start_read_locked, get_dir in E. rewrite Hle, bind_Ok, Es, bind_Ok in E.
      cbn [sr_needs_read sr_needs_latest_read negb] in E. apply bind_ok in E as ([rs3 b3] & E & [= _ <- <-]).
      apply bind_ok in E as (ms & _ & [= <- <-]). cbn in Hle2. rewrite lookup_insert_eq in Hle2.
      injection Hle2 as <-. eexists ge, _. split; [|done].
      assert (E2 := Es). unfold start_read in E2. rewrite Hv, Hdir in E2. cbn [negb] in E2.
      destruct (negb (is_valid_rd_ts (get_ts_state rs) (le_cur_rd_ts le))) eqn:Hvalid; [done|].
      apply bind_ok in E2 as (rs4 & Ea & [= ->]).
      pose proof (rs_grow_add _ _ _ _ Ea). pose proof (add_readable_keeps _ _ _ _ Ea) as Hin.
      apply negb_false_iff in Hvalid. unfold is_valid_rd_ts in Hvalid.
      rewrite negb_true_iff, is_greater_rd_ts_false in Hvalid.
      apply (eff_frame T (next_ts P T) p blk_id rs b ge le); try done.
      intros _. right. split; [|done]. eexists. split; [apply Hin; by left|]. split; [done|cbn; lia].
    + rewrite (Hdead eq_refl) in *.
      assert (set_dir p le b = b) as Hid by (destruct b; unfold set_dir; cbn in *; by rewrite insert_id).
      unfold start_read_locked, get_dir. rewrite Hle, bind_Ok, Es, bind_Ok.
      cbn [sr_needs_read sr_needs_latest_read negb]. rewrite Hid.
      eapply runs_bind; [apply (tx_pair_eff T p (get_ts_state rs) blk_id rs b ge le Hpre Hmin HT)|].
      intros [rs2 b2] (tx & ge2 & le2 & Heff & []). exists ge2, le2. split; [done|]. split; [done|]. split; [done|].
      intros Hd. by rewrite <-tf_dirty0.
Qed.
(** ** Invalidation *)
Lemma after_invalidation_eff T p rd_ts_st blk_id ret rs b ge le le' :
  lease_pre T p rs b ge le → 0 ≤ rd_ts_st ≤ T → next_ts P T < u64_mod →
  valid (le_home_proc le') → le_cur_rd_ts le ≤ le_cur_rd_ts le' ≤ ge_rd_ts ge →
  prot_of (le_state le') = (if iv_needs_protect ret then ProtNone else prot_of (le_state le)) →
  (iv_needs_merge ret = true → iv_needs_protect ret = false ∧ le_state le = pinned ∧ le_state le' = pinned) →
  (is_invalid (le_state le') = false → is_invalid (le_state le) = false) →
  runs P (after_invalidation P p rd_ts_st blk_id ret rs (set_dir p le' b))
    (λ '(rs', b'), ∃ ge' le2, eff (next_ts P T) p blk_id rs b ge rs' b' ge' le le2
       ∧ le_cur_rd_ts le' ≤ le_cur_rd_ts le2
       ∧ (if iv_needs_merge ret then le_state le2 = pinned ∧ rd_ts_st ≤ le_cur_rd_ts le2
          else le2 = le' ∧ ge' = ge)).
Proof using HLaws Hlease.
  intros Hpre Hst HT Hh Hlt Hprot Hmerge Hv. pose proof Hpre as [_ _ _ _ Hle].
  assert (T ≤ next_ts P T) as HTle by (unfold next_ts; lia).
  destruct (iv_needs_merge ret) eqn:Em.
  - destruct (Hmerge eq_refl) as (Hprot' & Hp1 & Hp2). rewrite Hprot' in Hprot.
    assert (eff T p blk_id rs b ge rs (set_dir p le' b) ge le le') as He.
    { apply eff_set_dir; try done. by rewrite Hp1, Hp2. }
    pose proof (eff_pre T T p blk_id rs b ge rs _ ge le le' ltac:(lia) Hpre He) as Hpre'.
    unfold after_invalidation. rewrite Em. eapply runs_mono;
      [by apply (tx_pair_eff T p rd_ts_st blk_id rs (set_dir p le' b) ge le')|].
    intros [rs2 b2] (tx & ge2 & le2 & Heff & [_ _ Hl _ _ _ Hpin _ _]). exists ge2, le2.
    rewrite Hp2 in Hl. split; [by eapply eff_trans|]. split; [by eapply ef_lease|].
    split; [by apply Hpin|done].
  - pose proof (after_invalidation_runs P valid Hlease n T p rd_ts_st blk_id ret rs b le le'
      (lease_pre_op _ _ _ _ _ _ Hpre) Hst HT Hle Hh Hprot ltac:(congruence)) as Hruns.
    eapply runs_conj; [exact Hruns|]. intros [rs2 b2] E (Hpost & Hm2 & _).
    unfold after_invalidation in E. rewrite Em in E. exists ge, le'.
    assert (bw_lock b2 = bw_lock b ∧ bw_dirs b2 = <[p := le']> (bw_dirs b) ∧ rs2 = rs) as (H1 & H2 & ->).
    { destruct (iv_needs_protect ret); [apply bind_ok in E as (ms & _ & E)|]; by injection E as <- <-. }
    split; [|split; [lia|done]]. eapply eff_frame; try done. intros Hx. left. auto.
Qed.

Lemma set_invalid_state_cases c le ret le' : set_invalid_state c le = (ret, le') →
  iv_is_ignored ret = negb c
  ∧ (c = true → is_invalid (le_state le') = true ∨ le_state le' = pinned)
  ∧ (iv_needs_merge ret = true ↔ c = true ∧ le_state le = pinned)
  ∧ (le_state le = pinned ↔ le_state le' = pinned)
  ∧ (is_invalid (le_state le') = false → is_invalid (le_state le) = false)
  ∧ le_cur_rd_ts le' = le_cur_rd_ts le.
Proof.
  unfold set_invalid_state. destruct c; [destruct (le_state le) eqn:E|]; intros [= <- <-];
    cbn; rewrite ?E; naive_solver.
Qed.

(** A write notice that respects the block: its home is a process, and its
    lease is within the one the lock entry knows. *)
Record notice_ok (ge : global_entry) (wn : wn_entry) : Prop := {
  no_home : valid (wn_home_proc wn);
  no_lease : wn_wr_ts wn ≤ wn_rd_ts wn ≤ ge_rd_ts ge;
}.

Lemma seg_acquire_eff T p rd_ts_st wn rs b ge le :
  lease_pre T p rs b ge le → 0 ≤ rd_ts_st ≤ T → next_ts P T < u64_mod → notice_ok ge wn →
  runs P (seg_acquire P p rd_ts_st wn rs b)
    (λ '(_, rs', b'), ∃ ge' le', eff (next_ts P T) p (wn_blk_id wn) rs b ge rs' b' ge' le le'
       ∧ wn_wr_ts wn ≤ le_cur_rd_ts le'
       ∧ (le_state le = pinned ↔ le_state le' = pinned)
       ∧ (dirty_state (le_state le') = true → dirty_state (le_state le) = true)
       ∧ (le_state le ≠ pinned → ge' = ge)).
Proof using HLaws Hlease.
  intros Hpre Hst HT [Hh Hno]. pose proof Hpre as [Hco Hp Hrs Hmin Hle].
  destruct (co_at _ _ _ Hco) as (owner & lw & Hwf).
  destruct (bf_procs _ _ _ _ _ _ _ Hwf p Hp) as (le0 & _ & Hle0 & _ & _ & Hhome).
  rewrite Hle in Hle0. injection Hle0 as <-. pose proof (co_lease _ _ _ Hco p le Hle) as Hl.
  unfold seg_acquire, get_dir. rewrite Hle, bind_Ok.
  unfold acquire, invalidate. destruct (set_invalid_state _ le) as [ret le1] eqn:E.
  destruct (set_invalid_state_spec _ _ _ _ E) as (Hprot & Hdirty & Hmp & Hhome1).
  destruct (set_invalid_state_cases _ _ _ _ E) as (Hign & _ & Hmerge & Hpin & Hv & Hl1).
  set (r := if negb (iv_is_ignored ret) then _ else _).
  assert (∃ le2, r = (ret, le2) ∧ le_state le2 = le_state le1 ∧ valid (le_home_proc le2)
    ∧ wn_wr_ts wn ≤ le_cur_rd_ts le2 ∧ le_cur_rd_ts le ≤ le_cur_rd_ts le2 ≤ ge_rd_ts ge)
    as (le2 & -> & Hs2 & Hh2 & Hw2 & Hl2).
  { unfold r. rewrite Hign, negb_involutive. destruct (is_greater_rd_ts _ _) eqn:G.
    - eexists. split; [done|]. apply is_greater_rd_ts_true in G. cbn. split_and!; try done; lia.
    - exists le1. apply is_greater_rd_ts_false in G. split_and!; try done; [by rewrite Hhome1|lia..]. }
  eapply runs_bind.
  { apply (after_invalidation_eff T p rd_ts_st (wn_blk_id wn) ret rs b ge le le2); rewrite ?Hs2; try done.
    intros Hm. pose proof (proj1 Hmerge Hm) as [_ Hpp]. split; [by apply Hmp|]. split; [done|by apply Hpin]. }
  intros [rs1 b1] (ge1 & le3 & Heff & Hl3 & H3). cbn. exists ge1, le3. split; [done|]. split; [lia|].
  destruct (iv_needs_merge ret).
  - destruct H3 as [-> _]. pose proof (proj1 Hmerge eq_refl) as [_ ->]. done.
  - destruct H3 as [-> ->]. rewrite Hs2, Hpin, Hdirty. done.
Qed.

(** The copy is invalid or leased up to [m] afterwards; the timestamp that is
    returned is the one of the copy, unless the block is pinned. *)
Lemma seg_self_invalidate_eff T p m blk_id rs b ge le :
  lease_pre T p rs b ge le → 0 ≤ m ≤ T → next_ts P T < u64_mod →
  runs P (seg_self_invalidate P p m blk_id rs b)
    (λ '(_, rd_ts, rs', b'), ∃ ge' le', eff (next_ts P T) p blk_id rs b ge rs' b' ge' le le'
       ∧ (is_invalid (le_state le') = true ∨ m ≤ le_cur_rd_ts le')
       ∧ (le_state le ≠ pinned → rd_ts = le_cur_rd_ts le')
       ∧ (le_state le = pinned ↔ le_state le' = pinned)
       ∧ (dirty_state (le_state le') = true → dirty_state (le_state le) = true)
       ∧ (le_state le ≠ pinned → ge' = ge)).
Proof using HLaws Hlease.
  intros Hpre Hst HT. pose proof Hpre as [Hco Hp Hrs Hmin Hle].
  destruct (co_at _ _ _ Hco) as (owner & lw & Hwf).
  destruct (bf_procs _ _ _ _ _ _ _ Hwf p Hp) as (le0 & _ & Hle0 & _ & _ & Hhome).
  rewrite Hle in Hle0. injection Hle0 as <-. pose proof (co_lease _ _ _ Hco p le Hle) as Hl.
  unfold seg_self_invalidate, get_dir. rewrite Hle, bind_Ok.
  unfold self_invalidate, invalidate. destruct (set_invalid_state _ le) as [ret le1] eqn:E.
  destruct (set_invalid_state_spec _ _ _ _ E) as (Hprot & Hdirty & Hmp & Hhome1).
  destruct (set_invalid_state_cases _ _ _ _ E) as (Hign & Hinv & Hmerge & Hpin & Hv & Hl1).
  eapply runs_bind.
  { apply (after_invalidation_eff T p m blk_id ret rs b ge le le1); try done; [by rewrite Hhome1|lia|].
    intros Hm. pose proof (proj1 Hmerge Hm) as [_ Hpp]. split; [by apply Hmp|]. split; [done|by apply Hpin]. }
  intros [rs1 b1] (ge1 & le3 & Heff & Hl3 & H3). cbn. exists ge1, le3. split; [done|].
  destruct (iv_needs_merge ret) eqn:Em.
  - destruct H3 as [Hp3 Hm3]. pose proof (proj1 Hmerge eq_refl) as [_ Hp0]. rewrite Hp0, Hp3.
    split; [by right|done].
  - destruct H3 as [-> ->]. split; [|by rewrite Hpin, Hdirty].
    destruct (is_greater_rd_ts m (le_cur_rd_ts le)) eqn:G.
    + destruct (Hinv eq_refl) as [?|Hp1]; [by left|]. apply Hpin in Hp1.
      assert (true = true ∧ le_state le = pinned) as Hx by done. apply Hmerge in Hx. congruence.
    + apply is_greater_rd_ts_false in G. right. lia.
Qed.
(** When the timestamps of the block did not move. *)
Lemma eff_still T T' p blk_id rs b ge rs' b' le le' :
  lease_pre T p rs b ge le → eff T' p blk_id rs b ge rs' b' ge le le' →
  eff T p blk_id rs b ge rs' b' ge le le'.
Proof using HLaws. intros [[] _ _ _ _] [[] ? ? ? ? ? ? ? ?]. by split. Qed.

(** ** Release *)

(** The write notice [convert_to_wn_vec] makes of a release. *)
Definition release_notice (blk_id : Z) (ret : release_result) : wn_entry :=
  Wn (rl_new_owner ret) blk_id (ge_rd_ts (rl_new_ts ret)) (ge_wr_ts (rl_new_ts ret)).

Lemma seg_release_eff T p rd_ts_st blk_id rs b ge le :
  lease_pre T p rs b ge le → 0 ≤ rd_ts_st ≤ T → next_ts P T < u64_mod →
  runs P (seg_release P p rd_ts_st blk_id rs b)
    (λ '(ret, rs', b'), ∃ ge' le', eff (next_ts P T) p blk_id rs b ge rs' b' ge' le le'
       ∧ rl_release_completed ret = dirty_state (le_state le)
       ∧ (dirty_state (le_state le') = true → le_state le' = le_state le ∧ rl_is_still_writable ret = true)
       ∧ (rl_is_written ret = true → notice_ok ge' (release_notice blk_id ret)
            ∧ ts_below (next_ts P T) (rl_new_ts ret)
            ∧ ge_wr_ts (rl_new_ts ret) ≤ le_cur_rd_ts le'
            ∧ (enable_fast_release P = false → ge_rd_ts ge < ge_wr_ts (rl_new_ts ret)))).
Proof using HLaws Hlease Hcfg.
  intros Hpre Hst HT. pose proof Hpre as [Hco Hp Hrs Hmin Hle].
  pose proof (co_lease _ _ _ Hco p le Hle) as Hl. pose proof (co_order _ _ _ Hco) as Hord.
  pose proof (co_ts _ _ _ Hco) as Hts. destruct (co_at _ _ _ Hco) as (owner & lw & Hwf).
  assert (T ≤ next_ts P T) as HTle by (unfold next_ts; lia).
  unfold seg_release, get_dir. rewrite Hle, bind_Ok, check_release_dirty.
  destruct (dirty_state (le_state le)) eqn:Hd; cbn [negb].
  2: { cbn. exists ge, le. split; [eapply eff_mono, eff_refl; done|]. rewrite Hd. done. }
  eapply (runs_bind P _ _ (λ f, f = true → enable_fast_release P = true ∧ enable_migration P = true ∧ p = owner)).
  { destruct (cr_is_fast_released _) eqn:Ef; [|done]. cbn in Ef. apply andb_prop in Ef as [Ef _].
    pose proof (fast_migrates P Hcfg Ef) as Hmig. unfold blk_check_owned.
    rewrite (lk_check_owned _ _ _ p Hmig (bf_lock _ _ _ _ _ _ _ Hwf) Hp). cbn.
    intros Heq%Z.eqb_eq. done. }
  intros [|] Hfast.
  - destruct (Hfast eq_refl) as (Hf & Hmig & ->). unfold fast_release, update_ts. cbn [runs].
    unfold read_lock_entry. rewrite (lk_local _ _ _ Hmig (bf_lock _ _ _ _ _ _ _ Hwf)).
    cbn [hd_ge]. set (g := make_new_ts _ _ _ _ _). set (le' := LocalEntry _ _ _ _ _ _ _ _).
    pose proof (write_entry_free P valid (bw_lock b) owner lw ge owner g Hmig (bf_lock _ _ _ _ _ _ _ Hwf) Hp) as Hfree.
    rewrite Z.eqb_refl in Hfree.
    assert (ts_fits P rd_ts_st (ge_wr_ts ge) (ge_rd_ts ge)) as Hfit by by apply (ts_below_fits P T).
    destruct (make_new_ts_correct P rd_ts_st true _ _ Hfit) as (_ & _ & Hgrow & _ & Hwr & _). fold g in Hgrow, Hwr.
    assert (ts_below (next_ts P T) g) as Hg by by apply make_new_ts_below.
    clearbody g.
    exists g, le'. split; [|cbn; split_and!; try done].
    + eapply (eff_local T (next_ts P T) owner blk_id rs b ge le); try done; [|lia|by left].
      destruct (bf_procs _ _ _ _ _ _ _ Hwf owner Hp) as (le0 & m & Hle0 & Hm & Hprot & Hhome).
      rewrite Hle in Hle0. injection Hle0 as <-. split; [|done|done|lia].
      exists owner, lw, g. split; [|done].
      eapply (blk_wf_update P valid n b _ owner lw ge owner lw g owner le' m); try done;
        [apply Hwf..|apply others_kept_refl].
    + intros _. split; [split; cbn; [by eapply lk_free_valid, bf_lock|lia]|].
      split; [unfold ts_below in *; lia|]. split; [done|congruence].
  - eapply runs_bind; [by apply (tx_default_eff T p rd_ts_st blk_id rs b ge le)|].
    intros [[tx rs1] b1] (le1 & Heff & [Hr Heq1 Hle1 Hw Hst1 Hd1 Hpin Hown _]). cbn.
    exists (et_new_ts (tx_et tx)), le1. split; [done|]. split; [done|]. split.
    { intros Hx. rewrite Hst1. split; [by apply Hd1|done]. }
    intros Hwr. pose proof (ef_coh _ _ _ _ _ _ _ _ _ _ _ Heff) as Hco1.
    pose proof (co_order _ _ _ Hco1) as Hord1. split; [split; cbn; [done|lia]|].
    split; [apply Hco1|]. split; [lia|auto].
Qed.
(** ** Writes *)
Lemma start_write_locked_eff T p rd_ts_st blk_id rs ws b ge le :
  lease_pre T p rs b ge le → 0 ≤ rd_ts_st ≤ T → next_ts P T < u64_mod →
  is_invalid (le_state le) = false →
  runs P (start_write_locked P p rd_ts_st blk_id ws b)
    (λ '(_, ws', b'), ∃ ge' le', eff (next_ts P T) p blk_id rs b ge rs b' ge' le le'
       ∧ ws' = (if is_readonly (le_state le) then add_writable blk_id ws else ws)
       ∧ (le_state le' = writable ∨ le_state le' = pinned)
       ∧ (le_state le = pinned ↔ le_state le' = pinned)).
Proof using HLaws Hlease Hcfg.
  intros Hpre Hst HT Hv. pose proof Hpre as [Hco Hp Hrs Hmin Hle].
  pose proof (co_lease _ _ _ Hco p le Hle) as Hl. pose proof (co_order _ _ _ Hco) as Hord.
  pose proof (co_ts _ _ _ Hco) as Hts. destruct (co_at _ _ _ Hco) as (owner & lw & Hwf).
  assert (T ≤ next_ts P T) as HTle by (unfold next_ts; lia).
  eapply runs_conj.
  { by apply (start_write_locked_runs P valid Hcfg Hlease n T p rd_ts_st blk_id rs ws b le
      (lease_pre_op _ _ _ _ _ _ Hpre)). }
  intros [[r ws'] b'] E (_ & -> & Hpost & _ & le' & Hle' & Hst' & Hpin & _).
  set (g0 := read_lock_entry p (bw_lock b)).
  assert (∃ g, bw_dirs b' = <[p := le']> (bw_dirs b) ∧ le_cur_rd_ts le' = le_cur_rd_ts le
    ∧ (bw_lock b' = bw_lock b ∨ enable_migration P = true ∧ bw_lock b' = write_lock_entry p g (bw_lock b)
       ∧ g = make_new_ts P rd_ts_st true (ge_wr_ts g0) (ge_rd_ts g0))) as (g & Hd & Hl' & Hlk).
  { unfold start_write_locked, get_dir in E. rewrite Hle, bind_Ok in E. fold g0 in E.
    destruct (start_write P rd_ts_st blk_id ws g0 le) as [[[dr ws1] g] le1] eqn:Es.
    apply bind_ok in E as (b1 & Eb & [= _ _ ->]).
    set (lk := if enable_fast_release P && _ then _ else _) in Eb.
    assert (bw_lock b' = lk ∧ bw_dirs b' = <[p := le1]> (bw_dirs b)) as [Elk Ed].
    { destruct (sw_needs_protect dr); [apply bind_ok in Eb as (ms & _ & Eb)|]; by injection Eb as <-. }
    rewrite Ed, lookup_insert_eq in Hle'. injection Hle' as ->. exists g. split; [done|].
    assert (le_cur_rd_ts le' = le_cur_rd_ts le) as ->.
    { unfold start_write in Es. repeat case_bool; by simplify_eq. }
    split; [done|]. rewrite Elk. unfold lk. destruct (enable_fast_release P && _) eqn:Ef; [right|by left].
    apply andb_prop in Ef as [Ef Ef2]. apply andb_prop in Ef2 as [Ef2 Ef3].
    split; [by apply fast_migrates|]. split; [done|]. unfold start_write in Es.
    destruct (is_readonly (le_state le)).
    - change (le_is_written_last (set_state writable le)) with (le_is_written_last le) in Es.
      rewrite Ef, Ef3 in Es. cbn in Es. by simplify_eq.
    - exfalso. revert Ef2. repeat case_bool; simplify_eq; done. }
  assert (is_invalid (le_state le') = false) as Hv' by by destruct Hst' as [-> | ->].
  destruct Hlk as [Hlk|(Hmig & Hlk & Hg)].
  - exists ge, le'. split; [|done]. apply (eff_frame T (next_ts P T) p blk_id rs b ge le); auto; lia.
  - pose proof (write_entry_free P valid (bw_lock b) owner lw ge p g Hmig (bf_lock _ _ _ _ _ _ _ Hwf) Hp) as Hfree.
    rewrite <-Hlk in Hfree. set (ge' := if p =? owner then g else ge) in Hfree.
    assert (ts_fits P rd_ts_st (ge_wr_ts ge) (ge_rd_ts ge)) as Hfit by by apply (ts_below_fits P T).
    assert (ts_below (next_ts P T) ge' ∧ ge_wr_ts ge' ≤ ge_rd_ts ge' ∧ ge_rd_ts ge ≤ ge_rd_ts ge') as (H1 & H2 & H3).
    { unfold ge'. destruct (Z.eqb_spec p owner) as [->|Hne]; [|unfold ts_below in *; lia].
      unfold g0, read_lock_entry in Hg. rewrite (lk_local _ _ _ Hmig (bf_lock _ _ _ _ _ _ _ Hwf)) in Hg.
      cbn [hd_ge] in Hg. destruct (make_new_ts_correct P rd_ts_st true _ _ Hfit) as (_ & _ & Hgrow & _ & Hwr & _).
      rewrite <-Hg in Hgrow, Hwr. split; [rewrite Hg; by apply make_new_ts_below|lia]. }
    exists ge', le'. split; [|done]. clearbody ge'.
    apply (eff_local T (next_ts P T) p blk_id rs b ge le rs b' owner lw ge' le'); auto; lia.
Qed.

Lemma seg_start_write_eff T p blk_id rs ws b ge le :
  lease_pre T p rs b ge le → next_ts P (next_ts P T) < u64_mod →
  runs P (seg_start_write P p blk_id rs ws b)
    (λ '(_, _, rs', ws', b'), ∃ ge' le', eff (next_ts P (next_ts P T)) p blk_id rs b ge rs' b' ge' le le'
       ∧ (ws' = ws ∧ dirty_state (le_state le) = true ∨ ws' = add_writable blk_id ws)
       ∧ (le_state le' = writable ∨ le_state le' = pinned)
       ∧ (le_state le = pinned ↔ le_state le' = pinned)).
Proof using HLaws Hlease Hcfg Hdir.
  intros Hpre HT. unfold seg_start_write.
  assert (next_ts P T < u64_mod ∧ T ≤ next_ts P T) as [HT1 HT2] by (unfold next_ts in *; lia).
  eapply runs_bind; [by apply (start_read_locked_eff T p blk_id rs b ge le)|].
  intros [[rr rs1] b1] (ge1 & le1 & He1 & Hv1 & Hpin1 & Hd1).
  pose proof (eff_pre _ _ _ _ _ _ _ _ _ _ _ _ HT2 Hpre He1) as Hpre1.
  eapply runs_bind.
  { apply (start_write_locked_eff (next_ts P T) p (get_ts_state rs1) blk_id rs1 ws b1 ge1 le1); try done.
    apply Hpre1. }
  intros [[wr ws2] b2] (ge2 & le2 & He2 & -> & Hst2 & Hpin2). cbn. exists ge2, le2.
  split; [by eapply eff_trans|]. split; [|by rewrite Hpin1].
  destruct (is_readonly (le_state le1)) eqn:Hro; [by right|left]. split; [done|]. apply Hd1.
  by destruct (le_state le1).
Qed.

Lemma seg_pin_eff T p blk_id rs ws b ge le :
  lease_pre T p rs b ge le → next_ts P (next_ts P T) < u64_mod → le_state le ≠ pinned →
  runs P (seg_pin P p blk_id rs ws b)
    (λ '(_, _, rs', ws', b'), ∃ ge' le', eff (next_ts P (next_ts P T)) p blk_id rs b ge rs' b' ge' le le'
       ∧ (ws' = ws ∧ dirty_state (le_state le) = true ∨ ws' = add_writable blk_id ws)
       ∧ le_state le' = pinned).
Proof using HLaws Hlease Hcfg Hdir.
  intros Hpre HT Hnp. unfold seg_pin. pose proof Hpre as [Hco Hp _ _ _].
  assert (T ≤ next_ts P (next_ts P T)) as HT2 by (unfold next_ts in *; lia).
  eapply runs_bind; [by apply (seg_start_write_eff T p blk_id rs ws b ge le)|].
  intros [[[[rr wr] rs1] ws1] b1] (ge1 & le1 & He1 & Hws & Hst1 & Hpin1).
  assert (le_state le1 = writable) as Hw.
  { destruct Hst1 as [?|Hx]; [done|]. by apply Hpin1 in Hx. }
  pose proof (eff_pre _ _ _ _ _ _ _ _ _ _ _ _ HT2 Hpre He1) as Hpre1.
  unfold get_dir. rewrite (ef_le' _ _ _ _ _ _ _ _ _ _ _ He1), bind_Ok. unfold set_pinned.
  rewrite Hw, assert_true, bind_Ok by done. cbn. exists ge1, (set_state pinned le1).
  split; [|done]. eapply eff_trans; [done|]. pose proof (co_lease _ _ _ (lp_coh _ _ _ _ _ _ Hpre1) p le1 ltac:(apply Hpre1)).
  destruct (co_at _ _ _ (lp_coh _ _ _ _ _ _ Hpre1)) as (o & l & Hwf).
  destruct (bf_procs _ _ _ _ _ _ _ Hwf p Hp) as (le2 & _ & Hle2 & _ & _ & Hh).
  rewrite (ef_le' _ _ _ _ _ _ _ _ _ _ _ He1) in Hle2. injection Hle2 as <-.
  apply eff_set_dir; rewrite ?Hw; try done; cbn; lia.
Qed.

Lemma seg_unpin_eff T p blk_id rs b ge le :
  lease_pre T p rs b ge le → le_state le = pinned →
  runs P (seg_unpin p b) (λ b', ∃ le', eff T p blk_id rs b ge rs b' ge le le' ∧ le_state le' = writable).
Proof using HLaws.
  intros Hpre Hpin. pose proof Hpre as [Hco Hp _ _ Hle]. unfold seg_unpin, get_dir.
  rewrite Hle, bind_Ok. unfold set_unpinned. rewrite Hpin, assert_true, bind_Ok by done. cbn.
  exists (set_state writable le). split; [|done]. pose proof (co_lease _ _ _ Hco p le Hle).
  destruct (co_at _ _ _ Hco) as (o & l & Hwf).
  destruct (bf_procs _ _ _ _ _ _ _ Hwf p Hp) as (le2 & _ & Hle2 & _ & _ & Hh).
  rewrite Hle in Hle2. injection Hle2 as <-. apply eff_set_dir; rewrite ?Hpin; try done; cbn; lia.
Qed.
(** ** A pinned block falls out of the read set *)

(** The callback of [acquire_min_wr_ts] for one block, over the read set and
    the block. *)
Definition self_inv_blk (p m blk_id : Z) (s : rd_set * world) : result (Z * (rd_set * world)) :=
  '(_, rd_ts, rs, b) ← seg_self_invalidate P p m blk_id s.1 s.2; Ok (rd_ts, (rs, b)).

Definition self_invalidate_blk (p m : Z) (s : rd_set * world) : result (rd_set * world) :=
  RdSet.self_invalidate fst (λ rs s, (rs, s.2)) (self_inv_blk p) m s.

(** Self-invalidation loses pinned blocks: when the lease of a pinned block
    has expired, its entry is popped from the read set, the block is merged by
    a transaction and stays readable with the new lease, but the timestamp that
    is returned is the expired one, so the entry is not put back. From then on
    no self-invalidation touches the block, however large its minimum write
    timestamp: it stays readable although its lease expires. *)
Theorem pinned_lost_from_read_set T p m blk_id rd0 min0 b ge le
    (Hpre : lease_pre T p (RdSet [RdEntry blk_id rd0] min0) b ge le)
    (HT : next_ts P T < u64_mod) (Hm : min0 < m ≤ T)
    (Hpin : le_state le = pinned) (Hexp : rd0 < m) (Hexp' : le_cur_rd_ts le < m) :
  runs P (self_invalidate_blk p m (RdSet [RdEntry blk_id rd0] min0, b))
    (λ '(rs', b'), rs' = RdSet [] m
       ∧ ∃ le', bw_dirs b' !! p = Some le' ∧ le_state le' = pinned ∧ m ≤ le_cur_rd_ts le'
         ∧ ∀ m2, le_cur_rd_ts le' < m2 →
             self_invalidate_blk p m2 (rs', b') = Ok (RdSet [] m2, b')).
Proof using HLaws Hlease.
  pose proof Hpre as [Hco Hp Hrs Hmin Hle]. cbn in Hmin.
  assert (is_greater_rd_ts m min0 = true ∧ is_greater_rd_ts m rd0 = true
    ∧ is_greater_rd_ts m (le_cur_rd_ts le) = true) as (G1 & G2 & G3).
  { rewrite !is_greater_rd_ts_true. lia. }
  unfold self_invalidate_blk, RdSet.self_invalidate, self_invalidate_begin. cbn. rewrite G1, G2. cbn.
  assert (lease_pre T p (RdSet [] m) b ge le) as Hpre'.
  { split; try done; [split; constructor|cbn; lia]. }
  unfold self_inv_blk at 1. cbn [fst snd].
  unfold seg_self_invalidate, get_dir. rewrite Hle, bind_Ok.
  unfold BlkDir.self_invalidate, invalidate. rewrite G3. unfold set_invalid_state. rewrite Hpin.
  pose proof (tx_pair_eff T p m blk_id (RdSet [] m) (set_dir p le b) ge le) as Htx.
  assert (set_dir p le b = b) as Hid by (destruct b; unfold set_dir; cbn in *; by rewrite insert_id).
  unfold after_invalidation. cbn [iv_needs_merge]. rewrite Hid in *.
  specialize (Htx Hpre' ltac:(lia) HT). revert Htx. unfold runs at 1.
  destruct (_ ≫= _) as [[rs1 b1]|f]; [|by cbn].
  intros (tx & ge1 & le1 & Heff & [_ _ Hl _ _ _ Hpin1 _ Hrs1]). cbn. rewrite G3. cbn.
  rewrite Hpin in Hl, Hrs1. rewrite (Hrs1 eq_refl). split; [done|]. exists le1.
  split; [by eapply ef_le'|]. split; [by apply Hpin1|]. cbn in Hl. split; [done|].
  intros m2 Hm2. assert (is_greater_rd_ts m2 m = true) as G by (apply is_greater_rd_ts_true; lia).
  cbn. by rewrite G.
Qed.
End lease.

(** A fresh block is coherent. *)
Lemma seg_blk_init_coherent {K} `{HL : GlobalLock header K} P num_procs
    {HLaws : @GlobalLockLaws header K HL (in_range num_procs) (enable_migration P)} n lk owner content :
  0 < num_procs → lk_free lk owner zero_header → area n content →
  coherent P (in_range num_procs) n 0 (seg_blk_init P num_procs lk content) (GlobalEntry 0 0).
Proof.
  intros Hn Hfree Ha. split; try done.
  - exists owner, 0. by apply seg_blk_init_wf.
  - intros q le Hq. cbn in Hq. rewrite (lookup_procs (init_entry P)) in Hq.
    destruct (decide _); [|done]. by injection Hq as <-.
Qed.

(** * A pinned block that is lost

    Process 0 pins its block of the two-process demo system and then acquires a
    minimum write timestamp of 100. *)
Definition demo_pinned : result (rd_set * blk_world (qstate header)) :=
  '(_, _, rs, _, b) ← seg_pin (H := queue_global_lock 2) default_policy 0 4096 rd_set_init
                        wr_set_init demo_blk;
  Ok (rs, b).

Lemma demo_pinned_pre : ∃ b ge le,
  demo_pinned = Ok (RdSet [RdEntry 4096 0] 0, b)
  ∧ lease_pre (HL := queue_global_lock 2) default_policy (in_range 2)
      (HLaws := queue_lock_laws 2) 1 100 0 (RdSet [RdEntry 4096 0] 0) b ge le
  ∧ le_state le = pinned ∧ le_cur_rd_ts le < 100.
Proof.
  assert (lease_pre (HL := queue_global_lock 2) default_policy (in_range 2)
    (HLaws := queue_lock_laws 2) 1 0 0 rd_set_init demo_blk (GlobalEntry 0 0)
    (init_entry default_policy 0)) as Hpre.
  { split; [|by split|apply rd_set_init_wf|by cbn|reflexivity].
    apply (seg_blk_init_coherent default_policy 2 1 demo_lock 1); [done| |apply demo_zeros_area].
    apply (queue_coll_make_free 2 1 zero_header). done. }
  pose proof (seg_pin_eff (HL := queue_global_lock 2) default_policy (in_range 2)
    (HLaws := queue_lock_laws 2) eq_refl eq_refl ltac:(done) 1 0 0 4096 rd_set_init wr_set_init
    demo_blk _ _ Hpre ltac:(done) ltac:(done)) as Hr.
  unfold demo_pinned.
  destruct (seg_pin _ _ _ _ _ _) as [[[[[r w] rs] ws] b]|f] eqn:E; [|by vm_compute in E].
  destruct Hr as (ge & le & Heff & _ & Hpin). exists b, ge, le. cbn [mbind result_bind].
  assert (rs = RdSet [RdEntry 4096 0] 0) as ->.
  { apply (f_equal (λ r, match r with Ok (_, _, rs, _, _) => rs | Fail _ => rd_set_init end)) in E.
    rewrite <-E. vm_compute. reflexivity. }
  split; [done|]. split.
  - eapply eff_pre; [|exact Hpre|]; [|eapply eff_mono; [|exact Heff]]; done.
  - split; [done|]. apply (f_equal (λ r, match r with Ok (_, _, _, _, b) => bw_dirs b !! 0 | Fail _ => None end)) in E.
    pose proof (ef_le' _ _ _ _ _ _ _ _ _ _ _ _ _ _ Heff) as Hle. rewrite <-E in Hle.
    vm_compute in Hle. by injection Hle as <-.
Qed.

Lemma pinned_lost_from_read_set_witness : ∃ b b' le,
  demo_pinned = Ok (RdSet [RdEntry 4096 0] 0, b)
  ∧ self_invalidate_blk (HL := queue_global_lock 2) default_policy 0 100 (RdSet [RdEntry 4096 0] 0, b)
    = Ok (RdSet [] 100, b')
  ∧ bw_dirs b' !! 0 = Some le ∧ le_state le = pinned
  ∧ self_invalidate_blk (HL := queue_global_lock 2) default_policy 0 (le_cur_rd_ts le + 1) (RdSet [] 100, b')
    = Ok (RdSet [] (le_cur_rd_ts le + 1), b').
Proof.
  destruct demo_pinned_pre as (b & ge & le & E & Hpre & Hpin & Hexp).
  pose proof (pinned_lost_from_read_set (HL := queue_global_lock 2) default_policy (in_range 2)
    (HLaws := queue_lock_laws 2) ltac:(done) 1 100 0 100 4096 0 0 b ge le Hpre ltac:(done)
    ltac:(done) Hpin ltac:(done) Hexp) as Hr.
  assert (is_ok (self_invalidate_blk (HL := queue_global_lock 2) default_policy 0 100
    (RdSet [RdEntry 4096 0] 0, b)) = true) as Hok.
  { apply (f_equal (λ r, match r with Ok s => is_ok (self_invalidate_blk (HL := queue_global_lock 2)
      default_policy 0 100 s) | Fail _ => false end)) in E. cbn beta iota in E. rewrite <-E.
    vm_compute. reflexivity. }
  unfold runs in Hr. destruct (self_invalidate_blk _ _ _ _) as [[rs' b']|] eqn:E2; [|discriminate].
  destruct Hr as (-> & le' & Hle' & Hpin' & Hl & Hm2).
  exists b, b', le'. split; [exact E|]. split; [exact E2|]. split; [exact Hle'|].
  split; [exact Hpin'|]. apply Hm2. lia.
Defined.
