(* ===== verification/BlkVers.v ===== *)
(** The versions of a block, in the builds with migration and without lazy
    merges.

    Every transaction that writes makes a version of the block: its write
    timestamp and its data, the public copy of the last writer. This file
    relates the copies of the processes to the versions: which version the
    public copy of a process is, and where the private copy differs from it
    because of stores that are not released yet. Each operation of SegTable.v
    keeps the relation; a release makes the next version. *)
From Stdlib Require Import ZArith Lia Sorted.
From stdpp Require Import base tactics sets list gmap.
From S2P Require Import Prelude.
From S2P Require Import Policy.
From S2P Require Import RdSet.
From S2P Require Import WrSet.
From S2P Require Import BlkDir.
From S2P Require Import BlkData.
From S2P Require Import QueueLock.
From S2P Require Import BlkLock.
From S2P Require Import DataRuns.
From S2P Require Import SegTable.
From S2P Require Import SegLease.

(** * Versions *)

(** A write timestamp and the data, the newest version first. *)
Abbreviation version := (Z * list Z)%type.

Definition head_data (vs : list version) : list Z := match vs with v :: _ => v.2 | [] => [] end.

(** [l] is a version that no version up to [X] is newer than. *)
Definition has (vs : list version) (X : Z) (l : list Z) : Prop :=
  ∃ t, (t, l) ∈ vs ∧ ∀ v, v ∈ vs → v.1 ≤ X → v.1 ≤ t.

(** The byte [off] is the latest one in every version that includes the
    versions up to [X]. *)
Definition settled (vs : list version) (off : nat) (X : Z) : Prop :=
  ∀ l, has vs X l → l !! off = head_data vs !! off.

(** The byte has not changed since the version at [k]. *)
Definition settled_from (vs : list version) (off : nat) (k : Z) : Prop :=
  (∃ l, (k, l) ∈ vs) ∧ ∀ v, v ∈ vs → k ≤ v.1 → v.2 !! off = head_data vs !! off.

Definition newer (v w : version) : Prop := w.1 < v.1.

Lemma settled_from_settled vs off k X : settled_from vs off k → k ≤ X → settled vs off X.
Proof.
  intros [[l0 Hk] Hs] HX l (t & Ht & Hmax). apply (Hs (t, l) Ht). by apply (Hmax (k, l0)).
Qed.

Lemma has_mono vs X Y l : X ≤ Y → has vs Y l → has vs X l.
Proof. intros HX (t & Ht & Hm). exists t. split; [done|]. intros v Hv Hl. apply Hm; [done|lia]. Qed.

Lemma settled_mono vs off X Y : X ≤ Y → settled vs off X → settled vs off Y.
Proof. intros HX Hs l Hl. apply Hs. by eapply has_mono. Qed.

Section sorted.
Context (t0 : Z) (l0 : list Z) (vs0 : list version).
Context (Hsorted : StronglySorted newer ((t0, l0) :: vs0)).

Lemma below_head v : v ∈ (t0, l0) :: vs0 → v.1 ≤ t0 ∧ (v.1 = t0 → v = (t0, l0)).
Proof.
  intros [->|Hv]%elem_of_cons; [by split; [cbn; lia|]|].
  apply StronglySorted_inv in Hsorted as [_ Hall]. rewrite Forall_forall in Hall.
  specialize (Hall v Hv). unfold newer in Hall. cbn in Hall. split; lia.
Qed.

Lemma has_head X : has ((t0, l0) :: vs0) X l0.
Proof. exists t0. split; [by left|]. intros v Hv _. by apply below_head. Qed.

(** A version that includes the last one is the last one. *)
Lemma has_latest X l : t0 ≤ X → has ((t0, l0) :: vs0) X l → l = l0.
Proof.
  intros HX (t & Ht & Hm). specialize (Hm (t0, l0) ltac:(by left) HX). cbn in Hm.
  destruct (below_head _ Ht) as [Hle Heq]. cbn in Hle. by injection (Heq ltac:(cbn; lia)).
Qed.

(** A new version. *)
Context (t1 : Z) (l1 : list Z) (Ht1 : t0 < t1).

Lemma sorted_new : StronglySorted newer ((t1, l1) :: (t0, l0) :: vs0).
Proof.
  constructor; [done|]. apply Forall_forall. intros v Hv. pose proof (below_head v Hv) as [? _].
  unfold newer. cbn. lia.
Qed.

Lemma has_new X l : X < t1 → has ((t0, l0) :: vs0) X l → has ((t1, l1) :: (t0, l0) :: vs0) X l.
Proof.
  intros HX (t & Ht & Hm). exists t. split; [by right|].
  intros v [->|Hv]%elem_of_cons Hle; [cbn in Hle; lia|by apply Hm].
Qed.

Lemma settled_new off X :
  l1 !! off = l0 !! off → settled ((t0, l0) :: vs0) off X → settled ((t1, l1) :: (t0, l0) :: vs0) off X.
Proof.
  intros Hl Hs l (t & Ht & Hm). cbn [head_data snd]. apply elem_of_cons in Ht as [[= -> ->]|Ht]; [done|].
  rewrite Hl. apply (Hs l). exists t. split; [done|]. intros v Hv. apply Hm. by right.
Qed.

Lemma settled_from_new off k :
  l1 !! off = l0 !! off → settled_from ((t0, l0) :: vs0) off k →
  settled_from ((t1, l1) :: (t0, l0) :: vs0) off k.
Proof.
  intros Hl [[l Hk] Hs]. split; [exists l; by right|].
  intros v [->|Hv]%elem_of_cons Hle; [done|]. cbn [head_data snd]. rewrite Hl. by apply (Hs v).
Qed.

Lemma settled_from_at off : settled_from ((t1, l1) :: (t0, l0) :: vs0) off t1.
Proof.
  split; [exists l1; by left|]. intros v [->|Hv]%elem_of_cons Hle; [done|].
  destruct (below_head v Hv). lia.
Qed.
End sorted.

(** * Merges, byte by byte *)

(** A three-way merge: the remote byte where the local side did not change it,
    the local one where the remote side did not. *)
Definition merge_bytes (o p q r : list Z) : Prop :=
  ∀ off, (p !! off = q !! off → r !! off = o !! off) ∧ (q !! off = o !! off → r !! off = p !! off).

Lemma merge_bytes_zip (f : Z → Z → Z → Z) o p q :
  length o = length p → length q = length p →
  (∀ a b, f a b b = a) → (∀ a b, is_byte a → is_byte b → f a b a = b) →
  bytes o → bytes p → merge_bytes o p q (zip3_with f o p q).
Proof.
  intros Ho Hq Hf1 Hf2 Bo Bp off.
  destruct (decide (off < length p)%nat) as [Hlt|Hge].
  - destruct (lookup_lt_is_Some_2 p off Hlt) as [b Eb].
    destruct (lookup_lt_is_Some_2 o off ltac:(lia)) as [a Ea].
    destruct (lookup_lt_is_Some_2 q off ltac:(lia)) as [c Ec].
    erewrite lookup_zip3_with by done. rewrite Ea, Eb, Ec.
    split; intros [= ->]; [by rewrite Hf1|]. rewrite Hf2; [done|by eapply (Forall_lookup_1 _ _ off a Bo)|
      by eapply (Forall_lookup_1 _ _ off b Bp)].
  - rewrite !(lookup_ge_None_2 _ off); [done|..]; try lia. rewrite length_zip3_with; [lia|done..].
Qed.

Lemma merge_bytes_merge3 n o p q : area n o → area n p → area n q → merge_bytes o p q (merge3 o p q).
Proof.
  intros [Bo Lo] [Bp Lp] [Bq Lq]. apply merge_bytes_zip; try done; [congruence..|apply merge3_cell_same|].
  intros a b _ _. unfold merge3_cell. by rewrite Z.eqb_refl.
Qed.

Lemma merge_bytes_result n o p q : area n o → area n p → area n q →
  merge_bytes o p q (zip3_with result_reg o p q).
Proof.
  intros [Bo Lo] [Bp Lp] [Bq Lq]. apply merge_bytes_zip; try done; [congruence..|apply result_reg_same|].
  intros a b _ _. unfold result_reg. rewrite Z.lxor_assoc, Z.lxor_nilpotent. apply Z.lxor_0_r.
Qed.

Lemma merge_simd_bytes P w n o p q r1 r2 : area n o → area n p → area n q →
  merge_simd P w o p q = Ok (r1, r2) → merge_bytes o p q r1 ∧ r2 = if w then r1 else o.
Proof.
  intros Ho Hp Hq E. pose proof (merge_simd_correct P w o p q n Ho Hp Hq) as H.
  destruct (enable_race_detection P && _); [destruct H as (i & H & _); congruence|].
  rewrite E in H. injection H as -> ->. split; [by apply (merge_bytes_result n)|done].
Qed.

Lemma read_merge_bytes P n o p q r1 r2 : area n o → area n p → area n q →
  read_merge P o p q = Ok (r1, r2) → merge_bytes o p q r1 ∧ r2 = o.
Proof.
  intros Ho Hp Hq. unfold read_merge. destruct (use_simd_diff P); [by apply (merge_simd_bytes P false n)|].
  unfold read_merge_byte. intros E.
  pose proof (read_merge_loop_spec (enable_race_detection P) [] [] o p q eq_refl) as H.
  specialize (H ltac:(destruct Ho, Hp; congruence) ltac:(destruct Hp, Hq; congruence)).
  cbn [app length] in H. destruct (enable_race_detection P && _); [destruct H as (i & H); congruence|].
  rewrite E in H. injection H as -> ->. split; [by apply (merge_bytes_merge3 n)|done].
Qed.

Lemma write_merge_bytes P n o p q s r1 r2 : area n o → area n p → area n q →
  write_merge P o p q s = Ok (r1, r2) → merge_bytes o p q r1 ∧ r2 = r1.
Proof.
  intros Ho Hp Hq. unfold write_merge. destruct (use_simd_diff P && s); [by apply (merge_simd_bytes P true n)|].
  unfold write_merge_byte. rewrite (write_merge_loop_spec _ [] [] o p q);
    [|done|destruct Ho, Hp; congruence|destruct Hp, Hq; congruence].
  destruct (enable_race_detection P && _); [done|]. cbn. intros [= <- <-].
  split; [by apply (merge_bytes_merge3 n)|done].
Qed.

(** * The relation of the copies to the versions *)

(** The versions of a block; the lease up to which the public copy of a process
    is up to date; and the bytes of its private copy with stores that are not
    released. *)
Record blk_ghost := BlkGhost {
  bg_vers : list version;
  bg_sync : Z → Z;
  bg_edits : Z → gset nat;
}.

(** The copies of process [p]. *)
Record copy_ok (g : blk_ghost) (p : Z) (le : local_entry) (m : blk_mem) : Prop := {
  cp_pub : has (bg_vers g) (bg_sync g p) (bm_pub m);
  cp_sync : 0 ≤ bg_sync g p ≤ le_cur_rd_ts le;
  cp_home : le_cur_rd_ts le ≤ bg_sync g (le_home_proc le);
  cp_clean : dirty_state (le_state le) = false →
    is_invalid (le_state le) = false ∨ le_home_proc le = p → has (bg_vers g) (le_cur_rd_ts le) (bm_priv m);
  cp_dirty : dirty_state (le_state le) = true → is_invalid (le_state le) = false →
    bg_sync g p = le_cur_rd_ts le;
  cp_same : dirty_state (le_state le) = true → ∀ off, off ∉ bg_edits g p → bm_priv m !! off = bm_pub m !! off;
  cp_none : dirty_state (le_state le) = false → bg_edits g p = ∅;
  cp_own : ∀ off, off ∈ bg_edits g p →
    bm_pub m !! off = head_data (bg_vers g) !! off ∧ settled (bg_vers g) off (le_cur_rd_ts le);
}.

Record vers_ok (g : blk_ghost) (dirs : gmap Z local_entry) (ms : mems) (lw wr : Z) : Prop := {
  vo_head : ∃ rest m, ms !! lw = Some m ∧ bg_vers g = (wr, bm_pub m) :: rest;
  vo_sorted : StronglySorted newer (bg_vers g);
  vo_copies : ∀ p le m, dirs !! p = Some le → ms !! p = Some m → copy_ok g p le m;
  vo_writer : ∀ le, dirs !! lw = Some le → wr ≤ le_cur_rd_ts le;
  vo_disj : ∀ p q off, off ∈ bg_edits g p → off ∈ bg_edits g q → p = q;
}.

(** Two relations of the same versions. *)
Record quiet (g g' : blk_ghost) : Prop := {
  qt_vers : bg_vers g' = bg_vers g;
  qt_edits : bg_edits g' = bg_edits g;
  qt_sync : ∀ q, bg_sync g q ≤ bg_sync g' q;
}.

#[export] Instance quiet_preorder : PreOrder quiet.
Proof.
  split; [by split|]. intros g1 g2 g3 [V1 E1 S1] [V2 E2 S2]. split; [congruence..|].
  intros q. specialize (S1 q). specialize (S2 q). lia.
Qed.

(** The copies of a process do not notice that others are synced. *)
Lemma copy_ok_quiet g g' p le m :
  quiet g g' → bg_sync g' p = bg_sync g p → copy_ok g p le m → copy_ok g' p le m.
Proof.
  intros [Hv He Hs] Hp [P1 P2 P3 P4 P5 P6 P7 P8]. split; rewrite ?Hv, ?He, ?Hp; try done.
  specialize (Hs (le_home_proc le)). lia.
Qed.

Section vers.
Context (dirs : gmap Z local_entry) (ms : mems) (lw wr : Z).

Lemma vers_head g : vers_ok g dirs ms lw wr → ∃ rest l, bg_vers g = (wr, l) :: rest
  ∧ head_data (bg_vers g) = l ∧ (∀ m, ms !! lw = Some m → bm_pub m = l)
  ∧ StronglySorted newer ((wr, l) :: rest).
Proof.
  intros [(rest & m & Hm & Hv) Hs _ _ _]. exists rest, (bm_pub m). rewrite Hv in *.
  split_and!; try done. intros m' Hm'. by simplify_eq.
Qed.

(** An operation of [p] that makes no version. *)
Lemma vers_update g g' p le m le' m' :
  vers_ok g dirs ms lw wr → dirs !! p = Some le → ms !! p = Some m →
  bg_vers g' = bg_vers g →
  (∀ q, q ≠ p → bg_sync g' q = bg_sync g q ∧ bg_edits g' q = bg_edits g q) →
  bg_sync g p ≤ bg_sync g' p → le_cur_rd_ts le ≤ le_cur_rd_ts le' →
  (p = lw → bm_pub m' = head_data (bg_vers g)) →
  (∀ q off, q ≠ p → off ∈ bg_edits g' p → off ∉ bg_edits g q) →
  copy_ok g' p le' m' →
  vers_ok g' (<[p := le']> dirs) (<[p := m']> ms) lw wr.
Proof.
  intros Hok Hle Hm Hv Hoth Hsy Hl Hlw Hdj Hcp.
  destruct (vers_head g Hok) as (rest & l & Hvs & Hhd & Hpub & Hs). destruct Hok as [(rest' & m0 & Hm0 & Hv0) _ Hc Hw Hd].
  split.
  - destruct (decide (p = lw)) as [->|Hne].
    + exists rest, m'. rewrite lookup_insert_eq, Hv, Hvs, (Hlw eq_refl), Hhd. done.
    + exists rest, m0. rewrite lookup_insert_ne by done. split; [done|]. by rewrite Hv, Hvs, (Hpub m0 Hm0).
  - by rewrite Hv, Hvs.
  - intros q leq mq. destruct (decide (q = p)) as [->|Hne].
    + rewrite !lookup_insert_eq. by intros [= <-] [= <-].
    + rewrite !lookup_insert_ne by done. intros Hleq Hmq. destruct (Hoth q Hne) as [Es Ee].
      destruct (Hc q leq mq Hleq Hmq) as [P1 P2 P3 P4 P5 P6 P7 P8].
      split; rewrite ?Hv, ?Es, ?Ee; try done.
      destruct (decide (le_home_proc leq = p)) as [Eh|Hh]; [rewrite Eh in *; lia|].
      destruct (Hoth _ Hh) as [-> _]. done.
  - intros leq. destruct (decide (lw = p)) as [<-|Hne].
    + rewrite lookup_insert_eq. intros [= <-]. specialize (Hw le Hle). lia.
    + rewrite lookup_insert_ne by done. apply Hw.
  - intros q1 q2 off H1 H2.
    destruct (decide (q1 = p)) as [->|N1], (decide (q2 = p)) as [->|N2]; try done.
    + destruct (Hoth q2 N2) as [_ E2]. rewrite E2 in H2. by destruct (Hdj q2 off N2 H1).
    + destruct (Hoth q1 N1) as [_ E1]. rewrite E1 in H1. by destruct (Hdj q1 off N1 H2).
    + destruct (Hoth q1 N1) as [_ E1], (Hoth q2 N2) as [_ E2]. rewrite E1 in H1. rewrite E2 in H2. by eapply Hd.
Qed.

(** The common case: the same relation. *)
Lemma vers_update_same g p le m le' m' :
  vers_ok g dirs ms lw wr → dirs !! p = Some le → ms !! p = Some m →
  le_cur_rd_ts le ≤ le_cur_rd_ts le' → bm_pub m' = bm_pub m → copy_ok g p le' m' →
  vers_ok g (<[p := le']> dirs) (<[p := m']> ms) lw wr.
Proof.
  intros Hok Hle Hm Hl Hp Hcp. destruct (vers_head g Hok) as (rest & l & Hvs & Hhd & Hpub & _).
  apply (vers_update g g p le m); try done.
  - intros ->. by rewrite Hp, Hhd, (Hpub m Hm).
  - intros q off Hne H1 H2. apply Hne. by eapply (vo_disj _ _ _ _ _ Hok).
Qed.

(** Syncing the public copy of [p] up to its lease. *)
Definition sync_to (p X : Z) (g : blk_ghost) : blk_ghost :=
  BlkGhost (bg_vers g) (λ q, if q =? p then X else bg_sync g q) (bg_edits g).

Lemma sync_to_eq p X g : bg_sync (sync_to p X g) p = X.
Proof. cbn. by rewrite Z.eqb_refl. Qed.

Lemma sync_to_ne p q X g : q ≠ p → bg_sync (sync_to p X g) q = bg_sync g q.
Proof. intros Hne. cbn. by destruct (Z.eqb_spec q p). Qed.

Lemma sync_to_quiet p X g : bg_sync g p ≤ X → quiet g (sync_to p X g).
Proof.
  intros HX. split; [done|done|]. intros q. destruct (decide (q = p)) as [->|Hne].
  - by rewrite sync_to_eq.
  - by rewrite sync_to_ne.
Qed.

Lemma vers_update_sync g p le m le' m' :
  vers_ok g dirs ms lw wr → dirs !! p = Some le → ms !! p = Some m →
  le_cur_rd_ts le = le_cur_rd_ts le' → has (bg_vers g) (le_cur_rd_ts le) (bm_pub m') →
  copy_ok (sync_to p (le_cur_rd_ts le) g) p le' m' →
  vers_ok (sync_to p (le_cur_rd_ts le) g) (<[p := le']> dirs) (<[p := m']> ms) lw wr.
Proof.
  intros Hok Hle Hm Hl Hp Hcp. destruct (vers_head g Hok) as (rest & l & Hvs & Hhd & Hpub & Hs).
  pose proof (cp_sync _ _ _ _ (vo_copies _ _ _ _ _ Hok p le m Hle Hm)) as Hsy.
  apply (vers_update g _ p le m); try done.
  - intros q Hne. split; [by apply sync_to_ne|done].
  - rewrite sync_to_eq. lia.
  - lia.
  - intros ->. rewrite Hhd. rewrite Hvs in Hp. eapply has_latest; [exact Hs| |exact Hp].
    by apply (vo_writer _ _ _ _ _ Hok).
  - intros q off Hne H1 H2. apply Hne. by eapply (vo_disj _ _ _ _ _ Hok).
Qed.
End vers.

(** * The operations on the copies *)

(** The stores that are not released stay in the private copies. *)
Definition edits_kept (g : blk_ghost) (ms ms' : mems) : Prop :=
  ∀ q m off, off ∈ bg_edits g q → ms !! q = Some m →
    ∃ m', ms' !! q = Some m' ∧ bm_priv m' !! off = bm_priv m !! off.

Lemma edits_kept_refl g ms : edits_kept g ms ms.
Proof. intros q m off _ H. by exists m. Qed.

Lemma edits_kept_insert g ms p m m1 :
  ms !! p = Some m → (∀ off, off ∈ bg_edits g p → bm_priv m1 !! off = bm_priv m !! off) →
  edits_kept g ms (<[p := m1]> ms).
Proof.
  intros Hm He q mq off Hoff Hq. destruct (decide (q = p)) as [->|Hne].
  - exists m1. rewrite lookup_insert_eq. simplify_eq. split; [done|by apply He].
  - exists mq. by rewrite lookup_insert_ne.
Qed.

Section ops.
Context (P : policy) (Hmig : enable_migration P = true) (Hlazy : enable_lazy_merge P = false).
Context (n : nat).

Lemma data_start_read_exact p h dirty ms ms' m hm :
  mems_shape n ms → ms !! p = Some m → ms !! h = Some hm →
  data_start_read P p h dirty ms = Ok ms' →
  ∃ m', ms' = <[p := m']> ms
  ∧ if decide (p = h) then m' = set_prot ProtRead m
    else if dirty then bm_pub m' = bm_pub hm ∧ merge_bytes (bm_pub hm) (bm_priv m) (bm_pub m) (bm_priv m')
    else bm_pub m' = bm_pub m ∧ bm_priv m' = bm_pub hm.
Proof using Hmig Hlazy.
  intros Hs Hm Hh. pose proof (map_Forall_lookup_1 _ _ _ _ Hs Hm) as Sm.
  pose proof (map_Forall_lookup_1 _ _ _ _ Hs Hh) as Sh.
  unfold data_start_read. rewrite Hmig, andb_true_l. destruct (Z.eqb_spec p h) as [->|Hne].
  { rewrite bind_Ok, (get_mem_ok _ _ _ Hm), bind_Ok. intros [= <-]. eexists. split; [done|].
    by rewrite decide_True. }
  unfold read_other. rewrite (get_mem_ok _ _ _ Hh), bind_Ok, bind_Ok, Hlazy, (get_mem_ok _ _ _ Hm), bind_Ok.
  destruct dirty; intros E.
  - apply bind_ok in E as (ms1 & E1 & E). apply bind_ok in E1 as ([r1 r2] & Er & [= <-]).
    apply (read_merge_bytes P n) in Er as [Hr ->]; [|apply Sh|apply Sm|by apply mem_shape_my_twin].
    unfold get_mem in E. rewrite lookup_insert_eq in E. cbn in E. injection E as <-.
    rewrite insert_insert_eq. eexists. split; [done|]. rewrite decide_False by done. cbn.
    rewrite set_twin_pub, set_twin_priv by done. split; [done|].
    unfold my_twin in Hr. by rewrite Hmig in Hr.
  - rewrite bind_Ok in E. unfold get_mem in E. rewrite lookup_insert_eq in E. cbn in E. injection E as <-.
    rewrite insert_insert_eq. eexists. split; [done|]. by rewrite decide_False.
Qed.

(** A read whose lease is valid. *)
Lemma vers_read g dirs ms lw wr p le m hm ms' :
  vers_ok g dirs ms lw wr → mems_shape n ms → dirs !! p = Some le → ms !! p = Some m →
  ms !! le_home_proc le = Some hm → dirs !! le_home_proc le ≠ None → is_invalid (le_state le) = true →
  data_start_read P p (le_home_proc le) (state_eqb (le_state le) invalid_dirty) ms = Ok ms' →
  ∃ g', quiet g g' ∧ edits_kept g ms ms'
    ∧ vers_ok g' (<[p := set_state (if state_eqb (le_state le) invalid_dirty then readonly_dirty
                                    else readonly_clean) le]> dirs) ms' lw wr.
Proof using Hmig Hlazy.
  intros Hok Hsh Hle Hm Hhm Hhd Hinv E. set (h := le_home_proc le) in *.
  destruct (dirs !! h) as [hle|] eqn:Hhle; [clear Hhd|done].
  pose proof (vo_copies _ _ _ _ _ Hok p le m Hle Hm) as Hcp.
  pose proof (vo_copies _ _ _ _ _ Hok h hle hm Hhle Hhm) as Hch.
  destruct (data_start_read_exact p h _ ms ms' m hm Hsh Hm Hhm E) as (m' & -> & Hm'). clear E.
  pose proof Hcp as [P1 P2 P3 P4 P5 P6 P7 P8]. fold h in P3, P4.
  assert (has (bg_vers g) (le_cur_rd_ts le) (bm_pub hm)) as Hh.
  { eapply has_mono; [|apply Hch]. done. }
  set (le' := set_state _ le).
  assert (dirty_state (le_state le') = dirty_state (le_state le)) as Hd
    by (unfold le'; cbn; revert Hinv; by destruct (le_state le)).
  assert (is_invalid (le_state le') = false) as Hv by (unfold le'; cbn; by destruct (state_eqb _ _)).
  assert (le_cur_rd_ts le' = le_cur_rd_ts le ∧ le_home_proc le' = h) as [HL HH] by done.
  destruct (decide (p = h)) as [Eph|Hne].
  - subst m'. exists g. split; [done|]. split; [by apply (edits_kept_insert _ _ p m)|].
    apply (vers_update_same _ _ _ _ g p le m); try done.
    split; rewrite ?HL, ?HH, ?Hd; try done.
    + intros Hdc _. apply P4; [done|by right].
    + intros _ _. rewrite Eph in *. lia.
  - destruct (state_eqb (le_state le) invalid_dirty) eqn:Est.
    + destruct Hm' as [Hpub Hmg]. assert (dirty_state (le_state le) = true) as Hdt.
      { revert Est. by destruct (le_state le). }
      exists (sync_to p (le_cur_rd_ts le) g). split; [apply sync_to_quiet; lia|]. split.
      { apply (edits_kept_insert _ _ p m _ Hm). intros off Hoff. destruct (P8 off Hoff) as [Ho Hs].
        apply Hmg. rewrite Ho. symmetry. by apply Hs. }
      apply (vers_update_sync _ _ _ _ g p le m); try done; [by rewrite Hpub|].
      split; rewrite ?HL, ?HH, ?Hd, ?sync_to_eq; try done.
      * by rewrite Hpub.
      * lia.
      * by rewrite sync_to_ne.
      * congruence.
      * intros _ off Hoff. rewrite Hpub. apply Hmg. by apply P6.
      * intros off Hoff. destruct (P8 off Hoff) as [Ho Hs]. rewrite Hpub. split; [by apply Hs|done].
    + destruct Hm' as [Hpub Hpriv]. assert (dirty_state (le_state le) = false) as Hdf.
      { revert Est Hinv. by destruct (le_state le). }
      exists g. split; [done|]. split.
      { apply (edits_kept_insert _ _ p m _ Hm). rewrite (P7 Hdf). set_solver. }
      apply (vers_update_same _ _ _ _ g p le m); try done.
      split; rewrite ?HL, ?HH, ?Hd, ?Hpub; try done; [by rewrite Hpriv|congruence..].
Qed.

(** Changes of the state that keep the copies: of a page that is accessible
    before and after, and clean or dirty before and after. *)
Lemma vers_set_state g dirs ms lw wr p le m st prot :
  vers_ok g dirs ms lw wr → dirs !! p = Some le → ms !! p = Some m →
  dirty_state st = dirty_state (le_state le) → is_invalid (le_state le) = false →
  vers_ok g (<[p := set_state st le]> dirs) (<[p := set_prot prot m]> ms) lw wr.
Proof.
  intros Hok Hle Hm Hd Hv. destruct (vo_copies _ _ _ _ _ Hok p le m Hle Hm) as [P1 P2 P3 P4 P5 P6 P7 P8].
  apply (vers_update_same _ _ _ _ g p le m); try done; try (cbn; lia).
  split; cbn; rewrite ?Hd; auto.
Qed.

(** A clean copy becomes writable: the public copy becomes its twin. *)
Lemma vers_twin g dirs ms lw wr p le m prot :
  vers_ok g dirs ms lw wr → dirs !! p = Some le → ms !! p = Some m →
  le_state le = readonly_clean →
  ∃ g', quiet g g' ∧ edits_kept g ms (<[p := set_prot prot (set_twin P (bm_priv m) m)]> ms)
    ∧ vers_ok g' (<[p := set_state writable le]> dirs)
        (<[p := set_prot prot (set_twin P (bm_priv m) m)]> ms) lw wr.
Proof using Hmig Hlazy.
  intros Hok Hle Hm Hst. destruct (vo_copies _ _ _ _ _ Hok p le m Hle Hm) as [P1 P2 P3 P4 P5 P6 P7 P8].
  rewrite Hst in *. cbn in P4, P5, P6, P7. specialize (P7 eq_refl). specialize (P4 eq_refl ltac:(by left)).
  exists (sync_to p (le_cur_rd_ts le) g). split; [apply sync_to_quiet; lia|]. split.
  { apply (edits_kept_insert _ _ p m _ Hm). rewrite P7. set_solver. }
  assert (bm_pub (set_prot prot (set_twin P (bm_priv m) m)) = bm_priv m) as Hpub by by apply set_twin_pub.
  assert (bm_priv (set_prot prot (set_twin P (bm_priv m) m)) = bm_priv m) as Hpriv by apply set_twin_priv.
  apply (vers_update_sync _ _ _ _ g p le m); try done; [by rewrite Hpub|].
  split; rewrite ?Hpub, ?Hpriv, ?sync_to_eq; cbn [set_state le_cur_rd_ts le_home_proc le_state]; try done.
  - lia.
  - destruct (decide (le_home_proc le = p)) as [->|Hne]; [rewrite sync_to_eq; lia|by rewrite sync_to_ne].
  - intros off Hoff. cbn in Hoff. rewrite P7 in Hoff. by apply not_elem_of_empty in Hoff.
Qed.

(** A write notice within what its home has synced. *)
Lemma vers_acquire g dirs ms lw wr p le m home rd_ts wr_ts ret le' prot :
  vers_ok g dirs ms lw wr → dirs !! p = Some le → ms !! p = Some m → le_state le ≠ pinned →
  wr_ts ≤ rd_ts ≤ bg_sync g home → acquire home rd_ts wr_ts le = (ret, le') →
  vers_ok g (<[p := le']> dirs) (<[p := set_prot prot m]> ms) lw wr.
Proof.
  intros Hok Hle Hm Hnp Hts E. pose proof (vo_copies _ _ _ _ _ Hok p le m Hle Hm) as [P1 P2 P3 P4 P5 P6 P7 P8].
  unfold acquire, invalidate in E. destruct (set_invalid_state _ le) as [ret0 le1] eqn:E1.
  destruct (set_invalid_state_spec _ _ _ _ E1) as (_ & Hdirty & _ & Hhome1).
  destruct (set_invalid_state_cases _ _ _ _ E1) as (Hign & Hinv & _ & Hpin & Hval & Hl1).
  destruct (is_greater_rd_ts wr_ts (le_cur_rd_ts le)) eqn:G; rewrite Hign in E; cbn [negb] in E; injection E as <- <-.
  - apply is_greater_rd_ts_true in G. destruct (Hinv eq_refl) as [Hi|Hx]; [|by apply Hpin in Hx].
    apply (vers_update_same _ _ _ _ g p le m); try done; try (cbn; lia).
    split; cbn [le_state le_cur_rd_ts le_home_proc set_prot bm_pub bm_priv]; rewrite ?Hdirty; try done.
    + lia.
    + lia.
    + intros _ [?|Hh]; [congruence|]. rewrite Hh in *. lia.
    + congruence.
    + intros off Hoff. destruct (P8 off Hoff) as [? Hs]. split; [done|]. eapply settled_mono; [|exact Hs]. lia.
  - apply is_greater_rd_ts_false in G.
    assert (le1 = le) as -> by (unfold set_invalid_state in E1; by injection E1).
    apply (vers_update_same _ _ _ _ g p le m); try done; lia.
Qed.

(** A store where nobody else has an unreleased one and whose byte is settled. *)
Definition edit (p : Z) (off : nat) (g : blk_ghost) : blk_ghost :=
  BlkGhost (bg_vers g) (bg_sync g) (λ q, if q =? p then {[ off ]} ∪ bg_edits g p else bg_edits g q).

Lemma edit_eq p off g : bg_edits (edit p off g) p = {[ off ]} ∪ bg_edits g p.
Proof. cbn. by rewrite Z.eqb_refl. Qed.

Lemma edit_ne p q off g : q ≠ p → bg_edits (edit p off g) q = bg_edits g q.
Proof. intros Hne. cbn. by destruct (Z.eqb_spec q p). Qed.

Lemma vers_store g dirs ms lw wr p le m off v :
  vers_ok g dirs ms lw wr → dirs !! p = Some le → ms !! p = Some m →
  dirty_state (le_state le) = true → is_invalid (le_state le) = false →
  settled (bg_vers g) off (le_cur_rd_ts le) → (∀ q, q ≠ p → off ∉ bg_edits g q) →
  vers_ok (edit p off g) dirs (<[p := set_priv (<[off := v]> (bm_priv m)) m]> ms) lw wr.
Proof.
  intros Hok Hle Hm Hd Hv Hst Hdj. destruct (vo_copies _ _ _ _ _ Hok p le m Hle Hm) as [P1 P2 P3 P4 P5 P6 P7 P8].
  rewrite <-(insert_id dirs p le Hle).
  apply (vers_update _ _ _ _ g (edit p off g) p le m); try done; [| | |].
  - intros q Hne. split; [done|by apply edit_ne].
  - intros ->. destruct (vers_head _ _ _ _ g Hok) as (rest & l & _ & -> & Hp & _). exact (Hp m Hm).
  - intros q o Hne. rewrite edit_eq. intros [->%elem_of_singleton|Ho]%elem_of_union; [by apply Hdj|].
    intros Hq. apply Hne. by eapply (vo_disj _ _ _ _ _ Hok).
  - split; rewrite ?edit_eq; cbn [edit bg_vers bg_sync set_priv bm_pub bm_priv]; try done; [congruence| |congruence|].
    + intros _ o Ho. rewrite list_lookup_insert_ne; [apply P6; set_solver|]. set_solver.
    + intros o [->%elem_of_singleton|Ho]%elem_of_union; [|by apply P8]. split; [|done].
      apply Hst. rewrite <-(P5 Hd Hv). done.
Qed.
End ops.

(** * Releases *)

(** The versions after a transaction of [p] with the new timestamp [w] and the
    lease [r]: a new one with [data] if it is written, and [p] is synced. *)
Definition publish (written : bool) (p w r : Z) (data : list Z) (g : blk_ghost) : blk_ghost :=
  BlkGhost (if written then (w, data) :: bg_vers g else bg_vers g)
    (λ q, if q =? p then r else bg_sync g q) (λ q, if q =? p then ∅ else bg_edits g q).

Section publish.
Context (written : bool) (p w r : Z) (data : list Z) (g : blk_ghost).
#[local] Abbreviation g' := (publish written p w r data g).

Lemma publish_sync_eq : bg_sync g' p = r.
Proof. cbn. by rewrite Z.eqb_refl. Qed.

Lemma publish_sync_ne q : q ≠ p → bg_sync g' q = bg_sync g q.
Proof. intros Hne. cbn. by destruct (Z.eqb_spec q p). Qed.

Lemma publish_edits_eq : bg_edits g' p = ∅.
Proof. cbn. by rewrite Z.eqb_refl. Qed.

Lemma publish_edits_ne q : q ≠ p → bg_edits g' q = bg_edits g q.
Proof. intros Hne. cbn. by destruct (Z.eqb_spec q p). Qed.

Lemma publish_edits_sub q off : off ∈ bg_edits g' q → q ≠ p ∧ off ∈ bg_edits g q.
Proof.
  destruct (decide (q = p)) as [->|Hne]; [|by rewrite publish_edits_ne].
  rewrite publish_edits_eq. by intros ?%not_elem_of_empty.
Qed.

Lemma publish_sync_grow q : bg_sync g p ≤ r → bg_sync g q ≤ bg_sync g' q.
Proof.
  intros Hr. destruct (decide (q = p)) as [->|Hne]; [by rewrite publish_sync_eq|by rewrite publish_sync_ne].
Qed.
End publish.

(** What the merge of a transaction of [p] makes of the bytes. *)
Definition merged_bytes (g : blk_ghost) (p : Z) (m : blk_mem) (data : list Z) : Prop :=
  ∀ off, data !! off = if decide (off ∈ bg_edits g p) then bm_priv m !! off
                       else head_data (bg_vers g) !! off.

Lemma merged_bytes_intro g p le m data :
  copy_ok g p le m → dirty_state (le_state le) = true →
  merge_bytes (head_data (bg_vers g)) (bm_priv m) (bm_pub m) data → merged_bytes g p m data.
Proof.
  intros [_ _ _ _ _ P6 _ P8] Hd Hmg off. destruct (Hmg off) as [Hm1 Hm2].
  destruct (decide _) as [Hin|Hout].
  - apply Hm2. by destruct (P8 off Hin).
  - by apply Hm1, P6.
Qed.

Section release.
Context (g : blk_ghost) (dirs : gmap Z local_entry) (ms : mems) (lw wr : Z).
Context (p : Z) (le : local_entry) (m : blk_mem) (le' : local_entry) (m' : blk_mem).
Context (Hok : vers_ok g dirs ms lw wr) (Hle : dirs !! p = Some le) (Hm : ms !! p = Some m).
Context (Hdata : merged_bytes g p m (bm_priv m')) (Hpub : bm_pub m' = bm_priv m').
Context (Hhome : le_home_proc le' = p) (Hvalid : is_invalid (le_state le') = false).
Context (Hgrow : le_cur_rd_ts le ≤ le_cur_rd_ts le').

(** The copies of [p] after the transaction. *)
Lemma copy_ok_published written w (g' := publish written p w (le_cur_rd_ts le') (bm_priv m') g) :
  (∀ X, has (bg_vers g') X (bm_priv m')) → copy_ok g' p le' m'.
Proof using Hok Hle Hm Hpub Hhome Hgrow.
  intros Hh. pose proof (cp_sync _ _ _ _ (vo_copies _ _ _ _ _ Hok p le m Hle Hm)) as Hsy.
  assert (bg_sync g' p = le_cur_rd_ts le') as Es by apply publish_sync_eq.
  assert (bg_edits g' p = ∅) as Ee by apply publish_edits_eq.
  split; rewrite ?Hhome, ?Es, ?Ee; try done; [by rewrite Hpub|lia|by rewrite Hpub].
Qed.

Lemma vers_release_same (g' := publish false p wr (le_cur_rd_ts le') (bm_priv m') g) :
  bm_priv m' = head_data (bg_vers g) →
  vers_ok g' (<[p := le']> dirs) (<[p := m']> ms) lw wr.
Proof using Hok Hle Hm Hpub Hhome Hgrow.
  intros Hhd. destruct (vers_head _ _ _ _ g Hok) as (rest & l & Hvs & Hl & Hlp & Hs).
  pose proof (cp_sync _ _ _ _ (vo_copies _ _ _ _ _ Hok p le m Hle Hm)) as Hsy.
  apply (vers_update _ _ _ _ g g' p le m); try done.
  - intros q Hne. split; [by apply publish_sync_ne|by apply publish_edits_ne].
  - unfold g'. rewrite publish_sync_eq. lia.
  - intros _. by rewrite Hpub.
  - intros q off _ [? _]%publish_edits_sub. done.
  - apply copy_ok_published. intros X. cbn. rewrite Hhd, Hl, Hvs. by apply has_head.
Qed.

Context (w : Z).
Context (Hnew : ∀ q leq, dirs !! q = Some leq → le_cur_rd_ts leq < w) (Hwr : wr < w) (Hlt : w ≤ le_cur_rd_ts le').

Lemma vers_release_new (g' := publish true p w (le_cur_rd_ts le') (bm_priv m') g) :
  vers_ok g' (<[p := le']> dirs) (<[p := m']> ms) p w.
Proof using All.
  destruct (vers_head _ _ _ _ g Hok) as (rest & l & Hvs & Hl & Hlp & Hs).
  pose proof Hdata as Hmb. unfold merged_bytes in Hmb. rewrite Hl in Hmb.
  assert (bg_vers g' = (w, bm_priv m') :: (wr, l) :: rest) as Hvs' by (cbn; by rewrite Hvs).
  pose proof (cp_sync _ _ _ _ (vo_copies _ _ _ _ _ Hok p le m Hle Hm)) as Hsy.
  pose proof (sorted_new _ _ _ Hs w (bm_priv m') Hwr) as Hs'.
  split.
  - exists (bg_vers g), m'. rewrite lookup_insert_eq. split; [done|]. cbn. by rewrite Hpub.
  - by rewrite Hvs'.
  - intros q leq mq. destruct (decide (q = p)) as [->|Hne].
    + rewrite !lookup_insert_eq. intros [= <-] [= <-]. apply copy_ok_published. intros X. fold g'. rewrite Hvs'.
      by apply has_head.
    + rewrite !lookup_insert_ne by done. intros Hleq Hmq. specialize (Hnew q leq Hleq).
      destruct (vo_copies _ _ _ _ _ Hok q leq mq Hleq Hmq) as [P1 P2 P3 P4 P5 P6 P7 P8].
      assert (bg_sync g' q = bg_sync g q ∧ bg_edits g' q = bg_edits g q) as [Es Ee]
        by (split; [by apply publish_sync_ne|by apply publish_edits_ne]).
      pose proof (publish_sync_grow true p w (le_cur_rd_ts le') (bm_priv m') g (le_home_proc leq)) as Hgr.
      split; rewrite ?Es, ?Ee, ?Hvs'; try done.
      * apply has_new; [lia|by rewrite <-Hvs].
      * unfold g' in *. specialize (Hgr ltac:(lia)). lia.
      * intros Hd Hv. apply has_new; [lia|]. rewrite <-Hvs. by apply P4.
      * intros off Hoff. destruct (P8 off Hoff) as [Ho Hst].
        assert (bm_priv m' !! off = l !! off) as Eb.
        { rewrite Hmb, decide_False; [done|]. intros Hp. apply Hne. by eapply (vo_disj _ _ _ _ _ Hok). }
        rewrite Ho, Hl. cbn [head_data snd]. split; [done|]. apply settled_new; [done|by rewrite <-Hvs].
  - intros leq. rewrite lookup_insert_eq. by intros [= <-].
  - intros q1 q2 off [_ H1]%publish_edits_sub [_ H2]%publish_edits_sub. by eapply (vo_disj _ _ _ _ _ Hok).
Qed.
End release.

Section merge.
Context (P : policy) (Hmig : enable_migration P = true) (Hlazy : enable_lazy_merge P = false).
Context (n : nat).

(** The merge of a transaction of a dirty copy. *)
Lemma release_merge_exact p glk le ms m om mg ms' (bt := begin_transaction P p glk le) :
  mems_shape n ms → ms !! p = Some m → ms !! glk_last_writer_proc glk = Some om →
  dirty_state (le_state le) = true → release_merge P p glk bt ms = Ok (mg, ms') →
  mg = MergeResult (local_written P bt m) true
  ∧ ∃ m', ms' = <[p := m']> ms ∧ bm_pub m' = bm_priv m'
    ∧ merge_bytes (bm_pub om) (bm_priv m) (bm_pub m) (bm_priv m')
    ∧ (local_written P bt m = false → bm_priv m' = bm_pub om).
Proof using Hmig Hlazy.
  intros Hs Hm Hom Hd. pose proof (map_Forall_lookup_1 _ _ _ _ Hs Hm) as Sm.
  pose proof (map_Forall_lookup_1 _ _ _ _ Hs Hom) as So.
  assert (bt_is_dirty bt = true) as Hbd by (cbn; revert Hd; by destruct (le_state le)).
  assert (local_written P bt m = false → bm_priv m = bm_pub m) as Hnw.
  { unfold local_written, my_twin. rewrite Hbd, Hmig. destruct (bt_needs_local_comp bt); [|done].
    intros ?%negb_false_iff%bool_decide_eq_true. done. }
  unfold release_merge. rewrite (get_mem_ok _ _ _ Hm), bind_Ok.
  set (m0 := if bt_needs_protect_before bt then set_prot ProtRead m else m). cbn zeta.
  assert (bm_priv m0 = bm_priv m ∧ bm_pub m0 = bm_pub m ∧ bm_snapshot m0 = bm_snapshot m) as (E1 & E2 & E3).
  { unfold m0. by destruct (bt_needs_protect_before bt). }
  assert (local_written P bt m0 = local_written P bt m) as Elw.
  { unfold local_written, my_twin. by rewrite E1, E2, E3. }
  rewrite Elw, Hmig. set (wn := local_written P bt m) in *. intros E.
  apply bind_ok in E as (ms1 & E1' & E).
  assert (∃ m1, ms1 = <[p := m1]> ms ∧ bm_pub m1 = bm_priv m1
    ∧ merge_bytes (bm_pub om) (bm_priv m) (bm_pub m) (bm_priv m1)
    ∧ (wn = false → bm_priv m1 = bm_pub om)) as (m1 & -> & Hp1 & Hmg & Hw1).
  { destruct (bt_is_remotely_updated bt) eqn:Hrem; cbn [negb] in E1'.
    - unfold merge_remote in E1'. rewrite Hmig, Hlazy in E1'.
      assert (glk_last_writer_proc glk ≠ p) as Hne.
      { cbn in Hrem. by apply negb_true_iff, Z.eqb_neq in Hrem. }
      unfold read_other, get_mem in E1'. rewrite lookup_insert_ne, Hom in E1' by done.
      rewrite Hlazy in E1'. cbn [andb] in E1'. rewrite !bind_Ok, lookup_insert_eq, bind_Ok in E1'.
      destruct wn.
      + apply bind_ok in E1' as ([r1 r2] & Er & [= <-]).
        apply (write_merge_bytes P n) in Er as [Hr ->];
          [|apply So|rewrite E1; apply Sm|unfold my_twin; rewrite Hmig, E2; apply Sm].
        unfold my_twin in Hr. rewrite Hmig, E1, E2 in Hr.
        rewrite insert_insert_eq. eexists. split; [done|]. rewrite set_twin_pub, set_twin_priv by done. by split.
      + injection E1' as <-. rewrite insert_insert_eq. eexists. split; [done|].
        rewrite set_twin_pub, set_twin_priv by done. split; [done|]. split; [|done].
        specialize (Hnw eq_refl). intros off. rewrite Hnw. cbn. done.
    - assert (glk_last_writer_proc glk = p) as Eq.
      { cbn in Hrem. apply negb_false_iff in Hrem. by apply Z.eqb_eq in Hrem. }
      injection E1' as <-. rewrite Eq, Hm in Hom. injection Hom as <-. unfold merge_local.
      assert (bt_needs_local_copy bt = true) as Hlc by (cbn; by rewrite Hlazy). rewrite Hlc, andb_true_r.
      destruct wn.
      + rewrite insert_insert_eq. eexists. split; [done|]. rewrite set_twin_pub, set_twin_priv by done.
        rewrite E1. split; [done|]. split; [|done]. intros off. by split.
      + exists m0. split; [done|]. specialize (Hnw eq_refl). rewrite E1, E2, Hnw. split; [done|].
        split; [|done]. intros off. by split. }
  unfold get_mem in E. rewrite lookup_insert_eq in E. cbn [negb andb] in E. rewrite !bind_Ok, lookup_insert_eq in E.
  rewrite bind_Ok in E. injection E as <- <-. split; [done|].
  destruct (_ || _).
  - exists (set_prot ProtRead m1). by rewrite insert_insert_eq.
  - by exists m1.
Qed.
End merge.
