(* ===== verification/Space.v ===== *)
(** The address space of all processes: space.hpp of medsm2/dsm, in the
    timestamp builds.

    A process has its view of the segment table (the layout with its block
    flags), its read set, write set and release signature; the blocks and the
    mutexes are shared. The calls of the processes (faults, pinning, fences,
    mutexes, barriers) run one after the other: a call is a whole method of the
    source, and its loops over blocks are the loops of the components. The
    parallel loop of a release runs in the order [sched] chooses; the one of a
    barrier in the order of the processes. *)
From Stdlib Require Import ZArith Lia Permutation.
From stdpp Require Import base tactics functions list gmap.
From S2P Require Import Prelude.
From S2P Require Import Policy.
From S2P Require Import SigBuffer.
From S2P Require Import Layout.
From S2P Require Import RdSet.
From S2P Require Import WrSet.
From S2P Require Import BlkDir.
From S2P Require Import BlkData.
From S2P Require Import QueueLock.
From S2P Require Import BlkLock.
From S2P Require Import DataRuns.
From S2P Require Import SegTable.
From S2P Require Import MtxTable.
From S2P Require Import SegLease.

(** What a process has of class [space]. *)
Record proc_space := ProcSpace {
  sp_layout : seg_table;
  sp_rd : rd_set;
  sp_wr : wr_set;
  sp_sig : sig_buffer;
}.

Record space (K M : Type) := Space {
  sp_blks : gmap (Z * Z) (blk_world K);
  sp_procs : gmap Z proc_space;
  sp_mtxs : mtx_table M;
}.
Arguments Space {K M} sp_blks sp_procs sp_mtxs.
Arguments sp_blks {K M} s.
Arguments sp_procs {K M} s.
Arguments sp_mtxs {K M} s.

(** * Operations *)
Section operations.
Context {K M : Type} {HK : GlobalLock header K} {HM : GlobalLock (list Z) M} (P : policy).
(** Padding and uninitialised memory of the serialized signatures, the order
    of the parallel release loop, and [std::sort]. *)
Context (pad : wn_entry → list Z) (uninit : list Z) (sched : nat → list nat).
Context {Hsort : StdSort greater_wn}.
#[local] Abbreviation world := (blk_world K).
#[local] Abbreviation sspace := (space K M).

Definition get_proc (p : Z) (s : sspace) : result proc_space :=
  match sp_procs s !! p with Some ps => Ok ps | None => Fail OutOfBounds end.

Definition put_proc (p : Z) (ps : proc_space) (s : sspace) : sspace :=
  Space (sp_blks s) (<[p := ps]> (sp_procs s)) (sp_mtxs s).

(** A call of an operation of the segment table with the sets of [p]. *)
Definition seg_call {A} (p blk_id : Z)
    (op : rd_set → wr_set → world → result (A * rd_set * wr_set * world)) (s : sspace) :
    result (A * sspace) :=
  ps ← get_proc p s;
  '(r, w) ← with_local_lock P blk_id
              (λ b, '(a, rs, ws, b) ← op (sp_rd ps) (sp_wr ps) b; Ok ((a, rs, ws), b))
              (SegWorld (sp_layout ps) (sp_blks s));
  let '(a, rs, ws) := r in
  Ok (a, Space (sw_blks w) (<[p := ProcSpace (sp_layout ps) rs ws (sp_sig ps)]> (sp_procs s))
           (sp_mtxs s)).

Definition space_start_read (p blk_id : Z) (s : sspace) : result (seg_read_result * sspace) :=
  seg_call p blk_id (λ rs ws b, '(r, rs, b) ← seg_start_read P p blk_id rs b; Ok (r, rs, ws, b)) s.

Definition space_start_write (p blk_id : Z) (s : sspace) :
    result (seg_read_result * start_write_result * sspace) :=
  '(r, w, s) ← seg_call p blk_id (λ rs ws b, seg_start_write P p blk_id rs ws b) s; Ok (r, w, s).

Definition pin_block (p blk_id : Z) (s : sspace) :
    result (seg_read_result * start_write_result * sspace) :=
  '(r, w, s) ← seg_call p blk_id (λ rs ws b, seg_pin P p blk_id rs ws b) s; Ok (r, w, s).

Definition unpin_block (p blk_id : Z) (s : sspace) : result sspace :=
  '(_, s) ← seg_call p blk_id (λ rs ws b, b ← seg_unpin p b; Ok (tt, rs, ws, b)) s;
  ps ← get_proc p s;
  Ok (put_proc p (ProcSpace (sp_layout ps) (sp_rd ps) (add_writable blk_id (sp_wr ps)) (sp_sig ps)) s).

(** A store of the application into its private copy of a block; where the page
    is not writable the hardware raises a fault instead. *)
Definition blk_store (p : Z) (off : nat) (v : Z) (b : world) : result world :=
  m ← get_mem p (bw_mems b);
  match bm_prot m with
  | ProtReadWrite =>
      if (off <? length (bm_priv m))%nat
      then Ok (set_mems (<[p := set_priv (<[off := v]> (bm_priv m)) m]> (bw_mems b)) b)
      else Fail OutOfBounds
  | _ => Fail Aborted
  end.

Definition app_store (p blk_id : Z) (off : nat) (v : Z) (s : sspace) : result sspace :=
  '(_, s) ← seg_call p blk_id (λ rs ws b, b ← blk_store p off v b; Ok (tt, rs, ws, b)) s; Ok s.

(** ** Release *)
Definition convert_to_wn_vec (blk_ids : list Z) (rel_rets : list release_result) : list wn_entry :=
  omap (λ '(blk_id, rel_ret),
    if rl_release_completed rel_ret && rl_is_written rel_ret
    then Some (release_notice blk_id rel_ret) else None) (zip blk_ids rel_rets).

Definition release_call (p rd_ts_st blk_id : Z) (s : sspace) : result (release_result * sspace) :=
  seg_call p blk_id
    (λ rs ws b, '(r, rs, b) ← seg_release P p rd_ts_st blk_id rs b; Ok (r, rs, ws, b)) s.

(** [fence_release]; it also returns the write notices. A call waits when
    another thread of the process is releasing, which whole calls exclude. *)
Definition fence_release (p : Z) (s : sspace) : result (list wn_entry * sspace) :=
  ps ← get_proc p s;
  let rd_ts_st := get_ts_state (sp_rd ps) in
  match start_release (sp_wr ps) with
  | (ws, Selected) =>
      '(wn_vec, ws, s) ← release_all_blocks rl_is_still_writable (release_call p rd_ts_st)
                           convert_to_wn_vec (sched (length (collect_ids ws))) ws s;
      ps ← get_proc p s;
      '(sig, layout) ← rel_sig_merge_wns (H := seg_ft P) P (sp_layout ps) (sp_sig ps) wn_vec;
      ws ← finish_release ws;
      Ok (wn_vec, put_proc p (ProcSpace layout (sp_rd ps) ws sig) s)
  | _ => Fail Aborted
  end.

(** ** Acquire *)
Fixpoint acquire_wns_loop (p rd_ts_st : Z) (wns : list wn_entry) (s : sspace) : result sspace :=
  match wns with
  | [] => Ok s
  | wn :: wns =>
      '(_, s) ← seg_call p (wn_blk_id wn)
                  (λ rs ws b, '(r, rs, b) ← seg_acquire P p rd_ts_st wn rs b; Ok (r, rs, ws, b)) s;
      acquire_wns_loop p rd_ts_st wns s
  end.

Definition acquire_wns (p : Z) (sig : sig_buffer) (s : sspace) : result sspace :=
  ps ← get_proc p s;
  acquire_wns_loop p (get_ts_state (sp_rd ps)) (wn_vec sig) s.

(** The read set inside the space. *)
Definition get_rd (p : Z) (s : sspace) : rd_set :=
  match sp_procs s !! p with Some ps => sp_rd ps | None => rd_set_init end.

Definition put_rd (p : Z) (rs : rd_set) (s : sspace) : sspace :=
  match sp_procs s !! p with
  | Some ps => put_proc p (ProcSpace (sp_layout ps) rs (sp_wr ps) (sp_sig ps)) s
  | None => s
  end.

Definition self_inv_call (p m blk_id : Z) (s : sspace) : result (Z * sspace) :=
  seg_call p blk_id
    (λ rs ws b, '(_, rd_ts, rs, b) ← seg_self_invalidate P p m blk_id rs b; Ok (rd_ts, rs, ws, b)) s.

Definition acquire_min_wr_ts (p min_wr_ts : Z) (s : sspace) : result sspace :=
  RdSet.self_invalidate (get_rd p) (put_rd p) (self_inv_call p) min_wr_ts s.

Definition acquire_sig (p : Z) (sig : sig_buffer) (s : sspace) : result sspace :=
  s ← acquire_wns p sig s;
  acquire_min_wr_ts p (min_wr_ts sig) s.

(** [rel_sig_.merge(seg_tbl_, sig)]. *)
Definition merge_rel_sig (p : Z) (sig : sig_buffer) (s : sspace) : result sspace :=
  ps ← get_proc p s;
  '(sig, layout) ← rel_sig_merge (H := seg_ft P) P (sp_layout ps) (sp_sig ps) sig;
  Ok (put_proc p (ProcSpace layout (sp_rd ps) (sp_wr ps) sig) s).

(** ** Mutexes *)
Definition set_mtxs (t : mtx_table M) (s : sspace) : sspace := Space (sp_blks s) (sp_procs s) t.

(** [None] when the mutex is held by another thread of the process. *)
Definition lock_mutex (p mtx_id : Z) (s : sspace) : result (option sspace) :=
  lk_ret ← mtx_lock p mtx_id (sp_mtxs s);
  match lk_ret with
  | None => Ok None
  | Some (sig_buf, t) =>
      s ← acquire_sig p sig_buf (set_mtxs t s);
      s ← merge_rel_sig p sig_buf s;
      Ok (Some s)
  end.

Definition unlock_mutex (p mtx_id : Z) (s : sspace) : result (list wn_entry * sspace) :=
  '(wns, s) ← fence_release p s;
  ps ← get_proc p s;
  let '(sig, _) := get_sig (sp_sig ps) false in
  t ← mtx_unlock pad uninit p mtx_id sig (sp_mtxs s);
  Ok (wns, set_mtxs t s).

(** ** Barrier *)

(** Up to the all-gather: the buffer this process contributes. *)
Definition barrier_release (p : Z) (s : sspace) : result (list wn_entry * list Z * sspace) :=
  '(wns, s) ← fence_release p s;
  let sig_size := get_max_size_in_bytes P in
  ps ← get_proc p s;
  '(this_buf, sig) ← serialize_and_clear pad uninit (sp_sig ps) sig_size;
  Ok (wns, this_buf, put_proc p (ProcSpace (sp_layout ps) (sp_rd ps) (sp_wr ps) sig) s).

(** The signatures of the other processes. *)
Fixpoint barrier_sigs (p : Z) (all_buf : list (Z * list Z)) : result (list sig_buffer) :=
  match all_buf with
  | [] => Ok []
  | (proc_id, buf) :: all_buf =>
      sigs ← barrier_sigs p all_buf;
      if negb (proc_id =? p) then
        sig ← deserialize_from buf (get_max_size_in_bytes P);
        Ok (sig :: sigs)
      else Ok sigs
  end.

Fixpoint acquire_all_wns (p : Z) (sigs : list sig_buffer) (s : sspace) : result sspace :=
  match sigs with
  | [] => Ok s
  | sig :: sigs => s ← acquire_wns p sig s; acquire_all_wns p sigs s
  end.

(** After the all-gather. *)
Definition barrier_acquire (p : Z) (all_buf : list (Z * list Z)) (s : sspace) : result sspace :=
  sigs ← barrier_sigs p all_buf;
  let min_wr_ts := foldr (λ sig m, min_wr_ts sig `max` m) 0 sigs in
  s ← acquire_all_wns p sigs s;
  acquire_min_wr_ts p min_wr_ts s.

(** The collective call: no process passes the all-gather before all have
    released. *)
Fixpoint barrier_releases (procs : list Z) (s : sspace) :
    result (list (Z * list wn_entry) * list (Z * list Z) * sspace) :=
  match procs with
  | [] => Ok ([], [], s)
  | p :: procs =>
      '(wns, buf, s) ← barrier_release p s;
      '(l, bufs, s) ← barrier_releases procs s;
      Ok ((p, wns) :: l, (p, buf) :: bufs, s)
  end.

Fixpoint barrier_acquires (procs : list Z) (all_buf : list (Z * list Z)) (s : sspace) :
    result sspace :=
  match procs with
  | [] => Ok s
  | p :: procs => s ← barrier_acquire p all_buf s; barrier_acquires procs all_buf s
  end.

Definition barrier (procs : list Z) (s : sspace) : result (list (Z * list wn_entry) * sspace) :=
  '(l, all_buf, s) ← barrier_releases procs s;
  s ← barrier_acquires procs all_buf s;
  Ok (l, s).
End operations.

(** * The system: calls of the processes, one after the other *)
Inductive sp_call :=
| CRead (p blk_id : Z)
| CWrite (p blk_id : Z)
| CPin (p blk_id : Z)
| CUnpin (p blk_id : Z)
| CStore (p blk_id : Z) (off : nat) (v : Z)
| CRelease (p : Z)
| CLock (p mtx_id : Z)
| CUnlock (p mtx_id : Z)
| CBarrier.

Section system.
Context {K M : Type} {HK : GlobalLock header K} {HM : GlobalLock (list Z) M} (P : policy).
Context (pad : wn_entry → list Z) (uninit : list Z) (sched : nat → list nat).
Context {Hsort : StdSort greater_wn} (num_procs : Z).
#[local] Abbreviation sspace := (space K M).

(** A call, with the write notices each process published. *)
Definition space_do (c : sp_call) (s : sspace) : result (list (Z * list wn_entry) * sspace) :=
  match c with
  | CRead p b => '(_, s) ← space_start_read P p b s; Ok ([], s)
  | CWrite p b => '(_, _, s) ← space_start_write P p b s; Ok ([], s)
  | CPin p b => '(_, _, s) ← pin_block P p b s; Ok ([], s)
  | CUnpin p b => s ← unpin_block P p b s; Ok ([], s)
  | CStore p b off v => s ← app_store P p b off v s; Ok ([], s)
  | CRelease p => '(wns, s) ← fence_release P sched p s; Ok ([(p, wns)], s)
  | CLock p i =>
      r ← lock_mutex P p i s;
      match r with Some s => Ok ([], s) | None => Fail Aborted end
  | CUnlock p i => '(wns, s) ← unlock_mutex P pad uninit sched p i s; Ok ([(p, wns)], s)
  | CBarrier => barrier P pad uninit sched (seqZ 0 num_procs) s
  end.

(** How many transactions on blocks a call makes at most. *)
Definition num_dirty (p : Z) (s : sspace) : Z :=
  match sp_procs s !! p with
  | Some ps => Z.of_nat (length (collect_ids (sp_wr ps)))
  | None => 0
  end.

Definition call_cost (c : sp_call) (s : sspace) : Z :=
  match c with
  | CRead _ _ => 1
  | CWrite _ _ | CPin _ _ => 2
  | CUnpin _ _ | CStore _ _ _ _ | CLock _ _ => 0
  | CRelease p | CUnlock p _ => num_dirty p s
  | CBarrier => foldr (λ p n, num_dirty p s + n) 0 (seqZ 0 num_procs)
  end.

(** ** Happens-before

    The writes that are published, each a block and its write timestamp, and
    who must see them: [hb_seen p] are the writes that happened before the
    current point of [p], [hb_mtx i] those before the last unlock of mutex
    [i], [hb_all] those before the last barrier. *)
Record hb := Hb {
  hb_seen : Z → gset (Z * Z);
  hb_mtx : Z → gset (Z * Z);
  hb_all : gset (Z * Z);
}.

Definition hb_init : hb := Hb (λ _, ∅) (λ _, ∅) ∅.

Definition wn_events (wns : list wn_entry) : gset (Z * Z) :=
  list_to_set ((λ wn, (wn_blk_id wn, wn_wr_ts wn)) <$> wns).

Definition hb_publish (l : list (Z * list wn_entry)) (h : hb) : hb :=
  Hb (λ p, hb_seen h p ∪ ⋃ ((λ '(q, wns), if q =? p then wn_events wns else ∅) <$> l))
    (hb_mtx h) (hb_all h).

Definition hb_do (c : sp_call) (l : list (Z * list wn_entry)) (h : hb) : hb :=
  let h := hb_publish l h in
  match c with
  | CLock p i => Hb (<[p := hb_seen h p ∪ hb_mtx h i]> (hb_seen h)) (hb_mtx h) (hb_all h)
  | CUnlock p i => Hb (hb_seen h) (<[i := hb_seen h p]> (hb_mtx h)) (hb_all h)
  | CBarrier =>
      let all := ⋃ (hb_seen h <$> seqZ 0 num_procs) in Hb (λ _, all) (hb_mtx h) all
  | _ => h
  end.

(** The mutexes, as MtxTable.v specifies them. *)
Definition sig_of (p : Z) (s : sspace) : sig_buffer :=
  match sp_procs s !! p with Some ps => sp_sig ps | None => empty_sig end.

Definition mtx_do (c : sp_call) (s' : sspace) (m : mtx_spec) : mtx_spec :=
  match c with
  | CLock p i => match m !! i with Some (_, sig) => <[i := (Some p, sig)]> m | None => m end
  | CUnlock p i => <[i := (None, sig_of p s')]> m
  | _ => m
  end.

(** ** Legal calls *)

(** The entry of [p] for the block. *)
Definition entry_of (layout : seg_table) (p blk_id : Z) (s : sspace) : option local_entry :=
  match locate P layout blk_id with
  | Ok (seg_id, _, blk_pos) => b ← sp_blks s !! (seg_id, blk_pos); bw_dirs b !! p
  | Fail _ => None
  end.

(** Its memory of the block. *)
Definition mem_of (layout : seg_table) (p blk_id : Z) (s : sspace) : option blk_mem :=
  match locate P layout blk_id with
  | Ok (seg_id, _, blk_pos) => b ← sp_blks s !! (seg_id, blk_pos); bw_mems b !! p
  | Fail _ => None
  end.

Definition no_pinned (p : Z) (s : sspace) : Prop :=
  ∀ loc b le, sp_blks s !! loc = Some b → bw_dirs b !! p = Some le → le_state le ≠ pinned.

(** A process of the system, a registered block, a block that is pinned or not
    as the call needs; a byte stored into a page that is writable; a mutex that is free or held by the caller; and no
    pinned blocks at an acquire (a pinned block falls out of the read set). *)
Definition legal (layout : seg_table) (c : sp_call) (s : sspace) (m : mtx_spec) : Prop :=
  match c with
  | CRead p b | CWrite p b => in_range num_procs p ∧ ft_known (FlagTable := seg_ft P) layout b
  | CPin p b => in_range num_procs p ∧ ft_known (FlagTable := seg_ft P) layout b
      ∧ ∀ le, entry_of layout p b s = Some le → le_state le ≠ pinned
  | CUnpin p b => in_range num_procs p ∧ ft_known (FlagTable := seg_ft P) layout b
      ∧ ∀ le, entry_of layout p b s = Some le → le_state le = pinned
  | CStore p b off v => in_range num_procs p ∧ ft_known (FlagTable := seg_ft P) layout b ∧ 0 ≤ v < 256
      ∧ ∃ m, mem_of layout p b s = Some m ∧ bm_prot m = ProtReadWrite ∧ (off < length (bm_priv m))%nat
  | CRelease p => in_range num_procs p
  | CLock p i => in_range num_procs p ∧ no_pinned p s ∧ ∃ sig, m !! i = Some (None, sig)
  | CUnlock p i => in_range num_procs p ∧ ∃ sig, m !! i = Some (Some p, sig)
  | CBarrier => ∀ p, in_range num_procs p → no_pinned p s
  end.

(** The timestamps after [n] more transactions. *)
Definition later_ts (T n : Z) : Z := T + n * (1 + lease_ts P).

(** [reach s0 T s m h]: the system can be in [s] after legal calls whose
    timestamps stay below [T]. *)
Inductive reach (layout : seg_table) (s0 : sspace) (m0 : mtx_spec) : Z → sspace → mtx_spec → hb → Prop :=
| reach_start : reach layout s0 m0 0 s0 m0 hb_init
| reach_call T s m h c l s' :
    reach layout s0 m0 T s m h → legal layout c s m →
    later_ts T (call_cost c s + 1) < u64_mod →
    space_do c s = Ok (l, s') →
    reach layout s0 m0 (later_ts T (call_cost c s)) s' (mtx_do c s' m) (hb_do c l h).

(** The start: fresh blocks, sets and signatures. *)
Definition proc_space_init (layout : seg_table) : proc_space :=
  ProcSpace layout rd_set_init wr_set_init empty_sig.

Definition space_init (layout : seg_table) (blks : gmap (Z * Z) (blk_world K)) (mtxs : mtx_table M) : sspace :=
  Space blks (list_to_map ((λ p, (p, proc_space_init layout)) <$> seqZ 0 num_procs)) mtxs.

(** A write of the block at [ts] is not missed by [p]: its copy is leased up
    to [ts] or later, or it is invalid and will be fetched by a transaction. *)
Definition fresh (layout : seg_table) (p blk_id ts : Z) (s : sspace) : Prop :=
  ∃ ps le, sp_procs s !! p = Some ps ∧ entry_of layout p blk_id s = Some le
    ∧ (ts ≤ le_cur_rd_ts le ∨ is_invalid (le_state le) = true ∧ ts ≤ rs_min_wr_ts (sp_rd ps)).
End system.
