(* ===== verification/BlkVersOps.v ===== *)
(** The operations of the segment table and the versions of a block.

    Calls that return keep the relation of BlkVers.v, in the builds with
    migration and without lazy merges: reads (of processes whose minimum write
    timestamp is zero, so that they run no transaction), writes, pinning and
    write notices make no version and keep the unreleased stores; a release
    publishes those of its process as the next version. *)
From Stdlib Require Import ZArith Lia Sorted.
From stdpp Require Import base tactics sets list gmap.
From S2P Require Import Prelude.
From S2P Require Import Policy.
From S2P Require Import RdSet.
From S2P Require Import WrSet.
From S2P Require Import BlkDir.
From S2P Require Import BlkData.
From S2P Require Import QueueLock.
From S2P Require Import BlkLock.
From S2P Require Import DataRuns.
From S2P Require Import SegTable.
From S2P Require Import SegLease.
From S2P Require Import BlkVers.
From S2P Require Import Space.

Section ops.
Context {K : Type} {HL : GlobalLock header K} (P : policy) (valid : Z → Prop).
Context {HLaws : @GlobalLockLaws header K HL valid (enable_migration P)}.
Context (Hcfg : config_allowed P = true) (Hdir : use_directory_coherence P = false).
Context (Hlease : 0 ≤ lease_ts P).
Context (Hmig : enable_migration P = true) (Hlazy : enable_lazy_merge P = false).
Context (n : nat).
#[local] Abbreviation world := (blk_world K).
#[local] Abbreviation blk_wf := (@blk_wf K HL P valid HLaws n).
#[local] Abbreviation lease_pre := (@lease_pre K HL P valid HLaws n).
#[local] Abbreviation blk_at := (@blk_at K HL P valid HLaws n).

(** The copies of a block are versions of it. *)
Definition blk_vers (g : blk_ghost) (b : world) : Prop :=
  ∃ owner lw ge, blk_wf b owner lw ge ∧ vers_ok g (bw_dirs b) (bw_mems b) lw (ge_wr_ts ge).

(** A change of the block that makes no version and keeps the stores. *)
Definition blk_quiet (g : blk_ghost) (b b' : world) : Prop :=
  ∃ g', quiet g g' ∧ edits_kept g (bw_mems b) (bw_mems b') ∧ blk_vers g' b'.

Lemma fast_off : enable_fast_release P = false.
Proof using Hcfg Hlazy.
  clear -Hcfg Hlazy. unfold config_allowed in Hcfg. rewrite Hlazy in Hcfg.
  destruct (enable_fast_release P); [|done]. cbn in Hcfg. by rewrite !andb_false_r in Hcfg.
Qed.

Lemma blk_vers_at g b b' ge' owner lw ge :
  blk_wf b owner lw ge → blk_at b' ge' → bw_lock b' = bw_lock b →
  vers_ok g (bw_dirs b') (bw_mems b') lw (ge_wr_ts ge) → blk_vers g b'.
Proof using HLaws.
  intros Hwf (owner' & lw' & Hwf') Hlk Hv. exists owner', lw', ge'. split; [done|].
  pose proof (bf_lock _ _ _ _ _ _ _ Hwf') as Hf'. rewrite Hlk in Hf'.
  by pose proof (lk_free_unique P valid _ _ _ _ _ (bf_lock _ _ _ _ _ _ _ Hwf) Hf') as [= <- <-].
Qed.

Lemma blk_quiet_trans g b1 b2 b3 :
  blk_quiet g b1 b2 → (∀ g', quiet g g' → blk_vers g' b2 → blk_quiet g' b2 b3) → blk_quiet g b1 b3.
Proof.
  intros (g1 & Q1 & E1 & V1) H. destruct (H g1 Q1 V1) as (g2 & Q2 & E2 & V2).
  exists g2. split; [by etrans|]. split; [|done]. intros q m off Hoff Hm.
  destruct (E1 q m off Hoff Hm) as (m1 & Hm1 & <-). apply (E2 q m1); [|done].
  by rewrite (qt_edits _ _ Q1).
Qed.

(** The memories of a well-formed block. *)
Lemma blk_copies b owner lw ge p :
  blk_wf b owner lw ge → valid p → ∃ le m, bw_dirs b !! p = Some le ∧ bw_mems b !! p = Some m
    ∧ bm_prot m = prot_of (le_state le) ∧ valid (le_home_proc le).
Proof. intros Hwf Hp. by apply (bf_procs _ _ _ _ _ _ _ Hwf). Qed.

(** ** Reads *)
Lemma read_vers T p blk_id rs b ge le g r rs' b' :
  lease_pre T p rs b ge le → next_ts P T < u64_mod → rs_min_wr_ts rs = 0 → blk_vers g b →
  start_read_locked P p blk_id rs b = Ok (r, rs', b') → blk_quiet g b b'.
Proof using HLaws Hdir Hlease Hmig Hlazy.
  intros Hpre HT Hmin (owner & lw & ge0 & Hwf & Hv) E. pose proof Hpre as [Hco Hp Hrs _ Hle].
  pose proof (runs_ok P _ _ _ (start_read_locked_eff P valid Hdir Hlease n T p blk_id rs b ge le Hpre HT) E)
    as (ge' & le' & Heff & _). pose proof (co_at _ _ _ _ _ _ (ef_coh _ _ _ _ _ _ _ _ _ _ _ _ _ _ Heff)) as Hat.
  destruct (blk_copies b owner lw ge0 p Hwf Hp) as (le0 & m & Hle0 & Hm & _ & Hh). simplify_eq.
  destruct (blk_copies b owner lw ge0 (le_home_proc le) Hwf Hh) as (hle & hm & Hhle & Hhm & _ & _).
  pose proof (vo_copies _ _ _ _ _ Hv p le m Hle Hm) as Hcp.
  unfold start_read_locked, get_dir in E. rewrite Hle, bind_Ok in E.
  unfold start_read in E. destruct (is_invalid (le_state le)) eqn:Hinv; cbn [negb] in E.
  - rewrite Hdir in E. unfold is_valid_rd_ts, get_ts_state in E. rewrite Hmin in E.
    assert (is_greater_rd_ts 0 (le_cur_rd_ts le) = false) as G.
    { apply is_greater_rd_ts_false. pose proof (cp_sync _ _ _ _ Hcp). lia. }
    rewrite G in E. cbn [negb] in E. apply bind_ok in E as ([[sr rs1] le1] & E1 & E).
    apply bind_ok in E1 as (rs2 & _ & [= <- <- <-]). cbn [sr_needs_read sr_needs_latest_read sr_home_proc sr_is_dirty set_dir bw_mems] in E.
    apply bind_ok in E as ([rs3 b3] & E & [= _ <- <-]). apply bind_ok in E as (ms & Ed & [= <- <-]).
    destruct (vers_read P Hmig Hlazy n g (bw_dirs b) (bw_mems b) lw (ge_wr_ts ge0) p le m hm ms)
      as (g' & Q & Ek & Hv'); try done; [apply Hwf|congruence|].
    exists g'. split; [done|]. split; [done|]. by eapply (blk_vers_at g' b).
  - rewrite bind_Ok in E. cbn in E. injection E as _ <- <-. exists g. split; [done|].
    split; [apply edits_kept_refl|]. eapply (blk_vers_at g b); [done|done|done|].
    cbn. by rewrite (insert_id (bw_dirs b) p le Hle).
Qed.

(** ** Writes *)
Lemma write_locked_vers T p rd_ts_st blk_id rs ws b ge le g r ws' b' :
  lease_pre T p rs b ge le → 0 ≤ rd_ts_st ≤ T → next_ts P T < u64_mod →
  is_invalid (le_state le) = false → blk_vers g b →
  start_write_locked P p rd_ts_st blk_id ws b = Ok (r, ws', b') → blk_quiet g b b'.
Proof using HLaws Hcfg Hlease Hmig Hlazy.
  intros Hpre Hst HT Hvalid (owner & lw & ge0 & Hwf & Hv) E. pose proof Hpre as [Hco Hp Hrs _ Hle].
  pose proof (runs_ok P _ _ _ (start_write_locked_eff P valid Hcfg Hlease n T p rd_ts_st blk_id rs ws b ge le
    Hpre Hst HT Hvalid) E) as (ge' & le' & Heff & _).
  pose proof (co_at _ _ _ _ _ _ (ef_coh _ _ _ _ _ _ _ _ _ _ _ _ _ _ Heff)) as Hat.
  destruct (blk_copies b owner lw ge0 p Hwf Hp) as (le0 & m & Hle0 & Hm & _ & Hh). simplify_eq.
  unfold start_write_locked, get_dir in E. rewrite Hle, bind_Ok in E. unfold start_write in E.
  rewrite fast_off in E. cbn [andb] in E. destruct (is_readonly (le_state le)) eqn:Hro.
  - cbn [sw_needs_protect sw_needs_twin] in E. apply bind_ok in E as (b1 & E & [= _ _ ->]).
    apply bind_ok in E as (ms & Ed & [= <-]). cbn [bw_mems] in Ed. unfold data_start_write in Ed.
    rewrite (get_mem_ok _ _ _ Hm), bind_Ok in Ed. injection Ed as <-.
    destruct (state_eqb (le_state le) readonly_clean) eqn:Est.
    + unfold state_eqb in Est. apply bool_decide_eq_true in Est.
      destruct (vers_twin P Hmig Hlazy g (bw_dirs b) (bw_mems b) lw (ge_wr_ts ge0) p le m ProtReadWrite)
        as (g' & Q & Ek & Hv'); try done.
      exists g'. split; [done|]. split; [done|]. by eapply (blk_vers_at g' b).
    + exists g. split; [done|]. split; [by apply (edits_kept_insert _ _ p m)|].
      eapply (blk_vers_at g b); [done|done|done|]. cbn.
      apply vers_set_state; try done. revert Est Hro. by destruct (le_state le).
  - assert (set_mems (bw_mems b) (BlkWorld (bw_lock b) (<[p := le]> (bw_dirs b)) (bw_mems b)) = b) as Hid.
    { unfold set_mems. cbn. rewrite (insert_id (bw_dirs b) p le Hle). by destruct b. }
    assert (b' = b) as ->.
    { destruct (state_eqb (le_state le) writable || state_eqb (le_state le) pinned);
        cbn in E; injection E as _ _ <-; rewrite (insert_id (bw_dirs b) p le Hle); by destruct b. }
    exists g. split; [done|]. split; [apply edits_kept_refl|]. by exists owner, lw, ge0.
Qed.

Lemma start_write_vers T p blk_id rs ws b ge le g rr wr rs' ws' b' :
  lease_pre T p rs b ge le → next_ts P (next_ts P T) < u64_mod → rs_min_wr_ts rs = 0 → blk_vers g b →
  seg_start_write P p blk_id rs ws b = Ok (rr, wr, rs', ws', b') → blk_quiet g b b'.
Proof using HLaws Hcfg Hdir Hlease Hmig Hlazy.
  intros Hpre HT Hmin Hv E. assert (next_ts P T < u64_mod ∧ T ≤ next_ts P T) as [HT1 HT2] by (unfold next_ts in *; lia).
  unfold seg_start_write in E. apply bind_ok in E as ([[r1 rs1] b1] & E1 & E).
  apply bind_ok in E as ([[w2 ws2] b2] & E2 & [= _ _ _ _ <-]).
  pose proof (runs_ok P _ _ _ (start_read_locked_eff P valid Hdir Hlease n T p blk_id rs b ge le Hpre HT1) E1)
    as (ge1 & le1 & Heff & Hinv & _).
  pose proof (eff_pre P valid n _ _ _ _ _ _ _ _ _ _ _ _ HT2 Hpre Heff) as Hpre1.
  apply (blk_quiet_trans g b b1); [by eapply read_vers|].
  intros g1 _ Hv1. eapply write_locked_vers; [exact Hpre1| |exact HT|done|done|exact E2]. apply Hpre1.
Qed.

(** A change of the state of an accessible copy of [p]. *)
Lemma set_dir_vers p st g b owner lw ge ge' le :
  blk_wf b owner lw ge → vers_ok g (bw_dirs b) (bw_mems b) lw (ge_wr_ts ge) → valid p →
  bw_dirs b !! p = Some le → dirty_state st = dirty_state (le_state le) → is_invalid (le_state le) = false →
  blk_at (set_dir p (set_state st le) b) ge' → blk_quiet g b (set_dir p (set_state st le) b).
Proof using HLaws.
  intros Hwf Hv Hp Hle Hd Hinv Hat. destruct (blk_copies b owner lw ge p Hwf Hp) as (le0 & m & Hle0 & Hm & _).
  exists g. split; [done|]. split; [apply edits_kept_refl|].
  eapply (blk_vers_at g b); [done|done|done|]. cbn. rewrite <-(insert_id (bw_mems b) p m Hm).
  replace m with (set_prot (bm_prot m) m) by by destruct m. by apply vers_set_state.
Qed.

Lemma pin_vers T p blk_id rs ws b ge le g rr wr rs' ws' b' :
  lease_pre T p rs b ge le → next_ts P (next_ts P T) < u64_mod → rs_min_wr_ts rs = 0 →
  le_state le ≠ pinned → blk_vers g b →
  seg_pin P p blk_id rs ws b = Ok (rr, wr, rs', ws', b') → blk_quiet g b b'.
Proof using HLaws Hcfg Hdir Hlease Hmig Hlazy.
  intros Hpre HT Hmin Hnp Hv E. pose proof Hpre as [_ Hp _ _ _].
  pose proof (runs_ok P _ _ _ (seg_pin_eff P valid Hcfg Hdir Hlease n T p blk_id rs ws b ge le Hpre HT Hnp) E)
    as (ge' & le' & Heff & _).
  pose proof (co_at _ _ _ _ _ _ (ef_coh _ _ _ _ _ _ _ _ _ _ _ _ _ _ Heff)) as Hat.
  unfold seg_pin in E. apply bind_ok in E as ([[[[r1 w1] rs1] ws1] b1] & E1 & E).
  apply bind_ok in E as (le1 & Hle1 & E). apply bind_ok in E as (le2 & Hs & [= _ _ _ _ <-]).
  unfold get_dir in Hle1. destruct (bw_dirs b1 !! p) as [le1'|] eqn:Hd; [|done]. injection Hle1 as ->.
  unfold set_pinned in Hs. apply bind_ok in Hs as (u & Hst & [= <-]). apply assert_ok in Hst.
  unfold state_eqb in Hst. apply bool_decide_eq_true in Hst.
  apply (blk_quiet_trans g b b1); [by eapply start_write_vers|].
  intros g1 _ (owner & lw & ge1 & Hwf & Hv1). by eapply set_dir_vers; rewrite ?Hst.
Qed.

Lemma unpin_vers T p (blk_id : Z) rs b ge le g b' :
  lease_pre T p rs b ge le → le_state le = pinned → blk_vers g b →
  seg_unpin p b = Ok b' → blk_quiet g b b'.
Proof using HLaws.
  intros Hpre Hpin (owner & lw & ge0 & Hwf & Hv) E. pose proof Hpre as [_ Hp _ _ Hle].
  pose proof (runs_ok P _ _ _ (seg_unpin_eff P valid n T p blk_id rs b ge le Hpre Hpin) E) as (le' & Heff & _).
  pose proof (co_at _ _ _ _ _ _ (ef_coh _ _ _ _ _ _ _ _ _ _ _ _ _ _ Heff)) as Hat.
  unfold seg_unpin, get_dir in E. rewrite Hle, bind_Ok in E. unfold set_unpinned in E.
  rewrite Hpin, assert_true, bind_Ok in E by done. injection E as <-.
  by eapply set_dir_vers; rewrite ?Hpin.
Qed.

(** ** Write notices *)
Lemma acquire_vers T p rd_ts_st wn rs b ge le g r rs' b' :
  lease_pre T p rs b ge le → 0 ≤ rd_ts_st ≤ T → next_ts P T < u64_mod → notice_ok valid ge wn →
  le_state le ≠ pinned → wn_rd_ts wn ≤ bg_sync g (wn_home_proc wn) → blk_vers g b →
  seg_acquire P p rd_ts_st wn rs b = Ok (r, rs', b') → blk_quiet g b b'.
Proof using HLaws Hlease.
  intros Hpre Hst HT Hno Hnp Hsync (owner & lw & ge0 & Hwf & Hv) E. pose proof Hpre as [_ Hp _ _ Hle].
  pose proof (runs_ok P _ _ _ (seg_acquire_eff P valid Hlease n T p rd_ts_st wn rs b ge le Hpre Hst HT Hno) E)
    as (ge' & le' & Heff & _).
  pose proof (co_at _ _ _ _ _ _ (ef_coh _ _ _ _ _ _ _ _ _ _ _ _ _ _ Heff)) as Hat.
  destruct (blk_copies b owner lw ge0 p Hwf Hp) as (le0 & m & Hle0 & Hm & _). simplify_eq.
  unfold seg_acquire, get_dir in E. rewrite Hle, bind_Ok in E.
  destruct (acquire _ _ _ le) as [ret le1] eqn:Ea.
  assert (iv_needs_merge ret = false) as Hmerge.
  { unfold acquire, invalidate in Ea. destruct (set_invalid_state _ le) as [ret0 le2] eqn:E1.
    destruct (set_invalid_state_cases _ _ _ _ E1) as (_ & _ & Hmg & _).
    assert (ret = ret0) as -> by (destruct (negb (iv_is_ignored ret0)); by injection Ea as <- _).
    destruct (iv_needs_merge ret0); [|done]. by destruct (proj1 Hmg eq_refl). }
  pose proof (λ prot, vers_acquire g (bw_dirs b) (bw_mems b) lw (ge_wr_ts ge0) p le m _ _ _ ret le1 prot
    Hv Hle Hm Hnp (conj (proj1 (no_lease _ _ _ Hno)) Hsync) Ea) as Hva.
  apply bind_ok in E as ([rs1 b1] & E & [= _ _ <-]). unfold after_invalidation in E. rewrite Hmerge in E.
  exists g. split; [done|]. destruct (iv_needs_protect ret).
  - apply bind_ok in E as (ms & Ed & [= _ <-]). unfold data_invalidate in Ed. cbn [set_dir bw_mems] in Ed.
    rewrite (get_mem_ok _ _ _ Hm), bind_Ok in Ed. injection Ed as <-.
    split; [by apply (edits_kept_insert _ _ p m)|]. eapply (blk_vers_at g b); [done|done|done|apply Hva].
  - injection E as _ <-. split; [apply edits_kept_refl|]. eapply (blk_vers_at g b); [done|done|done|].
    cbn. rewrite <-(insert_id (bw_mems b) p m Hm). replace m with (set_prot (bm_prot m) m) by by destruct m.
    apply Hva.
Qed.

(** ** Stores *)
Lemma store_vers p off v b b' g owner lw ge ge' le :
  blk_wf b owner lw ge → vers_ok g (bw_dirs b) (bw_mems b) lw (ge_wr_ts ge) → valid p →
  bw_dirs b !! p = Some le → settled (bg_vers g) off (le_cur_rd_ts le) →
  (∀ q, q ≠ p → off ∉ bg_edits g q) → blk_store p off v b = Ok b' → blk_at b' ge' →
  blk_vers (edit p off g) b'
  ∧ (∃ m', bw_mems b' !! p = Some m' ∧ bm_priv m' !! off = Some v)
  ∧ ∀ q m o, (q, o) ≠ (p, off) → bw_mems b !! q = Some m →
      ∃ m', bw_mems b' !! q = Some m' ∧ bm_priv m' !! o = bm_priv m !! o.
Proof using HLaws Hmig Hlazy.
  intros Hwf Hv Hp Hle Hst Hdj E Hat.
  destruct (blk_copies b owner lw ge p Hwf Hp) as (le0 & m & Hle0 & Hm & Hpr & _). simplify_eq.
  unfold blk_store in E. rewrite (get_mem_ok _ _ _ Hm), bind_Ok in E.
  destruct (bm_prot m) eqn:Hprot; try done. destruct (Nat.ltb_spec off (length (bm_priv m))) as [Hlt|]; [|done].
  injection E as <-. assert (dirty_state (le_state le) = true ∧ is_invalid (le_state le) = false) as [Hd Hi].
  { revert Hpr. by destruct (le_state le). }
  split; [|split].
  - eapply (blk_vers_at _ b); [done|done|done|]. by eapply vers_store.
  - eexists. split; [apply lookup_insert_eq|]. by apply list_lookup_insert_eq.
  - intros q mq o Hne Hq. cbn. destruct (decide (q = p)) as [->|Hqp].
    + simplify_eq. eexists. split; [apply lookup_insert_eq|]. cbn. apply list_lookup_insert_ne. congruence.
    + exists mq. by rewrite lookup_insert_ne.
Qed.

(** ** Releases *)

(** The parts of a transaction that returned. *)
Lemma tx_default_split p rd_ts_st blk_id rs b owner lw ge le tx rs' b'
    (glk := LockGlobal owner lw ge) (bt := begin_transaction P p glk le) :
  blk_wf b owner lw ge → valid p → bw_dirs b !! p = Some le →
  do_transaction_default P p rd_ts_st blk_id rs b = Ok (tx, rs', b') →
  ∃ ms le', release_merge P p glk bt (bw_mems b) = Ok (tx_mg tx, ms)
    ∧ end_transaction P p rd_ts_st (get_ts_state rs) blk_id glk bt (tx_mg tx) rs le = Ok (tx_et tx, rs', le')
    ∧ bw_dirs b' = <[p := le']> (bw_dirs b) ∧ bw_mems b' = ms.
Proof using HLaws.
  intros Hwf Hp Hle E. unfold do_transaction_default in E.
  apply bind_ok in E as ([[[tx' []] rs1] b1] & E & [= -> -> ->]).
  unfold do_transaction, get_dir in E. rewrite Hle, bind_Ok in E.
  destruct (lk_lock _ _ _ p (bf_lock _ _ _ _ _ _ _ Hwf) Hp) as (k1 & El & _).
  unfold blk_lock_global in E. rewrite El in E. cbn [mbind result_bind] in E.
  cbn [hd_last_writer_proc hd_ge] in E.
  apply bind_ok in E as ([mg ms] & Em & E). cbn [default_functor mbind result_bind] in E. cbn zeta in E.
  apply bind_ok in E as ([[et rs1] le'] & Ee & E). apply bind_ok in E as (lk & _ & [= <- <- <-]).
  exists ms, le'. done.
Qed.

(** The timestamps and the copy a transaction leaves. *)
Record tx_ts (p : Z) (b : world) (lw : Z) (ge : global_entry) (le : local_entry)
    (tx : do_transaction_result) (b' : world) (le' : local_entry) : Prop := {
  tt_wf : blk_wf b' p (if mg_is_written (tx_mg tx) then p else lw) (et_new_ts (tx_et tx));
  tt_owner : et_new_owner (tx_et tx) = p;
  tt_home : le_home_proc le' = p;
  tt_rd : le_cur_rd_ts le' = ge_rd_ts (et_new_ts (tx_et tx));
  tt_grow : le_cur_rd_ts le ≤ le_cur_rd_ts le';
  tt_written : mg_is_written (tx_mg tx) = true → ge_rd_ts ge < ge_wr_ts (et_new_ts (tx_et tx));
  tt_same : mg_is_written (tx_mg tx) = false → ge_wr_ts (et_new_ts (tx_et tx)) = ge_wr_ts ge;
  tt_order : ge_wr_ts (et_new_ts (tx_et tx)) ≤ ge_rd_ts (et_new_ts (tx_et tx));
  tt_valid : is_invalid (le_state le') = false;
}.

Lemma tx_default_ts T p rd_ts_st blk_id rs b ge owner lw le tx rs' b' le'
    (glk := LockGlobal owner lw ge) (bt := begin_transaction P p glk le) :
  lease_pre T p rs b ge le → 0 ≤ rd_ts_st ≤ T → next_ts P T < u64_mod → blk_wf b owner lw ge →
  do_transaction_default P p rd_ts_st blk_id rs b = Ok (tx, rs', b') →
  end_transaction P p rd_ts_st (get_ts_state rs) blk_id glk bt (tx_mg tx) rs le = Ok (tx_et tx, rs', le') →
  mg_is_migrated (tx_mg tx) = true → bw_dirs b' = <[p := le']> (bw_dirs b) →
  tx_ts p b lw ge le tx b' le'.
Proof using HLaws Hlease Hmig.
  intros Hpre Hst HT Hwf Et Ee Hmg Hdirs. pose proof Hpre as [Hco Hp Hrs Hmin Hle].
  destruct (blk_copies b owner lw ge p Hwf Hp) as (le0 & m & Hle0 & Hm & _).
  destruct (blk_copies b owner lw ge lw Hwf (bf_last_writer _ _ _ _ _ _ _ Hwf)) as (_ & om & _ & Hom & _).
  pose proof (runs_ok P _ _ _ (tx_default_eff P valid Hlease n T p rd_ts_st blk_id rs b ge le Hpre Hst HT) Et)
    as (le1 & Heff & Hfacts).
  assert (le1 = le') as ->.
  { pose proof (ef_le' _ _ _ _ _ _ _ _ _ _ _ _ _ _ Heff) as H1. rewrite Hdirs, lookup_insert_eq in H1. congruence. }
  destruct (end_transaction_published _ _ _ _ _ _ _ _ _ _ _ _ _ Ee) as (Hnew & Hown & _).
  set (mts := if is_invalid (le_state le) then get_ts_state rs else rd_ts_st) in Hnew.
  assert (ts_fits P mts (ge_wr_ts ge) (ge_rd_ts ge)) as Hfit.
  { apply (ts_below_fits P T); [apply Hco|unfold mts; by destruct (is_invalid _)|done|done]. }
  destruct (make_new_ts_correct P mts (mg_is_written (tx_mg tx)) _ _ Hfit) as (Hw & Hnw & _ & _ & Hwl & _).
  change (bt_ts bt) with ge in Hnew. rewrite <-Hnew in Hw, Hnw, Hwl.
  destruct (end_transaction_correct P p rd_ts_st (get_ts_state rs) blk_id glk (tx_mg tx) rs le Hrs)
    as (et & rs1 & le1 & E1 & _ & _ & _ & _ & _ & _ & _ & _ & Hh & _); [done|exact Hfit|].
  fold bt in E1. rewrite Ee in E1. injection E1 as <- <- <-.
  rewrite Hmg in Hown.
  assert (blk_wf b' p (if mg_is_written (tx_mg tx) then p else lw) (et_new_ts (tx_et tx))) as Hwf'.
  { unfold do_transaction_default in Et. apply bind_ok in Et as ([[[tx' []] rs1] b1] & Et & [= -> -> ->]).
    pose proof (runs_ok P _ _ _ (do_transaction_runs P valid Hlease n T p rd_ts_st blk_id default_functor rs b
      owner lw ge le m om (λ _ _ _ _, True) Hwf (co_ts _ _ _ _ _ _ Hco) Hp Hrs Hst Hmin HT Hle Hm Hom
      (λ ms m1 Hs Hm1 _, ex_intro _ m1 (conj (eq_sym (insert_id ms p m1 Hm1))
        (conj (map_Forall_lookup_1 _ _ _ _ Hs Hm1) (conj eq_refl I))))) Et) as (m1 & m2 & ch & le2 & Hpost).
    pose proof (tp_wf _ _ _ _ _ _ _ _ _ _ _ _ _ _ _ _ _ _ _ _ _ _ Hpost) as Hx. by rewrite Hmig in Hx. }
  split; try done; [by rewrite Hh|apply Hfacts|apply Heff|intros Hx; by apply Hw|lia|apply Hfacts].
Qed.

(** What a release of a dirty block does to its versions. *)
Record released_blk (p : Z) (g : blk_ghost) (b : world) (ret : release_result) (b' : world)
    (data : list Z) : Prop := {
  rb_completed : rl_release_completed ret = true;
  rb_owner : rl_new_owner ret = p;
  rb_bytes : ∀ m, bw_mems b !! p = Some m → merged_bytes g p m data;
  rb_same : rl_is_written ret = false → data = head_data (bg_vers g);
  rb_sync : bg_sync g p ≤ ge_rd_ts (rl_new_ts ret);
  rb_new : rl_is_written ret = true → ∀ v, v ∈ bg_vers g → v.1 < ge_wr_ts (rl_new_ts ret);
  rb_others : ∀ q m, q ≠ p → bw_mems b !! q = Some m → bw_mems b' !! q = Some m;
  rb_vers : blk_vers (publish (rl_is_written ret) p (ge_wr_ts (rl_new_ts ret)) (ge_rd_ts (rl_new_ts ret)) data g) b';
}.

Lemma release_vers T p rd_ts_st blk_id rs b ge le g ret rs' b' :
  lease_pre T p rs b ge le → 0 ≤ rd_ts_st ≤ T → next_ts P T < u64_mod → blk_vers g b →
  seg_release P p rd_ts_st blk_id rs b = Ok (ret, rs', b') →
  if dirty_state (le_state le) then ∃ data, released_blk p g b ret b' data
  else b' = b ∧ rl_release_completed ret = false.
Proof using HLaws Hcfg Hlease Hmig Hlazy.
  intros Hpre Hst HT (owner & lw & ge0 & Hwf & Hv) E. pose proof Hpre as [Hco Hp Hrs Hmin Hle].
  destruct (blk_copies b owner lw ge0 p Hwf Hp) as (le0 & m & Hle0 & Hm & _). simplify_eq.
  destruct (blk_copies b owner lw ge0 lw Hwf (bf_last_writer _ _ _ _ _ _ _ Hwf)) as (_ & om & _ & Hom & _).
  assert (ge0 = ge) as ->.
  { destruct (co_at _ _ _ _ _ _ Hco) as (o2 & l2 & Hwf2).
    by pose proof (lk_free_unique P valid _ _ _ _ _ (bf_lock _ _ _ _ _ _ _ Hwf) (bf_lock _ _ _ _ _ _ _ Hwf2)) as [= _ ->]. }
  unfold seg_release, get_dir in E. rewrite Hle, bind_Ok, check_release_dirty in E.
  destruct (dirty_state (le_state le)) eqn:Hd; cbn [negb] in E.
  2: { injection E as <- _ <-. done. }
  assert (cr_is_fast_released (check_release P le) = false) as Hnf by (cbn; by rewrite fast_off).
  rewrite Hnf, bind_Ok in E. apply bind_ok in E as ([[tx rs1] b1] & Et & [= <- _ <-]).
  destruct (tx_default_split _ _ _ _ _ _ _ _ _ _ _ _ Hwf Hp Hle Et) as (ms & le' & Em & Ee & Hdirs & Hms).
  set (glk := LockGlobal owner lw ge) in *. set (bt := begin_transaction P p glk le) in *.
  destruct (release_merge_exact P Hmig Hlazy n p glk le (bw_mems b) m om (tx_mg tx) ms
    (bf_shape _ _ _ _ _ _ _ Hwf) Hm Hom Hd Em) as (Emg & m' & -> & Hpub & Hbytes & Hsame).
  fold bt in Emg, Hsame.
  destruct (vers_head _ _ _ _ g Hv) as (rest & l & Hvs & Hl & Hlp & Hs). rewrite (Hlp om Hom) in Hbytes, Hsame.
  pose proof (vo_copies _ _ _ _ _ Hv p le m Hle Hm) as Hcp.
  rewrite <-Hl in Hbytes. pose proof (merged_bytes_intro g p le m _ Hcp Hd Hbytes) as Hmb.
  destruct (tx_default_ts T p rd_ts_st blk_id rs b ge owner lw le tx rs1 b1 le' Hpre Hst HT Hwf Et Ee)
    as [Hwf1 Hown Hh Hrd Hgrow Hw Hnw Hwl Hval]; [by rewrite Emg|done|].
  rewrite Emg in Hwf1, Hw, Hnw |- *. cbn [mg_is_written] in *.
  pose proof (cp_sync _ _ _ _ Hcp) as Hsy. pose proof (co_order _ _ _ _ _ _ Hco) as Hord.
  exists (bm_priv m'). split; cbn [rl_release_completed rl_new_owner rl_is_written rl_new_ts]; try done.
  - intros m0 Hm0. by simplify_eq.
  - intros Hx. by rewrite (Hsame Hx).
  - lia.
  - intros Hx v Hin. rewrite Hvs in Hin. destruct (below_head _ _ _ Hs v Hin) as [Hb _]. specialize (Hw Hx). lia.
  - intros q mq Hne Hq. by rewrite Hms, lookup_insert_ne.
  - exists p, (if local_written P bt m then p else lw), (et_new_ts (tx_et tx)). split; [done|].
    rewrite Hdirs, Hms, <-Hrd. destruct (local_written P bt m) eqn:Ew.
    + specialize (Hw eq_refl). eapply vers_release_new; try done; [|lia|lia].
      intros q leq Hq. pose proof (co_lease _ _ _ _ _ _ Hco q leq Hq). lia.
    + rewrite (Hnw eq_refl). eapply vers_release_same; try done. by rewrite Hl, Hsame.
Qed.
End ops.
