(* ===== verification/SpaceInv.v ===== *)
(** The invariant of the address space.

    Every call of Space.v keeps the blocks coherent, every readable block in
    the read set and every dirty block in the write set of its process, and
    every write notice of a signature within the lease its block knows; so no
    legal call fails, and the write notice of a release that happens before a
    point of a process (by mutexes and barriers) is honoured by the leases of
    its copies. *)
From Stdlib Require Import ZArith Lia Permutation.
From stdpp Require Import base tactics functions list gmap.
From S2P Require Import Prelude.
From S2P Require Import Policy.
From S2P Require Import SigBuffer.
From S2P Require Import Layout.
From S2P Require Import RdSet.
From S2P Require Import WrSet.
From S2P Require Import BlkDir.
From S2P Require Import BlkData.
From S2P Require Import QueueLock.
From S2P Require Import BlkLock.
From S2P Require Import DataRuns.
From S2P Require Import SegTable.
From S2P Require Import MtxTable.
From S2P Require Import SegLease.
From S2P Require Import Space.

Section inv.
Context {K M : Type} {HK : GlobalLock header K} {HM : GlobalLock (list Z) M} (P : policy).
Context (num_procs : Z) (mig : bool).
Context {HLK : @GlobalLockLaws header K HK (in_range num_procs) (enable_migration P)}.
Context {HLM : @GlobalLockLaws (list Z) M HM (in_range num_procs) mig}.
Context (Hcfg : config_allowed P = true) (Hdir : use_directory_coherence P = false).
Context (Hlease : 0 ≤ lease_ts P).
(** The size of the block at each position. *)
Context (n : Z * Z → nat).
Context (layout : seg_table) (Hlayout : layout_wf P layout).
Context (Hflags : flags_are (H := seg_ft P) layout ∅).
Context (sched : nat → list nat) (Hsched : ∀ m, is_schedule m (sched m)).
Context {Hsort : StdSort greater_wn}.
#[local] Abbreviation sspace := (space K M).
#[local] Abbreviation valid := (in_range num_procs).
#[local] Abbreviation coherent loc := (@coherent K HK P valid HLK (n loc)).
#[local] Abbreviation blk_at loc := (@blk_at K HK P valid HLK (n loc)).
#[local] Abbreviation lease_pre loc := (@lease_pre K HK P valid HLK (n loc)).
#[local] Abbreviation eff loc := (@eff K HK P valid HLK (n loc)).
#[local] Abbreviation ft_known := (@ft_known seg_table (seg_ft P)).

(** * Views of the state *)

(** Block [blk_id] is registered, at [loc]. *)
Definition known (blk_id : Z) (loc : Z * Z) : Prop :=
  ∃ i t pos, at_pos layout i t pos blk_id ∧ loc = (Z.of_nat i, pos).

Definition entry (p : Z) (loc : Z * Z) (s : sspace) : option local_entry :=
  b ← sp_blks s !! loc; bw_dirs b !! p.

Definition ge_of (loc : Z * Z) (s : sspace) (ge : global_entry) : Prop :=
  ∃ b, sp_blks s !! loc = Some b ∧ blk_at loc b ge.

(** The layout of a process: that of the system, its flags all clear. *)
Definition layout_ok (st : seg_table) : Prop :=
  same_shape layout st ∧ (∀ b, ft_known st b ↔ ft_known layout b)
  ∧ flags_are (H := seg_ft P) st ∅.

Lemma known_ft blk_id loc : known blk_id loc → ft_known layout blk_id.
Proof using Hlayout. intros (i & t & pos & Hat & _). split; [done|]. by exists i, t, pos. Qed.

Lemma ft_known_loc blk_id : ft_known layout blk_id → ∃ loc, known blk_id loc.
Proof. intros [_ (i & t & pos & Hat)]. by exists (Z.of_nat i, pos), i, t, pos. Qed.

Lemma known_fun blk_id loc loc' : known blk_id loc → known blk_id loc' → loc = loc'.
Proof using Hlayout.
  intros (i & t & pos & H1 & ->) (i' & t' & pos' & H2 & ->).
  destruct (at_pos_inj P layout Hlayout _ _ _ _ _ _ _ _ H1 H2) as [H _].
  by destruct (H eq_refl) as [-> ->].
Qed.

Lemma known_inj blk_id blk_id' loc : known blk_id loc → known blk_id' loc → blk_id = blk_id'.
Proof using Hlayout.
  intros (i & t & pos & H1 & ->) (i' & t' & pos' & H2 & [= Hi ->]). apply Nat2Z.inj in Hi as ->.
  by apply (at_pos_inj P layout Hlayout _ _ _ _ _ _ _ _ H1 H2).
Qed.

Lemma locate_known st blk_id loc :
  layout_ok st → known blk_id loc → ∃ t, locate P st blk_id = Ok (loc.1, t, loc.2).
Proof using Hlayout.
  intros (Hs & _ & _) (i & t & pos & Hat & ->).
  eapply locate_shape; [exact Hs|]. by apply (locate_spec P layout Hlayout).
Qed.

Lemma layout_ok_self : layout_ok layout.
Proof using Hflags. split; [done|]. split; done. Qed.

Lemma entry_of_known p blk_id loc (s : sspace) :
  known blk_id loc → entry_of P layout p blk_id s = entry p loc s.
Proof using Hlayout Hflags.
  intros Hk. destruct (locate_known layout blk_id loc layout_ok_self Hk) as [t E].
  unfold entry_of. rewrite E. by destruct loc.
Qed.

(** * Steps of one process *)

(** The shared part of the invariant. *)
Record world_ok (T : Z) (s : sspace) : Prop := {
  wo_blks : ∀ loc b, sp_blks s !! loc = Some b → ∃ ge, coherent loc T b ge;
  wo_known : ∀ blk_id loc, known blk_id loc → is_Some (sp_blks s !! loc);
  wo_procs : ∀ p, valid p → ∃ ps, sp_procs s !! p = Some ps ∧ layout_ok (sp_layout ps)
    ∧ rd_set_wf (sp_rd ps) ∧ 0 ≤ rs_min_wr_ts (sp_rd ps) ≤ T;
}.

(** A write set with new blocks, and a read set with new entries. *)
Definition ws_ext (ws ws' : wr_set) : Prop :=
  ws_dirty_ids ws' = ws_dirty_ids ws ∧ ws_gen ws' = ws_gen ws
  ∧ ws_is_releasing ws' = ws_is_releasing ws
  ∧ (∀ b, b ∈ ws_new_ids ws → b ∈ ws_new_ids ws')
  ∧ ∀ b, b ∈ ws_new_ids ws' → b ∈ ws_new_ids ws ∨ ft_known layout b.

Definition rs_ext (rs rs' : rd_set) : Prop :=
  (∀ e, e ∈ rs_pq rs → e ∈ rs_pq rs')
  ∧ ∀ e, e ∈ rs_pq rs' → e ∈ rs_pq rs ∨ ft_known layout (re_blk_id e).

Lemma ws_ext_refl ws : ws_ext ws ws.
Proof. split_and!; auto. Qed.

Lemma ws_ext_trans ws1 ws2 ws3 : ws_ext ws1 ws2 → ws_ext ws2 ws3 → ws_ext ws1 ws3.
Proof.
  intros (? & ? & ? & Ka & Na) (? & ? & ? & Kb & Nb). split_and!; try congruence; [auto|].
  intros b [?|?]%Nb; [by apply Na|by right].
Qed.

Lemma ws_ext_add b ws : ft_known layout b → ws_ext ws (add_writable b ws).
Proof.
  intros Hb. split_and!; try done.
  - intros c Hc. cbn. apply elem_of_app. by left.
  - intros c. cbn. intros [?| ->%list_elem_of_singleton]%elem_of_app; [by left|by right].
Qed.

Lemma rs_ext_refl rs : rs_ext rs rs.
Proof. split; auto. Qed.

Lemma rs_ext_trans rs1 rs2 rs3 : rs_ext rs1 rs2 → rs_ext rs2 rs3 → rs_ext rs1 rs3.
Proof. intros [Ka Na] [Kb Nb]. split; [auto|]. intros e [?|?]%Nb; [by apply Na|by right]. Qed.

(** What the operations of [p] may do to the state. *)
Record step_eff (T' p : Z) (s s' : sspace) : Prop := {
  se_ok : world_ok T' s';
  se_mtxs : sp_mtxs s' = sp_mtxs s;
  se_procs : ∀ q, q ≠ p → sp_procs s' !! q = sp_procs s !! q;
  se_own : ∀ ps, sp_procs s !! p = Some ps → ∃ ps', sp_procs s' !! p = Some ps'
    ∧ sp_layout ps' = sp_layout ps ∧ sp_sig ps' = sp_sig ps
    ∧ rs_min_wr_ts (sp_rd ps') = rs_min_wr_ts (sp_rd ps)
    ∧ rs_ext (sp_rd ps) (sp_rd ps') ∧ ws_ext (sp_wr ps) (sp_wr ps');
  se_ge : ∀ loc ge, ge_of loc s ge → ∃ ge', ge_of loc s' ge' ∧ ge_rd_ts ge ≤ ge_rd_ts ge';
  se_others : ∀ q loc, q ≠ p → entry q loc s' = entry q loc s;
  se_entry : ∀ loc le', entry p loc s' = Some le' → ∃ le, entry p loc s = Some le
    ∧ le_cur_rd_ts le ≤ le_cur_rd_ts le'
    ∧ ∀ blk_id ps', known blk_id loc → sp_procs s' !! p = Some ps' →
        (is_invalid (le_state le') = false → is_invalid (le_state le) = false
           ∨ in_rd_set blk_id le' (sp_rd ps') ∧ rs_min_wr_ts (sp_rd ps') ≤ le_cur_rd_ts le')
        ∧ (dirty_state (le_state le') = true → dirty_state (le_state le) = true
           ∨ blk_id ∈ ws_new_ids (sp_wr ps'));
}.

Lemma world_ok_mono T T' s : T ≤ T' → world_ok T s → world_ok T' s.
Proof.
  intros HT [Hb Hk Hp]. split; [|done|].
  - intros loc b (ge & Hc)%Hb. exists ge. by eapply coherent_mono.
  - intros p (ps & ? & ? & ? & ?)%Hp. exists ps. split_and!; try done; lia.
Qed.

Lemma step_eff_mono T T' p s s' : T ≤ T' → step_eff T p s s' → step_eff T' p s s'.
Proof. intros HT []. split; try done. by eapply world_ok_mono. Qed.

Lemma step_eff_refl T p s : world_ok T s → step_eff T p s s.
Proof.
  intros Hok. split; try done.
  - intros ps Hps. exists ps. split_and!; try done; [apply rs_ext_refl|apply ws_ext_refl].
  - intros loc ge Hge. exists ge. split; [done|lia].
  - intros loc le Hle. exists le. split; [done|]. split; [lia|]. auto.
Qed.

Lemma step_eff_trans T0 T1 T2 p s s1 s2 :
  valid p → world_ok T0 s → step_eff T1 p s s1 → step_eff T2 p s1 s2 → step_eff T2 p s s2.
Proof.
  intros Hp Hok [Ok1 M1 P1 O1 G1 H1 E1] [Ok2 M2 P2 O2 G2 H2 E2]. split; [done|congruence| | | | |].
  - intros q Hq. by rewrite P2, P1.
  - intros ps Hps. destruct (O1 ps Hps) as (ps1 & Hps1 & L1 & S1 & Mn1 & K1 & W1).
    destruct (O2 ps1 Hps1) as (ps2 & Hps2 & L2 & S2 & Mn2 & K2 & W2). exists ps2.
    split_and!; try congruence; [by eapply rs_ext_trans|by eapply ws_ext_trans].
  - intros loc ge (ge1 & Hg1 & Hl1)%G1. destruct (G2 loc ge1 Hg1) as (ge2 & Hg2 & Hl2).
    exists ge2. split; [done|lia].
  - intros q loc Hq. by rewrite H2, H1.
  - intros loc le2 (le1 & Hle1 & Hl2 & F2)%E2. destruct (E1 loc le1 Hle1) as (le & Hle & Hl1 & F1).
    exists le. split; [done|]. split; [lia|]. intros blk_id ps2 Hk Hps2.
    destruct (wo_procs _ _ Hok p Hp) as (ps & Hps & _).
    destruct (O1 ps Hps) as (ps1 & Hps1 & _ & _ & Mn1 & K1 & W1).
    destruct (O2 ps1 Hps1) as (ps2' & Hps2' & _ & _ & Mn2 & K2 & W2).
    assert (ps2' = ps2) as -> by congruence.
    destruct (F1 blk_id ps1 Hk Hps1) as [R1 D1]. destruct (F2 blk_id ps2 Hk Hps2) as [R2 D2].
    split.
    + intros Hv. destruct (R2 Hv) as [Hv1|?]; [|by right].
      destruct (R1 Hv1) as [?|[(e & He & Hb & Hle') Hm]]; [by left|right]. split; [|lia].
      exists e. split; [by apply K2|]. split; [done|lia].
    + intros Hd. destruct (D2 Hd) as [Hd1|?]; [|by right].
      destruct (D1 Hd1) as [?|?]; [by left|right]. by apply W2.
Qed.

(** ** One call of the segment table *)

(** What a call promises: [Ψ] relates its result, the write set, and the
    timestamps of the block and the entry of the caller before and after. *)
Definition call_post {A} (T' p blk_id : Z) (loc : Z * Z) (s : sspace)
    (Ψ : A → wr_set → wr_set → global_entry → global_entry → local_entry → local_entry → Prop)
    (r : A * sspace) : Prop :=
  let '(a, s') := r in
  step_eff T' p s s'
  ∧ (∀ q loc', loc' ≠ loc → entry q loc' s' = entry q loc' s)
  ∧ ∃ ps rs' ws' ge ge' le le', sp_procs s !! p = Some ps
    ∧ sp_procs s' !! p = Some (ProcSpace (sp_layout ps) rs' ws' (sp_sig ps))
    ∧ entry p loc s = Some le ∧ entry p loc s' = Some le'
    ∧ ge_of loc s ge ∧ ge_of loc s' ge' ∧ Ψ a (sp_wr ps) ws' ge ge' le le'.

(** The state after an operation on the block at [loc]. *)
Lemma put_block_eff T T' p blk_id loc (s : sspace) ps b ge rs' ws' b' ge' le le' :
  world_ok T s → valid p → known blk_id loc → T ≤ T' →
  sp_procs s !! p = Some ps → sp_blks s !! loc = Some b → lease_pre loc T p (sp_rd ps) b ge le →
  eff loc T' p blk_id (sp_rd ps) b ge rs' b' ge' le le' → ws_ext (sp_wr ps) ws' →
  (dirty_state (le_state le') = true → dirty_state (le_state le) = true ∨ blk_id ∈ ws_new_ids ws') →
  step_eff T' p s (Space (<[loc := b']> (sp_blks s))
    (<[p := ProcSpace (sp_layout ps) rs' ws' (sp_sig ps)]> (sp_procs s)) (sp_mtxs s)).
Proof using Hlayout.
  intros Hok Hp Hk HT Hps Hb Hpre Heff Hws Hd. pose proof Heff as [Hco' Hgrow [Hrs' Hmin'] Hkeep Hoth Hle Hle' Hl Hread].
  pose proof (world_ok_mono T T' s HT Hok) as Hok'.
  split; cbn [sp_mtxs]; try done.
  - split; cbn [sp_blks sp_procs].
    + intros loc' b1. destruct (decide (loc' = loc)) as [->|Hne].
      * rewrite lookup_insert_eq. intros [= <-]. by exists ge'.
      * rewrite lookup_insert_ne by done. apply Hok'.
    + intros blk' loc' Hk'. destruct (decide (loc' = loc)) as [->|Hne].
      * rewrite lookup_insert_eq. done.
      * rewrite lookup_insert_ne by done. by eapply wo_known.
    + intros q Hq. destruct (decide (q = p)) as [->|Hne].
      * destruct (wo_procs _ _ Hok' p Hp) as (ps0 & Hps0 & Hlay & _ & Hm). simplify_eq.
        eexists. split; [apply lookup_insert_eq|]. cbn. rewrite Hmin'. done.
      * rewrite lookup_insert_ne by done. by eapply wo_procs.
  - intros q Hq. cbn. by rewrite lookup_insert_ne.
  - intros ps0 Hps0. simplify_eq. eexists. split; [apply lookup_insert_eq|]. cbn.
    split; [done|]. split; [done|]. split; [done|]. split; [|done].
    split; [apply Hkeep|]. intros e [?|Hb1]%Hkeep; [by left|right].
    rewrite Hb1. by eapply known_ft.
  - intros loc' g (b1 & Hb1 & Hat). destruct (decide (loc' = loc)) as [->|Hne].
    + simplify_eq. exists ge'. split; [|].
      * exists b'. split; [apply lookup_insert_eq|apply Hco'].
      * destruct Hat as (o1 & l1 & Hwf1), (co_at _ _ _ _ _ _ (lp_coh _ _ _ _ _ _ _ _ _ Hpre)) as (o2 & l2 & Hwf2).
        pose proof (lk_free_unique P valid _ _ _ _ _ (bf_lock _ _ _ _ _ _ _ Hwf1)
          (bf_lock _ _ _ _ _ _ _ Hwf2)) as [= _ ->]. done.
    + exists g. split; [|lia]. exists b1. split; [cbn; by rewrite lookup_insert_ne|done].
  - intros q loc' Hq. unfold entry. cbn. destruct (decide (loc' = loc)) as [->|Hne].
    + rewrite lookup_insert_eq, Hb. cbn. by apply Hoth.
    + by rewrite lookup_insert_ne.
  - intros loc' le1 Hle1. unfold entry in *. cbn in *. destruct (decide (loc' = loc)) as [->|Hne].
    + rewrite lookup_insert_eq in Hle1. cbn in Hle1. simplify_eq. exists le.
      rewrite Hb. split; [done|]. split; [done|]. intros blk' ps' Hk' Hps'.
      rewrite lookup_insert_eq in Hps'. injection Hps' as <-. cbn.
      rewrite (known_inj blk' blk_id loc Hk' Hk). split; [|done].
      intros Hv. destruct (Hread Hv) as [?|[? ?]]; [by left|right]. split; [done|lia].
    + rewrite lookup_insert_ne in Hle1 by done. exists le1. split; [done|]. split; [lia|]. auto.
Qed.

Lemma seg_call_runs {A} T T' p blk_id loc op (s : sspace)
    (Ψ : A → wr_set → wr_set → global_entry → global_entry → local_entry → local_entry → Prop) :
  world_ok T s → valid p → known blk_id loc → T ≤ T' →
  (∀ ps b ge le, sp_procs s !! p = Some ps → sp_blks s !! loc = Some b →
     entry p loc s = Some le → lease_pre loc T p (sp_rd ps) b ge le →
     runs P (op (sp_rd ps) (sp_wr ps) b) (λ '(a, rs', ws', b'), ∃ ge' le',
       eff loc T' p blk_id (sp_rd ps) b ge rs' b' ge' le le' ∧ ws_ext (sp_wr ps) ws'
       ∧ (dirty_state (le_state le') = true → dirty_state (le_state le) = true ∨ blk_id ∈ ws_new_ids ws')
       ∧ Ψ a (sp_wr ps) ws' ge ge' le le')) →
  runs P (seg_call P p blk_id op s) (call_post T' p blk_id loc s Ψ).
Proof using Hlayout.
  intros Hok Hp Hk HT Hop. destruct (wo_procs _ _ Hok p Hp) as (ps & Hps & Hlay & Hrs & Hmin).
  destruct (locate_known (sp_layout ps) blk_id loc Hlay Hk) as [t Eloc].
  destruct (wo_known _ _ Hok blk_id loc Hk) as [b Hb].
  destruct (wo_blks _ _ Hok loc b Hb) as [ge Hco].
  destruct (co_at _ _ _ _ _ _ Hco) as (owner & lw & Hwf).
  destruct (bf_procs _ _ _ _ _ _ _ Hwf p Hp) as (le & m & Hle & _).
  assert (entry p loc s = Some le) as Hent by (unfold entry; by rewrite Hb).
  assert (lease_pre loc T p (sp_rd ps) b ge le) as Hpre by done.
  specialize (Hop ps b ge le Hps Hb Hent Hpre).
  unfold seg_call, get_proc, with_local_lock. rewrite Hps, bind_Ok. cbn [sw_layout sw_blks].
  rewrite Eloc, bind_Ok. rewrite <-surjective_pairing. rewrite Hb.
  unfold runs in Hop |- *. destruct (op (sp_rd ps) (sp_wr ps) b) as [[[[a rs'] ws'] b']|f]; [|done].
  destruct Hop as (ge' & le' & Heff & Hws & Hd & HΨ). cbn. split; [|split].
  - by eapply put_block_eff.
  - intros q loc' Hne. unfold entry. cbn. by rewrite lookup_insert_ne.
  - exists ps, rs', ws', ge, ge', le, le'. unfold entry. cbn. rewrite !lookup_insert_eq. cbn.
    split_and!; try done; [apply Heff|by exists b; split; [|apply Hco]|].
    exists b'. split; [apply lookup_insert_eq|apply Heff].
Qed.

Lemma ge_of_fun loc (s : sspace) ge ge' : ge_of loc s ge → ge_of loc s ge' → ge = ge'.
Proof.
  intros (b & Hb & o1 & l1 & Hwf1) (b' & Hb' & o2 & l2 & Hwf2). simplify_eq.
  by pose proof (lk_free_unique P valid _ _ _ _ _ (bf_lock _ _ _ _ _ _ _ Hwf1)
    (bf_lock _ _ _ _ _ _ _ Hwf2)) as [= _ ->].
Qed.

Lemma no_pinned_entry p (s : sspace) :
  no_pinned p s ↔ ∀ loc le, entry p loc s = Some le → le_state le ≠ pinned.
Proof.
  unfold no_pinned, entry. split.
  - intros H loc le E. apply bind_Some in E as (b & Hb & Hle). by eapply H.
  - intros H loc b le Hb Hle. apply (H loc). by rewrite Hb.
Qed.

Lemma call_no_pinned {A} T' p blk_id loc s Ψ (r : A * sspace) :
  no_pinned p s → call_post T' p blk_id loc s Ψ r →
  (∀ a ws ws' ge ge' le le', Ψ a ws ws' ge ge' le le' → le_state le' = pinned → le_state le = pinned) →
  no_pinned p r.2.
Proof.
  destruct r as [a s']. rewrite !no_pinned_entry.
  intros Hn (_ & Hoth & ps & rs' & ws' & ge & ge' & le & le' & _ & _ & Hle & Hle' & _ & _ & HΨ) H loc' le1 Hle1.
  destruct (decide (loc' = loc)) as [->|Hne]; [|rewrite Hoth in Hle1 by done; by eapply Hn].
  cbn in Hle1. simplify_eq. intros Hpin. eapply Hn; [exact Hle|]. by eapply H.
Qed.

(** ** The callbacks of the fences *)
Lemma acquire_call_runs T p st wn loc ge s :
  world_ok T s → valid p → known (wn_blk_id wn) loc → no_pinned p s →
  0 ≤ st ≤ T → next_ts P T < u64_mod → ge_of loc s ge → notice_ok valid ge wn →
  runs P (seg_call P p (wn_blk_id wn)
            (λ rs ws b, '(r, rs, b) ← seg_acquire P p st wn rs b; Ok (r, rs, ws, b)) s)
    (call_post T p (wn_blk_id wn) loc s (λ _ ws ws' _ _ _ le',
       ws' = ws ∧ wn_wr_ts wn ≤ le_cur_rd_ts le' ∧ le_state le' ≠ pinned)).
Proof using Hlayout Hlease.
  intros Hok Hp Hk Hnp Hst HT Hge Hno. apply seg_call_runs with (T := T); try done.
  intros ps b ge0 le Hps Hb Hle Hpre.
  assert (ge0 = ge) as ->.
  { apply (ge_of_fun loc s); [|done]. exists b. split; [done|]. by eapply co_at, lp_coh. }
  rewrite no_pinned_entry in Hnp. specialize (Hnp loc le Hle).
  eapply runs_bind; [by apply (seg_acquire_eff P valid Hlease (n loc) T p st wn (sp_rd ps) b ge le)|].
  intros [[r rs'] b'] (ge' & le' & Heff & Hw & Hpin & Hd & Hsame). cbn. rewrite (Hsame Hnp) in Heff.
  exists ge, le'. split; [by eapply eff_still|]. split; [apply ws_ext_refl|]. split; [auto|].
  split; [done|]. split; [done|]. by rewrite <-Hpin.
Qed.

Lemma self_inv_call_runs T p m blk_id loc s :
  world_ok T s → valid p → known blk_id loc → no_pinned p s → 0 ≤ m ≤ T → next_ts P T < u64_mod →
  runs P (self_inv_call P p m blk_id s)
    (call_post T p blk_id loc s (λ rd_ts ws ws' _ _ _ le', ws' = ws
       ∧ (is_invalid (le_state le') = true ∨ m ≤ le_cur_rd_ts le')
       ∧ rd_ts = le_cur_rd_ts le' ∧ le_state le' ≠ pinned)).
Proof using Hlayout Hlease.
  intros Hok Hp Hk Hnp Hm HT. apply seg_call_runs with (T := T); try done.
  intros ps b ge le Hps Hb Hle Hpre. rewrite no_pinned_entry in Hnp. specialize (Hnp loc le Hle).
  eapply runs_bind; [by apply (seg_self_invalidate_eff P valid Hlease (n loc) T p m blk_id (sp_rd ps) b ge le)|].
  intros [[[r rd] rs'] b'] (ge' & le' & Heff & Hi & Hrd & Hpin & Hd & Hsame). cbn.
  rewrite (Hsame Hnp) in Heff. exists ge, le'. split; [by eapply eff_still|].
  split; [apply ws_ext_refl|]. split; [auto|]. split; [done|]. split; [done|].
  split; [auto|]. by rewrite <-Hpin.
Qed.

(** What a release promises about the block and its notice. *)
Definition release_post (blk_id : Z) (r : release_result) (ws ws' : wr_set) (ge ge' : global_entry)
    (le le' : local_entry) : Prop :=
  ws' = ws ∧ rl_release_completed r = dirty_state (le_state le)
  ∧ (dirty_state (le_state le') = true → le_state le' = le_state le ∧ rl_is_still_writable r = true)
  ∧ (rl_is_written r = true →
       notice_ok valid ge' (release_notice blk_id r) ∧ 0 ≤ ge_wr_ts (rl_new_ts r)
       ∧ ge_wr_ts (rl_new_ts r) ≤ le_cur_rd_ts le').

Lemma release_call_runs T p st blk_id loc s :
  world_ok T s → valid p → known blk_id loc → 0 ≤ st ≤ T → next_ts P T < u64_mod →
  runs P (release_call P p st blk_id s)
    (call_post (next_ts P T) p blk_id loc s (release_post blk_id)).
Proof using Hlayout Hlease Hcfg.
  intros Hok Hp Hk Hm HT. apply seg_call_runs with (T := T); try done; [unfold next_ts; lia|].
  intros ps b ge le Hps Hb Hle Hpre.
  eapply runs_bind; [by apply (seg_release_eff P valid Hcfg Hlease (n loc) T p st blk_id (sp_rd ps) b ge le)|].
  intros [[r rs'] b'] (ge' & le' & Heff & Hc & Hd & Hw). cbn. exists ge', le'. split; [done|].
  split; [apply ws_ext_refl|]. split.
  { intros Hx. left. destruct (Hd Hx) as [<- _]. done. }
  split; [done|]. split; [done|]. split; [done|].
  intros Hx. destruct (Hw Hx) as (Hno & Hts & Hl & _). split; [done|]. split; [apply Hts|done].
Qed.

(** ** The other calls *)
Lemma read_call_runs T p blk_id loc s :
  world_ok T s → valid p → known blk_id loc → next_ts P T < u64_mod →
  runs P (space_start_read P p blk_id s) (call_post (next_ts P T) p blk_id loc s
    (λ _ ws ws' _ _ _ le', ws' = ws ∧ is_invalid (le_state le') = false)).
Proof using Hlayout Hlease Hdir.
  intros Hok Hp Hk HT. apply seg_call_runs with (T := T); try done; [unfold next_ts; lia|].
  intros ps b ge le Hps Hb Hle Hpre. unfold seg_start_read.
  eapply runs_bind; [by apply (start_read_locked_eff P valid Hdir Hlease (n loc) T p blk_id (sp_rd ps) b ge le)|].
  intros [[r rs'] b'] (ge' & le' & Heff & Hv & _ & Hd). cbn. exists ge', le'.
  split; [done|]. split; [apply ws_ext_refl|]. auto.
Qed.

Lemma seg_write_runs {A} T p blk_id loc s (op : rd_set → wr_set → blk_world K → result (A * rd_set * wr_set * blk_world K)) :
  world_ok T s → valid p → known blk_id loc → next_ts P (next_ts P T) < u64_mod →
  (∀ ps b ge le, entry p loc s = Some le → lease_pre loc T p (sp_rd ps) b ge le →
     runs P (op (sp_rd ps) (sp_wr ps) b) (λ '(_, rs', ws', b'), ∃ ge' le',
       eff loc (next_ts P (next_ts P T)) p blk_id (sp_rd ps) b ge rs' b' ge' le le'
       ∧ (ws' = sp_wr ps ∧ dirty_state (le_state le) = true ∨ ws' = add_writable blk_id (sp_wr ps))
       ∧ (le_state le' = writable ∨ le_state le' = pinned))) →
  runs P (seg_call P p blk_id op s) (call_post (next_ts P (next_ts P T)) p blk_id loc s
    (λ _ _ _ _ _ _ le', le_state le' = writable ∨ le_state le' = pinned)).
Proof using Hlayout Hlease.
  intros Hok Hp Hk HT Hop. apply seg_call_runs with (T := T); try done; [unfold next_ts; lia|].
  intros ps b ge le Hps Hb Hle Hpre. eapply runs_mono; [by apply Hop|].
  intros [[[a rs'] ws'] b'] (ge' & le' & Heff & Hws & Hst). exists ge', le'. split; [done|].
  split; [destruct Hws as [[-> _]| ->]; [apply ws_ext_refl|by eapply ws_ext_add, known_ft]|].
  split; [|done]. intros _. destruct Hws as [[_ ?]| ->]; [by left|right].
  cbn. apply elem_of_app. right. by left.
Qed.

(** A store of the application keeps the directory. *)
Lemma blk_store_eff T p blk_id loc off v rs b ge le m :
  lease_pre loc T p rs b ge le → 0 ≤ v < 256 → bw_mems b !! p = Some m → bm_prot m = ProtReadWrite →
  (off < length (bm_priv m))%nat →
  runs P (blk_store p off v b) (λ b', eff loc T p blk_id rs b ge rs b' ge le le).
Proof.
  intros [[(owner & lw & Hwf) Hts Ho Hl] Hp Hrs Hm Hle] Hv Hmem Hprot Hoff.
  unfold blk_store, get_mem. rewrite Hmem, bind_Ok, Hprot.
  destruct (Nat.ltb_spec off (length (bm_priv m))); [|lia]. cbn [runs].
  destruct (bf_procs _ _ _ _ _ _ _ Hwf p Hp) as (le0 & m0 & Hle0 & Hm0 & Hpr & Hh). simplify_eq.
  pose proof (bf_shape _ _ _ _ _ _ _ Hwf) as Hsh. pose proof (Hsh p m Hmem) as Hms.
  assert (area (n loc) (<[off := v]> (bm_priv m))) as Ha.
  { destruct (ms_priv _ _ Hms) as [Hb Hlen]. split; [|by rewrite length_insert]. by apply Forall_insert. }
  split; try done; [|apply rs_grow_refl|by left].
  split; try done. exists owner, lw.
  replace (set_mems _ b) with (BlkWorld (bw_lock b) (<[p := le]> (bw_dirs b))
    (<[p := set_priv (<[off := v]> (bm_priv m)) m]> (bw_mems b))).
  - apply (blk_wf_update P valid (n loc) b (bw_lock b) owner lw ge owner lw ge p le
      (set_priv (<[off := v]> (bm_priv m)) m)); [done|apply Hwf|apply Hwf| | |apply lookup_insert_eq|done|done].
    + apply mems_shape_insert; [by apply mem_shape_priv|done].
    + by apply others_kept_insert.
  - unfold set_mems. by rewrite (insert_id (bw_dirs b)).
Qed.

(** * Acquire *)

(** A notice of a registered block within the lease the block knows. *)
Definition wn_good (s : sspace) (wn : wn_entry) : Prop :=
  0 ≤ wn_wr_ts wn ∧ ∃ loc ge, known (wn_blk_id wn) loc ∧ ge_of loc s ge ∧ notice_ok valid ge wn.

Lemma wn_good_mono T p s s' wn : step_eff T p s s' → wn_good s wn → wn_good s' wn.
Proof.
  intros Heff (H0 & loc & ge & Hk & Hge & [Hh Hl]). split; [done|].
  destruct (se_ge _ _ _ _ Heff loc ge Hge) as (ge' & Hge' & Hgrow).
  exists loc, ge'. split; [done|]. split; [done|]. split; [done|lia].
Qed.

(** Leases never shrink. *)
Lemma lease_mono T p q loc s s' le' :
  step_eff T p s s' → entry q loc s' = Some le' →
  ∃ le, entry q loc s = Some le ∧ le_cur_rd_ts le ≤ le_cur_rd_ts le'.
Proof.
  intros Heff Hle'. destruct (decide (q = p)) as [->|Hne].
  - destruct (se_entry _ _ _ _ Heff loc le' Hle') as (le & ? & ? & _). by exists le.
  - rewrite (se_others _ _ _ _ Heff) in Hle' by done. exists le'. split; [done|lia].
Qed.

Definition leased (p blk_id ts : Z) (s : sspace) : Prop :=
  ∀ loc le, known blk_id loc → entry p loc s = Some le → ts ≤ le_cur_rd_ts le.

Lemma leased_mono T p q blk_id ts s s' : step_eff T p s s' → leased q blk_id ts s → leased q blk_id ts s'.
Proof.
  intros Heff Hl loc le' Hk Hle'. destruct (lease_mono _ _ _ _ _ _ _ Heff Hle') as (le & Hle & Hm).
  specialize (Hl loc le Hk Hle). lia.
Qed.

Lemma acquire_wns_loop_runs T p st wns s :
  world_ok T s → valid p → no_pinned p s → 0 ≤ st ≤ T → next_ts P T < u64_mod →
  Forall (wn_good s) wns →
  runs P (acquire_wns_loop P p st wns s) (λ s', step_eff T p s s' ∧ no_pinned p s'
    ∧ Forall (λ wn, leased p (wn_blk_id wn) (wn_wr_ts wn) s') wns).
Proof using Hlayout Hlease.
  intros Hok Hp Hnp Hst HT Hwns. revert s Hok Hnp Hwns.
  induction wns as [|wn wns IH]; intros s Hok Hnp Hwns; cbn.
  { split; [by apply step_eff_refl|done]. }
  apply Forall_cons in Hwns as [(_ & loc & ge & Hk & Hge & Hno) Hwns].
  eapply runs_bind; [by apply (acquire_call_runs T p st wn loc ge s)|].
  intros [r s1] Hpost. assert (no_pinned p s1) as Hnp1.
  { apply (call_no_pinned _ _ _ _ _ _ _ Hnp Hpost). naive_solver. }
  destruct Hpost as (Heff & _ & ps & rs' & ws' & ge0 & ge' & le & le' & _ & _ & _ & Hle' & _ & _ & _ & Hw & _).
  eapply runs_mono; [apply (IH s1); [apply Heff|done|]|].
  - eapply Forall_impl; [exact Hwns|]. intros w. by eapply wn_good_mono.
  - intros s2 (Heff2 & Hnp2 & Hl2). split; [by eapply step_eff_trans|]. split; [done|].
    constructor; [|done]. eapply leased_mono; [exact Heff2|]. intros loc' le1 Hk' Hle1.
    rewrite (known_fun _ _ _ Hk' Hk) in Hle1. by simplify_eq.
Qed.

(** ** Self-invalidation *)

(** The read set or the list of entries to put back has the block. *)
Definition covered_by (blk_id : Z) (le : local_entry) (pq : list rd_entry) : Prop :=
  ∃ e, e ∈ pq ∧ re_blk_id e = blk_id ∧ re_rd_ts e ≤ le_cur_rd_ts le.

Lemma self_inv_loop_runs T p m blk_ids s ps :
  world_ok T s → valid p → no_pinned p s → 0 ≤ m ≤ T → next_ts P T < u64_mod →
  sp_procs s !! p = Some ps → rs_min_wr_ts (sp_rd ps) = m →
  Forall (ft_known layout) blk_ids →
  runs P (self_invalidate_loop (self_inv_call P p) m blk_ids s) (λ '(ents, s'),
    step_eff T p s s' ∧ no_pinned p s' ∧ Forall (λ e, m ≤ re_rd_ts e) ents
    ∧ Forall (λ e, re_blk_id e ∈ blk_ids) ents
    ∧ ∀ blk_id loc le' ps', known blk_id loc → blk_id ∈ blk_ids → entry p loc s' = Some le' →
        is_invalid (le_state le') = false → sp_procs s' !! p = Some ps' →
        m ≤ le_cur_rd_ts le' ∧ covered_by blk_id le' (ents ++ rs_pq (sp_rd ps'))).
Proof using Hlayout Hlease.
  intros Hok Hp Hnp Hm HT Hps Hmin Hids. revert s ps Hok Hnp Hps Hmin.
  induction Hids as [|b0 blk_ids Hb0 Hids IH]; intros s ps Hok Hnp Hps Hmin; cbn.
  { split; [by apply step_eff_refl|]. split; [done|]. split; [done|]. split; [done|].
    intros ? ? ? ? ? Hin%not_elem_of_nil. done. }
  destruct (ft_known_loc b0 Hb0) as [loc0 Hk0].
  eapply runs_bind; [by apply (self_inv_call_runs T p m b0 loc0 s)|].
  intros [rd s1] Hpost. assert (no_pinned p s1) as Hnp1.
  { apply (call_no_pinned _ _ _ _ _ _ _ Hnp Hpost). naive_solver. }
  destruct Hpost as (Heff & _ & ps0 & rs' & ws' & ge0 & ge' & le & le1 & Hps0 & Hps1 & _ & Hle1 & _ & _ & _ & Hi & -> & _).
  simplify_eq.
  destruct (se_own _ _ _ _ Heff ps Hps) as (ps1 & Hps1' & _ & _ & Hmin1 & _). simplify_eq. cbn in Hmin1.
  eapply runs_bind; [apply (IH s1 _ ltac:(apply Heff) Hnp1 Hps1 Hmin1)|].
  intros [ents s2] (Heff2 & Hnp2 & Hents & Hin & Hcov). cbn.
  split; [by eapply step_eff_trans|]. split; [done|].
  set (ents' := if negb _ then _ else _).
  assert (∀ e, e ∈ ents → e ∈ ents') as Hsub.
  { intros e He. unfold ents'. destruct (negb _); [by right|done]. }
  split; [|split].
  - unfold ents'. destruct (is_greater_rd_ts _ _) eqn:G; cbn; [done|]. constructor; [|done].
    by apply is_greater_rd_ts_false in G.
  - assert (Forall (λ e, re_blk_id e ∈ b0 :: blk_ids) ents) as Hin'.
    { eapply Forall_impl; [exact Hin|]. intros e He. by right. }
    unfold ents'. destruct (negb _); [|done]. constructor; [by left|done].
  - intros blk_id loc le2 ps2 Hk Hblk Hle2 Hv2 Hps2.
    destruct (decide (blk_id ∈ blk_ids)) as [Hbin|Hbin].
    { destruct (Hcov _ _ _ _ Hk Hbin Hle2 Hv2 Hps2) as [? (e & He & ?)]. split; [done|].
      exists e. split; [|done]. rewrite elem_of_app in *. destruct He; [left; auto|by right]. }
    apply elem_of_cons in Hblk as [->|?]; [|done].
    rewrite (known_fun _ _ _ Hk Hk0) in *. clear loc Hk.
    destruct (se_entry _ _ _ _ Heff2 loc0 le2 Hle2) as (le1' & Hle1' & Hl & F). simplify_eq.
    destruct (F b0 ps2 Hk0 Hps2) as [R _]. destruct (R Hv2) as [Hv1|[(e & He & Hb & Hle) Hml]].
    + destruct Hi as [Hi|Hi]; [congruence|]. split; [lia|].
      exists (RdEntry b0 (le_cur_rd_ts le1)). split; [|split; [done|cbn; lia]].
      rewrite elem_of_app. left. unfold ents'. rewrite (proj2 (is_greater_rd_ts_false _ _) Hi). by left.
    + destruct (se_own _ _ _ _ Heff2 _ Hps1) as (ps2' & Hps2' & _ & _ & Hmin2 & _). simplify_eq.
      cbn in Hmin2. split; [lia|]. exists e. split; [|done]. rewrite elem_of_app. by right.
Qed.

(** ** The effect of a whole fence

    As [step_eff], but the sets, the signature and the flags of [p] may change;
    its minimum write timestamp grows. *)
Record proc_eff (T' p : Z) (s s' : sspace) : Prop := {
  pe_ok : world_ok T' s';
  pe_procs : ∀ q, q ≠ p → sp_procs s' !! q = sp_procs s !! q;
  pe_own : ∀ ps, sp_procs s !! p = Some ps → ∃ ps', sp_procs s' !! p = Some ps'
    ∧ rs_min_wr_ts (sp_rd ps) ≤ rs_min_wr_ts (sp_rd ps');
  pe_ge : ∀ loc ge, ge_of loc s ge → ∃ ge', ge_of loc s' ge' ∧ ge_rd_ts ge ≤ ge_rd_ts ge';
  pe_others : ∀ q loc, q ≠ p → entry q loc s' = entry q loc s;
  pe_entry : ∀ loc le', entry p loc s' = Some le' → ∃ le, entry p loc s = Some le
    ∧ le_cur_rd_ts le ≤ le_cur_rd_ts le'
    ∧ ∀ blk_id ps, known blk_id loc → sp_procs s !! p = Some ps →
        is_invalid (le_state le') = false → is_invalid (le_state le) = false
        ∨ rs_min_wr_ts (sp_rd ps) ≤ le_cur_rd_ts le';
}.

Lemma step_proc_eff T p s s' : world_ok T s → valid p → step_eff T p s s' → proc_eff T p s s'.
Proof.
  intros Hok Hp [Ok' _ Hpr Ho Hg Hoth He]. split; try done.
  - intros ps Hps. destruct (Ho ps Hps) as (ps' & Hps' & _ & _ & Hm & _). exists ps'. split; [done|lia].
  - intros loc le' Hle'. destruct (He loc le' Hle') as (le & Hle & Hl & F). exists le.
    split; [done|]. split; [done|]. intros blk_id ps Hk Hps Hv.
    destruct (Ho ps Hps) as (ps' & Hps' & _ & _ & Hm & _).
    destruct (F blk_id ps' Hk Hps') as [R _]. destruct (R Hv) as [?|[_ ?]]; [by left|right; lia].
Qed.

Lemma proc_eff_refl T p s : world_ok T s → proc_eff T p s s.
Proof.
  intros Hok. split; try done.
  - intros ps Hps. exists ps. split; [done|lia].
  - intros loc ge Hge. exists ge. split; [done|lia].
  - intros loc le Hle. exists le. split; [done|]. split; [lia|]. auto.
Qed.

Lemma proc_eff_trans T0 T1 T2 p s s1 s2 :
  valid p → world_ok T0 s → proc_eff T1 p s s1 → proc_eff T2 p s1 s2 → proc_eff T2 p s s2.
Proof.
  intros Hp Hok [Ok1 P1 O1 G1 H1 E1] [Ok2 P2 O2 G2 H2 E2]. split; [done|..].
  - intros q Hq. by rewrite P2, P1.
  - intros ps Hps. destruct (O1 ps Hps) as (ps1 & Hps1 & L1).
    destruct (O2 ps1 Hps1) as (ps2 & Hps2 & L2). exists ps2. split; [done|lia].
  - intros loc ge (ge1 & Hg1 & Hl1)%G1. destruct (G2 loc ge1 Hg1) as (ge2 & Hg2 & Hl2).
    exists ge2. split; [done|lia].
  - intros q loc Hq. by rewrite H2, H1.
  - intros loc le2 (le1 & Hle1 & Hl2 & F2)%E2. destruct (E1 loc le1 Hle1) as (le & Hle & Hl1 & F1).
    exists le. split; [done|]. split; [lia|]. intros blk_id ps Hk Hps Hv.
    destruct (O1 ps Hps) as (ps1 & Hps1 & L1).
    destruct (F2 blk_id ps1 Hk Hps1 Hv) as [Hv1|?]; [|right; lia].
    destruct (F1 blk_id ps Hk Hps Hv1) as [?|?]; [by left|right; lia].
Qed.

Lemma proc_eff_mono T T' p s s' : T ≤ T' → proc_eff T p s s' → proc_eff T' p s s'.
Proof. intros HT []. split; try done. by eapply world_ok_mono. Qed.

(** Replacing what [p] has, with a minimum write timestamp that grew. *)
Lemma put_proc_eff T p ps ps' s :
  world_ok T s → valid p → sp_procs s !! p = Some ps → layout_ok (sp_layout ps') →
  rd_set_wf (sp_rd ps') → rs_min_wr_ts (sp_rd ps) ≤ rs_min_wr_ts (sp_rd ps') ≤ T →
  proc_eff T p s (put_proc p ps' s).
Proof.
  intros Hok Hp Hps Hl Hrs Hm. split; try done.
  - destruct Hok as [Hb Hk Hpr]. split; [done|done|]. intros q Hq. cbn.
    destruct (decide (q = p)) as [->|Hne].
    + rewrite lookup_insert_eq. exists ps'. destruct (Hpr p Hp) as (ps0 & Hps0 & _ & _ & ?).
      simplify_eq. split_and!; try done; lia.
    + rewrite lookup_insert_ne by done. by apply Hpr.
  - intros q Hq. cbn. by rewrite lookup_insert_ne.
  - intros ps0 Hps0. simplify_eq. exists ps'. cbn. rewrite lookup_insert_eq. split; [done|lia].
  - intros loc ge Hge. exists ge. split; [done|lia].
  - intros loc le Hle. exists le. split; [done|]. split; [lia|]. auto.
Qed.

Lemma entry_exists T q blk_id loc s :
  world_ok T s → valid q → known blk_id loc → ∃ le, entry q loc s = Some le.
Proof.
  intros Hok Hq Hk. destruct (wo_known _ _ Hok blk_id loc Hk) as [b Hb].
  destruct (wo_blks _ _ Hok loc b Hb) as [ge Hco]. destruct (co_at _ _ _ _ _ _ Hco) as (o & l & Hwf).
  destruct (bf_procs _ _ _ _ _ _ _ Hwf q Hq) as (le & _ & Hle & _). exists le.
  unfold entry. by rewrite Hb.
Qed.

(** What a process does not miss, it does not miss later. *)
Lemma fresh_mono T p q blk_id loc ts s s' :
  valid q → known blk_id loc → proc_eff T p s s' →
  fresh P layout q blk_id ts s → fresh P layout q blk_id ts s'.
Proof using Hlayout Hflags.
  intros Hq Hk Heff (ps & le & Hps & Hle & Hf). rewrite (entry_of_known _ _ _ _ Hk) in Hle.
  destruct (entry_exists T q blk_id loc s' (pe_ok _ _ _ _ Heff) Hq Hk) as [le' Hle'].
  destruct (decide (q = p)) as [->|Hne].
  - destruct (pe_own _ _ _ _ Heff ps Hps) as (ps' & Hps' & Hm).
    exists ps', le'. rewrite (entry_of_known _ _ _ _ Hk). split; [done|]. split; [done|].
    destruct (pe_entry _ _ _ _ Heff loc le' Hle') as (le0 & Hle0 & Hl & F). simplify_eq.
    specialize (F blk_id ps Hk Hps). destruct Hf as [?|[Hi Hmin]]; [left; lia|].
    destruct (is_invalid (le_state le')); [right; split; [done|lia]|left].
    destruct (F eq_refl) as [?|?]; [congruence|lia].
  - exists ps, le. rewrite (pe_procs _ _ _ _ Heff) by done. rewrite (entry_of_known _ _ _ _ Hk).
    by rewrite (pe_others _ _ _ _ Heff).
Qed.

Lemma wn_good_later T p s s' wn : proc_eff T p s s' → wn_good s wn → wn_good s' wn.
Proof.
  intros Heff (H0 & loc & ge & Hk & Hge & [Hh Hl]). split; [done|].
  destruct (pe_ge _ _ _ _ Heff loc ge Hge) as (ge' & Hge' & Hgrow).
  exists loc, ge'. split; [done|]. split; [done|]. split; [done|lia].
Qed.

(** ** The invariant of the read set of a process *)
Definition rd_inv (p : Z) (s : sspace) : Prop := ∀ ps, sp_procs s !! p = Some ps →
  (∀ blk_id loc le, known blk_id loc → entry p loc s = Some le → is_invalid (le_state le) = false →
     in_rd_set blk_id le (sp_rd ps))
  ∧ ∀ e, e ∈ rs_pq (sp_rd ps) → ft_known layout (re_blk_id e).

Lemma step_rd_inv T0 T p s s' :
  world_ok T0 s → valid p → step_eff T p s s' → rd_inv p s → rd_inv p s'.
Proof.
  intros Hok Hp Heff Hinv ps' Hps'. destruct (wo_procs _ _ Hok p Hp) as (ps & Hps & _).
  destruct (se_own _ _ _ _ Heff ps Hps) as (ps1 & Hps1 & _ & _ & _ & [Hkeep Hnew] & _). simplify_eq.
  destruct (Hinv ps Hps) as [Hr Hk]. split.
  - intros blk_id loc le' Hkn Hle' Hv.
    destruct (se_entry _ _ _ _ Heff loc le' Hle') as (le & Hle & Hl & F).
    destruct (F blk_id ps' Hkn Hps') as [R _]. destruct (R Hv) as [Hv0|[? _]]; [|done].
    destruct (Hr blk_id loc le Hkn Hle Hv0) as (e & He & Hb & Hle1). exists e.
    split; [by apply Hkeep|]. split; [done|lia].
  - intros e [He|?]%Hnew; [by apply Hk|done].
Qed.

Lemma elem_of_self_invalidate_end e ents rs :
  e ∈ rs_pq (self_invalidate_end ents rs) ↔ e ∈ ents ++ rs_pq rs.
Proof.
  unfold self_invalidate_end. cbn. generalize (rs_pq rs). induction ents as [|x ents IH]; intros pq; [done|].
  cbn. rewrite IH, !elem_of_app, elem_of_cons, elem_of_app. unfold pq_push. rewrite ins_perm, elem_of_cons. tauto.
Qed.

(** A readable block is leased at least up to the minimum write timestamp. *)
Lemma readable_leased T p ps blk_id loc le s :
  world_ok T s → valid p → rd_inv p s → sp_procs s !! p = Some ps → known blk_id loc →
  entry p loc s = Some le → is_invalid (le_state le) = false →
  rs_min_wr_ts (sp_rd ps) ≤ le_cur_rd_ts le.
Proof.
  intros Hok Hp Hinv Hps Hk Hle Hv. destruct (wo_procs _ _ Hok p Hp) as (ps0 & Hps0 & _ & [_ Hvalid] & _).
  simplify_eq. destruct (Hinv ps Hps) as [Hr _]. destruct (Hr _ _ _ Hk Hle Hv) as (e & He & _ & Hl).
  rewrite Forall_forall in Hvalid. specialize (Hvalid e He). cbn in Hvalid. lia.
Qed.

(** ** The invariant of the write set of a process *)
Definition in_wr_set (b : Z) (ws : wr_set) : Prop := b ∈ ws_dirty_ids ws ∨ b ∈ ws_new_ids ws.

Definition wr_inv (p : Z) (s : sspace) : Prop := ∀ ps, sp_procs s !! p = Some ps →
  wr_set_wf (sp_wr ps) ∧ ws_is_releasing (sp_wr ps) = false
  ∧ (∀ blk_id loc le, known blk_id loc → entry p loc s = Some le → dirty_state (le_state le) = true →
      in_wr_set blk_id (sp_wr ps))
  ∧ ∀ b, in_wr_set b (sp_wr ps) → ft_known layout b.

Lemma in_wr_set_ext b ws ws' : ws_ext ws ws' → in_wr_set b ws → in_wr_set b ws'.
Proof. intros (Hd & _ & _ & Hk & _) [?|?]; [left; by rewrite Hd|right; by apply Hk]. Qed.

Lemma step_wr_inv T0 T p s s' :
  world_ok T0 s → valid p → step_eff T p s s' → wr_inv p s → wr_inv p s'.
Proof.
  intros Hok Hp Heff Hinv ps' Hps'. destruct (wo_procs _ _ Hok p Hp) as (ps & Hps & _).
  destruct (se_own _ _ _ _ Heff ps Hps) as (ps1 & Hps1 & _ & _ & _ & _ & Hws). simplify_eq.
  destruct (Hinv ps Hps) as (Hwf & Hrel & Hd & Hk). pose proof Hws as (Ed & _ & Er & _ & Hn).
  split; [unfold wr_set_wf; by rewrite Ed|]. split; [congruence|]. split.
  - intros blk_id loc le' Hkn Hle' Hdirty.
    destruct (se_entry _ _ _ _ Heff loc le' Hle') as (le & Hle & _ & F).
    destruct (F blk_id ps' Hkn Hps') as [_ D]. destruct (D Hdirty) as [Hd0|?]; [|by right].
    eapply in_wr_set_ext; [exact Hws|]. by eapply Hd.
  - intros b [Hb|[?|?]%Hn]; [apply Hk; left; congruence|apply Hk; by right|done].
Qed.

(** * Release *)

Lemma later_ts_S T m : later_ts P T (Z.of_nat (S m)) = later_ts P (next_ts P T) (Z.of_nat m).
Proof. unfold later_ts, next_ts. lia. Qed.

Lemma later_ts_ge T m : 0 ≤ m → T ≤ later_ts P T m.
Proof using Hlease. unfold later_ts. nia. Qed.

(** The release of one block of the loop, seen from a later state [s]. *)
Definition released (p blk_id : Z) (r : release_result) (s : sspace) : Prop :=
  ∀ loc le, known blk_id loc → entry p loc s = Some le →
    (dirty_state (le_state le) = true → rl_is_still_writable r = true)
    ∧ (rl_is_written r = true →
         wn_good s (release_notice blk_id r) ∧ wn_wr_ts (release_notice blk_id r) ≤ le_cur_rd_ts le).

(** The blocks of [p] outside [ids] are as before. *)
Definition others_kept (p : Z) (ids : list Z) (s s' : sspace) : Prop :=
  ∀ blk_id loc, known blk_id loc → blk_id ∉ ids → entry p loc s' = entry p loc s.

Lemma release_one T p st blk_id loc s :
  world_ok T s → valid p → known blk_id loc → 0 ≤ st ≤ T → next_ts P T < u64_mod →
  runs P (release_call P p st blk_id s) (λ '(r, s'), step_eff (next_ts P T) p s s'
    ∧ released p blk_id r s' ∧ others_kept p [blk_id] s s' ∧ (no_pinned p s → no_pinned p s')
    ∧ ∀ ps, sp_procs s !! p = Some ps → ∃ ps', sp_procs s' !! p = Some ps' ∧ sp_wr ps' = sp_wr ps).
Proof using Hlayout Hlease Hcfg.
  intros Hok Hp Hk Hst HT. eapply runs_mono; [by apply (release_call_runs T p st blk_id loc s)|].
  intros [r s'] Hpost. assert (no_pinned p s → no_pinned p s') as Hnp.
  { intros Hn. apply (call_no_pinned _ _ _ _ _ _ _ Hn Hpost). intros a ws ws' ge ge' le le' (_ & _ & Hd & _) Hpin.
    rewrite <-Hpin. symmetry. apply Hd. by rewrite Hpin. }
  destruct Hpost as (Heff & Hoth & ps & rs' & ws' & ge & ge' & le & le' & Hps & Hps' & Hle & Hle' & Hge & Hge' & -> & _ & Hd & Hw).
  split; [done|]. split; [|split; [|split; [done|]]].
  - intros loc' le1 Hk' Hle1. rewrite (known_fun _ _ _ Hk' Hk) in Hle1. simplify_eq.
    split; [by intros Hx; apply Hd|]. intros (Hno & H0 & Hl)%Hw. split; [|done]. split; [done|]. by exists loc, ge'.
  - intros b loc' Hk' Hb. apply Hoth. intros ->. apply Hb.
    rewrite (known_inj _ _ _ Hk' Hk). by left.
  - intros ps0 Hps0. simplify_eq. eexists. by split.
Qed.

(** Later releases, of other blocks, keep what a release promised. *)
Lemma released_mono T p blk_id r ids s s' :
  step_eff T p s s' → others_kept p ids s s' → blk_id ∉ ids →
  released p blk_id r s → released p blk_id r s'.
Proof.
  intros Heff Hoth Hb Hr loc le Hk Hle. rewrite (Hoth _ _ Hk Hb) in Hle.
  destruct (Hr loc le Hk Hle) as [Hd Hw]. split; [done|]. intros [? ?]%Hw.
  split; [by eapply wn_good_mono|done].
Qed.

Lemma release_loop_space_runs T p st ids order s ps :
  world_ok T s → valid p → sp_procs s !! p = Some ps → Forall (ft_known layout) ids →
  NoDup ids → NoDup order → Forall (λ i, (i < length ids)%nat) order →
  0 ≤ st ≤ T → later_ts P T (Z.of_nat (length order)) < u64_mod →
  runs P (release_loop (release_call P p st) ids order s) (λ '(rs, s'),
    step_eff (later_ts P T (Z.of_nat (length order))) p s s'
    ∧ others_kept p (omap (λ i, ids !! i) order) s s' ∧ (no_pinned p s → no_pinned p s')
    ∧ (∃ ps', sp_procs s' !! p = Some ps' ∧ sp_wr ps' = sp_wr ps)
    ∧ (∀ i, is_Some (rs !! i) ↔ i ∈ order)
    ∧ ∀ i b r, ids !! i = Some b → rs !! i = Some r → released p b r s').
Proof using Hlayout Hlease Hcfg.
  intros Hok Hp Hps Hids Hnd Hndo Hlt Hst HT. revert T s ps Hok Hps Hst HT.
  induction order as [|i order IH]; intros T s ps Hok Hps Hst HT; cbn [release_loop].
  { cbn. split; [apply step_eff_refl; eapply world_ok_mono, Hok; by apply later_ts_ge|].
    split; [done|]. split; [done|]. split; [by exists ps|]. split; [|by intros ? ? ? ?; rewrite lookup_empty].
    intros i. rewrite lookup_empty. split; [by intros []|by intros ?%not_elem_of_nil]. }
  apply NoDup_cons in Hndo as [Hni Hndo]. apply Forall_cons in Hlt as [Hi Hlt].
  destruct (lookup_lt_is_Some_2 ids i Hi) as [b Eb]. rewrite Eb.
  cbn [length] in *. rewrite later_ts_S in *.
  pose proof (later_ts_ge (next_ts P T) (Z.of_nat (length order)) ltac:(lia)) as HTle.
  assert (T ≤ next_ts P T) by (unfold next_ts; lia).
  destruct (ft_known_loc b) as [loc Hk].
  { rewrite Forall_forall in Hids. apply Hids. by eapply list_elem_of_lookup_2. }
  eapply runs_bind; [apply (release_one T p st b loc s); try done; lia|].
  intros [r s1] (Heff1 & Hr1 & Hoth1 & Hnp1 & Hps1). destruct (Hps1 ps Hps) as (ps1 & Hps1' & Hws1).
  eapply runs_bind.
  { apply (IH Hndo Hlt (next_ts P T) s1 ps1); [apply Heff1|done|lia|done]. }
  intros [rs s2] (Heff2 & Hoth2 & Hnp2 & (ps2 & Hps2 & Hws2) & Hdom & Hrel). cbn [mbind result_bind runs].
  assert (b ∉ omap (λ i, ids !! i) order) as Hbn.
  { intros (j & Hj & Ej)%list_elem_of_omap. apply Hni. by rewrite (NoDup_lookup ids i j b Hnd Eb Ej). }
  split; [by eapply step_eff_trans|]. split; [|split; [auto|split; [|split]]].
  - intros c loc' Hk' Hc. cbn in Hc. rewrite Eb in Hc. apply not_elem_of_cons in Hc as [Hcb Hc].
    rewrite (Hoth2 c loc' Hk' Hc). apply (Hoth1 c loc' Hk'). by apply not_elem_of_cons; split; [|apply not_elem_of_nil].
  - exists ps2. split; [done|congruence].
  - intros j. rewrite elem_of_cons, <-Hdom. destruct (decide (j = i)) as [->|Hne].
    + rewrite lookup_insert_eq. split; [auto|by eauto].
    + rewrite lookup_insert_ne by done. naive_solver.
  - intros j c r' Ej. destruct (decide (j = i)) as [->|Hne].
    + rewrite lookup_insert_eq. intros [= <-]. simplify_eq. by eapply released_mono.
    + rewrite lookup_insert_ne by done. by apply Hrel.
Qed.

(** ** The write notices *)
Lemma convert_to_wn_vec_elem ids rs w :
  w ∈ convert_to_wn_vec ids rs → ∃ b r, (b, r) ∈ zip ids rs ∧ rl_is_written r = true ∧ w = release_notice b r.
Proof.
  unfold convert_to_wn_vec. intros ([b r] & Hin & E)%list_elem_of_omap. exists b, r.
  destruct (rl_release_completed r); [|done]. destruct (rl_is_written r) eqn:Ew; [|done].
  by injection E as <-.
Qed.

Lemma convert_to_wn_vec_nodup ids rs : NoDup ids → NoDup (wn_blk_id <$> convert_to_wn_vec ids rs).
Proof.
  intros Hnd. eapply sublist_NoDup; [exact Hnd|]. clear Hnd. unfold convert_to_wn_vec.
  revert rs. induction ids as [|b ids IH]; intros [|r rs]; cbn; try apply sublist_nil_l; [].
  destruct (rl_release_completed r && rl_is_written r); cbn; constructor; apply IH.
Qed.

(** ** Signatures *)

(** A signature whose notices are good, within the bound on its length. *)
Record sig_ok (T : Z) (s : sspace) (sig : sig_buffer) : Prop := {
  so_wf : sig_wf sig;
  so_min : 0 ≤ min_wr_ts sig ≤ T;
  so_wns : Forall (wn_good s) (wn_vec sig);
  so_len : (length (wn_vec sig) ≤ max_rel_sig_len P)%nat;
}.

Lemma wn_good_ts T s wn : world_ok T s → wn_good s wn → 0 ≤ wn_wr_ts wn ≤ T.
Proof.
  intros Hok (H0 & loc & ge & Hk & (b & Hb & Hat) & [_ Hl]). split; [done|].
  destruct (wo_blks _ _ Hok loc b Hb) as [ge' Hco].
  rewrite (ge_of_fun loc s ge ge') in Hl; [|by exists b|by exists b; split; [|apply Hco]].
  destruct (co_ts _ _ _ _ _ _ Hco) as [_ ?]. lia.
Qed.

Lemma sig_ok_known st T s sig :
  layout_ok st → sig_ok T s sig → @all_known _ (seg_ft P) st (wn_vec sig).
Proof using Hlayout.
  intros (_ & Hk & _) [_ _ Hw _]. eapply Forall_impl; [exact Hw|].
  intros w (_ & loc & ge & Hkn & _). apply Hk. by eapply known_ft.
Qed.

Lemma sig_ok_wns T s sig : sig_ok T s sig → wns_ok (wn_vec sig).
Proof. intros [_ _ Hw _]. eapply Forall_impl; [exact Hw|]. by intros w [? _]. Qed.

Lemma sig_ok_later T T' p s s' sig : T ≤ T' → proc_eff T' p s s' → sig_ok T s sig → sig_ok T' s' sig.
Proof.
  intros HT Heff [Hw Hm Hg Hl]. split; [done|lia| |done].
  eapply Forall_impl; [exact Hg|]. intros w. by eapply wn_good_later.
Qed.

(** Merging two of them; the length of the second does not matter. *)
Lemma merge_sig_ok T s st self sig :
  world_ok T s → layout_ok st → sig_ok T s self →
  sig_wf sig → 0 ≤ min_wr_ts sig ≤ T → Forall (wn_good s) (wn_vec sig) →
  ∃ sig' st', rel_sig_merge (H := seg_ft P) P st self sig = Ok (sig', st')
    ∧ layout_ok st' ∧ sig_ok T s sig'
    ∧ (∀ b ts, 0 ≤ ts → covers self b ts ∨ covers sig b ts → covers sig' b ts)
    ∧ ∀ w, w ∈ wn_vec sig' → w ∈ wn_vec self ∨ w ∈ wn_vec sig.
Proof using Hlayout.
  intros Hok Hl Hself Hwf Hmin Hgood. pose proof Hl as (Hsh & Hkn & Hfl).
  assert (@all_known _ (seg_ft P) st (wn_vec sig)) as Hk.
  { eapply Forall_impl; [exact Hgood|]. intros w (_ & loc & ge & Hk & _). apply Hkn. by eapply known_ft. }
  assert (wns_ok (wn_vec sig)) as Hwo by (eapply Forall_impl; [exact Hgood|]; by intros w [? _]).
  destruct (rel_sig_merge_correct (H := seg_ft P) P st self sig) as (sig' & st' & E & Hfl' & Hwf' & Hlen & Hcov & Hkn' & Hsub & Hm);
    try done; [by eapply sig_ok_known|apply Hself|by eapply sig_ok_wns|].
  exists sig', st'. split; [done|].
  pose proof (so_wns _ _ _ Hself) as Hgs. rewrite Forall_forall in Hgs. rewrite Forall_forall in Hgood.
  split; [|split; [|by split]].
  - split; [etrans; [exact Hsh|by eapply seg_merge_shape]|]. split; [|done]. intros b. by rewrite Hkn', Hkn.
  - split; [done| | |done].
    + pose proof (so_min _ _ _ Hself). destruct Hm as [->|[->|(w & Hw & ->)]]; [lia|lia|].
      apply (wn_good_ts T s w Hok). destruct Hw; auto.
    + apply Forall_forall. intros w [?|?]%Hsub; auto.
Qed.

(** ** The invariant of a process *)
Record own_inv (T p : Z) (s : sspace) : Prop := {
  oi_rd : rd_inv p s;
  oi_wr : wr_inv p s;
  oi_sig : ∀ ps, sp_procs s !! p = Some ps → sig_ok T s (sp_sig ps);
}.

Definition covered (p : Z) (s : sspace) (b ts : Z) : Prop :=
  ∀ ps, sp_procs s !! p = Some ps → covers (sp_sig ps) b ts.

(** A release fence of [p] that published [wns]. *)
Record fenced (T' p : Z) (s : sspace) (wns : list wn_entry) (s' : sspace) : Prop := {
  fe_eff : proc_eff T' p s s';
  fe_inv : own_inv T' p s';
  fe_mtxs : sp_mtxs s' = sp_mtxs s;
  fe_pin : no_pinned p s → no_pinned p s';
  fe_wns : Forall (λ wn, wn_good s' wn ∧ leased p (wn_blk_id wn) (wn_wr_ts wn) s') wns;
  fe_new : ∀ wn, wn ∈ wns → covered p s' (wn_blk_id wn) (wn_wr_ts wn);
  fe_old : ∀ b ts, 0 ≤ ts → covered p s b ts → covered p s' b ts;
}.


Lemma start_release_idle ws : ws_is_releasing ws = false →
  start_release ws = (WrSet (ws_new_ids ws) (ws_dirty_ids ws) (ws_gen ws) true, Selected).
Proof.
  intros H. unfold start_release, wait_previous, try_select. rewrite H.
  destruct (Z.ltb_spec (ws_gen ws - (ws_gen ws + 0)) 0); [lia|done].
Qed.

(** The loop of a release fence, its notices and the write set it leaves. *)
Lemma release_all_space_runs T p st s ps ws :
  world_ok T s → valid p → sp_procs s !! p = Some ps → wr_inv p s →
  ws = WrSet (ws_new_ids (sp_wr ps)) (ws_dirty_ids (sp_wr ps)) (ws_gen (sp_wr ps)) true →
  0 ≤ st ≤ T → later_ts P T (num_dirty p s) < u64_mod →
  runs P (release_all_blocks rl_is_still_writable (release_call P p st) convert_to_wn_vec
            (sched (length (collect_ids ws))) ws s)
    (λ '(wns, ws', s'), step_eff (later_ts P T (num_dirty p s)) p s s'
       ∧ (no_pinned p s → no_pinned p s')
       ∧ wr_set_wf ws' ∧ ws_is_releasing ws' = true
       ∧ (∀ b, in_wr_set b ws' → ft_known layout b)
       ∧ (∀ blk_id loc le, known blk_id loc → entry p loc s' = Some le →
            dirty_state (le_state le) = true → in_wr_set blk_id ws')
       ∧ NoDup (wn_blk_id <$> wns)
       ∧ Forall (λ wn, wn_good s' wn ∧ leased p (wn_blk_id wn) (wn_wr_ts wn) s') wns).
Proof using Hlayout Hlease Hcfg Hsched.
  intros Hok Hp Hps Hinv -> Hst HT. destruct (Hinv ps Hps) as (Hwf & Hrel & Hd & Hkn).
  unfold num_dirty in *. rewrite Hps in *. unfold release_all_blocks.
  set (ws := WrSet _ _ _ true). change (collect_ids (sp_wr ps)) with (collect_ids ws) in *.
  set (ids := collect_ids ws) in *.
  assert (∀ b, b ∈ ids ↔ in_wr_set b (sp_wr ps)) as Hin by apply elem_of_collect_ids.
  pose proof (collect_ids_sorted ws Hwf) as Hss. fold ids in Hss.
  assert (NoDup ids) as Hnd by by apply StronglySorted_lt_NoDup.
  pose proof (Hsched (length ids)) as Hord. unfold is_schedule in Hord.
  set (order := sched (length ids)) in *.
  assert (length order = length ids) as Hlen by (by rewrite Hord, length_seq).
  eapply runs_bind.
  { apply (release_loop_space_runs T p st ids order s ps); try done.
    - apply Forall_forall. intros b Hb. by apply Hkn, Hin.
    - rewrite Hord. apply NoDup_seq.
    - apply Forall_forall. intros i. rewrite Hord, elem_of_seq. lia.
    - by rewrite Hlen. }
  intros [rs s'] (Heff & Hoth & Hnp & Hps' & Hdom & Hr). cbn. rewrite Hlen in Heff.
  assert (∀ j, is_Some (rs !! j) ↔ j ∈ seq 0 (length ids)) as Hall by (intros j; by rewrite Hdom, Hord).
  assert (∀ b r, (b, r) ∈ zip ids (rel_results ids rs) → released p b r s') as Hzip.
  { intros b r (i & E)%list_elem_of_lookup_1. apply lookup_zip_with_Some in E as (b' & r' & [= -> ->] & Eb & Er).
    apply (Hr i b' r' Eb). rewrite <-Er. symmetry. apply rel_results_lookup; [done|by eapply lookup_lt_Some]. }
  assert (∀ b, b ∈ ids → ∃ r, (b, r) ∈ zip ids (rel_results ids rs)) as Hres.
  { intros b Hb. rewrite <-(fst_zip ids (rel_results ids rs)) in Hb by (by rewrite length_rel_results).
    apply list_elem_of_fmap in Hb as ([b' r] & E & ?). cbn in E. subst. by exists r. }
  split; [done|]. split; [done|]. split; [|split; [done|split; [|split; [|split]]]].
  - unfold wr_set_wf. cbn. by eapply StronglySorted_sublist; [apply remove_clean_sublist|].
  - intros b [Hb|?%not_elem_of_nil]; [|done]. cbn in Hb. apply Hkn, Hin.
    eapply elem_of_sublist; [exact Hb|apply remove_clean_sublist].
  - intros blk_id loc le Hk Hle Hdirty. left. cbn. apply elem_of_remove_clean_zip.
    assert (blk_id ∈ ids) as [r Hb]%Hres.
    { apply Hin. destruct Hps' as (ps' & Hps' & Hws').
      destruct (step_wr_inv _ _ p s s' Hok Hp Heff Hinv ps' Hps') as (_ & _ & Hd' & _).
      rewrite <-Hws'. by eapply Hd'. }
    exists r. split; [done|]. by apply (Hzip _ _ Hb loc le).
  - by apply convert_to_wn_vec_nodup.
  - apply Forall_forall. intros w (b & r & Hb & Hw & ->)%convert_to_wn_vec_elem.
    pose proof (Hzip _ _ Hb) as Hrl. destruct (ft_known_loc b) as [loc Hk].
    { apply Hkn, Hin. by eapply elem_of_zip_l. }
    destruct (entry_exists _ p b loc s' (se_ok _ _ _ _ Heff) Hp Hk) as [le Hle].
    destruct (Hrl loc le Hk Hle) as [_ [? ?]]; [done|]. split; [done|].
    intros loc' le' Hk' Hle'. rewrite (known_fun _ _ _ Hk' Hk) in Hle'. by simplify_eq.
Qed.

(** Views of the state after a [put_proc]. *)
Lemma lookup_put p ps (s : sspace) : sp_procs (put_proc p ps s) !! p = Some ps.
Proof. apply lookup_insert_eq. Qed.

Lemma create_from_wns_good s wns :
  NoDup (wn_blk_id <$> wns) → Forall (wn_good s) wns →
  sig_wf (create_from_wns wns) ∧ min_wr_ts (create_from_wns wns) = 0
  ∧ Forall (wn_good s) (wn_vec (create_from_wns wns)).
Proof. intros Hnd Hg. split; [by apply create_from_wns_wf|]. split; [done|]. cbn. by rewrite std_sort_perm. Qed.

(** The end of a release fence: the notices go to the release signature and
    the new write set is stored. *)
Lemma fence_end_runs T p s ps wns ws :
  world_ok T s → valid p → sp_procs s !! p = Some ps → rd_inv p s → sig_ok T s (sp_sig ps) →
  wr_set_wf ws → ws_is_releasing ws = true → (∀ b, in_wr_set b ws → ft_known layout b) →
  (∀ blk_id loc le, known blk_id loc → entry p loc s = Some le →
     dirty_state (le_state le) = true → in_wr_set blk_id ws) →
  NoDup (wn_blk_id <$> wns) →
  Forall (λ wn, wn_good s wn ∧ leased p (wn_blk_id wn) (wn_wr_ts wn) s) wns →
  runs P ('(sig, layout) ← rel_sig_merge_wns (H := seg_ft P) P (sp_layout ps) (sp_sig ps) wns;
          ws ← finish_release ws;
          Ok (wns, put_proc p (ProcSpace layout (sp_rd ps) ws sig) s))
    (λ '(wns', s'), wns' = wns ∧ fenced T p s wns s').
Proof using Hlayout.
  intros Hok Hp Hps Hrd Hsig Hwf Hrel Hkn Hd Hnd Hwns.
  destruct (wo_procs _ _ Hok p Hp) as (ps0 & Hps0 & Hlay & Hrs & Hmin). simplify_eq.
  assert (Forall (wn_good s) wns) as Hgood by (eapply Forall_impl; [exact Hwns|]; by intros w [? _]).
  destruct (create_from_wns_good s wns Hnd Hgood) as (Hcwf & Hcm & Hcg).
  destruct (merge_sig_ok T s (sp_layout ps) (sp_sig ps) (create_from_wns wns)) as (sig & st & E & Hst & Hsok & Hcov & _);
    try done; [lia|].
  unfold rel_sig_merge_wns. rewrite E, bind_Ok. unfold finish_release. rewrite assert_true, bind_Ok by done.
  cbn [runs]. split; [done|]. set (ps' := ProcSpace st _ _ sig).
  assert (proc_eff T p s (put_proc p ps' s)) as Heff by (eapply put_proc_eff; try done; cbn; lia).
  split; [done| |done|done| | |].
  - split.
    + intros ps1 Hps1. rewrite lookup_put in Hps1. injection Hps1 as <-. by apply (Hrd ps).
    + intros ps1 Hps1. rewrite lookup_put in Hps1. injection Hps1 as <-. by split.
    + intros ps1 Hps1. rewrite lookup_put in Hps1. injection Hps1 as <-. by eapply sig_ok_later.
  - eapply Forall_impl; [exact Hwns|]. intros w [Hg Hl]. split; [by eapply wn_good_later|done].
  - intros w Hw ps1 Hps1. rewrite lookup_put in Hps1. injection Hps1 as <-. apply Hcov.
    + rewrite Forall_forall in Hgood. by apply Hgood.
    + right. by apply create_from_wns_covers.
  - intros b ts H0 Hc ps1 Hps1. rewrite lookup_put in Hps1. injection Hps1 as <-. apply Hcov; [done|].
    left. by apply Hc.
Qed.

Lemma sig_ok_step T T' p s s' sig :
  world_ok T s → valid p → T ≤ T' → step_eff T' p s s' → sig_ok T s sig → sig_ok T' s' sig.
Proof.
  intros Hok Hp HT Heff. apply sig_ok_later with (p := p); [done|].
  apply step_proc_eff; [by eapply world_ok_mono|done|done].
Qed.

Lemma num_dirty_nonneg p (s : sspace) : 0 ≤ num_dirty p s.
Proof. unfold num_dirty. destruct (sp_procs s !! p); lia. Qed.

Lemma own_inv_step T T' p s s' :
  world_ok T s → valid p → T ≤ T' → step_eff T' p s s' → own_inv T p s → own_inv T' p s'.
Proof.
  intros Hok Hp HT Heff [Hr Hw Hs]. split; [by eapply step_rd_inv|by eapply step_wr_inv|].
  intros ps' Hps'. destruct (wo_procs _ _ Hok p Hp) as (ps & Hps & _).
  destruct (se_own _ _ _ _ Heff ps Hps) as (ps1 & Hps1 & _ & Hsg & _). simplify_eq. rewrite Hsg.
  eapply sig_ok_step; eauto.
Qed.

Lemma fence_release_runs T p s :
  world_ok T s → valid p → own_inv T p s → later_ts P T (num_dirty p s) < u64_mod →
  runs P (fence_release P sched p s)
    (λ '(wns, s'), fenced (later_ts P T (num_dirty p s)) p s wns s').
Proof using Hlayout Hlease Hcfg Hsched.
  intros Hok Hp Hinv HT. destruct (wo_procs _ _ Hok p Hp) as (ps & Hps & _ & _ & Hmin).
  pose proof (oi_wr _ _ _ Hinv) as Hwr. destruct (Hwr ps Hps) as (_ & Hrel & _).
  pose proof (later_ts_ge T (num_dirty p s) (num_dirty_nonneg p s)) as HTle.
  set (T' := later_ts P T (num_dirty p s)) in *.
  unfold fence_release, get_proc. rewrite Hps, bind_Ok, start_release_idle by done.
  eapply runs_bind; [by apply (release_all_space_runs T p (get_ts_state (sp_rd ps)) s ps)|].
  intros [[wns ws] s1] (Heff & Hnp & Hwf1 & Hrel1 & Hkn1 & Hd1 & Hnd & Hwns).
  destruct (se_own _ _ _ _ Heff ps Hps) as (ps1 & Hps1 & _ & Hsg & _).
  cbn [mbind result_bind]. rewrite Hps1, bind_Ok.
  pose proof (own_inv_step T T' p s s1 Hok Hp HTle Heff Hinv) as Hinv1.
  eapply runs_mono; [apply (fence_end_runs T' p s1 ps1 wns ws); try done; [apply Heff|apply Hinv1|by apply Hinv1]|].
  intros [wns' s'] [-> [Heff' Hinv' Hm' Hnp' Hw' Hn' Ho']]. split; try done; [| |by auto|].
  - eapply proc_eff_trans; [done|exact Hok| |exact Heff'].
    apply step_proc_eff; [by eapply world_ok_mono|done|done].
  - by rewrite Hm', (se_mtxs _ _ _ _ Heff).
  - intros b ts H0 Hc. apply Ho'; [done|]. intros ps2 Hps2. simplify_eq. rewrite Hsg. by apply Hc.
Qed.

(** * Acquiring signatures *)

(** What a fence keeps of the process: the layout and the signature; the write
    set may have new blocks. *)
Definition own_kept (p : Z) (s s' : sspace) : Prop := ∀ ps, sp_procs s !! p = Some ps →
  ∃ ps', sp_procs s' !! p = Some ps' ∧ sp_layout ps' = sp_layout ps ∧ sp_sig ps' = sp_sig ps
    ∧ ws_ext (sp_wr ps) (sp_wr ps').

Lemma own_kept_refl p s : own_kept p s s.
Proof. intros ps Hps. exists ps. split_and!; try done. apply ws_ext_refl. Qed.

Lemma own_kept_trans p s s1 s2 : own_kept p s s1 → own_kept p s1 s2 → own_kept p s s2.
Proof.
  intros H H' ps Hps. destruct (H ps Hps) as (ps1 & Hps1 & L1 & S1 & W1).
  destruct (H' ps1 Hps1) as (ps2 & Hps2 & L2 & S2 & W2). exists ps2.
  split_and!; try congruence. by eapply ws_ext_trans.
Qed.

Lemma step_own_kept T p s s' : step_eff T p s s' → own_kept p s s'.
Proof.
  intros Heff ps Hps. destruct (se_own _ _ _ _ Heff ps Hps) as (ps' & ? & ? & ? & _ & _ & ?). by exists ps'.
Qed.

Lemma get_rd_Some p (s : sspace) ps : sp_procs s !! p = Some ps → get_rd p s = sp_rd ps.
Proof. intros H. unfold get_rd. by rewrite H. Qed.

Lemma put_rd_Some p (s : sspace) ps rs : sp_procs s !! p = Some ps →
  put_rd p rs s = put_proc p (ProcSpace (sp_layout ps) rs (sp_wr ps) (sp_sig ps)) s.
Proof. intros H. unfold put_rd. by rewrite H. Qed.

(** The effect of an acquire on its process. *)
Definition acquired (T p m : Z) (s s' : sspace) : Prop :=
  proc_eff T p s s' ∧ no_pinned p s' ∧ own_inv T p s' ∧ own_kept p s s' ∧ sp_mtxs s' = sp_mtxs s
  ∧ ∀ ps', sp_procs s' !! p = Some ps' → m ≤ rs_min_wr_ts (sp_rd ps').

Lemma acquire_min_runs T p m s :
  world_ok T s → valid p → no_pinned p s → own_inv T p s → 0 ≤ m ≤ T → next_ts P T < u64_mod →
  runs P (acquire_min_wr_ts P p m s) (acquired T p m s).
Proof using Hlayout Hlease.
  intros Hok Hp Hnp [Hinv Hwr Hsig] Hm HT.
  destruct (wo_procs _ _ Hok p Hp) as (ps & Hps & Hlay & Hrs & Hmin).
  destruct (Hinv ps Hps) as [Hr Hkn]. unfold acquire_min_wr_ts, RdSet.self_invalidate.
  rewrite (get_rd_Some p s ps Hps). pose proof (self_invalidate_begin_correct m (sp_rd ps) Hrs) as Hb.
  destruct (self_invalidate_begin m (sp_rd ps)) as [[ids rs]|].
  2: { split; [by apply proc_eff_refl|]. split; [done|]. split; [by split|].
    split; [apply own_kept_refl|]. split; [done|]. intros ps' Hps'. by simplify_eq. }
  destruct Hb as (Hlt & Hrs1 & Hm1 & Hpq & Hids). rewrite (put_rd_Some p s ps rs Hps).
  set (ps1 := ProcSpace (sp_layout ps) rs (sp_wr ps) (sp_sig ps)). set (s1 := put_proc p ps1 s).
  assert (proc_eff T p s s1) as Heff1 by (eapply put_proc_eff; try done; cbn; lia).
  assert (sp_procs s1 !! p = Some ps1) as Hps1 by apply lookup_insert_eq.
  assert (Forall (ft_known layout) ids) as Hidk.
  { apply Forall_forall. intros b (e & He & <- & _)%Hids. by apply Hkn. }
  eapply runs_bind; [by apply (self_inv_loop_runs T p m ids s1 ps1); [apply Heff1|..]|].
  intros [ents s2] (Heff2 & Hnp2 & Hents & Hein & Hcov). cbn.
  destruct (se_own _ _ _ _ Heff2 ps1 Hps1) as (ps2 & Hps2 & L2 & S2 & Mn2 & [Rk Rn] & W2).
  cbn in L2, S2, Mn2, Rk, Rn, W2. rewrite (get_rd_Some p s2 ps2 Hps2), (put_rd_Some p s2 ps2 _ Hps2).
  set (rs2 := self_invalidate_end ents (sp_rd ps2)).
  set (ps3 := ProcSpace (sp_layout ps2) rs2 (sp_wr ps2) (sp_sig ps2)).
  assert (proc_eff T p s s2) as Heff12.
  { eapply proc_eff_trans; [done|exact Hok|exact Heff1|]. apply step_proc_eff; [apply Heff1|done|done]. }
  destruct (wo_procs _ _ (se_ok _ _ _ _ Heff2) p Hp) as (ps2' & Hps2' & Hlay2 & Hrs2 & Hmin2). simplify_eq.
  assert (rd_set_wf rs2) as Hrs3.
  { apply self_invalidate_end_wf; [done|]. by rewrite Mn2. }
  assert (wr_inv p (put_proc p ps3 s2)) as Hwr3.
  { intros ps' Hps'. rewrite lookup_put in Hps'. injection Hps' as <-.
    refine (step_wr_inv T T p s1 s2 (pe_ok _ _ _ _ Heff1) Hp Heff2 _ ps2 Hps2).
    intros ps' Hps'. rewrite Hps1 in Hps'. injection Hps' as <-. by apply (Hwr ps). }
  assert (∀ ps', sp_procs (put_proc p ps3 s2) !! p = Some ps' → sig_ok T (put_proc p ps3 s2) (sp_sig ps')) as Hsig3.
  { intros ps' Hps'. rewrite lookup_put in Hps'. injection Hps' as <-. cbn. rewrite S2.
    apply (sig_ok_later T T p s); [done| |by apply Hsig].
    eapply proc_eff_trans; [done|exact Hok|exact Heff12|].
    eapply put_proc_eff; try done; [apply Heff2|cbn; lia]. }
  assert (own_kept p s (put_proc p ps3 s2)) as Hown.
  { intros ps0 Hps0. simplify_eq. exists ps3. cbn. rewrite lookup_insert_eq. by split_and!. }
  split_and!; try done.
  - eapply proc_eff_trans; [done|exact Hok|exact Heff12|].
    eapply put_proc_eff; try done; [apply Heff2|cbn; lia].
  - split; [|done|done].
    intros ps3' Hps3. cbn in Hps3. rewrite lookup_insert_eq in Hps3. injection Hps3 as <-. cbn. split.
    + intros blk_id loc le Hk Hle Hv. unfold in_rd_set, rs2.
      enough (covered_by blk_id le (ents ++ rs_pq (sp_rd ps2))) as (e & He & ?).
      { exists e. by rewrite elem_of_self_invalidate_end. }
      destruct (decide (blk_id ∈ ids)) as [Hin|Hin]; [by apply (Hcov blk_id loc le ps2)|].
      destruct (se_entry _ _ _ _ Heff2 loc le Hle) as (le0 & Hle0 & Hl & F).
      destruct (F blk_id ps2 Hk Hps2) as [R _]. destruct (R Hv) as [Hv0|[(e & He & ?) _]].
      * destruct (Hr blk_id loc le0 Hk Hle0 Hv0) as (e & He & Hb & Hle1). exists e.
        split; [|split; [done|lia]]. apply elem_of_app. right. apply Rk, Hpq. split; [done|].
        apply Z.nlt_ge. intros Hx. apply Hin, Hids. by exists e.
      * exists e. rewrite elem_of_app. auto.
    + intros e. rewrite Forall_forall in Hein. rewrite Forall_forall in Hidk.
      intros [?|[Hx|?]%Rn]%elem_of_self_invalidate_end%elem_of_app; [by apply Hidk, Hein| |done]. apply Hkn. by apply Hpq in Hx as [? _].
  - cbn. by rewrite (se_mtxs _ _ _ _ Heff2).
  - intros ps3' Hps3. cbn in Hps3. rewrite lookup_insert_eq in Hps3. injection Hps3 as <-. cbn. lia.
Qed.

Lemma own_kept_wr p s s' ps ps' :
  own_kept p s s' → sp_procs s !! p = Some ps → sp_procs s' !! p = Some ps' →
  ws_ext (sp_wr ps) (sp_wr ps') ∧ sp_sig ps' = sp_sig ps ∧ sp_layout ps' = sp_layout ps.
Proof. intros H Hps Hps'. destruct (H ps Hps) as (ps1 & ? & ? & ? & ?). by simplify_eq. Qed.

(** An acquire of [p] that honours the writes of [C]. *)
Record acquires (T p : Z) (C : Z → Z → Prop) (s s' : sspace) : Prop := {
  aq_eff : proc_eff T p s s';
  aq_inv : own_inv T p s';
  aq_mtxs : sp_mtxs s' = sp_mtxs s;
  aq_kept : ∀ b ts, covered p s b ts → covered p s' b ts;
  aq_fresh : ∀ b ts, ft_known layout b → C b ts → fresh P layout p b ts s';
}.

Lemma fresh_intro p b ts loc ps le s :
  known b loc → sp_procs s !! p = Some ps → entry p loc s = Some le →
  ts ≤ le_cur_rd_ts le ∨ is_invalid (le_state le) = true ∧ ts ≤ rs_min_wr_ts (sp_rd ps) →
  fresh P layout p b ts s.
Proof using Hlayout Hflags.
  intros Hk Hps Hle Hf. exists ps, le. by rewrite (entry_of_known _ _ _ _ Hk).
Qed.

Lemma leased_fresh T p b ts s :
  world_ok T s → valid p → ft_known layout b → leased p b ts s → fresh P layout p b ts s.
Proof using Hlayout Hflags.
  intros Hok Hp [loc Hk]%ft_known_loc Hl. destruct (entry_exists T p b loc s Hok Hp Hk) as [le Hle].
  destruct (wo_procs _ _ Hok p Hp) as (ps & Hps & _).
  eapply fresh_intro; [done..|]. left. by eapply Hl.
Qed.

(** Every write up to the minimum write timestamp is honoured. *)
Lemma min_fresh T p b ts ps s :
  world_ok T s → valid p → rd_inv p s → ft_known layout b → sp_procs s !! p = Some ps →
  ts ≤ rs_min_wr_ts (sp_rd ps) → fresh P layout p b ts s.
Proof using Hlayout Hflags.
  intros Hok Hp Hinv [loc Hk]%ft_known_loc Hps Hts. destruct (entry_exists T p b loc s Hok Hp Hk) as [le Hle].
  eapply fresh_intro; [done..|]. destruct (is_invalid (le_state le)) eqn:Hi; [by right|left].
  pose proof (readable_leased T p ps b loc le s Hok Hp Hinv Hps Hk Hle Hi). lia.
Qed.


Lemma acquire_wns_runs T p sig s :
  world_ok T s → valid p → no_pinned p s → next_ts P T < u64_mod → Forall (wn_good s) (wn_vec sig) →
  runs P (acquire_wns P p sig s) (λ s', step_eff T p s s' ∧ no_pinned p s'
    ∧ Forall (λ wn, leased p (wn_blk_id wn) (wn_wr_ts wn) s') (wn_vec sig)).
Proof using Hlayout Hlease.
  intros Hok Hp Hnp HT Hg. destruct (wo_procs _ _ Hok p Hp) as (ps & Hps & _ & _ & Hmin).
  unfold acquire_wns, get_proc. rewrite Hps, bind_Ok. by apply acquire_wns_loop_runs.
Qed.

(** What an acquire of the notices of some signatures and then of their minimum
    write timestamps honours. *)
Lemma acquired_acquires T p m (C : Z → Z → Prop) s s1 s2 :
  world_ok T s → valid p → step_eff T p s s1 → acquired T p m s1 s2 →
  (∀ b ts, C b ts → ts ≤ m ∨ ∃ t, ts ≤ t ∧ leased p b t s1) → acquires T p C s s2.
Proof using Hlayout Hflags.
  intros Hok Hp Heff1 (Heff2 & _ & Hinv2 & Hkept & Hm & Hmin) HC.
  assert (proc_eff T p s s2) as Heff.
  { eapply proc_eff_trans; [done|exact Hok| |exact Heff2]. by apply step_proc_eff. }
  split; [done|done|by rewrite Hm, (se_mtxs _ _ _ _ Heff1)| |].
  - intros b ts Hc ps2 Hps2. destruct (wo_procs _ _ Hok p Hp) as (ps & Hps & _).
    destruct (own_kept_trans _ _ _ _ (step_own_kept _ _ _ _ Heff1) Hkept ps Hps) as (ps' & Hps' & _ & Hsg & _).
    simplify_eq. rewrite Hsg. by apply Hc.
  - intros b ts Hb Hc. pose proof (pe_ok _ _ _ _ Heff2) as Hok2.
    destruct (wo_procs _ _ Hok2 p Hp) as (ps2 & Hps2 & _). destruct (HC b ts Hc) as [Hts|(t & Hts & Hl)].
    + eapply min_fresh; [done..|apply Hinv2|done|done|]. specialize (Hmin ps2 Hps2). lia.
    + eapply leased_fresh; [done..|]. intros loc le2 Hk Hle2.
      destruct (pe_entry _ _ _ _ Heff2 loc le2 Hle2) as (le & Hle & Hmono & _).
      specialize (Hl loc le Hk Hle). lia.
Qed.

Lemma covers_leased p sig b ts s :
  Forall (λ wn, leased p (wn_blk_id wn) (wn_wr_ts wn) s) (wn_vec sig) → covers sig b ts →
  ts ≤ min_wr_ts sig ∨ ∃ t, ts ≤ t ∧ leased p b t s.
Proof.
  intros Hl [?|(w & Hw & <- & Hts)]; [by left|right]. rewrite Forall_forall in Hl.
  exists (wn_wr_ts w). split; [done|]. by apply Hl.
Qed.

Lemma acquire_sig_runs T p sig s :
  world_ok T s → valid p → no_pinned p s → own_inv T p s → next_ts P T < u64_mod →
  0 ≤ min_wr_ts sig ≤ T → Forall (wn_good s) (wn_vec sig) →
  runs P (acquire_sig P p sig s) (acquires T p (covers sig) s).
Proof using Hlayout Hflags Hlease.
  intros Hok Hp Hnp Hinv HT Hm Hg. unfold acquire_sig.
  eapply runs_bind; [by apply (acquire_wns_runs T)|]. intros s1 (Heff1 & Hnp1 & Hl1).
  assert (own_inv T p s1) as Hinv1 by by eapply (own_inv_step T T).
  eapply runs_mono; [apply (acquire_min_runs T); [apply Heff1|done..]|].
  intros s2 Haq. eapply acquired_acquires; [done..|]. intros b ts. by apply covers_leased.
Qed.

Lemma acquires_weaken T p (C C' : Z → Z → Prop) s s' :
  (∀ b ts, C' b ts → C b ts) → acquires T p C s s' → acquires T p C' s s'.
Proof. intros HC []. split; auto. Qed.

(** ** Merging an acquired signature into the release signature *)
Lemma merge_rel_sig_runs T p sig s :
  world_ok T s → valid p → own_inv T p s →
  sig_wf sig → 0 ≤ min_wr_ts sig ≤ T → Forall (wn_good s) (wn_vec sig) →
  runs P (merge_rel_sig P p sig s) (λ s', proc_eff T p s s' ∧ own_inv T p s' ∧ sp_mtxs s' = sp_mtxs s
    ∧ ∀ b ts, 0 ≤ ts → covered p s b ts ∨ covers sig b ts → covered p s' b ts).
Proof using Hlayout.
  intros Hok Hp [Hrd Hwr Hsig] Hwf Hm Hg.
  destruct (wo_procs _ _ Hok p Hp) as (ps & Hps & Hlay & Hrs & Hmin).
  destruct (merge_sig_ok T s (sp_layout ps) (sp_sig ps) sig) as (sig' & st & E & Hst & Hsok & Hcov & _);
    try done; [by apply Hsig|].
  unfold merge_rel_sig, get_proc. rewrite Hps, bind_Ok, E, bind_Ok. cbn [runs].
  set (ps' := ProcSpace st _ _ sig').
  assert (proc_eff T p s (put_proc p ps' s)) as Heff by (eapply put_proc_eff; try done; cbn; lia).
  split; [done|]. split; [|split; [done|]].
  - split; intros ps1 Hps1; rewrite lookup_put in Hps1; injection Hps1 as <-;
      [by apply (Hrd ps)|by apply (Hwr ps)|by eapply sig_ok_later].
  - intros b ts H0 Hc ps1 Hps1. rewrite lookup_put in Hps1. injection Hps1 as <-. apply Hcov; [done|].
    destruct Hc as [Hc|?]; [left; by apply Hc|by right].
Qed.
End inv.

(** The clauses of the records, applied to their proofs. *)
Arguments wo_blks {K M HK P num_procs HLK n layout T s} _.
Arguments wo_known {K M HK P num_procs HLK n layout T s} _.
Arguments wo_procs {K M HK P num_procs HLK n layout T s} _.
Arguments pe_ok {K M HK P num_procs HLK n layout T' p s s'} _.
Arguments pe_procs {K M HK P num_procs HLK n layout T' p s s'} _.
Arguments pe_own {K M HK P num_procs HLK n layout T' p s s'} _.
Arguments pe_ge {K M HK P num_procs HLK n layout T' p s s'} _.
Arguments pe_others {K M HK P num_procs HLK n layout T' p s s'} _.
Arguments pe_entry {K M HK P num_procs HLK n layout T' p s s'} _.
Arguments se_ok {K M HK P num_procs HLK n layout T' p s s'} _.
Arguments se_mtxs {K M HK P num_procs HLK n layout T' p s s'} _.
Arguments se_procs {K M HK P num_procs HLK n layout T' p s s'} _.
Arguments se_own {K M HK P num_procs HLK n layout T' p s s'} _.
Arguments se_ge {K M HK P num_procs HLK n layout T' p s s'} _.
Arguments se_others {K M HK P num_procs HLK n layout T' p s s'} _.
Arguments se_entry {K M HK P num_procs HLK n layout T' p s s'} _.
Arguments so_wf {K M HK P num_procs HLK n layout T s sig} _.
Arguments so_min {K M HK P num_procs HLK n layout T s sig} _.
Arguments so_wns {K M HK P num_procs HLK n layout T s sig} _.
Arguments so_len {K M HK P num_procs HLK n layout T s sig} _.
Arguments oi_rd {K M HK P num_procs HLK n layout T p s} _.
Arguments oi_wr {K M HK P num_procs HLK n layout T p s} _.
Arguments oi_sig {K M HK P num_procs HLK n layout T p s} _.
Arguments fe_eff {K M HK P num_procs HLK n layout T' p s wns s'} _.
Arguments fe_inv {K M HK P num_procs HLK n layout T' p s wns s'} _.
Arguments fe_mtxs {K M HK P num_procs HLK n layout T' p s wns s'} _.
Arguments fe_pin {K M HK P num_procs HLK n layout T' p s wns s'} _.
Arguments fe_wns {K M HK P num_procs HLK n layout T' p s wns s'} _.
Arguments fe_new {K M HK P num_procs HLK n layout T' p s wns s'} _.
Arguments fe_old {K M HK P num_procs HLK n layout T' p s wns s'} _.
Arguments aq_eff {K M HK P num_procs HLK n layout T p C s s'} _.
Arguments aq_inv {K M HK P num_procs HLK n layout T p C s s'} _.
Arguments aq_mtxs {K M HK P num_procs HLK n layout T p C s s'} _.
Arguments aq_kept {K M HK P num_procs HLK n layout T p C s s'} _.
Arguments aq_fresh {K M HK P num_procs HLK n layout T p C s s'} _.
