(* ===== verification/SpaceSys.v ===== *)
(** The address space of all processes: every legal call runs and keeps the
    invariant of the system, and announced writes are honoured.

    SpaceInv.v follows one process; here are the mutexes, the barrier and the
    system. The invariant of the system is the one of its processes with good
    signatures in all mutexes; the happens-before sets of Space.v are related
    to it: the write notices of what happened before a point of a process are
    honoured by the leases of its copies, and passed on by its release
    signature. *)
From Stdlib Require Import ZArith Lia Permutation.
From stdpp Require Import base tactics functions list gmap.
From S2P Require Import Prelude.
From S2P Require Import Policy.
From S2P Require Import SigBuffer.
From S2P Require Import Layout.
From S2P Require Import RdSet.
From S2P Require Import WrSet.
From S2P Require Import BlkDir.
From S2P Require Import BlkData.
From S2P Require Import QueueLock.
From S2P Require Import BlkLock.
From S2P Require Import DataRuns.
From S2P Require Import SegTable.
From S2P Require Import MtxTable.
From S2P Require Import SegLease.
From S2P Require Import Space.
From S2P Require Import SpaceInv.

Section sys.
Context {K M : Type} {HK : GlobalLock header K} {HM : GlobalLock (list Z) M} (P : policy).
Context (num_procs : Z) (mig : bool).
Context {HLK : @GlobalLockLaws header K HK (in_range num_procs) (enable_migration P)}.
Context {HLM : @GlobalLockLaws (list Z) M HM (in_range num_procs) mig}.
Context (Hcfg : config_allowed P = true) (Hdir : use_directory_coherence P = false).
Context (Hlease : 0 ≤ lease_ts P) (n : Z * Z → nat).
Context (layout : seg_table) (Hlayout : layout_wf P layout).
Context (Hflags : flags_are (H := seg_ft P) layout ∅).
Context (sched : nat → list nat) (Hsched : ∀ m, is_schedule m (sched m)).
Context {Hsort : StdSort greater_wn}.
Context (pad : wn_entry → list Z) (uninit : list Z).
#[local] Abbreviation sspace := (space K M).
#[local] Abbreviation valid := (in_range num_procs).
#[local] Abbreviation ft_known := (@ft_known seg_table (seg_ft P)).
#[local] Abbreviation world_ok := (@world_ok K M HK P num_procs HLK n layout).
#[local] Abbreviation proc_eff := (@proc_eff K M HK P num_procs HLK n layout).
#[local] Abbreviation step_eff := (@step_eff K M HK P num_procs HLK n layout).
#[local] Abbreviation wn_good := (@wn_good K M HK P num_procs HLK n layout).
#[local] Abbreviation leased := (@leased K M layout).
#[local] Abbreviation own_inv := (@own_inv K M HK P num_procs HLK n layout).
#[local] Abbreviation sig_ok := (@sig_ok K M HK P num_procs HLK n layout).
#[local] Abbreviation fenced := (@fenced K M HK P num_procs HLK n layout).
#[local] Abbreviation acquires := (@acquires K M HK P num_procs HLK n layout).
#[local] Abbreviation fresh := (@fresh K M P layout).

(** * The system's part of the invariant *)
Record procs_inv (T : Z) (s : sspace) : Prop := {
  pv_world : world_ok T s;
  pv_own : ∀ p, valid p → own_inv T p s;
}.

(** Nothing a process knows is forgotten. *)
Record sys_eff (s s' : sspace) : Prop := {
  ye_good : ∀ wn, wn_good s wn → wn_good s' wn;
  ye_leased : ∀ q b ts, leased q b ts s → leased q b ts s';
  ye_fresh : ∀ q b ts, valid q → ft_known layout b → fresh q b ts s → fresh q b ts s';
  ye_min : ∀ q ps, sp_procs s !! q = Some ps → ∃ ps', sp_procs s' !! q = Some ps'
    ∧ rs_min_wr_ts (sp_rd ps) ≤ rs_min_wr_ts (sp_rd ps');
}.

#[export] Instance sys_eff_preorder : PreOrder sys_eff.
Proof.
  split.
  - intros s. split; auto. intros q ps Hps. exists ps. split; [done|lia].
  - intros s1 s2 s3 [G1 L1 F1 M1] [G2 L2 F2 M2]. split; auto.
    intros q ps (ps1 & Hps1 & H1)%M1. destruct (M2 q ps1 Hps1) as (ps2 & Hps2 & H2).
    exists ps2. split; [done|lia].
Qed.

Lemma proc_sys_eff T p s s' : proc_eff T p s s' → sys_eff s s'.
Proof using Hlayout Hflags.
  intros Heff. split.
  - intros wn. by eapply wn_good_later.
  - intros q b ts Hl loc le' Hk Hle'. destruct (decide (q = p)) as [->|Hne].
    + destruct (pe_entry Heff loc le' Hle') as (le & Hle & Hm & _).
      specialize (Hl loc le Hk Hle). lia.
    + rewrite (pe_others Heff) in Hle' by done. by eapply Hl.
  - intros q b ts Hq [loc Hk]%ft_known_loc. by eapply fresh_mono.
  - intros q ps Hps. destruct (decide (q = p)) as [->|Hne]; [by apply (pe_own Heff)|].
    exists ps. split; [by rewrite (pe_procs Heff)|lia].
Qed.

(** What another process has does not change. *)
Lemma other_own_inv T T' p q s s' :
  T ≤ T' → q ≠ p → proc_eff T' p s s' → own_inv T q s → own_inv T' q s'.
Proof.
  intros HT Hne Heff [Hrd Hwr Hsig]. pose proof (pe_procs Heff q Hne) as Hps. split.
  - intros ps Hq. rewrite Hps in Hq. destruct (Hrd ps Hq) as [Hr Hk]. split; [|done].
    intros b loc le Hkn Hle. rewrite (pe_others Heff) in Hle by done. by eapply Hr.
  - intros ps Hq. rewrite Hps in Hq. destruct (Hwr ps Hq) as (Hwf & Hrel & Hd & Hk).
    split; [done|]. split; [done|]. split; [|done].
    intros b loc le Hkn Hle. rewrite (pe_others Heff) in Hle by done. by eapply Hd.
  - intros ps Hq. rewrite Hps in Hq. eapply sig_ok_later; [done|exact Heff|by apply Hsig].
Qed.

Lemma procs_inv_frame T T' p s s' :
  procs_inv T s → T ≤ T' → proc_eff T' p s s' → own_inv T' p s' → procs_inv T' s'.
Proof.
  intros [Hok Hown] HT Heff Hinv. split; [apply Heff|]. intros q Hq.
  destruct (decide (q = p)) as [->|Hne]; [done|]. by eapply other_own_inv; [..|apply Hown].
Qed.

(** The writes [q] knows are still covered when its signature is the same. *)
Lemma covered_other T p q s s' b ts : q ≠ p → proc_eff T p s s' → covered q s b ts → covered q s' b ts.
Proof. intros Hne Heff Hc ps. rewrite (pe_procs Heff) by done. apply Hc. Qed.

Lemma covered_step T p q s s' b ts :
  world_ok T s → valid p → step_eff T p s s' → covered q s b ts → covered q s' b ts.
Proof.
  intros Hok Hp Heff Hc. destruct (decide (q = p)) as [->|Hne].
  - intros ps' Hps'. destruct (wo_procs Hok p Hp) as (ps & Hps & _).
    destruct (se_own Heff ps Hps) as (ps1 & Hps1 & _ & Hsg & _).
    simplify_eq. rewrite Hsg. by apply Hc.
  - intros ps. rewrite (se_procs Heff) by done. apply Hc.
Qed.

(** * A call, its notices and the two views of it *)
Record call_eff (T' : Z) (s : sspace) (l : list (Z * list wn_entry)) (s' : sspace) : Prop := {
  ce_inv : procs_inv T' s';
  ce_eff : sys_eff s s';
  ce_covered : ∀ q b ts, valid q → 0 ≤ ts → covered q s b ts → covered q s' b ts;
  ce_wns : ∀ q wns wn, valid q → (q, wns) ∈ l → wn ∈ wns →
    wn_good s' wn ∧ leased q (wn_blk_id wn) (wn_wr_ts wn) s' ∧ covered q s' (wn_blk_id wn) (wn_wr_ts wn);
}.

Lemma step_call_eff T T' p s s' :
  procs_inv T s → valid p → T ≤ T' → step_eff T' p s s' → call_eff T' s [] s'.
Proof using Hlayout Hflags.
  intros [Hok Hown] Hp HT Heff. assert (world_ok T' s) as Hok' by (by apply (world_ok_mono P num_procs n layout T)).
  assert (proc_eff T' p s s') as Hpe by (by apply step_proc_eff). split.
  - apply (procs_inv_frame T T' p s s'); [by split|done|done|].
    apply (own_inv_step P num_procs n layout T T' p s); [done|done|done|done|by apply Hown].
  - by eapply proc_sys_eff.
  - intros q b ts _ _. by eapply covered_step.
  - intros q wns wn _ ?%not_elem_of_nil. done.
Qed.

Lemma fence_call_eff T T' p s wns s' :
  procs_inv T s → valid p → T ≤ T' → fenced T' p s wns s' → call_eff T' s [(p, wns)] s'.
Proof using Hlayout Hflags.
  intros Hinv Hp HT Hf. split.
  - eapply procs_inv_frame; [done|done|apply Hf|apply Hf].
  - eapply proc_sys_eff, Hf.
  - intros q b ts Hq H0 Hc. destruct (decide (q = p)) as [->|Hne]; [by apply Hf|].
    eapply covered_other; [done|apply Hf|done].
  - intros q wns' wn Hq [= -> ->]%list_elem_of_singleton Hwn.
    pose proof (fe_wns Hf) as Hw. rewrite Forall_forall in Hw. destruct (Hw wn Hwn) as [Hg Hl].
    split; [done|]. split; [done|]. by apply (fe_new Hf).
Qed.

(** ** The calls on one block *)
Lemma later_ts_1 T : later_ts P T 1 = next_ts P T.
Proof. unfold later_ts, next_ts. lia. Qed.

Lemma later_ts_2 T : later_ts P T 2 = next_ts P (next_ts P T).
Proof. unfold later_ts, next_ts. lia. Qed.

(** What every call without a lock does. *)
Definition plain_eff (T' : Z) (s : sspace) (r : list (Z * list wn_entry) * sspace) : Prop :=
  call_eff T' s r.1 r.2 ∧ sp_mtxs r.2 = sp_mtxs s.

Lemma step_plain_eff T T' p s s' :
  procs_inv T s → valid p → T ≤ T' → step_eff T' p s s' → plain_eff T' s ([], s').
Proof using Hlayout Hflags. intros ? ? ? Heff. split; [by eapply step_call_eff|apply Heff]. Qed.

Lemma read_do_runs T p b s :
  procs_inv T s → valid p → ft_known layout b → later_ts P T 1 < u64_mod →
  runs P (space_do P pad uninit sched num_procs (CRead p b) s) (plain_eff (later_ts P T 1) s).
Proof using Hlayout Hflags Hlease Hdir.
  intros Hinv Hp [loc Hk]%ft_known_loc HT. rewrite later_ts_1 in *. cbn [space_do].
  eapply runs_bind; [by apply (read_call_runs P num_procs Hdir Hlease n layout Hlayout T p b loc s); [apply Hinv|..]|].
  intros [r s'] (Heff & _). eapply step_plain_eff; [done|done| |exact Heff]. unfold next_ts. lia.
Qed.

Lemma write_do_runs T p b s :
  procs_inv T s → valid p → ft_known layout b → later_ts P T 2 < u64_mod →
  runs P (space_do P pad uninit sched num_procs (CWrite p b) s) (plain_eff (later_ts P T 2) s).
Proof using Hlayout Hflags Hlease Hdir Hcfg.
  intros Hinv Hp [loc Hk]%ft_known_loc HT. rewrite later_ts_2 in *. cbn [space_do].
  unfold space_start_write. rewrite bind_assoc.
  eapply runs_bind.
  { apply (seg_write_runs P num_procs Hlease n layout Hlayout T p b loc s); [apply Hinv|done|done|done|].
    intros ps bw ge le Hle Hpre. eapply runs_mono.
    { by apply (seg_start_write_eff P valid Hcfg Hdir Hlease (n loc) T p b (sp_rd ps) (sp_wr ps) bw ge le). }
    intros [[[[r w] rs] ws] b'] (ge' & le' & ? & ? & ? & _). by exists ge', le'. }
  intros [[r w] s'] (Heff & _). eapply step_plain_eff; [done|done| |exact Heff]. unfold next_ts. lia.
Qed.

Lemma pin_do_runs T p b s :
  procs_inv T s → valid p → ft_known layout b →
  (∀ le, entry_of P layout p b s = Some le → le_state le ≠ pinned) → later_ts P T 2 < u64_mod →
  runs P (space_do P pad uninit sched num_procs (CPin p b) s) (plain_eff (later_ts P T 2) s).
Proof using Hlayout Hflags Hlease Hdir Hcfg.
  intros Hinv Hp [loc Hk]%ft_known_loc Hnp HT. rewrite later_ts_2 in *. cbn [space_do].
  rewrite (entry_of_known P layout Hlayout Hflags p b loc s Hk) in Hnp.
  unfold pin_block. rewrite bind_assoc.
  eapply runs_bind.
  { apply (seg_write_runs P num_procs Hlease n layout Hlayout T p b loc s); [apply Hinv|done|done|done|].
    intros ps bw ge le Hle Hpre. eapply runs_mono.
    { apply (seg_pin_eff P valid Hcfg Hdir Hlease (n loc) T p b (sp_rd ps) (sp_wr ps) bw ge le); [done|done|by apply Hnp]. }
    intros [[[[r w] rs] ws] b'] (ge' & le' & ? & ? & ?). exists ge', le'. auto. }
  intros [[r w] s'] (Heff & _). eapply step_plain_eff; [done|done| |exact Heff]. unfold next_ts. lia.
Qed.

Lemma put_writable_eff T p b ps s :
  world_ok T s → valid p → ft_known layout b → sp_procs s !! p = Some ps →
  step_eff T p s (put_proc p (ProcSpace (sp_layout ps) (sp_rd ps) (add_writable b (sp_wr ps)) (sp_sig ps)) s).
Proof.
  intros Hok Hp Hb Hps. destruct (wo_procs Hok p Hp) as (ps0 & Hps0 & Hl & Hrs & Hm). simplify_eq.
  set (ps' := ProcSpace _ _ (add_writable b _) _).
  pose proof (put_proc_eff P num_procs n layout T p ps ps' s Hok Hp Hps Hl Hrs ltac:(cbn; lia)) as Heff.
  split; [apply Heff|done|apply Heff| |apply Heff|apply Heff|].
  - intros ps0 Hps0. simplify_eq. exists ps'. split; [apply lookup_put|]. cbn.
    split_and!; try done; [apply rs_ext_refl|by apply ws_ext_add].
  - intros loc le' Hle'. exists le'. split; [done|]. split; [lia|]. auto.
Qed.

Lemma unpin_do_runs T p b s :
  procs_inv T s → valid p → ft_known layout b →
  (∀ le, entry_of P layout p b s = Some le → le_state le = pinned) → T < u64_mod →
  runs P (space_do P pad uninit sched num_procs (CUnpin p b) s) (plain_eff T s).
Proof using Hlayout Hflags.
  intros Hinv Hp Hb Hpin HT. destruct (ft_known_loc P layout b Hb) as [loc Hk]. cbn [space_do].
  rewrite (entry_of_known P layout Hlayout Hflags p b loc s Hk) in Hpin.
  pose proof (pv_world _ _ Hinv) as Hok. unfold unpin_block. rewrite bind_assoc.
  eapply runs_bind.
  { apply (seg_call_runs P num_procs n layout Hlayout T T p b loc _ s (λ _ _ _ _ _ _ _, True)); [done..|].
    intros ps bw ge le Hps Hbw Hle Hpre. specialize (Hpin le Hle).
    eapply runs_bind; [by apply (seg_unpin_eff P valid (n loc) T p b (sp_rd ps) bw ge le)|].
    intros bw' (le' & Heff & Hw). exists ge, le'. split; [done|]. split; [apply ws_ext_refl|].
    split; [|done]. intros _. left. by rewrite Hpin. }
  intros [u s1] (Heff & _). destruct (wo_procs (se_ok Heff) p Hp) as (ps & Hps & _).
  unfold get_proc. rewrite Hps. cbn [mbind result_bind runs].
  eapply step_plain_eff; [done|done|done|].
  eapply step_eff_trans; [done|exact Hok|exact Heff|]. apply put_writable_eff; [apply Heff|done..].
Qed.

Lemma store_do_runs T p b off v s m :
  procs_inv T s → valid p → ft_known layout b → 0 ≤ v < 256 → mem_of P layout p b s = Some m →
  bm_prot m = ProtReadWrite → (off < length (bm_priv m))%nat →
  runs P (space_do P pad uninit sched num_procs (CStore p b off v) s) (plain_eff T s).
Proof using Hlayout Hflags.
  intros Hinv Hp Hb Hv Hmem Hprot Hoff. destruct (ft_known_loc P layout b Hb) as [loc Hk].
  pose proof (pv_world _ _ Hinv) as Hok. cbn [space_do]. unfold app_store. rewrite bind_assoc.
  destruct (locate_known P layout Hlayout layout b loc (layout_ok_self P layout Hflags) Hk) as [t Eloc].
  unfold mem_of in Hmem. rewrite Eloc, <-surjective_pairing in Hmem.
  apply bind_Some in Hmem as (bw & Hbw & Hmem). eapply runs_bind.
  { apply (seg_call_runs P num_procs n layout Hlayout T T p b loc _ s (λ _ _ _ _ _ _ _, True)); [done..|].
    intros ps bw' ge le Hps Hbw' Hle Hpre. simplify_eq.
    eapply runs_bind; [by apply (blk_store_eff P num_procs n T p b loc off v (sp_rd ps) bw ge le m)|].
    intros bw' Heff. exists ge, le. split; [done|]. split; [apply ws_ext_refl|]. split; [by left|done]. }
  intros [u s1] (Heff & _). cbn [mbind result_bind runs]. by eapply step_plain_eff.
Qed.

(** ** Mutexes *)
Lemma set_mtxs_world T t s : world_ok T s → world_ok T (set_mtxs t s).
Proof. intros []. by split. Qed.

Lemma set_mtxs_own T p t s : own_inv T p s → own_inv T p (set_mtxs t s).
Proof.
  intros [Hrd Hwr Hsig]. split; [done|done|]. intros ps Hps. destruct (Hsig ps Hps). by split.
Qed.

Lemma set_mtxs_eff T p t s : world_ok T s → proc_eff T p s (set_mtxs t s).
Proof.
  intros Hok. destruct (proc_eff_refl P num_procs n layout T p s Hok).
  split; [by apply set_mtxs_world|done..].
Qed.

#[local] Abbreviation mtxs_ok := (mtx_table_ok (HLaws := HLM) (length uninit)).

(** What a lock of a free mutex with signature [sig] does. *)
Definition lock_eff (T p mtx_id : Z) (sig : sig_buffer) (m : mtx_spec) (s : sspace)
    (r : list (Z * list wn_entry) * sspace) : Prop :=
  r.1 = [] ∧ call_eff T s [] r.2 ∧ mtxs_ok (sp_mtxs r.2) (<[mtx_id := (Some p, sig)]> m)
  ∧ (∀ b ts, ft_known layout b → covers sig b ts → fresh p b ts r.2)
  ∧ ∀ b ts, 0 ≤ ts → covers sig b ts → covered p r.2 b ts.

Lemma lock_do_runs T p i sig m s :
  procs_inv T s → valid p → no_pinned p s → mtxs_ok (sp_mtxs s) m → m !! i = Some (None, sig) →
  sig_ok T s sig → next_ts P T < u64_mod →
  runs P (space_do P pad uninit sched num_procs (CLock p i) s) (lock_eff T p i sig m s).
Proof using Hlayout Hflags Hlease.
  intros Hinv Hp Hnp Hm Hi Hsig HT. pose proof Hinv as [Hok Hown]. cbn [space_do]. unfold lock_mutex.
  destruct (mtx_lock_ok (HLaws := HLM) (length uninit) _ m p i sig Hp Hm Hi) as (t & El & Ht).
  rewrite El, bind_Ok, bind_assoc. set (s0 := set_mtxs t s).
  pose proof (set_mtxs_world T t s Hok) as Hok0. pose proof (set_mtxs_eff T p t s Hok) as Heff0.
  assert (Forall (wn_good s0) (wn_vec sig)) as Hg0.
  { eapply Forall_impl; [apply (so_wns Hsig)|]. intros w. by eapply wn_good_later. }
  eapply runs_bind.
  { apply (acquire_sig_runs P num_procs Hlease n layout Hlayout Hflags T p sig s0); try done;
      [by apply set_mtxs_own, Hown|apply (so_min Hsig)]. }
  intros s1 [Heff1 Hinv1 Hm1 Hk1 Hf1]. rewrite bind_assoc. pose proof (pe_ok Heff1) as Hok1.
  assert (Forall (wn_good s1) (wn_vec sig)) as Hg1.
  { eapply Forall_impl; [exact Hg0|]. intros w. by eapply wn_good_later. }
  eapply runs_bind.
  { apply (merge_rel_sig_runs P num_procs n layout Hlayout T p sig s1); try done; apply Hsig. }
  intros s2 (Heff2 & Hinv2 & Hm2 & Hc2). cbn [mbind result_bind runs].
  assert (proc_eff T p s s2) as Heff.
  { eapply proc_eff_trans; [done|exact Hok| |exact Heff2].
    eapply proc_eff_trans; [done|exact Hok|exact Heff0|done]. }
  split; [done|]. split; [|split; [|split]].
  - split.
    + by eapply procs_inv_frame.
    + by eapply proc_sys_eff.
    + intros q b ts Hq H0 Hc. destruct (decide (q = p)) as [->|Hne]; [|by eapply covered_other].
      apply Hc2; [done|left]. by apply Hk1.
    + intros q wns wn _ ?%not_elem_of_nil. done.
  - cbn. by rewrite Hm2, Hm1.
  - intros b ts Hb Hc. destruct (ft_known_loc P layout b Hb) as [loc Hk].
    eapply fresh_mono; [done..|exact Heff2|]. by apply Hf1.
  - intros b ts H0 Hc. apply Hc2; auto.
Qed.

(** ** Signatures on the wire *)
Lemma wn_good_known s wn : wn_good s wn → ft_known layout (wn_blk_id wn).
Proof using Hlayout. intros (_ & loc & ge & Hk & _). by eapply known_ft. Qed.

Lemma wn_good_rd_ts T s wn : world_ok T s → wn_good s wn → wn_wr_ts wn ≤ wn_rd_ts wn ≤ T.
Proof.
  intros Hok (H0 & loc & ge & Hk & (b & Hb & Hat) & [_ Hl]).
  destruct (wo_blks Hok loc b Hb) as [ge' Hco].
  rewrite (ge_of_fun P num_procs n loc s ge ge') in Hl; [|by exists b|by exists b; split; [|apply Hco]].
  destruct (co_ts _ _ _ _ _ _ Hco) as [_ ?]. lia.
Qed.

Lemma known_u64 b : ft_known layout b → is_u64 b.
Proof using Hlayout.
  intros [_ (i & t & pos & [Ht Hpos ->])].
  pose proof (lw_tables P layout Hlayout i t Ht) as Hw.
  enough (0 ≤ bt_priv_app_ptr t + pos * bt_blk_size t < 2 ^ 63) by (unfold is_u64, u64_mod; lia).
  apply (seg_addr P layout Hlayout i t _ Ht). destruct Hw. nia.
Qed.

(** ** What the processes send each other *)
Lemma set_mtxs_procs_inv T t s : procs_inv T s → procs_inv T (set_mtxs t s).
Proof. intros [Hok Hown]. split; [by apply set_mtxs_world|]. intros p Hp. by apply set_mtxs_own, Hown. Qed.

Lemma set_mtxs_call_eff T l t s s' : call_eff T s l s' → call_eff T s l (set_mtxs t s').
Proof.
  intros [Hinv [Hg Hl Hf Hm] Hc Hw]. split; [by apply set_mtxs_procs_inv|by split|done|done].
Qed.

(** A serialized signature that covers the writes of [C]. *)
Definition sends (T : Z) (s : sspace) (buf : list Z) (C : Z → Z → Prop) : Prop :=
  ∃ sig, deserialize_from buf (get_max_size_in_bytes P) = Ok sig ∧ 0 ≤ min_wr_ts sig ≤ T
    ∧ Forall (wn_good s) (wn_vec sig) ∧ ∀ b ts, C b ts → covers sig b ts.

(** The writes [p] knows or has just published. *)
Definition knows (p : Z) (s : sspace) (wns : list wn_entry) (b ts : Z) : Prop :=
  0 ≤ ts ∧ covered p s b ts ∨ ∃ wn, wn ∈ wns ∧ wn_blk_id wn = b ∧ wn_wr_ts wn = ts.

Lemma sends_later T T' s s' buf C : T ≤ T' → sys_eff s s' → sends T s buf C → sends T' s' buf C.
Proof.
  intros HT Heff (sig & E & Hm & Hg & Hc). exists sig. split; [done|]. split; [lia|]. split; [|done].
  eapply Forall_impl; [exact Hg|]. apply (ye_good _ _ Heff).
Qed.

Lemma no_pinned_other T p q s s' : q ≠ p → proc_eff T p s s' → no_pinned q s → no_pinned q s'.
Proof.
  rewrite !no_pinned_entry. intros Hne Heff Hn loc le Hle. rewrite (pe_others Heff) in Hle by done. by eapply Hn.
Qed.

Lemma later_ts_add T a b : later_ts P (later_ts P T a) b = later_ts P T (a + b).
Proof. unfold later_ts. lia. Qed.

Lemma knows_other q s s' wns b ts :
  sp_procs s' !! q = sp_procs s !! q → knows q s wns b ts → knows q s' wns b ts.
Proof. intros Hps [[H0 Hc]|?]; [left|by right]. split; [done|]. intros ps. rewrite Hps. apply Hc. Qed.

Lemma sends_weaken T s buf (C C' : Z → Z → Prop) :
  (∀ b ts, C' b ts → C b ts) → sends T s buf C → sends T s buf C'.
Proof. intros HC (sig & ? & ? & ? & ?). exists sig. split_and!; auto; lia. Qed.

#[local] Abbreviation dirty_sum procs s := (foldr (λ (p k : Z), num_dirty p s + k) 0 procs).

Lemma dirty_sum_nonneg procs (s : sspace) : 0 ≤ dirty_sum procs s.
Proof. induction procs as [|p procs IH]; cbn; [lia|]. pose proof (num_dirty_nonneg p s). lia. Qed.

Lemma dirty_sum_same p procs (s s' : sspace) :
  p ∉ procs → (∀ q, q ≠ p → sp_procs s' !! q = sp_procs s !! q) →
  dirty_sum procs s' = dirty_sum procs s.
Proof.
  intros Hp Hs. induction procs as [|q procs IH]; [done|]. cbn.
  apply not_elem_of_cons in Hp as [Hne Hp]. rewrite IH by done. unfold num_dirty. by rewrite (Hs q) by done.
Qed.

Section wire.
Context (Hprocs : num_procs ≤ 2 ^ 31).
Context (Hfit : is_u64 (sizeof_header + Z.of_nat (max_rel_sig_len P) * sizeof_wn_entry)).
Context (pad_length : ∀ wn, length (pad wn) = 4%nat).
Context (uninit_length : Z.of_nat (length uninit) = get_max_size_in_bytes P).

Lemma sig_fits T s sig :
  world_ok T s → T < u64_mod → sig_ok T s sig →
  sig_in_range sig ∧ get_size_in_bytes (Z.of_nat (length (wn_vec sig))) ≤ get_max_size_in_bytes P.
Proof using Hlayout Hprocs Hfit uninit_length.
  intros Hok HT [Hwf Hmin Hg Hlen]. unfold get_max_size_in_bytes, get_size_in_bytes.
  assert (is_u64 (sizeof_header + Z.of_nat (length (wn_vec sig)) * sizeof_wn_entry)) as Hsz.
  { unfold is_u64, sizeof_header, sizeof_wn_entry in *. lia. }
  rewrite !u64_small by done. split; [|unfold sizeof_wn_entry; lia].
  split; [unfold is_u64; lia| |done]. eapply Forall_impl; [exact Hg|]. intros w Hw.
  pose proof (wn_good_rd_ts T s w Hok Hw) as Hr. pose proof (proj1 Hw) as H0.
  destruct Hw as (_ & loc & ge & Hk & _ & [Hh _]). unfold in_range in Hh. split; try (unfold is_u64; lia).
  apply known_u64. by eapply known_ft.
Qed.

(** ** Unlocking *)
Definition unlock_eff (T' p mtx_id : Z) (m : mtx_spec) (s : sspace)
    (r : list (Z * list wn_entry) * sspace) : Prop :=
  (∃ wns, r.1 = [(p, wns)]) ∧ call_eff T' s r.1 r.2
  ∧ mtxs_ok (sp_mtxs r.2) (<[mtx_id := (None, sig_of p r.2)]> m).

Lemma unlock_do_runs T p i sig0 m s (T' := later_ts P T (num_dirty p s)) :
  procs_inv T s → valid p → mtxs_ok (sp_mtxs s) m → m !! i = Some (Some p, sig0) → T' < u64_mod →
  runs P (space_do P pad uninit sched num_procs (CUnlock p i) s) (unlock_eff T' p i m s).
Proof using Hlayout Hflags Hlease Hcfg Hsched Hprocs Hfit pad_length uninit_length.
  intros Hinv Hp Hm Hi HT. pose proof Hinv as [Hok Hown]. cbn [space_do]. unfold unlock_mutex.
  rewrite bind_assoc. eapply runs_bind.
  { by apply (fence_release_runs P num_procs Hcfg Hlease n layout Hlayout sched Hsched T p s Hok Hp (Hown p Hp)). }
  intros [wns s1] Hf.
  assert (call_eff T' s [(p, wns)] s1) as Hce.
  { eapply fence_call_eff; [exact Hinv|done|by apply later_ts_ge, num_dirty_nonneg|done]. }
  destruct (ce_inv _ _ _ _ Hce) as [Hok1 Hown1]. destruct (wo_procs Hok1 p Hp) as (ps1 & Hps1 & _).
  pose proof (oi_sig (Hown1 p Hp) ps1 Hps1) as Hsig.
  destruct (sig_fits T' s1 (sp_sig ps1) Hok1 HT Hsig) as [Hr Hs].
  unfold get_proc. rewrite Hps1, bind_assoc, bind_Ok. cbn [get_sig]. rewrite bind_assoc.
  rewrite <-(fe_mtxs Hf) in Hm.
  destruct (mtx_unlock_ok (HLaws := HLM) pad pad_length (length uninit) uninit eq_refl
    (sp_mtxs s1) m p i sig0 (sp_sig ps1)) as (t & Et & Ht); [|done|done|].
  { split; [done|]. split; [done|]. by rewrite uninit_length. }
  rewrite Et. cbn [mbind result_bind runs]. split; [by exists wns|]. split.
  - by apply set_mtxs_call_eff.
  - cbn. unfold sig_of. cbn. by rewrite Hps1.
Qed.

(** ** Barrier: the releases *)

(** The release of one process and its contribution to the all-gather. *)
Record contributes (T' p : Z) (s : sspace) (wns : list wn_entry) (buf : list Z) (s' : sspace) : Prop := {
  ct_eff : proc_eff T' p s s';
  ct_inv : own_inv T' p s';
  ct_mtxs : sp_mtxs s' = sp_mtxs s;
  ct_pin : no_pinned p s → no_pinned p s';
  ct_buf : sends T' s' buf (knows p s wns);
  ct_wns : Forall (λ wn, wn_good s' wn ∧ leased p (wn_blk_id wn) (wn_wr_ts wn) s') wns;
}.

Lemma barrier_release_runs T p s (T' := later_ts P T (num_dirty p s)) :
  procs_inv T s → valid p → T' < u64_mod →
  runs P (barrier_release P pad uninit sched p s) (λ '(wns, buf, s'), contributes T' p s wns buf s').
Proof using Hlayout Hflags Hlease Hcfg Hsched Hprocs Hfit pad_length uninit_length.
  intros Hinv Hp HT. pose proof Hinv as [Hok Hown]. unfold barrier_release.
  eapply runs_bind.
  { by apply (fence_release_runs P num_procs Hcfg Hlease n layout Hlayout sched Hsched T p s Hok Hp (Hown p Hp)). }
  intros [wns s1] Hf. pose proof (pe_ok (fe_eff Hf)) as Hok1. pose proof (fe_inv Hf) as [Hrd1 Hwr1 Hsig1].
  destruct (wo_procs Hok1 p Hp) as (ps1 & Hps1 & Hlay1 & Hrs1 & Hmin1).
  pose proof (Hsig1 ps1 Hps1) as Hsig. destruct (sig_fits T' s1 (sp_sig ps1) Hok1 HT Hsig) as [Hr Hs].
  destruct (serialize_correct pad pad_length (sp_sig ps1) uninit (get_max_size_in_bytes P) Hr) as (buf & Eb & _ & Ed);
    [done|done|].
  unfold get_proc, serialize_and_clear. rewrite Hps1, bind_Ok, Eb. cbn [mbind result_bind runs].
  set (ps' := ProcSpace _ _ _ empty_sig).
  assert (proc_eff T' p s1 (put_proc p ps' s1)) as Heff1.
  { eapply put_proc_eff; [done|done|exact Hps1|done|done|cbn; lia]. }
  split.
  - eapply proc_eff_trans; [done|exact Hok|apply Hf|done].
  - split; intros ps Hps; rewrite lookup_put in Hps; injection Hps as <-;
      [by apply (Hrd1 ps1)|by apply (Hwr1 ps1)|].
    split; cbn; [split; cbn; constructor|lia|constructor|lia].
  - apply (fe_mtxs Hf).
  - intros Hn. by apply (fe_pin Hf).
  - exists (sp_sig ps1). split; [done|]. split; [apply (so_min Hsig)|]. split.
    + eapply Forall_impl; [apply (so_wns Hsig)|]. intros w. by eapply wn_good_later.
    + intros b ts [[H0 Hc]|(wn & Hwn & <- & <-)]; [by apply (fe_old Hf)|by apply (fe_new Hf)].
  - eapply Forall_impl; [apply (fe_wns Hf)|]. intros w [Hg Hl]. split; [by eapply wn_good_later|done].
Qed.

(** All of them, one after the other. *)
Record contributed (T' : Z) (procs : list Z) (s : sspace) (l : list (Z * list wn_entry))
    (bufs : list (Z * list Z)) (s' : sspace) : Prop := {
  cd_inv : procs_inv T' s';
  cd_eff : sys_eff s s';
  cd_mtxs : sp_mtxs s' = sp_mtxs s;
  cd_pin : ∀ q, no_pinned q s → no_pinned q s';
  cd_keys : bufs.*1 = procs;
  cd_buf : ∀ q buf, (q, buf) ∈ bufs → sends T' s' buf (λ _ _, False);
  cd_knows : ∀ q wns, (q, wns) ∈ l → ∃ buf, (q, buf) ∈ bufs ∧ sends T' s' buf (knows q s wns);
  cd_procs : l.*1 = procs;
  cd_wns : ∀ q wns wn, (q, wns) ∈ l → wn ∈ wns → wn_good s' wn ∧ leased q (wn_blk_id wn) (wn_wr_ts wn) s';
}.

Lemma barrier_releases_runs procs T s (T' := later_ts P T (dirty_sum procs s)) :
  procs_inv T s → Forall valid procs → NoDup procs → T' < u64_mod →
  runs P (barrier_releases P pad uninit sched procs s) (λ '(l, bufs, s'), contributed T' procs s l bufs s').
Proof using Hlayout Hflags Hlease Hcfg Hsched Hprocs Hfit pad_length uninit_length.
  intros Hinv Hv Hnd HT. subst T'. revert T s Hinv HT.
  induction procs as [|p procs IH]; intros T s Hinv HT; cbn [barrier_releases foldr].
  { cbn. unfold later_ts in *. rewrite Z.mul_0_l, Z.add_0_r in *.
    split; try done; intros *; by rewrite ?elem_of_nil. }
  apply Forall_cons in Hv as [Hp Hv]. apply NoDup_cons in Hnd as [Hpn Hnd]. cbn [foldr] in HT.
  pose proof (num_dirty_nonneg p s) as Hd0. pose proof (dirty_sum_nonneg procs s) as Hds.
  set (T1 := later_ts P T (num_dirty p s)).
  assert (T ≤ T1) as HTle by by apply later_ts_ge.
  rewrite <-later_ts_add in *. fold T1 in HT |- *.
  assert (T1 ≤ later_ts P T1 (dirty_sum procs s)) as HTle1 by by apply later_ts_ge.
  eapply runs_bind; [apply (barrier_release_runs T p s); [done|done|fold T1; lia]|].
  fold T1. intros [[wns buf] s1] Hc. pose proof (ct_eff _ _ _ _ _ _ Hc) as Heff.
  pose proof (procs_inv_frame T T1 p s s1 Hinv HTle Heff (ct_inv _ _ _ _ _ _ Hc)) as Hinv1.
  pose proof (dirty_sum_same p procs s s1 Hpn (pe_procs Heff)) as Esum. rewrite <-Esum in *.
  eapply runs_bind; [apply (IH Hv Hnd T1 s1); [done|lia]|].
  intros [[l bufs] s2] [Hinv2 Heff2 Hm2 Hpin2 Hk2 Hb2 Hkn2 Hl2 Hw2]. cbn [runs].
  set (T2 := later_ts P T1 _) in *.
  assert (sends T2 s2 buf (knows p s wns)) as Hsend.
  { eapply (sends_later T1 T2); [lia|exact Heff2|apply Hc]. }
  split.
  - done.
  - etrans; [by eapply proc_sys_eff|done].
  - by rewrite Hm2, (ct_mtxs _ _ _ _ _ _ Hc).
  - intros q Hn. apply Hpin2. destruct (decide (q = p)) as [->|Hne]; [by apply Hc|].
    by eapply no_pinned_other.
  - cbn. by rewrite Hk2.
  - intros q b [[= -> ->]|Hin]%elem_of_cons; [by eapply sends_weaken|by eapply Hb2].
  - intros q w [[= -> ->]|Hin]%elem_of_cons.
    + exists buf. split; [by left|done].
    + destruct (Hkn2 q w Hin) as (b & Hb & Hs). exists b. split; [by right|].
      eapply sends_weaken; [|exact Hs]. intros b' ts. apply knows_other, (pe_procs Heff).
      intros ->. apply Hpn. rewrite <-Hl2. apply list_elem_of_fmap. by exists (p, w).
  - cbn. by rewrite Hl2.
  - intros q w wn [[= -> ->]|Hin]%elem_of_cons Hwn; [|by eapply Hw2].
    pose proof (ct_wns _ _ _ _ _ _ Hc) as Hw. rewrite Forall_forall in Hw. destruct (Hw wn Hwn) as [Hg Hl].
    split; [by apply (ye_good _ _ Heff2)|by apply (ye_leased _ _ Heff2)].
Qed.
End wire.

(** ** Barrier: the acquires *)

(** The gathered signatures, which the processes sent. *)
Definition gathered (T : Z) (s : sspace) (bufs : list (Z * list Z)) : Prop :=
  ∀ q buf, (q, buf) ∈ bufs → sends T s buf (λ _ _, False).

(** A signature another process than [p] sent covers the write. *)
Definition told (p : Z) (bufs : list (Z * list Z)) (b ts : Z) : Prop :=
  ∃ q buf sig, (q, buf) ∈ bufs ∧ q ≠ p
    ∧ deserialize_from buf (get_max_size_in_bytes P) = Ok sig ∧ covers sig b ts.

Definition good_sig (T : Z) (s : sspace) (sig : sig_buffer) : Prop :=
  0 ≤ min_wr_ts sig ≤ T ∧ Forall (wn_good s) (wn_vec sig).

Lemma good_sig_step T p s s' sig : step_eff T p s s' → good_sig T s sig → good_sig T s' sig.
Proof.
  intros Heff [Hm Hg]. split; [done|]. eapply Forall_impl; [exact Hg|]. intros w. by eapply wn_good_mono.
Qed.

Lemma barrier_sigs_ok T s p bufs :
  gathered T s bufs → ∃ sigs, barrier_sigs P p bufs = Ok sigs ∧ Forall (good_sig T s) sigs
    ∧ ∀ b ts, told p bufs b ts → ∃ sig, sig ∈ sigs ∧ covers sig b ts.
Proof.
  induction bufs as [|[q buf] bufs IH]; intros Hg.
  { exists []. split; [done|]. split; [done|]. intros b ts (q & buf & sig & ?%not_elem_of_nil & _). done. }
  destruct IH as (sigs & E & Hs & Ht); [intros q' b' ?; apply (Hg q'); by right|].
  destruct (Hg q buf ltac:(by left)) as (sig & Ed & Hm & Hw & _).
  cbn [barrier_sigs]. rewrite E, bind_Ok. destruct (Z.eqb_spec q p) as [->|Hne]; cbn [negb].
  - exists sigs. split; [done|]. split; [done|].
    intros b ts (q' & buf' & sig' & [[= -> ->]|Hin]%elem_of_cons & Hne & Ed' & Hc); [done|].
    apply Ht. by exists q', buf', sig'.
  - rewrite Ed, bind_Ok. exists (sig :: sigs). split; [done|]. split; [by constructor|].
    intros b ts (q' & buf' & sig' & [[= -> ->]|Hin]%elem_of_cons & Hne' & Ed' & Hc).
    + exists sig. split; [by left|]. rewrite Ed in Ed'. by injection Ed' as ->.
    + destruct (Ht b ts) as (x & Hx & Hcx); [by exists q', buf', sig'|]. exists x. split; [by right|done].
Qed.

Lemma acquire_all_wns_runs T p sigs s :
  world_ok T s → valid p → no_pinned p s → next_ts P T < u64_mod → Forall (good_sig T s) sigs →
  runs P (acquire_all_wns P p sigs s) (λ s', step_eff T p s s' ∧ no_pinned p s'
    ∧ Forall (λ sig, Forall (λ wn, leased p (wn_blk_id wn) (wn_wr_ts wn) s') (wn_vec sig)) sigs).
Proof using Hlayout Hlease.
  intros Hok Hp Hnp HT Hg. revert s Hok Hnp Hg.
  induction sigs as [|sig sigs IH]; intros s Hok Hnp Hg; cbn [acquire_all_wns].
  { cbn. split; [by apply step_eff_refl|done]. }
  apply Forall_cons in Hg as [Hg Hgs].
  eapply runs_bind; [by apply (acquire_wns_runs P num_procs Hlease n layout Hlayout T p sig s); [..|apply Hg]|].
  intros s1 (Heff1 & Hnp1 & Hl1). eapply runs_mono.
  { apply (IH s1); [apply Heff1|done|]. eapply Forall_impl; [exact Hgs|]. intros x. by eapply good_sig_step. }
  intros s2 (Heff2 & Hnp2 & Hl2). split; [by eapply step_eff_trans|]. split; [done|].
  constructor; [|done]. eapply Forall_impl; [exact Hl1|]. intros w. by eapply leased_mono.
Qed.

Lemma max_min_wr_ts T s sigs (m := foldr (λ sig m, min_wr_ts sig `max` m) 0 sigs) :
  0 ≤ T → Forall (good_sig T s) sigs → 0 ≤ m ≤ T ∧ ∀ sig, sig ∈ sigs → min_wr_ts sig ≤ m.
Proof.
  intros HT. subst m. induction 1 as [|sig sigs [Hm _] _ [IHm IH]]; cbn.
  { split; [lia|]. by intros ? ?%not_elem_of_nil. }
  split; [lia|]. intros x [->|Hx]%elem_of_cons; [lia|]. specialize (IH x Hx). lia.
Qed.

Lemma barrier_acquire_runs T p bufs s :
  procs_inv T s → valid p → no_pinned p s → next_ts P T < u64_mod → gathered T s bufs →
  runs P (barrier_acquire P p bufs s) (acquires T p (told p bufs) s).
Proof using Hlayout Hflags Hlease.
  intros [Hok Hown] Hp Hnp HT Hg. destruct (wo_procs Hok p Hp) as (ps & _ & _ & _ & Hmin).
  destruct (barrier_sigs_ok T s p bufs Hg) as (sigs & E & Hs & Ht).
  unfold barrier_acquire. rewrite E, bind_Ok.
  destruct (max_min_wr_ts T s sigs ltac:(lia) Hs) as [Hm Hmax].
  set (m := foldr _ 0 sigs) in *.
  eapply runs_bind; [by apply (acquire_all_wns_runs T p sigs s)|]. intros s1 (Heff1 & Hnp1 & Hl1).
  assert (own_inv T p s1) as Hinv1.
  { apply (own_inv_step P num_procs n layout T T p s); [done|done|done|done|by apply Hown]. }
  eapply runs_mono.
  { apply (acquire_min_runs P num_procs Hlease n layout Hlayout T p m s1); [apply Heff1|done..]. }
  intros s2 Haq. eapply acquired_acquires; [done|done|exact Hok|done|exact Heff1|exact Haq|].
  intros b ts (sig & Hsig & Hc)%Ht. rewrite Forall_forall in Hl1.
  destruct (covers_leased layout p sig b ts s1 (Hl1 sig Hsig) Hc) as [?|?]; [left|by right].
  specialize (Hmax sig Hsig). lia.
Qed.

Lemma gathered_later T s s' bufs : sys_eff s s' → gathered T s bufs → gathered T s' bufs.
Proof. intros Heff Hg q buf Hin. eapply sends_later; [|exact Heff|by eapply Hg]. lia. Qed.

Lemma barrier_acquires_runs T procs bufs s :
  procs_inv T s → Forall valid procs → NoDup procs → (∀ p, p ∈ procs → no_pinned p s) →
  next_ts P T < u64_mod → gathered T s bufs →
  runs P (barrier_acquires P procs bufs s) (λ s', procs_inv T s' ∧ sys_eff s s' ∧ sp_mtxs s' = sp_mtxs s
    ∧ ∀ p b ts, p ∈ procs → ft_known layout b → told p bufs b ts → fresh p b ts s').
Proof using Hlayout Hflags Hlease.
  intros Hinv Hv Hnd Hnp HT Hg. revert s Hinv Hnp Hg.
  induction procs as [|p procs IH]; intros s Hinv Hnp Hg; cbn [barrier_acquires].
  { cbn. split; [done|]. split; [done|]. split; [done|]. by intros ? ? ? ?%not_elem_of_nil. }
  apply Forall_cons in Hv as [Hp Hv]. apply NoDup_cons in Hnd as [Hpn Hnd].
  eapply runs_bind; [apply (barrier_acquire_runs T p bufs s); [done|done|apply Hnp; by left|done|done]|].
  intros s1 Haq. pose proof (aq_eff Haq) as Heff.
  assert (sys_eff s s1) as Hsys by by eapply proc_sys_eff.
  eapply runs_mono.
  { apply (IH Hv Hnd s1).
    - by apply (procs_inv_frame T T p s s1); [..|apply Haq].
    - intros q Hq. eapply no_pinned_other; [|exact Heff|apply Hnp; by right]. by intros ->.
    - by eapply gathered_later. }
  intros s2 (Hinv2 & Hsys2 & Hm2 & Hf2). split; [done|]. split; [by etrans|].
  split; [by rewrite Hm2, (aq_mtxs Haq)|].
  intros q b ts [->|Hq]%elem_of_cons Hb Ht; [|by apply Hf2].
  apply (ye_fresh _ _ Hsys2); [done|done|]. by apply (aq_fresh Haq).
Qed.

(** * Happens-before *)

(** The events of the sets are writes of registered blocks; what a process has
    seen is in its copies, and is passed on by its signature unless everybody
    has seen it; what a mutex protects is in its signature. *)
Record hb_inv (s : sspace) (m : mtx_spec) (h : hb) : Prop := {
  hi_seen : ∀ p b ts, valid p → (b, ts) ∈ hb_seen h p →
    ft_known layout b ∧ 0 ≤ ts ∧ fresh p b ts s ∧ ((b, ts) ∈ hb_all h ∨ covered p s b ts);
  hi_mtx : ∀ i ms b ts, m !! i = Some ms → (b, ts) ∈ hb_mtx h i →
    ft_known layout b ∧ 0 ≤ ts ∧ ((b, ts) ∈ hb_all h ∨ covers ms.2 b ts);
  hi_all : ∀ p e, valid p → e ∈ hb_all h → e ∈ hb_seen h p;
}.

Lemma elem_of_wn_events wns b ts :
  (b, ts) ∈ wn_events wns ↔ ∃ wn, wn ∈ wns ∧ wn_blk_id wn = b ∧ wn_wr_ts wn = ts.
Proof.
  unfold wn_events. rewrite elem_of_list_to_set, list_elem_of_fmap. split.
  - intros (wn & [= -> ->] & ?). by exists wn.
  - intros (wn & ? & <- & <-). by exists wn.
Qed.

Lemma elem_of_publish p l h e :
  e ∈ hb_seen (hb_publish l h) p ↔ e ∈ hb_seen h p ∨ ∃ wns, (p, wns) ∈ l ∧ e ∈ wn_events wns.
Proof.
  cbn. rewrite elem_of_union, elem_of_union_list. apply or_iff_compat_l. split.
  - intros (X & ([q wns] & -> & Hin)%list_elem_of_fmap & He).
    destruct (Z.eqb_spec q p) as [->|]; [by exists wns|set_solver].
  - intros (wns & Hin & He). exists (wn_events wns). split; [|done].
    apply list_elem_of_fmap. exists (p, wns). by rewrite Z.eqb_refl.
Qed.

(** A new event of [p]. *)
Lemma call_eff_event T' s l s' p wns b ts :
  call_eff T' s l s' → valid p → (p, wns) ∈ l → (b, ts) ∈ wn_events wns →
  ft_known layout b ∧ 0 ≤ ts ∧ fresh p b ts s' ∧ covered p s' b ts.
Proof using Hlayout Hflags.
  intros [Hinv _ _ Hw] Hp Hin (wn & Hwn & <- & <-)%elem_of_wn_events.
  destruct (Hw p wns wn Hp Hin Hwn) as (Hg & Hl & Hc). pose proof (wn_good_known s' wn Hg) as Hk.
  split; [done|]. split; [apply Hg|]. split; [|done]. eapply leased_fresh; [done..|apply Hinv|done|done|done].
Qed.

Lemma publish_inv T' s m l s' h :
  hb_inv s m h → call_eff T' s l s' → hb_inv s' m (hb_publish l h).
Proof using Hlayout Hflags.
  intros [Hs Hm Ha] Hce. split.
  - intros p b ts Hp [He|(wns & Hin & He)]%elem_of_publish.
    + destruct (Hs p b ts Hp He) as (Hk & H0 & Hf & Hc). split; [done|]. split; [done|].
      split; [by apply (ye_fresh _ _ (ce_eff _ _ _ _ Hce))|].
      destruct Hc as [?|Hc]; [by left|right]. by apply (ce_covered _ _ _ _ Hce).
    + destruct (call_eff_event T' s l s' p wns b ts Hce Hp Hin He) as (? & ? & ? & ?). auto.
  - done.
  - intros p e Hp He. apply elem_of_publish. left. by apply Ha.
Qed.

(** * The invariant of the system *)
Record sys_inv (T : Z) (s : sspace) (m : mtx_spec) (h : hb) : Prop := {
  sy_procs : procs_inv T s;
  sy_mtxs : mtxs_ok (sp_mtxs s) m;
  sy_sigs : ∀ i ms, m !! i = Some ms → sig_ok T s ms.2;
  sy_hb : hb_inv s m h;
}.

Lemma sig_ok_sys T T' s s' sig : T ≤ T' → sys_eff s s' → sig_ok T s sig → sig_ok T' s' sig.
Proof.
  intros HT Heff [Hw Hm Hg Hl]. split; [done|lia| |done].
  eapply Forall_impl; [exact Hg|]. apply (ye_good _ _ Heff).
Qed.

Lemma plain_sys_inv T T' s m h l s' :
  sys_inv T s m h → T ≤ T' → plain_eff T' s (l, s') → sys_inv T' s' m (hb_publish l h).
Proof using Hlayout Hflags.
  intros [Hp Hm Hsg Hh] HT [Hce Hmt]. cbn in Hce, Hmt. split.
  - apply Hce.
  - by rewrite Hmt.
  - intros i ms Hi. eapply sig_ok_sys; [exact HT|apply Hce|by eapply Hsg].
  - by eapply publish_inv.
Qed.

Lemma lock_sys_inv T p i sig s m h l s' :
  sys_inv T s m h → valid p → m !! i = Some (None, sig) → lock_eff T p i sig m s (l, s') →
  sys_inv T s' (<[i := (Some p, sig)]> m) (hb_do num_procs (CLock p i) l h).
Proof using Hlayout Hflags.
  intros [Hp Hm Hsg Hh] Hv Hi (Hl & Hce & Hm' & Hf & Hc). cbn in Hl, Hce, Hm', Hf, Hc. subst l.
  pose proof (publish_inv T s m [] s' h Hh Hce) as [Hs' Hmt' Ha'].
  assert (∀ b ts, (b, ts) ∈ hb_mtx h i → ft_known layout b ∧ 0 ≤ ts ∧ fresh p b ts s'
    ∧ ((b, ts) ∈ hb_all h ∨ covered p s' b ts)) as Hnew.
  { intros b ts He. destruct (hi_mtx _ _ _ Hh i _ b ts Hi He) as (Hk & H0 & Ho). cbn in Ho.
    split; [done|]. split; [done|]. destruct Ho as [Hall|Hcov]; [|by split; auto].
    split; [|by left]. by apply (Hs' p b ts Hv), (Ha' p). }
  split; [apply Hce|done| |].
  - intros j ms. destruct (decide (j = i)) as [->|Hne].
    + rewrite lookup_insert_eq. intros [= <-]. cbn. eapply sig_ok_sys; [|apply Hce|by eapply (Hsg i _ Hi)]. done.
    + rewrite lookup_insert_ne by done. intros Hj. eapply sig_ok_sys; [|apply Hce|by eapply Hsg]. done.
  - split; cbn [hb_do hb_seen hb_mtx hb_all].
    + intros q b ts Hq. destruct (decide (q = p)) as [->|Hne].
      * rewrite fn_lookup_insert. intros [He|He]%elem_of_union; [by apply Hs'|by apply Hnew].
      * rewrite fn_lookup_insert_ne by done. by apply Hs'.
    + intros j ms b ts. destruct (decide (j = i)) as [->|Hne].
      * rewrite lookup_insert_eq. intros [= <-] He. by apply (hi_mtx _ _ _ Hh i _ b ts Hi).
      * rewrite lookup_insert_ne by done. by apply Hmt'.
    + intros q e Hq He. destruct (decide (q = p)) as [->|Hne].
      * rewrite fn_lookup_insert. apply elem_of_union. left. by apply Ha'.
      * rewrite fn_lookup_insert_ne by done. by apply Ha'.
Qed.

Lemma unlock_sys_inv T T' p i s m h l s' :
  sys_inv T s m h → T ≤ T' → valid p → unlock_eff T' p i m s (l, s') →
  sys_inv T' s' (<[i := (None, sig_of p s')]> m) (hb_do num_procs (CUnlock p i) l h).
Proof using Hlayout Hflags.
  intros [Hp Hm Hsg Hh] HT Hv (_ & Hce & Hm'). cbn in Hce, Hm'.
  pose proof (publish_inv T' s m l s' h Hh Hce) as [Hs' Hmt' Ha'].
  destruct (ce_inv _ _ _ _ Hce) as [Hok' Hown']. destruct (wo_procs Hok' p Hv) as (ps & Hps & _).
  assert (sig_of p s' = sp_sig ps) as Esig by (unfold sig_of; by rewrite Hps). rewrite Esig in *.
  split; [apply Hce|done| |].
  - intros j ms. destruct (decide (j = i)) as [->|Hne].
    + rewrite lookup_insert_eq. intros [= <-]. by apply (oi_sig (Hown' p Hv)).
    + rewrite lookup_insert_ne by done. intros Hj. eapply sig_ok_sys; [exact HT|apply Hce|by eapply Hsg].
  - split; cbn [hb_do hb_seen hb_mtx hb_all]; [done| |done].
    intros j ms b ts. destruct (decide (j = i)) as [->|Hne].
    + rewrite lookup_insert_eq, fn_lookup_insert. intros [= <-] He.
      destruct (Hs' p b ts Hv He) as (Hk & H0 & _ & Hc). split; [done|]. split; [done|].
      destruct Hc as [?|Hc]; [by left|right]. by apply Hc.
    + rewrite lookup_insert_ne, fn_lookup_insert_ne by done. by apply Hmt'.
Qed.

(** ** The barrier *)

(** What a barrier of all processes does. *)
Record barrier_eff (T' : Z) (s : sspace) (l : list (Z * list wn_entry)) (s' : sspace) : Prop := {
  be_inv : procs_inv T' s';
  be_eff : sys_eff s s';
  be_mtxs : sp_mtxs s' = sp_mtxs s;
  be_procs : l.*1 = seqZ 0 num_procs;
  be_wns : ∀ q wns wn, (q, wns) ∈ l → wn ∈ wns → wn_good s' wn ∧ leased q (wn_blk_id wn) (wn_wr_ts wn) s';
  be_fresh : ∀ p q wns b ts, valid p → q ≠ p → (q, wns) ∈ l → ft_known layout b →
    knows q s wns b ts → fresh p b ts s';
}.

Lemma all_valid : Forall valid (seqZ 0 num_procs).
Proof. apply Forall_forall. intros p Hp%elem_of_seqZ. unfold in_range. lia. Qed.

Lemma elem_of_procs p : valid p → p ∈ seqZ 0 num_procs.
Proof. unfold in_range. rewrite elem_of_seqZ. lia. Qed.

(** Who is in [all] of a barrier. *)
Lemma elem_of_all l h e :
  e ∈ ⋃ (hb_seen (hb_publish l h) <$> seqZ 0 num_procs)
  ↔ ∃ q, valid q ∧ (e ∈ hb_seen h q ∨ ∃ wns, (q, wns) ∈ l ∧ e ∈ wn_events wns).
Proof.
  rewrite elem_of_union_list. split.
  - intros (X & (q & -> & Hq%elem_of_seqZ)%list_elem_of_fmap & He%elem_of_publish). exists q.
    split; [unfold in_range; lia|done].
  - intros (q & Hq & He). exists (hb_seen (hb_publish l h) q). split; [|by apply elem_of_publish].
    apply list_elem_of_fmap. exists q. split; [done|by apply elem_of_procs].
Qed.

(** Every event of the barrier is fresh everywhere. *)
Lemma barrier_event T' s m h l s' p q b ts :
  hb_inv s m h → barrier_eff T' s l s' → valid p → valid q →
  (b, ts) ∈ hb_seen h q ∨ (∃ wns, (q, wns) ∈ l ∧ (b, ts) ∈ wn_events wns) →
  ft_known layout b ∧ 0 ≤ ts ∧ fresh p b ts s'.
Proof using Hlayout Hflags.
  intros Hh [Hinv Heff _ Hl Hw Hf] Hp Hq [He|(wns & Hin & He)].
  - destruct (hi_seen _ _ _ Hh q b ts Hq He) as (Hk & H0 & Hfq & Hc). split; [done|]. split; [done|].
    destruct Hc as [Hall|Hc].
    { apply (ye_fresh _ _ Heff); [done|done|]. by apply (hi_seen _ _ _ Hh p b ts Hp), (hi_all _ _ _ Hh p). }
    destruct (decide (q = p)) as [->|Hne]; [by apply (ye_fresh _ _ Heff)|].
    assert (∃ wns, (q, wns) ∈ l) as [wns Hin].
    { pose proof (elem_of_procs q Hq) as Hx. rewrite <-Hl in Hx.
      apply list_elem_of_fmap in Hx as ([q' wns] & Eq & Hin). cbn in Eq. subst q'. by exists wns. }
    eapply Hf; [done|exact Hne|exact Hin|done|]. by left.
  - apply elem_of_wn_events in He as (wn & Hwn & <- & <-). destruct (Hw q wns wn Hin Hwn) as [Hg Hle].
    pose proof (wn_good_known s' wn Hg) as Hk. split; [done|]. split; [apply Hg|].
    destruct (decide (q = p)) as [->|Hne].
    + eapply leased_fresh; [done..|apply Hinv|done|done|done].
    + eapply Hf; [done|exact Hne|exact Hin|done|]. right. by exists wn.
Qed.

Lemma barrier_sys_inv T T' s m h l s' :
  0 < num_procs → sys_inv T s m h → T ≤ T' → barrier_eff T' s l s' →
  sys_inv T' s' m (hb_do num_procs CBarrier l h).
Proof using Hlayout Hflags.
  intros Hn [Hp Hm Hsg Hh] HT Hbe.
  assert (∀ p b ts, valid p → (b, ts) ∈ ⋃ (hb_seen (hb_publish l h) <$> seqZ 0 num_procs) →
    ft_known layout b ∧ 0 ≤ ts ∧ fresh p b ts s') as Hev.
  { intros p b ts Hv (q & Hq & He)%elem_of_all. by eapply barrier_event. }
  pose proof Hbe as [Hinv Heff Hmt _ _ _]. split; [done|by rewrite Hmt| |].
  - intros i ms Hi. by eapply sig_ok_sys; [..|eapply Hsg].
  - split; cbn [hb_do hb_seen hb_mtx hb_all].
    + intros p b ts Hv He. destruct (Hev p b ts Hv He) as (? & ? & ?). auto.
    + intros i ms b ts Hi He. destruct (hi_mtx _ _ _ Hh i ms b ts Hi He) as (? & ? & Hc).
      split; [done|]. split; [done|]. destruct Hc as [Hall|?]; [left|by right].
      apply elem_of_all. assert (valid 0) as Hv0 by (unfold in_range; lia). exists 0. split; [done|].
      left. by apply (hi_all _ _ _ Hh).
    + done.
Qed.

Section hb_wire.
Context (Hprocs : num_procs ≤ 2 ^ 31).
Context (Hfit : is_u64 (sizeof_header + Z.of_nat (max_rel_sig_len P) * sizeof_wn_entry)).
Context (pad_length : ∀ wn, length (pad wn) = 4%nat).
Context (uninit_length : Z.of_nat (length uninit) = get_max_size_in_bytes P).

Lemma barrier_do_runs T s (T' := later_ts P T (call_cost num_procs CBarrier s)) :
  procs_inv T s → (∀ p, valid p → no_pinned p s) → next_ts P T' < u64_mod →
  runs P (space_do P pad uninit sched num_procs CBarrier s) (λ '(l, s'), barrier_eff T' s l s').
Proof using Hlayout Hflags Hlease Hcfg Hsched Hprocs Hfit pad_length uninit_length.
  intros Hinv Hnp HT. cbn [space_do]. unfold barrier. cbn [call_cost] in T'.
  eapply runs_bind.
  { apply (barrier_releases_runs Hprocs Hfit pad_length uninit_length (seqZ 0 num_procs) T s);
      [done|apply all_valid|apply NoDup_seqZ|]. fold T'. unfold next_ts in HT. lia. }
  fold T'. intros [[l bufs] s1] [Hinv1 Heff1 Hm1 Hpin1 Hk1 Hb1 Hkn1 Hl1 Hw1].
  eapply runs_bind.
  { apply (barrier_acquires_runs T' (seqZ 0 num_procs) bufs s1);
      [done|apply all_valid|apply NoDup_seqZ| |done|done].
    intros p Hp%elem_of_seqZ. apply Hpin1, Hnp. unfold in_range. lia. }
  intros s2 (Hinv2 & Heff2 & Hm2 & Hf2). cbn [runs]. split.
  - done.
  - by etrans.
  - by rewrite Hm2.
  - done.
  - intros q wns wn Hin Hwn. destruct (Hw1 q wns wn Hin Hwn) as [Hg Hl].
    split; [by apply (ye_good _ _ Heff2)|by apply (ye_leased _ _ Heff2)].
  - intros p q wns b ts Hp Hne Hin Hb Hkn. apply Hf2; [by apply elem_of_procs|done|].
    destruct (Hkn1 q wns Hin) as (buf & Hbuf & sig & Ed & _ & _ & Hc).
    exists q, buf, sig. split; [done|]. split; [done|]. split; [done|]. by apply Hc.
Qed.

(** Every legal call of a system in its invariant runs and keeps it. *)
Lemma space_do_runs c T s m h (T' := later_ts P T (call_cost num_procs c s)) :
  0 < num_procs → sys_inv T s m h → legal P num_procs layout c s m →
  later_ts P T (call_cost num_procs c s + 1) < u64_mod →
  runs P (space_do P pad uninit sched num_procs c s)
    (λ '(l, s'), sys_inv T' s' (mtx_do c s' m) (hb_do num_procs c l h)).
Proof using Hlayout Hflags Hlease Hcfg Hdir Hsched Hprocs Hfit pad_length uninit_length.
  intros Hn Hinv Hlegal HT. pose proof (sy_procs _ _ _ _ Hinv) as Hp.
  rewrite <-later_ts_add, later_ts_1 in HT. fold T' in HT.
  assert (T ≤ T' ∧ T' < u64_mod) as [HTle HT'].
  { split; [|unfold next_ts in HT; lia]. apply later_ts_ge; [done|].
    destruct c; cbn; try lia; [apply num_dirty_nonneg..|apply dirty_sum_nonneg]. }
  destruct c as [p b|p b|p b|p b|p b off v|p|p i|p i|]; cbn [legal] in Hlegal; subst T'; cbn [call_cost] in *.
  - destruct Hlegal as [Hv Hb]. eapply runs_mono; [by apply read_do_runs|].
    intros [l s'] Hpe. by eapply plain_sys_inv.
  - destruct Hlegal as [Hv Hb]. eapply runs_mono; [by apply write_do_runs|].
    intros [l s'] Hpe. by eapply plain_sys_inv.
  - destruct Hlegal as (Hv & Hb & Hpin). eapply runs_mono; [by apply pin_do_runs|].
    intros [l s'] Hpe. by eapply plain_sys_inv.
  - destruct Hlegal as (Hv & Hb & Hpin). unfold later_ts in *. rewrite Z.mul_0_l, Z.add_0_r in *.
    eapply runs_mono; [by apply unpin_do_runs|]. intros [l s'] Hpe. by eapply plain_sys_inv.
  - destruct Hlegal as (Hv & Hb & Hby & mem & Hmem & Hprot & Hoff). unfold later_ts in *.
    rewrite Z.mul_0_l, Z.add_0_r in *.
    eapply runs_mono; [by apply (store_do_runs T p b off v s mem)|]. intros [l s'] Hpe. by eapply plain_sys_inv.
  - cbn [space_do]. eapply runs_bind.
    { by apply (fence_release_runs P num_procs Hcfg Hlease n layout Hlayout sched Hsched T p s
        (pv_world _ _ Hp) Hlegal (pv_own _ _ Hp p Hlegal)). }
    intros [wns s'] Hf. cbn [runs]. eapply plain_sys_inv; [exact Hinv|exact HTle|].
    split; [by eapply fence_call_eff|apply (fe_mtxs Hf)].
  - destruct Hlegal as (Hv & Hnp & sig & Hi). unfold later_ts in *. rewrite Z.mul_0_l, Z.add_0_r in *.
    eapply runs_mono.
    { apply (lock_do_runs T p i sig m s); [done|done|done|apply Hinv|done| |done].
      by apply (sy_sigs _ _ _ _ Hinv i (None, sig)). }
    intros [l s'] Hle. cbn [mtx_do]. rewrite Hi. by eapply lock_sys_inv.
  - destruct Hlegal as (Hv & sig & Hi).
    eapply runs_mono.
    { apply (unlock_do_runs Hprocs Hfit pad_length uninit_length T p i sig m s); [done|done|apply Hinv|done|done]. }
    intros [l s'] Hle. by eapply unlock_sys_inv.
  - eapply runs_mono; [by apply barrier_do_runs|]. intros [l s'] Hbe. by eapply barrier_sys_inv.
Qed.
End hb_wire.
End sys.

(** * Reachable systems *)
Section reachable.
Context {K M : Type} {HK : GlobalLock header K} {HM : GlobalLock (list Z) M} (P : policy).
Context (num_procs : Z) (mig : bool).
Context {HLK : @GlobalLockLaws header K HK (in_range num_procs) (enable_migration P)}.
Context {HLM : @GlobalLockLaws (list Z) M HM (in_range num_procs) mig}.
Context {Hsort : StdSort greater_wn}.
Context (layout : seg_table) (n : Z * Z → nat) (blks : gmap (Z * Z) (blk_world K)).
Context (lk_coll_make : Z → list Z → M) (num_locks : Z).
Context (sched : nat → list nat) (pad : wn_entry → list Z) (uninit : list Z).

(** The system at its start: the layout, a fresh block for every position of a
    registered segment, fresh mutexes; the bounds on what is sent; [sched] and
    the memory the source leaves open. *)
Record start_ok : Prop := {
  so_config : config_allowed P = true;
  so_dir : use_directory_coherence P = false;
  so_lease : 0 ≤ lease_ts P;
  so_procs : 0 < num_procs ≤ 2 ^ 31;
  so_fit : is_u64 (sizeof_header + Z.of_nat (max_rel_sig_len P) * sizeof_wn_entry);
  so_layout : layout_wf P layout;
  so_flags : flags_are (H := seg_ft P) layout ∅;
  so_blks : ∀ loc b, blks !! loc = Some b → ∃ lk owner content,
    b = seg_blk_init P num_procs lk content ∧ lk_free lk owner zero_header ∧ area (n loc) content;
  so_known : ∀ blk_id loc, known layout blk_id loc → is_Some (blks !! loc);
  so_locks : ∀ i lad, 0 ≤ i < num_locks → ∃ owner, lk_free (lk_coll_make i lad) owner lad;
  so_sched : ∀ m, is_schedule m (sched m);
  so_pad : ∀ wn, length (pad wn) = 4%nat;
  so_uninit : Z.of_nat (length uninit) = get_max_size_in_bytes P;
}.

Definition start : space K M :=
  space_init num_procs layout blks (mtx_coll_init lk_coll_make num_locks (get_max_size_in_bytes P)).

#[local] Abbreviation sys_inv := (@sys_inv K M HK HM P num_procs mig HLK HLM n layout uninit).
#[local] Abbreviation reach := (reach P pad uninit sched num_procs layout start (mspec_init num_locks)).

Lemma start_procs p : in_range num_procs p → sp_procs start !! p = Some (proc_space_init layout).
Proof.
  intros Hp. cbn. rewrite (lookup_procs (λ _, proc_space_init layout)).
  by rewrite decide_True.
Qed.

Lemma start_entry p loc le :
  start_ok → entry p loc start = Some le → le_state le = invalid_clean.
Proof.
  intros Hs Hle. unfold entry in Hle. apply bind_Some in Hle as (b & Hb & Hle).
  destruct (so_blks Hs loc b Hb) as (lk & owner & content & -> & _ & _). cbn in Hle.
  rewrite (lookup_procs (init_entry P)) in Hle. destruct (decide _); [|done]. by injection Hle as <-.
Qed.

Lemma start_procs_inv : start_ok → procs_inv P num_procs n layout 0 start.
Proof.
  intros Hs. split.
  - split.
    + intros loc b Hb. destruct (so_blks Hs loc b Hb) as (lk & owner & content & -> & Hf & Ha).
      exists (GlobalEntry 0 0). by apply (seg_blk_init_coherent P num_procs (n loc) lk owner); [apply Hs|..].
    + apply Hs.
    + intros p Hp. exists (proc_space_init layout). split; [by apply start_procs|].
      split; [apply layout_ok_self, Hs|]. split; [apply rd_set_init_wf|done].
  - intros p Hp. split; intros ps Hps; rewrite start_procs in Hps by done; injection Hps as <-.
    + split; [|by intros e ?%not_elem_of_nil]. intros b loc le _ Hle Hv.
      by rewrite (start_entry p loc le Hs Hle) in Hv.
    + split; [constructor|]. split; [done|]. split; [|by intros b [?%not_elem_of_nil|?%not_elem_of_nil]].
      intros b loc le _ Hle Hd. by rewrite (start_entry p loc le Hs Hle) in Hd.
    + split; cbn; [split; cbn; constructor|lia|constructor|lia].
Qed.

Lemma start_sys_inv : start_ok → sys_inv 0 start (mspec_init num_locks) hb_init.
Proof.
  intros Hs. split.
  - by apply start_procs_inv.
  - cbn. rewrite <-(so_uninit Hs). apply (mtx_coll_init_ok (length uninit) uninit); [done| |apply Hs].
    pose proof (so_uninit Hs) as Hu. unfold get_max_size_in_bytes, get_size_in_bytes in Hu.
    rewrite u64_small in Hu by apply (so_fit Hs). unfold sizeof_header, sizeof_wn_entry in Hu. lia.
  - intros i ms Hi. unfold mspec_init in Hi. apply elem_of_list_to_map_2, list_elem_of_fmap in Hi as (j & [= -> ->] & _).
    split; cbn; [split; cbn; constructor|lia|constructor|lia].
  - split; cbn; set_solver.
Qed.

Lemma reach_inv T s m h : start_ok → reach T s m h → sys_inv T s m h.
Proof.
  intros Hs. induction 1 as [|T s m h c l s' Hr IH Hl HT E]; [by apply start_sys_inv|].
  pose proof (space_do_runs P num_procs mig (so_config Hs) (so_dir Hs) (so_lease Hs) n layout
    (so_layout Hs) (so_flags Hs) sched (so_sched Hs) pad uninit (proj2 (so_procs Hs)) (so_fit Hs)
    (so_pad Hs) (so_uninit Hs) c T s m h (proj1 (so_procs Hs)) IH Hl HT) as H.
  by rewrite E in H.
Qed.

(** C2: while the timestamps fit in 64 bits, in every reachable state of the
    whole system in a timestamp build (any interleaving of
    faults, stores, pinning, release fences, mutexes and barriers of its
    processes) every legal call succeeds: no assertion of the space, the
    segment table, the directory, the read and write sets, the signatures or
    the lock tables fails, and no index is out of bounds; and the state after
    it satisfies the invariant of the system again: the blocks are coherent, the
    read sets, write sets and signatures are well-formed, the mutexes are those
    of the specification and the notices of what happened before are honoured.
    The one exception: in the builds that detect races, as the default one
    does, a call can stop with the report of a data race. *)
Theorem space_calls_safe T s m h c
    (Hs : start_ok) (Hr : reach T s m h) (Hl : legal P num_procs layout c s m)
    (HT : later_ts P T (call_cost num_procs c s + 1) < u64_mod) :
  match space_do P pad uninit sched num_procs c s with
  | Ok (l, s') =>
      sys_inv (later_ts P T (call_cost num_procs c s)) s' (mtx_do c s' m) (hb_do num_procs c l h)
  | Fail f => enable_race_detection P = true ∧ is_race f = true
  end.
Proof.
  exact (space_do_runs P num_procs mig (so_config Hs) (so_dir Hs) (so_lease Hs) n layout
    (so_layout Hs) (so_flags Hs) sched (so_sched Hs) pad uninit (proj2 (so_procs Hs)) (so_fit Hs)
    (so_pad Hs) (so_uninit Hs) c T s m h (proj1 (so_procs Hs)) (reach_inv T s m h Hs Hr) Hl HT).
Qed.

(** Announced writes are honoured: when the write notice of a release happened
    before the current point of a process, by the unlocks and locks of mutexes
    and by barriers, its copy of the block is leased at the timestamp of the
    notice or later, or it is invalid and will be fetched again. This is about
    notices and leases, not about data: a store can have no notice, or one with
    an old timestamp (SpaceStale.v); for the data see SpaceDrf.v. *)
Theorem notices_honoured T s m h p blk_id ts
    (Hs : start_ok) (Hr : reach T s m h) (Hp : in_range num_procs p)
    (He : (blk_id, ts) ∈ hb_seen h p) :
  fresh P layout p blk_id ts s.
Proof.
  destruct (reach_inv T s m h Hs Hr) as [_ _ _ Hh].
  by apply (hi_seen _ _ _ _ _ _ Hh p blk_id ts Hp He).
Qed.
End reachable.

(** * A concrete system: two processes, one block of 256 bytes, four mutexes

    Process 1 reads the block; process 0 writes it and hands a mutex over to
    process 1. *)
Definition demo_sys_tbl : blk_tbl := blk_tbl_coll_make 256 1 (2 ^ 38).
Definition demo_sys_layout : seg_table := <[1%nat := Some demo_sys_tbl]> (seg_table_init default_policy).
Definition demo_sys_blks : gmap (Z * Z) (blk_world (qstate header)) := {[ (1, 0) := demo_blk ]}.
Definition demo_pad (wn : wn_entry) : list Z := [0; 0; 0; 0].
Definition demo_uninit : list Z := replicate (Z.to_nat (get_max_size_in_bytes default_policy)) 0.
Definition demo_mtx (i : Z) (lad : list Z) : qstate (list Z) := coll_make 2 i lad.

Lemma demo_sys_layout_wf : layout_wf default_policy demo_sys_layout.
Proof.
  destruct (set_blk_table_wf default_policy (seg_table_init default_policy) 1 demo_sys_tbl)
    as (st & _ & Hwf & ->); [apply demo_init_wf|vm_compute; intuition congruence| |exact Hwf].
  apply blk_tbl_coll_make_wf; vm_compute; intuition congruence.
Qed.

Lemma demo_sys_lookup i t : demo_sys_layout !! i = Some (Some t) → i = 1%nat ∧ t = demo_sys_tbl.
Proof.
  unfold demo_sys_layout. intros H. destruct (decide (i = 1%nat)) as [->|Hne].
  - rewrite list_lookup_insert_eq in H by (vm_compute; lia). by injection H as <-.
  - rewrite list_lookup_insert_ne in H by done. unfold seg_table_init in H.
    apply lookup_replicate in H as [? _]. done.
Qed.

Lemma demo_sys_at i t pos b : at_pos demo_sys_layout i t pos b → i = 1%nat ∧ pos = 0 ∧ b = 2 ^ 38.
Proof.
  intros [[-> ->]%demo_sys_lookup Hpos ->]. change (bt_num_blks demo_sys_tbl) with 1 in Hpos.
  assert (pos = 0) as -> by lia. done.
Qed.

Lemma demo_sys_known : ft_known (FlagTable := seg_ft default_policy) demo_sys_layout (2 ^ 38).
Proof.
  split; [apply demo_sys_layout_wf|]. exists 1%nat, demo_sys_tbl, 0. split; [vm_compute; reflexivity| |reflexivity].
  change (bt_num_blks demo_sys_tbl) with 1. lia.
Qed.

#[export] Instance demo_lk : GlobalLock header (qstate header) := queue_global_lock 2.
#[export] Instance demo_mtx_lk : GlobalLock (list Z) (qstate (list Z)) := queue_global_lock 2.
#[export] Instance demo_lk_laws :
  GlobalLockLaws header (qstate header) (in_range 2) (enable_migration default_policy) := queue_lock_laws 2.
#[export] Instance demo_mtx_laws : GlobalLockLaws (list Z) (qstate (list Z)) (in_range 2) true :=
  queue_lock_laws 2.

Lemma demo_start_ok : start_ok default_policy 2 true demo_sys_layout (λ _, 1%nat) demo_sys_blks
  demo_mtx 4 (seq 0) demo_pad demo_uninit.
Proof.
  split; try done.
  - apply demo_sys_layout_wf.
  - intros b [_ (i & t & pos & Hat)]. apply demo_sys_at in Hat as Hb. destruct Hb as (-> & -> & ->).
    vm_compute. reflexivity.
  - unfold demo_sys_blks. intros loc b [<- <-]%lookup_singleton_Some. exists demo_lock, 1, demo_zeros. split; [done|].
    split; [by apply (queue_coll_make_free 2 1 zero_header)|apply demo_zeros_area].
  - intros b loc (i & t & pos & Hat & ->). apply demo_sys_at in Hat as (-> & -> & ->). by eexists.
  - intros i lad Hi. exists (i mod 2). by apply queue_coll_make_free.
  - intros m. unfold is_schedule. done.
Qed.

#[local] Abbreviation demo_space := (space (qstate header) (qstate (list Z))).
#[local] Abbreviation demo_start :=
  (start (K := qstate header) default_policy 2 demo_sys_layout demo_sys_blks demo_mtx 4).
#[local] Abbreviation demo_do := (space_do default_policy demo_pad demo_uninit (seq 0) 2).
#[local] Abbreviation demo_reach := (reach default_policy demo_pad demo_uninit (seq 0) 2
  demo_sys_layout demo_start (mspec_init 4)).

Definition demo_no_pinned (p : Z) (s : demo_space) : bool :=
  forallb (λ x : _ * blk_world _, match bw_dirs x.2 !! p with Some le => negb (state_eqb (le_state le) pinned) | None => true end)
    (map_to_list (sp_blks s)).

(** The calls of the run are legal. *)
Definition demo_legal (c : sp_call) (s : demo_space) (m : mtx_spec) : bool :=
  match c with
  | CRead p b | CWrite p b => (0 <=? p) && (p <? 2) && (b =? 2 ^ 38)
  | CStore p b off v => (0 <=? p) && (p <? 2) && (b =? 2 ^ 38) && (0 <=? v) && (v <? 256)
      && match mem_of default_policy demo_sys_layout p b s with
         | Some x => bool_decide (bm_prot x = ProtReadWrite) && (off <? length (bm_priv x))%nat
         | None => false
         end
  | CLock p i => (0 <=? p) && (p <? 2) && demo_no_pinned p s
      && match m !! i with Some (None, _) => true | _ => false end
  | CUnlock p i => (0 <=? p) && (p <? 2) && match m !! i with Some (Some q, _) => q =? p | _ => false end
  | _ => false
  end.

Lemma demo_legal_ok c s m : demo_legal c s m = true → legal default_policy 2 demo_sys_layout c s m.
Proof.
  destruct c as [p b|p b|p b|p b|p b off v|p|p i|p i|]; cbn [demo_legal legal]; intros H; try discriminate H;
    repeat (apply andb_prop in H as [H ?]); bool_to_prop; subst; unfold in_range.
  - split; [lia|apply demo_sys_known].
  - split; [lia|apply demo_sys_known].
  - split; [lia|]. split; [apply demo_sys_known|]. split; [lia|].
    destruct (mem_of _ _ _ _ _) as [x|]; [|done].
    match goal with H : _ && _ = true |- _ => apply andb_prop in H as [Hx Hy] end.
    exists x. split; [done|]. split; [by apply bool_decide_eq_true in Hx|by apply Nat.ltb_lt].
  - split; [lia|]. split.
    + intros loc b le Hb Hle Hpin.
      match goal with H : demo_no_pinned _ _ = true |- _ => unfold demo_no_pinned in H; rename H into Hn end.
      rewrite forallb_forall in Hn. specialize (Hn (loc, b)).
      rewrite <-list_elem_of_In, elem_of_map_to_list in Hn. specialize (Hn Hb). cbn in Hn.
      by rewrite Hle, Hpin in Hn.
    + destruct (m !! i) as [[[q|] sig]|]; [done| |done]. by exists sig.
  - split; [lia|]. destruct (m !! i) as [[[q|] sig]|]; [|done..]. bool_to_prop. subst. by exists sig.
Qed.

Fixpoint demo_run (calls : list sp_call) (T : Z) (s : demo_space) (m : mtx_spec) (h : hb) :
    option (Z * demo_space * mtx_spec * hb) :=
  match calls with
  | [] => Some (T, s, m, h)
  | c :: calls =>
      let cost := call_cost 2 c s in
      if demo_legal c s m && (later_ts default_policy T (cost + 1) <? u64_mod) then
        match demo_do c s with
        | Ok (l, s') => demo_run calls (later_ts default_policy T cost) s' (mtx_do c s' m) (hb_do 2 c l h)
        | Fail _ => None
        end
      else None
  end.

Lemma demo_run_reach calls T s m h T' s' m' h' :
  demo_reach T s m h → demo_run calls T s m h = Some (T', s', m', h') → demo_reach T' s' m' h'.
Proof.
  revert T s m h. induction calls as [|c calls IH]; intros T s m h Hr E; cbn [demo_run] in E.
  { by injection E as <- <- <- <-. }
  destruct (demo_legal c s m) eqn:Hl; [|done].
  destruct (Z.ltb_spec (later_ts default_policy T (call_cost 2 c s + 1)) u64_mod); [|done].
  cbn [andb] in E. destruct (demo_do c s) as [[l s1]|] eqn:Ed; [|done].
  eapply IH; [|exact E]. eapply reach_call; [done|by apply demo_legal_ok|done|done].
Qed.

Definition demo_sys_calls : list sp_call :=
  [CRead 1 (2 ^ 38); CWrite 0 (2 ^ 38); CStore 0 (2 ^ 38) 5 7; CLock 0 1; CUnlock 0 1; CLock 1 1].

Definition demo_end := demo_run demo_sys_calls 0 demo_start (mspec_init 4) hb_init.

(** The run ends, and process 1 must see the write at timestamp 1. *)
Definition demo_seen : bool :=
  match demo_end with Some (_, _, _, h) => bool_decide ((2 ^ 38, 1) ∈ hb_seen h 1) | None => false end.

Definition demo_end_ts : Z := match demo_end with Some (T, _, _, _) => T | None => u64_mod end.

Lemma demo_seen_true : demo_seen = true.
Proof. vm_compute. reflexivity. Qed.

Lemma demo_end_ts_small : later_ts default_policy demo_end_ts 2 < u64_mod.
Proof. vm_compute. reflexivity. Qed.

Lemma notices_honoured_witness :
  ∃ T s m h, demo_end = Some (T, s, m, h) ∧ (2 ^ 38, 1) ∈ hb_seen h 1
    ∧ fresh default_policy demo_sys_layout 1 (2 ^ 38) 1 s.
Proof.
  pose proof demo_seen_true as He. unfold demo_seen in He.
  destruct demo_end as [[[[T s] m] h]|] eqn:E; [|discriminate He].
  apply bool_decide_eq_true in He. exists T, s, m, h. split; [done|]. split; [done|].
  apply (notices_honoured default_policy 2 true demo_sys_layout (λ _, 1%nat) demo_sys_blks demo_mtx 4
    (seq 0) demo_pad demo_uninit T s m h 1 (2 ^ 38) 1 demo_start_ok); [|unfold in_range; lia|done].
  apply (demo_run_reach demo_sys_calls 0 demo_start (mspec_init 4) hb_init); [constructor|exact E].
Defined.

Lemma space_calls_safe_witness :
  ∃ T s m h, demo_end = Some (T, s, m, h)
    ∧ match demo_do (CRead 1 (2 ^ 38)) s with
      | Ok (l, s') => sys_inv default_policy 2 true (λ _, 1%nat) demo_sys_layout demo_uninit
                        (later_ts default_policy T (call_cost 2 (CRead 1 (2 ^ 38)) s)) s' m (hb_publish l h)
      | Fail f => enable_race_detection default_policy = true ∧ is_race f = true
      end.
Proof.
  pose proof demo_seen_true as He. unfold demo_seen in He.
  pose proof demo_end_ts_small as HT. unfold demo_end_ts in HT.
  destruct demo_end as [[[[T s] m] h]|] eqn:E; [|discriminate He].
  exists T, s, m, h. split; [done|].
  apply (space_calls_safe default_policy 2 true demo_sys_layout (λ _, 1%nat) demo_sys_blks demo_mtx 4
    (seq 0) demo_pad demo_uninit T s m h (CRead 1 (2 ^ 38)) demo_start_ok).
  - apply (demo_run_reach demo_sys_calls 0 demo_start (mspec_init 4) hb_init); [constructor|exact E].
  - split; [unfold in_range; lia|apply demo_sys_known].
  - exact HT.
Defined.
