(* ===== verification/SpaceRc.v ===== *)
(** Release consistency of the data: what a program without data races may
    expect to read, and the builds in which it reads something else.

    The stores of a run are logged; a process knows a store when it made it or
    when it happened before its present point by mutexes and barriers. A
    program has no data race when a process only stores to a byte whose earlier
    stores it knows. A process that knows all stores to a byte must read the
    last one. The theorems of the end are runs of such programs that read an
    older value. *)
From Stdlib Require Import ZArith Lia.
From stdpp Require Import base tactics functions list gmap.
From S2P Require Import Prelude.
From S2P Require Import Policy.
From S2P Require Import SigBuffer.
From S2P Require Import Layout.
From S2P Require Import RdSet.
From S2P Require Import WrSet.
From S2P Require Import BlkDir.
From S2P Require Import BlkData.
From S2P Require Import QueueLock.
From S2P Require Import BlkLock.
From S2P Require Import SegTable.
From S2P Require Import MtxTable.
From S2P Require Import Space.
From S2P Require Import SpaceInv.
From S2P Require Import SpaceSys.

(** * The stores of a run and who knows them *)

(** A store to a byte of a block. *)
Record store := Store { st_blk : Z; st_off : nat; st_val : Z }.

(** The stores, the newest first; a store is named by the number of earlier
    ones. [rc_seen p] are those [p] knows, [rc_mtx i] those known at the last
    unlock of mutex [i]. *)
Record rc := Rc {
  rc_log : list store;
  rc_seen : Z → gset nat;
  rc_mtx : Z → gset nat;
}.

Definition rc_init : rc := Rc [] (λ _, ∅) (λ _, ∅).

Definition rc_do (num_procs : Z) (c : sp_call) (r : rc) : rc :=
  match c with
  | CStore p b off v =>
      Rc (Store b off v :: rc_log r) (<[p := {[ length (rc_log r) ]} ∪ rc_seen r p]> (rc_seen r)) (rc_mtx r)
  | CLock p i => Rc (rc_log r) (<[p := rc_seen r p ∪ rc_mtx r i]> (rc_seen r)) (rc_mtx r)
  | CUnlock p i => Rc (rc_log r) (rc_seen r) (<[i := rc_seen r p]> (rc_mtx r))
  | CBarrier => let all := ⋃ (rc_seen r <$> seqZ 0 num_procs) in Rc (rc_log r) (λ _, all) (rc_mtx r)
  | _ => r
  end.

(** The store is to the byte [off] of block [b]. *)
Definition at_byte (b : Z) (off : nat) (e : store) : bool := (st_blk e =? b) && (st_off e =? off)%nat.

(** The last store to a byte. *)
Definition last_store (log : list store) (b : Z) (off : nat) : option Z :=
  st_val <$> head (filter (λ e, at_byte b off e = true) log).

(** [p] knows every store of the log to the byte. *)
Fixpoint knows_log (seen : gset nat) (b : Z) (off : nat) (log : list store) : bool :=
  match log with
  | [] => true
  | e :: log => (negb (at_byte b off e) || bool_decide (length log ∈ seen)) && knows_log seen b off log
  end.

Definition knows (r : rc) (p b : Z) (off : nat) : bool := knows_log (rc_seen r p) b off (rc_log r).

(** No data race: a process stores only where it knows the earlier stores. *)
Definition race_free (r : rc) (c : sp_call) : bool :=
  match c with CStore p b off _ => knows r p b off | _ => true end.

Section drf.
Context {K M : Type} {HK : GlobalLock header K} {HM : GlobalLock (list Z) M} (P : policy).
Context (pad : wn_entry → list Z) (uninit : list Z) (sched : nat → list nat).
Context {Hsort : StdSort greater_wn} (num_procs : Z).
Context (layout : seg_table) (s0 : space K M) (m0 : mtx_spec).
#[local] Abbreviation sspace := (space K M).

(** As [reach], for programs without data races. *)
Inductive drf_reach : Z → sspace → mtx_spec → hb → rc → Prop :=
| drf_start : drf_reach 0 s0 m0 hb_init rc_init
| drf_call T s m h r c l s' :
    drf_reach T s m h r → legal P num_procs layout c s m → race_free r c = true →
    later_ts P T (call_cost num_procs c s + 1) < u64_mod →
    space_do P pad uninit sched num_procs c s = Ok (l, s') →
    drf_reach (later_ts P T (call_cost num_procs c s)) s' (mtx_do c s' m)
      (hb_do num_procs c l h) (rc_do num_procs c r).

Lemma drf_is_reach T s m h r : drf_reach T s m h r →
  reach P pad uninit sched num_procs layout s0 m0 T s m h.
Proof. induction 1 as [|T s m h r c l s' _ IH ? _ ? ?]; [constructor|by eapply reach_call]. Qed.

(** The byte that [p] reads, where its page is readable. *)
Definition readable_byte (p b : Z) (off : nat) (s : sspace) : option Z :=
  match mem_of P layout p b s with
  | Some x => match bm_prot x with ProtNone => None | _ => bm_priv x !! off end
  | None => None
  end.

(** The byte at the start, and what a process that knows the stores of the byte
    must read. *)
Definition initial_byte (b : Z) (off : nat) : option Z :=
  m ← mem_of P layout 0 b s0; bm_priv m !! off.

Definition must_read (r : rc) (b : Z) (off : nat) : option Z :=
  match last_store (rc_log r) b off with Some v => Some v | None => initial_byte b off end.

(** No process has taken over the timestamp of a truncated signature. *)
Definition calm (s : sspace) : Prop :=
  ∀ p ps, in_range num_procs p → sp_procs s !! p = Some ps → rs_min_wr_ts (sp_rd ps) = 0.

(** ** Runs *)
Context (ids : list Z) (Hids : Forall (ft_known (FlagTable := seg_ft P) layout) ids).

Definition no_pinned_b (p : Z) (s : sspace) : bool :=
  forallb (λ x : _ * blk_world _, match bw_dirs x.2 !! p with
    Some le => negb (state_eqb (le_state le) pinned) | None => true end) (map_to_list (sp_blks s)).

Definition is_proc (p : Z) : bool := (0 <=? p) && (p <? num_procs).

Definition legal_b (c : sp_call) (s : sspace) (m : mtx_spec) : bool :=
  match c with
  | CRead p b | CWrite p b => is_proc p && bool_decide (b ∈ ids)
  | CStore p b off v => is_proc p && bool_decide (b ∈ ids) && (0 <=? v) && (v <? 256)
      && match mem_of P layout p b s with
         | Some x => bool_decide (bm_prot x = ProtReadWrite) && (off <? length (bm_priv x))%nat
         | None => false
         end
  | CRelease p => is_proc p
  | CLock p i => is_proc p && no_pinned_b p s && match m !! i with Some (None, _) => true | _ => false end
  | CUnlock p i => is_proc p && match m !! i with Some (Some q, _) => q =? p | _ => false end
  | _ => false
  end.

Lemma no_pinned_b_ok p s : no_pinned_b p s = true → no_pinned p s.
Proof.
  unfold no_pinned_b. intros Hn loc b le Hb Hle Hpin. rewrite forallb_forall in Hn. specialize (Hn (loc, b)).
  rewrite <-list_elem_of_In, elem_of_map_to_list in Hn. specialize (Hn Hb). cbn in Hn.
  by rewrite Hle, Hpin in Hn.
Qed.

Lemma legal_b_ok c s m : legal_b c s m = true → legal P num_procs layout c s m.
Proof using Hids.
  assert (∀ b, b ∈ ids → ft_known (FlagTable := seg_ft P) layout b) as Hk by (by apply Forall_forall).
  destruct c as [p b|p b|p b|p b|p b off v|p|p i|p i|]; cbn [legal_b legal]; unfold is_proc; intros H;
    try discriminate H; repeat (apply andb_prop in H as [H ?]); bool_to_prop; subst; unfold in_range.
  - split; [lia|by eapply Hk, bool_decide_eq_true_1].
  - split; [lia|by eapply Hk, bool_decide_eq_true_1].
  - split; [lia|]. split; [by eapply Hk, bool_decide_eq_true_1|]. split; [lia|].
    destruct (mem_of _ _ _ _ _) as [x|]; [|done].
    match goal with H : _ && _ = true |- _ => apply andb_prop in H as [Hx Hy] end.
    exists x. split; [done|]. split; [by apply bool_decide_eq_true in Hx|by apply Nat.ltb_lt].
  - lia.
  - split; [lia|]. split; [by apply no_pinned_b_ok|].
    destruct (m !! i) as [[[q|] sig]|]; [done| |done]. by exists sig.
  - split; [lia|]. destruct (m !! i) as [[[q|] sig]|]; [|done..]. bool_to_prop. subst. by exists sig.
Qed.

(** The run of a list of calls, as far as they are legal and race-free. *)
Fixpoint drf_run (calls : list sp_call) (T : Z) (s : sspace) (m : mtx_spec) (h : hb) (r : rc) :
    option (Z * sspace * mtx_spec * hb * rc) :=
  match calls with
  | [] => Some (T, s, m, h, r)
  | c :: calls =>
      let cost := call_cost num_procs c s in
      if legal_b c s m && race_free r c && (later_ts P T (cost + 1) <? u64_mod) then
        match space_do P pad uninit sched num_procs c s with
        | Ok (l, s') => drf_run calls (later_ts P T cost) s' (mtx_do c s' m) (hb_do num_procs c l h)
                          (rc_do num_procs c r)
        | Fail _ => None
        end
      else None
  end.

Lemma drf_run_reach calls T s m h r T' s' m' h' r' :
  drf_reach T s m h r → drf_run calls T s m h r = Some (T', s', m', h', r') → drf_reach T' s' m' h' r'.
Proof using Hids.
  revert T s m h r. induction calls as [|c calls IH]; intros T s m h r Hr E; cbn [drf_run] in E.
  { by injection E as <- <- <- <- <-. }
  destruct (legal_b c s m) eqn:Hl; [|done]. destruct (race_free r c) eqn:Hrf; [|done].
  destruct (Z.ltb_spec (later_ts P T (call_cost num_procs c s + 1)) u64_mod); [|done].
  cbn [andb] in E. destruct (space_do _ _ _ _ _ c s) as [[l s1]|] eqn:Ed; [|done].
  eapply IH; [|exact E]. eapply drf_call; [done|by apply legal_b_ok|done|done|done].
Qed.

(** What the process must read and what it reads after a run, if it knows
    the stores to the byte. *)
Definition run_reads (calls : list sp_call) (p b : Z) (off : nat) : option (option Z * option Z) :=
  match drf_run calls 0 s0 m0 hb_init rc_init with
  | Some (_, s, _, _, r) =>
      if knows r p b off then Some (last_store (rc_log r) b off, readable_byte p b off s) else None
  | None => None
  end.

(** A program without data races can come to a state in which [p] knows the
    last store to the byte, of [v], and reads [w]. *)
Definition can_read (p b : Z) (off : nat) (v w : Z) : Prop :=
  ∃ T s m h r, drf_reach T s m h r ∧ knows r p b off = true
    ∧ last_store (rc_log r) b off = Some v ∧ readable_byte p b off s = Some w.

(** The same in a calm state. *)
Definition calm_can_read (p b : Z) (off : nat) (v w : Z) : Prop :=
  ∃ T s m h r, drf_reach T s m h r ∧ calm s ∧ knows r p b off = true
    ∧ last_store (rc_log r) b off = Some v ∧ readable_byte p b off s = Some w.

Definition calm_b (s : sspace) : bool :=
  forallb (λ p, match sp_procs s !! p with Some ps => rs_min_wr_ts (sp_rd ps) =? 0 | None => true end)
    (seqZ 0 num_procs).

Lemma calm_b_ok s : calm_b s = true → calm s.
Proof.
  unfold calm_b, calm, in_range. rewrite forallb_forall. intros H p ps Hp Hps. specialize (H p).
  rewrite <-list_elem_of_In, elem_of_seqZ, Hps, Z.eqb_eq in H. apply H. lia.
Qed.

Definition run_calm (calls : list sp_call) : bool :=
  match drf_run calls 0 s0 m0 hb_init rc_init with Some (_, s, _, _, _) => calm_b s | None => false end.

Lemma run_calm_can_read calls p b off v w :
  run_calm calls = true → run_reads calls p b off = Some (Some v, Some w) → calm_can_read p b off v w.
Proof using Hids.
  unfold run_calm, run_reads. destruct (drf_run _ _ _ _ _ _) as [[[[[T s] m] h] r]|] eqn:E; [|done].
  intros Hc. destruct (knows r p b off) eqn:Hk; [|done]. intros [= Hl Hr]. exists T, s, m, h, r.
  split; [by apply (drf_run_reach calls 0 s0 m0 hb_init rc_init); [constructor|]|].
  split; [by apply calm_b_ok|]. done.
Qed.

Lemma run_can_read calls p b off v w :
  run_reads calls p b off = Some (Some v, Some w) → can_read p b off v w.
Proof using Hids.
  unfold run_reads. destruct (drf_run _ _ _ _ _ _) as [[[[[T s] m] h] r]|] eqn:E; [|done].
  destruct (knows r p b off) eqn:Hk; [|done]. intros [= Hl Hr]. exists T, s, m, h, r.
  split; [by apply (drf_run_reach calls 0 s0 m0 hb_init rc_init); [constructor|]|]. done.
Qed.
End drf.
