(* ===== verification/SpaceStale.v ===== *)
(** Race-free programs that read stale data.

    Runs of the address space in which a process knows the last store to a
    byte (SpaceRc.v) and its readable page has an older one. In the default build
    a fast release announces the timestamps of an earlier release. With lazy
    merges, also without fast releases, a release of another process publishes
    the data of a process behind its back, which then announces nothing. In the
    builds with neither, whose signatures hold one notice only, a read that runs
    a transaction publishes the unreleased data of its process, and no notice is
    made for it. SpaceDrf.v proves that in the builds with migration and with
    neither, only a truncated signature can do that. *)
From Stdlib Require Import ZArith Lia.
From stdpp Require Import base tactics functions list gmap.
From S2P Require Import Prelude.
From S2P Require Import Policy.
From S2P Require Import SigBuffer.
From S2P Require Import Layout.
From S2P Require Import RdSet.
From S2P Require Import WrSet.
From S2P Require Import BlkDir.
From S2P Require Import BlkData.
From S2P Require Import QueueLock.
From S2P Require Import BlkLock.
From S2P Require Import DataRuns.
From S2P Require Import SegTable.
From S2P Require Import MtxTable.
From S2P Require Import SegLease.
From S2P Require Import Space.
From S2P Require Import SpaceInv.
From S2P Require Import SpaceSys.
From S2P Require Import SpaceRc.

(** The build with migration and without lazy merges, fast release and race
    detection. *)
Definition eager_policy (sig_len : nat) : policy := {|
  max_space_size := 0x100000000000;
  max_seg_size := 0x100000000000 / 64;
  lease_ts := 10;
  max_rel_sig_len := sig_len;
  wr_count_threshold := 2;
  max_fast_rel_threshold := 64;
  enable_migration := true;
  enable_lazy_merge := false;
  enable_fast_release := false;
  enable_needs_local_comp := false;
  use_simd_diff := false;
  enable_race_detection := false;
  use_sig_buffer_merge_table := false;
  use_directory_coherence := false;
  enable_fault_classification := false;
|}.

(** The default build without fast release, with and without lazy merges. *)
Definition lazy_policy (lazy : bool) : policy := {|
  max_space_size := 0x100000000000;
  max_seg_size := 0x100000000000 / 64;
  lease_ts := 10;
  max_rel_sig_len := 1024;
  wr_count_threshold := 2;
  max_fast_rel_threshold := 64;
  enable_migration := true;
  enable_lazy_merge := lazy;
  enable_fast_release := false;
  enable_needs_local_comp := false;
  use_simd_diff := true;
  enable_race_detection := true;
  use_sig_buffer_merge_table := true;
  use_directory_coherence := false;
  enable_fault_classification := true;
|}.

(** * A system of two blocks *)
Definition two_tbl : blk_tbl := blk_tbl_coll_make 256 2 (2 ^ 38).
Definition blk_a : Z := 2 ^ 38.
Definition blk_b : Z := 2 ^ 38 + 256.

Section two_blocks.
Context (P : policy) (num_procs : Z).
Context (Hspace : max_space_size P = 0x100000000000) (Hseg : max_seg_size P = 0x100000000000 / 64).

#[local] Instance two_lk : GlobalLock header (qstate header) := queue_global_lock num_procs.
#[local] Instance two_mtx_lk : GlobalLock (list Z) (qstate (list Z)) := queue_global_lock num_procs.

Definition two_layout : seg_table := <[1%nat := Some two_tbl]> (seg_table_init P).
Definition two_blk : blk_world (qstate header) :=
  seg_blk_init P num_procs (coll_make num_procs 0 zero_header) demo_zeros.
Definition two_blks : gmap (Z * Z) (blk_world (qstate header)) := {[ (1, 0) := two_blk; (1, 1) := two_blk ]}.
Definition two_mtx (i : Z) (lad : list Z) : qstate (list Z) := coll_make num_procs i lad.
Definition two_uninit : list Z := replicate (Z.to_nat (get_max_size_in_bytes P)) 0.
Definition two_start : space (qstate header) (qstate (list Z)) :=
  start P num_procs two_layout two_blks two_mtx 4.

Lemma two_layout_wf : layout_wf P two_layout.
Proof using Hspace Hseg.
  destruct (set_blk_table_wf P (seg_table_init P) 1 two_tbl) as (st & _ & Hwf & ->); [| | |exact Hwf].
  - apply seg_table_init_wf; rewrite ?Hspace, ?Hseg; vm_compute; intuition congruence.
  - unfold seg_table_init. rewrite length_replicate, Hspace, Hseg. vm_compute. intuition congruence.
  - apply blk_tbl_coll_make_wf; rewrite ?Hseg; vm_compute; intuition congruence.
Qed.

Lemma two_lookup i t : two_layout !! i = Some (Some t) → i = 1%nat ∧ t = two_tbl.
Proof using Hspace Hseg.
  unfold two_layout, seg_table_init. rewrite Hspace, Hseg. intros H. destruct (decide (i = 1%nat)) as [->|Hne].
  - rewrite list_lookup_insert_eq in H by (vm_compute; lia). by injection H as <-.
  - rewrite list_lookup_insert_ne in H by done. by apply lookup_replicate in H as [? _].
Qed.

Lemma two_at i t pos b : at_pos two_layout i t pos b → i = 1%nat ∧ t = two_tbl ∧ (pos = 0 ∨ pos = 1).
Proof using Hspace Hseg.
  intros [[-> ->]%two_lookup Hpos ->]. change (bt_num_blks two_tbl) with 2 in Hpos.
  split_and!; [done|done|lia].
Qed.

Lemma two_lookup_eq : two_layout !! 1%nat = Some (Some two_tbl).
Proof using Hspace Hseg.
  unfold two_layout, seg_table_init. rewrite Hspace, Hseg. apply list_lookup_insert_eq. vm_compute. lia.
Qed.

Lemma two_known : Forall (ft_known (FlagTable := seg_ft P) two_layout) [blk_a; blk_b].
Proof using Hspace Hseg.
  assert (∀ pos, 0 ≤ pos < 2 → ft_known (FlagTable := seg_ft P) two_layout (blk_a + pos * 256)) as Hk.
  { intros pos Hpos. split; [apply two_layout_wf|]. exists 1%nat, two_tbl, pos.
    split; [apply two_lookup_eq|done|done]. }
  constructor; [by apply (Hk 0)|]. constructor; [by apply (Hk 1)|constructor].
Qed.

Lemma two_blks_at loc b : two_blks !! loc = Some b → b = two_blk.
Proof.
  unfold two_blks. intros [[_ <-]|[_ [_ <-]%lookup_singleton_Some]]%lookup_insert_Some; done.
Qed.

End two_blocks.

(** The system starts as [data_consistency] (SpaceDrf.v) and [space_calls_safe]
    (SpaceSys.v) ask for, in all builds. *)
Abbreviation two_start_ok P num_procs :=
  (@start_ok _ _ (two_lk num_procs) (two_mtx_lk num_procs) P num_procs true
    (queue_lock_laws num_procs) (queue_lock_laws num_procs) (two_layout P) (λ _, 1%nat) (two_blks P num_procs)
    (two_mtx num_procs) 4 (seq 0) demo_pad (two_uninit P)).

Ltac solve_two_start :=
  match goal with |- @start_ok _ _ _ _ ?P _ _ _ _ _ _ _ _ _ _ _ _ =>
    split; try done;
    [ by apply two_layout_wf
    | intros b [_ (i & t & pos & Hat)]; pose proof (ap_id _ _ _ _ _ Hat) as ->;
      apply (two_at P eq_refl eq_refl) in Hat as (-> & -> & [-> | ->]); vm_compute; reflexivity
    | intros loc b ->%two_blks_at; eexists _, _, demo_zeros;
      split; [reflexivity|split; [apply queue_coll_make_free; lia|apply demo_zeros_area]]
    | intros b loc (i & t & pos & Hat & ->);
      apply (two_at P eq_refl eq_refl) in Hat as (-> & -> & [-> | ->]); by eexists
    | intros i lad Hi; eexists; apply queue_coll_make_free; lia
    | intros m; unfold is_schedule; done
    | .. ]
  end.

Lemma two_start_default n : 0 < n ≤ 2 ^ 31 → two_start_ok default_policy n.
Proof. intros Hn. solve_two_start. Qed.

Lemma two_start_lazy b n : 0 < n ≤ 2 ^ 31 → two_start_ok (lazy_policy b) n.
Proof. intros Hn. destruct b; solve_two_start. Qed.

Lemma two_start_eager len n :
  0 < n ≤ 2 ^ 31 → is_u64 (sizeof_header + Z.of_nat len * sizeof_wn_entry) →
  two_start_ok (eager_policy len) n.
Proof.
  intros Hn Hfit. solve_two_start. unfold two_uninit. rewrite length_replicate. apply Z2Nat.id.
  unfold get_max_size_in_bytes, get_size_in_bytes. apply u64_is_u64.
Qed.

(** The runs of the two-block system under [P] with [n] processes. *)
Abbreviation two_reads P n := (run_reads (HK := two_lk n) (HM := two_mtx_lk n) P demo_pad (two_uninit P) (seq 0) n
  (two_layout P) (two_start P n) (mspec_init 4) [blk_a; blk_b]).
Abbreviation two_can_read P n := (can_read (HK := two_lk n) (HM := two_mtx_lk n) P demo_pad (two_uninit P) (seq 0) n
  (two_layout P) (two_start P n) (mspec_init 4)).

Abbreviation two_calm_can_read P n := (calm_can_read (HK := two_lk n) (HM := two_mtx_lk n) P demo_pad (two_uninit P)
  (seq 0) n (two_layout P) (two_start P n) (mspec_init 4)).
Abbreviation two_run_calm P n := (run_calm (HK := two_lk n) (HM := two_mtx_lk n) P demo_pad (two_uninit P) (seq 0) n
  (two_layout P) (two_start P n) (mspec_init 4) [blk_a; blk_b]).

Lemma two_run_calm_can_read P n calls p b off v w :
  max_space_size P = 0x100000000000 → max_seg_size P = 0x100000000000 / 64 →
  two_run_calm P n calls = true → two_reads P n calls p b off = Some (Some v, Some w) →
  two_calm_can_read P n p b off v w.
Proof. intros Hs Hg. apply run_calm_can_read. by apply two_known. Qed.

Lemma two_run_can_read P n calls p b off v w :
  max_space_size P = 0x100000000000 → max_seg_size P = 0x100000000000 / 64 →
  two_reads P n calls p b off = Some (Some v, Some w) → two_can_read P n p b off v w.
Proof. intros Hs Hg. apply run_can_read. by apply two_known. Qed.

(** * Fast release *)

(** Process 0 writes 3 and then 7 to a byte, in two critical sections of mutex
    1; process 1 enters it between them and after them. *)
Definition fast_calls : list sp_call :=
  [CLock 0 1; CWrite 0 blk_a; CStore 0 blk_a 5 3; CUnlock 0 1;
   CLock 1 1; CRead 1 blk_a; CUnlock 1 1;
   CLock 0 1; CWrite 0 blk_a; CStore 0 blk_a 5 7; CUnlock 0 1;
   CLock 1 1; CRead 1 blk_a].

(** C3: in the default build a program of two processes without data races,
    that uses one mutex, can read an old value: process 1, inside of the mutex,
    reads 3 in the byte in which process 0 stored 7 in an earlier critical
    section. The second release of process 0 is a fast release, whose notice
    has the timestamps of the first release, and the copy of process 1 is not
    invalidated. *)
Theorem fast_release_stale_read :
  two_start_ok default_policy 2 ∧ two_can_read default_policy 2 1 blk_a 5 7 3.
Proof.
  split; [by apply two_start_default|]. apply two_run_can_read with (calls := fast_calls); [done..|].
  vm_compute. reflexivity.
Qed.

(** * Lazy merges *)

(** Process 0 stores 7 in a byte inside of mutex 1, process 1 stores 8 in
    another byte of the block inside of mutex 2, and releases first: its
    transaction copies the data of process 0 over the twin of process 0. *)
Definition lazy_calls : list sp_call :=
  [CLock 0 1; CWrite 0 blk_a; CStore 0 blk_a 5 3; CUnlock 0 1;
   CLock 2 1; CRead 2 blk_a; CUnlock 2 1;
   CLock 1 1; CUnlock 1 1;
   CLock 1 2; CWrite 1 blk_a; CStore 1 blk_a 9 8;
   CLock 0 1; CStore 0 blk_a 5 7; CUnlock 1 2; CUnlock 0 1;
   CLock 2 1; CRead 2 blk_a].

(** C4: with lazy merges, also in a build without fast release and while no
    process has taken over the timestamp of a truncated signature, the release
    of another process can take the write notice of a process away: process 0
    stores 7 in a byte inside of mutex 1, while process 1 releases a store to
    another byte of the same block; process 0 then finds its data equal to its
    twin and announces nothing, and process 2 reads 3 inside of mutex 1. It is
    the lazy merges that do it: in the build that differs in nothing else the
    same calls end in the same kind of state and process 2 reads 7, as it does
    in every such run ([data_consistency], SpaceDrf.v). *)
Theorem lazy_merge_loses_notice :
  two_start_ok (lazy_policy true) 3 ∧ two_start_ok (lazy_policy false) 3
  ∧ two_calm_can_read (lazy_policy true) 3 2 blk_a 5 7 3
  ∧ two_run_calm (lazy_policy true) 3 lazy_calls = true
  ∧ two_reads (lazy_policy true) 3 lazy_calls 2 blk_a 5 = Some (Some 7, Some 3)
  ∧ two_run_calm (lazy_policy false) 3 lazy_calls = true
  ∧ two_reads (lazy_policy false) 3 lazy_calls 2 blk_a 5 = Some (Some 7, Some 7).
Proof.
  assert (two_run_calm (lazy_policy true) 3 lazy_calls = true) as Hc by (vm_compute; reflexivity).
  assert (two_reads (lazy_policy true) 3 lazy_calls 2 blk_a 5 = Some (Some 7, Some 3)) as Hr by (vm_compute; reflexivity).
  split; [exact (two_start_lazy true 3 ltac:(lia))|]. split; [exact (two_start_lazy false 3 ltac:(lia))|].
  split; [by apply two_run_calm_can_read with (calls := lazy_calls)|].
  split; [exact Hc|]. split; [exact Hr|]. split; vm_compute; reflexivity.
Qed.

(** * Transactions of reads *)

(** The signature of mutex 2 has lost its notice of block A (it holds one), and
    its timestamp invalidates the block, which process 0 has written; the read
    of process 0 runs a transaction. *)
Definition read_tx_calls : list sp_call :=
  [CLock 1 2; CWrite 1 blk_a; CStore 1 blk_a 9 8; CUnlock 1 2;
   CLock 1 2; CWrite 1 blk_b; CStore 1 blk_b 0 1; CUnlock 1 2;
   CLock 2 2; CRead 2 blk_a; CUnlock 2 2;
   CLock 1 2; CWrite 1 blk_b; CStore 1 blk_b 0 2; CUnlock 1 2;
   CLock 0 1; CWrite 0 blk_a; CStore 0 blk_a 5 7;
   CLock 0 2; CRead 0 blk_a; CUnlock 0 2; CUnlock 0 1;
   CLock 2 1; CRead 2 blk_a].

(** C30: also without lazy merges a program without data races can read an old
    value, once a signature has been truncated: a block that a process has
    written and that the timestamp of a signature invalidates is published by the transaction of the next
    read, whose result is dropped, and the release that follows announces
    nothing. Here the signatures hold one notice; process 2 reads 0 inside of
    mutex 1, where process 0 stored 7. *)
Theorem read_loses_notice :
  two_start_ok (eager_policy 1) 3 ∧ two_can_read (eager_policy 1) 3 2 blk_a 5 7 0.
Proof.
  split; [by apply two_start_eager|]. apply two_run_can_read with (calls := read_tx_calls); [done..|].
  vm_compute. reflexivity.
Qed.
