(* ===== verification/SpaceData.v ===== *)
(** The data of the address space, in the builds with migration and without
    lazy merges: the invariant of a byte.

    Every block has its versions (BlkVers.v). A byte whose last store is
    released has not changed since a version [k], which happened before
    everybody who knows the last store; a byte whose last store is not released
    is in the private copy of the process that stored it, and only that process
    knows the store. The steps of the fences keep this ([dstep]). *)
From Stdlib Require Import ZArith Lia.
From stdpp Require Import base tactics functions sets list gmap.
From S2P Require Import Prelude.
From S2P Require Import Policy.
From S2P Require Import SigBuffer.
From S2P Require Import Layout.
From S2P Require Import RdSet.
From S2P Require Import WrSet.
From S2P Require Import BlkDir.
From S2P Require Import BlkData.
From S2P Require Import QueueLock.
From S2P Require Import BlkLock.
From S2P Require Import DataRuns.
From S2P Require Import SegTable.
From S2P Require Import MtxTable.
From S2P Require Import SegLease.
From S2P Require Import BlkVers.
From S2P Require Import BlkVersOps.
From S2P Require Import Space.
From S2P Require Import SpaceInv.
From S2P Require Import SpaceRc.

(** * Who knows the last store *)

(** The processes and the mutexes, which hold what they know. *)
Inductive holder := HProc (p : Z) | HMtx (i : Z).

Definition rc_of (r : rc) (x : holder) : gset nat :=
  match x with HProc p => rc_seen r p | HMtx i => rc_mtx r i end.

Definition hb_of (h : hb) (x : holder) : gset (Z * Z) :=
  match x with HProc p => hb_seen h p | HMtx i => hb_mtx h i end.

(** The index of the last store to a byte. *)
Fixpoint last_idx (log : list store) (b : Z) (off : nat) : option nat :=
  match log with
  | [] => None
  | e :: log => if at_byte b off e then Some (length log) else last_idx log b off
  end.

(** A byte that nobody stored to is known to all. *)
Definition aware (seen : gset nat) (log : list store) (b : Z) (off : nat) : Prop :=
  match last_idx log b off with Some i => i ∈ seen | None => True end.

Lemma knows_aware seen b off log : knows_log seen b off log = true → aware seen log b off.
Proof.
  unfold aware. induction log as [|e log IH]; cbn; [done|]. intros [H1 H2]%andb_prop.
  destruct (at_byte b off e); [|by apply IH]. by apply bool_decide_eq_true in H1.
Qed.

Lemma aware_union A B log b off : aware (A ∪ B) log b off → aware A log b off ∨ aware B log b off.
Proof. unfold aware. destruct (last_idx log b off); [|by left]. by intros ?%elem_of_union. Qed.

Lemma aware_big_union {X} (f : X → gset nat) l x log b off :
  x ∈ l → aware (⋃ (f <$> l)) log b off → ∃ y, y ∈ l ∧ aware (f y) log b off.
Proof.
  unfold aware. destruct (last_idx log b off); [|by exists x]. intros _ (Y & (y & -> & Hy)%list_elem_of_fmap & ?)%elem_of_union_list.
  by exists y.
Qed.

Lemma last_idx_lt log b off i : last_idx log b off = Some i → (i < length log)%nat.
Proof.
  induction log as [|e log IH]; cbn; [done|]. destruct (at_byte b off e); [intros [= <-]; lia|].
  intros ?%IH. lia.
Qed.

Lemma last_store_cons e log b off :
  last_store (e :: log) b off = if at_byte b off e then Some (st_val e) else last_store log b off.
Proof.
  unfold last_store. rewrite filter_cons. destruct (at_byte b off e); [by rewrite decide_True|].
  by rewrite decide_False.
Qed.

(** The indices a holder knows are those of stores of the log. *)
Definition rc_bounded (r : rc) : Prop := ∀ x i, i ∈ rc_of r x → (i < length (rc_log r))%nat.

(** * The invariant of a byte *)
Section data.
Context {K M : Type} {HK : GlobalLock header K} (P : policy).
Context (num_procs : Z).
Context {HLK : @GlobalLockLaws header K HK (in_range num_procs) (enable_migration P)}.
Context (n : Z * Z → nat).
Context (layout : seg_table) (Hlayout : layout_wf P layout).
(** The initial data of the blocks. *)
Context (init : Z * Z → list Z).
#[local] Abbreviation sspace := (space K M).
#[local] Abbreviation valid := (in_range num_procs).
#[local] Abbreviation blk_vers loc := (@blk_vers K HK P valid HLK (n loc)).
#[local] Abbreviation blk_quiet loc := (@blk_quiet K HK P valid HLK (n loc)).
#[local] Abbreviation ghost := (Z * Z → blk_ghost).

(** The last value stored to a byte, or the initial one. *)
Definition cur_byte (r : rc) (blk_id : Z) (loc : Z * Z) (off : nat) : option Z :=
  match last_store (rc_log r) blk_id off with Some v => Some v | None => init loc !! off end.

Definition priv_byte (s : sspace) (p : Z) (loc : Z * Z) (off : nat) : option Z :=
  b ← sp_blks s !! loc; m ← bw_mems b !! p; bm_priv m !! off.

(** The write of the block at [k] happened before [x]. *)
Definition sees (h : hb) (x : holder) (blk_id k : Z) : Prop := k = 0 ∨ (blk_id, k) ∈ hb_of h x.

Inductive byte_ok (G : ghost) (s : sspace) (h : hb) (r : rc) (blk_id : Z) (loc : Z * Z) (off : nat) : Prop :=
| byte_released k :
    settled_from (bg_vers (G loc)) off k →
    (∀ q, off ∉ bg_edits (G loc) q) →
    head_data (bg_vers (G loc)) !! off = cur_byte r blk_id loc off →
    (∀ x, aware (rc_of r x) (rc_log r) blk_id off → sees h x blk_id k) →
    byte_ok G s h r blk_id loc off
| byte_pending k p v :
    valid p →
    settled_from (bg_vers (G loc)) off k →
    off ∈ bg_edits (G loc) p →
    last_store (rc_log r) blk_id off = Some v → priv_byte s p loc off = Some v →
    sees h (HProc p) blk_id k →
    (∀ x, aware (rc_of r x) (rc_log r) blk_id off → x = HProc p) →
    byte_ok G s h r blk_id loc off.

Definition bytes_ok (G : ghost) (s : sspace) (h : hb) (r : rc) : Prop :=
  ∀ blk_id loc off, known layout blk_id loc → byte_ok G s h r blk_id loc off.

Definition vers_of (G : ghost) (s : sspace) : Prop :=
  ∀ loc b, sp_blks s !! loc = Some b → blk_vers loc (G loc) b.

(** A change of what the holders know: who knows the last store afterwards got
    it from a holder that did, whose events it has; a process passes on what
    it stored only after it released it. *)
Lemma bytes_know G s h r h' r' :
  rc_log r' = rc_log r → (∀ p, valid p → hb_seen h p ⊆ hb_seen h' p) →
  (∀ x' b off, aware (rc_of r' x') (rc_log r) b off →
     ∃ x, aware (rc_of r x) (rc_log r) b off ∧ hb_of h x ⊆ hb_of h' x'
       ∧ (x' = x ∨ ∀ p, x = HProc p → ∀ loc, known layout b loc → bg_edits (G loc) p = ∅)) →
  bytes_ok G s h r → bytes_ok G s h' r'.
Proof.
  intros Hlog Hseen Hx Hb b loc off Hk. unfold cur_byte.
  destruct (Hb b loc off Hk) as [k Hs He Hh Ha|k p v Hval Hs He Hl Hp Hse Ha].
  - apply (byte_released _ _ _ _ _ _ _ k); try done; [by unfold cur_byte; rewrite Hlog|].
    rewrite Hlog. intros x' (x & Hax & Hsub & _)%Hx. destruct (Ha x Hax) as [?|?]; [by left|right]. by apply Hsub.
  - apply (byte_pending _ _ _ _ _ _ _ k p v); try done.
    + by rewrite Hlog.
    + destruct Hse as [?|?]; [by left|right]. by apply (Hseen p).
    + rewrite Hlog. intros x' (x & Hax & _ & Ho)%Hx. specialize (Ha x Hax). subst x.
      destruct Ho as [->|Ho]; [done|]. rewrite (Ho p eq_refl loc Hk) in He. by apply not_elem_of_empty in He.
Qed.

Lemma bytes_hb_grow G s h h' r :
  (∀ x, hb_of h x ⊆ hb_of h' x) → bytes_ok G s h r → bytes_ok G s h' r.
Proof.
  intros Hsub. apply bytes_know; [done|intros p _; apply (Hsub (HProc p))|].
  intros x b off Ha. exists x. split; [done|]. split; [apply Hsub|by left].
Qed.

(** * The steps of the fences *)
Record dstep (h : hb) (r : rc) (G : ghost) (s : sspace) (G' : ghost) (s' : sspace) : Prop := {
  ds_vers : vers_of G' s';
  ds_sync : ∀ loc q, bg_sync (G loc) q ≤ bg_sync (G' loc) q;
  ds_edits : ∀ loc q, bg_edits (G' loc) q ⊆ bg_edits (G loc) q;
  ds_bytes : bytes_ok G s h r → bytes_ok G' s' h r;
}.

Lemma dstep_refl h r G s : vers_of G s → dstep h r G s G s.
Proof. by split. Qed.

Lemma dstep_trans h r G s G1 s1 G2 s2 :
  dstep h r G s G1 s1 → dstep h r G1 s1 G2 s2 → dstep h r G s G2 s2.
Proof.
  intros [V1 S1 E1 B1] [V2 S2 E2 B2]. split; [done| | |auto].
  - intros loc q. specialize (S1 loc q). specialize (S2 loc q). lia.
  - intros loc q. etrans; [apply E2|apply E1].
Qed.

(** Only the blocks matter. *)
Lemma dstep_blks h r G s s' : sp_blks s' = sp_blks s → vers_of G s → dstep h r G s G s'.
Proof.
  intros Hb Hv. split; try done.
  - intros loc b. rewrite Hb. apply Hv.
  - intros Hk b loc off Hkn. destruct (Hk b loc off Hkn); [by eapply byte_released|].
    eapply byte_pending; try done. unfold priv_byte in *. by rewrite Hb.
Qed.

(** ** A step of one block *)
Lemma vers_put G s s' loc g b' :
  vers_of G s → sp_blks s' = <[loc := b']> (sp_blks s) → blk_vers loc g b' → vers_of (<[loc := g]> G) s'.
Proof.
  intros Hv Hb Hg loc' b. rewrite Hb. destruct (decide (loc' = loc)) as [->|Hne].
  - rewrite lookup_insert_eq, fn_lookup_insert. by intros [= <-].
  - rewrite lookup_insert_ne, fn_lookup_insert_ne by done. apply Hv.
Qed.

(** A byte of another block. *)
Lemma byte_other G s s' h r loc g b' blk_id loc' off :
  loc' ≠ loc → sp_blks s' = <[loc := b']> (sp_blks s) →
  byte_ok G s h r blk_id loc' off → byte_ok (<[loc := g]> G) s' h r blk_id loc' off.
Proof.
  intros Hne Hb. assert (<[loc:=g]> G loc' = G loc') as E by by apply fn_lookup_insert_ne.
  intros []; [by eapply byte_released; rewrite ?E|]. eapply byte_pending; rewrite ?E; try done.
  unfold priv_byte in *. by rewrite Hb, lookup_insert_ne.
Qed.

Lemma dstep_quiet h r G s s' loc b b' :
  vers_of G s → sp_blks s !! loc = Some b → sp_blks s' = <[loc := b']> (sp_blks s) →
  blk_quiet loc (G loc) b b' → ∃ G', dstep h r G s G' s'.
Proof.
  intros Hv Hb Hb' (g & [Qv Qe Qs] & Hkept & Hg). exists (<[loc := g]> G).
  split; [by eapply vers_put| | |].
  - intros loc' q. destruct (decide (loc' = loc)) as [->|Hne]; [rewrite fn_lookup_insert; apply Qs|].
    rewrite fn_lookup_insert_ne by done. done.
  - intros loc' q. destruct (decide (loc' = loc)) as [->|Hne]; [by rewrite fn_lookup_insert, Qe|].
    by rewrite fn_lookup_insert_ne.
  - intros Hok blk_id loc' off Hk. destruct (decide (loc' = loc)) as [->|Hne]; [|by eapply byte_other; eauto].
    assert (<[loc:=g]> G loc = g) as E by by apply fn_lookup_insert.
    destruct (Hok blk_id loc off Hk) as [k|k p v Hval Hs He Hl Hp ? ?].
    + apply (byte_released _ _ _ _ _ _ _ k); rewrite ?E, ?Qv, ?Qe; done.
    + apply (byte_pending _ _ _ _ _ _ _ k p v); rewrite ?E, ?Qv, ?Qe; try done.
      unfold priv_byte in *. rewrite Hb', lookup_insert_eq. rewrite Hb in Hp. cbn in Hp |- *.
      apply bind_Some in Hp as (m & Hm & Hp). destruct (Hkept p m off He Hm) as (m' & Hm' & Ev). rewrite Hm'. cbn. by rewrite Ev.
Qed.

(** A release publishes the stores of its process. *)
Section publish.
Context (h : hb) (r : rc) (G : ghost) (s s' : sspace) (blk_id : Z) (loc : Z * Z) (b b' : blk_world K).
Context (p : Z) (m : blk_mem) (ret : release_result) (data : list Z).
Context (Hv : vers_of G s) (Hb : sp_blks s !! loc = Some b) (Hb' : sp_blks s' = <[loc := b']> (sp_blks s)).
Context (Hm : bw_mems b !! p = Some m) (Hk : known layout blk_id loc).
Context (Hrel : released_blk P valid (n loc) p (G loc) b ret b' data).
#[local] Abbreviation wts := (ge_wr_ts (rl_new_ts ret)).
#[local] Abbreviation g' := (publish (rl_is_written ret) p wts (ge_rd_ts (rl_new_ts ret)) data (G loc)).

Lemma publish_head : head_data (bg_vers g') = data.
Proof using Hrel.
  cbn. destruct (rl_is_written ret) eqn:Ew; [done|]. symmetry. by apply (rb_same _ _ _ _ _ _ _ _ _ Hrel).
Qed.

Lemma publish_head_eq off :
  head_data (bg_vers g') !! off = if decide (off ∈ bg_edits (G loc) p) then bm_priv m !! off
                                  else head_data (bg_vers (G loc)) !! off.
Proof using Hrel Hm. rewrite publish_head. by apply (rb_bytes _ _ _ _ _ _ _ _ _ Hrel). Qed.

Lemma publish_settled off k :
  off ∉ bg_edits (G loc) p → settled_from (bg_vers (G loc)) off k → settled_from (bg_vers g') off k.
Proof using Hv Hb Hrel Hm.
  intros Hoff Hs. pose proof (publish_head_eq off) as Hd. rewrite publish_head, decide_False in Hd by done.
  cbn. destruct (rl_is_written ret) eqn:Ew; [|done].
  destruct (Hv loc b Hb) as (o & lw & ge & _ & Hok).
  destruct (vers_head _ _ _ _ _ Hok) as (rest & l & Hvs & Hhd & _ & Hsort).
  pose proof (rb_new _ _ _ _ _ _ _ _ _ Hrel Ew) as Hnew. rewrite Hhd in Hd. rewrite Hvs in *.
  apply settled_from_new; done.
Qed.

Context (Hh : rl_is_written ret = true → (blk_id, ge_wr_ts (rl_new_ts ret)) ∈ hb_seen h p).

(** The byte of a store of [p] has not changed since the new version. *)
Lemma publish_settled_own off k v :
  off ∈ bg_edits (G loc) p → priv_byte s p loc off = Some v → settled_from (bg_vers (G loc)) off k →
  sees h (HProc p) blk_id k →
  ∃ k', settled_from (bg_vers g') off k' ∧ sees h (HProc p) blk_id k' ∧ head_data (bg_vers g') !! off = Some v.
Proof using Hv Hb Hrel Hm Hh.
  intros Hoff Hp Hs Hk'. pose proof (publish_head_eq off) as Hd. rewrite decide_True in Hd by done.
  unfold priv_byte in Hp. rewrite Hb in Hp. cbn in Hp. rewrite Hm in Hp. cbn in Hp.
  rewrite Hd, Hp. cbn. destruct (rl_is_written ret) eqn:Ew; [|by exists k].
  exists wts. split; [|by split; [right; apply Hh|]].
  destruct (Hv loc b Hb) as (o & lw & ge & _ & Hok).
  destruct (vers_head _ _ _ _ _ Hok) as (rest & l & Hvs & _ & _ & Hsort).
  pose proof (rb_new _ _ _ _ _ _ _ _ _ Hrel Ew) as Hnew. rewrite Hvs in *.
  apply settled_from_at; [done|]. apply (Hnew (ge_wr_ts ge, l)). by left.
Qed.

Lemma dstep_publish : dstep h r G s (<[loc := g']> G) s'.
Proof using All.
  assert (<[loc:=g']> G loc = g') as E by by apply fn_lookup_insert.
  split.
  - eapply vers_put; [done|done|apply Hrel].
  - intros loc' q. destruct (decide (loc' = loc)) as [->|Hne]; [|by rewrite fn_lookup_insert_ne].
    rewrite E. apply publish_sync_grow, Hrel.
  - intros loc' q. destruct (decide (loc' = loc)) as [->|Hne]; [|by rewrite fn_lookup_insert_ne].
    rewrite E. intros off Hoff. by apply publish_edits_sub in Hoff as [_ ?].
  - intros Hok blk loc' off Hkn. destruct (decide (loc' = loc)) as [->|Hne]; [|by eapply byte_other; eauto].
    rewrite (known_inj P layout Hlayout blk blk_id loc Hkn Hk).
    destruct (Hok blk_id loc off Hk) as [k Hs He Hhd Ha|k q v Hval Hs He Hl Hp Hse Ha].
    + apply (byte_released _ _ _ _ _ _ _ k); rewrite ?E; try done.
      * by apply publish_settled.
      * intros q Hq. apply publish_edits_sub in Hq as [_ Hq]. by apply (He q).
      * by rewrite publish_head_eq, decide_False.
    + destruct (Hv loc b Hb) as (o & lw & ge & _ & Hvo). pose proof (vo_disj _ _ _ _ _ Hvo) as Hdj.
      destruct (decide (q = p)) as [->|Hne].
      * destruct (publish_settled_own off k v He Hp Hs Hse) as (k' & Hs' & Hk' & Hhd).
        apply (byte_released _ _ _ _ _ _ _ k'); rewrite ?E; try done.
        -- intros q Hq. apply publish_edits_sub in Hq as [Hqp Hq]. by apply Hqp, (Hdj q p off).
        -- rewrite Hhd. unfold cur_byte. by rewrite Hl.
        -- intros x Hx. by rewrite (Ha x Hx).
      * assert (off ∉ bg_edits (G loc) p) as Hnp by (intros Hx; by apply Hne, (Hdj q p off)).
        apply (byte_pending _ _ _ _ _ _ _ k q v); rewrite ?E; try done.
        -- by apply publish_settled.
        -- by rewrite publish_edits_ne.
        -- unfold priv_byte in *. rewrite Hb', lookup_insert_eq. rewrite Hb in Hp. cbn in Hp |- *.
           apply bind_Some in Hp as (mq & Hmq & Hp). rewrite (rb_others _ _ _ _ _ _ _ _ _ Hrel q mq) by done. done.
Qed.
End publish.

(** * Stores *)

Lemma byte_rc G s h r r' blk_id loc off :
  last_store (rc_log r') blk_id off = last_store (rc_log r) blk_id off →
  (∀ x, aware (rc_of r' x) (rc_log r') blk_id off → aware (rc_of r x) (rc_log r) blk_id off) →
  byte_ok G s h r blk_id loc off → byte_ok G s h r' blk_id loc off.
Proof.
  intros El Ha' [k Hs He Hhd Ha|k q w Hval Hs He Hl Hp Hse Ha].
  - apply (byte_released _ _ _ _ _ _ _ k); auto. unfold cur_byte. by rewrite El.
  - apply (byte_pending _ _ _ _ _ _ _ k q w); auto. by rewrite El.
Qed.

Section store.
Context (G : ghost) (s s' : sspace) (h : hb) (r : rc) (p blk_id : Z) (off : nat) (v : Z).
Context (loc : Z * Z) (b b' : blk_world K).
Context (Hv : vers_of G s) (Hb : sp_blks s !! loc = Some b) (Hb' : sp_blks s' = <[loc := b']> (sp_blks s)).
Context (Hk : known layout blk_id loc) (Hbound : rc_bounded r) (Hp : valid p).
#[local] Abbreviation G' := (<[loc := edit p off (G loc)]> G).
#[local] Abbreviation r' := (rc_do num_procs (CStore p blk_id off v) r).

Lemma store_aware_new x : aware (rc_of r' x) (rc_log r') blk_id off → x = HProc p.
Proof using Hbound.
  unfold aware. cbn [rc_do rc_log last_idx at_byte st_blk st_off].
  unfold at_byte. cbn [st_blk st_off]. rewrite Z.eqb_refl, Nat.eqb_refl. cbn [andb]. intros Hx.
  destruct x as [q|i]; cbn in Hx; [|specialize (Hbound (HMtx i) _ Hx); lia].
  destruct (decide (q = p)) as [->|Hne]; [done|]. rewrite fn_lookup_insert_ne in Hx by done.
  specialize (Hbound (HProc q) _ Hx). lia.
Qed.

Lemma store_aware_old x b1 o1 : at_byte b1 o1 (Store blk_id off v) = false →
  aware (rc_of r' x) (rc_log r') b1 o1 → aware (rc_of r x) (rc_log r) b1 o1.
Proof.
  intros E. unfold aware. cbn [rc_do rc_log last_idx]. rewrite E.
  destruct (last_idx (rc_log r) b1 o1) as [i|] eqn:Ei; [|done]. apply last_idx_lt in Ei.
  destruct x as [q|j]; cbn; [|done]. destruct (decide (q = p)) as [->|Hne].
  - rewrite fn_lookup_insert. intros [?%elem_of_singleton|?]%elem_of_union; [lia|done].
  - by rewrite fn_lookup_insert_ne.
Qed.

Lemma store_bounded : rc_bounded r'.
Proof using Hbound.
  intros [q|j] i; cbn [rc_do rc_of rc_seen rc_mtx rc_log length].
  - destruct (decide (q = p)) as [->|Hne].
    + rewrite fn_lookup_insert. intros [?%elem_of_singleton|Hx]%elem_of_union; [lia|].
      specialize (Hbound (HProc p) i Hx). lia.
    + rewrite fn_lookup_insert_ne by done. intros Hx. specialize (Hbound (HProc q) i Hx). lia.
  - intros Hx. specialize (Hbound (HMtx j) i Hx). lia.
Qed.

Context (Hpriv : priv_byte s' p loc off = Some v).
Context (Hkeep : ∀ q o w, (q, o) ≠ (p, off) → priv_byte s q loc o = Some w → priv_byte s' q loc o = Some w).
Context (k : Z) (Hs : settled_from (bg_vers (G loc)) off k) (Hse : sees h (HProc p) blk_id k).

Lemma bytes_store : bytes_ok G s h r → bytes_ok G' s' h r'.
Proof using All.
  intros Hok b1 loc1 o1 Hk1. destruct (at_byte b1 o1 (Store blk_id off v)) eqn:E.
  { unfold at_byte in E. cbn in E. apply andb_prop in E as [<-%Z.eqb_eq <-%Nat.eqb_eq].
    rewrite (known_fun P layout Hlayout blk_id loc1 loc Hk1 Hk).
    apply (byte_pending _ _ _ _ _ _ _ k p v); rewrite ?fn_lookup_insert; try done.
    - rewrite edit_eq. set_solver.
    - cbn [rc_do rc_log]. rewrite last_store_cons. unfold at_byte. cbn. by rewrite Z.eqb_refl, Nat.eqb_refl.
    - apply store_aware_new. }
  assert (last_store (rc_log r') b1 o1 = last_store (rc_log r) b1 o1) as El.
  { cbn [rc_do rc_log]. by rewrite last_store_cons, E. }
  assert (∀ x, aware (rc_of r' x) (rc_log r') b1 o1 → aware (rc_of r x) (rc_log r) b1 o1) as Ha'.
  { intros x. by apply store_aware_old. }
  apply (byte_rc G' s' h r r' b1 loc1 o1 El Ha').
  destruct (decide (loc1 = loc)) as [->|Hne]; [|by eapply byte_other; eauto].
  rewrite (known_inj P layout Hlayout b1 blk_id loc Hk1 Hk) in *. assert (o1 ≠ off) as Hoff.
  { intros ->. unfold at_byte in E. cbn in E. by rewrite Z.eqb_refl, Nat.eqb_refl in E. }
  assert (G' loc = edit p off (G loc)) as EG by apply fn_lookup_insert.
  assert (∀ q, o1 ∈ bg_edits (edit p off (G loc)) q ↔ o1 ∈ bg_edits (G loc) q) as He1.
  { intros q. destruct (decide (q = p)) as [->|Hq]; [rewrite edit_eq; set_solver|by rewrite edit_ne]. }
  destruct (Hok blk_id loc o1 Hk) as [k1 Hs1 He Hhd Ha|k1 q w Hval Hs1 He Hl Hpb Hse1 Ha].
  - apply (byte_released _ _ _ _ _ _ _ k1); rewrite ?EG; auto. intros q. by rewrite He1.
  - apply (byte_pending _ _ _ _ _ _ _ k1 q w); rewrite ?EG; auto.
    + by rewrite He1.
    + apply Hkeep; [congruence|done].
Qed.
End store.

(** * Reads *)
Section read.
Context (G : ghost) (s : sspace) (h : hb) (r : rc) (p blk_id : Z) (loc : Z * Z) (off : nat).
Context (b : blk_world K) (le : local_entry) (m : blk_mem).
Context (Hv : vers_of G s) (Hb : sp_blks s !! loc = Some b).
Context (Hle : bw_dirs b !! p = Some le) (Hm : bw_mems b !! p = Some m).
Context (Hvalid : is_invalid (le_state le) = false).
(** The copy includes the writes that happened before. *)
Context (Hfresh : ∀ k, (blk_id, k) ∈ hb_seen h p → k ≤ le_cur_rd_ts le).
Context (Hbyte : byte_ok G s h r blk_id loc off) (Ha : aware (rc_seen r p) (rc_log r) blk_id off).

Lemma read_copy : copy_ok (G loc) p le m.
Proof using Hv Hb Hle Hm. destruct (Hv loc b Hb) as (o & lw & ge & _ & Hok). by apply Hok. Qed.

Lemma byte_settled : settled (bg_vers (G loc)) off (le_cur_rd_ts le).
Proof using Hv Hb Hle Hm Hfresh Hbyte Ha.
  assert (∀ k, sees h (HProc p) blk_id k → k ≤ le_cur_rd_ts le) as Hk.
  { pose proof (cp_sync _ _ _ _ read_copy). intros k [->|?]; [lia|by apply Hfresh]. }
  destruct Hbyte as [k Hs _ _ Hall|k q v _ Hs _ _ _ Hse Hall]; eapply settled_from_settled; try exact Hs; apply Hk.
  - by apply (Hall (HProc p)).
  - by rewrite (Hall (HProc p) Ha).
Qed.

(** A process that knows the last store reads its value. *)
Lemma byte_read : bm_priv m !! off = cur_byte r blk_id loc off.
Proof using Hv Hb Hle Hm Hvalid Hfresh Hbyte Ha.
  pose proof byte_settled as Hset. pose proof read_copy as [P1 P2 P3 P4 P5 P6 P7 P8].
  destruct Hbyte as [k Hs He Hhd _|k q v Hval Hs He Hl Hp _ Hall].
  - rewrite <-Hhd. destruct (dirty_state (le_state le)) eqn:Hd.
    + rewrite (P6 eq_refl) by apply He. apply Hset. by rewrite <-(P5 eq_refl Hvalid).
    + apply Hset. apply P4; [done|by left].
  - pose proof (Hall (HProc p) Ha) as [= <-]. unfold cur_byte. rewrite Hl. unfold priv_byte in Hp.
    rewrite Hb in Hp. cbn in Hp. by rewrite Hm in Hp.
Qed.
End read.
End data.
