(* ===== verification/SpaceFence.v ===== *)
(** The data of the address space: the calls on blocks and the fences.

    Each call of Space.v, as long as the process never had to honour the
    timestamp of a truncated signature, is a sequence of the steps of
    SpaceData.v; a release fence leaves no store of its process unreleased, and
    its write notices are within what their home has synced. *)
From Stdlib Require Import ZArith Lia Permutation.
From stdpp Require Import base tactics functions sets list gmap.
From S2P Require Import Prelude.
From S2P Require Import Policy.
From S2P Require Import SigBuffer.
From S2P Require Import Layout.
From S2P Require Import RdSet.
From S2P Require Import WrSet.
From S2P Require Import BlkDir.
From S2P Require Import BlkData.
From S2P Require Import QueueLock.
From S2P Require Import BlkLock.
From S2P Require Import DataRuns.
From S2P Require Import SegTable.
From S2P Require Import MtxTable.
From S2P Require Import SegLease.
From S2P Require Import BlkVers.
From S2P Require Import BlkVersOps.
From S2P Require Import Space.
From S2P Require Import SpaceInv.
From S2P Require Import SpaceSys.
From S2P Require Import SpaceRc.
From S2P Require Import SpaceData.

Section fence.
Context {K M : Type} {HK : GlobalLock header K} (P : policy).
Context (num_procs : Z).
Context {HLK : @GlobalLockLaws header K HK (in_range num_procs) (enable_migration P)}.
Context (Hcfg : config_allowed P = true) (Hdir : use_directory_coherence P = false).
Context (Hlease : 0 ≤ lease_ts P).
Context (Hmig : enable_migration P = true) (Hlazy : enable_lazy_merge P = false).
Context (n : Z * Z → nat).
Context (layout : seg_table) (Hlayout : layout_wf P layout).
Context (Hflags : flags_are (H := seg_ft P) layout ∅).
Context (sched : nat → list nat) (Hsched : ∀ m, is_schedule m (sched m)).
Context {Hsort : StdSort greater_wn}.
Context (init : Z * Z → list Z).
(** The stores and events up to now. *)
Context (h : hb) (r : rc).
#[local] Abbreviation sspace := (space K M).
#[local] Abbreviation valid := (in_range num_procs).
#[local] Abbreviation ghost := (Z * Z → blk_ghost).
#[local] Abbreviation known := (known layout).
#[local] Abbreviation world_ok := (@world_ok K M HK P num_procs HLK n layout).
#[local] Abbreviation own_inv := (@own_inv K M HK P num_procs HLK n layout).
#[local] Abbreviation wn_good := (@wn_good K M HK P num_procs HLK n layout).
#[local] Abbreviation lease_pre loc := (@lease_pre K HK P valid HLK (n loc)).
#[local] Abbreviation blk_vers loc := (@blk_vers K HK P valid HLK (n loc)).
#[local] Abbreviation blk_quiet loc := (@blk_quiet K HK P valid HLK (n loc)).
#[local] Abbreviation vers_of := (@vers_of K M HK P num_procs HLK n).
#[local] Abbreviation calm := (@calm K M num_procs).
#[local] Abbreviation dstep := (@dstep K M HK P num_procs HLK n layout init h r).

(** A notice within what its home has synced. *)
Definition wn_synced (G : ghost) (wn : wn_entry) : Prop :=
  ∃ loc, known (wn_blk_id wn) loc ∧ wn_rd_ts wn ≤ bg_sync (G loc) (wn_home_proc wn).

Lemma synced_mono (G G' : ghost) wn :
  (∀ loc q, bg_sync (G loc) q ≤ bg_sync (G' loc) q) → wn_synced G wn → wn_synced G' wn.
Proof. intros H (loc & Hk & Hl). exists loc. split; [done|]. specialize (H loc (wn_home_proc wn)). lia. Qed.

(** ** Calls on one block *)
Lemma seg_call_inv {A} T p blk_id loc op (s : sspace) (a : A) s' :
  world_ok T s → valid p → known blk_id loc → seg_call P p blk_id op s = Ok (a, s') →
  ∃ ps b ge le rs' ws' b', sp_procs s !! p = Some ps ∧ sp_blks s !! loc = Some b
    ∧ lease_pre loc T p (sp_rd ps) b ge le
    ∧ op (sp_rd ps) (sp_wr ps) b = Ok (a, rs', ws', b') ∧ sp_blks s' = <[loc := b']> (sp_blks s).
Proof using Hlayout.
  intros Hok Hp Hk E. destruct (wo_procs Hok p Hp) as (ps & Hps & Hlay & Hrs & Hmin).
  destruct (locate_known P layout Hlayout (sp_layout ps) blk_id loc Hlay Hk) as [t Eloc].
  destruct (wo_known Hok blk_id loc Hk) as [b Hb]. destruct (wo_blks Hok loc b Hb) as [ge Hco].
  destruct (co_at _ _ _ _ _ _ Hco) as (owner & lw & Hwf).
  destruct (bf_procs _ _ _ _ _ _ _ Hwf p Hp) as (le & m & Hle & _).
  unfold seg_call, get_proc, with_local_lock in E. rewrite Hps, bind_Ok in E. cbn [sw_layout sw_blks] in E.
  rewrite Eloc, bind_Ok, <-surjective_pairing, Hb in E.
  apply bind_ok in E as ([[[a1 rs1] ws1] w] & E & Ea).
  apply bind_ok in E as ([[[a2 rs2] ws2] b2] & E & [= -> -> -> <-]).
  apply bind_ok in E as ([[[a3 rs3] ws3] b3] & Eo & [= -> -> -> ->]).
  cbn in Ea. injection Ea as -> <-. by exists ps, b, ge, le, rs1, ws1, b2.
Qed.

Lemma call_quiet {A} T p blk_id loc op (s : sspace) (a : A) s' (G : ghost) :
  world_ok T s → valid p → known blk_id loc → calm s → vers_of G s →
  seg_call P p blk_id op s = Ok (a, s') →
  (∀ ps b ge le rs' ws' b', sp_procs s !! p = Some ps → sp_blks s !! loc = Some b →
     lease_pre loc T p (sp_rd ps) b ge le → rs_min_wr_ts (sp_rd ps) = 0 → blk_vers loc (G loc) b →
     op (sp_rd ps) (sp_wr ps) b = Ok (a, rs', ws', b') → blk_quiet loc (G loc) b b') →
  ∃ G', dstep G s G' s'.
Proof using Hlayout.
  intros Hok Hp Hk Hcalm Hv E Hop.
  destruct (seg_call_inv T p blk_id loc op s a s' Hok Hp Hk E)
    as (ps & b & ge & le & rs' & ws' & b' & Hps & Hb & Hpre & Eo & Hb').
  eapply dstep_quiet; [done|exact Hb|exact Hb'|]. eapply Hop; try done; [by apply (Hcalm p)|by apply Hv].
Qed.

Lemma read_data T p blk_id loc s a s' G :
  world_ok T s → valid p → known blk_id loc → next_ts P T < u64_mod → calm s → vers_of G s →
  space_start_read P p blk_id s = Ok (a, s') → ∃ G', dstep G s G' s'.
Proof using Hlayout Hdir Hlease Hmig Hlazy.
  intros Hok Hp Hk HT Hcalm Hv E. eapply call_quiet; [done|done|exact Hk|done|done|exact E|].
  intros ps b ge le rs' ws' b' Hps Hb Hpre Hmin Hvb Eo. apply bind_ok in Eo as ([[x rs] b1] & Eo & [= -> -> <- ->]).
  by eapply (read_vers P valid Hdir Hlease Hmig Hlazy (n loc) T).
Qed.

Lemma write_data T p blk_id loc s a s' G :
  world_ok T s → valid p → known blk_id loc → next_ts P (next_ts P T) < u64_mod → calm s → vers_of G s →
  space_start_write P p blk_id s = Ok (a, s') → ∃ G', dstep G s G' s'.
Proof using Hlayout Hcfg Hdir Hlease Hmig Hlazy.
  intros Hok Hp Hk HT Hcalm Hv E. unfold space_start_write in E. apply bind_ok in E as ([[x w] s1] & E & [= <- <-]).
  eapply call_quiet; [done|done|exact Hk|done|done|exact E|].
  intros ps b ge le rs' ws' b' Hps Hb Hpre Hmin Hvb Eo.
  by eapply (start_write_vers P valid Hcfg Hdir Hlease Hmig Hlazy (n loc) T).
Qed.

Lemma pin_data T p blk_id loc s a s' G :
  world_ok T s → valid p → known blk_id loc → next_ts P (next_ts P T) < u64_mod → calm s → vers_of G s →
  (∀ le, entry p loc s = Some le → le_state le ≠ pinned) →
  pin_block P p blk_id s = Ok (a, s') → ∃ G', dstep G s G' s'.
Proof using Hlayout Hcfg Hdir Hlease Hmig Hlazy.
  intros Hok Hp Hk HT Hcalm Hv Hnp E. unfold pin_block in E. apply bind_ok in E as ([[x w] s1] & E & [= <- <-]).
  eapply call_quiet; [done|done|exact Hk|done|done|exact E|].
  intros ps b ge le rs' ws' b' Hps Hb Hpre Hmin Hvb Eo.
  eapply (pin_vers P valid Hcfg Hdir Hlease Hmig Hlazy (n loc) T); try done.
  apply Hnp. unfold entry. rewrite Hb. apply Hpre.
Qed.

Lemma unpin_data T p blk_id loc s s' G :
  world_ok T s → valid p → known blk_id loc → calm s → vers_of G s →
  (∀ le, entry p loc s = Some le → le_state le = pinned) →
  unpin_block P p blk_id s = Ok s' → ∃ G', dstep G s G' s'.
Proof using Hlayout.
  intros Hok Hp Hk Hcalm Hv Hpin E. unfold unpin_block in E. apply bind_ok in E as ([u s1] & E & E2).
  apply bind_ok in E2 as (ps & _ & [= <-]).
  assert (∃ G', dstep G s G' s1) as (G' & Hd).
  { eapply call_quiet; [done|done|exact Hk|done|done|exact E|].
    intros ps0 b ge le rs' ws' b' Hps Hb Hpre Hmin Hvb Eo. apply bind_ok in Eo as (b1 & Eo & [= <- <- <- ->]).
    eapply (unpin_vers P valid (n loc) T); try done. apply Hpin. unfold entry. rewrite Hb. apply Hpre. }
  exists G'. eapply dstep_trans; [exact Hd|]. apply dstep_blks; [done|apply Hd].
Qed.

(** ** Acquires *)
Lemma calm_step T T' p s s' : world_ok T s → valid p → step_eff P num_procs n layout T' p s s' → calm s → calm s'.
Proof.
  intros Hok Hp Heff Hcalm q ps1 Hq Hps1. destruct (decide (q = p)) as [->|Hne].
  - destruct (wo_procs Hok p Hp) as (ps & Hps & _).
    destruct (se_own Heff ps Hps) as (ps' & Hps' & _ & _ & Hm & _). simplify_eq. rewrite Hm. by apply (Hcalm p).
  - rewrite (se_procs Heff) in Hps1 by done. by apply (Hcalm q).
Qed.

(** Timestamps only grow, so the system was calm before. *)
Lemma calm_back T s s' : world_ok T s → sys_eff P num_procs n layout s s' → calm s' → calm s.
Proof.
  intros Hok Heff Hcalm p ps Hp Hps. destruct (wo_procs Hok p Hp) as (ps0 & Hps0 & _ & _ & Hm). simplify_eq.
  destruct (ye_min _ _ _ _ _ _ Heff p ps Hps) as (ps' & Hps' & Hle). specialize (Hcalm p ps' Hp Hps'). lia.
Qed.

(** The timestamp of a signature that is not truncated does nothing. *)
Lemma acquire_min_calm T p m s s' :
  world_ok T s → valid p → no_pinned p s → own_inv T p s → 0 ≤ m ≤ T → next_ts P T < u64_mod →
  calm s → calm s' → acquire_min_wr_ts P p m s = Ok s' → s' = s.
Proof using Hlayout Hlease.
  intros Hok Hp Hnp Hinv Hm HT Hcalm Hcalm' E.
  pose proof (runs_ok P _ _ _ (acquire_min_runs P num_procs Hlease n layout Hlayout T p m s Hok Hp Hnp Hinv Hm HT) E)
    as (Heff & _ & _ & _ & _ & Hmin).
  destruct (wo_procs Hok p Hp) as (ps & Hps & _).
  destruct (pe_own Heff ps Hps) as (ps' & Hps' & _). specialize (Hmin ps' Hps').
  rewrite (Hcalm' p ps' Hp Hps') in Hmin. specialize (Hcalm p ps Hp Hps).
  unfold acquire_min_wr_ts, RdSet.self_invalidate in E. rewrite (get_rd_Some p s ps Hps) in E.
  unfold self_invalidate_begin in E. rewrite Hcalm, (proj2 (is_greater_rd_ts_false m 0) Hmin) in E.
  by injection E as <-.
Qed.

Lemma acquire_loop_data T p st wns s s' G :
  world_ok T s → valid p → no_pinned p s → 0 ≤ st ≤ T → next_ts P T < u64_mod →
  Forall (wn_good s) wns → Forall (wn_synced G) wns → calm s → vers_of G s →
  acquire_wns_loop P p st wns s = Ok s' → ∃ G', dstep G s G' s'.
Proof using Hlayout Hlease.
  intros Hok Hp Hnp Hst HT. revert s G Hok Hnp.
  induction wns as [|wn wns IH]; intros s G Hok Hnp Hg Hsy Hcalm Hv E; cbn [acquire_wns_loop] in E.
  { injection E as <-. exists G. by apply dstep_refl. }
  apply bind_ok in E as ([x s1] & E1 & E). apply Forall_cons in Hg as [Hg1 Hg], Hsy as [Hs1 Hsy].
  destruct Hg1 as (_ & loc & ge & Hk & Hge & Hno).
  pose proof (runs_ok P _ _ _ (acquire_call_runs P num_procs Hlease n layout Hlayout T p st wn loc ge s
    Hok Hp Hk Hnp Hst HT Hge Hno) E1) as Hpost.
  assert (no_pinned p s1) as Hnp1 by (apply (call_no_pinned P num_procs n layout _ _ _ _ _ _ _ Hnp Hpost); naive_solver).
  destruct Hpost as (Heff & _).
  assert (∃ G', dstep G s G' s1) as (G1 & Hd1).
  { eapply call_quiet; [done|done|exact Hk|done|done|exact E1|].
    intros ps b ge0 le rs' ws' b' Hps Hb Hpre Hmin Hvb Eo. apply bind_ok in Eo as ([[y rs] b1] & Eo & [= <- -> <- ->]).
    assert (ge0 = ge) as ->.
    { apply (ge_of_fun P num_procs n loc s ge0 ge); [|done]. exists b. split; [done|]. apply Hpre. }
    destruct Hs1 as (loc' & Hk' & Hs1). rewrite (known_fun P layout Hlayout _ _ _ Hk' Hk) in Hs1.
    eapply (acquire_vers P valid Hlease (n loc) T); try done. rewrite no_pinned_entry in Hnp.
    apply (Hnp loc). unfold entry. rewrite Hb. apply Hpre. }
  destruct (IH s1 G1) as (G2 & Hd2); [apply Heff|done| | | |apply Hd1|exact E|].
  - eapply Forall_impl; [exact Hg|]. intros w. by eapply wn_good_mono.
  - eapply Forall_impl; [exact Hsy|]. intros w. apply synced_mono, Hd1.
  - by eapply calm_step.
  - exists G2. by eapply dstep_trans.
Qed.

(** ** Releases *)
Lemma release_one_data T p st blk_id loc s ret s' G :
  world_ok T s → valid p → known blk_id loc → 0 ≤ st ≤ T → next_ts P T < u64_mod → vers_of G s →
  release_call P p st blk_id s = Ok (ret, s') →
  (rl_release_completed ret && rl_is_written ret = true → (blk_id, ge_wr_ts (rl_new_ts ret)) ∈ hb_seen h p) →
  ∃ G', dstep G s G' s' ∧ bg_edits (G' loc) p = ∅
    ∧ (rl_release_completed ret && rl_is_written ret = true → wn_synced G' (release_notice blk_id ret)).
Proof using Hlayout Hcfg Hlease Hmig Hlazy.
  intros Hok Hp Hk Hst HT Hv E Hh.
  destruct (seg_call_inv T p blk_id loc _ s ret s' Hok Hp Hk E)
    as (ps & b & ge & le & rs' & ws' & b' & Hps & Hb & Hpre & Eo & Hb').
  apply bind_ok in Eo as ([[y rs] b1] & Eo & [= -> -> <- ->]).
  destruct (Hv loc b Hb) as (o & lw & ge1 & Hwf & Hvo).
  destruct (blk_copies P valid (n loc) b o lw ge1 p Hwf Hp) as (le0 & m & Hle & Hm & _).
  pose proof (lp_le _ _ _ _ _ _ _ _ _ Hpre) as Hle'. rewrite Hle' in Hle. injection Hle as <-.
  pose proof (vo_copies _ _ _ _ _ Hvo p le m Hle' Hm) as Hcp.
  pose proof (release_vers P valid Hcfg Hlease Hmig Hlazy (n loc) T p st blk_id (sp_rd ps) b ge le (G loc) ret rs' b'
    Hpre Hst HT (Hv loc b Hb) Eo) as Hrel.
  destruct (dirty_state (le_state le)) eqn:Hd.
  - destruct Hrel as (data & Hrel). rewrite (rb_completed _ _ _ _ _ _ _ _ _ Hrel) in *. cbn [andb] in *.
    eexists. split; [by eapply (dstep_publish P num_procs n layout Hlayout init h r G s s' blk_id loc b b' p m ret data)|].
    rewrite fn_lookup_insert. split; [apply publish_edits_eq|]. intros Hw. exists loc. split; [done|].
    rewrite fn_lookup_insert. cbn [release_notice wn_rd_ts wn_home_proc].
    rewrite (rb_owner _ _ _ _ _ _ _ _ _ Hrel), publish_sync_eq. done.
  - destruct Hrel as [-> Hc]. rewrite Hc. exists G. split.
    + apply dstep_blks; [|done]. by rewrite Hb', insert_id.
    + split; [by apply Hcp|done].
Qed.

Lemma release_loop_data T p st ids order s rs s' G :
  world_ok T s → valid p → Forall (ft_known (FlagTable := seg_ft P) layout) ids → NoDup order →
  0 ≤ st ≤ T → later_ts P T (Z.of_nat (length order)) < u64_mod → vers_of G s →
  release_loop (release_call P p st) ids order s = Ok (rs, s') →
  (∀ i b ret, ids !! i = Some b → rs !! i = Some ret → rl_release_completed ret && rl_is_written ret = true →
     (b, ge_wr_ts (rl_new_ts ret)) ∈ hb_seen h p) →
  ∃ G', dstep G s G' s'
    ∧ (∀ i b loc, i ∈ order → ids !! i = Some b → known b loc → bg_edits (G' loc) p = ∅)
    ∧ ∀ i b ret, ids !! i = Some b → rs !! i = Some ret → rl_release_completed ret && rl_is_written ret = true →
        wn_synced G' (release_notice b ret).
Proof using Hlayout Hcfg Hlease Hmig Hlazy.
  intros Hok Hp Hids Hnd Hst. revert T s rs G Hok Hst.
  induction order as [|i order IH]; intros T s rs G Hok Hst HT Hv E Hh; cbn [release_loop] in E.
  { injection E as <- <-. exists G. split; [by apply dstep_refl|].
    split; [by intros ? ? ? ?%not_elem_of_nil|]. by intros ? ? ? _ ?%lookup_empty_Some. }
  apply NoDup_cons in Hnd as [Hni Hnd]. destruct (ids !! i) as [b|] eqn:Ei; [|done].
  apply bind_ok in E as ([ret s1] & E1 & E). apply bind_ok in E as ([rs1 s2] & E2 & [= <- <-]).
  destruct (release_loop_runs _ ids order s1 rs1 s2 Hnd E2) as (_ & _ & _ & Hdom).
  assert (rs1 !! i = None) as Hrs1.
  { apply eq_None_not_Some. by rewrite Hdom. }
  cbn [length] in HT. rewrite later_ts_S in HT.
  pose proof (later_ts_ge P Hlease (next_ts P T) (Z.of_nat (length order)) ltac:(lia)) as HTle.
  assert (T ≤ next_ts P T) by (unfold next_ts; lia).
  destruct (ft_known_loc P layout b) as [loc Hk].
  { rewrite Forall_forall in Hids. apply Hids. by eapply list_elem_of_lookup_2. }
  pose proof (runs_ok P _ _ _ (release_one P num_procs Hcfg Hlease n layout Hlayout T p st b loc s
    Hok Hp Hk Hst ltac:(lia)) E1) as (Heff & _).
  destruct (release_one_data T p st b loc s ret s1 G) as (G1 & Hd1 & He1 & Hs1); try done; [lia| |].
  { apply (Hh i); [done|apply lookup_insert_eq]. }
  destruct (IH Hnd (next_ts P T) s1 rs1 G1) as (G2 & Hd2 & He2 & Hs2); [apply Heff|lia|done|apply Hd1|done| |].
  { intros j c ret' Ec Er. apply (Hh j); [done|]. rewrite lookup_insert_ne; [done|]. by intros ->; simplify_eq. }
  exists G2. split; [by eapply dstep_trans|]. split.
  - intros j c loc' [->|Hj]%elem_of_cons Ec Hk'; [|by apply (He2 j c)]. simplify_eq.
    rewrite (known_fun P layout Hlayout _ _ _ Hk' Hk). pose proof (ds_edits _ _ _ _ _ _ _ _ _ _ _ Hd2 loc p) as Hsub.
    rewrite He1 in Hsub. apply elem_of_equiv_empty_L. by intros x ?%Hsub%not_elem_of_empty.
  - intros j c ret' Ec. destruct (decide (j = i)) as [->|Hne].
    + rewrite lookup_insert_eq. intros [= <-] Hw. simplify_eq. eapply synced_mono; [apply Hd2|by apply Hs1].
    + rewrite lookup_insert_ne by done. by apply Hs2.
Qed.

(** ** Signatures *)
Definition own_synced (G : ghost) (p : Z) (s : sspace) : Prop :=
  Forall (wn_synced G) (wn_vec (sig_of p s)).

Lemma sig_of_Some p (s : sspace) ps : sp_procs s !! p = Some ps → sig_of p s = sp_sig ps.
Proof. unfold sig_of. by intros ->. Qed.

(** The calls on blocks do not touch the signatures. *)
Lemma seg_call_sigs {A} p blk_id op (s : sspace) (a : A) s' q :
  seg_call P p blk_id op s = Ok (a, s') → sig_of q s' = sig_of q s.
Proof.
  unfold seg_call, get_proc. destruct (sp_procs s !! p) as [ps|] eqn:Hps; [|done]. rewrite bind_Ok.
  intros E. apply bind_ok in E as ([[[a1 rs] ws] w] & _ & [= _ <-]). unfold sig_of. cbn.
  destruct (decide (q = p)) as [->|Hne]; [by rewrite lookup_insert_eq, Hps|by rewrite lookup_insert_ne].
Qed.

Lemma acquire_loop_sigs p st wns (s s' : sspace) q : acquire_wns_loop P p st wns s = Ok s' → sig_of q s' = sig_of q s.
Proof.
  revert s. induction wns as [|wn wns IH]; intros s E; cbn [acquire_wns_loop] in E; [by injection E as <-|].
  apply bind_ok in E as ([x s1] & E1 & E2). rewrite (IH _ E2). by eapply seg_call_sigs.
Qed.

Lemma merge_synced T s st self sig sig' st' G :
  world_ok T s → layout_ok P layout st → sig_ok P num_procs n layout T s self →
  sig_wf sig → 0 ≤ min_wr_ts sig ≤ T → Forall (wn_good s) (wn_vec sig) →
  rel_sig_merge (H := seg_ft P) P st self sig = Ok (sig', st') →
  Forall (wn_synced G) (wn_vec self) → Forall (wn_synced G) (wn_vec sig) → Forall (wn_synced G) (wn_vec sig').
Proof using Hlayout.
  intros Hok Hl Hself Hwf Hm Hg E H1 H2.
  destruct (merge_sig_ok P num_procs n layout Hlayout T s st self sig Hok Hl Hself Hwf Hm Hg)
    as (sig1 & st1 & E1 & _ & _ & _ & Hsub).
  rewrite E in E1. injection E1 as <- _. rewrite Forall_forall in H1. rewrite Forall_forall in H2.
  apply Forall_forall. intros w [?|?]%Hsub; auto.
Qed.

Lemma convert_to_wn_vec_in ids rs b ret :
  (b, ret) ∈ zip ids rs → rl_release_completed ret && rl_is_written ret = true →
  release_notice b ret ∈ convert_to_wn_vec ids rs.
Proof. intros Hin Hw. apply list_elem_of_omap. exists (b, ret). split; [done|]. cbn. by rewrite Hw. Qed.

Lemma convert_to_wn_vec_out ids rs w :
  w ∈ convert_to_wn_vec ids rs →
  ∃ b ret, (b, ret) ∈ zip ids rs ∧ rl_release_completed ret && rl_is_written ret = true ∧ w = release_notice b ret.
Proof.
  intros ([b ret] & Hin & E)%list_elem_of_omap. exists b, ret. cbn in E.
  destruct (rl_release_completed ret && rl_is_written ret); [|done]. by injection E as <-.
Qed.

(** ** A release fence *)

(** Its loop. *)
Lemma release_all_data T p st s ps ws wns ws' s' G :
  world_ok T s → valid p → sp_procs s !! p = Some ps → wr_inv P layout p s →
  ws = WrSet (ws_new_ids (sp_wr ps)) (ws_dirty_ids (sp_wr ps)) (ws_gen (sp_wr ps)) true →
  0 ≤ st ≤ T → later_ts P T (num_dirty p s) < u64_mod → vers_of G s → wn_events wns ⊆ hb_seen h p →
  release_all_blocks rl_is_still_writable (release_call P p st) convert_to_wn_vec
    (sched (length (collect_ids ws))) ws s = Ok (wns, ws', s') →
  ∃ G', dstep G s G' s' ∧ (∀ b loc, known b loc → bg_edits (G' loc) p = ∅) ∧ Forall (wn_synced G') wns.
Proof using Hlayout Hcfg Hlease Hmig Hlazy Hsched.
  intros Hok Hp Hps Hinv -> Hst HT Hv Hh E. destruct (Hinv ps Hps) as (_ & _ & Hd & Hkn).
  unfold num_dirty in HT. rewrite Hps in HT. unfold release_all_blocks in E.
  set (ws := WrSet _ _ _ true) in E. change (collect_ids (sp_wr ps)) with (collect_ids ws) in *.
  set (ids := collect_ids ws) in *.
  assert (∀ b, b ∈ ids ↔ in_wr_set b (sp_wr ps)) as Hin by apply elem_of_collect_ids.
  pose proof (Hsched (length ids)) as Hord. unfold is_schedule in Hord. set (order := sched (length ids)) in *.
  apply bind_ok in E as ([rs s1] & E & [= Ewns <- <-]).
  assert (NoDup order) as Hndo by (rewrite Hord; apply NoDup_seq).
  destruct (release_loop_runs _ ids order s rs s1 Hndo E) as (_ & _ & _ & Hdom).
  assert (∀ j, is_Some (rs !! j) ↔ j ∈ seq 0 (length ids)) as Hall by (intros j; by rewrite Hdom, Hord).
  assert (∀ i b ret, ids !! i = Some b → rs !! i = Some ret → (b, ret) ∈ zip ids (rel_results ids rs)) as Hzip.
  { intros i b ret Eb Er. apply (list_elem_of_lookup_2 _ i). apply lookup_zip_with_Some. exists b, ret.
    split; [done|]. split; [done|]. rewrite <-Er. apply rel_results_lookup; [done|by eapply lookup_lt_Some]. }
  destruct (release_loop_data T p st ids order s rs s1 G) as (G' & Hds & He & Hsy); try done.
  { apply Forall_forall. intros b Hb. by apply Hkn, Hin. }
  { by rewrite Hord, length_seq. }
  { intros i b ret Eb Er Hw. apply Hh. rewrite <-Ewns. apply elem_of_wn_events.
    exists (release_notice b ret). split; [|done]. apply convert_to_wn_vec_in; [by eapply Hzip|done]. }
  exists G'. split; [done|]. split.
  - intros b loc Hk. destruct (decide (b ∈ ids)) as [Hb|Hb].
    + apply list_elem_of_lookup_1 in Hb as (i & Eb). apply (He i b loc); [|done|done].
      rewrite Hord, elem_of_seq. apply lookup_lt_Some in Eb. lia.
    + apply elem_of_equiv_empty_L. intros off Hoff%(ds_edits _ _ _ _ _ _ _ _ _ _ _ Hds).
      apply Hb, Hin. destruct (wo_known Hok b loc Hk) as [bw Hbw].
      destruct (Hv loc bw Hbw) as (o & lw & ge & Hwf & Hvo).
      destruct (blk_copies P valid (n loc) bw o lw ge p Hwf Hp) as (le & m & Hle & Hm & _).
      apply (Hd b loc le Hk); [unfold entry; by rewrite Hbw|].
      destruct (dirty_state (le_state le)) eqn:Ed; [done|].
      rewrite (cp_none _ _ _ _ (vo_copies _ _ _ _ _ Hvo p le m Hle Hm) Ed) in Hoff. by apply not_elem_of_empty in Hoff.
  - rewrite <-Ewns. apply Forall_forall. intros w (b & ret & Hbr & Hw & ->)%convert_to_wn_vec_out.
    apply list_elem_of_lookup_1 in Hbr as (i & Hbr).
    apply lookup_zip_with_Some in Hbr as (b' & r' & [= -> ->] & Eb & Er). apply (Hsy i); [done| |done].
    rewrite <-Er. symmetry. apply rel_results_lookup; [done|by eapply lookup_lt_Some].
Qed.

(** The fence leaves no store of the process unreleased. *)
Definition all_released (G : ghost) (p : Z) : Prop := ∀ b loc, known b loc → bg_edits (G loc) p = ∅.

Lemma released_later G G' p :
  (∀ loc q, bg_edits (G' loc) q ⊆ bg_edits (G loc) q) → all_released G p → all_released G' p.
Proof.
  intros He Hr b loc Hk. apply elem_of_equiv_empty_L. intros off Hoff%He.
  rewrite (Hr b loc Hk) in Hoff. by apply not_elem_of_empty in Hoff.
Qed.

Lemma fence_data T p s wns s' G :
  world_ok T s → valid p → own_inv T p s → later_ts P T (num_dirty p s) < u64_mod → vers_of G s →
  own_synced G p s → wn_events wns ⊆ hb_seen h p → fence_release P sched p s = Ok (wns, s') →
  ∃ G', dstep G s G' s' ∧ all_released G' p ∧ own_synced G' p s'.
Proof using Hlayout Hcfg Hlease Hmig Hlazy Hsched.
  intros Hok Hp Hinv HT Hv Hsy Hh E. destruct (wo_procs Hok p Hp) as (ps & Hps & _ & _ & Hmin).
  pose proof (oi_wr Hinv) as Hwr. destruct (Hwr ps Hps) as (_ & Hrel & _).
  pose proof (later_ts_ge P Hlease T (num_dirty p s) (num_dirty_nonneg p s)) as HTle.
  set (T' := later_ts P T (num_dirty p s)) in *.
  unfold fence_release, get_proc in E. rewrite Hps, bind_Ok, start_release_idle in E by done.
  apply bind_ok in E as ([[wns1 ws] s1] & E1 & E).
  pose proof (runs_ok P _ _ _ (release_all_space_runs P num_procs Hcfg Hlease n layout Hlayout sched Hsched
    T p (get_ts_state (sp_rd ps)) s ps _ Hok Hp Hps Hwr eq_refl Hmin HT) E1)
    as (Heff & _ & _ & _ & _ & _ & Hnd & Hwns).
  destruct (se_own Heff ps Hps) as (ps1 & Hps1 & _ & Hsg & _).
  rewrite Hps1, bind_Ok in E. apply bind_ok in E as ([sig st] & Em & E). apply bind_ok in E as (ws1 & _ & [= -> <-]).
  destruct (release_all_data T p _ s ps _ wns ws s1 G Hok Hp Hps Hwr eq_refl Hmin HT Hv Hh E1) as (G' & Hd & He & Hw).
  exists G'. split; [|split; [done|]].
  - eapply dstep_trans; [exact Hd|]. apply dstep_blks; [done|apply Hd].
  - unfold own_synced. rewrite (sig_of_Some _ _ _ (lookup_put _ _ _)). cbn [sp_sig].
    pose proof (own_inv_step P num_procs n layout T T' p s s1 Hok Hp HTle Heff Hinv) as Hinv1.
    assert (Forall (wn_good s1) wns) as Hgood by (eapply Forall_impl; [exact Hwns|]; by intros w [? _]).
    destruct (create_from_wns_good P num_procs n layout s1 wns Hnd Hgood) as (Hcwf & Hcm & Hcg).
    destruct (wo_procs (se_ok Heff) p Hp) as (ps3 & Hps3 & Hlay & _). simplify_eq.
    eapply (merge_synced T' s1 (sp_layout ps1) (sp_sig ps1) (create_from_wns wns)); try done.
    + apply Heff.
    + by apply (oi_sig Hinv1).
    + rewrite Hcm. lia.
    + rewrite Hsg. unfold own_synced in Hsy. rewrite (sig_of_Some _ _ _ Hps) in Hsy. eapply Forall_impl; [exact Hsy|]. intros w. apply synced_mono, Hd.
    + cbn. by rewrite std_sort_perm.
Qed.
End fence.
