(* ===== verification/SpaceDrf.v ===== *)
(** Release consistency of the data.

    In the builds with migration and without lazy merges, a program without
    data races reads the last value stored to a byte, wherever its stores are
    known, as long as no process had to honour the timestamp of a truncated
    signature. SpaceStale.v shows that the last two conditions are needed. *)
From Stdlib Require Import ZArith Lia Permutation.
From stdpp Require Import base tactics functions sets list gmap.
From S2P Require Import Prelude.
From S2P Require Import Policy.
From S2P Require Import SigBuffer.
From S2P Require Import Layout.
From S2P Require Import RdSet.
From S2P Require Import WrSet.
From S2P Require Import BlkDir.
From S2P Require Import BlkData.
From S2P Require Import QueueLock.
From S2P Require Import BlkLock.
From S2P Require Import DataRuns.
From S2P Require Import SegTable.
From S2P Require Import MtxTable.
From S2P Require Import SegLease.
From S2P Require Import BlkVers.
From S2P Require Import BlkVersOps.
From S2P Require Import Space.
From S2P Require Import SpaceInv.
From S2P Require Import SpaceSys.
From S2P Require Import SpaceRc.
From S2P Require Import SpaceData.
From S2P Require Import SpaceFence.
From S2P Require Import SpaceStale.

Section drf.
Context {K M : Type} {HK : GlobalLock header K} {HM : GlobalLock (list Z) M} (P : policy).
Context (num_procs : Z) (mig : bool).
Context {HLK : @GlobalLockLaws header K HK (in_range num_procs) (enable_migration P)}.
Context {HLM : @GlobalLockLaws (list Z) M HM (in_range num_procs) mig}.
Context (Hcfg : config_allowed P = true) (Hdir : use_directory_coherence P = false).
Context (Hlease : 0 ≤ lease_ts P).
Context (Hmig : enable_migration P = true) (Hlazy : enable_lazy_merge P = false).
Context (n : Z * Z → nat).
Context (layout : seg_table) (Hlayout : layout_wf P layout).
Context (Hflags : flags_are (H := seg_ft P) layout ∅).
Context (sched : nat → list nat) (Hsched : ∀ m, is_schedule m (sched m)).
Context {Hsort : StdSort greater_wn}.
Context (pad : wn_entry → list Z) (uninit : list Z).
Context (Hnum : 0 < num_procs) (Hprocs : num_procs ≤ 2 ^ 31).
Context (Hfit : is_u64 (sizeof_header + Z.of_nat (max_rel_sig_len P) * sizeof_wn_entry)).
Context (pad_length : ∀ wn, length (pad wn) = 4%nat).
Context (uninit_length : Z.of_nat (length uninit) = get_max_size_in_bytes P).
Context (init : Z * Z → list Z).
#[local] Abbreviation sspace := (space K M).
#[local] Abbreviation valid := (in_range num_procs).
#[local] Abbreviation ghost := (Z * Z → blk_ghost).
#[local] Abbreviation known := (known layout).
#[local] Abbreviation world_ok := (@world_ok K M HK P num_procs HLK n layout).
#[local] Abbreviation own_inv := (@own_inv K M HK P num_procs HLK n layout).
#[local] Abbreviation procs_inv := (@procs_inv K M HK P num_procs HLK n layout).
#[local] Abbreviation sys_inv := (@sys_inv K M HK HM P num_procs mig HLK HLM n layout uninit).
#[local] Abbreviation vers_of := (@vers_of K M HK P num_procs HLK n).
#[local] Abbreviation dstep := (@dstep K M HK P num_procs HLK n layout init).
#[local] Abbreviation bytes_ok := (@bytes_ok K M num_procs layout init).
#[local] Abbreviation own_synced := (@own_synced K M layout).
#[local] Abbreviation synced G := (Forall (wn_synced layout G)).
#[local] Abbreviation calm := (@calm K M num_procs).

(** * The invariant of the data *)
Record data_ok (G : ghost) (s : sspace) (m : mtx_spec) (h : hb) (r : rc) : Prop := {
  do_vers : vers_of G s;
  do_sigs : ∀ q, own_synced G q s;
  do_mtxs : ∀ i ms, m !! i = Some ms → synced G (wn_vec ms.2);
  do_bytes : bytes_ok G s h r;
  do_bound : rc_bounded r;
}.

Lemma hb_publish_grow l h x : hb_of h x ⊆ hb_of (hb_publish l h) x.
Proof. destruct x; cbn; set_solver. Qed.

Lemma synced_all h r G s G' s' wns : dstep h r G s G' s' → synced G wns → synced G' wns.
Proof. intros Hd Hs. eapply Forall_impl; [exact Hs|]. intros w. apply synced_mono, Hd. Qed.

Lemma data_grow G s m h h' r :
  (∀ x, hb_of h x ⊆ hb_of h' x) → data_ok G s m h r → data_ok G s m h' r.
Proof. intros Hsub [Hv Hs Hm Hb Hbd]. split; try done. by eapply bytes_hb_grow. Qed.

Lemma data_dstep G s m h r G' s' :
  data_ok G s m h r → dstep h r G s G' s' → (∀ q, own_synced G' q s') → data_ok G' s' m h r.
Proof.
  intros [Hv Hs Hm Hb Hbd] Hd Hsig. split; try done; [apply Hd| |by apply (ds_bytes _ _ _ _ _ _ _ _ _ _ _ Hd)].
  intros i ms Hi. by eapply synced_all, Hm.
Qed.

(** A step that does not change the signatures. *)
Lemma data_plain G s m h r G' s' :
  data_ok G s m h r → dstep h r G s G' s' → (∀ q, sig_of q s' = sig_of q s) → data_ok G' s' m h r.
Proof.
  intros Hok Hd Hsig. eapply data_dstep; [done|done|]. intros q. unfold SpaceFence.own_synced.
  rewrite Hsig. by eapply synced_all, Hok.
Qed.

Lemma set_mtxs_data G s m h r t : data_ok G s m h r → data_ok G (set_mtxs t s) m h r.
Proof. intros Hok. eapply data_plain; [done| |done]. apply dstep_blks; [done|apply Hok]. Qed.

(** Fences sync more and leave no new store unreleased. *)
Definition ghost_le (G G' : ghost) : Prop :=
  (∀ loc q, bg_sync (G loc) q ≤ bg_sync (G' loc) q) ∧ ∀ loc q, bg_edits (G' loc) q ⊆ bg_edits (G loc) q.

#[local] Instance ghost_le_preorder : PreOrder ghost_le.
Proof.
  split; [by split|]. intros G1 G2 G3 [S1 E1] [S2 E2]. split.
  - intros loc q. specialize (S1 loc q). specialize (S2 loc q). lia.
  - intros loc q. etrans; [apply E2|apply E1].
Qed.

Lemma dstep_ghost h r G s G' s' : dstep h r G s G' s' → ghost_le G G'.
Proof. intros Hd. split; apply Hd. Qed.

Lemma synced_le G G' wns : ghost_le G G' → synced G wns → synced G' wns.
Proof. intros Hle Hs. eapply Forall_impl; [exact Hs|]. intros w. apply synced_mono, Hle. Qed.

(** ** Release fences *)
Lemma fence_keeps T p s wns s' G m h r :
  world_ok T s → valid p → own_inv T p s → later_ts P T (num_dirty p s) < u64_mod →
  wn_events wns ⊆ hb_seen h p → data_ok G s m h r → fence_release P sched p s = Ok (wns, s') →
  ∃ G', data_ok G' s' m h r ∧ all_released layout G' p ∧ ghost_le G G'.
Proof using Hlayout Hcfg Hlease Hmig Hlazy Hsched.
  intros Hok Hp Hinv HT Hev Hdata E. pose proof Hdata as [Hv Hs _ _ _].
  pose proof (runs_ok P _ _ _ (fence_release_runs P num_procs Hcfg Hlease n layout Hlayout sched Hsched T p s
    Hok Hp Hinv HT) E) as Hf.
  destruct (fence_data P num_procs Hcfg Hlease Hmig Hlazy n layout Hlayout sched Hsched init h r T p s wns s' G
    Hok Hp Hinv HT Hv (Hs p) Hev E) as (G' & Hd & Hrel & Hown).
  exists G'. split; [|split; [done|by eapply dstep_ghost]]. eapply data_dstep; [done|done|]. intros q.
  destruct (decide (q = p)) as [->|Hne]; [done|]. unfold SpaceFence.own_synced, sig_of.
  rewrite (pe_procs (fe_eff Hf)) by done. by eapply synced_all, Hs.
Qed.

Lemma published_seen p wns h : wn_events wns ⊆ hb_seen (hb_publish [(p, wns)] h) p.
Proof. intros e He. apply elem_of_publish. right. exists wns. split; [by left|done]. Qed.

(** ** Acquires *)
Lemma acquire_wns_keeps T p sig s s' G m h r :
  world_ok T s → valid p → no_pinned p s → next_ts P T < u64_mod →
  Forall (wn_good P num_procs n layout s) (wn_vec sig) → synced G (wn_vec sig) → calm s →
  data_ok G s m h r → acquire_wns P p sig s = Ok s' →
  ∃ G', data_ok G' s' m h r ∧ dstep h r G s G' s'.
Proof using Hlayout Hlease.
  intros Hok Hp Hnp HT Hg Hsy Hcalm Hdata E. unfold acquire_wns, get_proc in E.
  destruct (wo_procs Hok p Hp) as (ps & Hps & _ & _ & Hmin). rewrite Hps, bind_Ok in E.
  destruct (acquire_loop_data P num_procs Hlease n layout Hlayout init h r T p (get_ts_state (sp_rd ps))
    (wn_vec sig) s s' G) as (G' & Hd); try done; [apply Hdata|].
  exists G'. split; [|done]. eapply data_plain; [done|done|]. intros q. by eapply acquire_loop_sigs.
Qed.

(** ** Locks *)
Lemma data_know G s m h r m' h' r' :
  data_ok G s m h r → rc_log r' = rc_log r → (∀ p, valid p → hb_seen h p ⊆ hb_seen h' p) →
  (∀ x' b off, aware (rc_of r' x') (rc_log r) b off →
     ∃ x, aware (rc_of r x) (rc_log r) b off ∧ hb_of h x ⊆ hb_of h' x'
       ∧ (x' = x ∨ ∀ p, x = HProc p → all_released layout G p)) →
  rc_bounded r' → (∀ i ms, m' !! i = Some ms → synced G (wn_vec ms.2)) → data_ok G s m' h' r'.
Proof.
  intros [Hv Hs Hm Hb Hbd] Hlog Hseen Hx Hbd' Hm'. split; try done.
  eapply bytes_know; [done|done| |exact Hb]. intros x' b off Ha.
  destruct (Hx x' b off Ha) as (x & Hax & Hsub & Ho). exists x. split; [done|]. split; [done|].
  destruct Ho as [?|Ho]; [by left|right]. intros p Ep loc Hk. by eapply Ho.
Qed.

Lemma lock_know G s m h r p i sig :
  m !! i = Some (None, sig) → data_ok G s m h r →
  data_ok G s (<[i := (Some p, sig)]> m) (hb_do num_procs (CLock p i) [] h) (rc_do num_procs (CLock p i) r).
Proof.
  intros Hi Hd. pose proof Hd as [_ _ Hm _ Hbd]. eapply data_know; [exact Hd|done| | | |].
  - intros q _. cbn [hb_do hb_seen]. destruct (decide (q = p)) as [->|Hne].
    + rewrite fn_lookup_insert. pose proof (hb_publish_grow [] h (HProc p)). cbn [hb_of] in *. set_solver.
    + rewrite fn_lookup_insert_ne by done. apply (hb_publish_grow [] h (HProc q)).
  - intros [q|j] b off Ha; cbn [rc_do rc_of rc_seen rc_mtx rc_log] in Ha.
    + destruct (decide (q = p)) as [->|Hne].
      * rewrite fn_lookup_insert in Ha. cbn [hb_do hb_of hb_seen]. rewrite fn_lookup_insert.
        apply aware_union in Ha as [Ha|Ha]; [exists (HProc p)|exists (HMtx i)]; (split; [done|]).
        -- split; [|by left]. pose proof (hb_publish_grow [] h (HProc p)). cbn [hb_of] in *. set_solver.
        -- split; [cbn; set_solver|by right].
      * rewrite fn_lookup_insert_ne in Ha by done. exists (HProc q). split; [done|]. split; [|by left].
        cbn [hb_do hb_of hb_seen]. rewrite fn_lookup_insert_ne by done. apply (hb_publish_grow [] h (HProc q)).
    + exists (HMtx j). split; [done|]. by split; [|left].
  - intros [q|j] k; cbn [rc_do rc_of rc_seen rc_mtx rc_log].
    + destruct (decide (q = p)) as [->|Hne]; [|rewrite fn_lookup_insert_ne by done; apply (Hbd (HProc q))].
      rewrite fn_lookup_insert. intros [Hx|Hx]%elem_of_union; [by apply (Hbd (HProc p))|by apply (Hbd (HMtx i))].
    + apply (Hbd (HMtx j)).
  - intros j ms. destruct (decide (j = i)) as [->|Hne].
    + rewrite lookup_insert_eq. intros [= <-]. cbn. apply (Hm i (None, sig) Hi).
    + rewrite lookup_insert_ne by done. apply Hm.
Qed.

Lemma calm_put p ps ps' (s : sspace) :
  sp_procs s !! p = Some ps → sp_rd ps' = sp_rd ps → calm (put_proc p ps' s) → calm s.
Proof.
  intros Hps Erd Hc q psq Hq Hpsq. destruct (decide (q = p)) as [->|Hne].
  - simplify_eq. rewrite <-Erd. apply (Hc p); [done|apply lookup_put].
  - apply (Hc q); [done|]. cbn. by rewrite lookup_insert_ne.
Qed.

Lemma lock_keeps T p i sig s s' l G m h r :
  sys_inv T s m h → valid p → no_pinned p s → m !! i = Some (None, sig) → next_ts P T < u64_mod →
  calm s → calm s' → data_ok G s m h r → space_do P pad uninit sched num_procs (CLock p i) s = Ok (l, s') →
  ∃ G', data_ok G' s' (<[i := (Some p, sig)]> m) (hb_do num_procs (CLock p i) l h) (rc_do num_procs (CLock p i) r).
Proof using All.
  intros [Hinv Hm Hsg _] Hp Hnp Hi HT Hcalm Hcalm' Hdata E. pose proof Hinv as [Hok Hown].
  pose proof (Hsg i _ Hi) as Hsig. cbn in Hsig. cbn [space_do] in E. unfold lock_mutex in E.
  destruct (mtx_lock_ok (HLaws := HLM) (length uninit) _ m p i sig Hp Hm Hi) as (t & El & _).
  rewrite El, bind_Ok in E. apply bind_ok in E as (o & E & E'). unfold acquire_sig in E.
  apply bind_ok in E as (s2 & E & E3). apply bind_ok in E3 as (s3 & E3 & [= <-]). injection E' as <- <-.
  apply bind_ok in E as (s1 & E1 & E2). set (s0 := set_mtxs t s) in *.
  pose proof (set_mtxs_world P num_procs n layout T t s Hok) as Hok0.
  assert (Forall (wn_good P num_procs n layout s0) (wn_vec sig)) as Hg0.
  { eapply Forall_impl; [apply (so_wns Hsig)|]. intros w Hw. exact Hw. }
  pose proof (do_mtxs _ _ _ _ _ Hdata i _ Hi) as Hsy. cbn in Hsy.
  destruct (acquire_wns_keeps T p sig s0 s1 G m h r) as (G1 & Hd1 & Hstep1); try done; [by apply set_mtxs_data|].
  pose proof (runs_ok P _ _ _ (acquire_wns_runs P num_procs Hlease n layout Hlayout T p sig s0 Hok0 Hp Hnp HT Hg0) E1)
    as (Heff1 & Hnp1 & _).
  assert (own_inv T p s1) as Hinv1.
  { eapply (own_inv_step P num_procs n layout T T p s0); [done|done|done|done|]. by apply set_mtxs_own, Hown. }
  assert (calm s1) as Hc1 by (by eapply calm_step; [exact Hok0|..]).
  unfold merge_rel_sig, get_proc in E3. destruct (sp_procs s2 !! p) as [ps2|] eqn:Hps2; [|done].
  rewrite bind_Ok in E3. apply bind_ok in E3 as ([sig' st] & E3 & [= <-]).
  assert (calm s2) as Hc2 by (by eapply calm_put; [exact Hps2| |exact Hcalm']).
  assert (s2 = s1) as ->.
  { eapply (acquire_min_calm P num_procs Hlease n layout Hlayout T p (min_wr_ts sig)); try done;
      [apply Heff1|apply (so_min Hsig)]. }
  exists G1. apply lock_know; [done|]. eapply data_dstep; [exact Hd1|apply dstep_blks; [done|apply Hd1]|].
  intros q. unfold SpaceFence.own_synced. destruct (decide (q = p)) as [->|Hne].
  - rewrite (sig_of_Some _ _ _ (lookup_put _ _ _)). cbn [sp_sig].
    destruct (wo_procs (se_ok Heff1) p Hp) as (ps & Hps & Hlay & _). simplify_eq.
    eapply (merge_synced P num_procs n layout Hlayout T s1); try done.
    + apply Heff1.
    + by apply (oi_sig Hinv1).
    + apply Hsig.
    + apply (so_min Hsig).
    + eapply Forall_impl; [exact Hg0|]. intros w. by eapply wn_good_mono.
    + rewrite <-(sig_of_Some _ _ _ Hps2). apply Hd1.
    + by eapply synced_all.
  - unfold sig_of. cbn. rewrite lookup_insert_ne by done. apply Hd1.
Qed.

(** ** Unlocks *)
Lemma unlock_know G s m h r p i sig :
  synced G (wn_vec sig) → all_released layout G p → data_ok G s m h r →
  data_ok G s (<[i := (None, sig)]> m) (Hb (hb_seen h) (<[i := hb_seen h p]> (hb_mtx h)) (hb_all h))
    (rc_do num_procs (CUnlock p i) r).
Proof.
  intros Hsy Hrel Hd. pose proof Hd as [_ _ Hm _ Hbd]. eapply data_know; [exact Hd|done|done| | |].
  - intros [q|j] b off Ha; cbn [rc_do rc_of rc_seen rc_mtx rc_log] in Ha.
    + exists (HProc q). split; [done|]. by split; [|left].
    + destruct (decide (j = i)) as [->|Hne].
      * rewrite fn_lookup_insert in Ha. exists (HProc p). split; [done|]. cbn [hb_of hb_mtx].
        rewrite fn_lookup_insert. split; [done|right]. by intros q [= <-].
      * rewrite fn_lookup_insert_ne in Ha by done. exists (HMtx j). split; [done|]. cbn [hb_of hb_mtx].
        rewrite fn_lookup_insert_ne by done. by split; [|left].
  - intros [q|j] k; cbn [rc_do rc_of rc_seen rc_mtx rc_log]; [apply (Hbd (HProc q))|].
    destruct (decide (j = i)) as [->|Hne].
    + rewrite fn_lookup_insert. apply (Hbd (HProc p)).
    + rewrite fn_lookup_insert_ne by done. apply (Hbd (HMtx j)).
  - intros j ms. destruct (decide (j = i)) as [->|Hne].
    + rewrite lookup_insert_eq. by intros [= <-].
    + rewrite lookup_insert_ne by done. apply Hm.
Qed.

Lemma unlock_keeps T p i s s' l G m h r :
  procs_inv T s → valid p → later_ts P T (num_dirty p s) < u64_mod → data_ok G s m h r →
  space_do P pad uninit sched num_procs (CUnlock p i) s = Ok (l, s') →
  ∃ G', data_ok G' s' (<[i := (None, sig_of p s')]> m) (hb_do num_procs (CUnlock p i) l h)
          (rc_do num_procs (CUnlock p i) r).
Proof using All.
  intros [Hok Hown] Hp HT Hdata E. cbn [space_do] in E. unfold unlock_mutex in E.
  apply bind_ok in E as ([wns s2] & E & [= <- <-]). apply bind_ok in E as ([wns1 s1] & E1 & E).
  apply bind_ok in E as (ps & _ & E). apply bind_ok in E as (t & _ & [= -> <-]).
  destruct (fence_keeps T p s wns s1 G m (hb_publish [(p, wns)] h) r) as (G' & Hd & Hrel & _); try done;
    [by apply Hown|apply published_seen|eapply data_grow; [apply hb_publish_grow|done]|].
  exists G'. apply set_mtxs_data. apply unlock_know; [|done|done]. apply Hd.
Qed.

(** ** Stores *)
Lemma mem_of_known p b loc (s : sspace) m :
  known b loc → mem_of P layout p b s = Some m →
  ∃ bw, sp_blks s !! loc = Some bw ∧ bw_mems bw !! p = Some m.
Proof using Hlayout Hflags.
  intros Hk Hmem. destruct (locate_known P layout Hlayout layout b loc (layout_ok_self P layout Hflags) Hk) as [t Eloc].
  unfold mem_of in Hmem. rewrite Eloc, <-surjective_pairing in Hmem. by apply bind_Some in Hmem.
Qed.

(** What happened before is within the lease of a readable copy. *)
Lemma seen_leased T s m h p b loc bw le k :
  sys_inv T s m h → calm s → valid p → known b loc → sp_blks s !! loc = Some bw →
  bw_dirs bw !! p = Some le → is_invalid (le_state le) = false → (b, k) ∈ hb_seen h p → k ≤ le_cur_rd_ts le.
Proof using Hlayout Hflags.
  intros [Hinv _ _ Hh] Hcalm Hp Hk Hb Hle Hv He.
  destruct (hi_seen _ _ _ _ _ _ Hh p b k Hp He) as (_ & _ & (ps & le1 & Hps & Hle1 & Hf) & _).
  rewrite (entry_of_known P layout Hlayout Hflags p b loc s Hk) in Hle1. unfold entry in Hle1.
  rewrite Hb in Hle1. cbn in Hle1. simplify_eq. destruct Hf as [?|[? _]]; [done|congruence].
Qed.

(** What a process that knows the last store of a byte may rely on. *)
Lemma aware_settled G (s : sspace) h r p b loc off :
  aware (rc_seen r p) (rc_log r) b off → byte_ok num_procs init G s h r b loc off →
  (∃ k, settled_from (bg_vers (G loc)) off k ∧ sees h (HProc p) b k)
  ∧ ((∀ q, off ∉ bg_edits (G loc) q) ∨ off ∈ bg_edits (G loc) p).
Proof.
  intros Ha [k Hs He _ Hall|k q v _ Hs He _ _ Hse Hall].
  - split; [|by left]. exists k. split; [done|]. by apply (Hall (HProc p)).
  - pose proof (Hall (HProc p) Ha) as [= <-]. split; [by exists k|by right].
Qed.

Lemma store_keeps T p b off v s s' l G m h r :
  sys_inv T s m h → legal P num_procs layout (CStore p b off v) s m → calm s → T < u64_mod →
  knows r p b off = true → data_ok G s m h r →
  space_do P pad uninit sched num_procs (CStore p b off v) s = Ok (l, s') →
  ∃ G', data_ok G' s' m (hb_do num_procs (CStore p b off v) l h) (rc_do num_procs (CStore p b off v) r).
Proof using All.
  intros Hsys (Hp & [loc Hk]%ft_known_loc & Hby & mem & Hmem & Hprot & Hoff) Hcalm HT Hkn%knows_aware Hdata E.
  pose proof Hsys as [[Hok _] _ _ _].
  destruct (mem_of_known p b loc s mem Hk Hmem) as (bw & Hbw & Hm).
  cbn [space_do] in E. unfold app_store in E. apply bind_ok in E as (s1 & E & [= <- <-]).
  apply bind_ok in E as ([u s2] & E & [= <-]).
  destruct (seg_call_inv P num_procs n layout Hlayout T p b loc _ s u s2 Hok Hp Hk E)
    as (ps & bw1 & ge & le & rs' & ws' & b' & Hps & Hbw1 & Hpre & Eo & Hb').
  assert (bw1 = bw) as -> by congruence. apply bind_ok in Eo as (b1 & Eo & [= _ _ _ ->]).
  pose proof (runs_ok P _ _ _ (blk_store_eff P num_procs n T p b loc off v (sp_rd ps) bw ge le mem
    Hpre Hby Hm Hprot Hoff) Eo) as Heff. pose proof (co_at _ _ _ _ _ _ (ef_coh _ _ _ _ _ _ _ _ _ _ _ _ _ _ Heff)) as Hat.
  pose proof Hdata as [Hv Hs Hmt Hbytes Hbd]. destruct (Hv loc bw Hbw) as (o & lw & ge1 & Hwf & Hvo).
  pose proof (lp_le _ _ _ _ _ _ _ _ _ Hpre) as Hle.
  destruct (blk_copies P valid (n loc) bw o lw ge1 p Hwf Hp) as (le0 & m0 & Hle0 & Hm0 & Hpr & _). simplify_eq.
  assert (is_invalid (le_state le) = false) as Hval by (rewrite Hprot in Hpr; revert Hpr; by destruct (le_state le)).
  pose proof (Hbytes b loc off Hk) as Hbyte.
  assert (settled (bg_vers (G loc)) off (le_cur_rd_ts le)) as Hset.
  { eapply (byte_settled P num_procs n init G s h r p b loc off bw le mem); try done.
    intros k. by eapply seen_leased. }
  destruct (aware_settled G s h r p b loc off Hkn Hbyte) as [(k & Hsk & Hse) Hown].
  assert (∀ q, q ≠ p → off ∉ bg_edits (G loc) q) as Hdj.
  { intros q Hne Hq. destruct Hown as [Ho|Ho]; [by apply (Ho q)|]. by apply Hne, (vo_disj _ _ _ _ _ Hvo q p off). }
  destruct (store_vers P valid Hmig Hlazy (n loc) p off v bw b' (G loc) o lw ge1 ge le Hwf Hvo Hp Hle Hset Hdj Eo Hat)
    as (Hv' & (m' & Hm' & Hmv) & Hkeep).
  exists (<[loc := edit p off (G loc)]> G). apply (data_grow _ _ _ h); [apply hb_publish_grow|]. split.
  - by eapply (vers_put P num_procs n G s).
  - intros q. unfold SpaceFence.own_synced. rewrite (seg_call_sigs P p b _ s u s2 q E).
    eapply Forall_impl; [apply Hs|]. intros w. apply synced_mono. intros loc' q'.
    destruct (decide (loc' = loc)) as [->|Hne]; [by rewrite fn_lookup_insert|by rewrite fn_lookup_insert_ne].
  - intros i ms Hi. eapply Forall_impl; [by eapply Hmt|]. intros w. apply synced_mono. intros loc' q'.
    destruct (decide (loc' = loc)) as [->|Hne]; [by rewrite fn_lookup_insert|by rewrite fn_lookup_insert_ne].
  - eapply (bytes_store P num_procs n layout Hlayout init G s s2 h r p b off v loc bw b'); try done.
    + unfold priv_byte. rewrite Hb', lookup_insert_eq. cbn. by rewrite Hm'.
    + intros q o1 w Hne Hq. unfold priv_byte in *. rewrite Hb', lookup_insert_eq. rewrite Hbw in Hq. cbn in Hq |- *.
      apply bind_Some in Hq as (mq & Hmq & Hq). destruct (Hkeep q mq o1 Hne Hmq) as (mq' & Hmq' & Eq).
      rewrite Hmq'. cbn. by rewrite Eq.
  - by apply store_bounded.
Qed.

(** ** Barriers *)

(** The signature in a serialized buffer. *)
Definition buf_synced (G : ghost) (buf : list Z) : Prop :=
  ∀ sig, deserialize_from buf (get_max_size_in_bytes P) = Ok sig → synced G (wn_vec sig).

Lemma barrier_release_keeps T p s wns buf s' G m h r (T' := later_ts P T (num_dirty p s)) :
  procs_inv T s → valid p → T' < u64_mod → wn_events wns ⊆ hb_seen h p → data_ok G s m h r →
  barrier_release P pad uninit sched p s = Ok (wns, buf, s') →
  ∃ G', data_ok G' s' m h r ∧ all_released layout G' p ∧ ghost_le G G' ∧ buf_synced G' buf.
Proof using All.
  intros [Hok Hown] Hp HT Hev Hdata E. unfold barrier_release in E.
  apply bind_ok in E as ([wns1 s1] & E1 & E). apply bind_ok in E as (ps & Eps & E).
  apply bind_ok in E as ([buf1 sig] & Es & [= -> -> <-]).
  destruct (fence_keeps T p s wns s1 G m h r Hok Hp (Hown p Hp) HT Hev Hdata E1) as (G' & Hd & Hrel & Hle).
  pose proof (runs_ok P _ _ _ (fence_release_runs P num_procs Hcfg Hlease n layout Hlayout sched Hsched T p s
    Hok Hp (Hown p Hp) HT) E1) as Hf. pose proof (pe_ok (fe_eff Hf)) as Hok1.
  unfold get_proc in Eps. destruct (sp_procs s1 !! p) as [ps1|] eqn:Hps1; [|done]. injection Eps as ->.
  pose proof (oi_sig (fe_inv Hf) ps Hps1) as Hsig.
  destruct (sig_fits P num_procs n layout Hlayout uninit Hprocs Hfit uninit_length T' s1 (sp_sig ps) Hok1 HT Hsig) as [Hr Hs].
  destruct (serialize_correct pad pad_length (sp_sig ps) uninit (get_max_size_in_bytes P) Hr) as (buf2 & Eb & _ & Ed);
    [done|done|].
  unfold serialize_and_clear in Es. rewrite Eb, bind_Ok in Es. injection Es as <- <-.
  pose proof (do_sigs _ _ _ _ _ Hd p) as Hsy. unfold SpaceFence.own_synced in Hsy.
  rewrite (sig_of_Some _ _ _ Hps1) in Hsy.
  exists G'. split; [|split; [done|split; [done|]]].
  - eapply data_dstep; [exact Hd|apply dstep_blks; [done|apply Hd]|]. intros q. unfold SpaceFence.own_synced.
    destruct (decide (q = p)) as [->|Hne].
    + rewrite (sig_of_Some _ _ _ (lookup_put _ _ _)). by cbn.
    + unfold sig_of. cbn. rewrite lookup_insert_ne by done. apply Hd.
  - intros sig Ed'. rewrite Ed in Ed'. by injection Ed' as <-.
Qed.

Lemma buf_synced_le G G' buf : ghost_le G G' → buf_synced G buf → buf_synced G' buf.
Proof. intros Hle Hb sig E. eapply synced_le; [done|by apply Hb]. Qed.

Lemma barrier_releases_keep procs T s l bufs s' G m h r
    (T' := later_ts P T (foldr (λ (p k : Z), num_dirty p s + k) 0 procs)) :
  procs_inv T s → Forall valid procs → NoDup procs → T' < u64_mod →
  (∀ p wns, (p, wns) ∈ l → wn_events wns ⊆ hb_seen h p) → data_ok G s m h r →
  barrier_releases P pad uninit sched procs s = Ok (l, bufs, s') →
  ∃ G', data_ok G' s' m h r ∧ (∀ p, p ∈ procs → all_released layout G' p) ∧ ghost_le G G'
    ∧ ∀ q buf, (q, buf) ∈ bufs → buf_synced G' buf.
Proof using All.
  intros Hinv Hv Hnd HT. subst T'. revert T s l bufs G Hinv HT.
  induction procs as [|p procs IH]; intros T s l bufs G Hinv HT Hev Hdata E; cbn [barrier_releases foldr] in *.
  { injection E as <- <- <-. exists G. split; [done|]. split; [by intros ? ?%not_elem_of_nil|].
    split; [done|]. by intros ? ? ?%not_elem_of_nil. }
  apply Forall_cons in Hv as [Hp Hv]. apply NoDup_cons in Hnd as [Hpn Hnd].
  apply bind_ok in E as ([[wns buf] s1] & E1 & E). apply bind_ok in E as ([[l2 bufs2] s2] & E2 & [= <- <- <-]).
  pose proof (num_dirty_nonneg p s) as Hd0. pose proof (dirty_sum_nonneg procs s) as Hds.
  rewrite <-later_ts_add in HT. set (T1 := later_ts P T (num_dirty p s)) in *.
  assert (T ≤ T1) as HTle by by apply later_ts_ge.
  assert (T1 ≤ later_ts P T1 (foldr (λ p k : Z, num_dirty p s + k) 0 procs)) as HTle1 by by apply later_ts_ge.
  destruct (barrier_release_keeps T p s wns buf s1 G m h r) as (G1 & Hd1 & Hr1 & Hle1 & Hb1); try done;
    [fold T1; lia|apply Hev; by left|].
  pose proof (runs_ok P _ _ _ (barrier_release_runs P num_procs Hcfg Hlease n layout Hlayout Hflags sched Hsched
    pad uninit Hprocs Hfit pad_length uninit_length T p s Hinv Hp ltac:(fold T1; lia)) E1) as Hc.
  cbn beta iota in Hc. fold T1 in Hc. pose proof (ct_eff _ _ _ _ _ _ _ _ _ _ Hc) as Heff.
  pose proof (procs_inv_frame P num_procs n layout T T1 p s s1 Hinv HTle Heff (ct_inv _ _ _ _ _ _ _ _ _ _ Hc)) as Hinv1.
  pose proof (dirty_sum_same p procs s s1 Hpn (pe_procs Heff)) as Esum.
  destruct (IH Hv Hnd T1 s1 l2 bufs2 G1) as (G2 & Hd2 & Hr2 & Hle2 & Hb2); try done;
    [rewrite Esum; lia|intros q w Hw; apply Hev; by right|].
  exists G2. split; [done|]. split; [|split; [by etrans|]].
  - intros q [->|Hq]%elem_of_cons; [|by apply Hr2]. eapply released_later; [apply Hle2|done].
  - intros q b [[= -> ->]|Hq]%elem_of_cons; [by eapply buf_synced_le|by eapply Hb2].
Qed.

(** The acquires. *)
Lemma barrier_sigs_synced G p bufs sigs :
  (∀ q buf, (q, buf) ∈ bufs → buf_synced G buf) → barrier_sigs P p bufs = Ok sigs →
  Forall (λ sig, synced G (wn_vec sig)) sigs.
Proof.
  revert sigs. induction bufs as [|[q buf] bufs IH]; intros sigs Hb E; cbn [barrier_sigs] in E.
  { by injection E as <-. }
  apply bind_ok in E as (sigs1 & E1 & E). assert (Forall (λ sig, synced G (wn_vec sig)) sigs1) as H1.
  { apply IH; [|done]. intros q' b' Hin. apply (Hb q'). by right. }
  destruct (negb (q =? p)); [|by injection E as <-]. apply bind_ok in E as (sig & Ed & [= <-]).
  constructor; [|done]. apply (Hb q buf); [by left|done].
Qed.

Lemma acquire_all_keeps T p sigs s s' G m h r :
  world_ok T s → valid p → no_pinned p s → next_ts P T < u64_mod →
  Forall (good_sig P num_procs n layout T s) sigs → Forall (λ sig, synced G (wn_vec sig)) sigs → calm s →
  data_ok G s m h r → acquire_all_wns P p sigs s = Ok s' → ∃ G', data_ok G' s' m h r ∧ ghost_le G G'.
Proof using All.
  intros Hok Hp Hnp HT. revert s G Hok Hnp.
  induction sigs as [|sig sigs IH]; intros s G Hok Hnp Hg Hsy Hcalm Hdata E; cbn [acquire_all_wns] in E.
  { injection E as <-. exists G. by split. }
  apply bind_ok in E as (s1 & E1 & E2). apply Forall_cons in Hg as [Hg Hgs], Hsy as [Hs1 Hsy].
  destruct (acquire_wns_keeps T p sig s s1 G m h r) as (G1 & Hd1 & Hst1); try done; [apply Hg|].
  pose proof (runs_ok P _ _ _ (acquire_wns_runs P num_procs Hlease n layout Hlayout T p sig s Hok Hp Hnp HT (proj2 Hg)) E1)
    as (Heff1 & Hnp1 & _).
  destruct (IH s1 G1) as (G2 & Hd2 & Hle2); try done.
  - apply Heff1.
  - eapply Forall_impl; [exact Hgs|]. intros x. by eapply good_sig_step.
  - eapply Forall_impl; [exact Hsy|]. intros x. by eapply synced_all.
  - by eapply calm_step; [exact Hok|..].
  - exists G2. split; [done|]. etrans; [by eapply dstep_ghost|done].
Qed.

Lemma barrier_acquire_keeps T p bufs s s' G m h r :
  procs_inv T s → valid p → no_pinned p s → next_ts P T < u64_mod →
  gathered P num_procs n layout T s bufs → (∀ q buf, (q, buf) ∈ bufs → buf_synced G buf) →
  calm s → calm s' → data_ok G s m h r → barrier_acquire P p bufs s = Ok s' →
  ∃ G', data_ok G' s' m h r ∧ ghost_le G G'.
Proof using All.
  intros [Hok Hown] Hp Hnp HT Hg Hb Hcalm Hcalm' Hdata E. unfold barrier_acquire in E.
  apply bind_ok in E as (sigs & Es & E). apply bind_ok in E as (s1 & E1 & E2).
  destruct (barrier_sigs_ok P num_procs n layout T s p bufs Hg) as (sigs1 & Es1 & Hgs & _).
  rewrite Es in Es1. injection Es1 as <-. destruct (wo_procs Hok p Hp) as (ps & _ & _ & _ & Hmin).
  destruct (max_min_wr_ts P num_procs n layout T s sigs ltac:(lia) Hgs) as [Hm _].
  destruct (acquire_all_keeps T p sigs s s1 G m h r) as (G1 & Hd1 & Hle1); try done.
  { by eapply barrier_sigs_synced. }
  pose proof (runs_ok P _ _ _ (acquire_all_wns_runs P num_procs Hlease n layout Hlayout T p sigs s Hok Hp Hnp HT Hgs) E1)
    as (Heff1 & Hnp1 & _).
  assert (calm s1) as Hc1 by (by eapply calm_step; [exact Hok|..]).
  exists G1. split; [|done].
  assert (s' = s1) as ->; [|done].
  eapply (acquire_min_calm P num_procs Hlease n layout Hlayout T p); try done; [apply Heff1|].
  eapply (own_inv_step P num_procs n layout T T p s); [done|done|done|done|by apply Hown].
Qed.

Lemma barrier_acquires_keep T procs bufs s s' G m h r :
  procs_inv T s → Forall valid procs → NoDup procs → (∀ p, p ∈ procs → no_pinned p s) →
  next_ts P T < u64_mod → gathered P num_procs n layout T s bufs → (∀ q buf, (q, buf) ∈ bufs → buf_synced G buf) →
  calm s → calm s' → data_ok G s m h r → barrier_acquires P procs bufs s = Ok s' →
  ∃ G', data_ok G' s' m h r ∧ ghost_le G G'.
Proof using All.
  intros Hinv Hv Hnd Hnp HT Hg Hb Hcalm Hcalm'. revert s G Hinv Hnp Hg Hb Hcalm.
  induction procs as [|p procs IH]; intros s G Hinv Hnp Hg Hb Hcalm Hdata E; cbn [barrier_acquires] in E.
  { injection E as <-. exists G. by split. }
  apply Forall_cons in Hv as [Hp Hv]. apply NoDup_cons in Hnd as [Hpn Hnd]. apply bind_ok in E as (s1 & E1 & E2).
  assert (no_pinned p s) as Hnp0 by (apply Hnp; by left).
  pose proof (runs_ok P _ _ _ (barrier_acquire_runs P num_procs Hlease n layout Hlayout Hflags T p bufs s
    Hinv Hp Hnp0 HT Hg) E1) as Haq. pose proof (aq_eff Haq) as Heff.
  pose proof (proc_sys_eff P num_procs n layout Hlayout Hflags T p s s1 Heff) as Hsys.
  pose proof (procs_inv_frame P num_procs n layout T T p s s1 Hinv ltac:(done) Heff (aq_inv Haq)) as Hinv1.
  assert (∀ q, q ∈ procs → no_pinned q s1) as Hnp1.
  { intros q Hq. eapply no_pinned_other; [|exact Heff|apply Hnp; by right]. by intros ->. }
  assert (gathered P num_procs n layout T s1 bufs) as Hg1 by by eapply gathered_later.
  pose proof (runs_ok P _ _ _ (barrier_acquires_runs P num_procs Hlease n layout Hlayout Hflags T procs bufs s1
    Hinv1 Hv Hnd Hnp1 HT Hg1) E2) as (_ & Hsys2 & _).
  assert (calm s1) as Hc1 by (eapply calm_back; [apply Hinv1|done|done]).
  destruct (barrier_acquire_keeps T p bufs s s1 G m h r) as (G1 & Hd1 & Hle1); try done.
  destruct (IH Hv Hnd s1 G1) as (G2 & Hd2 & Hle2); try done.
  - intros q buf Hq. eapply buf_synced_le; [done|by eapply Hb].
  - exists G2. split; [done|by etrans].
Qed.

Lemma barrier_know G s m h r l :
  (∀ p, valid p → all_released layout G p) → data_ok G s m (hb_publish l h) r →
  data_ok G s m (hb_do num_procs CBarrier l h) (rc_do num_procs CBarrier r).
Proof using All.
  intros Hrel Hd. pose proof Hd as [_ _ Hm _ Hbd].
  assert (∀ q, valid q → hb_seen (hb_publish l h) q ⊆ ⋃ (hb_seen (hb_publish l h) <$> seqZ 0 num_procs)) as Hall.
  { intros q Hq e He. apply elem_of_union_list. exists (hb_seen (hb_publish l h) q). split; [|done].
    apply list_elem_of_fmap. exists q. split; [done|by apply elem_of_procs]. }
  eapply data_know; [exact Hd|done|exact Hall| | |done].
  - intros [q|j] b off Ha; cbn [rc_do rc_of rc_seen rc_mtx rc_log] in Ha.
    + apply (aware_big_union _ _ 0) in Ha as (y & Hy%elem_of_seqZ & Ha); [|by apply elem_of_procs; unfold in_range; lia].
      assert (valid y) as Hvy by (unfold in_range; lia).
      exists (HProc y). split; [done|]. split; [by apply Hall|right]. intros p [= <-]. by apply Hrel.
    + exists (HMtx j). split; [done|]. by split; [|left].
  - intros [q|j] k; cbn [rc_do rc_of rc_seen rc_mtx rc_log]; [|apply (Hbd (HMtx j))].
    intros (Y & (y & -> & _)%list_elem_of_fmap & Hk)%elem_of_union_list. by apply (Hbd (HProc y)).
Qed.

Lemma barrier_keeps T s s' l G m h r (T' := later_ts P T (call_cost num_procs CBarrier s)) :
  procs_inv T s → (∀ p, valid p → no_pinned p s) → next_ts P T' < u64_mod → calm s → calm s' →
  data_ok G s m h r → space_do P pad uninit sched num_procs CBarrier s = Ok (l, s') →
  ∃ G', data_ok G' s' m (hb_do num_procs CBarrier l h) (rc_do num_procs CBarrier r).
Proof using All.
  intros Hinv Hnp HT Hcalm Hcalm' Hdata E. cbn [space_do call_cost] in *. unfold barrier in E.
  apply bind_ok in E as ([[l1 bufs] s1] & E1 & E). apply bind_ok in E as (s2 & E2 & [= -> <-]).
  assert (T' < u64_mod) as HT' by (unfold next_ts in HT; lia).
  pose proof (runs_ok P _ _ _ (barrier_releases_runs P num_procs Hcfg Hlease n layout Hlayout Hflags sched Hsched
    pad uninit Hprocs Hfit pad_length uninit_length (seqZ 0 num_procs) T s Hinv (all_valid num_procs)
    (NoDup_seqZ 0 num_procs) HT') E1) as Hc.
  cbn beta iota in Hc. fold T' in Hc. destruct Hc as [Hinv1 Heff1 _ Hpin1 _ Hb1 _ _ _].
  destruct (barrier_releases_keep (seqZ 0 num_procs) T s l bufs s1 G m (hb_publish l h) r)
    as (G1 & Hd1 & Hr1 & Hle1 & Hs1); try done; [apply all_valid|apply NoDup_seqZ| | |].
  { intros p wns Hin e He. apply elem_of_publish. right. by exists wns. }
  { eapply data_grow; [apply hb_publish_grow|done]. }
  assert (∀ p, p ∈ seqZ 0 num_procs → no_pinned p s1) as Hnp1.
  { intros p Hp%elem_of_seqZ. apply Hpin1, Hnp. unfold in_range. lia. }
  pose proof (runs_ok P _ _ _ (barrier_acquires_runs P num_procs Hlease n layout Hlayout Hflags T' (seqZ 0 num_procs)
    bufs s1 Hinv1 (all_valid num_procs) (NoDup_seqZ 0 num_procs) Hnp1 HT Hb1) E2) as (_ & Hsys2 & _).
  assert (calm s1) as Hc1 by (eapply calm_back; [apply Hinv1|done|done]).
  destruct (barrier_acquires_keep T' (seqZ 0 num_procs) bufs s1 s2 G1 m (hb_publish l h) r)
    as (G2 & Hd2 & Hle2); try done; [apply all_valid|apply NoDup_seqZ|].
  exists G2. apply barrier_know; [|done]. intros p Hp. eapply released_later; [apply Hle2|].
  apply Hr1. by apply elem_of_procs.
Qed.

(** * Every call keeps it *)

(** Calls that publish nothing and keep the signatures. *)
Lemma plain_keeps G s m h r s' :
  data_ok G s m h r → (∃ G', dstep h r G s G' s') → (∀ q, sig_of q s' = sig_of q s) →
  ∃ G', data_ok G' s' m (hb_publish [] h) r.
Proof.
  intros Hd (G' & Hst) Hsig. exists G'. eapply data_grow; [apply hb_publish_grow|]. by eapply data_plain.
Qed.

Lemma block_call_keeps c T s s' l G m h r :
  procs_inv T s → legal P num_procs layout c s m → later_ts P T (call_cost num_procs c s + 1) < u64_mod →
  calm s → data_ok G s m h r → space_do P pad uninit sched num_procs c s = Ok (l, s') →
  match c with CRead _ _ | CWrite _ _ | CPin _ _ | CUnpin _ _ => l = [] ∧ ∃ G', data_ok G' s' m (hb_publish [] h) r
             | _ => True end.
Proof using All.
  intros [Hok _] Hlegal HT Hcalm Hdata E. rewrite <-later_ts_add, later_ts_1 in HT.
  assert (later_ts P T (call_cost num_procs c s) < u64_mod) as HT' by (unfold next_ts in HT; lia).
  pose proof (do_vers _ _ _ _ _ Hdata) as Hv.
  destruct c as [p b|p b|p b|p b|p b off v|p|p i|p i|]; try done; cbn [legal space_do call_cost] in *;
    rewrite ?later_ts_1, ?later_ts_2 in HT'.
  - destruct Hlegal as [Hp [loc Hk]%ft_known_loc]. apply bind_ok in E as ([x s1] & E & [= <- <-]). split; [done|].
    eapply plain_keeps; [done| |intros q; by eapply seg_call_sigs].
    by eapply (read_data P num_procs Hdir Hlease Hmig Hlazy n layout Hlayout init h r T p b loc).
  - destruct Hlegal as [Hp [loc Hk]%ft_known_loc]. apply bind_ok in E as ([[x w] s1] & E & [= <- <-]). split; [done|].
    eapply plain_keeps; [done| |].
    + by eapply (write_data P num_procs Hcfg Hdir Hlease Hmig Hlazy n layout Hlayout init h r T p b loc).
    + intros q. unfold space_start_write in E. apply bind_ok in E as ([[y z] s2] & E & [= _ _ <-]). by eapply seg_call_sigs.
  - destruct Hlegal as (Hp & [loc Hk]%ft_known_loc & Hnp). apply bind_ok in E as ([[x w] s1] & E & [= <- <-]). split; [done|].
    rewrite (entry_of_known P layout Hlayout Hflags p b loc s Hk) in Hnp.
    eapply plain_keeps; [done| |].
    + by eapply (pin_data P num_procs Hcfg Hdir Hlease Hmig Hlazy n layout Hlayout init h r T p b loc).
    + intros q. unfold pin_block in E. apply bind_ok in E as ([[y z] s2] & E & [= _ _ <-]). by eapply seg_call_sigs.
  - destruct Hlegal as (Hp & [loc Hk]%ft_known_loc & Hpin). apply bind_ok in E as (s1 & E & [= <- <-]). split; [done|].
    rewrite (entry_of_known P layout Hlayout Hflags p b loc s Hk) in Hpin.
    eapply plain_keeps; [done| |].
    + by eapply (unpin_data P num_procs n layout Hlayout init h r T p b loc).
    + intros q. unfold unpin_block in E. apply bind_ok in E as ([u s2] & E & E2).
      rewrite <-(seg_call_sigs P p b _ s u s2 q E). unfold get_proc in E2.
      destruct (sp_procs s2 !! p) as [ps|] eqn:Hps; [|done]. rewrite bind_Ok in E2. injection E2 as <-.
      unfold sig_of. cbn. destruct (decide (q = p)) as [->|Hne]; [by rewrite lookup_insert_eq, Hps|].
      by rewrite lookup_insert_ne.
Qed.

(** A calm state comes from a calm state. *)
Lemma call_sys_eff c T s s' l m h :
  sys_inv T s m h → legal P num_procs layout c s m → later_ts P T (call_cost num_procs c s + 1) < u64_mod →
  space_do P pad uninit sched num_procs c s = Ok (l, s') → sys_eff P num_procs n layout s s'.
Proof using All.
  intros [Hinv Hm Hsg _] Hlegal HT E. pose proof Hinv as [Hok Hown].
  rewrite <-later_ts_add, later_ts_1 in HT.
  assert (T < u64_mod ∧ later_ts P T (call_cost num_procs c s) < u64_mod) as [HT0 HT'].
  { assert (0 ≤ call_cost num_procs c s) as Hc.
    { destruct c; cbn; try lia; [apply num_dirty_nonneg..|apply dirty_sum_nonneg]. }
    pose proof (later_ts_ge P Hlease T _ Hc). unfold next_ts in HT. lia. }
  revert E. destruct c as [p b|p b|p b|p b|p b off v|p|p i|p i|]; cbn [legal call_cost] in *; intros E.
  - destruct Hlegal as [Hp Hb].
    apply (runs_ok P _ _ _ (read_do_runs P num_procs Hdir Hlease n layout Hlayout Hflags sched pad uninit T p b s Hinv Hp Hb HT') E).
  - destruct Hlegal as [Hp Hb].
    apply (runs_ok P _ _ _ (write_do_runs P num_procs Hcfg Hdir Hlease n layout Hlayout Hflags sched pad uninit T p b s Hinv Hp Hb HT') E).
  - destruct Hlegal as (Hp & Hb & Hnp).
    apply (runs_ok P _ _ _ (pin_do_runs P num_procs Hcfg Hdir Hlease n layout Hlayout Hflags sched pad uninit T p b s Hinv Hp Hb Hnp HT') E).
  - destruct Hlegal as (Hp & Hb & Hpin).
    apply (runs_ok P _ _ _ (unpin_do_runs P num_procs n layout Hlayout Hflags sched pad uninit T p b s Hinv Hp Hb Hpin HT0) E).
  - destruct Hlegal as (Hp & Hb & Hv & mem & Hmem & Hprot & Hoff).
    apply (runs_ok P _ _ _ (store_do_runs P num_procs n layout Hlayout Hflags sched pad uninit T p b off v s mem Hinv Hp Hb Hv Hmem Hprot Hoff) E).
  - cbn [space_do] in E. apply bind_ok in E as ([wns s1] & E & [= <- <-]).
    pose proof (runs_ok P _ _ _ (fence_release_runs P num_procs Hcfg Hlease n layout Hlayout sched Hsched T p s
      Hok Hlegal (Hown p Hlegal) HT') E) as Hf.
    eapply (proc_sys_eff P num_procs n layout Hlayout Hflags). exact (fe_eff Hf).
  - destruct Hlegal as (Hp & Hnp & sig & Hi). unfold later_ts in HT. rewrite Z.mul_0_l, Z.add_0_r in HT.
    apply (runs_ok P _ _ _ (lock_do_runs P num_procs mig Hlease n layout Hlayout Hflags sched pad uninit T p i sig m s
      Hinv Hp Hnp Hm Hi (Hsg i (None, sig) Hi) HT) E).
  - destruct Hlegal as (Hp & sig & Hi).
    apply (runs_ok P _ _ _ (unlock_do_runs P num_procs mig Hcfg Hlease n layout Hlayout Hflags sched Hsched pad uninit
      Hprocs Hfit pad_length uninit_length T p i sig m s Hinv Hp Hm Hi HT') E).
  - apply (runs_ok P _ _ _ (barrier_do_runs P num_procs Hcfg Hlease n layout Hlayout Hflags sched Hsched pad uninit
      Hprocs Hfit pad_length uninit_length T s Hinv Hlegal HT) E).
Qed.

Lemma call_keeps c T s s' l G m h r :
  sys_inv T s m h → legal P num_procs layout c s m → race_free r c = true →
  later_ts P T (call_cost num_procs c s + 1) < u64_mod → calm s → calm s' → data_ok G s m h r →
  space_do P pad uninit sched num_procs c s = Ok (l, s') →
  ∃ G', data_ok G' s' (mtx_do c s' m) (hb_do num_procs c l h) (rc_do num_procs c r).
Proof using All.
  intros Hsys Hlegal Hrf HT Hcalm Hcalm' Hdata E. pose proof Hsys as [[Hok Hown] _ _ _].
  pose proof (block_call_keeps c T s s' l G m h r (Build_procs_inv _ _ _ _ _ _ Hok Hown) Hlegal HT Hcalm Hdata E) as Hblk.
  rewrite <-later_ts_add, later_ts_1 in HT. set (T' := later_ts P T (call_cost num_procs c s)) in HT.
  assert (T' < u64_mod) as HT' by (unfold next_ts in HT; lia).
  destruct c as [p b|p b|p b|p b|p b off v|p|p i|p i|]; cbn [mtx_do hb_do rc_do]; [by destruct Hblk as [-> ?]..| | | | |].
  - clear Hblk. assert (T < u64_mod).
    { revert HT'. unfold T', later_ts. cbn. lia. }
    by eapply store_keeps.
  - cbn [space_do] in E. apply bind_ok in E as ([wns s1] & E & [= <- <-]).
    destruct (fence_keeps T p s wns s1 G m (hb_publish [(p, wns)] h) r) as (G' & Hd & _); try done;
      [by apply Hown|apply published_seen|eapply data_grow; [apply hb_publish_grow|done]|]. by exists G'.
  - destruct Hlegal as (Hp & Hnp & sig & Hi). rewrite Hi.
    eapply lock_keeps; try done. revert HT. unfold T'. cbn [call_cost]. unfold later_ts. by rewrite Z.mul_0_l, Z.add_0_r.
  - destruct Hlegal as (Hp & sig & Hi). by eapply unlock_keeps; [by split|..].
  - by eapply barrier_keeps; [by split|..].
Qed.
End drf.

(** * Reachable systems *)
Section reachable.
Context {K M : Type} {HK : GlobalLock header K} {HM : GlobalLock (list Z) M} (P : policy).
Context (num_procs : Z) (mig : bool).
Context {HLK : @GlobalLockLaws header K HK (in_range num_procs) (enable_migration P)}.
Context {HLM : @GlobalLockLaws (list Z) M HM (in_range num_procs) mig}.
Context {Hsort : StdSort greater_wn}.
Context (layout : seg_table) (n : Z * Z → nat) (blks : gmap (Z * Z) (blk_world K)).
Context (lk_coll_make : Z → list Z → M) (num_locks : Z).
Context (sched : nat → list nat) (pad : wn_entry → list Z) (uninit : list Z).
#[local] Abbreviation start_ok := (start_ok P num_procs mig layout n blks lk_coll_make num_locks sched pad uninit).
#[local] Abbreviation start := (start P num_procs layout blks lk_coll_make num_locks).
#[local] Abbreviation drf_reach :=
  (drf_reach P pad uninit sched num_procs layout start (mspec_init num_locks)).

(** The contents the blocks were made with. *)
Definition init_data (loc : Z * Z) : list Z :=
  match blks !! loc ≫= λ b, bw_mems b !! 0 with Some m => bm_priv m | None => [] end.

Definition init_ghost (loc : Z * Z) : blk_ghost := BlkGhost [(0, init_data loc)] (λ _, 0) (λ _, ∅).

Lemma start_vers : start_ok → vers_of P num_procs n init_ghost start.
Proof.
  intros Hs loc b Hb. destruct (so_blks _ _ _ _ _ _ _ _ _ _ _ Hs loc b Hb) as (lk & owner & content & -> & Hf & Ha).
  pose proof (proj1 (so_procs _ _ _ _ _ _ _ _ _ _ _ Hs)) as Hn.
  assert (init_data loc = content) as Ei.
  { unfold init_data. cbn in Hb. rewrite Hb. cbn. rewrite (lookup_procs (λ _, init_mem content)).
    by rewrite decide_True by lia. }
  exists owner, 0, (GlobalEntry 0 0). split; [by apply seg_blk_init_wf|]. unfold init_ghost. rewrite Ei.
  assert (∀ X, has [(0, content)] X content) as Hh.
  { intros X. apply has_head. repeat constructor. }
  split; cbn.
  - exists [], (init_mem content). rewrite (lookup_procs (λ _, init_mem content)).
    by rewrite decide_True by lia.
  - repeat constructor.
  - intros p le m. rewrite (lookup_procs (init_entry P)), (lookup_procs (λ _, init_mem content)).
    destruct (decide _); [|done]. intros [= <-] [= <-]. split; cbn; try done.
  - intros le. rewrite (lookup_procs (init_entry P)). destruct (decide _); [|done]. by intros [= <-].
  - by intros p q off ?%not_elem_of_empty.
Qed.

Lemma start_data : start_ok →
  data_ok P num_procs n layout init_data init_ghost start (mspec_init num_locks) hb_init rc_init.
Proof.
  intros Hs. split.
  - by apply start_vers.
  - intros q. unfold own_synced, sig_of. destruct (sp_procs _ !! q) as [ps|] eqn:Hps; [|done].
    cbn in Hps. rewrite (lookup_procs (λ _, proc_space_init layout)) in Hps.
    destruct (decide _); [|done]. by injection Hps as <-.
  - intros i ms Hi. unfold mspec_init in Hi.
    by apply elem_of_list_to_map_2, list_elem_of_fmap in Hi as (j & [= -> ->] & _).
  - intros b loc off Hk. apply (byte_released _ _ _ _ _ _ _ _ _ 0).
    + split; [by exists (init_data loc); left|]. by intros v ->%list_elem_of_singleton.
    + intros q. apply not_elem_of_empty.
    + done.
    + intros x _. by left.
  - by intros [q|j] i ?%not_elem_of_empty.
Qed.

Context (Hs : start_ok) (Hmig : enable_migration P = true) (Hlazy : enable_lazy_merge P = false).

Lemma drf_data T s m h r : drf_reach T s m h r → calm num_procs s →
  ∃ G, data_ok P num_procs n layout init_data G s m h r.
Proof using Hs Hmig Hlazy.
  induction 1 as [|T s m h r c l s' Hr IH Hl Hrf HT E]; intros Hcalm'.
  { exists init_ghost. by apply start_data. }
  pose proof Hs as [H1 H2 H3 [H4 H5] H6 H7 H8 _ _ _ H9 H10 H11].
  pose proof (reach_inv P num_procs mig layout n blks lk_coll_make num_locks sched pad uninit T s m h Hs
    (drf_is_reach _ _ _ _ _ _ _ _ _ _ _ _ _ Hr)) as Hinv.
  pose proof (call_sys_eff P num_procs mig H1 H2 H3 Hmig Hlazy n layout H7 H8 sched H9 pad uninit H4 H5 H6 H10 H11
    init_data c T s s' l m h Hinv Hl HT E) as Hsys.
  assert (calm num_procs s) as Hcalm.
  { destruct Hinv as [[Hok _] _ _ _]. by eapply calm_back. }
  destruct (IH Hcalm) as (G & Hd).
  by eapply (call_keeps P num_procs mig H1 H2 H3 Hmig Hlazy n layout H7 H8 sched H9 pad uninit H4 H5 H6 H10 H11
    init_data c T s s' l G m h r).
Qed.

(** C1: the memory model, for the data. In the timestamp builds with migration and
    without lazy merges (hence without fast releases), after any legal calls of
    all processes without data races (nobody stores to a byte without knowing
    its earlier stores, by its own calls, mutexes and barriers), a process that
    knows all stores to a byte and whose page is readable has the last stored
    value in it, and the initial one when there is no store; while the
    timestamps fit in 64 bits, and as long as no
    process had to take over the timestamp of a truncated signature ([calm]).
    Without migration nothing is claimed. The other conditions are needed:
    [fast_release_stale_read] and [lazy_merge_loses_notice] (SpaceStale.v) are
    runs with fast releases and with lazy merges, and [read_loses_notice] is
    one in which a signature was truncated, that read an older value. *)
Theorem data_consistency T s m h r p b off v
    (Hr : drf_reach T s m h r) (Hcalm : calm num_procs s) (Hp : in_range num_procs p)
    (Hb : ft_known (FlagTable := seg_ft P) layout b) (Hk : knows r p b off = true)
    (Hread : readable_byte P layout p b off s = Some v) :
  must_read P layout start r b off = Some v.
Proof using Hs Hmig Hlazy.
  destruct (drf_data T s m h r Hr Hcalm) as (G & Hd). apply ft_known_loc in Hb as [loc Hloc].
  pose proof Hs as [_ _ _ _ _ Hlay Hfl _ _ _ _ _ _].
  pose proof (reach_inv P num_procs mig layout n blks lk_coll_make num_locks sched pad uninit T s m h Hs
    (drf_is_reach _ _ _ _ _ _ _ _ _ _ _ _ _ Hr)) as Hinv.
  unfold readable_byte in Hread. destruct (mem_of P layout p b s) as [x|] eqn:Hmem; [|done].
  destruct (mem_of_known P layout Hlay Hfl p b loc s x Hloc Hmem) as (bw & Hbw & Hx).
  destruct (do_vers _ _ _ _ _ _ _ _ _ _ Hd loc bw Hbw) as (o & lw & ge & Hwf & Hvo).
  destruct (blk_copies P _ (n loc) bw o lw ge p Hwf Hp) as (le & x' & Hle & Hx' & Hpr & _). simplify_eq.
  assert (is_invalid (le_state le) = false ∧ bm_priv x !! off = Some v) as [Hval Hv].
  { rewrite Hpr in Hread. revert Hread. by destruct (le_state le). }
  rewrite <-Hv, (byte_read P num_procs n init_data G s h r p b loc off bw le x); try done;
    [|by apply Hd|intros k; by eapply seen_leased|by apply Hd|by apply knows_aware].
  unfold must_read, cur_byte. destruct (last_store _ _ _); [done|].
  unfold initial_byte, mem_of, init_data.
  destruct (locate_known P layout Hlay layout b loc (layout_ok_self P layout Hfl) Hloc) as [t ->].
  rewrite <-surjective_pairing. cbn [start space_init sp_blks]. by destruct (blks !! loc ≫= _).
Qed.
End reachable.

(** A run of two processes: process 0 stores 3 and then 7 in a byte, in two
    critical sections of a mutex, and process 1 enters it between them and after them. *)
Definition drf_demo : option (Z * space (qstate header) (qstate (list Z)) * mtx_spec * hb * rc) :=
  drf_run (HK := two_lk 2) (HM := two_mtx_lk 2) (eager_policy 16) demo_pad (two_uninit (eager_policy 16)) (seq 0) 2
    (two_layout (eager_policy 16)) [blk_a; blk_b] fast_calls 0 (two_start (eager_policy 16) 2) (mspec_init 4)
    hb_init rc_init.

(** In the end process 1 knows the last store to the byte and reads 7. *)
Definition drf_demo_ok : bool :=
  match drf_demo with
  | Some (_, s, _, _, r) => calm_b 2 s && knows r 1 blk_a 5
      && bool_decide (readable_byte (eager_policy 16) (two_layout (eager_policy 16)) 1 blk_a 5 s = Some 7)
  | None => false
  end.

Lemma drf_demo_true : drf_demo_ok = true.
Proof. vm_compute. reflexivity. Qed.

Lemma data_consistency_witness :
  ∃ T s m h r, drf_demo = Some (T, s, m, h, r)
    ∧ must_read (eager_policy 16) (two_layout (eager_policy 16)) (two_start (eager_policy 16) 2) r blk_a 5 = Some 7.
Proof.
  pose proof drf_demo_true as Hok. unfold drf_demo_ok in Hok.
  destruct drf_demo as [[[[[T s] m] h] r]|] eqn:E; [|discriminate Hok].
  apply andb_prop in Hok as [Hok Hread%bool_decide_eq_true]. apply andb_prop in Hok as [Hcalm%calm_b_ok Hk].
  pose proof (two_known (eager_policy 16) eq_refl eq_refl) as Hids.
  exists T, s, m, h, r. split; [done|].
  apply (data_consistency (HLK := queue_lock_laws 2) (HLM := queue_lock_laws 2) (eager_policy 16) 2 true
    (two_layout (eager_policy 16)) (λ _, 1%nat) (two_blks (eager_policy 16) 2) (two_mtx 2) 4 (seq 0) demo_pad
    (two_uninit (eager_policy 16)) (two_start_eager 16 2 ltac:(lia) ltac:(vm_compute; intuition congruence))
    eq_refl eq_refl T s m h r 1 blk_a 5 7); [|done|unfold in_range; lia|by inversion Hids|done|done].
  apply (drf_run_reach (eager_policy 16) demo_pad (two_uninit (eager_policy 16)) (seq 0) 2
    (two_layout (eager_policy 16)) (two_start (eager_policy 16) 2) (mspec_init 4) [blk_a; blk_b] Hids fast_calls
    0 (two_start (eager_policy 16) 2) (mspec_init 4) hb_init rc_init); [constructor|exact E].
Defined.
