(* ===== verification/SvmFault.v ===== *)
(** Page faults: svm_space.hpp, sigsegv_catcher.cpp, sigbus_catcher.cpp and
    signal_util.hpp of medsm2.

    An access of the application to a page whose protection does not allow it
    raises a signal; the handler asks the address space for the missing right
    and, when it returns, the hardware repeats the access. The theorem bounds
    how often: the handler never loops and never reaches its [abort]. *)
From Stdlib Require Import ZArith Lia.
From stdpp Require Import base tactics functions list gmap.
From S2P Require Import Prelude.
From S2P Require Import Policy.
From S2P Require Import SigBuffer.
From S2P Require Import Layout.
From S2P Require Import RdSet.
From S2P Require Import WrSet.
From S2P Require Import BlkDir.
From S2P Require Import BlkData.
From S2P Require Import QueueLock.
From S2P Require Import BlkLock.
From S2P Require Import DataRuns.
From S2P Require Import SegTable.
From S2P Require Import MtxTable.
From S2P Require Import SegLease.
From S2P Require Import Space.
From S2P Require Import SpaceInv.
From S2P Require Import SpaceSys.

(** [get_fault_kind]: the error code of an x86-64 page fault; elsewhere the
    kind is unknown. *)
Definition get_fault_kind (x86_64 : bool) (reg_err_val : Z) : fault_kind :=
  if x86_64 then
    if Z.testbit reg_err_val 4 then fault_exec
    else if Z.testbit reg_err_val 1 then fault_write
    else fault_read
  else fault_unknown.

(** The protections that allow a load or a store. *)
Definition page_allows (is_store : bool) (prot : page_prot) : bool :=
  match prot with
  | ProtNone => false
  | ProtRead => negb is_store
  | ProtReadWrite => true
  end.

Section fault.
Context {K M : Type} {HK : GlobalLock header K} {HM : GlobalLock (list Z) M} (P : policy).
#[local] Abbreviation sspace := (space K M).

(** [get_blk_id_from_app_ptr] with the segment table of the process. *)
Definition blk_id_from_app_ptr (p ptr : Z) (s : sspace) : result Z :=
  ps ← get_proc p s; get_blk_id_from_app_ptr P (sp_layout ps) ptr.

Definition try_upgrade (p ptr : Z) (s : sspace) : result (bool * sspace) :=
  blk_id ← blk_id_from_app_ptr p ptr s;
  '(rd_ret, s) ← space_start_read P p blk_id s;
  if sg_is_newly_read rd_ret then Ok (true, s)
  else
    '(_, wr_ret, s) ← space_start_write P p blk_id s;
    if sw_is_writable wr_ret then Ok (true, s) else Fail Aborted.

Definition try_read_upgrade (p ptr : Z) (s : sspace) : result (bool * sspace) :=
  blk_id ← blk_id_from_app_ptr p ptr s;
  '(rd_ret, s) ← space_start_read P p blk_id s;
  Ok (if sg_is_newly_read rd_ret then (true, s) else (false, s)).

Definition try_write_upgrade (p ptr : Z) (s : sspace) : result (bool * sspace) :=
  blk_id ← blk_id_from_app_ptr p ptr s;
  '(_, wr_ret, s) ← space_start_write P p blk_id s;
  Ok (if sw_is_writable wr_ret then (true, s) else (false, s)).

(** [on_fault]; [is_enabled] says whether the space is enabled on the thread. *)
Definition on_fault (is_enabled : bool) (p ptr : Z) (kind : fault_kind) (s : sspace) :
    result (bool * sspace) :=
  if is_enabled then
    let kind := if enable_fault_classification P then kind else fault_unknown in
    match kind with
    | fault_read => '(_, s) ← try_read_upgrade p ptr s; Ok (true, s)
    | fault_write => '(_, s) ← try_write_upgrade p ptr s; Ok (true, s)
    | _ => try_upgrade p ptr s
    end
  else Ok (false, s).

(** [handle_signal]: when the space does not handle the fault another signal is
    sent. *)
Definition handle_signal (is_enabled x86_64 : bool) (p ptr reg_err_val : Z) (s : sspace) : result sspace :=
  '(ret, s) ← on_fault is_enabled p ptr (get_fault_kind x86_64 reg_err_val) s;
  if (ret : bool) then Ok s else Fail Aborted.

(** An access to an address of block [blk_id]: the hardware repeats it after
    every return of the handler, at most [fuel] times here; the result is how
    many faults there were. *)
Fixpoint app_access (fuel : nat) (x86_64 is_store : bool) (layout : seg_table) (p blk_id ptr reg_err_val : Z)
    (s : sspace) : result (nat * sspace) :=
  match mem_of P layout p blk_id s with
  | None => Fail OutOfBounds
  | Some m =>
      if page_allows is_store (bm_prot m) then Ok (0%nat, s)
      else
        match fuel with
        | O => Fail Aborted
        | S fuel =>
            s ← handle_signal true x86_64 p ptr reg_err_val s;
            '(k, s) ← app_access fuel x86_64 is_store layout p blk_id ptr reg_err_val s;
            Ok (S k, s)
        end
  end.
End fault.

(** * Every access ends *)
Section terminates.
Context {K M : Type} {HK : GlobalLock header K} {HM : GlobalLock (list Z) M} (P : policy).
Context (num_procs : Z).
Context {HLK : @GlobalLockLaws header K HK (in_range num_procs) (enable_migration P)}.
Context (Hcfg : config_allowed P = true) (Hdir : use_directory_coherence P = false).
Context (Hlease : 0 ≤ lease_ts P) (n : Z * Z → nat).
Context (layout : seg_table) (Hlayout : layout_wf P layout).
Context (Hflags : flags_are (H := seg_ft P) layout ∅).
#[local] Abbreviation sspace := (space K M).
#[local] Abbreviation valid := (in_range num_procs).
#[local] Abbreviation procs_inv := (@procs_inv K M HK P num_procs HLK n layout).
#[local] Abbreviation step_eff := (@step_eff K M HK P num_procs HLK n layout).
#[local] Abbreviation call_post := (call_post P num_procs n layout).

(** The protection of a page is that of the state of its entry. *)
Lemma mem_prot T p b loc (s : sspace) :
  procs_inv T s → valid p → known layout b loc →
  ∃ le m, entry p loc s = Some le ∧ mem_of P layout p b s = Some m ∧ bm_prot m = prot_of (le_state le).
Proof using Hlayout Hflags.
  intros [Hok _] Hp Hk. destruct (wo_known Hok b loc Hk) as [bw Hb].
  destruct (wo_blks Hok loc bw Hb) as [ge Hco]. destruct (co_at _ _ _ _ _ _ Hco) as (o & l & Hwf).
  destruct (bf_procs _ _ _ _ _ _ _ Hwf p Hp) as (le & m & Hle & Hm & Hprot & _). exists le, m.
  destruct (locate_known P layout Hlayout layout b loc (layout_ok_self P layout Hflags) Hk) as [t Et].
  unfold entry, mem_of. rewrite Et, <-surjective_pairing, Hb. done.
Qed.

Lemma read_upgrade_runs T p b loc (s : sspace) :
  procs_inv T s → valid p → known layout b loc → next_ts P T < u64_mod →
  runs P (space_start_read P p b s) (call_post (next_ts P T) p b loc s (λ r _ _ _ _ le le',
    sg_is_newly_read r = is_invalid (le_state le) ∧ is_invalid (le_state le') = false)).
Proof using Hlayout Hlease Hdir.
  intros [Hok _] Hp Hk HT. apply (seg_call_runs P num_procs n layout Hlayout T); try done; [unfold next_ts; lia|].
  intros ps bw ge le Hps Hb Hle Hpre. unfold seg_start_read. eapply runs_bind.
  { eapply runs_conj.
    - apply (start_read_locked_runs P valid Hdir Hlease (n loc) T p b (sp_rd ps) bw le);
        [by eapply lease_pre_op|done|apply Hpre].
    - intros a Ea Hr. pose proof (start_read_locked_eff P valid Hdir Hlease (n loc) T p b (sp_rd ps) bw ge le Hpre HT) as He.
      rewrite Ea in He. exact (conj Hr He). }
  intros [[r rs'] b'] [[Hnew _] (ge' & le' & Heff & Hv & _ & Hd)]. cbn. exists ge', le'.
  split; [done|]. split; [apply ws_ext_refl|]. auto.
Qed.

Lemma write_upgrade_runs T p b loc (s : sspace) :
  procs_inv T s → valid p → known layout b loc → next_ts P (next_ts P T) < u64_mod →
  runs P (space_start_write P p b s) (λ '(_, wr, s'),
    sw_is_writable wr = true ∧ step_eff (next_ts P (next_ts P T)) p s s'
    ∧ ∃ le', entry p loc s' = Some le' ∧ prot_of (le_state le') = ProtReadWrite).
Proof using Hlayout Hlease Hdir Hcfg.
  intros [Hok _] Hp Hk HT. unfold space_start_write.
  assert (T ≤ next_ts P (next_ts P T)) as HTle by (unfold next_ts in *; lia).
  eapply runs_bind.
  { apply (seg_call_runs P num_procs n layout Hlayout T (next_ts P (next_ts P T)) p b loc _ s
      (λ '(_, wr) _ _ _ _ _ le', sw_is_writable wr = true ∧ prot_of (le_state le') = ProtReadWrite)); [done..|].
    intros ps bw ge le Hps Hb Hle Hpre. eapply runs_mono.
    - eapply runs_conj.
      + apply (seg_start_write_runs P valid Hcfg Hdir Hlease (n loc) T p b (sp_rd ps) (sp_wr ps) bw le);
          [by eapply lease_pre_op|done|apply Hpre].
      + intros a Ea Hr. pose proof (seg_start_write_eff P valid Hcfg Hdir Hlease (n loc) T p b (sp_rd ps)
          (sp_wr ps) bw ge le Hpre HT) as He. rewrite Ea in He. exact (conj Hr He).
    - intros [[[[r w] rs] ws] b'] [(_ & Hw & _) (ge' & le' & Heff & Hws & Hst & _)]. exists ge', le'.
      split; [done|]. split; [destruct Hws as [[-> _]| ->]; [apply ws_ext_refl|by eapply ws_ext_add, known_ft]|].
      split.
      + intros _. destruct Hws as [[_ ?]| ->]; [by left|right]. cbn. apply elem_of_app. right. by left.
      + split; [done|]. by destruct Hst as [-> | ->]. }
  intros [[r w] s'] (Heff & _ & ps & rs' & ws' & ge & ge' & le & le' & _ & _ & _ & Hle' & _ & _ & Hw & Hst).
  cbn. split; [done|]. split; [done|]. by exists le'.
Qed.

(** The error code of the fault is that of the access. *)
Definition fault_code_ok (x86_64 is_store : bool) (err : Z) : Prop :=
  x86_64 = true → Z.testbit err 4 = false ∧ Z.testbit err 1 = is_store.

Lemma blk_id_runs T p ptr b (s : sspace) :
  procs_inv T s → valid p → get_blk_id_from_app_ptr P layout ptr = Ok b →
  blk_id_from_app_ptr P p ptr s = Ok b.
Proof.
  intros [Hok _] Hp E. destruct (wo_procs Hok p Hp) as (ps & Hps & (Hs & _) & _).
  unfold blk_id_from_app_ptr, get_proc. rewrite Hps, bind_Ok. by eapply blk_id_shape.
Qed.

Lemma step_procs_inv T T' p s s' :
  procs_inv T s → valid p → T ≤ T' → step_eff T' p s s' → procs_inv T' s'.
Proof using Hlayout Hflags. intros Hinv Hp HT Heff. by eapply ce_inv, (step_call_eff P num_procs n layout Hlayout Hflags T T' p s s'). Qed.

Lemma procs_inv_mono T T' s : T ≤ T' → procs_inv T s → procs_inv T' s.
Proof.
  intros HT [Hok Hown]. pose proof (world_ok_mono P num_procs n layout T T' s HT Hok) as Hok'. split; [done|].
  intros q Hq. apply (own_inv_step P num_procs n layout T T' q s s); [done|done|done| |by apply Hown].
  by apply step_eff_refl.
Qed.

(** One fault: the access is allowed afterwards, or it is a store and the block
    became readable. *)
Definition upgraded (T' p : Z) (is_store : bool) (loc : Z * Z) (le : local_entry) (s' : sspace) : Prop :=
  procs_inv T' s' ∧ ∃ le', entry p loc s' = Some le'
    ∧ (page_allows is_store (prot_of (le_state le')) = true
       ∨ is_store = true ∧ is_invalid (le_state le) = true ∧ is_invalid (le_state le') = false).

Lemma valid_allows_load st : is_invalid st = false → page_allows false (prot_of st) = true.
Proof. by destruct st. Qed.

Lemma denied_load_invalid st : page_allows false (prot_of st) = false → is_invalid st = true.
Proof. by destruct st. Qed.

Section one_fault.
Context (T p ptr b : Z) (loc : Z * Z) (s : sspace) (le : local_entry) (is_store : bool).
Context (Hinv : procs_inv T s) (Hp : valid p) (Hk : known layout b loc).
Context (Hle : entry p loc s = Some le) (HT : later_ts P T 3 < u64_mod).
Context (Hptr : get_blk_id_from_app_ptr P layout ptr = Ok b).
Context (Hdenied : page_allows is_store (prot_of (le_state le)) = false).

Lemma later_ts_3 : next_ts P T ≤ later_ts P T 3 ∧ next_ts P (next_ts P T) ≤ later_ts P T 3
  ∧ next_ts P (next_ts P (next_ts P T)) = later_ts P T 3 ∧ T ≤ next_ts P T.
Proof using Hlease. unfold next_ts, later_ts. lia. Qed.

Lemma try_upgrade_runs :
  runs P (try_upgrade P p ptr s) (λ '(ret, s'), ret = true ∧ upgraded (later_ts P T 3) p is_store loc le s').
Proof using All.
  pose proof later_ts_3 as (H1 & H2 & H3 & H4). unfold try_upgrade.
  rewrite (blk_id_runs T p ptr b s Hinv Hp Hptr), bind_Ok.
  eapply runs_bind; [apply (read_upgrade_runs T p b loc s); try done; lia|].
  intros [r s1] (Heff & _ & ps & rs' & ws' & ge & ge' & le0 & le1 & _ & _ & Hle0 & Hle1 & _ & _ & Hnew & Hv).
  simplify_eq. rewrite Hnew.
  pose proof (step_procs_inv T (next_ts P T) p s s1 Hinv Hp ltac:(lia) Heff) as Hinv1.
  destruct (is_invalid (le_state le)) eqn:Hi.
  - cbn [runs]. split; [done|]. split.
    + eapply procs_inv_mono; [|exact Hinv1]. lia.
    + exists le1. split; [done|]. destruct is_store; [by right|left]. by apply valid_allows_load.
  - eapply runs_bind; [apply (write_upgrade_runs (next_ts P T) p b loc s1); try done; lia|].
    intros [[r2 w] s2] (Hw & Heff2 & le2 & Hle2 & Hprot). rewrite Hw. cbn [runs]. split; [done|]. split.
    + rewrite <-H3. by apply (step_procs_inv (next_ts P T) _ p s1 s2); [..|unfold next_ts in *; lia|].
    + exists le2. split; [done|]. left. by rewrite Hprot.
Qed.

Lemma write_upgrade_done T' s' :
  T' = next_ts P (next_ts P T) → step_eff T' p s s' →
  (∃ le', entry p loc s' = Some le' ∧ prot_of (le_state le') = ProtReadWrite) →
  upgraded (later_ts P T 3) p is_store loc le s'.
Proof using Hinv Hp Hlease Hlayout Hflags.
  intros -> Heff (le' & Hle' & Hprot). pose proof later_ts_3 as (H1 & H2 & H3 & H4). split.
  - eapply procs_inv_mono; [exact H2|]. apply (step_procs_inv T _ p s s'); try done. unfold next_ts in *. lia.
  - exists le'. split; [done|]. left. by rewrite Hprot.
Qed.

Lemma handle_signal_runs x86_64 err :
  fault_code_ok x86_64 is_store err →
  runs P (handle_signal P true x86_64 p ptr err s) (upgraded (later_ts P T 3) p is_store loc le).
Proof using All.
  intros Hcode. pose proof later_ts_3 as (H1 & H2 & H3 & H4).
  unfold handle_signal, on_fault, get_fault_kind.
  assert (runs P ('(ret, s0) ← try_upgrade P p ptr s; if (ret : bool) then Ok s0 else Fail Aborted)
    (upgraded (later_ts P T 3) p is_store loc le)) as Hup.
  { eapply runs_bind; [apply try_upgrade_runs|]. by intros [ret s1] [-> Hu]. }
  destruct (enable_fault_classification P); [|exact Hup].
  destruct x86_64; [|exact Hup]. destruct (Hcode eq_refl) as [-> ->].
  set (kind := if is_store then fault_write else fault_read).
  assert (is_store = true ∧ kind = fault_write ∨ is_store = false ∧ kind = fault_read) as [[Eb ->]|[Eb ->]]
    by (unfold kind; destruct is_store; auto).
  - unfold try_write_upgrade. rewrite (blk_id_runs T p ptr b s Hinv Hp Hptr), bind_Ok.
    rewrite !bind_assoc. eapply runs_bind; [apply (write_upgrade_runs T p b loc s); try done; lia|].
    intros [[r w] s'] (Hw & Heff & Hend). rewrite Hw. cbn [mbind result_bind runs].
    by eapply write_upgrade_done.
  - unfold try_read_upgrade. rewrite (blk_id_runs T p ptr b s Hinv Hp Hptr), bind_Ok.
    rewrite !bind_assoc. eapply runs_bind; [apply (read_upgrade_runs T p b loc s); try done; lia|].
    intros [r s1] (Heff & _ & ps & rs' & ws' & ge & ge' & le0 & le1 & _ & _ & Hle0 & Hle1 & _ & _ & Hnew & Hv).
    destruct (sg_is_newly_read r); cbn [mbind result_bind runs];
      (split; [eapply procs_inv_mono; [exact H1|]; by apply (step_procs_inv T _ p s s1)|];
       exists le1; split; [done|]; left; rewrite Eb; by apply valid_allows_load).
Qed.
End one_fault.

(** ** The access *)
Lemma access_runs T p ptr b loc s x86_64 is_store err :
  procs_inv T s → valid p → known layout b loc → later_ts P T 6 < u64_mod →
  get_blk_id_from_app_ptr P layout ptr = Ok b → fault_code_ok x86_64 is_store err →
  runs P (app_access P 2 x86_64 is_store layout p b ptr err s) (λ '(k, s'),
    (k ≤ if is_store then 2 else 1)%nat ∧ procs_inv (later_ts P T 6) s'
    ∧ ∃ m, mem_of P layout p b s' = Some m ∧ page_allows is_store (bm_prot m) = true).
Proof using HM Hlayout Hflags Hlease Hdir Hcfg.
  intros Hinv Hp Hk HT Hptr Hcode.
  assert (later_ts P (later_ts P T 3) 3 = later_ts P T 6) as E6 by (unfold later_ts; lia).
  assert (T ≤ later_ts P T 3 ∧ later_ts P T 3 ≤ later_ts P T 6) as [H3 H36] by (unfold later_ts; nia).
  destruct (mem_prot T p b loc s Hinv Hp Hk) as (le & m & Hle & Hm & Hprot).
  cbn [app_access]. rewrite Hm. destruct (page_allows is_store (bm_prot m)) eqn:Hd.
  { cbn. split; [destruct is_store; lia|]. split; [|by exists m]. eapply procs_inv_mono; [|exact Hinv]. lia. }
  rewrite Hprot in Hd.
  eapply runs_bind; [apply (handle_signal_runs T p ptr b loc s le is_store); try done; lia|].
  intros s1 (Hinv1 & le1 & Hle1 & Hup).
  destruct (mem_prot _ p b loc s1 Hinv1 Hp Hk) as (le1' & m1 & Hle1' & Hm1 & Hprot1). simplify_eq.
  rewrite Hm1. destruct (page_allows is_store (bm_prot m1)) eqn:Hd1.
  { cbn. split; [destruct is_store; lia|]. split; [|by exists m1]. eapply procs_inv_mono; [|exact Hinv1]. lia. }
  rewrite Hprot1 in Hd1. destruct Hup as [Hup|(-> & Hi & Hi1)]; [by rewrite Hup in Hd1|].
  rewrite bind_assoc. eapply runs_bind.
  { apply (handle_signal_runs (later_ts P T 3) p ptr b loc s1 le1 true); try done. by rewrite E6. }
  rewrite E6. intros s2 (Hinv2 & le2 & Hle2 & Hup2).
  destruct (mem_prot _ p b loc s2 Hinv2 Hp Hk) as (le2' & m2 & Hle2' & Hm2 & Hprot2). simplify_eq.
  destruct Hup2 as [Hup2|(_ & Hi2 & _)]; [|congruence].
  rewrite Hm2, Hprot2, Hup2. cbn. split; [lia|]. split; [done|]. exists m2. by rewrite Hprot2.
Qed.
End terminates.

(** C23: page faults end: in every reachable state of the system an access of
    the application to any address of a registered block is carried out after
    at most one fault for a load and two for a store, whatever the platform
    says about the kind of the fault; the handler never reaches its [abort],
    handles every fault itself, and leaves the invariant intact. *)
Theorem access_terminates {K M} {HK : GlobalLock header K} {HM : GlobalLock (list Z) M} P num_procs mig
    {HLK : @GlobalLockLaws header K HK (in_range num_procs) (enable_migration P)}
    {HLM : @GlobalLockLaws (list Z) M HM (in_range num_procs) mig} {Hsort : StdSort greater_wn}
    layout n blks lk_coll_make num_locks sched pad uninit T s m h x86_64 is_store p b ptr err
    (Hs : start_ok P num_procs mig layout n blks lk_coll_make num_locks sched pad uninit)
    (Hr : reach P pad uninit sched num_procs layout
            (start (M := M) P num_procs layout blks lk_coll_make num_locks) (mspec_init num_locks) T s m h)
    (Hp : in_range num_procs p) (Hb : ft_known (FlagTable := seg_ft P) layout b)
    (Hptr : get_blk_id_from_app_ptr P layout ptr = Ok b)
    (Hcode : fault_code_ok x86_64 is_store err) (HT : later_ts P T 6 < u64_mod) :
  match app_access P 2 x86_64 is_store layout p b ptr err s with
  | Ok (k, s') => (k ≤ if is_store then 2 else 1)%nat
      ∧ ∃ m, mem_of P layout p b s' = Some m ∧ page_allows is_store (bm_prot m) = true
  | Fail f => enable_race_detection P = true ∧ is_race f = true
  end.
Proof.
  destruct (ft_known_loc P layout b Hb) as [loc Hk].
  pose proof (sy_procs _ _ _ _ _ _ _ _ _ _ (reach_inv P num_procs mig layout n blks lk_coll_make num_locks
    sched pad uninit T s m h Hs Hr)) as Hinv.
  pose proof (access_runs P num_procs (so_config _ _ _ _ _ _ _ _ _ _ _ Hs) (so_dir _ _ _ _ _ _ _ _ _ _ _ Hs)
    (so_lease _ _ _ _ _ _ _ _ _ _ _ Hs) n layout (so_layout _ _ _ _ _ _ _ _ _ _ _ Hs) (so_flags _ _ _ _ _ _ _ _ _ _ _ Hs)
    T p ptr b loc s x86_64 is_store err Hinv Hp Hk HT Hptr Hcode) as H.
  unfold runs in H. destruct (app_access _ _ _ _ _ _ _ _ _ _) as [[k s']|f]; [|done].
  destruct H as (? & _ & ?). done.
Qed.

(** A store without fault classification on the block nobody has read yet: two
    faults. *)
Lemma access_terminates_witness :
  ∃ s', app_access default_policy 2 false true demo_sys_layout 1 (2 ^ 38) (2 ^ 38 + 5) 0
      (start (K := qstate header) (M := qstate (list Z)) default_policy 2 demo_sys_layout demo_sys_blks demo_mtx 4)
    = Ok (2%nat, s')
    ∧ ∃ m, mem_of default_policy demo_sys_layout 1 (2 ^ 38) s' = Some m ∧ page_allows true (bm_prot m) = true.
Proof.
  pose proof (access_terminates default_policy 2 true demo_sys_layout (λ _, 1%nat) demo_sys_blks demo_mtx 4
    (seq 0) demo_pad demo_uninit 0 _ (mspec_init 4) hb_init false true 1 (2 ^ 38) (2 ^ 38 + 5) 0 demo_start_ok
    (reach_start _ _ _ _ _ _ _ _) ltac:(unfold in_range; lia) demo_sys_known ltac:(vm_compute; reflexivity)
    ltac:(discriminate) ltac:(vm_compute; reflexivity)) as H.
  assert (match app_access default_policy 2 false true demo_sys_layout 1 (2 ^ 38) (2 ^ 38 + 5) 0
      (start (K := qstate header) (M := qstate (list Z)) default_policy 2 demo_sys_layout demo_sys_blks demo_mtx 4) with
    | Ok (k, _) => Nat.eqb k 2 | Fail _ => false end = true) as Hk by (vm_compute; reflexivity).
  destruct (app_access _ _ _ _ _ _ _ _ _ _) as [[k s']|f]; [|discriminate Hk].
  apply Nat.eqb_eq in Hk as ->. exists s'. split; [reflexivity|]. exact (proj2 H).
Defined.
