(* ===== verification/Linear.v ===== *)
(** Concurrent objects and linearizability.

    The user-level threading library (cmpth) is built from objects whose methods
    run concurrently, one shared access at a time. An object is a state with a
    call, an internal step and a return per thread; its specification is a
    sequential relation applied at one instant between the call and the return.
    An object is linearizable when every history of calls and returns is one of
    the specification; a forward simulation proves it. *)
From stdpp Require Import base tactics functions list.
From S2P Require Import Prelude.

Section linear.
Context {T Op R : Type} `{EqDecision T}.

(** What a client observes. *)
Inductive history_event := Call (t : T) (op : Op) | Ret (t : T) (r : R).

(** [ob_step t] is the next access of thread [t] to the shared state; [None]
    when the thread has no call in progress or has to wait. *)
Record object := Object {
  ob_state : Type;
  ob_init : ob_state;
  ob_call : T → Op → ob_state → option ob_state;
  ob_step : T → ob_state → option ob_state;
  ob_ret : T → ob_state → option (R * ob_state);
}.

Inductive ob_runs (O : object) : list history_event → ob_state O → Prop :=
| runs_init : ob_runs O [] (ob_init O)
| runs_call h s t op s' : ob_runs O h s → ob_call O t op s = Some s' → ob_runs O (h ++ [Call t op]) s'
| runs_tau h s t s' : ob_runs O h s → ob_step O t s = Some s' → ob_runs O h s'
| runs_ret h s t r s' : ob_runs O h s → ob_ret O t s = Some (r, s') → ob_runs O (h ++ [Ret t r]) s'.

(** Sequential specifications. *)
Record spec := Spec {
  sp_state : Type;
  sp_init : sp_state;
  sp_apply : T → Op → sp_state → R → sp_state → Prop;
}.

Inductive pending := PIdle | PCalled (op : Op) | PDone (r : R).

(** The specification run by many threads: an operation takes effect at one
    instant, by [sruns_lin]. *)
Inductive spec_runs (S : spec) : list history_event → sp_state S → (T → pending) → Prop :=
| sruns_init : spec_runs S [] (sp_init S) (λ _, PIdle)
| sruns_call h q f t op :
    spec_runs S h q f → f t = PIdle → spec_runs S (h ++ [Call t op]) q (<[t := PCalled op]> f)
| sruns_lin h q f t op r q' :
    spec_runs S h q f → f t = PCalled op → sp_apply S t op q r q' →
    spec_runs S h q' (<[t := PDone r]> f)
| sruns_ret h q f t r :
    spec_runs S h q f → f t = PDone r → spec_runs S (h ++ [Ret t r]) q (<[t := PIdle]> f).

Definition linearizable (O : object) (S : spec) : Prop :=
  ∀ h s, ob_runs O h s → ∃ q f, spec_runs S h q f.

(** One thread takes effect, or none. *)
Definition lin_step (S : spec) (t : T) (a a' : sp_state S * (T → pending)) : Prop :=
  a' = a ∨ ∃ op r, a.2 t = PCalled op ∧ sp_apply S t op a.1 r a'.1 ∧ a'.2 = <[t := PDone r]> a.2.

(** A forward simulation in which the stepping thread alone takes effect. *)
Record simulation (O : object) (S : spec) (Rel : ob_state O → sp_state S → (T → pending) → Prop) : Prop := {
  sim_init : Rel (ob_init O) (sp_init S) (λ _, PIdle);
  sim_call t op s s' q f : Rel s q f → ob_call O t op s = Some s' →
    f t = PIdle ∧ Rel s' q (<[t := PCalled op]> f);
  sim_step t s s' q f : Rel s q f → ob_step O t s = Some s' →
    ∃ q' f', lin_step S t (q, f) (q', f') ∧ Rel s' q' f';
  sim_ret t r s s' q f : Rel s q f → ob_ret O t s = Some (r, s') →
    f t = PDone r ∧ Rel s' q (<[t := PIdle]> f);
}.

(** A simulation relates every reachable state. *)
Lemma simulation_runs O S Rel h s :
  simulation O S Rel → ob_runs O h s → ∃ q f, spec_runs S h q f ∧ Rel s q f.
Proof.
  intros Hsim. induction 1 as [|h s t op s' _ (q & f & Hr & HR) E|h s t s' _ (q & f & Hr & HR) E
    |h s t r s' _ (q & f & Hr & HR) E].
  - exists (sp_init S), (λ _, PIdle). split; [constructor|apply Hsim].
  - destruct (sim_call _ _ _ Hsim t op s s' q f HR E) as [Hf HR']. eexists _, _. split; [|done].
    by constructor.
  - destruct (sim_step _ _ _ Hsim t s s' q f HR E) as (q' & f' & [[= -> ->]|(op & r & Hf & Ha & Hf')] & HR').
    + by exists q, f.
    + cbn in *. subst f'. exists q', (<[t := PDone r]> f). split; [|done]. by eapply sruns_lin.
  - destruct (sim_ret _ _ _ Hsim t r s s' q f HR E) as [Hf HR']. eexists _, _. split; [|done].
    by constructor.
Qed.

Lemma simulation_linearizable O S Rel : simulation O S Rel → linearizable O S.
Proof. intros Hsim h s Hs. destruct (simulation_runs O S Rel h s Hsim Hs) as (q & f & ? & _). eauto. Qed.

(** A property of the specification's histories carries over. *)
Lemma linearizable_safe O S (Good : list history_event → Prop) :
  linearizable O S → (∀ h q f, spec_runs S h q f → Good h) → ∀ h s, ob_runs O h s → Good h.
Proof. intros Hlin HG h s Hs. destruct (Hlin h s Hs) as (q & f & Hr). eauto. Qed.

(** Schedules, to run an object on a concrete input. *)
Inductive schedule_event := SCall (t : T) (op : Op) | SStep (t : T) | SRet (t : T).

Fixpoint schedule (O : object) (es : list schedule_event) (h : list history_event) (s : ob_state O) :
    option (list history_event * ob_state O) :=
  match es with
  | [] => Some (h, s)
  | SCall t op :: es => s' ← ob_call O t op s; schedule O es (h ++ [Call t op]) s'
  | SStep t :: es => s' ← ob_step O t s; schedule O es h s'
  | SRet t :: es => '(r, s') ← ob_ret O t s; schedule O es (h ++ [Ret t r]) s'
  end.

Lemma schedule_runs O es h s h' s' :
  ob_runs O h s → schedule O es h s = Some (h', s') → ob_runs O h' s'.
Proof.
  revert h s. induction es as [|[t op|t|t] es IH]; intros h s Hs E; cbn in E; [by simplify_eq| | |].
  - destruct (ob_call O t op s) as [s1|] eqn:E1; [|done]. eapply IH; [|exact E]. by econstructor.
  - destruct (ob_step O t s) as [s1|] eqn:E1; [|done]. eapply IH; [|exact E]. by eapply runs_tau.
  - destruct (ob_ret O t s) as [[r s1]|] eqn:E1; [|done]. eapply IH; [|exact E]. by econstructor.
Qed.
End linear.
Arguments history_event : clear implicits.
Arguments object : clear implicits.
Arguments spec : clear implicits.
Arguments pending : clear implicits.
Arguments schedule_event : clear implicits.
