(* ===== verification/Spinlock.v ===== *)
(** The spinlock of cmpth, basic_spinlock.hpp, and the objects it protects.

    A method under a [lock_guard] is a sequential body between the accesses of
    [lock] and [unlock]; the generic theorem is that such an object is
    linearizable to its body. *)
From Stdlib Require Import ZArith Lia.
From stdpp Require Import base tactics functions list.
From S2P Require Import Prelude.
From S2P Require Import Linear.

(** * A spinlock around a sequential body *)
Section spinlock.
Context {Op R Q : Type} (q_init : Q) (body : nat → Op → Q → result (R * Q)).

(** Where a thread is; the comments name the access that comes next. *)
Inductive sl_pc :=
| SlReady
| SlCas (op : Op)      (** lock: compare_exchange_weak(false, true) *)
| SlSpin (op : Op)     (** lock: load until the flag is false *)
| SlBody (op : Op)     (** inside the critical section *)
| SlUnlock (r : R)     (** unlock: assert the flag, store false *)
| SlReturned (r : R)
| SlFailed.

Record sl_state := SlState {
  sl_flag : bool;
  sl_data : Q;
  sl_pcs : nat → sl_pc;
}.

Definition sl_init : sl_state := SlState false q_init (λ _, SlReady).

Definition sl_set_pc (t : nat) (c : sl_pc) (s : sl_state) : sl_state :=
  SlState (sl_flag s) (sl_data s) (<[t := c]> (sl_pcs s)).

Definition sl_call (t : nat) (op : Op) (s : sl_state) : option sl_state :=
  match sl_pcs s t with SlReady => Some (sl_set_pc t (SlCas op) s) | _ => None end.

Definition sl_step (t : nat) (s : sl_state) : option sl_state :=
  match sl_pcs s t with
  | SlCas op =>
      if sl_flag s then Some (sl_set_pc t (SlSpin op) s)
      else Some (sl_set_pc t (SlBody op) (SlState true (sl_data s) (sl_pcs s)))
  | SlSpin op => if sl_flag s then Some s else Some (sl_set_pc t (SlCas op) s)
  | SlBody op =>
      match body t op (sl_data s) with
      | Ok (r, q) => Some (sl_set_pc t (SlUnlock r) (SlState (sl_flag s) q (sl_pcs s)))
      | Fail _ => Some (sl_set_pc t SlFailed s)
      end
  | SlUnlock r =>
      if sl_flag s then Some (sl_set_pc t (SlReturned r) (SlState false (sl_data s) (sl_pcs s)))
      else Some (sl_set_pc t SlFailed s)
  | SlReady | SlReturned _ | SlFailed => None
  end.

Definition sl_ret (t : nat) (s : sl_state) : option (R * sl_state) :=
  match sl_pcs s t with SlReturned r => Some (r, sl_set_pc t SlReady s) | _ => None end.

Definition sl_object : object nat Op R := Object sl_state sl_init sl_call sl_step sl_ret.

Definition sl_spec : spec nat Op R := Spec Q q_init (λ t op q r q', body t op q = Ok (r, q')).

(** Inside the critical section. *)
Definition sl_inside (c : sl_pc) : bool :=
  match c with SlBody _ | SlUnlock _ | SlFailed => true | _ => false end.

Definition sl_matches (c : sl_pc) (p : pending Op R) : Prop :=
  match c with
  | SlReady => p = PIdle
  | SlCas op | SlSpin op | SlBody op => p = PCalled op
  | SlUnlock r | SlReturned r => p = PDone r
  | SlFailed => True
  end.

Record sl_rel (s : sl_state) (q : Q) (f : nat → pending Op R) : Prop := {
  sr_data : sl_data s = q;
  sr_pcs t : sl_matches (sl_pcs s t) (f t);
  sr_flag t : sl_inside (sl_pcs s t) = true → sl_flag s = true;
  sr_excl t u : sl_inside (sl_pcs s t) = true → sl_inside (sl_pcs s u) = true → t = u;
}.

(** A thread moves: what is left to show. *)
Lemma sl_rel_move s q f t c fl q' f' :
  sl_rel s q f → sl_matches c (f' t) → (∀ u, u ≠ t → f' u = f u) →
  (sl_inside (sl_pcs s t) = true ∨ sl_flag s = false ∨ (sl_inside c = false ∧ fl = sl_flag s)) →
  (sl_inside c = true → fl = true) →
  sl_rel (sl_set_pc t c (SlState fl q' (sl_pcs s))) q' f'.
Proof.
  intros [Hd Hp Hf He] Hm Hf' Hcase Hfl.
  assert (∀ u, u ≠ t → sl_inside (sl_pcs s u) = true →
    sl_inside c = false ∧ fl = sl_flag s) as Hu.
  { intros u Hne Hu. destruct Hcase as [Ht|[Ht|Ht]]; [|by rewrite (Hf u Hu) in Ht|done].
    destruct Hne. by apply He. }
  constructor; cbn.
  - done.
  - intros u. destruct (decide (u = t)) as [->|Hne].
    + by rewrite fn_lookup_insert.
    + rewrite fn_lookup_insert_ne, Hf' by done. apply Hp.
  - intros u. destruct (decide (u = t)) as [->|Hne].
    + rewrite fn_lookup_insert. apply Hfl.
    + rewrite fn_lookup_insert_ne by done. intros Hi. destruct (Hu u Hne Hi) as [_ ->]. by eapply Hf.
  - intros u v. destruct (decide (u = t)) as [->|Hu'], (decide (v = t)) as [->|Hv'];
      rewrite ?fn_lookup_insert, ?fn_lookup_insert_ne by done; intros H1 H2.
    + done.
    + destruct (Hu v Hv' H2). congruence.
    + destruct (Hu u Hu' H1). congruence.
    + by apply He.
Qed.

#[local] Ltac sl_solve :=
  cbn; intros; rewrite ?fn_lookup_insert, ?fn_lookup_insert_ne by done; naive_solver.

Lemma sl_simulation : simulation sl_object sl_spec sl_rel.
Proof.
  constructor.
  - by constructor.
  - intros t op s s' q f Hr E. cbn in E. unfold sl_call in E. pose proof (sr_pcs _ _ _ Hr t) as Hm.
    destruct (sl_pcs s t) eqn:Ec; simplify_eq. split; [done|]. destruct s as [fl q0 pcs].
    rewrite <-(sr_data _ _ _ Hr). apply (sl_rel_move _ _ _ _ _ _ _ _ Hr); sl_solve.
  - intros t s s' q f Hr E. cbn in E. unfold sl_step in E. pose proof (sr_pcs _ _ _ Hr t) as Hm.
    pose proof (sr_flag _ _ _ Hr t) as Hfl. pose proof (sr_data _ _ _ Hr) as Hd.
    destruct s as [fl q0 pcs]. cbn in Hd. subst q0.
    assert (∀ c q', sl_matches c (f t) → q' = q →
      (sl_inside (pcs t) = true ∨ fl = false ∨ sl_inside c = false) → ∀ fl',
      (sl_inside c = true → fl' = true) → (fl' = fl ∨ sl_inside (pcs t) = true ∨ fl = false) →
      ∃ q1 f1, lin_step sl_spec t (q, f) (q1, f1) ∧ sl_rel (sl_set_pc t c (SlState fl' q' pcs)) q1 f1) as Hstay.
    { intros c q' Hc -> H1 fl' H2 H3. exists q, f. split; [by left|].
      apply (sl_rel_move _ _ _ _ _ _ _ _ Hr); sl_solve. }
    cbn in *. destruct (pcs t) eqn:Ec; try done.
    + destruct fl; simplify_eq; apply Hstay; sl_solve.
    + destruct fl; simplify_eq; [|by apply Hstay; auto]. exists q, f. split; [by left|done].
    + cbn in Hfl. specialize (Hfl eq_refl) as ->. destruct (body t op q) as [[r q']|] eqn:Eb; simplify_eq.
      * exists q', (<[t := PDone r]> f). split; [right; by exists op, r|].
        apply (sl_rel_move _ _ _ _ _ _ _ _ Hr); cbn; [by rewrite fn_lookup_insert| |by rewrite Ec; left|done].
        intros. by rewrite fn_lookup_insert_ne.
      * apply Hstay; sl_solve.
    + cbn in Hfl. specialize (Hfl eq_refl) as ->. simplify_eq. apply Hstay; sl_solve.
  - intros t r s s' q f Hr E. cbn in E. unfold sl_ret in E. pose proof (sr_pcs _ _ _ Hr t) as Hm.
    destruct (sl_pcs s t) eqn:Ec; simplify_eq. split; [done|]. destruct s as [fl q0 pcs].
    rewrite <-(sr_data _ _ _ Hr). apply (sl_rel_move _ _ _ _ _ _ _ _ Hr); sl_solve.
Qed.

(** Mutual exclusion, and the assertion of [unlock] never fails: a thread that
    stops has failed in the body. *)
Lemma sl_exclusive h s t u :
  ob_runs sl_object h s → sl_inside (sl_pcs s t) = true → sl_inside (sl_pcs s u) = true → t = u.
Proof.
  intros Hs. destruct (simulation_runs _ _ _ _ _ sl_simulation Hs) as (q & f & _ & Hr). by apply (sr_excl _ _ _ Hr).
Qed.

Lemma sl_linearizable : linearizable sl_object sl_spec.
Proof. exact (simulation_linearizable _ _ _ sl_simulation). Qed.
End spinlock.
