(* ===== verification/Deque.v ===== *)
(** The worker deques of cmpth: chaselev_worker_deque.hpp and
    spinlock_worker_deque.hpp, against one specification.

    The tasks of a worker are a list, the bottom (the end thieves take from)
    first. The Chase-Lev deque is modelled one shared access at a time, the
    accesses of the owner (thread 0) and of the thieves interleaving in any
    order; its indices are [size_t] values, compared as signed differences. The
    memory order is sequential consistency, which the fences of the source are
    there to give. *)
From Stdlib Require Import ZArith Lia.
From stdpp Require Import base tactics functions list.
From S2P Require Import Prelude.
From S2P Require Import Linear.
From S2P Require Import Spinlock.

(** The value of a [size_t] cast to [ssize_t]. *)
Definition s64 (x : Z) : Z := if x <? 2 ^ 63 then x else x - u64_mod.

Inductive wd_op (A : Type) :=
| LocalPushTop (cont : A)
| LocalPushBottom (cont : A)
| RemotePushBottom (cont : A)
| TryLocalPopTop
| TryRemotePopBottom.
Arguments LocalPushTop {A} cont.
Arguments LocalPushBottom {A} cont.
Arguments RemotePushBottom {A} cont.
Arguments TryLocalPopTop {A}.
Arguments TryRemotePopBottom {A}.

(** [WdThrown] is [worker_deque_error]. *)
Inductive wd_ret (A : Type) := WdPushed | WdThrown | WdGot (cont : option A).
Arguments WdPushed {A}.
Arguments WdThrown {A}.
Arguments WdGot {A} cont.

(** * spinlock_worker_deque *)
Section spinlock_deque.
Context {A : Type} (is_root : A → bool).

(** The bodies of the methods, on a [std::deque] whose front is the bottom. *)
Definition sd_body (t : nat) (op : wd_op A) (q : list A) : result (wd_ret A * list A) :=
  match op with
  | LocalPushTop cont => _ ← assert_ (negb (is_root cont)); Ok (WdPushed, q ++ [cont])
  | LocalPushBottom cont | RemotePushBottom cont =>
      _ ← assert_ (negb (is_root cont)); Ok (WdPushed, cont :: q)
  | TryLocalPopTop =>
      match last q with
      | None => Ok (WdGot None, q)
      | Some cont => _ ← assert_ (negb (is_root cont)); Ok (WdGot (Some cont), removelast q)
      end
  | TryRemotePopBottom =>
      match q with
      | [] => Ok (WdGot None, q)
      | cont :: q => _ ← assert_ (negb (is_root cont)); Ok (WdGot (Some cont), q)
      end
  end.

Definition spinlock_worker_deque : object nat (wd_op A) (wd_ret A) := sl_object [] sd_body.
End spinlock_deque.

(** * chaselev_worker_deque *)
Section chaselev.
Context {A : Type} (size : Z).

(** [array::get_real_idx]. *)
Definition get_real_idx (i : Z) : result Z :=
  _ ← assert_ (Z.land size (size - 1) =? 0); Ok (Z.land i (size - 1)).

(** Where a thread is; the comments name the access that comes next. *)
Inductive cl_pc :=
| ClReady
| PushLoadBottom (cont : A)               (** local_push_top: load bottom *)
| PushLoadTop (cont : A) (b : Z)          (** load top *)
| PushStoreElem (cont : A) (b : Z)        (** store the element *)
| PushStoreBottom (cont : A) (b : Z)      (** store bottom *)
| PopLoadBottom                           (** try_local_pop_top: load bottom *)
| PopStoreBottom (b : Z)                  (** store the decremented bottom *)
| PopLoadTop (b : Z)                      (** load top *)
| PopLoadElem (b t : Z)                   (** load the element *)
| PopCas (b t : Z) (x : option A)         (** the last one: CAS top *)
| PopRestore (b : Z) (x : option A)       (** store bottom back *)
| StealLoadTop                            (** try_remote_pop_bottom: load top *)
| StealLoadBottom (t : Z)                 (** load bottom *)
| StealLoadElem (t : Z)                   (** load the element *)
| StealCas (t : Z) (x : option A)         (** CAS top *)
| ClReturned (r : wd_ret A)
| ClFailed.

Record chaselev := ChaseLev {
  cl_top : Z;
  cl_bottom : Z;
  cl_elems : Z → option A;
  cl_pcs : nat → cl_pc;
}.

Definition cl_init : chaselev := ChaseLev 0 0 (λ _, None) (λ _, ClReady).

Definition cl_set_pc (t : nat) (c : cl_pc) (s : chaselev) : chaselev :=
  ChaseLev (cl_top s) (cl_bottom s) (cl_elems s) (<[t := c]> (cl_pcs s)).

Definition cl_set_top (v : Z) (s : chaselev) : chaselev :=
  ChaseLev v (cl_bottom s) (cl_elems s) (cl_pcs s).

Definition cl_set_bottom (v : Z) (s : chaselev) : chaselev :=
  ChaseLev (cl_top s) v (cl_elems s) (cl_pcs s).

(** A call: pushing and popping at the top is for the owner, stealing for the
    others; [local_push_bottom] is [local_push_top] here, and there is no
    remote push. The owner pushes at most [2^63 - 2] tasks more than it pops. *)
Definition cl_call (t : nat) (op : wd_op A) (s : chaselev) : option chaselev :=
  match cl_pcs s t, op, t with
  | ClReady, LocalPushTop cont, O | ClReady, LocalPushBottom cont, O =>
      if cl_bottom s <? 2 ^ 63 - 2 then Some (cl_set_pc t (PushLoadBottom cont) s) else None
  | ClReady, TryLocalPopTop, O => Some (cl_set_pc t PopLoadBottom s)
  | ClReady, TryRemotePopBottom, S _ => Some (cl_set_pc t StealLoadTop s)
  | _, _, _ => None
  end.

(** Stores or loads an element; the assertion of the index may fail. *)
Definition cl_load (i : Z) (s : chaselev) : result (option A) :=
  i ← get_real_idx i; Ok (cl_elems s i).

Definition cl_store (i : Z) (p : A) (s : chaselev) : result chaselev :=
  i ← get_real_idx i;
  Ok (ChaseLev (cl_top s) (cl_bottom s) (<[i := Some p]> (cl_elems s)) (cl_pcs s)).

Definition cl_step (t : nat) (s : chaselev) : option chaselev :=
  match cl_pcs s t with
  | ClReady | ClReturned _ | ClFailed => None
  (* local_push_top *)
  | PushLoadBottom cont => Some (cl_set_pc t (PushLoadTop cont (cl_bottom s)) s)
  | PushLoadTop cont b =>
      let diff := s64 b - s64 (cl_top s) in
      if size - 1 <? diff then Some (cl_set_pc t (ClReturned WdThrown) s)
      else Some (cl_set_pc t (PushStoreElem cont b) s)
  | PushStoreElem cont b =>
      match cl_store b cont s with
      | Ok s => Some (cl_set_pc t (PushStoreBottom cont b) s)
      | Fail _ => Some (cl_set_pc t ClFailed s)
      end
  | PushStoreBottom cont b =>
      Some (cl_set_pc t (ClReturned WdPushed) (cl_set_bottom (u64 (b + 1)) s))
  (* try_local_pop_top *)
  | PopLoadBottom => Some (cl_set_pc t (PopStoreBottom (u64 (cl_bottom s - 1))) s)
  | PopStoreBottom b => Some (cl_set_pc t (PopLoadTop b) (cl_set_bottom b s))
  | PopLoadTop b =>
      let top := cl_top s in
      let diff := s64 b - s64 top in
      if 0 <=? diff then Some (cl_set_pc t (PopLoadElem b top) s)
      else Some (cl_set_pc t (PopRestore b None) s)
  | PopLoadElem b top =>
      match cl_load b s with
      | Ok x =>
          if top =? b then Some (cl_set_pc t (PopCas b top x) s)
          else Some (cl_set_pc t (ClReturned (WdGot x)) s)
      | Fail _ => Some (cl_set_pc t ClFailed s)
      end
  | PopCas b top x =>
      if cl_top s =? top then Some (cl_set_pc t (PopRestore b x) (cl_set_top (u64 (top + 1)) s))
      else Some (cl_set_pc t (PopRestore b None) s)
  | PopRestore b x => Some (cl_set_pc t (ClReturned (WdGot x)) (cl_set_bottom (u64 (b + 1)) s))
  (* try_remote_pop_bottom *)
  | StealLoadTop => Some (cl_set_pc t (StealLoadBottom (cl_top s)) s)
  | StealLoadBottom top =>
      let diff := s64 (cl_bottom s) - s64 top in
      if 0 <? diff then Some (cl_set_pc t (StealLoadElem top) s)
      else Some (cl_set_pc t (ClReturned (WdGot None)) s)
  | StealLoadElem top =>
      match cl_load top s with
      | Ok x => Some (cl_set_pc t (StealCas top x) s)
      | Fail _ => Some (cl_set_pc t ClFailed s)
      end
  | StealCas top x =>
      if cl_top s =? top then Some (cl_set_pc t (ClReturned (WdGot x)) (cl_set_top (u64 (top + 1)) s))
      else Some (cl_set_pc t (ClReturned (WdGot None)) s)
  end.

Definition cl_ret (t : nat) (s : chaselev) : option (wd_ret A * chaselev) :=
  match cl_pcs s t with ClReturned r => Some (r, cl_set_pc t ClReady s) | _ => None end.

Definition chaselev_worker_deque : object nat (wd_op A) (wd_ret A) :=
  Object chaselev cl_init cl_call cl_step cl_ret.

(** * The specification

    A bounded list; a push throws exactly when it is full, a pop at the top
    fails exactly when it is empty, and a steal may fail (it lost a race). *)
Inductive wd_apply (t : nat) : wd_op A → list A → wd_ret A → list A → Prop :=
| wa_push op cont q :
    op = LocalPushTop cont ∨ op = LocalPushBottom cont → Z.of_nat (length q) < size →
    wd_apply t op q WdPushed (q ++ [cont])
| wa_full op cont q :
    op = LocalPushTop cont ∨ op = LocalPushBottom cont → size ≤ Z.of_nat (length q) →
    wd_apply t op q WdThrown q
| wa_pop cont q : wd_apply t TryLocalPopTop (q ++ [cont]) (WdGot (Some cont)) q
| wa_pop_empty : wd_apply t TryLocalPopTop [] (WdGot None) []
| wa_steal cont q : wd_apply t TryRemotePopBottom (cont :: q) (WdGot (Some cont)) q
| wa_steal_fails q : wd_apply t TryRemotePopBottom q (WdGot None) q.

Definition wd_spec : spec nat (wd_op A) (wd_ret A) := Spec (list A) [] wd_apply.
End chaselev.
Arguments cl_pc : clear implicits.
Arguments chaselev : clear implicits.

(** * Correctness *)
Section chaselev_correct.
Context {A : Type} (size k : Z) (Hk : 0 ≤ k) (Hsize : size = 2 ^ k).
#[local] Abbreviation state := (chaselev A).

Definition slot (i : Z) : Z := i mod size.

Lemma size_pos : 0 < size.
Proof using Hk Hsize. rewrite Hsize. by apply Z.pow_pos_nonneg. Qed.

Lemma get_real_idx_slot i : get_real_idx size i = Ok (slot i).
Proof using Hk Hsize.
  unfold get_real_idx, slot. rewrite Hsize.
  replace (2 ^ k - 1) with (Z.ones k) by (rewrite Z.ones_equiv; lia).
  rewrite !Z.land_ones, Z_mod_same_full by done. done.
Qed.

Lemma slot_ne i j : i < j < i + size → slot i ≠ slot j.
Proof using Hk Hsize.
  unfold slot. pose proof size_pos. intros Hij E.
  assert ((j - i) mod size = 0) as E' by (rewrite Zminus_mod, E, Z.sub_diag; apply Z.mod_0_l; lia).
  rewrite Z.mod_small in E' by lia. lia.
Qed.

(** The tasks from index [top] on are [q]. *)
Definition holds_tasks (elems : Z → option A) (top : Z) (q : list A) : Prop :=
  ∀ i x, q !! i = Some x → elems (slot (top + Z.of_nat i)) = Some x.

Definition pushing (p : pending (wd_op A) (wd_ret A)) (x : A) : Prop :=
  ∃ op, p = PCalled op ∧ (op = LocalPushTop x ∨ op = LocalPushBottom x).

(** What the owner knows; [lb] is the end of the deque, which is [bottom] but
    while the owner has decremented it. *)
Definition owner_inv (lb : Z) (s : state) (p : pending (wd_op A) (wd_ret A)) : Prop :=
  match cl_pcs s 0 with
  | ClReady => p = PIdle ∧ cl_bottom s = lb
  | PushLoadBottom x => pushing p x ∧ cl_bottom s = lb ∧ lb < 2 ^ 63 - 2
  | PushLoadTop x b => pushing p x ∧ cl_bottom s = lb ∧ lb < 2 ^ 63 - 2 ∧ b = lb
  | PushStoreElem x b =>
      pushing p x ∧ cl_bottom s = lb ∧ lb < 2 ^ 63 - 2 ∧ b = lb ∧ lb - cl_top s < size
  | PushStoreBottom x b =>
      pushing p x ∧ cl_bottom s = lb ∧ lb < 2 ^ 63 - 2 ∧ b = lb ∧ lb - cl_top s < size
      ∧ cl_elems s (slot lb) = Some x
  | PopLoadBottom => p = PCalled TryLocalPopTop ∧ cl_bottom s = lb
  | PopStoreBottom b => p = PCalled TryLocalPopTop ∧ cl_bottom s = lb ∧ b = u64 (lb - 1)
  | PopLoadTop b => p = PCalled TryLocalPopTop ∧ cl_bottom s = b ∧ b = u64 (lb - 1)
  | PopLoadElem b t => cl_bottom s = b ∧ 0 ≤ t ≤ cl_top s
      ∧ (t < b ∧ b = lb ∧ p = PDone (WdGot (cl_elems s (slot b)))
         ∨ t = b ∧ b = lb - 1 ∧ p = PCalled TryLocalPopTop)
  | PopCas b t x => cl_bottom s = b ∧ 0 ≤ t ≤ cl_top s ∧ t = b ∧ b = lb - 1
      ∧ p = PCalled TryLocalPopTop ∧ x = cl_elems s (slot b)
  | PopRestore b x => cl_bottom s = b ∧ b = u64 (lb - 1) ∧ p = PDone (WdGot x)
  | ClReturned r => p = PDone r ∧ cl_bottom s = lb
  | _ => False
  end.

Definition thief_inv (lb : Z) (s : state) (c : cl_pc A) (p : pending (wd_op A) (wd_ret A)) : Prop :=
  match c with
  | ClReady => p = PIdle
  | StealLoadTop => p = PCalled TryRemotePopBottom
  | StealLoadBottom t => p = PCalled TryRemotePopBottom ∧ 0 ≤ t ≤ cl_top s
  | StealLoadElem t => p = PCalled TryRemotePopBottom ∧ 0 ≤ t ≤ cl_top s
      ∧ (t = cl_top s → cl_top s < lb)
  | StealCas t x => p = PCalled TryRemotePopBottom ∧ 0 ≤ t ≤ cl_top s
      ∧ (t = cl_top s → cl_top s < lb ∧ x = cl_elems s (slot t))
  | ClReturned r => p = PDone r
  | _ => False
  end.

Record cl_rel (lb : Z) (s : state) (q : list A) (f : nat → pending (wd_op A) (wd_ret A)) : Prop := {
  cr_range : 0 ≤ cl_top s ∧ cl_top s ≤ lb ∧ lb < 2 ^ 63 - 1;
  cr_length : Z.of_nat (length q) = lb - cl_top s;
  cr_tasks : holds_tasks (cl_elems s) (cl_top s) q;
  cr_owner : owner_inv lb s (f O);
  cr_thief t : t ≠ O → thief_inv lb s (cl_pcs s t) (f t);
}.

(** ** Indices *)
Lemma s64_small x : x < 2 ^ 63 → s64 x = x.
Proof. unfold s64. intros H. apply Z.ltb_lt in H. by rewrite H. Qed.

Lemma s64_pred x : 0 ≤ x < 2 ^ 63 → s64 (u64 (x - 1)) = x - 1.
Proof.
  intros Hx. destruct (decide (x = 0)) as [->|Hne]; [done|].
  rewrite u64_small; [apply s64_small; lia|]. unfold is_u64, u64_mod. lia.
Qed.

Lemma u64_succ x : 0 ≤ x < 2 ^ 63 → u64 (x + 1) = x + 1.
Proof. intros. apply u64_small. unfold is_u64, u64_mod. lia. Qed.

Lemma u64_pred_succ x : 0 ≤ x < 2 ^ 63 → u64 (u64 (x - 1) + 1) = x.
Proof.
  intros. unfold u64, u64_mod. rewrite Zplus_mod_idemp_l. rewrite Z.mod_small; lia.
Qed.

Lemma cl_bottom_le lb s q f : cl_rel lb s q f → s64 (cl_bottom s) ≤ lb.
Proof using Hk Hsize.
  intros Hr. pose proof (cr_range _ _ _ _ Hr). pose proof (cr_owner _ _ _ _ Hr) as Ho. unfold owner_inv in Ho.
  destruct (cl_pcs s 0); try done; destruct_and?; subst;
    repeat match goal with H : cl_bottom _ = _ |- _ => rewrite H end;
    rewrite ?s64_pred by lia; try (rewrite s64_small by lia; lia); try lia.
  all: destruct_or?; destruct_and?; rewrite s64_small by lia; lia.
Qed.

(** ** Frames *)
Lemma thief_frame lb lb' s s' c p :
  thief_inv lb s c p → cl_top s ≤ cl_top s' →
  (cl_top s' = cl_top s → cl_top s < lb →
     cl_top s < lb' ∧ cl_elems s' (slot (cl_top s)) = cl_elems s (slot (cl_top s))) →
  thief_inv lb' s' c p.
Proof.
  intros Hc Hle Hsame. destruct c; cbn in *; try done; destruct_and?; split_and?; try done; try lia;
    intros ->; (assert (cl_top s' = cl_top s) as E by lia); rewrite E in *; destruct Hsame; auto;
    destruct_and?; try lia; naive_solver.
Qed.

Lemma owner_frame lb s s' p :
  owner_inv lb s p → cl_pcs s' 0%nat = cl_pcs s 0%nat → cl_bottom s' = cl_bottom s →
  cl_elems s' = cl_elems s → cl_top s ≤ cl_top s' → owner_inv lb s' p.
Proof.
  unfold owner_inv. intros Ho -> Hb He Ht. rewrite Hb, He.
  destruct (cl_pcs s 0); try done; destruct_and?; split_and?; try done; lia.
Qed.

(** A step of the owner. *)
Lemma owner_move lb lb' s s1 q q' f f' c :
  cl_rel lb s q f → cl_pcs s1 = cl_pcs s →
  cl_top s ≤ cl_top s1 ∧ cl_top s1 ≤ lb' ∧ lb' < 2 ^ 63 - 1 →
  Z.of_nat (length q') = lb' - cl_top s1 → holds_tasks (cl_elems s1) (cl_top s1) q' →
  owner_inv lb' (cl_set_pc 0 c s1) (f' O) → (∀ t, t ≠ O → f' t = f t) →
  (cl_top s1 = cl_top s → cl_top s < lb →
     cl_top s < lb' ∧ cl_elems s1 (slot (cl_top s)) = cl_elems s (slot (cl_top s))) →
  cl_rel lb' (cl_set_pc 0 c s1) q' f'.
Proof.
  intros Hr Hpc Hran Hlen Htasks Ho Hf Hfr. pose proof (cr_range _ _ _ _ Hr).
  constructor; cbn; try done; [lia|]. intros t Ht. rewrite fn_lookup_insert_ne by done.
  rewrite Hpc, Hf by done. eapply thief_frame; [by apply (cr_thief _ _ _ _ Hr)|cbn; lia|done].
Qed.

(** A step of the owner that leaves the deque as it is. *)
Lemma owner_stay lb s q f f' c b :
  cl_rel lb s q f → owner_inv lb (cl_set_pc 0 c (cl_set_bottom b s)) (f' O) →
  (∀ t, t ≠ O → f' t = f t) → cl_rel lb (cl_set_pc 0 c (cl_set_bottom b s)) q f'.
Proof.
  intros Hr Ho Hf. pose proof (cr_range _ _ _ _ Hr).
  eapply owner_move; [done|done|cbn; lia|by apply Hr|by apply (cr_tasks _ _ _ _ Hr)|done|done|done].
Qed.

(** A step of a thief: it takes the first task or leaves the deque as it is. *)
Lemma thief_move lb s q q' f f' t c v :
  t ≠ O → cl_rel lb s q f →
  v = cl_top s ∧ q' = q ∨ v = cl_top s + 1 ∧ (∃ x, q = x :: q') →
  thief_inv lb (cl_set_top v s) c (f' t) → (∀ u, u ≠ t → f' u = f u) →
  cl_rel lb (cl_set_pc t c (cl_set_top v s)) q' f'.
Proof.
  intros Ht Hr Hcase Hc Hf. pose proof (cr_range _ _ _ _ Hr) as Hran. pose proof (cr_length _ _ _ _ Hr) as Hlen.
  constructor; cbn.
  - destruct Hcase as [[-> ->]|[-> [x ->]]]; cbn in Hlen; lia.
  - destruct Hcase as [[-> ->]|[-> [x ->]]]; cbn in Hlen; lia.
  - pose proof (cr_tasks _ _ _ _ Hr) as Htk. destruct Hcase as [[-> ->]|[-> [x ->]]]; [done|].
    intros i y Hi. specialize (Htk (S i) y Hi). rewrite <-Htk. do 2 f_equal. lia.
  - rewrite Hf by done. eapply owner_frame; [apply Hr|..]; cbn; try done; [by rewrite fn_lookup_insert_ne|].
    destruct Hcase as [[-> ?]|[-> ?]]; lia.
  - intros u Hu. destruct (decide (u = t)) as [->|Hne].
    + rewrite fn_lookup_insert. done.
    + rewrite fn_lookup_insert_ne, Hf by done.
      eapply thief_frame; [by apply (cr_thief _ _ _ _ Hr)|cbn; destruct Hcase as [[-> ?]|[-> ?]]; lia|done].
Qed.

(** The first task, and the last. *)
Lemma first_task lb s q f :
  cl_rel lb s q f → cl_top s < lb → ∃ x q', q = x :: q' ∧ cl_elems s (slot (cl_top s)) = Some x.
Proof.
  intros Hr Hlt. pose proof (cr_length _ _ _ _ Hr) as Hlen. destruct q as [|x q]; [cbn in Hlen; lia|].
  exists x, q. split; [done|]. pose proof (cr_tasks _ _ _ _ Hr 0%nat x eq_refl) as H.
  by rewrite Z.add_0_r in H.
Qed.

Lemma last_task lb s q f :
  cl_rel lb s q f → cl_top s < lb → ∃ x q', q = q' ++ [x] ∧ cl_elems s (slot (lb - 1)) = Some x.
Proof.
  intros Hr Hlt. pose proof (cr_length _ _ _ _ Hr) as Hlen.
  destruct q as [|x q _] using rev_ind; [cbn in Hlen; lia|]. exists x, q. split; [done|].
  rewrite length_app in Hlen. cbn in Hlen.
  pose proof (cr_tasks _ _ _ _ Hr (length q) x) as H. rewrite <-H; [f_equal; f_equal; lia|].
  rewrite lookup_app_r, Nat.sub_diag by lia. done.
Qed.

(** ** The simulation *)
#[local] Ltac keep_others := intros; by rewrite ?fn_lookup_insert_ne.
#[local] Ltac owner_goal := unfold owner_inv; cbn; rewrite ?fn_lookup_insert; cbn.

Lemma owner_call op lb s s' q f :
  cl_rel lb s q f → cl_call 0 op s = Some s' → f O = PIdle ∧ cl_rel lb s' q (<[O := PCalled op]> f).
Proof.
  intros Hr E. pose proof (cr_owner _ _ _ _ Hr) as Ho. unfold owner_inv in Ho. unfold cl_call in E.
  destruct s as [top bottom elems pcs]. cbn in *.
  destruct (pcs O); try (by destruct op); destruct Ho as [-> <-].
  destruct op; simplify_eq; (split; [done|]); try (destruct (Z.ltb_spec bottom (2 ^ 63 - 2)); simplify_eq);
    (apply (owner_stay bottom _ _ _ _ _ bottom Hr); [|keep_others]); owner_goal.
  1-2: split_and!; [eexists; split; [done|by auto]|done|done].
  all: by split.
Qed.

Lemma thief_call t op lb s s' q f :
  t ≠ O → cl_rel lb s q f → cl_call t op s = Some s' →
  f t = PIdle ∧ cl_rel lb s' q (<[t := PCalled op]> f).
Proof.
  intros Ht Hr E. pose proof (cr_thief _ _ _ _ Hr t Ht) as Hc. unfold cl_call in E.
  destruct s as [top bottom elems pcs]. cbn in *.
  destruct t as [|t]; [done|]. destruct (pcs (S t)); try (by destruct op). cbn in Hc.
  destruct op; simplify_eq. split; [done|].
  apply (thief_move lb _ q q f _ (S t) StealLoadTop top Ht Hr); [by left| |keep_others].
  by rewrite fn_lookup_insert.
Qed.

(** The owner takes effect. *)
Lemma lin_now {s' : state} {q f} t op r q' :
  f t = PCalled op → wd_apply size t op q r q' → (∃ lb, cl_rel lb s' q' (<[t := PDone r]> f)) →
  ∃ q1 f1, lin_step (wd_spec size) t (q, f) (q1, f1) ∧ ∃ lb, cl_rel lb s' q1 f1.
Proof. intros Hf Ha Hrel. exists q', (<[t := PDone r]> f). split; [right; by exists op, r|done]. Qed.

Lemma lin_later {s' : state} {q f} t :
  (∃ lb, cl_rel lb s' q f) →
  ∃ q1 f1, lin_step (wd_spec size) t (q, f) (q1, f1) ∧ ∃ lb, cl_rel lb s' q1 f1.
Proof. intros Hrel. exists q, f. split; [by left|done]. Qed.

Lemma owner_push_step lb s s' q f :
  cl_rel lb s q f → cl_step size 0 s = Some s' →
  match cl_pcs s 0%nat with PushLoadBottom _ | PushLoadTop _ _ | PushStoreElem _ _ | PushStoreBottom _ _ => True | _ => False end →
  ∃ q' f', lin_step (wd_spec size) 0%nat (q, f) (q', f') ∧ ∃ lb, cl_rel lb s' q' f'.
Proof.
  intros Hr E Hpc. pose proof (cr_owner _ _ _ _ Hr) as Ho. unfold owner_inv in Ho. unfold cl_step in E.
  pose proof (cr_range _ _ _ _ Hr) as Hran. pose proof (cr_length _ _ _ _ Hr) as Hlen.
  destruct s as [top bottom elems pcs]. cbn in *. destruct (pcs O) eqn:Epc; try done; simplify_eq.
  - apply lin_later. exists lb. apply (owner_stay lb _ _ _ _ _ bottom Hr); [|done]. owner_goal. naive_solver.
  - destruct Ho as (Hp & -> & Hb & ->). rewrite !s64_small in E by lia.
    destruct (Z.ltb_spec (size - 1) (lb - top)); simplify_eq.
    + destruct Hp as (op & Hf & Hop). apply (lin_now 0%nat op WdThrown q); [done|econstructor; [done|lia]|].
      exists lb. apply (owner_stay lb _ _ _ _ _ lb Hr); [|keep_others]. owner_goal. done.
    + apply lin_later. exists lb. apply (owner_stay lb _ _ _ _ _ lb Hr); [|done]. owner_goal.
      split_and!; try done; lia.
  - destruct Ho as (Hp & -> & Hb & -> & Hroom). unfold cl_store in E. rewrite get_real_idx_slot in E. cbn in E.
    simplify_eq. apply lin_later. exists lb.
    apply (owner_move lb lb _ (ChaseLev top lb (<[slot lb:=Some cont]> elems) pcs) q q f f _ Hr);
      cbn; [done|lia|lia| | |done|].
    + intros i x Hi. apply (cr_tasks _ _ _ _ Hr) in Hi as Hx. cbn in Hx.
      apply lookup_lt_Some in Hi. rewrite fn_lookup_insert_ne; [done|]. intros Es. symmetry in Es. revert Es.
      apply slot_ne. lia.
    + owner_goal. done.
    + intros _ Hlt. split; [done|]. rewrite fn_lookup_insert_ne; [done|].
      intros Es. symmetry in Es. revert Es. apply slot_ne. lia.
  - destruct Ho as ((op & Hf & Hop) & -> & Hb & -> & Hroom & Hel). rewrite u64_succ by lia.
    apply (lin_now 0%nat op WdPushed (q ++ [cont])); [done|constructor; [done|lia]|]. exists (lb + 1).
    apply (owner_move lb _ _ (ChaseLev top (lb + 1) elems pcs) q _ f _ _ Hr);
      cbn; [done|lia|rewrite length_app; cbn; lia| | |keep_others|].
    + intros i x [Hi|[Hi Hx]]%lookup_app_Some; [by apply (cr_tasks _ _ _ _ Hr)|].
      apply list_lookup_singleton_Some in Hx as [Hi' <-]. rewrite <-Hel. do 2 f_equal. lia.
    + owner_goal. done.
    + intros _ ?. split; [lia|done].
Qed.

Lemma owner_pop_step lb s s' q f :
  cl_rel lb s q f → cl_step size 0 s = Some s' →
  match cl_pcs s 0%nat with
  | PopLoadBottom | PopStoreBottom _ | PopLoadTop _ | PopLoadElem _ _ => True | _ => False end →
  ∃ q' f', lin_step (wd_spec size) 0%nat (q, f) (q', f') ∧ ∃ lb, cl_rel lb s' q' f'.
Proof.
  intros Hr E Hpc. pose proof (cr_owner _ _ _ _ Hr) as Ho. unfold owner_inv in Ho. unfold cl_step in E.
  pose proof (cr_range _ _ _ _ Hr) as Hran. pose proof (cr_length _ _ _ _ Hr) as Hlen.
  destruct s as [top bottom elems pcs]. cbn in *. destruct (pcs O) eqn:Epc; try done; simplify_eq.
  - destruct Ho as [Hf ->]. apply lin_later. exists lb. apply (owner_stay lb _ _ _ _ _ lb Hr); [|done].
    owner_goal. done.
  - destruct Ho as (Hf & -> & ->). apply lin_later. exists lb.
    apply (owner_stay lb _ _ _ _ _ (u64 (lb - 1)) Hr); [|done]. owner_goal. done.
  - destruct Ho as (Hf & -> & ->). rewrite s64_pred, s64_small in E by lia.
    destruct (Z.leb_spec 0 (lb - 1 - top)); simplify_eq.
    + rewrite u64_small in * by (unfold is_u64, u64_mod; lia).
      destruct (decide (top = lb - 1)) as [->|Hne].
      * apply lin_later. exists lb. apply (owner_stay lb _ _ _ _ _ (lb - 1) Hr); [|done]. owner_goal.
        split_and!; [done|lia|lia|by right].
      * destruct (last_task lb _ q f Hr) as (x & q0 & -> & Hx); [cbn; lia|]. cbn in Hx.
        apply (lin_now 0%nat TryLocalPopTop (WdGot (Some x)) q0); [done|constructor|]. exists (lb - 1).
        rewrite length_app in Hlen. cbn in Hlen.
        apply (owner_move lb _ _ (ChaseLev top (lb - 1) elems pcs) (q0 ++ [x]) _ f _ _ Hr);
          cbn; [done|lia|lia| | |keep_others|intros; split; [lia|done]].
        -- intros i y Hi. apply (cr_tasks _ _ _ _ Hr). by apply lookup_app_l_Some.
        -- owner_goal. split_and!; [done|lia|lia|]. left. rewrite Hx. split_and!; [lia|done..].
    + assert (q = []) as -> by (destruct q; [done|cbn in Hlen; lia]).
      apply (lin_now 0%nat TryLocalPopTop (WdGot None) []); [done|constructor|]. exists lb.
      apply (owner_stay lb _ _ _ _ _ (u64 (lb - 1)) Hr); [|keep_others]. owner_goal. done.
  - destruct Ho as (-> & Ht & Hcase). unfold cl_load in E. rewrite get_real_idx_slot in E. cbn in E.
    apply lin_later. exists lb. destruct Hcase as [(Hlt & -> & Hf)|(-> & -> & Hf)].
    + destruct (Z.eqb_spec t lb); [lia|]. simplify_eq.
      apply (owner_stay lb _ _ _ _ _ lb Hr); [|done]. owner_goal. done.
    + rewrite Z.eqb_refl in E. simplify_eq.
      apply (owner_stay lb _ _ _ _ _ (lb - 1) Hr); [|done]. owner_goal. split_and!; try done; lia.
Qed.

Lemma owner_cas_step lb s s' q f :
  cl_rel lb s q f → cl_step size 0 s = Some s' →
  match cl_pcs s 0%nat with PopCas _ _ _ | PopRestore _ _ => True | _ => False end →
  ∃ q' f', lin_step (wd_spec size) 0%nat (q, f) (q', f') ∧ ∃ lb, cl_rel lb s' q' f'.
Proof.
  intros Hr E Hpc. pose proof (cr_owner _ _ _ _ Hr) as Ho. unfold owner_inv in Ho. unfold cl_step in E.
  pose proof (cr_range _ _ _ _ Hr) as Hran. pose proof (cr_length _ _ _ _ Hr) as Hlen.
  destruct s as [top bottom elems pcs]. cbn in *. destruct (pcs O) eqn:Epc; try done; simplify_eq.
  - destruct Ho as (-> & Ht & -> & -> & Hf & ->).
    assert (u64 (lb - 1) = lb - 1) as Hu by (apply u64_small; unfold is_u64, u64_mod; lia).
    destruct (Z.eqb_spec top (lb - 1)) as [->|Hne]; simplify_eq.
    + destruct (last_task lb _ q f Hr) as (x & q0 & -> & Hx); [cbn; lia|]. cbn in Hx.
      rewrite length_app in Hlen. cbn in Hlen. rewrite u64_succ by lia. replace (lb - 1 + 1) with lb by lia.
      apply (lin_now 0%nat TryLocalPopTop (WdGot (Some x)) q0); [done|constructor|]. exists lb.
      assert (q0 = []) as -> by (destruct q0; [done|cbn in Hlen; lia]).
      apply (owner_move lb _ _ (ChaseLev lb (lb - 1) elems pcs) ([] ++ [x]) _ f _ _ Hr);
        cbn; [done|lia|lia|done| |keep_others|intros; lia].
      owner_goal. by rewrite Hx.
    + assert (q = []) as -> by (destruct q; [done|cbn in Hlen; lia]).
      apply (lin_now 0%nat TryLocalPopTop (WdGot None) []); [done|constructor|]. exists lb.
      apply (owner_stay lb _ _ _ _ _ (lb - 1) Hr); [|keep_others]. owner_goal. done.
  - destruct Ho as (-> & -> & Hf). rewrite u64_pred_succ by lia. apply lin_later. exists lb.
    apply (owner_stay lb _ _ _ _ _ lb Hr); [|done]. owner_goal. done.
Qed.

Lemma thief_step t lb s s' q f :
  t ≠ O → cl_rel lb s q f → cl_step size t s = Some s' →
  ∃ q' f', lin_step (wd_spec size) t (q, f) (q', f') ∧ ∃ lb, cl_rel lb s' q' f'.
Proof.
  intros Ht Hr E. pose proof (cr_thief _ _ _ _ Hr t Ht) as Hc. unfold cl_step in E.
  pose proof (cr_range _ _ _ _ Hr) as Hran. pose proof (cl_bottom_le _ _ _ _ Hr) as Hb.
  pose proof (first_task _ _ _ _ Hr) as Hfirst.
  destruct s as [top bottom elems pcs]. cbn in *.
  assert (∀ r, f t = PCalled TryRemotePopBottom → r = WdGot None →
    ∃ q' f', lin_step (wd_spec size) t (q, f) (q', f') ∧ ∃ lb, cl_rel lb
      (cl_set_pc t (ClReturned r) (ChaseLev top bottom elems pcs)) q' f') as Hfails.
  { intros r Hf ->. apply (lin_now t TryRemotePopBottom (WdGot None) q); [done|constructor|]. exists lb.
    apply (thief_move lb _ q q f _ t _ top Ht Hr); [by left|by cbn; rewrite fn_lookup_insert|keep_others]. }
  destruct (pcs t); try done; cbn in Hc; simplify_eq.
  - apply lin_later. exists lb. apply (thief_move lb _ q q f _ t _ top Ht Hr); [by left| |done]. cbn. split; [done|lia].
  - destruct Hc as [Hf Hv]. rewrite (s64_small t0) in E by lia.
    destruct (Z.ltb_spec 0 (s64 bottom - t0)); simplify_eq; [|by apply Hfails].
    apply lin_later. exists lb. apply (thief_move lb _ q q f _ t _ top Ht Hr); [by left| |done]. cbn.
    split_and!; [done|lia|lia|intros; lia].
  - destruct Hc as (Hf & Hv & Heq). unfold cl_load in E. rewrite get_real_idx_slot in E. cbn in E. simplify_eq.
    apply lin_later. exists lb. apply (thief_move lb _ q q f _ t _ top Ht Hr); [by left| |done]. cbn.
    split_and!; try done; try lia. naive_solver.
  - destruct Hc as (Hf & Hv & Heq). destruct (Z.eqb_spec top t0) as [->|Hne]; simplify_eq; [|by apply Hfails].
    destruct Heq as [Hlt ->]; [done|]. destruct Hfirst as (y & q0 & -> & Hy); [done|]. rewrite Hy.
    apply (lin_now t TryRemotePopBottom (WdGot (Some y)) q0); [done|constructor|]. exists lb.
    apply (thief_move lb _ (y :: q0) q0 f _ t _ (u64 (t0 + 1)) Ht Hr); [|by cbn; rewrite fn_lookup_insert|keep_others].
    right. cbn. split; [apply u64_succ; lia|by exists y].
Qed.

Lemma chaselev_simulation :
  simulation (chaselev_worker_deque size) (wd_spec size) (λ s q f, ∃ lb, cl_rel lb s q f).
Proof.
  constructor.
  - exists 0. by constructor.
  - intros t op s s' q f [lb Hr] E. destruct (decide (t = O)) as [->|Ht].
    + destruct (owner_call op lb s s' q f Hr E). eauto.
    + destruct (thief_call t op lb s s' q f Ht Hr E). eauto.
  - intros t s s' q f [lb Hr] E. destruct (decide (t = O)) as [->|Ht]; [|by eapply thief_step].
    pose proof (cr_owner _ _ _ _ Hr) as Ho. unfold owner_inv in Ho. cbn in E.
    destruct (cl_pcs s O) eqn:Epc; try done; try (unfold cl_step in E; by rewrite Epc in E).
    1-4: eapply owner_push_step; [exact Hr|exact E|by rewrite Epc].
    1-4: eapply owner_pop_step; [exact Hr|exact E|by rewrite Epc].
    1-2: eapply owner_cas_step; [exact Hr|exact E|by rewrite Epc].
  - intros t r s s' q f [lb Hr] E. cbn in E. unfold cl_ret in E. destruct (decide (t = O)) as [->|Ht].
    + pose proof (cr_owner _ _ _ _ Hr) as Ho. unfold owner_inv in Ho. destruct s as [top bottom elems pcs]. cbn in *.
      destruct (pcs O); simplify_eq. destruct Ho as [Hf ->]. split; [done|]. exists lb.
      apply (owner_stay lb _ _ _ _ _ lb Hr); [|keep_others]. owner_goal. done.
    + pose proof (cr_thief _ _ _ _ Hr t Ht) as Hc. destruct s as [top bottom elems pcs]. cbn in *.
      destruct (pcs t); simplify_eq. cbn in Hc. split; [done|]. exists lb.
      apply (thief_move lb _ q q f _ t _ top Ht Hr); [by left|by cbn; rewrite fn_lookup_insert|keep_others].
Qed.
End chaselev_correct.

(** * No task is lost or duplicated *)
Section conservation.
Context {A : Type}.

Definition op_task (op : wd_op A) : list A :=
  match op with
  | LocalPushTop x | LocalPushBottom x | RemotePushBottom x => [x]
  | TryLocalPopTop | TryRemotePopBottom => []
  end.

Definition ret_task (r : wd_ret A) : list A :=
  match r with WdGot (Some x) => [x] | _ => [] end.

(** The tasks given to the deque, and those it gave out. *)
Definition pushed_tasks (h : list (history_event nat (wd_op A) (wd_ret A))) : list A :=
  e ← h; match e with Call _ op => op_task op | Ret _ _ => [] end.

Definition popped_tasks (h : list (history_event nat (wd_op A) (wd_ret A))) : list A :=
  e ← h; match e with Call _ _ => [] | Ret _ r => ret_task r end.

Definition pending_task (p : pending (wd_op A) (wd_ret A)) : list A :=
  match p with PIdle => [] | PCalled op => op_task op | PDone r => ret_task r end.

Context (apply : nat → wd_op A → list A → wd_ret A → list A → Prop).
Context (Happly : ∀ t op q r q', apply t op q r q' → q' ++ ret_task r ⊆+ q ++ op_task op).

(** The threads that may have a call in progress can be listed with any thread. *)
Lemma add_thread (f : nat → pending (wd_op A) (wd_ret A)) ts (t : nat) :
  NoDup ts → (∀ u, u ∉ ts → f u = PIdle) →
  ∃ ts', NoDup (t :: ts') ∧ (∀ u, u ∉ t :: ts' → f u = PIdle)
    ∧ (u ← ts; pending_task (f u)) ≡ₚ pending_task (f t) ++ (u ← ts'; pending_task (f u)).
Proof.
  intros Hnd Hidle. destruct (decide (t ∈ ts)) as [Hin|Hin].
  - apply elem_of_Permutation in Hin as [ts' Hp]. exists ts'. rewrite <-Hp. split_and!; [done| |by rewrite Hp].
    intros u. rewrite <-Hp. apply Hidle.
  - exists ts. split_and!; [by constructor|intros u [_ Hu]%not_elem_of_cons; auto|].
    by rewrite (Hidle t Hin).
Qed.

Lemma bind_insert (f : nat → pending (wd_op A) (wd_ret A)) ts t p :
  t ∉ ts → (u ← ts; pending_task (<[t := p]> f u)) = (u ← ts; pending_task (f u)).
Proof.
  induction ts as [|u ts IH]; intros Hn; [done|]. apply not_elem_of_cons in Hn as [Hne Hn].
  cbn. rewrite fn_lookup_insert_ne by done. f_equal. by apply IH.
Qed.

Lemma tasks_conserved h q f :
  spec_runs (Spec (list A) [] apply) h q f → popped_tasks h ++ q ⊆+ pushed_tasks h.
Proof using Happly.
  intros Hr.
  assert (∃ ts, NoDup ts ∧ (∀ u, u ∉ ts → f u = PIdle)
    ∧ popped_tasks h ++ q ++ (u ← ts; pending_task (f u)) ⊆+ pushed_tasks h) as (ts & _ & _ & Hs).
  2: { etrans; [|exact Hs]. apply submseteq_app; [done|]. apply submseteq_inserts_r. done. }
  induction Hr as [|h q f t op Hr IH Hf|h q f t op r q' Hr IH Hf Ha|h q f t r Hr IH Hf].
  { exists []. by repeat constructor. }
  all: destruct IH as (ts & Hnd & Hidle & Hs);
    destruct (add_thread f ts t Hnd Hidle) as (ts' & Hnd' & Hidle' & Hp); rewrite Hp, Hf in Hs; clear Hp;
    exists (t :: ts'); (split; [done|]); apply NoDup_cons in Hnd' as [Hnt _];
    (split; [intros u Hu; rewrite fn_lookup_insert_ne; [by apply Hidle'|by intros ->; destruct Hu; left]|]);
    cbn; rewrite fn_lookup_insert, bind_insert by done; unfold pushed_tasks, popped_tasks in *;
    rewrite ?bind_app; cbn; rewrite ?app_nil_r.
  - cbn in Hs. etrans; [|apply submseteq_app; [exact Hs|done]].
    apply Permutation_submseteq. solve_Permutation.
  - cbn in Hs. etrans; [|exact Hs]. apply submseteq_app; [done|]. rewrite !app_assoc.
    apply submseteq_app; [by eapply Happly|done].
  - cbn in Hs. etrans; [|exact Hs]. apply Permutation_submseteq. solve_Permutation.
Qed.
End conservation.

Lemma wd_apply_conserves {A} size t (op : wd_op A) q r q' :
  wd_apply size t op q r q' → q' ++ ret_task r ⊆+ q ++ op_task op.
Proof.
  destruct 1 as [op cont q [-> | ->]|op cont q [-> | ->]| | | |]; cbn; rewrite ?app_nil_r; try done.
  1-2: by apply submseteq_inserts_r.
  by rewrite Permutation_app_comm.
Qed.

(** * The two deques *)

(** C26: the Chase-Lev deque is linearizable to a bounded list, whatever the
    interleaving of the accesses of the owner and of any number of thieves: a
    push throws exactly when the deque is full, a pop of the owner fails exactly
    when it is empty and else takes the last task, a successful steal takes the
    first. So every task pushed is given out at most once, and no assertion on
    the indices fails. *)
Theorem chaselev_linearizable {A} (k : nat) h (s : chaselev A) :
  ob_runs (chaselev_worker_deque (2 ^ Z.of_nat k)) h s →
  (∃ q f, spec_runs (wd_spec (2 ^ Z.of_nat k)) h q f)
  ∧ popped_tasks h ⊆+ pushed_tasks h
  ∧ ∀ t, cl_pcs s t ≠ ClFailed.
Proof.
  intros Hs. pose proof (chaselev_simulation (A := A) (2 ^ Z.of_nat k) _ (Zle_0_nat k) eq_refl) as Hsim.
  destruct (simulation_runs _ _ _ _ _ Hsim Hs) as (q & f & Hr & lb & Hrel). split_and!; [eauto| |].
  - etrans; [|exact (tasks_conserved _ (wd_apply_conserves _) h q f Hr)]. by apply submseteq_inserts_r.
  - intros t E. destruct (decide (t = O)) as [->|Ht].
    + pose proof (cr_owner _ _ _ _ _ Hrel) as Ho. unfold owner_inv in Ho. by rewrite E in Ho.
    + pose proof (cr_thief _ _ _ _ _ Hrel t Ht) as Hc. by rewrite E in Hc.
Qed.

(** A race for the last task: the thief reads it before the owner does and wins. *)
Definition demo_race : option (list (history_event nat (wd_op Z) (wd_ret Z)) * chaselev Z) :=
  schedule (chaselev_worker_deque 2)
    ([SCall O (LocalPushTop 7); SStep O; SStep O; SStep O; SStep O; SRet O]
     ++ [SCall 1%nat TryRemotePopBottom; SStep 1%nat; SStep 1%nat; SStep 1%nat]
     ++ [SCall O TryLocalPopTop; SStep O; SStep O; SStep O; SStep O]
     ++ [SStep 1%nat; SRet 1%nat; SStep O; SStep O; SRet O]) [] cl_init.

Lemma chaselev_linearizable_witness :
  ∃ h s, demo_race = Some (h, s) ∧ popped_tasks h = [7] ∧ pushed_tasks h = [7]
    ∧ ∃ q f, spec_runs (wd_spec 2) h q f.
Proof.
  destruct demo_race as [[h s]|] eqn:E; [|discriminate (eq_trans (eq_sym E) ltac:(vm_compute; reflexivity))].
  exists h, s. split; [reflexivity|].
  pose proof (chaselev_linearizable 1 h s
    (schedule_runs (chaselev_worker_deque 2) _ [] cl_init h s (runs_init (chaselev_worker_deque 2)) E)) as [Hl _].
  vm_compute in E. injection E as <- <-. repeat split; try reflexivity. exact Hl.
Defined.

Lemma sd_conserves {A} is_root t (op : wd_op A) q r q' :
  sd_body is_root t op q = Ok (r, q') → q' ++ ret_task r ⊆+ q ++ op_task op.
Proof.
  destruct op; cbn; intros E.
  - inv_ok. by rewrite app_nil_r.
  - inv_ok. rewrite app_nil_r. by rewrite Permutation_app_comm.
  - inv_ok. rewrite app_nil_r. by rewrite Permutation_app_comm.
  - destruct q as [|x q _] using rev_ind; [by cbn in E; inv_ok|]. rewrite last_snoc in E.
    inv_ok. cbn. rewrite removelast_last, app_nil_r. done.
  - destruct q as [|x q]; [by cbn in E; inv_ok|]. inv_ok.
    cbn. rewrite app_nil_r. by rewrite Permutation_app_comm.
Qed.

(** The spinlock deque is linearizable to an unbounded list with both ends
    open to pushes, gives out every task at most once, and its critical sections
    exclude each other. *)
Theorem spinlock_deque_linearizable {A} (is_root : A → bool) h (s : sl_state) :
  ob_runs (spinlock_worker_deque is_root) h s →
  (∃ q f, spec_runs (sl_spec [] (sd_body is_root)) h q f)
  ∧ popped_tasks h ⊆+ pushed_tasks h
  ∧ ∀ t u, sl_inside (sl_pcs s t) = true → sl_inside (sl_pcs s u) = true → t = u.
Proof.
  intros Hs. destruct (simulation_runs _ _ _ _ _ (sl_simulation [] (sd_body is_root)) Hs) as (q & f & Hr & Hrel).
  split_and!; [eauto| |by apply (sr_excl _ _ _ Hrel)].
  etrans; [|exact (tasks_conserved _ (sd_conserves is_root) h q f Hr)]. by apply submseteq_inserts_r.
Qed.

(** A thief spins while the owner is inside the critical section. *)
Definition demo_spin : option (list (history_event nat (wd_op Z) (wd_ret Z)) * sl_state) :=
  schedule (spinlock_worker_deque (λ _, false))
    ([SCall O (LocalPushTop 7); SStep O; SCall 1%nat TryRemotePopBottom; SStep 1%nat; SStep 1%nat]
     ++ [SStep O; SStep O; SRet O; SStep 1%nat; SStep 1%nat; SStep 1%nat; SStep 1%nat; SRet 1%nat]) [] (sl_init []).

Lemma spinlock_deque_linearizable_witness :
  ∃ h s, demo_spin = Some (h, s) ∧ popped_tasks h = [7]
    ∧ ∃ q f, spec_runs (sl_spec [] (sd_body (λ _ : Z, false))) h q f.
Proof.
  destruct demo_spin as [[h s]|] eqn:E; [|discriminate (eq_trans (eq_sym E) ltac:(vm_compute; reflexivity))].
  exists h, s. split; [reflexivity|].
  pose proof (spinlock_deque_linearizable (λ _ : Z, false) h s
    (schedule_runs (spinlock_worker_deque (λ _, false)) _ [] (sl_init []) h s
       (runs_init (spinlock_worker_deque (λ _, false))) E)) as [Hl _].
  vm_compute in E. injection E as <- <-. split; [reflexivity|exact Hl].
Defined.
