(* ===== verification/SyncQueue.v ===== *)
(** The queues of the synchronization primitives of cmpth: what
    basic_mcs_queue.hpp and basic_ring_buf_queue.hpp promise to
    basic_sync_delegator.hpp and basic_mcs_mutex.hpp.

    The specification is a list of nodes, the first of which is the lock holder;
    a node is linked when the next one is attached to it. The client protocol
    (who may call what) is part of every queue object, and its invariant is
    proved once, here, for all implementations. *)
From Stdlib Require Import ZArith Lia.
From stdpp Require Import base tactics functions list.
From S2P Require Import Prelude.
From S2P Require Import Linear.

Inductive sq_op :=
| StartLock
| SetNext (prev cur : Z)
| IsUnlockable (head : Z)
| TryUnlock (head : Z)
| TryFollowHead (head : Z).

(** [start_lock] returns the node, and the previous one unless it locked. *)
Inductive sq_ret :=
| RLocked (cur : Z)
| REnqueued (prev cur : Z)
| RSet
| RBool (b : bool)
| RNext (next : option Z).

#[export] Instance sq_op_eq_dec : EqDecision sq_op.
Proof. solve_decision. Defined.

Abbreviation sq_nodes := (list (Z * bool)).

Inductive sq_apply (t : nat) : sq_op → sq_nodes → sq_ret → sq_nodes → Prop :=
| sa_lock n : sq_apply t StartLock [] (RLocked n) [(n, false)]
| sa_enqueue q m n :
    n ∉ (q ++ [(m, false)]).*1 →
    sq_apply t StartLock (q ++ [(m, false)]) (REnqueued m n) ((q ++ [(m, false)]) ++ [(n, false)])
| sa_set q1 m n b q2 :
    sq_apply t (SetNext m n) (q1 ++ (m, false) :: (n, b) :: q2) RSet (q1 ++ (m, true) :: (n, b) :: q2)
| sa_unlockable h : sq_apply t (IsUnlockable h) [(h, false)] (RBool true) [(h, false)]
| sa_not_unlockable h b e q : sq_apply t (IsUnlockable h) ((h, b) :: e :: q) (RBool false) ((h, b) :: e :: q)
| sa_unlock h : sq_apply t (TryUnlock h) [(h, false)] (RBool true) []
| sa_unlock_fails h b e q : sq_apply t (TryUnlock h) ((h, b) :: e :: q) (RBool false) ((h, b) :: e :: q)
| sa_follow h n b q : sq_apply t (TryFollowHead h) ((h, true) :: (n, b) :: q) (RNext (Some n)) ((n, b) :: q)
| sa_follow_fails h q : sq_apply t (TryFollowHead h) ((h, false) :: q) (RNext None) ((h, false) :: q).

Definition sq_spec : spec nat sq_op sq_ret := Spec sq_nodes [] sq_apply.

Definition is_holder_op (op : sq_op) : bool :=
  match op with IsUnlockable _ | TryUnlock _ | TryFollowHead _ => true | _ => false end.

Definition op_head (op : sq_op) : option Z :=
  match op with IsUnlockable h | TryUnlock h | TryFollowHead h => Some h | _ => None end.

(** * Objects *)

(** A thread runs a method of the implementation (at the local state [l]), or
    is between two; after an enqueueing [start_lock] it has to link its node. *)
Inductive sq_status (L : Type) :=
| SFree
| SEnq (prev cur : Z)
| SRun (op : sq_op) (l : L)
| SDone (op : sq_op) (r : sq_ret)
| SFailed.
Arguments SFree {L}.
Arguments SEnq {L} prev cur.
Arguments SRun {L} op l.
Arguments SDone {L} op r.
Arguments SFailed {L}.

Section sync_object.
Context {I L : Type} (impl_init : I) (start : sq_op → L) (step : L → I → result ((L + sq_ret) * I)).
(** [get_head]. *)
Context (get_head : I → option Z).

Record sq_state := SqState {
  so_impl : I;
  so_token : bool;  (** the holder of the lock is between two methods *)
  so_status : nat → sq_status L;
}.

Definition so_init : sq_state := SqState impl_init false (λ _, SFree).

Definition so_set (t : nat) (c : sq_status L) (s : sq_state) : sq_state :=
  SqState (so_impl s) (so_token s) (<[t := c]> (so_status s)).

(** The client protocol: a thread that enqueued its node links it next; the
    methods of the lock holder are called by the holder only, one at a time,
    with the node [get_head] returns. *)
Definition so_call (t : nat) (op : sq_op) (s : sq_state) : option sq_state :=
  match so_status s t, op with
  | SFree, StartLock => Some (so_set t (SRun op (start op)) s)
  | SEnq p c, SetNext p' c' =>
      if (p =? p') && (c =? c') then Some (so_set t (SRun op (start op)) s) else None
  | SFree, IsUnlockable h | SFree, TryUnlock h | SFree, TryFollowHead h =>
      if so_token s && bool_decide (get_head (so_impl s) = Some h)
      then Some (so_set t (SRun op (start op)) (SqState (so_impl s) false (so_status s))) else None
  | _, _ => None
  end.

Definition so_step (t : nat) (s : sq_state) : option sq_state :=
  match so_status s t with
  | SRun op l =>
      match step l (so_impl s) with
      | Ok (inl l, i) => Some (so_set t (SRun op l) (SqState i (so_token s) (so_status s)))
      | Ok (inr r, i) => Some (so_set t (SDone op r) (SqState i (so_token s) (so_status s)))
      | Fail _ => Some (so_set t SFailed s)
      end
  | _ => None
  end.

(** Whether the caller holds the lock after the method. *)
Definition keeps_lock (op : sq_op) (r : sq_ret) : bool :=
  match op, r with
  | StartLock, RLocked _ => true
  | StartLock, _ | SetNext _ _, _ => false
  | TryUnlock _, RBool true => false
  | _, _ => true
  end.

Definition after_ret (op : sq_op) (r : sq_ret) : sq_status L :=
  match op, r with StartLock, REnqueued p c => SEnq p c | _, _ => SFree end.

Definition so_ret (t : nat) (s : sq_state) : option (sq_ret * sq_state) :=
  match so_status s t with
  | SDone op r =>
      Some (r, so_set t (after_ret op r) (SqState (so_impl s) (keeps_lock op r || so_token s) (so_status s)))
  | _ => None
  end.

Definition sync_object : object nat sq_op sq_ret := Object sq_state so_init so_call so_step so_ret.
End sync_object.
Arguments sq_state : clear implicits.
Arguments SqState {I L} so_impl so_token so_status.
Arguments so_impl {I L} s.
Arguments so_token {I L} s.
Arguments so_status {I L} s.

(** * The invariant of the protocol *)
Section protocol.
Context {L : Type}.
Implicit Types (st : nat → sq_status L) (f : nat → pending sq_op sq_ret) (q : sq_nodes).

(** The thread holds the lock inside a method. *)
Definition role (c : sq_status L) (p : pending sq_op sq_ret) : bool :=
  match c with
  | SRun op _ | SDone op _ =>
      match p with PIdle => false | PCalled _ => is_holder_op op | PDone r => keeps_lock op r end
  | _ => false
  end.

(** The thread has to link its node [c] to [p]. *)
Definition owed (c : sq_status L) (p : pending sq_op sq_ret) : option (Z * Z) :=
  match c, p with
  | SEnq m n, _ => Some (m, n)
  | SRun (SetNext m n) _, PCalled _ => Some (m, n)
  | SRun StartLock _, PDone (REnqueued m n) | SDone StartLock _, PDone (REnqueued m n) => Some (m, n)
  | _, _ => None
  end.

Definition status_matches (c : sq_status L) (p : pending sq_op sq_ret) : Prop :=
  match c with
  | SFree | SEnq _ _ => p = PIdle
  | SRun op _ => p = PCalled op ∨ ∃ r, p = PDone r
  | SDone op r => p = PDone r
  | SFailed => False
  end.

Definition unlinked_pair (q : sq_nodes) (mn : Z * Z) : Prop :=
  ∃ i b, q !! i = Some (mn.1, false) ∧ q !! S i = Some (mn.2, b).

Record proto (q : sq_nodes) (token : bool) st f : Prop := {
  po_nodup : NoDup q.*1;
  po_last m b : last q = Some (m, b) → b = false;
  po_match t : status_matches (st t) (f t);
  po_token t : token = true → role (st t) (f t) = false;
  po_role t u : role (st t) (f t) = true → role (st u) (f u) = true → t = u;
  po_locked : q ≠ [] ↔ token = true ∨ ∃ t, role (st t) (f t) = true;
  po_owed t mn : owed (st t) (f t) = Some mn → unlinked_pair q mn;
  po_owed_unique t u m n m' n' :
    owed (st t) (f t) = Some (m, n) → owed (st u) (f u) = Some (m', n') → t ≠ u → n ≠ n';
  po_head t op l : st t = SRun op l → f t = PCalled op → is_holder_op op = true →
    op_head op = fst <$> head q;
}.

Lemma proto_init : proto [] false (λ _, SFree) (λ _, PIdle).
Proof.
  constructor; try done; [constructor|]. split; [done|]. by intros [|[]].
Qed.

(** ** Steps *)

(** The list around a pair, and the list after it is linked. *)
Lemma split_pair q k m n b b' :
  q !! k = Some (m, b) → q !! S k = Some (n, b') →
  ∃ q1 q2, q = q1 ++ (m, b) :: (n, b') :: q2 ∧ length q1 = k.
Proof.
  intros H1 H2. exists (take k q), (drop (S (S k)) q).
  rewrite <-(drop_S _ _ _ H2), (take_drop_middle _ _ _ H1). split; [done|].
  apply length_take_le. apply lookup_lt_Some in H1. lia.
Qed.

Lemma link_nodes q1 q2 m n b : (q1 ++ (m, true) :: (n, b) :: q2).*1 = (q1 ++ (m, false) :: (n, b) :: q2).*1.
Proof. by rewrite !fmap_app. Qed.

Lemma link_lookup q1 q2 m n b j :
  (q1 ++ (m, true) :: (n, b) :: q2) !! j
  = if decide (j = length q1) then Some (m, true) else (q1 ++ (m, false) :: (n, b) :: q2) !! j.
Proof.
  destruct (decide (j = length q1)) as [->|Hne]; [by rewrite lookup_app_r, Nat.sub_diag|].
  destruct (decide (j < length q1)%nat) as [Hlt|Hge]; [by rewrite !lookup_app_l|].
  rewrite !lookup_app_r by lia. by replace (j - length q1)%nat with (S (j - length q1 - 1)) by lia.
Qed.

(** A move of thread [t] that changes neither its role nor its debt. *)
Lemma proto_same q token st f t c p :
  proto q token st f → role c p = role (st t) (f t) → owed c p = owed (st t) (f t) →
  status_matches c p →
  (∀ op l, c = SRun op l → p = PCalled op → is_holder_op op = true → op_head op = fst <$> head q) →
  proto q token (<[t := c]> st) (<[t := p]> f).
Proof.
  intros [Hnd Hlast Hmt Htok Hexcl Hlocked Howed Hunique Hhead] Hr Ho Hm Hh.
  assert (∀ u, role (<[t := c]> st u) (<[t := p]> f u) = role (st u) (f u)) as Hr'.
  { intros u. destruct (decide (u = t)) as [->|]; by rewrite ?fn_lookup_insert, ?fn_lookup_insert_ne. }
  assert (∀ u, owed (<[t := c]> st u) (<[t := p]> f u) = owed (st u) (f u)) as Ho'.
  { intros u. destruct (decide (u = t)) as [->|]; by rewrite ?fn_lookup_insert, ?fn_lookup_insert_ne. }
  constructor; try done.
  - intros u. destruct (decide (u = t)) as [->|]; rewrite ?fn_lookup_insert, ?fn_lookup_insert_ne by done; auto.
  - intros u. rewrite Hr'. auto.
  - intros u v. rewrite !Hr'. auto.
  - setoid_rewrite Hr'. done.
  - intros u mn. rewrite Ho'. apply Howed.
  - intros u v m n m' n'. rewrite !Ho'. apply Hunique.
  - intros u op l. destruct (decide (u = t)) as [->|]; rewrite ?fn_lookup_insert, ?fn_lookup_insert_ne by done; eauto.
Qed.

Lemma unlinked_app q q' mn : unlinked_pair q mn → unlinked_pair (q ++ q') mn.
Proof. intros (i & b & H1 & H2). exists i, b. by rewrite !(lookup_app_l_Some _ _ _ _ H1), (lookup_app_l_Some _ _ _ _ H2). Qed.

Lemma unlinked_elem q m n : unlinked_pair q (m, n) → n ∈ q.*1.
Proof.
  intros (i & b & _ & H). apply list_elem_of_fmap. exists (n, b). split; [done|].
  by apply list_elem_of_lookup_2 in H.
Qed.

Lemma unlinked_link q1 q2 m n b m' n' :
  unlinked_pair (q1 ++ (m, false) :: (n, b) :: q2) (m', n') → n ≠ n' →
  unlinked_pair (q1 ++ (m, true) :: (n, b) :: q2) (m', n').
Proof.
  intros (i & b' & H1 & H2) Hne.
  assert (q1 ++ (m, true) :: (n, b) :: q2 = <[length q1 := (m, true)]> (q1 ++ (m, false) :: (n, b) :: q2)) as ->.
  { rewrite <-(Nat.add_0_r (length q1)) at 1. by rewrite insert_app_r. }
  cbn in *. assert (i ≠ length q1) as Hi.
  { intros ->. destruct Hne. rewrite <-(Nat.add_0_r (length q1)), <-Nat.add_succ_r, lookup_app_r in H2 by lia.
    rewrite Nat.add_comm, Nat.add_sub in H2. cbn in H2. congruence. }
  destruct (decide (S i = length q1)) as [E|E].
  - exists i, true. rewrite list_lookup_insert_ne by done. split; [done|]. cbn. rewrite E, list_lookup_insert_eq.
    + rewrite E in H2. rewrite lookup_app_r, Nat.sub_diag in H2 by lia. cbn in H2. congruence.
    + rewrite length_app. cbn. lia.
  - exists i, b'. by rewrite !list_lookup_insert_ne.
Qed.

(** A method of [t] takes effect: what is left is about the list, the role of
    [t] and the debts. *)
Lemma proto_move q q' token st f t c r keeps :
  proto q token st f → status_matches c (PDone r) → role c (PDone r) = keeps →
  NoDup q'.*1 → (∀ m b, last q' = Some (m, b) → b = false) →
  (keeps = true → token = false ∧ ∀ u, u ≠ t → role (st u) (f u) = false) →
  (q' ≠ [] ↔ token = true ∨ keeps = true ∨ ∃ u, u ≠ t ∧ role (st u) (f u) = true) →
  (∀ m n, owed c (PDone r) = Some (m, n) → unlinked_pair q' (m, n) ∧ n ∉ q.*1) →
  (∀ u m n, u ≠ t → owed (st u) (f u) = Some (m, n) → unlinked_pair q' (m, n)) →
  (fst <$> head q' = fst <$> head q ∨ ∀ u, u ≠ t → role (st u) (f u) = false) →
  proto q' token (<[t := c]> st) (<[t := PDone r]> f).
Proof.
  intros Hp Hmc Hrc Hnd Hlast Hkeep Hlocked Howe Howed Hhead.
  assert (∀ u, u ≠ t → role (<[t := c]> st u) (<[t := PDone r]> f u) = role (st u) (f u)) as Hr'
    by (intros u Hu; by rewrite !fn_lookup_insert_ne).
  constructor; try done.
  - intros u. destruct (decide (u = t)) as [->|]; rewrite ?fn_lookup_insert, ?fn_lookup_insert_ne by done; [done|].
    apply Hp.
  - intros u Ht. destruct (decide (u = t)) as [->|].
    + rewrite !fn_lookup_insert, Hrc. destruct keeps; [|done]. destruct Hkeep; congruence.
    + rewrite Hr' by done. by apply (po_token _ _ _ _ Hp).
  - intros u v. destruct (decide (u = t)) as [->|Hu], (decide (v = t)) as [->|Hv];
      rewrite ?(Hr' u), ?(Hr' v) by done; rewrite ?fn_lookup_insert, ?Hrc; intros H1 H2; [done|..].
    + destruct Hkeep as [_ H]; [done|]. by rewrite H in H2.
    + destruct Hkeep as [_ H]; [done|]. by rewrite H in H1.
    + by apply (po_role _ _ _ _ Hp).
  - rewrite Hlocked. split.
    + intros [H|[H|(u & Hu & H)]]; [by left|right; exists t; by rewrite !fn_lookup_insert, Hrc|].
      right. exists u. by rewrite Hr'.
    + intros [H|[u H]]; [by left|]. right. destruct (decide (u = t)) as [->|Hu].
      * left. by rewrite !fn_lookup_insert, Hrc in H.
      * right. exists u. by rewrite Hr' in H.
  - intros u [m n]. destruct (decide (u = t)) as [->|Hu].
    + rewrite !fn_lookup_insert. intros H. by apply Howe.
    + rewrite !fn_lookup_insert_ne by done. by apply Howed.
  - intros u v m n m' n'. destruct (decide (u = t)) as [->|Hu], (decide (v = t)) as [->|Hv];
      rewrite ?fn_lookup_insert, ?fn_lookup_insert_ne by done; intros H1 H2 Hne; [done|..].
    + intros ->. apply Howe in H1 as [_ H1]. destruct H1. by eapply unlinked_elem, (po_owed _ _ _ _ Hp).
    + intros <-. apply Howe in H2 as [_ H2]. destruct H2. by eapply unlinked_elem, (po_owed _ _ _ _ Hp).
    + by eapply (po_owed_unique _ _ _ _ Hp).
  - intros u op' l' H1 H2 H3. destruct (decide (u = t)) as [->|Hu].
    + by rewrite fn_lookup_insert in H2.
    + rewrite !fn_lookup_insert_ne in * by done. destruct Hhead as [->|Hno].
      * by eapply (po_head _ _ _ _ Hp).
      * specialize (Hno u Hu). rewrite H1, H2 in Hno. cbn in Hno. congruence.
Qed.

(** What [t] and the others are while [t] runs a method that has not taken
    effect yet. *)
Lemma proto_others q token st f t op l :
  proto q token st f → st t = SRun op l → f t = PCalled op →
  (is_holder_op op = true → token = false ∧ ∀ u, u ≠ t → role (st u) (f u) = false)
  ∧ (is_holder_op op = false →
       (q ≠ [] ↔ token = true ∨ false = true ∨ ∃ u, u ≠ t ∧ role (st u) (f u) = true)).
Proof.
  intros Hp Est Ef. assert (role (st t) (f t) = is_holder_op op) as Hrt by (by rewrite Est, Ef).
  split; intros H; rewrite H in Hrt.
  - split.
    + destruct token; [|done]. rewrite (po_token _ _ _ _ Hp t eq_refl) in Hrt. congruence.
    + intros u Hu. destruct (role (st u) (f u)) eqn:E; [|done]. destruct Hu. by apply (po_role _ _ _ _ Hp).
  - rewrite (po_locked _ _ _ _ Hp). split; [|naive_solver]. intros [?|[u Hu]]; [by left|]. right; right.
    exists u. split; [|done]. intros ->. congruence.
Qed.

(** A method takes effect. *)
Lemma proto_lin q token st f t op l r q' c :
  proto q token st f → st t = SRun op l → f t = PCalled op → sq_apply t op q r q' →
  (∃ l', c = SRun op l') ∨ c = SDone op r →
  proto q' token (<[t := c]> st) (<[t := PDone r]> f).
Proof.
  intros Hp Est Ef Ha Hc.
  assert (role c (PDone r) = keeps_lock op r) as Hrc by (by destruct Hc as [[l' ->]| ->]).
  assert (status_matches c (PDone r)) as Hmc by (destruct Hc as [[l' ->]| ->]; [right; eauto|done]).
  assert (owed c (PDone r) = match op, r with StartLock, REnqueued m n => Some (m, n) | _, _ => None end) as Hoc.
  { destruct Hc as [[l' ->]| ->], op; try done; by destruct r. }
  assert (owed (st t) (f t) = match op with SetNext m n => Some (m, n) | _ => None end) as Hot
    by (rewrite Est, Ef; by destruct op).
  destruct (proto_others _ _ _ _ _ _ _ Hp Est Ef) as [Hholder Hother].
  pose proof (po_nodup _ _ _ _ Hp) as Hnd. pose proof (po_last _ _ _ _ Hp) as Hlast.
  pose proof (po_owed _ _ _ _ Hp) as Howed.
  pose proof (λ q', proto_move q q' token st f t c r (keeps_lock op r) Hp Hmc Hrc) as Hmove.
  rewrite Hoc in Hmove. clear Hrc Hmc Hoc Hc.
  destruct Ha as [n|q m n Hn|q1 m n b q2|h|h b e q|h|h b e q|h n b q|h q]; cbn in Hholder, Hother;
    cbn [keeps_lock] in *; try destruct (Hholder eq_refl) as [Htok Hno];
    try (pose proof (Hother eq_refl) as Hlocked); clear Hholder Hother.
  4,5,7,9: apply Hmove; [done|done|done|split; [by auto|done]|done|eauto|by left].
  - assert (token = false ∧ ∀ u, u ≠ t → role (st u) (f u) = false) as [-> Hno].
    { split; [by destruct token; [destruct (proj2 Hlocked); [by left|]|]|].
      intros u Hu. destruct (role (st u) (f u)) eqn:E; [|done]. destruct (proj2 Hlocked); [|done]. naive_solver. }
    apply Hmove; [apply NoDup_singleton|by intros ?? [= _ <-]|done|split; [by auto|done]|done| |by right].
    intros u m' n' _ H. by destruct (Howed u _ H) as (i & b & ? & ?).
  - apply Hmove.
    + rewrite fmap_app. apply NoDup_app. split_and!; [done| |apply NoDup_singleton].
      intros x Hx ->%list_elem_of_singleton. done.
    + intros m' b'. rewrite last_snoc. by intros [= _ <-].
    + done.
    + split; [|by intros _ ?%app_eq_nil; naive_solver]. intros _. apply Hlocked. by destruct q.
    + intros m' n' [= <- <-]. split; [|done]. exists (length q), false. cbn. split.
      * rewrite <-app_assoc, lookup_app_r, Nat.sub_diag by lia. done.
      * rewrite lookup_app_r by (rewrite length_app; cbn; lia). rewrite length_app. cbn.
        by replace (S (length q) - (length q + 1))%nat with 0%nat by lia.
    + intros u m' n' _ H. by apply unlinked_app, (Howed u).
    + left. by destruct q.
  - apply Hmove.
    + by rewrite !fmap_app in *.
    + intros m' b'. specialize (Hlast m' b'). by rewrite !last_app_cons in *.
    + done.
    + rewrite <-Hlocked. split; by intros _ [? [=]]%app_eq_nil.
    + done.
    + intros u m' n' Hu H. apply unlinked_link; [by apply (Howed u)|].
      apply (po_owed_unique _ _ _ _ Hp t u m n m' n'); [done|done|congruence].
    + left. by destruct q1.
  - apply Hmove; [constructor|done|done| |done| |by right].
    + split; [done|]. rewrite Htok. intros [?|[?|(u & Hu & H)]]; [done..|]. rewrite Hno in H; done.
    + intros u m' n' _ H. destruct (Howed u _ H) as ([|i] & b & ? & ?); done.
  - apply Hmove; [by apply NoDup_cons in Hnd as [_ ?]|exact Hlast|done|split; [by auto|done]|done| |by right].
    intros u m' n' _ H. destruct (Howed u _ H) as ([|i] & b' & H1 & H2); [done|]. by exists i, b'.
Qed.

(** What threads are matters pointwise only. *)
Lemma proto_ext q token st f f' : (∀ u, f' u = f u) → proto q token st f → proto q token st f'.
Proof.
  intros Hf [Hnd Hlast Hmt Htok Hexcl Hlocked Howed Hunique Hhead]. constructor; try done.
  - intros u. rewrite Hf. apply Hmt.
  - intros u. rewrite Hf. apply Htok.
  - intros u v. rewrite !Hf. apply Hexcl.
  - setoid_rewrite Hf. done.
  - intros u. rewrite Hf. apply Howed.
  - intros u v m n m' n'. rewrite !Hf. apply Hunique.
  - intros u op l. rewrite Hf. apply Hhead.
Qed.

(** The token and the role of [t] change hands. *)
Lemma proto_token q token token' st f t c p :
  proto q token st f → status_matches c p → owed c p = owed (st t) (f t) →
  (token = true ∨ role (st t) (f t) = true) → token' = negb (role c p) →
  (∀ op l, c = SRun op l → p = PCalled op → is_holder_op op = true → op_head op = fst <$> head q) →
  proto q token' (<[t := c]> st) (<[t := p]> f).
Proof.
  intros Hp Hm Ho Hcase Htok Hhead.
  assert (∀ u, owed (<[t := c]> st u) (<[t := p]> f u) = owed (st u) (f u)) as Ho'.
  { intros u. destruct (decide (u = t)) as [->|]; by rewrite ?fn_lookup_insert, ?fn_lookup_insert_ne. }
  assert (∀ u, u ≠ t → role (st u) (f u) = false) as Hno.
  { intros u Hu. destruct Hcase as [->|Hr]; [by apply (po_token _ _ _ _ Hp)|].
    destruct (role (st u) (f u)) eqn:E; [|done]. destruct Hu. by apply (po_role _ _ _ _ Hp). }
  assert (∀ u, u ≠ t → role (<[t := c]> st u) (<[t := p]> f u) = false) as Hno'
    by (intros u Hu; rewrite !fn_lookup_insert_ne by done; auto).
  constructor; try apply Hp.
  - intros u. destruct (decide (u = t)) as [->|]; rewrite ?fn_lookup_insert, ?fn_lookup_insert_ne by done; [done|].
    apply Hp.
  - intros u Htt. destruct (decide (u = t)) as [->|]; [|by apply Hno']. rewrite !fn_lookup_insert.
    destruct (role c p); [subst; done|done].
  - intros u v H1 H2. destruct (decide (u = t)) as [->|Hu], (decide (v = t)) as [->|Hv]; [done|..];
      rewrite ?(Hno' v), ?(Hno' u) in * by done; done.
  - rewrite (po_locked _ _ _ _ Hp). split; intros _.
    + destruct (role c p) eqn:E; [right; exists t; by rewrite !fn_lookup_insert|by left].
    + destruct Hcase; [by left|right; eauto].
  - intros u mn. rewrite Ho'. apply Hp.
  - intros u v m n m' n'. rewrite !Ho'. apply Hp.
  - intros u op l. destruct (decide (u = t)) as [->|]; rewrite ?fn_lookup_insert, ?fn_lookup_insert_ne by done;
      [apply Hhead|apply Hp].
Qed.

(** At most one thread has the lock. *)
Lemma proto_exclusive q token st f t n :
  proto q token st f → st t = SDone StartLock (RLocked n) →
  token = false ∧ ∀ u m, st u = SDone StartLock (RLocked m) → u = t.
Proof.
  intros Hp Et.
  assert (∀ u m, st u = SDone StartLock (RLocked m) → role (st u) (f u) = true) as Hr.
  { intros u m E. pose proof (po_match _ _ _ _ Hp u) as Hm. rewrite E in *. cbn in Hm. by rewrite Hm. }
  split.
  - destruct token; [|done]. pose proof (po_token _ _ _ _ Hp t eq_refl) as H. rewrite (Hr t n Et) in H. done.
  - intros u m E. apply (po_role _ _ _ _ Hp); eauto.
Qed.

(** No thread failed. *)
Lemma proto_no_failure q token st f t : proto q token st f → st t ≠ SFailed.
Proof. intros Hp E. pose proof (po_match _ _ _ _ Hp t) as Hm. by rewrite E in Hm. Qed.
End protocol.

Section object_protocol.
Context {I L : Type} (start : sq_op → L) (get_head : I → option Z).

Lemma proto_call t op q f (s s' : sq_state I L) :
  proto q (so_token s) (so_status s) f →
  (so_token s = true → get_head (so_impl s) = fst <$> head q) →
  so_call start get_head t op s = Some s' →
  f t = PIdle ∧ proto q (so_token s') (so_status s') (<[t := PCalled op]> f)
  ∧ so_impl s' = so_impl s ∧ so_status s' = <[t := SRun op (start op)]> (so_status s).
Proof.
  intros Hp Hhead E. pose proof (po_match _ _ _ _ Hp t) as Hm. unfold so_call in E.
  destruct s as [i tok st]. cbn in *.
  assert (∀ h, is_holder_op op = true → op_head op = Some h → st t = SFree →
    (if tok && bool_decide (get_head i = Some h)
     then Some (so_set t (SRun op (start op)) (SqState i false st)) else None) = Some s' →
    f t = PIdle ∧ proto q (so_token s') (so_status s') (<[t := PCalled op]> f)
    ∧ so_impl s' = i ∧ so_status s' = <[t := SRun op (start op)]> st) as Hholder.
  { intros h Hh Hop Est E'. rewrite Est in Hm. cbn in Hm. case_bool_decide as Hg; destruct tok; simplify_eq/=.
    split_and!; [done| |done..]. eapply proto_token; [exact Hp|by left|by rewrite Est, Hm; destruct op|by left| |].
    - cbn. by rewrite Hh.
    - intros op' l [= <- <-] _ _. rewrite Hop, <-Hhead by done. done. }
  destruct (st t) eqn:Est; try done; destruct op; try done; try (by eapply Hholder); cbn in Hm.
  - simplify_eq/=. split_and!; [done| |done..].
    eapply proto_same; [exact Hp|by rewrite Est|by rewrite Est|by left|]. by intros op' l [= <- <-].
  - destruct (Z.eqb_spec prev prev0), (Z.eqb_spec cur cur0); simplify_eq/=. split_and!; [done| |done..].
    eapply proto_same; [exact Hp|by rewrite Est|by rewrite Est|by left|]. by intros op' l [= <- <-].
Qed.

Lemma proto_ret t r q f (s s' : sq_state I L) :
  proto q (so_token s) (so_status s) f → so_ret t s = Some (r, s') →
  f t = PDone r ∧ proto q (so_token s') (so_status s') (<[t := PIdle]> f)
  ∧ so_impl s' = so_impl s
  ∧ ∃ op, so_status s t = SDone op r ∧ so_status s' = <[t := after_ret op r]> (so_status s) ∧ (so_token s' = true → so_token s = true ∨ keeps_lock op r = true).
Proof.
  intros Hp E. pose proof (po_match _ _ _ _ Hp t) as Hm. unfold so_ret in E.
  destruct s as [i tok st]. cbn in *. destruct (st t) as [| | |op r'|] eqn:Est; simplify_eq/=.
  assert (status_matches (after_ret (L := L) op r) PIdle) as Hm' by (by destruct op, r).
  assert (role (after_ret (L := L) op r) PIdle = false) as Hr' by (by destruct op, r).
  split_and!; [done| |done|].
  - destruct (keeps_lock op r) eqn:Ek; cbn.
    + eapply proto_token; [exact Hp|done| |right; by rewrite Est, Hm|by rewrite Hr'|by destruct op, r].
      rewrite Est, Hm. by destruct op, r.
    + eapply proto_same; [exact Hp|by rewrite Est, Hm, Hr'| |done|by destruct op, r].
      rewrite Est, Hm. by destruct op, r.
  - exists op. split_and!; [done..|]. destruct (keeps_lock op r); auto.
Qed.
End object_protocol.

(** * Proving an implementation *)
Section implementation.
Context {I L : Type} (impl_init : I) (start : sq_op → L) (step : L → I → result ((L + sq_ret) * I)).
Context (get_head : I → option Z).
Context (Inv : I → sq_nodes → (nat → sq_status L) → (nat → pending sq_op sq_ret) → Prop).
Implicit Types (i : I) (q : sq_nodes) (st : nat → sq_status L) (f : nat → pending sq_op sq_ret).

Definition after (op : sq_op) (o : L + sq_ret) : sq_status L :=
  match o with inl l => SRun op l | inr r => SDone op r end.

(** The step runs, and leaves the list as it is. *)
Definition stays (t : nat) (op : sq_op) (l : L) i q (token : bool) st f : Prop :=
  ∃ o i', step l i = Ok (o, i')
    ∧ proto q token (<[t := after op o]> st) f ∧ Inv i' q (<[t := after op o]> st) f.

(** The step runs, and the method takes effect. *)
Definition lins (t : nat) (op : sq_op) (l : L) i q (token : bool) st f : Prop :=
  f t = PCalled op ∧ ∃ o i' r q', step l i = Ok (o, i') ∧ sq_apply t op q r q'
    ∧ proto q' token (<[t := after op o]> st) (<[t := PDone r]> f)
    ∧ Inv i' q' (<[t := after op o]> st) (<[t := PDone r]> f).

Definition sync_rel (s : sq_state I L) q f : Prop :=
  proto q (so_token s) (so_status s) f ∧ Inv (so_impl s) q (so_status s) f.

Lemma sync_simulation :
  Inv impl_init [] (λ _, SFree) (λ _, PIdle) →
  (∀ i q st f, proto q true st f → Inv i q st f → get_head i = fst <$> head q) →
  (∀ t op i q st f, (∀ op' l, st t ≠ SRun op' l) → Inv i q st f →
     Inv i q (<[t := SRun op (start op)]> st) (<[t := PCalled op]> f)) →
  (∀ t op l i q token st f, proto q token st f → Inv i q st f → st t = SRun op l →
     stays t op l i q token st f ∨ lins t op l i q token st f) →
  (∀ t op r i q st f, st t = SDone op r → Inv i q st f →
     Inv i q (<[t := after_ret op r]> st) (<[t := PIdle]> f)) →
  simulation (sync_object impl_init start step get_head) sq_spec sync_rel.
Proof.
  intros Hinit Hhead Hcall Hstep Hret. constructor.
  - split; [apply proto_init|done].
  - intros t op s s' q f [Hp Hi] E.
    assert (so_token s = true → get_head (so_impl s) = fst <$> head q) as Hh.
    { intros Ht. eapply Hhead; [|exact Hi]. by rewrite <-Ht. }
    destruct (proto_call start get_head t op q f s s' Hp Hh E) as (Hf & Hp' & Hi' & Hst).
    split; [done|]. split; [done|]. rewrite Hi', Hst. apply Hcall; [|done].
    intros op' l E'. pose proof (po_match _ _ _ _ Hp t) as Hm. rewrite E', Hf in Hm. by destruct Hm as [?|[? ?]].
  - intros t s s' q f [Hp Hi] E. cbn in E. unfold so_step in E.
    destruct (so_status s t) as [| |op l| |] eqn:Et; try done.
    destruct (Hstep t op l _ _ _ _ _ Hp Hi Et) as [H|H].
    + destruct H as (o & i' & Es & Hp' & Hi'). rewrite Es in E. exists q, f. split; [by left|].
      destruct o; simplify_eq; by split.
    + destruct H as (Hf & o & i' & r & q' & Es & Ha & Hp' & Hi'). rewrite Es in E. exists q', (<[t := PDone r]> f).
      split; [|destruct o; simplify_eq; by split]. right. by exists op, r.
  - intros t r s s' q f [Hp Hi] E. cbn in E.
    destruct (proto_ret t r q f s s' Hp E) as (Hf & Hp' & Hi' & op & Est & Hst & Htok). split; [done|].
    split; [done|]. rewrite Hi', Hst. by apply Hret.
Qed.

(** What a simulation gives. *)
Lemma sync_correct h s :
  simulation (sync_object impl_init start step get_head) sq_spec sync_rel →
  ob_runs (sync_object impl_init start step get_head) h s →
  (∃ q f, spec_runs sq_spec h q f)
  ∧ (∀ t, so_status s t ≠ SFailed)
  ∧ ∀ t n, so_status s t = SDone StartLock (RLocked n) →
      so_token s = false ∧ ∀ u m, so_status s u = SDone StartLock (RLocked m) → u = t.
Proof.
  intros Hsim Hs. destruct (simulation_runs _ _ _ _ _ Hsim Hs) as (q & f & Hr & Hp & _).
  split_and!; [eauto|intros t; exact (proto_no_failure _ _ _ _ t Hp)|].
  intros t n. exact (proto_exclusive _ _ _ _ t n Hp).
Qed.
End implementation.
