(* ===== verification/LockQueue.v ===== *)
(** The clients of a queue of lock waiters: the invariant that every one of them
    keeps on the queue, whatever its threads do between the calls.

    A client tells, for every place a thread can be at, whether the thread holds
    the lock, which node it still has to link, and which node it remembers as the
    head. *)
From Stdlib Require Import ZArith Lia.
From stdpp Require Import base tactics functions list.
From S2P Require Import Prelude.
From S2P Require Import Linear.
From S2P Require Import SyncQueue.

(** * Executable queue *)

(** A queue that takes [node] for the next [start_lock]. *)
Definition sq_exec (node : Z) (op : sq_op) (q : sq_nodes) : option (sq_ret * sq_nodes) :=
  match op, q with
  | StartLock, [] => Some (RLocked node, [(node, false)])
  | StartLock, _ =>
      match last q with
      | Some (m, false) =>
          if bool_decide (node ∈ q.*1) then None else Some (REnqueued m node, q ++ [(node, false)])
      | _ => None
      end
  | SetNext m n, _ =>
      match list_find (λ x, x = (m, false)) q with
      | Some (k, _) =>
          match q !! S k with
          | Some (n', _) => if n' =? n then Some (RSet, <[k := (m, true)]> q) else None
          | None => None
          end
      | None => None
      end
  | IsUnlockable h, (h', b) :: q' =>
      if h' =? h then
        match q', b with [], false => Some (RBool true, q) | [], true => None | _ :: _, _ => Some (RBool false, q) end
      else None
  | TryUnlock h, (h', b) :: q' =>
      if h' =? h then
        match q', b with [], false => Some (RBool true, []) | [], true => None | _ :: _, _ => Some (RBool false, q) end
      else None
  | TryFollowHead h, (h', b) :: q' =>
      if h' =? h then
        match b, q' with
        | true, (n, _) :: _ => Some (RNext (Some n), q')
        | true, [] => None
        | false, _ => Some (RNext None, q)
        end
      else None
  | _, _ => None
  end.

Lemma sq_exec_sound t node op q r q' : sq_exec node op q = Some (r, q') → sq_apply t op q r q'.
Proof.
  destruct op as [|m n|h|h|h]; cbn.
  - destruct q as [|e q0]; [intros [= <- <-]; constructor|].
    destruct (last (e :: q0)) as [[m []]|] eqn:El; try done.
    apply last_Some in El as [q1 E]. rewrite E. case_bool_decide; [done|]. intros [= <- <-]. by constructor.
  - destruct (list_find _ q) as [[k e]|] eqn:Ef; [|done].
    apply list_find_Some in Ef as (Hk & -> & _). destruct (q !! S k) as [[n' b]|] eqn:Hn; [|done].
    destruct (Z.eqb_spec n' n) as [->|]; [|done]. intros [= <- <-].
    destruct (split_pair _ _ _ _ _ _ Hk Hn) as (q1 & q2 & -> & <-).
    rewrite <-(Nat.add_0_r (length q1)) at 1. rewrite insert_app_r. constructor.
  - destruct q as [|[h' b] q0]; [done|]. destruct (Z.eqb_spec h' h) as [->|]; [|done].
    destruct q0, b; try done; intros [= <- <-]; constructor.
  - destruct q as [|[h' b] q0]; [done|]. destruct (Z.eqb_spec h' h) as [->|]; [|done].
    destruct q0, b; try done; intros [= <- <-]; constructor.
  - destruct q as [|[h' b] q0]; [done|]. destruct (Z.eqb_spec h' h) as [->|]; [|done].
    destruct b, q0 as [|[n b'] q0]; try done; intros [= <- <-]; constructor.
Qed.

(** * The invariant *)

Section client.
Context {PC : Type} {has_lock : PC → bool} {linking : PC → option (Z * Z)} {pc_head : PC → option Z}.
Implicit Types (q : sq_nodes) (pcs : nat → PC) (t u v : nat) (m n h z : Z).

Record lock_inv q pcs : Prop := {
  li_nodup : NoDup q.*1;
  li_last m b : last q = Some (m, b) → b = false;
  li_excl t u : has_lock (pcs t) = true → has_lock (pcs u) = true → t = u;
  li_free : q ≠ [] ↔ ∃ t, has_lock (pcs t) = true;
  li_head t h : pc_head (pcs t) = Some h → fst <$> head q = Some h;
  li_link t mn : linking (pcs t) = Some mn → unlinked_pair q mn;
  li_unlinked k m n b : q !! k = Some (m, false) → q !! S k = Some (n, b) → ∃ t, linking (pcs t) = Some (m, n);
  li_link_unique t u m m' n : linking (pcs t) = Some (m, n) → linking (pcs u) = Some (m', n) → t = u;
}.

Lemma lock_frame q pcs pcs' :
  lock_inv q pcs → (∀ u, has_lock (pcs' u) = has_lock (pcs u)) → (∀ u, linking (pcs' u) = linking (pcs u)) →
  (∀ u h, pc_head (pcs' u) = Some h → pc_head (pcs u) = Some h ∨ fst <$> head q = Some h) → lock_inv q pcs'.
Proof.
  intros [Hnd Hlast Hex Hfree Hhead Hlink Hun Huniq] Hl Hk Hh. constructor; try done.
  - intros t u. rewrite !Hl. apply Hex.
  - rewrite Hfree. split; intros [t Ht]; exists t; by rewrite ?Hl in *.
  - intros t h [|]%Hh; eauto.
  - intros t mn. rewrite Hk. apply Hlink.
  - intros k m n b H1 H2. destruct (Hun k m n b H1 H2) as [t Ht]. exists t. by rewrite Hk.
  - intros t u m m' n. rewrite !Hk. apply Huniq.
Qed.

(** The lock passes to thread [v]. *)
Lemma lock_pass q pcs pcs' t v :
  lock_inv q pcs → has_lock (pcs t) = true → (∀ u, has_lock (pcs' u) = bool_decide (u = v)) →
  (∀ u, linking (pcs' u) = linking (pcs u)) →
  (∀ u h, pc_head (pcs' u) = Some h → pc_head (pcs u) = Some h ∨ fst <$> head q = Some h) → lock_inv q pcs'.
Proof.
  intros [Hnd Hlast Hex Hfree Hhead Hlink Hun Huniq] Ht Hl Hk Hh. constructor; try done.
  - intros u u'. rewrite !Hl, !bool_decide_eq_true. by intros -> ->.
  - split; [|intros _; apply Hfree; eauto]. intros _. exists v. by rewrite Hl, bool_decide_eq_true.
  - intros u h [|]%Hh; eauto.
  - intros u mn. rewrite Hk. apply Hlink.
  - intros k m n b H1 H2. destruct (Hun k m n b H1 H2) as [u Hu]. exists u. by rewrite Hk.
  - intros u u' m m' n. rewrite !Hk. apply Huniq.
Qed.

Lemma no_unlinked_pair q mn : (length q ≤ 1)%nat → ¬ unlinked_pair q mn.
Proof. intros Hq (k & b & _ & H). apply lookup_lt_Some in H. lia. Qed.

Lemma lock_start pcs pcs' t n :
  lock_inv [] pcs → (∀ u, has_lock (pcs' u) = bool_decide (u = t)) →
  (∀ u, linking (pcs' u) = linking (pcs u)) → (∀ u, pc_head (pcs' u) = pc_head (pcs u)) →
  lock_inv [(n, false)] pcs'.
Proof.
  intros [Hnd Hlast Hex Hfree Hhead Hlink Hun Huniq] Hl Hk Hh. constructor; try done.
  - cbn. apply NoDup_singleton.
  - by intros m b [= <- <-].
  - intros u u'. rewrite !Hl, !bool_decide_eq_true. by intros -> ->.
  - split; [|done]. intros _. exists t. by rewrite Hl, bool_decide_eq_true.
  - intros u h. rewrite Hh. by intros ?%Hhead.
  - intros u mn. rewrite Hk. intros H%Hlink. by apply no_unlinked_pair in H; cbn; [|lia].
  - intros u u' m m' k. rewrite !Hk. apply Huniq.
Qed.

Lemma lock_end h pcs pcs' :
  lock_inv [(h, false)] pcs → (∀ u, has_lock (pcs' u) = false) → (∀ u, linking (pcs' u) = linking (pcs u)) →
  (∀ u, pc_head (pcs' u) = None) → lock_inv [] pcs'.
Proof.
  intros [Hnd Hlast Hex Hfree Hhead Hlink Hun Huniq] Hl Hk Hh. constructor; try done.
  - constructor.
  - intros u u'. by rewrite Hl.
  - split; [done|]. intros [u Hu]. by rewrite Hl in Hu.
  - intros u h'. by rewrite Hh.
  - intros u mn. rewrite Hk. intros H%Hlink. by apply no_unlinked_pair in H; cbn; [|lia].
  - intros u u' m m' n. rewrite !Hk. apply Huniq.
Qed.

Lemma lock_enqueue q m n pcs pcs' t :
  lock_inv (q ++ [(m, false)]) pcs → n ∉ (q ++ [(m, false)]).*1 → (∀ u, has_lock (pcs' u) = has_lock (pcs u)) →
  linking (pcs t) = None → linking (pcs' t) = Some (m, n) → (∀ u, u ≠ t → linking (pcs' u) = linking (pcs u)) →
  (∀ u h, pc_head (pcs' u) = Some h → pc_head (pcs u) = Some h) →
  lock_inv ((q ++ [(m, false)]) ++ [(n, false)]) pcs'.
Proof.
  intros [Hnd Hlast Hex Hfree Hhead Hlink Hun Huniq] Hn Hl Ht0 Ht Hk Hh. constructor.
  - rewrite fmap_app. apply NoDup_app. split_and!; [done| |apply NoDup_singleton].
    intros x Hx [->|?%elem_of_nil]%elem_of_cons; done.
  - intros m' b. rewrite last_snoc. by intros [= <- <-].
  - intros u u'. rewrite !Hl. apply Hex.
  - split; [|by intros _; destruct q]. intros _.
    destruct (proj1 Hfree) as [u Hu]; [by destruct q|]. exists u. by rewrite Hl.
  - intros u h E%Hh%Hhead. destruct q; done.
  - intros u mn E. destruct (decide (u = t)) as [->|Hne].
    + rewrite Ht in E. injection E as <-. exists (length q), false. cbn.
      rewrite <-app_assoc. rewrite lookup_app_r, Nat.sub_diag by done. split; [done|].
      rewrite lookup_app_r by lia. by replace (S (length q) - length q)%nat with 1%nat by lia.
    + rewrite Hk in E by done. by eapply unlinked_app, Hlink.
  - intros k m' n' b H1 H2. destruct (decide (S k = length (q ++ [(m, false)]))) as [E|E].
    + exists t. rewrite E, lookup_app_r, Nat.sub_diag in H2 by lia. injection H2 as <- <-.
      rewrite length_app in E. cbn in E. assert (k = length q) as -> by lia.
      rewrite lookup_app_l, lookup_app_r, Nat.sub_diag in H1 by (rewrite ?length_app; cbn; lia).
      by injection H1 as <-.
    + apply lookup_lt_Some in H2 as Hlt. rewrite length_app in Hlt. cbn in Hlt.
      rewrite lookup_app_l in H1 by lia. rewrite lookup_app_l in H2 by lia.
      destruct (Hun k m' n' b H1 H2) as [u Hu]. exists u. rewrite Hk; [done|]. by intros ->; rewrite Ht0 in Hu.
  - intros u u' m1 m2 k E1 E2. destruct (decide (u = t)) as [->|Hne], (decide (u' = t)) as [->|Hne']; [done|..].
    + rewrite Ht in E1. injection E1 as <- <-. rewrite Hk in E2 by done. by destruct Hn; eapply unlinked_elem, Hlink.
    + rewrite Ht in E2. injection E2 as <- <-. rewrite Hk in E1 by done. by destruct Hn; eapply unlinked_elem, Hlink.
    + rewrite Hk in E1, E2 by done. by eapply Huniq.
Qed.

Lemma lock_set_next q1 q2 m n b pcs pcs' t :
  lock_inv (q1 ++ (m, false) :: (n, b) :: q2) pcs → linking (pcs t) = Some (m, n) →
  (∀ u, has_lock (pcs' u) = has_lock (pcs u)) →
  linking (pcs' t) = None → (∀ u, u ≠ t → linking (pcs' u) = linking (pcs u)) →
  (∀ u h, pc_head (pcs' u) = Some h → pc_head (pcs u) = Some h) →
  lock_inv (q1 ++ (m, true) :: (n, b) :: q2) pcs'.
Proof.
  intros [Hnd Hlast Hex Hfree Hhead Hlink Hun Huniq] Ht Hl Ht' Hk Hh. constructor.
  - by rewrite link_nodes.
  - intros m' b'. rewrite !last_app, !last_cons_cons in *. by apply Hlast.
  - intros u u'. rewrite !Hl. apply Hex.
  - split; [|by intros _; destruct q1]. intros _. destruct (proj1 Hfree) as [u Hu]; [by destruct q1|].
    exists u. by rewrite Hl.
  - intros u h E%Hh%Hhead. by destruct q1.
  - intros u [m' n'] E. destruct (decide (u = t)) as [->|Hne]; [by rewrite Ht' in E|].
    rewrite Hk in E by done. apply unlinked_link; [by apply Hlink in E|]. intros ->. destruct Hne. by eapply Huniq.
  - intros k m' n' b' H1 H2. rewrite link_lookup in H1, H2.
    destruct (decide (k = length q1)); [done|]. 
    assert (∃ b'', (q1 ++ (m, false) :: (n, b) :: q2) !! S k = Some (n', b'')) as [b'' H2'].
    { destruct (decide (S k = length q1)) as [E|]; [|eauto]. injection H2 as <- <-. exists false.
      by rewrite E, lookup_app_r, Nat.sub_diag. }
    destruct (Hun k m' n' b'' H1 H2') as [u Hu]. exists u. rewrite Hk; [done|]. intros ->.
    rewrite Ht in Hu. injection Hu as -> ->. apply (NoDup_lookup _ k (length q1) m') in Hnd as ->; [done| |].
    + rewrite list_lookup_fmap, H1. done.
    + by rewrite list_lookup_fmap, lookup_app_r, Nat.sub_diag.
  - intros u u' m1 m2 k E1 E2. destruct (decide (u = t)) as [->|Hne], (decide (u' = t)) as [->|Hne']; try done.
    + by rewrite Ht' in E1.
    + by rewrite Ht' in E2.
    + rewrite Hk in E1, E2 by done. by eapply Huniq.
Qed.

Lemma lock_follow h n b q pcs pcs' :
  lock_inv ((h, true) :: (n, b) :: q) pcs → (∀ u, has_lock (pcs' u) = has_lock (pcs u)) →
  (∀ u, linking (pcs' u) = linking (pcs u)) → (∀ u h', pc_head (pcs' u) = Some h' → h' = n) →
  lock_inv ((n, b) :: q) pcs'.
Proof.
  intros [Hnd Hlast Hex Hfree Hhead Hlink Hun Huniq] Hl Hk Hh. constructor.
  - by apply NoDup_cons in Hnd as [_ ?].
  - intros m b'. by apply Hlast.
  - intros u u'. rewrite !Hl. apply Hex.
  - split; [|done]. intros _. destruct (proj1 Hfree) as [u Hu]; [done|]. exists u. by rewrite Hl.
  - by intros u h' ->%Hh.
  - intros u mn. rewrite Hk. intros (k & b' & H1 & H2)%Hlink. destruct k as [|k]; [done|]. by exists k, b'.
  - intros k m n' b' H1 H2. destruct (Hun (S k) m n' b' H1 H2) as [u Hu]. exists u. by rewrite Hk.
  - intros u u' m m' k. rewrite !Hk. apply Huniq.
Qed.

(** The head of the queue is nobody's to link. *)
Lemma head_not_linked h b q pcs t m : lock_inv ((h, b) :: q) pcs → linking (pcs t) ≠ Some (m, h).
Proof.
  intros Hi (k & b' & _ & H)%(li_link _ _ Hi). cbn in H.
  pose proof (NoDup_lookup _ 0 (S k) h (li_nodup _ _ Hi) eq_refl) as Hk. rewrite list_lookup_fmap in Hk.
  cbn in Hk. rewrite H in Hk. by discriminate Hk.
Qed.
(** Under the invariant every operation can be made by the thread that may
    make it. *)
Lemma queue_enabled q pcs op n :
  lock_inv q pcs → n ∉ q.*1 →
  match op with
  | StartLock => True
  | SetNext m n => ∃ t, linking (pcs t) = Some (m, n)
  | IsUnlockable h | TryUnlock h | TryFollowHead h => fst <$> head q = Some h
  end → ∃ r q', (∀ t, sq_apply t op q r q')
    ∧ match op, r with
      | StartLock, (RLocked n' | REnqueued _ n') => n' = n
      | SetNext _ _, RSet | IsUnlockable _, RBool _ | TryUnlock _, RBool _ => True
      | TryFollowHead h, RNext o => is_Some o ↔ head q = Some (h, true)
      | _, _ => False
      end.
Proof.
  intros [Hnd Hlast Hex Hfree Hhead Hlink Hun Huniq] Hn Hop. destruct op as [|m k|h|h|h].
  - destruct (decide (q = [])) as [->|Hne]; [by exists (RLocked n), [(n, false)]; split; [constructor|]|].
    destruct (exists_last Hne) as (q' & [m b] & Eq). rewrite Eq in *. pose proof (Hlast m b (last_snoc _ _)) as ->.
    exists (REnqueued m n). eexists. split; [|done]. intros t. by constructor.
  - destruct Hop as [t Ht]. destruct (Hlink t _ Ht) as (i & b & H1 & H2). destruct (split_pair _ _ _ _ _ _ H1 H2) as (q1 & q2 & -> & _).
    exists RSet. eexists. split; [constructor|done].
  - destruct q as [|[h' b] [|e q]]; [done| |]; injection Hop as <-.
    + pose proof (Hlast h' b eq_refl) as ->. exists (RBool true). eexists. split; [constructor|done].
    + exists (RBool false). eexists. split; [constructor|done].
  - destruct q as [|[h' b] [|e q]]; [done| |]; injection Hop as <-.
    + pose proof (Hlast h' b eq_refl) as ->. exists (RBool true). eexists. split; [constructor|done].
    + exists (RBool false). eexists. split; [constructor|done].
  - destruct q as [|[h' b] q]; [done|]; injection Hop as <-. destruct b.
    + destruct q as [|[k b] q]; [by pose proof (Hlast h' true eq_refl)|].
      exists (RNext (Some k)). eexists. split; [constructor|]. by split.
    + exists (RNext None). eexists. split; [constructor|]. split; [by intros []|done].
Qed.

(** A head that is not linked yet and is not the last node: its follower is on
    the way to link itself. *)
Lemma unlinked_head q pcs h b e q' : lock_inv q pcs → q = (h, b) :: e :: q' → b = false → ∃ t n, linking (pcs t) = Some (h, n).
Proof.
  intros Hi -> ->. destruct e as [n b']. destruct (li_unlinked _ _ Hi 0 h n b') as [t Ht]; [done|done|]. by exists t, n.
Qed.
End client.
Arguments lock_inv {PC} has_lock linking pc_head q pcs.
