(* ===== verification/McsQueue.v ===== *)
(** The MCS queue: basic_mcs_core.hpp and basic_mcs_queue.hpp of cmpth.

    The nodes form a linked list in memory; [tail_] is swapped atomically,
    [head_] is written by the lock holder only. Every access to shared memory is
    a step. Nodes come from a pool, of which only its promise is used: a node
    that is allocated is not in use. *)
From Stdlib Require Import ZArith Lia.
From stdpp Require Import base tactics functions list gmap.
From S2P Require Import Prelude.
From S2P Require Import Linear.
From S2P Require Import SyncQueue.

(** What the pool of nodes promises. *)
Class NodePool := {
  np_allocate : gset Z → Z;
  np_fresh used : np_allocate used ∉ used;
}.

Record mcs := Mcs {
  mc_tail : option Z;
  mc_head : option Z;
  mc_next : Z → option Z;
  mc_used : gset Z;  (** the nodes allocated and not yet deallocated *)
}.

Definition mcs_init : mcs := Mcs None None (λ _, None) ∅.

Definition set_tail (v : option Z) (i : mcs) : mcs := Mcs v (mc_head i) (mc_next i) (mc_used i).
Definition set_head (v : option Z) (i : mcs) : mcs := Mcs (mc_tail i) v (mc_next i) (mc_used i).
Definition store_next (n : Z) (v : option Z) (i : mcs) : mcs :=
  Mcs (mc_tail i) (mc_head i) (<[n := v]> (mc_next i)) (mc_used i).
Definition set_used (v : gset Z) (i : mcs) : mcs := Mcs (mc_tail i) (mc_head i) (mc_next i) v.

(** Where a method is; the comments name the access that comes next. *)
Inductive mcs_pc :=
| MAlloc                     (** start_lock: allocate the node *)
| MClear (cur : Z)           (** cur->next := null *)
| MXchg (cur : Z)            (** exchange tail_ *)
| MSetHead (cur : Z)         (** locked: assert head_ == null, head_ := cur *)
| MCheckNext (prev cur : Z)  (** set_next: assert prev->next == null *)
| MStoreNext (prev cur : Z)  (** prev->next := cur *)
| MIsUnlockable (head : Z)   (** is_unlockable: assert head_ == head, load tail_ *)
| MClearHead (head : Z)      (** try_unlock: assert head_ == head, head_ := null *)
| MCasTail (head : Z)        (** CAS tail_ from head to null *)
| MFree (head : Z)           (** unlocked: deallocate the node *)
| MRestoreHead (head : Z)    (** not unlocked: head_ := head *)
| MLoadNext (head : Z)       (** try_follow_head: assert head_ == head, load head->next *)
| MMoveHead (head next : Z)  (** head_ := next *)
| MFreeHead (head next : Z). (** deallocate the old head *)

Definition mcs_start (op : sq_op) : mcs_pc :=
  match op with
  | StartLock => MAlloc
  | SetNext prev cur => MCheckNext prev cur
  | IsUnlockable head => MIsUnlockable head
  | TryUnlock head => MClearHead head
  | TryFollowHead head => MLoadNext head
  end.

Definition ptr_eq (p q : option Z) : bool := bool_decide (p = q).

Lemma ptr_eq_refl p : ptr_eq p p = true.
Proof. by apply bool_decide_true. Qed.

Section mcs.
Context {HP : NodePool}.

Definition mcs_step (l : mcs_pc) (i : mcs) : result ((mcs_pc + sq_ret) * mcs) :=
  match l with
  | MAlloc =>
      let cur := np_allocate (mc_used i) in
      Ok (inl (MClear cur), set_used ({[cur]} ∪ mc_used i) i)
  | MClear cur => Ok (inl (MXchg cur), store_next cur None i)
  | MXchg cur =>
      match mc_tail i with
      | None => Ok (inl (MSetHead cur), set_tail (Some cur) i)
      | Some prev =>
          _ ← assert_ (negb (prev =? cur));
          Ok (inr (REnqueued prev cur), set_tail (Some cur) i)
      end
  | MSetHead cur =>
      _ ← assert_ (ptr_eq (mc_head i) None);
      Ok (inr (RLocked cur), set_head (Some cur) i)
  | MCheckNext prev cur =>
      _ ← assert_ (ptr_eq (mc_next i prev) None); Ok (inl (MStoreNext prev cur), i)
  | MStoreNext prev cur => Ok (inr RSet, store_next prev (Some cur) i)
  | MIsUnlockable head =>
      _ ← assert_ (ptr_eq (mc_head i) (Some head));
      Ok (inr (RBool (ptr_eq (mc_tail i) (Some head))), i)
  | MClearHead head =>
      _ ← assert_ (ptr_eq (mc_head i) (Some head)); Ok (inl (MCasTail head), set_head None i)
  | MCasTail head =>
      if ptr_eq (mc_tail i) (Some head) then Ok (inl (MFree head), set_tail None i)
      else Ok (inl (MRestoreHead head), i)
  | MFree head => Ok (inr (RBool true), set_used (mc_used i ∖ {[head]}) i)
  | MRestoreHead head => Ok (inr (RBool false), set_head (Some head) i)
  | MLoadNext head =>
      _ ← assert_ (ptr_eq (mc_head i) (Some head));
      match mc_next i head with
      | None => Ok (inr (RNext None), i)
      | Some next => _ ← assert_ (negb (next =? head)); Ok (inl (MMoveHead head next), i)
      end
  | MMoveHead head next => Ok (inl (MFreeHead head next), set_head (Some next) i)
  | MFreeHead head next => Ok (inr (RNext (Some next)), set_used (mc_used i ∖ {[head]}) i)
  end.

Definition mcs_queue : object nat sq_op sq_ret := sync_object mcs_init mcs_start mcs_step mc_head.
End mcs.

(** * The invariant *)

(** The node a thread has for itself. *)
Definition own_node (l : mcs_pc) : option Z :=
  match l with
  | MClear n | MXchg n | MFree n | MMoveHead n _ | MFreeHead n _ => Some n
  | _ => None
  end.

(** [head_] is not the first node of the list. *)
Definition head_moves (l : mcs_pc) : bool :=
  match l with MSetHead _ | MCasTail _ | MRestoreHead _ | MMoveHead _ _ => true | _ => false end.

Definition mcs_local (i : mcs) (q : sq_nodes) (op : sq_op) (l : mcs_pc) (p : pending sq_op sq_ret) : Prop :=
  match l with
  | MAlloc | MClear _ => op = StartLock ∧ p = PCalled op
  | MXchg n => op = StartLock ∧ p = PCalled op ∧ mc_next i n = None
  | MSetHead n => op = StartLock ∧ p = PDone (RLocked n) ∧ mc_head i = None ∧ fst <$> head q = Some n
  | MCheckNext m n | MStoreNext m n => op = SetNext m n ∧ p = PCalled op
  | MIsUnlockable h => op = IsUnlockable h ∧ p = PCalled op
  | MClearHead h => op = TryUnlock h ∧ p = PCalled op
  | MCasTail h => op = TryUnlock h ∧ p = PCalled op ∧ mc_head i = None
  | MFree h => op = TryUnlock h ∧ p = PDone (RBool true)
  | MRestoreHead h => op = TryUnlock h ∧ p = PDone (RBool false)
      ∧ mc_head i = None ∧ fst <$> head q = Some h
  | MLoadNext h => op = TryFollowHead h ∧ p = PCalled op
  | MMoveHead h n => op = TryFollowHead h ∧ p = PDone (RNext (Some n))
      ∧ mc_head i = Some h ∧ fst <$> head q = Some n
  | MFreeHead h n => op = TryFollowHead h ∧ p = PDone (RNext (Some n))
  end.

Record mcs_inv (i : mcs) (q : sq_nodes) (st : nat → sq_status mcs_pc) (f : nat → pending sq_op sq_ret) : Prop := {
  mi_tail : mc_tail i = fst <$> last q;
  mi_next (k : nat) (m : Z) (b : bool) : q !! k = Some (m, b) → mc_next i m = if b then fst <$> (q !! S k) else None;
  mi_used (n : Z) : n ∈ q.*1 → n ∈ mc_used i;
  mi_local t op l : st t = SRun op l → mcs_local i q op l (f t);
  mi_own t op l n : st t = SRun op l → own_node l = Some n → n ∈ mc_used i ∧ n ∉ q.*1;
  mi_own_unique t u op op' l l' n :
    st t = SRun op l → st u = SRun op' l' → own_node l = Some n → own_node l' = Some n → t = u;
  mi_head : (∀ t op l, st t = SRun op l → head_moves l = false) → mc_head i = fst <$> head q;
}.

Lemma mcs_inv_init : mcs_inv mcs_init [] (λ _, SFree) (λ _, PIdle).
Proof. constructor; try done. intros n Hn. by apply elem_of_nil in Hn. Qed.

Lemma head_moves_role i q op l p : mcs_local i q op l p → head_moves l = true → role (SRun op l) p = true.
Proof. destruct l; cbn; try done; intros H _; destruct_and?; subst; done. Qed.

(** Another thread steps: the local invariants of [u] remain. *)
Lemma mcs_local_frame i i' q q' op l p :
  mcs_local i q op l p →
  (∀ n, own_node l = Some n → mc_next i' n = mc_next i n) →
  (role (SRun op l) p = true → mc_head i' = mc_head i ∧ fst <$> head q' = fst <$> head q) →
  mcs_local i' q' op l p.
Proof.
  intros Hl Hn Hr. destruct l; cbn in *; try done; destruct_and?; subst; cbn in Hr;
    try (destruct Hr as [E1 E2]; [done|]; rewrite ?E1, ?E2); split_and!; try done.
  rewrite Hn; done.
Qed.

(** A step of [t]. *)
Lemma mcs_move i i' q q' st f t c p :
  mcs_inv i q st f →
  mc_tail i' = fst <$> last q' →
  (∀ (k : nat) (m : Z) (b : bool), q' !! k = Some (m, b) → mc_next i' m = if b then fst <$> (q' !! S k) else None) →
  (∀ n : Z, n ∈ q'.*1 → n ∈ mc_used i') →
  (∀ u op l, u ≠ t → st u = SRun op l → role (st u) (f u) = true →
     mc_head i' = mc_head i ∧ fst <$> head q' = fst <$> head q) →
  (∀ u op l n, u ≠ t → st u = SRun op l → own_node l = Some n →
     mc_next i' n = mc_next i n ∧ n ∈ mc_used i' ∧ n ∉ q'.*1) →
  (∀ op l, c = SRun op l → mcs_local i' q' op l p) →
  (∀ op l n, c = SRun op l → own_node l = Some n → n ∈ mc_used i' ∧ (n ∉ q'.*1)
     ∧ ∀ u op' l', u ≠ t → st u = SRun op' l' → own_node l' ≠ Some n) →
  ((∀ op l, c = SRun op l → head_moves l = false) →
     (∀ u op l, u ≠ t → st u = SRun op l → head_moves l = false) → mc_head i' = fst <$> head q') →
  mcs_inv i' q' (<[t := c]> st) (<[t := p]> f).
Proof.
  intros Hi Ht Hn Hu Hrole Hown Hlc Hoc Hh. constructor; try done.
  - intros u op l. destruct (decide (u = t)) as [->|Hne]; rewrite ?fn_lookup_insert, ?fn_lookup_insert_ne by done;
      [apply Hlc|]. intros E. eapply mcs_local_frame; [by apply (mi_local _ _ _ _ Hi)| |].
    + intros n En. by apply (Hown u op l n).
    + intros Hr. apply (Hrole u op l); [done|done|]. by rewrite E.
  - intros u op l n. destruct (decide (u = t)) as [->|Hne]; rewrite ?fn_lookup_insert, ?fn_lookup_insert_ne by done.
    + intros E En. destruct (Hoc op l n E En) as (? & ? & _). done.
    + intros E En. destruct (Hown u op l n Hne E En) as (_ & ? & ?). done.
  - intros u v op op' l l' n. destruct (decide (u = t)) as [->|Hu'], (decide (v = t)) as [->|Hv'];
      rewrite ?fn_lookup_insert, ?fn_lookup_insert_ne by done; intros H1 H2 H3 H4; [done|..].
    + destruct (Hoc op l n H1 H3) as (_ & _ & H). by destruct (H v op' l').
    + destruct (Hoc op' l' n H2 H4) as (_ & _ & H). by destruct (H u op l).
    + by eapply (mi_own_unique _ _ _ _ Hi).
  - intros Hno. apply Hh.
    + intros op l E. apply (Hno t op l). by rewrite fn_lookup_insert.
    + intros u op l Hne E. apply (Hno u op l). by rewrite fn_lookup_insert_ne.
Qed.

(** ** The steps *)
Section steps.
Context {HP : NodePool}.
Implicit Types (i : mcs) (q : sq_nodes) (st : nat → sq_status mcs_pc) (f : nat → pending sq_op sq_ret) (l : mcs_pc).

(** The node of [t] and those of the others. *)
Lemma other_own i q st f t op l u op' l' n n' :
  mcs_inv i q st f → st t = SRun op l → own_node l = Some n →
  u ≠ t → st u = SRun op' l' → own_node l' = Some n' → n' ≠ n.
Proof. intros Hi E1 En Hne E2 En' ->. destruct Hne. by eapply (mi_own_unique _ _ _ _ Hi). Qed.

Lemma mcs_inv_ext i q st f f' : (∀ u, f' u = f u) → mcs_inv i q st f → mcs_inv i q st f'.
Proof.
  intros Hf [Ht Hn Hu Hl Ho Hq Hh]. constructor; try done. intros u op l. rewrite Hf. apply Hl.
Qed.

(** A step that leaves the list as it is. *)
Lemma mcs_stay i i' q token st f t op l c :
  proto q token st f → mcs_inv i q st f → st t = SRun op l →
  (∃ l', c = SRun op l') ∨ (∃ r, c = SDone op r ∧ f t = PDone r) →
  mc_tail i' = mc_tail i →
  (∀ n, n ∈ q.*1 → mc_next i' n = mc_next i n ∧ n ∈ mc_used i') →
  (mc_head i' = mc_head i ∨ role (SRun op l) (f t) = true) →
  (∀ u op' l' n, u ≠ t → st u = SRun op' l' → own_node l' = Some n →
     mc_next i' n = mc_next i n ∧ n ∈ mc_used i') →
  (∀ l', c = SRun op l' → mcs_local i' q op l' (f t)) →
  (∀ l' n, c = SRun op l' → own_node l' = Some n → n ∈ mc_used i' ∧ (n ∉ q.*1)
     ∧ ∀ u op' l', u ≠ t → st u = SRun op' l' → own_node l' ≠ Some n) →
  ((∀ l', c = SRun op l' → head_moves l' = false) →
     (∀ u op l, u ≠ t → st u = SRun op l → head_moves l = false) → mc_head i' = fst <$> head q) →
  proto q token (<[t := c]> st) f ∧ mcs_inv i' q (<[t := c]> st) f.
Proof.
  intros Hp Hi Et Hc Ht Hn Hh Hown Hlc Hoc Hhead.
  assert (∀ u, f u = <[t := f t]> f u) as Hf.
  { intros u. destruct (decide (u = t)) as [->|]; by rewrite ?fn_lookup_insert, ?fn_lookup_insert_ne. }
  assert (∀ op' l', c = SRun op' l' → op' = op) as Hop.
  { intros op' l' ->. by destruct Hc as [[? [=]]|(? & [=] & _)]. }
  split.
  - eapply proto_ext; [exact Hf|]. pose proof (po_match _ _ _ _ Hp t) as Hm. rewrite Et in Hm.
    apply proto_same; [done|..]; rewrite ?Et.
    + destruct Hc as [[l' ->]|(r & -> & Er)]; [done|]. by rewrite Er.
    + destruct Hc as [[l' ->]|(r & -> & Er)]; [done|]. rewrite Er. by destruct op.
    + destruct Hc as [[l' ->]|(r & -> & Er)]; done.
    + intros op' l' -> Ef Hop'. rewrite (Hop op' l' eq_refl) in *. by apply (po_head _ _ _ _ Hp t op l).
  - eapply mcs_inv_ext; [exact Hf|]. eapply mcs_move; [exact Hi|..].
    + rewrite Ht. apply Hi.
    + intros k m b Hk. destruct (Hn m) as [-> _]; [|by apply (mi_next _ _ _ _ Hi)].
      apply list_elem_of_fmap. exists (m, b). split; [done|]. by eapply list_elem_of_lookup_2.
    + intros n Hq. by apply Hn.
    + intros u op' l' Hu E Hr. split; [|done]. destruct Hh as [?|Hr']; [done|]. destruct Hu.
      rewrite <-Et in Hr'. by apply (po_role _ _ _ _ Hp).
    + intros u op' l' n Hu E En. destruct (Hown u op' l' n Hu E En). split_and!; [done|done|].
      by eapply (mi_own _ _ _ _ Hi).
    + intros op' l' E. rewrite (Hop op' l' E). apply Hlc. by rewrite <-(Hop op' l' E).
    + intros op' l' n E. apply Hoc. by rewrite <-(Hop op' l' E).
    + intros Hno. apply Hhead. intros l' E. by apply (Hno op l').
Qed.

Lemma role_own q token st f t op l :
  proto q token st f → st t = SRun op l → role (SRun op l) (f t) = true →
  q ≠ [] ∧ ∀ u, u ≠ t → role (st u) (f u) = false.
Proof.
  intros Hp Et Hr. rewrite <-Et in Hr. split; [apply (po_locked _ _ _ _ Hp); right; eauto|].
  intros u Hu. destruct (role (st u) (f u)) eqn:E; [|done]. destruct Hu. by apply (po_role _ _ _ _ Hp).
Qed.

(** Where [head_] points while its owner does not move it. *)
Lemma holder_head i q token st f t op l :
  proto q token st f → mcs_inv i q st f → st t = SRun op l → role (SRun op l) (f t) = true →
  head_moves l = false → mc_head i = fst <$> head q.
Proof.
  intros Hp Hi Et Hr Hm. destruct (role_own _ _ _ _ _ _ _ Hp Et Hr) as [_ Hno].
  apply (mi_head _ _ _ _ Hi). intros u op' l' E. destruct (decide (u = t)) as [->|Hu]; [congruence|].
  destruct (head_moves l') eqn:Em; [|done]. pose proof (mi_local _ _ _ _ Hi u op' l' E) as Hl.
  apply head_moves_role in Hl; [|done]. rewrite <-E, Hno in Hl; done.
Qed.

#[local] Abbreviation stays := (SyncQueue.stays mcs_step mcs_inv).
#[local] Abbreviation lins := (SyncQueue.lins mcs_step mcs_inv).

Lemma step_alloc i q token st f t op l :
  proto q token st f → mcs_inv i q st f → st t = SRun op l →
  match l with MAlloc | MClear _ | MCheckNext _ _ => True | _ => False end →
  stays t op l i q token st f.
Proof.
  intros Hp Hi Et Hl0. pose proof (mi_local _ _ _ _ Hi t op l Et) as Hl. destruct l; try done; cbn in Hl; clear Hl0.
  - destruct Hl as [-> Hf]. eexists _, _. split; [reflexivity|].
    pose proof (np_fresh (mc_used i)) as Hfr. apply (mcs_stay i _ q token st f t _ _ _ Hp Hi Et); cbn; try done.
    + left. eauto.
    + intros n Hn. split; [done|]. apply (mi_used _ _ _ _ Hi) in Hn. set_solver.
    + by left.
    + intros u op' l' n Hu E En. destruct (mi_own _ _ _ _ Hi u op' l' n E En). set_solver.
    + by intros l' [= <-].
    + intros l' n [= <-] [= <-]. split_and!; [set_solver| |].
      * intros Hn. by apply (mi_used _ _ _ _ Hi) in Hn.
      * intros u op' l' Hu E En. by destruct (mi_own _ _ _ _ Hi u op' l' _ E En).
    + intros _ Hno. apply (mi_head _ _ _ _ Hi). intros u op' l' E.
      destruct (decide (u = t)) as [->|Hu]; [rewrite Et in E; by simplify_eq|by eapply Hno].
  - destruct Hl as [-> Hf]. destruct (mi_own _ _ _ _ Hi t _ _ cur Et eq_refl) as [Hused Hnq].
    eexists _, _. split; [reflexivity|]. apply (mcs_stay i _ q token st f t _ _ _ Hp Hi Et); cbn; try done.
    + left. eauto.
    + intros n Hn. rewrite fn_lookup_insert_ne by naive_solver. split; [done|by apply (mi_used _ _ _ _ Hi)].
    + by left.
    + intros u op' l' n Hu E En. rewrite fn_lookup_insert_ne.
      * split; [done|]. by eapply (mi_own _ _ _ _ Hi).
      * intros ->. by eapply (other_own _ _ _ _ t _ _ u).
    + intros l' [= <-]. cbn. by rewrite fn_lookup_insert.
    + intros l' n [= <-] [= <-]. split_and!; [done..|]. intros u op' l' Hu E En.
      by eapply (other_own _ _ _ _ t _ _ u).
    + intros _ Hno. apply (mi_head _ _ _ _ Hi). intros u op' l' E.
      destruct (decide (u = t)) as [->|Hu]; [rewrite Et in E; by simplify_eq|by eapply Hno].
  - destruct Hl as [-> Hf]. destruct (po_owed _ _ _ _ Hp t (prev, cur)) as (k & b & Hk & _); [by rewrite Et, Hf|].
    cbn in Hk. unfold stays. cbn. rewrite (mi_next _ _ _ _ Hi _ _ _ Hk). eexists _, _. split; [reflexivity|].
    apply (mcs_stay i _ q token st f t _ _ _ Hp Hi Et); cbn; try done.
    + left. eauto.
    + intros n Hn. split; [done|]. by apply (mi_used _ _ _ _ Hi) in Hn.
    + by left.
    + intros u op' l' n Hu E En. split; [done|]. by eapply (mi_own _ _ _ _ Hi).
    + by intros l' [= <-].
    + by intros l' n [= <-].
    + intros _ Hno. apply (mi_head _ _ _ _ Hi). intros u op' l' E.
      destruct (decide (u = t)) as [->|Hu]; [rewrite Et in E; by simplify_eq|by eapply Hno].
Qed.

(** [head_] is where the list starts if no one moves it any more. *)
Lemma head_settled i q st f t op l :
  mcs_inv i q st f → st t = SRun op l → head_moves l = false →
  (∀ u op l, u ≠ t → st u = SRun op l → head_moves l = false) → mc_head i = fst <$> head q.
Proof.
  intros Hi Et Hl Hno. apply (mi_head _ _ _ _ Hi). intros u op' l' E.
  destruct (decide (u = t)) as [->|Hu]; [rewrite Et in E; by simplify_eq|by eapply Hno].
Qed.

(** A step of the holder that writes [head_] only. *)
Lemma stay_head i q token st f t op l c v :
  proto q token st f → mcs_inv i q st f → st t = SRun op l → role (SRun op l) (f t) = true →
  (∃ l', c = SRun op l') ∨ (∃ r, c = SDone op r ∧ f t = PDone r) →
  (∀ l', c = SRun op l' → mcs_local (set_head v i) q op l' (f t) ∧ own_node l' = own_node l) →
  ((∀ l', c = SRun op l' → head_moves l' = false) → v = fst <$> head q) →
  proto q token (<[t := c]> st) f ∧ mcs_inv (set_head v i) q (<[t := c]> st) f.
Proof.
  intros Hp Hi Et Hr Hc Hl Hv. apply (mcs_stay i _ q token st f t op l c Hp Hi Et Hc); cbn; try done.
  - intros n Hn. split; [done|]. by apply (mi_used _ _ _ _ Hi).
  - by right.
  - intros u op' l' n Hu E En. split; [done|]. by eapply (mi_own _ _ _ _ Hi).
  - intros l' E. by apply Hl.
  - intros l' n E En. rewrite (proj2 (Hl l' E)) in En. destruct (mi_own _ _ _ _ Hi t op l n Et En).
    split_and!; [done..|]. intros u op' l'' Hu E' En'. by eapply (other_own _ _ _ _ t _ _ u).
  - intros Hno _. by apply Hv.
Qed.

(** Deallocating the own node ends a method. *)
Lemma stay_free i q token st f t op l r n :
  proto q token st f → mcs_inv i q st f → st t = SRun op l → f t = PDone r →
  own_node l = Some n → head_moves l = false →
  proto q token (<[t := SDone op r]> st) f
  ∧ mcs_inv (set_used (mc_used i ∖ {[n]}) i) q (<[t := SDone op r]> st) f.
Proof.
  intros Hp Hi Et Ef En Hm. destruct (mi_own _ _ _ _ Hi t op l n Et En) as [Hused Hnq].
  apply (mcs_stay i _ q token st f t op l _ Hp Hi Et); cbn; try done.
  - right. eauto.
  - intros n' Hn'. split; [done|]. apply (mi_used _ _ _ _ Hi) in Hn' as ?. set_solver.
  - by left.
  - intros u op' l' n' Hu E En'. split; [done|]. destruct (mi_own _ _ _ _ Hi u op' l' n' E En').
    assert (n' ≠ n) by (by eapply (other_own _ _ _ _ t _ _ u)). set_solver.
  - intros _ Hno. by eapply head_settled.
Qed.

Lemma step_holder i q token st f t op l :
  proto q token st f → mcs_inv i q st f → st t = SRun op l →
  match l with
  | MSetHead _ | MClearHead _ | MFree _ | MRestoreHead _ | MMoveHead _ _ | MFreeHead _ _ => True
  | _ => False end →
  stays t op l i q token st f.
Proof.
  intros Hp Hi Et Hl0. pose proof (mi_local _ _ _ _ Hi t op l Et) as Hl. unfold stays.
  destruct l; try done; cbn in Hl; clear Hl0; cbn.
  - destruct Hl as (-> & Hf & Hh & Hq). unfold ptr_eq. rewrite Hh. eexists _, _. split; [reflexivity|].
    eapply stay_head; [done|done|done|by rewrite Hf|right; eauto|done|done].
  - destruct Hl as [-> Hf].
    assert (mc_head i = Some head) as Hh.
    { rewrite (holder_head _ _ _ _ _ _ _ _ Hp Hi Et); [|by rewrite Hf|done].
      by rewrite <-(po_head _ _ _ _ Hp t _ _ Et Hf). }
    rewrite Hh, ptr_eq_refl. eexists _, _. split; [reflexivity|].
    eapply stay_head; [done|done|done|by rewrite Hf|left; eauto|by intros l' [= <-]|].
    intros Hno. by specialize (Hno _ eq_refl).
  - destruct Hl as [-> Hf]. eexists _, _. split; [reflexivity|]. by eapply stay_free.
  - destruct Hl as (-> & Hf & Hh & Hq). eexists _, _. split; [reflexivity|].
    eapply stay_head; [done|done|done|by rewrite Hf|right; eauto|done|done].
  - destruct Hl as (-> & Hf & Hh & Hq). eexists _, _. split; [reflexivity|].
    eapply stay_head; [done|done|done|by rewrite Hf|left; eauto|by intros l' [= <-]|done].
  - destruct Hl as [-> Hf]. eexists _, _. split; [reflexivity|]. by eapply stay_free.
Qed.

Lemma nonholder_head i q q' st f t op l token u :
  proto q token st f → st t = SRun op l → f t = PCalled op → is_holder_op op = false →
  u ≠ t → role (st u) (f u) = true → q ≠ [].
Proof. intros Hp Et Ef Hop Hu Hr. apply (po_locked _ _ _ _ Hp). right. eauto. Qed.

Lemma last_nil_iff q : fst <$> last q = None → q = [].
Proof. destruct (last q) eqn:E; [done|]. by apply last_None in E. Qed.

Lemma step_xchg i q token st f t op n :
  proto q token st f → mcs_inv i q st f → st t = SRun op (MXchg n) →
  lins t op (MXchg n) i q token st f.
Proof.
  intros Hp Hi Et. destruct (mi_local _ _ _ _ Hi t op _ Et) as (-> & Hf & Hnext).
  destruct (mi_own _ _ _ _ Hi t _ _ n Et eq_refl) as [Hused Hnq]. unfold lins. cbn. rewrite (mi_tail _ _ _ _ Hi).
  assert (∀ c r,
    mc_head i = None ∧ q = [] ∧ c = SRun StartLock (MSetHead n) ∧ r = RLocked n
    ∨ q ≠ [] ∧ c = SDone StartLock r →
    mcs_inv (set_tail (Some n) i) (q ++ [(n, false)]) (<[t := c]> st) (<[t := PDone r]> f)) as Hinv.
  { intros c r Hcase. apply (mcs_move i _ q); cbn; try done.
    - by rewrite last_snoc.
    - intros k m b [Hk|[Hk Hm]]%lookup_app_Some.
      + rewrite (mi_next _ _ _ _ Hi _ _ _ Hk). destruct b; [|done].
        destruct (decide (S k < length q)%nat) as [Hlt|Hge]; [by rewrite lookup_app_l|].
        assert (last q = Some (m, true)) as El.
        { rewrite last_lookup. apply lookup_lt_Some in Hk as ?. by replace (Init.Nat.pred (length q)) with k by lia. }
        by apply (po_last _ _ _ _ Hp) in El.
      + apply list_lookup_singleton_Some in Hm as [_ [= <- <-]]. done.
    - intros m. rewrite fmap_app, elem_of_app. intros [Hm| ->%list_elem_of_singleton]; [by apply (mi_used _ _ _ _ Hi)|done].
    - intros u op' l' Hu E Hr'. split; [done|]. destruct Hcase as [(_ & -> & _)|[Hne _]].
      + destruct (nonholder_head i [] [] st f t _ _ token u Hp Et Hf eq_refl Hu Hr'). done.
      + by destruct q.
    - intros u op' l' m Hu E Em. destruct (mi_own _ _ _ _ Hi u op' l' m E Em). split_and!; [done|done|].
      rewrite fmap_app, elem_of_app. intros [?| ->%list_elem_of_singleton]; [done|].
      by eapply (other_own _ _ _ _ t _ _ u).
    - intros op' l' E. destruct Hcase as [(Hh & -> & -> & ->)|[_ ->]]; [|done]. by injection E as <- <-.
    - intros op' l' m E. destruct Hcase as [(_ & _ & -> & _)|[_ ->]]; [|done]. by injection E as <- <-.
    - intros Hno Hno'. destruct Hcase as [(_ & _ & -> & _)|[Hne _]].
      + by specialize (Hno _ _ eq_refl).
      + rewrite (head_settled i q st f t _ _ Hi Et eq_refl Hno'). by destruct q. }
  destruct q as [|[m b] q _] using rev_ind; cbn.
  - split; [done|]. eexists _, _, _, _. split_and!; [reflexivity|constructor| |].
    + by eapply proto_lin; [| | |constructor|left; eauto].
    + apply (Hinv _ _). left. split_and!; [|done..].
      rewrite (head_settled i [] st f t _ _ Hi Et eq_refl); [done|]. intros u op' l' Hu E.
      destruct (head_moves l') eqn:Em; [|done]. pose proof (mi_local _ _ _ _ Hi u op' l' E) as Hl.
      apply head_moves_role in Hl; [|done]. rewrite <-E in Hl.
      by destruct (nonholder_head i [] [] st f t _ _ token u Hp Et Hf eq_refl Hu Hl).
  - assert (b = false) as -> by (apply (po_last _ _ _ _ Hp m); apply last_snoc).
    rewrite last_snoc. cbn. destruct (Z.eqb_spec m n) as [->|Hne].
    { destruct Hnq. rewrite fmap_app. apply elem_of_app. right. by left. }
    split; [done|]. eexists _, _, _, _. split_and!; [reflexivity|by constructor| |].
    + by eapply proto_lin; [| | |constructor|right].
    + apply Hinv. right. split; [by intros [_ [=]]%app_eq_nil|done].
Qed.

Lemma step_set_next i q token st f t op m n :
  proto q token st f → mcs_inv i q st f → st t = SRun op (MStoreNext m n) →
  lins t op (MStoreNext m n) i q token st f.
Proof.
  intros Hp Hi Et. destruct (mi_local _ _ _ _ Hi t op _ Et) as (-> & Hf).
  destruct (po_owed _ _ _ _ Hp t (m, n)) as (k & b & Hk & Hk'); [by rewrite Et, Hf|]. cbn in Hk, Hk'.
  destruct (split_pair q k m n false b Hk Hk') as (q1 & q2 & Eq & Hlen).
  set (q' := q1 ++ (m, true) :: (n, b) :: q2).
  assert (q'.*1 = q.*1) as Hfst by (subst q'; rewrite Eq, !fmap_app; done).
  assert (q' = <[k := (m, true)]> q) as Hins.
  { subst q'. rewrite Eq, <-Hlen. rewrite <-(Nat.add_0_r (length q1)). by rewrite insert_app_r. }
  assert (∀ j, fst <$> (q' !! j) = fst <$> (q !! j)) as Hlook by (intros j; by rewrite <-!list_lookup_fmap, Hfst).
  assert (m ∈ q.*1) as Hm by (apply list_elem_of_fmap; exists (m, false); split; [done|by eapply list_elem_of_lookup_2]).
  split; [done|]. eexists _, _, _, q'. split_and!; [reflexivity|rewrite Eq; constructor| |].
  { eapply proto_lin; [done..| |by right]. rewrite Eq. constructor. }
  apply (mcs_move i _ q); cbn; try done.
  - rewrite (mi_tail _ _ _ _ Hi), Eq. subst q'. by rewrite !last_app_cons.
  - intros j m' b' Hj. rewrite Hlook. rewrite Hins in Hj. destruct (decide (j = k)) as [->|Hne].
    + rewrite list_lookup_insert_eq in Hj by (by eapply lookup_lt_Some). simplify_eq.
      rewrite fn_lookup_insert, Hk'. done.
    + rewrite list_lookup_insert_ne in Hj by done. rewrite fn_lookup_insert_ne.
      * by apply (mi_next _ _ _ _ Hi).
      * intros <-. destruct Hne. apply (NoDup_lookup q.*1 j k m (po_nodup _ _ _ _ Hp));
          by rewrite list_lookup_fmap, ?Hj, ?Hk.
  - intros x. rewrite Hfst. apply Hi.
  - intros u op' l' Hu E Hr. split; [done|]. rewrite !head_lookup. apply Hlook.
  - intros u op' l' x Hu E Ex. destruct (mi_own _ _ _ _ Hi u op' l' x E Ex) as [? Hnx].
    rewrite Hfst, fn_lookup_insert_ne by (intros ->; done). done.
  - intros _ Hno. rewrite (head_settled i q st f t _ _ Hi Et eq_refl Hno), !head_lookup. symmetry. apply Hlook.
Qed.

(** The tail is the head exactly when nothing waits. *)
Lemma tail_is_head i q token st f h b q0 :
  proto q token st f → mcs_inv i q st f → q = (h, b) :: q0 →
  ptr_eq (mc_tail i) (Some h) = bool_decide (q0 = []).
Proof.
  intros Hp Hi ->. unfold ptr_eq. apply bool_decide_ext. rewrite (mi_tail _ _ _ _ Hi).
  destruct q0 as [|[h' b'] q0 _] using rev_ind; [done|]. rewrite app_comm_cons, last_snoc. cbn. split.
  - intros [= ->]. pose proof (po_nodup _ _ _ _ Hp) as Hnd. cbn in Hnd. apply NoDup_cons in Hnd as [Hn _].
    destruct Hn. rewrite fmap_app. apply elem_of_app. right. by left.
  - by intros [_ [=]]%app_eq_nil.
Qed.

(** The holder's view of the list. *)
Lemma holder_list q token st f t op l h :
  proto q token st f → st t = SRun op l → f t = PCalled op → is_holder_op op = true →
  op_head op = Some h → ∃ b q0, q = (h, b) :: q0 ∧ (q0 = [] → b = false).
Proof.
  intros Hp Et Ef Hop Hh. pose proof (po_head _ _ _ _ Hp t _ _ Et Ef Hop) as E. rewrite Hh in E.
  destruct q as [|[h' b] q0]; [done|]. injection E as <-. exists b, q0. split; [done|]. intros ->.
  by apply (po_last _ _ _ _ Hp h).
Qed.

(** A method of the holder that reads takes effect and ends. *)
Lemma lin_read i q token st f t op l r :
  proto q token st f → mcs_inv i q st f → st t = SRun op l → f t = PCalled op →
  head_moves l = false → sq_apply t op q r q →
  proto q token (<[t := SDone op r]> st) (<[t := PDone r]> f)
  ∧ mcs_inv i q (<[t := SDone op r]> st) (<[t := PDone r]> f).
Proof.
  intros Hp Hi Et Ef Hm Ha. split; [by eapply proto_lin; [..|right]|].
  apply (mcs_move i _ q); cbn; try done; try apply Hi.
  - intros u op' l' n Hu E En. split; [done|]. by eapply (mi_own _ _ _ _ Hi).
  - intros _ Hno. by eapply head_settled.
Qed.

Lemma step_unlockable i q token st f t op h :
  proto q token st f → mcs_inv i q st f → st t = SRun op (MIsUnlockable h) →
  lins t op (MIsUnlockable h) i q token st f.
Proof.
  intros Hp Hi Et. destruct (mi_local _ _ _ _ Hi t op _ Et) as (-> & Hf).
  destruct (holder_list _ _ _ _ _ _ _ h Hp Et Hf eq_refl eq_refl) as (b & q0 & Eq & Hb).
  assert (mc_head i = Some h) as Hh.
  { rewrite (holder_head _ _ _ _ _ _ _ _ Hp Hi Et); [by rewrite Eq|by rewrite Hf|done]. }
  unfold lins. cbn. rewrite Hh, ptr_eq_refl. cbn. rewrite (tail_is_head _ _ _ _ _ _ _ _ Hp Hi Eq).
  assert (sq_apply t (IsUnlockable h) q (RBool (bool_decide (q0 = []))) q) as Ha.
  { rewrite Eq. destruct q0 as [|e q0]; [rewrite Hb by done|]; constructor. }
  split; [done|]. eexists _, _, _, _. split_and!; [reflexivity|exact Ha|..]; by eapply lin_read.
Qed.

Lemma step_cas_tail i q token st f t op h :
  proto q token st f → mcs_inv i q st f → st t = SRun op (MCasTail h) →
  lins t op (MCasTail h) i q token st f.
Proof.
  intros Hp Hi Et. destruct (mi_local _ _ _ _ Hi t op _ Et) as (-> & Hf & Hh).
  destruct (holder_list _ _ _ _ _ _ _ h Hp Et Hf eq_refl eq_refl) as (b & q0 & Eq & Hb).
  destruct (role_own _ _ _ _ _ _ _ Hp Et) as [_ Hno]; [by rewrite Hf|].
  unfold lins. cbn. rewrite (tail_is_head _ _ _ _ _ _ _ _ Hp Hi Eq). case_bool_decide as Hq0.
  - rewrite Hb in Eq by done. subst q0.
    assert (sq_apply t (TryUnlock h) q (RBool true) []) as Ha by (rewrite Eq; constructor).
    split; [done|]. eexists _, _, _, _. split_and!; [reflexivity|exact Ha|by eapply proto_lin; [..|left; eauto]|].
    assert (h ∈ q.*1) as Hin by (rewrite Eq; by left).
    apply (mcs_move i _ q); cbn; try done.
    + intros n ?%elem_of_nil. done.
    + intros u op' l' Hu E Hr. by rewrite Hno in Hr.
    + intros u op' l' n Hu E En. destruct (mi_own _ _ _ _ Hi u op' l' n E En). split_and!; [done..|apply not_elem_of_nil].
    + by intros op' l' [= <- <-].
    + intros op' l' n [= <- <-] [= <-]. split_and!; [by apply (mi_used _ _ _ _ Hi)|apply not_elem_of_nil|].
      intros u op' l' Hu E En. by destruct (mi_own _ _ _ _ Hi u op' l' h E En).
  - assert (sq_apply t (TryUnlock h) q (RBool false) q) as Ha by (rewrite Eq; destruct q0; [done|constructor]).
    split; [done|]. eexists _, _, _, _. split_and!; [reflexivity|exact Ha|by eapply proto_lin; [..|left; eauto]|].
    apply (mcs_move i _ q); cbn; try done; try apply Hi.
    + intros u op' l' n Hu E En. split; [done|]. by eapply (mi_own _ _ _ _ Hi).
    + intros op' l' [= <- <-]. cbn. by rewrite Eq.
    + by intros op' l' n [= <- <-].
    + intros Hm _. by specialize (Hm _ _ eq_refl).
Qed.

Lemma step_load_next i q token st f t op h :
  proto q token st f → mcs_inv i q st f → st t = SRun op (MLoadNext h) →
  lins t op (MLoadNext h) i q token st f.
Proof.
  intros Hp Hi Et. destruct (mi_local _ _ _ _ Hi t op _ Et) as (-> & Hf).
  destruct (holder_list _ _ _ _ _ _ _ h Hp Et Hf eq_refl eq_refl) as (b & q0 & Eq & Hb).
  destruct (role_own _ _ _ _ _ _ _ Hp Et) as [_ Hno]; [by rewrite Hf|].
  assert (mc_head i = Some h) as Hh.
  { rewrite (holder_head _ _ _ _ _ _ _ _ Hp Hi Et); [by rewrite Eq|by rewrite Hf|done]. }
  assert (mc_next i h = if b then fst <$> (q !! 1%nat) else None) as Hn by (apply (mi_next _ _ _ _ Hi 0%nat); by rewrite Eq).
  unfold lins. cbn. rewrite Hh, ptr_eq_refl, Hn. cbn. destruct b; cbn.
  - destruct q0 as [|[n b'] q0]; [by specialize (Hb eq_refl)|]. rewrite Eq. cbn. rewrite <-Eq.
    pose proof (po_nodup _ _ _ _ Hp) as Hnd. rewrite Eq in Hnd. cbn in Hnd.
    assert (n ≠ h) as Hne by (intros ->; apply NoDup_cons in Hnd as [Hn' _]; destruct Hn'; by left).
    apply Z.eqb_neq in Hne as Hne'. rewrite Hne'. cbn.
    assert (sq_apply t (TryFollowHead h) q (RNext (Some n)) ((n, b') :: q0)) as Ha by (rewrite Eq; constructor).
    split; [done|]. eexists _, _, _, _. split_and!; [reflexivity|exact Ha|by eapply proto_lin; [..|left; eauto]|].
    assert (∀ x, x ∈ ((n, b') :: q0).*1 → x ∈ q.*1) as Hsub by (intros x Hx; rewrite Eq; by right).
    apply (mcs_move i _ q); cbn; try done.
    + by rewrite (mi_tail _ _ _ _ Hi), Eq.
    + intros k m c Hk. rewrite (mi_next _ _ _ _ Hi (S k) m c); by rewrite Eq.
    + intros x Hx. by apply (mi_used _ _ _ _ Hi), Hsub.
    + intros u op' l' Hu E Hr. by rewrite Hno in Hr.
    + intros u op' l' x Hu E Ex. destruct (mi_own _ _ _ _ Hi u op' l' x E Ex). split_and!; [done..|]. by intros ?%Hsub.
    + by intros op' l' [= <- <-].
    + intros op' l' x [= <- <-] [= <-]. split_and!; [apply (mi_used _ _ _ _ Hi); rewrite Eq; by left|by apply NoDup_cons in Hnd as [? _]|].
      intros u op' l' Hu E En. destruct (mi_own _ _ _ _ Hi u op' l' h E En) as [_ Hx]. destruct Hx. rewrite Eq. by left.
    + intros Hm _. by specialize (Hm _ _ eq_refl).
  - assert (sq_apply t (TryFollowHead h) q (RNext None) q) as Ha by (rewrite Eq; constructor).
    split; [done|]. eexists _, _, _, _. split_and!; [reflexivity|exact Ha|..]; by eapply lin_read.
Qed.

Lemma mcs_simulation : simulation mcs_queue sq_spec (sync_rel mcs_inv).
Proof.
  apply sync_simulation.
  - apply mcs_inv_init.
  - intros i q st f Hp Hi. apply (mi_head _ _ _ _ Hi). intros u op l E. destruct (head_moves l) eqn:Em; [|done].
    pose proof (mi_local _ _ _ _ Hi u op l E) as Hl. apply head_moves_role in Hl; [|done].
    rewrite <-E, (po_token _ _ _ _ Hp u eq_refl) in Hl. done.
  - intros t op i q st f Hno Hi. apply (mcs_move i _ q); try done; try apply Hi.
    + intros u op' l n Hu E' En. split; [done|]. by eapply (mi_own _ _ _ _ Hi).
    + intros op' l [= <- <-]. by destruct op.
    + intros op' l n [= <- <-]. by destruct op.
    + intros _ Hno'. apply (mi_head _ _ _ _ Hi). intros u op' l E'.
      destruct (decide (u = t)) as [->|Hu]; [by destruct (Hno op' l)|by eapply Hno'].
  - intros t op l i q token st f Hp Hi Et.
    destruct l; try (left; by apply step_alloc); try (left; by apply step_holder); right.
    + by apply step_xchg.
    + by apply step_set_next.
    + by apply step_unlockable.
    + by apply step_cas_tail.
    + by apply step_load_next.
  - intros t op r i q st f Et Hi. apply (mcs_move i _ q); try done; try apply Hi.
    + intros u op' l n Hu E' En. split; [done|]. by eapply (mi_own _ _ _ _ Hi).
    + intros op' l E'. by destruct op, r.
    + intros op' l n E'. by destruct op, r.
    + intros _ Hno. apply (mi_head _ _ _ _ Hi). intros u op' l E'.
      destruct (decide (u = t)) as [->|Hu]; [congruence|by eapply Hno].
Qed.
End steps.

(** C24: the MCS queue is linearizable to the list of nodes: whatever the
    interleaving of the accesses, a thread is told that it locked only when the
    list is empty, nodes are served in the order of the exchanges, the holder
    unlocks exactly when no node follows, and a node it steps to is linked.
    No assertion of the code fails (in particular a node is never linked twice),
    and at most one thread has the lock. *)
Theorem mcs_linearizable `{HP : NodePool} h s :
  ob_runs mcs_queue h s →
  (∃ q f, spec_runs sq_spec h q f)
  ∧ (∀ t, so_status s t ≠ SFailed)
  ∧ ∀ t n, so_status s t = SDone StartLock (RLocked n) →
      so_token s = false ∧ ∀ u m, so_status s u = SDone StartLock (RLocked m) → u = t.
Proof. exact (sync_correct _ _ _ _ _ h s mcs_simulation). Qed.

(** A pool for examples. *)
#[export] Instance fresh_pool : NodePool.
Proof. refine {| np_allocate X := fresh X |}. intros used. apply is_fresh. Defined.

(** Thread 1 locks, thread 2 queues behind it and links its node, and thread 1
    hands the lock over. *)
Definition demo_handover : option (list (history_event nat sq_op sq_ret) * sq_state mcs mcs_pc) :=
  let a := np_allocate ∅ in
  let b := np_allocate {[a]} in
  schedule mcs_queue
    ([SCall 1%nat StartLock; SStep 1%nat; SStep 1%nat; SCall 2%nat StartLock; SStep 2%nat; SStep 1%nat]
     ++ [SStep 2%nat; SStep 2%nat; SStep 1%nat; SRet 1%nat; SCall 1%nat (TryUnlock a); SStep 1%nat]
     ++ [SRet 2%nat; SCall 2%nat (SetNext a b); SStep 2%nat; SStep 1%nat; SStep 2%nat; SStep 1%nat]
     ++ [SRet 1%nat; SRet 2%nat; SCall 1%nat (TryFollowHead a); SStep 1%nat; SStep 1%nat; SStep 1%nat; SRet 1%nat])
    [] (so_init mcs_init).

Lemma mcs_linearizable_witness :
  ∃ h s, demo_handover = Some (h, s) ∧ mc_head (so_impl s) = mc_tail (so_impl s)
    ∧ ∃ q f, spec_runs sq_spec h q f.
Proof.
  destruct demo_handover as [[h s]|] eqn:E; [|discriminate (eq_trans (eq_sym E) ltac:(vm_compute; reflexivity))].
  exists h, s. split; [reflexivity|].
  pose proof (mcs_linearizable h s (schedule_runs mcs_queue _ [] (so_init mcs_init) h s (runs_init mcs_queue) E)) as [Hl _].
  vm_compute in E. injection E as <- <-. split; [reflexivity|exact Hl].
Defined.
