(* ===== verification/RingBuf.v ===== *)
(** The ring buffer queue: basic_ring_buf_core.hpp and basic_ring_buf_queue.hpp
    of cmpth, with the policy of ring_buf_delegator.hpp.

    A fixed array of nodes and two counters: [head_] counts nodes twice, and
    [tail_] has the lock in its lowest bit. Every access to shared memory is a
    step. The counters are [int64_t], modelled as integers: they grow by two per
    acquisition, so they do not overflow before 2^62 acquisitions. A spurious
    failure of the weak compare-and-swap only repeats the loop. *)
From Stdlib Require Import ZArith Lia.
From stdpp Require Import base tactics functions list.
From S2P Require Import Prelude.
From S2P Require Import Linear.
From S2P Require Import SyncQueue.

Record ring := Ring {
  rb_head : Z;
  rb_tail : Z;
  rb_ready : Z → bool;  (** the flag of each node *)
}.

Definition ring_init : ring := Ring 0 0 (λ _, false).

Definition rb_set_head (v : Z) (i : ring) : ring := Ring v (rb_tail i) (rb_ready i).
Definition rb_set_tail (v : Z) (i : ring) : ring := Ring (rb_head i) v (rb_ready i).
Definition rb_set_ready (n : Z) (v : bool) (i : ring) : ring :=
  Ring (rb_head i) (rb_tail i) (<[n := v]> (rb_ready i)).

Inductive ring_pc :=
| RLoadHead                  (** try_lock_or_enqueue: load head_ *)
| RLoadTail (head : Z)       (** load tail_ *)
| RCasTail (head tail : Z)   (** CAS tail_ *)
| RYield                     (** retry *)
| RCheckReady (prev cur : Z) (** set_next: assert that prev is not ready *)
| RStoreReady (prev cur : Z) (** prev->ready := true *)
| RIsUnlockable (head : Z)   (** is_unlockable: check_head, load tail_ *)
| RUnlock (head : Z)         (** try_unlock: check_head, load head_ *)
| RCasUnlock (head : Z) (v : Z)  (** CAS tail_ from v|1 to v *)
| RLoadReady (head : Z)      (** try_follow_head: check_head, load head->ready *)
| RResetReady (head : Z)     (** head->ready := false *)
| RMoveHead (head : Z).      (** head_ += 2 *)

Definition ring_start (op : sq_op) : ring_pc :=
  match op with
  | StartLock => RLoadHead
  | SetNext prev cur => RCheckReady prev cur
  | IsUnlockable head => RIsUnlockable head
  | TryUnlock head => RUnlock head
  | TryFollowHead head => RLoadReady head
  end.

#[local] Arguments Z.testbit : simpl never.
#[local] Arguments Z.lor : simpl never.
#[local] Arguments Z.shiftr : simpl never.
#[local] Arguments Z.shiftl : simpl never.
#[local] Arguments Z.mul : simpl never.

Section ring.
Context (cap : Z).

(** [get_head]: the index of the first node. *)
Definition ring_head_idx (i : ring) : Z := Z.rem (Z.shiftr (rb_head i) 1) cap.

(** [check_head]. *)
Definition check_head (head : Z) (i : ring) : result () := assert_ (head =? ring_head_idx i).

(** [get_node_at]. *)
Definition get_node_at (idx : Z) : result Z := _ ← assert_ ((0 <=? idx) && (idx <? cap)); Ok idx.

Definition ring_step (l : ring_pc) (i : ring) : result ((ring_pc + sq_ret) * ring) :=
  match l with
  | RLoadHead => Ok (inl (RLoadTail (rb_head i)), i)
  | RLoadTail head =>
      let tail := rb_tail i in
      if Z.shiftl (cap - 1) 1 <=? tail - head then Ok (inl RYield, i)
      else Ok (inl (RCasTail head tail), i)
  | RCasTail head tail =>
      let is_delegated := Z.testbit tail 0 in
      let new_tail := tail + (if is_delegated then 2 else 1) in
      if rb_tail i =? tail then
        prev ← get_node_at (Z.rem (Z.shiftr tail 1) cap);
        cur ← get_node_at (Z.rem (Z.shiftr new_tail 1) cap);
        Ok (inr (if is_delegated then REnqueued prev cur else RLocked cur), rb_set_tail new_tail i)
      else Ok (inl RYield, i)
  | RYield => Ok (inl RLoadHead, i)
  | RCheckReady prev cur => _ ← assert_ (negb (rb_ready i prev)); Ok (inl (RStoreReady prev cur), i)
  | RStoreReady prev cur => Ok (inr RSet, rb_set_ready prev true i)
  | RIsUnlockable head =>
      _ ← check_head head i;
      _ ← assert_ (negb (Z.testbit (rb_head i) 0));
      _ ← assert_ (Z.testbit (rb_tail i) 0);
      Ok (inr (RBool (Z.lor (rb_head i) 1 =? rb_tail i)), i)
  | RUnlock head =>
      _ ← check_head head i;
      _ ← assert_ (negb (Z.testbit (rb_head i) 0));
      Ok (inl (RCasUnlock head (rb_head i)), i)
  | RCasUnlock head v =>
      if rb_tail i =? Z.lor v 1 then Ok (inr (RBool true), rb_set_tail v i)
      else Ok (inr (RBool false), i)
  | RLoadReady head =>
      _ ← check_head head i;
      if rb_ready i head then Ok (inl (RResetReady head), i) else Ok (inr (RNext None), i)
  | RResetReady head => Ok (inl (RMoveHead head), rb_set_ready head false i)
  | RMoveHead head =>
      let next_head := rb_head i + 2 in
      next ← get_node_at (Z.rem (Z.shiftr next_head 1) cap);
      Ok (inr (RNext (Some next)), rb_set_head next_head i)
  end.

Definition ring_buf_queue : object nat sq_op sq_ret :=
  sync_object ring_init ring_start ring_step (λ i, Some (ring_head_idx i)).
End ring.

(** * The invariant *)
Section invariant.
Context (cap : Z) (Hcap : 0 < cap).
Implicit Types (i : ring) (q : sq_nodes) (st : nat → sq_status ring_pc)
  (f : nat → pending sq_op sq_ret) (l : ring_pc).

Definition ring_local i q (op : sq_op) l (p : pending sq_op sq_ret) : Prop :=
  p = PCalled op ∧
  match l with
  | RLoadHead | RYield => op = StartLock
  | RLoadTail hd => op = StartLock ∧ hd ≤ rb_head i
  | RCasTail hd tl => op = StartLock ∧ hd ≤ rb_head i ∧ tl - hd < 2 * (cap - 1)
  | RCheckReady m n | RStoreReady m n => op = SetNext m n
  | RIsUnlockable h => op = IsUnlockable h
  | RUnlock h => op = TryUnlock h
  | RCasUnlock h v => op = TryUnlock h ∧ v = rb_head i
  | RLoadReady h => op = TryFollowHead h
  | RResetReady h => op = TryFollowHead h ∧ q !! 0%nat = Some (h, true)
  | RMoveHead h => op = TryFollowHead h ∧ q !! 0%nat = Some (h, true) ∧ rb_ready i h = false
  end.

(** [H] counts the nodes that were followed. *)
Record ring_inv (H : Z) i q st f : Prop := {
  ri_pos : 0 ≤ H;
  ri_head : rb_head i = 2 * H;
  ri_tail : rb_tail i = if bool_decide (q = []) then 2 * H else 2 * (H + Z.of_nat (length q)) - 1;
  ri_room : Z.of_nat (length q) ≤ cap;
  ri_nodes (k : nat) (m : Z) (b : bool) : q !! k = Some (m, b) → m = (H + Z.of_nat k) mod cap;
  ri_ready (k : nat) (m : Z) (b : bool) : q !! k = Some (m, b) →
    rb_ready i m = b ∨ k = 0%nat ∧ ∃ t op, st t = SRun op (RMoveHead m);
  ri_free (m : Z) : m ∉ q.*1 → rb_ready i m = false;
  ri_local t op l : st t = SRun op l → ring_local i q op l (f t);
}.

Lemma ring_inv_init : ring_inv 0 ring_init [] (λ _, SFree) (λ _, PIdle).
Proof using Hcap. constructor; try done. cbn. lia. Qed.

Lemma ring_inv_ext H i q st f f' : (∀ u, f' u = f u) → ring_inv H i q st f → ring_inv H i q st f'.
Proof. intros Hf []. constructor; try done. intros u op l. rewrite Hf. auto. Qed.

(** ** Arithmetic of the counters *)
Lemma even_head H : 0 ≤ H → Z.testbit (2 * H) 0 = false ∧ Z.shiftr (2 * H) 1 = H ∧ Z.lor (2 * H) 1 = 2 * H + 1.
Proof.
  intros HH. split_and!.
  - by rewrite Z.testbit_even_0.
  - rewrite Z.shiftr_div_pow2 by lia. change (2 ^ 1) with 2. rewrite Z.mul_comm. by apply Z.div_mul.
  - by destruct H.
Qed.

Lemma odd_tail n : 0 < n → Z.testbit (2 * n - 1) 0 = true ∧ Z.shiftr (2 * n - 1) 1 = n - 1 ∧ Z.shiftr (2 * n - 1 + 2) 1 = n.
Proof.
  intros Hn. replace (2 * n - 1) with (2 * (n - 1) + 1) by lia. split_and!.
  - apply Z.testbit_odd_0.
  - rewrite Z.shiftr_div_pow2 by lia. change (2 ^ 1) with 2. rewrite Z.mul_comm, Z.div_add_l by lia. change (1 / 2) with 0. lia.
  - rewrite Z.shiftr_div_pow2 by lia. change (2 ^ 1) with 2.
    replace (2 * (n - 1) + 1 + 2) with (n * 2 + 1) by lia. rewrite Z.div_add_l by lia. change (1 / 2) with 0. lia.
Qed.

Lemma slot_distinct H j k :
  0 ≤ H → 0 ≤ j < cap → 0 ≤ k < cap → (H + j) mod cap = (H + k) mod cap → j = k.
Proof using Hcap.
  intros HH Hj Hk E. assert ((j - k) mod cap = 0) as E'.
  { replace (j - k) with ((H + j) - (H + k)) by lia. rewrite Zminus_mod, E, Z.sub_diag. apply Z.mod_0_l. lia. }
  destruct (Z_le_gt_dec k j).
  - rewrite Z.mod_small in E' by lia. lia.
  - assert ((k - j) mod cap = 0) as E2 by (replace (k - j) with (- (j - k)) by lia; apply Z_mod_zero_opp_full; done).
    rewrite Z.mod_small in E2 by lia. lia.
Qed.

Lemma get_node_ok x : 0 ≤ x → get_node_at cap (Z.rem x cap) = Ok (x mod cap).
Proof using Hcap.
  intros Hx. rewrite Z.rem_mod_nonneg by lia. unfold get_node_at.
  pose proof (Z.mod_pos_bound x cap Hcap). rewrite assert_true; [done|].
  apply andb_true_intro. split; [apply Z.leb_le|apply Z.ltb_lt]; lia.
Qed.

(** ** Frames *)
Lemma ring_local_frame i i' q q' op l p :
  ring_local i q op l p → rb_head i ≤ rb_head i' →
  (role (SRun op l) p = true → rb_head i' = rb_head i
     ∧ ∀ h, q !! 0%nat = Some (h, true) → q' !! 0%nat = Some (h, true) ∧ rb_ready i' h = rb_ready i h) →
  ring_local i' q' op l p.
Proof.
  intros [-> Hl] Hle Hr. split; [done|]. destruct l; try done; destruct_and?; subst; cbn in Hr.
  - split; [done|lia].
  - split_and!; [done|lia|done].
  - destruct Hr as [-> _]; done.
  - destruct Hr as [_ Hr]; [done|]. split; [done|]. by apply Hr.
  - destruct Hr as [_ Hr]; [done|]. destruct (Hr head) as [-> ->]; done.
Qed.

Lemma ring_move H H' i i' q q' st f t c p :
  ring_inv H i q st f →
  0 ≤ H' → rb_head i' = 2 * H' →
  rb_tail i' = (if bool_decide (q' = []) then 2 * H' else 2 * (H' + Z.of_nat (length q')) - 1) →
  Z.of_nat (length q') ≤ cap →
  (∀ (k : nat) (m : Z) (b : bool), q' !! k = Some (m, b) → m = (H' + Z.of_nat k) mod cap) →
  (∀ (k : nat) (m : Z) (b : bool), q' !! k = Some (m, b) → rb_ready i' m = b ∨ k = 0%nat
     ∧ ((∃ op, c = SRun op (RMoveHead m)) ∨ ∃ u op, u ≠ t ∧ st u = SRun op (RMoveHead m))) →
  (∀ m : Z, m ∉ q'.*1 → rb_ready i' m = false) →
  rb_head i ≤ rb_head i' →
  (∀ u op l, u ≠ t → st u = SRun op l → role (st u) (f u) = true → rb_head i' = rb_head i
     ∧ ∀ h, q !! 0%nat = Some (h, true) → q' !! 0%nat = Some (h, true) ∧ rb_ready i' h = rb_ready i h) →
  (∀ op l, c = SRun op l → ring_local i' q' op l p) →
  ring_inv H' i' q' (<[t := c]> st) (<[t := p]> f).
Proof.
  intros Hi Hpos Hh Ht Hroom Hn Hr Hfree Hle Hrole Hlc. constructor; try done.
  - intros k m b Hk. destruct (Hr k m b Hk) as [?|(Hk0 & [[op Hc]|(u & op & Hu & E)])]; [by left|right..].
    + split; [done|]. exists t, op. by rewrite fn_lookup_insert.
    + split; [done|]. exists u, op. by rewrite fn_lookup_insert_ne.
  - intros u op l. destruct (decide (u = t)) as [->|Hu]; rewrite ?fn_lookup_insert, ?fn_lookup_insert_ne by done;
      [apply Hlc|]. intros E. eapply ring_local_frame; [by apply (ri_local _ _ _ _ _ Hi)|done|].
    rewrite <-E. by eapply Hrole.
Qed.

(** A step that writes nothing. *)
Lemma ring_keep H i q st f t c p :
  ring_inv H i q st f → (∀ op m, st t ≠ SRun op (RMoveHead m)) →
  (∀ op l, c = SRun op l → ring_local i q op l p) →
  ring_inv H i q (<[t := c]> st) (<[t := p]> f).
Proof.
  intros Hi Hno Hl. apply (ring_move H H i i q q); try done; try apply Hi.
  intros k m b Hk. destruct (ri_ready _ _ _ _ _ Hi k m b Hk) as [?|(Hk0 & u & op & E)]; [by left|right].
  split; [done|]. right. exists u, op. split; [|done]. intros ->. by destruct (Hno op m).
Qed.

Definition rinv i q st f : Prop := ∃ H, ring_inv H i q st f.

#[local] Abbreviation stays := (SyncQueue.stays (ring_step cap) rinv).
#[local] Abbreviation lins := (SyncQueue.lins (ring_step cap) rinv).

Lemma insert_same (f : nat → pending sq_op sq_ret) t u : f u = <[t := f t]> f u.
Proof. destruct (decide (u = t)) as [->|]; by rewrite ?fn_lookup_insert, ?fn_lookup_insert_ne. Qed.

(** The method goes on. *)
Lemma proto_goes_on q token st f t op l l' :
  proto q token st f → st t = SRun op l → proto q token (<[t := SRun op l']> st) f.
Proof.
  intros Hp Et. eapply proto_ext; [apply (insert_same f t)|].
  pose proof (po_match _ _ _ _ Hp t) as Hm. rewrite Et in Hm. apply proto_same; rewrite ?Et; try done.
  intros op' l'' [= <- <-] Ef. by apply (po_head _ _ _ _ Hp t op l).
Qed.

Lemma goes_on t op l l' i q token st f :
  proto q token st f → rinv i q st f → st t = SRun op l → (∀ m, l ≠ RMoveHead m) →
  ring_step cap l i = Ok (inl l', i) → ring_local i q op l' (f t) → stays t op l i q token st f.
Proof.
  intros Hp [H Hi] Et Hl E Hl'. exists (inl l'), i. split; [done|]. split; [by eapply proto_goes_on|].
  exists H. eapply ring_inv_ext; [apply (insert_same f t)|]. apply ring_keep; [done| |by intros ?? [= <- <-]].
  intros op' m E'. rewrite Et in E'. by simplify_eq; eapply Hl.
Qed.

(** The holder's view of the list. *)
Lemma ring_holder H i q token st f t op l h :
  proto q token st f → ring_inv H i q st f → st t = SRun op l → f t = PCalled op →
  is_holder_op op = true → op_head op = Some h →
  (∃ b q0, q = (h, b) :: q0 ∧ (q0 = [] → b = false))
  ∧ (∀ u, u ≠ t → role (st u) (f u) = false) ∧ check_head cap h i = Ok tt
  ∧ h = H mod cap.
Proof using Hcap.
  intros Hp Hi Et Ef Hop Hh. pose proof (po_head _ _ _ _ Hp t _ _ Et Ef Hop) as E. rewrite Hh in E.
  destruct q as [|[h' b] q0]; [done|]. injection E as <-.
  assert (h = H mod cap) as Ehm.
  { rewrite (ri_nodes _ _ _ _ _ Hi 0%nat h b eq_refl). f_equal. lia. }
  split_and!.
  - exists b, q0. split; [done|]. intros ->. by apply (po_last _ _ _ _ Hp h).
  - by apply (proto_others _ _ _ _ _ _ _ Hp Et Ef).
  - unfold check_head, ring_head_idx. rewrite (ri_head _ _ _ _ _ Hi). pose proof (ri_pos _ _ _ _ _ Hi).
    destruct (even_head H) as (_ & -> & _); [done|]. rewrite Z.rem_mod_nonneg by lia. rewrite <-Ehm, Z.eqb_refl. done.
  - done.
Qed.

Lemma step_goes_on i q token st f t op l :
  proto q token st f → rinv i q st f → st t = SRun op l →
  match l with RLoadHead | RLoadTail _ | RYield | RCheckReady _ _ | RUnlock _ => True | _ => False end →
  stays t op l i q token st f.
Proof using Hcap.
  intros Hp [H Hi] Et Hl0. destruct (ri_local _ _ _ _ _ Hi t op l Et) as [Ef Hl].
  assert (∀ l', ring_step cap l i = Ok (inl l', i) → ring_local i q op l' (f t) → stays t op l i q token st f) as Hgo.
  { intros l' E Hl'. eapply goes_on; [done|by exists H|done|by destruct l|done|done]. }
  destruct l; try done; cbn in Hl, Hgo; clear Hl0.
  - by eapply Hgo.
  - destruct Hl as [-> Hhd]. destruct (Z.leb_spec (Z.shiftl (cap - 1) 1) (rb_tail i - head)) as [Hle|Hlt];
      [by eapply Hgo|]. eapply Hgo; [done|]. rewrite Z.shiftl_mul_pow2 in Hlt by lia. split; [done|].
    split_and!; [done|done|lia].
  - by eapply Hgo.
  - subst op. destruct (po_owed _ _ _ _ Hp t (prev, cur)) as (k & b & Hk & _); [by rewrite Et, Ef|]. cbn in Hk.
    assert (rb_ready i prev = false) as Hr.
    { destruct (ri_ready _ _ _ _ _ Hi k prev false Hk) as [?|(-> & u & op & Eu)]; [done|].
      destruct (ri_local _ _ _ _ _ Hi u op _ Eu) as [_ (_ & _ & ?)]. done. }
    rewrite Hr in Hgo. by eapply Hgo.
  - subst op. destruct (ring_holder _ _ _ _ _ _ _ _ _ head Hp Hi Et Ef) as (_ & _ & Hck & _); [done..|].
    rewrite Hck in Hgo. pose proof (ri_pos _ _ _ _ _ Hi) as Hpos. destruct (even_head H Hpos) as (Hev & _).
    rewrite (ri_head _ _ _ _ _ Hi), Hev in Hgo. eapply Hgo; [done|]. rewrite <-(ri_head _ _ _ _ _ Hi). done.
Qed.

(** A method that reads takes effect and ends. *)
Lemma ring_lin_read i q token st f t op l r :
  proto q token st f → rinv i q st f → st t = SRun op l → f t = PCalled op → (∀ m, l ≠ RMoveHead m) →
  ring_step cap l i = Ok (inr r, i) → sq_apply t op q r q → lins t op l i q token st f.
Proof.
  intros Hp [H Hi] Et Ef Hl E Ha. split; [done|]. eexists _, _, r, q. split_and!; [done|done| |].
  - by eapply proto_lin; [..|right].
  - exists H. apply ring_keep; [done| |done]. intros op' m E'. rewrite Et in E'. simplify_eq. by eapply Hl.
Qed.

Lemma ring_step_unlockable i q token st f t op h :
  proto q token st f → rinv i q st f → st t = SRun op (RIsUnlockable h) →
  lins t op (RIsUnlockable h) i q token st f.
Proof using Hcap.
  intros Hp [H Hi] Et. destruct (ri_local _ _ _ _ _ Hi t op _ Et) as [Ef ->].
  destruct (ring_holder _ _ _ _ _ _ _ _ _ h Hp Hi Et Ef) as ((b & q0 & Eq & Hb) & Hno & Hck & Hh); [done..|].
  pose proof (ri_pos _ _ _ _ _ Hi) as Hpos. pose proof (ri_tail _ _ _ _ _ Hi) as Htl.
  rewrite bool_decide_false in Htl by (by rewrite Eq).
  destruct (even_head H Hpos) as (Hev & _ & Hor).
  assert (0 < H + Z.of_nat (length q)) as Hlen by (rewrite Eq; cbn; lia).
  destruct (odd_tail _ Hlen) as (Hodd & _ & _).
  apply (ring_lin_read i q token st f t _ _ (RBool (bool_decide (q0 = []))) Hp (ex_intro _ H Hi) Et Ef); [done| |].
  - cbn. rewrite Hck. cbn. rewrite (ri_head _ _ _ _ _ Hi), Hev, Htl, Hodd, Hor. cbn. do 4 f_equal.
    destruct (Z.eqb_spec (2 * H + 1) (2 * (H + Z.of_nat (length q)) - 1)) as [E|E]; symmetry;
      [apply bool_decide_true|apply bool_decide_false]; destruct q0; rewrite Eq in E; cbn in E; try done; lia.
  - rewrite Eq. case_bool_decide as Hq0; [subst q0; rewrite Hb by done; constructor|]. destruct q0; [done|constructor].
Qed.

Lemma step_cas_unlock i q token st f t op h v :
  proto q token st f → rinv i q st f → st t = SRun op (RCasUnlock h v) →
  lins t op (RCasUnlock h v) i q token st f.
Proof using Hcap.
  intros Hp [H Hi] Et. destruct (ri_local _ _ _ _ _ Hi t op _ Et) as [Ef [-> ->]].
  destruct (ring_holder _ _ _ _ _ _ _ _ _ h Hp Hi Et Ef) as ((b & q0 & Eq & Hb) & Hno & Hck & Hh); [done..|].
  pose proof (ri_pos _ _ _ _ _ Hi) as Hpos. pose proof (ri_tail _ _ _ _ _ Hi) as Htl.
  rewrite bool_decide_false in Htl by (by rewrite Eq). destruct (even_head H Hpos) as (_ & _ & Hor).
  pose proof (ri_head _ _ _ _ _ Hi) as Hhd.
  destruct (rb_tail i =? Z.lor (rb_head i) 1) eqn:Ecas.
  - apply Z.eqb_eq in Ecas as Ecas'. rewrite Hhd, Hor, Htl, Eq in Ecas'. cbn in Ecas'.
    destruct q0 as [|e q0]; [|cbn in Ecas'; lia]. rewrite Hb in Eq by done.
    assert (sq_apply t (TryUnlock h) q (RBool true) []) as Ha by (rewrite Eq; constructor).
    split; [done|]. eexists (inr _), _, _, _. split_and!; [cbn; rewrite Ecas; done|exact Ha|by eapply proto_lin; [..|right]|].
    exists H. apply (ring_move H H i _ q); try done; cbn.
    + lia.
    + intros m _. destruct (decide (m ∈ q.*1)) as [Hm|Hm]; [|by apply (ri_free _ _ _ _ _ Hi)].
      rewrite Eq in Hm. apply list_elem_of_singleton in Hm as ->.
      destruct (ri_ready _ _ _ _ _ Hi 0%nat h false) as [?|(_ & u & op & Eu)]; [by rewrite Eq|done|].
      destruct (ri_local _ _ _ _ _ Hi u op _ Eu) as [_ (_ & _ & ?)]. done.
    + intros u op l Hu _ Hr. by rewrite Hno in Hr.
  - assert (q0 ≠ []) as Hq0.
    { intros ->. apply Z.eqb_neq in Ecas. destruct Ecas. rewrite Hhd, Hor, Htl, Eq. cbn. lia. }
    eapply ring_lin_read; [done|by exists H|done|done|done|cbn; by rewrite Ecas|].
    rewrite Eq. destruct q0; [done|constructor].
Qed.

Lemma step_load_ready i q token st f t op h :
  proto q token st f → rinv i q st f → st t = SRun op (RLoadReady h) →
  stays t op (RLoadReady h) i q token st f ∨ lins t op (RLoadReady h) i q token st f.
Proof using Hcap.
  intros Hp [H Hi] Et. destruct (ri_local _ _ _ _ _ Hi t op _ Et) as [Ef ->].
  destruct (ring_holder _ _ _ _ _ _ _ _ _ h Hp Hi Et Ef) as ((b & q0 & Eq & Hb) & Hno & Hck & Hh); [done..|].
  assert (rb_ready i h = b) as Hr.
  { destruct (ri_ready _ _ _ _ _ Hi 0%nat h b) as [?|(_ & u & op & Eu)]; [by rewrite Eq|done|].
    destruct (decide (u = t)) as [->|Hu]; [congruence|]. specialize (Hno u Hu). rewrite Eu in Hno.
    destruct (ri_local _ _ _ _ _ Hi u op _ Eu) as [Efu (-> & _)]. by rewrite Efu in Hno. }
  destruct b.
  - left. eapply goes_on; [done|by exists H|done|done|cbn; by rewrite Hck, Hr|]. split; [done|]. by rewrite Eq.
  - right. eapply ring_lin_read; [done|by exists H|done|done|done|cbn; by rewrite Hck, Hr|]. rewrite Eq. constructor.
Qed.

Lemma step_reset i q token st f t op h :
  proto q token st f → rinv i q st f → st t = SRun op (RResetReady h) →
  stays t op (RResetReady h) i q token st f.
Proof.
  intros Hp [H Hi] Et. destruct (ri_local _ _ _ _ _ Hi t op _ Et) as [Ef [-> Hq]].
  destruct (proto_others _ _ _ _ _ _ _ Hp Et Ef) as [[_ Hno] _]; [done|].
  eexists (inl _), _. split; [done|]. split; [by eapply proto_goes_on|].
  exists H. eapply ring_inv_ext; [apply (insert_same f t)|]. apply (ring_move H H i _ q q); try done; try apply Hi; cbn.
  - intros k m b Hk. destruct (decide (m = h)) as [->|Hne].
    + right. assert (k = 0%nat) as ->; [|split; [done|]; left; eauto].
      apply (NoDup_lookup q.*1 k 0%nat h (po_nodup _ _ _ _ Hp)); by rewrite list_lookup_fmap, ?Hk, ?Hq.
    + rewrite fn_lookup_insert_ne by done. destruct (ri_ready _ _ _ _ _ Hi k m b Hk) as [?|(Hk0 & u & op' & Eu)];
        [by left|right]. split; [done|]. right. exists u, op'. split; [|done]. intros ->. congruence.
  - intros m Hm. destruct (decide (m = h)) as [->|Hne]; [by rewrite fn_lookup_insert|].
    rewrite fn_lookup_insert_ne by done. by apply (ri_free _ _ _ _ _ Hi).
  - intros u op l Hu _ Hr. by rewrite Hno in Hr.
  - intros op l [= <- <-]. split; [done|]. cbn. by rewrite fn_lookup_insert.
Qed.

Lemma step_move_head i q token st f t op h :
  proto q token st f → rinv i q st f → st t = SRun op (RMoveHead h) →
  lins t op (RMoveHead h) i q token st f.
Proof using Hcap.
  intros Hp [H Hi] Et. destruct (ri_local _ _ _ _ _ Hi t op _ Et) as [Ef (-> & Hq & Hr)].
  destruct (ring_holder _ _ _ _ _ _ _ _ _ h Hp Hi Et Ef) as ((b & q0 & Eq & Hb) & Hno & Hck & Hh); [done..|].
  rewrite Eq in Hq. injection Hq as ->. destruct q0 as [|[n b'] q0]; [by specialize (Hb eq_refl)|].
  pose proof (ri_pos _ _ _ _ _ Hi) as Hpos.
  assert (n = (H + 1) mod cap) as En by (apply (ri_nodes _ _ _ _ _ Hi 1%nat n b'); by rewrite Eq).
  assert (sq_apply t (TryFollowHead h) q (RNext (Some n)) ((n, b') :: q0)) as Ha by (rewrite Eq; constructor).
  assert (ring_step cap (RMoveHead h) i = Ok (inr (RNext (Some n)), rb_set_head (2 * (H + 1)) i)) as Es.
  { cbn. rewrite (ri_head _ _ _ _ _ Hi). replace (2 * H + 2) with (2 * (H + 1)) by lia.
    destruct (even_head (H + 1)) as (_ & -> & _); [lia|]. rewrite get_node_ok by lia. by rewrite En. }
  split; [done|]. eexists (inr _), _, _, _. split_and!; [exact Es|exact Ha|by eapply proto_lin; [..|right]|].
  pose proof (po_nodup _ _ _ _ Hp) as Hnd. rewrite Eq in Hnd. cbn in Hnd. apply NoDup_cons in Hnd as [Hhn _].
  exists (H + 1). apply (ring_move H (H + 1) i _ q); try done; cbn.
  - lia.
  - rewrite (ri_tail _ _ _ _ _ Hi), Eq. rewrite !bool_decide_false by done. cbn. lia.
  - pose proof (ri_room _ _ _ _ _ Hi) as Hroom. rewrite Eq in Hroom. cbn in Hroom. lia.
  - intros k m b Hk. rewrite (ri_nodes _ _ _ _ _ Hi (S k) m b) by (by rewrite Eq). f_equal. lia.
  - intros k m b Hk. left. destruct (ri_ready _ _ _ _ _ Hi (S k) m b) as [?|[? _]]; [by rewrite Eq|done..].
  - intros m Hm. destruct (decide (m = h)) as [->|Hne]; [done|]. apply (ri_free _ _ _ _ _ Hi). rewrite Eq.
    by intros [?|?]%elem_of_cons.
  - rewrite (ri_head _ _ _ _ _ Hi). lia.
  - intros u op l Hu _ Hr'. by rewrite Hno in Hr'.
Qed.

Lemma step_store_ready i q token st f t op m n :
  proto q token st f → rinv i q st f → st t = SRun op (RStoreReady m n) →
  lins t op (RStoreReady m n) i q token st f.
Proof.
  intros Hp [H Hi] Et. destruct (ri_local _ _ _ _ _ Hi t op _ Et) as [Ef ->].
  destruct (po_owed _ _ _ _ Hp t (m, n)) as (k & b & Hk & Hk'); [by rewrite Et, Ef|]. cbn in Hk, Hk'.
  destruct (split_pair q k m n false b Hk Hk') as (q1 & q2 & Eq & <-).
  assert (sq_apply t (SetNext m n) q RSet (q1 ++ (m, true) :: (n, b) :: q2)) as Ha by (rewrite Eq; constructor).
  split; [done|]. eexists (inr _), _, _, _. split_and!; [done|exact Ha|by eapply proto_lin; [..|right]|].
  assert (∀ j, j ≠ length q1 → ∀ m' b', q !! j = Some (m', b') → m' ≠ m) as Hne.
  { intros j Hj m' b' Hj' ->. destruct Hj. apply (NoDup_lookup q.*1 j _ m (po_nodup _ _ _ _ Hp));
      by rewrite list_lookup_fmap, ?Hj', ?Hk. }
  exists H. apply (ring_move H H i _ q); try done; try apply Hi; cbn.
  - rewrite (ri_tail _ _ _ _ _ Hi), Eq. rewrite !bool_decide_false by (by intros [_ [=]]%app_eq_nil).
    by rewrite !length_app.
  - pose proof (ri_room _ _ _ _ _ Hi) as Hroom. rewrite Eq in Hroom. by rewrite !length_app in *.
  - intros j m' b' Hj. rewrite link_lookup, <-Eq in Hj. destruct (decide (j = length q1)) as [->|Hj'].
    + injection Hj as <- <-. by apply (ri_nodes _ _ _ _ _ Hi (length q1) m false).
    + by apply (ri_nodes _ _ _ _ _ Hi j m' b').
  - intros j m' b' Hj. rewrite link_lookup, <-Eq in Hj. destruct (decide (j = length q1)) as [->|Hj'].
    + injection Hj as <- <-. left. apply fn_lookup_insert.
    + rewrite fn_lookup_insert_ne by (apply not_eq_sym; by eapply Hne).
      destruct (ri_ready _ _ _ _ _ Hi j m' b' Hj) as [?|(Hj0 & u & op & Eu)]; [by left|right].
      split; [done|]. right. exists u, op. split; [|done]. intros ->. congruence.
  - intros m' Hm'. rewrite link_nodes, <-Eq in Hm'. rewrite fn_lookup_insert_ne.
    + by apply (ri_free _ _ _ _ _ Hi).
    + intros <-. destruct Hm'. apply list_elem_of_fmap. exists (m, false). split; [done|]. by eapply list_elem_of_lookup_2.
  - intros u op l Hu Eu Hr. split; [done|]. intros h Hh. rewrite link_lookup, <-Eq.
    destruct (decide (0%nat = length q1)) as [E0|E0]; [rewrite <-E0 in Hk; congruence|]. split; [done|].
    rewrite fn_lookup_insert_ne; [done|]. intros ->. by eapply Hne.
Qed.

(** The slot after the last one is not in use while there is room. *)
Lemma next_slot_fresh H i q st f :
  ring_inv H i q st f → Z.of_nat (length q) + 1 ≤ cap → (H + Z.of_nat (length q)) mod cap ∉ q.*1.
Proof using Hcap.
  intros Hi Hroom ([m b] & E & Hm)%list_elem_of_fmap. apply list_elem_of_lookup_1 in Hm as [k Hk]. cbn in E.
  rewrite (ri_nodes _ _ _ _ _ Hi k m b Hk) in E. apply lookup_lt_Some in Hk.
  pose proof (ri_pos _ _ _ _ _ Hi). apply slot_distinct in E; lia.
Qed.

(** A node is added. *)
Lemma ring_enqueue H i q st f t token l r tail' :
  proto q token st f → ring_inv H i q st f → st t = SRun StartLock l → (∀ m, l ≠ RMoveHead m) →
  Z.of_nat (length q) + 1 ≤ cap → tail' = 2 * (H + (Z.of_nat (length q) + 1)) - 1 →
  ring_inv H (rb_set_tail tail' i) (q ++ [((H + Z.of_nat (length q)) mod cap, false)])
    (<[t := SDone StartLock r]> st) (<[t := PDone r]> f).
Proof using Hcap.
  intros Hp Hi Et Hl Hroom ->. pose proof (next_slot_fresh _ _ _ _ _ Hi Hroom) as Hfresh.
  apply (ring_move H H i _ q); try done; try apply Hi; cbn.
  - rewrite bool_decide_false by (by intros [_ [=]]%app_eq_nil). rewrite length_app. cbn. lia.
  - rewrite length_app. cbn. lia.
  - intros k m b [Hk|[Hk Hm]]%lookup_app_Some; [by apply (ri_nodes _ _ _ _ _ Hi k m b)|].
    apply list_lookup_singleton_Some in Hm as [Hk' [= <- <-]]. f_equal. lia.
  - intros k m b [Hk|[Hk Hm]]%lookup_app_Some.
    + destruct (ri_ready _ _ _ _ _ Hi k m b Hk) as [?|(Hk0 & u & op' & Eu)]; [by left|right].
      split; [done|]. right. exists u, op'. split; [|done]. intros ->. rewrite Et in Eu. simplify_eq. by destruct (Hl m).
    + left. apply list_lookup_singleton_Some in Hm as [_ [= <- <-]]. by apply (ri_free _ _ _ _ _ Hi).
  - intros m Hm. apply (ri_free _ _ _ _ _ Hi). intros Hm'. destruct Hm. rewrite fmap_app. apply elem_of_app. by left.
  - intros u op' l' Hu _ Hr. split; [done|]. intros h Hq. split; [|done].
    by rewrite lookup_app_l by (apply lookup_lt_Some in Hq; lia).
Qed.

Lemma ring_step_cas_tail i q token st f t op hd tl :
  proto q token st f → rinv i q st f → st t = SRun op (RCasTail hd tl) →
  stays t op (RCasTail hd tl) i q token st f ∨ lins t op (RCasTail hd tl) i q token st f.
Proof using Hcap.
  intros Hp [H Hi] Et. destruct (ri_local _ _ _ _ _ Hi t op _ Et) as [Ef (-> & Hhd & Hroom)].
  pose proof (ri_pos _ _ _ _ _ Hi) as Hpos. pose proof (ri_tail _ _ _ _ _ Hi) as Htl.
  pose proof (ri_head _ _ _ _ _ Hi) as Hh.
  destruct (rb_tail i =? tl) eqn:Ecas.
  2: { left. eapply goes_on; [done|by exists H|done|done|cbn; by rewrite Ecas|done]. }
  right. apply Z.eqb_eq in Ecas as <-.
  pose proof (λ r tail', ring_enqueue H i q st f t token _ r tail' Hp Hi Et ltac:(done)) as Hinv.
  unfold SyncQueue.lins. cbn. rewrite Z.eqb_refl. split; [done|]. case_bool_decide as Hq.
  - subst q. cbn in Hinv. rewrite Z.add_0_r in Hinv. destruct (even_head H Hpos) as (Hev & Hsh & _).
    rewrite Htl, Hev, Hsh, (get_node_ok H) by lia. cbn. assert (2 * H + 1 = 2 * (H + 1) - 1) as -> by lia.
    destruct (odd_tail (H + 1)) as (_ & -> & _); [lia|]. replace (H + 1 - 1) with H by lia.
    rewrite get_node_ok by lia. cbn.
    eexists _, _, _, _. split_and!; [reflexivity|constructor| |exists H; apply Hinv; lia].
    by eapply proto_lin; [| | |constructor|right].
  - set (len := Z.of_nat (length q)) in *.
    destruct (odd_tail (H + len)) as (Hodd & Hs1 & Hs2); [destruct q; [done|subst len; cbn; lia]|].
    rewrite Htl, Hodd, Hs1, Hs2, !get_node_ok by (subst len; destruct q; [done|cbn; lia]). cbn.
    assert (len + 1 ≤ cap) as Hcap' by lia.
    assert (∃ q0, q = q0 ++ [((H + len - 1) mod cap, false)]) as [q0 Eq].
    { destruct q as [|[m b] q0 _] using rev_ind; [done|]. exists q0. do 2 f_equal. f_equal.
      - rewrite (ri_nodes _ _ _ _ _ Hi (length q0) m b).
        + f_equal. subst len. rewrite length_app. cbn. lia.
        + rewrite lookup_app_r, Nat.sub_diag by lia. done.
      - apply (po_last _ _ _ _ Hp m). apply last_snoc. }
    assert (sq_apply t StartLock q (REnqueued ((H + len - 1) mod cap) ((H + len) mod cap)) (q ++ [((H + len) mod cap, false)])) as Ha.
    { pose proof (next_slot_fresh _ _ _ _ _ Hi Hcap') as Hfresh. fold len in Hfresh. rewrite Eq in Hfresh |- *. by constructor. }
    eexists _, _, _, _. split_and!; [reflexivity|exact Ha|by eapply proto_lin; [..|right]|].
    exists H. apply Hinv; lia.
Qed.

Lemma ring_simulation : simulation (ring_buf_queue cap) sq_spec (sync_rel rinv).
Proof using Hcap.
  apply sync_simulation.
  - exists 0. apply ring_inv_init.
  - intros i q st f Hp [H Hi]. destruct q as [|[m b] q]; [by destruct (proj2 (po_locked _ _ _ _ Hp)); [by left|]|].
    cbn. unfold ring_head_idx. rewrite (ri_head _ _ _ _ _ Hi). pose proof (ri_pos _ _ _ _ _ Hi).
    destruct (even_head H) as (_ & -> & _); [done|]. rewrite Z.rem_mod_nonneg by lia.
    rewrite (ri_nodes _ _ _ _ _ Hi 0%nat m b eq_refl). by rewrite Z.add_0_r.
  - intros t op i q st f Hno [H Hi]. exists H. apply ring_keep; [done|by intros op' m; apply Hno|].
    intros op' l [= <- <-]. split; [done|]. by destruct op.
  - intros t op l i q token st f Hp Hi Et. destruct l; try (left; by apply step_goes_on).
    + by apply ring_step_cas_tail.
    + right. by apply step_store_ready.
    + right. by apply ring_step_unlockable.
    + right. by apply step_cas_unlock.
    + by apply step_load_ready.
    + left. by apply step_reset.
    + right. by apply step_move_head.
  - intros t op r i q st f Et [H Hi]. exists H. apply ring_keep; [done|by rewrite Et|].
    intros op' l E. by destruct op, r.
Qed.
End invariant.

(** C25: the ring buffer queue is linearizable to the same list of nodes as the
    MCS queue, for every capacity: a node is enqueued only when the list is
    shorter than the ring, its slot is in no other use, its flag is clear, and
    the counters and the index assertions of the code never fail. *)
Theorem ring_buf_linearizable cap h s :
  0 < cap → ob_runs (ring_buf_queue cap) h s →
  (∃ q f, spec_runs sq_spec h q f)
  ∧ (∀ t, so_status s t ≠ SFailed)
  ∧ ∀ t n, so_status s t = SDone StartLock (RLocked n) →
      so_token s = false ∧ ∀ u m, so_status s u = SDone StartLock (RLocked m) → u = t.
Proof. intros Hcap. exact (sync_correct _ _ _ _ _ h s (ring_simulation cap Hcap)). Qed.

(** With two nodes: thread 1 locks, thread 2 queues, thread 3 finds the ring
    full and retries until thread 1 has handed the lock over. *)
Definition demo_full : option (list (history_event nat sq_op sq_ret) * sq_state ring ring_pc) :=
  let steps n t := replicate n (SStep t) in
  schedule (ring_buf_queue 2)
    ([SCall 1%nat StartLock] ++ steps 3%nat 1%nat ++ [SRet 1%nat; SCall 2%nat StartLock] ++ steps 2%nat 2%nat
     ++ [SCall 3%nat StartLock] ++ steps 2%nat 3%nat ++ steps 1%nat 2%nat ++ steps 4%nat 3%nat
     ++ [SRet 2%nat; SCall 2%nat (SetNext 0 1)] ++ steps 2%nat 2%nat ++ [SRet 2%nat; SCall 1%nat (TryFollowHead 0)]
     ++ steps 3%nat 1%nat ++ [SRet 1%nat] ++ steps 4%nat 3%nat ++ [SRet 3%nat]) [] (so_init ring_init).

Lemma ring_buf_linearizable_witness :
  ∃ h s, demo_full = Some (h, s) ∧ rb_head (so_impl s) = 2 ∧ rb_tail (so_impl s) = 5
    ∧ ∃ q f, spec_runs sq_spec h q f.
Proof.
  destruct demo_full as [[h s]|] eqn:E; [|discriminate (eq_trans (eq_sym E) ltac:(vm_compute; reflexivity))].
  exists h, s. split; [reflexivity|].
  pose proof (ring_buf_linearizable 2 h s eq_refl
    (schedule_runs (ring_buf_queue 2) _ [] (so_init ring_init) h s (runs_init (ring_buf_queue 2)) E)) as [Hl _].
  vm_compute in E. injection E as <- <-. repeat split; try reflexivity. exact Hl.
Defined.
