(* ===== verification/Delegator.v ===== *)
(** The delegation lock of cmpth, basic_sync_delegator.hpp, and the suspended
    threads it hands the lock to, basic_suspended_thread.hpp.

    The queue is what SyncQueue specifies, so every result holds for the MCS
    queue and for the ring buffer; the consumer is an interface, whose laws the
    proxies of meqdc have to meet. A thread is a number, the consumer thread is
    thread 0, and a step is one call of the queue or one piece of code between
    two of them: the fields it touches are accessed by the thread that holds the
    lock only, which is one of the theorems. *)
From Stdlib Require Import ZArith Lia.
From stdpp Require Import base tactics functions list gmap.
From S2P Require Import Prelude.
From S2P Require Import Linear.
From S2P Require Import SyncQueue.
From S2P Require Import LockQueue.

(** * The consumer *)

(** Where [execute] moves the thread in the [wait_sth] of the function. *)
Inductive wait_move := WmStay | WmStore (obj : Z) | WmReturn.

(** What the delegator needs of a [consumer_type]; [obj] is an object that
    holds a suspended thread, such as a request of the MPI proxy. *)
Class Consumer (C F : Type) := {
  con_is_active : C → bool;
  (** what [delegate_func] writes outside the node *)
  con_delegate : F → C → C;
  con_execute : F → C → result (bool * wait_move * C);
  (** the objects whose threads it notifies, the one whose thread it returns *)
  con_progress : C → result (list Z * option Z * C);
  (** a wait for an object: whether there is nothing to wait for, and the
      functor that tells whether to stay suspended *)
  con_poll : Z → C → result bool;
  con_try_wait : Z → C → bool * C;
}.

Section delegator.
Context {C F : Type} {HC : Consumer C F}.

(** The result of an [imm_exec_func]: executed, and where the caller waits. *)
Abbreviation imm_exec := (C → result (bool * option Z * C)).

(** Where a thread waits: in its node, in the function it delegated, or in an
    object. *)
Inductive wait_loc := LNode | LFunc | LObj (obj : Z).

(** Why a thread called [lock_or_delegate]. *)
Inductive lock_goal :=
| GLock
| GExec (imm : imm_exec) (func : F) (wait : option wait_loc)
| GStop.

(** Where a suspended thread goes on; [cur] is its node. *)
Inductive resume :=
| ResLock (cur : Z)              (** returns from lock *)
| ResStop (cur : Z)              (** goes on in stop_consumer *)
| ResDelegated (cur obj : Z)     (** returns from lock_or_delegate *)
| ResFunc (cur : Z)              (** the same, having waited in the function *)
| ResWait (obj : Z)              (** returns from unlock_and_wait, or from a wait *)
| ResConsume.                    (** goes on in consumer_main *)

(** How the thread unlocks. *)
Inductive unlock_kind := UPlain | UWait (obj : Z) | UStop (is_active : bool).

(** Where a thread is; the comments name the code that comes next. *)
Inductive del_pc :=
| DIdle
| DHolds                                        (** inside a critical section *)
| DSuspended (r : resume)
| DFailed
(* lock_or_delegate *)
| DStartLock (g : lock_goal)                    (** start_lock *)
| DDelegate (prev cur : Z) (g : lock_goal)      (** call delegate_func *)
| DWait (prev cur : Z) (l : wait_loc) (r : resume)  (** wait_with: save the continuation *)
| DOnWait (prev cur : Z) (l : wait_loc) (r : resume) (** on_wait_delegate: set_next *)
| DSetNext (prev cur : Z)                       (** set_next *)
(* execute_or_delegate, stop_consumer *)
| DImmExec (imm : imm_exec) (func : F)          (** call imm_exec_func *)
| DStopping                                     (** finished_ := true *)
| DStopNotify (is_active : bool)                (** con_sth_.notify() *)
| DJoin                                         (** con_th_.join() *)
(* unlock, unlock_and_wait *)
| DUnlock (u : unlock_kind)                     (** is_executed_ := true, get_head *)
| DTryUnlock (u : unlock_kind) (head : Z)       (** try_unlock *)
| DCheckUnlock (obj head : Z)                   (** is_unlockable *)
| DSaveWait (obj head : Z)                      (** wait_with: save the continuation *)
| DOnUnlock (obj head : Z)                      (** try_unlock_functor: try_unlock *)
| DFollow (u : unlock_kind) (head : Z)          (** try_follow_head *)
| DNext (u : unlock_kind) (next : Z)            (** is_executed_ := false, wake next *)
| DHelper (u : unlock_kind)                     (** wake the consumer *)
(* wait of a client for an object of the consumer *)
| DPoll (obj : Z)                               (** is there something to wait for? *)
| DWaitObj (obj : Z)                            (** wait_with: save the continuation *)
| DTryWait (obj : Z)                            (** the functor of the wait *)
(* consumer_main, consume *)
| KLoop                                         (** finished_, is_executed_, get_head *)
| KFollow (head : Z)                            (** try_follow_head *)
| KExecute (head : Z)                           (** execute, or swap with the next thread *)
| KProgress (is_executed do_progress : bool) (head : Z) (awake : option nat)  (** progress, is_active *)
| KCheckSwap (head : Z) (awake : nat)           (** is_unlockable *)
| KSaveSwap (head : Z) (awake : nat)            (** swap_with: save the continuation *)
| KOnSwap (head : Z) (awake : nat)              (** try_unlock_functor: try_unlock *)
| KCheckWait (head : Z)                         (** is_unlockable *)
| KSaveWait (head : Z)                          (** wait_with: save the continuation *)
| KOnWait (head : Z)                            (** try_unlock_functor: try_unlock *)
| KNotify (awake : option nat)                  (** awake_sth.notify() *)
| KExited.

(** A [sync_node]: [sth], [func] and the thread that waits in [func]. The last
    field records which function the node stands for. *)
Record del_node := DelNode {
  nd_sth : option nat;
  nd_func : option F;
  nd_wait : option nat;
  nd_task : option F;
}.

Record del := Del {
  dl_queue : sq_nodes;
  dl_nodes : Z → del_node;
  dl_executed : bool;        (** is_executed_ *)
  dl_con_sth : option nat;   (** con_sth_ *)
  dl_finished : bool;        (** finished_ *)
  dl_con : C;
  dl_objs : Z → option nat;  (** the threads suspended in objects *)
  dl_pcs : nat → del_pc;
  dl_enq : list F;           (** the functions of all calls, in the order of start_lock *)
  dl_done : list (F * bool); (** those executed, with the result of the execution *)
}.

Definition set_queue q s := Del q (dl_nodes s) (dl_executed s) (dl_con_sth s) (dl_finished s) (dl_con s) (dl_objs s) (dl_pcs s) (dl_enq s) (dl_done s).
Definition set_node n nd s := Del (dl_queue s) (<[n := nd]> (dl_nodes s)) (dl_executed s) (dl_con_sth s) (dl_finished s) (dl_con s) (dl_objs s) (dl_pcs s) (dl_enq s) (dl_done s).
Definition set_executed b s := Del (dl_queue s) (dl_nodes s) b (dl_con_sth s) (dl_finished s) (dl_con s) (dl_objs s) (dl_pcs s) (dl_enq s) (dl_done s).
Definition set_con_sth v s := Del (dl_queue s) (dl_nodes s) (dl_executed s) v (dl_finished s) (dl_con s) (dl_objs s) (dl_pcs s) (dl_enq s) (dl_done s).
Definition set_finished b s := Del (dl_queue s) (dl_nodes s) (dl_executed s) (dl_con_sth s) b (dl_con s) (dl_objs s) (dl_pcs s) (dl_enq s) (dl_done s).
Definition set_con c s := Del (dl_queue s) (dl_nodes s) (dl_executed s) (dl_con_sth s) (dl_finished s) c (dl_objs s) (dl_pcs s) (dl_enq s) (dl_done s).
Definition set_obj z v s := Del (dl_queue s) (dl_nodes s) (dl_executed s) (dl_con_sth s) (dl_finished s) (dl_con s) (<[z := v]> (dl_objs s)) (dl_pcs s) (dl_enq s) (dl_done s).
Definition set_dpc t c s := Del (dl_queue s) (dl_nodes s) (dl_executed s) (dl_con_sth s) (dl_finished s) (dl_con s) (dl_objs s) (<[t := c]> (dl_pcs s)) (dl_enq s) (dl_done s).
Definition log_enq fs s := Del (dl_queue s) (dl_nodes s) (dl_executed s) (dl_con_sth s) (dl_finished s) (dl_con s) (dl_objs s) (dl_pcs s) (dl_enq s ++ fs) (dl_done s).
Definition log_done f b s := Del (dl_queue s) (dl_nodes s) (dl_executed s) (dl_con_sth s) (dl_finished s) (dl_con s) (dl_objs s) (dl_pcs s) (dl_enq s) (dl_done s ++ [(f, b)]).

Definition set_sth n v s := let nd := dl_nodes s n in set_node n (DelNode v (nd_func nd) (nd_wait nd) (nd_task nd)) s.
Definition set_func n f s := let nd := dl_nodes s n in set_node n (DelNode (nd_sth nd) (Some f) (nd_wait nd) (nd_task nd)) s.
Definition set_wait n v s := let nd := dl_nodes s n in set_node n (DelNode (nd_sth nd) (nd_func nd) v (nd_task nd)) s.
Definition set_task n f s := let nd := dl_nodes s n in set_node n (DelNode (nd_sth nd) (nd_func nd) (nd_wait nd) f) s.

(** * Suspended threads *)

(** Saves the continuation of a thread; the place must be empty. *)
Definition save_sth (l : wait_loc) (cur : Z) (t : nat) (s : del) : result del :=
  match l with
  | LNode => _ ← assert_ (bool_decide (nd_sth (dl_nodes s cur) = None)); Ok (set_sth cur (Some t) s)
  | LFunc => _ ← assert_ (bool_decide (nd_wait (dl_nodes s cur) = None)); Ok (set_wait cur (Some t) s)
  | LObj z => _ ← assert_ (bool_decide (dl_objs s z = None)); Ok (set_obj z (Some t) s)
  end.

(** Where a thread continues that is resumed. *)
Definition resume_pc (r : resume) : del_pc :=
  match r with
  | ResLock _ => DHolds
  | ResStop _ => DStopping
  | ResDelegated _ _ | ResFunc _ | ResWait _ => DIdle
  | ResConsume => KLoop
  end.

(** [notify] and [enter] make a suspended thread runnable, [swap] does while
    it suspends the caller. *)
Definition wake (v : nat) (s : del) : result del :=
  match dl_pcs s v with
  | DSuspended r => Ok (set_dpc v (resume_pc r) s)
  | _ => Fail AssertionFailure
  end.

Fixpoint notify_all (objs : list Z) (s : del) : result del :=
  match objs with
  | [] => Ok s
  | z :: objs =>
      match dl_objs s z with
      | None => notify_all objs s
      | Some v => s ← wake v (set_obj z None s); notify_all objs s
      end
  end.

(** * Steps *)

Inductive del_next :=
| NBlocked
| NLocal (s : result del)
| NQueue (op : sq_op) (k : sq_ret → option (result del)).

Definition goal_task (g : lock_goal) : list F :=
  match g with GExec _ f _ => [f] | _ => [] end.

(** [start_lock] returned [cur]: the node stands for the function, if any. *)
Definition enqueue (cur : Z) (g : lock_goal) (s : del) : del :=
  log_enq (goal_task g) (set_task cur (head (goal_task g)) s).

Definition locked_pc (g : lock_goal) : del_pc :=
  match g with GLock => DHolds | GExec imm f _ => DImmExec imm f | GStop => DStopping end.

(** [delegate_func] ([on_lock_delegate] for lock): writes the function and
    tells where to wait. *)
Definition delegate (t : nat) (prev cur : Z) (g : lock_goal) (s : del) : del :=
  match g with
  | GLock => set_dpc t (DWait prev cur LNode (ResLock cur)) s
  | GStop => set_dpc t (DWait prev cur LNode (ResStop cur)) s
  | GExec _ f w =>
      let s := set_func cur f (set_con (con_delegate f (dl_con s)) s) in
      match w with
      | None => set_dpc t (DSetNext prev cur) s
      | Some (LObj z) => set_dpc t (DWait prev cur (LObj z) (ResDelegated cur z)) s
      | Some l => set_dpc t (DWait prev cur l (ResFunc cur)) s
      end
  end.

(** After [unlock] returned. *)
Definition unlocked_pc (u : unlock_kind) : del_pc :=
  match u with UStop is_active => DStopNotify is_active | _ => DIdle end.

(** The end of unlock and of unlock_and_wait: wakes thread [v], and suspends
    the caller in its object. *)
Definition hand_over (t v : nat) (u : unlock_kind) (s : del) : result del :=
  s ← wake v s;
  match u with
  | UWait z => s ← save_sth (LObj z) 0 t s; Ok (set_dpc t (DSuspended (ResWait z)) s)
  | _ => Ok (set_dpc t (unlocked_pc u) s)
  end.

Definition first_node (s : del) : result Z :=
  match dl_queue s with [] => Fail AssertionFailure | (h, _) :: _ => Ok h end.

Definition client_next (t : nat) (s : del) : del_next :=
  let go c := Ok (set_dpc t c s) in
  match dl_pcs s t with
  | DStartLock g =>
      NQueue StartLock (λ r, match r with
        | RLocked cur => Some (Ok (enqueue cur g (set_dpc t (locked_pc g) s)))
        | REnqueued prev cur => Some (Ok (enqueue cur g (set_dpc t (DDelegate prev cur g) s)))
        | _ => None end)
  | DDelegate prev cur g => NLocal (Ok (delegate t prev cur g s))
  | DWait prev cur l r => NLocal (s ← save_sth l cur t s; Ok (set_dpc t (DOnWait prev cur l r) s))
  | DOnWait prev cur l r =>
      NQueue (SetNext prev cur) (λ ret, match ret with RSet => Some (go (DSuspended r)) | _ => None end)
  | DSetNext prev cur =>
      NQueue (SetNext prev cur) (λ ret, match ret with RSet => Some (go DIdle) | _ => None end)
  | DImmExec imm f =>
      NLocal (r ← imm (dl_con s);
              let '(ret, w, c) := r in
              Ok (set_dpc t (DUnlock (match w with Some z => UWait z | None => UPlain end))
                (log_done f ret (set_executed ret (set_con c s)))))
  | DStopping =>
      NLocal (Ok (set_dpc t (DUnlock (UStop (con_is_active (dl_con s)))) (set_finished true s)))
  | DStopNotify is_active =>
      NLocal (if is_active then go DJoin
              else match dl_con_sth s with
                   | None => Fail AssertionFailure
                   | Some v => s ← wake v (set_con_sth None s); Ok (set_dpc t DJoin s)
                   end)
  | DJoin => match dl_pcs s O with KExited => NLocal (go DIdle) | _ => NBlocked end
  | DUnlock u =>
      NLocal (head ← first_node s;
              let s := set_executed true s in
              if con_is_active (dl_con s) then Ok (set_dpc t (DFollow u head) s)
              else match u with
                   | UWait z => Ok (set_dpc t (DCheckUnlock z head) s)
                   | _ => Ok (set_dpc t (DTryUnlock u head) s)
                   end)
  | DTryUnlock u head =>
      NQueue (TryUnlock head) (λ r, match r with
        | RBool true => Some (go (unlocked_pc u)) | RBool false => Some (go (DFollow u head)) | _ => None end)
  | DCheckUnlock z head =>
      NQueue (IsUnlockable head) (λ r, match r with
        | RBool true => Some (go (DSaveWait z head)) | RBool false => Some (go (DFollow (UWait z) head))
        | _ => None end)
  | DSaveWait z head => NLocal (s ← save_sth (LObj z) 0 t s; Ok (set_dpc t (DOnUnlock z head) s))
  | DOnUnlock z head =>
      NQueue (TryUnlock head) (λ r, match r with
        | RBool true => Some (go (DSuspended (ResWait z)))
        | RBool false =>
            Some (_ ← assert_ (bool_decide (is_Some (dl_objs s z)));
                  Ok (set_dpc t (DFollow (UWait z) head) (set_obj z None s)))
        | _ => None end)
  | DFollow u head =>
      NQueue (TryFollowHead head) (λ r, match r with
        | RNext (Some next) => Some (go (DNext u next)) | RNext None => Some (go (DHelper u)) | _ => None end)
  | DNext u next =>
      let s := set_executed false s in
      NLocal (match nd_sth (dl_nodes s next) with
              | Some v => hand_over t v u (set_sth next None s)
              | None => Ok (set_dpc t (DHelper u) s)
              end)
  | DHelper u =>
      NLocal (match dl_con_sth s with
              | Some v => hand_over t v u (set_con_sth None s)
              | None => Fail AssertionFailure
              end)
  | DPoll z => NLocal (ready ← con_poll z (dl_con s); go (if ready : bool then DIdle else DWaitObj z))
  | DWaitObj z => NLocal (s ← save_sth (LObj z) 0 t s; Ok (set_dpc t (DTryWait z) s))
  | DTryWait z =>
      let '(ret, c) := con_try_wait z (dl_con s) in
      let s := set_con c s in
      NLocal (if ret : bool then Ok (set_dpc t (DSuspended (ResWait z)) s)
              else _ ← assert_ (bool_decide (is_Some (dl_objs s z)));
                   Ok (set_dpc t DIdle (set_obj z None s)))
  | _ => NBlocked
  end.

(** [consume]: the consumer thread with the lock. *)
Definition save_con_sth (s : del) : result del :=
  _ ← assert_ (bool_decide (dl_con_sth s = None)); Ok (set_con_sth (Some O) s).

Definition take_con_sth (s : del) : result del :=
  _ ← assert_ (bool_decide (is_Some (dl_con_sth s))); Ok (set_con_sth None s).

(** Moves the thread waiting in the function of a node. *)
Definition move_wait (head : Z) (mv : wait_move) (s : del) : option nat * del :=
  let v := nd_wait (dl_nodes s head) in
  match mv with
  | WmStay => (None, s)
  | WmStore z => (None, set_obj z v (set_wait head None s))
  | WmReturn => (v, set_wait head None s)
  end.

(** A delegated function that is executed ends the call at once: the thread
    that [execute] returned is dropped. *)
Definition execute_head (head : Z) (s : del) : result del :=
  match nd_func (dl_nodes s head) with
  | None => Fail OutOfBounds
  | Some f =>
      r ← con_execute f (dl_con s);
      let '(is_executed, mv, c) := r in
      let '(awake, s) := move_wait head mv (set_con c s) in
      if is_executed : bool then Ok (set_dpc O KLoop (log_done f true (set_executed true s)))
      else Ok (set_dpc O (KProgress false true head awake) s)
  end.

(** The progress function and the thread to wake after it. *)
Definition make_progress (awake : option nat) (s : del) : result (option nat * del) :=
  r ← con_progress (dl_con s);
  let '(objs, ret, c) := r in
  s ← notify_all objs (set_con c s);
  match ret with
  | None => Ok (awake, s)
  | Some z =>
      match dl_objs s z with
      | None => Ok (awake, s)
      | Some v =>
          s ← match awake with Some v => wake v s | None => Ok s end;
          Ok (Some v, set_obj z None s)
      end
  end.

Definition consumer_next (s : del) : del_next :=
  let go c := Ok (set_dpc O c s) in
  let suspend s := Ok (set_dpc O (DSuspended ResConsume) s) in
  match dl_pcs s O with
  | KLoop =>
      NLocal (if dl_finished s then go KExited
              else head ← first_node s; go (if dl_executed s then KFollow head else KExecute head))
  | KFollow head =>
      NQueue (TryFollowHead head) (λ r, match r with
        | RNext (Some next) => Some (go (KExecute next))
        | RNext None => Some (go (KProgress true (con_is_active (dl_con s)) head None))
        | _ => None end)
  | KExecute head =>
      NLocal (match nd_sth (dl_nodes s head) with
              | Some v => s ← save_con_sth s; s ← wake v (set_sth head None s); suspend s
              | None => execute_head head s
              end)
  | KProgress is_executed do_progress head awake =>
      NLocal (r ← (if do_progress then make_progress awake s else Ok (awake, s));
              let '(awake, s) := r in
              let s := set_executed is_executed s in
              if negb (con_is_active (dl_con s)) && is_executed then
                match awake with
                | Some v => Ok (set_dpc O (KCheckSwap head v) s)
                | None => Ok (set_dpc O (KCheckWait head) s)
                end
              else Ok (set_dpc O (KNotify awake) s))
  | KCheckSwap head v =>
      NQueue (IsUnlockable head) (λ r, match r with
        | RBool true => Some (go (KSaveSwap head v)) | RBool false => Some (go (KNotify (Some v)))
        | _ => None end)
  | KSaveSwap head v => NLocal (s ← save_con_sth s; Ok (set_dpc O (KOnSwap head v) s))
  | KOnSwap head v =>
      NQueue (TryUnlock head) (λ r, match r with
        | RBool true => Some (s ← wake v s; suspend s)
        | RBool false => Some (s ← take_con_sth s; Ok (set_dpc O (KNotify (Some v)) s))
        | _ => None end)
  | KCheckWait head =>
      NQueue (IsUnlockable head) (λ r, match r with
        | RBool true => Some (go (KSaveWait head)) | RBool false => Some (go (KNotify None)) | _ => None end)
  | KSaveWait head => NLocal (s ← save_con_sth s; Ok (set_dpc O (KOnWait head) s))
  | KOnWait head =>
      NQueue (TryUnlock head) (λ r, match r with
        | RBool true => Some (suspend s)
        | RBool false => Some (s ← take_con_sth s; Ok (set_dpc O (KNotify None) s))
        | _ => None end)
  | KNotify awake =>
      NLocal (match awake with
              | Some v => s ← wake v s; Ok (set_dpc O KLoop s)
              | None => go KLoop
              end)
  | _ => NBlocked
  end.

Definition next_of (t : nat) (s : del) : del_next :=
  match t with O => consumer_next s | S _ => client_next t s end.

Definition settle (t : nat) (s : del) (m : result del) : del :=
  match m with Ok s => s | Fail _ => set_dpc t DFailed s end.

(** A step of a thread; a call of the queue is one step of its specification. *)
Definition del_step (t : nat) (s s' : del) : Prop :=
  match next_of t s with
  | NBlocked => False
  | NLocal m => s' = settle t s m
  | NQueue op k =>
      ∃ r q m, sq_apply t op (dl_queue s) r q ∧ k r = Some m ∧ s' = set_queue q (settle t s m)
  end.

(** * Calls *)

Inductive del_call :=
| CLock
| CUnlock
| CUnlockWait (obj : Z)
| CUse (g : C → C)     (** the critical section uses the consumer's state *)
| COwn (g : C → C)     (** a thread outside prepares or returns a request of its own *)
| CExec (imm : imm_exec) (func : F) (wait : option wait_loc)
| CWaitObj (obj : Z)
| CStop.

Definition call_pc (c : del_pc) (op : del_call) : option del_pc :=
  match c, op with
  | DIdle, CLock => Some (DStartLock GLock)
  | DIdle, CExec imm f w => Some (DStartLock (GExec imm f w))
  | DIdle, CWaitObj z => Some (DPoll z)
  | DIdle, COwn _ => Some DIdle
  | DIdle, CStop => Some (DStartLock GStop)
  | DHolds, CUse _ => Some DHolds
  | DHolds, CUnlock => Some (DUnlock UPlain)
  | DHolds, CUnlockWait z => Some (DUnlock (UWait z))
  | _, _ => None
  end.

Definition do_call (t : nat) (op : del_call) (s : del) : option del :=
  match t, call_pc (dl_pcs s t) op with
  | S _, Some c => Some (set_dpc t c (match op with CUse g | COwn g => set_con (g (dl_con s)) s | _ => s end))
  | _, _ => None
  end.

(** [start_consumer] took the lock with [node], set [con_] and started the
    consumer thread. *)
Definition start_consumer (node : Z) (c : C) : del :=
  Del [(node, false)] (λ _, DelNode None None None None) true None false c (λ _, None)
    (λ t, match t with O => KLoop | S _ => DIdle end) [] [].

Inductive del_runs (c0 : C) (allowed : nat → del_call → del → Prop) : del → Prop :=
| dr_start node : del_runs c0 allowed (start_consumer node c0)
| dr_call t op s s' : del_runs c0 allowed s → allowed t op s → do_call t op s = Some s' → del_runs c0 allowed s'
| dr_step t s s' : del_runs c0 allowed s → del_step t s s' → del_runs c0 allowed s'.
End delegator.

(** * Executable runs *)

Section runs.
Context {C F : Type} {HC : Consumer C F}.

(** A step of a thread, or one that calls [start_lock] and gets [node]. *)
Definition run_step (t : nat) (node : Z) (s : del (C := C) (F := F)) : option (del (C := C) (F := F)) :=
  match next_of t s with
  | NBlocked => None
  | NLocal m => Some (settle t s m)
  | NQueue op k =>
      match sq_exec node op (dl_queue s) with
      | Some (r, q) => m ← k r; Some (set_queue q (settle t s m))
      | None => None
      end
  end.

Lemma run_step_sound t node s s' : run_step t node s = Some s' → del_step t s s'.
Proof.
  unfold run_step, del_step. destruct (next_of t s) as [|m|op k]; [done|by intros [= <-]|].
  destruct (sq_exec node op (dl_queue s)) as [[r q]|] eqn:E; [|done].
  destruct (k r) as [m|] eqn:Ek; [|done]. intros [= <-].
  exists r, q, m. split_and!; [by eapply sq_exec_sound|done..].
Qed.

Inductive del_event := EvCall (t : nat) (op : del_call (C := C) (F := F)) | EvStep (t : nat) (node : Z).

Fixpoint run (es : list del_event) (s : del (C := C) (F := F)) : option (del (C := C) (F := F)) :=
  match es with
  | [] => Some s
  | EvCall t op :: es => s ← do_call t op s; run es s
  | EvStep t node :: es => s ← run_step t node s; run es s
  end.

(** A run whose calls are all allowed at the time they are made. *)
Fixpoint calls_allowed (allowed : nat → del_call → del → Prop) (es : list del_event)
    (s : del (C := C) (F := F)) : Prop :=
  match es with
  | [] => True
  | EvCall t op :: es =>
      allowed t op s ∧ match do_call t op s with Some s => calls_allowed allowed es s | None => True end
  | EvStep t node :: es =>
      match run_step t node s with Some s => calls_allowed allowed es s | None => True end
  end.

Lemma calls_allowed_intro allowed es s :
  (∀ k t op s', es !! k = Some (EvCall t op) → run (take k es) s = Some s' → allowed t op s') →
  calls_allowed allowed es s.
Proof.
  revert s. induction es as [|[t op|t node] es IH]; intros s H; cbn; [done| |].
  - split; [by apply (H O)|]. destruct (do_call t op s) as [s1|] eqn:E; [|done].
    apply IH. intros k t' op' s' Hk Hr. apply (H (S k)); [done|]. cbn. by rewrite E.
  - destruct (run_step t node s) as [s1|] eqn:E; [|done].
    apply IH. intros k t' op' s' Hk Hr. apply (H (S k)); [done|]. cbn. by rewrite E.
Qed.

Lemma run_runs c0 allowed es s s' :
  del_runs c0 allowed s → calls_allowed allowed es s → run es s = Some s' → del_runs c0 allowed s'.
Proof.
  revert s. induction es as [|[t op|t node] es IH]; intros s Hs Ha E; cbn in *; [by injection E as <-| |].
  - destruct (do_call t op s) as [s1|] eqn:E1; [|done]. destruct Ha as [Ha Hes].
    apply (IH s1); [by eapply dr_call|done|done].
  - destruct (run_step t node s) as [s1|] eqn:E1; [|done].
    apply (IH s1); [by eapply dr_step, run_step_sound|done|done].
Qed.
End runs.
