(* ===== verification/DelegatorInv.v ===== *)
(** The invariant of the delegation lock: who holds it, what its nodes contain,
    where threads are suspended, and in which order functions are executed.

    The invariant has four parts, over the queue, the nodes, the suspended
    threads and the functions; a step moves one thread, or two when it wakes
    another one, and each part has lemmas for the moves that matter to it. *)
From Stdlib Require Import ZArith Lia.
From stdpp Require Import base tactics functions list gmap.
From S2P Require Import Prelude.
From S2P Require Import Linear.
From S2P Require Import SyncQueue.
From S2P Require Import LockQueue.
From S2P Require Import Delegator.

(** * What a consumer promises

    [con_polled] are the requests it polls, [con_used] those it polls or has
    completed, [con_waits] those whose state says that a thread waits for them; [func_req] is the request of a function, and
    [func_obj] the same if the caller blocks. *)
Class ConsumerLaws (C F : Type) {HC : Consumer C F} := {
  con_ok : C → Prop;
  func_req : F → option Z;
  func_obj : F → option Z;
  con_polled : C → Z → Prop;
  con_used : C → Z → Prop;
  con_waits : C → Z → Prop;
  func_obj_req f z : func_obj f = Some z → func_req f = Some z;
  polled_active c z : con_ok c → con_polled c z → con_is_active c = true;
  delegate_law f c :
    con_ok c → (∀ z, func_req f = Some z → ¬ con_used c z) →
    con_ok (con_delegate f c) ∧ con_is_active (con_delegate f c) = con_is_active c
    ∧ (∀ z, con_used (con_delegate f c) z ↔ con_used c z)
    ∧ (∀ z, con_waits (con_delegate f c) z → con_waits c z ∨ func_obj f = Some z);
  execute_law f c :
    con_ok c → (∀ z, func_req f = Some z → ¬ con_used c z) →
    ∃ b c', con_execute f c = Ok (b, WmStay, c') ∧ con_ok c'
      ∧ (∀ z, con_used c' z ↔ con_used c z ∨ b = true ∧ func_req f = Some z)
      ∧ (∀ z, con_waits c' z → con_waits c z);
  progress_law c :
    con_ok c →
    ∃ zs r c', con_progress c = Ok (zs, r, c') ∧ con_ok c' ∧ NoDup (zs ++ option_list r)
      ∧ (∀ z, z ∈ zs ++ option_list r → con_used c z ∧ con_waits c z ∧ ¬ con_used c' z)
      ∧ (∀ z, con_used c' z → con_used c z)
      ∧ (∀ z, con_waits c' z → con_waits c z);
  poll_law z c : con_ok c → ¬ con_waits c z → ∃ b, con_poll z c = Ok b;
  try_wait_law z c :
    con_ok c → ¬ con_waits c z → ∃ b c', con_try_wait z c = (b, c') ∧ con_ok c'
      ∧ con_is_active c' = con_is_active c ∧ (∀ z', con_used c' z' ↔ con_used c z')
      ∧ (∀ z', con_waits c' z' → con_waits c z' ∨ b = true ∧ z' = z);
}.

Section invariant.
Context {C F : Type} {HC : Consumer C F} {HL : ConsumerLaws C F}.

Abbreviation del := (del (C := C) (F := F)).
Abbreviation pc := (del_pc (C := C) (F := F)).
Abbreviation goal := (lock_goal (C := C) (F := F)).
Implicit Types (q : sq_nodes) (pcs : nat → pc) (t u v : nat) (m n h z : Z) (p : pc) (c : C).

(** * The lock and the queue *)

Definition has_lock p : bool :=
  match p with
  | DHolds | DImmExec _ _ | DStopping | DUnlock _ | DTryUnlock _ _ | DCheckUnlock _ _ | DSaveWait _ _
  | DOnUnlock _ _ | DFollow _ _ | DNext _ _ | DHelper _ | KLoop | KFollow _ | KExecute _ | KProgress _ _ _ _
  | KCheckSwap _ _ | KSaveSwap _ _ | KOnSwap _ _ | KCheckWait _ | KSaveWait _ | KOnWait _ | KNotify _ => true
  | _ => false
  end.

(** The node the thread links, and the one it links it to. *)
Definition linking p : option (Z * Z) :=
  match p with
  | DDelegate m n _ | DWait m n _ _ | DOnWait m n _ _ | DSetNext m n => Some (m, n)
  | _ => None
  end.

(** The head of the queue, as the thread remembers it. *)
Definition pc_head p : option Z :=
  match p with
  | DTryUnlock _ h | DCheckUnlock _ h | DSaveWait _ h | DOnUnlock _ h | DFollow _ h | DNext _ h
  | KFollow h | KExecute h | KProgress _ _ h _ | KCheckSwap h _ | KSaveSwap h _ | KOnSwap h _
  | KCheckWait h | KSaveWait h | KOnWait h => Some h
  | _ => None
  end.

Abbreviation lock_inv := (LockQueue.lock_inv has_lock linking pc_head).

(** * The nodes *)

(** The head of the queue is not executed yet. *)
Definition todo p (executed : bool) : bool :=
  match p with
  | DNext _ _ | KExecute _ => true
  | DHelper _ | KLoop | KNotify _ => negb executed
  | KProgress e _ _ _ => negb e
  | _ => false
  end.

(** A node is complete: a thread waits in it, or it holds its function. *)
Definition filled (nd : del_node (F := F)) : Prop :=
  match nd_task nd with
  | None => is_Some (nd_sth nd)
  | Some f => nd_sth nd = None ∧ nd_func nd = Some f
  end.

Definition node_local (nodes : Z → del_node (F := F)) t p : Prop :=
  match p with
  | DDelegate _ n g => nd_sth (nodes n) = None ∧ nd_task (nodes n) = head (goal_task g)
  | DWait _ n l r =>
      nd_sth (nodes n) = None
      ∧ (l = LNode ∧ r = ResLock n ∧ nd_task (nodes n) = None
         ∨ ∃ z f, l = LObj z ∧ r = ResDelegated n z ∧ nd_task (nodes n) = Some f ∧ nd_func (nodes n) = Some f
             ∧ func_obj f = Some z)
  | DOnWait _ n l r =>
      l = LNode ∧ r = ResLock n ∧ nd_task (nodes n) = None ∧ nd_sth (nodes n) = Some t
      ∨ ∃ z f, l = LObj z ∧ r = ResDelegated n z ∧ nd_task (nodes n) = Some f ∧ nd_func (nodes n) = Some f
          ∧ func_obj f = Some z ∧ nd_sth (nodes n) = None
  | DSetNext _ n => nd_sth (nodes n) = None ∧ ∃ f, nd_task (nodes n) = Some f ∧ nd_func (nodes n) = Some f
  | DSuspended (ResLock n) => nd_sth (nodes n) = Some t
  | _ => True
  end.

Record node_inv q (nodes : Z → del_node (F := F)) (executed : bool) pcs : Prop := {
  ni_linked k m n b : q !! k = Some (m, true) → q !! S k = Some (n, b) → filled (nodes n);
  ni_head t h b q' :
    has_lock (pcs t) = true → q = (h, b) :: q' →
    if todo (pcs t) executed then filled (nodes h) else nd_sth (nodes h) = None;
  ni_clean n : n ∉ q.*1 → nd_sth (nodes n) = None;
  ni_sth n v :
    nd_sth (nodes n) = Some v →
    pcs v = DSuspended (ResLock n) ∨ ∃ m, pcs v = DOnWait m n LNode (ResLock n);
  ni_local t : node_local nodes t (pcs t);
}.

(** * The suspended threads *)

Definition unlock_obj (u : unlock_kind) : option Z :=
  match u with UWait z => Some z | _ => None end.

(** The object that belongs to the thread. *)
Definition claims p : option Z :=
  match p with
  | DStartLock (GExec _ f _) => func_req f
  | DDelegate _ _ (GExec _ f _) | DImmExec _ f => func_obj f
  | DWait _ _ (LObj z) _ | DOnWait _ _ (LObj z) _ | DSuspended (ResDelegated _ z) | DSuspended (ResWait z)
  | DCheckUnlock z _ | DSaveWait z _ | DOnUnlock z _ | DPoll z | DWaitObj z | DTryWait z => Some z
  | DUnlock u | DFollow u _ | DNext u _ | DHelper u => unlock_obj u
  | _ => None
  end.

Definition awake_of p : option nat :=
  match p with
  | KProgress _ _ _ awake | KNotify awake => awake
  | KCheckSwap _ v | KSaveSwap _ v | KOnSwap _ v => Some v
  | _ => None
  end.

(** What [imm_exec_func] has to do while the consumer is inactive: it executes
    the function. *)
Definition imm_ok (imm : C → result (bool * option Z * C)) (f : F) : Prop :=
  ∀ c, con_ok c → con_is_active c = false → (∀ z, func_req f = Some z → ¬ con_used c z) →
  ∃ w c', imm c = Ok (true, w, c') ∧ con_ok c' ∧ (w = None ∨ w = func_obj f)
    ∧ (∀ z, con_used c' z ↔ con_used c z ∨ func_req f = Some z)
    ∧ (∀ z, con_waits c' z → con_waits c z ∨ w = Some z).

Definition goal_ok (g : goal) : Prop :=
  match g with
  | GLock => True
  | GExec imm f w => imm_ok imm f ∧ w = LObj <$> func_obj f
  | GStop => False
  end.

Definition reqs (pend : list F) : list Z := omap func_req pend.

(** No thread stops the consumer, and the calls are well-formed. *)
Definition pc_ok p : Prop :=
  match p with
  | DFailed | KExited | DStopping | DStopNotify _ | DJoin => False
  | DSuspended (ResStop _) | DSuspended (ResFunc _) => False
  | DUnlock (UStop _) | DTryUnlock (UStop _) _ | DTryUnlock (UWait _) _ | DFollow (UStop _) _
  | DNext (UStop _) _ | DHelper (UStop _) => False
  | DStartLock g | DDelegate _ _ g => goal_ok g
  | DImmExec imm f => imm_ok imm f
  | KProgress _ _ _ awake => awake = None
  | _ => True
  end.

(** The thread is saved in its object. *)
Definition saved p : bool :=
  match p with
  | DOnWait _ _ _ _ | DSuspended _ | DOnUnlock _ _ | DTryWait _ => true
  | _ => false
  end.

Definition suspended p : bool :=
  match p with DSuspended _ => true | _ => false end.

(** The state of the object does not tell yet that the thread waits for it. *)
Definition unused p : bool :=
  match p with DStartLock _ | DImmExec _ _ | DPoll _ | DWaitObj _ | DTryWait _ => true | _ => false end.

Definition starting p : bool :=
  match p with DStartLock _ => true | _ => false end.

Definition suspended_in z p : Prop := p = DSuspended (ResWait z) ∨ ∃ n, p = DSuspended (ResDelegated n z).

Record obj_local (con : C) (objs : Z → option nat) (pend : list F) pcs t p : Prop := {
  ol_pc : pc_ok p;
  ol_place z :
    claims p = Some z →
    objs z = (if saved p then Some t else None)
    ∨ suspended p = true ∧ objs z = None ∧ awake_of (pcs O) = Some t;
  ol_unused z : claims p = Some z → unused p = true → ¬ con_waits con z;
  ol_starting z : claims p = Some z → starting p = true → ¬ con_used con z ∧ z ∉ reqs pend;
  ol_imm imm f : p = DImmExec imm f → head pend = Some f;
  ol_awake v : awake_of p = Some v → t = O ∧ ∃ z, suspended_in z (pcs v) ∧ objs z = None;
}.

Record obj_inv (con : C) (objs : Z → option nat) (pend : list F) pcs : Prop := {
  oi_ok : con_ok con;
  oi_unique t u z : claims (pcs t) = Some z → claims (pcs u) = Some z → t = u;
  oi_objs z v : objs z = Some v → claims (pcs v) = Some z;
  oi_waits z :
    con_used con z ∨ z ∈ reqs pend → con_waits con z →
    is_Some (objs z) ∨ ∃ u, claims (pcs u) = Some z ∧ (has_lock (pcs u) = true ∨ is_Some (linking (pcs u)));
  oi_nodup : NoDup (reqs pend);
  oi_pend z : z ∈ reqs pend → ¬ con_used con z;
  oi_local t : obj_local con objs pend pcs t (pcs t);
}.

(** * The consumer thread *)

Definition is_consumer_pc p : bool :=
  match p with
  | DSuspended ResConsume | KLoop | KFollow _ | KExecute _ | KProgress _ _ _ _ | KCheckSwap _ _ | KSaveSwap _ _
  | KOnSwap _ _ | KCheckWait _ | KSaveWait _ | KOnWait _ | KNotify _ | KExited => true
  | _ => false
  end.

(** The continuation of the consumer thread is saved. *)
Definition con_saved p : bool :=
  match p with DSuspended ResConsume | KOnSwap _ _ | KOnWait _ => true | _ => false end.

(** The thread found the consumer inactive. *)
Definition saw_inactive p : bool :=
  match p with
  | DImmExec _ _ | DTryUnlock _ _ | DCheckUnlock _ _ | DSaveWait _ _ | DOnUnlock _ _ | KCheckSwap _ _
  | KSaveSwap _ _ | KOnSwap _ _ | KCheckWait _ | KSaveWait _ | KOnWait _ => true
  | _ => false
  end.

Record con_inv q (con : C) (con_sth : option nat) (finished : bool) pcs : Prop := {
  ki_thread t : is_consumer_pc (pcs t) = true ↔ t = O;
  ki_sth : con_sth = if con_saved (pcs O) then Some O else None;
  ki_inactive t : saw_inactive (pcs t) = true → con_is_active con = false;
  ki_free : q = [] → con_is_active con = false;
  ki_finished : finished = false;
}.

(** * The functions *)

Definition undone p (executed : bool) : bool :=
  todo p executed || match p with DImmExec _ _ => true | _ => false end.

Definition tasks (nodes : Z → del_node (F := F)) q : list F := omap (λ n, nd_task (nodes n)) q.*1.

(** The functions not executed yet, from the front of the queue. *)
Definition pending_tasks (enq : list F) (dn : list (F * bool)) : list F := drop (length dn) enq.

(** Functions are executed in the order of the queue, each with success. *)
Definition executed_prefix (enq : list F) (dn : list (F * bool)) : list (F * bool) :=
  (λ f, (f, true)) <$> take (length dn) enq.

(** The thread found the head executed. *)
Definition saw_executed p : bool :=
  match p with
  | DTryUnlock _ _ | DCheckUnlock _ _ | DSaveWait _ _ | DOnUnlock _ _ | DFollow _ _ | KFollow _
  | KCheckSwap _ _ | KSaveSwap _ _ | KOnSwap _ _ | KCheckWait _ | KSaveWait _ | KOnWait _ => true
  | _ => false
  end.

Record task_inv q nodes (executed : bool) pcs (enq : list F) (dn : list (F * bool)) : Prop := {
  ti_prefix : dn = executed_prefix enq dn;
  ti_lock t :
    has_lock (pcs t) = true →
    pending_tasks enq dn = tasks nodes (if undone (pcs t) executed then q else tail q);
  ti_free : q = [] → pending_tasks enq dn = [];
  ti_executed t : saw_executed (pcs t) = true → executed = true;
  ti_imm t imm f h b q' : pcs t = DImmExec imm f → q = (h, b) :: q' → nd_task (nodes h) = Some f;
}.

Record core_inv q nodes executed con con_sth finished pcs enq dn : Prop := {
  ci_lock : lock_inv q pcs;
  ci_node : node_inv q nodes executed pcs;
  ci_con : con_inv q con con_sth finished pcs;
  ci_task : task_inv q nodes executed pcs enq dn;
}.

Record del_inv (s : del) : Prop := {
  di_core :
    core_inv (dl_queue s) (dl_nodes s) (dl_executed s) (dl_con s) (dl_con_sth s) (dl_finished s) (dl_pcs s)
      (dl_enq s) (dl_done s);
  di_obj : obj_inv (dl_con s) (dl_objs s) (pending_tasks (dl_enq s) (dl_done s)) (dl_pcs s);
}.

(** * The contents of the nodes *)

(** The thread may be in a node. *)
Definition in_node p : bool :=
  match p with DSuspended (ResLock _) | DOnWait _ _ LNode (ResLock _) => true | _ => false end.

Lemma not_in_node q nodes ex pcs t n :
  node_inv q nodes ex pcs → in_node (pcs t) = false → nd_sth (nodes n) ≠ Some t.
Proof. intros Hi Ht [E|[m E]]%(ni_sth _ _ _ _ Hi); by rewrite E in Ht. Qed.

Ltac case_thread u t :=
  destruct (decide (u = t)) as [->|?]; rewrite ?fn_lookup_insert, ?(fn_lookup_insert_ne (A := nat)) by done.

Lemma node_move q nodes ex ex' pcs t p :
  lock_inv q pcs → node_inv q nodes ex pcs → node_local nodes t p → in_node (pcs t) = false →
  (has_lock (pcs t) = true ∨ ex' = ex) →
  (has_lock p = true → ∀ h b q', q = (h, b) :: q' → if todo p ex' then filled (nodes h) else nd_sth (nodes h) = None) →
  node_inv q nodes ex' (<[t := p]> pcs).
Proof.
  intros Hli Hi Hl Hin Hex Hh. constructor; try apply Hi.
  - intros u h b q'. case_thread u t; [by intros Hp; apply (Hh Hp h b)|]. intros Hu Hq.
    destruct Hex as [Ht| ->]; [by destruct (li_excl _ _ Hli u t Hu Ht)|]. by eapply (ni_head _ _ _ _ Hi).
  - intros n v Hv. case_thread v t; [by destruct (not_in_node _ _ _ _ _ n Hi Hin)|]. by apply (ni_sth _ _ _ _ Hi).
  - intros u. case_thread u t; [done|apply Hi].
Qed.

(** Thread [t] passes the lock to thread [v], and may take it out of the head. *)
Lemma node_pass q nodes nodes' ex ex' pcs t v p p' h b q' :
  node_inv q nodes ex pcs → lock_inv q pcs → q = (h, b) :: q' →
  has_lock (pcs t) = true → in_node (pcs t) = false → has_lock p = false → in_node p = false →
  (∀ n, n ≠ h → nodes' n = nodes n) →
  (∀ n, nd_sth (nodes' n) ≠ Some v) → (nd_sth (nodes h) = Some v ∧ nd_sth (nodes' h) = None ∨ nodes' h = nodes h) →
  (if todo p' ex' then filled (nodes' h) else nd_sth (nodes' h) = None) →
  node_local nodes' v p' → node_local nodes' t p → t ≠ v →
  node_inv q nodes' ex' (<[t := p]> (<[v := p']> pcs)).
Proof.
  intros Hi Hli Hq Ht Hin Hp Hinp Hn Hv Hh Hf Hlv Hlt Htv.
  pose proof (li_nodup _ _ Hli) as Hnd. rewrite Hq in Hnd. apply NoDup_cons in Hnd as [Hnd _].
  assert (∀ u m n, linking (pcs u) = Some (m, n) → nodes' n = nodes n) as Hlk.
  { intros u m n E. apply Hn. intros ->. rewrite Hq in Hli. by apply (head_not_linked _ _ _ _ u m Hli). }
  constructor.
  - intros k m n b' H1 H2. rewrite Hn; [by eapply (ni_linked _ _ _ _ Hi)|]. intros ->.
    apply Hnd, list_elem_of_fmap. exists (h, b'). split; [done|]. rewrite Hq in H2. by eapply list_elem_of_lookup_2.
  - intros u h' b' q''. case_thread u t; [by rewrite Hp|]. case_thread u v.
    + intros _ E. rewrite Hq in E. by injection E as <- <- <-.
    + intros Hu. by destruct (li_excl _ _ Hli u t Hu Ht).
  - intros n Hnq. rewrite Hn; [by apply (ni_clean _ _ _ _ Hi)|]. intros ->. apply Hnq. rewrite Hq. by left.
  - intros n w Hw. assert (nd_sth (nodes n) = Some w) as Hw'.
    { destruct (decide (n = h)) as [->|Hne]; [|by rewrite <-Hn]. destruct Hh as [[_ E]|<-]; [by rewrite E in Hw|done]. }
    case_thread w t; [by destruct (not_in_node _ _ _ _ _ n Hi Hin)|]. case_thread w v; [by destruct (Hv n)|].
    by apply (ni_sth _ _ _ _ Hi).
  - intros u. case_thread u t; [done|]. case_thread u v; [done|]. pose proof (ni_local _ _ _ _ Hi u) as Hu.
    destruct (pcs u) eqn:E; try done; cbn in *.
    + destruct r; try done. destruct (decide (cur = h)) as [->|Hne]; [|by rewrite Hn].
      destruct Hh as [[Hh _]|Hh]; [|by rewrite Hh]. congruence.
    + by rewrite (Hlk u prev cur) by (by rewrite E).
    + by rewrite (Hlk u prev cur) by (by rewrite E).
    + by rewrite (Hlk u prev cur) by (by rewrite E).
    + by rewrite (Hlk u prev cur) by (by rewrite E).
Qed.

(** A thread that links its node writes it. *)
Lemma node_write q nodes nodes' ex pcs t p m n :
  lock_inv q pcs → node_inv q nodes ex pcs → linking (pcs t) = Some (m, n) → linking p = Some (m, n) →
  has_lock p = false → (∀ n', n' ≠ n → nodes' n' = nodes n') → nd_sth (nodes n) = None →
  (nd_sth (nodes' n) = None ∨ nd_sth (nodes' n) = Some t ∧ p = DOnWait m n LNode (ResLock n)) →
  node_local nodes' t p → node_inv q nodes' ex (<[t := p]> pcs).
Proof.
  intros Hli Hi Ht Hp Hlp Hn Hold Hnew Hl.
  destruct (li_link _ _ Hli t _ Ht) as (k & b & Hk1 & Hk2). cbn in Hk1, Hk2.
  assert (∀ j b', q !! j = Some (n, b') → j = S k) as Hpos.
  { intros j b' Hj. eapply NoDup_lookup; [apply (li_nodup _ _ Hli)| |]; rewrite list_lookup_fmap.
    - by rewrite Hj.
    - by rewrite Hk2. }
  constructor.
  - intros j m' n' b' H1 H2. rewrite Hn; [by eapply (ni_linked _ _ _ _ Hi)|]. intros ->.
    apply Hpos in H2 as [= ->]. congruence.
  - intros u h b' q'. case_thread u t; [by rewrite Hlp|]. intros Hu Hq. rewrite Hn; [by eapply (ni_head _ _ _ _ Hi)|].
    intros ->. subst q. by specialize (Hpos 0%nat b' eq_refl).
  - intros n' Hn'. rewrite Hn; [by apply (ni_clean _ _ _ _ Hi)|]. intros ->. apply Hn'.
    apply list_elem_of_fmap. exists (n, b). split; [done|]. by eapply list_elem_of_lookup_2.
  - intros n' v Hv. destruct (decide (n' = n)) as [->|Hne].
    + destruct Hnew as [E|[E ->]]; rewrite E in Hv; [done|]. injection Hv as <-. rewrite fn_lookup_insert. eauto.
    + rewrite Hn in Hv by done. case_thread v t; [|by apply (ni_sth _ _ _ _ Hi)].
      apply (ni_sth _ _ _ _ Hi) in Hv as [E|[m' E]]; rewrite E in Ht; [done|]. by injection Ht as _ ->.
  - intros u. case_thread u t; [done|]. pose proof (ni_local _ _ _ _ Hi u) as Hu.
    assert (∀ m', linking (pcs u) = Some (m', n) → False) as Hlk.
    { intros m' E. by destruct (li_link_unique _ _ Hli u t m' m n E Ht). }
    destruct (pcs u) eqn:E; try done; cbn in *.
    + destruct r; try done. rewrite Hn; [done|]. intros ->. congruence.
    + destruct (decide (cur = n)) as [->|]; [by destruct (Hlk prev)|by rewrite Hn].
    + destruct (decide (cur = n)) as [->|]; [by destruct (Hlk prev)|by rewrite Hn].
    + destruct (decide (cur = n)) as [->|]; [by destruct (Hlk prev)|by rewrite Hn].
    + destruct (decide (cur = n)) as [->|]; [by destruct (Hlk prev)|by rewrite Hn].
Qed.

Lemma node_set_next q1 q2 nodes ex pcs t p m n b :
  node_inv (q1 ++ (m, false) :: (n, b) :: q2) nodes ex pcs →
  lock_inv (q1 ++ (m, false) :: (n, b) :: q2) pcs → linking (pcs t) = Some (m, n) →
  has_lock p = false → filled (nodes n) → node_local nodes t p →
  (in_node (pcs t) = true → p = DSuspended (ResLock n)) →
  node_inv (q1 ++ (m, true) :: (n, b) :: q2) nodes ex (<[t := p]> pcs).
Proof.
  intros Hi Hli Ht Hp Hf Hl Hin. constructor.
  - intros k m' n' b' H1 H2. rewrite link_lookup in H1, H2. destruct (decide (k = length q1)) as [->|Hk].
    + rewrite decide_False, lookup_app_r in H2 by lia.
      replace (S (length q1) - length q1)%nat with 1%nat in H2 by lia. by injection H2 as <- <-.
    + destruct (decide (S k = length q1)) as [E|E]; [|by eapply (ni_linked _ _ _ _ Hi)].
      injection H2 as <- <-. eapply (ni_linked _ _ _ _ Hi k m'); [done|]. by rewrite E, lookup_app_r, Nat.sub_diag.
  - intros u h b' q'. case_thread u t; [by rewrite Hp|]. intros Hu Hq.
    destruct q1 as [|[h' b''] q1]; injection Hq as <- <- <-; by eapply (ni_head _ _ _ _ Hi).
  - intros n'. rewrite link_nodes. apply (ni_clean _ _ _ _ Hi).
  - intros n' v Hv. case_thread v t; [|by apply (ni_sth _ _ _ _ Hi)].
    apply (ni_sth _ _ _ _ Hi) in Hv as [E|[m' E]]; rewrite E in Ht, Hin; [done|]. injection Ht as _ ->. left. by apply Hin.
  - intros u. case_thread u t; [done|apply Hi].
Qed.

(** A node that enters the queue. *)
Lemma node_enter q nodes nodes' ex pcs t p n :
  lock_inv q pcs → node_inv q nodes ex pcs → n ∉ q.*1 → in_node (pcs t) = false →
  (∀ n', nd_sth (nodes' n') = nd_sth (nodes n')) → (∀ n', n' ≠ n → nodes' n' = nodes n') →
  node_local nodes' t p → (has_lock p = true → q = [] ∧ todo p ex = false) →
  node_inv (q ++ [(n, false)]) nodes' ex (<[t := p]> pcs).
Proof.
  intros Hli Hi Hn Hin Hs Hn' Hl Htd. pose proof (ni_clean _ _ _ _ Hi n Hn) as Hnone.
  pose proof (li_last _ _ Hli) as Hlast.
  assert (∀ u m, linking (pcs u) = Some (m, n) → False) as Hlk.
  { intros u m E. apply Hn. by eapply unlinked_elem, (li_link _ _ Hli). }
  constructor.
  - intros k m n'' b H1 H2. apply lookup_lt_Some in H2 as Hlt'. rewrite length_app in Hlt'. cbn in Hlt'.
    rewrite lookup_app_l in H1 by lia. destruct (decide (S k = length q)) as [E|E].
    + rewrite last_lookup, <-E in Hlast. by apply Hlast in H1.
    + rewrite lookup_app_l in H2 by lia. rewrite Hn'; [by eapply (ni_linked _ _ _ _ Hi)|]. intros ->. apply Hn.
      apply list_elem_of_fmap. exists (n, b). split; [done|]. by eapply list_elem_of_lookup_2.
  - intros u h b q'. case_thread u t.
    + intros Hp. destruct (Htd Hp) as [-> ->]. intros [= <- <- <-]. by rewrite Hs.
    + intros Hu Hq. destruct q as [|[h' b'] q0]; injection Hq as <- <- <-.
      * by destruct (proj2 (li_free _ _ Hli) (ex_intro _ u Hu)).
      * rewrite Hn'; [by eapply (ni_head _ _ _ _ Hi)|]. intros ->. apply Hn. by left.
  - intros n'' Hnq. rewrite Hs. apply (ni_clean _ _ _ _ Hi). intros ?. apply Hnq. rewrite fmap_app. apply elem_of_app. by left.
  - intros n'' v. rewrite Hs. intros Hv. case_thread v t; [by destruct (not_in_node _ _ _ _ _ n'' Hi Hin)|].
    by apply (ni_sth _ _ _ _ Hi).
  - intros u. case_thread u t; [done|]. pose proof (ni_local _ _ _ _ Hi u) as Hu.
    destruct (pcs u) eqn:E; try done; cbn in *.
    + destruct r; try done. by rewrite Hs.
    + destruct (decide (cur = n)) as [->|]; [by destruct (Hlk u prev); rewrite E|by rewrite Hn'].
    + destruct (decide (cur = n)) as [->|]; [by destruct (Hlk u prev); rewrite E|by rewrite Hn'].
    + destruct (decide (cur = n)) as [->|]; [by destruct (Hlk u prev); rewrite E|by rewrite Hn'].
    + destruct (decide (cur = n)) as [->|]; [by destruct (Hlk u prev); rewrite E|by rewrite Hn'].
Qed.

(** The holder follows the head. *)
Lemma node_follow h n b q nodes ex pcs t p :
  node_inv ((h, true) :: (n, b) :: q) nodes ex pcs → lock_inv ((h, true) :: (n, b) :: q) pcs →
  has_lock (pcs t) = true → todo (pcs t) ex = false → in_node (pcs t) = false → todo p ex = true →
  node_local nodes t p → node_inv ((n, b) :: q) nodes ex (<[t := p]> pcs).
Proof.
  intros Hi Hli Ht Htd Hin Hp Hl. constructor.
  - intros k m' n' b' H1 H2. by eapply (ni_linked _ _ _ _ Hi (S k)).
  - intros u h' b' q' Hu [= <- <- <-].
    assert (filled (nodes n)) as Hf by by eapply (ni_linked _ _ _ _ Hi 0%nat).
    revert Hu. case_thread u t; [by rewrite Hp|]. intros Hu. by destruct (li_excl _ _ Hli u t Hu Ht).
  - intros n' Hn'. destruct (decide (n' = h)) as [->|Hne].
    + pose proof (ni_head _ _ _ _ Hi t h true _ Ht eq_refl) as H. by rewrite Htd in H.
    + apply (ni_clean _ _ _ _ Hi). by intros [->|?]%elem_of_cons.
  - intros n' v Hv. case_thread v t; [by destruct (not_in_node _ _ _ _ _ n' Hi Hin)|]. by apply (ni_sth _ _ _ _ Hi).
  - intros u. case_thread u t; [done|apply Hi].
Qed.

Lemma node_end h nodes ex pcs t p :
  node_inv [(h, false)] nodes ex pcs → has_lock (pcs t) = true → todo (pcs t) ex = false →
  (∀ u, has_lock (<[t := p]> pcs u) = false) → in_node (pcs t) = false → node_local nodes t p →
  node_inv [] nodes ex (<[t := p]> pcs).
Proof.
  intros Hi Ht Htd Hno Hin Hl. constructor; try done.
  - intros n _. destruct (decide (n = h)) as [->|Hne].
    + pose proof (ni_head _ _ _ _ Hi t h false _ Ht eq_refl) as H. by rewrite Htd in H.
    + apply (ni_clean _ _ _ _ Hi). by intros [->|?%elem_of_nil]%elem_of_cons.
  - intros n' v Hv. case_thread v t; [by destruct (not_in_node _ _ _ _ _ n' Hi Hin)|]. by apply (ni_sth _ _ _ _ Hi).
  - intros u. case_thread u t; [done|apply Hi].
Qed.

(** The thread in the head is suspended there. *)
Lemma head_waiter q nodes ex pcs h b q' v :
  lock_inv q pcs → node_inv q nodes ex pcs → q = (h, b) :: q' → nd_sth (nodes h) = Some v →
  pcs v = DSuspended (ResLock h).
Proof.
  intros Hli Hi -> Hv. apply (ni_sth _ _ _ _ Hi) in Hv as [|[m E]]; [done|].
  by destruct (head_not_linked _ _ _ _ v m Hli); rewrite E.
Qed.

(** * The suspended threads: one thread moves *)

(** The other threads do not see a move of thread [t]. *)
Record obj_effect (con con' : C) (objs objs' : Z → option nat) (pend pend' : list F) pcs t p : Prop := {
  oe_ok : con_ok con';
  oe_claims z : claims p = Some z → claims (pcs t) = Some z ∨ ∀ u, claims (pcs u) ≠ Some z;
  oe_objs z v : objs' z = Some v → v = t ∧ claims p = Some z ∨ v ≠ t ∧ objs z = Some v;
  oe_others z v : objs z = Some v → v ≠ t → objs' z = Some v;
  oe_none z : objs z = None → claims (pcs t) ≠ Some z → claims p ≠ Some z → objs' z = None;
  oe_posted z : con_used con' z → con_used con z ∨ z ∈ reqs pend;
  oe_pend z : z ∈ reqs pend' → z ∈ reqs pend ∨ claims (pcs t) = Some z;
  oe_head u imm f : u ≠ t → pcs u = DImmExec imm f → head pend' = head pend;
  oe_waits z : con_waits con' z → con_waits con z ∨ claims (pcs t) = Some z;
  oe_mine z :
    claims (pcs t) = Some z → con_used con' z ∨ z ∈ reqs pend' → con_waits con' z →
    is_Some (objs' z) ∨ claims p = Some z ∧ (has_lock p = true ∨ is_Some (linking p));
  oe_nodup : NoDup (reqs pend');
  oe_unposted z : z ∈ reqs pend' → ¬ con_used con' z;
  oe_awake v : t = O → awake_of (pcs O) = Some v → awake_of p = Some v;
  oe_moving : t ≠ O → awake_of (pcs O) ≠ Some t;
}.

Lemma obj_update con con' objs objs' pend pend' pcs t p :
  obj_inv con objs pend pcs → obj_effect con con' objs objs' pend pend' pcs t p →
  obj_local con' objs' pend' (<[t := p]> pcs) t p → obj_inv con' objs' pend' (<[t := p]> pcs).
Proof.
  intros Hi He Hl.
  assert (∀ u z, u ≠ t → claims (pcs u) = Some z → claims (pcs t) ≠ Some z) as Hother.
  { intros u z Hu E E'. by apply Hu, (oi_unique _ _ _ _ Hi u t z). }
  assert (∀ u z, u ≠ t → claims (pcs u) = Some z → claims p ≠ Some z) as Hother'.
  { intros u z Hu E [E'|H]%(oe_claims _ _ _ _ _ _ _ _ _ He); [by eapply Hother|by destruct (H u)]. }
  constructor; try apply He.
  - intros u u' z. case_thread u t; case_thread u' t; try done.
    + intros E E'. by destruct (Hother' u' z).
    + intros E E'. by destruct (Hother' u z).
    + apply (oi_unique _ _ _ _ Hi).
  - intros z v [[-> E]|[Hv E]]%(oe_objs _ _ _ _ _ _ _ _ _ He); [by rewrite fn_lookup_insert|].
    rewrite fn_lookup_insert_ne by done. by apply (oi_objs _ _ _ _ Hi).
  - intros z Hpp Hw. destruct (decide (claims (pcs t) = Some z)) as [Hc|Hc].
    + destruct (oe_mine _ _ _ _ _ _ _ _ _ He z Hc Hpp Hw) as [|[H1 H2]]; [by left|].
      right. exists t. by rewrite fn_lookup_insert.
    + destruct (oe_waits _ _ _ _ _ _ _ _ _ He z Hw) as [Hw'|?]; [|done].
      assert (con_used con z ∨ z ∈ reqs pend) as Hpp'.
      { destruct Hpp as [?%(oe_posted _ _ _ _ _ _ _ _ _ He)|?%(oe_pend _ _ _ _ _ _ _ _ _ He)]; naive_solver. }
      destruct (oi_waits _ _ _ _ Hi z Hpp' Hw') as [[v Hv]|[u [Hu Hu']]].
      * left. exists v. apply (oe_others _ _ _ _ _ _ _ _ _ He); [done|]. intros ->.
        by apply Hc, (oi_objs _ _ _ _ Hi).
      * right. exists u. rewrite fn_lookup_insert_ne; [done|]. by intros ->.
  - intros u. destruct (decide (u = t)) as [->|Hu]; [by rewrite fn_lookup_insert|].
    destruct (oi_local _ _ _ _ Hi u) as [Hpc Hpl Hun Hst Him Haw].
    rewrite fn_lookup_insert_ne by done.
    assert (∀ z, claims (pcs u) = Some z → objs z = None → objs' z = None) as Hnone.
    { intros z E ?. apply (oe_none _ _ _ _ _ _ _ _ _ He); [done|by eapply Hother|by eapply Hother']. }
    constructor; [done|..].
    + intros z E. destruct (Hpl z E) as [Ho|(Hs & Ho & Ha)].
      * left. destruct (saved (pcs u)); [by apply (oe_others _ _ _ _ _ _ _ _ _ He)|auto].
      * right. split_and!; [done|auto|]. destruct (decide (O = t)) as [<-|Ht0]; [|by rewrite fn_lookup_insert_ne].
        rewrite fn_lookup_insert. by apply (oe_awake _ _ _ _ _ _ _ _ _ He).
    + intros z E Hu' [Hw|Hw]%(oe_waits _ _ _ _ _ _ _ _ _ He); [by eapply Hun|by eapply Hother].
    + intros z E Hs. destruct (Hst z E Hs) as [H1 H2]. split.
      * intros [?|?]%(oe_posted _ _ _ _ _ _ _ _ _ He); done.
      * intros [?|?]%(oe_pend _ _ _ _ _ _ _ _ _ He); [done|by eapply Hother].
    + intros imm f E. rewrite (oe_head _ _ _ _ _ _ _ _ _ He u imm f); eauto.
    + intros v E. destruct (Haw v E) as (-> & z & Hs & Hz). split; [done|]. exists z.
      assert (claims (pcs v) = Some z) as Hcv by by destruct Hs as [->|[n ->]].
      assert (v ≠ t) by (intros ->; by eapply (oe_moving _ _ _ _ _ _ _ _ _ He)).
      rewrite fn_lookup_insert_ne by done. split; [done|].
      apply (oe_none _ _ _ _ _ _ _ _ _ He); [done|by eapply Hother|by eapply Hother'].
Qed.

(** The thread that moves keeps an eye on its object. *)
Definition attends p : Prop := has_lock p = true ∨ is_Some (linking p).

Lemma obj_attended con objs pend pcs t z :
  obj_inv con objs pend pcs → claims (pcs t) = Some z → con_used con z ∨ z ∈ reqs pend → con_waits con z →
  is_Some (objs z) ∨ attends (pcs t).
Proof.
  intros Hi Ht Hp Hw. destruct (oi_waits _ _ _ _ Hi z Hp Hw) as [|(u & Hu & Ha)]; [by left|].
  rewrite (oi_unique _ _ _ _ Hi t u z Ht Hu). by right.
Qed.

Lemma not_awake con objs pend pcs t :
  obj_inv con objs pend pcs → (∀ z, ¬ suspended_in z (pcs t)) → awake_of (pcs O) ≠ Some t.
Proof. intros Hi Ht E. destruct (ol_awake _ _ _ _ _ _ (oi_local _ _ _ _ Hi O) t E) as (_ & z & Hs & _). by eapply Ht. Qed.

Lemma objs_mine con objs pend pcs t z v :
  obj_inv con objs pend pcs → claims (pcs t) = Some z → objs z = Some v → v = t.
Proof. intros Hi Ht Hv. by apply (oi_unique _ _ _ _ Hi v t z); [apply (oi_objs _ _ _ _ Hi)|]. Qed.

(** A move that leaves the consumer and the objects alone. *)
Lemma obj_move con objs pend pcs t p :
  obj_inv con objs pend pcs → pc_ok p →
  (∀ z, claims p = Some z → claims (pcs t) = Some z ∧ saved p = saved (pcs t)
     ∧ (suspended (pcs t) = true → suspended p = true)
     ∧ (unused p = true → unused (pcs t) = true) ∧ starting p = false
     ∧ (saved p = true ∨ (attends (pcs t) → attends p))) →
  (∀ z, claims (pcs t) = Some z → claims p = Some z ∨ objs z = None ∧ ¬ con_waits con z) →
  (∀ imm f, p ≠ DImmExec imm f) → (t = O → awake_of p = awake_of (pcs O)) → (t ≠ O → awake_of p = None) →
  (t ≠ O → awake_of (pcs O) ≠ Some t) → obj_inv con objs pend (<[t := p]> pcs).
Proof.
  intros Hi Hpc Hp Hold Himm Hk Hk' Hawake. pose proof (oi_local _ _ _ _ Hi t) as Hl.
  apply (obj_update con con objs objs pend pend); [done|constructor|constructor]; try done; try by apply Hi.
  - intros z [? _]%Hp. by left.
  - intros z v Hv. destruct (decide (v = t)) as [->|]; [left|by right]. split; [done|].
    destruct (Hold z) as [|[E _]]; [by apply (oi_objs _ _ _ _ Hi)|done|congruence].
  - by left.
  - by left.
  - by left.
  - intros z Hz Hpp Hw. destruct (Hold z Hz) as [Hpz|[_ ?]]; [|done].
    destruct (Hp z Hpz) as (_ & Hs & _ & _ & _ & [Hsv|Ha]).
    + destruct (ol_place _ _ _ _ _ _ Hl z Hz) as [E|(Hsu & E & Haw)].
      * rewrite <-Hs, Hsv in E. by left.
      * destruct (decide (t = O)) as [->|]; [|by destruct Hawake].
        destruct (ol_awake _ _ _ _ _ _ Hl O Haw) as (_ & z' & [E'|[n E']] & _); by rewrite E' in Haw.
    + destruct (obj_attended _ _ _ _ _ _ Hi Hz Hpp Hw) as [|]; [by left|right; split; [done|by apply Ha]].
  - intros v -> E. by rewrite Hk.
  - intros z Hz. destruct (Hp z Hz) as (Hc & Hs & Hsu & _).
    destruct (ol_place _ _ _ _ _ _ Hl z Hc) as [E|(Hsu' & E & Haw)]; [left; by rewrite Hs|].
    right. split_and!; [auto|done|]. destruct (decide (t = O)) as [->|]; [|by destruct Hawake].
    rewrite fn_lookup_insert. by rewrite Hk.
  - intros z Hz Hu. destruct (Hp z Hz) as (Hc & _ & _ & Hu' & _). by apply (ol_unused _ _ _ _ _ _ Hl); auto.
  - intros z Hz Hs. destruct (Hp z Hz) as (_ & _ & _ & _ & E & _). congruence.
  - intros imm f E. by destruct (Himm imm f).
  - intros v Hv. destruct (decide (t = O)) as [->|Ht]; [|by rewrite Hk' in Hv].
    rewrite Hk in Hv by done. destruct (ol_awake _ _ _ _ _ _ Hl v Hv) as (_ & z & Hs & Hz).
    split; [done|]. exists z. split; [|done]. rewrite fn_lookup_insert_ne; [done|].
    intros <-. destruct Hs as [E|[n E]]; by rewrite E in Hv.
Qed.

(** A thread saves its continuation in its object. *)
Lemma obj_save con objs pend pcs t p z :
  obj_inv con objs pend pcs → t ≠ O → claims (pcs t) = Some z → objs z = None → claims p = Some z → pc_ok p →
  saved p = true → awake_of p = None → (unused p = true → unused (pcs t) = true) → starting p = false →
  (∀ imm f, p ≠ DImmExec imm f) → awake_of (pcs O) ≠ Some t →
  obj_inv con (<[z := Some t]> objs) pend (<[t := p]> pcs).
Proof.
  intros Hi Ht Hz Ho Hp Hpc Hsv Haw Hun Hst Himm Hna. pose proof (oi_local _ _ _ _ Hi t) as Hl.
  assert (∀ z', objs z' = Some t → z' = z) as Hone.
  { intros z' E%(oi_objs _ _ _ _ Hi). congruence. }
  apply (obj_update con con objs _ pend pend); [done|constructor|constructor]; try done; try by apply Hi.
  - rewrite Hp, Hz. naive_solver.
  - intros z' v. destruct (decide (z' = z)) as [->|]; [rewrite fn_lookup_insert; intros [= <-]; by left|].
    rewrite fn_lookup_insert_ne by done. intros Hv. right. split; [|done]. by intros ->; apply Hone in Hv.
  - intros z' v Hv Hne. rewrite fn_lookup_insert_ne; [done|]. intros ->. congruence.
  - intros z' E Hne _. rewrite fn_lookup_insert_ne; [done|]. intros ->. congruence.
  - by left.
  - by left.
  - by left.
  - intros z' Hz' _ _. rewrite Hz in Hz'. injection Hz' as <-. left. by rewrite fn_lookup_insert.
  - intros z' Hz'. rewrite Hp in Hz'. injection Hz' as <-. left. by rewrite fn_lookup_insert, Hsv.
  - intros z' Hz' Hu. rewrite Hp in Hz'. injection Hz' as <-. apply (ol_unused _ _ _ _ _ _ Hl); auto.
  - intros z' _. by rewrite Hst.
  - intros imm f E. by destruct (Himm imm f).
  - intros v. by rewrite Haw.
Qed.

(** It takes its continuation back. *)
Lemma obj_unsave con con' objs pend pcs t p z :
  obj_inv con objs pend pcs → t ≠ O → claims (pcs t) = Some z → con_ok con' →
  (∀ z', con_used con' z' ↔ con_used con z') → (∀ z', con_waits con' z' → con_waits con z') →
  (claims p = None ∨ claims p = Some z) → pc_ok p → saved p = false → awake_of p = None → unused p = false →
  (∀ imm f, p ≠ DImmExec imm f) → (con_waits con z → claims p = Some z ∧ has_lock p = true) → awake_of (pcs O) ≠ Some t →
  obj_inv con' (<[z := None]> objs) pend (<[t := p]> pcs).
Proof.
  intros Hi Ht Hz Hok Hpo Hwa Hp Hpc Hsv Haw Hun Himm Hlo Hna. pose proof (oi_local _ _ _ _ Hi t) as Hl.
  apply (obj_update con con' objs _ pend pend); [done|constructor|constructor]; try done; try by apply Hi.
  - intros z' Hz'. destruct Hp as [E|E]; [congruence|]. left. congruence.
  - intros z' v. destruct (decide (z' = z)) as [->|]; [by rewrite fn_lookup_insert|].
    rewrite fn_lookup_insert_ne by done. intros Hv. right. split; [|done]. intros ->.
    apply (oi_objs _ _ _ _ Hi) in Hv. congruence.
  - intros z' v Hv Hne. rewrite fn_lookup_insert_ne; [done|]. intros ->. by destruct Hne; eapply objs_mine.
  - intros z' E Hne _. destruct (decide (z' = z)) as [->|]; by rewrite ?fn_lookup_insert, ?fn_lookup_insert_ne.
  - intros z' ?%Hpo. by left.
  - by left.
  - intros z' ?%Hwa. by left.
  - intros z' Hz' _ Hw%Hwa. rewrite Hz in Hz'. injection Hz' as <-. right. destruct (Hlo Hw). by split; [|left].
  - intros z' H. rewrite Hpo. by apply (oi_pend _ _ _ _ Hi).
  - intros z' Hz'. left. rewrite Hsv. destruct Hp as [E|E]; [congruence|]. rewrite E in Hz'. injection Hz' as <-.
    by rewrite fn_lookup_insert.
  - intros z' _. by rewrite Hun.
  - intros z' Hz' Hs. by destruct p.
  - intros imm f E. by destruct (Himm imm f).
  - intros v. by rewrite Haw.
Qed.

Lemma reqs_app l k : reqs (l ++ k) = reqs l ++ reqs k.
Proof. apply omap_app. Qed.

(** [start_lock] returned to a thread with a function. *)
Lemma obj_start con objs pend pcs t imm f w p :
  obj_inv con objs pend pcs → t ≠ O → pcs t = DStartLock (GExec imm f w) → pc_ok p → claims p = func_obj f →
  saved p = false → starting p = false → awake_of p = None →
  (∀ imm f', p = DImmExec imm f' → f' = f ∧ pend = []) →
  obj_inv con objs (pend ++ [f]) (<[t := p]> pcs).
Proof.
  intros Hi Ht E Hpc Hc Hsv Hst Haw Himm. pose proof (oi_local _ _ _ _ Hi t) as Hl. rewrite E in Hl.
  assert (∀ z, func_req f = Some z → ¬ con_used con z ∧ ¬ con_waits con z ∧ (z ∉ reqs pend) ∧ objs z = None) as Hreq.
  { intros z Hz. destruct (ol_starting _ _ _ _ _ _ Hl z Hz eq_refl). split_and!; [done| |done|].
    - by apply (ol_unused _ _ _ _ _ _ Hl).
    - by destruct (ol_place _ _ _ _ _ _ Hl z Hz) as [|[]]. }
  apply (obj_update con con objs objs pend (pend ++ [f])); [done|constructor|constructor]; try done; try by apply Hi.
  - intros z. rewrite Hc, E. intros Hz%func_obj_req. by left.
  - intros z v Hv. right. split; [|done]. intros ->.
    apply (oi_objs _ _ _ _ Hi) in Hv as Hz. rewrite E in Hz. destruct (Hreq z Hz) as (_ & _ & _ & ?). congruence.
  - by left.
  - intros z. rewrite reqs_app, elem_of_app, E. intros [|Hz]; [by left|right]. cbn in Hz.
    destruct (func_req f) eqn:Ef; [|by apply elem_of_nil in Hz]. by apply list_elem_of_singleton in Hz as ->.
  - intros u imm' f' Hu Eu. pose proof (ol_imm _ _ _ _ _ _ (oi_local _ _ _ _ Hi u) imm' f' Eu). by destruct pend.
  - by left.
  - intros z Hz _ Hw. rewrite E in Hz. by destruct (Hreq z Hz) as (_ & ? & _).
  - rewrite reqs_app. apply NoDup_app. split_and!; [apply Hi| |].
    + intros z Hz1 Hz2. cbn in Hz2. destruct (func_req f) eqn:Ef; [|by apply elem_of_nil in Hz2].
      apply list_elem_of_singleton in Hz2 as ->. by destruct (Hreq z0 eq_refl) as (_ & _ & ? & _).
    + cbn. destruct (func_req f); [apply NoDup_singleton|constructor].
  - intros z. rewrite reqs_app, elem_of_app. intros [|Hz]; [by apply (oi_pend _ _ _ _ Hi)|]. cbn in Hz.
    destruct (func_req f) eqn:Ef; [|by apply elem_of_nil in Hz]. apply list_elem_of_singleton in Hz as ->.
    by apply Hreq.
  - intros _. by apply (not_awake _ _ _ _ _ Hi); intros z [E'|[n E']]; rewrite E in E'.
  - intros z. rewrite Hc, Hsv. intros Hz%func_obj_req. left. by apply Hreq.
  - intros z. rewrite Hc. intros Hz%func_obj_req _. by apply Hreq.
  - intros z _. by rewrite Hst.
  - intros imm' f' Ep. by destruct (Himm imm' f' Ep) as [-> ->].
  - intros v. by rewrite Haw.
Qed.

(** [delegate_func] marks the object of the function. *)
Lemma obj_delegate con objs pend pcs t m n imm f w p :
  obj_inv con objs pend pcs → t ≠ O → pcs t = DDelegate m n (GExec imm f w) →
  (∀ z, func_req f = Some z → z ∈ reqs pend) → pc_ok p → claims p = func_obj f → is_Some (linking p) →
  saved p = false → unused p = false → starting p = false → awake_of p = None →
  obj_inv (con_delegate f con) objs pend (<[t := p]> pcs).
Proof.
  intros Hi Ht E Hreq Hpc Hc Hlk Hsv Hun Hst Haw. pose proof (oi_local _ _ _ _ Hi t) as Hl. rewrite E in Hl.
  destruct (delegate_law f con) as (Hok & _ & Hpo & Hwa).
  { apply Hi. } { intros z Hz. apply (oi_pend _ _ _ _ Hi); auto. }
  apply (obj_update con _ objs objs pend pend); [done|constructor|constructor]; try done; try by apply Hi.
  - intros z. rewrite Hc, E. by left.
  - intros z v Hv. destruct (decide (v = t)) as [->|]; [left|by right]. split; [done|].
    apply (oi_objs _ _ _ _ Hi) in Hv. by rewrite E in Hv; rewrite Hc.
  - intros z ?%Hpo. by left.
  - by left.
  - intros z [?|?]%Hwa; [by left|right]. by rewrite E.
  - intros z Hz _ _. right. rewrite E in Hz. rewrite Hc. split; [done|by right].
  - intros z H. rewrite Hpo. by apply (oi_pend _ _ _ _ Hi).
  - intros _. by apply (not_awake _ _ _ _ _ Hi); intros z [E'|[k E']]; rewrite E in E'.
  - intros z. rewrite Hc, Hsv. intros Hz. left. by destruct (ol_place _ _ _ _ _ _ Hl z Hz) as [|[]].
  - intros z _. by rewrite Hun.
  - intros z _. by rewrite Hst.
  - intros imm' f' ->. by destruct Hlk.
  - intros v. by rewrite Haw.
Qed.

(** A function is executed and leaves the list of pending ones: by a thread
    with the lock ([w] is where it waits then), or by the consumer. *)
Lemma obj_execute con con' objs f pend pcs t p b :
  obj_inv con objs (f :: pend) pcs → con_ok con' → has_lock p = true →
  (∀ u imm f', u ≠ t → pcs u ≠ DImmExec imm f') →
  (∀ z, con_used con' z ↔ con_used con z ∨ b = true ∧ func_req f = Some z) →
  (∀ z, con_waits con' z → con_waits con z ∨ claims p = Some z) →
  (∀ z, claims p = Some z → claims (pcs t) = Some z) → (∀ z, claims (pcs t) = Some z → objs z = None ∧ unused (pcs t) = true) →
  awake_of (pcs O) = None → awake_of p = None → pc_ok p → saved p = false → unused p = false → starting p = false →
  (∀ imm f, p ≠ DImmExec imm f) →
  obj_inv con' objs pend (<[t := p]> pcs).
Proof.
  intros Hi Hok Hlo Hno Hpo Hwa Hp Hc Haw Haw' Hpc Hsv Hun Hst Himm.
  assert (∀ z, func_req f = Some z → z ∉ reqs pend) as Hnd.
  { intros z Hz. pose proof (oi_nodup _ _ _ _ Hi) as H. cbn in H. rewrite Hz in H. by apply NoDup_cons in H as [? _]. }
  assert (∀ z, z ∈ reqs pend → z ∈ reqs (f :: pend)) as Hsub.
  { intros z Hz. cbn. destruct (func_req f); [by right|done]. }
  apply (obj_update con con' objs objs (f :: pend) pend); [done|constructor|constructor]; try done.
  - intros z Hz%Hp. by left.
  - intros z v Hv. right. split; [|done]. intros ->. apply (oi_objs _ _ _ _ Hi) in Hv as Hz.
    destruct (Hc z Hz). congruence.
  - intros z [?|[_ Hz]]%Hpo; [by left|right]. cbn. rewrite Hz. by left.
  - intros z ?%Hsub. by left.
  - intros u imm f' Hu E. by destruct (Hno u imm f').
  - intros z [?|?%Hp]%Hwa; [by left|by right].
  - intros z Hz Hpp Hw. right. destruct (Hwa z Hw) as [Hw'|]; [|by split; [|left]].
    by destruct (ol_unused _ _ _ _ _ _ (oi_local _ _ _ _ Hi t) z Hz (proj2 (Hc z Hz))).
  - pose proof (oi_nodup _ _ _ _ Hi) as H. cbn in H. destruct (func_req f); [by apply NoDup_cons in H as [_ ?]|done].
  - intros z Hz [?|[_ Hf]]%Hpo; [|by apply (Hnd z)]. by apply (oi_pend _ _ _ _ Hi z); auto.
  - intros v -> E. congruence.
  - intros _. by rewrite Haw.
  - intros z Hz%Hp. rewrite Hsv. left. by apply Hc.
  - intros z _. by rewrite Hun.
  - intros z _. by rewrite Hst.
  - intros imm f' E. by destruct (Himm imm f').
  - intros v. by rewrite Haw'.
Qed.

(** The consumer changes its own state: requests complete. *)
Lemma obj_progress con con' objs pend pcs :
  obj_inv con objs pend pcs → con_ok con' → (∀ z, con_used con' z → con_used con z) →
  (∀ z, con_waits con' z → con_waits con z) → obj_inv con' objs pend pcs.
Proof.
  intros Hi Hok Hpo Hwa. constructor; try apply Hi; [done| | |].
  - intros z Hpp Hw. apply (oi_waits _ _ _ _ Hi); [|auto]. naive_solver.
  - intros z Hz ?%Hpo. by apply (oi_pend _ _ _ _ Hi z).
  - intros t. destruct (oi_local _ _ _ _ Hi t) as [Hpc Hpl Hun Hst Him Haw]. constructor; try done.
    + intros z Hz Hu ?%Hwa. by apply (Hun z).
    + intros z Hz Hs. destruct (Hst z Hz Hs). split; [|done]. by intros ?%Hpo.
Qed.

(** A thread in an object is made runnable. *)
Lemma obj_notify con objs pend pcs z v :
  obj_inv con objs pend pcs → objs z = Some v → suspended_in z (pcs v) → ¬ con_used con z → z ∉ reqs pend →
  v ≠ O → obj_inv con (<[z := None]> objs) pend (<[v := DIdle]> pcs).
Proof.
  intros Hi Hz Hv Hpo Hpe Hv0. assert (claims (pcs v) = Some z) as Hc by by destruct Hv as [->|[n ->]].
  apply (obj_update con con objs _ pend pend); [done|constructor|constructor]; try done; try by apply Hi.
  - intros z' v'. destruct (decide (z' = z)) as [->|]; [by rewrite fn_lookup_insert|].
    rewrite fn_lookup_insert_ne by done. intros Hv'. right. split; [|done]. intros ->.
    apply (oi_objs _ _ _ _ Hi) in Hv'. congruence.
  - intros z' v' Hv' Hne. rewrite fn_lookup_insert_ne; [done|]. intros ->. congruence.
  - intros z' E Hne _. destruct (decide (z' = z)) as [->|]; by rewrite ?fn_lookup_insert, ?fn_lookup_insert_ne.
  - by left.
  - by left.
  - by left.
  - intros z' E [?|?] _; rewrite Hc in E; by injection E as <-.
  - intros _ E. destruct (ol_awake _ _ _ _ _ _ (oi_local _ _ _ _ Hi O) v E) as (_ & z' & Hs & Hz').
    assert (z' = z) as -> by (destruct Hv as [Ev|[n Ev]], Hs as [Es|[n' Es]]; congruence). congruence.
Qed.

(** The consumer takes a thread out of its object, and makes it runnable later. *)
Lemma obj_take con objs pend pcs z v p :
  obj_inv con objs pend pcs → objs z = Some v → suspended_in z (pcs v) → ¬ con_used con z → z ∉ reqs pend →
  v ≠ O → claims (pcs O) = None → claims p = None → awake_of (pcs O) = None → awake_of p = Some v → pc_ok p →
  obj_inv con (<[z := None]> objs) pend (<[O := p]> pcs).
Proof.
  intros Hi Hz Hv Hpo Hpe Hv0 Hc Hcp Haw Hawp Hpc.
  assert (claims (pcs v) = Some z) as Hcv by by destruct Hv as [->|[n ->]].
  assert (∀ u z', claims (pcs u) = Some z' → z' = z → u = v) as Hun.
  { intros u z' Hu ->. by apply (oi_unique _ _ _ _ Hi u v z). }
  constructor; try apply Hi.
  - intros u u' z'. case_thread u O; case_thread u' O; rewrite ?Hcp; try done. apply (oi_unique _ _ _ _ Hi).
  - intros z' v'. destruct (decide (z' = z)) as [->|]; [by rewrite fn_lookup_insert|].
    rewrite fn_lookup_insert_ne by done. intros Hv'%(oi_objs _ _ _ _ Hi). case_thread v' O; [congruence|done].
  - intros z' Hpp Hw. destruct (decide (z' = z)) as [->|]; [by destruct Hpp|]. rewrite fn_lookup_insert_ne by done.
    destruct (oi_waits _ _ _ _ Hi z' Hpp Hw) as [|(u & Hu & Ha)]; [by left|right]. exists u.
    case_thread u O; [congruence|done].
  - intros u. case_thread u O.
    + constructor; rewrite ?Hcp; try done; [intros imm f ->; done|]. intros v'. rewrite Hawp. intros [= <-].
      split; [done|]. exists z. by rewrite fn_lookup_insert_ne, fn_lookup_insert by done.
    + destruct (oi_local _ _ _ _ Hi u) as [Hpcu Hpl Hunu Hst Him Hawu]. constructor; try done.
      * intros z' Hz'. destruct (decide (z' = z)) as [->|Hne].
        -- right. rewrite fn_lookup_insert, (Hun u z Hz' eq_refl), fn_lookup_insert. split_and!; [|done|done].
           by destruct Hv as [->|[n' ->]].
        -- rewrite fn_lookup_insert_ne by done. destruct (Hpl z' Hz') as [|(H1 & H2 & H3)]; [by left|]. congruence.
      * intros v' [? _]%Hawu. done.
Qed.

(** The consumer makes the thread it took runnable. *)
Lemma obj_wake con objs pend pcs v p :
  obj_inv con objs pend pcs → awake_of (pcs O) = Some v → claims (pcs O) = None → claims p = None →
  awake_of p = None → pc_ok p → (∀ imm f, p ≠ DImmExec imm f) →
  obj_inv con objs pend (<[O := p]> (<[v := DIdle]> pcs)).
Proof.
  intros Hi Hv Hc Hcp Hawp Hpc Himm.
  destruct (ol_awake _ _ _ _ _ _ (oi_local _ _ _ _ Hi O) v Hv) as (_ & z & Hs & Hz).
  assert (claims (pcs v) = Some z) as Hcv by by destruct Hs as [->|[n ->]].
  assert (∀ u z', claims ((<[O:=p]> (<[v:=DIdle]> pcs)) u) = Some z' → claims (pcs u) = Some z' ∧ u ≠ v ∧ u ≠ O) as Hcl.
  { intros u z'. case_thread u O; [by rewrite Hcp|]. case_thread u v; [done|]. done. }
  constructor; try apply Hi.
  - intros u u' z' [H1 _]%Hcl [H2 _]%Hcl. by eapply (oi_unique _ _ _ _ Hi).
  - intros z' v' Hv'. apply (oi_objs _ _ _ _ Hi) in Hv' as Hc'. case_thread v' O; [congruence|].
    case_thread v' v; [congruence|done].
  - intros z' Hpp Hw. destruct (oi_waits _ _ _ _ Hi z' Hpp Hw) as [|(u & Hu & Ha)]; [by left|right].
    exists u. case_thread u O; [congruence|]. case_thread u v; [|done].
    by destruct Hs as [E|[k E]]; rewrite E in Ha; destruct Ha as [|[]].
  - intros u. case_thread u O; [|case_thread u v].
    + constructor; rewrite ?Hcp, ?Hawp; try done. intros imm f E. by destruct (Himm imm f).
    + constructor; done.
    + destruct (oi_local _ _ _ _ Hi u) as [Hpcu Hpl Hunu Hst Him Hawu]. constructor; try done.
      * intros z' Hz'. destruct (Hpl z' Hz') as [|(H1 & H2 & H3)]; [by left|]. congruence.
      * intros v' [? _]%Hawu. done.
Qed.
End invariant.
#[global] Arguments pending_tasks : simpl never.
