(* ===== verification/DelegatorSafe.v ===== *)
(** Every step of the delegation lock preserves its invariant.

    The core of the invariant (everything but the suspended threads) has a lemma
    per kind of move; the steps are grouped by the thread that makes them. *)
From Stdlib Require Import ZArith Lia.
From stdpp Require Import base tactics functions list gmap.
From S2P Require Import Prelude.
From S2P Require Import Linear.
From S2P Require Import SyncQueue.
From S2P Require Import LockQueue.
From S2P Require Import Delegator.
From S2P Require Import DelegatorInv.

Section safety.
Context {C F : Type} {HC : Consumer C F} {HL : ConsumerLaws C F}.

Abbreviation del := (del (C := C) (F := F)).
Abbreviation pc := (del_pc (C := C) (F := F)).
Implicit Types (q : sq_nodes) (pcs : nat → pc) (t u v : nat) (m n h z : Z) (p : pc) (nodes : Z → del_node (F := F)) (s : del).

#[local] Ltac case_thread u t :=
  destruct (decide (u = t)) as [->|?]; rewrite ?fn_lookup_insert, ?(fn_lookup_insert_ne (A := nat)) by done.

Lemma holder_local nodes t p : has_lock p = true → node_local nodes t p.
Proof. by destruct p. Qed.

Lemma holder_not_linking p : has_lock p = true → linking p = None.
Proof. by destruct p. Qed.

Lemma holder_not_in_node p : has_lock p = true → in_node p = false.
Proof. by destruct p. Qed.

Lemma inactive_holder p : saw_inactive p = true → has_lock p = true.
Proof. by destruct p. Qed.

Lemma executed_holder p : saw_executed p = true → has_lock p = true.
Proof. by destruct p. Qed.

Lemma head_holder p h : pc_head p = Some h → has_lock p = true.
Proof. by destruct p. Qed.

Lemma consumer_frame q q' con con' con_sth con_sth' pcs t p :
  con_inv q con con_sth false pcs → is_consumer_pc p = bool_decide (t = O) →
  con_sth' = (if con_saved (<[t := p]> pcs O) then Some O else None) →
  (saw_inactive p = true → con_is_active con' = false) →
  (con_is_active con' = con_is_active con ∨ ∀ u, u ≠ t → saw_inactive (pcs u) = false) →
  (q' = [] → con_is_active con' = false) → con_inv q' con' con_sth' false (<[t := p]> pcs).
Proof.
  intros Hi Hp Hs Hin Ha Hq. constructor; try done.
  - intros u. case_thread u t; [by rewrite Hp, bool_decide_eq_true|apply (ki_thread _ _ _ _ _ Hi)].
  - intros u. case_thread u t; [done|]. intros Hu. destruct Ha as [->|Ha]; [by eapply (ki_inactive _ _ _ _ _ Hi)|].
    by rewrite Ha in Hu.
Qed.

(** A thread that neither holds the lock nor links a node moves. *)
Lemma core_outside q nodes ex con con' con_sth pcs enq dn t p :
  core_inv q nodes ex con con_sth false pcs enq dn →
  has_lock (pcs t) = false → linking (pcs t) = None → in_node (pcs t) = false →
  has_lock p = false → linking p = None → in_node p = false → t ≠ O → is_consumer_pc p = false →
  con_is_active con' = con_is_active con →
  core_inv q nodes ex con' con_sth false (<[t := p]> pcs) enq dn.
Proof.
  intros [Hl Hn Hc Ht] H1 H2 H3 H4 H5 H6 H0 H7 Ha. constructor.
  - apply (lock_frame q pcs); [done|intros u; case_thread u t; congruence..|].
    intros u h. case_thread u t; [|by left]. intros E%head_holder. congruence.
  - apply node_move with ex; [done|done| |done|by right|by rewrite H4].
    destruct p; try done. by destruct r.
  - apply (consumer_frame q q con con' con_sth); try done.
    + by rewrite bool_decide_false.
    + rewrite fn_lookup_insert_ne by done. apply Hc.
    + intros E%inactive_holder. congruence.
    + by left.
    + rewrite Ha. apply Hc.
  - constructor; try apply Ht.
    + intros u. case_thread u t; [by rewrite H4|apply Ht].
    + intros u. case_thread u t; [|apply Ht]. intros E%executed_holder. congruence.
    + intros u imm f h b q'. case_thread u t; [by intros ->|apply Ht].
Qed.

(** The thread with the lock moves. *)
Lemma core_holder q nodes ex ex' con con' con_sth con_sth' pcs enq dn dn' t p :
  core_inv q nodes ex con con_sth false pcs enq dn → has_lock (pcs t) = true → has_lock p = true →
  (∀ h, pc_head p = Some h → fst <$> head q = Some h) →
  (∀ h b q', q = (h, b) :: q' → if todo p ex' then filled (nodes h) else nd_sth (nodes h) = None) →
  dn' = executed_prefix enq dn' →
  pending_tasks enq dn' = tasks nodes (if undone p ex' then q else tail q) →
  (saw_executed p = true → ex' = true) → (saw_inactive p = true → con_is_active con' = false) →
  is_consumer_pc p = bool_decide (t = O) → (∀ imm f, p ≠ DImmExec imm f) → con_sth' = (if con_saved (<[t := p]> pcs O) then Some O else None) →
  core_inv q nodes ex' con' con_sth' false (<[t := p]> pcs) enq dn'.
Proof.
  intros [Hl Hn Hc Ht] H1 H2 Hh Hf Hpre Hpend Hex Hin Hcp Himm Hcs.
  assert (∀ u, u ≠ t → has_lock (pcs u) = false) as Hoth.
  { intros u Hu. destruct (has_lock (pcs u)) eqn:E; [|done]. by destruct (li_excl _ _ Hl u t E H1). }
  constructor.
  - apply (lock_frame q pcs); [done|intros u; case_thread u t; by rewrite ?H1, ?H2| |].
    + intros u. case_thread u t; [|done]. by rewrite !holder_not_linking.
    + intros u h. case_thread u t; [by right; apply Hh|by left].
  - apply node_move with ex; [done|done|by apply holder_local|by apply holder_not_in_node|by left|by intros _].
  - apply (consumer_frame q q con con' con_sth); try done.
    + right. intros u Hu. destruct (saw_inactive (pcs u)) eqn:E; [|done]. apply inactive_holder in E. by rewrite Hoth in E.
    + intros ->. by destruct (proj2 (li_free _ _ Hl) (ex_intro _ t H1)).
  - constructor; try done.
    + intros u. case_thread u t; [done|]. by rewrite Hoth.
    + intros ->. by destruct (proj2 (li_free _ _ Hl) (ex_intro _ t H1)).
    + intros u. case_thread u t; [done|]. intros E%executed_holder. by rewrite Hoth in E.
    + intros u imm f h b q'. case_thread u t; [by intros ?%Himm|]. intros Eu. specialize (Hoth u). rewrite Eu in Hoth. by specialize (Hoth n).
Qed.

(** The same, when what the thread knows of the head does not change. *)
Lemma core_step q nodes ex ex' con con' con_sth con_sth' pcs enq dn t p :
  core_inv q nodes ex con con_sth false pcs enq dn → has_lock (pcs t) = true → has_lock p = true →
  (∀ h, pc_head p = Some h → fst <$> head q = Some h) →
  todo p ex' = todo (pcs t) ex → undone p ex' = undone (pcs t) ex →
  (saw_executed p = true → ex' = true) → (saw_inactive p = true → con_is_active con' = false) →
  is_consumer_pc p = bool_decide (t = O) → (∀ imm f, p ≠ DImmExec imm f) → con_sth' = (if con_saved (<[t := p]> pcs O) then Some O else None) →
  core_inv q nodes ex' con' con_sth' false (<[t := p]> pcs) enq dn.
Proof.
  intros Hi H1 H2 Hh Htd Hun Hex Hin Hcp Himm Hcs. destruct Hi as [Hl Hn Hc Ht].
  apply (core_holder q nodes ex ex' con con' con_sth con_sth' pcs enq dn dn t p); try done; [|apply Ht|].
  - intros h b q' Hq. rewrite Htd. by eapply (ni_head _ _ _ _ Hn).
  - rewrite Hun. by apply (ti_lock _ _ _ _ _ _ Ht).
Qed.

Lemma tasks_cons nodes h b q :
  tasks nodes ((h, b) :: q) = match nd_task (nodes h) with Some f => f :: tasks nodes q | None => tasks nodes q end.
Proof. done. Qed.

Lemma tasks_linked nodes q1 q2 m n b :
  tasks nodes (q1 ++ (m, true) :: (n, b) :: q2) = tasks nodes (q1 ++ (m, false) :: (n, b) :: q2).
Proof. unfold tasks. by rewrite link_nodes. Qed.

Lemma tasks_ext nodes nodes' q :
  (∀ n, n ∈ q.*1 → nd_task (nodes' n) = nd_task (nodes n)) → tasks nodes' q = tasks nodes q.
Proof.
  unfold tasks. induction q as [|[n b] q IH]; intros H; [done|]. cbn. rewrite H by by left.
  rewrite IH; [done|]. intros k Hk. apply H. by right.
Qed.

(** The holder follows the head of the queue. *)
Lemma core_follow h n b q nodes con con_sth pcs enq dn t p :
  core_inv ((h, true) :: (n, b) :: q) nodes true con con_sth false pcs enq dn →
  has_lock (pcs t) = true → todo (pcs t) true = false → undone (pcs t) true = false → has_lock p = true →
  todo p true = true → pc_head p = Some n → saw_inactive p = false → saw_executed p = false →
  is_consumer_pc p = bool_decide (t = O) → con_saved p = con_saved (pcs t) →
  core_inv ((n, b) :: q) nodes true con con_sth false (<[t := p]> pcs) enq dn.
Proof.
  intros [Hl Hn Hc Ht] H1 Htd Hun H2 Hp Hh Hin Hex Hcp Hcs.
  assert (∀ u, u ≠ t → has_lock (pcs u) = false) as Hoth.
  { intros u Hu. destruct (has_lock (pcs u)) eqn:E; [|done]. by destruct (li_excl _ _ Hl u t E H1). }
  constructor.
  - apply (lock_follow h n b q pcs); [done|intros u; case_thread u t; by rewrite ?H1, ?H2| |].
    + intros u. case_thread u t; [|done]. by rewrite !holder_not_linking.
    + intros u h'. case_thread u t; [congruence|]. intros E%head_holder. by rewrite Hoth in E.
  - eapply node_follow; [done|done|done|done|by apply holder_not_in_node|done|by apply holder_local].
  - apply (consumer_frame ((h, true) :: (n, b) :: q) _ con con con_sth); try done.
    + destruct (decide (t = O)) as [->|]; [rewrite fn_lookup_insert, Hcs|rewrite fn_lookup_insert_ne by done]; apply Hc.
    + by rewrite Hin.
    + by left.
  - constructor; try apply Ht; try done.
    + intros u. case_thread u t; [|by rewrite Hoth]. intros _. rewrite (ti_lock _ _ _ _ _ _ Ht t H1), Hun.
      unfold undone. by rewrite Hp.
    + intros u imm f h' b' q'. case_thread u t; [by intros ->|]. intros Eu. specialize (Hoth u). rewrite Eu in Hoth. by specialize (Hoth n0).
Qed.

(** The holder releases the lock. *)
Lemma core_unlock h nodes con con_sth con_sth' pcs enq dn t p :
  core_inv [(h, false)] nodes true con con_sth false pcs enq dn →
  has_lock (pcs t) = true → todo (pcs t) true = false → undone (pcs t) true = false →
  has_lock p = false → linking p = None → in_node p = false → node_local nodes t p →
  is_consumer_pc p = bool_decide (t = O) → con_is_active con = false →
  con_sth' = (if con_saved (<[t := p]> pcs O) then Some O else None) →
  core_inv [] nodes true con con_sth' false (<[t := p]> pcs) enq dn.
Proof.
  intros [Hl Hn Hc Ht] H1 Htd Hun H2 Hlk Hin Hloc Hcp Hina Hcs.
  assert (∀ u, u ≠ t → has_lock (pcs u) = false) as Hoth.
  { intros u Hu. destruct (has_lock (pcs u)) eqn:E; [|done]. by destruct (li_excl _ _ Hl u t E H1). }
  assert (∀ u, has_lock (<[t := p]> pcs u) = false) as Hno by (intros u; case_thread u t; auto).
  constructor.
  - apply (lock_end h pcs); [done|done| |].
    + intros u. case_thread u t; [|done]. by rewrite Hlk, holder_not_linking.
    + intros u. destruct (pc_head (<[t := p]> pcs u)) eqn:E; [|done]. apply head_holder in E. by rewrite Hno in E.
  - apply (node_end h); try done. by apply holder_not_in_node.
  - apply (consumer_frame [(h, false)] _ con con con_sth); try done. by left.
  - constructor; try apply Ht.
    + intros u. by rewrite Hno.
    + intros _. by rewrite (ti_lock _ _ _ _ _ _ Ht t H1), Hun.
    + done.
    + intros u imm f h' b q'. case_thread u t; [by intros ->|]. intros Eu. specialize (Hoth u). rewrite Eu in Hoth. by specialize (Hoth n).
Qed.

(** The lock passes from thread [t] to thread [v], which is suspended in the
    head, or is the consumer. *)
Lemma core_pass h b q nodes nodes' ex ex' con con_sth con_sth' pcs enq dn t v p p' :
  core_inv ((h, b) :: q) nodes ex con con_sth false pcs enq dn →
  has_lock (pcs t) = true → has_lock (pcs v) = false → linking (pcs v) = None →
  has_lock p = false → linking p = None → in_node p = false → has_lock p' = true → pc_head p' = None →
  node_local nodes' t p → t ≠ v →
  (∀ n, n ≠ h → nodes' n = nodes n) → nd_task (nodes' h) = nd_task (nodes h) →
  (∀ n, nd_sth (nodes' n) ≠ Some v) → (nd_sth (nodes h) = Some v ∧ nd_sth (nodes' h) = None ∨ nodes' h = nodes h) →
  (if todo p' ex' then filled (nodes' h) else nd_sth (nodes' h) = None) →
  pending_tasks enq dn = tasks nodes (if undone p' ex' then (h, b) :: q else q) →
  is_consumer_pc p = bool_decide (t = O) → is_consumer_pc p' = bool_decide (v = O) →
  (∀ imm f, p' ≠ DImmExec imm f) → saw_executed p' = false → saw_inactive p' = false →
  con_sth' = (if con_saved ((<[t := p]> (<[v := p']> pcs)) O) then Some O else None) →
  core_inv ((h, b) :: q) nodes' ex' con con_sth' false (<[t := p]> (<[v := p']> pcs)) enq dn.
Proof.
  intros [Hl Hn Hc Ht] H1 Hv Hlv H2 Hlp Hin H3 Hhp' Hloc Htv Hn' Htask Hsv Hold Hf Hpend Hcp Hcp' Himm Hex Hina Hcs.
  assert (∀ u, u ≠ t → has_lock (pcs u) = false) as Hoth.
  { intros u Hu. destruct (has_lock (pcs u)) eqn:E; [|done]. by destruct (li_excl _ _ Hl u t E H1). }
  assert (∀ u, has_lock ((<[t := p]> (<[v := p']> pcs)) u) = bool_decide (u = v)) as Hlk.
  { intros u. case_thread u t; [by rewrite bool_decide_false|]. case_thread u v; [by rewrite bool_decide_true|].
    rewrite bool_decide_false by done. auto. }
  assert (∀ q', tasks nodes' q' = tasks nodes q') as Htasks.
  { intros q'. apply tasks_ext. intros n _. destruct (decide (n = h)) as [->|]; [done|by rewrite Hn']. }
  constructor.
  - apply (lock_pass ((h, b) :: q) pcs _ t v); [done|done|done| |].
    + intros u. case_thread u t; [by rewrite Hlp, holder_not_linking|]. case_thread u v; [|done].
      by rewrite Hlv, holder_not_linking.
    + intros u h'. case_thread u t; [intros E%head_holder; congruence|]. case_thread u v; [congruence|by left].
  - eapply node_pass; try done; [by apply holder_not_in_node|by apply holder_local].
  - constructor; try done.
    + intros u. case_thread u t; [by rewrite Hcp, bool_decide_eq_true|].
      case_thread u v; [by rewrite Hcp', bool_decide_eq_true|apply (ki_thread _ _ _ _ _ Hc)].
    + intros u. case_thread u t; [intros E%inactive_holder; congruence|]. case_thread u v; [congruence|].
      intros E%inactive_holder. by rewrite Hoth in E.
  - constructor; try apply Ht; try done.
    + intros u. rewrite Hlk, bool_decide_eq_true. intros ->. rewrite fn_lookup_insert_ne, fn_lookup_insert by done.
      by rewrite Htasks.
    + intros u. case_thread u t; [intros E%executed_holder; congruence|]. case_thread u v; [congruence|].
      intros E%executed_holder. by rewrite Hoth in E.
    + intros u imm f h' b' q'. case_thread u t; [by intros ->|]. case_thread u v; [by intros ?%Himm|].
      intros Eu. specialize (Hoth u). rewrite Eu in Hoth. by specialize (Hoth n).
Qed.

Lemma pending_app enq (dn : list (F * bool)) l :
  dn = executed_prefix enq dn →
  pending_tasks (enq ++ l) dn = pending_tasks enq dn ++ l ∧ dn = executed_prefix (enq ++ l) dn.
Proof.
  unfold executed_prefix. intros H. assert (length dn ≤ length enq)%nat as Hle.
  { apply (f_equal length) in H. rewrite length_fmap, length_take in H. lia. }
  unfold pending_tasks. rewrite drop_app_le, take_app_le by done. done.
Qed.

Lemma tasks_app nodes q q' : tasks nodes (q ++ q') = tasks nodes q ++ tasks nodes q'.
Proof. unfold tasks. by rewrite fmap_app, omap_app. Qed.

Lemma tasks_enter nodes n (g : lock_goal (C := C) (F := F)) q :
  tasks (<[n := DelNode (nd_sth (nodes n)) (nd_func (nodes n)) (nd_wait (nodes n)) (head (goal_task g))]> nodes)
    ((n, false) :: q)
  = goal_task g ++ tasks (<[n := DelNode (nd_sth (nodes n)) (nd_func (nodes n)) (nd_wait (nodes n)) (head (goal_task g))]> nodes) q.
Proof. rewrite tasks_cons, fn_lookup_insert. by destruct g. Qed.

Section enter.
Context (nodes : Z → del_node (F := F)) (n : Z) (g : lock_goal (C := C) (F := F)).
#[local] Abbreviation nodes' :=
  (<[n := DelNode (nd_sth (nodes n)) (nd_func (nodes n)) (nd_wait (nodes n)) (head (goal_task g))]> nodes).

Lemma enter_sth n' : nd_sth (nodes' n') = nd_sth (nodes n').
Proof. destruct (decide (n' = n)) as [->|]; by rewrite ?fn_lookup_insert, ?fn_lookup_insert_ne. Qed.

(** [start_lock] locks. *)
Lemma core_start ex con con_sth pcs enq dn t p :
  core_inv [] nodes ex con con_sth false pcs enq dn → pcs t = DStartLock g → g ≠ GStop → p = locked_pc g →
  t ≠ O → core_inv [(n, false)] nodes' ex con con_sth false (<[t := p]> pcs) (enq ++ goal_task g) dn.
Proof.
  intros [Hl Hn Hc Ht] E Hg -> H0.
  assert (∀ u, has_lock (pcs u) = false) as Hoth.
  { intros u. destruct (has_lock (pcs u)) eqn:Eu; [|done].
    by destruct (proj2 (li_free _ _ Hl) (ex_intro _ u Eu)). }
  assert (has_lock (locked_pc g) = true) as Hp by by destruct g.
  assert (∀ e, todo (locked_pc g) e = false) as Htd by by destruct g.
  destruct (pending_app enq dn (goal_task g) (ti_prefix _ _ _ _ _ _ Ht)) as [Hpend Hpre].
  rewrite (ti_free _ _ _ _ _ _ Ht eq_refl) in Hpend.
  constructor.
  - apply (lock_start pcs _ t n); [done| | |].
    + intros u. case_thread u t; [by rewrite bool_decide_true|by rewrite bool_decide_false, Hoth].
    + intros u. case_thread u t; [|done]. rewrite E. by destruct g.
    + intros u. case_thread u t; [|done]. rewrite E. by destruct g.
  - apply (node_enter [] nodes nodes' ex pcs t _ n); try done.
    + by intros ?%elem_of_nil.
    + by rewrite E.
    + apply enter_sth.
    + intros n' Hne. by rewrite fn_lookup_insert_ne.
    + by apply holder_local.
  - apply (consumer_frame [] _ con con con_sth); try done.
    + rewrite bool_decide_false by done. by destruct g.
    + rewrite fn_lookup_insert_ne by done. apply Hc.
    + intros _. by apply (ki_free _ _ _ _ _ Hc).
    + by left.
  - constructor; try done.
    + intros u. case_thread u t; [|by rewrite Hoth]. intros _. rewrite Hpend.
      destruct g; try done. cbn [undone locked_pc todo orb]. by rewrite tasks_enter.
    + intros u. case_thread u t; [by destruct g|]. intros Eu%executed_holder. by rewrite Hoth in Eu.
    + intros u imm f h b q'. case_thread u t; [|intros Eu; specialize (Hoth u); by rewrite Eu in Hoth].
      destruct g; try done. intros [= <- <-] [= <- <- <-]. by rewrite fn_lookup_insert.
Qed.

(** [start_lock] appends the node. *)
Lemma core_enqueue q m ex con con_sth pcs enq dn t :
  core_inv (q ++ [(m, false)]) nodes ex con con_sth false pcs enq dn → pcs t = DStartLock g → g ≠ GStop →
  n ∉ (q ++ [(m, false)]).*1 → t ≠ O →
  core_inv ((q ++ [(m, false)]) ++ [(n, false)]) nodes' ex con con_sth false
    (<[t := DDelegate m n g]> pcs) (enq ++ goal_task g) dn.
Proof.
  intros [Hl Hn Hc Ht] E Hg Hnq H0. destruct (pending_app enq dn (goal_task g) (ti_prefix _ _ _ _ _ _ Ht)) as [Hpend Hpre].
  assert (∀ q', (∀ k, k ∈ q'.*1 → k ≠ n) → tasks nodes' q' = tasks nodes q') as Hold.
  { intros q' Hq'. apply tasks_ext. intros k Hk%Hq'. by rewrite fn_lookup_insert_ne. }
  assert (nd_sth (nodes n) = None) as Hnone by by apply (ni_clean _ _ _ _ Hn).
  constructor.
  - apply (lock_enqueue q m n pcs _ t); try done.
    + intros u. case_thread u t; [by rewrite E|done].
    + by rewrite E.
    + by rewrite fn_lookup_insert.
    + intros u Hu. by rewrite fn_lookup_insert_ne.
    + intros u h. by case_thread u t.
  - apply (node_enter _ nodes nodes' ex pcs t _ n); try done.
    + by rewrite E.
    + apply enter_sth.
    + intros n' Hne. by rewrite fn_lookup_insert_ne.
    + cbn. by rewrite fn_lookup_insert.
  - apply (consumer_frame (q ++ [(m, false)]) _ con con con_sth); try done.
    + by rewrite bool_decide_false.
    + rewrite fn_lookup_insert_ne by done. apply Hc.
    + by left.
    + by destruct q.
  - constructor; try done.
    + intros u. case_thread u t; [done|]. intros Hu. rewrite Hpend, (ti_lock _ _ _ _ _ _ Ht u Hu).
      assert (tasks nodes' [(n, false)] = goal_task g) as Htn by (rewrite tasks_enter; by destruct g).
      destruct (undone (pcs u) ex).
      * rewrite (tasks_app nodes' (q ++ [(m, false)])), Htn, Hold; [done|]. by intros k Hk ->.
      * assert (tail ((q ++ [(m, false)]) ++ [(n, false)]) = tail (q ++ [(m, false)]) ++ [(n, false)]) as ->
          by by destruct q.
        rewrite (tasks_app nodes' (tail (q ++ [(m, false)]))), Htn, Hold; [done|].
        intros k Hk ->. apply Hnq. destruct q as [|e q]; [by apply elem_of_nil in Hk|]. by right.
    + by destruct q.
    + intros u. case_thread u t; [done|apply Ht].
    + intros u imm f h b q'. case_thread u t; [done|]. intros Eu Eq. destruct q as [|[h' b'] q]; injection Eq as <- <- <-.
      all: rewrite fn_lookup_insert_ne; [by eapply (ti_imm _ _ _ _ _ _ Ht)|]. all: by intros ->; apply Hnq; left.
Qed.
End enter.

(** A thread works on the node it links. *)
Lemma core_write q nodes nodes' ex con con' con_sth pcs enq dn t p m n :
  core_inv q nodes ex con con_sth false pcs enq dn → linking (pcs t) = Some (m, n) → linking p = Some (m, n) →
  has_lock (pcs t) = false → t ≠ O →
  (∀ n', n' ≠ n → nodes' n' = nodes n') → nd_sth (nodes n) = None → nd_task (nodes' n) = nd_task (nodes n) →
  (nd_sth (nodes' n) = None ∨ nd_sth (nodes' n) = Some t ∧ p = DOnWait m n LNode (ResLock n)) →
  node_local nodes' t p → con_is_active con' = con_is_active con →
  core_inv q nodes' ex con' con_sth false (<[t := p]> pcs) enq dn.
Proof.
  intros [Hl Hn Hc Ht] H1 H2 H3 H0 Hn' Hnone Htask Hsth Hloc Ha.
  assert (has_lock p = false) as Hp by by destruct p.
  constructor.
  - apply (lock_frame q pcs); [done|intros u; case_thread u t; congruence..|].
    intros u h. case_thread u t; [|by left]. intros E%head_holder. congruence.
  - by apply (node_write q nodes nodes' ex pcs t p m n).
  - apply (consumer_frame q q con con' con_sth); try done.
    + rewrite bool_decide_false by done. by destruct p.
    + rewrite fn_lookup_insert_ne by done. apply Hc.
    + by destruct p.
    + by left.
    + rewrite Ha. apply Hc.
  - constructor; try apply Ht.
    + intros u. case_thread u t; [by rewrite Hp|]. intros Hu. rewrite (ti_lock _ _ _ _ _ _ Ht u Hu).
      symmetry. apply tasks_ext. intros k _. destruct (decide (k = n)) as [->|]; [done|by rewrite Hn'].
    + intros u. case_thread u t; [by destruct p|apply Ht].
    + intros u imm f h b q'. case_thread u t; [by intros ->|]. intros Eu Eq.
      rewrite <-(ti_imm _ _ _ _ _ _ Ht u imm f h b q' Eu Eq). destruct (decide (h = n)) as [->|]; [done|by rewrite Hn'].
Qed.

(** It links the node. *)
Lemma core_set_next q1 q2 nodes ex con con_sth pcs enq dn t p m n b :
  core_inv (q1 ++ (m, false) :: (n, b) :: q2) nodes ex con con_sth false pcs enq dn →
  linking (pcs t) = Some (m, n) → linking p = None → has_lock (pcs t) = false → has_lock p = false → t ≠ O →
  is_consumer_pc p = false → filled (nodes n) → node_local nodes t p →
  (in_node (pcs t) = true → p = DSuspended (ResLock n)) →
  core_inv (q1 ++ (m, true) :: (n, b) :: q2) nodes ex con con_sth false (<[t := p]> pcs) enq dn.
Proof.
  intros [Hl Hn Hc Ht] H1 H2 H3 H4 H0 Hcp Hf Hloc Hin. constructor.
  - apply (lock_set_next q1 q2 m n b pcs _ t); try done.
    + intros u. case_thread u t; [congruence|done].
    + by rewrite fn_lookup_insert.
    + intros u Hu. by rewrite fn_lookup_insert_ne.
    + intros u h. case_thread u t; [intros E%head_holder; congruence|done].
  - by apply node_set_next.
  - apply (consumer_frame (q1 ++ (m, false) :: (n, b) :: q2) _ con con con_sth); try done.
    + by rewrite bool_decide_false.
    + rewrite fn_lookup_insert_ne by done. apply Hc.
    + intros E%inactive_holder. congruence.
    + by left.
    + by destruct q1.
  - constructor; try apply Ht.
    + intros u. case_thread u t; [by rewrite H4|]. intros Hu. rewrite (ti_lock _ _ _ _ _ _ Ht u Hu).
      destruct (undone (pcs u) ex); [by rewrite tasks_linked|].
      destruct q1 as [|e q1]; [done|]. cbn [tail app]. by rewrite tasks_linked.
    + by destruct q1.
    + intros u. case_thread u t; [intros E%executed_holder; congruence|apply Ht].
    + intros u imm f h b' q'. case_thread u t; [by intros ->|]. intros Eu Eq.
      destruct q1 as [|[h' b''] q1]; injection Eq as <- <- <-; by eapply (ti_imm _ _ _ _ _ _ Ht).
Qed.

(** * Steps *)

Lemma pc_facts s t : del_inv s → pc_ok (dl_pcs s t) ∧ (t ≠ O → is_consumer_pc (dl_pcs s t) = false).
Proof.
  intros [Hc Ho]. split; [apply Ho|]. intros Ht.
  pose proof (ki_thread _ _ _ _ _ (ci_con _ _ _ _ _ _ _ _ _ Hc) t) as H. destruct (is_consumer_pc _); [|done].
  by destruct Ht, H as [-> _].
Qed.

(** The holder moves and leaves everything else alone. *)
Lemma inv_quiet s t p ex :
  del_inv s → has_lock (dl_pcs s t) = true → has_lock p = true →
  (∀ h, pc_head p = Some h → fst <$> head (dl_queue s) = Some h) →
  todo p ex = todo (dl_pcs s t) (dl_executed s) → undone p ex = undone (dl_pcs s t) (dl_executed s) →
  (saw_executed p = true → ex = true) → (saw_inactive p = true → con_is_active (dl_con s) = false) →
  is_consumer_pc p = bool_decide (t = O) → con_saved p = con_saved (dl_pcs s t) →
  pc_ok p → claims p = claims (dl_pcs s t) → saved p = saved (dl_pcs s t) → unused p = false →
  awake_of p = awake_of (dl_pcs s t) → (∀ imm f, p ≠ DImmExec imm f) →
  del_inv (set_dpc t p (set_executed ex s)).
Proof.
  intros [Hc Ho] H1 H2 Hh Htd Hun Hex Hin Hcp Hcs Hpc Hcl Hsv Hu Haw Himm.
  pose proof (ci_con _ _ _ _ _ _ _ _ _ Hc) as Hk. pose proof (ki_finished _ _ _ _ _ Hk) as Hfin.
  assert (suspended (dl_pcs s t) = false) as Hns by by destruct (dl_pcs s t).
  split; cbn.
  - rewrite Hfin in *. eapply core_step; try done.
    destruct (decide (t = O)) as [->|]; [rewrite fn_lookup_insert, Hcs|rewrite fn_lookup_insert_ne by done]; apply Hk.
  - apply obj_move; try done.
    + intros z Hz. split_and!; [congruence|done|congruence|congruence|by destruct p|].
      right. intros _. by left.
    + intros z Hz. left. congruence.
    + by intros ->.
    + intros Ht. rewrite Haw. destruct (awake_of (dl_pcs s t)) eqn:E; [|done].
      by destruct Ht, (ol_awake _ _ _ _ _ _ (oi_local _ _ _ _ Ho t) n E).
    + intros _. apply (not_awake _ _ _ _ _ Ho). intros z [E|[n E]]; by rewrite E in Hns.
Qed.

Lemma set_executed_same (s : del) : set_executed (dl_executed s) s = s.
Proof. by destruct s. Qed.

Lemma set_queue_same q (s : del) : q = dl_queue s → set_queue q s = s.
Proof. by intros ->; destruct s. Qed.

Lemma inv_quiet_same s t p :
  del_inv s → has_lock (dl_pcs s t) = true → has_lock p = true →
  (∀ h, pc_head p = Some h → fst <$> head (dl_queue s) = Some h) →
  todo p (dl_executed s) = todo (dl_pcs s t) (dl_executed s) →
  undone p (dl_executed s) = undone (dl_pcs s t) (dl_executed s) →
  (saw_executed p = true → dl_executed s = true) → (saw_inactive p = true → con_is_active (dl_con s) = false) →
  is_consumer_pc p = bool_decide (t = O) → con_saved p = con_saved (dl_pcs s t) →
  pc_ok p → claims p = claims (dl_pcs s t) → saved p = saved (dl_pcs s t) → unused p = false →
  awake_of p = awake_of (dl_pcs s t) → (∀ imm f, p ≠ DImmExec imm f) → del_inv (set_dpc t p s).
Proof. intros. rewrite <-(set_executed_same s) at 1. by apply inv_quiet. Qed.

Lemma holder_queue s t : del_inv s → has_lock (dl_pcs s t) = true → ∃ h b q, dl_queue s = (h, b) :: q.
Proof.
  intros [Hc _] Ht. pose proof (proj2 (li_free _ _ (ci_lock _ _ _ _ _ _ _ _ _ Hc)) (ex_intro _ t Ht)) as Hne.
  destruct (dl_queue s) as [|[h b] q]; [done|eauto].
Qed.

Lemma holder_facts s t :
  del_inv s →
  (saw_executed (dl_pcs s t) = true → dl_executed s = true)
  ∧ (saw_inactive (dl_pcs s t) = true → con_is_active (dl_con s) = false)
  ∧ (∀ h, pc_head (dl_pcs s t) = Some h → fst <$> head (dl_queue s) = Some h).
Proof. intros [[Hl _ Hk Ht] _]. split_and!; [apply Ht|apply Hk|apply Hl]. Qed.

Lemma step_unlock s t (u : unlock_kind) :
  del_inv s → dl_pcs s (S t) = DUnlock u →
  del_inv (settle (S t) s (head ← first_node s;
    let s := set_executed true s in
    if con_is_active (dl_con s) then Ok (set_dpc (S t) (DFollow u head) s)
    else match u with
         | UWait z => Ok (set_dpc (S t) (DCheckUnlock z head) s)
         | _ => Ok (set_dpc (S t) (DTryUnlock u head) s)
         end)).
Proof.
  intros Hi E. destruct (pc_facts s (S t) Hi) as [Hpc _]. rewrite E in Hpc.
  assert (has_lock (dl_pcs s (S t)) = true) as Hl by by rewrite E.
  destruct (holder_queue s (S t) Hi Hl) as (h & b & q & Hq). unfold first_node. rewrite Hq. cbn.
  destruct (con_is_active (dl_con s)) eqn:Ha; [|destruct u]; cbn; try done.
  - apply inv_quiet; by rewrite ?E, ?Hq.
  - apply inv_quiet; by rewrite ?E, ?Hq.
  - apply inv_quiet; by rewrite ?E, ?Hq.
Qed.

Lemma client_awake s t :
  del_inv s → t ≠ O → suspended (dl_pcs s t) = false → awake_of (dl_pcs s t) = None ∧ awake_of (dl_pcs s O) ≠ Some t.
Proof.
  intros [_ Ho] Ht Hs. split.
  - destruct (awake_of (dl_pcs s t)) eqn:E; [|done].
    by destruct Ht, (ol_awake _ _ _ _ _ _ (oi_local _ _ _ _ Ho t) n E).
  - apply (not_awake _ _ _ _ _ Ho). intros z [E|[n E]]; by rewrite E in Hs.
Qed.

(** The holder, which saw the head executed and the consumer inactive, unlocks. *)
Lemma inv_release s t p h cs :
  del_inv s → pc_head (dl_pcs s t) = Some h → saw_executed (dl_pcs s t) = true → saw_inactive (dl_pcs s t) = true →
  dl_queue s = [(h, false)] → has_lock p = false → linking p = None → in_node p = false →
  node_local (dl_nodes s) t p → is_consumer_pc p = bool_decide (t = O) →
  cs = (if con_saved (<[t := p]> (dl_pcs s) O) then Some O else None) →
  obj_inv (dl_con s) (dl_objs s) (pending_tasks (dl_enq s) (dl_done s)) (<[t := p]> (dl_pcs s)) →
  del_inv (set_queue [] (set_dpc t p (set_con_sth cs s))).
Proof.
  intros Hi Hh Hex Hina Hq H1 H2 H3 H4 H5 H6 Ho. destruct (holder_facts s t Hi) as (Hex' & Hina' & _).
  destruct Hi as [Hc _]. split; cbn; [|done]. pose proof (ki_finished _ _ _ _ _ (ci_con _ _ _ _ _ _ _ _ _ Hc)) as Hfin.
  rewrite Hq, (Hex' Hex), Hfin in *.
  eapply (core_unlock h); try done; [by apply inactive_holder|by destruct (dl_pcs s t)..|by apply Hina'].
Qed.

Lemma set_con_sth_same (s : del) : set_con_sth (dl_con_sth s) s = s.
Proof. by destruct s. Qed.

Lemma client_saved s t p :
  del_inv s → t ≠ O → dl_con_sth s = (if con_saved (<[t := p]> (dl_pcs s) O) then Some O else None).
Proof. intros [Hc _] Ht. rewrite fn_lookup_insert_ne by done. apply (ci_con _ _ _ _ _ _ _ _ _ Hc). Qed.

Lemma step_try_unlock s t (u : unlock_kind) h r q :
  del_inv s → dl_pcs s (S t) = DTryUnlock u h → sq_apply (S t) (TryUnlock h) (dl_queue s) r q →
  (r = RBool true → del_inv (set_queue q (set_dpc (S t) (unlocked_pc u) s)))
  ∧ (r = RBool false → del_inv (set_queue q (set_dpc (S t) (DFollow u h) s))).
Proof.
  intros Hi E Ha. destruct (pc_facts s (S t) Hi) as [Hpc _]. rewrite E in Hpc. destruct u; try done.
  assert (suspended (dl_pcs s (S t)) = false) as Hsu by by rewrite E.
  destruct (client_awake s (S t) Hi (Nat.neq_succ_0 t) Hsu) as [_ Hna].
  destruct (holder_facts s (S t) Hi) as (Hex & _). rewrite E in Hex.
  inversion Ha; subst; split; intros Hr; try done.
  - rewrite <-(set_con_sth_same s) at 1. apply (inv_release _ _ _ h); rewrite ?E; try done.
    + by apply client_saved.
    + apply obj_move; rewrite ?E; try done. apply Hi.
  - rewrite set_queue_same by done. apply inv_quiet_same; rewrite ?E; try done.
    intros ? [= <-]. by match goal with Hq : _ = dl_queue s |- _ => rewrite <-Hq end.
Qed.

(** ** unlock_and_wait *)

Lemma step_check_unlock s t z h r q :
  del_inv s → dl_pcs s (S t) = DCheckUnlock z h → sq_apply (S t) (IsUnlockable h) (dl_queue s) r q →
  (r = RBool true → del_inv (set_queue q (set_dpc (S t) (DSaveWait z h) s)))
  ∧ (r = RBool false → del_inv (set_queue q (set_dpc (S t) (DFollow (UWait z) h) s))).
Proof.
  intros Hi E Ha. destruct (holder_facts s (S t) Hi) as (Hex & Hin & Hh). rewrite E in Hex, Hin, Hh.
  assert (q = dl_queue s) as Hq by by inversion Ha; subst.
  split; intros ->; rewrite set_queue_same by done; apply inv_quiet_same; by rewrite ?E.
Qed.

(** A thread saves its continuation in its object, keeping its role. *)
Lemma inv_save s t p z :
  del_inv s → t ≠ O → claims (dl_pcs s t) = Some z → dl_objs s z = None → suspended (dl_pcs s t) = false →
  claims p = Some z → pc_ok p → saved p = true → awake_of p = None →
  (unused p = true → unused (dl_pcs s t) = true) → starting p = false → (∀ imm f, p ≠ DImmExec imm f) →
  core_inv (dl_queue s) (dl_nodes s) (dl_executed s) (dl_con s) (dl_con_sth s) (dl_finished s)
    (<[t := p]> (dl_pcs s)) (dl_enq s) (dl_done s) →
  del_inv (settle t s (s ← save_sth (LObj z) 0 t s; Ok (set_dpc t p s))).
Proof.
  intros Hi Ht Hz Ho Hs Hp Hpc Hsv Haw Hun Hst Himm Hc. unfold save_sth. rewrite Ho. cbn. split; cbn; [done|].
  apply obj_save; try done; [apply Hi|]. by apply client_awake.
Qed.

Lemma step_save_wait s t z h :
  del_inv s → dl_pcs s (S t) = DSaveWait z h →
  del_inv (settle (S t) s (s ← save_sth (LObj z) 0 (S t) s; Ok (set_dpc (S t) (DOnUnlock z h) s))).
Proof.
  intros Hi E. destruct (holder_facts s (S t) Hi) as (Hex & Hin & Hh). rewrite E in Hex, Hin, Hh.
  pose proof (ol_place _ _ _ _ _ _ (oi_local _ _ _ _ (di_obj _ Hi) (S t)) z) as Hpl. rewrite E in Hpl.
  apply inv_save; rewrite ?E; try done.
  - by destruct (Hpl eq_refl) as [|[]].
  - pose proof (ki_finished _ _ _ _ _ (ci_con _ _ _ _ _ _ _ _ _ (di_core _ Hi))) as Hf.
    destruct Hi as [Hc _]. rewrite Hf in *. eapply core_step; rewrite ?E; try done.
    rewrite fn_lookup_insert_ne by done. apply Hc.
Qed.

Lemma step_on_unlock s t z h r q :
  del_inv s → dl_pcs s (S t) = DOnUnlock z h → sq_apply (S t) (TryUnlock h) (dl_queue s) r q →
  (r = RBool true → del_inv (set_queue q (set_dpc (S t) (DSuspended (ResWait z)) s)))
  ∧ (r = RBool false →
     del_inv (set_queue q (settle (S t) s (_ ← assert_ (bool_decide (is_Some (dl_objs s z)));
       Ok (set_dpc (S t) (DFollow (UWait z) h) (set_obj z None s)))))).
Proof.
  intros Hi E Ha. destruct (holder_facts s (S t) Hi) as (Hex & Hin & Hh). rewrite E in Hex, Hin, Hh.
  assert (suspended (dl_pcs s (S t)) = false) as Hsu by by rewrite E.
  destruct (client_awake s (S t) Hi (Nat.neq_succ_0 t) Hsu) as [_ Hna].
  pose proof (ol_place _ _ _ _ _ _ (oi_local _ _ _ _ (di_obj _ Hi) (S t)) z) as Hpl. rewrite E in Hpl.
  destruct (Hpl eq_refl) as [Hz|[]]; [|done]. cbn in Hz. rewrite Hz. cbn.
  inversion Ha; subst; split; intros Hr; try done.
  - rewrite <-(set_con_sth_same s) at 1. apply (inv_release _ _ _ h); rewrite ?E; try done.
    + by apply client_saved.
    + apply obj_move; rewrite ?E; try done; [apply Hi|..].
      * intros z' [= <-]. split_and!; try done. by left.
      * intros z' [= <-]. by left.
  - pose proof (ki_finished _ _ _ _ _ (ci_con _ _ _ _ _ _ _ _ _ (di_core _ Hi))) as Hf.
    match goal with Hq : _ = dl_queue s |- _ => rewrite Hq end. split; cbn.
    + destruct Hi as [Hc _]. rewrite Hf in *. eapply core_step; rewrite ?E; try done.
      rewrite fn_lookup_insert_ne by done. apply Hc.
    + eapply obj_unsave; rewrite ?E; try done; [apply Hi|apply Hi|by right].
Qed.

(** ** try_follow_head *)

Lemma inv_follow s t p h n b q :
  del_inv s → dl_queue s = (h, true) :: (n, b) :: q → has_lock (dl_pcs s t) = true → dl_executed s = true →
  todo (dl_pcs s t) true = false → undone (dl_pcs s t) true = false → has_lock p = true →
  todo p true = true → pc_head p = Some n → saw_inactive p = false → saw_executed p = false →
  is_consumer_pc p = bool_decide (t = O) → con_saved p = con_saved (dl_pcs s t) →
  pc_ok p → claims p = claims (dl_pcs s t) → saved p = saved (dl_pcs s t) → unused p = false →
  awake_of p = awake_of (dl_pcs s t) → (∀ imm f, p ≠ DImmExec imm f) →
  del_inv (set_queue ((n, b) :: q) (set_dpc t p s)).
Proof.
  intros Hi Hq H1 Hex Htd Hun H2 Hp Hh Hin Hse Hcp Hcs Hpc Hcl Hsv Hu Haw Himm.
  assert (suspended (dl_pcs s t) = false) as Hns by by destruct (dl_pcs s t).
  destruct Hi as [Hc Ho]. pose proof (ki_finished _ _ _ _ _ (ci_con _ _ _ _ _ _ _ _ _ Hc)) as Hf. split; cbn.
  - rewrite Hq, Hf, Hex in *. by eapply core_follow.
  - apply obj_move; try done.
    + intros z Hz. split_and!; [congruence|done|congruence|congruence|by destruct p|].
      right. intros _. by left.
    + intros z Hz. left. congruence.
    + by intros ->.
    + intros Ht. rewrite Haw. destruct (awake_of (dl_pcs s t)) eqn:E; [|done].
      by destruct Ht, (ol_awake _ _ _ _ _ _ (oi_local _ _ _ _ Ho t) n0 E).
    + intros _. apply (not_awake _ _ _ _ _ Ho). intros z [E|[k E]]; by rewrite E in Hns.
Qed.

Lemma step_follow s t (u : unlock_kind) h r q :
  del_inv s → dl_pcs s (S t) = DFollow u h → sq_apply (S t) (TryFollowHead h) (dl_queue s) r q →
  (∀ n, r = RNext (Some n) → del_inv (set_queue q (set_dpc (S t) (DNext u n) s)))
  ∧ (r = RNext None → del_inv (set_queue q (set_dpc (S t) (DHelper u) s))).
Proof.
  intros Hi E Ha. destruct (pc_facts s (S t) Hi) as [Hpc _]. rewrite E in Hpc.
  destruct (holder_facts s (S t) Hi) as (Hex & Hin & Hh). rewrite E in Hex, Hin, Hh.
  inversion Ha; subst; split; try done.
  - intros n' [= <-]. apply (inv_follow _ _ _ h _ _ _ Hi); rewrite ?E; try done. by apply Hex.
  - intros _. rewrite set_queue_same by done. apply inv_quiet_same; rewrite ?E; try done; by rewrite Hex.
Qed.

(** ** Waking another thread *)

(** A suspended thread that waits for no object becomes runnable. *)
Lemma obj_resume con objs pend pcs v r :
  obj_inv con objs pend pcs → pcs v = DSuspended r → (v = O → r = ResConsume) →
  (∃ n, r = ResLock n) ∨ r = ResConsume →
  obj_inv con objs pend (<[v := resume_pc r]> pcs).
Proof.
  intros Hi E Hv Hr.
  assert (claims (resume_pc r) = None ∧ claims (pcs v) = None) as [Hc Hc'].
  { rewrite E. by destruct Hr as [[n ->]| ->]. }
  apply obj_move; rewrite ?Hc, ?Hc'; try done.
  - by destruct Hr as [[n ->]| ->].
  - intros imm f. by destruct Hr as [[n ->]| ->].
  - intros ->. rewrite E. by destruct Hr as [[n ->]| ->].
  - intros _. by destruct Hr as [[n ->]| ->].
  - intros _. apply (not_awake _ _ _ _ _ Hi). intros z [E'|[n E']]; destruct Hr as [[n' ->]| ->]; congruence.
Qed.

(** Thread [t] hands the lock over, having made sure that [s'] is right but for
    the threads. *)
Lemma inv_hand_over s s' t v (u : unlock_kind) r :
  del_inv s → t ≠ O → t ≠ v → has_lock (dl_pcs s t) = true → unlock_obj u = claims (dl_pcs s t) →
  saved (dl_pcs s t) = false → (u ≠ UStop true) → (u ≠ UStop false) →
  dl_pcs s v = DSuspended r → (v = O → r = ResConsume) → (∃ n, r = ResLock n) ∨ r = ResConsume →
  dl_pcs s' = dl_pcs s → dl_con s' = dl_con s → dl_objs s' = dl_objs s → dl_enq s' = dl_enq s → dl_done s' = dl_done s →
  (∀ p, has_lock p = false → linking p = None → in_node p = false → is_consumer_pc p = false →
     node_local (dl_nodes s') t p → con_saved p = false →
     core_inv (dl_queue s') (dl_nodes s') (dl_executed s') (dl_con s') (dl_con_sth s') (dl_finished s')
       (<[t := p]> (<[v := resume_pc r]> (dl_pcs s))) (dl_enq s') (dl_done s')) →
  del_inv (settle t s (hand_over t v u s')).
Proof.
  intros Hi Ht Htv Hl Hu Hsv Hu1 Hu2 Ev Hv Hr E1 E2 E3 E4 E5 Hcore.
  assert (suspended (dl_pcs s t) = false) as Hsu by by destruct (dl_pcs s t).
  assert (obj_inv (dl_con s') (dl_objs s') (pending_tasks (dl_enq s') (dl_done s')) (<[v := resume_pc r]> (dl_pcs s))) as Ho.
  { rewrite E2, E3, E4, E5. by apply obj_resume; [apply Hi|..]. }
  assert (awake_of ((<[v := resume_pc r]> (dl_pcs s)) O) ≠ Some t) as Hna.
  { apply (not_awake _ _ _ _ _ Ho). intros z Hs. rewrite fn_lookup_insert_ne in Hs by done.
    destruct Hs as [E|[n E]]; by rewrite E in Hsu. }
  unfold hand_over, wake. rewrite E1, Ev. cbn.
  destruct u as [|z|[]]; try done; cbn; rewrite ?E3.
  - split; cbn; rewrite E1; [by apply Hcore|]. apply obj_move; try done.
    intros z. rewrite fn_lookup_insert_ne by done. by rewrite <-Hu.
  - assert (dl_objs s z = None) as Hz.
    { pose proof (ol_place _ _ _ _ _ _ (oi_local _ _ _ _ (di_obj _ Hi) t) z (eq_sym Hu)) as [H|[H _]].
      - by rewrite Hsv in H. - by rewrite Hsu in H. }
    rewrite Hz. cbn. split; cbn; rewrite E1; [by apply Hcore|].
    apply obj_save; try done; rewrite ?fn_lookup_insert_ne by done; try done; by rewrite E3.
Qed.

Lemma task_head s t h b q :
  del_inv s → has_lock (dl_pcs s t) = true → undone (dl_pcs s t) (dl_executed s) = true → dl_queue s = (h, b) :: q →
  pending_tasks (dl_enq s) (dl_done s)
  = match nd_task (dl_nodes s h) with Some f => f :: tasks (dl_nodes s) q | None => tasks (dl_nodes s) q end.
Proof.
  intros [Hc _] Hl Hu Hq. rewrite (ti_lock _ _ _ _ _ _ (ci_task _ _ _ _ _ _ _ _ _ Hc) t Hl), Hu, Hq. apply tasks_cons.
Qed.

Lemma step_next s t (u : unlock_kind) n :
  del_inv s → dl_pcs s (S t) = DNext u n →
  del_inv (settle (S t) s (match nd_sth (dl_nodes s n) with
     | Some v => hand_over (S t) v u (set_sth n None (set_executed false s))
     | None => Ok (set_dpc (S t) (DHelper u) (set_executed false s))
     end)).
Proof.
  intros Hi E. destruct (pc_facts s (S t) Hi) as [Hpc _]. rewrite E in Hpc.
  assert (has_lock (dl_pcs s (S t)) = true) as Hl by by rewrite E.
  destruct (holder_queue s (S t) Hi Hl) as (h & b & q & Hq).
  destruct (holder_facts s (S t) Hi) as (_ & _ & Hh). rewrite E, Hq in Hh. injection (Hh n eq_refl) as <-.
  destruct (nd_sth (dl_nodes s h)) as [v|] eqn:Ev.
  - pose proof (head_waiter _ _ _ _ _ _ _ _ (ci_lock _ _ _ _ _ _ _ _ _ (di_core _ Hi))
      (ci_node _ _ _ _ _ _ _ _ _ (di_core _ Hi)) Hq Ev) as Hv.
    assert (v ≠ O) as Hv0.
    { intros ->. pose proof (ki_thread _ _ _ _ _ (ci_con _ _ _ _ _ _ _ _ _ (di_core _ Hi)) O) as H.
      rewrite Hv in H. cbn in H. destruct H as [_ H]. by specialize (H eq_refl). }
    assert (filled (dl_nodes s h)) as Hf.
    { pose proof (ni_head _ _ _ _ (ci_node _ _ _ _ _ _ _ _ _ (di_core _ Hi)) (S t) h b q Hl Hq) as H. by rewrite E in H. }
    assert (nd_task (dl_nodes s h) = None) as Htask.
    { unfold filled in Hf. destruct (nd_task _); [|done]. destruct Hf as [Hf _]. congruence. }
    eapply (inv_hand_over s _ (S t) v u (ResLock h)); try done; try (by rewrite E); try (by destruct u).
    + intros <-. congruence.
    + by left; exists h.
    + intros p H1 H2 H3 H4 H5 H6. cbn in *.
      pose proof (ki_finished _ _ _ _ _ (ci_con _ _ _ _ _ _ _ _ _ (di_core _ Hi))) as Hfin.
      pose proof (task_head s (S t) h b q Hi Hl ltac:(by rewrite E) Hq) as Hpend. rewrite Htask in Hpend.
      destruct Hi as [Hc Ho]. rewrite Hq, Hfin in *.
      apply (core_pass h b q (dl_nodes s) _ (dl_executed s) false _ (dl_con_sth s)); rewrite ?E, ?Hv; try done.
      * intros <-. congruence.
      * intros n Hn. by rewrite fn_lookup_insert_ne.
      * by rewrite fn_lookup_insert.
      * intros n. destruct (decide (n = h)) as [->|Hn]; [by rewrite fn_lookup_insert|].
        rewrite fn_lookup_insert_ne by done. intros Hs. apply (ni_sth _ _ _ _ (ci_node _ _ _ _ _ _ _ _ _ Hc)) in Hs.
        rewrite Hv in Hs. destruct Hs as [[= ->]|[m ?]]; done.
      * left. by rewrite fn_lookup_insert.
      * by rewrite fn_lookup_insert.
      * by rewrite bool_decide_false.
      * rewrite !fn_lookup_insert_ne by done. apply Hc.
  - apply inv_quiet; rewrite ?E; try done; by destruct u.
Qed.

Lemma step_helper s t (u : unlock_kind) :
  del_inv s → dl_pcs s (S t) = DHelper u →
  del_inv (settle (S t) s (match dl_con_sth s with
     | Some v => hand_over (S t) v u (set_con_sth None s)
     | None => Fail AssertionFailure
     end)).
Proof.
  intros Hi E. destruct (pc_facts s (S t) Hi) as [Hpc _]. rewrite E in Hpc.
  assert (has_lock (dl_pcs s (S t)) = true) as Hl by by rewrite E.
  destruct (holder_queue s (S t) Hi Hl) as (h & b & q & Hq).
  pose proof (di_core _ Hi) as Hc. pose proof (ci_con _ _ _ _ _ _ _ _ _ Hc) as Hk.
  assert (has_lock (dl_pcs s O) = false) as Ho0.
  { destruct (has_lock (dl_pcs s O)) eqn:Eo; [|done].
    by pose proof (li_excl _ _ (ci_lock _ _ _ _ _ _ _ _ _ Hc) O (S t) Eo Hl). }
  assert (dl_pcs s O = DSuspended ResConsume) as E0.
  { pose proof (proj2 (ki_thread _ _ _ _ _ Hk O) eq_refl) as H. destruct (pc_facts s O Hi) as [Hpc0 _].
    destruct (dl_pcs s O) eqn:E0; try done. by destruct r. }
  rewrite (ki_sth _ _ _ _ _ Hk), E0. cbn.
  eapply (inv_hand_over s _ (S t) O u ResConsume); try done; try (by rewrite E); try (by destruct u).
  - by right.
  - intros p H1 H2 H3 H4 H5 H6. cbn in *.
    pose proof (ki_finished _ _ _ _ _ Hk) as Hfin. clear Hi.
    pose proof (ti_lock _ _ _ _ _ _ (ci_task _ _ _ _ _ _ _ _ _ Hc) _ Hl) as Hpend.
    pose proof (ni_head _ _ _ _ (ci_node _ _ _ _ _ _ _ _ _ Hc) (S t) h b q Hl Hq) as Hhd.
    rewrite E in Hpend, Hhd. rewrite Hq, Hfin in *.
    apply (core_pass h b q (dl_nodes s) _ (dl_executed s) (dl_executed s) _ (dl_con_sth s)); rewrite ?E, ?E0; try done.
    + intros n Hs. apply (ni_sth _ _ _ _ (ci_node _ _ _ _ _ _ _ _ _ Hc)) in Hs. rewrite E0 in Hs.
      by destruct Hs as [|[]].
    + by right.
Qed.

(** ** lock_or_delegate *)

Lemma step_start_lock s t g r q :
  del_inv s → dl_pcs s (S t) = DStartLock g → sq_apply (S t) StartLock (dl_queue s) r q →
  (∀ n, r = RLocked n → del_inv (set_queue q (enqueue n g (set_dpc (S t) (locked_pc g) s))))
  ∧ (∀ m n, r = REnqueued m n → del_inv (set_queue q (enqueue n g (set_dpc (S t) (DDelegate m n g) s)))).
Proof.
  intros Hi E Ha. destruct (pc_facts s (S t) Hi) as [Hpc _]. rewrite E in Hpc. cbn in Hpc.
  assert (g ≠ GStop) as Hg by by intros ->.
  assert (suspended (dl_pcs s (S t)) = false) as Hsu by by rewrite E.
  destruct (client_awake s (S t) Hi (Nat.neq_succ_0 t) Hsu) as [_ Hna].
  pose proof (di_core _ Hi) as Hc. pose proof (ki_finished _ _ _ _ _ (ci_con _ _ _ _ _ _ _ _ _ Hc)) as Hf.
  destruct (pending_app (dl_enq s) (dl_done s) (goal_task g) (ti_prefix _ _ _ _ _ _ (ci_task _ _ _ _ _ _ _ _ _ Hc)))
    as [Hpend _].
  inversion Ha; subst; split; try done.
  - intros n' [= <-]. match goal with Hq : _ = dl_queue s |- _ => rewrite <-Hq in Hc end. rewrite Hf in Hc. split; cbn; [rewrite Hf; by apply core_start|].
    rewrite Hpend. destruct g as [|imm f w|]; try done; cbn.
    + rewrite app_nil_r. apply obj_move; rewrite ?E; try done. apply Hi.
    + eapply obj_start; try done; [apply Hi|by apply Hpc|].
      intros imm' f' [= _ <-]. split; [done|]. by apply (ti_free _ _ _ _ _ _ (ci_task _ _ _ _ _ _ _ _ _ Hc)).
  - intros m' n' [= <- <-]. match goal with Hq : _ = dl_queue s |- _ => rewrite <-Hq in Hc end. rewrite Hf in Hc. split; cbn; [rewrite Hf; by apply core_enqueue|].
    rewrite Hpend. destruct g as [|imm f w|]; try done; cbn.
    + rewrite app_nil_r. apply obj_move; rewrite ?E; try done. apply Hi.
    + eapply obj_start; try done. apply Hi.
Qed.

(** What a thread knows that links its node. *)
Lemma linking_task s t m n f :
  del_inv s → linking (dl_pcs s t) = Some (m, n) → nd_task (dl_nodes s n) = Some f →
  f ∈ pending_tasks (dl_enq s) (dl_done s).
Proof.
  intros [[Hl Hn Hk Ht] _] Hlk Hf. destruct (li_link _ _ Hl t _ Hlk) as (k & b & Hk1 & Hk2). cbn in *.
  destruct (proj1 (li_free _ _ Hl)) as [u Hu]; [by intros E; rewrite E in Hk2|].
  rewrite (ti_lock _ _ _ _ _ _ Ht u Hu). apply list_elem_of_omap. exists n. split; [|done].
  apply list_elem_of_fmap. exists (n, b). split; [done|].
  destruct (undone _ _); [by eapply list_elem_of_lookup_2|].
  destruct (dl_queue s) as [|e q]; [done|]. by eapply list_elem_of_lookup_2.
Qed.

Lemma task_req f z pend : f ∈ pend → func_req f = Some z → z ∈ reqs pend.
Proof. intros. apply list_elem_of_omap. eauto. Qed.

Lemma step_delegate s t m n g :
  del_inv s → dl_pcs s (S t) = DDelegate m n g → del_inv (delegate (S t) m n g s).
Proof.
  intros Hi E. destruct (pc_facts s (S t) Hi) as [Hpc _]. rewrite E in Hpc. cbn in Hpc.
  pose proof (di_core _ Hi) as Hc. pose proof (ki_finished _ _ _ _ _ (ci_con _ _ _ _ _ _ _ _ _ Hc)) as Hf.
  pose proof (ni_local _ _ _ _ (ci_node _ _ _ _ _ _ _ _ _ Hc) (S t)) as Hloc. rewrite E in Hloc. destruct Hloc as [Hs Htk].
  assert (suspended (dl_pcs s (S t)) = false) as Hsu by by rewrite E.
  destruct (client_awake s (S t) Hi (Nat.neq_succ_0 t) Hsu) as [_ Hna].
  destruct g as [|imm f w|]; [|destruct Hpc as [Himm ->]|done].
  - cbn. split; cbn.
    + rewrite Hf in *. eapply core_write; rewrite ?E; try done. { by left. } cbn. split; [done|]. by left.
    + apply obj_move; rewrite ?E; try done. apply Hi.
  - cbn in Htk. assert (f ∈ pending_tasks (dl_enq s) (dl_done s)) as Hfp by (eapply linking_task; [done|by rewrite E|done]).
    destruct (delegate_law f (dl_con s)) as (Hok & Hact & _).
    { apply Hi. } { intros z Hz. apply (oi_pend _ _ _ _ (di_obj _ Hi)). by eapply task_req. }
    assert (∀ p, linking p = Some (m, n) → pc_ok p → claims p = func_obj f → saved p = false → unused p = false →
      starting p = false → awake_of p = None →
      (∀ nodes', nodes' n = DelNode None (Some f) (nd_wait (dl_nodes s n)) (Some f) → node_local nodes' (S t) p) →
      del_inv (set_dpc (S t) p (set_func n f (set_con (con_delegate f (dl_con s)) s)))) as Hgo.
    { intros p H1 H2 H3 H4 H5 H6 H7 H8. split; cbn.
      - rewrite Hf in *. eapply core_write; rewrite ?E; try done.
        + intros n' Hn. by rewrite fn_lookup_insert_ne.
        + by rewrite fn_lookup_insert.
        + left. by rewrite fn_lookup_insert.
        + apply H8. rewrite fn_lookup_insert. by rewrite Hs, Htk.
      - eapply obj_delegate; try done; [apply Hi|intros z Hz; by eapply task_req]. }
    destruct (func_obj f) as [z|] eqn:Ez; cbn; rewrite ?Ez; cbn.
    + apply Hgo; try done. intros nodes' Hn. cbn. rewrite Hn. cbn. split; [done|]. right. by exists z, f.
    + apply Hgo; try done. intros nodes' Hn. cbn. rewrite Hn. split; [done|]. by exists f.
Qed.

Lemma step_wait s t m n l r :
  del_inv s → dl_pcs s (S t) = DWait m n l r →
  del_inv (settle (S t) s (s ← save_sth l n (S t) s; Ok (set_dpc (S t) (DOnWait m n l r) s))).
Proof.
  intros Hi E. pose proof (di_core _ Hi) as Hc. pose proof (ki_finished _ _ _ _ _ (ci_con _ _ _ _ _ _ _ _ _ Hc)) as Hf.
  pose proof (ni_local _ _ _ _ (ci_node _ _ _ _ _ _ _ _ _ Hc) (S t)) as Hloc. rewrite E in Hloc.
  destruct Hloc as [Hs [(-> & -> & Htk)|(z & f & -> & -> & Htk & Hfn & Hz)]].
  - assert (suspended (dl_pcs s (S t)) = false) as Hsu by by rewrite E.
    destruct (client_awake s (S t) Hi (Nat.neq_succ_0 t) Hsu) as [_ Hna].
    unfold save_sth. rewrite Hs. cbn. split; cbn.
    + rewrite Hf in *. eapply core_write; rewrite ?E; try done.
      * intros n' Hn. by rewrite fn_lookup_insert_ne.
      * by rewrite fn_lookup_insert.
      * right. by rewrite fn_lookup_insert.
      * left. by rewrite fn_lookup_insert.
    + apply obj_move; rewrite ?E; try done. apply Hi.
  - pose proof (ol_place _ _ _ _ _ _ (oi_local _ _ _ _ (di_obj _ Hi) (S t)) z) as Hpl. rewrite E in Hpl.
    destruct (Hpl eq_refl) as [Hz0|[]]; [|done]. 
    apply (inv_save s (S t) (DOnWait m n (LObj z) (ResDelegated n z)) z); rewrite ?E; try done.
    rewrite Hf in *. eapply core_write; rewrite ?E; try done; [by left|]. right. by exists z, f.
Qed.

Lemma step_link s t op r q p m n :
  del_inv s → linking (dl_pcs s (S t)) = Some (m, n) → op = SetNext m n → sq_apply (S t) op (dl_queue s) r q →
  linking p = None → has_lock p = false → is_consumer_pc p = false → filled (dl_nodes s n) →
  node_local (dl_nodes s) (S t) p → (in_node (dl_pcs s (S t)) = true → p = DSuspended (ResLock n)) →
  obj_inv (dl_con s) (dl_objs s) (pending_tasks (dl_enq s) (dl_done s)) (<[S t := p]> (dl_pcs s)) →
  r = RSet → del_inv (set_queue q (set_dpc (S t) p s)).
Proof.
  intros [Hc Ho] H1 -> Ha H2 H3 H4 H5 H6 H7 H8 Hr. pose proof (ki_finished _ _ _ _ _ (ci_con _ _ _ _ _ _ _ _ _ Hc)) as Hf.
  split; cbn; [|done]. inversion Ha as [| |q1 m' n' b q2 Hq| | | | | |]; subst; try done.
  match goal with H : _ = dl_queue s |- _ => rewrite <-H in Hc end. rewrite Hf in *.
  eapply core_set_next; try done. by destruct (dl_pcs s (S t)).
Qed.

Lemma step_on_wait s t m n l r ret q :
  del_inv s → dl_pcs s (S t) = DOnWait m n l r → sq_apply (S t) (SetNext m n) (dl_queue s) ret q → ret = RSet →
  del_inv (set_queue q (set_dpc (S t) (DSuspended r) s)).
Proof.
  intros Hi E Ha Hr. pose proof (di_core _ Hi) as Hc.
  pose proof (ni_local _ _ _ _ (ci_node _ _ _ _ _ _ _ _ _ Hc) (S t)) as Hloc. rewrite E in Hloc.
  assert (suspended (dl_pcs s (S t)) = false) as Hsu by by rewrite E.
  destruct (client_awake s (S t) Hi (Nat.neq_succ_0 t) Hsu) as [_ Hna].
  destruct Hloc as [(-> & -> & Htk & Hs)|(z & f & -> & -> & Htk & Hfn & Hz & Hs)].
  - apply (step_link s t (SetNext m n) ret q _ m n); rewrite ?E; try done.
    + unfold filled. by rewrite Htk, Hs.
    + apply obj_move; rewrite ?E; try done. apply Hi.
  - apply (step_link s t (SetNext m n) ret q _ m n); rewrite ?E; try done.
    + unfold filled. by rewrite Htk, Hs, Hfn.
    + apply obj_move; rewrite ?E; try done; [apply Hi|..].
      * intros z' [= <-]. split_and!; try done. by left.
      * intros z' [= <-]. by left.
Qed.

Lemma step_link_node s t m n ret q :
  del_inv s → dl_pcs s (S t) = DSetNext m n → sq_apply (S t) (SetNext m n) (dl_queue s) ret q → ret = RSet →
  del_inv (set_queue q (set_dpc (S t) DIdle s)).
Proof.
  intros Hi E Ha Hr. pose proof (di_core _ Hi) as Hc.
  pose proof (ni_local _ _ _ _ (ci_node _ _ _ _ _ _ _ _ _ Hc) (S t)) as Hloc. rewrite E in Hloc.
  destruct Hloc as (Hs & f & Htk & Hfn).
  assert (suspended (dl_pcs s (S t)) = false) as Hsu by by rewrite E.
  destruct (client_awake s (S t) Hi (Nat.neq_succ_0 t) Hsu) as [_ Hna].
  apply (step_link s t (SetNext m n) ret q _ m n); rewrite ?E; try done.
  - unfold filled. by rewrite Htk, Hs, Hfn.
  - apply obj_move; rewrite ?E; try done. apply Hi.
Qed.

(** The first pending function is done. *)
Lemma pending_done enq (dn : list (F * bool)) f l :
  dn = executed_prefix enq dn → pending_tasks enq dn = f :: l →
  dn ++ [(f, true)] = executed_prefix enq (dn ++ [(f, true)]) ∧ pending_tasks enq (dn ++ [(f, true)]) = l.
Proof.
  unfold pending_tasks, executed_prefix. intros Hpre Hp. rewrite length_app. cbn. rewrite Nat.add_comm. cbn. split.
  - assert (enq !! length dn = Some f) as Hf.
    { rewrite <-(Nat.add_0_r (length dn)), <-lookup_drop, Hp. done. }
    by rewrite (take_S_r _ _ _ Hf), fmap_app, <-Hpre.
  - rewrite <-Nat.add_1_r, <-drop_drop, Hp. done.
Qed.

(** ** execute_or_delegate *)

Lemma step_imm_exec s t imm f :
  del_inv s → dl_pcs s (S t) = DImmExec imm f →
  del_inv (settle (S t) s (r ← imm (dl_con s);
    let '(ret, w, c) := r in
    Ok (set_dpc (S t) (DUnlock (match w with Some z => UWait z | None => UPlain end))
      (log_done f ret (set_executed ret (set_con c s)))))).
Proof.
  intros Hi E. destruct (pc_facts s (S t) Hi) as [Hpc _]. rewrite E in Hpc.
  assert (has_lock (dl_pcs s (S t)) = true) as Hl by by rewrite E.
  destruct (holder_queue s (S t) Hi Hl) as (h & b & q & Hq).
  pose proof (task_head s (S t) h b q Hi Hl ltac:(by rewrite E) Hq) as Hpend.
  pose proof (di_core _ Hi) as Hc. pose proof (ci_task _ _ _ _ _ _ _ _ _ Hc) as Ht.
  rewrite (ti_imm _ _ _ _ _ _ Ht _ _ _ _ _ _ E Hq) in Hpend.
  assert (con_is_active (dl_con s) = false) as Hina.
  { apply (ki_inactive _ _ _ _ _ (ci_con _ _ _ _ _ _ _ _ _ Hc) (S t)). by rewrite E. }
  destruct (Hpc (dl_con s)) as (w & c & -> & Hok & Hw & Hpo & Hwa).
  { apply Hi. } { done. } { intros z Hz. apply (oi_pend _ _ _ _ (di_obj _ Hi)). rewrite Hpend. eapply task_req; [|done]. by left. }
  destruct (pending_done _ _ _ _ (ti_prefix _ _ _ _ _ _ Ht) Hpend) as [Hpre Hpend'].
  pose proof (ni_head _ _ _ _ (ci_node _ _ _ _ _ _ _ _ _ Hc) (S t) h b q Hl Hq) as Hhd. rewrite E in Hhd.
  pose proof (ki_finished _ _ _ _ _ (ci_con _ _ _ _ _ _ _ _ _ Hc)) as Hf.
  split; cbn.
  - rewrite Hq, Hf in *. eapply core_holder; rewrite ?E; try done.
    + by intros ? ? ? [= <- <- <-].
    + rewrite fn_lookup_insert_ne by done. apply Hc.
  - pose proof (di_obj _ Hi) as Ho. rewrite Hpend in Ho. rewrite Hpend'.
    assert (suspended (dl_pcs s (S t)) = false) as Hsu by by rewrite E.
    assert (awake_of (dl_pcs s O) = None) as Haw.
    { destruct (awake_of (dl_pcs s O)) eqn:Ea; [|done].
      assert (has_lock (dl_pcs s O) = true) as H0 by by destruct (dl_pcs s O).
      by pose proof (li_excl _ _ (ci_lock _ _ _ _ _ _ _ _ _ Hc) O (S t) H0 Hl). }
    pose proof (ol_place _ _ _ _ _ _ (oi_local _ _ _ _ Ho (S t))) as Hpl. rewrite E in Hpl.
    eapply (obj_execute _ _ _ f _ _ _ _ true); rewrite ?E; try done.
    + intros u imm' f' Hu Eu. assert (has_lock (dl_pcs s u) = true) as Hlu by by rewrite Eu.
      by apply Hu, (li_excl _ _ (ci_lock _ _ _ _ _ _ _ _ _ Hc)).
    + intros z. rewrite Hpo. naive_solver.
    + intros z Hz%Hwa. by destruct w.
    + destruct w as [z|]; [|done]. destruct Hw as [|Hw]; [done|]. cbn. intros z' [= <-]. done.
    + intros z Hz. split; [|done]. by destruct (Hpl z Hz) as [|[]].
    + by destruct w.
Qed.

(** ** Waiting for an object *)

Lemma step_poll s t z :
  del_inv s → dl_pcs s (S t) = DPoll z →
  del_inv (settle (S t) s (ready ← con_poll z (dl_con s);
    Ok (set_dpc (S t) (if ready : bool then DIdle else DWaitObj z) s))).
Proof.
  intros Hi E. pose proof (di_core _ Hi) as Hc. pose proof (ki_finished _ _ _ _ _ (ci_con _ _ _ _ _ _ _ _ _ Hc)) as Hf.
  assert (suspended (dl_pcs s (S t)) = false) as Hsu by by rewrite E.
  destruct (client_awake s (S t) Hi (Nat.neq_succ_0 t) Hsu) as [_ Hna].
  pose proof (oi_local _ _ _ _ (di_obj _ Hi) (S t)) as Hl. rewrite E in Hl.
  assert (¬ con_waits (dl_con s) z) as Hw by by apply (ol_unused _ _ _ _ _ _ Hl).
  assert (dl_objs s z = None) as Hz by by destruct (ol_place _ _ _ _ _ _ Hl z eq_refl) as [|[]].
  destruct (poll_law z (dl_con s) (oi_ok _ _ _ _ (di_obj _ Hi)) Hw) as [b ->]. cbn.
  destruct b; split; cbn.
  - rewrite Hf in *. eapply core_outside; rewrite ?E; done.
  - apply obj_move; rewrite ?E; try done; [apply Hi|]. intros z' [= <-]. by right.
  - rewrite Hf in *. eapply core_outside; rewrite ?E; done.
  - apply obj_move; rewrite ?E; try done; [apply Hi| |].
    + intros z' [= <-]. split_and!; try done. by right.
    + intros z' [= <-]. by left.
Qed.

Lemma step_wait_obj s t z :
  del_inv s → dl_pcs s (S t) = DWaitObj z →
  del_inv (settle (S t) s (s ← save_sth (LObj z) 0 (S t) s; Ok (set_dpc (S t) (DTryWait z) s))).
Proof.
  intros Hi E. pose proof (di_core _ Hi) as Hc. pose proof (ki_finished _ _ _ _ _ (ci_con _ _ _ _ _ _ _ _ _ Hc)) as Hf.
  pose proof (oi_local _ _ _ _ (di_obj _ Hi) (S t)) as Hl. rewrite E in Hl.
  assert (dl_objs s z = None) as Hz by by destruct (ol_place _ _ _ _ _ _ Hl z eq_refl) as [|[]].
  apply inv_save; rewrite ?E; try done. rewrite Hf in *. eapply core_outside; rewrite ?E; done.
Qed.

Lemma step_try_wait s t z :
  del_inv s → dl_pcs s (S t) = DTryWait z →
  del_inv (settle (S t) s (let '(ret, c) := con_try_wait z (dl_con s) in
    let s := set_con c s in
    if ret : bool then Ok (set_dpc (S t) (DSuspended (ResWait z)) s)
    else _ ← assert_ (bool_decide (is_Some (dl_objs s z))); Ok (set_dpc (S t) DIdle (set_obj z None s)))).
Proof.
  intros Hi E. pose proof (di_core _ Hi) as Hc. pose proof (ki_finished _ _ _ _ _ (ci_con _ _ _ _ _ _ _ _ _ Hc)) as Hf.
  assert (suspended (dl_pcs s (S t)) = false) as Hsu by by rewrite E.
  destruct (client_awake s (S t) Hi (Nat.neq_succ_0 t) Hsu) as [_ Hna].
  pose proof (oi_local _ _ _ _ (di_obj _ Hi) (S t)) as Hl. rewrite E in Hl.
  assert (¬ con_waits (dl_con s) z) as Hw by by apply (ol_unused _ _ _ _ _ _ Hl).
  assert (dl_objs s z = Some (S t)) as Hz by by destruct (ol_place _ _ _ _ _ _ Hl z eq_refl) as [|[]].
  destruct (try_wait_law z (dl_con s) (oi_ok _ _ _ _ (di_obj _ Hi)) Hw) as (b & c & -> & Hok & Hact & Hpo & Hwa).
  destruct b; cbn.
  - split; cbn; [rewrite Hf in *; eapply core_outside; rewrite ?E; done|].
    apply (obj_update (dl_con s) c (dl_objs s) (dl_objs s) (pending_tasks (dl_enq s) (dl_done s)) _);
      [apply Hi|constructor|constructor]; try done; try apply (di_obj _ Hi); rewrite ?E.
    + intros z' [= <-]. by left.
    + intros z' v Hv. destruct (decide (v = S t)) as [->|]; [left|by right]. split; [done|].
      apply (oi_objs _ _ _ _ (di_obj _ Hi)) in Hv. by rewrite E in Hv.
    + intros z' ?%Hpo. by left.
    + by left.
    + intros z' [?|[_ ->]]%Hwa; [by left|by right].
    + intros z' [= <-] _ _. by left.
    + intros z' H. rewrite Hpo. by apply (oi_pend _ _ _ _ (di_obj _ Hi)).
    + intros z' [= <-]. by left.
  - rewrite Hz. cbn. split; cbn; [rewrite Hf in *; eapply core_outside; rewrite ?E; done|].
    eapply obj_unsave; rewrite ?E; try done; [apply Hi| |by left].
    intros z' [?|[]]%Hwa; done.
Qed.

Lemma client_step s s' t : del_inv s → del_step (S t) s s' → del_inv s'.
Proof.
  intros Hi Hs. destruct (pc_facts s (S t) Hi) as [Hpc Hk]. specialize (Hk (Nat.neq_succ_0 t)).
  unfold del_step in Hs. cbn [next_of] in Hs. unfold client_next in Hs.
  destruct (dl_pcs s (S t)) eqn:E; try done.
  - destruct Hs as (r & q & m & Ha & Em & ->). pose proof (step_start_lock s t g r q Hi E Ha) as [H1 H2].
    destruct r; try done; injection Em as <-; cbn; auto.
  - subst s'. by apply step_delegate.
  - subst s'. by apply step_wait.
  - destruct Hs as (ret & q & m & Ha & Em & ->). destruct ret; try done. injection Em as <-. by eapply step_on_wait.
  - destruct Hs as (ret & q & m & Ha & Em & ->). destruct ret; try done. injection Em as <-. by eapply step_link_node.
  - subst s'. by apply step_imm_exec.
  - subst s'. by apply step_unlock.
  - destruct Hs as (r & q & m & Ha & Em & ->). pose proof (step_try_unlock s t u head r q Hi E Ha) as [H1 H2].
    destruct r as [| | |[]|]; try done; injection Em as <-; cbn; auto.
  - destruct Hs as (r & q & m & Ha & Em & ->). pose proof (step_check_unlock s t obj head r q Hi E Ha) as [H1 H2].
    destruct r as [| | |[]|]; try done; injection Em as <-; cbn; auto.
  - subst s'. by apply step_save_wait.
  - destruct Hs as (r & q & m & Ha & Em & ->). pose proof (step_on_unlock s t obj head r q Hi E Ha) as [H1 H2].
    destruct r as [| | |[]|]; try done; injection Em as <-; cbn [settle]; auto.
  - destruct Hs as (r & q & m & Ha & Em & ->). pose proof (step_follow s t u head r q Hi E Ha) as [H1 H2].
    destruct r as [| | | |[]]; try done; injection Em as <-; cbn; auto.
  - subst s'. exact (step_next s t u next Hi E).
  - subst s'. by apply step_helper.
  - subst s'. by apply step_poll.
  - subst s'. by apply step_wait_obj.
  - pose proof (step_try_wait s t obj Hi E) as H. destruct (con_try_wait obj (dl_con s)) as [b c]. by subst s'.
Qed.

(** * The consumer thread *)

Lemma consumer_unsaved s : del_inv s → con_saved (dl_pcs s O) = false → dl_con_sth s = None.
Proof. intros [Hc _] H. by rewrite (ki_sth _ _ _ _ _ (ci_con _ _ _ _ _ _ _ _ _ Hc)), H. Qed.

Lemma step_consumer_loop s :
  del_inv s → dl_pcs s O = KLoop →
  del_inv (settle O s (if dl_finished s then Ok (set_dpc O KExited s)
    else head ← first_node s; Ok (set_dpc O (if dl_executed s then KFollow head else KExecute head) s))).
Proof.
  intros Hi E. pose proof (ki_finished _ _ _ _ _ (ci_con _ _ _ _ _ _ _ _ _ (di_core _ Hi))) as ->.
  assert (has_lock (dl_pcs s O) = true) as Hl by by rewrite E.
  destruct (holder_queue s O Hi Hl) as (h & b & q & Hq). unfold first_node. rewrite Hq. cbn.
  destruct (dl_executed s) eqn:Ex; apply inv_quiet_same; by rewrite ?E, ?Ex, ?Hq.
Qed.

Lemma step_consumer_follow s h r q :
  del_inv s → dl_pcs s O = KFollow h → sq_apply O (TryFollowHead h) (dl_queue s) r q →
  (∀ n, r = RNext (Some n) → del_inv (set_queue q (set_dpc O (KExecute n) s)))
  ∧ (r = RNext None → ∀ b, del_inv (set_queue q (set_dpc O (KProgress true b h None) s))).
Proof.
  intros Hi E Ha. destruct (holder_facts s O Hi) as (Hex & Hin & Hh). rewrite E in Hex, Hin, Hh.
  inversion Ha; subst; split; try done.
  - intros n' [= <-]. apply (inv_follow _ _ _ h _ _ _ Hi); rewrite ?E; try done. by apply Hex.
  - intros _ b. rewrite set_queue_same by done. apply inv_quiet_same; rewrite ?E; try done; by rewrite Hex.
Qed.

(** The consumer saves its continuation, or takes it back. *)
Lemma inv_save_con s p cs :
  del_inv s → has_lock (dl_pcs s O) = true → has_lock p = true → (∀ h, pc_head p = Some h → pc_head (dl_pcs s O) = Some h) →
  todo p (dl_executed s) = todo (dl_pcs s O) (dl_executed s) →
  undone p (dl_executed s) = undone (dl_pcs s O) (dl_executed s) →
  (saw_executed p = true → saw_executed (dl_pcs s O) = true) →
  (saw_inactive p = true → saw_inactive (dl_pcs s O) = true) →
  is_consumer_pc p = true → cs = (if con_saved p then Some O else None) → pc_ok p → claims p = None →
  awake_of p = awake_of (dl_pcs s O) → del_inv (set_dpc O p (set_con_sth cs s)).
Proof.
  intros Hi H1 H2 Hh Htd Hun Hex Hin Hcp -> Hpc Hcl Haw. destruct (holder_facts s O Hi) as (Hex' & Hin' & Hh').
  pose proof (di_core _ Hi) as Hc. pose proof (ki_finished _ _ _ _ _ (ci_con _ _ _ _ _ _ _ _ _ Hc)) as Hf.
  assert (∀ imm f, p ≠ DImmExec imm f) as Himm by (intros imm f ->; done).
  split; cbn.
  - rewrite Hf in *. eapply core_step; try done; try (by auto); by rewrite fn_lookup_insert.
  - assert (claims (dl_pcs s O) = None) as Hc0.
    { pose proof (proj2 (ki_thread _ _ _ _ _ (ci_con _ _ _ _ _ _ _ _ _ Hc) O) eq_refl). by destruct (dl_pcs s O). }
    apply obj_move; rewrite ?Hcl, ?Hc0; try done. apply Hi.
Qed.

Lemma step_consumer_check s h p p' r q (b : bool) :
  del_inv s → dl_pcs s O = p → sq_apply O (IsUnlockable h) (dl_queue s) r q →
  (p = KCheckWait h ∧ p' = (if b then KSaveWait h else KNotify None)
   ∨ ∃ v, p = KCheckSwap h v ∧ p' = (if b then KSaveSwap h v else KNotify (Some v))) →
  del_inv (set_queue q (set_dpc O p' s)).
Proof.
  intros Hi E Ha Hp. destruct (holder_facts s O Hi) as (Hex & Hin & Hh).
  assert (q = dl_queue s) as Hq by by inversion Ha; subst. rewrite set_queue_same by done.
  destruct Hp as [[-> ->]|(v & -> & ->)]; rewrite E in Hex, Hin, Hh; destruct b.
  all: apply inv_quiet_same; rewrite ?E; try done; by rewrite Hex.
Qed.

Lemma step_consumer_save s p p' :
  del_inv s → dl_pcs s O = p →
  (∃ h, p = KSaveWait h ∧ p' = KOnWait h ∨ ∃ v, p = KSaveSwap h v ∧ p' = KOnSwap h v) →
  del_inv (settle O s (s ← save_con_sth s; Ok (set_dpc O p' s))).
Proof.
  intros Hi E (h & Hp). unfold save_con_sth. rewrite (consumer_unsaved s Hi) by by rewrite E; destruct Hp as [[-> _]|(v & -> & _)].
  cbn. destruct Hp as [[-> ->]|(v & -> & ->)]; apply inv_save_con; by rewrite ?E.
Qed.

(** The thread that the consumer is about to wake. *)
Lemma awake_facts s v :
  del_inv s → awake_of (dl_pcs s O) = Some v →
  v ≠ O ∧ (∀ s', dl_pcs s' = dl_pcs s → wake v s' = Ok (set_dpc v DIdle s'))
  ∧ (∀ p, p = dl_pcs s v → has_lock p = false ∧ linking p = None ∧ in_node p = false).
Proof.
  intros [Hc Ho] Hv. destruct (ol_awake _ _ _ _ _ _ (oi_local _ _ _ _ Ho O) v Hv) as (_ & z & Hs & _). split_and!.
  - intros ->. by destruct Hs as [E|[n E]]; rewrite E in Hv.
  - intros s' Es. unfold wake. rewrite Es. by destruct Hs as [->|[n ->]].
  - intros p ->. by destruct Hs as [->|[n ->]].
Qed.

(** The core after the consumer woke a thread. *)
Lemma core_wake s v :
  del_inv s → awake_of (dl_pcs s O) = Some v →
  core_inv (dl_queue s) (dl_nodes s) (dl_executed s) (dl_con s) (dl_con_sth s) false (<[v := DIdle]> (dl_pcs s))
    (dl_enq s) (dl_done s).
Proof.
  intros Hi Hv. destruct (awake_facts s v Hi Hv) as (Hv0 & _ & Hp). destruct (Hp _ eq_refl) as (H1 & H2 & H3).
  destruct Hi as [Hc _]. pose proof (ki_finished _ _ _ _ _ (ci_con _ _ _ _ _ _ _ _ _ Hc)) as Hf. rewrite Hf in *.
  by apply (core_outside _ _ _ (dl_con s)).
Qed.

Lemma step_consumer_notify s awake :
  del_inv s → dl_pcs s O = KNotify awake →
  del_inv (settle O s (match awake with
    | Some v => s ← wake v s; Ok (set_dpc O KLoop s)
    | None => Ok (set_dpc O KLoop s)
    end)).
Proof.
  intros Hi E. destruct awake as [v|]; [|apply inv_quiet_same; by rewrite ?E].
  assert (awake_of (dl_pcs s O) = Some v) as Hv by by rewrite E.
  pose proof (core_wake s v Hi Hv) as Hc. destruct (awake_facts s v Hi Hv) as (Hv0 & -> & _); [|done]. cbn.
  split; cbn.
  - pose proof (ki_finished _ _ _ _ _ (ci_con _ _ _ _ _ _ _ _ _ (di_core _ Hi))) as ->.
    eapply core_step; try done; rewrite ?fn_lookup_insert_ne, ?fn_lookup_insert, ?E by done; try done.
    rewrite (consumer_unsaved s Hi); [done|by rewrite E].
  - apply obj_wake; rewrite ?E; try done. apply Hi.
Qed.

Lemma step_consumer_unlock s p h r q (b : bool) :
  del_inv s → dl_pcs s O = p → sq_apply O (TryUnlock h) (dl_queue s) r q → r = RBool b →
  (p = KOnWait h →
   del_inv (set_queue q (settle O s (if b then Ok (set_dpc O (DSuspended ResConsume) s)
     else s ← take_con_sth s; Ok (set_dpc O (KNotify None) s)))))
  ∧ (∀ v, p = KOnSwap h v →
   del_inv (set_queue q (settle O s (if b then s ← wake v s; Ok (set_dpc O (DSuspended ResConsume) s)
     else s ← take_con_sth s; Ok (set_dpc O (KNotify (Some v)) s))))).
Proof.
  intros Hi E Ha Hr. destruct (holder_facts s O Hi) as (Hex & Hin & Hh).
  pose proof (ki_sth _ _ _ _ _ (ci_con _ _ _ _ _ _ _ _ _ (di_core _ Hi))) as Hs.
  split; [intros ->|intros v ->]; rewrite E in Hex, Hin, Hh, Hs; cbn in Hs; unfold take_con_sth; rewrite ?Hs; cbn.
  - subst r. destruct b; inversion Ha; subst; cbn.
    + rewrite <-(set_con_sth_same s) at 1.
      apply (inv_release _ _ _ h); rewrite ?E; try done.
      apply obj_move; rewrite ?E; try done. apply Hi.
    + rewrite set_queue_same by done. apply inv_save_con; rewrite ?E; try done; by rewrite Hex.
  - assert (awake_of (dl_pcs s O) = Some v) as Hv by by rewrite E.
    subst r. destruct b; inversion Ha; subst; cbn.
    + pose proof (core_wake s v Hi Hv) as Hc. destruct (awake_facts s v Hi Hv) as (Hv0 & -> & _); [|done]. cbn.
      match goal with Hq : _ = dl_queue s |- _ => rewrite <-Hq in Hc end.
      split; cbn.
      * pose proof (ki_finished _ _ _ _ _ (ci_con _ _ _ _ _ _ _ _ _ (di_core _ Hi))) as ->.
        rewrite (Hex eq_refl) in *.
        eapply (core_unlock h); try done; rewrite ?fn_lookup_insert_ne, ?fn_lookup_insert, ?E by done; try done.
        by apply Hin.
      * apply obj_wake; rewrite ?E; try done. apply Hi.
    + rewrite set_queue_same by done. apply inv_save_con; rewrite ?E; try done; by rewrite Hex.
Qed.

(** ** The head: a delegated function or a waiting thread *)

Lemma con_claims s : del_inv s → claims (dl_pcs s O) = None.
Proof.
  intros [Hc _]. pose proof (proj2 (ki_thread _ _ _ _ _ (ci_con _ _ _ _ _ _ _ _ _ Hc) O) eq_refl) as H.
  destruct (dl_pcs s O); try done. by destruct r.
Qed.

Lemma step_consumer_swap s h v :
  del_inv s → dl_pcs s O = KExecute h → nd_sth (dl_nodes s h) = Some v →
  del_inv (settle O s (s ← save_con_sth s; s ← wake v (set_sth h None s); Ok (set_dpc O (DSuspended ResConsume) s))).
Proof.
  intros Hi E Ev. assert (has_lock (dl_pcs s O) = true) as Hl by by rewrite E.
  destruct (holder_queue s O Hi Hl) as (h' & b & q & Hq).
  destruct (holder_facts s O Hi) as (_ & _ & Hh). rewrite E, Hq in Hh. injection (Hh h eq_refl) as ->.
  pose proof (di_core _ Hi) as Hc. pose proof (ki_finished _ _ _ _ _ (ci_con _ _ _ _ _ _ _ _ _ Hc)) as Hf.
  pose proof (ci_node _ _ _ _ _ _ _ _ _ Hc) as Hn.
  pose proof (head_waiter _ _ _ _ _ _ _ _ (ci_lock _ _ _ _ _ _ _ _ _ Hc) Hn Hq Ev) as Hv.
  assert (v ≠ O) as Hv0 by (intros ->; congruence).
  pose proof (ni_head _ _ _ _ Hn O h b q Hl Hq) as Hhd. rewrite E in Hhd. cbn in Hhd.
  assert (nd_task (dl_nodes s h) = None) as Htask.
  { unfold filled in Hhd. destruct (nd_task _); [|done]. destruct Hhd as [Hhd _]. congruence. }
  pose proof (task_head s O h b q Hi Hl ltac:(by rewrite E) Hq) as Hpend. rewrite Htask in Hpend.
  unfold save_con_sth. rewrite (consumer_unsaved s Hi) by by rewrite E. cbn. unfold wake. cbn. rewrite Hv. cbn.
  assert (obj_inv (dl_con s) (dl_objs s) (pending_tasks (dl_enq s) (dl_done s)) (<[v := DHolds]> (dl_pcs s))) as Ho.
  { apply (obj_resume _ _ _ _ v (ResLock h)); try done; [apply Hi|]. left. by exists h. }
  split; cbn.
  - rewrite Hq, Hf in *.
    apply (core_pass h b q (dl_nodes s) _ (dl_executed s) (dl_executed s) _ (dl_con_sth s)); rewrite ?E, ?Hv; try done.
    + intros n Hne. by rewrite fn_lookup_insert_ne.
    + by rewrite fn_lookup_insert.
    + intros n. destruct (decide (n = h)) as [->|Hne]; [by rewrite fn_lookup_insert|].
      rewrite fn_lookup_insert_ne by done. intros Hs. apply (ni_sth _ _ _ _ Hn) in Hs.
      rewrite Hv in Hs. destruct Hs as [[= ->]|[m ?]]; done.
    + left. by rewrite fn_lookup_insert.
    + by rewrite fn_lookup_insert.
    + by rewrite bool_decide_false.
  - apply obj_move; rewrite ?fn_lookup_insert_ne by done; rewrite ?E; try done.
Qed.

Lemma step_consumer_execute s h :
  del_inv s → dl_pcs s O = KExecute h → nd_sth (dl_nodes s h) = None →
  del_inv (settle O s (execute_head h s)).
Proof.
  intros Hi E Es. assert (has_lock (dl_pcs s O) = true) as Hl by by rewrite E.
  destruct (holder_queue s O Hi Hl) as (h' & b & q & Hq).
  destruct (holder_facts s O Hi) as (_ & _ & Hh). rewrite E, Hq in Hh. injection (Hh h eq_refl) as ->.
  pose proof (di_core _ Hi) as Hc. pose proof (ki_finished _ _ _ _ _ (ci_con _ _ _ _ _ _ _ _ _ Hc)) as Hf.
  pose proof (ni_head _ _ _ _ (ci_node _ _ _ _ _ _ _ _ _ Hc) O h b q Hl Hq) as Hhd. rewrite E in Hhd. cbn in Hhd.
  pose proof (task_head s O h b q Hi Hl ltac:(by rewrite E) Hq) as Hpend.
  unfold filled in Hhd. destruct (nd_task (dl_nodes s h)) as [f|] eqn:Etask; [|by destruct Hhd as [v Hv]; congruence].
  destruct Hhd as [_ Hfn]. unfold execute_head. rewrite Hfn.
  destruct (execute_law f (dl_con s)) as (ret & c & -> & Hok & Hpo & Hwa).
  { apply Hi. } { intros z Hz. apply (oi_pend _ _ _ _ (di_obj _ Hi)). rewrite Hpend. eapply task_req; [|done]. by left. }
  cbn. destruct ret; cbn.
  - destruct (pending_done _ _ _ _ (ti_prefix _ _ _ _ _ _ (ci_task _ _ _ _ _ _ _ _ _ Hc)) Hpend) as [Hpre Hpend'].
    split; cbn.
    + rewrite Hq, Hf in *. eapply core_holder; rewrite ?E; try done.
      * by intros ? ? ? [= <- <- <-].
      * rewrite fn_lookup_insert. cbn. apply consumer_unsaved; [done|by rewrite E].
    + pose proof (di_obj _ Hi) as Ho. rewrite Hpend in Ho. rewrite Hpend'.
      eapply (obj_execute _ _ _ f _ _ _ _ true); rewrite ?E; try done.
      * intros u imm' f' Hu Eu. assert (has_lock (dl_pcs s u) = true) as Hlu by by rewrite Eu.
        by apply Hu, (li_excl _ _ (ci_lock _ _ _ _ _ _ _ _ _ Hc)).
      * intros z ?%Hwa. by left.
  - split; cbn.
    + rewrite Hf in *. eapply core_step; rewrite ?E; try done; [by rewrite Hq|].
      rewrite fn_lookup_insert. cbn. apply consumer_unsaved; [done|by rewrite E].
    + assert (obj_inv c (dl_objs s) (pending_tasks (dl_enq s) (dl_done s)) (dl_pcs s)) as Ho.
      { apply (obj_progress (dl_con s)); try done; [apply Hi|]. intros z [?|[]]%Hpo; done. }
      apply obj_move; rewrite ?E; try done.
Qed.

(** ** Progress *)

(** The thread in an object that the consumer has completed. *)
Definition to_wake (s : del) z : Prop :=
  ∃ v, dl_objs s z = Some v ∧ suspended_in z (dl_pcs s v) ∧ v ≠ O
    ∧ ¬ con_used (dl_con s) z ∧ (z ∉ reqs (pending_tasks (dl_enq s) (dl_done s))).

(** What waking threads leaves alone. *)
Definition same_but_objs (s s' : del) : Prop :=
  dl_queue s' = dl_queue s ∧ dl_nodes s' = dl_nodes s ∧ dl_executed s' = dl_executed s
  ∧ dl_con_sth s' = dl_con_sth s ∧ dl_con s' = dl_con s ∧ dl_pcs s' O = dl_pcs s O
  ∧ dl_enq s' = dl_enq s ∧ dl_done s' = dl_done s.

Lemma wake_one s z v :
  del_inv s → dl_objs s z = Some v → suspended_in z (dl_pcs s v) → v ≠ O → ¬ con_used (dl_con s) z →
  z ∉ reqs (pending_tasks (dl_enq s) (dl_done s)) →
  wake v (set_obj z None s) = Ok (set_dpc v DIdle (set_obj z None s))
  ∧ del_inv (set_dpc v DIdle (set_obj z None s)).
Proof.
  intros Hi Hz Hs Hv Hpo Hpe. unfold wake. cbn. split; [by destruct Hs as [->|[n ->]]|].
  split; cbn; [|apply obj_notify; try done; apply Hi].
  destruct Hi as [Hc _]. pose proof (ki_finished _ _ _ _ _ (ci_con _ _ _ _ _ _ _ _ _ Hc)) as Hf. rewrite Hf in *.
  apply (core_outside _ _ _ (dl_con s)); try done; by destruct Hs as [->|[n ->]].
Qed.

Lemma to_wake_others s z v z' :
  z' ≠ z → dl_objs s z = Some v → suspended_in z (dl_pcs s v) → to_wake s z' →
  to_wake (set_dpc v DIdle (set_obj z None s)) z'.
Proof.
  intros Hne Hz Hs (v' & H1 & H2 & H3 & H4 & H5). exists v'. cbn. rewrite fn_lookup_insert_ne by done.
  split_and!; try done. rewrite fn_lookup_insert_ne; [done|]. intros <-.
  by destruct Hs as [E|[n E]], H2 as [E'|[n' E']]; congruence.
Qed.

Lemma notify_all_inv zs s rest :
  del_inv s → NoDup (zs ++ rest) → (∀ z, z ∈ zs ++ rest → to_wake s z) →
  ∃ s', notify_all zs s = Ok s' ∧ del_inv s' ∧ same_but_objs s s' ∧ ∀ z, z ∈ rest → to_wake s' z.
Proof.
  revert s. induction zs as [|z zs IH]; intros s Hi Hnd Hall; [by exists s|].
  cbn in Hnd. apply NoDup_cons in Hnd as [Hz Hnd].
  destruct (Hall z ltac:(by left)) as (v & Hv & Hs & H0 & Hpo & Hpe).
  destruct (wake_one s z v Hi Hv Hs H0 Hpo Hpe) as [Ew Hi'].
  destruct (IH (set_dpc v DIdle (set_obj z None s)) Hi' Hnd) as (s' & E & Hi2 & Hsame & Hrest).
  { intros z' Hz'. apply to_wake_others; [by intros ->|done|done|]. apply Hall. by right. }
  exists s'. cbn [notify_all]. rewrite Hv, Ew. cbn. split_and!; try done.
  unfold same_but_objs in *. cbn in Hsame. rewrite fn_lookup_insert_ne in Hsame by done. done.
Qed.

(** The consumer's own state after its progress function. *)
Lemma inv_progress s c :
  del_inv s → has_lock (dl_pcs s O) = true → saw_inactive (dl_pcs s O) = false → con_ok c →
  (∀ z, con_used c z → con_used (dl_con s) z) → (∀ z, con_waits c z → con_waits (dl_con s) z) →
  del_inv (set_con c s).
Proof.
  intros [[Hl Hn Hk Ht] Ho] H0 Hin Hok Hpo Hwa. split; cbn; [constructor; try done|by eapply obj_progress].
  constructor; try apply Hk.
  - intros u Hu. pose proof (li_excl _ _ Hl u O (inactive_holder _ Hu) H0) as ->. congruence.
  - intros Hq. by destruct (proj2 (li_free _ _ Hl) (ex_intro _ O H0)).
Qed.

(** The thread in an object that completes is suspended there. *)
Lemma completed_to_wake s z :
  del_inv s → has_lock (dl_pcs s O) = true → con_used (dl_con s) z → con_waits (dl_con s) z →
  ∃ v, dl_objs s z = Some v ∧ suspended_in z (dl_pcs s v) ∧ v ≠ O
    ∧ (z ∉ reqs (pending_tasks (dl_enq s) (dl_done s))).
Proof.
  intros Hi H0 Hpo Hwa. pose proof (di_obj _ Hi) as Ho. pose proof (di_core _ Hi) as Hc.
  assert (z ∉ reqs (pending_tasks (dl_enq s) (dl_done s))) as Hpe by (intros H; by apply (oi_pend _ _ _ _ Ho z)).
  assert (∀ u, claims (dl_pcs s u) = Some z → has_lock (dl_pcs s u) = false) as Hnl.
  { intros u Hu. destruct (has_lock (dl_pcs s u)) eqn:El; [|done].
    pose proof (li_excl _ _ (ci_lock _ _ _ _ _ _ _ _ _ Hc) u O El H0) as ->. by rewrite (con_claims s Hi) in Hu. }
  assert (∀ u m n, claims (dl_pcs s u) = Some z → linking (dl_pcs s u) = Some (m, n) → False) as Hlk.
  { intros u m n Hu Hm. pose proof (ni_local _ _ _ _ (ci_node _ _ _ _ _ _ _ _ _ Hc) u) as Hloc.
    assert (∃ f, nd_task (dl_nodes s n) = Some f ∧ func_obj f = Some z) as (f & Hf & Hfz).
    { destruct (dl_pcs s u) eqn:Eu; try done; injection Hm as -> ->.
      - destruct g as [|imm f w|]; try done. exists f. by destruct Hloc as [_ ?].
      - destruct Hloc as [_ [(-> & _)|(z' & f & -> & _ & Hf & _ & Hz)]]; [done|]. injection Hu as ->. by exists f.
      - destruct Hloc as [(-> & _)|(z' & f & -> & _ & Hf & _ & Hz & _)]; [done|]. injection Hu as ->. by exists f. }
    apply Hpe. eapply task_req; [|by apply func_obj_req]. by eapply linking_task. }
  destruct (oi_waits _ _ _ _ Ho z (or_introl Hpo) Hwa) as [[v Hv]|(u & Hu & [Hu'|[[m n] Hm]])].
  - exists v. pose proof (oi_objs _ _ _ _ Ho z v Hv) as Hcv. split_and!; try done.
    + pose proof (oi_local _ _ _ _ Ho v) as Hlv.
      pose proof (Hnl v Hcv) as Hnlv. pose proof (ol_unused _ _ _ _ _ _ Hlv z Hcv) as Hun.
      pose proof (ol_place _ _ _ _ _ _ Hlv z Hcv) as Hpl. pose proof (ol_pc _ _ _ _ _ _ Hlv) as Hpc.
      assert (∀ m n, linking (dl_pcs s v) = Some (m, n) → False) as Hlkv by eauto.
      assert (saved (dl_pcs s v) = true) as Hsv by (destruct Hpl as [Hpl|(_ & ? & _)]; [destruct (saved _)|]; congruence).
      destruct (dl_pcs s v); try done.
      * destruct r; try done; injection Hcv as ->; [right; eauto|by left].
      * by destruct (Hlkv prev cur).
      * by destruct Hun.
    + intros ->. by rewrite (con_claims s Hi) in Hcv.
  - by rewrite Hnl in Hu'.
  - by destruct (Hlk u m n).
Qed.

(** What the consumer does next, once it has made progress. *)
Definition after_progress (is_executed : bool) (h : Z) (r : option nat * del) : result del :=
  let '(awake, s) := r in
  let s := set_executed is_executed s in
  if negb (con_is_active (dl_con s)) && is_executed then
    match awake with
    | Some v => Ok (set_dpc O (KCheckSwap h v) s)
    | None => Ok (set_dpc O (KCheckWait h) s)
    end
  else Ok (set_dpc O (KNotify awake) s).

Lemma after_progress_none s s0 e dp h :
  del_inv s → dl_pcs s O = KProgress e dp h None → del_inv (settle O s0 (after_progress e h (None, s))).
Proof.
  intros Hi E. destruct (holder_facts s O Hi) as (_ & _ & Hh). rewrite E in Hh. unfold after_progress. cbn.
  destruct (con_is_active (dl_con s)) eqn:Ea, e; cbn; apply inv_quiet; by rewrite ?E.
Qed.

Lemma after_progress_some s s0 e dp h z v :
  del_inv s → dl_pcs s O = KProgress e dp h None → to_wake s z → dl_objs s z = Some v →
  del_inv (settle O s0 (after_progress e h (Some v, set_obj z None s))).
Proof.
  intros Hi E (v' & Hv & Hs & H0 & Hpo & Hpe) Hz. assert (v' = v) as -> by congruence.
  destruct (holder_facts s O Hi) as (_ & _ & Hh). rewrite E in Hh.
  assert (∀ p, has_lock p = true → pc_head p = None ∨ pc_head p = Some h →
    todo p e = negb e → undone p e = negb e → (saw_executed p = true → e = true) →
    (saw_inactive p = true → con_is_active (dl_con s) = false) → is_consumer_pc p = true →
    con_saved p = false → claims p = None → awake_of p = Some v → pc_ok p →
    del_inv (set_dpc O p (set_executed e (set_obj z None s)))) as Hgo.
  { intros p H1 H2 H3 H4 H5 H6 H7 H8 H9 H10 H11.
    pose proof (ki_finished _ _ _ _ _ (ci_con _ _ _ _ _ _ _ _ _ (di_core _ Hi))) as Hf. split; cbn.
    - pose proof (di_core _ Hi) as Hc. rewrite Hf in *. eapply core_step; rewrite ?E; try done.
      + intros h' Hh'. apply Hh. destruct H2 as [H2|H2]; rewrite H2 in Hh'; [done|by injection Hh' as <-].
      + rewrite H4. by destruct e.
      + by intros imm f ->.
      + rewrite fn_lookup_insert, H8. apply consumer_unsaved; [done|by rewrite E].
    - apply (obj_take _ _ _ _ z v p); rewrite ?E; try done. apply Hi. }
  unfold after_progress. cbn. destruct (con_is_active (dl_con s)) eqn:Ea, e; cbn; apply Hgo; try done; auto.
Qed.

Lemma step_consumer_progress s e dp h :
  del_inv s → dl_pcs s O = KProgress e dp h None →
  del_inv (settle O s (r ← (if dp then make_progress None s else Ok (None, s)); after_progress e h r)).
Proof.
  intros Hi E. destruct dp; [|cbn [mbind result_bind]; by eapply after_progress_none].
  assert (has_lock (dl_pcs s O) = true) as Hl by by rewrite E.
  unfold make_progress.
  destruct (progress_law (dl_con s) (oi_ok _ _ _ _ (di_obj _ Hi))) as (zs & r & c & -> & Hok & Hnd & Hzs & Hpo & Hwa).
  cbn [mbind result_bind].
  assert (del_inv (set_con c s)) as Hi1 by (apply inv_progress; try done; by rewrite E).
  destruct (notify_all_inv zs (set_con c s) (option_list r) Hi1 Hnd) as (s2 & -> & Hi2 & Hsame & Hrest).
  { intros z Hz. destruct (Hzs z Hz) as (H1 & H2 & H3).
    destruct (completed_to_wake s z Hi Hl H1 H2) as (v & Hv & Hs & H0 & Hpe). by exists v. }
  assert (dl_pcs s2 O = KProgress e true h None) as E2.
  { destruct Hsame as (_ & _ & _ & _ & _ & -> & _). done. }
  cbn [mbind result_bind].
  destruct r as [z|]; [|by eapply after_progress_none].
  destruct (Hrest z ltac:(by left)) as (v & Hv & Hs). rewrite Hv. cbn [mbind result_bind].
  eapply after_progress_some; try done. by exists v.
Qed.

Lemma consumer_step s s' : del_inv s → del_step O s s' → del_inv s'.
Proof.
  intros Hi Hs. destruct (pc_facts s O Hi) as [Hpc _].
  unfold del_step in Hs. cbn [next_of] in Hs. unfold consumer_next in Hs.
  destruct (dl_pcs s O) eqn:E; try done.
  - subst s'. by apply step_consumer_loop.
  - destruct Hs as (r & q & m & Ha & Em & ->). pose proof (step_consumer_follow s head r q Hi E Ha) as [H1 H2].
    destruct r as [| | | |[]]; try done; injection Em as <-; cbn; auto.
  - subst s'. destruct (nd_sth (dl_nodes s head)) eqn:Es; [by apply step_consumer_swap|by apply step_consumer_execute].
  - subst s'. cbn in Hpc. subst awake. by eapply step_consumer_progress.
  - destruct Hs as (r & q & m & Ha & Em & ->).
    destruct r as [| | |b|]; try done. pose proof (λ p', step_consumer_check s head _ p' _ q b Hi E Ha) as H.
    destruct b; injection Em as <-; apply H; right; by eexists.
  - subst s'. eapply step_consumer_save; [done|done|]. exists head. right. by eexists.
  - destruct Hs as (r & q & m & Ha & Em & ->). destruct r as [| | |b|]; try done.
    pose proof (step_consumer_unlock s _ head _ q b Hi E Ha eq_refl) as [_ H].
    destruct b; injection Em as <-; by apply H.
  - destruct Hs as (r & q & m & Ha & Em & ->).
    destruct r as [| | |b|]; try done. pose proof (λ p', step_consumer_check s head _ p' _ q b Hi E Ha) as H.
    destruct b; injection Em as <-; apply H; by left.
  - subst s'. eapply step_consumer_save; [done|done|]. exists head. by left.
  - destruct Hs as (r & q & m & Ha & Em & ->). destruct r as [| | |b|]; try done.
    pose proof (step_consumer_unlock s _ head _ q b Hi E Ha eq_refl) as [H _].
    destruct b; injection Em as <-; by apply H.
  - subst s'. by apply step_consumer_notify.
Qed.

Lemma inv_step s s' t : del_inv s → del_step t s s' → del_inv s'.
Proof. destruct t; [apply consumer_step|apply client_step]. Qed.
End safety.
