(* ===== verification/DelegatorThm.v ===== *)
(** The properties of the delegation lock: what clients may call, safety, and
    the absence of deadlocks. *)
From Stdlib Require Import ZArith Lia.
From stdpp Require Import base tactics functions list gmap infinite fin_sets.
From S2P Require Import Prelude.
From S2P Require Import Linear.
From S2P Require Import SyncQueue.
From S2P Require Import LockQueue.
From S2P Require Import Delegator.
From S2P Require Import DelegatorInv.
From S2P Require Import DelegatorSafe.

Section theorems.
Context {C F : Type} {HC : Consumer C F} {HL : ConsumerLaws C F}.

Abbreviation del := (del (C := C) (F := F)).
Abbreviation pc := (del_pc (C := C) (F := F)).
Implicit Types (s : del) (t u : nat) (z : Z) (p : pc).

(** * What clients may call *)

(** Nobody uses the request yet. *)
Definition fresh_req z s : Prop :=
  ¬ con_used (dl_con s) z ∧ ¬ con_waits (dl_con s) z ∧ (z ∉ reqs (pending_tasks (dl_enq s) (dl_done s)))
  ∧ ∀ u, claims (dl_pcs s u) ≠ Some z.

(** A thread that holds the lock may use the state of the consumer, one that
    does not may change a request of its own, a function
    comes with a request of its own, at most one thread waits for an object,
    and the consumer is not stopped. *)
Definition allowed t (op : del_call (C := C) (F := F)) s : Prop :=
  match op with
  | CLock | CUnlock => True
  | CUse g =>
      con_ok (g (dl_con s)) ∧ (∀ z, con_used (g (dl_con s)) z → con_used (dl_con s) z)
      ∧ (∀ z, con_waits (g (dl_con s)) z → con_waits (dl_con s) z)
  | CExec imm f w => imm_ok imm f ∧ w = LObj <$> func_obj f ∧ ∀ z, func_req f = Some z → fresh_req z s
  | COwn g =>
      con_ok (g (dl_con s)) ∧ con_is_active (g (dl_con s)) = con_is_active (dl_con s)
      ∧ (∀ z, con_used (g (dl_con s)) z → con_used (dl_con s) z)
      ∧ (∀ z, con_waits (g (dl_con s)) z → con_waits (dl_con s) z)
  | CWaitObj z => ¬ con_waits (dl_con s) z ∧ ∀ u, claims (dl_pcs s u) ≠ Some z
  | CUnlockWait z => ∀ u, claims (dl_pcs s u) ≠ Some z
  | CStop => False
  end.

Lemma inv_start node c :
  con_ok c → (∀ z, ¬ con_used c z) → del_inv (start_consumer node c).
Proof.
  intros Hok Hpo. split; cbn; [constructor; cbn|]; [constructor; cbn|constructor; cbn|constructor; cbn|constructor; cbn|].
  - apply NoDup_singleton.
  - by intros m b [= _ <-].
  - by intros [|t] [|u].
  - split; [|done]. intros _. by exists O.
  - by intros [|t].
  - by intros [|t].
  - intros k m n b _ H%lookup_lt_Some. cbn in H. lia.
  - by intros [|t].
  - intros k m n b _ H%lookup_lt_Some. cbn in H. lia.
  - by intros [|t] h b q' Ht [= <- <- <-].
  - done.
  - done.
  - by intros [|t].
  - by intros [|t].
  - done.
  - by intros [|t].
  - done.
  - done.
  - done.
  - by intros [|t] _.
  - done.
  - done.
  - by intros [|t].
  - constructor; cbn; try done.
    + by intros [|t].
    + intros z [H|H]; [by destruct (Hpo z)|by apply elem_of_nil in H].
    + constructor.
    + intros [|t]; by constructor.
Qed.

(** A thread outside claims an object nobody else has. *)
Lemma obj_claim con objs pend pcs t p :
  obj_inv con objs pend pcs → t ≠ O → claims (pcs t) = None → suspended (pcs t) = false → pc_ok p →
  (∀ z, claims p = Some z → ∀ u, claims (pcs u) ≠ Some z) → saved p = false → awake_of p = None →
  (∀ imm f, p ≠ DImmExec imm f) →
  (unused p = true → ∀ z, claims p = Some z → ¬ con_waits con z) →
  (starting p = true → ∀ z, claims p = Some z → ¬ con_used con z ∧ z ∉ reqs pend) →
  obj_inv con objs pend (<[t := p]> pcs).
Proof.
  intros Hi Ht Hc Hsu Hpc Hnew Hsv Haw Himm Hun Hst.
  assert (∀ z v, objs z = Some v → v ≠ t ∧ claims p ≠ Some z) as Hobjs.
  { intros z v Hv. apply (oi_objs _ _ _ _ Hi) in Hv. split; [congruence|]. intros E. by apply (Hnew z E v). }
  apply (obj_update con con objs objs pend pend); [done|constructor|constructor]; try done; try by apply Hi.
  - intros z Hz. right. by apply Hnew.
  - intros z v Hv. right. split; [|done]. by apply Hobjs in Hv as [? _].
  - by left.
  - by left.
  - by left.
  - intros z E. congruence.
  - intros _. apply (not_awake _ _ _ _ _ Hi). intros z [E|[n E]]; by rewrite E in Hsu.
  - intros z Hz. left. rewrite Hsv. destruct (objs z) as [v|] eqn:E; [|done]. by destruct (Hobjs z v E).
  - intros z Hz Hu. by apply Hun.
  - intros z Hz Hs. by apply Hst.
  - intros imm f E. by destruct (Himm imm f).
  - intros v. by rewrite Haw.
Qed.

Lemma inv_call t op s s' : del_inv s → allowed t op s → do_call t op s = Some s' → del_inv s'.
Proof.
  intros Hi Ha Hs. unfold do_call in Hs. destruct t as [|t]; [done|].
  destruct (call_pc (dl_pcs s (S t)) op) as [p|] eqn:Ep; [|done]. injection Hs as <-.
  pose proof (di_core _ Hi) as Hc. pose proof (ki_finished _ _ _ _ _ (ci_con _ _ _ _ _ _ _ _ _ Hc)) as Hf.
  destruct (dl_pcs s (S t)) eqn:E; try done; destruct op; try done; injection Ep as <-.
  - split; cbn; [rewrite Hf in *; eapply core_outside; rewrite ?E; done|].
    apply obj_claim; rewrite ?E; try done. apply Hi.
  - destruct Ha as (Hok & Hact & Hpo & Hwa). split; cbn; [rewrite Hf in *; eapply core_outside; rewrite ?E; done|].
    apply obj_claim; rewrite ?E; try done. eapply obj_progress; try done. apply Hi.
  - destruct Ha as (Himm & Hw & Hfr). split; cbn; [rewrite Hf in *; eapply core_outside; rewrite ?E; done|].
    apply obj_claim; rewrite ?E; try done; [apply Hi|..].
    + intros z Hz. by apply Hfr.
    + intros _ z Hz. by apply Hfr.
    + intros _ z Hz. by destruct (Hfr z Hz) as (? & _ & ? & _).
  - destruct Ha as (Hw & Hfr). split; cbn; [rewrite Hf in *; eapply core_outside; rewrite ?E; done|].
    apply obj_claim; rewrite ?E; try done; [apply Hi|..].
    + by intros z' [= <-].
    + by intros _ z' [= <-].
  - split; cbn; [|apply obj_claim; rewrite ?E; try done; apply Hi].
    rewrite Hf in *. eapply core_step; rewrite ?E; try done. rewrite fn_lookup_insert_ne by done. apply Hc.
  - split; cbn.
    + rewrite Hf in *. eapply core_step; rewrite ?E; try done. rewrite fn_lookup_insert_ne by done. apply Hc.
    + apply obj_claim; rewrite ?E; try done; [apply Hi|]. by intros z' [= <-].
  - destruct Ha as (Hok & Hpo & Hwa). split; cbn.
    + rewrite Hf in *. eapply core_step; rewrite ?E; try done. rewrite fn_lookup_insert_ne by done. apply Hc.
    + apply obj_claim; rewrite ?E; try done. eapply obj_progress; try done. apply Hi.
Qed.

Lemma runs_inv c0 s : con_ok c0 → (∀ z, ¬ con_used c0 z) → del_runs c0 allowed s → del_inv s.
Proof.
  intros Hok Hpo. induction 1; [by apply inv_start|by eapply inv_call|by eapply inv_step].
Qed.

(** * Enabled steps *)

(** The thread is inside a method, and not suspended. *)
Definition busy p : bool :=
  match p with
  | DIdle | DHolds | DSuspended _ | DFailed | DStopping | DStopNotify _ | DJoin | KExited => false
  | _ => true
  end.

Lemma op_enabled s t op :
  del_inv s →
  match op with
  | StartLock => True
  | SetNext m n => linking (dl_pcs s t) = Some (m, n)
  | IsUnlockable h | TryUnlock h | TryFollowHead h => fst <$> head (dl_queue s) = Some h
  end → ∃ r q, sq_apply t op (dl_queue s) r q
    ∧ match op, r with
      | StartLock, (RLocked _ | REnqueued _ _) | SetNext _ _, RSet => True
      | IsUnlockable _, RBool _ | TryUnlock _, RBool _ | TryFollowHead _, RNext _ => True
      | _, _ => False
      end.
Proof.
  intros [[Hl _ _ _] _] Hop.
  destruct (queue_enabled _ _ op (fresh ((dl_queue s).*1)) Hl) as (r & q & Ha & Hr); [apply infinite_is_fresh|by destruct op; eauto|].
  exists r, q. split; [apply Ha|]. by destruct op, r.
Qed.

Lemma step_enabled s t : del_inv s → busy (dl_pcs s t) = true → ∃ s', del_step t s s'.
Proof.
  intros Hi Hb. pose proof (ki_thread _ _ _ _ _ (ci_con _ _ _ _ _ _ _ _ _ (di_core _ Hi)) t) as Ht.
  pose proof (λ h, li_head _ _ (ci_lock _ _ _ _ _ _ _ _ _ (di_core _ Hi)) t h) as Hh.
  assert (∀ op k, next_of t s = NQueue op k →
    (∃ r q m, sq_apply t op (dl_queue s) r q ∧ k r = Some m) → ∃ s', del_step t s s') as Hq.
  { intros op k E (r & q & m & Ha & Ek). exists (set_queue q (settle t s m)). unfold del_step. rewrite E. by exists r, q, m. }
  assert (∀ m, next_of t s = NLocal m → ∃ s', del_step t s s') as Hloc.
  { intros m E. exists (settle t s m). unfold del_step. by rewrite E. }
  pose proof (λ op H, op_enabled s t op Hi H) as Hop.
  destruct t as [|t].
  - destruct (dl_pcs s O) eqn:E; try done; try (by destruct Ht as [_ Ht]; specialize (Ht eq_refl)).
    all: try (eapply Hloc; cbn; unfold consumer_next; rewrite E; reflexivity).
    all: eapply Hq; [cbn; unfold consumer_next; rewrite E; reflexivity|].
    + destruct (Hop (TryFollowHead head)) as (r & q & Ha & Hr); [by apply Hh|]. destruct r as [| | | |[]]; eauto 6; done.
    + destruct (Hop (IsUnlockable head)) as (r & q & Ha & Hr); [by apply Hh|]. destruct r as [| | |[]|]; eauto 6; done.
    + destruct (Hop (TryUnlock head)) as (r & q & Ha & Hr); [by apply Hh|]. destruct r as [| | |[]|]; eauto 6; done.
    + destruct (Hop (IsUnlockable head)) as (r & q & Ha & Hr); [by apply Hh|]. destruct r as [| | |[]|]; eauto 6; done.
    + destruct (Hop (TryUnlock head)) as (r & q & Ha & Hr); [by apply Hh|]. destruct r as [| | |[]|]; eauto 6; done.
  - destruct (dl_pcs s (S t)) eqn:E; try done; try (by destruct Ht as [Ht _]; specialize (Ht eq_refl)).
    all: try (eapply Hloc; cbn; unfold client_next; rewrite E; reflexivity).
    all: try (eapply Hq; [cbn; unfold client_next; rewrite E; reflexivity|]).
    + destruct (Hop StartLock) as (r & q & Ha & Hr); [done|]. destruct r; eauto 6; done.
    + destruct (Hop (SetNext prev cur)) as (r' & q & Ha & Hr); [done|]. destruct r'; eauto 6; done.
    + destruct (Hop (SetNext prev cur)) as (r' & q & Ha & Hr); [done|]. destruct r'; eauto 6; done.
    + destruct (Hop (TryUnlock head)) as (r & q & Ha & Hr); [by apply Hh|]. destruct r as [| | |[]|]; eauto 6; done.
    + destruct (Hop (IsUnlockable head)) as (r & q & Ha & Hr); [by apply Hh|]. destruct r as [| | |[]|]; eauto 6; done.
    + destruct (Hop (TryUnlock head)) as (r & q & Ha & Hr); [by apply Hh|]. destruct r as [| | |[]|]; eauto 6; done.
    + destruct (Hop (TryFollowHead head)) as (r & q & Ha & Hr); [by apply Hh|]. destruct r as [| | | |[]]; eauto 6; done.
    + destruct (con_try_wait obj (dl_con s)) as [b c] eqn:Ec.
      eapply Hloc. cbn. unfold client_next. rewrite E, Ec. reflexivity.
Qed.
(** * Properties *)

Lemma all_done s : del_inv s → dl_queue s = [] → dl_done s = (λ f, (f, true)) <$> dl_enq s.
Proof.
  intros [[_ _ _ Ht] _] Hq. pose proof (ti_free _ _ _ _ _ _ Ht Hq) as Hp.
  rewrite (ti_prefix _ _ _ _ _ _ Ht) at 1. unfold executed_prefix, pending_tasks in *. f_equal.
  rewrite <-(take_drop (length (dl_done s)) (dl_enq s)) at 2. by rewrite Hp, app_nil_r.
Qed.

Lemma never_failed s t : del_inv s → dl_pcs s t ≠ DFailed.
Proof. intros Hi E. pose proof (ol_pc _ _ _ _ _ _ (oi_local _ _ _ _ (di_obj _ Hi) t)) as H. by rewrite E in H. Qed.

Lemma done_prefix s : del_inv s → dl_done s `prefix_of` (λ f, (f, true)) <$> dl_enq s.
Proof.
  intros [[_ _ _ Ht] _]. exists ((λ f, (f, true)) <$> pending_tasks (dl_enq s) (dl_done s)).
  rewrite (ti_prefix _ _ _ _ _ _ Ht) at 1. unfold executed_prefix, pending_tasks. by rewrite <-fmap_app, take_drop.
Qed.

(** A thread that waits for the lock is in the queue. *)
Lemma waiter_queued s t n :
  del_inv s → dl_pcs s t = DSuspended (ResLock n) → n ∈ (dl_queue s).*1 ∧ nd_sth (dl_nodes s n) = Some t.
Proof.
  intros [[_ Hn _ _] _] E. pose proof (ni_local _ _ _ _ Hn t) as H. rewrite E in H. cbn in H. split; [|done].
  destruct (decide (n ∈ (dl_queue s).*1)) as [|Hin]; [done|]. by rewrite (ni_clean _ _ _ _ Hn n Hin) in H.
Qed.

(** What somebody still waits for: the lock, a delegated function, or a request
    the consumer polls. *)
Definition outstanding s : Prop :=
  (∃ t n, dl_pcs s t = DSuspended (ResLock n)) ∨ (length (dl_done s) < length (dl_enq s))%nat
  ∨ ∃ z, con_polled (dl_con s) z.

Lemma outstanding_enabled s :
  del_inv s → outstanding s → ∃ t, has_lock (dl_pcs s t) = true ∧ (dl_pcs s t = DHolds ∨ ∃ s', del_step t s s').
Proof.
  intros Hi Ho. destruct (Hi) as [[Hl Hn Hk Ht] Hob].
  destruct (decide (dl_queue s = [])) as [Hq|Hq].
  - exfalso. destruct Ho as [(t & n & E)|[Hp|[z Hz]]].
    + apply waiter_queued in E as [E _]; [|done]. rewrite Hq in E. by apply elem_of_nil in E.
    + rewrite (all_done s Hi Hq), length_fmap in Hp. lia.
    + pose proof (polled_active _ _ (oi_ok _ _ _ _ Hob) Hz) as Ha. by rewrite (ki_free _ _ _ _ _ Hk Hq) in Ha.
  - apply (li_free _ _ Hl) in Hq as [t Hlt]. exists t. split; [done|].
    pose proof (ol_pc _ _ _ _ _ _ (oi_local _ _ _ _ Hob t)) as Hpc.
    destruct (dl_pcs s t) eqn:E; try done; [by left|..]; right; apply step_enabled; by rewrite ?E.
Qed.

(** C11: in every run of the delegation lock whose clients use it as intended
    no assertion fails, at most one thread holds the lock, the functions passed
    to execute_or_delegate are executed in the order of their start_lock, each
    at most once and with success, and all of them have been when the lock is
    free; a thread suspended in lock is in the queue, in its own node. *)
Theorem delegator_safe c0 s :
  con_ok c0 → (∀ z, ¬ con_used c0 z) → del_runs c0 allowed s →
  (∀ t, dl_pcs s t ≠ DFailed)
  ∧ (∀ t u, has_lock (dl_pcs s t) = true → has_lock (dl_pcs s u) = true → t = u)
  ∧ dl_done s `prefix_of` (λ f, (f, true)) <$> dl_enq s
  ∧ (dl_queue s = [] → dl_done s = (λ f, (f, true)) <$> dl_enq s)
  ∧ (∀ t n, dl_pcs s t = DSuspended (ResLock n) → n ∈ (dl_queue s).*1 ∧ nd_sth (dl_nodes s n) = Some t).
Proof.
  intros Hok Hpo Hs. pose proof (runs_inv _ _ Hok Hpo Hs) as Hi.
  split_and!; [by intros t; apply never_failed|apply Hi|by apply done_prefix|by apply all_done|].
  intros t n. by apply waiter_queued.
Qed.

(** C15: the delegation lock does not deadlock: a thread inside a method can
    always make its next step, and while a client is suspended in lock, a
    function is not executed or a request is polled, some thread has the lock
    and can go on, unless it is a client in its critical section. *)
Theorem delegator_no_deadlock c0 s :
  con_ok c0 → (∀ z, ¬ con_used c0 z) → del_runs c0 allowed s →
  (∀ t, busy (dl_pcs s t) = true → ∃ s', del_step t s s')
  ∧ (outstanding s → ∃ t, has_lock (dl_pcs s t) = true ∧ (dl_pcs s t = DHolds ∨ ∃ s', del_step t s s')).
Proof.
  intros Hok Hpo Hs. pose proof (runs_inv _ _ Hok Hpo Hs) as Hi.
  split; [intros t; by apply step_enabled|by apply outstanding_enabled].
Qed.
End theorems.
