(* ===== verification/DelegatorErr.v ===== *)
(** What the delegation lock does when a function does not behave as the MPI
    proxy's functions do: one that returns a thread to wake although it was
    executed, and one that cannot be executed at once. *)
From Stdlib Require Import ZArith Lia.
From stdpp Require Import base tactics functions list gmap.
From S2P Require Import Prelude.
From S2P Require Import Linear.
From S2P Require Import SyncQueue.
From S2P Require Import LockQueue.
From S2P Require Import Delegator.

Section errors.
Context {C F : Type} {HC : Consumer C F}.

Abbreviation del := (del (C := C) (F := F)).
Implicit Types (s : del) (t v : nat) (f : F) (c : C).

(** When the execution of a delegated function succeeds and returns the
    thread that waited for it (as that of the I/O consumer does when a file
    descriptor is ready), consume() returns before it wakes the thread: the
    continuation is in no node, no object and not in the consumer's hands, and
    the thread stays suspended. *)
Theorem consume_drops_thread s s' h f c v :
  dl_pcs s O = KExecute h → nd_sth (dl_nodes s h) = None → nd_func (dl_nodes s h) = Some f →
  nd_wait (dl_nodes s h) = Some v → v ≠ O → con_execute f (dl_con s) = Ok (true, WmReturn, c) →
  del_step O s s' →
  dl_pcs s' O = KLoop ∧ dl_executed s' = true ∧ dl_pcs s' v = dl_pcs s v
  ∧ nd_wait (dl_nodes s' h) = None ∧ (∀ n, n ≠ h → dl_nodes s' n = dl_nodes s n)
  ∧ dl_objs s' = dl_objs s ∧ dl_con_sth s' = dl_con_sth s.
Proof.
  intros Hpc Hsth Hf Hw Hv He Hs. unfold del_step in Hs. cbn [next_of] in Hs. unfold consumer_next in Hs.
  rewrite Hpc, Hsth in Hs. unfold execute_head in Hs. rewrite Hf, He in Hs. cbn in Hs. rewrite Hs. cbn.
  split_and!; try done.
  - by rewrite fn_lookup_insert_ne.
  - by rewrite fn_lookup_insert.
  - intros n Hn. by rewrite fn_lookup_insert_ne.
Qed.

(** When the immediate function of execute_or_delegate reports that it
    could not execute, the report is lost: unlock, or unlock_and_wait, which the
    thread calls next, marks the function as executed. *)
Theorem failed_imm_forgotten s s1 s2 t imm f w c h q :
  dl_pcs s (S t) = DImmExec imm f → dl_queue s = h :: q → imm (dl_con s) = Ok (false, w, c) →
  del_step (S t) s s1 → del_step (S t) s1 s2 →
  dl_executed s1 = false ∧ dl_executed s2 = true ∧ dl_done s2 = dl_done s ++ [(f, false)] ∧ dl_queue s2 = dl_queue s.
Proof.
  intros Hpc Hq Himm H1 H2. unfold del_step in *. cbn [next_of] in *.
  unfold client_next in H1. rewrite Hpc, Himm in H1. cbn in H1. subst s1.
  unfold client_next in H2. cbn [dl_pcs set_dpc] in H2. rewrite fn_lookup_insert in H2.
  unfold first_node in H2. cbn in H2. rewrite Hq in H2. destruct h as [h b].
  destruct w as [z|]; cbn in H2; destruct (con_is_active c); cbn in H2; subst s2; cbn; split_and!; done.
Qed.
End errors.

(** A consumer whose functions are executed at once, or not at all. *)
#[local] Instance ready_consumer : Consumer unit bool := {
  con_is_active _ := false;
  con_delegate _ c := c;
  con_execute f c := Ok (f, WmReturn, c);
  con_progress c := Ok ([], None, c);
  con_poll _ _ := Ok true;
  con_try_wait _ c := (false, c);
}.

Definition ready_start (p0 p1 : del_pc) (nd : del_node) : del (C := unit) (F := bool) :=
  Del [(3, false)] (<[3 := nd]> (λ _, DelNode None None None None)) false None false tt (λ _, None)
    (<[0%nat := p0]> (<[1%nat := p1]> (λ _, DIdle))) [true] [].

Lemma consume_drops_thread_witness :
  ∃ s', del_step O (ready_start (KExecute 3) (DSuspended (ResFunc 3)) (DelNode None (Some true) (Some 1%nat) (Some true))) s'
    ∧ dl_pcs s' 1%nat = DSuspended (ResFunc 3) ∧ nd_wait (dl_nodes s' 3) = None.
Proof.
  set (s := ready_start _ _ _).
  assert (del_step O s (set_dpc O KLoop (log_done true true (set_executed true (set_wait 3 None (set_con tt s)))))) as Hs by done.
  eexists. split; [exact Hs|].
  destruct (consume_drops_thread s _ 3 true tt 1 eq_refl eq_refl eq_refl eq_refl ltac:(done) eq_refl Hs)
    as (_ & _ & Hp & Hw & _).
  split; [exact Hp|exact Hw].
Defined.

Lemma failed_imm_forgotten_witness :
  ∃ s1 s2, del_step 1 (ready_start (DSuspended ResConsume) (DImmExec (λ c, Ok (false, None, c)) true) (DelNode None None None (Some true))) s1
    ∧ del_step 1 s1 s2 ∧ dl_executed s2 = true ∧ dl_done s2 = [(true, false)].
Proof.
  set (s := ready_start _ _ _).
  set (s1 := set_dpc 1 (DUnlock UPlain) (log_done true false (set_executed false (set_con tt s)))).
  set (s2 := set_dpc 1 (DTryUnlock UPlain 3) (set_executed true s1)).
  assert (del_step 1 s s1) as H1 by done. assert (del_step 1 s1 s2) as H2 by done.
  exists s1, s2. split; [exact H1|]. split; [exact H2|].
  destruct (failed_imm_forgotten s s1 s2 0 _ true None tt _ _ eq_refl eq_refl eq_refl H1 H2) as (_ & He & Hd & _).
  split; [exact He|exact Hd].
Defined.
