(* ===== verification/RequestHolder.v ===== *)
(** The ongoing requests of the MPI proxy: proxy_mpi_request_holder.hpp of
    meqdc.

    The holder keeps two arrays, of which the first [num_reqs_] elements are the
    ongoing requests, and asks [MPI_Testsome] which of them are complete. The
    MPI library is a parameter. *)
From Stdlib Require Import ZArith Lia.
From stdpp Require Import base tactics functions list.
From S2P Require Import Prelude.

(** * The MPI library *)

(** What [MPI_Testsome] writes: [outcount], the array of requests, and the
    first elements of the arrays of indices and statuses. *)
Record testsome_ret (S M : Type) := TestsomeRet {
  ts_outcount : Z;
  ts_reqs : list Z;
  ts_indices : list Z;
  ts_statuses : list S;
  ts_mpi : M;
}.
Arguments TestsomeRet {S M} _ _ _ _ _.
Arguments ts_outcount {S M} _.
Arguments ts_reqs {S M} _.
Arguments ts_indices {S M} _.
Arguments ts_statuses {S M} _.
Arguments ts_mpi {S M} _.

(** The state of the library, the statuses it writes, the non-blocking
    operations with their arguments, and what the proxy calls. An operation
    returns a request handle. *)
Class Mpi := {
  mpi_state : Type;
  mpi_status : Type;
  mpi_op : Type;
  mpi_request_null : Z;
  mpi_call : mpi_op → mpi_state → Z * mpi_state;
  mpi_testsome : list Z → mpi_state → testsome_ret mpi_status mpi_state;
  mpi_progress : mpi_state → mpi_state;
}.

(** [MPI_Testsome] on active requests, as the standard describes it: it reports
    distinct requests, the i-th status belongs to the i-th index, and the
    handles of the completed requests, and no others, become null. *)
Class MpiLaws `{HM : Mpi} := {
  testsome_law reqs m :
    reqs ≠ [] → mpi_request_null ∉ reqs →
    let r := mpi_testsome reqs m in
    ts_outcount r = Z.of_nat (length (ts_indices r)) ∧ length (ts_statuses r) = length (ts_indices r)
    ∧ NoDup (ts_indices r) ∧ Forall (λ i, 0 ≤ i < Z.of_nat (length reqs)) (ts_indices r)
    ∧ ts_reqs r = imap (λ i q, if bool_decide (Z.of_nat i ∈ ts_indices r) then mpi_request_null else q) reqs;
}.

(** * The holder *)

Record holder (S : Type) := Holder {
  hd_num : nat;           (** num_reqs_ *)
  hd_proxy : list Z;      (** proxy_reqs_ *)
  hd_orig : list Z;       (** orig_reqs_ *)
  hd_statuses : list S;   (** statuses_ *)
}.
Arguments Holder {S} _ _ _ _.
Arguments hd_num {S} _.
Arguments hd_proxy {S} _.
Arguments hd_orig {S} _.
Arguments hd_statuses {S} _.

Definition read_at {A} (l : list A) (i : nat) : result A :=
  match l !! i with Some a => Ok a | None => Fail OutOfBounds end.

(** Writes the beginning of an array. *)
Definition write_prefix {A} (l l' : list A) : list A := l ++ drop (length l) l'.

Section holder.
Context {HM : Mpi} (max_num_ongoing : nat).
Implicit Types (h : holder mpi_status) (z req : Z).

Definition is_available h : bool := (hd_num h <? max_num_ongoing)%nat.

Definition add z req h : result (holder mpi_status) :=
  let num := hd_num h in
  _ ← assert_ (num <? max_num_ongoing)%nat;
  Ok (Holder (S num) (<[num := z]> (hd_proxy h)) (<[num := req]> (hd_orig h)) (hd_statuses h)).

(** The loop over the completed requests: [comp] completes one and tells
    whether a thread waits for it. The result lists the requests whose threads
    are notified, and the last one, whose thread is returned. *)
Fixpoint complete_all {X} (comp : Z → mpi_status → X → result (bool * X)) (num : nat) h (indices : list Z)
    (awake : option Z) (x : X) : result (list Z * option Z * X) :=
  match indices with
  | [] => Ok ([], awake, x)
  | i :: indices =>
      let index := i mod 2 ^ 64 in
      _ ← assert_ (index <? Z.of_nat num);
      z ← read_at (hd_proxy h) (Z.to_nat index);
      st ← read_at (hd_statuses h) (Z.to_nat index);
      r ← comp z st x;
      let '(waiting, x) := r in
      if waiting : bool then
        r ← complete_all comp num h indices (Some z) x;
        let '(zs, ret, x) := r in
        Ok (option_list awake ++ zs, ret, x)
      else complete_all comp num h indices awake x
  end.

(** The loop that moves the ongoing requests to the front: [n] iterations from
    index [i]. *)
Fixpoint compact (n i num_ongoing : nat) (proxy orig : list Z) : result (nat * list Z * list Z) :=
  match n with
  | O => Ok (num_ongoing, proxy, orig)
  | S n =>
      req ← read_at orig i;
      if req =? mpi_request_null then compact n (S i) num_ongoing proxy orig
      else if (i =? num_ongoing)%nat then compact n (S i) (S num_ongoing) proxy orig
      else z ← read_at proxy i;
           compact n (S i) (S num_ongoing) (<[num_ongoing := z]> proxy) (<[num_ongoing := req]> orig)
  end.

(** [progress]: the threads to wake, the number of requests it started with and
    the new states. *)
Definition progress {X} (comp : Z → mpi_status → X → result (bool * X)) h (m : mpi_state) (x : X) :
    result (list Z * option Z * nat * holder mpi_status * mpi_state * X) :=
  let num := hd_num h in
  if (num =? 0)%nat then Ok ([], None, O, h, m, x)
  else
    let r := mpi_testsome (take num (hd_orig h)) m in
    let m := ts_mpi r in
    let h := Holder num (hd_proxy h) (write_prefix (ts_reqs r) (hd_orig h))
               (write_prefix (ts_statuses r) (hd_statuses h)) in
    if ts_outcount r <? 0 then Fail Aborted
    else
      let num_completed := Z.to_nat (ts_outcount r) in
      _ ← assert_ (num_completed <=? num)%nat;
      if (num_completed =? 0)%nat then Ok ([], None, num, h, m, x)
      else
        c ← complete_all comp num h (take num_completed (ts_indices r)) None x;
        let '(zs, awake, x) := c in
        c ← compact num 0 0 (hd_proxy h) (hd_orig h);
        let '(num_ongoing, proxy, orig) := c in
        _ ← assert_ (num_ongoing + num_completed =? num)%nat;
        Ok (zs, awake, num, Holder num_ongoing proxy orig (hd_statuses h), m, x).
End holder.

(** * Lemmas on lists *)

Lemma insert_zip {A B} (l : list A) (k : list B) i a b : zip (<[i := a]> l) (<[i := b]> k) = <[i := (a, b)]> (zip l k).
Proof. revert k i. induction l as [|x l IH]; intros [|y k] [|i]; cbn; try done. by rewrite IH. Qed.

Lemma lookup_zip {A B} (l : list A) (k : list B) i a b :
  zip l k !! i = Some (a, b) ↔ l !! i = Some a ∧ k !! i = Some b.
Proof.
  revert k i. induction l as [|x l IH]; intros [|y k] [|i]; cbn; try (naive_solver; fail).
Qed.

Lemma filter_map {A B} (f : A → B) (P : B → Prop) `{∀ x, Decision (P x)} (l : list A) :
  filter P (f <$> l) = f <$> filter (λ x, P (f x)) l.
Proof. induction l as [|x l IH]; [done|]. rewrite fmap_cons, !filter_cons. case_decide; by rewrite IH. Qed.

(** A list as a function of its indices. *)
Lemma list_seq {A} (l : list A) (d : A) : (λ i, default d (l !! i)) <$> seq 0 (length l) = l.
Proof.
  apply list_eq. intros i. rewrite list_lookup_fmap. destruct (decide (i < length l)%nat) as [Hi|Hi].
  - rewrite lookup_seq_lt by done. cbn. by destruct (lookup_lt_is_Some_2 l i Hi) as [x ->].
  - rewrite (lookup_ge_None_2 l i), lookup_ge_None_2; [done|rewrite length_seq; lia|lia].
Qed.

Lemma seq_split idx n :
  NoDup idx → Forall (λ i, (i < n)%nat) idx → seq 0 n ≡ₚ idx ++ filter (.∉ idx) (seq 0 n).
Proof.
  intros Hnd Hlt. apply NoDup_Permutation; [apply NoDup_seq| |].
  - apply NoDup_app. split_and!; [done| |apply NoDup_filter, NoDup_seq].
    intros i Hi [? _]%list_elem_of_filter. done.
  - intros i. rewrite elem_of_app, list_elem_of_filter. split; [|intros [|[]]; [|done]].
    + intros Hi. destruct (decide (i ∈ idx)); [by left|by right].
    + rewrite elem_of_seq. rewrite Forall_forall in Hlt. specialize (Hlt i). auto with lia.
Qed.

Lemma filter_ext_in {A} (P Q : A → Prop) `{∀ x, Decision (P x)} `{∀ x, Decision (Q x)} (l : list A) :
  (∀ x, x ∈ l → P x ↔ Q x) → filter P l = filter Q l.
Proof.
  induction l as [|x l IH]; intros HPQ; [done|]. rewrite !filter_cons, IH by (intros y Hy; apply HPQ; by right).
  apply decide_ext, HPQ. by left.
Qed.

Lemma filter_sublist {A} (P : A → Prop) `{∀ x, Decision (P x)} (l : list A) : filter P l `sublist_of` l.
Proof. induction l as [|x l IH]; [done|]. rewrite filter_cons. case_decide; by constructor. Qed.

Lemma Forall_choose {A B} (R : A → B → Prop) (l : list A) : Forall (λ x, ∃ y, R x y) l → ∃ k, Forall2 R l k.
Proof. induction 1 as [|x l [y Hy] _ [k Hk]]; [by exists []|]. exists (y :: k). by constructor. Qed.

Lemma write_prefix_length {A} (l l' : list A) : (length l ≤ length l')%nat → length (write_prefix l l') = length l'.
Proof. intros H. unfold write_prefix. rewrite length_app, length_drop. lia. Qed.

Lemma write_prefix_take {A} (l l' : list A) : take (length l) (write_prefix l l') = l.
Proof. unfold write_prefix. by rewrite take_app_length. Qed.

(** * The arrays *)

Section holder_spec.
Context {HM : Mpi} (max_num_ongoing : nat).
Implicit Types (h : holder mpi_status) (z req : Z).

(** The ongoing requests, with their handles. *)
Definition ongoing h : list (Z * Z) := take (hd_num h) (zip (hd_proxy h) (hd_orig h)).

Record holder_wf h : Prop := {
  hw_proxy : length (hd_proxy h) = max_num_ongoing;
  hw_orig : length (hd_orig h) = max_num_ongoing;
  hw_statuses : length (hd_statuses h) = max_num_ongoing;
  hw_num : (hd_num h ≤ max_num_ongoing)%nat;
  hw_active : Forall (λ x, x.2 ≠ mpi_request_null) (ongoing h);
}.

Lemma ongoing_length h : holder_wf h → length (ongoing h) = hd_num h.
Proof. intros Hw. unfold ongoing. rewrite length_take, length_zip_with, (hw_proxy _ Hw), (hw_orig _ Hw).
  pose proof (hw_num _ Hw). lia. Qed.

Lemma take_S_insert {A} (l : list A) k x : (k < length l)%nat → take (S k) (<[k := x]> l) = take k l ++ [x].
Proof.
  intros Hk. rewrite (take_S_r _ _ x); [|by apply list_lookup_insert_eq]. by rewrite take_insert_ge.
Qed.

Lemma add_ongoing z req h :
  holder_wf h → is_available max_num_ongoing h = true → req ≠ mpi_request_null →
  ∃ h', add max_num_ongoing z req h = Ok h' ∧ holder_wf h' ∧ ongoing h' = ongoing h ++ [(z, req)]
    ∧ hd_num h' = S (hd_num h).
Proof.
  intros Hw Ha Hr. unfold add, is_available in *. rewrite Ha. cbn. eexists. split; [done|].
  apply Nat.ltb_lt in Ha.
  assert (take (S (hd_num h)) (zip (<[hd_num h := z]> (hd_proxy h)) (<[hd_num h := req]> (hd_orig h)))
    = ongoing h ++ [(z, req)]) as E.
  { rewrite insert_zip. apply take_S_insert. rewrite length_zip_with, (hw_proxy _ Hw), (hw_orig _ Hw). lia. }
  split_and!; [|done|done]. constructor; cbn; rewrite ?length_insert; try apply Hw; [lia|].
  unfold ongoing. cbn. rewrite E. apply Forall_app. split; [apply Hw|]. by constructor.
Qed.

(** The loop keeps the requests whose handle is not null, in their order. *)
Lemma compact_spec n i k proxy orig :
  length proxy = length orig → (k ≤ i)%nat → (i + n ≤ length orig)%nat →
  ∃ k' proxy' orig', compact n i k proxy orig = Ok (k', proxy', orig')
    ∧ length proxy' = length proxy ∧ length orig' = length orig
    ∧ let kept := filter (λ x, x.2 ≠ mpi_request_null) (take n (drop i (zip proxy orig))) in
      k' = (k + length kept)%nat ∧ take k' (zip proxy' orig') = take k (zip proxy orig) ++ kept.
Proof.
  revert i k proxy orig. induction n as [|n IH]; intros i k proxy orig Hlen Hk Hi; cbn.
  { exists k, proxy, orig. rewrite take_0. cbn. rewrite app_nil_r. split_and!; try done. }
  destruct (lookup_lt_is_Some_2 orig i) as [r Hr]; [lia|].
  destruct (lookup_lt_is_Some_2 proxy i) as [z Hz]; [lia|].
  assert (zip proxy orig !! i = Some (z, r)) as Hzr by by apply lookup_zip.
  assert (k < length (zip proxy orig))%nat as Hkz by (rewrite length_zip_with; lia).
  rewrite (drop_S _ _ _ Hzr). cbn [take]. rewrite filter_cons. cbn [snd].
  unfold read_at. rewrite Hr, Hz. cbn. destruct (Z.eqb_spec r mpi_request_null) as [->|Hne].
  { rewrite decide_False by naive_solver. apply IH; [done|lia|lia]. }
  rewrite decide_True by done.
  assert (take (S k) (zip (<[k := z]> proxy) (<[k := r]> orig)) = take k (zip proxy orig) ++ [(z, r)]) as Ek.
  { rewrite insert_zip. by apply take_S_insert. }
  destruct (Nat.eqb_spec i k) as [->|Hik].
  - rewrite (list_insert_id _ _ _ Hz), (list_insert_id _ _ _ Hr) in Ek.
    destruct (IH (S k) (S k) proxy orig) as (k' & p' & o' & -> & Hp & Ho & Hk' & Ht); [done|lia|lia|].
    exists k', p', o'. split_and!; try done; [cbn; lia|]. rewrite Ht, Ek, <-app_assoc. done.
  - destruct (IH (S i) (S k) (<[k := z]> proxy) (<[k := r]> orig)) as (k' & p' & o' & -> & Hp & Ho & Hk' & Ht);
      rewrite ?length_insert; [done|lia|lia|].
    rewrite insert_zip, drop_insert_lt in Hk', Ht by lia. rewrite length_insert in Hp, Ho.
    exists k', p', o'. split_and!; try done; [cbn; lia|]. rewrite Ht, <-insert_zip, Ek, <-app_assoc. done.
Qed.

(** The loop over completed requests with what it reads. *)
Fixpoint complete_list {X} (comp : Z → mpi_status → X → result (bool * X)) (cs : list (Z * mpi_status))
    (awake : option Z) (x : X) : result (list Z * option Z * X) :=
  match cs with
  | [] => Ok ([], awake, x)
  | (z, st) :: cs =>
      r ← comp z st x;
      let '(waiting, x) := r in
      if waiting : bool then
        r ← complete_list comp cs (Some z) x;
        let '(zs, ret, x) := r in
        Ok (option_list awake ++ zs, ret, x)
      else complete_list comp cs awake x
  end.

Lemma complete_all_list {X} (comp : Z → mpi_status → X → result (bool * X)) num h js cs awake x :
  Z.of_nat num < 2 ^ 64 → Forall (λ i, 0 ≤ i < Z.of_nat num) js →
  Forall2 (λ i c, hd_proxy h !! Z.to_nat i = Some c.1 ∧ hd_statuses h !! Z.to_nat i = Some c.2) js cs →
  complete_all comp num h js awake x = complete_list comp cs awake x.
Proof.
  intros Hnum Hr H. revert awake x. induction H as [|i [z st] js cs [Hz Hst] _ IH]; intros awake x; [done|].
  apply Forall_cons in Hr as [Hi Hr]. specialize (IH Hr). cbn in *. rewrite Z.mod_small by lia.
  rewrite assert_true by (apply Z.ltb_lt; lia). unfold read_at. rewrite Hz, Hst. cbn.
  destruct (comp z st x) as [[[] x']|]; cbn; by rewrite ?IH.
Qed.

Lemma ongoing_seq h : holder_wf h → (λ i, default (0, 0) (ongoing h !! i)) <$> seq 0 (hd_num h) = ongoing h.
Proof. intros Hw. rewrite <-(ongoing_length h Hw) at 1. apply list_seq. Qed.

Lemma ongoing_lookup h i z r :
  ongoing h !! i = Some (z, r) ↔ (i < hd_num h)%nat ∧ hd_proxy h !! i = Some z ∧ hd_orig h !! i = Some r.
Proof. unfold ongoing. rewrite lookup_take_Some, lookup_zip. naive_solver. Qed.

(** The handles after [MPI_Testsome]. *)
Lemma tested_ongoing h (js : list Z) :
  holder_wf h →
  let reqs := take (hd_num h) (hd_orig h) in
  let reqs' := imap (λ i q, if bool_decide (Z.of_nat i ∈ js) then mpi_request_null else q) reqs in
  take (hd_num h) (drop 0 (zip (hd_proxy h) (write_prefix reqs' (hd_orig h)))) =
  (λ i, ((default (0, 0) (ongoing h !! i)).1,
         if bool_decide (Z.of_nat i ∈ js) then mpi_request_null else (default (0, 0) (ongoing h !! i)).2))
    <$> seq 0 (hd_num h).
Proof.
  intros Hw reqs reqs'. pose proof (hw_num _ Hw) as Hnum.
  assert (length reqs' = hd_num h) as Hlen.
  { unfold reqs', reqs. rewrite length_imap, length_take, (hw_orig _ Hw). lia. }
  rewrite drop_0. apply list_eq. intros i. destruct (decide (i < hd_num h)%nat) as [Hi|Hi].
  - destruct (lookup_lt_is_Some_2 (ongoing h) i) as [[z r] Hzr]; [by rewrite (ongoing_length h Hw)|].
    rewrite list_lookup_fmap, lookup_seq_lt by done. cbn. rewrite Hzr. cbn.
    apply ongoing_lookup in Hzr as (_ & Hz & Hr).
    apply lookup_take_Some. split; [|done]. apply lookup_zip. split; [done|].
    unfold write_prefix. rewrite lookup_app_l by lia. unfold reqs'. rewrite list_lookup_imap.
    unfold reqs. rewrite lookup_take_lt, Hr by done. done.
  - rewrite !lookup_ge_None_2; [done| |]; rewrite ?length_fmap, ?length_seq, ?length_take; lia.
Qed.

(** Each ongoing request is completed once, or stays ongoing, in its place. *)
Lemma progress_ongoing `{HML : !MpiLaws} h m :
  holder_wf h → Z.of_nat max_num_ongoing < 2 ^ 31 →
  ∃ cs h' m',
    (∀ X (comp : Z → mpi_status → X → result (bool * X)) x,
      progress comp h m x =
      (c ← complete_list comp cs None x; let '(zs, awake, x) := c in Ok (zs, awake, hd_num h, h', m', x)))
    ∧ holder_wf h' ∧ (ongoing h).*1 ≡ₚ cs.*1 ++ (ongoing h').*1 ∧ ongoing h' `sublist_of` ongoing h
    ∧ (hd_num h ≠ O →
        let r := mpi_testsome (take (hd_num h) (hd_orig h)) m in
        Forall2 (λ i c, hd_proxy h !! Z.to_nat i = Some c.1
          ∧ write_prefix (ts_statuses r) (hd_statuses h) !! Z.to_nat i = Some c.2) (ts_indices r) cs).
Proof.
  intros Hw Hmax. pose proof (hw_num _ Hw) as Hnum. pose proof (ongoing_length h Hw) as Hlen.
  destruct (decide (hd_num h = O)) as [H0|H0].
  { exists [], h, m. split_and!; try done. intros X comp x. unfold progress. by rewrite H0. }
  set (reqs := take (hd_num h) (hd_orig h)).
  assert (length reqs = hd_num h) as Hreqs by (unfold reqs; rewrite length_take, (hw_orig _ Hw); lia).
  destruct (testsome_law reqs m) as (Hout & Hsts & Hnd & Hr & Hreqs').
  { intros E. rewrite E in Hreqs. by symmetry in Hreqs. }
  { intros Hin. apply list_elem_of_lookup in Hin as [i Hi]. apply lookup_take_Some in Hi as [Hi Hlt].
    destruct (lookup_lt_is_Some_2 (hd_proxy h) i) as [z Hz]; [rewrite (hw_proxy _ Hw); lia|].
    pose proof (hw_active _ Hw) as Ha. rewrite Forall_forall in Ha.
    apply (Ha (z, mpi_request_null)); [|done]. apply list_elem_of_lookup. exists i. by apply ongoing_lookup. }
  set (r := mpi_testsome reqs m) in *. set (js := ts_indices r) in *. set (idx := Z.to_nat <$> js).
  rewrite Hreqs in Hr.
  assert (∀ i, i ∈ idx ↔ Z.of_nat i ∈ js) as Hidx.
  { rewrite Forall_forall in Hr. intros i. unfold idx. rewrite list_elem_of_fmap. split.
    - intros (j & -> & Hj). by rewrite Z2Nat.id by (apply Hr in Hj; lia).
    - intros Hi. exists (Z.of_nat i). by rewrite Nat2Z.id. }
  assert (Forall (λ i, (i < hd_num h)%nat) idx) as Hrange.
  { apply Forall_fmap. eapply Forall_impl; [exact Hr|]. cbn. lia. }
  assert (NoDup idx) as Hndi.
  { apply NoDup_fmap_2_strong; [|done]. rewrite Forall_forall in Hr. intros i j Hi%Hr Hj%Hr. lia. }
  assert (length idx = length js) as Hil by apply length_fmap.
  pose proof (seq_split idx (hd_num h) Hndi Hrange) as Hperm.
  pose proof (Permutation_length Hperm) as Hpl. rewrite length_app, length_seq in Hpl.
  set (d := λ i, default (0, 0) (ongoing h !! i)).
  set (sts := write_prefix (ts_statuses r) (hd_statuses h)).
  set (orig := write_prefix (ts_reqs r) (hd_orig h)).
  assert (length sts = max_num_ongoing) as Hsl.
  { unfold sts. rewrite write_prefix_length; [apply Hw|]. rewrite Hsts, (hw_statuses _ Hw). lia. }
  assert (length orig = max_num_ongoing) as Hol.
  { unfold orig. rewrite Hreqs', write_prefix_length; [apply Hw|]. rewrite length_imap, Hreqs, (hw_orig _ Hw). lia. }
  assert ((ts_outcount r <? 0) = false ∧ Z.to_nat (ts_outcount r) = length js) as [Hneg Hcomp].
  { rewrite Hout. split; [apply Z.ltb_ge; lia|by rewrite Nat2Z.id]. }
  destruct (decide (js = [])) as [Hjs|Hjs].
  { assert (orig = hd_orig h) as Eo.
    { unfold orig. rewrite Hreqs', Hjs. rewrite (imap_ext _ (const id)) by done. rewrite imap_const, list_fmap_id.
      unfold write_prefix. rewrite Hreqs. apply take_drop. }
    exists [], (Holder (hd_num h) (hd_proxy h) orig sts), (ts_mpi r). split_and!; rewrite ?Eo; try done.
    - intros X comp x. unfold progress. rewrite (proj2 (Nat.eqb_neq _ _) H0). fold reqs. fold r. cbn zeta.
      rewrite Hneg, Hcomp, Hjs. cbn. fold orig. fold sts. by rewrite Eo.
    - destruct Hw. constructor; done.
    - intros _. cbn zeta. fold reqs. fold r. fold js. rewrite Hjs. constructor. }
  destruct (Forall_choose (λ i c, hd_proxy h !! Z.to_nat i = Some c.1 ∧ sts !! Z.to_nat i = Some c.2) js) as [cs Hcs].
  { eapply Forall_impl; [exact Hr|]. intros i Hi. cbn in Hi.
    destruct (lookup_lt_is_Some_2 (hd_proxy h) (Z.to_nat i)) as [z Hz]; [rewrite (hw_proxy _ Hw); lia|].
    destruct (lookup_lt_is_Some_2 sts (Z.to_nat i)) as [st Hst]; [lia|]. by exists (z, st). }
  destruct (compact_spec (hd_num h) 0 0 (hd_proxy h) orig) as (k & proxy' & orig' & Ec & Hp' & Ho' & Hk & Ht);
    [rewrite (hw_proxy _ Hw); done|done|lia|].
  unfold orig in Hk, Ht. rewrite Hreqs', tested_ongoing, filter_map in Hk, Ht by done.
  assert (filter (λ i, (if bool_decide (Z.of_nat i ∈ js) then mpi_request_null else (d i).2) ≠ mpi_request_null)
    (seq 0 (hd_num h)) = filter (.∉ idx) (seq 0 (hd_num h))) as Ef.
  { apply filter_ext_in. intros i [_ Hi]%elem_of_seq. rewrite Hidx. case_bool_decide; [naive_solver|].
    split; [done|intros _]. pose proof (hw_active _ Hw) as Ha. rewrite Forall_forall in Ha. apply Ha.
    unfold d. destruct (lookup_lt_is_Some_2 (ongoing h) i) as [x Hx]; [lia|]. rewrite Hx. by eapply list_elem_of_lookup_2. }
  unfold d in Ef. cbn in Hk, Ht. rewrite Ef in Hk, Ht. rewrite length_fmap in Hk.
  assert (take k (zip proxy' orig') = d <$> filter (.∉ idx) (seq 0 (hd_num h))) as Ekept.
  { rewrite Ht. apply Forall_fmap_ext_1, Forall_forall. intros i [Hi _]%list_elem_of_filter. rewrite Hidx in Hi.
    rewrite bool_decide_false by done. unfold d. by destruct (default _ _). }
  pose proof (ongoing_seq h Hw) as Eseq. fold d in Eseq.
  assert (take k (zip proxy' orig') `sublist_of` ongoing h) as Hsub.
  { rewrite Ekept, <-Eseq. apply fmap_sublist, filter_sublist. }
  exists cs, (Holder k proxy' orig' sts), (ts_mpi r). split_and!.
  - intros X comp x. unfold progress. rewrite (proj2 (Nat.eqb_neq _ _) H0). fold reqs. fold r. cbn zeta.
    rewrite Hneg, Hcomp, assert_true by (apply Nat.leb_le; lia). cbn [mbind result_bind].
    rewrite (proj2 (Nat.eqb_neq _ _)) by by destruct js. fold js. rewrite take_ge by done. fold orig. fold sts.
    rewrite (complete_all_list _ _ _ js cs) by (done || lia). cbn.
    destruct (complete_list comp cs None x) as [[[zs awake] x']|]; [|done]. cbn. rewrite Ec. cbn.
    rewrite assert_true by (apply Nat.eqb_eq; lia). done.
  - constructor; cbn; [by rewrite Hp', (hw_proxy _ Hw)|congruence|done|lia|].
    pose proof (hw_active _ Hw) as Ha. rewrite Forall_forall in *. intros x Hx. apply Ha.
    by eapply elem_of_submseteq, sublist_submseteq.
  - unfold ongoing at 2. cbn. rewrite Ekept, <-Eseq, Hperm at 1. rewrite !fmap_app. f_equiv.
    enough ((d <$> idx).*1 = cs.*1) as -> by done. clear -Hcs Hrange Hlen. unfold idx, d in *. clear idx d.
    induction Hcs as [|i c js cs [Hc _] _ IH]; [done|]. apply Forall_cons in Hrange as [Hi Hrange]. cbn in *.
    rewrite (IH Hrange). f_equal. rewrite <-Hlen in Hi. destruct (lookup_lt_is_Some_2 _ _ Hi) as [[z q] Hx].
    rewrite Hx. apply ongoing_lookup in Hx as (_ & Hz & _). cbn. congruence.
  - done.
  - by intros _.
Qed.
End holder_spec.

(** * A library for examples *)

(** Handles are counted from 1; an operation that is [true] completes at once,
    and a test completes the last request it is given, whose handle is the
    status. *)
Definition echo_testsome (reqs : list Z) (m : Z) : testsome_ret Z Z :=
  let k := Z.of_nat (length reqs - 1) in
  TestsomeRet 1 (imap (λ i q, if bool_decide (Z.of_nat i ∈ [k]) then 0 else q) reqs)
    [k] [default 0 (last reqs)] m.

#[local] Instance echo_mpi : Mpi := {
  mpi_state := Z;
  mpi_status := Z;
  mpi_op := bool;
  mpi_request_null := 0;
  mpi_call op m := if op : bool then (0, m) else (m + 1, m + 1);
  mpi_testsome := echo_testsome;
  mpi_progress m := m;
}.

#[local] Instance echo_mpi_laws : MpiLaws.
Proof.
  constructor. intros reqs m Hne _. cbn. split_and!; [done|done|apply NoDup_singleton| |done].
  apply Forall_singleton. destruct reqs as [|q reqs]; [done|]. cbn. lia.
Defined.

(** * Properties *)

(** C33: progress of the request holder: each ongoing request is either
    completed, once, by a call of the completion function, or stays in the
    arrays, in the same order and with its handle; the arrays stay well-formed,
    and the function is called with the statuses found at the indices that
    MPI_Testsome reported. *)
Theorem holder_progress_spec `{HM : Mpi} `{HML : !MpiLaws} max h m :
  holder_wf max h → Z.of_nat max < 2 ^ 31 →
  ∃ cs h' m',
    (∀ X (comp : Z → mpi_status → X → result (bool * X)) x,
      progress comp h m x =
      (c ← complete_list comp cs None x; let '(zs, awake, x) := c in Ok (zs, awake, hd_num h, h', m', x)))
    ∧ holder_wf max h' ∧ (ongoing h).*1 ≡ₚ cs.*1 ++ (ongoing h').*1 ∧ ongoing h' `sublist_of` ongoing h
    ∧ (hd_num h ≠ O →
        let r := mpi_testsome (take (hd_num h) (hd_orig h)) m in
        Forall2 (λ i c, hd_proxy h !! Z.to_nat i = Some c.1
          ∧ write_prefix (ts_statuses r) (hd_statuses h) !! Z.to_nat i = Some c.2) (ts_indices r) cs).
Proof. exact (progress_ongoing max h m). Qed.

Definition demo_holder : holder Z := Holder 2 [7; 8; 0] [1; 2; 0] [0; 0; 0].

Lemma demo_holder_wf : holder_wf 3 demo_holder.
Proof. constructor; cbn; try done; [lia|]. repeat constructor; done. Defined.

Lemma holder_progress_spec_witness :
  ∃ (cs : list (Z * Z)) h', (ongoing demo_holder).*1 ≡ₚ cs.*1 ++ (ongoing h').*1 ∧ ongoing h' = [(7, 1)].
Proof.
  destruct (holder_progress_spec (HM := echo_mpi) 3 demo_holder 2 demo_holder_wf ltac:(done)) as (cs & h' & m' & E & _ & Hp & _ & _).
  exists cs, h'. split; [exact Hp|].
  specialize (E (list Z) (λ z _ x, Ok (false, z :: x)) []).
  destruct (complete_list _ cs None []) as [[[zs w] x]|]; [|discriminate (eq_trans (eq_sym E) ltac:(vm_compute; reflexivity))].
  vm_compute in E. injection E as _ _ <- _ _. reflexivity.
Defined.

(** When MPI_Testsome reports one request that is not the first of the
    array, the request is completed with whatever the status array held at its
    index before the call, and not with the status that MPI_Testsome reported. *)
Theorem progress_stale_status `{HM : Mpi} `{HML : !MpiLaws} max h m i st :
  holder_wf max h → Z.of_nat max < 2 ^ 31 → hd_num h ≠ O →
  let r := mpi_testsome (take (hd_num h) (hd_orig h)) m in
  ts_indices r = [i] → ts_statuses r = [st] → 0 < i →
  ∃ z old h' m', hd_proxy h !! Z.to_nat i = Some z ∧ hd_statuses h !! Z.to_nat i = Some old
    ∧ ∀ X (comp : Z → mpi_status → X → result (bool * X)) x,
        progress comp h m x =
        (c ← comp z old x; let '(waiting, x) := c in
         Ok ([], (if waiting : bool then Some z else None), hd_num h, h', m', x)).
Proof.
  intros Hw Hmax H0 r Hi Hst Hpos.
  destruct (progress_ongoing max h m Hw Hmax) as (cs & h' & m' & E & _ & _ & _ & Hcs).
  specialize (Hcs H0). cbn zeta in Hcs. fold r in Hcs. rewrite Hi, Hst in Hcs.
  apply Forall2_cons_inv_l in Hcs as ([z old] & cs' & [Hz Hold] & Hnil & ->).
  apply Forall2_nil_inv_l in Hnil as ->. cbn in Hz, Hold.
  exists z, old, h', m'. split_and!; [done| |].
  - destruct (Z.to_nat i) as [|k] eqn:Ek; [lia|]. unfold write_prefix in Hold. by destruct (hd_statuses h).
  - intros X comp x. rewrite E. cbn. by destruct (comp z old x) as [[[] x']|].
Qed.

Lemma progress_stale_status_witness :
  ∃ z old h' m', hd_proxy demo_holder !! 1%nat = Some z ∧ old = 0 ∧ ts_statuses (echo_testsome [1; 2] 2) = [2]
    ∧ progress (λ z st x, Ok (false, (z, st) :: x)) demo_holder 2 [] = Ok ([], None, 2%nat, h', m', [(z, old)]).
Proof.
  destruct (progress_stale_status (HM := echo_mpi) 3 demo_holder 2 1 2 demo_holder_wf ltac:(done) ltac:(done) eq_refl eq_refl ltac:(done))
    as (z & old & h' & m' & Hz & Hold & E).
  exists z, old, h', m'. split; [exact Hz|]. split; [by injection Hold as <-|]. split; [reflexivity|]. apply E.
Defined.
