(* ===== verification/ProxyMpi.v ===== *)
(** The MPI proxy of meqdc: proxy_mpi_facade.hpp and proxy_mpi_itf.hpp.

    The facade lets many threads use an MPI library that only one thread may
    call at a time. It is a client of the delegation lock of cmpth, and its
    consumer: a call is executed by its thread when the lock is free and
    delegated otherwise, and the consumer thread polls the ongoing requests. *)
From Stdlib Require Import ZArith Lia.
From stdpp Require Import base tactics functions list gmap.
From S2P Require Import Prelude.
From S2P Require Import Linear.
From S2P Require Import SyncQueue.
From S2P Require Import LockQueue.
From S2P Require Import Delegator.
From S2P Require Import DelegatorInv.
From S2P Require Import DelegatorSafe.
From S2P Require Import DelegatorThm.
From S2P Require Import RequestHolder.

(** The build options: [MEQDC_MPI_MAX_NUM_ONGOING], which is 256 by default,
    [MEQDC_MPI_ENABLE_STATIC_OFFLOADING], [MEQDC_MPI_ENABLE_ALWAYS_PROGRESS]. *)
Class ProxyConfig := {
  max_num_ongoing : nat;
  static_offloading : bool;
  always_progress : bool;
  max_positive : (0 < max_num_ongoing)%nat;
  max_fits : Z.of_nat max_num_ongoing < 2 ^ 31;
}.

Inductive request_state := Created | Waiting | Finished.

#[export] Instance request_state_eq_dec : EqDecision request_state.
Proof. solve_decision. Defined.

Section proxy.
Context {HM : Mpi} {PC : ProxyConfig}.

(** * Data *)

(** [proxy_mpi_request]; its [sth] is an object of the delegation lock. *)
Record proxy_request := ProxyRequest {
  rq_state : request_state;
  rq_orig : Z;
  rq_status : mpi_status;
}.

(** The facade: [orig_mf_], [req_hld_] and the requests. *)
Record proxy := Proxy {
  px_mpi : mpi_state;
  px_hold : holder mpi_status;
  px_reqs : Z → proxy_request;
}.

(** [proxy_mpi_func]: the code with its parameters, and the request. The flag
    is [needs_wait] of [delegate_nb]. *)
Record proxy_func := ProxyFunc {
  pf_op : mpi_op;
  pf_req : option Z;
  pf_needs_wait : bool;
}.

Implicit Types (c : proxy) (f : proxy_func) (z : Z).

Definition set_mpi m c := Proxy m (px_hold c) (px_reqs c).
Definition set_hold h c := Proxy (px_mpi c) h (px_reqs c).
Definition set_req z r c := Proxy (px_mpi c) (px_hold c) (<[z := r]> (px_reqs c)).
Definition set_state z st c := let r := px_reqs c z in set_req z (ProxyRequest st (rq_orig r) (rq_status r)) c.
Definition set_orig z q c := let r := px_reqs c z in set_req z (ProxyRequest (rq_state r) q (rq_status r)) c.

(** * Calls *)

(** [execute_imm_nb]: calls the library if a request can be added. A request
    the library has completed at once, whose handle is null, is finished. *)
Definition execute_imm_nb (op : mpi_op) (req : option Z) (needs_wait : bool) c : result (bool * option Z * proxy) :=
  let is_executed := is_available max_num_ongoing (px_hold c) in
  r ← (if is_executed then
         let '(q, m) := mpi_call op (px_mpi c) in
         let c := set_mpi m c in
         match req with
         | None => Ok (needs_wait, c)
         | Some z =>
             let c := set_orig z q c in
             if q =? mpi_request_null then Ok (false, set_state z Finished c)
             else h ← add max_num_ongoing z q (px_hold c); Ok (needs_wait, set_hold h c)
         end
       else Ok (needs_wait, c));
  let '(do_wait, c) := r in
  if do_wait : bool then
    match req with
    | Some z => Ok (is_executed, Some z, set_state z Waiting c)
    | None => Fail OutOfBounds
    end
  else Ok (is_executed, None, c).

(** [delegate_nb]. *)
Definition delegate_nb f c : proxy :=
  match pf_req f with
  | Some z => if pf_needs_wait f then set_state z Waiting c else c
  | None => c
  end.

Definition execute_delegated f c : result (bool * wait_move * proxy) :=
  r ← execute_imm_nb (pf_op f) (pf_req f) false c;
  let '(is_executed, w, c) := r in
  _ ← assert_ (bool_decide (w = None));
  Ok (is_executed, WmStay, c).

(** [complete_request]: true if a thread waits for the request. *)
Definition complete_request z (st : mpi_status) (reqs : Z → proxy_request) : result (bool * (Z → proxy_request)) :=
  let r := reqs z in
  match rq_state r with
  | Waiting => Ok (true, <[z := ProxyRequest Waiting (rq_orig r) st]> reqs)
  | Created => Ok (false, <[z := ProxyRequest Finished (rq_orig r) st]> reqs)
  | Finished => Fail AssertionFailure
  end.

Definition do_progress c : result (list Z * option Z * proxy) :=
  r ← progress complete_request (px_hold c) (px_mpi c) (px_reqs c);
  let '(zs, awake, num_ongoing, h, m, reqs) := r in
  let m := if always_progress then mpi_progress m
           else if static_offloading && (num_ongoing =? 0)%nat then mpi_progress m else m in
  Ok (zs, awake, Proxy m h reqs).

Definition is_active c : bool := static_offloading || (0 <? hd_num (px_hold c))%nat.

(** [wait]: the test of the state, then [wait_func]. *)
Definition wait_poll z c : result bool :=
  match rq_state (px_reqs c z) with
  | Finished => Ok true
  | Created => Ok false
  | Waiting => Fail AssertionFailure
  end.

Definition wait_func z c : bool * proxy :=
  match rq_state (px_reqs c z) with
  | Created => (true, set_state z Waiting c)
  | _ => (false, c)
  end.

(** [test]: whether the request is finished, and its status. *)
Definition test z c : result (option mpi_status) :=
  match rq_state (px_reqs c z) with
  | Finished => Ok (Some (rq_status (px_reqs c z)))
  | Created => Ok None
  | Waiting => Fail AssertionFailure
  end.

#[export] Instance proxy_consumer : Consumer proxy proxy_func := {
  con_is_active := is_active;
  con_delegate := delegate_nb;
  con_execute := execute_delegated;
  con_progress := do_progress;
  con_poll := wait_poll;
  con_try_wait := wait_func;
}.

(** What a thread does with the facade: it allocates a request, and calls
    [execute_or_delegate_req_nb], [_noreq_nb] or [_req_b], [wait], or one of the
    functions that take the lock to call the library. *)
Inductive facade_call :=
| FAllocate (z : Z)
| FReq (op : mpi_op) (z : Z) (needs_wait : bool)
| FNoReq (op : mpi_op)
| FWait (z : Z)
| FLock
| FLocked (call : mpi_state → mpi_state)
| FUnlock.

Definition to_del_call (fc : facade_call) : del_call (C := proxy) (F := proxy_func) :=
  match fc with
  | FAllocate z => COwn (set_state z Created)
  | FReq op z needs_wait =>
      CExec (execute_imm_nb op (Some z) needs_wait) (ProxyFunc op (Some z) needs_wait)
        (if needs_wait then Some (LObj z) else None)
  | FNoReq op => CExec (execute_imm_nb op None false) (ProxyFunc op None false) None
  | FWait z => CWaitObj z
  | FLock => CLock
  | FLocked call => CUse (λ c, set_mpi (call (px_mpi c)) c)
  | FUnlock => CUnlock
  end.

(** * The laws of the consumer *)

Definition polled c z : Prop := z ∈ (ongoing (px_hold c)).*1.

Record proxy_ok c : Prop := {
  po_hold : holder_wf max_num_ongoing (px_hold c);
  po_nodup : NoDup (ongoing (px_hold c)).*1;
  po_polled z : polled c z → rq_state (px_reqs c z) ≠ Finished;
}.

Definition used c z : Prop := polled c z ∨ rq_state (px_reqs c z) = Finished.
Definition waits c z : Prop := rq_state (px_reqs c z) = Waiting.

Lemma set_state_state z st c z' :
  rq_state (px_reqs (set_state z st c) z') = if decide (z' = z) then st else rq_state (px_reqs c z').
Proof.
  cbn. destruct (decide (z' = z)) as [->|]; [by rewrite fn_lookup_insert|by rewrite fn_lookup_insert_ne].
Qed.

Lemma set_orig_state z q c z' : rq_state (px_reqs (set_orig z q c) z') = rq_state (px_reqs c z').
Proof.
  cbn. destruct (decide (z' = z)) as [->|]; [by rewrite fn_lookup_insert|by rewrite fn_lookup_insert_ne].
Qed.

(** A request that is not finished starts or stops to wait. *)
Lemma set_state_ok z st c : proxy_ok c → st ≠ Finished → proxy_ok (set_state z st c).
Proof.
  intros [Hh Hnd Hp] Hst. constructor; try done. intros z' Hz'. rewrite set_state_state.
  destruct (decide (z' = z)); auto.
Qed.

Lemma set_state_used z st c z' :
  ¬ used c z ∨ polled c z → st ≠ Finished → used (set_state z st c) z' ↔ used c z'.
Proof.
  intros Hz Hst. unfold used. rewrite set_state_state. change (polled (set_state z st c) z') with (polled c z').
  destruct (decide (z' = z)) as [->|]; [|done]. unfold used in Hz. naive_solver.
Qed.

(** What a call of the library does, on the request of the function. *)
Lemma execute_imm_spec op req nw c :
  proxy_ok c → (∀ z, req = Some z → ¬ used c z) → (nw = true → is_Some req) →
  let b := is_available max_num_ongoing (px_hold c) in
  ∃ w c', execute_imm_nb op req nw c = Ok (b, w, c') ∧ proxy_ok c'
    ∧ (w = None ∨ nw = true ∧ w = req)
    ∧ (∀ z, used c' z ↔ used c z ∨ b = true ∧ req = Some z)
    ∧ (∀ z, waits c' z → waits c z ∨ w = Some z).
Proof.
  intros Hok Hreq Hnw b. unfold execute_imm_nb. fold b.
  set (fin := λ (w : bool) c, if w then
    match req with Some z => Ok (b, Some z, set_state z Waiting c) | None => Fail OutOfBounds end
    else Ok (b, None, c)).
  assert (∀ (w : bool) c1, proxy_ok c1 → (w = true → nw = true) →
    (∀ z, req = Some z → polled c1 z ∨ ¬ used c1 z) →
    (∀ z, used c1 z ↔ used c z ∨ b = true ∧ req = Some z) → (∀ z, waits c1 z → waits c z) →
    ∃ w' c', fin w c1 = Ok (b, w', c') ∧ proxy_ok c' ∧ (w' = None ∨ nw = true ∧ w' = req)
    ∧ (∀ z, used c' z ↔ used c z ∨ b = true ∧ req = Some z) ∧ (∀ z, waits c' z → waits c z ∨ w' = Some z)) as Hfin.
  { intros [] c1 Hok1 Hw1 Hp1 Hu1 Hwa1; [|exists None, c1; split_and!; auto].
    destruct (Hnw (Hw1 eq_refl)) as [z ->]. exists (Some z), (set_state z Waiting c1). split_and!; try done.
    - by apply set_state_ok.
    - right. split; [by apply Hw1|done].
    - intros z'. rewrite set_state_used by (done || (destruct (Hp1 z eq_refl); auto)). apply Hu1.
    - intros z'. unfold waits. rewrite set_state_state. destruct (decide (z' = z)) as [->|]; [by right|]. left. by apply Hwa1. }
  destruct b eqn:Eb; [|apply (Hfin nw c); try done; naive_solver].
  destruct (mpi_call op (px_mpi c)) as [q m].
  destruct req as [z|].
  - specialize (Hreq z eq_refl). destruct (Z.eqb_spec q mpi_request_null) as [->|Hq].
    + exists None. eexists. split; [reflexivity|]. split_and!; [| |intros z'|intros z'].
      * constructor; [apply Hok|apply Hok|]. intros z' Hz'. rewrite set_state_state, set_orig_state.
        destruct (decide (z' = z)) as [->|]; [|by apply (po_polled _ Hok)]. destruct Hreq. by left.
      * by left.
      * unfold used. rewrite set_state_state, set_orig_state. cbn. unfold polled. cbn. fold (polled c z').
        destruct (decide (z' = z)) as [->|]; naive_solver.
      * unfold waits. rewrite set_state_state, set_orig_state. destruct (decide (z' = z)); [done|by left].
    + destruct (add_ongoing max_num_ongoing z q (px_hold c) (po_hold _ Hok) Eb Hq) as (h & Eh & Hwf & Hon & _).
      cbn [set_orig set_mpi set_req px_hold]. rewrite Eh. cbn [mbind result_bind].
      set (c1 := set_hold h (set_orig z q (set_mpi m c))).
      assert (∀ z', polled c1 z' ↔ polled c z' ∨ z' = z) as Hpo.
      { intros z'. unfold polled. cbn. rewrite Hon, fmap_app, elem_of_app. cbn. by rewrite list_elem_of_singleton. }
      assert (∀ z', rq_state (px_reqs c1 z') = rq_state (px_reqs c z')) as Hst by (intros z'; apply (set_orig_state z q (set_mpi m c))).
      apply (Hfin nw c1); try done.
      * constructor; [done| |].
        -- cbn. rewrite Hon, fmap_app. apply NoDup_app. split_and!; [apply Hok| |apply NoDup_singleton].
           intros z' Hz' ->%list_elem_of_singleton. apply Hreq. by left.
        -- intros z' [Hz'| ->]%Hpo; rewrite Hst; [by apply (po_polled _ Hok)|]. intros E. apply Hreq. by right.
      * intros z' [= <-]. left. apply Hpo. by right.
      * intros z'. unfold used. rewrite Hpo, Hst. naive_solver.
      * intros z'. unfold waits. by rewrite Hst.
  - apply (Hfin nw (set_mpi m c)); try done; [by destruct Hok|naive_solver].
Qed.

(** The loop of [complete_request]: the requests waited for are those it wakes,
    in order, and the others are finished. *)
Lemma complete_list_spec cs awake (reqs : Z → proxy_request) :
  NoDup cs.*1 → (∀ z, z ∈ cs.*1 → rq_state (reqs z) ≠ Finished) →
  ∃ zs ret reqs', complete_list complete_request cs awake reqs = Ok (zs, ret, reqs')
    ∧ zs ++ option_list ret = option_list awake ++ filter (λ z, rq_state (reqs z) = Waiting) cs.*1
    ∧ ∀ z, rq_state (reqs' z) =
        if decide (z ∈ cs.*1 ∧ rq_state (reqs z) = Created) then Finished else rq_state (reqs z).
Proof.
  revert awake reqs. induction cs as [|[z st] cs IH]; intros awake reqs Hnd Hst.
  { exists [], awake, reqs. cbn. rewrite app_nil_r. by split_and!. }
  cbn [fmap list_fmap fst] in *. apply NoDup_cons in Hnd as [Hz Hnd].
  pose proof (Hst z ltac:(by left)) as Hzs.
  assert (∀ r, (∀ z', z' ∈ cs.*1 → rq_state (<[z := r]> reqs z') ≠ Finished)
    ∧ filter (λ y, rq_state (<[z := r]> reqs y) = Waiting) cs.*1 = filter (λ z, rq_state (reqs z) = Waiting) cs.*1
    ∧ ∀ z', z' ∈ cs.*1 → rq_state (<[z := r]> reqs z') = rq_state (reqs z')) as Hr.
  { intros r. assert (∀ z', z' ∈ cs.*1 → <[z := r]> reqs z' = reqs z') as Hne.
    { intros z' Hz'. rewrite fn_lookup_insert_ne; [done|]. by intros ->. }
    split_and!; [|apply filter_ext_in|]; intros z' Hz'; rewrite (Hne z' Hz'); try done. apply Hst. by right. }
  cbn [complete_list]. rewrite filter_cons. assert (complete_request z st reqs = complete_request z st reqs) as Ec by done.
  unfold complete_request in Ec at 2.
  destruct (rq_state (reqs z)) eqn:Ez; [| |done]; rewrite Ec; cbn [mbind result_bind].
  - rewrite decide_False by done. destruct (Hr (ProxyRequest Finished (rq_orig (reqs z)) st)) as (H1 & H2 & H3).
    destruct (IH awake _ Hnd H1) as (zs & ret & reqs' & -> & Hzs' & Hst'). rewrite H2 in Hzs'.
    exists zs, ret, reqs'. split_and!; try done. intros z'. rewrite Hst'.
    destruct (decide (z' = z)) as [->|Hne].
    + rewrite fn_lookup_insert. cbn. rewrite decide_False by by intros [].
      rewrite decide_True; [done|]. split; [by left|done].
    + rewrite fn_lookup_insert_ne by done. apply decide_ext. rewrite elem_of_cons. naive_solver.
  - rewrite decide_True by done. destruct (Hr (ProxyRequest Waiting (rq_orig (reqs z)) st)) as (H1 & H2 & H3).
    destruct (IH (Some z) _ Hnd H1) as (zs & ret & reqs' & -> & Hzs' & Hst'). rewrite H2 in Hzs'. cbn.
    exists (option_list awake ++ zs), ret, reqs'. split_and!; [done|by rewrite <-app_assoc, Hzs'|].
    intros z'. rewrite Hst'. destruct (decide (z' = z)) as [->|Hne].
    + rewrite fn_lookup_insert. cbn. rewrite decide_False by by intros []. rewrite decide_False; [done|].
      rewrite Ez. by intros [].
    + rewrite fn_lookup_insert_ne by done. apply decide_ext. rewrite elem_of_cons. naive_solver.
Qed.

Context {HML : MpiLaws}.

Lemma progress_spec c :
  proxy_ok c →
  ∃ zs r c', do_progress c = Ok (zs, r, c') ∧ proxy_ok c' ∧ NoDup (zs ++ option_list r)
    ∧ (∀ z, z ∈ zs ++ option_list r → polled c z ∧ waits c z ∧ ¬ used c' z)
    ∧ (∀ z, used c' z → used c z) ∧ (∀ z, waits c' z → waits c z).
Proof.
  intros Hok. unfold do_progress.
  destruct (progress_ongoing max_num_ongoing (px_hold c) (px_mpi c) (po_hold _ Hok) max_fits)
    as (cs & h & m & E & Hwf & Hperm & Hsub & _).
  rewrite E. pose proof (po_nodup _ Hok) as Hnd. rewrite Hperm in Hnd. apply NoDup_app in Hnd as (Hnd1 & Hdis & Hnd2).
  assert (∀ z, polled c z ↔ z ∈ cs.*1 ∨ z ∈ (ongoing h).*1) as Hpo.
  { intros z. unfold polled. by rewrite Hperm, elem_of_app. }
  destruct (complete_list_spec cs None (px_reqs c) Hnd1) as (zs & ret & reqs & -> & Hzs & Hst).
  { intros z Hz. apply (po_polled _ Hok), Hpo. by left. }
  cbn [mbind result_bind] in *. change (option_list None ++ ?l) with l in Hzs. eexists zs, ret, _. split; [reflexivity|].
  assert (∀ m z, used (Proxy m h reqs) z ↔ z ∈ (ongoing h).*1 ∨ rq_state (reqs z) = Finished) as Hus by done.
  split_and!.
  - constructor; [done|done|]. intros z Hz. cbn. rewrite Hst, decide_False.
    + apply (po_polled _ Hok), Hpo. by right.
    + intros [Hz' _]. by apply (Hdis z).
  - rewrite Hzs. by apply NoDup_filter.
  - intros z. rewrite Hzs, list_elem_of_filter, Hus, Hst. intros [Hw Hz]. split_and!; [apply Hpo; by left|done|].
    rewrite Hw, decide_False by by intros []. intros [?|?]; [by apply (Hdis z)|done].
  - intros z. rewrite Hus, Hst. unfold used. rewrite Hpo. case_decide; naive_solver.
  - intros z. unfold waits. cbn. rewrite Hst. by case_decide.
Qed.

#[export] Instance proxy_laws : ConsumerLaws proxy proxy_func.
Proof.
  refine {| con_ok := proxy_ok; func_req := pf_req; con_polled := polled; con_used := used; con_waits := waits;
    func_obj := λ f, if pf_needs_wait f then pf_req f else None |}.
  - intros f z. by destruct (pf_needs_wait f).
  - intros c z Hok Hz. cbn. unfold is_active. apply orb_true_iff. right. apply Nat.ltb_lt.
    rewrite <-(ongoing_length _ _ (po_hold _ Hok)), <-(length_fmap fst). unfold polled in Hz.
    by destruct (ongoing (px_hold c)).*1; [apply elem_of_nil in Hz|cbn; lia].
  - intros f c Hok Hf. cbn. unfold delegate_nb. destruct (pf_req f) as [z|] eqn:Ez; [|split_and!; auto].
    destruct (pf_needs_wait f); [|split_and!; auto]. split_and!; [by apply set_state_ok|done| |].
    + intros z'. apply set_state_used; [|done]. left. by apply Hf.
    + intros z'. unfold waits. rewrite set_state_state. destruct (decide (z' = z)) as [->|]; [by right|by left].
  - intros f c Hok Hf. change (con_execute f c) with (execute_delegated f c). unfold execute_delegated.
    destruct (execute_imm_spec (pf_op f) (pf_req f) false c) as (w & c' & -> & Hok' & Hw & Hu & Hwa); try done.
    assert (w = None) as -> by by destruct Hw as [|[]]. cbn. eexists _, c'. split_and!; [reflexivity|done|done|].
    intros z [?|?]%Hwa; done.
  - intros c Hok. destruct (progress_spec c Hok) as (zs & r & c' & E & Hok' & Hnd & Hzs & Hu & Hw).
    exists zs, r, c'. split_and!; try done. intros z (Hp & ? & ?)%Hzs. split_and!; try done. by left.
  - intros z c _ Hw. cbn. unfold wait_poll, waits in *. destruct (rq_state _); eauto. done.
  - intros z c Hok Hw. cbn. unfold wait_func. destruct (rq_state (px_reqs c z)) eqn:E.
    + eexists _, _. split_and!; [reflexivity|by apply set_state_ok|done| |].
      * intros z'. apply set_state_used; [|done].
        destruct (decide (z ∈ (ongoing (px_hold c)).*1)); [by right|left]. intros [?|?]; [done|congruence].
      * intros z'. unfold waits. rewrite set_state_state. destruct (decide (z' = z)) as [->|]; [by right|by left].
    + done.
    + eexists _, c. split_and!; auto.
Defined.
End proxy.
