(* ===== verification/ProxyMpiThm.v ===== *)
(** The properties of the MPI proxy: what its clients may do, safety and the
    absence of deadlocks, and what happens to a request of which the MPI library
    says at once that it is complete. *)
From Stdlib Require Import ZArith Lia.
From stdpp Require Import base tactics functions list gmap.
From S2P Require Import Prelude.
From S2P Require Import Linear.
From S2P Require Import SyncQueue.
From S2P Require Import LockQueue.
From S2P Require Import Delegator.
From S2P Require Import DelegatorInv.
From S2P Require Import DelegatorSafe.
From S2P Require Import DelegatorThm.
From S2P Require Import RequestHolder.
From S2P Require Import ProxyMpi.

(** The constructor. *)
Definition new_holder `{HM : Mpi} `{PC : ProxyConfig} (st : mpi_status) : holder mpi_status :=
  Holder 0 (replicate max_num_ongoing 0) (replicate max_num_ongoing 0) (replicate max_num_ongoing st).

Definition new_proxy `{HM : Mpi} `{PC : ProxyConfig} (m : mpi_state) (st : mpi_status) : proxy :=
  Proxy m (new_holder st) (λ _, ProxyRequest Created 0 st).

Section theorems.
Context {HM : Mpi} {PC : ProxyConfig} {HML : MpiLaws}.

Abbreviation state := (del (C := proxy) (F := proxy_func)).
Implicit Types (s : state) (t : nat) (z : Z).

(** * What threads do *)

Definition unclaimed z s : Prop := ∀ u, claims (dl_pcs s u) ≠ Some z.

(** The pool gives a request to one thread, which starts one operation with it;
    one thread waits for it. *)
Definition facade_ok (fc : facade_call) s : Prop :=
  match fc with
  | FAllocate z => unclaimed z s
  | FReq _ z _ => fresh_req z s
  | FWait z => ¬ waits (dl_con s) z ∧ unclaimed z s
  | FNoReq _ | FLock | FLocked _ | FUnlock => True
  end.

Definition facade_allowed t (op : del_call) s : Prop := ∃ fc, op = to_del_call fc ∧ facade_ok fc s.

Lemma new_proxy_ok m st : proxy_ok (new_proxy m st) ∧ ∀ z, ¬ used (new_proxy m st) z.
Proof.
  split.
  - constructor; cbn; [constructor; cbn; rewrite ?length_replicate; try done; lia|constructor|].
    intros z Hz. by apply elem_of_nil in Hz.
  - intros z [Hz|Hz]; [by apply elem_of_nil in Hz|done].
Qed.

(** An immediate call finds no ongoing request. *)
Lemma inactive_available (c : proxy) : is_active c = false → is_available max_num_ongoing (px_hold c) = true.
Proof.
  unfold is_active, is_available. intros [_ H]%orb_false_iff. apply Nat.ltb_ge in H.
  apply Nat.ltb_lt. pose proof max_positive. lia.
Qed.

Lemma execute_imm_ok op req nw :
  (nw = true → is_Some req) → imm_ok (execute_imm_nb op req nw) (ProxyFunc op req nw).
Proof.
  intros Hnw c Hok Hina Hf. cbn in Hok, Hf. change (is_active c = false) in Hina. apply inactive_available in Hina.
  destruct (execute_imm_spec op req nw c Hok Hf Hnw) as (w & c' & -> & Hok' & Hw & Hu & Hwa).
  rewrite Hina in *. exists w, c'. split_and!; try done.
  - destruct Hw as [|[-> ->]]; [by left|by right].
  - intros z. cbn. rewrite Hu. naive_solver.
Qed.

Lemma facade_allowed_ok t op s : del_inv s → facade_allowed t op s → allowed t op s.
Proof.
  intros Hi (fc & -> & Hfc). pose proof (oi_ok _ _ _ _ (di_obj _ Hi)) as Hok.
  destruct fc as [z|op z nw|op|z| |call|]; cbn in *; try done.
  - split_and!; [|done| |].
    + by apply set_state_ok.
    + intros z'. unfold used. rewrite set_state_state. change (polled (set_state z Created (dl_con s)) z')
        with (polled (dl_con s) z'). destruct (decide (z' = z)); naive_solver.
    + intros z'. unfold waits. rewrite set_state_state. by destruct (decide (z' = z)).
  - split_and!; [by apply execute_imm_ok|by destruct nw|]. by intros z' [= <-].
  - split_and!; [by apply execute_imm_ok|done|done].
  - split_and!; try done. by destruct Hok.
Qed.

Lemma facade_runs m st s :
  del_runs (new_proxy m st) facade_allowed s → del_runs (new_proxy m st) allowed s ∧ del_inv s.
Proof.
  pose proof (new_proxy_ok m st) as [Hok Hu]. induction 1 as [node|t op s s' _ [Hs Hi] Ha Hc|t s s' _ [Hs Hi] Hst].
  - split; [apply dr_start|by apply inv_start].
  - apply facade_allowed_ok in Ha; [|done]. split; [by eapply dr_call|by eapply inv_call].
  - split; [by eapply dr_step|by eapply inv_step].
Qed.

(** * Properties *)

(** The thread calls the library in its next piece of code, or may do so. *)
Definition calls_mpi (p : del_pc (C := proxy) (F := proxy_func)) : bool :=
  match p with DHolds | DImmExec _ _ | KExecute _ | KProgress _ _ _ _ => true | _ => false end.

(** C5: the MPI proxy, over a library that meets the contract of MPI_Testsome:
    no assertion fails, the library is called by one thread at a time (it is
    initialized with MPI_THREAD_SERIALIZED), the operations are started in the
    order in which they were issued, each once, the request holder does not
    overflow, and while a thread waits for the lock, a delegated operation has
    not been executed, or the holder has an ongoing request
    ([outstanding]), some thread can take a step with the lock. That
    does not cover a thread whose delegated blocking operation has been executed
    and left no request with the holder: when the library returns the null
    request, it is suspended for ever ([null_request_lost]). *)
Theorem proxy_mpi_safe m st s :
  del_runs (new_proxy m st) facade_allowed s →
  (∀ t, dl_pcs s t ≠ DFailed)
  ∧ (∀ t u, calls_mpi (dl_pcs s t) = true → calls_mpi (dl_pcs s u) = true → t = u)
  ∧ dl_done s `prefix_of` (λ f, (f, true)) <$> dl_enq s
  ∧ holder_wf max_num_ongoing (px_hold (dl_con s)) ∧ NoDup (ongoing (px_hold (dl_con s))).*1
  ∧ (outstanding s → ∃ t, has_lock (dl_pcs s t) = true ∧ (dl_pcs s t = DHolds ∨ ∃ s', del_step t s s')).
Proof.
  intros Hs. destruct (facade_runs m st s Hs) as [_ Hi]. pose proof (oi_ok _ _ _ _ (di_obj _ Hi)) as Hok.
  split_and!; [by intros t; apply never_failed| |by apply done_prefix|apply Hok|apply Hok|by apply outstanding_enabled].
  intros t u Ht Hu. apply (li_excl _ _ (ci_lock _ _ _ _ _ _ _ _ _ (di_core _ Hi))).
  - by destruct (dl_pcs s t).
  - by destruct (dl_pcs s u).
Qed.
End theorems.

(** * Examples *)

#[local] Existing Instance echo_mpi.
#[local] Existing Instance echo_mpi_laws.

#[local] Instance demo_config : ProxyConfig.
Proof. refine {| max_num_ongoing := 2; static_offloading := false; always_progress := false |}; lia. Defined.

Abbreviation event := (del_event (C := proxy) (F := proxy_func)).

Definition demo_start : del (C := proxy) (F := proxy_func) := start_consumer 1 (new_proxy 0 0).

Definition steps (t k : nat) : list event := replicate k (EvStep t 0).

Definition calls (t : nat) (fc : facade_call) (node : Z) : list event := [EvCall t (to_del_call fc); EvStep t node].

(** The consumer thread goes to sleep; thread 2 takes the lock, thread 1 starts
    a blocking operation and delegates it, and thread 2 unlocks, which wakes the
    consumer thread to execute the operation. *)
Definition demo_delegate (op : bool) : list event :=
  steps 0 6 ++ calls 2 FLock 2 ++ [EvCall 1 (to_del_call (FAllocate 5))] ++ calls 1 (FReq op 5 true) 3
  ++ steps 1 3 ++ calls 2 FUnlock 0 ++ steps 2 4 ++ steps 0 1.

Definition demo_run (es : list event) : del (C := proxy) (F := proxy_func) := default demo_start (run es demo_start).

Definition blocked (t : nat) (s : del (C := proxy) (F := proxy_func)) : bool :=
  match next_of t s with NBlocked => true | _ => false end.

Definition demo_ok (es : list event) : bool := match run es demo_start with Some _ => true | None => false end.

Lemma demo_runs es :
  demo_ok es = true → calls_allowed facade_allowed es demo_start →
  del_runs (new_proxy 0 0) facade_allowed (demo_run es).
Proof.
  unfold demo_ok, demo_run. destruct (run es demo_start) as [s|] eqn:E; [|done]. intros _ Ha.
  eapply run_runs; [apply dr_start|exact Ha|exact E].
Qed.

Lemma demo_allowed op k : calls_allowed facade_allowed (demo_delegate op ++ steps 0 k) demo_start.
Proof.
  apply calls_allowed_intro. intros i t c s Hi Hr.
  assert (∀ es, run (C := proxy) (F := proxy_func) es demo_start = Some s → s = demo_run es) as Hd.
  { intros es E. unfold demo_run. by rewrite E. }
  destruct (decide (i < length (demo_delegate op))%nat) as [Hlt|Hge].
  - rewrite take_app_le in Hr by lia. apply Hd in Hr. rewrite lookup_app_l in Hi by done. clear Hd Hlt.
    assert (i = 6 ∨ i = 8 ∨ i = 9 ∨ i = 14)%nat as Hcases.
    { do 21 (destruct i as [|i]; [try (by discriminate Hi); auto|]). discriminate Hi. }
    destruct Hcases as [-> | [-> | [-> | ->]]]; injection Hi as <- <-.
    + exists FLock. split; [reflexivity|exact I].
    + exists (FAllocate 5). split; [reflexivity|]. subst s. intros [|[|[|u]]]; destruct op; vm_compute; discriminate.
    + exists (FReq (HM := echo_mpi) op 5 true). split; [reflexivity|]. subst s. split_and!.
      * destruct op; vm_compute; intros [H|H]; [inversion H|discriminate|inversion H|discriminate].
      * destruct op; vm_compute; discriminate.
      * destruct op; vm_compute; intros H; inversion H.
      * intros [|[|[|u]]]; destruct op; vm_compute; discriminate.
    + exists FUnlock. split; [reflexivity|exact I].
  - rewrite lookup_app_r in Hi by lia. unfold steps in Hi. apply lookup_replicate in Hi as [? _]. done.
Qed.

(** The delegation lock under the proxy. *)
Lemma delegator_safe_witness :
  let s := demo_run (demo_delegate false ++ steps 0 1) in
  dl_done s = [(ProxyFunc false (Some 5) true, true)] ∧ dl_done s `prefix_of` (λ f, (f, true)) <$> dl_enq s.
Proof.
  intros s.
  pose proof (demo_runs (demo_delegate false ++ steps 0 1) ltac:(vm_compute; reflexivity) (demo_allowed false 1)) as Hs.
  destruct (facade_runs (HM := echo_mpi) 0 0 s Hs) as [Hr _].
  destruct (new_proxy_ok (HM := echo_mpi) 0 0) as [Hok Hu].
  pose proof (delegator_safe (new_proxy (HM := echo_mpi) 0 0) s Hok Hu Hr) as (_ & _ & Hp & _).
  split; [vm_compute; reflexivity|exact Hp].
Defined.

Lemma delegator_no_deadlock_witness :
  let s := demo_run (demo_delegate false ++ steps 0 1) in
  dl_pcs s 0%nat = KLoop ∧ ∃ s', del_step 0 s s'.
Proof.
  intros s.
  pose proof (demo_runs (demo_delegate false ++ steps 0 1) ltac:(vm_compute; reflexivity) (demo_allowed false 1)) as Hs.
  destruct (facade_runs (HM := echo_mpi) 0 0 s Hs) as [Hr _].
  destruct (new_proxy_ok (HM := echo_mpi) 0 0) as [Hok Hu].
  pose proof (delegator_no_deadlock (new_proxy (HM := echo_mpi) 0 0) s Hok Hu Hr) as [Hb _].
  split; [vm_compute; reflexivity|]. apply Hb. vm_compute. reflexivity.
Defined.

(** The consumer thread started the operation. *)
Lemma proxy_mpi_safe_witness :
  let s := demo_run (demo_delegate false ++ steps 0 1) in
  polled (dl_con s) 5 ∧ dl_pcs s 1%nat = DSuspended (ResDelegated 3 5)
  ∧ ∃ t, has_lock (dl_pcs s t) = true ∧ dl_pcs s t ≠ DFailed.
Proof.
  intros s.
  pose proof (demo_runs (demo_delegate false ++ steps 0 1) ltac:(vm_compute; reflexivity) (demo_allowed false 1)) as Hs.
  pose proof (proxy_mpi_safe (HM := echo_mpi) 0 0 s Hs) as (Hf & _ & _ & _ & _ & Ho).
  assert (polled (dl_con s) 5) as Hp by (vm_compute; left).
  destruct (Ho (or_intror (or_intror (ex_intro _ 5 Hp)))) as (t & Ht & _).
  split_and!; [exact Hp|vm_compute; reflexivity|]. exists t. split; [exact Ht|apply Hf].
Defined.

Lemma demo_blocked t : blocked t (demo_run (demo_delegate true ++ steps 0 7)) = true.
Proof. destruct t as [|[|[|t]]]; vm_compute; reflexivity. Qed.

(** A blocking operation that is delegated, and of which the library says
    at once that it is complete (it returns the null request), never returns:
    the request is finished, but its thread is not woken; all other threads are
    idle, and no thread can take a step. *)
Theorem null_request_lost :
  ∃ s, del_runs (C := proxy) (F := proxy_func) (new_proxy 0 0) facade_allowed s
    ∧ dl_pcs s 1%nat = DSuspended (ResDelegated 3 5) ∧ dl_done s = [(ProxyFunc true (Some 5) true, true)]
    ∧ rq_state (px_reqs (dl_con s) 5) = Finished ∧ ∀ t s', ¬ del_step t s s'.
Proof.
  set (es := demo_delegate true ++ steps 0 7). exists (demo_run es).
  split; [exact (demo_runs es ltac:(vm_compute; reflexivity) (demo_allowed true 7))|].
  split_and!; [vm_compute; reflexivity..|]. intros t s'. pose proof (demo_blocked t) as Hb. fold es in Hb.
  unfold blocked, del_step in *. destruct (next_of t (demo_run es)); [by intros []|discriminate..].
Qed.
