(* ===== verification/Sched.v ===== *)
(** The work-stealing scheduler of cmpth: basic_worker.hpp,
    basic_worker_task.hpp, basic_scheduler.hpp, basic_thread.hpp and
    basic_thread_funcs.hpp of wss, the task types of sct, and the suspended
    threads of wss/basic_suspended_thread.hpp seen from their workers.

    A continuation is the ownership of a task descriptor (its destructor
    terminates the program), so the model says where the descriptor is: current
    on a worker, in a deque, the root of a worker, the joiner of a task, or in a
    suspended-thread object. A worker has one program counter per access to
    shared memory: deques, descriptors under their lock, and objects. What the
    threads do (fork, join, yield, wait, notify, exit) is chosen freely. *)
From Stdlib Require Import ZArith Lia.
From stdpp Require Import base tactics functions list gmap.
From S2P Require Import Prelude.
From S2P Require Import Linear.
From S2P Require Import Deque.

(** A task descriptor: the root of a worker, which runs the scheduler loop, or a
    user-level thread. *)
Inductive task := Root (w : nat) | Ult (n : nat).

#[export] Instance task_eq_dec : EqDecision task.
Proof. solve_decision. Defined.

Definition is_ult (k : task) : Prop := match k with Ult _ => True | Root _ => False end.

Inductive life := Unborn | Alive | Freed.

#[export] Instance life_eq_dec : EqDecision life.
Proof. solve_decision. Defined.

(** [basic_sct_task_desc]; the holder of [mtx] is a worker. *)
Record desc := Desc {
  td_life : life;
  td_finished : bool;
  td_root : bool;          (** is_root *)
  td_lock : option nat;    (** mtx *)
  td_joiner : option task;
}.

(** The functor that runs after a switch to the next task. *)
Inductive after :=
| AJoin (t : task)        (** on_join *)
| AYield                  (** on_yield *)
| AExit (joined : bool)   (** on_exit; whether the next task is the joiner *)
| AFinish                 (** on_exit_root *)
| AWait (z : Z).          (** on_wait_with *)

(** Where a worker is; the comments name the code that comes next. *)
Inductive sc_pc :=
(* basic_scheduler::loop, basic_worker::execute *)
| Loop                           (** is_finished, try_local_pop_top *)
| Steal                          (** try_steal_from_others *)
| Execute (k : task)             (** execute *)
| Returned                       (** the end of execute *)
| FinishWorkers                  (** join the other workers, exit to dest_cont_ *)
| Stopped
(* the current thread *)
| Run
| Pop (a : after)                (** local_pop_top_or_root *)
| Switch (a : after) (k : task)  (** suspend_to, exit_to and the functor *)
| Push (bottom : bool) (k : task)   (** local_push_top, local_push_bottom *)
(* join, exit *)
| JoinLock (t : task)            (** get_lock *)
| JoinCheck (t : task)           (** is_finished *)
| JoinUnlock (t : task)          (** finished: unlock *)
| JoinFree (t : task)            (** deallocate *)
| Unlock (t : task) (joined : bool)   (** the end of on_join and on_exit *)
| ExitLock                       (** get_lock *)
| ExitTake                       (** try_get_joiner *)
| OnExit (t : task) (joined : bool)   (** set_finished_release *)
(* suspended threads *)
| WaitFunc (z : Z) (prev : task)      (** call the functor of wait_with *)
| WaitBack (k : task)                 (** put back the next continuation *)
| SwapTo (z : Z) (k : task)           (** swap, with the next continuation taken *)
| EnterTo (k : task)                  (** enter, with the continuation taken *)
| SwapFunc (z z' : Z) (prev : task)   (** call the functor of swap_with *)
| Crashed (f : failure).

Record worker := Worker {
  wk_cur : task;             (** cur_tk_ *)
  wk_deque : list task;      (** wd_, the bottom first *)
  wk_root : option task;     (** root_cont_ *)
  wk_pc : sc_pc;
}.

Record sched := Sched {
  sc_wks : nat → worker;
  sc_tasks : task → desc;
  sc_objs : Z → option task;      (** the suspended-thread objects *)
  sc_finished : bool;             (** finished_ *)
  sc_dest : option task;          (** dest_cont_ *)
  sc_terminated : bool;           (** std::terminate was called *)
  sc_handles : list task;         (** the threads some basic_thread refers to *)
  sc_joined : list task;          (** the threads whose join returned *)
}.

Definition upd_wks ws s := Sched ws (sc_tasks s) (sc_objs s) (sc_finished s) (sc_dest s) (sc_terminated s) (sc_handles s) (sc_joined s).
Definition set_wk w wk s := upd_wks (<[w := wk]> (sc_wks s)) s.
Definition set_desc t d s := Sched (sc_wks s) (<[t := d]> (sc_tasks s)) (sc_objs s) (sc_finished s) (sc_dest s) (sc_terminated s) (sc_handles s) (sc_joined s).
Definition set_sobj z v s := Sched (sc_wks s) (sc_tasks s) (<[z := v]> (sc_objs s)) (sc_finished s) (sc_dest s) (sc_terminated s) (sc_handles s) (sc_joined s).
Definition set_finished_flag s := Sched (sc_wks s) (sc_tasks s) (sc_objs s) true (sc_dest s) (sc_terminated s) (sc_handles s) (sc_joined s).
Definition set_dest v s := Sched (sc_wks s) (sc_tasks s) (sc_objs s) (sc_finished s) v (sc_terminated s) (sc_handles s) (sc_joined s).
Definition terminate s := Sched (sc_wks s) (sc_tasks s) (sc_objs s) (sc_finished s) (sc_dest s) true (sc_handles s) (sc_joined s).
Definition set_handles l s := Sched (sc_wks s) (sc_tasks s) (sc_objs s) (sc_finished s) (sc_dest s) (sc_terminated s) l (sc_joined s).
Definition log_joined t s := Sched (sc_wks s) (sc_tasks s) (sc_objs s) (sc_finished s) (sc_dest s) (sc_terminated s) (sc_handles s) (sc_joined s ++ [t]).

Definition set_cur w k s := let wk := sc_wks s w in set_wk w (Worker k (wk_deque wk) (wk_root wk) (wk_pc wk)) s.
Definition set_deque w q s := let wk := sc_wks s w in set_wk w (Worker (wk_cur wk) q (wk_root wk) (wk_pc wk)) s.
Definition set_root w v s := let wk := sc_wks s w in set_wk w (Worker (wk_cur wk) (wk_deque wk) v (wk_pc wk)) s.
Definition set_wpc w p s := let wk := sc_wks s w in set_wk w (Worker (wk_cur wk) (wk_deque wk) (wk_root wk) p) s.

Definition set_life t v s := let d := sc_tasks s t in set_desc t (Desc v (td_finished d) (td_root d) (td_lock d) (td_joiner d)) s.
Definition set_tfinished t s := let d := sc_tasks s t in set_desc t (Desc (td_life d) true (td_root d) (td_lock d) (td_joiner d)) s.
Definition set_troot t v s := let d := sc_tasks s t in set_desc t (Desc (td_life d) (td_finished d) v (td_lock d) (td_joiner d)) s.
Definition set_lock t v s := let d := sc_tasks s t in set_desc t (Desc (td_life d) (td_finished d) (td_root d) v (td_joiner d)) s.
Definition set_joiner t v s := let d := sc_tasks s t in set_desc t (Desc (td_life d) (td_finished d) (td_root d) (td_lock d) v) s.

(** * The deque

    What the scheduler needs of a worker deque: a push keeps the tasks or throws,
    a pop or a steal takes one task or none, and the owner's pop fails only when
    the deque is empty. An operation on threads returns. *)
Class WorkerDeque := {
  dq_apply : wd_op task → list task → wd_ret task → list task → Prop;
  dq_push op k q r q' :
    op = LocalPushTop k ∨ op = LocalPushBottom k → dq_apply op q r q' →
    r = WdPushed ∧ q' ≡ₚ k :: q ∨ r = WdThrown ∧ q' = q;
  dq_pop op q r q' :
    op = TryLocalPopTop ∨ op = TryRemotePopBottom → dq_apply op q r q' →
    ∃ k, r = WdGot k ∧ q ≡ₚ option_list k ++ q' ∧ (op = TryLocalPopTop → k = None → q = []);
  dq_enabled op q : (∀ k, op ≠ RemotePushBottom k) → Forall is_ult (op_task op ++ q) → ∃ r q', dq_apply op q r q';
}.

Section scheduler.
Context {DQ : WorkerDeque} (num_wks : nat).

(** * Descriptors *)

(** Every access of a descriptor is to one that is allocated. *)
Definition touch (t : task) (s : sched) : result desc :=
  let d := sc_tasks s t in if decide (td_life d = Alive) then Ok d else Fail OutOfBounds.

(** [check_locked]. *)
Definition check_locked (w : nat) (t : task) (s : sched) : result desc :=
  d ← touch t s; _ ← assert_ (bool_decide (td_lock d = Some w)); Ok d.

(** Where a task goes on that becomes current: the scheduler loop, or the code
    of a thread. *)
Definition resume (w : nat) (s : sched) : sc_pc :=
  if td_root (sc_tasks s (wk_cur (sc_wks s w))) then Returned else Run.

Definition go_on (w : nat) (s : sched) : sched := set_wpc w (resume w s) s.

(** [set_root_cont]. *)
Definition set_root_cont (w : nat) (k : task) (s : sched) : result sched :=
  _ ← assert_ (td_root (sc_tasks s k));
  _ ← assert_ (bool_decide (wk_root (sc_wks s w) = None));
  Ok (set_root w (Some k) s).

(** Stores a continuation in an object; the destructor of another one there
    would terminate the program. *)
Definition store_cont (z : Z) (k : task) (s : sched) : result sched :=
  _ ← assert_ (bool_decide (sc_objs s z = None)); Ok (set_sobj z (Some k) s).

(** * Steps *)

(** What the current thread does next. *)
Inductive sc_op :=
| OFork (child : nat)           (** basic_thread: fork_child_first *)
| OForkParent (child : nat)     (** fork_parent_first *)
| OJoin (t : task)
| OYield
| OExit                         (** the function of the thread returns *)
| OWait (z : Z)
| ONotify (z : Z)
| OEnter (z : Z)
| OSwap (z z' : Z)              (** z.swap(z') *)
| OSwapWith (z z' : Z)
| OFinish.                      (** ~initializer *)

(** What a step chooses: the thread's operation, the result of a functor, the
    random number of a steal. *)
Inductive sc_choice := CNone | COp (op : sc_op) | CFunc (b : bool) | CRand (r : nat).

Inductive sc_next :=
| SBlocked
| SLocal (r : result sched)
| SDeque (v : nat) (op : wd_op task) (k : wd_ret task → option (result sched)).

(** The victim of a steal: [(cur + rand % (n - 1) + 1) % n]. *)
Definition victim (cur r : nat) : nat := ((cur + r mod (num_wks - 1) + 1) mod num_wks)%nat.

(** [allocate] and the construction of the thread. *)
Definition new_task (child : nat) (s : sched) : sched :=
  set_handles (Ult child :: sc_handles s) (set_desc (Ult child) (Desc Alive false false None None) s).

(** The operations of the current thread, up to the first access. *)
Definition start_op (w : nat) (op : sc_op) (s : sched) : result sched :=
  let cur := wk_cur (sc_wks s w) in
  match op with
  | OFork c => Ok (set_wpc w (Push false cur) (set_cur w (Ult c) (new_task c s)))
  | OForkParent c => Ok (set_wpc w (Push false (Ult c)) (new_task c s))
  | OJoin t => Ok (set_wpc w (JoinLock t) (set_handles (filter (.≠ t) (sc_handles s)) s))
  | OYield => Ok (set_wpc w (Pop AYield) s)
  | OExit => Ok (set_wpc w ExitLock s)
  | OWait z => _ ← assert_ (bool_decide (sc_objs s z = None)); Ok (set_wpc w (Pop (AWait z)) s)
  | ONotify z =>
      match sc_objs s z with
      | Some k => _ ← assert_ (negb (td_root (sc_tasks s k))); Ok (set_wpc w (Push false k) (set_sobj z None s))
      | None => Fail AssertionFailure
      end
  | OEnter z =>
      match sc_objs s z with
      | Some k => _ ← assert_ (negb (td_root (sc_tasks s k))); Ok (set_wpc w (EnterTo k) (set_sobj z None s))
      | None => Fail AssertionFailure
      end
  | OSwap z z' =>
      _ ← assert_ (bool_decide (sc_objs s z = None));
      match sc_objs s z' with
      | Some k => _ ← assert_ (negb (td_root (sc_tasks s k))); Ok (set_wpc w (SwapTo z k) (set_sobj z' None s))
      | None => Fail AssertionFailure
      end
  | OSwapWith z z' =>
      _ ← assert_ (bool_decide (sc_objs s z = None));
      match sc_objs s z' with
      | Some k =>
          _ ← assert_ (negb (td_root (sc_tasks s k)));
          s ← store_cont z cur (set_cur w k (set_sobj z' None s));
          Ok (set_wpc w (SwapFunc z z' cur) s)
      | None => Fail AssertionFailure
      end
  | OFinish => Ok (set_wpc w (Pop AFinish) (set_finished_flag s))
  end.

(** [suspend_to] (or [exit_to]) the next task, and the functor up to its first
    access. *)
Definition switch (w : nat) (a : after) (k : task) (s : sched) : result sched :=
  let prev := wk_cur (sc_wks s w) in
  let s := set_cur w k s in
  match a with
  | AJoin t =>
      d ← check_locked w t s;
      _ ← assert_ (bool_decide (td_joiner d = None));
      Ok (set_wpc w (Unlock t false) (set_joiner t (Some prev) s))
  | AYield => Ok (set_wpc w (Push true prev) s)
  | AExit joined => Ok (set_wpc w (OnExit prev joined) s)
  | AFinish =>
      _ ← assert_ (bool_decide (sc_dest s = None)); Ok (go_on w (set_dest (Some prev) s))
  | AWait z => s ← store_cont z prev s; Ok (set_wpc w (WaitFunc z prev) s)
  end.

(** All other workers have left their loops ([finish_workers]). *)
Definition others_stopped (w : nat) (s : sched) : bool :=
  forallb (λ v, (v =? w)%nat || match wk_pc (sc_wks s v) with Stopped => true | _ => false end) (seq 0 num_wks).

Definition worker_next (w : nat) (c : sc_choice) (s : sched) : sc_next :=
  let wk := sc_wks s w in
  let cur := wk_cur wk in
  let go p := Ok (set_wpc w p s) in
  match wk_pc wk, c with
  | Loop, CNone =>
      if sc_finished s then SLocal (go (if (w =? 0)%nat then FinishWorkers else Stopped))
      else SDeque w TryLocalPopTop (λ r, match r with
        | WdGot (Some k) => Some (go (Execute k)) | WdGot None => Some (go Steal) | _ => None end)
  | Steal, CRand r =>
      if (num_wks <=? 1)%nat then SLocal (Fail Aborted)   (* rand_val % 0 *)
      else SDeque (victim w r) TryRemotePopBottom (λ r, match r with
        | WdGot (Some k) => Some (go (Execute k)) | WdGot None => Some (go Loop) | _ => None end)
  | Execute k, CNone =>
      SLocal (_ ← assert_ (bool_decide (wk_root wk = None));
              _ ← assert_ (negb (td_root (sc_tasks s cur)));
              s ← set_root_cont w cur (set_cur w k (set_troot cur true s));
              Ok (go_on w s))
  | Returned, CNone =>
      SLocal (_ ← assert_ (td_root (sc_tasks s cur));
              _ ← assert_ (bool_decide (wk_root wk = None));
              Ok (set_wpc w Loop (set_troot cur false s)))
  | FinishWorkers, CNone =>
      if others_stopped w s then
        SLocal (match sc_dest s with
                | Some k => Ok (set_wpc w Stopped (set_life cur Freed (set_cur w k (set_dest None s))))
                | None => Fail AssertionFailure
                end)
      else SBlocked
  | Run, COp op => SLocal (start_op w op s)
  | Pop a, CNone =>
      SDeque w TryLocalPopTop (λ r, match r with
        | WdGot (Some k) => Some (go (Switch a k))
        | WdGot None =>
            Some (match wk_root wk with
                  | Some k => _ ← assert_ (td_root (sc_tasks s k)); Ok (set_wpc w (Switch a k) (set_root w None s))
                  | None => Fail AssertionFailure
                  end)
        | _ => None end)
  | Switch a k, CNone => SLocal (switch w a k s)
  | Push bottom k, CNone =>
      SDeque w (if bottom then LocalPushBottom k else LocalPushTop k) (λ r, match r with
        | WdPushed => Some (Ok (go_on w s)) | WdThrown => Some (Ok (terminate s)) | _ => None end)
  | JoinLock t, CNone =>
      match td_lock (sc_tasks s t) with
      | Some _ => SBlocked
      | None => SLocal (_ ← touch t s; Ok (set_wpc w (JoinCheck t) (set_lock t (Some w) s)))
      end
  | JoinCheck t, CNone =>
      SLocal (d ← check_locked w t s; go (if td_finished d then JoinUnlock t else Pop (AJoin t)))
  | JoinUnlock t, CNone => SLocal (_ ← check_locked w t s; Ok (set_wpc w (JoinFree t) (set_lock t None s)))
  | JoinFree t, CNone => SLocal (_ ← touch t s; Ok (set_wpc w Run (log_joined t (set_life t Freed s))))
  | Unlock t joined, CNone =>
      SLocal (_ ← check_locked w t s;
              let s := set_lock t None s in
              Ok (go_on w (if joined : bool then log_joined t s else s)))
  | ExitLock, CNone =>
      match td_lock (sc_tasks s cur) with
      | Some _ => SBlocked
      | None => SLocal (_ ← touch cur s; Ok (set_wpc w ExitTake (set_lock cur (Some w) s)))
      end
  | ExitTake, CNone =>
      SLocal (d ← check_locked w cur s;
              match td_joiner d with
              | Some k => Ok (set_wpc w (Switch (AExit true) k) (set_joiner cur None s))
              | None => go (Pop (AExit false))
              end)
  | OnExit t joined, CNone =>
      SLocal (d ← check_locked w t s;
              _ ← assert_ (negb (td_finished d));
              Ok (set_wpc w (Unlock t joined) (set_tfinished t s)))
  | WaitFunc z prev, CFunc b =>
      if b : bool then SLocal (Ok (go_on w s))
      else SLocal (match sc_objs s z with
                   | Some k => Ok (set_wpc w (WaitBack cur) (set_cur w k (set_sobj z None s)))
                   | None => Fail AssertionFailure
                   end)
  | WaitBack k, CNone =>
      if bool_decide (is_Some (wk_root wk)) then SLocal (go (Push false k))
      else SLocal (s ← set_root_cont w k s; Ok (go_on w s))
  | SwapTo z k, CNone => SLocal (s ← store_cont z cur (set_cur w k s); Ok (go_on w s))
  | EnterTo k, CNone => SLocal (Ok (set_wpc w (Push false cur) (set_cur w k s)))
  | SwapFunc z z' prev, CFunc b =>
      if b : bool then SLocal (Ok (go_on w s))
      else SLocal (match sc_objs s z with
                   | Some k => s ← store_cont z' cur (set_cur w k (set_sobj z None s)); Ok (go_on w s)
                   | None => Fail AssertionFailure
                   end)
  | _, _ => SBlocked
  end.

Definition sc_settle (w : nat) (s : sched) (r : result sched) : sched :=
  match r with Ok s => s | Fail f => set_wpc w (Crashed f) s end.

(** A step of a worker; an operation of a deque is one step of its
    specification. *)
Definition sc_step (w : nat) (c : sc_choice) (s s' : sched) : Prop :=
  (w < num_wks)%nat ∧ sc_terminated s = false
  ∧ match worker_next w c s with
    | SBlocked => False
    | SLocal r => s' = sc_settle w s r
    | SDeque v op k =>
        ∃ ret q r, dq_apply op (wk_deque (sc_wks s v)) ret q ∧ k ret = Some r
          ∧ s' = set_deque v q (sc_settle w s r)
    end.

(** The start: every worker is in its loop, and the main thread is in the deque
    of worker 0. *)
Definition sc_start : sched :=
  Sched (λ w, Worker (Root w) (if (w =? 0)%nat then [Ult 0] else []) None Loop)
    (λ t, match t with
          | Root _ | Ult O => Desc Alive false false None None
          | Ult (S _) => Desc Unborn false false None None
          end)
    (λ _, None) false None false [] [].
End scheduler.
