(* ===== verification/SchedInv.v ===== *)
(** The invariant of the scheduler: where the continuation of every task is, who
    holds the locks of the descriptors, and who may join which thread. *)
From Stdlib Require Import ZArith Lia.
From stdpp Require Import base tactics functions list gmap.
From S2P Require Import Prelude.
From S2P Require Import Linear.
From S2P Require Import Deque.
From S2P Require Import Sched.

(** * Places *)

Inductive place :=
| PCur (w : nat) | PDeque (w : nat) | PRoot (w : nat) | PHand (w : nat)
| PJoiner (t : task) | PObj (z : Z) | PDest | PGone | PNone.

(** The continuation a worker holds between two steps. *)
Definition hand (p : sc_pc) : option task :=
  match p with
  | Execute k | Switch _ k | Push _ k | OnExit k _ | WaitBack k | SwapTo _ k | EnterTo k => Some k
  | _ => None
  end.

Definition gone (d : desc) : Prop := td_finished d = true ∨ td_life d = Freed.

Definition holds (s : sched) (k : task) (p : place) : Prop :=
  match p with
  | PCur w => wk_cur (sc_wks s w) = k
  | PDeque w => k ∈ wk_deque (sc_wks s w)
  | PRoot w => wk_root (sc_wks s w) = Some k
  | PHand w => hand (wk_pc (sc_wks s w)) = Some k
  | PJoiner t => td_joiner (sc_tasks s t) = Some k
  | PObj z => sc_objs s z = Some k
  | PDest => sc_dest s = Some k
  | PGone => gone (sc_tasks s k)
  | PNone => td_life (sc_tasks s k) = Unborn
  end.

(** * Workers *)

(** The worker executes threads: its scheduler loop is suspended. *)
Definition active (p : sc_pc) : bool :=
  match p with Loop | Steal | Execute _ | FinishWorkers | Stopped => false | _ => true end.

(** The object a worker is about to fill. *)
Definition reserved (p : sc_pc) : option Z :=
  match p with
  | Pop (AWait z) | Switch (AWait z) _ | SwapTo z _ => Some z
  | _ => None
  end.

(** The descriptor a worker has locked. *)
Definition pc_lock (cur : task) (p : sc_pc) : option task :=
  match p with
  | JoinCheck t | JoinUnlock t | Pop (AJoin t) | Switch (AJoin t) _ | Unlock t _ | OnExit t _ => Some t
  | ExitTake | Pop (AExit _) | Switch (AExit _) _ => Some cur
  | _ => None
  end.

(** The thread a worker is about to join. *)
Definition joining (p : sc_pc) : option task :=
  match p with
  | JoinLock t | JoinCheck t | JoinUnlock t | JoinFree t | Pop (AJoin t) | Switch (AJoin t) _ => Some t
  | _ => None
  end.

(** The main thread is about to leave. *)
Definition leaving (p : sc_pc) : bool :=
  match p with Pop AFinish | Switch AFinish _ => true | _ => false end.

(** Who may join a thread: a [basic_thread], a worker in [join], the joiner that
    waits, nobody any more. *)
Inductive join_state := JNone | JHandle | JPc (w : nat) | JWait | JDone.

Section local.
Context (s : sched) (own : task → join_state).

Definition after_ok (cur : task) (a : after) : Prop :=
  match a with
  | AJoin t => td_finished (sc_tasks s t) = false
  | AExit j => td_joiner (sc_tasks s cur) = None ∧ (j = true → own cur = JWait)
  | AFinish => cur = Ult 0
  | AYield | AWait _ => True
  end.

Definition pc_ok (w : nat) : Prop :=
  let wk := sc_wks s w in
  let cur := wk_cur wk in
  match wk_pc wk with
  | Loop | Steal | FinishWorkers | Returned => cur = Root w ∧ wk_root wk = None
  | Execute k => cur = Root w ∧ wk_root wk = None ∧ is_ult k
  | Stopped => wk_root wk = None
  | Run | JoinLock _ | JoinCheck _ | ExitLock | ExitTake | WaitBack _ | SwapFunc _ _ _ => is_ult cur
  | Pop a | Switch a _ => is_ult cur ∧ after_ok cur a
  | Push b k => is_ult k ∧ (b = false → is_ult cur)
  | JoinUnlock t => is_ult cur ∧ td_finished (sc_tasks s t) = true
  | JoinFree t => is_ult cur ∧ td_finished (sc_tasks s t) = true ∧ td_lock (sc_tasks s t) = None
  | Unlock t j => j = true → own t = JWait ∧ td_finished (sc_tasks s t) = true
  | OnExit t j => is_ult t ∧ td_joiner (sc_tasks s t) = None ∧ (j = true → own t = JWait)
  | WaitFunc _ _ => True
  | SwapTo _ k | EnterTo k => is_ult cur ∧ is_ult k
  | Crashed _ => False
  end.
End local.

(** The root of a worker stays on it. *)
Definition root_ok (s : sched) (w : nat) : Prop :=
  let wk := sc_wks s w in
  wk_cur wk = Root w ∨ wk_root wk = Some (Root w) ∨ hand (wk_pc wk) = Some (Root w)
  ∨ gone (sc_tasks s (Root w)) ∧ wk_pc wk = Stopped.

Record wk_ok (s : sched) (own : task → join_state) (w : nat) : Prop := {
  wo_pc : pc_ok s own w;
  wo_root : root_ok s w;
  wo_rootc k : wk_root (sc_wks s w) = Some k → k = Root w;
}.

(** Every task is at one place. *)
Record place_inv (s : sched) (loc : task → place) : Prop := {
  pi_holds k p : holds s k p ↔ loc k = p;
  pi_nodup w : NoDup (wk_deque (sc_wks s w));
}.

Definition flag_inv (s : sched) : Prop :=
  ∀ t, td_root (sc_tasks s t) = match t with Root w => active (wk_pc (sc_wks s w)) | Ult _ => false end.

Record lock_inv (s : sched) : Prop := {
  li_lock t w : td_lock (sc_tasks s t) = Some w ↔ pc_lock (wk_cur (sc_wks s w)) (wk_pc (sc_wks s w)) = Some t;
  li_alive t w : td_lock (sc_tasks s t) = Some w → td_life (sc_tasks s t) = Alive;
}.

Record own_inv (s : sched) (own : task → join_state) : Prop := {
  oi_handle t : t ∈ sc_handles s ↔ own t = JHandle;
  oi_joining w t : joining (wk_pc (sc_wks s w)) = Some t ↔ own t = JPc w;
  oi_joiner t k : td_joiner (sc_tasks s t) = Some k → own t = JWait ∧ td_finished (sc_tasks s t) = false;
  oi_alive t : own t ≠ JNone → own t ≠ JDone → td_life (sc_tasks s t) = Alive;
  oi_unborn t : td_life (sc_tasks s t) = Unborn → own t = JNone ∧ td_finished (sc_tasks s t) = false;
  oi_done t : t ∈ sc_joined s ↔ own t = JDone;
  oi_finished t : own t = JDone → td_finished (sc_tasks s t) = true;
  oi_nodup : NoDup (sc_joined s);
  oi_root w : own (Root w) = JNone;
}.

Record misc_inv (s : sched) : Prop := {
  mi_reserved w z : reserved (wk_pc (sc_wks s w)) = Some z → sc_objs s z = None;
  mi_unique w w' z :
    reserved (wk_pc (sc_wks s w)) = Some z → reserved (wk_pc (sc_wks s w')) = Some z → w = w';
  mi_leaving w : leaving (wk_pc (sc_wks s w)) = true → sc_finished s = true;
  mi_dest k : sc_dest s = Some k → k = Ult 0;
  mi_finish w : wk_pc (sc_wks s w) = FinishWorkers → w = 0%nat ∧ sc_finished s = true;
  mi_finished :
    sc_finished s = true →
    (∃ w, wk_cur (sc_wks s w) = Ult 0 ∧ leaving (wk_pc (sc_wks s w)) = true) ∨ sc_dest s = Some (Ult 0)
    ∨ wk_pc (sc_wks s 0) = Stopped;
}.

Record sc_inv (s : sched) (loc : task → place) (own : task → join_state) : Prop := {
  si_place : place_inv s loc;
  si_wk w : wk_ok s own w;
  si_flag : flag_inv s;
  si_lock : lock_inv s;
  si_own : own_inv s own;
  si_misc : misc_inv s;
}.

(** * What the threads may do

    A thread is forked with a new descriptor and joined through its handle once;
    an object is filled by one thread at a time, and emptied when it is full; a
    functor that refuses to wait has left the continuation in its object; the
    main thread leaves once. *)
Definition unreserved (z : Z) (s : sched) : Prop :=
  sc_objs s z = None ∧ ∀ w, reserved (wk_pc (sc_wks s w)) ≠ Some z.

Definition op_allowed (w : nat) (op : sc_op) (s : sched) : Prop :=
  match op with
  | OFork c | OForkParent c => td_life (sc_tasks s (Ult c)) = Unborn
  | OJoin t => t ∈ sc_handles s
  | OYield | OExit => True
  | OWait z => unreserved z s
  | ONotify z | OEnter z => is_Some (sc_objs s z)
  | OSwap z z' | OSwapWith z z' => unreserved z s ∧ is_Some (sc_objs s z')
  | OFinish => wk_cur (sc_wks s w) = Ult 0 ∧ sc_finished s = false
  end.

Definition choice_allowed (w : nat) (c : sc_choice) (s : sched) : Prop :=
  match c with
  | CNone | CRand _ | CFunc true => True
  | COp op => op_allowed w op s
  | CFunc false =>
      match wk_pc (sc_wks s w) with
      | WaitFunc z prev => sc_objs s z = Some prev
      | SwapFunc z z' prev => sc_objs s z = Some prev ∧ unreserved z' s ∧ z ≠ z'
      | _ => True
      end
  end.
