(* ===== verification/SchedSafe.v ===== *)
(** Every step of the scheduler preserves its invariant. *)
From Stdlib Require Import ZArith Lia.
From stdpp Require Import base tactics functions list gmap.
From S2P Require Import Prelude.
From S2P Require Import Linear.
From S2P Require Import Deque.
From S2P Require Import Sched.
From S2P Require Import SchedInv.

(** Unfolds the updates of the state. *)
Ltac upd :=
  unfold go_on, set_wpc, set_cur, set_deque, set_root, set_life, set_tfinished, set_troot, set_lock, set_joiner, set_wk,
    set_desc, set_sobj, upd_wks, set_finished_flag, set_dest, terminate, set_handles, log_joined in *; cbn in *;
  unfold insert, fn_insert in *; cbn in *.

Section frames.
Implicit Types (s : sched) (w : nat) (k t : task) (loc : task → place) (own : task → join_state).

(** * Frames *)

(** The state of the workers, without their deques. *)
Definition same_wk (a b : worker) : Prop := wk_cur a = wk_cur b ∧ wk_root a = wk_root b ∧ wk_pc a = wk_pc b.

Definition others s s' w : Prop := ∀ w', w' ≠ w → same_wk (sc_wks s' w') (sc_wks s w').

Lemma place_move s s' loc k p0 p1 :
  place_inv s loc → loc k = p0 →
  (∀ k' p, k' ≠ k → holds s' k' p ↔ holds s k' p) → (∀ p, holds s' k p ↔ p = p1) →
  (∀ w, NoDup (wk_deque (sc_wks s' w))) → place_inv s' (<[k := p1]> loc).
Proof.
  intros [Hh _] _ Ho Hk Hnd. constructor; [|done]. intros k' p.
  destruct (decide (k' = k)) as [->|Hne].
  - rewrite fn_lookup_insert, Hk. naive_solver.
  - by rewrite fn_lookup_insert_ne, Ho.
Qed.

Lemma place_same s s' loc :
  place_inv s loc → (∀ k p, holds s' k p ↔ holds s k p) → (∀ w, NoDup (wk_deque (sc_wks s' w))) → place_inv s' loc.
Proof. intros [Hh _] Ho Hnd. constructor; [|done]. intros k p. by rewrite Ho. Qed.

(** The local invariant of another worker. *)
Lemma pc_ok_frame s s' own own' w :
  pc_ok s own w → same_wk (sc_wks s' w) (sc_wks s w) →
  (∀ t, pc_lock (wk_cur (sc_wks s w)) (wk_pc (sc_wks s w)) = Some t ∨ joining (wk_pc (sc_wks s w)) = Some t →
    (pc_lock (wk_cur (sc_wks s w)) (wk_pc (sc_wks s w)) = Some t →
      td_finished (sc_tasks s' t) = td_finished (sc_tasks s t) ∧ td_joiner (sc_tasks s' t) = td_joiner (sc_tasks s t)
      ∧ (own t = JWait → own' t = JWait))
    ∧ (td_finished (sc_tasks s t) = true →
      td_finished (sc_tasks s' t) = true ∧ (td_lock (sc_tasks s t) = None → td_lock (sc_tasks s' t) = None))) →
  pc_ok s' own' w.
Proof.
  unfold pc_ok. intros H (-> & -> & ->) Ht. destruct (wk_pc (sc_wks s w)) eqn:E; try done; cbn in *.
  - destruct H as [Hu H]. split; [done|]. destruct a; cbn in *; try done.
    + destruct (Ht t) as [[-> _] _]; auto.
    + destruct (Ht (wk_cur (sc_wks s w))) as [(_ & -> & Hown) _]; auto. naive_solver.
  - destruct H as [Hu H]. split; [done|]. destruct a; cbn in *; try done.
    + destruct (Ht t) as [[-> _] _]; auto.
    + destruct (Ht (wk_cur (sc_wks s w))) as [(_ & -> & Hown) _]; auto. naive_solver.
  - destruct (Ht t) as [[-> _] _]; auto.
  - destruct (Ht t) as [_ Hx]; auto. naive_solver.
  - destruct (Ht t) as [(-> & _ & Hown) _]; auto. naive_solver.
  - destruct (Ht t) as [(_ & -> & Hown) _]; auto. naive_solver.
Qed.

Lemma wk_frame s s' own own' w :
  wk_ok s own w → same_wk (sc_wks s' w) (sc_wks s w) →
  (∀ t, pc_lock (wk_cur (sc_wks s w)) (wk_pc (sc_wks s w)) = Some t ∨ joining (wk_pc (sc_wks s w)) = Some t →
    (pc_lock (wk_cur (sc_wks s w)) (wk_pc (sc_wks s w)) = Some t →
      td_finished (sc_tasks s' t) = td_finished (sc_tasks s t) ∧ td_joiner (sc_tasks s' t) = td_joiner (sc_tasks s t)
      ∧ (own t = JWait → own' t = JWait))
    ∧ (td_finished (sc_tasks s t) = true →
      td_finished (sc_tasks s' t) = true ∧ (td_lock (sc_tasks s t) = None → td_lock (sc_tasks s' t) = None))) →
  (∀ t, gone (sc_tasks s t) → gone (sc_tasks s' t)) →
  wk_ok s' own' w.
Proof.
  intros [Hp Hr Hc] Hs Ht Hg. constructor; [by eapply pc_ok_frame| |by destruct Hs as (_ & -> & _)].
  unfold root_ok in *. destruct Hs as (-> & -> & ->). naive_solver.
Qed.

(** Nothing of the descriptors changes. *)
Lemma wk_frame_same s s' own w :
  wk_ok s own w → same_wk (sc_wks s' w) (sc_wks s w) → sc_tasks s' = sc_tasks s → wk_ok s' own w.
Proof. intros H Hs E. eapply wk_frame; try done; rewrite E; [|done]. by intros t _. Qed.

Lemma flag_frame s s' w :
  flag_inv s → others s s' w →
  (∀ t, td_root (sc_tasks s' t) = if decide (t = Root w) then active (wk_pc (sc_wks s' w)) else td_root (sc_tasks s t)) →
  flag_inv s'.
Proof.
  intros Hf Ho Ht t. rewrite Ht. destruct (decide (t = Root w)) as [->|Hne]; [done|]. rewrite Hf.
  destruct t as [w'|]; [|done]. destruct (Ho w') as (_ & _ & ->); [|done]. by intros ->.
Qed.

Lemma flag_frame_same s s' w :
  flag_inv s → others s s' w → sc_tasks s' = sc_tasks s →
  active (wk_pc (sc_wks s' w)) = active (wk_pc (sc_wks s w)) → flag_inv s'.
Proof.
  intros Hf Ho Et Ea. apply (flag_frame s s' w); [done|done|]. intros t. rewrite Et.
  destruct (decide (t = Root w)) as [->|]; [|done]. rewrite Ea. apply Hf.
Qed.

(** The lock of [t] changes hands with the worker. *)
Lemma desc_lock_frame s s' w :
  lock_inv s → others s s' w →
  (∀ t w', w' ≠ w → td_lock (sc_tasks s' t) = Some w' ↔ td_lock (sc_tasks s t) = Some w') →
  (∀ t, td_lock (sc_tasks s' t) = Some w ↔ pc_lock (wk_cur (sc_wks s' w)) (wk_pc (sc_wks s' w)) = Some t) →
  (∀ t w', td_lock (sc_tasks s' t) = Some w' → td_life (sc_tasks s' t) = Alive) → lock_inv s'.
Proof.
  intros [Hl _] Ho Hn Hw Ha. constructor; [|done]. intros t w'. destruct (decide (w' = w)) as [->|Hne]; [apply Hw|].
  destruct (Ho w' Hne) as (-> & _ & ->). rewrite Hn by done. apply Hl.
Qed.

Lemma desc_lock_frame_same s s' w :
  lock_inv s → others s s' w → (∀ t, td_lock (sc_tasks s' t) = td_lock (sc_tasks s t)) →
  (∀ t, td_lock (sc_tasks s t) ≠ None → td_life (sc_tasks s' t) = td_life (sc_tasks s t)) →
  pc_lock (wk_cur (sc_wks s' w)) (wk_pc (sc_wks s' w)) = pc_lock (wk_cur (sc_wks s w)) (wk_pc (sc_wks s w)) →
  lock_inv s'.
Proof.
  intros Hl Ho Et Ea Ep. apply (desc_lock_frame s s' w); try done; intros t; intros; rewrite ?Et, ?Ep; [done| |].
  - apply Hl.
  - rewrite Et in *. rewrite Ea by congruence. by eapply (li_alive _ Hl).
Qed.

Lemma own_frame s s' own w :
  own_inv s own → others s s' w → sc_handles s' = sc_handles s → sc_joined s' = sc_joined s →
  (∀ t, td_life (sc_tasks s' t) = td_life (sc_tasks s t)) →
  (∀ t, td_finished (sc_tasks s t) = true → td_finished (sc_tasks s' t) = true) →
  (∀ t, td_life (sc_tasks s t) = Unborn → td_finished (sc_tasks s' t) = td_finished (sc_tasks s t)) →
  (∀ t k, td_joiner (sc_tasks s' t) = Some k → own t = JWait ∧ td_finished (sc_tasks s' t) = false) →
  joining (wk_pc (sc_wks s' w)) = joining (wk_pc (sc_wks s w)) → own_inv s' own.
Proof.
  intros [H1 H2 H3 H4 H5 H6 H7 H8 H9] Ho Eh Ed El Ef Eu Ej Ep. constructor; intros; rewrite ?Eh, ?Ed; auto.
  - destruct (decide (w0 = w)) as [->|Hne]; [by rewrite Ep|]. by destruct (Ho w0 Hne) as (_ & _ & ->).
  - eauto.
  - rewrite El. auto.
  - rewrite El in *. rewrite Eu by done. auto.
Qed.

Lemma own_frame_same s s' own w :
  own_inv s own → others s s' w → sc_handles s' = sc_handles s → sc_joined s' = sc_joined s → sc_tasks s' = sc_tasks s →
  joining (wk_pc (sc_wks s' w)) = joining (wk_pc (sc_wks s w)) → own_inv s' own.
Proof. intros Hi Ho Eh Ed Et Ep. eapply own_frame; try done; rewrite Et; try done. apply Hi. Qed.

Lemma misc_frame s s' w :
  misc_inv s → others s s' w → sc_finished s' = sc_finished s → sc_dest s' = sc_dest s →
  (∀ z w', w' ≠ w → reserved (wk_pc (sc_wks s w')) = Some z → sc_objs s z = None → sc_objs s' z = None) →
  (∀ z, reserved (wk_pc (sc_wks s' w)) = Some z →
    sc_objs s' z = None ∧ (reserved (wk_pc (sc_wks s w)) = Some z ∨ ∀ w', reserved (wk_pc (sc_wks s w')) ≠ Some z)) →
  leaving (wk_pc (sc_wks s' w)) = leaving (wk_pc (sc_wks s w)) →
  (leaving (wk_pc (sc_wks s w)) = true → wk_cur (sc_wks s' w) = wk_cur (sc_wks s w)) →
  (wk_pc (sc_wks s w) = Stopped → wk_pc (sc_wks s' w) = Stopped) →
  (wk_pc (sc_wks s' w) = FinishWorkers → w = 0%nat ∧ sc_finished s = true) → misc_inv s'.
Proof.
  intros [H1 H2 H3 H4 H6 H5] Ho Ef Ed Hobj Hres Hl Hcur Hst Hfin.
  constructor; rewrite ?Ef, ?Ed; try done.
  - intros w' z. destruct (decide (w' = w)) as [->|Hne]; [by intros [? _]%Hres|].
    destruct (Ho w' Hne) as (_ & _ & ->). eauto.
  - intros w1 w2 z. destruct (decide (w1 = w)) as [->|Hn1], (decide (w2 = w)) as [->|Hn2]; try done;
      try destruct (Ho w1 Hn1) as (_ & _ & ->); try destruct (Ho w2 Hn2) as (_ & _ & ->).
    + intros [_ [?|Hu]]%Hres ?; [eauto|by destruct (Hu w2)].
    + intros ? [_ [?|Hu]]%Hres; [eauto|by destruct (Hu w1)].
    + eauto.
  - intros w'. destruct (decide (w' = w)) as [->|Hne]; [rewrite Hl; eauto|].
    destruct (Ho w' Hne) as (_ & _ & ->). eauto.
  - intros w'. destruct (decide (w' = w)) as [->|Hne]; [done|]. destruct (Ho w' Hne) as (_ & _ & ->). apply H6.
  - intros [(w' & Hw' & Hlv)|[?|Hs]]%H5; [|by right; left|].
    + left. exists w'. destruct (decide (w' = w)) as [->|Hne]; [by rewrite Hl, Hcur|].
      by destruct (Ho w' Hne) as (-> & _ & ->).
    + right. right. destruct (decide (0%nat = w)) as [<-|Hne]; [auto|]. by destruct (Ho 0%nat Hne) as (_ & _ & ->).
Qed.

Lemma misc_frame_same s s' w :
  misc_inv s → others s s' w → sc_finished s' = sc_finished s → sc_dest s' = sc_dest s → sc_objs s' = sc_objs s →
  (reserved (wk_pc (sc_wks s' w)) = None ∨ reserved (wk_pc (sc_wks s' w)) = reserved (wk_pc (sc_wks s w))
   ∨ ∃ z, reserved (wk_pc (sc_wks s' w)) = Some z ∧ unreserved z s) →
  leaving (wk_pc (sc_wks s' w)) = leaving (wk_pc (sc_wks s w)) →
  (leaving (wk_pc (sc_wks s w)) = true → wk_cur (sc_wks s' w) = wk_cur (sc_wks s w)) →
  wk_pc (sc_wks s w) ≠ Stopped →
  (wk_pc (sc_wks s' w) = FinishWorkers → w = 0%nat ∧ sc_finished s = true) → misc_inv s'.
Proof.
  intros Hi Ho Ef Ed Eo Hr Hl Hc Hs Hfin. apply (misc_frame s s' w); try done; rewrite ?Eo; [done|].
  intros z Hz. destruct Hr as [Hr|[Hr|(z' & Hr & Hf & Hu)]]; [congruence| |].
  - rewrite Hr in Hz. split; [by apply (mi_reserved _ Hi w)|by left].
  - assert (z' = z) as -> by congruence. split; [done|by right].
Qed.

(** A step that changes a worker and the deques only. *)
Lemma inv_same s s' loc loc' own w :
  sc_inv s loc own → others s s' w → sc_tasks s' = sc_tasks s → sc_objs s' = sc_objs s →
  sc_handles s' = sc_handles s → sc_joined s' = sc_joined s → sc_finished s' = sc_finished s →
  sc_dest s' = sc_dest s → place_inv s' loc' → wk_ok s' own w →
  let p := wk_pc (sc_wks s w) in
  let p' := wk_pc (sc_wks s' w) in
  active p' = active p →
  pc_lock (wk_cur (sc_wks s' w)) p' = pc_lock (wk_cur (sc_wks s w)) p → joining p' = joining p →
  reserved p' = None ∨ reserved p' = reserved p ∨ (∃ z, reserved p' = Some z ∧ unreserved z s) → leaving p' = leaving p →
  (leaving p = true → wk_cur (sc_wks s' w) = wk_cur (sc_wks s w)) → p ≠ Stopped →
  (p' = FinishWorkers → w = 0%nat ∧ sc_finished s = true) → sc_inv s' loc' own.
Proof.
  intros [Hp Hw Hf Hl Ho Hm] Hoth Et Eo Eh Ej Ef Ed Hp' Hw' p p' Ea El Ejo Er Elv Ec Hs Hfin. constructor; [done| | | | |].
  - intros w'. destruct (decide (w' = w)) as [->|Hne]; [done|]. eapply wk_frame_same; [apply Hw|by apply Hoth|done].
  - by eapply flag_frame_same.
  - eapply desc_lock_frame_same; try done; by rewrite Et.
  - by eapply own_frame_same.
  - by eapply misc_frame_same.
Qed.
End frames.

Ltac cases := repeat (case_decide; subst; cbn in *).
Ltac others_tac := intros ? ?; unfold same_wk; upd; cases; done.

Section safe.
Implicit Types (s : sched) (w : nat) (k t : task) (loc : task → place) (own : task → join_state).

Lemma cur_loc s loc own w : sc_inv s loc own → loc (wk_cur (sc_wks s w)) = PCur w.
Proof. intros Hi. by apply (pi_holds _ _ (si_place _ _ _ Hi) _ (PCur w)). Qed.

Lemma place_ult s loc own k p :
  sc_inv s loc own → loc k = p →
  match p with PDeque _ | PJoiner _ | PObj _ | PDest | PNone => is_ult k | _ => True end.
Proof.
  intros Hi Hk. destruct k as [w|n]; [|by destruct p].
  destruct (wo_root _ _ _ (si_wk _ _ _ Hi w)) as [H|[H|[H|[H _]]]].
  - pose proof (proj1 (pi_holds _ _ (si_place _ _ _ Hi) (Root w) (PCur w)) H). destruct p; try done; congruence.
  - pose proof (proj1 (pi_holds _ _ (si_place _ _ _ Hi) (Root w) (PRoot w)) H). destruct p; try done; congruence.
  - pose proof (proj1 (pi_holds _ _ (si_place _ _ _ Hi) (Root w) (PHand w)) H). destruct p; try done; congruence.
  - pose proof (proj1 (pi_holds _ _ (si_place _ _ _ Hi) (Root w) PGone) H). destruct p; try done; congruence.
Qed.

(** Only the program counter changes. *)
Lemma inv_pc s loc own w p' :
  sc_inv s loc own → hand p' = hand (wk_pc (sc_wks s w)) →
  pc_ok (set_wpc w p' s) own w → active p' = active (wk_pc (sc_wks s w)) →
  pc_lock (wk_cur (sc_wks s w)) p' = pc_lock (wk_cur (sc_wks s w)) (wk_pc (sc_wks s w)) →
  joining p' = joining (wk_pc (sc_wks s w)) →
  reserved p' = None ∨ reserved p' = reserved (wk_pc (sc_wks s w)) ∨ (∃ z, reserved p' = Some z ∧ unreserved z s) →
  leaving p' = leaving (wk_pc (sc_wks s w)) →
  wk_pc (sc_wks s w) ≠ Stopped → (p' = FinishWorkers → w = 0%nat ∧ sc_finished s = true) →
  sc_inv (set_wpc w p' s) loc own.
Proof.
  intros Hi Hh Hpc Ha Hl Hj Hr Hlv Hs Hfin. pose proof (si_wk _ _ _ Hi w) as Hw.
  apply (inv_same s _ loc loc own w); try done; try (upd; rewrite decide_True by done; cbn; auto; fail).
  - others_tac.
  - apply (place_same s); [apply Hi| |].
    + intros k p. destruct p; upd; cases; rewrite ?Hh; done.
    + intros w'. pose proof (pi_nodup _ _ (si_place _ _ _ Hi) w'). upd. by cases.
  - constructor; [done| |].
    + pose proof (wo_root _ _ _ Hw) as Hro. unfold root_ok in *. upd. rewrite decide_True by done. cbn.
      rewrite Hh. naive_solver.
    + intros k. pose proof (wo_rootc _ _ _ Hw k). upd. by rewrite decide_True.
Qed.

Ltac holds_tac := intros; match goal with |- holds _ _ ?p ↔ _ => destruct p end; upd; cases.

(** The tasks of a deque do not change. *)
Lemma inv_deque s loc own v q :
  sc_inv s loc own → wk_deque (sc_wks s v) ≡ₚ q → sc_inv (set_deque v q s) loc own.
Proof.
  intros Hi Hq. pose proof (pi_nodup _ _ (si_place _ _ _ Hi) v) as Hnd. rewrite Hq in Hnd.
  assert (∀ w, same_wk (sc_wks (set_deque v q s) w) (sc_wks s w)) as Hw by (intros w; unfold same_wk; upd; by cases).
  assert (others s (set_deque v q s) v) as Ho by (intros w _; apply Hw).
  destruct (Hw v) as (Ec & _ & Ep). constructor.
  - apply (place_same s); [apply Hi| |].
    + intros k p. destruct p; upd; cases; rewrite ?Hq; done.
    + intros w. pose proof (pi_nodup _ _ (si_place _ _ _ Hi) w). upd. by cases.
  - intros w. apply (wk_frame_same s); [apply Hi|apply Hw|done].
  - apply (flag_frame_same s _ v); [apply Hi|done|done|by rewrite Ep].
  - apply (desc_lock_frame_same s _ v); [apply Hi|done|done|done|by rewrite Ec, Ep].
  - apply (own_frame_same s _ _ v); try done; [apply Hi|by rewrite Ep].
  - destruct (si_misc _ _ _ Hi) as [M1 M2 M3 M4 M5 M6].
    assert (∀ w, wk_pc (sc_wks (set_deque v q s) w) = wk_pc (sc_wks s w)) as Ew by (intros w; apply Hw).
    constructor; intros *; rewrite ?Ew; eauto. intros [(w & ? & ?)|?]%M6; [left|by right].
    exists w. rewrite Ew. by destruct (Hw w) as (-> & _).
Qed.

(** A continuation moves from a deque to the worker. *)
Lemma inv_take s loc own w v k q p' :
  sc_inv s loc own → wk_deque (sc_wks s v) ≡ₚ k :: q → hand p' = Some k → hand (wk_pc (sc_wks s w)) = None →
  pc_ok (set_wpc w p' s) own w → active p' = active (wk_pc (sc_wks s w)) →
  pc_lock (wk_cur (sc_wks s w)) p' = pc_lock (wk_cur (sc_wks s w)) (wk_pc (sc_wks s w)) →
  joining p' = joining (wk_pc (sc_wks s w)) → reserved p' = reserved (wk_pc (sc_wks s w)) →
  leaving p' = leaving (wk_pc (sc_wks s w)) → wk_pc (sc_wks s w) ≠ Stopped →
  sc_inv (set_deque v q (set_wpc w p' s)) (<[k := PHand w]> loc) own.
Proof.
  intros Hi Hq Hh Hh' Hpc Ha Hl Hj Hr Hlv Hs. pose proof (si_wk _ _ _ Hi w) as Hw.
  pose proof (pi_nodup _ _ (si_place _ _ _ Hi) v) as Hnd. rewrite Hq in Hnd. apply NoDup_cons in Hnd as [Hkq Hnd].
  assert (loc k = PDeque v) as Hk by (apply (pi_holds _ _ (si_place _ _ _ Hi) k (PDeque v)); cbn; rewrite Hq; by left).
  assert (∀ p, holds s k p ↔ p = PDeque v) as Hhk.
  { intros p. rewrite (pi_holds _ _ (si_place _ _ _ Hi) k p), Hk. naive_solver. }
  apply (inv_same s _ loc _ own w); try done; try (upd; cases; auto; try (intros ->); done).
  - others_tac.
  - apply (place_move s _ loc k (PDeque v)); [apply Hi|done| | |].
    + intros k' p Hne. destruct p; upd; cases; rewrite ?Hh, ?Hh', ?Hq, ?elem_of_cons; naive_solver.
    + intros p. specialize (Hhk p). destruct p; upd; cases; rewrite ?Hh; rewrite ?Hh' in Hhk; naive_solver.
    + intros w'. pose proof (pi_nodup _ _ (si_place _ _ _ Hi) w'). upd. by cases.
  - constructor.
    + eapply pc_ok_frame; [exact Hpc|unfold same_wk; upd; cases; done|]. by intros t _.
    + pose proof (wo_root _ _ _ Hw) as Hro. unfold root_ok in *. rewrite Hh' in Hro. upd. cases; rewrite ?Hh; naive_solver.
    + intros k'. pose proof (wo_rootc _ _ _ Hw k'). upd. by cases.
Qed.

(** A continuation moves from the worker to its deque. *)
Lemma inv_push s loc own w k q p' :
  sc_inv s loc own → q ≡ₚ k :: wk_deque (sc_wks s w) → hand (wk_pc (sc_wks s w)) = Some k → hand p' = None → is_ult k →
  pc_ok (set_wpc w p' s) own w → active p' = active (wk_pc (sc_wks s w)) →
  pc_lock (wk_cur (sc_wks s w)) p' = pc_lock (wk_cur (sc_wks s w)) (wk_pc (sc_wks s w)) →
  joining p' = joining (wk_pc (sc_wks s w)) → reserved p' = None →
  leaving p' = leaving (wk_pc (sc_wks s w)) → wk_pc (sc_wks s w) ≠ Stopped → p' ≠ FinishWorkers →
  sc_inv (set_deque w q (set_wpc w p' s)) (<[k := PDeque w]> loc) own.
Proof.
  intros Hi Hq Hh Hh' Hu Hpc Ha Hl Hj Hr Hlv Hs Hfin. pose proof (si_wk _ _ _ Hi w) as Hw.
  assert (loc k = PHand w) as Hk by by apply (pi_holds _ _ (si_place _ _ _ Hi) k (PHand w)).
  assert (∀ p, holds s k p ↔ p = PHand w) as Hhk.
  { intros p. rewrite (pi_holds _ _ (si_place _ _ _ Hi) k p), Hk. naive_solver. }
  assert (k ∉ wk_deque (sc_wks s w)) as Hkq by by intros ?%(Hhk (PDeque w)).
  apply (inv_same s _ loc _ own w); try done; try (upd; cases; auto; try (intros ->); done).
  - others_tac.
  - apply (place_move s _ loc k (PHand w)); [apply Hi|done| | |].
    + intros k' p Hne. destruct p; upd; cases; rewrite ?Hh, ?Hh', ?Hq, ?elem_of_cons; naive_solver.
    + intros p. specialize (Hhk p). destruct p; upd; cases; rewrite ?Hq, ?elem_of_cons; rewrite ?Hh' in *; naive_solver.
    + intros w'. pose proof (pi_nodup _ _ (si_place _ _ _ Hi) w'). upd. cases; [|done]. rewrite Hq. by constructor.
  - constructor.
    + eapply pc_ok_frame; [exact Hpc|unfold same_wk; upd; cases; done|]. by intros t _.
    + pose proof (wo_root _ _ _ Hw) as Hro. unfold root_ok in *. rewrite Hh in Hro. upd. cases; rewrite ?Hh'; naive_solver.
    + intros k'. pose proof (wo_rootc _ _ _ Hw k'). upd. by cases.
Qed.

(** The worker takes its root continuation. *)
Lemma inv_take_root s loc own w k p' :
  sc_inv s loc own → wk_root (sc_wks s w) = Some k → hand p' = Some k → hand (wk_pc (sc_wks s w)) = None →
  pc_ok (set_wpc w p' (set_root w None s)) own w → active p' = active (wk_pc (sc_wks s w)) →
  pc_lock (wk_cur (sc_wks s w)) p' = pc_lock (wk_cur (sc_wks s w)) (wk_pc (sc_wks s w)) →
  joining p' = joining (wk_pc (sc_wks s w)) → reserved p' = reserved (wk_pc (sc_wks s w)) →
  leaving p' = leaving (wk_pc (sc_wks s w)) → wk_pc (sc_wks s w) ≠ Stopped →
  sc_inv (set_wpc w p' (set_root w None s)) (<[k := PHand w]> loc) own.
Proof.
  intros Hi Hr0 Hh Hh' Hpc Ha Hl Hj Hr Hlv Hs. pose proof (si_wk _ _ _ Hi w) as Hw.
  assert (loc k = PRoot w) as Hk by by apply (pi_holds _ _ (si_place _ _ _ Hi) k (PRoot w)).
  assert (∀ p, holds s k p ↔ p = PRoot w) as Hhk.
  { intros p. rewrite (pi_holds _ _ (si_place _ _ _ Hi) k p), Hk. naive_solver. }
  pose proof (wo_rootc _ _ _ Hw k Hr0) as ->.
  apply (inv_same s _ loc _ own w); try done; try (upd; cases; auto; try (intros ->); done).
  - others_tac.
  - apply (place_move s _ loc (Root w) (PRoot w)); [apply Hi|done| | |].
    + intros k' p Hne. destruct p; upd; cases; rewrite ?Hh, ?Hh', ?Hr0; naive_solver.
    + intros p. specialize (Hhk p). destruct p; upd; cases; rewrite ?Hh; rewrite ?Hh' in Hhk; naive_solver.
    + intros w'. pose proof (pi_nodup _ _ (si_place _ _ _ Hi) w'). upd. by cases.
  - constructor; [done| |].
    + unfold root_ok. upd. cases; rewrite ?Hh; naive_solver.
    + intros k'. upd. by cases.
Qed.

(** The current task and the one in the worker's hand change places. *)
Lemma inv_switch s loc own w k prev p' :
  sc_inv s loc own → wk_cur (sc_wks s w) = prev → hand (wk_pc (sc_wks s w)) = Some k → hand p' = Some prev → is_ult prev →
  pc_ok (set_wpc w p' (set_cur w k s)) own w → active p' = active (wk_pc (sc_wks s w)) →
  pc_lock k p' = pc_lock prev (wk_pc (sc_wks s w)) →
  joining p' = joining (wk_pc (sc_wks s w)) → reserved p' = None → leaving p' = false →
  leaving (wk_pc (sc_wks s w)) = false → wk_pc (sc_wks s w) ≠ Stopped →
  sc_inv (set_wpc w p' (set_cur w k s)) (<[prev := PHand w]> (<[k := PCur w]> loc)) own.
Proof.
  intros Hi Hc Hh Hh' Hu Hpc Ha Hl Hj Hr Hlv Hlv' Hs. pose proof (si_wk _ _ _ Hi w) as Hw.
  assert (loc k = PHand w) as Hk by by apply (pi_holds _ _ (si_place _ _ _ Hi) k (PHand w)).
  assert (loc prev = PCur w) as Hprev by by apply (pi_holds _ _ (si_place _ _ _ Hi) prev (PCur w)).
  assert (prev ≠ k) as Hne by congruence.
  apply (inv_same s _ loc _ own w); try done; try (upd; cases; auto; first [congruence | intros ->; done]).
  - others_tac.
  - constructor.
    + intros k' p. pose proof (pi_holds _ _ (si_place _ _ _ Hi) k' p) as Hhk.
      destruct (decide (k' = prev)) as [->|Hn1];
        [rewrite fn_lookup_insert; rewrite Hprev in Hhk
        |rewrite fn_lookup_insert_ne by done; destruct (decide (k' = k)) as [->|Hn2];
          [rewrite fn_lookup_insert; rewrite Hk in Hhk|rewrite fn_lookup_insert_ne by done]];
        clear Hpc; destruct p; upd; cases; rewrite ?Hh'; rewrite ?Hh in Hhk; naive_solver.
    + intros w'. pose proof (pi_nodup _ _ (si_place _ _ _ Hi) w'). upd. by cases.
  - constructor; [done| |].
    + pose proof (wo_root _ _ _ Hw) as Hro. unfold root_ok in *. rewrite Hh, Hc in Hro. upd. rewrite !decide_True by done. cbn. rewrite Hh'.
      destruct Hro as [->|[?|[[= ->]|[_ ?]]]]; auto; done.
    + intros k'. pose proof (wo_rootc _ _ _ Hw k'). upd. by cases.
Qed.
End safe.
