(* ===== verification/SchedStep.v ===== *)
(** Every step of a worker keeps the invariant of the scheduler, and no worker
    fails. *)
From Stdlib Require Import ZArith Lia.
From stdpp Require Import base tactics functions list gmap.
From S2P Require Import Prelude.
From S2P Require Import Linear.
From S2P Require Import Deque.
From S2P Require Import Sched.
From S2P Require Import SchedInv.
From S2P Require Import SchedSafe.

Definition sc_good (s : sched) : Prop := ∃ loc own, sc_inv s loc own.

Section facts.
Implicit Types (s : sched) (w : nat) (k t : task) (loc : task → place) (own : task → join_state).

(** * Where roots are *)

Lemma root_place s loc own v :
  sc_inv s loc own → loc (Root v) = PCur v ∨ loc (Root v) = PRoot v ∨ loc (Root v) = PHand v ∨ loc (Root v) = PGone.
Proof.
  intros Hi. pose proof (pi_holds _ _ (si_place _ _ _ Hi) (Root v)) as Hh.
  destruct (wo_root _ _ _ (si_wk _ _ _ Hi v)) as [H|[H|[H|[H _]]]].
  - left. by apply (Hh (PCur v)).
  - right; left. by apply (Hh (PRoot v)).
  - right; right; left. by apply (Hh (PHand v)).
  - right; right; right. by apply (Hh PGone).
Qed.

(** A task on a worker that runs threads: the root of this worker, or a thread. *)
Lemma resume_case s loc own w k :
  sc_inv s loc own → active (wk_pc (sc_wks s w)) = true → loc k = PCur w ∨ loc k = PHand w →
  td_root (sc_tasks s k) = true ∧ k = Root w ∧ wk_root (sc_wks s w) = None
  ∨ td_root (sc_tasks s k) = false ∧ is_ult k.
Proof.
  intros Hi Ha Hk. rewrite (si_flag _ _ _ Hi k). destruct k as [v|]; [|by right]. left.
  assert (v = w) as -> by (destruct (root_place s loc own v Hi) as [?|[?|[?|?]]], Hk; congruence).
  split; [done|split; [done|]]. destruct (wk_root (sc_wks s w)) as [k|] eqn:E; [|done].
  pose proof (wo_rootc _ _ _ (si_wk _ _ _ Hi w) k E) as ->.
  apply (pi_holds _ _ (si_place _ _ _ Hi) (Root w) (PRoot w)) in E. destruct Hk; congruence.
Qed.

(** A worker that runs a thread has the continuation of its root. *)
Lemma ult_root s loc own w :
  sc_inv s loc own → is_ult (wk_cur (sc_wks s w)) → wk_pc (sc_wks s w) ≠ Stopped →
  wk_root (sc_wks s w) = Some (Root w) ∨ hand (wk_pc (sc_wks s w)) = Some (Root w).
Proof.
  intros Hi Hu Hs. destruct (wo_root _ _ _ (si_wk _ _ _ Hi w)) as [H|[H|[H|[_ ?]]]]; auto; [|done].
  by rewrite H in Hu.
Qed.

Lemma loc_alive s loc own t :
  sc_inv s loc own → loc t ≠ PGone → loc t ≠ PNone →
  td_life (sc_tasks s t) = Alive ∧ td_finished (sc_tasks s t) = false.
Proof.
  intros Hi Hg Hn. pose proof (pi_holds _ _ (si_place _ _ _ Hi) t) as Hh.
  pose proof (Hh PGone) as Hg'. pose proof (Hh PNone) as Hn'. cbn in *. unfold gone in *.
  destruct (td_life _) eqn:El, (td_finished _) eqn:Ef; try done; exfalso; intuition congruence.
Qed.

Lemma hand_loc s loc own w k : sc_inv s loc own → hand (wk_pc (sc_wks s w)) = Some k → loc k = PHand w.
Proof. intros Hi. apply (pi_holds _ _ (si_place _ _ _ Hi) k (PHand w)). Qed.

(** The worker locked the descriptor. *)
Lemma locked s loc own w t :
  sc_inv s loc own → pc_lock (wk_cur (sc_wks s w)) (wk_pc (sc_wks s w)) = Some t →
  td_lock (sc_tasks s t) = Some w ∧ td_life (sc_tasks s t) = Alive.
Proof.
  intros Hi Hl%(li_lock _ (si_lock _ _ _ Hi)). split; [done|]. by apply (li_alive _ (si_lock _ _ _ Hi) t w).
Qed.

Lemma check_locked_ok s loc own w t :
  sc_inv s loc own → pc_lock (wk_cur (sc_wks s w)) (wk_pc (sc_wks s w)) = Some t →
  check_locked w t s = Ok (sc_tasks s t).
Proof.
  intros Hi Hl. destruct (locked _ _ _ _ _ Hi Hl) as [El Ea]. unfold check_locked, touch.
  rewrite decide_True by done. cbn. by rewrite bool_decide_true.
Qed.

(** * Two tasks move *)

Lemma place_move2 s s' loc k1 k2 p1 p2 :
  place_inv s loc → k1 ≠ k2 →
  (∀ k p, k ≠ k1 → k ≠ k2 → holds s' k p ↔ holds s k p) →
  (∀ p, holds s' k1 p ↔ p = p1) → (∀ p, holds s' k2 p ↔ p = p2) →
  (∀ w, NoDup (wk_deque (sc_wks s' w))) → place_inv s' (<[k1 := p1]> (<[k2 := p2]> loc)).
Proof.
  intros [Hh _] Hne Ho H1 H2 Hnd. constructor; [|done]. intros k p.
  destruct (decide (k = k1)) as [->|Hn1]; [rewrite fn_lookup_insert, H1; naive_solver|].
  rewrite fn_lookup_insert_ne by done.
  destruct (decide (k = k2)) as [->|Hn2]; [rewrite fn_lookup_insert, H2; naive_solver|].
  by rewrite fn_lookup_insert_ne, Ho by done.
Qed.

Lemma holds_at s loc own k p0 : sc_inv s loc own → loc k = p0 → ∀ p, holds s k p ↔ p = p0.
Proof. intros Hi <- p. rewrite (pi_holds _ _ (si_place _ _ _ Hi) k p). naive_solver. Qed.
End facts.

(** Evaluates the updates of a worker whose program counter is known. *)
Ltac fin_tac E := intros; upd; unfold gone in *; cases; rewrite ?E in *; cbn in *; auto; done.

(** The tasks that do not move, those that do, and the deques. *)
Ltac stay_tac E :=
  intros;
  match goal with |- holds _ _ ?p ↔ _ => destruct p end;
  upd; unfold gone in *; cases; rewrite ?E in *; cbn in *;
  first [done | split; intros; congruence | naive_solver].
Ltac at_tac E Hk :=
  let p := fresh in
  intros p; specialize (Hk p); destruct p;
  upd; unfold gone in *; cases; rewrite ?E in *; cbn in *;
  first [done | split; intros; congruence | destruct Hk; split; intros; (congruence || (exfalso; intuition congruence)) | naive_solver].
Ltac deque_tac Hi :=
  let v := fresh in
  intros v; let H := fresh in pose proof (pi_nodup _ _ (si_place _ _ _ Hi) v) as H; upd; by cases.

(** The flags do not change. *)
Ltac flag_tac Hi w E := intros; upd; cases; try done; by rewrite (si_flag _ _ _ Hi (Root w)), E.

(** The root of the worker, by cases of where it was. *)
Ltac root_tac Hro :=
  unfold root_ok; upd; cases; try done;
  destruct Hro as [Hro|[Hro|[Hro|[_ Hro]]]]; try done; try (injection Hro as Hro); rewrite ?Hro in *; auto; done.

(** The local invariant of a worker in state [E]. *)
Ltac pc_tac Hi w E H :=
  pose proof (wo_pc _ _ _ (si_wk _ _ _ Hi w)) as H; unfold pc_ok in H; rewrite E in H; cbn in H.

Section steps.
Implicit Types (s : sched) (w : nat) (k t : task) (loc : task → place) (own : task → join_state).

(** What a step of [w] has to show. *)
Lemma inv_frame s s' loc loc' own own' w :
  sc_inv s loc own → others s s' w → place_inv s' loc' → wk_ok s' own' w →
  (∀ w' t, w' ≠ w →
    pc_lock (wk_cur (sc_wks s w')) (wk_pc (sc_wks s w')) = Some t ∨ joining (wk_pc (sc_wks s w')) = Some t →
    (pc_lock (wk_cur (sc_wks s w')) (wk_pc (sc_wks s w')) = Some t →
      td_finished (sc_tasks s' t) = td_finished (sc_tasks s t) ∧ td_joiner (sc_tasks s' t) = td_joiner (sc_tasks s t)
      ∧ (own t = JWait → own' t = JWait))
    ∧ (td_finished (sc_tasks s t) = true →
      td_finished (sc_tasks s' t) = true ∧ (td_lock (sc_tasks s t) = None → td_lock (sc_tasks s' t) = None))) →
  (∀ t, gone (sc_tasks s t) → gone (sc_tasks s' t)) →
  (∀ t, td_root (sc_tasks s' t) = if decide (t = Root w) then active (wk_pc (sc_wks s' w)) else td_root (sc_tasks s t)) →
  lock_inv s' → own_inv s' own' → misc_inv s' → sc_inv s' loc' own'.
Proof.
  intros Hi Ho Hp Hw Ht Hg Hf Hl Hown Hm. constructor; [done| | |done|done|done].
  - intros w'. destruct (decide (w' = w)) as [->|Hne]; [done|].
    eapply wk_frame; [apply Hi|by apply Ho| |done]. intros t. by apply Ht.
  - by eapply flag_frame; [apply Hi|apply Ho|].
Qed.

Lemma step_execute s loc own w k :
  sc_inv s loc own → wk_pc (sc_wks s w) = Execute k →
  sc_inv (go_on w (set_root w (Some (Root w)) (set_cur w k (set_troot (Root w) true s))))
    (<[Root w := PRoot w]> (<[k := PCur w]> loc)) own.
Proof.
  intros Hi E. pc_tac Hi w E Hpc.
  destruct Hpc as (Hc & Hr & Hu). pose proof (cur_loc _ _ _ w Hi) as Hlc. rewrite Hc in Hlc.
  pose proof (hand_loc _ _ _ w k Hi) as Hlk. rewrite E in Hlk. specialize (Hlk eq_refl).
  assert (Root w ≠ k) as Hne by congruence.
  pose proof (holds_at _ _ _ _ _ Hi Hlk) as Hk. pose proof (holds_at _ _ _ _ _ Hi Hlc) as Hrt.
  assert (resume w (set_root w (Some (Root w)) (set_cur w k (set_troot (Root w) true s))) = Run) as Hrs.
  { unfold resume. upd. cases; try done. rewrite (si_flag _ _ _ Hi). by destruct k. }
  unfold go_on. rewrite Hrs.
  eapply (inv_frame s _ loc _ own own w); [done|others_tac| | | | | | | |].
  - apply (place_move2 s); [apply Hi|done|stay_tac E|at_tac E Hrt|at_tac E Hk|deque_tac Hi].
  - constructor; [unfold pc_ok|right; left|intros k']; upd; cases; naive_solver.
  - fin_tac E.
  - fin_tac E.
  - fin_tac E.
  - apply (desc_lock_frame_same s _ w); [apply Hi|others_tac|..]; fin_tac E.
  - apply (own_frame s _ own w); [apply Hi|others_tac|..]; try (fin_tac E). intros t k'. upd. cases; apply Hi.
  - apply (misc_frame_same s _ w); [apply Hi|others_tac|..]; fin_tac E.
Qed.

Lemma step_returned s loc own w :
  sc_inv s loc own → wk_pc (sc_wks s w) = Returned →
  sc_inv (set_wpc w Loop (set_troot (Root w) false s)) loc own.
Proof.
  intros Hi E. pc_tac Hi w E Hpc.
  destruct Hpc as (Hc & Hr).
  eapply (inv_frame s _ loc _ own own w); [done|others_tac| | | | | | | |].
  - apply (place_same s); [apply Hi|stay_tac E|deque_tac Hi].
  - constructor; [unfold pc_ok|left|intros k']; upd; cases; naive_solver.
  - fin_tac E.
  - fin_tac E.
  - fin_tac E.
  - apply (desc_lock_frame_same s _ w); [apply Hi|others_tac|..]; fin_tac E.
  - apply (own_frame s _ own w); [apply Hi|others_tac|..]; try (fin_tac E). intros t k'. upd. cases; apply Hi.
  - apply (misc_frame_same s _ w); [apply Hi|others_tac|..]; fin_tac E.
Qed.

(** A push, and the end of a functor. *)
Lemma resume_run s loc own w :
  sc_inv s loc own → active (wk_pc (sc_wks s w)) = true →
  let p := resume w s in
  hand p = None ∧ active p = true ∧ pc_lock (wk_cur (sc_wks s w)) p = None ∧ joining p = None ∧ reserved p = None
  ∧ leaving p = false ∧ p ≠ FinishWorkers ∧ pc_ok (set_wpc w p s) own w.
Proof.
  intros Hi Ha. pose proof (cur_loc _ _ _ w Hi) as Hlc. unfold resume.
  destruct (resume_case s loc own w _ Hi Ha (or_introl Hlc)) as [(-> & E & Hr)|[-> Hu]];
    repeat split_and; try done; unfold pc_ok; upd; cases; auto; done.
Qed.

Lemma step_push s loc own w b k q :
  sc_inv s loc own → wk_pc (sc_wks s w) = Push b k → q ≡ₚ k :: wk_deque (sc_wks s w) →
  sc_inv (set_deque w q (go_on w s)) (<[k := PDeque w]> loc) own.
Proof.
  intros Hi E Hq. pc_tac Hi w E Hpc. destruct Hpc as [Hu _].
  destruct (resume_run s loc own w Hi) as (H1 & H2 & H3 & H4 & H5 & H6 & H7 & H8); [by rewrite E|].
  apply inv_push; rewrite ?E; auto.
Qed.

Lemma step_go_on s loc own w :
  sc_inv s loc own → (∃ z k, wk_pc (sc_wks s w) = WaitFunc z k) ∨ (∃ z z' k, wk_pc (sc_wks s w) = SwapFunc z z' k) →
  sc_inv (go_on w s) loc own.
Proof.
  intros Hi E.
  destruct (resume_run s loc own w Hi) as (H1 & H2 & H3 & H4 & H5 & H6 & H7 & H8); [by destruct E as [(?&?&->)|(?&?&?&->)]|].
  apply inv_pc; destruct E as [(?&?&E)|(?&?&?&E)]; rewrite ?E; auto; done.
Qed.

(** * Suspended threads *)

(** A thread runs when it is current and the root of the worker is suspended. *)
Lemma resume_ult s loc own k :
  sc_inv s loc own → is_ult k → td_root (sc_tasks s k) = false.
Proof. intros Hi Hu. rewrite (si_flag _ _ _ Hi k). by destruct k. Qed.

Lemma obj_loc s loc own z k : sc_inv s loc own → sc_objs s z = Some k → loc k = PObj z ∧ is_ult k.
Proof.
  intros Hi Hz. assert (loc k = PObj z) as Hk by by apply (pi_holds _ _ (si_place _ _ _ Hi) k (PObj z)).
  split; [done|]. by apply (place_ult s loc own k (PObj z)).
Qed.

(** The functor of [wait_with] refuses: the thread goes on. *)
Lemma step_wait_back s loc own w z k prev :
  sc_inv s loc own → wk_pc (sc_wks s w) = WaitFunc z prev → sc_objs s z = Some k →
  sc_inv (set_wpc w (WaitBack (wk_cur (sc_wks s w))) (set_cur w k (set_sobj z None s)))
    (<[wk_cur (sc_wks s w) := PHand w]> (<[k := PCur w]> loc)) own.
Proof.
  intros Hi E Hz. destruct (obj_loc _ _ _ _ _ Hi Hz) as [Hk Hu]. pose proof (cur_loc _ _ _ w Hi) as Hc.
  pose proof (holds_at _ _ _ _ _ Hi Hk) as Hhk. pose proof (holds_at _ _ _ _ _ Hi Hc) as Hhc.
  pose proof (wo_root _ _ _ (si_wk _ _ _ Hi w)) as Hro. unfold root_ok in Hro. rewrite E in Hro. cbn in Hro.
  pose proof (wo_rootc _ _ _ (si_wk _ _ _ Hi w)) as Hrc.
  remember (wk_cur (sc_wks s w)) as cur eqn:Ec. symmetry in Ec. assert (cur ≠ k) as Hne by congruence.
  eapply (inv_frame s _ loc _ own own w); [done|others_tac| | | | | | | |].
  - apply (place_move2 s); [apply Hi|done|stay_tac E|at_tac E Hhc|at_tac E Hhk|deque_tac Hi].
  - constructor; [unfold pc_ok; upd; cases; done|root_tac Hro|].
    intros k'. specialize (Hrc k'). upd. by cases.
  - fin_tac E.
  - fin_tac E.
  - flag_tac Hi w E.
  - apply (desc_lock_frame_same s _ w); [apply Hi|others_tac|..]; fin_tac E.
  - apply (own_frame_same s _ own w); [apply Hi|others_tac|..]; fin_tac E.
  - apply (misc_frame s _ w); [apply Hi|others_tac|..]; fin_tac E.
Qed.

(** [swap]: the thread takes the place of the one it continues. *)
Lemma step_swap_to s loc own w z k :
  sc_inv s loc own → wk_pc (sc_wks s w) = SwapTo z k →
  sc_inv (go_on w (set_sobj z (Some (wk_cur (sc_wks s w))) (set_cur w k s)))
    (<[wk_cur (sc_wks s w) := PObj z]> (<[k := PCur w]> loc)) own.
Proof.
  intros Hi E. pc_tac Hi w E Hpc. destruct Hpc as [Hu Huk].
  pose proof (cur_loc _ _ _ w Hi) as Hc. pose proof (hand_loc _ _ _ w k Hi) as Hk. rewrite E in Hk. specialize (Hk eq_refl).
  pose proof (holds_at _ _ _ _ _ Hi Hk) as Hhk. pose proof (holds_at _ _ _ _ _ Hi Hc) as Hhc.
  pose proof (wo_root _ _ _ (si_wk _ _ _ Hi w)) as Hro. unfold root_ok in Hro. rewrite E in Hro. cbn in Hro.
  pose proof (wo_rootc _ _ _ (si_wk _ _ _ Hi w)) as Hrc.
  pose proof (mi_reserved _ (si_misc _ _ _ Hi) w z) as Hz. rewrite E in Hz. specialize (Hz eq_refl).
  pose proof (mi_unique _ (si_misc _ _ _ Hi) w) as Hun. rewrite E in Hun. cbn in Hun.
  remember (wk_cur (sc_wks s w)) as cur eqn:Ec. symmetry in Ec. assert (cur ≠ k) as Hne by congruence.
  assert (resume w (set_sobj z (Some cur) (set_cur w k s)) = Run) as Hrs.
  { unfold resume. upd. cases; [|done]. by rewrite (resume_ult _ _ _ _ Hi). }
  unfold go_on. rewrite Hrs.
  eapply (inv_frame s _ loc _ own own w); [done|others_tac| | | | | | | |].
  - apply (place_move2 s); [apply Hi|done|stay_tac E|at_tac E Hhc|at_tac E Hhk|deque_tac Hi].
  - constructor; [unfold pc_ok; upd; cases; done|root_tac Hro|].
    intros k'. specialize (Hrc k'). upd. by cases.
  - fin_tac E.
  - fin_tac E.
  - flag_tac Hi w E.
  - apply (desc_lock_frame_same s _ w); [apply Hi|others_tac|..]; fin_tac E.
  - apply (own_frame_same s _ own w); [apply Hi|others_tac|..]; fin_tac E.
  - apply (misc_frame s _ w); [apply Hi|others_tac|..]; try (fin_tac E).
    intros z' w' Hne' Hr. upd. cases; [|done]. edestruct (Hun w'); done.
Qed.

(** The functor of [swap_with] refuses: the first thread goes on, the other one
    returns to its object. *)
Lemma step_swap_back s loc own w z z' k prev :
  sc_inv s loc own → wk_pc (sc_wks s w) = SwapFunc z z' prev → sc_objs s z = Some k → unreserved z' s → z ≠ z' →
  sc_inv (go_on w (set_sobj z' (Some (wk_cur (sc_wks s w))) (set_cur w k (set_sobj z None s))))
    (<[wk_cur (sc_wks s w) := PObj z']> (<[k := PCur w]> loc)) own.
Proof.
  intros Hi E Hz [Hz' Hun] Hzz. pc_tac Hi w E Hu. destruct (obj_loc _ _ _ _ _ Hi Hz) as [Hk Huk].
  pose proof (cur_loc _ _ _ w Hi) as Hc.
  pose proof (holds_at _ _ _ _ _ Hi Hk) as Hhk. pose proof (holds_at _ _ _ _ _ Hi Hc) as Hhc.
  pose proof (wo_root _ _ _ (si_wk _ _ _ Hi w)) as Hro. unfold root_ok in Hro. rewrite E in Hro. cbn in Hro.
  pose proof (wo_rootc _ _ _ (si_wk _ _ _ Hi w)) as Hrc.
  remember (wk_cur (sc_wks s w)) as cur eqn:Ec. symmetry in Ec. assert (cur ≠ k) as Hne by congruence.
  assert (resume w (set_sobj z' (Some cur) (set_cur w k (set_sobj z None s))) = Run) as Hrs.
  { unfold resume. upd. cases; [|done]. by rewrite (resume_ult _ _ _ k Hi). }
  unfold go_on. rewrite Hrs.
  eapply (inv_frame s _ loc _ own own w); [done|others_tac| | | | | | | |].
  - apply (place_move2 s); [apply Hi|done|stay_tac E|at_tac E Hhc|at_tac E Hhk|deque_tac Hi].
  - constructor; [unfold pc_ok; upd; cases; done|root_tac Hro|].
    intros k'. specialize (Hrc k'). upd. by cases.
  - fin_tac E.
  - fin_tac E.
  - flag_tac Hi w E.
  - apply (desc_lock_frame_same s _ w); [apply Hi|others_tac|..]; fin_tac E.
  - apply (own_frame_same s _ own w); [apply Hi|others_tac|..]; fin_tac E.
  - apply (misc_frame s _ w); [apply Hi|others_tac|..]; try (fin_tac E).
    intros z1 w' Hne' Hr. upd. cases; try done. by destruct (Hun w').
Qed.

(** [enter]: the current thread goes to the deque. *)
Lemma step_enter_to s loc own w k :
  sc_inv s loc own → wk_pc (sc_wks s w) = EnterTo k →
  sc_inv (set_wpc w (Push false (wk_cur (sc_wks s w))) (set_cur w k s))
    (<[wk_cur (sc_wks s w) := PHand w]> (<[k := PCur w]> loc)) own.
Proof.
  intros Hi E. pc_tac Hi w E Hpc. destruct Hpc as [Hu Huk].
  apply inv_switch; rewrite ?E; auto; try done. unfold pc_ok. upd. by cases.
Qed.

(** The functor of [wait_with] refused: the next continuation goes back. *)
Lemma step_wait_root s loc own w k :
  sc_inv s loc own → wk_pc (sc_wks s w) = WaitBack k → wk_root (sc_wks s w) = None →
  k = Root w ∧ td_root (sc_tasks s k) = true ∧ sc_inv (go_on w (set_root w (Some k) s)) (<[k := PRoot w]> loc) own.
Proof.
  intros Hi E Hr. pc_tac Hi w E Hu.
  assert (k = Root w) as ->.
  { destruct (ult_root s loc own w Hi Hu) as [?|H]; rewrite ?E in *; try done; [congruence|]. cbn in H. congruence. }
  split; [done|]. split; [by rewrite (si_flag _ _ _ Hi (Root w)), E|].
  pose proof (hand_loc _ _ _ w (Root w) Hi) as Hk. rewrite E in Hk. specialize (Hk eq_refl).
  pose proof (holds_at _ _ _ _ _ Hi Hk) as Hhk.
  assert (resume w (set_root w (Some (Root w)) s) = Run) as Hrs.
  { unfold resume. upd. cases; [|done]. by rewrite (resume_ult _ _ _ _ Hi). }
  unfold go_on. rewrite Hrs.
  eapply (inv_frame s _ loc _ own own w); [done|others_tac| | | | | | | |].
  - apply (place_move s _ loc (Root w) (PHand w)); [apply Hi|done|stay_tac E|at_tac E Hhk|deque_tac Hi].
  - constructor; [unfold pc_ok; upd; cases; done|unfold root_ok; upd; cases; auto; done|].
    intros k'. upd. cases; [|done]. congruence.
  - fin_tac E.
  - fin_tac E.
  - flag_tac Hi w E.
  - apply (desc_lock_frame_same s _ w); [apply Hi|others_tac|..]; fin_tac E.
  - apply (own_frame_same s _ own w); [apply Hi|others_tac|..]; fin_tac E.
  - apply (misc_frame_same s _ w); [apply Hi|others_tac|..]; fin_tac E.
Qed.

Lemma step_wait_push s loc own w k :
  sc_inv s loc own → wk_pc (sc_wks s w) = WaitBack k → is_Some (wk_root (sc_wks s w)) →
  sc_inv (set_wpc w (Push false k) s) loc own.
Proof.
  intros Hi E [r Hr]. pc_tac Hi w E Hu. pose proof (wo_rootc _ _ _ (si_wk _ _ _ Hi w) r Hr) as ->.
  pose proof (hand_loc _ _ _ w k Hi) as Hk. rewrite E in Hk. specialize (Hk eq_refl).
  apply (pi_holds _ _ (si_place _ _ _ Hi) (Root w) (PRoot w)) in Hr.
  apply inv_pc; rewrite ?E; auto; try done. unfold pc_ok. upd. cases; [|done]. split; [|done].
  destruct k as [v|]; [|done]. destruct (root_place s loc own v Hi) as [?|[?|[?|?]]]; congruence.
Qed.
End steps.
