(* ===== verification/SchedSwitch.v ===== *)
(** The switches of threads, and the locks of their descriptors. *)
From Stdlib Require Import ZArith Lia.
From stdpp Require Import base tactics functions list gmap.
From S2P Require Import Prelude.
From S2P Require Import Linear.
From S2P Require Import Deque.
From S2P Require Import Sched.
From S2P Require Import SchedInv.
From S2P Require Import SchedSafe.
From S2P Require Import SchedStep.

Section own.
Implicit Types (s : sched) (w : nat) (k t : task) (loc : task → place) (own : task → join_state).

(** The right to join [t] moves. *)
Record own_moves (s s' : sched) (own : task → join_state) (w : nat) (t : task) (b : join_state) : Prop := {
  om_handles u : u ∈ sc_handles s' ↔ (if decide (u = t) then b = JHandle else u ∈ sc_handles s);
  om_joined u : u ∈ sc_joined s' ↔ (if decide (u = t) then b = JDone else u ∈ sc_joined s);
  om_nodup : NoDup (sc_joined s');
  om_joining u : joining (wk_pc (sc_wks s' w)) = Some u ↔
    (if decide (u = t) then b = JPc w else joining (wk_pc (sc_wks s w)) = Some u);
  om_pc w' : own t = JPc w' ∨ b = JPc w' → w' = w;
  om_same u : u ≠ t →
    td_life (sc_tasks s' u) = td_life (sc_tasks s u) ∧ td_finished (sc_tasks s' u) = td_finished (sc_tasks s u)
    ∧ td_joiner (sc_tasks s' u) = td_joiner (sc_tasks s u);
  om_joiner k : td_joiner (sc_tasks s' t) = Some k → b = JWait ∧ td_finished (sc_tasks s' t) = false;
  om_alive : b ≠ JNone → b ≠ JDone → td_life (sc_tasks s' t) = Alive;
  om_unborn : td_life (sc_tasks s' t) = Unborn → b = JNone ∧ td_finished (sc_tasks s' t) = false;
  om_done : b = JDone → td_finished (sc_tasks s' t) = true;
  om_ult : is_ult t;
}.

Lemma own_move s s' own w t b :
  own_inv s own → others s s' w → own_moves s s' own w t b → own_inv s' (<[t := b]> own).
Proof.
  intros [H1 H2 H3 H4 H5 H6 H7 H8 H9] Ho [M1 M2 M3 M4 M5 M6 M7 M8 M9 M10 M11].
  assert (∀ u, (<[t := b]> own) u = if decide (u = t) then b else own u) as Eo.
  { intros u. case_decide as Hu; [by rewrite Hu, fn_lookup_insert|by rewrite fn_lookup_insert_ne]. }
  constructor; try done; intros *; rewrite ?Eo, ?M1, ?M2.
  - case_decide; [done|apply H1].
  - destruct (decide (w0 = w)) as [->|Hne].
    + rewrite M4. case_decide; [done|apply H2].
    + destruct (Ho w0 Hne) as (_ & _ & ->). rewrite H2. case_decide; subst; [|done]. split; intros Hx.
      * destruct Hne. auto.
      * destruct Hne. auto.
  - case_decide; subst; [apply M7|]. destruct (M6 t0) as (_ & -> & ->); [done|]. apply H3.
  - case_decide; subst; [apply M8|]. destruct (M6 t0) as (-> & _ & _); [done|]. apply H4.
  - case_decide; subst; [apply M9|]. destruct (M6 t0) as (-> & -> & _); [done|]. apply H5.
  - case_decide; [done|apply H6].
  - case_decide; subst; [apply M10|]. destruct (M6 t0) as (_ & -> & _); [done|]. apply H7.
  - case_decide; subst; [done|apply H9].
Qed.
End own.

Section switch.
Implicit Types (s : sched) (w : nat) (k t : task) (loc : task → place) (own : task → join_state).

Lemma own_ult s loc own t : sc_inv s loc own → own t ≠ JNone → is_ult t.
Proof. intros Hi Ho. destruct t as [w|]; [|done]. by destruct Ho; apply (oi_root _ _ (si_own _ _ _ Hi)). Qed.

Lemma joining_own s loc own w t :
  sc_inv s loc own → joining (wk_pc (sc_wks s w)) = Some t → own t = JPc w ∧ td_life (sc_tasks s t) = Alive ∧ td_joiner (sc_tasks s t) = None.
Proof.
  intros Hi Hj%(oi_joining _ _ (si_own _ _ _ Hi)). split; [done|]. split.
  - apply (oi_alive _ _ (si_own _ _ _ Hi)); congruence.
  - destruct (td_joiner (sc_tasks s t)) as [k|] eqn:E; [|done].
    destruct (oi_joiner _ _ (si_own _ _ _ Hi) t k E); congruence.
Qed.

(** [on_join]. *)
Lemma step_switch_join s loc own w t k :
  sc_inv s loc own → wk_pc (sc_wks s w) = Switch (AJoin t) k →
  sc_inv (set_wpc w (Unlock t false) (set_joiner t (Some (wk_cur (sc_wks s w))) (set_cur w k s)))
    (<[wk_cur (sc_wks s w) := PJoiner t]> (<[k := PCur w]> loc)) (<[t := JWait]> own).
Proof.
  intros Hi E. pc_tac Hi w E Hpc. destruct Hpc as [Hu Hf].
  pose proof (cur_loc _ _ _ w Hi) as Hc. pose proof (hand_loc _ _ _ w k Hi) as Hk. rewrite E in Hk. specialize (Hk eq_refl).
  pose proof (joining_own s loc own w t Hi) as Ho. rewrite E in Ho. specialize (Ho eq_refl) as (Ho & Ha & Hj).
  pose proof (locked s loc own w t Hi) as Hl. rewrite E in Hl. specialize (Hl eq_refl) as [Hl _].
  pose proof (holds_at _ _ _ _ _ Hi Hk) as Hhk. pose proof (holds_at _ _ _ _ _ Hi Hc) as Hhc.
  pose proof (wo_root _ _ _ (si_wk _ _ _ Hi w)) as Hro. unfold root_ok in Hro. rewrite E in Hro. cbn in Hro.
  pose proof (wo_rootc _ _ _ (si_wk _ _ _ Hi w)) as Hrc.
  remember (wk_cur (sc_wks s w)) as cur eqn:Ec. symmetry in Ec. assert (cur ≠ k) as Hne by congruence.
  eapply (inv_frame s _ loc _ own _ w); [done|others_tac| | | | | | | |].
  - apply (place_move2 s); [apply Hi|done|stay_tac E|at_tac E Hhc|at_tac E Hhk|deque_tac Hi].
  - constructor; [unfold pc_ok; upd; cases; done|root_tac Hro|].
    intros k'. specialize (Hrc k'). upd. by cases.
  - intros w' u Hw Hor. destruct (decide (u = t)) as [->|Hn].
    + exfalso. destruct Hor as [Hor|Hor].
      * apply (li_lock _ (si_lock _ _ _ Hi)) in Hor. congruence.
      * apply (oi_joining _ _ (si_own _ _ _ Hi)) in Hor. congruence.
    + rewrite fn_lookup_insert_ne by done. fin_tac E.
  - fin_tac E.
  - flag_tac Hi w E.
  - apply (desc_lock_frame_same s _ w); [apply Hi|others_tac|..]; fin_tac E.
  - eapply (own_move s _ own w); [apply Hi|others_tac|].
    destruct (si_own _ _ _ Hi) as [O1 O2 O3 O4 O5 O6 O7 O8 O9]. constructor; try done.
    + intros u. upd. cases; [|done]. rewrite O1. split; congruence.
    + intros u. upd. cases; [|done]. rewrite O6. split; congruence.
    + intros u. upd. cases; try done. rewrite E. cbn. split; congruence.
    + intros w' [Hw|Hw]; congruence.
    + intros u Hn. upd. by cases.
    + intros k'. upd. by cases.
    + intros _ _. upd. by cases.
    + upd. cases; congruence.
    + apply (own_ult s loc own t Hi). congruence.
  - apply (misc_frame_same s _ w); [apply Hi|others_tac|..]; fin_tac E.
Qed.

(** [on_yield]. *)
Lemma step_switch_yield s loc own w k :
  sc_inv s loc own → wk_pc (sc_wks s w) = Switch AYield k →
  sc_inv (set_wpc w (Push true (wk_cur (sc_wks s w))) (set_cur w k s))
    (<[wk_cur (sc_wks s w) := PHand w]> (<[k := PCur w]> loc)) own.
Proof.
  intros Hi E. pc_tac Hi w E Hpc. destruct Hpc as [Hu _].
  apply inv_switch; rewrite ?E; auto; try done. unfold pc_ok. upd. by cases.
Qed.

(** [on_exit], up to its first access. *)
Lemma step_switch_exit s loc own w k j :
  sc_inv s loc own → wk_pc (sc_wks s w) = Switch (AExit j) k →
  sc_inv (set_wpc w (OnExit (wk_cur (sc_wks s w)) j) (set_cur w k s))
    (<[wk_cur (sc_wks s w) := PHand w]> (<[k := PCur w]> loc)) own.
Proof.
  intros Hi E. pc_tac Hi w E Hpc. destruct Hpc as (Hu & Hj & Hown).
  apply inv_switch; rewrite ?E; auto; try done. unfold pc_ok. upd. by cases.
Qed.

(** [on_exit_root]. *)
Lemma step_switch_finish s loc own w k :
  sc_inv s loc own → wk_pc (sc_wks s w) = Switch AFinish k →
  sc_dest s = None ∧
  sc_inv (go_on w (set_dest (Some (wk_cur (sc_wks s w))) (set_cur w k s)))
    (<[wk_cur (sc_wks s w) := PDest]> (<[k := PCur w]> loc)) own.
Proof.
  intros Hi E. pc_tac Hi w E Hpc. destruct Hpc as [Hu Hcur].
  pose proof (cur_loc _ _ _ w Hi) as Hc. pose proof (hand_loc _ _ _ w k Hi) as Hk. rewrite E in Hk. specialize (Hk eq_refl).
  pose proof (holds_at _ _ _ _ _ Hi Hk) as Hhk. pose proof (holds_at _ _ _ _ _ Hi Hc) as Hhc.
  assert (sc_dest s = None) as Hd.
  { destruct (sc_dest s) as [k'|] eqn:Ed; [|done]. pose proof (mi_dest _ (si_misc _ _ _ Hi) k' Ed) as ->.
    rewrite <- Hcur in Ed. by apply (Hhc PDest) in Ed. }
  split; [done|].
  pose proof (wo_root _ _ _ (si_wk _ _ _ Hi w)) as Hro. unfold root_ok in Hro. rewrite E in Hro. cbn in Hro.
  pose proof (wo_rootc _ _ _ (si_wk _ _ _ Hi w)) as Hrc.
  pose proof (resume_case s loc own w k Hi) as Hres. rewrite E in Hres. specialize (Hres eq_refl (or_intror Hk)).
  remember (wk_cur (sc_wks s w)) as cur eqn:Ec. symmetry in Ec. assert (cur ≠ k) as Hne by congruence.
  assert (∃ p, resume w (set_dest (Some cur) (set_cur w k s)) = p ∧ (p = Run ∧ is_ult k ∨ p = Returned ∧ k = Root w ∧ wk_root (sc_wks s w) = None)) as (p & Ep & Hp).
  { eexists. split; [done|]. unfold resume. upd. cases; [|done]. destruct Hres as [(-> & ? & ?)|[-> ?]]; auto. }
  unfold go_on. rewrite Ep. clear Ep.
  eapply (inv_frame s _ loc _ own own w); [done|others_tac| | | | | | | |].
  - apply (place_move2 s); [apply Hi|done| |at_tac E Hhc|at_tac E Hhk|deque_tac Hi];
      destruct Hp as [[-> _]|[-> _]]; stay_tac E.
  - constructor; [unfold pc_ok; upd; cases; [destruct Hp as [[-> ?]|[-> ?]]; done|done]|root_tac Hro|].
    intros k'. specialize (Hrc k'). upd. by cases.
  - fin_tac E.
  - fin_tac E.
  - intros t. upd. cases; try done. rewrite (si_flag _ _ _ Hi (Root w)), E. by destruct Hp as [[-> ?]|[-> ?]].
  - apply (desc_lock_frame_same s _ w); [apply Hi|others_tac|..]; destruct Hp as [[-> ?]|[-> ?]]; fin_tac E.
  - apply (own_frame_same s _ own w); [apply Hi|others_tac|..]; destruct Hp as [[-> ?]|[-> ?]]; fin_tac E.
  - destruct (si_misc _ _ _ Hi) as [M1 M2 M3 M4 M5 M6].
    assert (reserved p = None ∧ leaving p = false ∧ p ≠ FinishWorkers) as (Hp1 & Hp2 & Hp3) by by destruct Hp as [[-> ?]|[-> ?]].
    constructor; upd.
    + intros w' z. specialize (M1 w' z). cases; [congruence|done].
    + intros w1 w2 z. specialize (M2 w1 w2 z). cases; try congruence; done.
    + intros w'. specialize (M3 w'). cases; [congruence|done].
    + by intros k' [= <-].
    + intros w'. specialize (M5 w'). cases; [congruence|done].
    + intros _. right; left. congruence.
Qed.

(** [on_wait_with], up to the functor. *)
Lemma step_switch_wait s loc own w k z :
  sc_inv s loc own → wk_pc (sc_wks s w) = Switch (AWait z) k →
  sc_objs s z = None ∧
  sc_inv (set_wpc w (WaitFunc z (wk_cur (sc_wks s w))) (set_sobj z (Some (wk_cur (sc_wks s w))) (set_cur w k s)))
    (<[wk_cur (sc_wks s w) := PObj z]> (<[k := PCur w]> loc)) own.
Proof.
  intros Hi E. pc_tac Hi w E Hpc. destruct Hpc as [Hu _].
  pose proof (cur_loc _ _ _ w Hi) as Hc. pose proof (hand_loc _ _ _ w k Hi) as Hk. rewrite E in Hk. specialize (Hk eq_refl).
  pose proof (holds_at _ _ _ _ _ Hi Hk) as Hhk. pose proof (holds_at _ _ _ _ _ Hi Hc) as Hhc.
  pose proof (mi_reserved _ (si_misc _ _ _ Hi) w z) as Hz. rewrite E in Hz. specialize (Hz eq_refl).
  pose proof (mi_unique _ (si_misc _ _ _ Hi) w) as Hun. rewrite E in Hun. cbn in Hun. split; [done|].
  pose proof (wo_root _ _ _ (si_wk _ _ _ Hi w)) as Hro. unfold root_ok in Hro. rewrite E in Hro. cbn in Hro.
  pose proof (wo_rootc _ _ _ (si_wk _ _ _ Hi w)) as Hrc.
  remember (wk_cur (sc_wks s w)) as cur eqn:Ec. symmetry in Ec. assert (cur ≠ k) as Hne by congruence.
  eapply (inv_frame s _ loc _ own own w); [done|others_tac| | | | | | | |].
  - apply (place_move2 s); [apply Hi|done|stay_tac E|at_tac E Hhc|at_tac E Hhk|deque_tac Hi].
  - constructor; [unfold pc_ok; upd; cases; done|root_tac Hro|].
    intros k'. specialize (Hrc k'). upd. by cases.
  - fin_tac E.
  - fin_tac E.
  - flag_tac Hi w E.
  - apply (desc_lock_frame_same s _ w); [apply Hi|others_tac|..]; fin_tac E.
  - apply (own_frame_same s _ own w); [apply Hi|others_tac|..]; fin_tac E.
  - apply (misc_frame s _ w); [apply Hi|others_tac|..]; try (fin_tac E).
    intros z' w' Hne' Hr. upd. cases; [|done]. edestruct (Hun w'); done.
Qed.
End switch.
