(* ===== verification/SchedLock.v ===== *)
(** The locks of the descriptors, in join and exit. *)
From Stdlib Require Import ZArith Lia.
From stdpp Require Import base tactics functions list gmap.
From S2P Require Import Prelude.
From S2P Require Import Linear.
From S2P Require Import Deque.
From S2P Require Import Sched.
From S2P Require Import SchedInv.
From S2P Require Import SchedSafe.
From S2P Require Import SchedStep.
From S2P Require Import SchedSwitch.

Section lock.
Implicit Types (s : sched) (w : nat) (k t : task) (loc : task → place) (own : task → join_state).

(** Locking a free descriptor. *)
Lemma inv_lock s loc own w t p' :
  sc_inv s loc own → td_lock (sc_tasks s t) = None → td_life (sc_tasks s t) = Alive →
  joining (wk_pc (sc_wks s w)) = Some t ∨ td_finished (sc_tasks s t) = false →
  pc_lock (wk_cur (sc_wks s w)) (wk_pc (sc_wks s w)) = None → pc_lock (wk_cur (sc_wks s w)) p' = Some t →
  hand p' = None → hand (wk_pc (sc_wks s w)) = None → active p' = active (wk_pc (sc_wks s w)) →
  joining p' = joining (wk_pc (sc_wks s w)) → reserved p' = None → leaving p' = leaving (wk_pc (sc_wks s w)) →
  wk_pc (sc_wks s w) ≠ Stopped → p' ≠ FinishWorkers → pc_ok (set_wpc w p' (set_lock t (Some w) s)) own w →
  sc_inv (set_wpc w p' (set_lock t (Some w) s)) loc own.
Proof.
  intros Hi Hf Ha Hfin Hl Hl' Hh Hh' Hac Hj Hr Hlv Hs Hfw Hpc. pose proof (si_wk _ _ _ Hi w) as [_ Hro Hrc].
  eapply (inv_frame s _ loc _ own own w); [done|others_tac| | | | | | | |].
  - apply (place_same s); [apply Hi| |deque_tac Hi].
    intros k p. clear Hpc. destruct p; upd; unfold gone; cases; rewrite ?Hh, ?Hh'; done.
  - constructor; [done| |].
    + clear Hpc. unfold root_ok in *. rewrite Hh' in Hro. upd. cases; try done; destruct Hro as [?|[?|[?|[??]]]]; auto; done.
    + intros k. specialize (Hrc k). upd. by cases.
  - clear Hpc. intros w' u Hw Hu. split; [fin_tac I|]. intros Hfu. destruct (decide (u = t)) as [->|Hne]; [|fin_tac I].
    destruct Hu as [Hu|Hu]; [apply (li_lock _ (si_lock _ _ _ Hi)) in Hu; congruence|].
    destruct Hfin as [Hw'|?]; [|congruence].
    apply (oi_joining _ _ (si_own _ _ _ Hi)) in Hu, Hw'. congruence.
  - clear Hpc. fin_tac I.
  - clear Hpc. intros u. upd. cases; try done; rewrite (si_flag _ _ _ Hi (Root w)); done.
  - clear Hpc. apply (desc_lock_frame s _ w); [apply Hi|others_tac|..].
    + intros u w' Hne. upd. cases; [|done]. split; congruence.
    + intros u. upd. cases; try done; rewrite Hl'; split; try congruence.
      intros Hu%(li_lock _ (si_lock _ _ _ Hi)). congruence.
    + intros u w'. upd. cases; [done|]. apply (li_alive _ (si_lock _ _ _ Hi)).
  - clear Hpc. apply (own_frame s _ own w); [apply Hi|others_tac|..]; try (fin_tac I); intros u.
    + intros k. upd. cases; apply Hi.
  - clear Hpc. apply (misc_frame_same s _ w); [apply Hi|others_tac|..]; fin_tac I.
Qed.

(** Unlocking it. *)
Lemma inv_unlock s loc own w t p' :
  sc_inv s loc own → pc_lock (wk_cur (sc_wks s w)) (wk_pc (sc_wks s w)) = Some t →
  pc_lock (wk_cur (sc_wks s w)) p' = None →
  hand p' = None → hand (wk_pc (sc_wks s w)) = None → active p' = active (wk_pc (sc_wks s w)) →
  joining p' = joining (wk_pc (sc_wks s w)) → reserved p' = None → leaving p' = leaving (wk_pc (sc_wks s w)) →
  wk_pc (sc_wks s w) ≠ Stopped → p' ≠ FinishWorkers → pc_ok (set_wpc w p' (set_lock t None s)) own w →
  sc_inv (set_wpc w p' (set_lock t None s)) loc own.
Proof.
  intros Hi Hl Hl' Hh Hh' Hac Hj Hr Hlv Hs Hfw Hpc. pose proof (si_wk _ _ _ Hi w) as [_ Hro Hrc].
  destruct (locked _ _ _ _ _ Hi Hl) as [Hlt Ha].
  eapply (inv_frame s _ loc _ own own w); [done|others_tac| | | | | | | |].
  - apply (place_same s); [apply Hi| |deque_tac Hi].
    intros k p. clear Hpc. destruct p; upd; unfold gone; cases; rewrite ?Hh, ?Hh'; done.
  - constructor; [done| |].
    + clear Hpc. unfold root_ok in *. rewrite Hh' in Hro. upd. cases; try done; destruct Hro as [?|[?|[?|[??]]]]; auto; done.
    + intros k. specialize (Hrc k). upd. by cases.
  - clear Hpc. intros w' u Hw Hu. upd. by cases.
  - clear Hpc. fin_tac I.
  - clear Hpc. intros u. upd. cases; try done; rewrite (si_flag _ _ _ Hi (Root w)); done.
  - clear Hpc. apply (desc_lock_frame s _ w); [apply Hi|others_tac|..].
    + intros u w' Hne. upd. cases; [|done]. split; congruence.
    + intros u. upd. cases; try done; rewrite Hl'; split; try congruence.
      intros Hu%(li_lock _ (si_lock _ _ _ Hi)). congruence.
    + intros u w'. upd. cases; [done|]. apply (li_alive _ (si_lock _ _ _ Hi)).
  - clear Hpc. apply (own_frame s _ own w); [apply Hi|others_tac|..]; try (fin_tac I); intros u.
    + intros k. upd. cases; apply Hi.
  - clear Hpc. apply (misc_frame_same s _ w); [apply Hi|others_tac|..]; fin_tac I.
Qed.

(** * join *)

Lemma step_join_lock s loc own w t :
  sc_inv s loc own → wk_pc (sc_wks s w) = JoinLock t → td_lock (sc_tasks s t) = None →
  td_life (sc_tasks s t) = Alive ∧ sc_inv (set_wpc w (JoinCheck t) (set_lock t (Some w) s)) loc own.
Proof.
  intros Hi E Hl. pc_tac Hi w E Hu. pose proof (joining_own s loc own w t Hi) as Ho. rewrite E in Ho.
  destruct (Ho eq_refl) as (_ & Ha & _). split; [done|].
  apply inv_lock; rewrite ?E; auto; try done. unfold pc_ok. upd. by cases.
Qed.

Lemma step_join_check s loc own w t :
  sc_inv s loc own → wk_pc (sc_wks s w) = JoinCheck t →
  sc_inv (set_wpc w (if td_finished (sc_tasks s t) then JoinUnlock t else Pop (AJoin t)) s) loc own.
Proof.
  intros Hi E. pc_tac Hi w E Hu. destruct (td_finished (sc_tasks s t)) eqn:Ef;
    apply inv_pc; rewrite ?E; auto; try done; unfold pc_ok; upd; by cases.
Qed.

Lemma step_join_unlock s loc own w t :
  sc_inv s loc own → wk_pc (sc_wks s w) = JoinUnlock t →
  sc_inv (set_wpc w (JoinFree t) (set_lock t None s)) loc own.
Proof.
  intros Hi E. pc_tac Hi w E Hu. destruct Hu as [Hu Hf]. apply inv_unlock; rewrite ?E; auto; try done.
  unfold pc_ok. upd. cases; auto; done.
Qed.

(** The joined thread is deallocated. *)
Lemma step_join_free s loc own w t :
  sc_inv s loc own → wk_pc (sc_wks s w) = JoinFree t →
  td_life (sc_tasks s t) = Alive ∧
  sc_inv (set_wpc w Run (log_joined t (set_life t Freed s))) loc (<[t := JDone]> own).
Proof.
  intros Hi E. pc_tac Hi w E Hpc. destruct Hpc as (Hu & Hf & Hlk).
  pose proof (joining_own s loc own w t Hi) as Ho. rewrite E in Ho. specialize (Ho eq_refl) as (Ho & Ha & Hj).
  split; [done|]. pose proof (si_wk _ _ _ Hi w) as [_ Hro Hrc]. unfold root_ok in Hro. rewrite E in Hro. cbn in Hro.
  eapply (inv_frame s _ loc _ own _ w); [done|others_tac| | | | | | | |].
  - apply (place_same s); [apply Hi| |deque_tac Hi].
    intros k p. destruct p; upd; unfold gone; cases; rewrite ?E; try done.
    + split; auto.
    + rewrite Ha. done.
  - constructor; [unfold pc_ok; upd; cases; done|root_tac Hro|].
    intros k. specialize (Hrc k). upd. by cases.
  - intros w' u Hw Hor. destruct (decide (u = t)) as [->|Hn].
    + exfalso. destruct Hor as [Hor|Hor].
      * apply (li_lock _ (si_lock _ _ _ Hi)) in Hor. congruence.
      * apply (oi_joining _ _ (si_own _ _ _ Hi)) in Hor. congruence.
    + rewrite fn_lookup_insert_ne by done. fin_tac E.
  - fin_tac E.
  - flag_tac Hi w E.
  - apply (desc_lock_frame_same s _ w); [apply Hi|others_tac|..]; fin_tac E.
  - eapply (own_move s _ own w); [apply Hi|others_tac|].
    destruct (si_own _ _ _ Hi) as [O1 O2 O3 O4 O5 O6 O7 O8 O9]. constructor; try done.
    + intros u. upd. cases; [|done]. rewrite O1. split; congruence.
    + intros u. upd. rewrite elem_of_app, list_elem_of_singleton. cases; naive_solver.
    + upd. apply NoDup_app. split_and!; [done| |apply NoDup_singleton].
      intros u Hu1 ->%list_elem_of_singleton. apply O6 in Hu1. congruence.
    + intros u. upd. cases; try done. rewrite E. cbn. split; congruence.
    + intros w' [Hw|Hw]; congruence.
    + intros u Hn. upd. by cases.
    + intros k. upd. cases; [|done]. by rewrite Hj.
    + upd. by cases.
    + upd. by cases.
    + apply (own_ult s loc own t Hi). congruence.
  - apply (misc_frame_same s _ w); [apply Hi|others_tac|..]; fin_tac E.
Qed.

(** The end of [on_join]. *)
Lemma step_unlock_join s loc own w t :
  sc_inv s loc own → wk_pc (sc_wks s w) = Unlock t false → sc_inv (go_on w (set_lock t None s)) loc own.
Proof.
  intros Hi E. destruct (resume_run s loc own w Hi) as (H1 & H2 & H3 & H4 & H5 & H6 & H7 & H8); [by rewrite E|].
  assert (resume w (set_lock t None s) = resume w s) as Er by (unfold resume; upd; by cases).
  unfold go_on. rewrite Er. apply inv_unlock; rewrite ?E; auto; try done.
  unfold pc_ok in *. upd. cases; [|done]. destruct (resume w s) eqn:Ers; try done; unfold resume in Ers; by destruct (td_root _).
Qed.

(** * exit *)

Lemma step_exit_lock s loc own w :
  sc_inv s loc own → wk_pc (sc_wks s w) = ExitLock → td_lock (sc_tasks s (wk_cur (sc_wks s w))) = None →
  td_life (sc_tasks s (wk_cur (sc_wks s w))) = Alive
  ∧ sc_inv (set_wpc w ExitTake (set_lock (wk_cur (sc_wks s w)) (Some w) s)) loc own.
Proof.
  intros Hi E Hl. pc_tac Hi w E Hu. pose proof (cur_loc _ _ _ w Hi) as Hc.
  destruct (loc_alive _ _ _ (wk_cur (sc_wks s w)) Hi) as [Ha Hf]; [congruence..|]. split; [done|].
  apply inv_lock; rewrite ?E; auto; try done. unfold pc_ok. upd. by cases.
Qed.

Lemma step_exit_alone s loc own w :
  sc_inv s loc own → wk_pc (sc_wks s w) = ExitTake → td_joiner (sc_tasks s (wk_cur (sc_wks s w))) = None →
  sc_inv (set_wpc w (Pop (AExit false)) s) loc own.
Proof.
  intros Hi E Hj. pc_tac Hi w E Hu. apply inv_pc; rewrite ?E; auto; try done; unfold pc_ok; upd; by cases.
Qed.

(** The exiting thread takes its joiner. *)
Lemma step_exit_joiner s loc own w k :
  sc_inv s loc own → wk_pc (sc_wks s w) = ExitTake → td_joiner (sc_tasks s (wk_cur (sc_wks s w))) = Some k →
  sc_inv (set_wpc w (Switch (AExit true) k) (set_joiner (wk_cur (sc_wks s w)) None s)) (<[k := PHand w]> loc) own.
Proof.
  intros Hi E Hj. pc_tac Hi w E Hu.
  assert (loc k = PJoiner (wk_cur (sc_wks s w))) as Hk by by apply (pi_holds _ _ (si_place _ _ _ Hi) k (PJoiner _)).
  pose proof (holds_at _ _ _ _ _ Hi Hk) as Hhk.
  destruct (oi_joiner _ _ (si_own _ _ _ Hi) _ _ Hj) as [Ho Hf].
  pose proof (si_wk _ _ _ Hi w) as [_ Hro Hrc]. unfold root_ok in Hro. rewrite E in Hro. cbn in Hro.
  pose proof (locked s loc own w (wk_cur (sc_wks s w)) Hi) as Hl. rewrite E in Hl. specialize (Hl eq_refl) as [Hl _].
  remember (wk_cur (sc_wks s w)) as cur eqn:Ec. symmetry in Ec.
  eapply (inv_frame s _ loc _ own own w); [done|others_tac| | | | | | | |].
  - apply (place_move s _ loc k (PJoiner cur)); [apply Hi|done|stay_tac E|at_tac E Hhk|deque_tac Hi].
  - constructor; [unfold pc_ok, after_ok; upd; cases; done|root_tac Hro|].
    intros k'. specialize (Hrc k'). upd. by cases.
  - intros w' u Hw Hor. destruct (decide (u = cur)) as [->|Hn].
    + exfalso. destruct Hor as [Hor|Hor].
      * apply (li_lock _ (si_lock _ _ _ Hi)) in Hor. congruence.
      * apply (oi_joining _ _ (si_own _ _ _ Hi)) in Hor. congruence.
    + fin_tac E.
  - fin_tac E.
  - destruct cur; [done|]. flag_tac Hi w E.
  - apply (desc_lock_frame_same s _ w); [apply Hi|others_tac|..]; fin_tac E.
  - apply (own_frame s _ own w); [apply Hi|others_tac|..]; try (fin_tac E). intros u k'. upd. cases; [done|]. apply Hi.
  - apply (misc_frame_same s _ w); [apply Hi|others_tac|..]; fin_tac E.
Qed.

(** [on_exit]: the thread is finished. *)
Lemma step_on_exit s loc own w t j :
  sc_inv s loc own → wk_pc (sc_wks s w) = OnExit t j →
  td_finished (sc_tasks s t) = false ∧
  sc_inv (set_wpc w (Unlock t j) (set_tfinished t s)) (<[t := PGone]> loc) own.
Proof.
  intros Hi E. pc_tac Hi w E Hpc. destruct Hpc as (Hu & Hj & Ho).
  pose proof (hand_loc _ _ _ w t Hi) as Hk. rewrite E in Hk. specialize (Hk eq_refl).
  pose proof (holds_at _ _ _ _ _ Hi Hk) as Hhk.
  destruct (loc_alive _ _ _ t Hi) as [Ha Hf]; [congruence..|]. split; [done|].
  pose proof (si_wk _ _ _ Hi w) as [_ Hro Hrc]. unfold root_ok in Hro. rewrite E in Hro. cbn in Hro.
  pose proof (locked s loc own w t Hi) as Hl. rewrite E in Hl. specialize (Hl eq_refl) as [Hl _].
  eapply (inv_frame s _ loc _ own own w); [done|others_tac| | | | | | | |].
  - apply (place_move s _ loc t (PHand w)); [apply Hi|done|stay_tac E| |deque_tac Hi].
    intros p. specialize (Hhk p). destruct p; upd; unfold gone in *; cases; rewrite ?E in *; cbn in *;
      try done; split; intros; try done; intuition congruence.
  - constructor; [unfold pc_ok; upd; cases; auto; done|root_tac Hro|].
    intros k'. specialize (Hrc k'). upd. by cases.
  - intros w' u Hw _. split; [|fin_tac E]. intros Hor%(li_lock _ (si_lock _ _ _ Hi)).
    assert (u ≠ t) by congruence. fin_tac E.
  - fin_tac E.
  - destruct t; [done|]. flag_tac Hi w E.
  - apply (desc_lock_frame_same s _ w); [apply Hi|others_tac|..]; fin_tac E.
  - apply (own_frame s _ own w); [apply Hi|others_tac|..]; try (fin_tac E).
    + intros u Hub. upd. cases; [congruence|done].
    + intros u k'. upd. cases; [by rewrite Hj|apply Hi].
  - apply (misc_frame_same s _ w); [apply Hi|others_tac|..]; fin_tac E.
Qed.

(** The end of [on_exit]: the joiner goes on. *)
Lemma step_unlock_exit s loc own w t :
  sc_inv s loc own → wk_pc (sc_wks s w) = Unlock t true →
  sc_inv (go_on w (log_joined t (set_lock t None s))) loc (<[t := JDone]> own).
Proof.
  intros Hi E. pc_tac Hi w E Hpc. destruct (Hpc eq_refl) as [Ho Hf].
  destruct (resume_run s loc own w Hi) as (H1 & H2 & H3 & H4 & H5 & H6 & H7 & H8); [by rewrite E|].
  assert (resume w (log_joined t (set_lock t None s)) = resume w s) as Er by (unfold resume; upd; by cases).
  unfold go_on. rewrite Er. clear Er.
  pose proof (si_wk _ _ _ Hi w) as [_ Hro Hrc]. unfold root_ok in Hro. rewrite E in Hro. cbn in Hro.
  destruct (locked s loc own w t Hi) as [Hl Ha]; [by rewrite E|].
  assert (td_joiner (sc_tasks s t) = None) as Hj.
  { destruct (td_joiner (sc_tasks s t)) as [k|] eqn:Ej; [|done].
    destruct (oi_joiner _ _ (si_own _ _ _ Hi) t k Ej); congruence. }
  eapply (inv_frame s _ loc _ own _ w); [done|others_tac| | | | | | | |].
  - apply (place_same s); [apply Hi| |deque_tac Hi].
    intros k p. clear H8. destruct p; upd; unfold gone; cases; rewrite ?E, ?H1; done.
  - constructor; [|root_tac Hro|intros k; specialize (Hrc k); clear H8; upd; by cases].
    unfold pc_ok in *. upd. cases; [|done]. destruct (resume w s) eqn:Ers; try done; unfold resume in Ers; by destruct (td_root _).
  - clear H8. intros w' u Hw _. split; [|fin_tac E]. intros Hor%(li_lock _ (si_lock _ _ _ Hi)).
    assert (u ≠ t) by congruence. rewrite fn_lookup_insert_ne by done. fin_tac E.
  - clear H8. fin_tac E.
  - clear H8. intros u. upd. cases; try done; by rewrite (si_flag _ _ _ Hi (Root w)), E.
  - clear H8. apply (desc_lock_frame s _ w); [apply Hi|others_tac|..].
    + intros u w' Hne. upd. cases; [|done]. split; congruence.
    + intros u. upd. cases; try done; rewrite H3; split; try congruence.
      intros Hu%(li_lock _ (si_lock _ _ _ Hi)). rewrite E in Hu. cbn in Hu. congruence.
    + intros u w'. upd. cases; [done|]. apply (li_alive _ (si_lock _ _ _ Hi)).
  - clear H8. eapply (own_move s _ own w); [apply Hi|others_tac|].
    destruct (si_own _ _ _ Hi) as [O1 O2 O3 O4 O5 O6 O7 O8 O9]. constructor; try done.
    + intros u. upd. cases; [|done]. rewrite O1. split; congruence.
    + intros u. upd. rewrite elem_of_app, list_elem_of_singleton. cases; naive_solver.
    + upd. apply NoDup_app. split_and!; [done| |apply NoDup_singleton].
      intros u Hu1 ->%list_elem_of_singleton. apply O6 in Hu1. congruence.
    + intros u. upd. cases; try done; rewrite H4, ?E; cbn; split; congruence.
    + intros w' [Hw|Hw]; congruence.
    + intros u Hn. upd. by cases.
    + intros k. upd. cases; [|done]. by rewrite Hj.
    + upd. cases; [congruence|done].
    + upd. cases; [done|done].
    + apply (own_ult s loc own t Hi). congruence.
  - clear H8. apply (misc_frame_same s _ w); [apply Hi|others_tac|..]; try (fin_tac E); upd; cases; rewrite ?E; auto; done.
Qed.
End lock.
