(* ===== verification/SchedOps.v ===== *)
(** The operations of threads, and the loop of a worker. *)
From Stdlib Require Import ZArith Lia.
From stdpp Require Import base tactics functions list gmap.
From S2P Require Import Prelude.
From S2P Require Import Linear.
From S2P Require Import Deque.
From S2P Require Import Sched.
From S2P Require Import SchedInv.
From S2P Require Import SchedSafe.
From S2P Require Import SchedStep.
From S2P Require Import SchedSwitch.

Section ops.
Implicit Types (s : sched) (w : nat) (k t : task) (loc : task → place) (own : task → join_state).

(** * fork *)

Lemma unborn_facts s loc own t :
  sc_inv s loc own → td_life (sc_tasks s t) = Unborn →
  loc t = PNone ∧ own t = JNone ∧ td_finished (sc_tasks s t) = false ∧ td_lock (sc_tasks s t) = None
  ∧ td_joiner (sc_tasks s t) = None.
Proof.
  intros Hi Hu. destruct (oi_unborn _ _ (si_own _ _ _ Hi) t Hu) as [Ho Hf]. split_and!; try done.
  - by apply (pi_holds _ _ (si_place _ _ _ Hi) t PNone).
  - destruct (td_lock (sc_tasks s t)) as [w|] eqn:El; [|done].
    pose proof (li_alive _ (si_lock _ _ _ Hi) t w El). congruence.
  - destruct (td_joiner (sc_tasks s t)) as [k|] eqn:Ej; [|done].
    destruct (oi_joiner _ _ (si_own _ _ _ Hi) t k Ej). congruence.
Qed.

(** What a new thread changes of the rights to join. *)
Lemma own_new s s' loc own w c :
  sc_inv s loc own → td_life (sc_tasks s (Ult c)) = Unborn → others s s' w →
  sc_tasks s' = <[Ult c := Desc Alive false false None None]> (sc_tasks s) →
  sc_handles s' = Ult c :: sc_handles s → sc_joined s' = sc_joined s →
  joining (wk_pc (sc_wks s w)) = None → joining (wk_pc (sc_wks s' w)) = None → own_inv s' (<[Ult c := JHandle]> own).
Proof.
  intros Hi Hu Ho Et Eh Ej E E'. destruct (unborn_facts _ _ _ _ Hi Hu) as (_ & Hown & _).
  apply (own_move s _ own w); [apply Hi|done|].
  destruct (si_own _ _ _ Hi) as [O1 O2 O3 O4 O5 O6 O7 O8 O9]. constructor; rewrite ?Et, ?Eh, ?Ej; try done.
  - intros u. rewrite elem_of_cons. case_decide; naive_solver.
  - intros u. case_decide; subst; [|done]. rewrite O6. split; congruence.
  - intros u. rewrite E, E'. case_decide; [split; congruence|done].
  - intros w' [Hw|Hw]; congruence.
  - intros u Hne. by rewrite fn_lookup_insert_ne.
  - by rewrite fn_lookup_insert.
  - by rewrite fn_lookup_insert.
  - by rewrite fn_lookup_insert.
Qed.

(** And of the descriptors. *)
Lemma new_seen s s' loc own own' c w' t :
  sc_inv s loc own → td_life (sc_tasks s (Ult c)) = Unborn →
  sc_tasks s' = <[Ult c := Desc Alive false false None None]> (sc_tasks s) → (∀ t, t ≠ Ult c → own' t = own t) →
  pc_lock (wk_cur (sc_wks s w')) (wk_pc (sc_wks s w')) = Some t ∨ joining (wk_pc (sc_wks s w')) = Some t →
  (pc_lock (wk_cur (sc_wks s w')) (wk_pc (sc_wks s w')) = Some t →
    td_finished (sc_tasks s' t) = td_finished (sc_tasks s t) ∧ td_joiner (sc_tasks s' t) = td_joiner (sc_tasks s t)
    ∧ (own t = JWait → own' t = JWait))
  ∧ (td_finished (sc_tasks s t) = true →
    td_finished (sc_tasks s' t) = true ∧ (td_lock (sc_tasks s t) = None → td_lock (sc_tasks s' t) = None)).
Proof.
  intros Hi Hu Et Eo Hor. destruct (unborn_facts _ _ _ _ Hi Hu) as (_ & Hown & _ & Hl & _).
  assert (t ≠ Ult c) as Hne.
  { intros ->. destruct Hor as [Hor|Hor].
    - apply (li_lock _ (si_lock _ _ _ Hi)) in Hor. congruence.
    - apply (oi_joining _ _ (si_own _ _ _ Hi)) in Hor. congruence. }
  rewrite Et, fn_lookup_insert_ne, Eo by done. done.
Qed.

Lemma step_fork s loc own w c :
  sc_inv s loc own → wk_pc (sc_wks s w) = Run → td_life (sc_tasks s (Ult c)) = Unborn →
  sc_inv (set_wpc w (Push false (wk_cur (sc_wks s w))) (set_cur w (Ult c) (new_task c s)))
    (<[wk_cur (sc_wks s w) := PHand w]> (<[Ult c := PCur w]> loc)) (<[Ult c := JHandle]> own).
Proof.
  intros Hi E Hun. pc_tac Hi w E Hu.
  destruct (unborn_facts _ _ _ _ Hi Hun) as (Hk & Hown & Hf & Hl & Hj). pose proof (cur_loc _ _ _ w Hi) as Hc.
  pose proof (holds_at _ _ _ _ _ Hi Hk) as Hhk. pose proof (holds_at _ _ _ _ _ Hi Hc) as Hhc.
  pose proof (si_wk _ _ _ Hi w) as [_ Hro Hrc]. unfold root_ok in Hro. rewrite E in Hro. cbn in Hro.
  remember (wk_cur (sc_wks s w)) as cur eqn:Ec. symmetry in Ec. assert (cur ≠ Ult c) as Hne by congruence.
  eapply (inv_frame s _ loc _ own _ w); [done|unfold new_task; others_tac| | | | | | | |]; unfold new_task.
  - apply (place_move2 s); [apply Hi|done|stay_tac E|at_tac E Hhc|at_tac E Hhk|deque_tac Hi].
  - constructor; [unfold pc_ok; upd; cases; done|root_tac Hro|].
    intros k'. specialize (Hrc k'). upd. by cases.
  - intros w' t _. apply (new_seen s _ loc _ _ c); try done. intros u Hne'. by rewrite fn_lookup_insert_ne.
  - intros t. upd. unfold gone. cases; [|done]. rewrite Hf, Hun. naive_solver.
  - intros t. upd. cases; try done; by rewrite ?(si_flag _ _ _ Hi (Root w)), ?(si_flag _ _ _ Hi (Ult c)), ?E.
  - apply (desc_lock_frame_same s _ w); [apply Hi|others_tac|..]; try (fin_tac E).
  - apply (own_new s _ loc own w c); try done; [others_tac|by rewrite E|upd; by cases].
  - apply (misc_frame_same s _ w); [apply Hi|others_tac|..]; fin_tac E.
Qed.

Lemma step_fork_parent s loc own w c :
  sc_inv s loc own → wk_pc (sc_wks s w) = Run → td_life (sc_tasks s (Ult c)) = Unborn →
  sc_inv (set_wpc w (Push false (Ult c)) (new_task c s)) (<[Ult c := PHand w]> loc) (<[Ult c := JHandle]> own).
Proof.
  intros Hi E Hun. pc_tac Hi w E Hu.
  destruct (unborn_facts _ _ _ _ Hi Hun) as (Hk & Hown & Hf & Hl & Hj).
  pose proof (holds_at _ _ _ _ _ Hi Hk) as Hhk.
  pose proof (si_wk _ _ _ Hi w) as [_ Hro Hrc]. unfold root_ok in Hro. rewrite E in Hro. cbn in Hro.
  eapply (inv_frame s _ loc _ own _ w); [done|unfold new_task; others_tac| | | | | | | |]; unfold new_task.
  - apply (place_move s _ loc (Ult c) PNone); [apply Hi|done|stay_tac E|at_tac E Hhk|deque_tac Hi].
  - constructor; [unfold pc_ok; upd; cases; done|root_tac Hro|].
    intros k'. specialize (Hrc k'). upd. by cases.
  - intros w' t _. apply (new_seen s _ loc _ _ c); try done. intros u Hne'. by rewrite fn_lookup_insert_ne.
  - intros t. upd. unfold gone. cases; [|done]. rewrite Hf, Hun. naive_solver.
  - intros t. upd. cases; try done; by rewrite ?(si_flag _ _ _ Hi (Root w)), ?(si_flag _ _ _ Hi (Ult c)), ?E.
  - apply (desc_lock_frame_same s _ w); [apply Hi|others_tac|..]; try (fin_tac E).
  - apply (own_new s _ loc own w c); try done; [others_tac|by rewrite E|upd; by cases].
  - apply (misc_frame_same s _ w); [apply Hi|others_tac|..]; fin_tac E.
Qed.

(** * The other operations *)

Lemma step_op_join s loc own w t :
  sc_inv s loc own → wk_pc (sc_wks s w) = Run → t ∈ sc_handles s →
  sc_inv (set_wpc w (JoinLock t) (set_handles (filter (.≠ t) (sc_handles s)) s)) loc (<[t := JPc w]> own).
Proof.
  intros Hi E Ht. pc_tac Hi w E Hu. pose proof (proj1 (oi_handle _ _ (si_own _ _ _ Hi) t) Ht) as Ho.
  pose proof (si_wk _ _ _ Hi w) as [_ Hro Hrc]. unfold root_ok in Hro. rewrite E in Hro. cbn in Hro.
  eapply (inv_frame s _ loc _ own _ w); [done|others_tac| | | | | | | |].
  - apply (place_same s); [apply Hi|stay_tac E|deque_tac Hi].
  - constructor; [unfold pc_ok; upd; cases; done|root_tac Hro|].
    intros k'. specialize (Hrc k'). upd. by cases.
  - intros w' u Hw _. split; [|fin_tac E]. intros _. split_and!; try (fin_tac E).
    intros Hw'. rewrite fn_lookup_insert_ne; [done|]. intros <-. congruence.
  - fin_tac E.
  - flag_tac Hi w E.
  - apply (desc_lock_frame_same s _ w); [apply Hi|others_tac|..]; fin_tac E.
  - apply (own_move s _ own w); [apply Hi|others_tac|].
    destruct (si_own _ _ _ Hi) as [O1 O2 O3 O4 O5 O6 O7 O8 O9]. constructor; try done.
    + intros u. upd. rewrite list_elem_of_filter. cases; naive_solver.
    + intros u. upd. cases; [|done]. rewrite O6. split; congruence.
    + intros u. upd. cases; try done; rewrite ?E; cbn; split; congruence.
    + intros w' [Hw|Hw]; congruence.
    + intros k. upd. intros Hk. destruct (O3 t k Hk). congruence.
    + intros _ _. upd. apply O4; congruence.
    + upd. intros Hb. destruct (O5 t Hb). congruence.
    + apply (own_ult s loc own t Hi). congruence.
  - apply (misc_frame_same s _ w); [apply Hi|others_tac|..]; fin_tac E.
Qed.

(** An operation that begins with a pop, and exit. *)
Lemma step_op_pc s loc own w p' :
  sc_inv s loc own → wk_pc (sc_wks s w) = Run →
  p' = Pop AYield ∨ p' = ExitLock ∨ (∃ z, p' = Pop (AWait z) ∧ unreserved z s) →
  sc_inv (set_wpc w p' s) loc own.
Proof.
  intros Hi E Hp. pc_tac Hi w E Hu.
  destruct Hp as [->|[->|(z & -> & Hz)]]; apply inv_pc; rewrite ?E; auto; try done; try (unfold pc_ok; upd; by cases).
  right; right. by exists z.
Qed.

(** [~initializer]: the main thread leaves. *)
Lemma step_op_finish s loc own w :
  sc_inv s loc own → wk_pc (sc_wks s w) = Run → wk_cur (sc_wks s w) = Ult 0 → sc_finished s = false →
  sc_inv (set_wpc w (Pop AFinish) (set_finished_flag s)) loc own.
Proof.
  intros Hi E Hm Hf. pc_tac Hi w E Hu.
  pose proof (si_wk _ _ _ Hi w) as [_ Hro Hrc]. unfold root_ok in Hro. rewrite E in Hro. cbn in Hro.
  eapply (inv_frame s _ loc _ own _ w); [done|others_tac| | | | | | | |].
  - apply (place_same s); [apply Hi|stay_tac E|deque_tac Hi].
  - constructor; [unfold pc_ok; upd; cases; done|root_tac Hro|].
    intros k'. specialize (Hrc k'). upd. by cases.
  - fin_tac E.
  - fin_tac E.
  - flag_tac Hi w E.
  - apply (desc_lock_frame_same s _ w); [apply Hi|others_tac|..]; fin_tac E.
  - apply (own_frame_same s _ own w); [apply Hi|others_tac|..]; fin_tac E.
  - destruct (si_misc _ _ _ Hi) as [M1 M2 M3 M4 M5 M6]. constructor; upd.
    + intros w' z. specialize (M1 w' z). by cases.
    + intros w1 w2 z. specialize (M2 w1 w2 z). by cases.
    + done.
    + done.
    + intros w'. specialize (M5 w'). cases; [done|]. intros H5%M5. destruct H5. congruence.
    + intros _. left. exists w. by cases.
Qed.

(** notify, enter and swap take the continuation of an object. *)
Lemma step_op_take s loc own w z k p' :
  sc_inv s loc own → wk_pc (sc_wks s w) = Run → sc_objs s z = Some k →
  p' = Push false k ∨ p' = EnterTo k ∨ (∃ z', p' = SwapTo z' k ∧ unreserved z' s) →
  td_root (sc_tasks s k) = false ∧ sc_inv (set_wpc w p' (set_sobj z None s)) (<[k := PHand w]> loc) own.
Proof.
  intros Hi E Hz Hp. pc_tac Hi w E Hu. destruct (obj_loc _ _ _ _ _ Hi Hz) as [Hk Huk].
  split; [by apply (resume_ult s loc own)|].
  pose proof (holds_at _ _ _ _ _ Hi Hk) as Hhk.
  pose proof (si_wk _ _ _ Hi w) as [_ Hro Hrc]. unfold root_ok in Hro. rewrite E in Hro. cbn in Hro.
  eapply (inv_frame s _ loc _ own own w); [done|others_tac| | | | | | | |].
  - apply (place_move s _ loc k (PObj z)); [apply Hi|done|..|deque_tac Hi].
    + destruct Hp as [->|[->|(z' & -> & Hz')]]; stay_tac E.
    + destruct Hp as [->|[->|(z' & -> & Hz')]]; at_tac E Hhk.
  - constructor; [unfold pc_ok; destruct Hp as [->|[->|(z' & -> & Hz')]]; upd; cases; done|root_tac Hro|].
    intros k'. specialize (Hrc k'). upd. by cases.
  - fin_tac E.
  - fin_tac E.
  - destruct Hp as [->|[->|(z' & -> & Hz')]]; flag_tac Hi w E.
  - apply (desc_lock_frame_same s _ w); [apply Hi|others_tac|..]; destruct Hp as [->|[->|(z' & -> & Hz')]]; fin_tac E.
  - apply (own_frame_same s _ own w); [apply Hi|others_tac|..]; destruct Hp as [->|[->|(z' & -> & Hz')]]; fin_tac E.
  - apply (misc_frame s _ w); [apply Hi|others_tac|..]; destruct Hp as [->|[->|(z' & -> & [Hz' Hun])]]; try (fin_tac E).
    upd. cases; [|done]. intros z1 [= <-]. cases; auto.
Qed.

(** [swap_with], up to the functor. *)
Lemma step_op_swap_with s loc own w z z' k :
  sc_inv s loc own → wk_pc (sc_wks s w) = Run → sc_objs s z' = Some k → unreserved z s →
  td_root (sc_tasks s k) = false ∧
  sc_inv (set_wpc w (SwapFunc z z' (wk_cur (sc_wks s w)))
    (set_sobj z (Some (wk_cur (sc_wks s w))) (set_cur w k (set_sobj z' None s))))
    (<[wk_cur (sc_wks s w) := PObj z]> (<[k := PCur w]> loc)) own.
Proof.
  intros Hi E Hz' [Hz Hun]. pc_tac Hi w E Hu. destruct (obj_loc _ _ _ _ _ Hi Hz') as [Hk Huk].
  assert (z ≠ z') as Hzz by congruence. split; [by apply (resume_ult s loc own)|].
  pose proof (cur_loc _ _ _ w Hi) as Hc.
  pose proof (holds_at _ _ _ _ _ Hi Hk) as Hhk. pose proof (holds_at _ _ _ _ _ Hi Hc) as Hhc.
  pose proof (si_wk _ _ _ Hi w) as [_ Hro Hrc]. unfold root_ok in Hro. rewrite E in Hro. cbn in Hro.
  remember (wk_cur (sc_wks s w)) as cur eqn:Ec. symmetry in Ec. assert (cur ≠ k) as Hne by congruence.
  eapply (inv_frame s _ loc _ own own w); [done|others_tac| | | | | | | |].
  - apply (place_move2 s); [apply Hi|done|stay_tac E|at_tac E Hhc|at_tac E Hhk|deque_tac Hi].
  - constructor; [unfold pc_ok; upd; cases; done|root_tac Hro|].
    intros k'. specialize (Hrc k'). upd. by cases.
  - fin_tac E.
  - fin_tac E.
  - flag_tac Hi w E.
  - apply (desc_lock_frame_same s _ w); [apply Hi|others_tac|..]; fin_tac E.
  - apply (own_frame_same s _ own w); [apply Hi|others_tac|..]; fin_tac E.
  - apply (misc_frame s _ w); [apply Hi|others_tac|..]; try (fin_tac E).
    intros z1 w' Hne' Hr. upd. cases; try done. by destruct (Hun w').
Qed.
End ops.
