(* ===== verification/SchedLoop.v ===== *)
(** The loop of a worker, its deque, and every step at once. *)
From Stdlib Require Import ZArith Lia.
From stdpp Require Import base tactics functions list gmap.
From S2P Require Import Prelude.
From S2P Require Import Linear.
From S2P Require Import Deque.
From S2P Require Import Sched.
From S2P Require Import SchedInv.
From S2P Require Import SchedSafe.
From S2P Require Import SchedStep.
From S2P Require Import SchedSwitch.
From S2P Require Import SchedLock.
From S2P Require Import SchedOps.

Section loop.
Context {DQ : WorkerDeque} (num_wks : nat).
Implicit Types (s : sched) (w : nat) (k t : task) (loc : task → place) (own : task → join_state).

(** The workers that do not exist. *)
Definition idle (s : sched) : Prop := ∀ w, (num_wks ≤ w)%nat → wk_pc (sc_wks s w) = Loop.

Definition looping (p : sc_pc) : Prop := p = Loop ∨ p = Steal.

Lemma step_loop_pc s loc own w p' :
  sc_inv s loc own → looping (wk_pc (sc_wks s w)) →
  looping p' ∨ p' = Stopped ∨ p' = FinishWorkers ∧ w = 0%nat ∧ sc_finished s = true → sc_inv (set_wpc w p' s) loc own.
Proof.
  intros Hi El Hp. pose proof (wo_pc _ _ _ (si_wk _ _ _ Hi w)) as Hpc. unfold pc_ok in Hpc.
  destruct El as [E|E]; rewrite E in Hpc; destruct Hpc as [Hc Hr];
    destruct Hp as [[->| ->]|[->|[-> [-> Hf]]]]; apply inv_pc; rewrite ?E; auto; try done; unfold pc_ok; upd; by cases.
Qed.

(** A task taken from a deque, by the loop. *)
Lemma step_loop_take s loc own w v k q :
  sc_inv s loc own → looping (wk_pc (sc_wks s w)) → wk_deque (sc_wks s v) ≡ₚ k :: q →
  sc_inv (set_deque v q (set_wpc w (Execute k) s)) (<[k := PHand w]> loc) own.
Proof.
  intros Hi El Hq. pose proof (wo_pc _ _ _ (si_wk _ _ _ Hi w)) as Hpc. unfold pc_ok in Hpc.
  assert (is_ult k) as Hu.
  { apply (place_ult s loc own k (PDeque v) Hi).
    apply (pi_holds _ _ (si_place _ _ _ Hi) k (PDeque v)). cbn. rewrite Hq. by left. }
  destruct El as [E|E]; rewrite E in Hpc; destruct Hpc as [Hc Hr]; apply inv_take; rewrite ?E; auto; try done;
    unfold pc_ok; upd; by cases.
Qed.

(** * The pop before a switch *)

Lemma after_same s s' own cur a :
  sc_tasks s' = sc_tasks s → after_ok s own cur a → after_ok s' own cur a.
Proof. intros E. by destruct a; cbn; rewrite ?E. Qed.

Lemma step_pop_take s loc own w a k q :
  sc_inv s loc own → wk_pc (sc_wks s w) = Pop a → wk_deque (sc_wks s w) ≡ₚ k :: q →
  sc_inv (set_deque w q (set_wpc w (Switch a k) s)) (<[k := PHand w]> loc) own.
Proof.
  intros Hi E Hq. pc_tac Hi w E Hpc. destruct Hpc as [Hu Ha].
  apply inv_take; rewrite ?E; auto; try done; try (by destruct a).
  unfold pc_ok. upd. cases; [|done]. split; [done|]. by eapply after_same.
Qed.

Lemma step_pop_root s loc own w a :
  sc_inv s loc own → wk_pc (sc_wks s w) = Pop a →
  wk_root (sc_wks s w) = Some (Root w) ∧ td_root (sc_tasks s (Root w)) = true
  ∧ sc_inv (set_wpc w (Switch a (Root w)) (set_root w None s)) (<[Root w := PHand w]> loc) own.
Proof.
  intros Hi E. pc_tac Hi w E Hpc. destruct Hpc as [Hu Ha].
  assert (wk_root (sc_wks s w) = Some (Root w)) as Hr.
  { destruct (ult_root s loc own w Hi Hu) as [?|H]; rewrite ?E in *; done. }
  split; [done|]. split; [by rewrite (si_flag _ _ _ Hi (Root w)), E|].
  apply inv_take_root; rewrite ?E; auto; try done; try (by destruct a).
  unfold pc_ok. upd. cases; [|done]. split; [done|]. by eapply after_same.
Qed.

(** * The end *)

Lemma step_terminate s loc own : sc_inv s loc own → sc_inv (terminate s) loc own.
Proof.
  intros [[P1 P2] Hw Hf [L1 L2] [] []]. constructor; try (by constructor); [|done]. intros w. by destruct (Hw w).
Qed.

Lemma stopped_locks s loc own w :
  sc_inv s loc own → idle s → wk_pc (sc_wks s w) = FinishWorkers → others_stopped num_wks w s = true →
  (∀ w', w' ≠ w → wk_pc (sc_wks s w') = Stopped ∨ wk_pc (sc_wks s w') = Loop)
  ∧ ∀ t, td_lock (sc_tasks s t) = None.
Proof.
  intros Hi Hid E Hs.
  assert (∀ w', w' ≠ w → wk_pc (sc_wks s w') = Stopped ∨ wk_pc (sc_wks s w') = Loop) as Ho.
  { intros w' Hne. destruct (le_lt_dec num_wks w') as [Hge|Hlt]; [right; auto|left].
    unfold others_stopped in Hs. rewrite forallb_forall in Hs. specialize (Hs w').
    rewrite in_seq in Hs. specialize (Hs ltac:(lia)). apply orb_prop in Hs as [Hs|Hs]; [by apply Nat.eqb_eq in Hs|].
    by destruct (wk_pc (sc_wks s w')). }
  split; [done|]. intros t. destruct (td_lock (sc_tasks s t)) as [v|] eqn:El; [|done].
  apply (li_lock _ (si_lock _ _ _ Hi)) in El. destruct (decide (v = w)) as [->|Hne]; [by rewrite E in El|].
  by destruct (Ho v Hne) as [Ev|Ev]; rewrite Ev in El.
Qed.

(** The loops of the other workers have ended: the main thread goes on. *)
Lemma step_finish s loc own w :
  sc_inv s loc own → idle s → wk_pc (sc_wks s w) = FinishWorkers → others_stopped num_wks w s = true →
  ∃ k, sc_dest s = Some k ∧
  sc_inv (set_wpc w Stopped (set_life (wk_cur (sc_wks s w)) Freed (set_cur w k (set_dest None s))))
    (<[wk_cur (sc_wks s w) := PGone]> (<[k := PCur w]> loc)) own.
Proof.
  intros Hi Hid E Hs. destruct (stopped_locks _ _ _ _ Hi Hid E Hs) as [Ho Hlk]. pc_tac Hi w E Hpc. destruct Hpc as [Hcr Hr].
  destruct (mi_finish _ (si_misc _ _ _ Hi) w E) as [-> Hf].
  assert (sc_dest s = Some (Ult 0)) as Hd.
  { destruct (mi_finished _ (si_misc _ _ _ Hi) Hf) as [(v & _ & Hv)|[?|?]]; [|done|congruence].
    destruct (decide (v = 0%nat)) as [->|Hne]; [by rewrite E in Hv|]. by destruct (Ho v Hne) as [Ev|Ev]; rewrite Ev in Hv. }
  exists (Ult 0). split; [done|]. rewrite Hcr. set (k := Ult 0) in *.
  assert (loc k = PDest) as Hk by by apply (pi_holds _ _ (si_place _ _ _ Hi) k PDest).
  pose proof (cur_loc _ _ _ 0%nat Hi) as Hc. rewrite Hcr in Hc.
  pose proof (holds_at _ _ _ _ _ Hi Hk) as Hhk. pose proof (holds_at _ _ _ _ _ Hi Hc) as Hhc.
  destruct (loc_alive _ _ _ (Root 0) Hi) as [Ha Hfin]; [congruence..|].
  eapply (inv_frame s _ loc _ own own 0%nat); [done|others_tac| | | | | | | |].
  - apply (place_move2 s); [apply Hi|done|stay_tac E| |at_tac E Hhk|deque_tac Hi].
    intros p. specialize (Hhc p). destruct p; upd; unfold gone in *; cases; rewrite ?E in *; cbn in *;
      try done; split; intros; try done; intuition congruence.
  - constructor; [unfold pc_ok; upd; cases; done| |intros k'; upd; cases; congruence].
    unfold root_ok, gone. right; right; right. upd. cases; try done. auto.
  - fin_tac E.
  - fin_tac E.
  - flag_tac Hi 0%nat E.
  - apply (desc_lock_frame_same s _ 0%nat); [apply Hi|others_tac|..]; try (fin_tac E).
    intros t Ht. by destruct Ht.
  - destruct (si_own _ _ _ Hi) as [O1 O2 O3 O4 O5 O6 O7 O8 O9]. constructor; try done.
    + intros w t. specialize (O2 w t). upd. cases; rewrite ?E in *; done.
    + intros t k'. specialize (O3 t k'). upd. by cases.
    + intros t. specialize (O4 t). specialize (O9 0%nat). upd. cases; done.
    + intros t. specialize (O5 t). upd. by cases.
    + intros t. specialize (O7 t). upd. by cases.
  - destruct (si_misc _ _ _ Hi) as [M1 M2 M3 M4 M5 M6]. constructor; upd; try done.
    + intros w' z. specialize (M1 w' z). by cases.
    + intros w1 w2 z. specialize (M2 w1 w2 z). by cases.
    + intros w'. specialize (M5 w'). by cases.
    + intros _. right; right. done.
Qed.
End loop.
