(* ===== verification/SchedRun.v ===== *)
(** The runs of the scheduler keep its invariant. *)
From Stdlib Require Import ZArith Lia.
From stdpp Require Import base tactics functions list gmap.
From S2P Require Import Prelude.
From S2P Require Import Linear.
From S2P Require Import Deque.
From S2P Require Import Sched.
From S2P Require Import SchedInv.
From S2P Require Import SchedSafe.
From S2P Require Import SchedStep.
From S2P Require Import SchedSwitch.
From S2P Require Import SchedLock.
From S2P Require Import SchedOps.
From S2P Require Import SchedLoop.

(** Every way to a result of [worker_next]. *)
Ltac next_cases E :=
  unfold worker_next, start_op, switch, set_root_cont, store_cont, check_locked, touch in E;
  repeat case_match; simplify_eq; inv_ok; repeat case_match; simplify_eq.

Section run.
Context {DQ : WorkerDeque} (num_wks : nat).
Implicit Types (s : sched) (w : nat) (k t : task) (loc : task → place) (own : task → join_state).

Definition good_result (r : result sched) : Prop := ∃ s, r = Ok s ∧ sc_good s.

Lemma good_ok s loc own : sc_inv s loc own → good_result (Ok s).
Proof. intros Hi. exists s. split; [done|]. by exists loc, own. Qed.

Lemma touch_ok s t : td_life (sc_tasks s t) = Alive → touch t s = Ok (sc_tasks s t).
Proof. intros Ha. unfold touch. by rewrite decide_True. Qed.

(** The operations of threads. *)
Lemma start_op_good s w op :
  sc_good s → wk_pc (sc_wks s w) = Run → op_allowed w op s → good_result (start_op w op s).
Proof.
  intros (loc & own & Hi) E Ha. destruct op as [c|c|t| | |z|z|z|z z'|z z'|]; cbn in *.
  - eapply good_ok, step_fork; done.
  - eapply good_ok, step_fork_parent; done.
  - eapply good_ok, step_op_join; done.
  - eapply good_ok, step_op_pc; eauto.
  - eapply good_ok, step_op_pc; eauto.
  - destruct Ha as [Hz Hr]. rewrite bool_decide_true by done. cbn. eapply good_ok, step_op_pc; [done|done|].
    right; right. by exists z.
  - destruct Ha as [k Hz]. rewrite Hz. destruct (step_op_take s loc own w z k (Push false k) Hi E Hz) as [-> Hg]; [auto|].
    by eapply good_ok.
  - destruct Ha as [k Hz]. rewrite Hz. destruct (step_op_take s loc own w z k (EnterTo k) Hi E Hz) as [-> Hg]; [auto|].
    by eapply good_ok.
  - destruct Ha as [Hu [k Hz]]. rewrite Hz, bool_decide_true by apply Hu.
    destruct (step_op_take s loc own w z' k (SwapTo z k) Hi E Hz) as [-> Hg]; [eauto|]. by eapply good_ok.
  - destruct Ha as [Hu [k Hz]]. rewrite Hz, bool_decide_true by apply Hu.
    destruct (step_op_swap_with s loc own w z z' k Hi E Hz Hu) as [-> Hg]. cbn. unfold store_cont.
    rewrite bool_decide_true; [by eapply good_ok|]. destruct Hu as [Hu _]. clear Hg. upd. by case_decide.
  - destruct Ha as [Hm Hf]. eapply good_ok, step_op_finish; done.
Qed.

(** The switches. *)
Lemma switch_good s w a k :
  sc_good s → wk_pc (sc_wks s w) = Switch a k → good_result (switch w a k s).
Proof.
  intros (loc & own & Hi) E. destruct a as [t| |j| |z]; unfold switch.
  - pose proof (joining_own s loc own w t Hi) as Ho. rewrite E in Ho. destruct (Ho eq_refl) as (_ & Ha & Hj).
    destruct (locked s loc own w t Hi) as [Hl _]; [by rewrite E|].
    unfold check_locked, touch. change (sc_tasks (set_cur w k s)) with (sc_tasks s). rewrite decide_True by done. cbn.
    do 2 (rewrite bool_decide_true by done; cbn). eapply good_ok, step_switch_join; done.
  - eapply good_ok, step_switch_yield; done.
  - eapply good_ok, step_switch_exit; done.
  - destruct (step_switch_finish s loc own w k Hi E) as [Hd Hg].
    change (sc_dest (set_cur w k s)) with (sc_dest s). rewrite bool_decide_true by done. by eapply good_ok.
  - destruct (step_switch_wait s loc own w k z Hi E) as [Hz Hg]. unfold store_cont.
    change (sc_objs (set_cur w k s)) with (sc_objs s). rewrite bool_decide_true by done. by eapply good_ok.
Qed.

Lemma local_good s w c r :
  (2 ≤ num_wks)%nat → sc_good s → idle num_wks s → choice_allowed w c s →
  worker_next num_wks w c s = SLocal r → good_result r.
Proof.
  intros Hn Hg Hid Hc. pose proof Hg as (loc & own & Hi).
  unfold worker_next. destruct (wk_pc (sc_wks s w)) eqn:E; destruct c as [|op|b|rd]; try done.
  - destruct (sc_finished s) eqn:Ef; intros [= <-]. eapply good_ok, step_loop_pc; [done|by left|].
    destruct (Nat.eqb_spec w 0); auto.
  - rewrite leb_correct_conv by lia. done.
  - intros [= <-]. pc_tac Hi w E Hpc. destruct Hpc as (Hcur & Hr & Hu). rewrite bool_decide_true by done.
    rewrite Hcur, (si_flag _ _ _ Hi (Root w)), E. cbn.
    unfold set_root_cont. replace (td_root _) with true by (upd; by cases). cbn.
    rewrite bool_decide_true by (upd; by cases). eapply good_ok, step_execute; done.
  - intros [= <-]. pc_tac Hi w E Hpc. destruct Hpc as (Hcur & Hr). rewrite Hcur, (si_flag _ _ _ Hi (Root w)), E. cbn.
    rewrite bool_decide_true by done. eapply good_ok, step_returned; done.
  - destruct (others_stopped num_wks w s) eqn:Es; [|done]. intros [= <-].
    destruct (step_finish num_wks s loc own w Hi Hid E Es) as (k & -> & Hg'). by eapply good_ok.
  - intros [= <-]. by apply start_op_good.
  - intros [= <-]. by apply switch_good.
  - destruct (td_lock (sc_tasks s t)) eqn:El; [done|]. intros [= <-].
    destruct (step_join_lock s loc own w t Hi E El) as [Ha Hg']. rewrite touch_ok by done. by eapply good_ok.
  - intros [= <-]. rewrite (check_locked_ok s loc own) by (rewrite ?E; done). eapply good_ok, step_join_check; done.
  - intros [= <-]. rewrite (check_locked_ok s loc own) by (rewrite ?E; done). eapply good_ok, step_join_unlock; done.
  - intros [= <-]. destruct (step_join_free s loc own w t Hi E) as [Ha Hg']. rewrite touch_ok by done. by eapply good_ok.
  - intros [= <-]. rewrite (check_locked_ok s loc own) by (rewrite ?E; done).
    destruct joined; [eapply good_ok, step_unlock_exit|eapply good_ok, step_unlock_join]; done.
  - destruct (td_lock _) eqn:El; [done|]. intros [= <-].
    destruct (step_exit_lock s loc own w Hi E El) as [Ha Hg']. rewrite touch_ok by done. by eapply good_ok.
  - intros [= <-]. rewrite (check_locked_ok s loc own) by (rewrite ?E; done). cbn.
    destruct (td_joiner _) eqn:Ej; [eapply good_ok, step_exit_joiner|eapply good_ok, step_exit_alone]; done.
  - intros [= <-]. rewrite (check_locked_ok s loc own) by (rewrite ?E; done).
    destruct (step_on_exit s loc own w t joined Hi E) as [Hf Hg']. cbn. rewrite Hf. by eapply good_ok.
  - cbn in Hc. destruct b; intros [= <-]; [eapply good_ok, step_go_on; eauto|]. rewrite E in Hc. rewrite Hc.
    eapply good_ok, step_wait_back; done.
  - case_bool_decide as Hr; intros [= <-]; [eapply good_ok, step_wait_push; done|].
    apply eq_None_not_Some in Hr. destruct (step_wait_root s loc own w k Hi E Hr) as (-> & Hf & Hg').
    unfold set_root_cont. rewrite Hf, bool_decide_true by done. by eapply good_ok.
  - intros [= <-]. pose proof (mi_reserved _ (si_misc _ _ _ Hi) w z) as Hz. rewrite E in Hz. specialize (Hz eq_refl).
    unfold store_cont. change (sc_objs (set_cur w k s)) with (sc_objs s). rewrite bool_decide_true by done.
    eapply good_ok, step_swap_to; done.
  - intros [= <-]. eapply good_ok, step_enter_to; done.
  - cbn in Hc. destruct b; intros [= <-]; [eapply good_ok, step_go_on; eauto 10|]. rewrite E in Hc.
    destruct Hc as (Hz & Hu & Hne). rewrite Hz. unfold store_cont. destruct Hu as [Hu Hu'].
    rewrite bool_decide_true; [eapply good_ok, step_swap_back; done|]. upd. by case_decide.
Qed.

Lemma deque_set_wpc s w p v : wk_deque (sc_wks (set_wpc w p s) v) = wk_deque (sc_wks s v).
Proof. upd. case_decide; by subst. Qed.

(** The accesses of a deque. *)
Lemma deque_good s w c v op kont ret q r :
  sc_good s → worker_next num_wks w c s = SDeque v op kont → dq_apply op (wk_deque (sc_wks s v)) ret q →
  kont ret = Some r → ∃ s1, r = Ok s1 ∧ sc_good (set_deque v q s1).
Proof.
  intros (loc & own & Hi) Hw Hq Hk. unfold worker_next in Hw.
  destruct (wk_pc (sc_wks s w)) eqn:E; destruct c as [|o|b|rd]; try done; try (by repeat case_match).
  - destruct (sc_finished s); [done|]. injection Hw as <- <- <-.
    destruct (dq_pop _ _ _ _ (or_introl eq_refl) Hq) as ([k|] & -> & Hp & He); injection Hk as <-; eexists; split; try done.
    + eexists _, _. eapply step_loop_take; [done|by left|done].
    + eexists _, _. apply inv_deque; [eapply step_loop_pc; [done|by left|by left; right]|]. by rewrite deque_set_wpc.
  - destruct (num_wks <=? 1)%nat; [done|]. injection Hw as <- <- <-.
    destruct (dq_pop _ _ _ _ (or_intror eq_refl) Hq) as ([k|] & -> & Hp & He); injection Hk as <-; eexists; split; try done.
    + eexists _, _. eapply step_loop_take; [done|by right|done].
    + eexists _, _. apply inv_deque; [eapply step_loop_pc; [done|by right|by left; left]|]. by rewrite deque_set_wpc.
  - injection Hw as <- <- <-.
    destruct (dq_pop _ _ _ _ (or_introl eq_refl) Hq) as ([k|] & -> & Hp & He).
    + injection Hk as <-. eexists; split; [done|]. eexists _, _. eapply step_pop_take; done.
    + destruct (step_pop_root s loc own w a Hi E) as (Hr & Hf & Hg). rewrite Hr, Hf in Hk. injection Hk as <-.
      eexists; split; [done|]. eexists _, _. apply inv_deque; [done|]. upd. by case_decide.
  - injection Hw as <- <- <-.
    assert ((if bottom then LocalPushBottom k else LocalPushTop k) = LocalPushTop k
      ∨ (if bottom then LocalPushBottom k else LocalPushTop k) = LocalPushBottom k) as Hop by (destruct bottom; auto).
    destruct (dq_push _ k _ _ _ Hop Hq) as [[-> Hp]|[-> ->]]; injection Hk as <-; eexists; (split; [done|]).
    + eexists _, _. eapply step_push; done.
    + eexists _, _. apply inv_deque; [by apply step_terminate|done].
Qed.

(** * Runs *)

Inductive sc_reach : sched → Prop :=
| reach_start : sc_reach sc_start
| reach_step s s' w c : sc_reach s → choice_allowed w c s → sc_step num_wks w c s s' → sc_reach s'.

Definition start_loc (t : task) : place :=
  match t with Root w => PCur w | Ult O => PDeque 0 | Ult (S _) => PNone end.

Lemma start_inv : sc_inv sc_start start_loc (λ _, JNone).
Proof.
  constructor.
  - constructor.
    + intros k p. destruct p as [w|w|w|w|t|z| | |]; cbn; unfold gone;
        [|destruct (Nat.eqb_spec w 0) as [->|Hw]; [rewrite list_elem_of_singleton|rewrite elem_of_nil]|..];
        destruct k as [v|[|n]]; try destruct t as [|[]]; cbn; naive_solver.
    + intros w. cbn. destruct (w =? 0)%nat; [apply NoDup_singleton|constructor].
  - intros w. constructor; [done|by left|done].
  - intros [w|[|n]]; done.
  - constructor; intros [v|[|n]] x; done.
  - constructor; cbn; try done; try (intros [v|[|n]]; done); try (intros t; rewrite elem_of_nil; split; done).
    constructor.
  - by constructor.
Qed.


(** * What a step changes *)

Lemma local_others s w c s1 : worker_next num_wks w c s = SLocal (Ok s1) → others s s1 w.
Proof. intros E. next_cases E; others_tac. Qed.

Lemma deque_others s w c v op kont ret s1 :
  worker_next num_wks w c s = SDeque v op kont → kont ret = Some (Ok s1) → others s s1 w.
Proof. intros E Ek. next_cases E; repeat case_match; simplify_eq; inv_ok; others_tac. Qed.

Lemma step_others s s' w c : sc_step num_wks w c s s' → others s s' w.
Proof.
  intros (_ & _ & Hs). destruct (worker_next num_wks w c s) as [|r|v op k] eqn:E; [done| |].
  - subst. destruct r as [s1|f]; [by eapply local_others|cbn; others_tac].
  - destruct Hs as (ret & q & r & _ & Hk & ->).
    assert (others s (sc_settle w s r) w) as Ho by (destruct r as [s1|f]; [by eapply deque_others|cbn; others_tac]).
    intros w' Hne. specialize (Ho w' Hne). unfold same_wk in *. clear Hk E. upd. by case_decide; subst.
Qed.

Lemma idle_step s s' w c : idle num_wks s → sc_step num_wks w c s s' → idle num_wks s'.
Proof.
  intros Hid Hs v Hv. pose proof Hs as (Hw & _ & _). destruct (step_others _ _ _ _ Hs v) as (_ & _ & ->); [lia|auto].
Qed.

Lemma step_good s s' w c :
  (2 ≤ num_wks)%nat → sc_good s → idle num_wks s → choice_allowed w c s → sc_step num_wks w c s s' → sc_good s'.
Proof.
  intros Hn Hg Hid Hc (Hw & _ & Hs). destruct (worker_next num_wks w c s) as [|r|v op k] eqn:E; [done| |].
  - destruct (local_good _ _ _ _ Hn Hg Hid Hc E) as (s1 & -> & Hg'). by subst.
  - destruct Hs as (ret & q & r & Hq & Hk & ->). destruct (deque_good _ _ _ _ _ _ _ _ _ Hg E Hq Hk) as (s1 & -> & Hg'). done.
Qed.

Lemma reach_idle s : sc_reach s → idle num_wks s.
Proof. induction 1 as [|s s' w c _ Hid Hc Hs]; [by intros w|by eapply idle_step]. Qed.

Lemma reach_good s : (2 ≤ num_wks)%nat → sc_reach s → sc_good s ∧ idle num_wks s.
Proof.
  intros Hn. induction 1 as [|s s' w c _ [Hg Hid] Hc Hs].
  - split; [by eexists _, _; apply start_inv|by intros w].
  - split; [by eapply step_good|by eapply idle_step].
Qed.
End run.
