(* ===== verification/SchedThm.v ===== *)
(** The scheduler runs every thread on one worker at a time and loses none, its
    locks cannot deadlock, and what its two defects lead to. *)
From Stdlib Require Import ZArith Lia.
From stdpp Require Import base tactics functions list gmap.
From S2P Require Import Prelude.
From S2P Require Import Linear.
From S2P Require Import Deque.
From S2P Require Import Sched.
From S2P Require Import SchedInv.
From S2P Require Import SchedSafe.
From S2P Require Import SchedStep.
From S2P Require Import SchedLock.
From S2P Require Import SchedLoop.
From S2P Require Import SchedRun.

(** * The deques *)

Definition task_is_root (k : task) : bool := match k with Root _ => true | Ult _ => false end.

(** The critical sections of the spinlock deque. *)
#[export] Instance spinlock_deque : WorkerDeque.
Proof.
  refine {| dq_apply op q r q' := sd_body task_is_root 0 op q = Ok (r, q') |}.
  - intros op k q r q' [-> | ->] E; cbn in E; inv_ok; left; split; try done. by rewrite Permutation_app_comm.
  - intros op q r q' [-> | ->] E; cbn in E.
    + destruct q as [|x q _] using rev_ind; cbn in E.
      * inv_ok. by exists None.
      * rewrite last_snoc in E. inv_ok. rewrite removelast_last. exists (Some x). split; [done|].
        split; [by rewrite Permutation_app_comm|done].
    + destruct q as [|x q]; cbn in E; inv_ok; [by exists None|]. exists (Some x). done.
  - intros op q Hop Hu. assert (∀ k, is_ult k → task_is_root k = false) as Hr by by intros [].
    destruct op as [k|k|k| |]; cbn in *.
    + apply Forall_cons in Hu as [Hk _]. rewrite (Hr k Hk). by do 2 eexists.
    + apply Forall_cons in Hu as [Hk _]. rewrite (Hr k Hk). by do 2 eexists.
    + by destruct (Hop k).
    + destruct (last q) as [k|] eqn:El; [|by do 2 eexists]. apply last_Some_elem_of in El.
      rewrite Forall_forall in Hu. rewrite (Hr k) by auto. by do 2 eexists.
    + destruct q as [|k q]; [by do 2 eexists|]. apply Forall_cons in Hu as [Hk _]. rewrite (Hr k Hk). by do 2 eexists.
Defined.

(** The bounded list that the Chase-Lev deque implements. *)
Definition chaselev_deque (size : Z) : WorkerDeque.
Proof.
  refine {| dq_apply op q r q' := wd_apply size 0 op q r q' |}.
  - intros op k q r q' Hop E. destruct Hop as [-> | ->]; inversion E; subst.
    1,3: left; split; [done|]; destruct H as [[= ->]|[= ->]]; by rewrite Permutation_app_comm.
    all: by right.
  - intros op q r q' Hop E. destruct Hop as [-> | ->]; inversion E; subst; try (by destruct H);
      try (by eexists (Some _)); try (by exists None).
    exists (Some cont). split; [done|]. split; [by rewrite Permutation_app_comm|done].
  - intros op q Hop _. destruct op as [k|k|k| |].
    1,2: destruct (Z_lt_le_dec (Z.of_nat (length q)) size); do 2 eexists; [eapply wa_push|eapply wa_full]; eauto.
    + by destruct (Hop k).
    + destruct q as [|x q _] using rev_ind; do 2 eexists; [apply wa_pop_empty|apply wa_pop].
    + do 2 eexists. apply wa_steal_fails.
Defined.

(** * Progress *)
Section progress.
Context {DQ : WorkerDeque} (num_wks : nat).
Implicit Types (s : sched) (w : nat) (k t : task).

Definition can_step (s : sched) (w : nat) : Prop := ∃ c s', choice_allowed w c s ∧ sc_step num_wks w c s s'.

(** Where a worker may wait for others. *)
Definition waits (p : sc_pc) : bool :=
  match p with JoinLock _ | ExitLock | FinishWorkers | Stopped | Crashed _ => true | _ => false end.

(** The choice that lets a worker go on. *)
Definition go_choice (p : sc_pc) : sc_choice :=
  match p with
  | Steal => CRand 0 | Run => COp OYield | WaitFunc _ _ | SwapFunc _ _ _ => CFunc true | _ => CNone
  end.

Lemma go_choice_allowed s w p : choice_allowed w (go_choice p) s.
Proof. by destruct p. Qed.

Lemma can_step_deque s w c v op kont :
  sc_good s → (w < num_wks)%nat → sc_terminated s = false → choice_allowed w c s →
  worker_next num_wks w c s = SDeque v op kont → Forall is_ult (op_task op) → (∀ k, op ≠ RemotePushBottom k) →
  (∀ ret q, dq_apply op (wk_deque (sc_wks s v)) ret q → is_Some (kont ret)) → can_step s w.
Proof.
  intros (loc & own & Hi) Hw Ht Hc E Hop Hr Hk.
  destruct (dq_enabled op (wk_deque (sc_wks s v)) Hr) as (ret & q & Hq).
  { apply Forall_app. split; [done|]. apply Forall_forall. intros k Hin.
    apply (place_ult s loc own k (PDeque v) Hi). by apply (pi_holds _ _ (si_place _ _ _ Hi) k (PDeque v)). }
  destruct (Hk ret q Hq) as [r Hr']. exists c. eexists. split; [done|]. split; [done|]. split; [done|].
  rewrite E. by exists ret, q, r.
Qed.

Lemma can_step_local s w c r :
  (w < num_wks)%nat → sc_terminated s = false → choice_allowed w c s → worker_next num_wks w c s = SLocal r → can_step s w.
Proof. intros Hw Ht Hc E. exists c. eexists. split; [done|]. split; [done|]. split; [done|]. by rewrite E. Qed.

Lemma not_waiting_steps s w :
  (2 ≤ num_wks)%nat → sc_good s → (w < num_wks)%nat → sc_terminated s = false → waits (wk_pc (sc_wks s w)) = false →
  can_step s w.
Proof.
  intros Hn Hg Hw Ht Hp. pose proof Hg as (loc & own & Hi). pose proof (go_choice_allowed s w (wk_pc (sc_wks s w))) as Hc.
  remember (go_choice (wk_pc (sc_wks s w))) as c eqn:Ec.
  destruct (wk_pc (sc_wks s w)) eqn:E; cbn in Ec, Hp; try done; subst c.
  all: try (eapply can_step_local; [done..|]; unfold worker_next; rewrite E; reflexivity).
  - destruct (sc_finished s) eqn:Ef.
    + eapply can_step_local; [done..|]. unfold worker_next. rewrite E, Ef. reflexivity.
    + eapply can_step_deque; [done..|unfold worker_next; rewrite E, Ef; reflexivity|done|done|].
      intros ret q Hq. destruct (dq_pop _ _ _ _ (or_introl eq_refl) Hq) as ([k|] & -> & _); eauto.
  - eapply can_step_deque; [done..|unfold worker_next; rewrite E, leb_correct_conv by lia; reflexivity|done|done|].
    intros ret q Hq. destruct (dq_pop _ _ _ _ (or_intror eq_refl) Hq) as ([k|] & -> & _); eauto.
  - eapply can_step_deque; [done..|unfold worker_next; rewrite E; reflexivity|done|done|].
    intros ret q Hq. destruct (dq_pop _ _ _ _ (or_introl eq_refl) Hq) as ([k|] & -> & _); eauto.
  - pc_tac Hi w E Hpc. destruct Hpc as [Hu _].
    eapply can_step_deque; [done..|unfold worker_next; rewrite E; reflexivity|destruct bottom; by constructor|by destruct bottom|].
    intros ret q Hq. destruct bottom;
      [pose proof (dq_push _ k _ _ _ (or_intror eq_refl) Hq) as Hq'|pose proof (dq_push _ k _ _ _ (or_introl eq_refl) Hq) as Hq'];
      destruct Hq' as [[-> _]|[-> _]]; eauto.
  - destruct (bool_decide (is_Some (wk_root (sc_wks s w)))) eqn:Er;
      (eapply can_step_local; [done..|]; unfold worker_next; rewrite E, Er; reflexivity).
Qed.

(** Whose lock a worker waits for. *)
Definition waits_lock (wk : worker) : option task :=
  match wk_pc wk with JoinLock t => Some t | ExitLock => Some (wk_cur wk) | _ => None end.

Lemma lock_holder_steps s t v :
  (2 ≤ num_wks)%nat → sc_good s → idle num_wks s → sc_terminated s = false → td_lock (sc_tasks s t) = Some v →
  (v < num_wks)%nat ∧ can_step s v.
Proof.
  intros Hn Hg Hid Ht Hl. pose proof Hg as (loc & own & Hi). apply (li_lock _ (si_lock _ _ _ Hi)) in Hl.
  assert (v < num_wks)%nat as Hv.
  { destruct (le_lt_dec num_wks v) as [Hge|]; [|done]. by rewrite (Hid v Hge) in Hl. }
  split; [done|]. apply not_waiting_steps; try done. by destruct (wk_pc (sc_wks s v)).
Qed.

(** C16: No deadlock on the descriptors: in every state that threads reach, a worker
    steps, or has left its loop, or waits for the other loops to end, or spins
    on a descriptor whose lock is held by another worker that steps. *)
Theorem sched_progress s w :
  (2 ≤ num_wks)%nat → sc_reach num_wks s → sc_terminated s = false → (w < num_wks)%nat →
  can_step s w ∨ wk_pc (sc_wks s w) = Stopped
  ∨ wk_pc (sc_wks s w) = FinishWorkers ∧ others_stopped num_wks w s = false
  ∨ ∃ t v, waits_lock (sc_wks s w) = Some t ∧ td_lock (sc_tasks s t) = Some v ∧ v ≠ w ∧ (v < num_wks)%nat ∧ can_step s v.
Proof.
  intros Hn Hr Ht Hw. destruct (reach_good num_wks s Hn Hr) as [Hg Hid]. pose proof Hg as (loc & own & Hi).
  destruct (waits (wk_pc (sc_wks s w))) eqn:Hp; [|left; by apply not_waiting_steps].
  assert (∀ t, waits_lock (sc_wks s w) = Some t → can_step s w ∨
    ∃ t v, waits_lock (sc_wks s w) = Some t ∧ td_lock (sc_tasks s t) = Some v ∧ v ≠ w ∧ (v < num_wks)%nat ∧ can_step s v) as Hlk.
  { intros t Hwt. destruct (td_lock (sc_tasks s t)) as [v|] eqn:El.
    - right. exists t, v. destruct (lock_holder_steps s t v Hn Hg Hid Ht El) as [Hv Hs]. split_and!; try done.
      intros ->. apply (li_lock _ (si_lock _ _ _ Hi)) in El. unfold waits_lock in Hwt. by destruct (wk_pc (sc_wks s w)).
    - left. unfold waits_lock in Hwt. destruct (wk_pc (sc_wks s w)) eqn:E; simplify_eq;
        (eapply (can_step_local s w CNone); [done..|]; unfold worker_next; rewrite E, El; reflexivity). }
  unfold waits_lock in *. destruct (wk_pc (sc_wks s w)) eqn:E; try done.
  - destruct (others_stopped num_wks w s) eqn:Es; [left|by right; right; left].
    eapply (can_step_local s w CNone); [done..|]. unfold worker_next. rewrite E, Es. reflexivity.
  - by right; left.
  - destruct (Hlk t eq_refl) as [?|?]; auto.
  - destruct (Hlk _ eq_refl) as [?|?]; auto.
  - pose proof (wo_pc _ _ _ (si_wk _ _ _ Hi w)) as Hpc. unfold pc_ok in Hpc. by rewrite E in Hpc.
Qed.
End progress.

(** * Demonstrations on the spinlock deque *)

(** A step with the spinlock deque, if it is allowed and not blocked. *)
Definition sc_allowedb (num_wks w : nat) (c : sc_choice) (s : sched) : bool :=
  match c with
  | CNone | CRand _ | CFunc true => true
  | COp (OFork c) => bool_decide (td_life (sc_tasks s (Ult c)) = Unborn)
  | COp (OJoin t) => bool_decide (t ∈ sc_handles s)
  | COp OYield | COp OExit => true
  | COp (OWait z) =>
      bool_decide (sc_objs s z = None)
      && forallb (λ v, negb (bool_decide (reserved (wk_pc (sc_wks s v)) = Some z))) (seq 0 num_wks)
  | COp (ONotify z) | COp (OEnter z) => bool_decide (is_Some (sc_objs s z))
  | COp OFinish => bool_decide (wk_cur (sc_wks s w) = Ult 0) && negb (sc_finished s)
  | _ => false
  end.

Lemma sc_allowedb_ok n w c s : idle n s → sc_allowedb n w c s = true → choice_allowed w c s.
Proof.
  intros Hid. destruct c as [|op|[]|r]; try done; destruct op; cbn; try done; try by intros ?%bool_decide_eq_true.
  - intros [?%bool_decide_eq_true Hf]%andb_prop. split; [done|]. intros v E.
    destruct (le_lt_dec n v) as [Hge|Hlt]; [by rewrite (Hid v Hge) in E|].
    rewrite forallb_forall in Hf. specialize (Hf v). rewrite in_seq, E in Hf.
    rewrite bool_decide_true in Hf by done. specialize (Hf ltac:(lia)). done.
  - intros [?%bool_decide_eq_true ?%negb_true_iff]%andb_prop. done.
Qed.

Definition sc_exec (num_wks w : nat) (c : sc_choice) (s : sched) : option sched :=
  if (num_wks <=? w)%nat || sc_terminated s || negb (sc_allowedb num_wks w c s) then None
  else match worker_next num_wks w c s with
       | SBlocked => None
       | SLocal r => Some (sc_settle w s r)
       | SDeque v op k =>
           match sd_body task_is_root 0 op (wk_deque (sc_wks s v)) with
           | Ok (ret, q) => r ← k ret; Some (set_deque v q (sc_settle w s r))
           | Fail _ => None
           end
       end.

Definition sc_run (num_wks : nat) (l : list (nat * sc_choice)) (s : sched) : option sched :=
  foldl (λ o p, s ← o; sc_exec num_wks (fst p) (snd p) s) (Some s) l.

Lemma sc_exec_reach n w c s s' : sc_reach n s → sc_exec n w c s = Some s' → sc_reach n s'.
Proof.
  unfold sc_exec. intros Hr E. destruct (n <=? w)%nat eqn:Ew; [done|]. apply Nat.leb_gt in Ew.
  destruct (sc_terminated s) eqn:Et; [done|]. destruct (sc_allowedb n w c s) eqn:Ea; [|done]. cbn in E.
  apply (reach_step n s s' w c); [done|by eapply sc_allowedb_ok; [apply reach_idle|]|]. split; [done|]. split; [done|].
  destruct (worker_next n w c s) as [|r|v op k]; [done|by simplify_eq|].
  destruct (sd_body _ _ _ _) as [[ret q]|] eqn:Eq; [|done]. destruct (k ret) as [r|] eqn:Ek; [|done].
  cbn in E. simplify_eq. by exists ret, q, r.
Qed.

Lemma sc_run_reach n l s : sc_run n l sc_start = Some s → sc_reach n s.
Proof.
  unfold sc_run. revert s. induction l as [|p l IH] using rev_ind; intros s E.
  - cbn in E. simplify_eq. constructor.
  - rewrite foldl_app in E. cbn in E. destruct (foldl _ _ l) as [s1|]; [|done]. cbn in E.
    eapply sc_exec_reach; [by apply IH|done].
Qed.

(** [l] runs, and the state it reaches passes the check. *)
Lemma sc_run_check n l (f : sched → bool) :
  (match sc_run n l sc_start with Some s => f s | None => false end) = true →
  ∃ s, sc_reach n s ∧ f s = true.
Proof. destruct (sc_run n l sc_start) as [s|] eqn:E; [|done]. intros Hf. exists s. split; [by eapply sc_run_reach|done]. Qed.

(** * Safety *)

Section safety.
Context {DQ : WorkerDeque} (num_wks : nat).
Implicit Types (s : sched) (w : nat) (k t : task).

(** C6: Whatever two or more workers do: no assertion of the scheduler fails, no
    freed descriptor is accessed and no continuation is dropped; no two workers
    run the same task; the continuation of a thread that lives and has not
    finished is at exactly one place, a worker, a deque, a joiner or an object,
    so none is lost and none is run twice; a thread with a joiner has not
    finished; every join that returned was of a thread that had finished, and no
    thread is joined twice. *)
Theorem sched_safe s :
  (2 ≤ num_wks)%nat → sc_reach num_wks s →
  (∀ w f, wk_pc (sc_wks s w) ≠ Crashed f)
  ∧ (∀ w w', wk_cur (sc_wks s w) = wk_cur (sc_wks s w') → w = w')
  ∧ (∀ t, td_life (sc_tasks s t) = Alive → td_finished (sc_tasks s t) = false →
      ∃ p, p ≠ PGone ∧ p ≠ PNone ∧ ∀ p', holds s t p' ↔ p' = p)
  ∧ (∀ t k, td_joiner (sc_tasks s t) = Some k → td_finished (sc_tasks s t) = false)
  ∧ (∀ t, t ∈ sc_joined s → td_finished (sc_tasks s t) = true) ∧ NoDup (sc_joined s).
Proof.
  intros Hn Hr. destruct (reach_good num_wks s Hn Hr) as [(loc & own & Hi) _]. split_and!.
  - intros w f E. pose proof (wo_pc _ _ _ (si_wk _ _ _ Hi w)) as Hpc. unfold pc_ok in Hpc. by rewrite E in Hpc.
  - intros w w' E. pose proof (cur_loc _ _ _ w Hi) as H1. pose proof (cur_loc _ _ _ w' Hi) as H2. congruence.
  - intros t Ha Hf. pose proof (pi_holds _ _ (si_place _ _ _ Hi) t) as Hh. exists (loc t). split_and!.
    + intros E%(Hh PGone). destruct E; congruence.
    + intros E%(Hh PNone). cbn in E. congruence.
    + intros p. rewrite Hh. naive_solver.
  - intros t k Hj. apply (oi_joiner _ _ (si_own _ _ _ Hi) t k Hj).
  - intros t Ht%(oi_done _ _ (si_own _ _ _ Hi)). by apply (oi_finished _ _ (si_own _ _ _ Hi)).
  - apply (oi_nodup _ _ (si_own _ _ _ Hi)).
Qed.

(** The victims of a steal: never the thief, and every other worker for some
    random number. *)
Theorem victim_spec cur v :
  (2 ≤ num_wks)%nat → (cur < num_wks)%nat →
  (∃ r, victim num_wks cur r = v) ↔ (v < num_wks)%nat ∧ v ≠ cur.
Proof.
  intros Hn Hc. unfold victim. split.
  - intros [r <-]. split; [apply Nat.mod_upper_bound; lia|].
    pose proof (Nat.mod_upper_bound r (num_wks - 1) ltac:(lia)) as Hr.
    destruct (Nat.lt_ge_cases (cur + r mod (num_wks - 1) + 1) num_wks) as [Hl|Hl].
    + rewrite Nat.mod_small by done. lia.
    + replace (cur + r mod (num_wks - 1) + 1)%nat with (cur + r mod (num_wks - 1) + 1 - num_wks + 1 * num_wks)%nat by lia.
      rewrite Nat.Div0.mod_add, Nat.mod_small by lia. lia.
  - intros [Hv Hne]. destruct (Nat.lt_ge_cases cur v) as [Hl|Hl].
    + exists (v - cur - 1)%nat. rewrite (Nat.mod_small _ (num_wks - 1)) by lia. rewrite Nat.mod_small by lia. lia.
    + exists (v + num_wks - cur - 1)%nat. rewrite (Nat.mod_small _ (num_wks - 1)) by lia.
      replace (cur + (v + num_wks - cur - 1) + 1)%nat with (v + 1 * num_wks)%nat by lia.
      rewrite Nat.Div0.mod_add, Nat.mod_small by lia. done.
Qed.

(** * The descriptor of a thread joined by a waiting joiner *)

(** Who changes the life of a descriptor. *)
Lemma life_step s s' w c t :
  sc_step num_wks w c s s' → td_life (sc_tasks s' t) ≠ td_life (sc_tasks s t) →
  td_life (sc_tasks s' t) = Alive ∨ wk_pc (sc_wks s w) = JoinFree t
  ∨ wk_pc (sc_wks s w) = FinishWorkers ∧ t = wk_cur (sc_wks s w).
Proof.
  intros (_ & _ & Hs) Hne. destruct (worker_next num_wks w c s) as [|r|v op k] eqn:E; [done| |].
  - subst. destruct r as [s1|f]; [|done]. cbn in Hne |- *. next_cases E; try done.
    all: upd; cases; try done; auto.
  - destruct Hs as (ret & q & r & _ & Hk & ->). destruct Hne. clear - E Hk.
    destruct r as [s1|f]; [|done]. next_cases E; repeat case_match; simplify_eq; inv_ok; done.
Qed.

Lemma joined_step s s' w c t : sc_step num_wks w c s s' → t ∈ sc_joined s → t ∈ sc_joined s'.
Proof.
  intros (_ & _ & Hs) Ht. destruct (worker_next num_wks w c s) as [|r|v op k] eqn:E; [done| |].
  - subst. destruct r as [s1|f]; [|done]. cbn. next_cases E; try done; upd; apply elem_of_app; by left.
  - destruct Hs as (ret & q & r & _ & Hk & ->). destruct r as [s1|f]; [|done].
    next_cases E; repeat case_match; simplify_eq; inv_ok; done.
Qed.

Definition sc_steps : relation sched := rtc (λ s s', ∃ w c, choice_allowed w c s ∧ sc_step num_wks w c s s').

(** The descriptor of a thread that is joined keeps its life. *)
Lemma joined_life s s' t :
  (2 ≤ num_wks)%nat → sc_reach num_wks s → sc_steps s s' → t ∈ sc_joined s → td_life (sc_tasks s t) = Alive →
  td_life (sc_tasks s' t) = Alive ∧ t ∈ sc_joined s'.
Proof.
  intros Hn Hr Hs. revert Hr. induction Hs as [|s s1 s2 (w & c & Hc & Hs) _ IH]; intros Hr Ht Ha; [done|].
  apply IH; [by eapply reach_step|by eapply joined_step|].
  destruct (decide (td_life (sc_tasks s1 t) = td_life (sc_tasks s t))) as [->|Hne]; [done|].
  destruct (reach_good num_wks s Hn Hr) as [(loc & own & Hi) _].
  pose proof (proj1 (oi_done _ _ (si_own _ _ _ Hi) t) Ht) as Hd.
  destruct (life_step _ _ _ _ _ Hs Hne) as [?|[E|[E ->]]]; [done| |].
  - pose proof (proj1 (oi_joining _ _ (si_own _ _ _ Hi) w t)) as Hj. rewrite E in Hj. specialize (Hj eq_refl). congruence.
  - pose proof (wo_pc _ _ _ (si_wk _ _ _ Hi w)) as Hpc. unfold pc_ok in Hpc. rewrite E in Hpc. destruct Hpc as [Hc' _].
    rewrite Hc', (oi_root _ _ (si_own _ _ _ Hi)) in Hd. done.
Qed.

(** A join that had to wait never deallocates: when the exit of the thread lets
    its joiner go on, the thread is joined, its handle is gone, and its
    descriptor is allocated in every later state. *)
Theorem waited_join_leaks s s1 s2 w t :
  (2 ≤ num_wks)%nat → sc_reach num_wks s → wk_pc (sc_wks s w) = Unlock t true → sc_step num_wks w CNone s s1 →
  sc_steps s1 s2 →
  (t ∈ sc_joined s2) ∧ (t ∉ sc_handles s1) ∧ td_finished (sc_tasks s1 t) = true ∧ td_life (sc_tasks s2 t) = Alive.
Proof.
  intros Hn Hr E Hs Hss. destruct (reach_good num_wks s Hn Hr) as [(loc & own & Hi) Hid].
  assert (sc_reach num_wks s1) as Hr1 by by apply (reach_step num_wks s s1 w CNone).
  assert (s1 = go_on w (log_joined t (set_lock t None s))) as Hs1.
  { destruct Hs as (_ & _ & Hs). unfold worker_next in Hs. rewrite E in Hs.
    rewrite (check_locked_ok s loc own) in Hs by (rewrite ?E; done). done. }
  destruct (locked s loc own w t Hi) as [_ Ha]; [by rewrite E|].
  pose proof (wo_pc _ _ _ (si_wk _ _ _ Hi w)) as Hpc. unfold pc_ok in Hpc. rewrite E in Hpc. destruct (Hpc eq_refl) as [Ho Hf].
  assert (t ∈ sc_joined s1) as Hj by (rewrite Hs1; upd; apply elem_of_app; right; by left).
  assert (td_life (sc_tasks s1 t) = Alive) as Ha1 by (rewrite Hs1; upd; by case_decide).
  destruct (joined_life s1 s2 t Hn Hr1 Hss Hj Ha1) as [Ha2 Hj2]. split_and!; try done.
  - rewrite Hs1. cbn. intros Hh%(oi_handle _ _ (si_own _ _ _ Hi)). congruence.
  - rewrite Hs1. upd. by case_decide.
Qed.
End safety.

(** * Runs *)

Definition sched_crashed_aborted (wk : worker) : bool := match wk_pc wk with Crashed Aborted => true | _ => false end.

(** With one worker, a thread that waits brings the worker to a steal, which
    divides by the number of the other workers. *)
Theorem one_worker_divides_by_zero :
  ∃ s, sc_reach 1 s ∧ wk_pc (sc_wks s 0%nat) = Crashed Aborted.
Proof.
  destruct (sc_run_check 1
    (map (pair O) [CNone; CNone; COp (OWait 5); CNone; CNone; CFunc true; CNone; CNone; CRand 0])
    (λ s, sched_crashed_aborted (sc_wks s O))) as (s & Hr & Hf); [vm_compute; reflexivity|].
  exists s. split; [done|]. unfold sched_crashed_aborted in Hf. destruct (wk_pc (sc_wks s O)); try done. by destruct f.
Qed.

(** A run of two workers: worker 1 steals the main thread, which waits for its
    child on worker 0. *)
Definition demo_join : list (nat * sc_choice) :=
  [(0, CNone); (0, CNone); (0, COp (OFork 1)); (0, CNone); (1, CNone); (1, CRand 3); (1, CNone);
   (1, COp (OJoin (Ult 1))); (1, CNone); (1, CNone); (1, CNone); (1, CNone); (1, CNone);
   (0, COp OExit); (0, CNone); (0, CNone); (0, CNone); (0, CNone)]%nat.

Definition demo_join_check (s : sched) : bool :=
  bool_decide (wk_cur (sc_wks s 0%nat) = Ult 0) && bool_decide (wk_cur (sc_wks s 1%nat) = Root 1)
  && negb (sc_terminated s) && match wk_pc (sc_wks s 0%nat) with Unlock (Ult 1) true => true | _ => false end.

Lemma demo_join_reach : ∃ s, sc_reach 2 s ∧ demo_join_check s = true.
Proof. apply (sc_run_check 2 demo_join). vm_compute. reflexivity. Qed.

Lemma sched_safe_witness :
  ∃ s, sc_reach 2 s ∧ demo_join_check s = true ∧ (∀ w w', wk_cur (sc_wks s w) = wk_cur (sc_wks s w') → w = w').
Proof.
  destruct demo_join_reach as (s & Hr & Hf). exists s. split; [exact Hr|]. split; [exact Hf|].
  exact (proj1 (proj2 (sched_safe 2 s (le_n 2) Hr))).
Defined.

Lemma sched_progress_witness :
  ∃ s, sc_reach 2 s ∧ demo_join_check s = true ∧
  (can_step 2 s 0 ∨ wk_pc (sc_wks s 0%nat) = Stopped
   ∨ wk_pc (sc_wks s 0%nat) = FinishWorkers ∧ others_stopped 2 0 s = false
   ∨ ∃ t v, waits_lock (sc_wks s 0%nat) = Some t ∧ td_lock (sc_tasks s t) = Some v ∧ v ≠ 0%nat ∧ (v < 2)%nat ∧ can_step 2 s v).
Proof.
  destruct demo_join_reach as (s & Hr & Hf). exists s. split; [exact Hr|]. split; [exact Hf|].
  apply (sched_progress 2 s 0 (le_n 2) Hr); [|lia].
  unfold demo_join_check in Hf. by destruct (sc_terminated s); rewrite ?andb_false_r in Hf.
Defined.

Lemma victim_spec_witness :
  (∃ r, victim 4 1 r = 0%nat) ↔ (0 < 4)%nat ∧ 0%nat ≠ 1%nat.
Proof. apply (victim_spec 4 1 0); lia. Defined.

Lemma waited_join_leaks_witness :
  ∃ s s1, sc_reach 2 s ∧ sc_step 2 0 CNone s s1 ∧ td_life (sc_tasks s1 (Ult 1)) = Alive ∧ Ult 1 ∈ sc_joined s1.
Proof.
  destruct demo_join_reach as (s & Hr & Hf).
  assert (wk_pc (sc_wks s 0%nat) = Unlock (Ult 1) true) as E.
  { unfold demo_join_check in Hf. apply andb_prop in Hf as [_ Hf]. destruct (wk_pc (sc_wks s 0%nat)); try done.
    by destruct t as [|[|[|]]], joined. }
  assert (sc_terminated s = false) as Ht.
  { unfold demo_join_check in Hf. by destruct (sc_terminated s); rewrite ?andb_false_r in Hf. }
  assert (∃ s1, sc_step 2 0 CNone s s1) as [s1 Hs].
  { unfold sc_step, worker_next. rewrite E. eexists. split; [lia|]. split; [exact Ht|reflexivity]. }
  destruct (waited_join_leaks 2 s s1 s1 0 (Ult 1) (le_n 2) Hr E Hs (rtc_refl _ _)) as (Hj & _ & _ & Ha).
  by exists s, s1.
Defined.
