(* ===== verification/Mutex.v ===== *)
(** The mutex, the condition variable and the barrier of cmpth:
    sync/basic_mcs_mutex.hpp, basic_mcs_cv.hpp and basic_cv_barrier.hpp, for any
    number of threads, over the abstract queue of lock waiters and suspended
    threads.

    A thread that finds the mutex locked suspends in the node before its own; a
    waiter of the condition variable suspends in an entry on its stack, here named
    by the thread. One program counter per access to shared memory; the code
    inside the critical section is chosen freely. *)
From Stdlib Require Import ZArith Lia.
From stdpp Require Import base tactics functions list.
From S2P Require Import Prelude.
From S2P Require Import Linear.
From S2P Require Import SyncQueue.

(** Why a thread locks the mutex: for its own critical section, to arrive at the
    barrier, or to check the generation of the barrier again. *)
Inductive goal := GUser | GArrive | GCheck (gen : Z).

(** Where a thread is; the comments name the code that comes next. *)
Inductive mx_pc :=
| MIdle
| MHolds                                      (** inside its critical section *)
| MFailed
(* lock; [relock] at the end of a wait *)
| MStartLock (relock : bool) (g : goal)       (** allocate, start_lock *)
| MWaitPrev (prev cur : Z) (relock : bool) (g : goal)  (** wait_with: save the continuation in prev *)
| MOnLock (prev cur : Z) (relock : bool) (g : goal)    (** on_lock: set_next *)
| MBlocked (prev cur : Z) (relock : bool) (g : goal)   (** suspended in prev *)
| MResumed (cur : Z) (relock : bool) (g : goal)        (** the assertion on get_head *)
| MEndWait (g : goal)                         (** the end of wait: the entry is destroyed *)
(* unlock *)
| MUnlock                                     (** get_head *)
| MTryUnlock (head : Z)                       (** try_unlock *)
| MFollow (head : Z)                          (** try_follow_head *)
| MEnter (head : Z)                           (** cur->sth.enter *)
| MFree (head : Z)                            (** deallocate *)
(* wait of the condition variable, with unlock_and_wait *)
| WPush (g : goal)                            (** e.next = waiting_; waiting_ = &e *)
| WUnlock (g : goal)                          (** get_head *)
| WCheck (g : goal) (head : Z)                (** is_unlockable *)
| WSave (g : goal) (head : Z)                 (** wait_with: save the continuation in e *)
| WOnUnlock (g : goal) (head : Z)             (** on_unlock_and_wait: try_unlock *)
| WAssert (g : goal) (head : Z)               (** the assertion on get_head *)
| WFollow (g : goal) (head : Z)               (** try_follow_head *)
| WSwap (g : goal) (head : Z)                 (** saved_sth.swap(cur->sth) *)
| WBlocked (g : goal) (head : Z)              (** suspended in e *)
| WFree (g : goal) (head : Z)                 (** deallocate *)
(* notify_one, notify_all *)
| NStart (all : bool) (g : goal)              (** we = waiting_ *)
| NNotify (we : nat) (all : bool) (g : goal)  (** we->sth.notify *)
| NNext (we : nat) (all : bool) (g : goal)    (** we->next *)
| NClear (g : goal)                           (** waiting_ = nullptr *)
(* arrive_and_wait *)
| BArrive                                     (** ++cur_ < num_ *)
| BCheck (gen : Z).                           (** gen != gen_ *)

(** [wait_entry]; an entry is alive while its thread is in [wait]. *)
Record entry := Entry { en_alive : bool; en_sth : option nat; en_next : option nat }.

Record mx := Mx {
  mx_queue : sq_nodes;             (** core_ *)
  mx_used : Z → bool;              (** the nodes that are allocated *)
  mx_sth : Z → option nat;         (** the sth of the nodes *)
  mx_waiting : option nat;         (** waiting_ *)
  mx_entries : nat → entry;
  mx_cur : Z;                      (** cur_ *)
  mx_gen : Z;                      (** gen_ *)
  mx_pcs : nat → mx_pc;
  mx_arrived : list (nat * Z);     (** the arrivals, with the generation read *)
  mx_left : list (nat * Z);        (** the threads that left the barrier *)
}.

Definition mset_queue q s := Mx q (mx_used s) (mx_sth s) (mx_waiting s) (mx_entries s) (mx_cur s) (mx_gen s) (mx_pcs s) (mx_arrived s) (mx_left s).
Definition set_used n b s := Mx (mx_queue s) (<[n := b]> (mx_used s)) (mx_sth s) (mx_waiting s) (mx_entries s) (mx_cur s) (mx_gen s) (mx_pcs s) (mx_arrived s) (mx_left s).
Definition mset_sth n v s := Mx (mx_queue s) (mx_used s) (<[n := v]> (mx_sth s)) (mx_waiting s) (mx_entries s) (mx_cur s) (mx_gen s) (mx_pcs s) (mx_arrived s) (mx_left s).
Definition set_waiting w s := Mx (mx_queue s) (mx_used s) (mx_sth s) w (mx_entries s) (mx_cur s) (mx_gen s) (mx_pcs s) (mx_arrived s) (mx_left s).
Definition set_entry t e s := Mx (mx_queue s) (mx_used s) (mx_sth s) (mx_waiting s) (<[t := e]> (mx_entries s)) (mx_cur s) (mx_gen s) (mx_pcs s) (mx_arrived s) (mx_left s).
Definition set_barrier c g s := Mx (mx_queue s) (mx_used s) (mx_sth s) (mx_waiting s) (mx_entries s) c g (mx_pcs s) (mx_arrived s) (mx_left s).
Definition set_mpc t p s := Mx (mx_queue s) (mx_used s) (mx_sth s) (mx_waiting s) (mx_entries s) (mx_cur s) (mx_gen s) (<[t := p]> (mx_pcs s)) (mx_arrived s) (mx_left s).
Definition log_arrival t g s := Mx (mx_queue s) (mx_used s) (mx_sth s) (mx_waiting s) (mx_entries s) (mx_cur s) (mx_gen s) (mx_pcs s) (mx_arrived s ++ [(t, g)]) (mx_left s).
Definition log_leave t g s := Mx (mx_queue s) (mx_used s) (mx_sth s) (mx_waiting s) (mx_entries s) (mx_cur s) (mx_gen s) (mx_pcs s) (mx_arrived s) (mx_left s ++ [(t, g)]).

Definition set_esth t v s := let e := mx_entries s t in set_entry t (Entry (en_alive e) v (en_next e)) s.

Section mutex.
Context (num : Z).

(** * Suspended threads *)

(** Saves the continuation of [t] in the node, or in its entry; there must be
    none. *)
Definition save_node (n : Z) (t : nat) (s : mx) : result mx :=
  _ ← assert_ (bool_decide (mx_sth s n = None)); Ok (mset_sth n (Some t) s).

Definition save_entry (t : nat) (s : mx) : result mx :=
  _ ← assert_ (bool_decide (en_sth (mx_entries s t) = None)); Ok (set_esth t (Some t) s).

(** Where a suspended thread goes on. *)
Definition mx_wake (v : nat) (s : mx) : result mx :=
  match mx_pcs s v with
  | MBlocked _ cur rl g => Ok (set_mpc v (MResumed cur rl g) s)
  | WBlocked g h => Ok (set_mpc v (WFree g h) s)
  | _ => Fail AssertionFailure
  end.

(** [enter], [notify] and [swap] take the continuation from where it is. *)
Definition take_node (n : Z) (s : mx) : result (nat * mx) :=
  match mx_sth s n with
  | Some v => s ← mx_wake v (mset_sth n None s); Ok (v, s)
  | None => Fail AssertionFailure
  end.

(** An access to the entry of a thread, which must be alive. *)
Definition touch_entry (w : nat) (s : mx) : result entry :=
  let e := mx_entries s w in if en_alive e then Ok e else Fail OutOfBounds.

Definition notify_entry (w : nat) (s : mx) : result mx :=
  e ← touch_entry w s;
  match en_sth e with
  | Some v => mx_wake v (set_esth w None s)
  | None => Fail AssertionFailure
  end.

(** * Steps *)

(** What the thread does that holds the mutex. *)
Definition goal_pc (g : goal) : mx_pc :=
  match g with GUser => MHolds | GArrive => BArrive | GCheck gen => BCheck gen end.

(** [lock] returns. *)
Definition locked_pc (relock : bool) (g : goal) : mx_pc := if relock then MEndWait g else goal_pc g.

(** What a thread does next that is idle or in its critical section. *)
Inductive mx_call := CLock | CArrive | CUnlock | CWait | CNotifyOne | CNotifyAll.

Definition mx_start (t : nat) (c : mx_call) (s : mx) : option mx :=
  match mx_pcs s t, c with
  | MIdle, CLock => Some (set_mpc t (MStartLock false GUser) s)
  | MIdle, CArrive => Some (set_mpc t (MStartLock false GArrive) s)
  | MHolds, CUnlock => Some (set_mpc t MUnlock s)
  | MHolds, CWait => Some (set_mpc t (WPush GUser) s)
  | MHolds, CNotifyOne => Some (set_mpc t (NStart false GUser) s)
  | MHolds, CNotifyAll => Some (set_mpc t (NStart true GUser) s)
  | _, _ => None
  end.

Definition get_head (s : mx) : option Z := fst <$> head (mx_queue s).

(** A step is local, or an operation of the queue with a continuation. *)
Inductive mx_next :=
| XBlocked
| XLocal (r : result mx)
| XQueue (op : sq_op) (k : sq_ret → option (result mx)).

(** [arrive_and_wait] with the mutex. *)
Definition arrive (t : nat) (s : mx) : mx :=
  let gen := mx_gen s in
  let s := log_arrival t gen s in
  if mx_cur s + 1 <? num then set_mpc t (BCheck gen) (set_barrier (mx_cur s + 1) gen s)
  else set_mpc t (NStart true GArrive) (set_barrier 0 (gen + 1) (log_leave t gen s)).

Definition mx_thread (t : nat) (s : mx) : mx_next :=
  let go p := Ok (set_mpc t p s) in
  match mx_pcs s t with
  (* lock *)
  | MStartLock rl g =>
      XQueue StartLock (λ r, match r with
        | RLocked cur =>
            if mx_used s cur then None else Some (Ok (set_mpc t (locked_pc rl g) (set_used cur true s)))
        | REnqueued prev cur =>
            if mx_used s cur then None else Some (Ok (set_mpc t (MWaitPrev prev cur rl g) (set_used cur true s)))
        | _ => None end)
  | MWaitPrev prev cur rl g => XLocal (s ← save_node prev t s; Ok (set_mpc t (MOnLock prev cur rl g) s))
  | MOnLock prev cur rl g =>
      XQueue (SetNext prev cur) (λ r, match r with RSet => Some (go (MBlocked prev cur rl g)) | _ => None end)
  | MResumed cur rl g => XLocal (_ ← assert_ (bool_decide (get_head s = Some cur)); go (locked_pc rl g))
  | MEndWait g =>
      XLocal (_ ← assert_ (bool_decide (en_sth (mx_entries s t) = None));
              Ok (set_mpc t (goal_pc g) (set_entry t (Entry false None None) s)))
  (* unlock *)
  | MUnlock => XLocal (match get_head s with Some h => go (MTryUnlock h) | None => Fail AssertionFailure end)
  | MTryUnlock h =>
      XQueue (TryUnlock h) (λ r, match r with
        | RBool b => Some (go (if b : bool then MFree h else MFollow h)) | _ => None end)
  | MFollow h =>
      XQueue (TryFollowHead h) (λ r, match r with
        | RNext n => Some (go (if n is Some _ then MEnter h else MFollow h)) | _ => None end)
  | MEnter h => XLocal (r ← take_node h s; Ok (set_mpc t (MFree h) (snd r)))
  | MFree h => XLocal (Ok (set_mpc t MIdle (set_used h false s)))
  (* wait *)
  | WPush g => XLocal (Ok (set_mpc t (WUnlock g) (set_waiting (Some t) (set_entry t (Entry true None (mx_waiting s)) s))))
  | WUnlock g => XLocal (match get_head s with Some h => go (WCheck g h) | None => Fail AssertionFailure end)
  | WCheck g h =>
      XQueue (IsUnlockable h) (λ r, match r with
        | RBool b => Some (go (if b : bool then WSave g h else WFollow g h)) | _ => None end)
  | WSave g h => XLocal (s ← save_entry t s; Ok (set_mpc t (WOnUnlock g h) s))
  | WOnUnlock g h =>
      XQueue (TryUnlock h) (λ r, match r with
        | RBool true => Some (go (WBlocked g h))
        | RBool false =>
            Some (_ ← assert_ (bool_decide (is_Some (en_sth (mx_entries s t))));
                  Ok (set_mpc t (WAssert g h) (set_esth t None s)))
        | _ => None end)
  | WAssert g h => XLocal (_ ← assert_ (bool_decide (get_head s = Some h)); go (WFollow g h))
  | WFollow g h =>
      XQueue (TryFollowHead h) (λ r, match r with
        | RNext n => Some (go (if n is Some _ then WSwap g h else WFollow g h)) | _ => None end)
  | WSwap g h =>
      XLocal (r ← take_node h s; s ← save_entry t (snd r); Ok (set_mpc t (WBlocked g h) s))
  | WFree g h => XLocal (Ok (set_mpc t (MStartLock true g) (set_used h false s)))
  (* notify *)
  | NStart all g =>
      XLocal (match mx_waiting s with
              | Some w => go (NNotify w all g)
              | None => go (if all : bool then NClear g else MHolds)
              end)
  | NNotify w all g => XLocal (s ← notify_entry w s; Ok (set_mpc t (NNext w all g) s))
  | NNext w all g =>
      XLocal (e ← touch_entry w s;
              if all : bool then go (match en_next e with Some w => NNotify w true g | None => NClear g end)
              else Ok (set_mpc t MHolds (set_waiting (en_next e) s)))
  | NClear g => XLocal (Ok (set_mpc t (match g with GArrive => MUnlock | _ => MHolds end) (set_waiting None s)))
  (* barrier *)
  | BArrive => XLocal (Ok (arrive t s))
  | BCheck gen =>
      XLocal (Ok (if gen =? mx_gen s then set_mpc t (WPush (GCheck gen)) s
                  else set_mpc t MUnlock (log_leave t gen s)))
  | _ => XBlocked
  end.

Definition mx_settle (t : nat) (s : mx) (r : result mx) : mx :=
  match r with Ok s => s | Fail _ => set_mpc t MFailed s end.

Inductive mx_step (t : nat) (s : mx) : mx → Prop :=
| mx_step_call c s' : mx_start t c s = Some s' → mx_step t s s'
| mx_step_local r : mx_thread t s = XLocal r → mx_step t s (mx_settle t s r)
| mx_step_queue op k ret q r :
    mx_thread t s = XQueue op k → sq_apply t op (mx_queue s) ret q → k ret = Some r →
    mx_step t s (mset_queue q (mx_settle t s r)).

Definition mx_init : mx :=
  Mx [] (λ _, false) (λ _, None) None (λ _, Entry false None None) 0 0 (λ _, MIdle) [] [].

Inductive mx_reach : mx → Prop :=
| mx_reach_init : mx_reach mx_init
| mx_reach_step s s' t : mx_reach s → mx_step t s s' → mx_reach s'.
End mutex.
