(* ===== verification/MutexInv.v ===== *)
(** The invariant of the mutex, the condition variable and the barrier: where
    every suspended thread is, which nodes are allocated, what the list of waiting
    entries holds, and how many threads arrived. *)
From Stdlib Require Import ZArith Lia.
From stdpp Require Import base tactics functions list.
From S2P Require Import Prelude.
From S2P Require Import Linear.
From S2P Require Import SyncQueue.
From S2P Require Import LockQueue.
From S2P Require Import Mutex.

(** * The lock *)

Definition mx_has_lock (p : mx_pc) : bool :=
  match p with
  | MHolds | MResumed _ _ _ | MEndWait _ | MUnlock | MTryUnlock _ | MFollow _ | MEnter _
  | WPush _ | WUnlock _ | WCheck _ _ | WSave _ _ | WOnUnlock _ _ | WAssert _ _ | WFollow _ _ | WSwap _ _
  | NStart _ _ | NNotify _ _ _ | NNext _ _ _ | NClear _ | BArrive | BCheck _ => true
  | _ => false
  end.

Definition mx_linking (p : mx_pc) : option (Z * Z) :=
  match p with MWaitPrev m n _ _ | MOnLock m n _ _ => Some (m, n) | _ => None end.

Definition mx_pc_head (p : mx_pc) : option Z :=
  match p with
  | MResumed h _ _ | MTryUnlock h | MFollow h | WCheck _ h | WSave _ h | WOnUnlock _ h | WAssert _ h | WFollow _ h => Some h
  | _ => None
  end.

Abbreviation mx_lock_inv := (lock_inv mx_has_lock mx_linking mx_pc_head).

(** * The nodes *)

(** The node in which the thread is saved. *)
Definition waits_in (p : mx_pc) : option Z :=
  match p with MBlocked m _ _ _ | MOnLock m _ _ _ => Some m | _ => None end.

(** The node the thread has to deallocate. *)
Definition owned (p : mx_pc) : option Z :=
  match p with MEnter h | MFree h | WSwap _ h | WBlocked _ h | WFree _ h => Some h | _ => None end.

(** The node whose thread it has to resume. *)
Definition entering (p : mx_pc) : option Z :=
  match p with MEnter h | WSwap _ h => Some h | _ => None end.

(** The thread is suspended in [m] until its node [n] is the head. *)
Definition blocked_in (p : mx_pc) : option (Z * Z) :=
  match p with MBlocked m n _ _ => Some (m, n) | _ => None end.

Definition linked_pair (q : sq_nodes) (m n : Z) : Prop := ∃ i b, q !! i = Some (m, true) ∧ q !! S i = Some (n, b).

Record mx_node_inv (q : sq_nodes) (used : Z → bool) (sth : Z → option nat) (pcs : nat → mx_pc) : Prop := {
  nv_sth m v : sth m = Some v ↔ waits_in (pcs v) = Some m;
  nv_used n : used n = true ↔ n ∈ q.*1 ∨ ∃ t, owned (pcs t) = Some n;
  nv_owned t n : owned (pcs t) = Some n → n ∉ q.*1;
  nv_unique t u n : owned (pcs t) = Some n → owned (pcs u) = Some n → t = u;
  nv_blocked v m n : blocked_in (pcs v) = Some (m, n) →
    linked_pair q m n ∨ (∃ u, entering (pcs u) = Some m) ∧ fst <$> head q = Some n;
  nv_linked m n : linked_pair q m n → ∃ v, blocked_in (pcs v) = Some (m, n);
  nv_entering u m : entering (pcs u) = Some m → ∃ v n, blocked_in (pcs v) = Some (m, n) ∧ fst <$> head q = Some n;
}.

(** * The entries *)

(** In a wait and not notified. *)
Definition unnotified (p : mx_pc) : bool :=
  match p with
  | WUnlock _ | WCheck _ _ | WSave _ _ | WOnUnlock _ _ | WAssert _ _ | WFollow _ _ | WSwap _ _ | WBlocked _ _ => true
  | _ => false
  end.

(** Notified, on the way out of the wait. *)
Definition relocking (p : mx_pc) : bool :=
  match p with
  | WFree _ _ | MEndWait _ => true
  | MStartLock rl _ | MWaitPrev _ _ rl _ | MOnLock _ _ rl _ | MBlocked _ _ rl _ | MResumed _ rl _ => rl
  | _ => false
  end.

Definition saved_entry (p : mx_pc) : bool := match p with WOnUnlock _ _ | WBlocked _ _ => true | _ => false end.

(** The list of [waiting_]. *)
Fixpoint chain (entries : nat → entry) (o : option nat) (l : list nat) : Prop :=
  match l with
  | [] => o = None
  | t :: l => o = Some t ∧ chain entries (en_next (entries t)) l
  end.

(** What a notifier has done ([dn]) and not done ([rest]). *)
Definition cursor (p : mx_pc) (dn rest : list nat) : Prop :=
  match p with
  | NNotify w all _ => (∃ rest', rest = w :: rest') ∧ (all = false → dn = [])
  | NNext w all _ => ∃ dn', dn = dn' ++ [w] ∧ (all = false → dn' = [])
  | NClear _ => rest = []
  | _ => dn = []
  end.

Definition entry_list (entries : nat → entry) (waiting : option nat) (pcs : nat → mx_pc) (dn rest : list nat) : Prop :=
  chain entries waiting (dn ++ rest) ∧ NoDup (dn ++ rest)
  ∧ (∀ t, unnotified (pcs t) = true ↔ t ∈ rest)
  ∧ (∀ t, t ∈ dn → relocking (pcs t) = true)
  ∧ (∀ u, mx_has_lock (pcs u) = true → cursor (pcs u) dn rest)
  ∧ ((∀ u, mx_has_lock (pcs u) = false) → dn = []).

Record mx_entry_inv (entries : nat → entry) (waiting : option nat) (pcs : nat → mx_pc) : Prop := {
  ev_alive t : en_alive (entries t) = unnotified (pcs t) || relocking (pcs t);
  ev_sth t v : en_sth (entries t) = Some v ↔ v = t ∧ saved_entry (pcs t) = true;
  ev_list : ∃ dn rest, entry_list entries waiting pcs dn rest;
}.

(** * The barrier *)

Definition pc_goal (p : mx_pc) : option goal :=
  match p with
  | MStartLock _ g | MWaitPrev _ _ _ g | MOnLock _ _ _ g | MBlocked _ _ _ g | MResumed _ _ g | MEndWait g
  | WPush g | WUnlock g | WCheck g _ | WSave g _ | WOnUnlock g _ | WAssert g _ | WFollow g _ | WSwap g _
  | WBlocked g _ | WFree g _ => Some g
  | BCheck gen => Some (GCheck gen)
  | _ => None
  end.

Definition pc_gen (p : mx_pc) : option Z :=
  match pc_goal p with Some (GCheck g) => Some g | _ => None end.

(** About to sleep, or asleep. *)
Definition sleepy (p : mx_pc) : bool := match p with WPush _ => true | p => unnotified p end.

Definition wakes_all (p : mx_pc) : bool :=
  match p with NStart true GArrive | NNotify _ true GArrive | NNext _ true GArrive => true | _ => false end.

(** The goal of a notifier is the barrier's only if it notifies all. *)
Definition goal_fits (p : mx_pc) : Prop :=
  match p with NStart all g | NNotify _ all g | NNext _ all g => all = false → g = GUser | _ => True end.

Definition arrivals (g : Z) (l : list (nat * Z)) : Z := Z.of_nat (length (filter (λ x, x.2 = g) l)).

Section barrier.
Context (num : Z).

Record mx_barrier_inv (cur gen : Z) (pcs : nat → mx_pc) (arrived left : list (nat * Z)) : Prop := {
  bv_cur : 0 ≤ cur < num;
  bv_count g : arrivals g arrived = (if g <? 0 then 0 else if g <? gen then num else if g =? gen then cur else 0);
  bv_gen0 : 0 ≤ gen;
  bv_gen t g : pc_gen (pcs t) = Some g → 0 ≤ g ≤ gen ∧ (t, g) ∈ arrived;
  bv_left t g : (t, g) ∈ left → 0 ≤ g < gen ∧ (t, g) ∈ arrived;
  bv_sleep t g : sleepy (pcs t) = true → pc_gen (pcs t) = Some g → g < gen → ∃ u, wakes_all (pcs u) = true;
  bv_fits t : goal_fits (pcs t);
}.

Record mx_inv (s : mx) : Prop := {
  mv_lock : mx_lock_inv (mx_queue s) (mx_pcs s);
  mv_node : mx_node_inv (mx_queue s) (mx_used s) (mx_sth s) (mx_pcs s);
  mv_entry : mx_entry_inv (mx_entries s) (mx_waiting s) (mx_pcs s);
  mv_barrier : mx_barrier_inv (mx_cur s) (mx_gen s) (mx_pcs s) (mx_arrived s) (mx_left s);
  mv_failed t : mx_pcs s t ≠ MFailed;
}.
End barrier.
