(* ===== verification/MutexSafe.v ===== *)
(** Every step keeps the invariant of the mutex, the condition variable and the
    barrier, and fails no assertion. *)
From Stdlib Require Import ZArith Lia.
From stdpp Require Import base tactics functions list.
From S2P Require Import Prelude.
From S2P Require Import Linear.
From S2P Require Import SyncQueue.
From S2P Require Import LockQueue.
From S2P Require Import Mutex.
From S2P Require Import MutexInv.

Ltac case_thread u t :=
  destruct (decide (u = t)) as [->|?];
  repeat first [rewrite fn_lookup_insert | rewrite (fn_lookup_insert_ne (A := nat)) by done].

Section frames.
Implicit Types (q : sq_nodes) (pcs : nat → mx_pc) (t u v w : nat) (m n h : Z) (p : mx_pc).

(** * Steps that leave a part as it is *)

Lemma lock_same q pcs t p :
  mx_lock_inv q pcs → mx_has_lock p = mx_has_lock (pcs t) → mx_linking p = mx_linking (pcs t) →
  (∀ h, mx_pc_head p = Some h → mx_pc_head (pcs t) = Some h ∨ fst <$> head q = Some h) →
  mx_lock_inv q (<[t := p]> pcs).
Proof.
  intros Hi Hl Hk Hh. apply (lock_frame q pcs); [done|intros u; by case_thread u t..|].
  intros u h. case_thread u t; [apply Hh|by left].
Qed.

Lemma node_same q used sth pcs t p :
  mx_node_inv q used sth pcs → owned p = owned (pcs t) → waits_in p = waits_in (pcs t) →
  entering p = entering (pcs t) → blocked_in p = blocked_in (pcs t) → mx_node_inv q used sth (<[t := p]> pcs).
Proof.
  intros [H1 H2 H3 H4 H5 H6 H7] Eo Ew Ee Eb.
  assert (∀ u, owned (<[t := p]> pcs u) = owned (pcs u)) as Ho by (intros u; by case_thread u t).
  assert (∀ u, waits_in (<[t := p]> pcs u) = waits_in (pcs u)) as Hw by (intros u; by case_thread u t).
  assert (∀ u, entering (<[t := p]> pcs u) = entering (pcs u)) as He by (intros u; by case_thread u t).
  assert (∀ u, blocked_in (<[t := p]> pcs u) = blocked_in (pcs u)) as Hb by (intros u; by case_thread u t).
  constructor; intros *; rewrite ?Ho, ?Hw, ?He, ?Hb; try setoid_rewrite Ho; try setoid_rewrite He; try setoid_rewrite Hb; eauto.
Qed.

Lemma entry_same entries waiting pcs t p :
  mx_entry_inv entries waiting pcs → unnotified p = unnotified (pcs t) → relocking p = relocking (pcs t) →
  saved_entry p = saved_entry (pcs t) →
  (mx_has_lock (pcs t) = false → mx_has_lock p = true → ∀ dn rest, entry_list entries waiting pcs dn rest → cursor p dn rest) →
  (mx_has_lock (pcs t) = true → ∀ dn rest, entry_list entries waiting pcs dn rest → cursor (pcs t) dn rest →
    if mx_has_lock p then cursor p dn rest else dn = []) →
  mx_entry_inv entries waiting (<[t := p]> pcs).
Proof.
  intros [H1 H2 (dn & rest & Hl)] Eu Er Es Hnew Hold.
  assert (∀ u, unnotified (<[t := p]> pcs u) = unnotified (pcs u)) as Hu by (intros u; by case_thread u t).
  assert (∀ u, relocking (<[t := p]> pcs u) = relocking (pcs u)) as Hr by (intros u; by case_thread u t).
  assert (∀ u, saved_entry (<[t := p]> pcs u) = saved_entry (pcs u)) as Hs by (intros u; by case_thread u t).
  constructor; [intros u; by rewrite Hu, Hr|intros u v; by rewrite Hs|].
  exists dn, rest. pose proof Hl as (Hc & Hn & Hp & Hd & Hcu & Hno). split_and!; try done.
  - intros u. by rewrite Hu.
  - intros u Hin. rewrite Hr. by apply Hd.
  - intros u. case_thread u t; [|apply Hcu]. intros Hp'. destruct (mx_has_lock (pcs t)) eqn:E.
    + specialize (Hold eq_refl dn rest Hl (Hcu t E)). by rewrite Hp' in Hold.
    + by apply Hnew.
  - intros Hf. destruct (mx_has_lock (pcs t)) eqn:E.
    + specialize (Hold eq_refl dn rest Hl (Hcu t E)). specialize (Hf t). rewrite fn_lookup_insert in Hf. by rewrite Hf in Hold.
    + apply Hno. intros u. specialize (Hf u). destruct (decide (u = t)) as [->|Hne]; [done|]. by rewrite fn_lookup_insert_ne in Hf.
Qed.

(** Threads that do not notify. *)
Lemma entry_plain entries waiting pcs t p :
  mx_entry_inv entries waiting pcs → unnotified p = unnotified (pcs t) → relocking p = relocking (pcs t) →
  saved_entry p = saved_entry (pcs t) →
  (mx_has_lock p = true → mx_has_lock (pcs t) = false → (∀ u, mx_has_lock (pcs u) = false)
    ∨ ∃ u, mx_has_lock (pcs u) = true ∧ ∀ dn rest, cursor (pcs u) dn rest = (dn = [])) →
  (∀ dn rest, cursor p dn rest = (dn = [])) → (∀ dn rest, cursor (pcs t) dn rest = (dn = [])) →
  mx_entry_inv entries waiting (<[t := p]> pcs).
Proof.
  intros Hi Hu Hr Hs Hl Hp Hp'. apply entry_same; try done.
  - intros Hf Hlp dn rest (_ & _ & _ & _ & Hcu & Hno). rewrite Hp. destruct (Hl Hlp Hf) as [?|(u & Hlu & Eu)]; [auto|].
    specialize (Hcu u Hlu). by rewrite Eu in Hcu.
  - intros _ dn rest _ Hc. rewrite Hp' in Hc. rewrite Hp. by case_match.
Qed.

Lemma barrier_same num cur gen pcs arrived left t p :
  mx_barrier_inv num cur gen pcs arrived left → (pc_gen p = pc_gen (pcs t) ∨ pc_gen p = None) →
  (sleepy p = true → pc_gen p ≠ None → sleepy (pcs t) = true) →
  (wakes_all (pcs t) = true → wakes_all p = true ∨ ∀ u, u ≠ t → sleepy (pcs u) = false) → goal_fits p →
  mx_barrier_inv num cur gen (<[t := p]> pcs) arrived left.
Proof.
  intros [H1 H2 H3 H4 H5 H6 H7] Hg Hs Hw Hf. constructor; try done.
  - intros u g. case_thread u t; [|apply H4]. intros Eg. apply H4. destruct Hg as [Hg|Hg]; congruence.
  - intros u g Hsl Eg Hlt.
    assert (sleepy (pcs u) = true ∧ pc_gen (pcs u) = Some g) as [Hsl' Eg'].
    { revert Hsl Eg. case_thread u t; [|done]. intros Hsl Eg. split; [apply Hs; congruence|]. destruct Hg as [Hg|Hg]; congruence. }
    destruct (H6 u g Hsl' Eg' Hlt) as [v Hv]. exists v. case_thread v t; [|done].
    destruct (Hw Hv) as [?|Hu]; [done|]. destruct (decide (u = t)) as [->|Hne]; [|by rewrite Hu in Hsl'].
    exfalso. revert Hv Hsl'. destruct (pcs t) as []; cbn; try done; by destruct all.
  - intros u. case_thread u t; [done|apply H7].
Qed.

(** * The nodes *)

Lemma linked_nil m n : ¬ linked_pair [] m n.
Proof. by intros (i & b & H & _). Qed.

Lemma linked_one h m n : ¬ linked_pair [(h, false)] m n.
Proof. intros (i & b & H1 & H2). by destruct i as [|[]]. Qed.

Lemma linked_snoc q l n m' n' : linked_pair ((q ++ [(l, false)]) ++ [(n, false)]) m' n' ↔ linked_pair (q ++ [(l, false)]) m' n'.
Proof.
  split.
  - intros (i & b & H1 & H2). exists i, b.
    assert (S i < length (q ++ [(l, false)]))%nat as Hlt.
    { pose proof (lookup_lt_Some _ _ _ H2) as Hlt. rewrite !length_app in *. cbn in *.
      destruct (decide (S i = length q + 1)%nat) as [E|]; [|lia].
      rewrite lookup_app_l in H1 by (rewrite length_app; cbn; lia).
      assert (i = length q) as -> by lia. by rewrite lookup_app_r, Nat.sub_diag in H1. }
    rewrite lookup_app_l in H1 by lia. by rewrite lookup_app_l in H2.
  - intros (i & b & H1 & H2). exists i, b. by rewrite !(lookup_app_l_Some _ _ _ _ H1), (lookup_app_l_Some _ _ _ _ H2).
Qed.

Lemma linked_tail h n b q m' n' :
  linked_pair ((h, true) :: (n, b) :: q) m' n' ↔ m' = h ∧ n' = n ∨ linked_pair ((n, b) :: q) m' n'.
Proof.
  split.
  - intros (i & b' & H1 & H2). destruct i as [|i]; cbn in *; [left; by simplify_eq|right; by exists i, b'].
  - intros [[-> ->]|(i & b' & H1 & H2)]; [by exists 0%nat, b|by exists (S i), b'].
Qed.

Lemma linked_link q1 m n b q2 m' n' :
  linked_pair (q1 ++ (m, true) :: (n, b) :: q2) m' n'
  ↔ m' = m ∧ n' = n ∨ linked_pair (q1 ++ (m, false) :: (n, b) :: q2) m' n'.
Proof.
  split.
  - intros (i & b' & H1 & H2). rewrite link_lookup in H1, H2. destruct (decide (i = length q1)) as [->|Hi].
    + left. rewrite decide_False in H2 by lia. rewrite lookup_app_r in H2 by lia.
      replace (S (length q1) - length q1)%nat with 1%nat in H2 by lia. cbn in H2. by simplify_eq.
    + right. exists i. destruct (decide (S i = length q1)) as [E|]; [|eauto]. simplify_eq. exists false. split; [done|].
      by rewrite E, lookup_app_r, Nat.sub_diag.
  - intros [[-> ->]|(i & b' & H1 & H2)].
    + exists (length q1), b. rewrite !link_lookup, decide_True, decide_False by lia. split; [done|].
      rewrite lookup_app_r by lia. by replace (S (length q1) - length q1)%nat with 1%nat by lia.
    + exists i. rewrite !link_lookup. destruct (decide (i = length q1)) as [->|Hi].
      * by rewrite lookup_app_r, Nat.sub_diag in H1 by lia.
      * destruct (decide (S i = length q1)) as [E|]; [|eauto]. exists true. split; [done|].
        rewrite E, lookup_app_r, Nat.sub_diag in H2 by lia. cbn in H2. by simplify_eq.
Qed.

Lemma linked_elem q m n : linked_pair q m n → m ∈ q.*1.
Proof.
  intros (i & b & H & _). apply list_elem_of_fmap. exists (m, true). split; [done|]. by eapply list_elem_of_lookup_2.
Qed.

Lemma waits_in_cases p m :
  waits_in p = Some m → (∃ n, mx_linking p = Some (m, n)) ∨ ∃ n, blocked_in p = Some (m, n).
Proof. destruct p; cbn; try done; intros [= <-]; eauto. Qed.

Lemma entering_owned p m : entering p = Some m → owned p = Some m.
Proof. by destruct p. Qed.

(** The positions of the nodes. *)
Lemma same_index q pcs i j m b b' :
  mx_lock_inv q pcs → q !! i = Some (m, b) → q !! j = Some (m, b') → i = j.
Proof.
  intros Hl H1 H2. apply (NoDup_lookup q.*1 i j m (li_nodup _ _ Hl)); rewrite list_lookup_fmap; [by rewrite H1|by rewrite H2].
Qed.

(** Nobody is saved in the node to which a thread links its own. *)
Lemma link_node_empty q used sth pcs t m n rl g :
  mx_lock_inv q pcs → mx_node_inv q used sth pcs → pcs t = MWaitPrev m n rl g → sth m = None.
Proof.
  intros Hl Hn Et. destruct (sth m) as [v|] eqn:Ev; [exfalso|done].
  apply (nv_sth _ _ _ _ Hn) in Ev.
  destruct (li_link _ _ Hl t (m, n)) as (i & b & H1 & H2); [by rewrite Et|]. cbn in *.
  assert (m ∈ q.*1) as Hmq by (apply list_elem_of_fmap; exists (m, false); split; [done|by eapply list_elem_of_lookup_2]).
  destruct (waits_in_cases _ _ Ev) as [[n' Hlv]|[n' Hb]].
  - destruct (li_link _ _ Hl v (m, n') Hlv) as (j & b' & H3 & H4). cbn in *.
    pose proof (same_index _ _ _ _ _ _ _ Hl H1 H3) as ->. assert (n = n') as -> by congruence.
    assert (t = v) as -> by (apply (li_link_unique _ _ Hl t v m m n'); [by rewrite Et|done]). by rewrite Et in Ev.
  - destruct (nv_blocked _ _ _ _ Hn v m n' Hb) as [(j & b' & H3 & H4)|[[u Hu] _]].
    + pose proof (same_index _ _ _ _ _ _ _ Hl H1 H3) as ->. congruence.
    + apply (nv_owned _ _ _ _ Hn u m); [by apply entering_owned|done].
Qed.

(** Two queues with the same links and the same head. *)
Lemma node_queue q q' used used' sth pcs pcs' :
  mx_node_inv q used sth pcs → (∀ m n, linked_pair q' m n ↔ linked_pair q m n) →
  (∀ u, owned (pcs' u) = owned (pcs u)) → (∀ u, waits_in (pcs' u) = waits_in (pcs u)) →
  (∀ u, entering (pcs' u) = entering (pcs u)) → (∀ u, blocked_in (pcs' u) = blocked_in (pcs u)) →
  (∀ n, used' n = true ↔ n ∈ q'.*1 ∨ ∃ u, owned (pcs u) = Some n) →
  (∀ u n, owned (pcs u) = Some n → n ∉ q'.*1) →
  (∀ n, fst <$> head q = Some n → fst <$> head q' = Some n) → mx_node_inv q' used' sth pcs'.
Proof.
  intros [H1 H2 H3 H4 H5 H6 H7] Hq Ho Hw He Hb Hu Hoq Hh. constructor; intros *; rewrite ?Ho, ?Hw, ?He, ?Hb, ?Hq.
  - apply H1.
  - setoid_rewrite Ho. apply Hu.
  - apply Hoq.
  - apply H4.
  - intros [Hx|[[u Hx] Hy]]%H5; [by left|right]. split; [exists u; by rewrite He|auto].
  - intros [v Hx]%H6. exists v. by rewrite Hb.
  - intros (v & n & Hx & Hy)%H7. exists v, n. rewrite Hb. auto.
Qed.

(** A new node at the end of the queue. *)
Lemma node_enqueue q m n used sth pcs t p :
  mx_node_inv (q ++ [(m, false)]) used sth pcs → used n = false → owned p = owned (pcs t) →
  waits_in p = waits_in (pcs t) → entering p = entering (pcs t) → blocked_in p = blocked_in (pcs t) →
  mx_node_inv ((q ++ [(m, false)]) ++ [(n, false)]) (<[n := true]> used) sth (<[t := p]> pcs).
Proof.
  intros Hi Hn Eo Ew Ee Eb. pose proof (nv_used _ _ _ _ Hi) as Hu.
  apply (node_queue (q ++ [(m, false)]) _ used _ _ pcs); try done; try (intros u; by case_thread u t).
  - intros m' n'. apply linked_snoc.
  - intros n'. rewrite (fmap_app _ (_ ++ _)), elem_of_app. cbn. rewrite list_elem_of_singleton.
    destruct (decide (n' = n)) as [->|Hne]; [rewrite fn_lookup_insert; naive_solver|].
    rewrite fn_lookup_insert_ne by done. rewrite Hu. naive_solver.
  - intros u n' E. rewrite (fmap_app _ (_ ++ _)), elem_of_app. cbn. rewrite list_elem_of_singleton. intros [Hx| ->].
    + by apply (nv_owned _ _ _ _ Hi u n').
    + assert (used n = true) by (apply Hu; right; by exists u). congruence.
  - intros n'. by destruct q.
Qed.

Lemma node_first n used sth pcs t p :
  mx_node_inv [] used sth pcs → used n = false → owned p = owned (pcs t) → waits_in p = waits_in (pcs t) →
  entering p = entering (pcs t) → blocked_in p = blocked_in (pcs t) →
  mx_node_inv [(n, false)] (<[n := true]> used) sth (<[t := p]> pcs).
Proof.
  intros Hi Hn Eo Ew Ee Eb. pose proof (nv_used _ _ _ _ Hi) as Hu.
  apply (node_queue [] _ used _ _ pcs); try done; try (intros u; by case_thread u t).
  - intros m' n'. split; intros H; [by apply linked_one in H|by apply linked_nil in H].
  - intros n'. cbn. rewrite list_elem_of_singleton.
    destruct (decide (n' = n)) as [->|Hne]; [rewrite fn_lookup_insert; naive_solver|].
    rewrite fn_lookup_insert_ne by done. rewrite Hu. cbn. rewrite elem_of_nil. naive_solver.
  - intros u n' E. cbn. rewrite list_elem_of_singleton. intros ->.
    assert (used n = true) by (apply Hu; right; by exists u). congruence.
Qed.

(** The continuation is saved in the node. *)
Lemma node_save q used sth pcs t m n rl g :
  mx_node_inv q used sth pcs → pcs t = MWaitPrev m n rl g → sth m = None →
  mx_node_inv q used (<[m := Some t]> sth) (<[t := MOnLock m n rl g]> pcs).
Proof.
  intros [H1 H2 H3 H4 H5 H6 H7] Et Hm.
  assert (∀ u, owned (<[t := MOnLock m n rl g]> pcs u) = owned (pcs u)) as Ho by (intros u; case_thread u t; by rewrite ?Et).
  assert (∀ u, entering (<[t := MOnLock m n rl g]> pcs u) = entering (pcs u)) as He by (intros u; case_thread u t; by rewrite ?Et).
  assert (∀ u, blocked_in (<[t := MOnLock m n rl g]> pcs u) = blocked_in (pcs u)) as Hb by (intros u; case_thread u t; by rewrite ?Et).
  constructor; intros *; rewrite ?Ho, ?He, ?Hb; try setoid_rewrite Ho; try setoid_rewrite He; try setoid_rewrite Hb; eauto.
  case_thread v t.
  - cbn. destruct (decide (m0 = m)) as [->|Hne]; [rewrite fn_lookup_insert; split; congruence|].
    rewrite fn_lookup_insert_ne by done. rewrite H1, Et. cbn. split; congruence.
  - rewrite <- H1. destruct (decide (m0 = m)) as [->|Hne]; [rewrite fn_lookup_insert, Hm; split; congruence|].
    by rewrite fn_lookup_insert_ne.
Qed.

(** The node is linked: the thread is suspended. *)
Lemma node_link q1 m n b q2 used sth pcs t rl g :
  mx_node_inv (q1 ++ (m, false) :: (n, b) :: q2) used sth pcs → pcs t = MOnLock m n rl g →
  mx_node_inv (q1 ++ (m, true) :: (n, b) :: q2) used sth (<[t := MBlocked m n rl g]> pcs).
Proof.
  intros [H1 H2 H3 H4 H5 H6 H7] Et.
  assert (∀ u, owned (<[t := MBlocked m n rl g]> pcs u) = owned (pcs u)) as Ho by (intros u; case_thread u t; by rewrite ?Et).
  assert (∀ u, entering (<[t := MBlocked m n rl g]> pcs u) = entering (pcs u)) as He by (intros u; case_thread u t; by rewrite ?Et).
  assert (∀ u, waits_in (<[t := MBlocked m n rl g]> pcs u) = waits_in (pcs u)) as Hw by (intros u; case_thread u t; by rewrite ?Et).
  assert (fst <$> head (q1 ++ (m, true) :: (n, b) :: q2) = fst <$> head (q1 ++ (m, false) :: (n, b) :: q2)) as Hh by by destruct q1.
  constructor; intros *; rewrite ?Ho, ?He, ?Hw, ?link_nodes, ?Hh; try setoid_rewrite Ho; try setoid_rewrite He; eauto.
  - case_thread v t; [intros [= <- <-]; left; apply linked_link; by left|].
    intros [Hx|Hx]%H5; [left; apply linked_link; by right|by right].
  - intros [[-> ->]|Hx]%linked_link; [exists t; by rewrite fn_lookup_insert|].
    destruct (H6 _ _ Hx) as [v Hv]. exists v. case_thread v t; [by rewrite Et in Hv|done].
  - intros (v & n' & Hv & Hx)%H7. exists v, n'. split; [|done]. case_thread v t; [by rewrite Et in Hv|done].
Qed.

(** The last node leaves the queue. *)
Lemma node_unlock h used sth pcs t p :
  mx_node_inv [(h, false)] used sth pcs → owned (pcs t) = None → owned p = Some h → waits_in p = waits_in (pcs t) →
  entering p = None → entering (pcs t) = None → blocked_in p = blocked_in (pcs t) → (∀ u, entering (pcs u) = None) →
  mx_node_inv [] used sth (<[t := p]> pcs).
Proof.
  intros [H1 H2 H3 H4 H5 H6 H7] Et Ep Ew Ee Ee' Eb Hno. 
  assert (∀ u, waits_in (<[t := p]> pcs u) = waits_in (pcs u)) as Hw by (intros u; by case_thread u t).
  assert (∀ u, entering (<[t := p]> pcs u) = None) as He by (intros u; by case_thread u t).
  assert (∀ u, blocked_in (<[t := p]> pcs u) = blocked_in (pcs u)) as Hb by (intros u; by case_thread u t).
  constructor; intros *; rewrite ?Hw, ?He, ?Hb.
  - apply H1.
  - rewrite H2. cbn. rewrite list_elem_of_singleton, elem_of_nil. split.
    + intros [->|[u Hu]]; right; [exists t; by rewrite fn_lookup_insert|]. exists u. case_thread u t; [congruence|done].
    + intros [Hx|[u Hu]]; [done|]. revert Hu. case_thread u t; [rewrite Ep; intros [= <-]; by left|right; by exists u].
  - intros _. by intros ?%elem_of_nil.
  - case_thread t0 t; case_thread u t; try done; rewrite ?Ep.
    + intros [= <-] Hu. apply H3 in Hu. destruct Hu. cbn. by apply list_elem_of_singleton.
    + intros Hu [= <-]. apply H3 in Hu. destruct Hu. cbn. by apply list_elem_of_singleton.
    + apply H4.
  - intros [Hx|[[u Hx] _]]%H5; [by apply linked_one in Hx|]. by rewrite Hno in Hx.
  - by intros ?%linked_nil.
  - done.
Qed.

(** The head leaves the queue, and its follower is to be resumed. *)
Lemma mx_node_follow h n b q used sth pcs t p :
  mx_node_inv ((h, true) :: (n, b) :: q) used sth pcs → NoDup ((h, true) :: (n, b) :: q).*1 →
  owned (pcs t) = None → owned p = Some h → waits_in p = waits_in (pcs t) → entering p = Some h →
  (∀ u, entering (pcs u) = None) → blocked_in p = blocked_in (pcs t) →
  mx_node_inv ((n, b) :: q) used sth (<[t := p]> pcs).
Proof.
  intros [H1 H2 H3 H4 H5 H6 H7] Hnd Et Ep Ew Ee Hno Eb. cbn in Hnd. apply NoDup_cons in Hnd as [Hh Hnd].
  assert (∀ u, waits_in (<[t := p]> pcs u) = waits_in (pcs u)) as Hw by (intros u; by case_thread u t).
  assert (∀ u, blocked_in (<[t := p]> pcs u) = blocked_in (pcs u)) as Hb by (intros u; by case_thread u t).
  constructor; intros *; rewrite ?Hw, ?Hb.
  - apply H1.
  - rewrite H2. cbn. rewrite (elem_of_cons _ n0 h). split.
    + intros [[->|?]|[u Hu]]; [right; exists t; by rewrite fn_lookup_insert|by left|].
      right. exists u. case_thread u t; [congruence|done].
    + intros [?|[u Hu]]; [by left; right|]. revert Hu. case_thread u t; [rewrite Ep; intros [= <-]; by left; left|right; by exists u].
  - case_thread t0 t; [rewrite Ep; by intros [= <-]|]. intros Hu%H3. cbn in *. by intros Hx; apply Hu; right.
  - case_thread t0 t; case_thread u t; try done; rewrite ?Ep.
    + intros [= <-] Hu. apply H3 in Hu. destruct Hu. by left.
    + intros Hu [= <-]. apply H3 in Hu. destruct Hu. by left.
    + apply H4.
  - intros [Hx|[[u Hx] _]]%H5; [|by rewrite Hno in Hx]. apply linked_tail in Hx as [[-> ->]|Hx]; [|by left].
    right. split; [|done]. exists t. by rewrite fn_lookup_insert.
  - intros Hx. destruct (H6 m n0) as [v Hv]; [apply linked_tail; by right|]. exists v. by rewrite Hb.
  - case_thread u t; [|by rewrite Hno]. rewrite Ee. intros [= <-].
    destruct (H6 h n) as [v Hv]; [apply linked_tail; by left|]. exists v, n. by rewrite Hb.
Qed.

(** The thread in the node goes on. *)
Lemma node_wake q used sth pcs t v h n rl g p :
  mx_node_inv q used sth pcs → entering (pcs t) = Some h → (∀ u, u ≠ t → entering (pcs u) = None) →
  pcs v = MBlocked h n rl g → owned p = Some h → waits_in p = None → entering p = None → blocked_in p = None →
  mx_node_inv q used (<[h := None]> sth) (<[t := p]> (<[v := MResumed n rl g]> pcs)).
Proof.
  intros [H1 H2 H3 H4 H5 H6 H7] Et Hno Ev Ep Ew Ee Eb.
  assert (t ≠ v) as Htv by (intros ->; by rewrite Ev in Et).
  assert (waits_in (pcs t) = None ∧ blocked_in (pcs t) = None ∧ owned (pcs t) = Some h) as (Ewt & Ebt & Eot)
    by (destruct (pcs t); cbn in *; simplify_eq; done).
  assert (∀ u, owned (<[t := p]> (<[v := MResumed n rl g]> pcs) u) = owned (pcs u)) as Ho.
  { intros u. case_thread u t; [congruence|]. case_thread u v; [by rewrite Ev|done]. }
  assert (∀ u, entering (<[t := p]> (<[v := MResumed n rl g]> pcs) u) = None) as He.
  { intros u. case_thread u t; [done|]. case_thread u v; [done|auto]. }
  assert (∀ u, u ≠ v → waits_in (<[t := p]> (<[v := MResumed n rl g]> pcs) u) = waits_in (pcs u)) as Hw.
  { intros u Hu. case_thread u t; [congruence|]. by case_thread u v. }
  assert (∀ u, u ≠ v → blocked_in (<[t := p]> (<[v := MResumed n rl g]> pcs) u) = blocked_in (pcs u)) as Hb.
  { intros u Hu. case_thread u t; [congruence|]. by case_thread u v. }
  assert (waits_in (<[t := p]> (<[v := MResumed n rl g]> pcs) v) = None ∧ blocked_in (<[t := p]> (<[v := MResumed n rl g]> pcs) v) = None) as [Hwv Hbv].
  { rewrite fn_lookup_insert_ne, fn_lookup_insert by done. done. }
  assert (sth h = Some v) as Hs by (apply H1; by rewrite Ev).
  assert (∀ n', ¬ linked_pair q h n') as Hnl by (intros n' Hx%linked_elem; by apply (H3 t h)).
  constructor; intros *; rewrite ?Ho, ?He; try setoid_rewrite Ho; auto; try done; try apply H4.
  - destruct (decide (m = h)) as [->|Hne].
    + rewrite fn_lookup_insert. split; [done|]. destruct (decide (v0 = v)) as [->|Hv]; [by rewrite Hwv|].
      rewrite Hw, <- H1 by done. congruence.
    + rewrite fn_lookup_insert_ne by done. destruct (decide (v0 = v)) as [->|Hv]; [|by rewrite Hw, H1].
      rewrite Hwv, H1, Ev. cbn. split; congruence.
  - apply H3.
  - destruct (decide (v0 = v)) as [->|Hv]; [by rewrite Hbv|]. rewrite Hb by done.
    intros Hx. destruct (H5 _ _ _ Hx) as [?|[[u Hu] Hh]]; [by left|]. exfalso.
    assert (u = t) as -> by (destruct (decide (u = t)); [done|by rewrite Hno in Hu]).
    assert (m = h) as -> by congruence. assert (sth h = Some v0); [|congruence].
    apply H1. destruct (pcs v0); cbn in *; congruence.
  - intros Hx. destruct (H6 _ _ Hx) as [u Hu]. exists u. rewrite Hb; [done|]. intros ->. rewrite Ev in Hu. injection Hu as <- <-. by destruct (Hnl n).
Qed.

(** The node is deallocated. *)
Lemma node_free q used sth pcs t h p :
  mx_node_inv q used sth pcs → owned (pcs t) = Some h → owned p = None → waits_in p = waits_in (pcs t) →
  entering p = None → entering (pcs t) = None → blocked_in p = blocked_in (pcs t) →
  mx_node_inv q (<[h := false]> used) sth (<[t := p]> pcs).
Proof.
  intros [H1 H2 H3 H4 H5 H6 H7] Et Ep Ew Ee Ee' Eb.
  assert (∀ u, waits_in (<[t := p]> pcs u) = waits_in (pcs u)) as Hw by (intros u; by case_thread u t).
  assert (∀ u, entering (<[t := p]> pcs u) = entering (pcs u)) as He by (intros u; case_thread u t; congruence).
  assert (∀ u, blocked_in (<[t := p]> pcs u) = blocked_in (pcs u)) as Hb by (intros u; by case_thread u t).
  constructor; intros *; rewrite ?Hw, ?He, ?Hb; try setoid_rewrite He; try setoid_rewrite Hb; eauto.
  - destruct (decide (n = h)) as [->|Hne].
    + rewrite fn_lookup_insert. split; [done|]. intros [Hx|[u Hu]]; [by destruct (H3 t h)|].
      revert Hu. case_thread u t; [congruence|]. intros Hu. by destruct (H4 t u h).
    + rewrite fn_lookup_insert_ne, H2 by done. split; (intros [?|[u Hu]]; [by left|right; exists u]).
      * case_thread u t; congruence.
      * revert Hu. case_thread u t; congruence.
  - case_thread t0 t; [congruence|]. apply H3.
  - case_thread t0 t; case_thread u t; try done; try congruence. apply H4.
Qed.
End frames.
