(* ===== verification/MutexCv.v ===== *)
(** The list of waiting entries and the barrier, step by step. *)
From Stdlib Require Import ZArith Lia.
From stdpp Require Import base tactics functions list.
From S2P Require Import Prelude.
From S2P Require Import Linear.
From S2P Require Import SyncQueue.
From S2P Require Import LockQueue.
From S2P Require Import Mutex.
From S2P Require Import MutexInv.
From S2P Require Import MutexSafe.

Section entries.
Implicit Types (q : sq_nodes) (pcs : nat → mx_pc) (entries : nat → entry) (t u v w : nat) (m n h : Z) (p : mx_pc)
  (dn rest l : list nat) (waiting : option nat).

Lemma chain_same entries entries' o l :
  (∀ u, u ∈ l → en_next (entries' u) = en_next (entries u)) → chain entries o l → chain entries' o l.
Proof.
  revert o. induction l as [|u l IH]; intros o H; [done|]. cbn. intros [-> Hc]. split; [done|].
  rewrite H by by left. apply IH; [|done]. intros v Hv. apply H. by right.
Qed.

Lemma chain_next entries o l w l' : chain entries o (l ++ w :: l') → chain entries (en_next (entries w)) l'.
Proof. revert o. induction l as [|u l IH]; intros o; cbn; intros [_ H]; [done|by eapply IH]. Qed.

Lemma chain_head entries o l : chain entries o l → o = head l.
Proof. by destruct l; cbn; [|intros [-> _]]. Qed.

(** The thread that holds the lock. *)
Lemma holder_cursor entries waiting pcs t dn rest :
  entry_list entries waiting pcs dn rest → mx_has_lock (pcs t) = true → cursor (pcs t) dn rest.
Proof. intros (_ & _ & _ & _ & Hc & _). apply Hc. Qed.

(** While one thread holds the lock, another one that is not notified is
    suspended. *)
Lemma unnotified_blocked q pcs t w :
  mx_lock_inv q pcs → mx_has_lock (pcs t) = true → w ≠ t → unnotified (pcs w) = true → ∃ g h, pcs w = WBlocked g h.
Proof.
  intros Hl Ht Hne Hw. destruct (mx_has_lock (pcs w)) eqn:E; [by destruct Hne; apply (li_excl _ _ Hl)|].
  destruct (pcs w); try done; eauto.
Qed.

(** [wait] puts the entry in front of the list. *)
Lemma entry_push q entries waiting pcs t g :
  mx_lock_inv q pcs → mx_entry_inv entries waiting pcs → pcs t = WPush g →
  mx_entry_inv (<[t := Entry true None waiting]> entries) (Some t) (<[t := WUnlock g]> pcs).
Proof.
  intros Hl [H1 H2 (dn & rest & He)] Et. pose proof (holder_cursor _ _ _ t _ _ He) as Hc. rewrite Et in Hc.
  specialize (Hc eq_refl). cbn in Hc. subst dn. destruct He as (Hch & Hnd & Hun & _ & Hcu & _). cbn in *.
  assert (t ∉ rest) as Htr by (intros Hx%Hun; by rewrite Et in Hx).
  constructor.
  - intros u. case_thread u t; [done|apply H1].
  - intros u v. case_thread u t; [cbn; split; [done|by intros [-> ?]]|apply H2].
  - exists [], (t :: rest). split_and!; cbn.
    + split; [done|]. rewrite fn_lookup_insert. apply (chain_same entries); [|done].
      intros u Hu. rewrite fn_lookup_insert_ne; [done|]. by intros <-.
    + by constructor.
    + intros u. rewrite elem_of_cons. case_thread u t; [split; [by left|done]|]. rewrite Hun. naive_solver.
    + by intros u ?%elem_of_nil.
    + intros u. case_thread u t; [done|]. intros Hu. destruct (li_excl _ _ Hl u t Hu); [by rewrite Et|done].
    + done.
Qed.

(** A continuation is saved in the thread's own entry, or taken back. *)
Lemma entry_set_sth entries waiting pcs t p o :
  mx_entry_inv entries waiting pcs → unnotified p = unnotified (pcs t) → relocking p = relocking (pcs t) →
  o = (if saved_entry p then Some t else None) → mx_has_lock (pcs t) = true →
  (∀ dn rest, cursor p dn rest = (dn = [])) → (∀ dn rest, cursor (pcs t) dn rest = (dn = [])) →
  mx_entry_inv (<[t := Entry (en_alive (entries t)) o (en_next (entries t))]> entries) waiting (<[t := p]> pcs).
Proof.
  intros [H1 H2 (dn & rest & Hch & Hnd & Hun & Hd & Hcu & Hno)] Eu Er -> Hlt Hp Hp'. constructor.
  - intros u. case_thread u t; [|apply H1]. cbn. by rewrite Eu, Er, H1.
  - intros u v. case_thread u t; [|apply H2]. cbn. destruct (saved_entry p); naive_solver.
  - exists dn, rest. assert (dn = []) as -> by (specialize (Hcu t Hlt); by rewrite Hp' in Hcu). split_and!; try done.
    + apply (chain_same entries); [|done]. intros u _. destruct (decide (u = t)) as [->|Hne]; [by rewrite fn_lookup_insert|].
      by rewrite fn_lookup_insert_ne.
    + intros u. case_thread u t; [by rewrite Eu|apply Hun].
    + by intros u ?%elem_of_nil.
    + intros u. case_thread u t; [by rewrite Hp|apply Hcu].
Qed.

(** A thread in the list is notified. *)
Lemma entry_notify q entries waiting pcs t w all g g' h :
  mx_lock_inv q pcs → mx_entry_inv entries waiting pcs → pcs t = NNotify w all g → pcs w = WBlocked g' h →
  mx_entry_inv (<[w := Entry (en_alive (entries w)) None (en_next (entries w))]> entries) waiting
    (<[t := NNext w all g]> (<[w := WFree g' h]> pcs)).
Proof.
  intros Hl [H1 H2 (dn & rest & He)] Et Ew. assert (t ≠ w) as Htw by congruence.
  pose proof (holder_cursor _ _ _ t _ _ He) as Hc. rewrite Et in Hc. destruct (Hc eq_refl) as [[rest' ->] Hall].
  destruct He as (Hch & Hnd & Hun & Hd & Hcu & _). constructor.
  - intros u. case_thread u t; [by rewrite H1, Et|].
    case_thread u w; [cbn; by rewrite H1, Ew|apply H1].
  - intros u v. case_thread u t.
    + by rewrite H2, Et.
    + case_thread u w; [cbn; naive_solver|apply H2].
  - exists (dn ++ [w]), rest'. unfold entry_list. rewrite <- !app_assoc. cbn. apply NoDup_app in Hnd as (Hnd1 & Hnd2 & Hnd3).
    apply NoDup_cons in Hnd3 as [Hwr Hnd3]. split_and!.
    + apply (chain_same entries); [|done]. intros u _. destruct (decide (u = w)) as [->|Hne]; [by rewrite fn_lookup_insert|].
      by rewrite fn_lookup_insert_ne.
    + apply NoDup_app. split_and!; [done|done|by constructor].
    + intros u. pose proof (Hun u) as Hu. rewrite elem_of_cons in Hu. case_thread u t.
      * rewrite Et in Hu. naive_solver.
      * case_thread u w; [cbn; split; done|naive_solver].
    + intros u. rewrite elem_of_app, list_elem_of_singleton. intros Hu. case_thread u t.
      * destruct Hu as [Hu| ->]; [|done]. specialize (Hd t Hu). by rewrite Et in Hd.
      * case_thread u w; [done|]. destruct Hu as [Hu| ->]; [by apply Hd|done].
    + intros u. case_thread u t; [intros _; exists dn; auto|]. case_thread u w; [done|].
      intros Hu. destruct (li_excl _ _ Hl u t Hu); [by rewrite Et|done].
    + intros Hf. specialize (Hf t). by rewrite fn_lookup_insert in Hf.
Qed.

(** [notify_one] drops the first entry. *)
Lemma entry_drop q entries waiting pcs t w g :
  mx_lock_inv q pcs → mx_entry_inv entries waiting pcs → pcs t = NNext w false g →
  mx_entry_inv entries (en_next (entries w)) (<[t := MHolds]> pcs).
Proof.
  intros Hl [H1 H2 (dn & rest & He)] Et.
  pose proof (holder_cursor _ _ _ t _ _ He) as Hc. rewrite Et in Hc. destruct (Hc eq_refl) as (dn' & -> & Hall).
  rewrite (Hall eq_refl) in *. destruct He as (Hch & Hnd & Hun & _ & Hcu & _). cbn in *. constructor.
  - intros u. case_thread u t; [by rewrite H1, Et|apply H1].
  - intros u v. case_thread u t; [by rewrite H2, Et|apply H2].
  - exists [], rest. apply NoDup_cons in Hnd as [_ Hnd]. split_and!; try done.
    + by destruct Hch.
    + intros u. pose proof (Hun u) as Hu. case_thread u t; [by rewrite Et in Hu|done].
    + by intros u ?%elem_of_nil.
    + intros u. case_thread u t; [done|]. intros Hu. destruct (li_excl _ _ Hl u t Hu); [by rewrite Et|done].
Qed.

(** [notify_all] empties the list. *)
Lemma entry_clear q entries waiting pcs t g p :
  mx_lock_inv q pcs → mx_entry_inv entries waiting pcs → pcs t = NClear g → p = MUnlock ∨ p = MHolds →
  mx_entry_inv entries None (<[t := p]> pcs) ∧ ∀ u, unnotified (pcs u) = false.
Proof.
  intros Hl [H1 H2 (dn & rest & He)] Et Hp.
  pose proof (holder_cursor _ _ _ t _ _ He) as Hc. rewrite Et in Hc. pose proof (Hc eq_refl) as Hr. cbn in Hr. subst rest.
  destruct He as (Hch & Hnd & Hun & _ & Hcu & _). split.
  - constructor.
    + intros u. case_thread u t; [rewrite H1, Et; by destruct Hp as [-> | ->]|apply H1].
    + intros u v. case_thread u t; [rewrite H2, Et; by destruct Hp as [-> | ->]|apply H2].
    + exists [], []. split_and!; try done.
      * constructor.
      * intros u. pose proof (Hun u) as Hu. case_thread u t; [|done]. rewrite elem_of_nil. by destruct Hp as [-> | ->].
      * by intros u ?%elem_of_nil.
      * intros u. case_thread u t; [by destruct Hp as [-> | ->]|]. intros Hu. destruct (li_excl _ _ Hl u t Hu); [by rewrite Et|done].
  - intros u. destruct (unnotified (pcs u)) eqn:E; [|done]. apply Hun in E. by apply elem_of_nil in E.
Qed.

(** The wait returns: the entry is destroyed. *)
Lemma entry_end entries waiting pcs t g p :
  mx_entry_inv entries waiting pcs → pcs t = MEndWait g → p = goal_pc g →
  mx_entry_inv (<[t := Entry false None None]> entries) waiting (<[t := p]> pcs).
Proof.
  intros [H1 H2 (dn & rest & He)] Et Hp.
  pose proof (holder_cursor _ _ _ t _ _ He) as Hc. rewrite Et in Hc. pose proof (Hc eq_refl) as Hr. cbn in Hr. subst dn.
  destruct He as (Hch & Hnd & Hun & _ & Hcu & _). cbn in *.
  assert (unnotified p = false ∧ relocking p = false ∧ saved_entry p = false ∧ ∀ dn rest, cursor p dn rest = (dn = []))
    as (Ep1 & Ep2 & Ep3 & Ep4) by (subst p; by destruct g).
  assert (t ∉ rest) as Htr by (intros Hx%Hun; by rewrite Et in Hx).
  constructor.
  - intros u. case_thread u t; [by rewrite Ep1, Ep2|apply H1].
  - intros u v. case_thread u t; [cbn; rewrite Ep3; split; [done|by intros [??]]|apply H2].
  - exists [], rest. split_and!; try done.
    + apply (chain_same entries); [|done]. intros u Hu. rewrite fn_lookup_insert_ne; [done|]. by intros <-.
    + intros u. pose proof (Hun u) as Hu. case_thread u t; [|done]. rewrite Ep1. split; done.
    + by intros u ?%elem_of_nil.
    + intros u. case_thread u t; [by rewrite Ep4|apply Hcu].
Qed.
End entries.

Section barrier.
Context (num : Z).
Implicit Types (pcs : nat → mx_pc) (t u : nat) (p : mx_pc) (g cur gen : Z) (arrived left : list (nat * Z)).
#[local] Abbreviation binv := (mx_barrier_inv num).

Lemma arrivals_snoc g g' t arrived :
  arrivals g (arrived ++ [(t, g')]) = arrivals g arrived + (if g =? g' then 1 else 0).
Proof.
  unfold arrivals. rewrite filter_app, length_app. destruct (Z.eqb_spec g g') as [->|Hne].
  - rewrite filter_cons_True by done. rewrite filter_nil. cbn. lia.
  - rewrite filter_cons_False by (cbn; congruence). rewrite filter_nil. cbn. lia.
Qed.

(** A thread arrives: it goes to sleep, or is the last one and wakes the others. *)
Lemma barrier_arrive cur gen pcs arrived left t :
  binv cur gen pcs arrived left → pcs t = BArrive → (∀ u, u ≠ t → wakes_all (pcs u) = false) →
  (cur + 1 < num → binv (cur + 1) gen (<[t := BCheck gen]> pcs) (arrived ++ [(t, gen)]) left)
  ∧ (num ≤ cur + 1 →
     binv 0 (gen + 1) (<[t := NStart true GArrive]> pcs) (arrived ++ [(t, gen)]) (left ++ [(t, gen)])).
Proof.
  intros [B1 B2 B3 B4 B5 B6 B7] Et Hno. split; intros Hc.
  - constructor; try lia.
    + intros g. rewrite arrivals_snoc, B2. repeat case_match; lia.
    + intros u g. rewrite elem_of_app, list_elem_of_singleton. case_thread u t; [intros [= <-]; auto with lia|].
      intros Hg. destruct (B4 u g Hg). auto.
    + intros u g. rewrite elem_of_app. intros Hl. destruct (B5 u g Hl). auto.
    + intros u g. case_thread u t; [done|]. intros Hs Hg Hlt. destruct (B6 u g Hs Hg Hlt) as [v Hv].
      destruct (decide (v = t)) as [->|Hv']; [by rewrite Et in Hv|]. rewrite Hno in Hv; done.
    + intros u. by case_thread u t.
  - constructor; try lia.
    + intros g. rewrite arrivals_snoc, B2. repeat case_match; lia.
    + intros u g. rewrite elem_of_app. case_thread u t; [done|]. intros Hg. destruct (B4 u g Hg). auto with lia.
    + intros u g. rewrite !elem_of_app, list_elem_of_singleton. intros [Hl|[= -> ->]]; [destruct (B5 u g Hl)|]; auto with lia.
    + intros u g _ _ _. exists t. by rewrite fn_lookup_insert.
    + intros u. by case_thread u t.
Qed.

(** The generation has passed: the thread leaves. *)
Lemma barrier_leave cur gen pcs arrived left t g :
  binv cur gen pcs arrived left → pcs t = BCheck g → g ≠ gen →
  binv cur gen (<[t := MUnlock]> pcs) arrived (left ++ [(t, g)]).
Proof.
  intros [B1 B2 B3 B4 B5 B6 B7] Et Hg. destruct (B4 t g) as [Hg' Ha]; [by rewrite Et|]. constructor; try done.
  - intros u g'. case_thread u t; [done|apply B4].
  - intros u g'. rewrite elem_of_app, list_elem_of_singleton. intros [Hl|[= -> ->]]; [auto|]. split; [lia|done].
  - intros u g'. case_thread u t; [done|]. intros Hs Hg'' Hlt. destruct (B6 u g' Hs Hg'' Hlt) as [v Hv]. exists v.
    case_thread v t; [by rewrite Et in Hv|done].
  - intros u. by case_thread u t.
Qed.

(** It has not: the thread goes to sleep. *)
Lemma barrier_sleep cur gen pcs arrived left t :
  binv cur gen pcs arrived left → pcs t = BCheck gen → binv cur gen (<[t := WPush (GCheck gen)]> pcs) arrived left.
Proof.
  intros [B1 B2 B3 B4 B5 B6 B7] Et. constructor; try done.
  - intros u g'. case_thread u t; [|apply B4]. intros [= <-]. apply B4. by rewrite Et.
  - intros u g'. case_thread u t; [intros _ [= <-]; lia|]. intros Hs Hg'' Hlt. destruct (B6 u g' Hs Hg'' Hlt) as [v Hv].
    exists v. case_thread v t; [by rewrite Et in Hv|done].
  - intros u. by case_thread u t.
Qed.
End barrier.
