(* ===== verification/MutexStep.v ===== *)
(** Every step of a thread keeps the invariant of the mutex, the condition
    variable and the barrier. *)
From Stdlib Require Import ZArith Lia.
From stdpp Require Import base tactics functions list.
From S2P Require Import Prelude.
From S2P Require Import Linear.
From S2P Require Import SyncQueue.
From S2P Require Import LockQueue.
From S2P Require Import Mutex.
From S2P Require Import MutexInv.
From S2P Require Import MutexSafe.
From S2P Require Import MutexCv.

Section steps.
Context (num : Z).
Implicit Types (s : mx) (t u v w : nat) (m n h : Z) (p : mx_pc).
#[local] Abbreviation inv := (mx_inv num).

(** A thread moves and nothing else changes. *)
Lemma inv_plain s t p :
  inv s → mx_has_lock p = mx_has_lock (mx_pcs s t) → mx_linking p = mx_linking (mx_pcs s t) →
  (∀ h, mx_pc_head p = Some h → mx_pc_head (mx_pcs s t) = Some h ∨ fst <$> head (mx_queue s) = Some h) →
  owned p = owned (mx_pcs s t) → waits_in p = waits_in (mx_pcs s t) → entering p = entering (mx_pcs s t) →
  blocked_in p = blocked_in (mx_pcs s t) →
  mx_entry_inv (mx_entries s) (mx_waiting s) (<[t := p]> (mx_pcs s)) →
  mx_barrier_inv num (mx_cur s) (mx_gen s) (<[t := p]> (mx_pcs s)) (mx_arrived s) (mx_left s) →
  p ≠ MFailed → inv (set_mpc t p s).
Proof.
  intros [Hl Hn He Hb Hf] H1 H2 H3 H4 H5 H6 H7 H8 H9 Hp. constructor; cbn; try done.
  - by apply lock_same.
  - by apply node_same.
  - intros u. by case_thread u t.
Qed.

(** The steps that neither notify nor concern the barrier. *)
Lemma mx_inv_move s t p :
  inv s → mx_has_lock p = mx_has_lock (mx_pcs s t) → mx_linking p = mx_linking (mx_pcs s t) →
  (∀ h, mx_pc_head p = Some h → mx_pc_head (mx_pcs s t) = Some h ∨ fst <$> head (mx_queue s) = Some h) →
  owned p = owned (mx_pcs s t) → waits_in p = waits_in (mx_pcs s t) → entering p = entering (mx_pcs s t) →
  blocked_in p = blocked_in (mx_pcs s t) →
  unnotified p = unnotified (mx_pcs s t) → relocking p = relocking (mx_pcs s t) → saved_entry p = saved_entry (mx_pcs s t) →
  (∀ dn rest, cursor p dn rest = (dn = [])) → (∀ dn rest, cursor (mx_pcs s t) dn rest = (dn = [])) →
  (pc_gen p = pc_gen (mx_pcs s t) ∨ pc_gen p = None) → (sleepy p = true → pc_gen p ≠ None → sleepy (mx_pcs s t) = true) →
  wakes_all (mx_pcs s t) = false → goal_fits p → p ≠ MFailed → inv (set_mpc t p s).
Proof.
  intros Hi H1 H2 H3 H4 H5 H6 H7 U1 U2 U3 C1 C2 B1 B2 B3 B4 Hp. apply inv_plain; try done.
  - apply entry_plain; try done; [apply Hi|]. intros Hp' Ht. congruence.
  - apply barrier_same; try done; [apply Hi|congruence].
Qed.

(** Only one thread holds the lock. *)
Lemma holder_unique s t u : inv s → mx_has_lock (mx_pcs s t) = true → mx_has_lock (mx_pcs s u) = true → u = t.
Proof. intros Hi Ht Hu. by apply (li_excl _ _ (mv_lock _ _ Hi)). Qed.

Lemma no_waker s t u : inv s → mx_has_lock (mx_pcs s t) = true → u ≠ t → wakes_all (mx_pcs s u) = false.
Proof.
  intros Hi Ht Hne. destruct (wakes_all (mx_pcs s u)) eqn:E; [|done]. destruct Hne. apply (holder_unique s); [done..|].
  by destruct (mx_pcs s u).
Qed.

Lemma no_entering s t : inv s → mx_has_lock (mx_pcs s t) = true → entering (mx_pcs s t) = None → ∀ u, entering (mx_pcs s u) = None.
Proof.
  intros Hi Ht He u. destruct (entering (mx_pcs s u)) eqn:E; [|done].
  assert (u = t) as -> by (apply (holder_unique s); [done..|]; by destruct (mx_pcs s u)). congruence.
Qed.

Lemma entering_unique s t u h : inv s → entering (mx_pcs s t) = Some h → u ≠ t → entering (mx_pcs s u) = None.
Proof.
  intros Hi Ht Hne. destruct (entering (mx_pcs s u)) eqn:E; [|done]. destruct Hne. apply (holder_unique s); [done|..].
  - by destruct (mx_pcs s t).
  - by destruct (mx_pcs s u).
Qed.

(** A thread's entry is empty unless the thread saved itself in it. *)
Lemma entry_empty s t : inv s → saved_entry (mx_pcs s t) = false → en_sth (mx_entries s t) = None.
Proof.
  intros Hi Ht. destruct (en_sth (mx_entries s t)) as [v|] eqn:Es; [|done].
  apply (ev_sth _ _ _ (mv_entry _ _ Hi)) in Es as [_ Es]. congruence.
Qed.

(** The lock holder finds its node at the head. *)
Lemma mx_holder_head s t : inv s → mx_has_lock (mx_pcs s t) = true → ∃ h b q, mx_queue s = (h, b) :: q.
Proof.
  intros Hi Ht. assert (mx_queue s ≠ []) as Hq by (apply (li_free _ _ (mv_lock _ _ Hi)); eauto).
  destruct (mx_queue s) as [|[h b] q]; [done|eauto].
Qed.

Ltac move_tac Et := apply mx_inv_move; rewrite ?Et; cbn; auto; try done; try (by intros [= <-]; auto); try (by intros ? [= <-]; auto).

(** * Calls *)

Lemma start_ok s s' t c : inv s → mx_start t c s = Some s' → inv s'.
Proof.
  intros Hi E. unfold mx_start in E. destruct (mx_pcs s t) eqn:Et; try done; destruct c; try done; injection E as <-; move_tac Et.
Qed.

(** * Local steps *)

Definition ok (r : result mx) : Prop := ∃ s', r = Ok s' ∧ inv s'.

Lemma ok_intro s' : inv s' → ok (Ok s').
Proof. by exists s'. Qed.

Lemma wait_prev_ok s t m n rl g :
  inv s → mx_pcs s t = MWaitPrev m n rl g → ok (s ← save_node m t s; Ok (set_mpc t (MOnLock m n rl g) s)).
Proof.
  intros Hi Et. pose proof (link_node_empty _ _ _ _ _ _ _ _ _ (mv_lock _ _ Hi) (mv_node _ _ Hi) Et) as Hm.
  unfold save_node. rewrite bool_decide_true by done. apply ok_intro. destruct Hi as [Hl Hn He Hb Hf]. constructor; cbn.
  - apply lock_same; rewrite ?Et; try done.
  - by apply node_save.
  - apply entry_plain; rewrite ?Et; done.
  - apply barrier_same; rewrite ?Et; auto; done.
  - intros u. by case_thread u t.
Qed.

Lemma resumed_ok s t n rl g :
  inv s → mx_pcs s t = MResumed n rl g → ok (_ ← assert_ (bool_decide (get_head s = Some n)); Ok (set_mpc t (locked_pc rl g) s)).
Proof.
  intros Hi Et. pose proof (li_head _ _ (mv_lock _ _ Hi) t n) as Hh. rewrite Et in Hh.
  unfold get_head. rewrite bool_decide_true by auto. apply ok_intro. unfold locked_pc, goal_pc.
  destruct rl; [move_tac Et|destruct g; move_tac Et].
Qed.

Lemma end_wait_ok s t g :
  inv s → mx_pcs s t = MEndWait g →
  ok (_ ← assert_ (bool_decide (en_sth (mx_entries s t) = None));
      Ok (set_mpc t (goal_pc g) (set_entry t (Entry false None None) s))).
Proof.
  intros Hi Et. assert (en_sth (mx_entries s t) = None) as Hs.
  { apply entry_empty; [done|by rewrite Et]. }
  rewrite bool_decide_true by done. apply ok_intro. destruct Hi as [Hl Hn He Hb Hf]. constructor; cbn.
  - apply lock_same; rewrite ?Et; by destruct g.
  - apply node_same; rewrite ?Et; by destruct g.
  - by eapply entry_end.
  - apply barrier_same; rewrite ?Et; destruct g; auto; done.
  - intros u. case_thread u t; [by destruct g|done].
Qed.

Lemma blocked_in_spec p m n : blocked_in p = Some (m, n) → ∃ rl g, p = MBlocked m n rl g.
Proof. destruct p; try done. intros [= -> ->]. eauto. Qed.

(** [enter] and [swap]: the thread suspended in the node goes on with the lock. *)
Lemma take_node_ok s t h :
  inv s → entering (mx_pcs s t) = Some h →
  ∃ v n rl g, mx_pcs s v = MBlocked h n rl g ∧ v ≠ t ∧ fst <$> head (mx_queue s) = Some n ∧
    take_node h s = Ok (v, set_mpc v (MResumed n rl g) (mset_sth h None s)).
Proof.
  intros Hi He. destruct (nv_entering _ _ _ _ (mv_node _ _ Hi) t h He) as (v & n & Hb & Hh).
  destruct (blocked_in_spec _ _ _ Hb) as (rl & g & Ev). exists v, n, rl, g. split_and!; try done.
  - intros ->. by rewrite Ev in He.
  - unfold take_node. assert (mx_sth s h = Some v) as -> by (apply (nv_sth _ _ _ _ (mv_node _ _ Hi)); by rewrite Ev).
    unfold mx_wake. cbn. by rewrite Ev.
Qed.

Lemma unlock_ok s t :
  inv s → mx_pcs s t = MUnlock →
  ok (match get_head s with Some h => Ok (set_mpc t (MTryUnlock h) s) | None => Fail AssertionFailure end).
Proof.
  intros Hi Et. destruct (mx_holder_head s t Hi) as (h & b & q & Eq); [by rewrite Et|].
  unfold get_head. rewrite Eq. cbn. apply ok_intro. move_tac Et. intros ? [= <-]. right. by rewrite Eq.
Qed.

Lemma wait_unlock_ok s t g :
  inv s → mx_pcs s t = WUnlock g →
  ok (match get_head s with Some h => Ok (set_mpc t (WCheck g h) s) | None => Fail AssertionFailure end).
Proof.
  intros Hi Et. destruct (mx_holder_head s t Hi) as (h & b & q & Eq); [by rewrite Et|].
  unfold get_head. rewrite Eq. cbn. apply ok_intro. move_tac Et. intros ? [= <-]. right. by rewrite Eq.
Qed.

(** The lock goes from [t], which has left the queue, to the thread [v]. *)
Lemma hand_over_lock s t v h n rl g p :
  inv s → entering (mx_pcs s t) = Some h → mx_pcs s v = MBlocked h n rl g → v ≠ t → fst <$> head (mx_queue s) = Some n →
  mx_has_lock p = false → mx_linking p = None → mx_pc_head p = None →
  mx_lock_inv (mx_queue s) (<[t := p]> (<[v := MResumed n rl g]> (mx_pcs s))).
Proof.
  intros Hi He Ev Hne Hh H1 H2 H3. assert (mx_has_lock (mx_pcs s t) = true) as Ht by (by destruct (mx_pcs s t)).
  assert (mx_linking (mx_pcs s t) = None) as Hk by (by destruct (mx_pcs s t)).
  apply (lock_pass _ (mx_pcs s) _ t v); [apply Hi|done|..].
  - intros u. case_thread u t; [by rewrite bool_decide_false|]. case_thread u v; [by rewrite bool_decide_true|].
    rewrite bool_decide_false by done. destruct (mx_has_lock (mx_pcs s u)) eqn:E; [|done].
    by destruct (holder_unique s t u).
  - intros u. case_thread u t; [congruence|]. case_thread u v; [by rewrite Ev|done].
  - intros u h'. case_thread u t; [by rewrite H3|]. case_thread u v; [intros [= <-]; by right|by left].
Qed.

Lemma hand_over_barrier s t v h n rl g p :
  inv s → entering (mx_pcs s t) = Some h → mx_pcs s v = MBlocked h n rl g → v ≠ t →
  (pc_gen p = pc_gen (mx_pcs s t) ∨ pc_gen p = None) → (sleepy p = true → sleepy (mx_pcs s t) = true) → goal_fits p →
  mx_barrier_inv num (mx_cur s) (mx_gen s) (<[t := p]> (<[v := MResumed n rl g]> (mx_pcs s))) (mx_arrived s) (mx_left s).
Proof.
  intros Hi He Ev Hne Hg Hs Hf. apply barrier_same; rewrite ?(fn_lookup_insert_ne (A := nat)) by done; try done.
  - apply barrier_same; rewrite ?Ev; [apply Hi|by left|done..].
  - auto.
  - by destruct (mx_pcs s t).
Qed.

Lemma hand_over_entry s t v h n rl g :
  inv s → entering (mx_pcs s t) = Some h → mx_pcs s v = MBlocked h n rl g →
  mx_entry_inv (mx_entries s) (mx_waiting s) (<[v := MResumed n rl g]> (mx_pcs s)).
Proof.
  intros Hi He Ev. apply entry_plain; rewrite ?Ev; [apply Hi|done..| |done|done].
  intros _ _. right. exists t. by destruct (mx_pcs s t).
Qed.

Lemma enter_ok s t h :
  inv s → mx_pcs s t = MEnter h → ok (r ← take_node h s; Ok (set_mpc t (MFree h) (snd r))).
Proof.
  intros Hi Et. destruct (take_node_ok s t h Hi) as (v & n & rl & g & Ev & Hne & Hh & ->); [by rewrite Et|].
  cbn [mbind result_bind snd]. apply ok_intro.
  assert (entering (mx_pcs s t) = Some h) as He by (by rewrite Et). constructor; cbn.
  - by eapply hand_over_lock.
  - eapply node_wake; [apply Hi|done| |done..].
    intros u Hu. by eapply entering_unique.
  - apply entry_plain; rewrite ?(fn_lookup_insert_ne (A := nat)), ?Et by done; try done. by eapply hand_over_entry.
  - eapply hand_over_barrier; [done..|by right|done|done].
  - intros u. case_thread u t; [done|]. case_thread u v; [done|apply Hi].
Qed.

Lemma swap_ok s t g h :
  inv s → mx_pcs s t = WSwap g h →
  ok (r ← take_node h s; s ← save_entry t (snd r); Ok (set_mpc t (WBlocked g h) s)).
Proof.
  intros Hi Et. destruct (take_node_ok s t h Hi) as (v & n & rl & g' & Ev & Hne & Hh & ->); [by rewrite Et|].
  cbn [mbind result_bind snd]. unfold save_entry. cbn [mx_entries set_mpc mset_sth].
  assert (en_sth (mx_entries s t) = None) as Hs.
  { apply entry_empty; [done|by rewrite Et]. }
  rewrite bool_decide_true by done. cbn [assert_ mbind result_bind]. apply ok_intro.
  assert (entering (mx_pcs s t) = Some h) as He by (by rewrite Et). constructor; cbn.
  - by eapply hand_over_lock.
  - eapply node_wake; [apply Hi|done| |done..].
    intros u Hu. by eapply entering_unique.
  - apply entry_set_sth; rewrite ?(fn_lookup_insert_ne (A := nat)), ?Et by done; try done. by eapply hand_over_entry.
  - eapply hand_over_barrier; [done..|left; by rewrite Et|by rewrite Et|done].
  - intros u. case_thread u t; [done|]. case_thread u v; [done|apply Hi].
Qed.

(** The node is deallocated. *)
Lemma free_ok s t h p :
  inv s → mx_pcs s t = MFree h ∧ p = MIdle ∨ (∃ g, mx_pcs s t = WFree g h ∧ p = MStartLock true g) →
  inv (set_mpc t p (set_used h false s)).
Proof.
  intros [Hl Hn He Hb Hf] Ht. constructor; cbn.
  - apply lock_same; destruct Ht as [[Et ->]|(g & Et & ->)]; rewrite ?Et; done.
  - apply node_free; destruct Ht as [[Et ->]|(g & Et & ->)]; rewrite ?Et; done.
  - apply entry_plain; destruct Ht as [[Et ->]|(g & Et & ->)]; rewrite ?Et; done.
  - apply barrier_same; destruct Ht as [[Et ->]|(g & Et & ->)]; rewrite ?Et; auto; done.
  - intros u. case_thread u t; [by destruct Ht as [[_ ->]|(g & _ & ->)]|done].
Qed.

(** * The condition variable *)

Lemma push_ok s t g :
  inv s → mx_pcs s t = WPush g →
  inv (set_mpc t (WUnlock g) (set_waiting (Some t) (set_entry t (Entry true None (mx_waiting s)) s))).
Proof.
  intros [Hl Hn He Hb Hf] Et. constructor; cbn.
  - apply lock_same; rewrite ?Et; done.
  - apply node_same; rewrite ?Et; done.
  - by eapply entry_push.
  - apply barrier_same; rewrite ?Et; auto; done.
  - intros u. by case_thread u t.
Qed.

Lemma wait_save_ok s t g h :
  inv s → mx_pcs s t = WSave g h → ok (s ← save_entry t s; Ok (set_mpc t (WOnUnlock g h) s)).
Proof.
  intros Hi Et. unfold save_entry. rewrite bool_decide_true by (apply entry_empty; [done|by rewrite Et]).
  apply ok_intro. destruct Hi as [Hl Hn He Hb Hf]. constructor; cbn.
  - apply lock_same; rewrite ?Et; try done. auto.
  - apply node_same; rewrite ?Et; done.
  - apply entry_set_sth; rewrite ?Et; done.
  - apply barrier_same; rewrite ?Et; auto; done.
  - intros u. by case_thread u t.
Qed.

Lemma assert_head_ok s t g h :
  inv s → mx_pcs s t = WAssert g h → ok (_ ← assert_ (bool_decide (get_head s = Some h)); Ok (set_mpc t (WFollow g h) s)).
Proof.
  intros Hi Et. pose proof (li_head _ _ (mv_lock _ _ Hi) t h) as Hh. rewrite Et in Hh.
  unfold get_head. rewrite bool_decide_true by auto. apply ok_intro. move_tac Et.
Qed.

(** The notifier goes from [p] to [p'], and leaves the list as it is. *)
Lemma notifier_ok s t p' :
  inv s → mx_has_lock (mx_pcs s t) = true → mx_has_lock p' = true → mx_linking (mx_pcs s t) = None → mx_linking p' = None →
  mx_pc_head p' = None → owned (mx_pcs s t) = None → owned p' = None → waits_in p' = waits_in (mx_pcs s t) →
  blocked_in p' = blocked_in (mx_pcs s t) → entering p' = entering (mx_pcs s t) →
  unnotified p' = unnotified (mx_pcs s t) → relocking p' = relocking (mx_pcs s t) → saved_entry p' = saved_entry (mx_pcs s t) →
  (∀ dn rest, entry_list (mx_entries s) (mx_waiting s) (mx_pcs s) dn rest → cursor (mx_pcs s t) dn rest → cursor p' dn rest) →
  pc_gen p' = None → (wakes_all (mx_pcs s t) = true → wakes_all p' = true ∨ ∀ u, u ≠ t → sleepy (mx_pcs s u) = false) →
  goal_fits p' → inv (set_mpc t p' s).
Proof.
  intros Hi L1 L2 K1 K2 H O1 O2 W B E U1 U2 U3 C G Wa F. apply inv_plain; try congruence.
  - apply entry_same; try done; [apply Hi|congruence|]. intros _ dn rest Hd Hc. rewrite L2. by apply C.
  - apply barrier_same; auto. apply Hi.
  - by intros ->.
Qed.

Ltac notifier_tac Et := apply notifier_ok; rewrite ?Et; cbn; auto; try done.

(** When every entry is notified, nobody but the notifier goes to sleep. *)
Lemma nobody_sleeps s t dn :
  inv s → mx_has_lock (mx_pcs s t) = true → entry_list (mx_entries s) (mx_waiting s) (mx_pcs s) dn [] →
  ∀ u, u ≠ t → sleepy (mx_pcs s u) = false.
Proof.
  intros Hi Ht He u Hu. destruct (sleepy (mx_pcs s u)) eqn:E; [|done]. exfalso.
  assert (unnotified (mx_pcs s u) = true) as Hun.
  { destruct (mx_has_lock (mx_pcs s u)) eqn:El; [|by destruct (mx_pcs s u)]. by destruct Hu; apply (holder_unique s). }
  apply He in Hun. by apply elem_of_nil in Hun.
Qed.

(** The entry under the cursor is the first one that is not notified. *)
Lemma notify_start_ok s t all g :
  inv s → mx_pcs s t = NStart all g →
  ok (match mx_waiting s with
      | Some w => Ok (set_mpc t (NNotify w all g) s)
      | None => Ok (set_mpc t (if all : bool then NClear g else MHolds) s)
      end).
Proof.
  intros Hi Et. pose proof (bv_fits _ _ _ _ _ _ (mv_barrier _ _ Hi) t) as Hf. rewrite Et in Hf.
  destruct (ev_list _ _ _ (mv_entry _ _ Hi)) as (dn & rest & He).
  pose proof (holder_cursor _ _ _ t _ _ He) as Hc. rewrite Et in Hc. pose proof (Hc eq_refl) as Hd. cbn in Hd. subst dn.
  destruct (mx_waiting s) as [w|] eqn:Ew; apply ok_intro.
  - notifier_tac Et. intros dn rest' (Hch & _) ->. apply chain_head in Hch. rewrite Ew in Hch. destruct rest'; [done|].
    cbn in Hch. split; [|done]. simplify_eq. eauto.
  - assert (rest = []) as ->.
    { destruct He as (Hch & _). apply chain_head in Hch. by destruct rest. }
    destruct all; [|notifier_tac Et; by rewrite Hf].
    notifier_tac Et.
    + intros dn rest' (Hch & _) ->. apply chain_head in Hch. rewrite Ew in Hch. by destruct rest'.
    + intros Hg. right. rewrite <- Ew in He. eapply nobody_sleeps; [done|by rewrite Et|done].
Qed.

(** The thread under the cursor is suspended in its entry. *)
Lemma notify_entry_ok s t w all g :
  inv s → mx_pcs s t = NNotify w all g →
  ∃ g' h, mx_pcs s w = WBlocked g' h ∧ notify_entry w s = Ok (set_mpc w (WFree g' h) (set_esth w None s)).
Proof.
  intros Hi Et. destruct (ev_list _ _ _ (mv_entry _ _ Hi)) as (dn & rest & He).
  pose proof (holder_cursor _ _ _ t _ _ He) as Hc. rewrite Et in Hc. destruct (Hc eq_refl) as [[rest' ->] _].
  assert (unnotified (mx_pcs s w) = true) as Hw by (apply He; by left).
  destruct (unnotified_blocked (mx_queue s) (mx_pcs s) t w) as (g' & h & Ew);
    [apply Hi|by rewrite Et|by intros ->; rewrite Et in Hw|done|]. exists g', h. split; [done|].
  unfold notify_entry, touch_entry. rewrite (ev_alive _ _ _ (mv_entry _ _ Hi) w), Hw. cbn.
  assert (en_sth (mx_entries s w) = Some w) as -> by (apply (ev_sth _ _ _ (mv_entry _ _ Hi)); by rewrite Ew).
  unfold mx_wake. cbn. by rewrite Ew.
Qed.

Lemma notify_ok s t w all g :
  inv s → mx_pcs s t = NNotify w all g → ok (s ← notify_entry w s; Ok (set_mpc t (NNext w all g) s)).
Proof.
  intros Hi Et. destruct (notify_entry_ok s t w all g Hi Et) as (g' & h & Ew & ->). cbn [mbind result_bind]. apply ok_intro.
  assert (w ≠ t) as Hne by congruence. pose proof (bv_fits _ _ _ _ _ _ (mv_barrier _ _ Hi) t) as Hf. rewrite Et in Hf.
  destruct Hi as [Hl Hn He Hb Hnf]. constructor; cbn.
  - do 2 (apply lock_same; rewrite ?(fn_lookup_insert_ne (A := nat)), ?Et, ?Ew by done; try done).
  - do 2 (apply node_same; rewrite ?(fn_lookup_insert_ne (A := nat)), ?Et, ?Ew by done; try done).
  - by eapply entry_notify.
  - do 2 (apply barrier_same; rewrite ?(fn_lookup_insert_ne (A := nat)), ?Et, ?Ew by done; auto; try done).
  - intros u. case_thread u t; [done|]. by case_thread u w.
Qed.

(** The notified entry is still there: its thread cannot leave [wait] before it
    has the lock again. *)
Lemma touch_next_ok s t w all g :
  inv s → mx_pcs s t = NNext w all g → touch_entry w s = Ok (mx_entries s w).
Proof.
  intros Hi Et. destruct (ev_list _ _ _ (mv_entry _ _ Hi)) as (dn & rest & He).
  pose proof (holder_cursor _ _ _ t _ _ He) as Hc. rewrite Et in Hc. destruct (Hc eq_refl) as (dn' & -> & _).
  unfold touch_entry. rewrite (ev_alive _ _ _ (mv_entry _ _ Hi) w).
  assert (relocking (mx_pcs s w) = true) as ->; [|by rewrite orb_true_r].
  apply He. apply elem_of_app. right. by left.
Qed.

Lemma next_ok s t w all g :
  inv s → mx_pcs s t = NNext w all g →
  ok (e ← touch_entry w s;
      if all : bool then Ok (set_mpc t (match en_next e with Some w => NNotify w true g | None => NClear g end) s)
      else Ok (set_mpc t MHolds (set_waiting (en_next e) s))).
Proof.
  intros Hi Et. rewrite (touch_next_ok s t w all g) by done. cbn [mbind result_bind].
  destruct all; apply ok_intro.
  - destruct (en_next (mx_entries s w)) as [w'|] eqn:Ew.
    + notifier_tac Et. intros dn rest (Hch & _) (dn' & -> & _). rewrite <- app_assoc in Hch.
      apply chain_next, chain_head in Hch. rewrite Ew in Hch. split; [|done]. destruct rest; [done|]. cbn in Hch. simplify_eq. eauto.
    + notifier_tac Et.
      * intros dn rest (Hch & _) (dn' & -> & _). rewrite <- app_assoc in Hch.
        apply chain_next, chain_head in Hch. rewrite Ew in Hch. by destruct rest.
      * intros Hg. right. destruct (ev_list _ _ _ (mv_entry _ _ Hi)) as (dn & rest & He).
        pose proof (holder_cursor _ _ _ t _ _ He) as Hc. rewrite Et in Hc. destruct (Hc eq_refl) as (dn' & -> & _).
        assert (rest = []) as ->.
        { destruct He as (Hch & _). rewrite <- app_assoc in Hch. apply chain_next, chain_head in Hch. rewrite Ew in Hch. by destruct rest. }
        eapply nobody_sleeps; [done|by rewrite Et|done].
  - destruct Hi as [Hl Hn He Hb Hnf]. constructor; cbn.
    + apply lock_same; rewrite ?Et; done.
    + apply node_same; rewrite ?Et; done.
    + by eapply entry_drop.
    + apply barrier_same; rewrite ?Et; auto; done.
    + intros u. by case_thread u t.
Qed.

Lemma clear_ok s t g :
  inv s → mx_pcs s t = NClear g →
  inv (set_mpc t (match g with GArrive => MUnlock | _ => MHolds end) (set_waiting None s)).
Proof.
  intros Hi Et. destruct Hi as [Hl Hn He Hb Hnf]. constructor; cbn.
  - apply lock_same; rewrite ?Et; by destruct g.
  - apply node_same; rewrite ?Et; by destruct g.
  - eapply entry_clear; [done..|]. destruct g; auto.
  - apply barrier_same; rewrite ?Et; destruct g; auto; done.
  - intros u. case_thread u t; [by destruct g|done].
Qed.

(** * The barrier *)

Lemma arrive_ok s t : inv s → mx_pcs s t = BArrive → inv (arrive num t s).
Proof.
  intros Hi Et. destruct (barrier_arrive num _ _ _ _ _ t (mv_barrier _ _ Hi) Et) as [Hb1 Hb2].
  { intros u Hu. apply (no_waker s t u); [done|by rewrite Et|done]. }
  destruct Hi as [Hl Hn He Hb Hnf]. unfold arrive. cbn. destruct (Z.ltb_spec (mx_cur s + 1) num); constructor; cbn; auto.
  - apply lock_same; rewrite ?Et; done.
  - apply node_same; rewrite ?Et; done.
  - apply entry_plain; rewrite ?Et; done.
  - intros u. by case_thread u t.
  - apply lock_same; rewrite ?Et; done.
  - apply node_same; rewrite ?Et; done.
  - apply entry_plain; rewrite ?Et; done.
  - intros u. by case_thread u t.
Qed.

Lemma barrier_check_ok s t gen :
  inv s → mx_pcs s t = BCheck gen →
  inv (if gen =? mx_gen s then set_mpc t (WPush (GCheck gen)) s else set_mpc t MUnlock (log_leave t gen s)).
Proof.
  intros Hi Et. destruct (Z.eqb_spec gen (mx_gen s)) as [->|Hne]; destruct Hi as [Hl Hn He Hb Hnf]; constructor; cbn.
  - apply lock_same; rewrite ?Et; done.
  - apply node_same; rewrite ?Et; done.
  - apply entry_plain; rewrite ?Et; done.
  - by apply barrier_sleep.
  - intros u. by case_thread u t.
  - apply lock_same; rewrite ?Et; done.
  - apply node_same; rewrite ?Et; done.
  - apply entry_plain; rewrite ?Et; done.
  - by eapply barrier_leave.
  - intros u. by case_thread u t.
Qed.

(** * Every local step *)

Lemma local_ok s t r : inv s → mx_thread num t s = XLocal r → inv (mx_settle t s r).
Proof.
  intros Hi E. assert (ok r) as (s' & -> & Hi'); [|done]. revert E. unfold mx_thread.
  destruct (mx_pcs s t) eqn:Et; try done; intros [= <-].
  - by apply wait_prev_ok.
  - by apply resumed_ok.
  - by apply end_wait_ok.
  - by apply unlock_ok.
  - by apply enter_ok.
  - apply ok_intro, free_ok; auto.
  - by apply ok_intro, push_ok.
  - by apply wait_unlock_ok.
  - by apply wait_save_ok.
  - by apply assert_head_ok.
  - by apply swap_ok.
  - apply ok_intro, free_ok; eauto.
  - by apply notify_start_ok.
  - by apply notify_ok.
  - by apply next_ok.
  - by apply ok_intro, clear_ok.
  - by apply ok_intro, arrive_ok.
  - by apply ok_intro, barrier_check_ok.
Qed.
End steps.
