(* ===== verification/MutexQueue.v ===== *)
(** The operations of the queue keep the invariant of the mutex, the condition
    variable and the barrier; with the local steps, every reachable state has
    it. *)
From Stdlib Require Import ZArith Lia.
From stdpp Require Import base tactics functions list.
From S2P Require Import Prelude.
From S2P Require Import Linear.
From S2P Require Import SyncQueue.
From S2P Require Import LockQueue.
From S2P Require Import Mutex.
From S2P Require Import MutexInv.
From S2P Require Import MutexSafe.
From S2P Require Import MutexCv.
From S2P Require Import MutexStep.

Section steps.
Context (num : Z).
Implicit Types (s : mx) (t u v w : nat) (m n h : Z) (p : mx_pc).
#[local] Abbreviation inv := (mx_inv num).

Ltac move_tac Et := apply mx_inv_move; rewrite ?Et; cbn; auto; try done; try (by intros [= <-]; auto); try (by intros ? [= <-]; auto).

Lemma same_queue s : mset_queue (mx_queue s) s = s.
Proof. by destruct s. Qed.

Lemma same_queue_ok s t p : inv (set_mpc t p s) → inv (mset_queue (mx_queue s) (set_mpc t p s)).
Proof. by destruct s. Qed.

Lemma nobody_locks s : inv s → mx_queue s = [] → ∀ u, mx_has_lock (mx_pcs s u) = false.
Proof.
  intros Hi Hq u. destruct (mx_has_lock (mx_pcs s u)) eqn:E; [|done].
  destruct (proj2 (li_free _ _ (mv_lock _ _ Hi))); [eauto|done].
Qed.

(** * [start_lock] *)

Lemma locked_ok s t n rl g :
  inv s → mx_pcs s t = MStartLock rl g → mx_queue s = [] → mx_used s n = false →
  inv (mset_queue [(n, false)] (set_mpc t (locked_pc rl g) (set_used n true s))).
Proof.
  intros Hi Et Eq Hu. pose proof (nobody_locks s Hi Eq) as Hno. destruct Hi as [Hl Hn He Hb Hf].
  rewrite Eq in Hl, Hn. constructor; cbn.
  - apply (lock_start (mx_pcs s) _ t); [done|..].
    + intros u. case_thread u t; [rewrite bool_decide_true by done; by destruct rl, g|by rewrite bool_decide_false].
    + intros u. case_thread u t; [rewrite Et; by destruct rl, g|done].
    + intros u. case_thread u t; [rewrite Et; by destruct rl, g|done].
  - apply node_first; rewrite ?Et; try done; by destruct rl, g.
  - apply entry_plain; rewrite ?Et; try done; try (by destruct rl, g). auto.
  - apply barrier_same; rewrite ?Et; try done; destruct rl, g; auto; done.
  - intros u. case_thread u t; [by destruct rl, g|done].
Qed.

Lemma enqueued_ok s t q m n rl g :
  inv s → mx_pcs s t = MStartLock rl g → mx_queue s = q ++ [(m, false)] → n ∉ (q ++ [(m, false)]).*1 → mx_used s n = false →
  inv (mset_queue ((q ++ [(m, false)]) ++ [(n, false)]) (set_mpc t (MWaitPrev m n rl g) (set_used n true s))).
Proof.
  intros [Hl Hn He Hb Hf] Et Eq Hnq Hu. rewrite Eq in Hl, Hn. constructor; cbn.
  - apply (lock_enqueue _ _ _ (mx_pcs s) _ t); [done|done|..].
    + intros u. case_thread u t; [by rewrite Et|done].
    + by rewrite Et.
    + by rewrite fn_lookup_insert.
    + intros u Hne. by rewrite fn_lookup_insert_ne.
    + intros u h. case_thread u t; done.
  - apply node_enqueue; rewrite ?Et; done.
  - apply entry_plain; rewrite ?Et; done.
  - apply barrier_same; rewrite ?Et; auto; done.
  - intros u. by case_thread u t.
Qed.

(** * [set_next] *)

Lemma linked_ok s t q1 m n b q2 rl g :
  inv s → mx_pcs s t = MOnLock m n rl g → mx_queue s = q1 ++ (m, false) :: (n, b) :: q2 →
  inv (mset_queue (q1 ++ (m, true) :: (n, b) :: q2) (set_mpc t (MBlocked m n rl g) s)).
Proof.
  intros [Hl Hn He Hb Hf] Et Eq. rewrite Eq in Hl, Hn. constructor; cbn.
  - apply (lock_set_next _ _ _ _ _ (mx_pcs s) _ t); [done|by rewrite Et|..].
    + intros u. case_thread u t; [by rewrite Et|done].
    + by rewrite fn_lookup_insert.
    + intros u Hne. by rewrite fn_lookup_insert_ne.
    + intros u h. case_thread u t; done.
  - by apply node_link.
  - apply entry_plain; rewrite ?Et; done.
  - apply barrier_same; rewrite ?Et; auto; done.
  - intros u. by case_thread u t.
Qed.

(** * [try_unlock] *)

(** The holder [t] unlocks and goes to [p]. *)
Lemma unlocked_lock s t h p :
  inv s → mx_queue s = [(h, false)] → mx_has_lock (mx_pcs s t) = true → mx_linking (mx_pcs s t) = None →
  mx_has_lock p = false → mx_linking p = None → mx_pc_head p = None → mx_lock_inv [] (<[t := p]> (mx_pcs s)).
Proof.
  intros Hi Eq Ht Hk H1 H2 H3. assert (∀ u, u ≠ t → mx_has_lock (mx_pcs s u) = false) as Hno.
  { intros u Hne. destruct (mx_has_lock (mx_pcs s u)) eqn:E; [|done]. by destruct Hne; apply (holder_unique num s). }
  pose proof (mv_lock _ _ Hi) as Hl. rewrite Eq in Hl. apply (lock_end h (mx_pcs s)); [done|..].
  - intros u. case_thread u t; auto.
  - intros u. case_thread u t; [congruence|done].
  - intros u. case_thread u t; [done|]. specialize (Hno u). by destruct (mx_pcs s u); try done; specialize (Hno ltac:(done)).
Qed.

Lemma unlocked_ok s t h p :
  inv s → mx_queue s = [(h, false)] →
  mx_pcs s t = MTryUnlock h ∧ p = MFree h ∨ (∃ g, mx_pcs s t = WOnUnlock g h ∧ p = WBlocked g h) →
  inv (mset_queue [] (set_mpc t p s)).
Proof.
  intros Hi Eq Ht.
  assert (mx_has_lock (mx_pcs s t) = true ∧ entering (mx_pcs s t) = None) as [Htl Hte]
    by (destruct Ht as [[-> _]|(g & -> & _)]; done).
  pose proof (no_entering num s t Hi Htl Hte) as Hne. constructor; cbn.
  - eapply unlocked_lock; [done..| | | |]; destruct Ht as [[Et ->]|(g & Et & ->)]; rewrite ?Et; done.
  - pose proof (mv_node _ _ Hi) as Hn. rewrite Eq in Hn. eapply node_unlock; [done|..|done];
      destruct Ht as [[Et ->]|(g & Et & ->)]; rewrite ?Et; done.
  - apply entry_plain; [apply Hi|..]; destruct Ht as [[Et ->]|(g & Et & ->)]; rewrite ?Et; done.
  - apply barrier_same; [apply Hi|..]; destruct Ht as [[Et ->]|(g & Et & ->)]; rewrite ?Et; auto; done.
  - intros u. case_thread u t; [by destruct Ht as [[_ ->]|(g & _ & ->)]|apply Hi].
Qed.

(** The wait was not unlocked: the continuation is taken back. *)
Lemma take_back_ok s t g h :
  inv s → mx_pcs s t = WOnUnlock g h → 
  ∃ s', (_ ← assert_ (bool_decide (is_Some (en_sth (mx_entries s t)))); Ok (set_mpc t (WAssert g h) (set_esth t None s))) = Ok s' ∧ inv s'
    ∧ mx_queue s' = mx_queue s.
Proof.
  intros Hi Et. assert (en_sth (mx_entries s t) = Some t) as Hs by (apply (ev_sth _ _ _ (mv_entry _ _ Hi)); by rewrite Et).
  rewrite bool_decide_true by eauto. eexists. split_and!; [done| |done].
  destruct Hi as [Hl Hn He Hb Hf]. constructor; cbn.
  - apply lock_same; rewrite ?Et; try done. auto.
  - apply node_same; rewrite ?Et; done.
  - apply entry_set_sth; rewrite ?Et; done.
  - apply barrier_same; rewrite ?Et; auto; done.
  - intros u. by case_thread u t.
Qed.

(** * [try_follow_head] *)

Lemma followed_ok s t h n b q p :
  inv s → mx_queue s = (h, true) :: (n, b) :: q →
  mx_pcs s t = MFollow h ∧ p = MEnter h ∨ (∃ g, mx_pcs s t = WFollow g h ∧ p = WSwap g h) →
  inv (mset_queue ((n, b) :: q) (set_mpc t p s)).
Proof.
  intros Hi Eq Ht.
  assert (mx_has_lock (mx_pcs s t) = true ∧ entering (mx_pcs s t) = None ∧ owned p = Some h ∧ entering p = Some h) as (Htl & Hte & Hpo & Hpe)
    by (destruct Ht as [[-> ->]|(g & -> & ->)]; done).
  pose proof (no_entering num s t Hi Htl Hte) as Hne. pose proof (mv_lock _ _ Hi) as Hl. rewrite Eq in Hl. constructor; cbn.
  - apply (lock_follow h _ _ _ (mx_pcs s)); [done|..].
    + intros u. case_thread u t; [|done]. by destruct Ht as [[-> ->]|(g & -> & ->)].
    + intros u. case_thread u t; [|done]. by destruct Ht as [[-> ->]|(g & -> & ->)].
    + intros u h'. case_thread u t; [by destruct Ht as [[_ ->]|(g & _ & ->)]|]. intros Hu.
      assert (u = t); [|done]. apply (holder_unique num s); [done..|]. by destruct (mx_pcs s u).
  - pose proof (mv_node _ _ Hi) as Hn. rewrite Eq in Hn. eapply mx_node_follow; [done|apply Hl|..]; try done;
      destruct Ht as [[Et ->]|(g & Et & ->)]; by rewrite ?Et.
  - apply entry_plain; [apply Hi|..]; destruct Ht as [[Et ->]|(g & Et & ->)]; rewrite ?Et; done.
  - apply barrier_same; [apply Hi|..]; destruct Ht as [[Et ->]|(g & Et & ->)]; rewrite ?Et; auto; done.
  - intros u. case_thread u t; [by destruct Ht as [[_ ->]|(g & _ & ->)]|apply Hi].
Qed.

(** * Every step *)

(** The cases of an operation of the queue, with its continuation. *)
Ltac queue_cases Hq Hk E :=
  inversion Hq; clear Hq; subst; cbn in Hk; simplify_eq;
  match goal with H : _ = mx_queue _ |- _ => rename H into E; symmetry in E end; cbn.

Lemma queue_ok s t op k ret q r :
  inv s → mx_thread num t s = XQueue op k → sq_apply t op (mx_queue s) ret q → k ret = Some r →
  inv (mset_queue q (mx_settle t s r)).
Proof.
  intros Hi E Hq Hk. revert E. unfold mx_thread. destruct (mx_pcs s t) eqn:Et; try done; intros [= <- <-].
  - queue_cases Hq Hk Eqq; destruct (mx_used s _) eqn:Eu; try done; injection Hk as <-; cbn.
    + by apply locked_ok.
    + by apply enqueued_ok.
  - queue_cases Hq Hk Eqq. by eapply linked_ok.
  - queue_cases Hq Hk Eqq.
    + apply unlocked_ok with head; auto.
    + rewrite <- Eqq. apply (same_queue_ok s t). move_tac Et.
  - queue_cases Hq Hk Eqq.
    + eapply followed_ok; eauto.
    + rewrite <- Eqq. apply (same_queue_ok s t). move_tac Et.
  - queue_cases Hq Hk Eqq; rewrite <- Eqq; apply (same_queue_ok s t); move_tac Et.
  - queue_cases Hq Hk Eqq.
    + apply unlocked_ok with head; eauto.
    + destruct (take_back_ok s t g head Hi Et) as (s' & -> & Hi' & Eqs). rewrite <- Eqq, <- Eqs. cbn. by rewrite same_queue.
  - queue_cases Hq Hk Eqq.
    + eapply followed_ok; eauto.
    + rewrite <- Eqq. apply (same_queue_ok s t). move_tac Et.
Qed.

Lemma step_ok s s' t : inv s → mx_step num t s s' → inv s'.
Proof.
  intros Hi [c s'' E|r E|op k ret q r E Hq Hk]; [by eapply start_ok|by apply local_ok|by eapply queue_ok].
Qed.

Lemma init_ok : 0 < num → inv mx_init.
Proof.
  intros Hn. constructor; cbn.
  - constructor; cbn; try done.
    + constructor.
    + split; [done|by intros [??]].
  - constructor; cbn; try done.
    + intros n. rewrite elem_of_nil. split; [done|by intros [?|[??]]].
    + by intros m n ?%linked_nil.
  - constructor; cbn; try done.
    + intros t v. split; [done|by intros [??]].
    + exists [], []. split_and!; cbn; try done; [constructor|..]; intros t; rewrite elem_of_nil; done.
  - constructor; cbn; try done; try lia.
    + intros g. unfold arrivals. cbn. repeat case_match; lia.
    + by intros t g ?%elem_of_nil.
  - done.
Qed.

Lemma reach_ok s : 0 < num → mx_reach num s → inv s.
Proof. intros Hn. induction 1; [by apply init_ok|by eapply step_ok]. Qed.
End steps.
