(* ===== verification/MutexProgress.v ===== *)
(** Progress of the mutex, the condition variable and the barrier: unless every
    thread is outside or waits for something that has not happened, some thread
    makes a step. *)
From Stdlib Require Import ZArith Lia.
From stdpp Require Import base tactics functions list.
From S2P Require Import Prelude.
From S2P Require Import Linear.
From S2P Require Import SyncQueue.
From S2P Require Import LockQueue.
From S2P Require Import Mutex.
From S2P Require Import MutexInv.
From S2P Require Import MutexSafe.
From S2P Require Import MutexCv.
From S2P Require Import MutexStep.
From S2P Require Import MutexQueue.

Section progress.
Context (num : Z).
Implicit Types (s : mx) (t u v w : nat) (m n h : Z) (p : mx_pc).
#[local] Abbreviation inv := (mx_inv num).

(** * The nodes are never used up *)

Definition used_below (s : mx) (b : Z) : Prop := ∀ n, mx_used s n = true → n < b.

Lemma used_insert s s' b n (o : bool) :
  used_below s b → mx_used s' = <[n := o]> (mx_used s) → used_below s' (Z.max b (n + 1)).
Proof.
  intros H E k. rewrite E. destruct (decide (k = n)) as [->|Hne]; [lia|]. rewrite fn_lookup_insert_ne by done.
  intros Hk%H. lia.
Qed.

Lemma used_same s s' b : used_below s b → mx_used s' = mx_used s → used_below s' b.
Proof. intros H E k. rewrite E. apply H. Qed.

(** What a step does to the nodes in use. *)
Definition used_step (s s' : mx) : Prop := mx_used s' = mx_used s ∨ ∃ n (o : bool), mx_used s' = <[n := o]> (mx_used s).

Lemma wake_used v s s' : mx_wake v s = Ok s' → mx_used s' = mx_used s.
Proof. unfold mx_wake. by destruct (mx_pcs s v); try done; intros [= <-]. Qed.

Lemma take_used h s v s' : take_node h s = Ok (v, s') → mx_used s' = mx_used s.
Proof.
  unfold take_node. destruct (mx_sth s h) as [v'|]; [|done]. destruct (mx_wake v' _) as [s1|] eqn:E; [|done].
  cbn. intros [= <- <-]. by rewrite (wake_used _ _ _ E).
Qed.

Lemma notify_used w s s' : notify_entry w s = Ok s' → mx_used s' = mx_used s.
Proof.
  unfold notify_entry. destruct (touch_entry w s) as [e|]; [|done]. cbn. destruct (en_sth e) as [v|]; [|done].
  intros E. by rewrite (wake_used _ _ _ E).
Qed.

Lemma save_entry_used t s s' : save_entry t s = Ok s' → mx_used s' = mx_used s.
Proof. unfold save_entry. case_bool_decide; [|done]. by intros [= <-]. Qed.

Lemma local_used s t r : mx_thread num t s = XLocal r → used_step s (mx_settle t s r).
Proof.
  unfold mx_thread. destruct (mx_pcs s t) eqn:Et; try done; intros [= <-].
  all: try (by left).
  - left. unfold save_node. by case_bool_decide.
  - left. by case_bool_decide.
  - left. by case_bool_decide.
  - left. by case_match.
  - left. destruct (take_node head s) as [[v s1]|] eqn:E; cbn; [|done]. by apply take_used in E.
  - right. by eexists _, _.
  - left. by case_match.
  - left. destruct (save_entry t s) as [s1|] eqn:E; cbn; [|done]. by apply save_entry_used in E.
  - left. by case_bool_decide.
  - left. destruct (take_node head s) as [[v s1]|] eqn:E; cbn; [|done]. apply take_used in E.
    destruct (save_entry t s1) as [s2|] eqn:E2; cbn; [|done]. apply save_entry_used in E2. congruence.
  - right. by eexists _, _.
  - left. by case_match.
  - left. destruct (notify_entry we s) as [s1|] eqn:E; cbn; [|done]. by apply notify_used in E.
  - left. destruct (touch_entry we s); cbn; [|done]. by destruct all.
  - left. unfold arrive. cbn. by case_match.
  - left. by case_match.
Qed.

Lemma queue_used s t op k ret q r :
  mx_thread num t s = XQueue op k → k ret = Some r → used_step s (mset_queue q (mx_settle t s r)).
Proof.
  unfold mx_thread. destruct (mx_pcs s t) eqn:Et; try done; intros [= <- <-]; destruct ret; try done.
  all: try (intros [= <-]; by left).
  - destruct (mx_used s cur); [done|]. intros [= <-]. right. by eexists _, _.
  - destruct (mx_used s cur); [done|]. intros [= <-]. right. by eexists _, _.
  - destruct b; intros [= <-]; left; [done|]. by case_bool_decide.
Qed.

Lemma used_bounded s : mx_reach num s → ∃ b, used_below s b.
Proof.
  induction 1 as [|s s' t _ [b IH] Hs]; [by exists 0|].
  assert (used_step s s') as [E|(n & v & E)]; [|by exists b; eapply used_same|by eexists; eapply used_insert].
  destruct Hs as [c s' E|r E|op k ret q r E _ Hk]; [|by apply local_used|by eapply queue_used].
  left. unfold mx_start in E. destruct (mx_pcs s t), c; try done; injection E as <-; done.
Qed.

(** * A spinning thread has a follower *)

Definition follows p : bool := match p with MFollow _ | WFollow _ _ | WAssert _ _ => true | _ => false end.

(** A local step leaves the queue and lets nobody start to spin. *)
Definition quiet (s s' : mx) : Prop :=
  mx_queue s' = mx_queue s ∧ ∀ u, follows (mx_pcs s' u) = true → follows (mx_pcs s u) = true.

Lemma quiet_trans s1 s2 s3 : quiet s1 s2 → quiet s2 s3 → quiet s1 s3.
Proof. intros [E1 H1] [E2 H2]. split; [congruence|auto]. Qed.

Lemma quiet_same s s' : mx_queue s' = mx_queue s → mx_pcs s' = mx_pcs s → quiet s s'.
Proof. intros E1 E2. split; [done|]. by rewrite E2. Qed.

Lemma quiet_pc s t p : (follows p = true → follows (mx_pcs s t) = true) → quiet s (set_mpc t p s).
Proof. intros H. split; [done|]. intros u. cbn. by case_thread u t. Qed.

Lemma quiet_pc_same s s' t p :
  mx_queue s' = mx_queue s → mx_pcs s' = mx_pcs s → (follows p = true → follows (mx_pcs s t) = true) → quiet s (set_mpc t p s').
Proof. intros E1 E2 H. eapply quiet_trans; [by apply quiet_same|]. apply quiet_pc. by rewrite E2. Qed.

Lemma wake_quiet v s s' : mx_wake v s = Ok s' → quiet s s'.
Proof. unfold mx_wake. by destruct (mx_pcs s v); try done; intros [= <-]; apply quiet_pc. Qed.

Lemma take_quiet h s v s' : take_node h s = Ok (v, s') → quiet s s'.
Proof.
  unfold take_node. destruct (mx_sth s h) as [v'|]; [|done]. destruct (mx_wake v' _) as [s1|] eqn:E; [|done].
  cbn. intros [= <- <-]. eapply quiet_trans; [|by eapply wake_quiet]. by apply quiet_same.
Qed.

Lemma notify_quiet w s s' : notify_entry w s = Ok s' → quiet s s'.
Proof.
  unfold notify_entry. destruct (touch_entry w s) as [e|]; [|done]. cbn. destruct (en_sth e) as [v|]; [|done].
  intros E. eapply quiet_trans; [|by eapply wake_quiet]. by apply quiet_same.
Qed.

Lemma save_entry_quiet t s s' : save_entry t s = Ok s' → quiet s s'.
Proof. unfold save_entry. case_bool_decide; [|done]. intros [= <-]. by apply quiet_same. Qed.

Lemma local_quiet s t r : mx_thread num t s = XLocal r → quiet s (mx_settle t s r).
Proof.
  unfold mx_thread. destruct (mx_pcs s t) eqn:Et; try done; intros [= <-].
  all: try (by apply quiet_pc_same; rewrite ?Et).
  - unfold save_node. case_bool_decide; by apply quiet_pc_same; rewrite ?Et.
  - case_bool_decide; [|by apply quiet_pc]. apply quiet_pc. unfold locked_pc, goal_pc. by destruct relock, g.
  - case_bool_decide; [|by apply quiet_pc]. apply quiet_pc_same; [done..|]. by destruct g.
  - case_match; by apply quiet_pc.
  - destruct (take_node head s) as [[v s1]|] eqn:E; cbn; [|by apply quiet_pc]. 
    eapply quiet_trans; [by eapply take_quiet|]. by apply quiet_pc.
  - case_match; by apply quiet_pc.
  - destruct (save_entry t s) as [s1|] eqn:E; cbn; [|by apply quiet_pc].
    eapply quiet_trans; [by eapply save_entry_quiet|]. by apply quiet_pc.
  - case_bool_decide; apply quiet_pc; by rewrite Et.
  - destruct (take_node head s) as [[v s1]|] eqn:E; cbn; [|by apply quiet_pc].
    destruct (save_entry t s1) as [s2|] eqn:E2; cbn; [|by apply quiet_pc].
    eapply quiet_trans; [by eapply take_quiet|]. eapply quiet_trans; [by eapply save_entry_quiet|]. by apply quiet_pc.
  - destruct (mx_waiting s), all; by apply quiet_pc.
  - destruct (notify_entry we s) as [s1|] eqn:E; cbn; [|by apply quiet_pc].
    eapply quiet_trans; [by eapply notify_quiet|]. by apply quiet_pc.
  - destruct (touch_entry we s) as [e|]; cbn; [|by apply quiet_pc]. destruct all; [|by apply quiet_pc_same].
    destruct (en_next e); by apply quiet_pc.
  - apply quiet_pc_same; [done..|]. by destruct g.
  - unfold arrive. cbn. case_match; by apply quiet_pc_same.
  - case_match; by apply quiet_pc_same.
Qed.

Definition follow_inv (s : mx) : Prop := ∀ t, follows (mx_pcs s t) = true → (2 ≤ length (mx_queue s))%nat.

Lemma follow_holds p : follows p = true → mx_has_lock p = true.
Proof. by destruct p. Qed.

(** The queue changes by a step of [t] with the place [p]. *)
Lemma follow_queue s t p q s1 :
  inv s → follow_inv s → mx_pcs s1 = mx_pcs s → (follows p = true → (2 ≤ length q)%nat) →
  (mx_has_lock (mx_pcs s t) = true ∨ (length (mx_queue s) ≤ length q)%nat) →
  follow_inv (mset_queue q (set_mpc t p s1)).
Proof.
  intros Hi Hf E Hp Hq u. cbn. rewrite E. case_thread u t; [done|]. intros Hu. destruct Hq as [Ht|Hq].
  - apply follow_holds in Hu. by destruct (holder_unique num s t u Hi Ht Hu).
  - specialize (Hf u Hu). lia.
Qed.

Lemma follow_queue_step s t op k ret q r :
  inv s → follow_inv s → mx_thread num t s = XQueue op k → sq_apply t op (mx_queue s) ret q → k ret = Some r →
  follow_inv (mset_queue q (mx_settle t s r)).
Proof.
  intros Hi Hf E Hq Hk. revert E. unfold mx_thread. destruct (mx_pcs s t) eqn:Et; try done; intros [= <- <-].
  - inversion Hq; subst; cbn in Hk; destruct (mx_used s _); try done; injection Hk as <-; cbn.
    + apply (follow_queue s); try done; [by destruct relock, g|]. right. match goal with H : _ = mx_queue s |- _ => rewrite <- H end. cbn. lia.
    + apply (follow_queue s); try done. right. match goal with H : _ = mx_queue s |- _ => rewrite <- H end. rewrite !length_app. lia.
  - inversion Hq; subst; cbn in Hk; simplify_eq. apply (follow_queue s); try done. right.
    match goal with H : _ = mx_queue s |- _ => rewrite <- H end. by rewrite !length_app.
  - inversion Hq; subst; cbn in Hk; simplify_eq; (apply (follow_queue s); rewrite ?Et; auto; [cbn; done || lia]).
  - inversion Hq; subst; cbn in Hk; simplify_eq; (apply (follow_queue s); rewrite ?Et; auto; [cbn; try done]).
    specialize (Hf t). rewrite Et in Hf. match goal with H : _ = mx_queue s |- _ => by rewrite <- H in Hf end.
  - inversion Hq; subst; cbn in Hk; simplify_eq; (apply (follow_queue s); rewrite ?Et; auto; [cbn; done || lia]).
  - inversion Hq; subst; cbn in Hk; simplify_eq; cbn.
    + apply (follow_queue s); rewrite ?Et; auto. done.
    + case_bool_decide; (apply (follow_queue s); rewrite ?Et; auto; [cbn; done || lia]).
  - inversion Hq; subst; cbn in Hk; simplify_eq; (apply (follow_queue s); rewrite ?Et; auto; [cbn; try done]).
    specialize (Hf t). rewrite Et in Hf. match goal with H : _ = mx_queue s |- _ => by rewrite <- H in Hf end.
Qed.

Lemma follow_ok s : 0 < num → mx_reach num s → follow_inv s.
Proof.
  intros Hn. induction 1 as [|s s' t Hr IH Hs]; [by intros t|]. pose proof (reach_ok num s Hn Hr) as Hi.
  assert (∀ s1, quiet s s1 → follow_inv s1) as Hquiet.
  { intros s1 [E Hu] u Hf. rewrite E. by eapply IH, Hu. }
  destruct Hs as [c s' E|r E|op k ret q r E Hq Hk]; [|by eapply Hquiet, local_quiet|by eapply follow_queue_step].
  apply Hquiet. unfold mx_start in E. destruct (mx_pcs s t), c; try done; injection E as <-; by apply quiet_pc.
Qed.

(** * Who can make a step *)

(** The thread makes a step and gets somewhere: it does not spin. *)
Definition moves (s : mx) (t : nat) : Prop := ∃ s', mx_step num t s s' ∧ mx_pcs s' t ≠ mx_pcs s t.

(** Inside an operation, and not suspended. *)
Definition running p : bool :=
  match p with MIdle | MHolds | MFailed | MBlocked _ _ _ _ | WBlocked _ _ => false | _ => true end.

Lemma local_moves s t r : mx_thread num t s = XLocal r → moves s t.
Proof.
  intros E. exists (mx_settle t s r). split; [by apply mx_step_local|]. revert E. unfold mx_thread.
  destruct (mx_pcs s t) eqn:Et; try done; intros [= <-]; cbn; rewrite ?fn_lookup_insert; try done.
  - unfold save_node. case_bool_decide; cbn; by rewrite fn_lookup_insert.
  - case_bool_decide; cbn; rewrite fn_lookup_insert; [by destruct relock, g|done].
  - case_bool_decide; cbn; rewrite fn_lookup_insert; [by destruct g|done].
  - case_match; cbn; by rewrite fn_lookup_insert.
  - destruct (take_node head s) as [[v s1]|]; cbn; by rewrite fn_lookup_insert.
  - case_match; cbn; by rewrite fn_lookup_insert.
  - destruct (save_entry t s) as [s1|]; cbn; by rewrite fn_lookup_insert.
  - case_bool_decide; cbn; by rewrite fn_lookup_insert.
  - destruct (take_node head s) as [[v s1]|]; cbn; [|by rewrite fn_lookup_insert].
    destruct (save_entry t s1) as [s2|]; cbn; by rewrite fn_lookup_insert.
  - destruct (mx_waiting s), all; cbn; by rewrite fn_lookup_insert.
  - destruct (notify_entry we s) as [s1|]; cbn; by rewrite fn_lookup_insert.
  - destruct (touch_entry we s) as [e|]; cbn; [|by rewrite fn_lookup_insert].
    destruct all; [destruct (en_next e)|]; cbn; by rewrite fn_lookup_insert.
  - by destruct g.
  - unfold arrive. cbn. case_match; cbn; by rewrite fn_lookup_insert.
  - case_match; cbn; by rewrite fn_lookup_insert.
Qed.

Lemma queue_moves s t op k ret q r :
  mx_thread num t s = XQueue op k → sq_apply t op (mx_queue s) ret q → k ret = Some r →
  mx_pcs (mx_settle t s r) t ≠ mx_pcs s t → moves s t.
Proof. intros E Hq Hk Hne. exists (mset_queue q (mx_settle t s r)). split; [by eapply mx_step_queue|done]. Qed.

(** A free node. *)
Lemma free_node s : mx_reach num s → ∃ n, mx_used s n = false ∧ n ∉ (mx_queue s).*1.
Proof.
  intros Hr. destruct (used_bounded s Hr) as [b Hb].
  set (n := Z.max b (Z.succ (foldr Z.max 0 (mx_queue s).*1))). exists n. split.
  - destruct (mx_used s n) eqn:E; [|done]. apply Hb in E. lia.
  - assert (∀ l k, k ∈ l → k ≤ foldr Z.max 0 l) as Hmax.
    { intros l k. induction 1; cbn; lia. }
    intros Hn%Hmax. lia.
Qed.

Lemma running_moves s t :
  0 < num → mx_reach num s → running (mx_pcs s t) = true →
  moves s t ∨ follows (mx_pcs s t) = true ∧ ∃ h, mx_pc_head (mx_pcs s t) = Some h ∧ head (mx_queue s) = Some (h, false).
Proof.
  intros Hn Hr Hrun. pose proof (reach_ok num s Hn Hr) as Hi. destruct (free_node s Hr) as (n & Hu & Hnq).
  pose proof (λ op, queue_enabled _ _ op n (mv_lock _ _ Hi) Hnq) as Hop.
  pose proof (λ h, li_head _ _ (mv_lock _ _ Hi) t h) as Hh.
  destruct (mx_pcs s t) eqn:Et; try done.
  all: try (left; eapply local_moves; unfold mx_thread; rewrite Et; reflexivity).
  - left. destruct (Hop StartLock) as (r & q & Ha & Hret); [done|].
    destruct r; try done; subst; (eapply queue_moves; [by unfold mx_thread; rewrite Et|apply Ha|by cbn; rewrite Hu|]);
      cbn; rewrite fn_lookup_insert, Et; by destruct relock, g.
  - left. destruct (Hop (SetNext prev cur)) as (r & q & Ha & Hret); [exists t; by rewrite Et|].
    destruct r; try done. eapply queue_moves; [by unfold mx_thread; rewrite Et|apply Ha|done|]. cbn. by rewrite fn_lookup_insert, Et.
  - left. destruct (Hop (TryUnlock head)) as (r & q & Ha & Hret); [by apply Hh|].
    destruct r as [| | |b|]; try done. eapply queue_moves; [by unfold mx_thread; rewrite Et|apply Ha|done|].
    cbn. rewrite fn_lookup_insert, Et. by destruct b.
  - destruct (Hop (TryFollowHead head)) as (r & q & Ha & Hret); [by apply Hh|]. destruct r as [| | | |[m|]]; try done.
    + left. eapply queue_moves; [by unfold mx_thread; rewrite Et|apply Ha|done|]. cbn. by rewrite fn_lookup_insert, Et.
    + right. split; [done|]. exists head. split; [done|]. specialize (Hh head eq_refl).
      destruct (mx_queue s) as [|[h []] q']; [done| |]; cbn in *; simplify_eq; [|done]. by destruct (proj2 Hret eq_refl).
  - left. destruct (Hop (IsUnlockable head)) as (r & q & Ha & Hret); [by apply Hh|].
    destruct r as [| | |b|]; try done. eapply queue_moves; [by unfold mx_thread; rewrite Et|apply Ha|done|].
    cbn. rewrite fn_lookup_insert, Et. by destruct b.
  - left. destruct (Hop (TryUnlock head)) as (r & q & Ha & Hret); [by apply Hh|].
    destruct r as [| | |[]|]; try done; (eapply queue_moves; [by unfold mx_thread; rewrite Et|apply Ha|done|]); cbn.
    + by rewrite fn_lookup_insert, Et.
    + case_bool_decide; cbn; by rewrite fn_lookup_insert, Et.
  - destruct (Hop (TryFollowHead head)) as (r & q & Ha & Hret); [by apply Hh|]. destruct r as [| | | |[m|]]; try done.
    + left. eapply queue_moves; [by unfold mx_thread; rewrite Et|apply Ha|done|]. cbn. by rewrite fn_lookup_insert, Et.
    + right. split; [done|]. exists head. split; [done|]. specialize (Hh head eq_refl).
      destruct (mx_queue s) as [|[h []] q']; [done| |]; cbn in *; simplify_eq; [|done]. by destruct (proj2 Hret eq_refl).
Qed.

(** A thread that links its node does not spin; one that spins waits for such a
    thread. *)
Lemma linking_moves s t mn : 0 < num → mx_reach num s → mx_linking (mx_pcs s t) = Some mn → moves s t.
Proof.
  intros Hn Hr Hk. destruct (running_moves s t Hn Hr) as [|[Hf _]]; [by destruct (mx_pcs s t)|done|by destruct (mx_pcs s t)].
Qed.

Lemma running_progress s t :
  0 < num → mx_reach num s → running (mx_pcs s t) = true → ∃ u, running (mx_pcs s u) = true ∧ moves s u.
Proof.
  intros Hn Hr Hrun. destruct (running_moves s t Hn Hr Hrun) as [|(Hf & h & _ & Hh)]; [eauto|].
  pose proof (follow_ok s Hn Hr t Hf) as Hlen. pose proof (reach_ok num s Hn Hr) as Hi.
  destruct (mx_queue s) as [|[h' b] [|e q]] eqn:Eq; cbn in *; try lia. simplify_eq.
  destruct (unlinked_head _ _ h false e q (mv_lock _ _ Hi) Eq eq_refl) as (u & n & Hu).
  exists u. split; [by destruct (mx_pcs s u)|by eapply linking_moves].
Qed.

(** Outside, in the critical section, or asleep until a notification or the end
    of the generation. *)
Definition parked (s : mx) (t : nat) : Prop :=
  match mx_pcs s t with
  | MIdle => True
  | WBlocked g _ => ∀ gen, g = GCheck gen → gen = mx_gen s
  | _ => False
  end.

#[export] Instance parked_dec s t : Decision (parked s t).
Proof.
  unfold parked. destruct (mx_pcs s t); try (left; done); try (right; tauto).
  destruct g as [| |gen]; [left; done..|]. destruct (decide (gen = mx_gen s)) as [->|Hne].
  - left. by intros ? [= <-].
  - right. intros H. by apply Hne, H.
Defined.

Lemma holder_progress s t :
  0 < num → mx_reach num s → mx_has_lock (mx_pcs s t) = true →
  (∃ u, mx_pcs s u = MHolds) ∨ ∃ u, running (mx_pcs s u) = true ∧ moves s u.
Proof.
  intros Hn Hr Ht. destruct (running (mx_pcs s t)) eqn:E; [right; by eapply running_progress|left].
  exists t. by destruct (mx_pcs s t).
Qed.

Lemma waiter_progress s t :
  0 < num → mx_reach num s → ¬ parked s t → (∃ u, mx_pcs s u = MHolds) ∨ ∃ u, running (mx_pcs s u) = true ∧ moves s u.
Proof.
  intros Hn Hr Hp. pose proof (reach_ok num s Hn Hr) as Hi.
  destruct (running (mx_pcs s t)) eqn:Erun; [right; by eapply running_progress|]. unfold parked in Hp.
  destruct (mx_pcs s t) eqn:Et; try done.
  - left. eauto.
  - by destruct (mv_failed _ _ Hi t).
  - destruct (nv_blocked _ _ _ _ (mv_node _ _ Hi) t prev cur) as [(i & b & H1 & _)|[[u Hu] _]]; [by rewrite Et|..].
    + assert (mx_queue s ≠ []) as [u Hu]%(li_free _ _ (mv_lock _ _ Hi)) by (by intros E; rewrite E in H1).
      by eapply holder_progress.
    + apply (holder_progress s u Hn Hr). by destruct (mx_pcs s u).
  - destruct g as [| |gen]; try (by destruct Hp). destruct (decide (gen = mx_gen s)) as [->|Hne]; [destruct Hp; by intros ? [= <-]|].
    pose proof (bv_gen _ _ _ _ _ _ (mv_barrier _ _ Hi) t gen) as Hg. rewrite Et in Hg. destruct (Hg eq_refl) as [Hg' _].
    destruct (bv_sleep _ _ _ _ _ _ (mv_barrier _ _ Hi) t gen) as [u Hu]; [by rewrite Et|by rewrite Et|lia|].
    apply (holder_progress s u Hn Hr). by destruct (mx_pcs s u).
Qed.
End progress.
