(* ===== verification/MutexThm.v ===== *)
(** The theorems on the mutex, the condition variable and the barrier. *)
From Stdlib Require Import ZArith Lia.
From stdpp Require Import base tactics functions list.
From S2P Require Import Prelude.
From S2P Require Import Linear.
From S2P Require Import SyncQueue.
From S2P Require Import LockQueue.
From S2P Require Import Mutex.
From S2P Require Import MutexInv.
From S2P Require Import MutexSafe.
From S2P Require Import MutexCv.
From S2P Require Import MutexStep.
From S2P Require Import MutexQueue.
From S2P Require Import MutexProgress.

(** * Runs *)

(** [k] steps of the thread [t] alone, none of them on the queue. *)
Fixpoint run_alone (num : Z) (k : nat) (t : nat) (s : mx) : option mx :=
  match k with
  | O => Some s
  | S k => match mx_thread num t s with XLocal r => run_alone num k t (mx_settle t s r) | _ => None end
  end.

Inductive mx_event := MCall (t : nat) (c : mx_call) | MStep (t : nat) (node : Z).

Definition mx_exec (num : Z) (t : nat) (node : Z) (s : mx) : option mx :=
  match mx_thread num t s with
  | XBlocked => None
  | XLocal r => Some (mx_settle t s r)
  | XQueue op k =>
      match sq_exec node op (mx_queue s) with
      | Some (ret, q) => r ← k ret; Some (mset_queue q (mx_settle t s r))
      | None => None
      end
  end.

Fixpoint mx_run (num : Z) (es : list mx_event) (s : mx) : option mx :=
  match es with
  | [] => Some s
  | MCall t c :: es => s ← mx_start t c s; mx_run num es s
  | MStep t node :: es => s ← mx_exec num t node s; mx_run num es s
  end.

Section theorems.
Context (num : Z).
Implicit Types (s : mx) (t u v w : nat) (m n h : Z) (p : mx_pc).

Lemma mx_exec_sound t node s s' : mx_exec num t node s = Some s' → mx_step num t s s'.
Proof.
  unfold mx_exec. destruct (mx_thread num t s) as [|r|op k] eqn:E; [done|intros [= <-]; by apply mx_step_local|].
  destruct (sq_exec node op (mx_queue s)) as [[ret q]|] eqn:Eq; [|done]. destruct (k ret) as [r|] eqn:Ek; [|done].
  intros [= <-]. eapply mx_step_queue; [done|by eapply sq_exec_sound|done].
Qed.

Lemma mx_run_reach es s s' : mx_reach num s → mx_run num es s = Some s' → mx_reach num s'.
Proof.
  revert s. induction es as [|[t c|t node] es IH]; intros s Hs E; cbn in E; [by injection E as <-|..].
  - destruct (mx_start t c s) as [s1|] eqn:E1; [|done]. apply (IH s1); [|done]. eapply mx_reach_step; [done|by eapply mx_step_call].
  - destruct (mx_exec num t node s) as [s1|] eqn:E1; [|done]. apply (IH s1); [|done].
    eapply mx_reach_step; [done|by eapply mx_exec_sound].
Qed.

Lemma mx_run_check es (f : mx → bool) :
  match mx_run num es mx_init with Some s => f s | None => false end = true → ∃ s, mx_reach num s ∧ f s = true.
Proof.
  destruct (mx_run num es mx_init) as [s|] eqn:E; [|done]. intros Hf. exists s. split; [|done].
  eapply mx_run_reach; [apply mx_reach_init|done].
Qed.

Lemma run_alone_add k k' t s : run_alone num (k + k') t s = s' ← run_alone num k t s; run_alone num k' t s'.
Proof.
  revert s. induction k as [|k IH]; intros s; [done|]. cbn. by destruct (mx_thread num t s).
Qed.

(** * Notification *)

Definition woken p : mx_pc := match p with WBlocked g h => WFree g h | p => p end.

(** The notifier at the first entry of the list [l]. *)
Lemma notify_list s t w g l :
  mx_inv num s → mx_pcs s t = NNotify w true g → chain (mx_entries s) (Some w) l → NoDup l →
  (∀ u, unnotified (mx_pcs s u) = true ↔ u ∈ l) →
  ∃ s', run_alone num (2 * length l) t s = Some s' ∧ mx_inv num s' ∧ mx_pcs s' t = NClear g
    ∧ ∀ u, u ≠ t → mx_pcs s' u = woken (mx_pcs s u).
Proof.
  revert s w. induction l as [|w' l IH]; intros s w Hi Et Hc Hnd Hun; [done|]. destruct Hc as [[= <-] Hc].
  apply NoDup_cons in Hnd as [Hw Hnd]. destruct (notify_entry_ok num s t w true g Hi Et) as (g' & h & Ew & En).
  assert (w ≠ t) as Hne by congruence.
  set (s1 := set_mpc t (NNext w true g) (set_mpc w (WFree g' h) (set_esth w None s))).
  assert (mx_thread num t s = XLocal (Ok s1)) as E1 by (unfold mx_thread; rewrite Et, En; reflexivity).
  pose proof (local_ok num _ _ _ Hi E1) as Hi1. cbn in Hi1.
  assert (mx_pcs s1 t = NNext w true g) as Et1 by apply fn_lookup_insert.
  set (p2 := match en_next (mx_entries s w) with Some w => NNotify w true g | None => NClear g end).
  assert (en_next (mx_entries s1 w) = en_next (mx_entries s w)) as Enext by (cbn; by rewrite fn_lookup_insert).
  assert (mx_thread num t s1 = XLocal (Ok (set_mpc t p2 s1))) as E2.
  { unfold mx_thread. rewrite Et1, (touch_next_ok num s1 t w true g Hi1 Et1). cbn [mbind result_bind]. by rewrite Enext. }
  pose proof (local_ok num _ _ _ Hi1 E2) as Hi2. cbn [mx_settle] in Hi2. set (s2 := set_mpc t p2 s1) in *.
  assert (∀ u, u ≠ t → u ≠ w → mx_pcs s2 u = mx_pcs s u) as Eu.
  { intros u Hu Hu'. cbn. by rewrite !fn_lookup_insert_ne. }
  assert (mx_pcs s2 w = WFree g' h) as Ew2.
  { cbn. rewrite !(fn_lookup_insert_ne (A := nat)) by done. apply fn_lookup_insert. }
  assert (mx_pcs s2 t = p2) as Et2 by apply fn_lookup_insert.
  assert (∃ s', run_alone num (2 * length l) t s2 = Some s' ∧ mx_inv num s' ∧ mx_pcs s' t = NClear g
    ∧ ∀ u, u ≠ t → mx_pcs s' u = woken (mx_pcs s2 u)) as (s' & Hr & Hi' & Et' & Hu').
  { destruct l as [|w2 l].
    - exists s2. split; [done|]. split; [done|]. cbn in Hc. split; [rewrite Et2; unfold p2; by rewrite Hc|].
      intros u Hu. destruct (mx_pcs s2 u) eqn:E; try done. exfalso.
      assert (u ≠ w) as Huw by congruence. rewrite Eu in E by done.
      assert (u ∈ [w]) as [->|H]%elem_of_cons; [by apply Hun; rewrite E|done|by apply elem_of_nil in H].
    - assert (en_next (mx_entries s w) = Some w2) as En2 by by destruct Hc.
      apply (IH s2 w2); [done|rewrite Et2; unfold p2; by rewrite En2| |done|].
      + rewrite <- En2. eapply chain_same; [|exact Hc]. intros u Hu. cbn. rewrite fn_lookup_insert_ne; [done|]. by intros <-.
      + intros u. pose proof (Hun u) as Hux. rewrite elem_of_cons in Hux.
        destruct (decide (u = w)) as [->|Huw]; [rewrite Ew2; by split|].
        destruct (decide (u = t)) as [->|Hut]; [|rewrite Eu by done; naive_solver].
        rewrite Et in Hux. rewrite Et2. unfold p2. rewrite En2. naive_solver. }
  exists s'. split_and!; [|done|done|].
  - replace (2 * length (w :: l))%nat with (2 + 2 * length l)%nat by (cbn; lia). rewrite run_alone_add.
    cbn [run_alone]. rewrite E1. cbn [mx_settle]. rewrite E2. exact Hr.
  - intros u Hu. rewrite Hu' by done. destruct (decide (u = w)) as [->|Huw]; [by rewrite Ew2, Ew|by rewrite Eu].
Qed.

(** * Properties *)

(** C9: The mutex, the condition variable and the barrier are safe in every run:
    no assertion fails and no destroyed wait entry is read; at most one thread
    holds the mutex; a thread suspended in lock is saved in its predecessor's
    node, which is allocated, and its node is linked behind it or about to be
    served; a thread suspended in wait is saved in its own entry, which is alive
    and in the list of the condition variable; and every saved continuation is
    one of these. *)
Theorem mutex_safe s :
  0 < num → mx_reach num s →
  (∀ t, mx_pcs s t ≠ MFailed)
  ∧ (∀ t u, mx_has_lock (mx_pcs s t) = true → mx_has_lock (mx_pcs s u) = true → t = u)
  ∧ (∀ t m n rl g, mx_pcs s t = MBlocked m n rl g → mx_sth s m = Some t ∧ mx_used s m = true
      ∧ (linked_pair (mx_queue s) m n ∨ (∃ u, entering (mx_pcs s u) = Some m) ∧ get_head s = Some n))
  ∧ (∀ t g h, mx_pcs s t = WBlocked g h → en_alive (mx_entries s t) = true ∧ en_sth (mx_entries s t) = Some t
      ∧ ∃ l, chain (mx_entries s) (mx_waiting s) l ∧ NoDup l ∧ t ∈ l)
  ∧ (∀ m v, mx_sth s m = Some v → waits_in (mx_pcs s v) = Some m)
  ∧ (∀ t v, en_sth (mx_entries s t) = Some v → v = t ∧ saved_entry (mx_pcs s t) = true).
Proof.
  intros Hn Hr. pose proof (reach_ok num s Hn Hr) as Hi. pose proof (mv_node _ _ Hi) as Hnode. split_and!.
  - apply Hi.
  - apply Hi.
  - intros t m n rl g Et. pose proof (nv_blocked _ _ _ _ Hnode t m n) as Hb. rewrite Et in Hb. specialize (Hb eq_refl).
    split_and!; [apply (nv_sth _ _ _ _ Hnode); by rewrite Et| |done]. apply (nv_used _ _ _ _ Hnode).
    destruct Hb as [Hb|[[u Hu] _]]; [left; by eapply linked_elem|right; exists u; by apply entering_owned].
  - intros t g h Et. destruct (mv_entry _ _ Hi) as [H1 H2 (dn & rest & Hc & Hnd & Hun & _)].
    split_and!; [by rewrite H1, Et|apply H2; by rewrite Et|]. exists (dn ++ rest). split_and!; [done|done|].
    apply elem_of_app. right. apply Hun. by rewrite Et.
  - intros m v. apply Hnode.
  - intros t v. apply (mv_entry _ _ Hi).
Qed.

(** C10: Nobody leaves the barrier before everybody arrived: a thread leaves a
    generation only if it arrived in it, and after exactly [num] arrivals; a
    generation never has more than [num], and the current one has [cur_], which
    is less. *)
Theorem barrier_waits_for_all s :
  0 < num → mx_reach num s →
  (∀ t g, (t, g) ∈ mx_left s → (t, g) ∈ mx_arrived s ∧ arrivals g (mx_arrived s) = num)
  ∧ (∀ g, arrivals g (mx_arrived s) ≤ num) ∧ arrivals (mx_gen s) (mx_arrived s) = mx_cur s ∧ 0 ≤ mx_cur s < num.
Proof.
  intros Hn Hr. destruct (mv_barrier _ _ (reach_ok num s Hn Hr)) as [B1 B2 B3 B4 B5 B6 B7]. split_and!; try lia.
  - intros t g Hl. destruct (B5 t g Hl) as [Hg Ha]. split; [done|]. rewrite B2. repeat case_match; lia.
  - intros g. rewrite B2. repeat case_match; lia.
  - rewrite B2. repeat case_match; lia.
Qed.

(** C17: The mutex does not deadlock: unless a thread is outside or sleeps in wait,
    unnotified and, if it is in the barrier, in the current generation, which
    fewer than [num] threads have entered, a thread is in its critical section,
    or some thread inside an operation makes a step that is not a spin. *)
Theorem mutex_progress s t :
  0 < num → mx_reach num s →
  parked s t ∧ arrivals (mx_gen s) (mx_arrived s) < num
  ∨ (∃ u, mx_pcs s u = MHolds) ∨ ∃ u, running (mx_pcs s u) = true ∧ moves num s u.
Proof.
  intros Hn Hr. destruct (decide (parked s t)) as [Hp|Hp]; [left; split; [done|]|right; by eapply waiter_progress].
  pose proof (mv_barrier _ _ (reach_ok num s Hn Hr)) as [B1 B2 _ _ _ _ _]. rewrite B2. repeat case_match; lia.
Qed.

(** C18: [notify_all] wakes every waiter: running alone, the notifier makes two
    steps for each waiting thread and two more, after which exactly the threads
    suspended in wait go on and the list is empty. *)
Theorem notify_all_wakes s t g :
  0 < num → mx_reach num s → mx_pcs s t = NStart true g →
  ∃ l s', NoDup l ∧ (∀ u, u ∈ l ↔ ∃ g h, mx_pcs s u = WBlocked g h)
    ∧ run_alone num (2 * length l + 2) t s = Some s' ∧ mx_waiting s' = None
    ∧ mx_pcs s' t = (match g with GArrive => MUnlock | _ => MHolds end)
    ∧ ∀ u, u ≠ t → mx_pcs s' u = woken (mx_pcs s u).
Proof.
  intros Hn Hr Et. pose proof (reach_ok num s Hn Hr) as Hi.
  destruct (ev_list _ _ _ (mv_entry _ _ Hi)) as (dn & rest & He).
  pose proof (holder_cursor _ _ _ t _ _ He) as Hc. rewrite Et in Hc. specialize (Hc eq_refl). cbn in Hc. subst dn.
  destruct He as (Hch & Hnd & Hun & _). cbn in Hch, Hnd.
  assert (∀ u, u ∈ rest ↔ ∃ g h, mx_pcs s u = WBlocked g h) as Hl.
  { intros u. rewrite <- Hun. split; [|by intros (g' & h & ->)]. intros Hu.
    apply (unnotified_blocked (mx_queue s) _ t); [apply Hi|by rewrite Et|by intros ->; rewrite Et in Hu|done]. }
  set (p1 := match mx_waiting s with Some w => NNotify w true g | None => NClear g end).
  assert (mx_thread num t s = XLocal (Ok (set_mpc t p1 s))) as E1 by (unfold mx_thread, p1; rewrite Et; by destruct (mx_waiting s)).
  pose proof (local_ok num _ _ _ Hi E1) as Hi1. cbn [mx_settle] in Hi1.
  assert (mx_pcs (set_mpc t p1 s) t = p1) as Et1 by apply fn_lookup_insert.
  assert (∀ u, u ≠ t → mx_pcs (set_mpc t p1 s) u = mx_pcs s u) as Eu1 by (intros u Hu; cbn; by rewrite fn_lookup_insert_ne).
  assert (∃ s1, run_alone num (2 * length rest) t (set_mpc t p1 s) = Some s1 ∧ mx_pcs s1 t = NClear g
    ∧ ∀ u, u ≠ t → mx_pcs s1 u = woken (mx_pcs s u)) as (s1 & Hr1 & Es1 & Hu1).
  { destruct rest as [|w rest].
    - exists (set_mpc t p1 s). split; [done|]. cbn in Hch. split; [rewrite Et1; unfold p1; by rewrite Hch|].
      intros u Hu. rewrite Eu1 by done. destruct (mx_pcs s u) eqn:E; try done.
      exfalso. apply (elem_of_nil u), Hl. eauto.
    - assert (mx_waiting s = Some w) as Ew by by destruct Hch.
      destruct (notify_list (set_mpc t p1 s) t w g (w :: rest) Hi1) as (s1 & Hr1 & _ & Es1 & Hu1).
      + rewrite Et1. unfold p1. by rewrite Ew.
      + cbn [mx_entries set_mpc]. by rewrite <- Ew.
      + done.
      + intros u. destruct (decide (u = t)) as [->|Hu]; [|by rewrite Eu1].
        rewrite <- Hun, Et1, Et. unfold p1. by rewrite Ew.
      + exists s1. split_and!; [done|done|]. intros u Hu. by rewrite Hu1, Eu1. }
  exists rest, (set_mpc t (match g with GArrive => MUnlock | _ => MHolds end) (set_waiting None s1)).
  split_and!; [done|done| |done|apply fn_lookup_insert|].
  - replace (2 * length rest + 2)%nat with (1 + (2 * length rest + 1))%nat by lia. rewrite !run_alone_add. cbn [run_alone mbind option_bind].
    rewrite E1. cbn [mx_settle mbind option_bind]. rewrite run_alone_add, Hr1. cbn [mbind option_bind run_alone].
    unfold mx_thread. by rewrite Es1.
  - intros u Hu. cbn. rewrite fn_lookup_insert_ne by done. by apply Hu1.
Qed.
End theorems.

(** * A run of the barrier with two threads *)

(** Thread 0 arrives and sleeps. *)
Definition demo_sleep : list mx_event := MCall 0 CArrive :: MStep 0 1 :: repeat (MStep 0 0) 7.
(** Thread 1 arrives last: it is about to wake thread 0. *)
Definition demo_last : list mx_event := demo_sleep ++ [MCall 1 CArrive; MStep 1 2; MStep 1 0].
(** Thread 0 is awake and enqueues its node, while thread 1 unlocks and spins. *)
Definition demo_spin : list mx_event := demo_last ++ repeat (MStep 1 0) 4 ++ [MStep 0 0; MStep 0 3; MStep 1 0; MStep 1 0].
(** Thread 0 is suspended in the node of thread 1. *)
Definition demo_blocked : list mx_event := demo_spin ++ [MStep 0 0; MStep 0 0].
(** Thread 1 hands the lock over, and thread 0 leaves the barrier. *)
Definition demo_leave : list mx_event := demo_blocked ++ repeat (MStep 1 0) 3 ++ repeat (MStep 0 0) 3.

Definition last_check (s : mx) : bool :=
  match mx_pcs s 1%nat, mx_pcs s 0%nat with NStart true GArrive, WBlocked _ _ => true | _, _ => false end.
Definition spin_check (s : mx) : bool :=
  match mx_pcs s 1%nat, mx_pcs s 0%nat with MFollow 2, MWaitPrev 2 3 true _ => true | _, _ => false end.
Definition blocked_check (s : mx) : bool :=
  match mx_pcs s 1%nat, mx_pcs s 0%nat with MFollow 2, MBlocked 2 3 true _ => true | _, _ => false end.
Definition leave_check (s : mx) : bool := bool_decide (mx_left s = [(1%nat, 0); (0%nat, 0)]).

Lemma demo_last_reach : ∃ s, mx_reach 2 s ∧ last_check s = true.
Proof. apply (mx_run_check 2 demo_last). vm_compute. reflexivity. Qed.

Lemma demo_spin_reach : ∃ s, mx_reach 2 s ∧ spin_check s = true.
Proof. apply (mx_run_check 2 demo_spin). vm_compute. reflexivity. Qed.

Lemma demo_blocked_reach : ∃ s, mx_reach 2 s ∧ blocked_check s = true.
Proof. apply (mx_run_check 2 demo_blocked). vm_compute. reflexivity. Qed.

Lemma demo_leave_reach : ∃ s, mx_reach 2 s ∧ leave_check s = true.
Proof. apply (mx_run_check 2 demo_leave). vm_compute. reflexivity. Qed.

Lemma blocked_check_spec s : blocked_check s = true → ∃ g, mx_pcs s 0%nat = MBlocked 2 3 true g.
Proof. unfold blocked_check. intros H. repeat (case_match; try done). eauto. Qed.

Lemma last_check_spec s : last_check s = true → mx_pcs s 1%nat = NStart true GArrive.
Proof. unfold last_check. intros H. repeat (case_match; try done). Qed.

Lemma mutex_safe_witness : ∃ s, mx_reach 2 s ∧ blocked_check s = true ∧ mx_sth s 2 = Some 0%nat.
Proof.
  destruct demo_blocked_reach as (s & Hr & Hf). destruct (blocked_check_spec s Hf) as [g Hg].
  exists s. split; [exact Hr|]. split; [exact Hf|].
  exact (proj1 (proj1 (proj2 (proj2 (mutex_safe 2 s eq_refl Hr))) 0%nat 2 3 true g Hg)).
Defined.

Lemma barrier_waits_for_all_witness : ∃ s, mx_reach 2 s ∧ leave_check s = true ∧ arrivals (mx_gen s) (mx_arrived s) = mx_cur s.
Proof.
  destruct demo_leave_reach as (s & Hr & Hf). exists s. split; [exact Hr|]. split; [exact Hf|].
  exact (proj1 (proj2 (proj2 (barrier_waits_for_all 2 s eq_refl Hr)))).
Defined.

Lemma mutex_progress_witness :
  ∃ s, mx_reach 2 s ∧ spin_check s = true ∧
    (parked s 1 ∧ arrivals (mx_gen s) (mx_arrived s) < 2
     ∨ (∃ u, mx_pcs s u = MHolds) ∨ ∃ u, running (mx_pcs s u) = true ∧ moves 2 s u).
Proof.
  destruct demo_spin_reach as (s & Hr & Hf). exists s. split; [exact Hr|]. split; [exact Hf|].
  exact (mutex_progress 2 s 1 eq_refl Hr).
Defined.

Lemma notify_all_wakes_witness :
  ∃ s (l : list nat) s', mx_reach 2 s ∧ last_check s = true ∧ run_alone 2 (2 * length l + 2) 1 s = Some s' ∧ mx_waiting s' = None.
Proof.
  destruct demo_last_reach as (s & Hr & Hf).
  destruct (notify_all_wakes 2 s 1 GArrive eq_refl Hr (last_check_spec s Hf)) as (l & s' & _ & _ & Hrun & Hw & _).
  exists s, l, s'. split; [exact Hr|]. split; [exact Hf|]. split; [exact Hrun|exact Hw].
Defined.
