(* ===== verification/LoopSched.v ===== *)
(** How the iterations of a loop are shared out.

    cmpth: for_loop of exec/basic_for_loop.hpp, which forks a binary tree of
    threads. meomp: kmpc_for_static_init of src/meomp.cpp, which gives each thread
    of a parallel region one block of iterations, and __kmpc_fork_call, which
    passes the arguments of the region. *)
From Stdlib Require Import ZArith Lia.
From stdpp Require Import base tactics list list_numbers.
From S2P Require Import Prelude.

(** * Integer types *)

(** The arithmetic of an integer type: unsigned types wrap, an overflow of a
    signed type is undefined. *)
Record int_type := IntType { it_signed : bool; it_bits : Z }.

Definition int32 : int_type := IntType true 32.
Definition int64 : int_type := IntType true 64.
Definition uint64 : int_type := IntType false 64.

Definition int_min (T : int_type) : Z := if it_signed T then - 2 ^ (it_bits T - 1) else 0.
Definition int_max (T : int_type) : Z := if it_signed T then 2 ^ (it_bits T - 1) - 1 else 2 ^ it_bits T - 1.
Definition in_range (T : int_type) (x : Z) : bool := (int_min T <=? x) && (x <=? int_max T).

(** The value of an expression of type [T]. *)
Definition eval (T : int_type) (x : Z) : result Z :=
  if it_signed T then (if in_range T x then Ok x else Fail Overflow) else Ok (x mod 2 ^ it_bits T).

(** The conversion to [T] keeps the value modulo 2^bits. *)
Definition convert (T : int_type) (x : Z) : Z :=
  if it_signed T then (x + 2 ^ (it_bits T - 1)) mod 2 ^ it_bits T - 2 ^ (it_bits T - 1) else x mod 2 ^ it_bits T.

Definition iadd (T : int_type) (x y : Z) : result Z := eval T (x + y).
Definition isub (T : int_type) (x y : Z) : result Z := eval T (x - y).
Definition imul (T : int_type) (x y : Z) : result Z := eval T (x * y).
Definition idiv (T : int_type) (x y : Z) : result Z := if y =? 0 then Fail Overflow else eval T (x ÷ y).

(** The signed type of the same width. *)
Definition signed_of (T : int_type) : int_type := IntType true (it_bits T).

(** [fdn::roundup_divide<T>]. *)
Definition roundup_div (T : int_type) (x y : Z) : result Z :=
  z ← iadd T x y; z ← isub T z 1; idiv T z y.

Lemma eval_ok T x : in_range T x = true → eval T x = Ok x.
Proof.
  unfold eval, in_range, int_min, int_max. intros H. destruct (it_signed T); [by rewrite H|].
  rewrite Z.mod_small; [done|]. apply andb_prop in H as [H1 H2]. lia.
Qed.

(** * cmpth: for_loop *)

Section for_loop.
Context (T : int_type).

(** The calls of the sequential loop; [fuel] bounds their number. *)
Fixpoint for_loop_seq (fuel : nat) (start finish stride : Z) : result (list Z) :=
  if start <? finish then
    match fuel with
    | O => Fail Aborted
    | S fuel => next ← iadd T start stride; l ← for_loop_seq fuel next finish stride; Ok (start :: l)
    end
  else Ok [].

(** What the parallel loop does: a call, or a thread that runs beside the rest. *)
Inductive loop_tree := LCall (i : Z) | LFork (forked rest : loop_tree).

Fixpoint for_loop_par_aux (fuel : nat) (first a b stride : Z) : result loop_tree :=
  match fuel with
  | O => Fail Aborted
  | S fuel =>
      d ← isub T b a;
      _ ← assert_ (0 <? d);
      if d =? 1 then
        x ← imul T a stride; i ← iadd T first x; Ok (LCall i)
      else
        h ← idiv T d 2; c ← iadd T a h;
        t ← for_loop_par_aux fuel first a c stride;
        r ← for_loop_par_aux fuel first c b stride;
        Ok (LFork t r)
  end.

(** [for_loop_strided] with the parallel policy. *)
Definition for_loop_par (fuel : nat) (first last stride : Z) : result (option loop_tree) :=
  d ← isub T last first;
  if d =? 0 then Ok None else
  x ← iadd T d stride; x ← isub T x 1; n ← idiv T x stride;
  t ← for_loop_par_aux fuel first 0 n stride;
  Ok (Some t).

(** The orders in which the calls can happen: those of a thread and of the one it
    forked interleave. *)
Inductive merge {A} : list A → list A → list A → Prop :=
| merge_nil : merge [] [] []
| merge_left x l1 l2 l : merge l1 l2 l → merge (x :: l1) l2 (x :: l)
| merge_right x l1 l2 l : merge l1 l2 l → merge l1 (x :: l2) (x :: l).

Inductive runs_as : loop_tree → list Z → Prop :=
| runs_call i : runs_as (LCall i) [i]
| runs_fork t r l1 l2 l : runs_as t l1 → runs_as r l2 → merge l1 l2 l → runs_as (LFork t r) l.

Fixpoint depth (t : loop_tree) : nat :=
  match t with LCall _ => O | LFork t r => S (depth t `max` depth r) end.

Fixpoint calls (t : loop_tree) : list Z :=
  match t with LCall i => [i] | LFork t r => calls t ++ calls r end.
End for_loop.

(** * meomp: the static schedule *)

Record for_bounds := ForBounds { fb_last : bool; fb_lower : Z; fb_upper : Z; fb_stride : Z }.

(** The number of iterations, [trip_count]. *)
Definition kmpc_trip_count (T : int_type) (old_lower old_upper incr : Z) : result Z :=
  if 0 <? incr then d ← isub T old_upper old_lower; q ← idiv T d (convert T incr); iadd T q 1
  else
    d ← isub T old_lower old_upper; m ← isub (signed_of T) 0 incr;
    q ← idiv T d (convert T m); iadd T q 1.

(** [kmpc_for_static_init] in the thread [thread_num] of [num_threads]. *)
Definition kmpc_for_static_init (T : int_type) (num_threads thread_num gtid old_lower old_upper incr : Z)
    : result for_bounds :=
  let S := signed_of T in
  _ ← assert_ (gtid =? thread_num);
  let num_threads := convert T num_threads in
  _ ← assert_ (negb (incr =? 0));
  _ ← assert_ (Bool.eqb (0 <? incr) (old_lower <=? old_upper));
  trip_count ← kmpc_trip_count T old_lower old_upper incr;
  c ← roundup_div T trip_count num_threads;
  big_chunk_inc_count ← imul T c (convert T incr);
  o ← imul T (convert T gtid) big_chunk_inc_count;
  new_lower ← iadd T old_lower o;
  x ← iadd T new_lower big_chunk_inc_count;
  new_upper ← isub T x (convert T incr);
  last_iter ←
    (if 0 <? incr then
       if new_lower <=? old_upper then y ← isub T old_upper (convert T incr); Ok (y <? new_upper) else Ok false
     else
       if old_upper <=? new_lower then y ← isub T old_upper (convert T incr); Ok (new_upper <? y) else Ok false);
  Ok (ForBounds last_iter new_lower new_upper (convert S trip_count)).

(** The iterations from [lower] to [upper], which the loop may reach. *)
Definition loop_iters (lower upper incr : Z) : list Z :=
  (λ k, lower + k * incr) <$> seqZ 0 ((upper - lower) / incr + 1).

(** The loop that a compiler makes of the bounds: it stops at the end of the
    whole loop. *)
Definition thread_iters (fb : for_bounds) (old_upper incr : Z) : list Z :=
  loop_iters (fb_lower fb) (if 0 <? incr then fb_upper fb `min` old_upper else fb_upper fb `max` old_upper) incr.

(** * meomp: the arguments of a parallel region *)

Definition max_num_kmp_args : nat := 15.

(** [kmp_invoker]. *)
Record kmp_invoker := KmpInvoker { ki_func : Z; ki_argc : nat; ki_ptrs : list Z }.

(** The loop of [__kmpc_fork_call] over the arguments. *)
Fixpoint copy_args (i : nat) (args ptrs : list Z) : result (list Z) :=
  match args with
  | [] => Ok ptrs
  | p :: args => if (i <? length ptrs)%nat then copy_args (S i) args (<[i := p]> ptrs) else Fail OutOfBounds
  end.

Definition kmpc_fork_call (microtask : Z) (args : list Z) : result kmp_invoker :=
  ptrs ← copy_args 0 args (repeat 0 max_num_kmp_args);
  Ok (KmpInvoker microtask (length args) ptrs).

(** [kmp_invoker::handler]: the arguments of the call, or the exception. *)
Definition kmp_handler (thread_num : Z) (inv : kmp_invoker) : result (Z * list Z) :=
  if (ki_argc inv <=? max_num_kmp_args)%nat
  then Ok (ki_func inv, thread_num :: thread_num :: take (ki_argc inv) (ki_ptrs inv))
  else Fail Aborted.

(** * The blocks of iterations *)

Lemma concat_fmap_inner {A B C} (f : B → C) (g : A → list B) (l : list A) :
  concat ((λ x, f <$> g x) <$> l) = f <$> concat (g <$> l).
Proof. induction l as [|x l IH]; [done|]. cbn. by rewrite IH, fmap_app. Qed.

(** Blocks of [c] indices each cover the first [n]. *)
Lemma concat_blocks (c n : Z) (k : nat) :
  0 < c → 0 ≤ n →
  concat ((λ t, seqZ (t * c) (c `min` (n - t * c))) <$> seqZ 0 (Z.of_nat k)) = seqZ 0 (n `min` (Z.of_nat k * c)).
Proof.
  intros Hc Hn. induction k as [|k IH]; [by rewrite seqZ_nil, seqZ_nil by lia|].
  rewrite seqZ_S, fmap_app, concat_app, IH. cbn. rewrite app_nil_r.
  replace (0 + Z.of_nat k) with (Z.of_nat k) by lia.
  destruct (Z.le_ge_cases n (Z.of_nat k * c)) as [H|H].
  - rewrite (seqZ_nil (Z.of_nat k * c)) by lia. rewrite app_nil_r. f_equal. nia.
  - replace (n `min` (Z.of_nat k * c)) with (Z.of_nat k * c) by lia.
    replace (n `min` (Z.of_nat (S k) * c)) with (Z.of_nat k * c + (c `min` (n - Z.of_nat k * c))) by nia.
    by rewrite seqZ_app by lia.
Qed.


(** The end of a block, or of the loop. *)
Lemma block_length lower upper incr a c :
  incr ≠ 0 →
  ((if 0 <? incr then (lower + (a + c - 1) * incr) `min` upper else (lower + (a + c - 1) * incr) `max` upper)
     - (lower + a * incr)) / incr + 1
  = c `min` ((upper - lower) / incr + 1 - a).
Proof.
  intros Hi. assert ((upper - lower) / incr - a = (upper - (lower + a * incr)) / incr) as E.
  { replace (upper - (lower + a * incr)) with ((upper - lower) + (- a) * incr) by lia. rewrite Z.div_add by done. lia. }
  assert (c - 1 = ((lower + (a + c - 1) * incr) - (lower + a * incr)) / incr) as E'.
  { replace (lower + (a + c - 1) * incr - (lower + a * incr)) with ((c - 1) * incr) by lia. by rewrite Z.div_mul. }
  destruct (Z.ltb_spec 0 incr) as [Hp|Hp].
  - destruct (Z.le_ge_cases (lower + (a + c - 1) * incr) upper) as [H|H].
    + rewrite Z.min_l by done. rewrite <- E'.
      assert ((lower + (a + c - 1) * incr - (lower + a * incr)) / incr ≤ (upper - (lower + a * incr)) / incr)
        by (apply Z.div_le_mono; lia). lia.
    + rewrite Z.min_r by done. rewrite <- E.
      assert ((upper - (lower + a * incr)) / incr ≤ (lower + (a + c - 1) * incr - (lower + a * incr)) / incr)
        by (apply Z.div_le_mono; lia). lia.
  - destruct (Z.le_ge_cases (lower + (a + c - 1) * incr) upper) as [H|H].
    + rewrite Z.max_r by done. rewrite <- E.
      assert ((upper - (lower + a * incr)) / incr ≤ (lower + (a + c - 1) * incr - (lower + a * incr)) / incr).
      { rewrite <- (Z.div_opp_opp (upper - _)), <- (Z.div_opp_opp (lower + _ - _)) by done. apply Z.div_le_mono; lia. }
      lia.
    + rewrite Z.max_l by done. rewrite <- E'.
      assert ((lower + (a + c - 1) * incr - (lower + a * incr)) / incr ≤ (upper - (lower + a * incr)) / incr).
      { rewrite <- (Z.div_opp_opp (upper - _)), <- (Z.div_opp_opp (lower + _ - _)) by done. apply Z.div_le_mono; lia. }
      lia.
Qed.

Lemma block_iters lower upper incr a c last stride :
  incr ≠ 0 →
  thread_iters (ForBounds last (lower + a * incr) (lower + (a + c - 1) * incr) stride) upper incr
  = (λ k, lower + k * incr) <$> seqZ a (c `min` ((upper - lower) / incr + 1 - a)).
Proof.
  intros Hi. unfold thread_iters, loop_iters. cbn [fb_lower fb_upper]. rewrite block_length by done.
  set (n := c `min` _). replace (seqZ a n) with (Z.add a <$> seqZ 0 n) by (rewrite fmap_add_seqZ; f_equal; lia).
  rewrite <- list_fmap_compose. apply list_fmap_ext.
  intros i k _. cbn. lia.
Qed.

(** * The static schedule *)

Section schedule.
Context (T : int_type) (num_threads lower upper incr : Z).

Definition trip_count : Z := (upper - lower) / incr + 1.
Definition chunk : Z := (trip_count + num_threads - 1) / num_threads.
Definition last_index : Z := trip_count - 1.

(** Every value that the schedule computes fits in the type. *)
Definition schedule_fits : bool :=
  forallb (in_range T) [lower; upper; incr; num_threads; Z.abs incr; Z.abs (upper - lower); trip_count + num_threads;
    chunk * incr; num_threads * (chunk * incr); lower + num_threads * (chunk * incr); upper - incr].

(** A loop that makes an iteration, and does not end where it began if it goes
    down. *)
Definition loop_ok : Prop := 0 < incr ∧ lower ≤ upper ∨ incr < 0 ∧ upper < lower.

(** The bounds that the thread [tid] gets. *)
Definition thread_bounds (tid : Z) : for_bounds :=
  let a := tid * chunk in
  ForBounds ((a <=? last_index) && (last_index <? a + chunk)) (lower + a * incr) (lower + (a + chunk - 1) * incr)
    (convert (signed_of T) trip_count).

Lemma in_range_between a b x :
  in_range T a = true → in_range T b = true → a `min` b ≤ x ≤ a `max` b → in_range T x = true.
Proof. unfold in_range. rewrite !andb_true_iff, !Z.leb_le. lia. Qed.

Lemma in_range_0 : 0 < it_bits T → in_range T 0 = true.
Proof.
  intros Hb. unfold in_range, int_min, int_max. assert (0 < 2 ^ (it_bits T - 1)) by (apply Z.pow_pos_nonneg; lia).
  assert (0 < 2 ^ it_bits T) by (apply Z.pow_pos_nonneg; lia). destruct (it_signed T); rewrite andb_true_iff, !Z.leb_le; lia.
Qed.

Lemma convert_ok x : 0 < it_bits T → in_range T x = true → convert T x = x.
Proof.
  intros Hb. unfold in_range, int_min, int_max, convert. rewrite andb_true_iff, !Z.leb_le. destruct (it_signed T).
  - assert (2 ^ it_bits T = 2 * 2 ^ (it_bits T - 1)) as -> by (rewrite <- Z.pow_succ_r by lia; f_equal; lia).
    intros H. rewrite Z.mod_small; lia.
  - intros H. by rewrite Z.mod_small by lia.
Qed.

Lemma trip_pos : loop_ok → 0 < trip_count ∧ ∃ r, upper = lower + last_index * incr + r ∧ 0 ≤ r * Z.sgn incr < Z.abs incr.
Proof.
  intros Hok. unfold last_index, trip_count. assert (incr ≠ 0) as Hi by (destruct Hok; lia).
  pose proof (Z.div_mod (upper - lower) incr Hi) as Hd. destruct Hok as [[Hp Hl]|[Hp Hl]].
  - pose proof (Z.mod_pos_bound (upper - lower) incr Hp). pose proof (Z.div_pos (upper - lower) incr). split; [lia|].
    exists ((upper - lower) mod incr). rewrite Z.sgn_pos by lia. lia.
  - pose proof (Z.mod_neg_bound (upper - lower) incr Hp).
    assert (0 ≤ (upper - lower) / incr) by (rewrite <- Z.div_opp_opp by done; apply Z.div_pos; lia). split; [lia|].
    exists ((upper - lower) mod incr). rewrite Z.sgn_neg by lia. lia.
Qed.

Lemma chunk_pos : loop_ok → 0 < num_threads → 0 < chunk ∧ trip_count ≤ num_threads * chunk.
Proof.
  intros Hok Hn. destruct (trip_pos Hok) as [Ht _]. unfold chunk.
  pose proof (Z.div_mod (trip_count + num_threads - 1) num_threads). pose proof (Z.mod_pos_bound (trip_count + num_threads - 1) num_threads).
  split; [|lia]. apply Z.div_str_pos. lia.
Qed.

(** The arithmetic of the bounds of a thread stays in range. *)
Lemma thread_in_range tid :
  0 < it_bits T → loop_ok → 0 ≤ tid < num_threads → schedule_fits = true →
  in_range T tid = true ∧ in_range T (tid * (chunk * incr)) = true ∧ in_range T (lower + tid * (chunk * incr)) = true
  ∧ in_range T (lower + tid * (chunk * incr) + chunk * incr) = true
  ∧ in_range T (lower + tid * (chunk * incr) + chunk * incr - incr) = true.
Proof.
  intros Hb Hok Ht Hf. destruct (chunk_pos Hok ltac:(lia)) as [Hc _]. pose proof (in_range_0 Hb) as H0.
  unfold schedule_fits in Hf. cbn [forallb] in Hf. rewrite !andb_true_iff in Hf.
  destruct Hf as (Hlo & Hup & Hin & Hnt & _ & _ & _ & Hci & Hnci & Hlnci & _).
  set (B := chunk * incr) in *.
  assert (Hsgn : 0 < incr ∧ 0 < B ∧ incr ≤ B ∨ incr < 0 ∧ B < 0 ∧ B ≤ incr) by (destruct Hok; unfold B; nia).
  split_and!.
  - apply (in_range_between 0 num_threads); [done|done|lia].
  - apply (in_range_between 0 (num_threads * B)); [done|done|]. nia.
  - apply (in_range_between lower (lower + num_threads * B)); [done|done|]. nia.
  - apply (in_range_between lower (lower + num_threads * B)); [done|done|]. nia.
  - apply (in_range_between lower (lower + num_threads * B)); [done|done|]. nia.
Qed.

(** Who gets the last iteration. *)
Lemma last_test a :
  loop_ok →
  (if 0 <? incr then (if lower + a * incr <=? upper then upper - incr <? lower + (a + chunk - 1) * incr else false)
   else (if upper <=? lower + a * incr then lower + (a + chunk - 1) * incr <? upper - incr else false))
  = (a <=? last_index) && (last_index <? a + chunk).
Proof.
  intros Hok. destruct (trip_pos Hok) as [_ (r & Hu & Hr)]. set (li := last_index) in *. clearbody li.
  destruct Hok as [[Hp _]|[Hp _]].
  - rewrite Z.sgn_pos in Hr by lia. destruct (Z.ltb_spec 0 incr); [|lia].
    destruct (Z.leb_spec (lower + a * incr) upper), (Z.leb_spec a li); cbn; nia.
  - rewrite Z.sgn_neg in Hr by lia. destruct (Z.ltb_spec 0 incr); [lia|].
    destruct (Z.leb_spec upper (lower + a * incr)), (Z.leb_spec a li); cbn; nia.
Qed.

Lemma trip_count_computed :
  0 < it_bits T → loop_ok → 0 < num_threads → schedule_fits = true →
  kmpc_trip_count T lower upper incr = Ok trip_count.
Proof.
  unfold kmpc_trip_count. intros Hb Hok Hn Hf. destruct (trip_pos Hok) as [Htp _]. pose proof (in_range_0 Hb) as H0.
  unfold schedule_fits in Hf. cbn [forallb] in Hf. rewrite !andb_true_iff in Hf.
  destruct Hf as (Hlo & Hup & Hin & Hnt & Hai & Hd & Htn & _).
  assert (in_range T trip_count = true) as Htr by (apply (in_range_between 0 (trip_count + num_threads)); [done|done|lia]).
  assert (in_range T (trip_count - 1) = true) as Htr1 by (apply (in_range_between 0 (trip_count + num_threads)); [done|done|lia]).
  destruct Hok as [[Hp Hle]|[Hp Hle]].
  - destruct (Z.ltb_spec 0 incr); [|lia]. rewrite Z.abs_eq in Hd by lia. unfold isub, idiv, iadd. rewrite eval_ok by done.
    cbn [mbind result_bind]. rewrite convert_ok by done. destruct (Z.eqb_spec incr 0); [lia|].
    rewrite Z.quot_div_nonneg by lia. rewrite (eval_ok T ((upper - lower) / incr)) by (by unfold trip_count in Htr1; rewrite Z.add_simpl_r in Htr1).
    cbn [mbind result_bind]. by rewrite eval_ok.
  - destruct (Z.ltb_spec 0 incr); [lia|]. rewrite <- Z.abs_opp, Z.abs_eq in Hd by lia. rewrite <- Z.abs_opp, Z.abs_eq in Hai by lia.
    assert (Hsg : it_signed T = true).
    { unfold in_range, int_min in Hin. destruct (it_signed T); [done|]. rewrite andb_true_iff, !Z.leb_le in Hin. lia. }
    assert (HS : signed_of T = T) by (destruct T; cbn in *; by subst).
    unfold isub, idiv, iadd. rewrite HS, Z.sub_0_l. replace (lower - upper) with (- (upper - lower)) by lia. rewrite eval_ok by done.
    cbn [mbind result_bind]. rewrite eval_ok by done. cbn [mbind result_bind]. rewrite convert_ok by done.
    destruct (Z.eqb_spec (- incr) 0); [lia|]. rewrite Z.quot_div_nonneg by lia. rewrite Z.div_opp_opp by lia.
    rewrite (eval_ok T ((upper - lower) / incr)) by (by unfold trip_count in Htr1; rewrite Z.add_simpl_r in Htr1).
    cbn [mbind result_bind]. by rewrite eval_ok.
Qed.

Lemma chunk_computed :
  0 < it_bits T → loop_ok → 0 < num_threads → schedule_fits = true → roundup_div T trip_count (convert T num_threads) = Ok chunk.
Proof.
  intros Hb Hok Hn Hf. destruct (trip_pos Hok) as [Htp _]. destruct (chunk_pos Hok Hn) as [Hc _]. pose proof (in_range_0 Hb) as H0.
  unfold schedule_fits in Hf. cbn [forallb] in Hf. rewrite !andb_true_iff in Hf.
  destruct Hf as (_ & _ & _ & Hnt & _ & _ & Htn & _). rewrite convert_ok by done.
  unfold roundup_div, iadd, isub, idiv. rewrite eval_ok by done. cbn [mbind result_bind].
  rewrite eval_ok by (apply (in_range_between 0 (trip_count + num_threads)); [done|done|lia]). cbn [mbind result_bind].
  destruct (Z.eqb_spec num_threads 0); [lia|]. rewrite Z.quot_div_nonneg by lia. apply eval_ok.
  apply (in_range_between 0 (trip_count + num_threads)); [done|done|]. fold chunk.
  assert (chunk ≤ trip_count + num_threads - 1) by (unfold chunk; apply Z.div_le_upper_bound; nia). lia.
Qed.

(** The bounds of each thread. *)
Lemma static_init_value tid :
  0 < it_bits T → loop_ok → 0 ≤ tid < num_threads → schedule_fits = true →
  kmpc_for_static_init T num_threads tid tid lower upper incr = Ok (thread_bounds tid).
Proof.
  intros Hb Hok Ht Hf. destruct (thread_in_range tid Hb Hok Ht Hf) as (R1 & R2 & R3 & R4 & R5).
  pose proof Hf as Hf'. unfold schedule_fits in Hf'. cbn [forallb] in Hf'. rewrite !andb_true_iff in Hf'.
  destruct Hf' as (Hlo & Hup & Hin & Hnt & _ & _ & _ & Hci & _ & _ & Hui & _).
  unfold kmpc_for_static_init. rewrite Z.eqb_refl. cbn [assert_ mbind result_bind].
  destruct (Z.eqb_spec incr 0) as [->|Hi]; [destruct Hok; lia|]. cbn [negb assert_ mbind result_bind].
  assert (Bool.eqb (0 <? incr) (lower <=? upper) = true) as ->.
  { destruct Hok; destruct (Z.ltb_spec 0 incr), (Z.leb_spec lower upper); try done; lia. }
  cbn [assert_ mbind result_bind]. rewrite trip_count_computed by (done || lia). cbn [mbind result_bind].
  rewrite chunk_computed by (done || lia). cbn [mbind result_bind]. unfold imul, iadd, isub. rewrite !convert_ok by done.
  rewrite (eval_ok T (chunk * incr)) by done. cbn [mbind result_bind]. rewrite (eval_ok T (tid * _)) by done. cbn [mbind result_bind].
  rewrite (eval_ok T (lower + _)) by done. cbn [mbind result_bind]. rewrite (eval_ok T (lower + _ + _)) by done. cbn [mbind result_bind].
  rewrite (eval_ok T (lower + _ + _ - _)) by done. cbn [mbind result_bind]. rewrite (eval_ok T (upper - incr)) by done.
  unfold thread_bounds. rewrite <- last_test by done.
  replace (lower + tid * (chunk * incr) + chunk * incr - incr) with (lower + (tid * chunk + chunk - 1) * incr) by lia.
  replace (lower + tid * (chunk * incr)) with (lower + tid * chunk * incr) by lia. by repeat case_match.
Qed.
End schedule.

(** C27: The static schedule shares out the loop: when no value overflows, every
    thread gets its bounds, the iterations of the threads in order are those of
    the loop, each once, and the thread that is told it has the last iteration is
    the one that has it. *)
Theorem static_schedule_partition T num_threads lower upper incr :
  0 < it_bits T → 0 < num_threads → loop_ok lower upper incr → schedule_fits T num_threads lower upper incr = true →
  ∃ fb : Z → for_bounds,
    (∀ tid, 0 ≤ tid < num_threads → kmpc_for_static_init T num_threads tid tid lower upper incr = Ok (fb tid))
    ∧ concat ((λ tid, thread_iters (fb tid) upper incr) <$> seqZ 0 num_threads) = loop_iters lower upper incr
    ∧ ∀ tid, fb_last (fb tid) = true ↔ lower + last_index lower upper incr * incr ∈ thread_iters (fb tid) upper incr.
Proof.
  intros Hb Hn Hok Hf. exists (thread_bounds T num_threads lower upper incr).
  destruct (trip_pos _ _ _ Hok) as [Htp _]. destruct (chunk_pos num_threads _ _ _ Hok Hn) as [Hc Hcov].
  assert (incr ≠ 0) as Hi by (destruct Hok; lia). split_and!.
  - intros tid Ht. by apply static_init_value.
  - unfold loop_iters. fold (trip_count lower upper incr).
    replace (seqZ 0 num_threads) with (seqZ 0 (Z.of_nat (Z.to_nat num_threads))) by (f_equal; lia). set (f := λ k, lower + k * incr).
    set (g := λ t, seqZ (t * chunk num_threads lower upper incr)
      (chunk num_threads lower upper incr `min` (trip_count lower upper incr - t * chunk num_threads lower upper incr))).
    rewrite (list_fmap_ext _ (λ t, f <$> g t)) by (intros j t _; unfold thread_bounds; by rewrite block_iters).
    rewrite concat_fmap_inner. unfold g. rewrite concat_blocks by lia. do 2 f_equal. lia.
  - intros tid. unfold thread_bounds. cbn [fb_last]. rewrite block_iters by done.
    fold (trip_count lower upper incr). rewrite andb_true_iff, Z.leb_le, Z.ltb_lt, list_elem_of_fmap. unfold last_index. split.
    + intros [H1 H2]. exists (trip_count lower upper incr - 1). split; [done|]. apply elem_of_seqZ. lia.
    + intros (k & E & Hk%elem_of_seqZ). assert (k = trip_count lower upper incr - 1) as -> by nia. lia.
Qed.

(** * The parallel for *)

Lemma merge_perm {A} (l1 l2 l : list A) : merge l1 l2 l → l ≡ₚ l1 ++ l2.
Proof.
  induction 1 as [|x l1 l2 l _ IH|x l1 l2 l _ IH]; [done|cbn; by rewrite IH|].
  rewrite IH. by apply Permutation_middle.
Qed.

Lemma merge_app {A} (l1 l2 : list A) : merge l1 l2 (l1 ++ l2).
Proof.
  induction l1 as [|x l1 IH]; [|by constructor]. cbn. induction l2 as [|y l2 IH]; by constructor.
Qed.

Lemma runs_perm t l : runs_as t l → l ≡ₚ calls t.
Proof.
  induction 1 as [i|t r l1 l2 l _ IH1 _ IH2 Hm]; [done|]. cbn. rewrite (merge_perm _ _ _ Hm), IH1, IH2. done.
Qed.

Lemma runs_calls t : runs_as t (calls t).
Proof. induction t as [i|t IHt r IHr]; [constructor|]. cbn. econstructor; [done|done|apply merge_app]. Qed.

Lemma for_loop_par_aux_S T fuel first a b stride :
  for_loop_par_aux T (S fuel) first a b stride =
    (d ← isub T b a; _ ← assert_ (0 <? d);
     if d =? 1 then x ← imul T a stride; i ← iadd T first x; Ok (LCall i)
     else h ← idiv T d 2; c ← iadd T a h; t ← for_loop_par_aux T fuel first a c stride;
       r ← for_loop_par_aux T fuel first c b stride; Ok (LFork t r)).
Proof. done. Qed.

Lemma for_loop_par_aux_ok T n first a b stride :
  0 < it_bits T → 0 ≤ a < b → b - a ≤ 2 ^ Z.of_nat n → 0 < stride → in_range T first = true → in_range T b = true →
  in_range T ((b - 1) * stride) = true → in_range T (first + (b - 1) * stride) = true →
  ∃ t, for_loop_par_aux T (S n) first a b stride = Ok t
    ∧ calls t = (λ k, first + k * stride) <$> seqZ a (b - a) ∧ (depth t ≤ n)%nat.
Proof.
  intros Hb0. revert a b. induction n as [|n IH]; intros a b Hab Hn Hs Hf Hb Hbs Hfb;
    pose proof (in_range_0 T Hb0) as H0; rewrite for_loop_par_aux_S; unfold isub;
    rewrite (eval_ok T (b - a)) by (apply (in_range_between T 0 b); [done|done|lia]); cbn [mbind result_bind];
    (rewrite (assert_true (0 <? b - a)) by (by apply Z.ltb_lt; lia)); cbn [mbind result_bind]; destruct (Z.eqb_spec (b - a) 1) as [E|E].
  1,3: unfold imul, iadd; rewrite (eval_ok T (a * stride)) by (apply (in_range_between T 0 ((b - 1) * stride)); [done|done|nia]);
    cbn [mbind result_bind]; rewrite eval_ok by (apply (in_range_between T first (first + (b - 1) * stride)); [done|done|nia]);
    eexists; split; [done|]; split; [|cbn; lia]; rewrite E; cbn; by rewrite seqZ_cons, seqZ_nil by lia.
  { change (2 ^ Z.of_nat 0) with 1 in Hn. lia. }
  assert (2 ^ Z.of_nat (S n) = 2 * 2 ^ Z.of_nat n) as Hpow by (rewrite <- Z.pow_succ_r by lia; f_equal; lia).
  set (h := (b - a) / 2). assert (0 < h ∧ 2 * h ≤ b - a < 2 * h + 2) as Hh
    by (unfold h; pose proof (Z.div_mod (b - a) 2); pose proof (Z.mod_pos_bound (b - a) 2); lia).
  unfold idiv, iadd. cbn [Z.eqb]. rewrite Z.quot_div_nonneg by lia. fold h.
  rewrite (eval_ok T h) by (apply (in_range_between T 0 b); [done|done|lia]). cbn [mbind result_bind].
  rewrite (eval_ok T (a + h)) by (apply (in_range_between T 0 b); [done|done|lia]). cbn [mbind result_bind].
  destruct (IH a (a + h)) as (t & Et & Ct & Dt); [lia|nia|done|done| | |..].
  { apply (in_range_between T 0 b); [done|done|lia]. }
  { apply (in_range_between T 0 ((b - 1) * stride)); [done|done|nia]. }
  { apply (in_range_between T first (first + (b - 1) * stride)); [done|done|nia]. }
  destruct (IH (a + h) b) as (r & Er & Cr & Dr); [lia|lia|done..|].
  rewrite Et. cbn [mbind result_bind]. rewrite Er. eexists. split; [done|].
  split; [|cbn; lia]. cbn. rewrite Ct, Cr, <- fmap_app. f_equal.
  replace (b - a) with ((a + h - a) + (b - (a + h))) by lia. rewrite seqZ_app by lia. repeat f_equal; lia.
Qed.

Lemma for_loop_seq_ok T fuel first last stride :
  0 < stride → in_range T first = true → in_range T (last + stride - 1) = true → last - first ≤ Z.of_nat fuel →
  for_loop_seq T fuel first last stride = Ok (loop_iters first (last - 1) stride).
Proof.
  intros Hs Hf Hl. revert first Hf. induction fuel as [|fuel IH]; intros first Hf Hfu; cbn [for_loop_seq];
    destruct (Z.ltb_spec first last) as [H|H]; try lia.
  1,3: unfold loop_iters; rewrite seqZ_nil; [done|]; assert ((last - 1 - first) / stride < 0); [apply Z.div_lt_upper_bound; lia|lia].
  assert (in_range T (first + stride) = true) as Hn by (apply (in_range_between T first (last + stride - 1)); [done|done|lia]).
  unfold iadd. rewrite eval_ok by done. cbn [mbind result_bind]. rewrite IH by (done || lia). cbn [mbind result_bind].
  f_equal. unfold loop_iters.
  replace (last - 1 - first) with ((last - 1 - (first + stride)) + 1 * stride) by lia. rewrite Z.div_add by lia.
  set (n := (last - 1 - (first + stride)) / stride). assert (-1 ≤ n) by (apply Z.div_le_lower_bound; lia).
  rewrite (seqZ_cons 0 (n + 1 + 1)) by lia. cbn [fmap list_fmap]. f_equal; [lia|].
  replace (seqZ (Z.succ 0) (Z.pred (n + 1 + 1))) with (Z.add 1 <$> seqZ 0 (n + 1)) by (rewrite fmap_add_seqZ; f_equal; lia).
  rewrite <- list_fmap_compose. apply list_fmap_ext. intros j k _. cbn. lia.
Qed.

(** C31: The parallel for makes the calls of the sequential one: when no value
    overflows it forks a tree whose depth is the logarithm of the number of
    iterations, and in whatever order the threads run, the calls are a
    permutation of those of the sequential loop, whose order is one of them. *)
Theorem for_loop_par_spec T first last stride n :
  0 < it_bits T → 0 < stride → first < last → in_range T first = true → in_range T (last + stride - 1) = true →
  in_range T (last - first + stride) = true → last - first ≤ 2 ^ Z.of_nat n →
  ∃ t fuel, for_loop_par T (S n) first last stride = Ok (Some t) ∧ (depth t ≤ n)%nat
    ∧ for_loop_seq T fuel first last stride = Ok (calls t)
    ∧ runs_as t (calls t) ∧ ∀ l, runs_as t l → l ≡ₚ calls t.
Proof.
  intros Hb Hs Hlt Hf Hl Hd Hn. pose proof (in_range_0 T Hb) as H0. unfold for_loop_par, isub, iadd, idiv.
  rewrite (eval_ok T (last - first)) by (apply (in_range_between T 0 (last - first + stride)); [done|done|lia]).
  cbn [mbind result_bind]. destruct (Z.eqb_spec (last - first) 0); [lia|]. rewrite eval_ok by done. cbn [mbind result_bind].
  rewrite (eval_ok T (_ - 1)) by (apply (in_range_between T 0 (last - first + stride)); [done|done|lia]). cbn [mbind result_bind].
  destruct (Z.eqb_spec stride 0); [lia|]. rewrite Z.quot_div_nonneg by lia.
  set (N := (last - first + stride - 1) / stride).
  assert (0 < N) as HN0 by (apply Z.div_str_pos; lia).
  assert (N * stride ≤ last - first + stride - 1) as HN by (unfold N; rewrite Z.mul_comm; apply Z.mul_div_le; lia).
  assert (last - first ≤ N * stride) as HN'.
  { pose proof (Z.div_mod (last - first + stride - 1) stride). pose proof (Z.mod_pos_bound (last - first + stride - 1) stride). unfold N. nia. }
  rewrite (eval_ok T N) by (apply (in_range_between T 0 (last - first + stride)); [done|done|nia]). cbn [mbind result_bind].
  destruct (for_loop_par_aux_ok T n first 0 N stride) as (t & Et & Ct & Dt); try done; try nia.
  - apply (in_range_between T 0 (last - first + stride)); [done|done|nia].
  - apply (in_range_between T 0 (last - first + stride)); [done|done|nia].
  - apply (in_range_between T first (last + stride - 1)); [done|done|nia].
  - exists t, (Z.to_nat (last - first)). rewrite Et. cbn [mbind result_bind]. split_and!; [done|done| |apply runs_calls|intros l; apply runs_perm].
    rewrite for_loop_seq_ok by (done || lia). f_equal. rewrite Ct. unfold loop_iters. do 2 f_equal.
    rewrite Z.sub_0_r. unfold N. replace (last - first + stride - 1) with ((last - 1 - first) + 1 * stride) by lia.
    by rewrite Z.div_add by lia.
Qed.

(** Given the bounds the other way round, the sequential loop makes no call, and
    the parallel loop fails its assertion. *)
Lemma for_loop_par_reversed T n first last :
  0 < it_bits T → it_signed T = true → last < first → in_range T (last - first) = true → in_range T (last - first + 1) = true →
  for_loop_seq T n first last 1 = Ok [] ∧ for_loop_par T (S n) first last 1 = Fail AssertionFailure.
Proof.
  intros Hb Hs Hlt Hd Hd1. split; [destruct n; cbn; (destruct (Z.ltb_spec first last); [lia|done])|].
  unfold for_loop_par, isub, iadd, idiv. rewrite (eval_ok T (last - first)) by done. cbn [mbind result_bind].
  destruct (Z.eqb_spec (last - first) 0); [lia|]. rewrite eval_ok by done. cbn [mbind result_bind].
  rewrite Z.add_simpl_r, eval_ok by done. cbn [mbind result_bind Z.eqb]. rewrite Z.quot_1_r, eval_ok by done.
  cbn [mbind result_bind]. rewrite for_loop_par_aux_S. unfold isub. rewrite Z.sub_0_r, eval_ok by done.
  cbn [mbind result_bind]. by destruct (Z.ltb_spec 0 (last - first)); [lia|].
Qed.

(** * The defects of the static schedule *)

(** Where the static schedule fails: a loop of one iteration that goes down
    fails the assertion on the direction; a loop of 2^31 - 1 iterations overflows
    the 32-bit trip count in the rounding division, with any number of threads;
    and with 64-bit unsigned bounds the loop from 0 to 0 tells no thread that it
    has the last iteration. *)
Theorem static_schedule_defects num_threads tid :
  0 ≤ tid < num_threads → num_threads < 2 ^ 31 →
  (∀ T i, in_range T i = true → kmpc_for_static_init T num_threads tid tid i i (-1) = Fail AssertionFailure)
  ∧ kmpc_for_static_init int32 num_threads tid tid 0 (2 ^ 31 - 2) 1 = Fail Overflow
  ∧ ∃ fb, kmpc_for_static_init uint64 num_threads tid tid 0 0 1 = Ok fb ∧ fb_last fb = false.
Proof.
  intros Ht Hn. split_and!.
  - intros T i _. unfold kmpc_for_static_init. rewrite Z.eqb_refl. cbn [assert_ mbind result_bind Z.eqb negb].
    by rewrite Z.leb_refl.
  - unfold kmpc_for_static_init. rewrite Z.eqb_refl. cbn [assert_ mbind result_bind].
    change (kmpc_trip_count int32 0 (2 ^ 31 - 2) 1) with (Ok (2 ^ 31 - 1)).
    change (Bool.eqb (0 <? 1) (0 <=? 2 ^ 31 - 2)) with true. cbn [assert_ mbind result_bind negb Z.eqb].
    assert (in_range int32 num_threads = true) as Hr by (unfold in_range, int_min, int_max; cbn; rewrite andb_true_iff, !Z.leb_le; lia).
    rewrite (convert_ok int32 num_threads) by done. unfold roundup_div, iadd, eval. cbn [it_signed int32].
    assert (in_range int32 (2 ^ 31 - 1 + num_threads) = false) as ->; [|done].
    unfold in_range, int_min, int_max. cbn. rewrite andb_false_iff, !Z.leb_gt. lia.
  - eexists. split.
    + unfold kmpc_for_static_init. rewrite Z.eqb_refl. cbn [assert_ mbind result_bind].
      change (kmpc_trip_count uint64 0 0 1) with (Ok 1). change (Bool.eqb (0 <? 1) (0 <=? 0)) with true.
      cbn [assert_ mbind result_bind negb Z.eqb].
      assert (∀ x, 0 ≤ x < 2 ^ 64 → in_range uint64 x = true) as Hin
        by (intros x Hx; unfold in_range, int_min, int_max; cbn; rewrite andb_true_iff, !Z.leb_le; lia).
      rewrite !(convert_ok uint64) by (done || (apply Hin; lia)).
      unfold roundup_div, iadd, isub, imul, idiv. rewrite (eval_ok uint64 (1 + num_threads)) by (apply Hin; lia).
      cbn [mbind result_bind]. replace (1 + num_threads - 1) with num_threads by lia.
      rewrite (eval_ok uint64 num_threads) by (apply Hin; lia). cbn [mbind result_bind].
      destruct (Z.eqb_spec num_threads 0); [lia|]. rewrite Z.quot_same by lia. cbn [mbind result_bind].
      change (eval uint64 1) with (Ok 1). cbn [mbind result_bind]. change (eval uint64 (1 * 1)) with (Ok 1). cbn [mbind result_bind].
      rewrite Z.mul_1_r, (eval_ok uint64 tid) by (apply Hin; lia). cbn [mbind result_bind].
      rewrite Z.add_0_l, (eval_ok uint64 tid) by (apply Hin; lia). cbn [mbind result_bind].
      rewrite (eval_ok uint64 (tid + 1)) by (apply Hin; lia). cbn [mbind result_bind].
      rewrite Z.add_simpl_r, (eval_ok uint64 tid) by (apply Hin; lia). cbn [mbind result_bind].
      change (eval uint64 (0 - 1)) with (Ok (2 ^ 64 - 1)). cbn [mbind result_bind].
      replace (2 ^ 64 - 1 <? tid) with false by (symmetry; apply Z.ltb_ge; lia).
      change (0 <? 1) with true. cbv iota. by destruct (tid <=? 0).
    + done.
Qed.

Lemma static_schedule_partition_witness :
  ∃ fb : Z → for_bounds,
    (∀ tid, 0 ≤ tid < 3 → kmpc_for_static_init int32 3 tid tid 3 30 4 = Ok (fb tid))
    ∧ concat ((λ tid, thread_iters (fb tid) 30 4) <$> seqZ 0 3) = [3; 7; 11; 15; 19; 23; 27].
Proof.
  destruct (static_schedule_partition int32 3 3 30 4 eq_refl eq_refl (or_introl (conj eq_refl (Zle_bool_imp_le 3 30 eq_refl))) eq_refl)
    as (fb & H1 & H2 & _). exists fb. split; [exact H1|]. rewrite H2. reflexivity.
Defined.

Lemma for_loop_par_spec_witness :
  ∃ t fuel, for_loop_par int32 6 2 20 3 = Ok (Some t) ∧ (depth t ≤ 5)%nat ∧ for_loop_seq int32 fuel 2 20 3 = Ok (calls t)
    ∧ runs_as t (calls t) ∧ ∀ l, runs_as t l → l ≡ₚ calls t.
Proof. exact (for_loop_par_spec int32 2 20 3 5 eq_refl eq_refl eq_refl eq_refl eq_refl eq_refl (Zle_bool_imp_le (20 - 2) (2 ^ Z.of_nat 5) eq_refl)). Defined.

Lemma static_schedule_defects_witness :
  kmpc_for_static_init int32 4 3 3 0 (2 ^ 31 - 2) 1 = Fail Overflow.
Proof. exact (proj1 (proj2 (static_schedule_defects 4 3 ltac:(lia) eq_refl))). Defined.

(** * The arguments of a parallel region *)

Lemma copy_args_ok args i ptrs :
  (i + length args ≤ length ptrs)%nat →
  ∃ ptrs', copy_args i args ptrs = Ok ptrs' ∧ take (i + length args) ptrs' = take i ptrs ++ args ∧ length ptrs' = length ptrs.
Proof.
  revert i ptrs. induction args as [|p args IH]; intros i ptrs Hl; cbn [copy_args length] in *.
  - exists ptrs. by rewrite Nat.add_0_r, app_nil_r.
  - destruct (Nat.ltb_spec i (length ptrs)); [|lia].
    destruct (IH (S i) (<[i := p]> ptrs)) as (ptrs' & E & Ht & Hlen); [rewrite length_insert; lia|].
    exists ptrs'. split; [done|]. rewrite length_insert in Hlen. split; [|done].
    replace (i + S (length args))%nat with (S i + length args)%nat by lia. rewrite Ht.
    erewrite take_S_r by (apply list_lookup_insert_eq; lia). rewrite take_insert_ge by lia. by rewrite <- app_assoc.
Qed.

Lemma copy_args_overflow args i ptrs :
  (i ≤ length ptrs)%nat → (length ptrs < i + length args)%nat → copy_args i args ptrs = Fail OutOfBounds.
Proof.
  revert i ptrs. induction args as [|p args IH]; intros i ptrs Hi Hl; cbn [copy_args length] in *; [lia|].
  destruct (Nat.ltb_spec i (length ptrs)); [|done]. apply IH; rewrite length_insert; lia.
Qed.

(** A parallel region gets its arguments: up to 15 are passed on unchanged
    after the two thread numbers; with more, the copy writes past the array of
    pointers before the check that rejects them is reached. *)
Theorem fork_call_spec microtask args thread_num :
  if (length args <=? max_num_kmp_args)%nat
  then ∃ inv, kmpc_fork_call microtask args = Ok inv
    ∧ kmp_handler thread_num inv = Ok (microtask, thread_num :: thread_num :: args)
  else kmpc_fork_call microtask args = Fail OutOfBounds.
Proof.
  unfold kmpc_fork_call. destruct (Nat.leb_spec (length args) max_num_kmp_args) as [H|H].
  - destruct (copy_args_ok args 0 (repeat 0 max_num_kmp_args)) as (ptrs & -> & Ht & _); [by rewrite repeat_length|].
    eexists. split; [done|]. unfold kmp_handler. cbn [ki_argc ki_func ki_ptrs].
    destruct (Nat.leb_spec (length args) max_num_kmp_args); [|lia]. cbn in Ht. by rewrite Ht.
  - by rewrite copy_args_overflow by (rewrite repeat_length; lia).
Qed.
