(* ===== verification/OmpWorker.v ===== *)
(** The worker of an OpenMP thread: src/omp_worker.hpp of meomp over
    wss/basic_single_worker.hpp and wss/basic_worker_tls.hpp of cmpth.

    The worker runs the user code on a stack of its own, and the loop of the
    runtime on the stack of the thread; they alternate. When the user code needs
    the runtime it stores a command and switches, and the runtime switches back
    when the command is done. *)
From Stdlib Require Import ZArith Lia.
From stdpp Require Import base tactics list.
From S2P Require Import Prelude.

(** [cmd_code_type], without the two commands for profiling. *)
Inductive cmd_code := CmdNone | CmdBarrier | CmdStartParallel | CmdEndParallel | CmdExitParallel | CmdExitProgram.

#[export] Instance cmd_code_eq_dec : EqDecision cmd_code.
Proof. solve_decision. Defined.

(** [cmd_info_type]; the function and its data name the parallel region. *)
Record cmd := Cmd { c_code : cmd_code; c_func : nat }.

#[export] Instance cmd_eq_dec : EqDecision cmd.
Proof. solve_decision. Defined.

Definition no_cmd : cmd := Cmd CmdNone 0.

Record worker := Worker {
  w_cmd : cmd;          (** cmd_info_ *)
  w_ready : bool;       (** is_cmd_ready_ *)
  w_root : bool;        (** root_cont_ holds the runtime's context *)
  w_work : bool;        (** work_cont_ holds the user code's context *)
  w_stack : bool;       (** work_stk_ holds the stack *)
  w_tls : bool;         (** the thread-local pointer is set to this worker *)
  w_pins : Z;           (** how often the stack is pinned in the address space *)
  w_thread_num : nat;
  w_num_threads : nat;
}.

Definition set_cmd c r w := Worker c r (w_root w) (w_work w) (w_stack w) (w_tls w) (w_pins w) (w_thread_num w) (w_num_threads w).
Definition set_conts r k t w := Worker (w_cmd w) (w_ready w) r k t (w_tls w) (w_pins w) (w_thread_num w) (w_num_threads w).
Definition set_user b n w := Worker (w_cmd w) (w_ready w) (w_root w) (w_work w) (w_stack w) b n (w_thread_num w) (w_num_threads w).
Definition set_nums n t w := Worker (w_cmd w) (w_ready w) (w_root w) (w_work w) (w_stack w) (w_tls w) (w_pins w) n t.

(** A continuation or stack is moved into a member; the destructor of one that is
    still there ends the program. *)
Definition move_in (b : bool) : result bool := if b then Fail Aborted else Ok true.

(** * basic_worker_tls *)

Definition initialize_tls (w : worker) : result worker :=
  _ ← assert_ (negb (w_tls w)); Ok (set_user true (w_pins w) w).

Definition check_cur_worker (w : worker) : result () := assert_ (w_tls w).

Definition finalize_tls (w : worker) : result worker :=
  _ ← check_cur_worker w; Ok (set_user false (w_pins w) w).

(** * basic_single_worker *)

(** [execute]: the runtime starts the user code on the stack. *)
Definition execute (w : worker) : result worker :=
  _ ← check_cur_worker w; _ ← assert_ (w_stack w);
  r ← move_in (w_root w); Ok (set_conts r (w_work w) false w).

(** [suspend]: the user code gives the control to the runtime. *)
Definition suspend (w : worker) : result worker :=
  _ ← check_cur_worker w; _ ← assert_ (w_root w);
  k ← move_in (w_work w); Ok (set_conts false k (w_stack w) w).

(** [resume]: the runtime gives the control to the user code. *)
Definition resume (w : worker) : result worker :=
  _ ← check_cur_worker w; _ ← assert_ (w_work w);
  r ← move_in (w_root w); Ok (set_conts r false (w_stack w) w).

(** [exit]: the user code ends; its stack is given back. *)
Definition exit (w : worker) : result worker :=
  _ ← check_cur_worker w; _ ← assert_ (w_root w);
  t ← move_in (w_stack w); Ok (set_conts false (w_work w) t w).

(** * omp_worker *)

Definition set_work_stack (w : worker) : result worker := t ← move_in (w_stack w); Ok (set_conts (w_root w) (w_work w) t w).
Definition reset_work_stack (w : worker) : worker := set_conts (w_root w) (w_work w) false w.

Definition start_user_code (w : worker) : result worker :=
  w ← initialize_tls w; Ok (set_user (w_tls w) (w_pins w + 1) w).

Definition end_user_code (w : worker) : result worker := finalize_tls (set_user (w_tls w) (w_pins w - 1) w).

(** [start_worker], until the user code runs. *)
Definition start_worker (w : worker) : result worker := w ← start_user_code w; execute w.

(** [set_cmd_and_suspend] of the user code, and the rest of the call of the
    runtime that switched to it. *)
Definition set_cmd_and_suspend (c : cmd) (w : worker) : result worker :=
  _ ← assert_ (bool_decide (c_code c ≠ CmdNone));
  w ← suspend (set_cmd c true w); end_user_code w.

Definition set_cmd_and_exit (c : cmd) (w : worker) : result worker :=
  _ ← assert_ (bool_decide (c_code c ≠ CmdNone));
  w ← exit (set_cmd c true w); end_user_code w.

Definition wait_for_cmd (w : worker) : result (cmd * worker) :=
  _ ← assert_ (w_ready w); Ok (w_cmd w, set_cmd no_cmd (w_ready w) w).

(** [reset_cmd], and the rest of [set_cmd_and_suspend]. *)
Definition reset_cmd (w : worker) : result worker :=
  let w := set_cmd no_cmd (w_ready w) w in
  _ ← assert_ (w_ready w);
  w ← start_user_code (set_cmd (w_cmd w) false w);
  w ← resume w;
  _ ← assert_ (negb (w_ready w)); Ok w.

(** The destructors of the members. *)
Definition destroy_worker (w : worker) : result () :=
  if w_root w || w_work w || w_stack w then Fail Aborted else Ok tt.

Definition new_worker : worker := Worker no_cmd false false false false false 0 0 1.

(** * The states a worker goes through *)

Definition wk_idle n t : worker := Worker no_cmd false false false true false 0 n t.
Definition wk_user n t : worker := Worker no_cmd false true false false true 1 n t.
Definition wk_called c n t : worker := Worker c true false true false false 0 n t.
Definition wk_ended c n t : worker := Worker c true false false true false 0 n t.

Lemma start_worker_idle n t : start_worker (wk_idle n t) = Ok (wk_user n t).
Proof. done. Qed.

Lemma suspend_user c n t : c_code c ≠ CmdNone → set_cmd_and_suspend c (wk_user n t) = Ok (wk_called c n t).
Proof. intros H. unfold set_cmd_and_suspend. by rewrite bool_decide_true. Qed.

Lemma exit_user c n t : c_code c ≠ CmdNone → set_cmd_and_exit c (wk_user n t) = Ok (wk_ended c n t).
Proof. intros H. unfold set_cmd_and_exit. by rewrite bool_decide_true. Qed.

Lemma wait_called c n t : wait_for_cmd (wk_called c n t) = Ok (c, wk_called no_cmd n t).
Proof. done. Qed.

Lemma wait_ended c n t : wait_for_cmd (wk_ended c n t) = Ok (c, wk_ended no_cmd n t).
Proof. done. Qed.

Lemma reset_called c n t : reset_cmd (wk_called c n t) = Ok (wk_user n t).
Proof. done. Qed.

Lemma destroy_ended c n t : destroy_worker (reset_work_stack (wk_ended c n t)) = Ok tt.
Proof. done. Qed.
