(* ===== verification/Omp.v ===== *)
(** The OpenMP runtime: src/dist_worker.hpp, child_worker.hpp and
    child_worker_group.hpp of meomp, for any number of processes and of threads
    per process.

    Each process has a distributed worker. On process 0, the master, it runs the
    main function of the application and is thread 0 of every parallel region; on
    the other processes, the slaves, it obeys the commands that the master
    broadcasts. In a parallel region each process has child workers. The barrier
    of a process is that of MutexThm (basic_cv_barrier.hpp): an arrival, and a
    departure when the generation has passed. A broadcast is received when it has
    been sent; a barrier of the address space returns when all processes called
    it. *)
From Stdlib Require Import ZArith Lia.
From stdpp Require Import base tactics functions list.
From S2P Require Import Prelude.
From S2P Require Import OmpWorker.

(** The application: for each parallel region the number of barriers that the
    main function executes before it and the number that every thread executes
    in it. *)
Abbreviation program := (list (nat * nat)).

Definition outside (prog : program) (j : nat) : nat := from_option fst O (prog !! j).
Definition inside (prog : program) (j : nat) : nat := from_option snd O (prog !! j).

(** Where the main function is: before region [j], after [o] barriers, or in
    region [j], after [k] barriers. *)
Inductive upos := UOut (j o : nat) | UIn (j k : nat).

(** Where a thread is in [barrier_on]. *)
Inductive bpc :=
| BArrive1                (** the first barrier of the process *)
| BWait1 (gen : nat)
| BDsm                    (** the barrier of the address space *)
| BDsmWait (n : nat)
| BArrive2                (** the second barrier of the process *)
| BWait2 (gen : nat).

(** Where a child worker is; it runs region [j] and has passed [k] barriers. *)
Inductive cpc :=
| CNone
| CStart (j : nat)              (** start_worker *)
| CUser (j k : nat)             (** the user code *)
| CRoot (j k : nat)             (** wait_for_cmd, execute_command *)
| CBar (j k : nat) (b : bpc)    (** barrier_on *)
| CReset (j k : nat)            (** reset_cmd *)
| CDone (j : nat)               (** the loop has returned *)
| CJoined (j : nat)
| CFailed.

(** Where a distributed worker is. *)
Inductive dpc :=
| DStart                  (** start_worker *)
| DUser                   (** the user code of the master *)
| DRoot                   (** wait_for_cmd *)
| DBcast (c : cmd)        (** the master sends the command *)
| DRecv                   (** a slave receives a command *)
| DExec (c : cmd)         (** execute_command *)
| DSync1 (c : cmd)        (** sp.barrier at the start of a region *)
| DSync1Wait (c : cmd) (n : nat)
| DFork (c : cmd)         (** start_parallel_on_children *)
| DJoin (c : cmd) (i : nat)   (** end_parallel_on_children *)
| DSync2 (c : cmd)        (** sp.barrier at the end of a region *)
| DSync2Wait (c : cmd) (n : nat)
| DBar (b : bpc)          (** barrier_on_master *)
| DReset                  (** reset_cmd *)
| DExit
| DFailed.

(** The calls of the barrier of the address space. *)
Inductive sync_call := SStart (j : nat) | SInner (j k : nat) | SEnd (j : nat).

Record child := Child { ch_pc : cpc; ch_wk : worker }.

Record proc := Proc {
  pr_dist : dpc;
  pr_pos : upos;                  (** the main function, on the master *)
  pr_wk : worker;                 (** the worker of the master thread *)
  pr_par : bool;                  (** is_parallel_ *)
  pr_bar : option (nat * nat);    (** bar_: the arrivals and the generation *)
  pr_child : nat → child;         (** wis_ *)
  pr_nchild : nat;                (** num_child_threads_ *)
  pr_calls : list sync_call;      (** the calls of sp.barrier *)
  pr_recv : nat;                  (** the broadcasts received *)
}.

Definition set_dist d x := Proc d (pr_pos x) (pr_wk x) (pr_par x) (pr_bar x) (pr_child x) (pr_nchild x) (pr_calls x) (pr_recv x).
Definition set_pos u x := Proc (pr_dist x) u (pr_wk x) (pr_par x) (pr_bar x) (pr_child x) (pr_nchild x) (pr_calls x) (pr_recv x).
Definition set_wk w x := Proc (pr_dist x) (pr_pos x) w (pr_par x) (pr_bar x) (pr_child x) (pr_nchild x) (pr_calls x) (pr_recv x).
Definition set_par b x := Proc (pr_dist x) (pr_pos x) (pr_wk x) b (pr_bar x) (pr_child x) (pr_nchild x) (pr_calls x) (pr_recv x).
Definition set_bar b x := Proc (pr_dist x) (pr_pos x) (pr_wk x) (pr_par x) b (pr_child x) (pr_nchild x) (pr_calls x) (pr_recv x).
Definition set_child i c x := Proc (pr_dist x) (pr_pos x) (pr_wk x) (pr_par x) (pr_bar x) (<[i := c]> (pr_child x)) (pr_nchild x) (pr_calls x) (pr_recv x).
Definition set_children f n x := Proc (pr_dist x) (pr_pos x) (pr_wk x) (pr_par x) (pr_bar x) f n (pr_calls x) (pr_recv x).
Definition add_call a x := Proc (pr_dist x) (pr_pos x) (pr_wk x) (pr_par x) (pr_bar x) (pr_child x) (pr_nchild x) (pr_calls x ++ [a]) (pr_recv x).
Definition set_recv n x := Proc (pr_dist x) (pr_pos x) (pr_wk x) (pr_par x) (pr_bar x) (pr_child x) (pr_nchild x) (pr_calls x) n.

Section omp.
Context (prog : program) (num_procs threads_per_proc : nat).

(** * The application *)

(** What the main function asks the runtime for, and where it goes on. *)
Definition main_cmd (u : upos) : cmd :=
  match u with
  | UOut j o =>
      if (j <? length prog)%nat then
        if (o <? outside prog j)%nat then Cmd CmdBarrier 0 else Cmd CmdStartParallel j
      else Cmd CmdExitProgram 0
  | UIn j k => if (k <? inside prog j)%nat then Cmd CmdBarrier 0 else Cmd CmdEndParallel 0
  end.

Definition main_next (u : upos) : upos :=
  match u with
  | UOut j o => if (o <? outside prog j)%nat then UOut j (S o) else UIn j 0
  | UIn j k => if (k <? inside prog j)%nat then UIn j (S k) else UOut (S j) 0
  end.

(** What a child thread asks for. *)
Definition child_cmd (j k : nat) : cmd :=
  if (k <? inside prog j)%nat then Cmd CmdBarrier 0 else Cmd CmdExitParallel 0.

(** * child_worker_group *)

Definition is_master (p : nat) : bool := (p =? 0)%nat.
Definition total_num_threads : nat := num_procs * threads_per_proc.
Definition thread_num_first (p : nat) : nat := p * threads_per_proc.
Definition num_children (p : nat) : nat := threads_per_proc - (if is_master p then 1 else 0).
Definition child_thread_num (p i : nat) : nat := thread_num_first p + (if is_master p then 1 else 0) + i.

Definition new_child (p j i : nat) : result child :=
  w ← set_work_stack (set_nums (child_thread_num p i) total_num_threads new_worker);
  Ok (Child (CStart j) w).

(** [start_parallel]. *)
Definition start_parallel (p j : nat) (x : proc) : result proc :=
  let f i := match new_child p j i with Ok c => c | Fail _ => Child CFailed new_worker end in
  Ok (set_children (λ i, if (i <? num_children p)%nat then f i else Child CNone new_worker) (num_children p)
       (set_bar (Some (0, 0)%nat) x)).

(** [arrive_and_wait] of the barrier of the process, up to the wait: the
    generation to wait for, or none. *)
Definition bar_arrive (x : proc) : result (proc * option nat) :=
  match pr_bar x with
  | Some (cur, gen) =>
      if (S cur <? threads_per_proc)%nat then Ok (set_bar (Some (S cur, gen)) x, Some gen)
      else Ok (set_bar (Some (0, S gen)%nat) x, None)
  | None => Fail OutOfBounds
  end.

Definition bar_passed (gen : nat) (x : proc) : bool :=
  match pr_bar x with Some (_, gen') => negb (gen' =? gen)%nat | None => false end.

(** A step of [barrier_on] of the thread [num]: the next place, or the return. [a]
    is the call of sp.barrier it makes, and [all n] whether every process has
    made [n] calls. *)
Definition barrier_step (p num : nat) (a : sync_call) (all : nat → bool) (b : bpc) (x : proc) : option (result (proc * option bpc)) :=
  let sync := if (num =? thread_num_first p)%nat then BDsm else BArrive2 in
  match b with
  | BArrive1 => Some (r ← bar_arrive x; Ok (fst r, Some (match snd r with Some gen => BWait1 gen | None => sync end)))
  | BWait1 gen => if bar_passed gen x then Some (Ok (x, Some sync)) else None
  | BDsm => Some (Ok (add_call a x, Some (BDsmWait (S (length (pr_calls x))))))
  | BDsmWait n => if all n then Some (Ok (x, Some BArrive2)) else None
  | BArrive2 => Some (r ← bar_arrive x; Ok (fst r, match snd r with Some gen => Some (BWait2 gen) | None => None end))
  | BWait2 gen => if bar_passed gen x then Some (Ok (x, None)) else None
  end.

(** * child_worker *)

Definition child_step (p i : nat) (all : nat → bool) (x : proc) : option (result proc) :=
  let wk := ch_wk (pr_child x i) in
  let go pc w x := set_child i (Child pc w) x in
  match ch_pc (pr_child x i) with
  | CStart j => Some (w ← start_worker wk; Ok (go (CUser j 0) w x))
  | CUser j k =>
      Some (let c := child_cmd j k in
            w ← (if bool_decide (c_code c = CmdExitParallel) then set_cmd_and_exit c wk else set_cmd_and_suspend c wk);
            Ok (go (CRoot j k) w x))
  | CRoot j k =>
      Some (r ← wait_for_cmd wk;
            match c_code (fst r) with
            | CmdBarrier => Ok (go (if pr_bar x is Some _ then CBar j k BArrive1 else CReset j k) (snd r) x)
            | CmdExitParallel => Ok (go (CDone j) (snd r) x)
            | _ => Fail Aborted
            end)
  | CBar j k b =>
      match barrier_step p (w_thread_num wk) (SInner j k) all b x with
      | Some r => Some (r ← r; Ok (go (match snd r with Some b => CBar j k b | None => CReset j k end) wk (fst r)))
      | None => None
      end
  | CReset j k => Some (w ← reset_cmd wk; Ok (go (CUser j (S k)) w x))
  | _ => None
  end.

(** * dist_worker *)

(** A command of the application has been executed. *)
Definition cmd_done (p : nat) (x : proc) : proc := set_dist (if is_master p then DReset else DRecv) x.

(** The region whose end the distributed worker handles. *)
Definition end_region (p : nat) (c : cmd) (x : proc) : nat :=
  if is_master p then match pr_pos x with UOut j _ | UIn j _ => j end else c_func c.

Definition inner_call (x : proc) : sync_call :=
  match pr_pos x with UIn j k => SInner j k | UOut j o => SInner j o end.

(** [end_parallel] after the joins: the workers and the barrier are destroyed. *)
Fixpoint destroy_children (n : nat) (x : proc) : result () :=
  match n with
  | O => Ok tt
  | S n => _ ← destroy_worker (ch_wk (pr_child x n)); destroy_children n x
  end.

Definition end_children (x : proc) : result proc :=
  _ ← destroy_children (pr_nchild x) x;
  Ok (set_children (λ _, Child CNone new_worker) 0 (set_bar None x)).

(** [execute_command], until its first wait. *)
Definition execute_command (p : nat) (c : cmd) (x : proc) : result proc :=
  match c_code c with
  | CmdStartParallel => Ok (set_dist (DSync1 c) x)
  | CmdEndParallel => if is_master p then Ok (set_dist (DJoin c 0) x) else Fail Aborted
  | CmdBarrier => Ok (if pr_bar x is Some _ then set_dist (DBar BArrive1) x else cmd_done p x)
  | CmdExitProgram => Ok (set_dist DExit x)
  | CmdNone | CmdExitParallel => Fail Aborted
  end.

(** A step of the distributed worker of process [p], with the command that it
    broadcasts; [sent] are the broadcasts so far. *)
Definition dist_step (p : nat) (sent : list cmd) (all : nat → bool) (x : proc) : option (result (proc * list cmd)) :=
  let local r := Some (x ← r; Ok (x, [])) in
  match pr_dist x with
  | DStart => local (w ← start_worker (pr_wk x); Ok (set_dist DUser (set_wk w x)))
  | DUser =>
      local (let c := main_cmd (pr_pos x) in
             w ← (if bool_decide (c_code c = CmdExitProgram) then set_cmd_and_exit c (pr_wk x) else set_cmd_and_suspend c (pr_wk x));
             Ok (set_dist DRoot (set_wk w x)))
  | DRoot =>
      local (r ← wait_for_cmd (pr_wk x);
             Ok (set_dist (if pr_par x then DExec (fst r) else DBcast (fst r)) (set_wk (snd r) x)))
  | DBcast c => Some (Ok (set_dist (DExec c) x, [c]))
  | DRecv =>
      match sent !! pr_recv x with
      | Some c => local (Ok (set_dist (DExec c) (set_recv (S (pr_recv x)) x)))
      | None => None
      end
  | DExec c => local (execute_command p c x)
  | DSync1 c => local (Ok (set_dist (DSync1Wait c (S (length (pr_calls x)))) (add_call (SStart (c_func c)) x)))
  | DSync1Wait c n => if all n then local (Ok (set_dist (DFork c) x)) else None
  | DFork c =>
      local (x ← start_parallel p (c_func c) x;
             let x := set_par true x in
             Ok (if is_master p then cmd_done p (set_wk (set_nums 0 total_num_threads (pr_wk x)) x)
                 else set_dist (DJoin c 0) x))
  | DJoin c i =>
      if (i <? pr_nchild x)%nat then
        match ch_pc (pr_child x i) with
        | CDone j => local (Ok (set_dist (DJoin c (S i)) (set_child i (Child (CJoined j) (reset_work_stack (ch_wk (pr_child x i)))) x)))
        | _ => None
        end
      else local (x ← end_children x; Ok (set_dist (DSync2 c) x))
  | DSync2 c => local (Ok (set_dist (DSync2Wait c (S (length (pr_calls x)))) (add_call (SEnd (end_region p c x)) x)))
  | DSync2Wait c n =>
      if all n then
        local (let x := set_par false x in
               Ok (cmd_done p (if is_master p then set_wk (set_nums 0 1 (pr_wk x)) x else x)))
      else None
  | DBar b =>
      match barrier_step p (w_thread_num (pr_wk x)) (inner_call x) all b x with
      | Some r => local (r ← r; Ok (match snd r with Some b => set_dist (DBar b) (fst r) | None => cmd_done p (fst r) end))
      | None => None
      end
  | DReset => local (w ← reset_cmd (pr_wk x); Ok (set_dist DUser (set_pos (main_next (pr_pos x)) (set_wk w x))))
  | DExit | DFailed => None
  end.

(** * The system *)

Record omp := Omp { om_sent : list cmd; om_procs : nat → proc }.

Definition all_called (s : omp) (n : nat) : bool :=
  forallb (λ q, (n <=? length (pr_calls (om_procs s q)))%nat) (seq 0 num_procs).

Definition settle_dist (s : omp) (p : nat) (r : result (proc * list cmd)) : omp :=
  match r with
  | Ok (x, l) => Omp (om_sent s ++ l) (<[p := x]> (om_procs s))
  | Fail _ => Omp (om_sent s) (<[p := set_dist DFailed (om_procs s p)]> (om_procs s))
  end.

Definition settle_child (s : omp) (p i : nat) (r : result proc) : omp :=
  match r with
  | Ok x => Omp (om_sent s) (<[p := x]> (om_procs s))
  | Fail _ => Omp (om_sent s) (<[p := set_child i (Child CFailed new_worker) (om_procs s p)]> (om_procs s))
  end.

Inductive omp_step (s : omp) : omp → Prop :=
| omp_step_dist p r :
    (p < num_procs)%nat → dist_step p (om_sent s) (all_called s) (om_procs s p) = Some r →
    omp_step s (settle_dist s p r)
| omp_step_child p i r :
    (p < num_procs)%nat → child_step p i (all_called s) (om_procs s p) = Some r →
    omp_step s (settle_child s p i r).

Definition new_proc (p : nat) : proc :=
  Proc (if is_master p then DStart else DRecv) (UOut 0 0) (wk_idle 0 1) false None (λ _, Child CNone new_worker) 0 [] 0.

Definition omp_init : omp := Omp [] new_proc.

Inductive omp_reach : omp → Prop :=
| omp_reach_init : omp_reach omp_init
| omp_reach_step s s' : omp_reach s → omp_step s s' → omp_reach s'.
End omp.
