(* ===== verification/OmpInv.v ===== *)
(** The invariant of the OpenMP runtime: where every process is in the program,
    which commands it received, which calls of the barrier of the address space
    it made, and how far the threads of its parallel region are. *)
From Stdlib Require Import ZArith Lia.
From stdpp Require Import base tactics functions list.
From S2P Require Import Prelude.
From S2P Require Import OmpWorker.
From S2P Require Import Omp.

#[global] Open Scope nat_scope.

(** * The barrier of a process *)

Fixpoint cnt (n : nat) (f : nat → bool) : nat :=
  match n with O => O | S n => (if f n then 1 else 0) + cnt n f end.

Lemma cnt_ext n f g : (∀ i, i < n → f i = g i) → cnt n f = cnt n g.
Proof. induction n as [|n IH]; intros H; [done|]. cbn. rewrite (H n) by lia. f_equal. apply IH. auto. Qed.

Lemma cnt_le n f : cnt n f ≤ n.
Proof. induction n as [|n IH]; [done|]. cbn. case_match; lia. Qed.

Lemma cnt_update n f g t :
  t < n → (∀ i, i ≠ t → g i = f i) → cnt n g + (if f t then 1 else 0) = cnt n f + (if g t then 1 else 0).
Proof.
  induction n as [|n IH]; intros Ht H; [lia|]. cbn. destruct (decide (t = n)) as [->|Hne].
  - rewrite (cnt_ext n g f) by (intros i Hi; apply H; lia). lia.
  - rewrite (H n) by lia. specialize (IH ltac:(lia) H). lia.
Qed.

Lemma cnt_full n f : cnt n f = n → ∀ i, i < n → f i = true.
Proof.
  induction n as [|n IH]; intros H i Hi; [lia|]. cbn in H. pose proof (cnt_le n f). destruct (f n) eqn:E; [|lia].
  destruct (decide (i = n)) as [->|]; [done|]. apply IH; lia.
Qed.

Lemma cnt_none n f : (∀ i, i < n → f i = false) → cnt n f = 0.
Proof. induction n as [|n IH]; intros H; [done|]. cbn. rewrite (H n) by lia. apply IH. auto. Qed.

(** What the barrier sees of a thread: how often it arrived, and the generation
    that it waits for. *)
Abbreviation view := (nat * option nat)%type.

Definition waits_for (gen : nat) (v : view) : bool := bool_decide (snd v = Some gen).

Record bar_ok (n : nat) (V : nat → view) (cur gen : nat) : Prop := {
  bo_none i : i < n → snd (V i) = None → fst (V i) = gen;
  bo_some i g : i < n → snd (V i) = Some g → fst (V i) = S g ∧ (gen = g ∨ gen = S g);
  bo_cur : cur = cnt n (λ i, waits_for gen (V i));
  bo_lt : cur < n;
}.

Lemma bar_ok_ext n V V' cur gen : bar_ok n V cur gen → (∀ i, i < n → V' i = V i) → bar_ok n V' cur gen.
Proof.
  intros [H1 H2 H3 H4] E. constructor; [intros i Hi; rewrite E by done; auto|intros i g Hi; rewrite E by done; auto| |done].
  rewrite H3. apply cnt_ext. intros i Hi. by rewrite E.
Qed.

Lemma bar_new n V : 0 < n → (∀ i, i < n → V i = (0, None)) → bar_ok n V 0 0.
Proof.
  intros Hn E. constructor; [intros i Hi; by rewrite E|intros i g Hi; by rewrite E| |done].
  symmetry. apply cnt_none. intros i Hi. by rewrite E.
Qed.

Lemma cnt_waits n V gen t a v :
  t < n → V t = (a, None) →
  cnt n (λ i, waits_for gen (<[t := v]> V i)) = cnt n (λ i, waits_for gen (V i)) + (if waits_for gen v then 1 else 0).
Proof.
  intros Ht E. pose proof (cnt_update n (λ i, waits_for gen (V i)) (λ i, waits_for gen (<[t := v]> V i)) t Ht) as Hu.
  cbn beta in Hu. rewrite fn_lookup_insert, E in Hu. change (waits_for gen (a, None)) with false in Hu. rewrite <- Hu; [lia|].
  intros i Hi. by rewrite fn_lookup_insert_ne.
Qed.

Lemma waits_self gen a : waits_for gen (a, Some gen) = true.
Proof. by apply bool_decide_eq_true. Qed.

(** An arrival. *)
Lemma bar_arrives n V cur gen t a :
  bar_ok n V cur gen → t < n → V t = (a, None) →
  (S cur < n → bar_ok n (<[t := (S a, Some gen)]> V) (S cur) gen)
  ∧ (n ≤ S cur → bar_ok n (<[t := (S a, None)]> V) 0 (S gen)).
Proof.
  intros [H1 H2 H3 H4] Ht E. assert (a = gen) as -> by (specialize (H1 t Ht); rewrite E in H1; auto).
  assert (∀ v, ∀ i, i ≠ t → <[t := v]> V i = V i) as Hne by (intros v i Hi; by rewrite fn_lookup_insert_ne).
  pose proof (λ v, fn_lookup_insert V t v) as Heq. split; intros Hc.
  - constructor; [intros i Hi|intros i g Hi| |done]; try (destruct (decide (i = t)) as [->|Hi']; [rewrite Heq|rewrite Hne by done; auto]).
    + done.
    + intros [= <-]. auto.
    + rewrite (cnt_waits n V gen t gen) by done. rewrite waits_self. lia.
  - assert (∀ i, i < n → i ≠ t → snd (V i) = Some gen) as Hall.
    { pose proof (cnt_waits n V gen t gen (S gen, Some gen) Ht E) as Hu. rewrite waits_self, <- H3 in Hu.
      pose proof (cnt_le n (λ i, waits_for gen (<[t := (S gen, Some gen)]> V i))) as Hle.
      assert (cnt n (λ i, waits_for gen (<[t := (S gen, Some gen)]> V i)) = n) as Hfull by lia.
      intros i Hi Hi'. pose proof (cnt_full n _ Hfull i Hi) as Hf. cbn beta in Hf. rewrite Hne in Hf by done.
      by apply bool_decide_eq_true in Hf. }
    constructor; [intros i Hi|intros i g Hi| |lia]; try (destruct (decide (i = t)) as [->|Hi']; [rewrite Heq|rewrite Hne by done; auto]).
    + done.
    + rewrite Hall by done. done.
    + done.
    + rewrite Hall by done. intros [= <-]. specialize (H2 i gen Hi (Hall i Hi Hi')). lia.
    + symmetry. apply cnt_none. intros i Hi. unfold waits_for. apply bool_decide_eq_false.
      destruct (decide (i = t)) as [->|Hi']; [by rewrite Heq|]. rewrite Hne, Hall by done. intros [= ?]. lia.
Qed.

(** A departure. *)
Lemma bar_leaves n V cur gen t a g :
  bar_ok n V cur gen → t < n → V t = (a, Some g) → gen ≠ g → bar_ok n (<[t := (a, None)]> V) cur gen.
Proof.
  intros [H1 H2 H3 H4] Ht E Hg. destruct (H2 t g Ht) as [Ha [?|Hg']]; [by rewrite E|done|]. rewrite E in Ha. cbn in Ha.
  assert (∀ v, ∀ i, i ≠ t → <[t := v]> V i = V i) as Hne by (intros v i Hi; by rewrite fn_lookup_insert_ne).
  pose proof (λ v, fn_lookup_insert V t v) as Heq.
  constructor; [intros i Hi|intros i g' Hi| |done]; try (destruct (decide (i = t)) as [->|Hi']; [rewrite Heq|rewrite Hne by done; auto]).
  - cbn. lia.
  - done.
  - rewrite H3. apply cnt_ext. intros i Hi. destruct (decide (i = t)) as [->|Hi']; [|by rewrite Hne].
    rewrite Heq, E. unfold waits_for. cbn. rewrite (bool_decide_false (Some g = Some gen)) by congruence. by rewrite bool_decide_false.
Qed.

Section inv.
Context (prog : program) (num_procs threads_per_proc : nat).
#[local] Abbreviation inside := (inside prog).
#[local] Abbreviation outside := (outside prog).
#[local] Abbreviation num_children := (num_children threads_per_proc).
#[local] Abbreviation main_cmd := (main_cmd prog).
#[local] Abbreviation child_cmd := (child_cmd prog).
#[local] Abbreviation R := (length prog).

(** * The program as a sequence *)

(** The calls of the barrier of the address space before region [j]. *)
Fixpoint base (j : nat) : nat := match j with O => O | S j => base j + (inside j + 2) end.

Definition region_calls (j : nat) : list sync_call := SStart j :: (SInner j <$> seq 0 (inside j)) ++ [SEnd j].
Fixpoint calls_before (j : nat) : list sync_call := match j with O => [] | S j => calls_before j ++ region_calls j end.
Definition all_calls : list sync_call := calls_before R.

(** The commands that the master broadcasts before region [j]. *)
Fixpoint cmds_before (j : nat) : list cmd :=
  match j with O => [] | S j => cmds_before j ++ replicate (outside j) (Cmd CmdBarrier 0) ++ [Cmd CmdStartParallel j] end.
Fixpoint cbase (j : nat) : nat := match j with O => O | S j => cbase j + (outside j + 1) end.
Definition all_cmds : list cmd := cmds_before R ++ [Cmd CmdExitProgram 0].

Lemma length_calls j : length (calls_before j) = base j.
Proof.
  induction j as [|j IH]; [done|]. cbn. rewrite length_app, IH. unfold region_calls. cbn.
  rewrite length_app, length_fmap, length_seq. cbn. lia.
Qed.

Lemma calls_prefix j m : j ≤ m → calls_before j `prefix_of` calls_before m.
Proof. induction 1 as [|m H IH]; [done|]. cbn. etrans; [exact IH|]. by eexists. Qed.

Lemma call_at j n a : j < R → region_calls j !! n = Some a → all_calls !! (base j + n) = Some a.
Proof.
  intros Hj H. destruct (calls_prefix (S j) R) as [l El]; [lia|]. unfold all_calls. rewrite El. cbn.
  rewrite lookup_app_l, lookup_app_r by (rewrite ?length_app, length_calls; apply lookup_lt_Some in H; lia).
  rewrite length_calls. by replace (base j + n - base j) with n by lia.
Qed.

Lemma call_start j : j < R → all_calls !! base j = Some (SStart j).
Proof. intros Hj. rewrite <- (Nat.add_0_r (base j)). by apply call_at. Qed.

Lemma call_inner j k : j < R → k < inside j → all_calls !! S (base j + k) = Some (SInner j k).
Proof.
  intros Hj Hk. rewrite plus_n_Sm. apply call_at; [done|].
  change (((SInner j <$> seq 0 (inside j)) ++ [SEnd j]) !! k = Some (SInner j k)). rewrite lookup_app_l by (rewrite length_fmap, length_seq; lia).
  rewrite list_lookup_fmap, lookup_seq_lt by lia. done.
Qed.

Lemma call_end j : j < R → all_calls !! S (base j + inside j) = Some (SEnd j).
Proof.
  intros Hj. rewrite plus_n_Sm. apply call_at; [done|].
  change (((SInner j <$> seq 0 (inside j)) ++ [SEnd j]) !! inside j = Some (SEnd j)).
  rewrite lookup_app_r; rewrite length_fmap, length_seq; [by rewrite Nat.sub_diag|lia].
Qed.

Lemma length_cmds j : length (cmds_before j) = cbase j.
Proof. induction j as [|j IH]; [done|]. cbn. rewrite !length_app, IH, length_replicate. cbn. lia. Qed.

Lemma cmds_prefix j m : j ≤ m → cmds_before j `prefix_of` cmds_before m.
Proof. induction 1 as [|m H IH]; [done|]. cbn. etrans; [exact IH|]. by eexists. Qed.

(** The command that the main function gives outside of the regions. *)
Lemma cmd_at j o : j ≤ R → o ≤ outside j → all_cmds !! (cbase j + o) = Some (main_cmd (UOut j o)).
Proof.
  intros Hj Ho. unfold Omp.main_cmd. destruct (Nat.ltb_spec j R) as [H|H].
  - destruct (cmds_prefix (S j) R) as [l El]; [lia|]. unfold all_cmds. rewrite El. cbn [cmds_before]. rewrite <- !app_assoc.
    rewrite lookup_app_r by (rewrite length_cmds; lia). rewrite length_cmds.
    replace (cbase j + o - cbase j) with o by lia. destruct (Nat.ltb_spec o (outside j)) as [Ho'|Ho'].
    + rewrite lookup_app_l by (rewrite length_replicate; lia). by apply lookup_replicate_2.
    + rewrite lookup_app_r by (rewrite length_replicate; lia). rewrite length_replicate. by replace (o - outside j) with 0 by lia.
  - assert (j = R) as -> by lia. assert (outside R = 0) as E.
    { unfold Omp.outside. by rewrite lookup_ge_None_2. }
    rewrite E in Ho. unfold all_cmds. rewrite lookup_app_r by (rewrite length_cmds; lia). rewrite length_cmds.
    by replace (cbase R + o - cbase R) with 0 by lia.
Qed.

(** * The threads of a region *)

(** How often a thread arrived at the barrier of its process when it has passed
    [k] barriers and is at [b]. *)
Definition bview (k : nat) (b : bpc) : view :=
  match b with
  | BArrive1 => (2 * k, None)
  | BWait1 g => (2 * k + 1, Some g)
  | BDsm | BDsmWait _ | BArrive2 => (2 * k + 1, None)
  | BWait2 g => (2 * k + 2, Some g)
  end.

Definition bcalls (b : bpc) : nat := match b with BDsmWait _ | BArrive2 | BWait2 _ => 1 | _ => 0 end.

Definition cview (pc : cpc) : view :=
  match pc with
  | CUser _ k | CRoot _ k => (2 * k, None)
  | CBar _ k b => bview k b
  | CReset _ k => (2 * k + 2, None)
  | CDone j | CJoined j => (2 * inside j, None)
  | CNone | CStart _ | CFailed => (0, None)
  end.

(** The calls of sp.barrier that the first thread of the process made. *)
Definition ccalls (pc : cpc) : nat :=
  match pc with
  | CUser _ k | CRoot _ k => k
  | CBar _ k b => k + bcalls b
  | CReset _ k => S k
  | CDone j | CJoined j => inside j
  | CNone | CStart _ | CFailed => 0
  end.

(** The master thread. *)
Definition mview (x : proc) : view :=
  match pr_pos x, pr_dist x with
  | UIn _ k, DBar b => bview k b
  | UIn _ k, DReset => (2 * k + 2, None)
  | UIn _ k, _ => (2 * k, None)
  | UOut _ _, _ => (0, None)
  end.

Definition mcalls (x : proc) : nat :=
  match pr_pos x, pr_dist x with
  | UIn _ k, DBar b => k + bcalls b
  | UIn _ k, DReset => S k
  | UIn _ k, _ => k
  | UOut _ _, _ => 0
  end.

Definition parts (p : nat) (x : proc) (t : nat) : view :=
  if is_master p then match t with O => mview x | S i => cview (ch_pc (pr_child x i)) end
  else cview (ch_pc (pr_child x t)).

Definition lcalls (p : nat) (x : proc) : nat :=
  if is_master p then mcalls x else ccalls (ch_pc (pr_child x 0)).

Definition dsm_pc (b : bpc) : bool := match b with BDsm | BDsmWait _ => true | _ => false end.

Definition bar_pc_ok (p j k num : nat) (b : bpc) : Prop :=
  k < inside j ∧ (dsm_pc b = true → num = thread_num_first threads_per_proc p)
  ∧ ∀ m, b = BDsmWait m → m = S (S (base j + k)).

Definition child_ok (p j i : nat) (c : child) : Prop :=
  let n := child_thread_num threads_per_proc p i in
  let t := total_num_threads num_procs threads_per_proc in
  match ch_pc c with
  | CStart j' => j' = j ∧ ch_wk c = wk_idle n t
  | CUser j' k => j' = j ∧ k ≤ inside j ∧ ch_wk c = wk_user n t
  | CRoot j' k => j' = j ∧ k ≤ inside j ∧
      ch_wk c = (if k <? inside j then wk_called (child_cmd j k) n t else wk_ended (child_cmd j k) n t)
  | CBar j' k b => j' = j ∧ bar_pc_ok p j k n b ∧ ch_wk c = wk_called no_cmd n t
  | CReset j' k => j' = j ∧ k < inside j ∧ ch_wk c = wk_called no_cmd n t
  | CDone j' => j' = j ∧ ch_wk c = wk_ended no_cmd n t
  | CJoined j' => j' = j ∧ ch_wk c = reset_work_stack (wk_ended no_cmd n t)
  | CNone | CFailed => False
  end.

(** Process [p] is in region [j]. *)
Record region (p : nat) (x : proc) (j : nat) : Prop := {
  rg_j : j < R;
  rg_bar : ∃ cur gen, pr_bar x = Some (cur, gen) ∧ bar_ok threads_per_proc (parts p x) cur gen;
  rg_n : pr_nchild x = num_children p;
  rg_child i : i < num_children p → child_ok p j i (pr_child x i);
  rg_none i : num_children p ≤ i → ch_pc (pr_child x i) = CNone;
  rg_calls : length (pr_calls x) = S (base j + lcalls p x);
}.

(** Process [p] is in no region. *)
Definition idle (x : proc) : Prop := pr_bar x = None ∧ pr_nchild x = 0 ∧ ∀ i, ch_pc (pr_child x i) = CNone.

Definition is_joined (pc : cpc) : bool := match pc with CJoined _ => true | _ => false end.

(** The children below [m] are joined, and no others. *)
Definition joined (m : nat) (x : proc) : Prop := ∀ i, is_joined (ch_pc (pr_child x i)) = (i <? m).

Definition ncalls (x : proc) : nat := length (pr_calls x).

(** * The processes *)

(** The master outside of the regions. *)
Definition master_out (x : proc) (j o : nat) : Prop :=
  idle x ∧ pr_par x = false ∧ j ≤ R ∧ o ≤ outside j ∧ ncalls x = base j.

(** The master enters region [j]. *)
Definition master_in (x : proc) (j o : nat) (c : cmd) : Prop :=
  idle x ∧ pr_par x = false ∧ j < R ∧ o = outside j ∧ c = Cmd CmdStartParallel j ∧ pr_wk x = wk_called no_cmd 0 1.

(** The master in region [j]. *)
Definition master_region (x : proc) (j k : nat) (w : worker) : Prop :=
  region 0 x j ∧ pr_par x = true ∧ k ≤ inside j ∧ pr_wk x = w.

(** The master leaves region [j]. *)
Definition master_end (x : proc) (j k : nat) : Prop :=
  idle x ∧ pr_par x = true ∧ j < R ∧ k = inside j ∧ pr_wk x = wk_called no_cmd 0 (total_num_threads num_procs threads_per_proc).

Definition wk_back (j : nat) : worker := if j <? R then wk_called no_cmd 0 1 else wk_ended no_cmd 0 1.

Definition master_ok (x : proc) (sent : nat) : Prop :=
  let u := pr_pos x in
  let t := total_num_threads num_procs threads_per_proc in
  match pr_dist x, u with
  | DStart, UOut j o => j = 0 ∧ o = 0 ∧ master_out x j o ∧ sent = 0 ∧ pr_wk x = wk_idle 0 1
  | DUser, UOut j o => master_out x j o ∧ sent = cbase j + o ∧ pr_wk x = wk_user 0 1
  | DRoot, UOut j o => master_out x j o ∧ sent = cbase j + o
      ∧ pr_wk x = (if j <? R then wk_called (main_cmd u) 0 1 else wk_ended (main_cmd u) 0 1)
  | DBcast c, UOut j o => master_out x j o ∧ sent = cbase j + o ∧ c = main_cmd u ∧ pr_wk x = wk_back j
  | DExec c, UOut j o => master_out x j o ∧ sent = S (cbase j + o) ∧ c = main_cmd u ∧ pr_wk x = wk_back j
  | DSync1 c, UOut j o => master_in x j o c ∧ sent = S (cbase j + o) ∧ ncalls x = base j
  | DSync1Wait c n, UOut j o => master_in x j o c ∧ sent = S (cbase j + o) ∧ ncalls x = S (base j) ∧ n = S (base j)
  | DFork c, UOut j o => master_in x j o c ∧ sent = S (cbase j + o) ∧ ncalls x = S (base j)
  | DReset, UOut j o => sent = S (cbase j + o) ∧
      (master_out x j o ∧ j < R ∧ o < outside j ∧ pr_wk x = wk_called no_cmd 0 1
       ∨ o = outside j ∧ master_region x j 0 (wk_called no_cmd 0 t) ∧ joined 0 x)
  | DExit, UOut j o => master_out x j o ∧ j = R ∧ sent = S (cbase j + o)
  | DUser, UIn j k => master_region x j k (wk_user 0 t) ∧ joined 0 x ∧ sent = cbase (S j)
  | DRoot, UIn j k => master_region x j k (wk_called (main_cmd u) 0 t) ∧ joined 0 x ∧ sent = cbase (S j)
  | DExec c, UIn j k => master_region x j k (wk_called no_cmd 0 t) ∧ joined 0 x ∧ c = main_cmd u ∧ sent = cbase (S j)
  | DBar b, UIn j k => master_region x j k (wk_called no_cmd 0 t) ∧ joined 0 x ∧ bar_pc_ok 0 j k 0 b ∧ sent = cbase (S j)
  | DReset, UIn j k => sent = cbase (S j) ∧
      (master_region x j k (wk_called no_cmd 0 t) ∧ joined 0 x ∧ k < inside j
       ∨ idle x ∧ pr_par x = false ∧ j < R ∧ k = inside j ∧ ncalls x = base (S j) ∧ pr_wk x = wk_called no_cmd 0 1)
  | DJoin c i, UIn j k => master_region x j k (wk_called no_cmd 0 t) ∧ k = inside j ∧ joined i x ∧ i ≤ num_children 0 ∧ sent = cbase (S j)
  | DSync2 c, UIn j k => master_end x j k ∧ sent = cbase (S j) ∧ ncalls x = S (base j + inside j)
  | DSync2Wait c n, UIn j k => master_end x j k ∧ sent = cbase (S j) ∧ ncalls x = base (S j) ∧ n = base (S j)
  | _, _ => False
  end.

(** A slave that executes the command that starts region [j]. *)
Definition slave_in (x : proc) (c : cmd) (j : nat) : Prop := j < R ∧ c = Cmd CmdStartParallel j ∧ pr_recv x = cbase (S j).

Definition slave_ok (p : nat) (x : proc) : Prop :=
  match pr_dist x with
  | DRecv => idle x ∧ ∃ j o, j ≤ R ∧ o ≤ outside j ∧ pr_recv x = cbase j + o ∧ ncalls x = base j
  | DExec c => idle x ∧ ∃ j o, j ≤ R ∧ o ≤ outside j ∧ pr_recv x = S (cbase j + o) ∧ c = main_cmd (UOut j o) ∧ ncalls x = base j
  | DSync1 c => idle x ∧ ∃ j, slave_in x c j ∧ ncalls x = base j
  | DSync1Wait c n => idle x ∧ ∃ j, slave_in x c j ∧ ncalls x = S (base j) ∧ n = S (base j)
  | DFork c => idle x ∧ ∃ j, slave_in x c j ∧ ncalls x = S (base j)
  | DJoin c i => ∃ j, slave_in x c j ∧ region p x j ∧ joined i x ∧ i ≤ num_children p
  | DSync2 c => idle x ∧ ∃ j, slave_in x c j ∧ ncalls x = S (base j + inside j)
  | DSync2Wait c n => idle x ∧ ∃ j, slave_in x c j ∧ ncalls x = base (S j) ∧ n = base (S j)
  | DExit => idle x ∧ pr_recv x = S (cbase R) ∧ ncalls x = base R
  | _ => False
  end.

Definition proc_ok (p : nat) (x : proc) (sent : nat) : Prop :=
  if is_master p then master_ok x sent else slave_ok p x ∧ pr_recv x ≤ sent.

(** The process waits in sp.barrier. *)
Definition waiting (p : nat) (x : proc) : bool :=
  match pr_dist x with
  | DSync1Wait _ _ | DSync2Wait _ _ | DBar (BDsmWait _) => true
  | _ => negb (is_master p) && match ch_pc (pr_child x 0) with CBar _ _ (BDsmWait _) => true | _ => false end
  end.

(** The calls of sp.barrier that have returned. *)
Definition passed (p : nat) (x : proc) : nat := ncalls x - (if waiting p x then 1 else 0).

Record omp_inv (s : omp) : Prop := {
  oi_sent : om_sent s = take (length (om_sent s)) all_cmds;
  oi_calls p : p < num_procs → pr_calls (om_procs s p) = take (ncalls (om_procs s p)) all_calls;
  oi_proc p : p < num_procs → proc_ok p (om_procs s p) (length (om_sent s));
  oi_glob p q : p < num_procs → q < num_procs → passed p (om_procs s p) ≤ ncalls (om_procs s q);
}.
End inv.
