(* ===== verification/OmpSafe.v ===== *)
(** The OpenMP runtime preserves its invariant: no step of a worker fails, and the
    processes call the barrier of the address space in the same order. *)
From Stdlib Require Import ZArith Lia.
From stdpp Require Import base tactics functions list.
From S2P Require Import Prelude.
From S2P Require Import OmpWorker.
From S2P Require Import Omp.
From S2P Require Import OmpInv.

Section safe.
Context (prog : program) (num_procs threads_per_proc : nat).
Context (Hthreads : 0 < threads_per_proc).
#[local] Abbreviation inside := (inside prog).
#[local] Abbreviation num_children := (num_children threads_per_proc).
#[local] Abbreviation region := (region prog num_procs threads_per_proc).
#[local] Abbreviation child_ok := (child_ok prog num_procs threads_per_proc).
#[local] Abbreviation parts := (parts prog).
#[local] Abbreviation lcalls := (lcalls prog).
#[local] Abbreviation cview := (cview prog).
#[local] Abbreviation ccalls := (ccalls prog).
#[local] Abbreviation base := (base prog).

(** How a step changes the calls of sp.barrier. *)
Definition call_rel (p : nat) (x x' : proc) (all : nat → bool) : Prop :=
  (pr_calls x' = pr_calls x ∧ (passed p x' ≤ passed p x ∨ all (ncalls x) = true))
  ∨ (∃ a, pr_calls x' = pr_calls x ++ [a] ∧ all_calls prog !! ncalls x = Some a ∧ passed p x' ≤ passed p x).

Lemma call_same p x x' all : pr_calls x' = pr_calls x → waiting p x' = waiting p x → call_rel p x x' all.
Proof. intros E Ew. left. split; [done|]. left. unfold passed, ncalls. by rewrite E, Ew. Qed.

Lemma call_back p x x' all : pr_calls x' = pr_calls x → all (ncalls x) = true → call_rel p x x' all.
Proof. intros E Ha. left. auto. Qed.

Lemma call_new p x x' all a :
  pr_calls x' = pr_calls x ++ [a] → all_calls prog !! ncalls x = Some a → waiting p x = false → waiting p x' = true →
  call_rel p x x' all.
Proof.
  intros E Ha H H'. right. exists a. split_and!; [done|done|]. unfold passed, ncalls. rewrite E, H, H', length_app. cbn. lia.
Qed.

(** * A step of the barrier *)

Lemma bar_arrive_ok x cur gen V t a :
  pr_bar x = Some (cur, gen) → bar_ok threads_per_proc V cur gen → t < threads_per_proc → V t = (a, None) →
  ∃ cur' gen' w, bar_arrive threads_per_proc x = Ok (set_bar (Some (cur', gen')) x, w)
    ∧ bar_ok threads_per_proc (<[t := (S a, w)]> V) cur' gen'.
Proof.
  intros Eb Hb Ht E. unfold bar_arrive. rewrite Eb. destruct (bar_arrives _ V cur gen t a Hb Ht E) as [H1 H2].
  destruct (Nat.ltb_spec (S cur) threads_per_proc).
  - exists (S cur), gen, (Some gen). auto.
  - exists 0, (S gen), None. auto.
Qed.

Lemma bar_passed_ok x cur gen V t a g :
  pr_bar x = Some (cur, gen) → bar_ok threads_per_proc V cur gen → t < threads_per_proc → V t = (a, Some g) →
  bar_passed g x = true → bar_ok threads_per_proc (<[t := (a, None)]> V) cur gen.
Proof.
  intros Eb Hb Ht E Hp. unfold bar_passed in Hp. rewrite Eb in Hp. apply (bar_leaves _ V cur gen t a g); [done..|].
  intros ->. by rewrite Nat.eqb_refl in Hp.
Qed.

(** The view after a step of the barrier. *)
Definition oview (k : nat) (ob : option bpc) : view := match ob with Some b => bview k b | None => (2 * k + 2, None) end.
Definition ocalls (ob : option bpc) : nat := match ob with Some b => bcalls b | None => 1 end.
Definition is_wait (b : bpc) : bool := match b with BDsmWait _ => true | _ => false end.

Lemma barrier_ok p num a all k b x r V t cur gen :
  pr_bar x = Some (cur, gen) → bar_ok threads_per_proc V cur gen → t < threads_per_proc → V t = bview k b →
  barrier_step threads_per_proc p num a all b x = Some r →
  (∃ ob cur' gen', r = Ok (set_bar (Some (cur', gen')) x, ob) ∧ bar_ok threads_per_proc (<[t := oview k ob]> V) cur' gen'
    ∧ b ≠ BDsm ∧ (is_wait b = true → ∃ m, b = BDsmWait m ∧ all m = true)
    ∧ match ob with
      | Some b' => is_wait b' = false ∧ (dsm_pc b' = true → num = thread_num_first threads_per_proc p)
      | None => True
      end
    ∧ (num = thread_num_first threads_per_proc p → ocalls ob = bcalls b))
  ∨ (b = BDsm ∧ r = Ok (add_call a x, Some (BDsmWait (S (ncalls x))))).
Proof.
  intros Eb Hb Ht E. destruct b as [|g| |m| |g]; cbn [barrier_step].
  - destruct (bar_arrive_ok x cur gen V t _ Eb Hb Ht E) as (cur' & gen' & w & Ea & Hb').
    rewrite Ea. intros [= <-]. left. eexists _, cur', gen'. split; [reflexivity|]. cbn [fst snd].
    destruct w as [g|]; [|case_match eqn:En; [apply Nat.eqb_eq in En|apply Nat.eqb_neq in En]]; cbn [oview bview is_wait dsm_pc ocalls bcalls];
      rewrite ?Nat.add_1_r; split_and!; try done. 
  - intros Hs. case_match eqn:Hp; [|done]. injection Hs as <-. left. eexists _, cur, gen. split; [f_equal; f_equal; by destruct x; cbn in *; subst|].
    pose proof (bar_passed_ok x cur gen V t _ g Eb Hb Ht E Hp) as Hb'.
    case_match eqn:En; [apply Nat.eqb_eq in En|apply Nat.eqb_neq in En]; cbn [oview bview is_wait dsm_pc ocalls bcalls]; split_and!; done.
  - intros [= <-]. by right.
  - intros Hs. case_match eqn:Hp; [|done]. injection Hs as <-. left. eexists _, cur, gen. split; [f_equal; f_equal; by destruct x; cbn in *; subst|].
    split_and!; try done; [|eauto]. eapply bar_ok_ext; [exact Hb|]. intros i Hi. destruct (decide (i = t)) as [->|Hne].
    + rewrite fn_lookup_insert. by rewrite E.
    + by rewrite fn_lookup_insert_ne.
  - destruct (bar_arrive_ok x cur gen V t _ Eb Hb Ht E) as (cur' & gen' & w & Ea & Hb').
    rewrite Ea. intros [= <-]. left. eexists _, cur', gen'. split; [reflexivity|]. cbn [fst snd].
    destruct w as [g|]; cbn [oview bview is_wait dsm_pc ocalls bcalls] in *; replace (S (2 * k + 1)) with (2 * k + 2) in Hb' by lia; split_and!; done.
  - intros Hs. case_match eqn:Hp; [|done]. injection Hs as <-. left. eexists _, cur, gen. split; [f_equal; f_equal; by destruct x; cbn in *; subst|].
    pose proof (bar_passed_ok x cur gen V t _ g Eb Hb Ht E Hp) as Hb'. split_and!; done.
Qed.

(** * The steps of a child worker *)

Definition tix (p i : nat) : nat := if is_master p then S i else i.
Definition lead (p i : nat) : bool := negb (is_master p) && (i =? 0).

Lemma tix_lt p i : i < num_children p → tix p i < threads_per_proc.
Proof. unfold tix, Omp.num_children. destruct (is_master p); lia. Qed.

Lemma lead_num p i : child_thread_num threads_per_proc p i = thread_num_first threads_per_proc p ↔ lead p i = true.
Proof.
  unfold child_thread_num, lead. destruct (is_master p); cbn; [split; [lia|done]|]. rewrite Nat.eqb_eq. lia.
Qed.

Lemma parts_child p x x' i c :
  pr_child x' = <[i := c]> (pr_child x) → pr_pos x' = pr_pos x → pr_dist x' = pr_dist x →
  ∀ t, parts p x' t = <[tix p i := cview (ch_pc c)]> (parts p x) t.
Proof.
  intros Ec Ep Ed t. unfold OmpInv.parts, tix, mview. rewrite Ec, Ep, Ed. destruct (is_master p).
  - destruct t as [|t]; [by rewrite fn_lookup_insert_ne|]. destruct (decide (t = i)) as [->|Hne].
    + by rewrite !fn_lookup_insert.
    + by rewrite !fn_lookup_insert_ne by congruence.
  - destruct (decide (t = i)) as [->|Hne]; [by rewrite !fn_lookup_insert|by rewrite !fn_lookup_insert_ne].
Qed.

Lemma parts_tix p x i : parts p x (tix p i) = cview (ch_pc (pr_child x i)).
Proof. unfold OmpInv.parts, tix. by destruct (is_master p). Qed.

Lemma lcalls_child p x x' i c :
  pr_child x' = <[i := c]> (pr_child x) → pr_pos x' = pr_pos x → pr_dist x' = pr_dist x →
  lcalls p x' = if lead p i then ccalls (ch_pc c) else lcalls p x.
Proof.
  intros Ec Ep Ed. unfold OmpInv.lcalls, lead, mcalls. rewrite Ec, Ep, Ed. destruct (is_master p); [done|]. cbn.
  destruct (Nat.eqb_spec i 0) as [->|Hne]; [by rewrite fn_lookup_insert|by rewrite fn_lookup_insert_ne by lia].
Qed.

Lemma lead_lcalls p x i : lead p i = true → lcalls p x = ccalls (ch_pc (pr_child x i)).
Proof.
  unfold lead, OmpInv.lcalls. destruct (is_master p); [done|]. cbn. rewrite Nat.eqb_eq. by intros ->.
Qed.

(** What a step of a child leaves alone. *)
Definition same_dist (x x' : proc) : Prop :=
  pr_dist x' = pr_dist x ∧ pr_pos x' = pr_pos x ∧ pr_wk x' = pr_wk x ∧ pr_par x' = pr_par x ∧ pr_recv x' = pr_recv x
  ∧ pr_nchild x' = pr_nchild x.

Lemma child_update p x x' j i c :
  region p x j → i < num_children p → pr_child x' = <[i := c]> (pr_child x) → same_dist x x' →
  (∃ cur gen, pr_bar x' = Some (cur, gen) ∧ bar_ok threads_per_proc (<[tix p i := cview (ch_pc c)]> (parts p x)) cur gen) →
  child_ok p j i c →
  ncalls x' = (if lead p i then S (base j + ccalls (ch_pc c)) else ncalls x) →
  region p x' j.
Proof.
  intros [Hj Hb Hn Hc H0 Hl] Hi Ec (Ed & Ep & _ & _ & _ & En) (cur & gen & Eb & Hb') Hok Hcalls.
  constructor; [done| |by rewrite En| | |].
  - exists cur, gen. split; [done|]. apply (bar_ok_ext _ _ _ _ _ Hb'). intros t _. by apply parts_child.
  - intros i' Hi'. rewrite Ec. destruct (decide (i' = i)) as [->|Hne]; [by rewrite fn_lookup_insert|].
    rewrite fn_lookup_insert_ne by done. auto.
  - intros i' Hi'. rewrite Ec, fn_lookup_insert_ne by (intros ->; lia). auto.
  - unfold ncalls in Hcalls. rewrite Hcalls, (lcalls_child p x x' i c) by done. by destruct (lead p i).
Qed.

Lemma set_child_dist i c x : same_dist x (set_child i c x).
Proof. done. Qed.

(** A child moves without the barrier. *)
Lemma child_move p x j i c :
  region p x j → i < num_children p → child_ok p j i c →
  cview (ch_pc c) = cview (ch_pc (pr_child x i)) → ccalls (ch_pc c) = ccalls (ch_pc (pr_child x i)) →
  region p (set_child i c x) j.
Proof.
  intros Hr Hi Hok Ev El. pose proof Hr as [Hj (cur & gen & Eb & Hb) Hn Hc H0 Hl].
  apply (child_update p x _ j i c); [done..| |done|].
  - exists cur, gen. split; [done|]. apply (bar_ok_ext _ _ _ _ _ Hb). intros t _. destruct (decide (t = tix p i)) as [->|Hne].
    + by rewrite fn_lookup_insert, parts_tix.
    + by rewrite fn_lookup_insert_ne.
  - unfold ncalls. cbn. case_match eqn:E; [|done]. by rewrite Hl, (lead_lcalls p x i E), El.
Qed.

Definition cwait (pc : cpc) : bool := match pc with CBar _ _ b => is_wait b | _ => false end.

(** The distributed worker is not in sp.barrier itself. *)
Definition dwait (x : proc) : bool :=
  match pr_dist x with DSync1Wait _ _ | DSync2Wait _ _ | DBar (BDsmWait _) => true | _ => false end.

Lemma waiting_eq p x : waiting p x = dwait x || (negb (is_master p) && cwait (ch_pc (pr_child x 0))).
Proof. unfold waiting, dwait. destruct (pr_dist x) as [| | | | | | | | | | | |[]| | |]; done. Qed.

Lemma waiting_child p x x' i c :
  pr_child x' = <[i := c]> (pr_child x) → pr_dist x' = pr_dist x → (lead p i = true → cwait (ch_pc c) = cwait (ch_pc (pr_child x i))) →
  waiting p x' = waiting p x.
Proof.
  intros Ec Ed Hl. rewrite !waiting_eq. unfold dwait. rewrite Ed, Ec. f_equal.
  destruct (is_master p) eqn:Em; [done|]. cbn. destruct (decide (i = 0)) as [->|Hne].
  - rewrite fn_lookup_insert. apply Hl. unfold lead. by rewrite Em.
  - by rewrite fn_lookup_insert_ne.
Qed.

(** No child becomes joined by a step of its own. *)
Definition same_joined (x x' : proc) : Prop := ∀ m, joined m x → joined m x'.

Lemma joined_child x x' i c :
  pr_child x' = <[i := c]> (pr_child x) → is_joined (ch_pc c) = is_joined (ch_pc (pr_child x i)) → same_joined x x'.
Proof.
  intros Ec E m H i'. specialize (H i'). rewrite Ec. destruct (decide (i' = i)) as [->|Hne].
  - rewrite fn_lookup_insert. by rewrite E.
  - by rewrite fn_lookup_insert_ne.
Qed.

(** A child moves without the barrier and without calling sp.barrier. *)
Lemma child_move_ok p x j i c all :
  region p x j → i < num_children p → child_ok p j i c →
  cview (ch_pc c) = cview (ch_pc (pr_child x i)) → ccalls (ch_pc c) = ccalls (ch_pc (pr_child x i)) →
  cwait (ch_pc c) = cwait (ch_pc (pr_child x i)) → is_joined (ch_pc c) = is_joined (ch_pc (pr_child x i)) →
  let x' := set_child i c x in
  region p x' j ∧ same_dist x x' ∧ same_joined x x' ∧ call_rel p x x' all.
Proof.
  intros Hr Hi Hok Ev El Ew Ej x'. split_and!.
  - by apply child_move.
  - done.
  - by apply (joined_child x x' i c).
  - apply call_same; [done|]. by apply (waiting_child p x x' i c).
Qed.

(** A child makes a step of the barrier. *)
Lemma child_bar_ok p x j k b i all r :
  let w := wk_called no_cmd (child_thread_num threads_per_proc p i) (total_num_threads num_procs threads_per_proc) in
  region p x j → i < num_children p → (is_master p = false → dwait x = false) →
  pr_child x i = Child (CBar j k b) w →
  barrier_step threads_per_proc p (w_thread_num w) (SInner j k) all b x = Some r →
  ∃ x1 ob, r = Ok (x1, ob) ∧
    let x' := set_child i (Child (match ob with Some b => CBar j k b | None => CReset j k end) w) x1 in
    region p x' j ∧ same_dist x x' ∧ same_joined x x' ∧ call_rel p x x' all.
Proof.
  intros w Hr Hi Hdw Ei Hs. pose proof Hr as [Hj (cur & gen & Eb & Hb) Hn Hc H0 Hl].
  pose proof (Hc i Hi) as Hok. rewrite Ei in Hok. cbn in Hok. destruct Hok as (_ & (Hk & Hlead & Hm) & _).
  assert (parts p x (tix p i) = bview k b) as Ev by (rewrite parts_tix, Ei; done).
  assert (lead p i = true → ncalls x = S (base j + (k + bcalls b))) as Hcalls.
  { intros E. unfold ncalls. by rewrite Hl, (lead_lcalls p x i E), Ei. }
  destruct (barrier_ok p _ _ all k b x r _ (tix p i) cur gen Eb Hb (tix_lt p i Hi) Ev Hs)
    as [(ob & cur' & gen' & -> & Hb' & Hne & Hw & Hob & Hoc)|[-> ->]].
  - eexists _, ob. split; [reflexivity|]. set (c := Child _ w). set (x' := set_child i c _).
    assert (cview (ch_pc c) = oview k ob) as Ecv by by destruct ob.
    assert (lead p i = true → ccalls (ch_pc c) = k + bcalls b) as Ecc.
    { intros E. apply lead_num in E. rewrite <- (Hoc E). unfold c. destruct ob; cbn; lia. }
    split_and!; [|done| |].
    + apply (child_update p x x' j i c); [done..| | |].
      * exists cur', gen'. split; [done|]. by rewrite Ecv.
      * unfold OmpInv.child_ok. destruct ob as [b'|]; cbn; split_and!; try done.
        split; [done|]. destruct Hob as [Hw' Hd]. split; [exact Hd|]. by intros m ->.
      * change (ncalls x') with (ncalls x). destruct (lead p i) eqn:E; [|done]. rewrite Ecc by done. by apply Hcalls.
    + apply (joined_child x x' i c); [done|]. rewrite Ei. by destruct ob.
    + destruct (is_wait b) eqn:Eb'.
      * destruct (Hw eq_refl) as (m & -> & Ha). apply call_back; [done|]. rewrite Hcalls; [|by apply lead_num, Hlead].
        rewrite (Hm m eq_refl) in Ha. cbn. by rewrite Nat.add_1_r, Nat.add_succ_r.
      * apply call_same; [done|]. apply (waiting_child p x x' i c); [done..|]. rewrite Ei. intros _. cbn. rewrite Eb'.
        unfold c. destruct ob as [b'|]; [|done]. by destruct Hob.
  - assert (lead p i = true) as El by by apply lead_num, Hlead. specialize (Hcalls El). cbn in Hcalls. rewrite Nat.add_0_r in Hcalls.
    eexists _, _. split; [reflexivity|]. set (c := Child _ w). set (x' := set_child i c _).
    split_and!; [|done| |].
    + apply (child_update p x x' j i c); [done..| | |].
      * exists cur, gen. split; [done|]. apply (bar_ok_ext _ _ _ _ _ Hb). intros t _. destruct (decide (t = tix p i)) as [->|Ht].
        -- rewrite fn_lookup_insert, Ev. done.
        -- by rewrite fn_lookup_insert_ne.
      * unfold OmpInv.child_ok. cbn. split_and!; [done| |done]. split; [done|]. split; [auto|]. intros m [= <-]. by rewrite Hcalls.
      * rewrite El. unfold ncalls in *. cbn. rewrite length_app, Hcalls. cbn. lia.
    + apply (joined_child x x' i c); [done|]. by rewrite Ei.
    + unfold lead in El. apply andb_true_iff in El as [Em Ez]. apply negb_true_iff in Em. apply Nat.eqb_eq in Ez as ->.
      apply (call_new _ _ _ _ (SInner j k)); [done| | |].
      * rewrite Hcalls. by apply call_inner.
      * rewrite waiting_eq, Em, (Hdw Em), Ei. done.
      * rewrite waiting_eq, Em. unfold x'. cbn. rewrite fn_lookup_insert. by rewrite orb_true_r.
Qed.

Lemma child_step_ok p x j i all r :
  region p x j → (is_master p = false → dwait x = false) →
  child_step prog threads_per_proc p i all x = Some r →
  ∃ x', r = Ok x' ∧ region p x' j ∧ same_dist x x' ∧ same_joined x x' ∧ call_rel p x x' all.
Proof.
  intros Hr Hdw. destruct (Nat.lt_ge_cases i (num_children p)) as [Hi|Hi].
  2:{ unfold child_step. by rewrite (rg_none _ _ _ _ _ _ Hr i Hi). }
  pose proof (rg_child _ _ _ _ _ _ Hr i Hi) as Hok. unfold child_step. destruct (pr_child x i) as [pc w] eqn:Ei.
  assert (∀ c, child_ok p j i c → cview (ch_pc c) = cview pc → ccalls (ch_pc c) = ccalls pc → cwait (ch_pc c) = cwait pc →
    is_joined (ch_pc c) = is_joined pc → ∃ x', Ok (set_child i c x) = Ok x' ∧ region p x' j ∧ same_dist x x' ∧ same_joined x x' ∧ call_rel p x x' all) as Hmove.
  { intros c H1 H2 H3 H4 H5. eexists. split; [reflexivity|]. apply child_move_ok; rewrite ?Ei; done. }
  cbn [ch_pc ch_wk]. unfold OmpInv.child_ok in Hok. cbn [ch_pc ch_wk] in Hok. destruct pc as [|j'|j' k|j' k|j' k b|j' k|j'|j'|]; [done|..].
  - destruct Hok as [-> ->]. rewrite start_worker_idle. intros [= <-]. apply Hmove; [|done..]. cbn. split_and!; auto; lia.
  - destruct Hok as (-> & Hk & ->). unfold child_cmd. destruct (Nat.ltb_spec k (inside j)) as [Hlt|Hge]; cbn [c_code].
    + rewrite bool_decide_false by done. rewrite suspend_user by done. intros [= <-]. apply Hmove; [|done..]. unfold OmpInv.child_ok. cbn [ch_pc ch_wk].
      split_and!; [done|done|]. unfold child_cmd. by destruct (Nat.ltb_spec k (inside j)); [|lia].
    + rewrite bool_decide_true by done. rewrite exit_user by done. intros [= <-]. apply Hmove; [|done..]. unfold OmpInv.child_ok. cbn [ch_pc ch_wk].
      split_and!; [done|done|]. unfold child_cmd. by destruct (Nat.ltb_spec k (inside j)); [lia|].
  - destruct Hok as (-> & Hk & ->). destruct (rg_bar _ _ _ _ _ _ Hr) as (cur & gen & Eb & _). unfold child_cmd.
    destruct (Nat.ltb_spec k (inside j)) as [Hlt|Hge].
    + rewrite wait_called. cbn [fst snd c_code mbind result_bind]. rewrite Eb. intros [= <-]. apply Hmove; [|cbn; lia || done..]. cbn. done.
    + rewrite wait_ended. intros [= <-]. assert (k = inside j) as -> by lia. by apply Hmove.
  - destruct Hok as (-> & _ & ->). intros Hs. case_match eqn:Eb; [|done]. injection Hs as <-.
    destruct (child_bar_ok p x j k b i all _ Hr Hi Hdw Ei Eb) as (x1 & ob & -> & H). eexists. split; [reflexivity|]. exact H.
  - destruct Hok as (-> & Hk & ->). rewrite reset_called. intros [= <-]. apply Hmove; [|cbn; f_equal; lia|done..]. cbn. split_and!; [done|lia|done].
  - done.
  - done.
  - done.
Qed.

(** * The steps of a distributed worker *)

Lemma region_ext p x x' j :
  region p x j → pr_bar x' = pr_bar x → pr_nchild x' = pr_nchild x → pr_child x' = pr_child x → ncalls x' = ncalls x →
  (is_master p = true → mview x' = mview x ∧ mcalls x' = mcalls x) → region p x' j.
Proof.
  intros [Hj (cur & gen & Eb & Hb) Hn Hc H0 Hl] Eb' En Ec El Em.
  assert (∀ t, parts p x' t = parts p x t) as Hp.
  { intros t. unfold OmpInv.parts. rewrite Ec. destruct (is_master p); [|done]. destruct t; [|done]. by apply Em. }
  assert (lcalls p x' = lcalls p x) as Hlc.
  { unfold OmpInv.lcalls. rewrite Ec. destruct (is_master p); [|done]. by apply Em. }
  constructor; [done| |by rewrite En| | |].
  - exists cur, gen. rewrite Eb'. split; [done|]. by apply (bar_ok_ext _ _ _ _ _ Hb).
  - intros i. rewrite Ec. apply Hc.
  - intros i. rewrite Ec. apply H0.
  - unfold ncalls in El. by rewrite El, Hlc.
Qed.

Lemma joined_ext m x x' : joined m x → pr_child x' = pr_child x → joined m x'.
Proof. intros H E i. by rewrite E. Qed.

(** The region starts. *)
Lemma new_child_ok p j i :
  new_child num_procs threads_per_proc p j i
  = Ok (Child (CStart j) (wk_idle (child_thread_num threads_per_proc p i) (total_num_threads num_procs threads_per_proc))).
Proof. done. Qed.

Lemma start_parallel_ok p j x :
  j < length prog → ncalls x = S (base j) → (is_master p = true → ∃ j' o, pr_pos x = UOut j' o) →
  ∃ x', start_parallel num_procs threads_per_proc p j x = Ok x' ∧ region p x' j ∧ joined 0 x'
    ∧ pr_dist x' = pr_dist x ∧ pr_pos x' = pr_pos x ∧ pr_wk x' = pr_wk x ∧ pr_recv x' = pr_recv x ∧ pr_calls x' = pr_calls x
    ∧ cwait (ch_pc (pr_child x' 0)) = false.
Proof.
  intros Hj Hl Hm. unfold start_parallel. eexists. split; [reflexivity|]. set (f := λ i : nat, if i <? num_children p then _ else _).
  assert (∀ i, f i = (if i <? num_children p then
      Child (CStart j) (wk_idle (child_thread_num threads_per_proc p i) (total_num_threads num_procs threads_per_proc))
    else Child CNone new_worker)) as Ef by done.
  clearbody f. assert (∀ i, ch_pc (f i) = CStart j ∨ ch_pc (f i) = CNone) as Ech by (intros i; rewrite Ef; case_match; auto).
  split_and!; try done.
  - constructor; [done| |done| | |]; cbn.
    + exists 0, 0. split; [done|]. apply bar_new; [done|]. intros t _. unfold OmpInv.parts. cbn.
      assert (∀ i, cview (ch_pc (f i)) = (0, None)) as Ev by (intros i; by destruct (Ech i) as [->| ->]).
      destruct (is_master p) eqn:Em; [|done]. destruct t as [|t]; [|done].
      destruct (Hm eq_refl) as (j' & o & Ep). unfold mview. cbn. by rewrite Ep.
    + intros i Hi. apply Nat.ltb_lt in Hi. by rewrite Ef, Hi.
    + intros i Hi. apply Nat.ltb_ge in Hi. by rewrite Ef, Hi.
    + unfold ncalls in Hl. rewrite Hl. do 2 f_equal. unfold OmpInv.lcalls, mcalls. cbn.
      destruct (is_master p) eqn:Em; [|destruct (Ech 0) as [->| ->]; cbn; lia]. destruct (Hm eq_refl) as (j' & o & Ep). rewrite Ep. lia.
  - intros i. cbn. by destruct (Ech i) as [->| ->].
  - cbn. by destruct (Ech 0) as [->| ->].
Qed.

(** The region ends. *)
Lemma joined_child_ok p x j m i :
  region p x j → joined m x → num_children p ≤ m → i < num_children p →
  destroy_worker (ch_wk (pr_child x i)) = Ok tt ∧ ch_pc (pr_child x i) = CJoined j.
Proof.
  intros Hr Hm Hle Hi. pose proof (rg_child _ _ _ _ _ _ Hr i Hi) as Hok. specialize (Hm i). unfold OmpInv.child_ok in Hok.
  assert ((i <? m) = true) as E by (apply Nat.ltb_lt; lia). rewrite E in Hm. destruct (ch_pc (pr_child x i)); try done.
  destruct Hok as [-> ->]. done.
Qed.

Lemma end_children_ok p x j m :
  region p x j → joined m x → num_children p ≤ m → end_children x = Ok (set_children (λ _, Child CNone new_worker) 0 (set_bar None x)).
Proof.
  intros Hr Hm Hle. unfold end_children. rewrite (rg_n _ _ _ _ _ _ Hr).
  assert (∀ n, n ≤ num_children p → destroy_children n x = Ok tt) as H.
  { induction n as [|n IH]; intros Hn; [done|]. cbn [destroy_children].
    destruct (joined_child_ok p x j m n Hr Hm Hle) as [-> _]; [lia|]. cbn. apply IH. lia. }
  by rewrite (H _ (le_n _)).
Qed.

(** A worker joins the next child. *)
Lemma join_ok p x j m :
  region p x j → joined m x → m < num_children p → ch_pc (pr_child x m) = CDone j →
  let x' := set_child m (Child (CJoined j) (reset_work_stack (ch_wk (pr_child x m)))) x in
  region p x' j ∧ joined (S m) x' ∧ waiting p x' = waiting p x.
Proof.
  intros Hr Hm Hi E x'. pose proof (rg_child _ _ _ _ _ _ Hr m Hi) as Hok. unfold OmpInv.child_ok in Hok. rewrite E in Hok.
  destruct Hok as [_ Ew]. split_and!.
  - apply child_move; [done..| | |]; rewrite ?E; [|done..]. cbn. by rewrite Ew.
  - intros i. unfold x'. cbn [pr_child set_child]. destruct (decide (i = m)) as [->|Hne].
    + rewrite fn_lookup_insert. symmetry. apply Nat.ltb_lt. lia.
    + rewrite fn_lookup_insert_ne, Hm by done. destruct (Nat.ltb_spec i m), (Nat.ltb_spec i (S m)); (done || lia).
  - apply (waiting_child p x x' m (Child (CJoined j) (reset_work_stack (ch_wk (pr_child x m))))); [done..|]. by rewrite E.
Qed.

(** A step of a distributed worker does not fail and keeps its part of the
    invariant. *)
Definition good_step (p : nat) (x : proc) (sent : nat) (all : nat → bool) (r : result (proc * list cmd)) : Prop :=
  ∃ x' l, r = Ok (x', l) ∧ proc_ok prog num_procs threads_per_proc p x' (sent + length l) ∧ call_rel p x x' all
    ∧ ∀ i c, l !! i = Some c → all_cmds prog !! (sent + i) = Some c.

Lemma good_local p x sent all x' :
  proc_ok prog num_procs threads_per_proc p x' sent → call_rel p x x' all → good_step p x sent all (Ok (x', [])).
Proof. intros H Hc. exists x', []. cbn. rewrite Nat.add_0_r. by split_and!. Qed.

#[local] Abbreviation master_ok := (master_ok prog num_procs threads_per_proc).
#[local] Abbreviation main_cmd := (main_cmd prog).

Lemma good_master x sent all x' :
  master_ok x' sent → pr_calls x' = pr_calls x → dwait x = false → dwait x' = false → good_step 0 x sent all (Ok (x', [])).
Proof.
  intros H Ec E E'. apply good_local; [exact H|]. apply call_same; [done|]. rewrite !waiting_eq. by rewrite E, E'.
Qed.

(** The master returns from sp.barrier. *)
Lemma good_master_back x sent all x' n :
  master_ok x' sent → pr_calls x' = pr_calls x → all n = true → ncalls x = n → good_step 0 x sent all (Ok (x', [])).
Proof. intros H Ec Ha <-. apply good_local; [exact H|]. by apply call_back. Qed.

(** The master calls sp.barrier. *)
Lemma good_master_call x sent all x' a :
  master_ok x' sent → pr_calls x' = pr_calls x ++ [a] → all_calls prog !! ncalls x = Some a → dwait x = false → dwait x' = true →
  good_step 0 x sent all (Ok (x', [])).
Proof.
  intros H Ec Ha E E'. apply good_local; [exact H|]. apply (call_new _ _ _ _ a); [done..| |]; rewrite waiting_eq; by rewrite ?E, ?E'.
Qed.

Lemma main_cmd_out j o :
  main_cmd (UOut j o) = (if j <? length prog then if o <? outside prog j then Cmd CmdBarrier 0 else Cmd CmdStartParallel j
                         else Cmd CmdExitProgram 0).
Proof. done. Qed.

Lemma main_cmd_in j k : main_cmd (UIn j k) = (if k <? inside j then Cmd CmdBarrier 0 else Cmd CmdEndParallel 0).
Proof. done. Qed.

Lemma master_user_ok x sent all r :
  pr_dist x = DUser → master_ok x sent → dist_step prog num_procs threads_per_proc 0 [] all x = Some r → good_step 0 x sent all r.
Proof.
  destruct x as [d u w par bar ch nch calls recv]. cbn. intros -> H. unfold OmpInv.master_ok in H. cbn in H. intros [= <-].
  destruct u as [j o|j k].
  - destruct H as (Ho & Hs & ->). rewrite main_cmd_out. destruct (Nat.ltb_spec j (length prog)) as [Hj|Hj].
    + rewrite bool_decide_false by by case_match. rewrite suspend_user by by case_match. apply good_master; [|done..].
      unfold OmpInv.master_ok. cbn [pr_dist pr_pos set_dist set_wk]. split_and!; [exact Ho|done|]. rewrite main_cmd_out.
      apply Nat.ltb_lt in Hj. by rewrite Hj.
    + rewrite bool_decide_true by done. rewrite exit_user by done. apply good_master; [|done..].
      unfold OmpInv.master_ok. cbn [pr_dist pr_pos set_dist set_wk]. split_and!; [exact Ho|done|]. rewrite main_cmd_out.
      apply Nat.ltb_ge in Hj. by rewrite Hj.
  - destruct H as ((Hr & Hp & Hk & Hw) & Hjn & Hs). cbn in Hp, Hw. subst w. rewrite main_cmd_in.
    rewrite bool_decide_false by by case_match. rewrite suspend_user by by case_match. apply good_master; [|done..].
    unfold OmpInv.master_ok. cbn [pr_dist pr_pos set_dist set_wk]. split_and!; [|done|done].
    split_and!; [|done..]. by apply (region_ext _ _ _ _ Hr).
Qed.

Lemma master_root_ok x sent l all r :
  pr_dist x = DRoot → master_ok x sent → dist_step prog num_procs threads_per_proc 0 l all x = Some r → good_step 0 x sent all r.
Proof.
  destruct x as [d u w par bar ch nch calls recv]. cbn. intros -> H. unfold OmpInv.master_ok in H. cbn [pr_dist pr_pos pr_wk] in H. intros [= <-].
  destruct u as [j o|j k].
  - destruct H as (Ho & Hs & ->). pose proof Ho as (_ & Hp & _). cbn in Hp. subst par.
    destruct (Nat.ltb_spec j (length prog)) as [Hj|Hj]; [rewrite wait_called|rewrite wait_ended]; (apply good_master; [|done..]);
      unfold OmpInv.master_ok, wk_back; cbn [pr_dist pr_pos pr_wk set_dist set_wk fst snd]; split_and!; try done.
    + apply Nat.ltb_lt in Hj. by rewrite Hj.
    + apply Nat.ltb_ge in Hj. by rewrite Hj.
  - destruct H as ((Hr & Hp & Hk & Hw) & Hjn & Hs). cbn in Hp, Hw. subst par w. rewrite wait_called. apply good_master; [|done..].
    unfold OmpInv.master_ok. cbn [pr_dist pr_pos set_dist set_wk fst snd]. split_and!; [|done..].
    split_and!; [|done..]. by apply (region_ext _ _ _ _ Hr).
Qed.

Lemma master_exec_ok x sent l all r c :
  pr_dist x = DExec c → master_ok x sent → dist_step prog num_procs threads_per_proc 0 l all x = Some r → good_step 0 x sent all r.
Proof.
  destruct x as [d u w par bar ch nch calls recv]. cbn. intros -> H. unfold OmpInv.master_ok in H. cbn [pr_dist pr_pos pr_wk] in H. intros [= <-].
  destruct u as [j o|j k].
  - destruct H as (Ho & Hs & -> & Hw). pose proof Ho as ((Hb & Hi) & Hp & Hj & Ho' & Hl). cbn in Hp, Hb, Hw. subst par bar.
    unfold execute_command, wk_back in *. rewrite main_cmd_out in *. destruct (Nat.ltb_spec j (length prog)) as [Hlt|Hge];
      [destruct (Nat.ltb_spec o (outside prog j))|]; cbn [c_code pr_bar]; (apply good_master; [|done..]); unfold OmpInv.master_ok; cbn.
    + split; [done|]. by left.
    + split_and!; [|done..]. split_and!; (done || lia).
    + split_and!; (done || lia).
  - destruct H as (Hm & Hjn & -> & Hs). pose proof Hm as (Hr & Hp & Hk & Hw). cbn in Hp, Hw. subst par w.
    destruct (rg_bar _ _ _ _ _ _ Hr) as (cur & gen & Hb & _). cbn in Hb. subst bar.
    unfold execute_command. rewrite main_cmd_in. destruct (Nat.ltb_spec k (inside j)); cbn [c_code pr_bar is_master Nat.eqb];
      (apply good_master; [|done..]); unfold OmpInv.master_ok; cbn [pr_dist pr_pos set_dist].
    + split_and!; try (done || lia); split_and!; [|done..]. by apply (region_ext _ _ _ _ Hr).
    + split_and!; try (done || lia). split_and!; try (done || lia). by apply (region_ext _ _ _ _ Hr).
Qed.

Lemma master_reset_ok x sent l all r :
  pr_dist x = DReset → master_ok x sent → dist_step prog num_procs threads_per_proc 0 l all x = Some r → good_step 0 x sent all r.
Proof.
  destruct x as [d u w par bar ch nch calls recv]. cbn. intros -> H. unfold OmpInv.master_ok in H. cbn [pr_dist pr_pos pr_wk] in H. intros [= <-].
  destruct u as [j o|j k]; destruct H as (Hs & [H|H]).
  - destruct H as (Ho & Hj & Hlt & ->). rewrite reset_called. apply good_master; [|done..]. unfold OmpInv.master_ok.
    cbn [pr_dist pr_pos set_dist set_pos set_wk main_next]. apply Nat.ltb_lt in Hlt as Hlt'. rewrite Hlt'.
    destruct Ho as (Hi & Hp & Hj' & Ho' & Hl). split_and!; [|lia|done]. split_and!; done.
  - destruct H as (-> & (Hr & Hp & Hk & Hw) & Hjn). cbn in Hp, Hw. subst w par. rewrite reset_called. apply good_master; [|done..]. unfold OmpInv.master_ok.
    cbn [pr_dist pr_pos set_dist set_pos set_wk main_next]. rewrite Nat.ltb_irrefl. split_and!; [|done|cbn; lia].
    split_and!; [|done..]. by apply (region_ext _ _ _ _ Hr).
  - destruct H as ((Hr & Hp & _ & Hw) & Hjn & Hk). cbn in Hp, Hw. subst w par. rewrite reset_called. apply good_master; [|done..]. unfold OmpInv.master_ok.
    cbn [pr_dist pr_pos set_dist set_pos set_wk main_next]. apply Nat.ltb_lt in Hk as Hk'. rewrite Hk'. split_and!; [|done|done].
    split_and!; [|done..]. apply (region_ext _ _ _ _ Hr); try done. intros _. cbn. split; f_equal; lia.
  - destruct H as (Hi & Hp & Hj & -> & Hl & Hw). cbn in Hp, Hw. subst w par. rewrite reset_called. apply good_master; [|done..]. unfold OmpInv.master_ok.
    cbn [pr_dist pr_pos set_dist set_pos set_wk main_next]. rewrite Nat.ltb_irrefl. split_and!; [|lia|done].
    split_and!; try done; lia.
Qed.

Lemma master_out_ok x sent l all r :
  match pr_dist x with DStart | DBcast _ | DSync1 _ | DSync1Wait _ _ | DFork _ => True | _ => False end →
  master_ok x sent → dist_step prog num_procs threads_per_proc 0 l all x = Some r → good_step 0 x sent all r.
Proof.
  destruct x as [d u w par bar ch nch calls recv]. intros Hd H. unfold OmpInv.master_ok in H. cbn [pr_dist pr_pos pr_wk] in H, Hd.
  destruct d as [| | |c| | |c|c n|c| | | | | | |]; try done; destruct u as [j o|j k]; try done; cbn [dist_step pr_dist pr_calls pr_wk pr_pos pr_par c_func].
  - destruct H as (-> & -> & Ho & -> & ->). rewrite start_worker_idle. intros [= <-]. apply good_master; [|done..]. by split_and!.
  - destruct H as (Ho & Hs & -> & Hw). intros [= <-]. eexists _, _. split; [reflexivity|]. split_and!.
    + unfold proc_ok. cbn. split_and!; [exact Ho|lia|done..].
    + by apply call_same.
    + intros [|i] c'; [|done]. intros [= <-]. rewrite Nat.add_0_r, Hs. destruct Ho as (_ & _ & Hj & Ho & _). by apply cmd_at.
  - destruct H as (Hm & Hs & Hl). intros [= <-]. destruct Hm as (Hi & Hp & Hj & Ho & -> & Hw).
    apply (good_master_call _ _ _ _ (SStart j)); [|done| |done..].
    + unfold OmpInv.master_ok. cbn. unfold ncalls in *. cbn in *. rewrite length_app, Hl. cbn. split_and!; [by split_and!|lia..].
    + rewrite Hl. by apply call_start.
  - destruct H as (Hm & Hs & Hl & ->). destruct (all (S (base j))) eqn:Ea; [|done]. intros [= <-].
    apply (good_master_back _ _ _ _ (S (base j))); [|done..]. by split_and!.
  - destruct H as ((Hi & Hp & Hj & -> & -> & Hw) & Hs & Hl). cbn in Hp, Hw. subst w par.
    destruct (start_parallel_ok 0 j (Proc (DFork (Cmd CmdStartParallel j)) (UOut j (outside prog j)) (wk_called no_cmd 0 1) false bar ch nch calls recv))
      as (x' & E & Hr & Hjn & Ed & Ep & Ew & Er & Ec & _); [done|done|intros _; eauto|].
    cbn [c_func]. rewrite E. cbn. intros [= <-]. apply good_master; [|done..]. unfold OmpInv.master_ok, cmd_done. cbn. rewrite Ep. cbn.
    split; [done|]. right. split; [done|]. split; [|done]. split_and!; [|done|lia|by rewrite Ew].
    apply (region_ext _ _ _ _ Hr); try done. intros _. unfold mview, mcalls. cbn. by rewrite Ep.
Qed.

(** The master thread makes a step of the barrier. *)
Lemma master_update x x' j :
  region 0 x j → pr_child x' = pr_child x → pr_nchild x' = pr_nchild x →
  (∃ cur gen, pr_bar x' = Some (cur, gen) ∧ bar_ok threads_per_proc (<[0 := mview x']> (parts 0 x)) cur gen) →
  ncalls x' = S (base j + mcalls x') → region 0 x' j.
Proof.
  intros [Hj Hb Hn Hc H0 Hl] Ec En (cur & gen & Eb & Hb') Hcalls. constructor; [done| |by rewrite En| | |done].
  - exists cur, gen. split; [done|]. apply (bar_ok_ext _ _ _ _ _ Hb'). intros [|t] _; [by rewrite fn_lookup_insert|].
    rewrite fn_lookup_insert_ne by done. unfold OmpInv.parts. cbn. by rewrite Ec.
  - intros i. rewrite Ec. apply Hc.
  - intros i. rewrite Ec. apply H0.
Qed.

Lemma master_bar_ok x sent l all r b :
  pr_dist x = DBar b → master_ok x sent → dist_step prog num_procs threads_per_proc 0 l all x = Some r → good_step 0 x sent all r.
Proof.
  destruct x as [d u w par bar ch nch calls recv]. cbn [pr_dist]. intros -> H. unfold OmpInv.master_ok in H. cbn [pr_dist pr_pos pr_wk] in H.
  destruct u as [j o|j k]; [done|]. destruct H as ((Hr & Hp & Hk & Hw) & Hjn & (Hk' & _ & Hm) & Hs). cbn in Hp, Hw. subst w par.
  destruct (rg_bar _ _ _ _ _ _ Hr) as (cur & gen & Eb & Hb). cbn in Eb. subst bar.
  pose proof (rg_calls _ _ _ _ _ _ Hr) as Hl. set (x := Proc _ _ _ _ _ _ _ _ _) in *. change (lcalls 0 x) with (k + bcalls b) in Hl.
  cbn [dist_step pr_dist x]. case_match eqn:Es; [|done]. intros [= <-].
  destruct (barrier_ok 0 _ _ all k b x _ (parts 0 x) 0 cur gen eq_refl Hb Hthreads eq_refl Es)
    as [(ob & cur' & gen' & -> & Hb' & Hne & Hw & Hob & Hoc)|[-> ->]].
  - change (mbind _ _) with (Ok (match ob with Some b' => set_dist (DBar b') (set_bar (Some (cur', gen')) x) | None => cmd_done 0 (set_bar (Some (cur', gen')) x) end, @nil cmd)).
    specialize (Hoc eq_refl).
    assert (∀ x', x' = match ob with Some b' => set_dist (DBar b') (set_bar (Some (cur', gen')) x) | None => cmd_done 0 (set_bar (Some (cur', gen')) x) end →
      master_ok x' sent) as Hx'.
    { intros x' Hx'. assert (region 0 x' j) as Hr'.
      { apply (master_update x x' j Hr); [by subst x'; destruct ob..| |].
        - exists cur', gen'. split; [by subst x'; destruct ob|]. replace (mview x') with (oview k ob); [done|]. subst x'. by destruct ob.
        - unfold ncalls. replace (mcalls x') with (k + ocalls ob) by (subst x'; destruct ob; cbn; lia). rewrite Hoc. subst x'. by destruct ob. }
      unfold OmpInv.master_ok. destruct ob as [b'|]; subst x'; cbn [pr_dist pr_pos set_dist set_bar cmd_done is_master Nat.eqb x].
      - split_and!; try done. split_and!; [done|done|]. intros m ->. by destruct Hob.
      - split; [done|]. left. split_and!; done. }
    destruct (is_wait b) eqn:Eb'.
    + destruct (Hw eq_refl) as (m & -> & Ha). rewrite (Hm m eq_refl) in Ha. apply (good_master_back _ _ _ _ (S (S (base j + k)))); [by apply Hx'|by destruct ob|done|].
      unfold ncalls. rewrite Hl. cbn. lia.
    + apply good_master; [by apply Hx'|by destruct ob|by destruct b|]. destruct ob as [b'|]; [|done]. destruct Hob as [E _]. by destruct b'.
  - change (mbind _ _) with (Ok (set_dist (DBar (BDsmWait (S (ncalls x)))) (add_call (inner_call x) x), @nil cmd)).
    cbn in Hl. rewrite Nat.add_0_r in Hl.
    apply (good_master_call _ _ _ _ (inner_call x)); [|done| |done..].
    + unfold OmpInv.master_ok. cbn [pr_dist pr_pos set_dist add_call x]. split_and!; try done.
      * split_and!; try done. apply (master_update x _ j Hr); [done..| |].
        -- exists cur, gen. split; [done|]. apply (bar_ok_ext _ _ _ _ _ Hb). intros [|t] _; [by rewrite fn_lookup_insert|by rewrite fn_lookup_insert_ne].
        -- unfold ncalls. cbn. rewrite length_app. cbn. cbn in Hl. lia.
      * split_and!; [done|done|]. intros m [= <-]. exact (f_equal S Hl).
    + replace (ncalls x) with (S (base j + k)) by exact (eq_sym Hl). change (inner_call x) with (SInner j k). apply call_inner; [exact (rg_j _ _ _ _ _ _ Hr)|done].
Qed.

Lemma master_end_ok x sent l all r :
  match pr_dist x with DJoin _ _ | DSync2 _ | DSync2Wait _ _ => True | _ => False end →
  master_ok x sent → dist_step prog num_procs threads_per_proc 0 l all x = Some r → good_step 0 x sent all r.
Proof.
  destruct x as [d u w par bar ch nch calls recv]. intros Hd H. unfold OmpInv.master_ok in H. cbn [pr_dist pr_pos pr_wk] in H, Hd.
  destruct d as [| | | | | | | | |c i|c|c n| | | |]; try done; destruct u as [j o|j k]; try done; cbn [dist_step pr_dist pr_calls pr_wk pr_pos pr_par pr_nchild].
  - destruct H as ((Hr & Hp & Hk & Hw) & -> & Hjn & Hi & Hs). cbn in Hp, Hw. subst w par. set (x := Proc _ _ _ _ _ _ _ _ _) in *.
    assert (nch = num_children 0) as -> by exact (rg_n _ _ _ _ _ _ Hr). destruct (Nat.ltb_spec i (num_children 0)) as [Hlt|Hge].
    + pose proof (rg_child _ _ _ _ _ _ Hr i Hlt) as Hok. unfold OmpInv.child_ok in Hok.
      destruct (ch_pc (pr_child x i)) as [| | | | | |j'| |] eqn:E; try done. destruct Hok as [-> _]. intros [= <-].
      destruct (join_ok 0 x j i Hr Hjn Hlt E) as (Hr' & Hj' & _). apply good_master; [|done..]. unfold OmpInv.master_ok.
      cbn [pr_dist pr_pos set_dist set_child x]. split_and!; try (done || lia). split_and!; try done. by apply (region_ext _ _ _ _ Hr').
    + rewrite (end_children_ok 0 x j i Hr Hjn Hge). intros [= <-]. apply good_master; [|done..]. unfold OmpInv.master_ok.
      cbn [pr_dist pr_pos set_dist set_children set_bar x]. pose proof (rg_calls _ _ _ _ _ _ Hr) as Hl.
      split_and!; try done. split_and!; try done. exact (rg_j _ _ _ _ _ _ Hr).
  - destruct H as ((Hi & Hp & Hj & -> & Hw) & Hs & Hl). cbn in Hp, Hw. subst w par. intros [= <-].
    apply (good_master_call _ _ _ _ (SEnd j)); [|done| |done..].
    + unfold ncalls in Hl. cbn in Hl. unfold OmpInv.master_ok. cbn [pr_dist pr_pos set_dist add_call]. unfold ncalls. cbn [pr_calls add_call set_dist].
      rewrite length_app, Hl. cbn [OmpInv.base length]. split_and!; try (done || lia).
    + rewrite Hl. by apply call_end.
  - destruct H as ((Hi & Hp & Hj & -> & Hw) & Hs & Hl & ->). cbn in Hp, Hw. subst w par. destruct (all (base (S j))) eqn:Ea; [|done].
    intros [= <-]. apply (good_master_back _ _ _ _ (base (S j))); [|done..]. unfold OmpInv.master_ok.
    cbn [pr_dist pr_pos set_dist set_wk set_par cmd_done is_master Nat.eqb]. split; [done|]. by right.
Qed.

Lemma master_step_ok x sent l all r :
  master_ok x sent → dist_step prog num_procs threads_per_proc 0 l all x = Some r → good_step 0 x sent all r.
Proof.
  intros H Hs. destruct (pr_dist x) eqn:E; try (eapply master_out_ok; [|exact H|exact Hs]; by rewrite E);
    try (eapply master_end_ok; [|exact H|exact Hs]; by rewrite E).
  - eapply master_user_ok; [exact E|exact H|]. unfold dist_step in *. by rewrite E in *.
  - by eapply master_root_ok.
  - unfold OmpInv.master_ok in H. rewrite E in H. by destruct (pr_pos x).
  - by eapply master_exec_ok.
  - by eapply master_bar_ok.
  - by eapply master_reset_ok.
  - unfold dist_step in Hs. by rewrite E in Hs.
  - unfold dist_step in Hs. by rewrite E in Hs.
Qed.

#[local] Abbreviation slave_ok := (slave_ok prog num_procs threads_per_proc).

Lemma idle_wait p x : idle x → is_master p = false → waiting p x = dwait x.
Proof. intros (_ & _ & H) Em. by rewrite waiting_eq, H, andb_false_r, orb_false_r. Qed.

Section slave.
Context (p : nat) (Hp : is_master p = false).

Lemma slave_proc x sent : slave_ok p x → pr_recv x ≤ sent → proc_ok prog num_procs threads_per_proc p x sent.
Proof. intros H Hs. unfold proc_ok. by rewrite Hp. Qed.

Lemma good_slave x sent all x' :
  slave_ok p x' → pr_recv x' ≤ sent → pr_calls x' = pr_calls x → waiting p x' = waiting p x → good_step p x sent all (Ok (x', [])).
Proof. intros H Hs Ec E. apply good_local; [by apply slave_proc|]. by apply call_same. Qed.

Lemma good_slave_back x sent all x' n :
  slave_ok p x' → pr_recv x' ≤ sent → pr_calls x' = pr_calls x → all n = true → ncalls x = n → good_step p x sent all (Ok (x', [])).
Proof. intros H Hs Ec Ha <-. apply good_local; [by apply slave_proc|]. by apply call_back. Qed.

Lemma good_slave_call x sent all x' a :
  slave_ok p x' → pr_recv x' ≤ sent → pr_calls x' = pr_calls x ++ [a] → all_calls prog !! ncalls x = Some a → idle x → idle x' →
  dwait x = false → dwait x' = true → good_step p x sent all (Ok (x', [])).
Proof.
  intros H Hs Ec Ha Hi Hi' E E'. apply good_local; [by apply slave_proc|]. apply (call_new _ _ _ _ a); [done..| |]; by rewrite idle_wait.
Qed.

Lemma idle_set x d r : idle x → idle (set_dist d (set_recv r x)) ∧ idle (set_dist d x).
Proof. done. Qed.

Lemma slave_out_ok x sent l all r :
  match pr_dist x with DRecv | DExec _ => True | _ => False end → l `prefix_of` all_cmds prog → length l = sent →
  slave_ok p x → pr_recv x ≤ sent → dist_step prog num_procs threads_per_proc p l all x = Some r → good_step p x sent all r.
Proof.
  intros Hd Hl Hlen H Hs. unfold OmpInv.slave_ok in H. unfold dist_step. destruct (pr_dist x) as [| | | | |c| | | | | | | | | |] eqn:Ed; try done.
  - destruct H as (Hi & j & o & Hj & Ho & Hr & Hn). destruct (l !! pr_recv x) as [c|] eqn:Ec; [|done]. intros [= <-].
    assert (c = main_cmd (UOut j o)) as ->.
    { pose proof (prefix_lookup_Some _ _ _ _ Ec Hl) as Ec'. rewrite Hr, (cmd_at prog j o Hj Ho) in Ec'. congruence. }
    apply lookup_lt_Some in Ec as Hlt. apply good_slave; [|cbn; lia|done|].
    + unfold OmpInv.slave_ok. cbn [pr_dist set_dist]. split; [done|]. exists j, o. cbn. split_and!; (done || lia).
    + rewrite !idle_wait by done. unfold dwait. by rewrite Ed.
  - destruct H as (Hi & j & o & Hj & Ho & Hr & -> & Hn). rewrite main_cmd_out. intros [= <-]. unfold execute_command.
    pose proof Hi as (Hb & _ & _). destruct (Nat.ltb_spec j (length prog)) as [Hlt|Hge];
      [destruct (Nat.ltb_spec o (outside prog j))|]; cbn [c_code]; rewrite ?Hb; unfold cmd_done; rewrite ?Hp;
      (apply good_slave; [|done..|rewrite !idle_wait by done; unfold dwait; by rewrite Ed]); unfold OmpInv.slave_ok; cbn [pr_dist set_dist].
    + split; [done|]. exists j, (S o). cbn. split_and!; (done || lia).
    + split; [done|]. exists j. split_and!; try done. split_and!; try done. cbn. lia.
    + split; [done|]. assert (j = length prog) as -> by lia.
      assert (outside prog (length prog) = 0) as E by (unfold outside; by rewrite lookup_ge_None_2). cbn. split; [lia|done].
Qed.

Lemma slave_sync_ok x sent l all r :
  match pr_dist x with DSync1 _ | DSync1Wait _ _ | DSync2 _ | DSync2Wait _ _ => True | _ => False end →
  slave_ok p x → pr_recv x ≤ sent → dist_step prog num_procs threads_per_proc p l all x = Some r → good_step p x sent all r.
Proof.
  intros Hd H Hs. unfold OmpInv.slave_ok in H. unfold dist_step.
  destruct (pr_dist x) as [| | | | | |c|c n| | |c|c n| | | |] eqn:Ed; try done; destruct H as (Hi & j & Hin & Hn); pose proof Hin as (Hj & -> & Hr).
  - intros [= <-]. apply (good_slave_call _ _ _ _ (SStart j)); try done; [|rewrite Hn; by apply call_start|unfold dwait; by rewrite Ed].
    unfold OmpInv.slave_ok. cbn [pr_dist set_dist]. split; [done|]. exists j. unfold ncalls in *. cbn. rewrite length_app, Hn. cbn. split_and!; (done || lia).
  - destruct Hn as [Hn ->]. case_match eqn:Ea; [|done]. intros [= <-].
    apply (good_slave_back _ _ _ _ (S (base j))); try done. unfold OmpInv.slave_ok. cbn [pr_dist set_dist]. split; [done|]. by exists j.
  - intros [= <-]. unfold end_region. rewrite Hp. apply (good_slave_call _ _ _ _ (SEnd j)); try done; [|rewrite Hn; by apply call_end|unfold dwait; by rewrite Ed].
    unfold OmpInv.slave_ok. cbn [pr_dist set_dist]. split; [done|]. exists j. unfold ncalls in *. cbn. rewrite length_app, Hn. cbn. split_and!; (done || lia).
  - destruct Hn as [Hn ->]. case_match eqn:Ea; [|done]. unfold cmd_done. rewrite Hp. intros [= <-].
    apply (good_slave_back _ _ _ _ (base (S j))); try done. unfold OmpInv.slave_ok. cbn [pr_dist set_dist]. split; [done|].
    exists (S j), 0. split_and!; try done; try lia. cbn. cbn in Hr. lia.
Qed.

Lemma slave_join_ok x sent l all r :
  match pr_dist x with DFork _ | DJoin _ _ => True | _ => False end →
  slave_ok p x → pr_recv x ≤ sent → dist_step prog num_procs threads_per_proc p l all x = Some r → good_step p x sent all r.
Proof.
  intros Hd H Hs. unfold OmpInv.slave_ok in H. unfold dist_step.
  destruct (pr_dist x) as [| | | | | | | |c|c i| | | | | |] eqn:Ed; try done.
  - destruct H as (Hi & j & Hin & Hn). pose proof Hin as (Hj & -> & Hr). cbn [c_func].
    destruct (start_parallel_ok p j x) as (x' & -> & Hrg & Hjn & Ed' & Ep & Ew & Er & Ec & Hw); [done|done|by rewrite Hp|].
    cbn [mbind result_bind]. rewrite Hp. intros [= <-]. apply good_slave; [|cbn; lia|done|].
    + unfold OmpInv.slave_ok. cbn [pr_dist set_dist]. exists j. split_and!; try done; [by unfold slave_in; cbn; rewrite Er| |lia].
      apply (region_ext _ _ _ _ Hrg); try done. by rewrite Hp.
    + rewrite (idle_wait p x), waiting_eq by done. unfold dwait. cbn. by rewrite Ed, Hw, andb_false_r.
  - destruct H as (j & Hin & Hrg & Hjn & Hi). rewrite (rg_n _ _ _ _ _ _ Hrg). destruct (Nat.ltb_spec i (num_children p)) as [Hlt|Hge].
    + pose proof (rg_child _ _ _ _ _ _ Hrg i Hlt) as Hok. unfold OmpInv.child_ok in Hok.
      destruct (ch_pc (pr_child x i)) as [| | | | | |j'| |] eqn:E; try done. destruct Hok as [-> _]. intros [= <-].
      destruct (join_ok p x j i Hrg Hjn Hlt E) as (Hr' & Hj' & Hw). apply good_slave; [|cbn; lia|done|].
      * unfold OmpInv.slave_ok. cbn [pr_dist set_dist]. exists j. split_and!; try (done || lia).
        apply (region_ext _ _ _ _ Hr'); try done. by rewrite Hp.
      * rewrite <- Hw, !waiting_eq. unfold dwait. cbn. by rewrite Ed.
    + rewrite (end_children_ok p x j i Hrg Hjn Hge). intros [= <-]. pose proof (rg_calls _ _ _ _ _ _ Hrg) as Hl.
      assert (0 < num_children p) as H0 by (unfold Omp.num_children; rewrite Hp; lia).
      destruct (joined_child_ok p x j i 0 Hrg Hjn Hge H0) as [_ E]. unfold OmpInv.lcalls in Hl. rewrite Hp, E in Hl. apply good_slave; [|cbn; lia|done|].
      * unfold OmpInv.slave_ok. cbn [pr_dist set_dist]. split; [done|]. by exists j.
      * rewrite !waiting_eq. unfold dwait. cbn [pr_dist set_dist pr_child set_children ch_pc cwait]. by rewrite Ed, E, !andb_false_r.
Qed.

Lemma slave_step_ok x sent l all r :
  l `prefix_of` all_cmds prog → length l = sent → slave_ok p x → pr_recv x ≤ sent →
  dist_step prog num_procs threads_per_proc p l all x = Some r → good_step p x sent all r.
Proof.
  intros Hl Hlen H Hs Hst. destruct (pr_dist x) eqn:E; try (eapply slave_out_ok; [|exact Hl|exact Hlen|exact H|exact Hs|exact Hst]; by rewrite E);
    try (eapply slave_sync_ok; [|exact H|exact Hs|exact Hst]; by rewrite E);
    try (eapply slave_join_ok; [|exact H|exact Hs|exact Hst]; by rewrite E);
    unfold OmpInv.slave_ok in H; rewrite E in H; try done.
  unfold dist_step in Hst. by rewrite E in Hst.
Qed.
End slave.

(** * The steps of the system *)

#[local] Abbreviation proc_ok := (proc_ok prog num_procs threads_per_proc).
#[local] Abbreviation omp_inv := (omp_inv prog num_procs threads_per_proc).

(** A process is in no region, or its part of the invariant is kept by the steps
    of the threads of its region. *)
Lemma proc_region p x sent :
  proc_ok p x sent →
  idle x ∨ ∃ j, region p x j ∧ (is_master p = false → dwait x = false)
    ∧ ∀ x', region p x' j → same_dist x x' → same_joined x x' → proc_ok p x' sent.
Proof.
  unfold OmpInv.proc_ok. destruct (is_master p) eqn:Em.
  - apply Nat.eqb_eq in Em as ->. intros H. unfold OmpInv.master_ok in H. destruct (pr_dist x) eqn:Ed, (pr_pos x) as [j o|j k] eqn:Ep; try done;
      try (left; unfold master_out, master_in, master_end in H; naive_solver).
    all: try (right; destruct H as ((Hr & Hpar & Hk & Hw) & Hjn & H); exists j; split_and!; [done|done|];
      intros x' Hr' (Ed' & Ep' & Ew' & Epar' & _) Hj'; unfold OmpInv.master_ok, OmpInv.master_region; rewrite Ed', Ep', Ed, Ep, Ew', Epar'; by destruct_and?; split_and!; auto).
    + destruct H as (Hs & [H|(Ho & (Hr & Hpar & Hk & Hw) & Hjn)]); [left; apply H|]. right. exists j. split_and!; [done|done|].
      intros x' Hr' (Ed' & Ep' & Ew' & Epar' & _) Hj'. unfold OmpInv.master_ok, OmpInv.master_region. rewrite Ed', Ep', Ed, Ep, Ew', Epar'.
      split; [done|]. right. by split_and!; auto.
    + destruct H as (Hs & [((Hr & Hpar & Hk & Hw) & Hjn & Hk')|H]); [|left; apply H]. right. exists j. split_and!; [done|done|].
      intros x' Hr' (Ed' & Ep' & Ew' & Epar' & _) Hj'. unfold OmpInv.master_ok, OmpInv.master_region. rewrite Ed', Ep', Ed, Ep, Ew', Epar'.
      split; [done|]. left. by split_and!; auto.
  - intros [H Hs]. unfold OmpInv.slave_ok in H. destruct (pr_dist x) eqn:Ed; try done; try (left; naive_solver).
    right. destruct H as (j & (Hj & Hc & Hrv) & Hr & Hjn & Hi). exists j. split_and!; [done|by unfold dwait; rewrite Ed|].
    intros x' Hr' (Ed' & Ep' & Ew' & Epar' & Er & _) Hj'. rewrite Er. split; [|done]. unfold OmpInv.slave_ok. rewrite Ed', Ed.
    exists j. unfold slave_in. rewrite Er. split_and!; auto.
Qed.

Lemma all_called_spec s n : all_called num_procs s n = true ↔ ∀ q, q < num_procs → n ≤ ncalls (om_procs s q).
Proof.
  unfold all_called. rewrite forallb_forall. split.
  - intros H q Hq. apply Nat.leb_le, H, in_seq. lia.
  - intros H q Hq%in_seq. apply Nat.leb_le, H. lia.
Qed.

Lemma passed_le p x : passed p x ≤ ncalls x.
Proof. unfold passed. lia. Qed.

Lemma take_app_new {A} (l l' : list A) n : n ≤ length l → (∀ i a, l' !! i = Some a → l !! (n + i) = Some a) → take n l ++ l' = take (n + length l') l.
Proof.
  intros Hn H. apply list_eq. intros i. destruct (Nat.lt_ge_cases i n) as [Hi|Hi].
  - rewrite lookup_app_l by (rewrite length_take; lia). rewrite !lookup_take_lt by lia. done.
  - rewrite lookup_app_r by (rewrite length_take; lia). rewrite length_take, Nat.min_l by lia.
    destruct (Nat.lt_ge_cases (i - n) (length l')) as [Hi'|Hi'].
    + destruct (lookup_lt_is_Some_2 l' (i - n) Hi') as [a Ea]. rewrite Ea, lookup_take_lt by lia. symmetry.
      rewrite <- (H _ _ Ea). f_equal. lia.
    + rewrite (lookup_ge_None_2 l') by lia. symmetry. apply lookup_take_ge. lia.
Qed.

(** What the processes other than the one that made a step see. *)
Lemma inv_update s p x' l :
  omp_inv s → p < num_procs → proc_ok p x' (length (om_sent s) + length l) →
  call_rel p (om_procs s p) x' (all_called num_procs s) →
  (∀ i c, l !! i = Some c → all_cmds prog !! (length (om_sent s) + i) = Some c) →
  (l = [] ∨ is_master p = true) →
  omp_inv (Omp (om_sent s ++ l) (<[p := x']> (om_procs s))).
Proof.
  intros [Hsent Hcalls Hproc Hglob] Hp Hok Hrel Hl Hm.
  assert (length (om_sent s) ≤ length (all_cmds prog)) as Hlen by (rewrite Hsent, length_take; lia).
  assert (ncalls (om_procs s p) ≤ ncalls x') as Hmono.
  { destruct Hrel as [[E _]|(a & E & _)]; unfold ncalls; rewrite E; [done|]. rewrite length_app. lia. }
  constructor; cbn [om_sent om_procs].
  - rewrite length_app, <- take_app_new by done. by rewrite <- Hsent.
  - intros q Hq. destruct (decide (q = p)) as [->|Hne]; [rewrite fn_lookup_insert|rewrite fn_lookup_insert_ne by done; auto].
    specialize (Hcalls p Hp). assert (ncalls (om_procs s p) ≤ length (all_calls prog)) as Hle by (unfold ncalls at 1; rewrite Hcalls, length_take; lia).
    unfold ncalls at 1. destruct Hrel as [[E _]|(a & E & Ha & _)]; rewrite E; [done|]. rewrite length_app. cbn [length].
    unfold ncalls in *. change 1 with (length [a]). rewrite <- take_app_new; [by rewrite <- Hcalls|done|].
    intros [|i] b; [|done]. intros [= <-]. by rewrite Nat.add_0_r.
  - intros q Hq. rewrite length_app. destruct (decide (q = p)) as [->|Hne]; [by rewrite fn_lookup_insert|rewrite fn_lookup_insert_ne by done].
    specialize (Hproc q Hq). destruct Hm as [->|Hm]; [by rewrite Nat.add_0_r|]. unfold OmpInv.proc_ok in *.
    destruct (is_master q) eqn:Eq; [apply Nat.eqb_eq in Eq, Hm; congruence|]. split; [apply Hproc|]. destruct Hproc. lia.
  - intros q1 q2 H1 H2. destruct (decide (q2 = p)) as [->|Hne2].
    + rewrite (fn_lookup_insert (A := nat) (om_procs s)). destruct (decide (q1 = p)) as [->|Hne1].
      * rewrite fn_lookup_insert. apply passed_le.
      * rewrite fn_lookup_insert_ne by done. specialize (Hglob q1 p H1 Hp). lia.
    + rewrite (fn_lookup_insert_ne (A := nat) (om_procs s) p q2) by done. destruct (decide (q1 = p)) as [->|Hne1].
      * rewrite fn_lookup_insert. destruct Hrel as [[E [H|H]]|(a & _ & _ & H)]; [specialize (Hglob p q2 Hp H2); lia| |specialize (Hglob p q2 Hp H2); lia].
        rewrite all_called_spec in H. specialize (H q2 H2). pose proof (passed_le p x') as Hle. unfold ncalls in *. rewrite E in Hle. lia.
      * rewrite fn_lookup_insert_ne by done. auto.
Qed.

Lemma idle_child p i all x : idle x → child_step prog threads_per_proc p i all x = None.
Proof. intros (_ & _ & H). unfold child_step. by rewrite H. Qed.

Lemma local_nil (m : result proc) (x' : proc) (l : list cmd) : Some (m ≫= λ x, Ok (x, [])) = Some (Ok (x', l)) → l = [].
Proof. destruct m; [|done]. by intros [= _ <-]. Qed.

(** Only the broadcast of the master sends a command. *)
Lemma dist_step_sent p sent all x x' l :
  dist_step prog num_procs threads_per_proc p sent all x = Some (Ok (x', l)) → (∀ c, pr_dist x ≠ DBcast c) → l = [].
Proof.
  intros Hs Hb. unfold dist_step in Hs.
  destruct (pr_dist x); try (by destruct (Hb _ eq_refl)); try done; try (by eapply local_nil);
    repeat (case_match; try done; try (by eapply local_nil)).
Qed.

Lemma dist_ok s p r :
  omp_inv s → p < num_procs →
  dist_step prog num_procs threads_per_proc p (om_sent s) (all_called num_procs s) (om_procs s p) = Some r →
  good_step p (om_procs s p) (length (om_sent s)) (all_called num_procs s) r ∧ (is_master p = false → ∀ x l, r = Ok (x, l) → l = []).
Proof.
  intros Hinv Hp Hs. pose proof (oi_proc _ _ _ _ Hinv p Hp) as Hok. unfold OmpInv.proc_ok in Hok. destruct (is_master p) eqn:Em.
  - split; [|done]. apply Nat.eqb_eq in Em as ->. by eapply master_step_ok.
  - destruct Hok as [Hok Hr]. split.
    + eapply slave_step_ok; [done| |reflexivity|done|done|exact Hs]. rewrite (oi_sent _ _ _ _ Hinv). eexists. symmetry. apply take_drop.
    + intros _ x l ->. eapply dist_step_sent; [exact Hs|]. intros c E. unfold OmpInv.slave_ok in Hok. by rewrite E in Hok.
Qed.

Lemma omp_inv_step s s' : omp_inv s → omp_step prog num_procs threads_per_proc s s' → omp_inv s'.
Proof.
  intros Hinv Hs. destruct Hs as [p r Hp Hs|p i r Hp Hs].
  - destruct (dist_ok s p r Hinv Hp Hs) as [(x' & l & -> & Hok & Hrel & Hl) Hm]. apply inv_update; try done.
    destruct (is_master p); [by right|left]. by eapply Hm.
  - destruct (proc_region _ _ _ (oi_proc _ _ _ _ Hinv p Hp)) as [Hi|(j & Hr & Hdw & Hkeep)]; [by rewrite idle_child in Hs|].
    destruct (child_step_ok p _ j i _ r Hr Hdw Hs) as (x' & -> & Hr' & Hsd & Hsj & Hrel).
    cbn. rewrite <- (app_nil_r (om_sent s)). apply inv_update; try done; [|by left]. rewrite Nat.add_0_r. by apply Hkeep.
Qed.

Lemma omp_inv_init : omp_inv omp_init.
Proof.
  constructor; cbn; [done|done| |lia].
  intros p Hp. unfold OmpInv.proc_ok, OmpInv.master_ok, OmpInv.slave_ok, new_proc. cbn. destruct (is_master p) eqn:Em; cbn; rewrite ?Em; cbn.
  - split_and!; try done. split_and!; (done || lia).
  - split; [|done]. split; [done|]. exists 0, 0. split_and!; try done; lia.
Qed.

Lemma omp_reach_inv s : omp_reach prog num_procs threads_per_proc s → omp_inv s.
Proof. induction 1 as [|s s' _ IH Hs]; [apply omp_inv_init|by eapply omp_inv_step]. Qed.
End safe.
