(* ===== verification/OmpPhase.v ===== *)
(** Where the processes of the OpenMP runtime are, by their calls of the barrier of the
    address space, and what can be observed of their threads. *)
From Stdlib Require Import ZArith Lia.
From stdpp Require Import base tactics functions list.
From S2P Require Import Prelude.
From S2P Require Import OmpWorker.
From S2P Require Import Omp.
From S2P Require Import OmpInv.
From S2P Require Import OmpSafe.

(** * Observations of the threads *)

(** The region and the barriers passed of a thread that runs user code in a
    region; thread [t] of process [p], the threads of a process numbered from 0. *)
Definition user_at (p t : nat) (x : proc) : option (nat * nat) :=
  if is_master p && (t =? 0) then
    match pr_dist x, pr_pos x with DUser, UIn j k => Some (j, k) | _, _ => None end
  else match ch_pc (pr_child x (t - (if is_master p then 1 else 0))) with CUser j k => Some (j, k) | _ => None end.

(** The region of a thread and the barriers that it has called. *)
Definition begun (prog : program) (p t : nat) (x : proc) : option (nat * nat) :=
  if is_master p && (t =? 0) then
    match pr_dist x, pr_pos x with
    | (DBar _ | DReset), UIn j k => Some (j, S k)
    | (DUser | DRoot | DExec _ | DJoin _ _), UIn j k => Some (j, k)
    | _, _ => None
    end
  else
    match ch_pc (pr_child x (t - (if is_master p then 1 else 0))) with
    | CStart j => Some (j, 0)
    | CUser j k | CRoot j k => Some (j, k)
    | CBar j k _ | CReset j k => Some (j, S k)
    | CDone j | CJoined j => Some (j, inside prog j)
    | CNone | CFailed => None
    end.

(** All threads of the process have ended region [j]; the process has not left it. *)
Definition finished (p j : nat) (x : proc) : bool :=
  match pr_dist x with DSync2 c | DSync2Wait c _ => end_region p c x =? j | _ => false end.

Section omp.
Context (prog : program) (num_procs threads_per_proc : nat).
#[local] Abbreviation inside := (inside prog).
#[local] Abbreviation outside := (outside prog).
#[local] Abbreviation num_children := (num_children threads_per_proc).
#[local] Abbreviation region := (region prog num_procs threads_per_proc).
#[local] Abbreviation parts := (parts prog).
#[local] Abbreviation lcalls := (lcalls prog).
#[local] Abbreviation base := (base prog).
#[local] Abbreviation cbase := (cbase prog).
#[local] Abbreviation proc_ok := (proc_ok prog num_procs threads_per_proc).
#[local] Abbreviation R := (length prog).

Lemma base_mono j j' : j ≤ j' → base j ≤ base j'.
Proof. induction 1; [done|]. cbn. lia. Qed.

Lemma base_lt j j' : j < j' → S (S (base j + inside j)) ≤ base j'.
Proof. intros H. pose proof (base_mono (S j) j' H). cbn in *. lia. Qed.

Lemma cbase_mono j j' : j ≤ j' → cbase j ≤ cbase j'.
Proof. induction 1; [done|]. cbn. lia. Qed.

Lemma cbase_lt j j' : j < j' → S (cbase j + outside j) ≤ cbase j'.
Proof. intros H. pose proof (cbase_mono (S j) j' H). cbn in *. lia. Qed.

(** A thread that waits has not made the call yet. *)
Definition slack (v : view) : nat := match snd v with None => 1 | Some _ => 0 end.

(** The calls of the first thread of a process against its view of the barrier. *)
Lemma lead_child p j i c :
  child_ok prog num_procs threads_per_proc p j i c →
  let a := fst (cview prog (ch_pc c)) in
  let n := ccalls prog (ch_pc c) in
  let w := if cwait (ch_pc c) then 1 else 0 in
  w ≤ n ∧ a ≤ 2 * (n - w) + 1 ∧ 2 * n ≤ a + slack (cview prog (ch_pc c)) ∧ a ≤ 2 * inside j.
Proof.
  unfold child_ok. destruct (ch_pc c) as [|j'|j' k|j' k|j' k b|j' k|j'|j'|]; cbn; try done; try lia.
  - intros (_ & (Hk & _) & _). destruct b; cbn; lia.
  - intros [-> _]. lia.
  - intros [-> _]. lia.
Qed.

Lemma region_not_idle p x j : region p x j → ¬ idle x.
Proof. intros Hr (E & _). destruct (rg_bar _ _ _ _ _ _ Hr) as (cur & gen & Eb & _). congruence. Qed.

Lemma base_inj j j' : base j = base j' → j = j'.
Proof.
  intros E. destruct (Nat.lt_trichotomy j j') as [H|[H|H]]; [|done|]; apply base_lt in H; lia.
Qed.

Lemma region_same p x j j' : region p x j → region p x j' → j = j'.
Proof.
  intros H H'. apply base_inj. pose proof (rg_calls _ _ _ _ _ _ H) as E. rewrite (rg_calls _ _ _ _ _ _ H') in E. lia.
Qed.

Lemma calls_le p x : ncalls x ≤ S (passed p x).
Proof. unfold passed. case_match; lia. Qed.

Lemma child_index p t : t < threads_per_proc → is_master p && (t =? 0) = false →
  t - (if is_master p then 1 else 0) < num_children p ∧ tix p (t - (if is_master p then 1 else 0)) = t.
Proof.
  intros H. unfold Omp.num_children, tix. destruct (is_master p); cbn; [|lia]. destruct t; [done|]. cbn. lia.
Qed.

(** When one thread of a process has passed, all of them have arrived. *)
Lemma all_arrived p x j t a :
  region p x j → t < threads_per_proc → parts p x t = (a, None) → ∀ u, u < threads_per_proc → a ≤ fst (parts p x u).
Proof.
  intros Hr Hlt E u Hu. destruct (rg_bar _ _ _ _ _ _ Hr) as (cur & gen & _ & [H1 H2 _ _]).
  assert (a = gen) as -> by (specialize (H1 t Hlt); rewrite E in H1; by apply H1).
  destruct (snd (parts p x u)) as [g|] eqn:Eu; [specialize (H2 u g Hu Eu); lia|specialize (H1 u Hu Eu); lia].
Qed.

(** Where a process is, by its calls of sp.barrier. *)
Inductive phase (p : nat) (x : proc) (j : nat) : Prop :=
| ph_out : idle x → j ≤ R → ncalls x = base j → passed p x = base j → phase p x j
| ph_in : idle x → j < R → ncalls x = S (base j) → base j ≤ passed p x → phase p x j
| ph_region n pl :
    region p x j → ncalls x = S (base j + n) → passed p x = S (base j + pl) → pl ≤ n →
    fst (parts p x 0) ≤ 2 * pl + 1 → 2 * n ≤ fst (parts p x 0) + slack (parts p x 0) → fst (parts p x 0) ≤ 2 * inside j → phase p x j
| ph_end :
    idle x → j < R → finished p j x = true → S (base j + inside j) ≤ ncalls x → passed p x = S (base j + inside j) → phase p x j.

Lemma idle_passed p x : idle x → passed p x = ncalls x - (if dwait x then 1 else 0).
Proof.
  intros (_ & _ & H). unfold passed. rewrite waiting_eq, H, andb_false_r, orb_false_r. done.
Qed.

Lemma not_waiting p x : waiting p x = false → passed p x = ncalls x.
Proof. intros E. unfold passed. rewrite E. lia. Qed.

Lemma phase_out p x j : idle x → dwait x = false → j ≤ R → ncalls x = base j → phase p x j.
Proof. intros Hi E Hj Hn. apply ph_out; try done. rewrite idle_passed, E, Hn by done. lia. Qed.

Lemma phase_in p x j : idle x → j < R → ncalls x = S (base j) → phase p x j.
Proof. intros Hi Hj Hn. apply ph_in; try done. rewrite idle_passed, Hn by done. case_match; lia. Qed.

Lemma phase_end p x j :
  idle x → j < R → finished p j x = true →
  (dwait x = false ∧ ncalls x = S (base j + inside j) ∨ dwait x = true ∧ ncalls x = base (S j)) → phase p x j.
Proof.
  intros Hi Hj Hf [[E Hn]|[E Hn]]; apply ph_end; try done; rewrite ?idle_passed, ?E, ?Hn by done; cbn; lia.
Qed.

Lemma phase_master x j k w :
  master_region prog num_procs threads_per_proc x j k w → pr_pos x = UIn j k → dwait x = false →
  match pr_dist x with DBar _ => False | DReset => k < inside j | _ => True end → phase 0 x j.
Proof.
  intros (Hr & _ & Hk & _) Ep Hd Hm. pose proof (rg_calls _ _ _ _ _ _ Hr) as Hl. unfold OmpInv.lcalls in Hl. cbn in Hl.
  apply (ph_region 0 x j (mcalls x) (mcalls x)); try done.
  - rewrite not_waiting; [done|]. by rewrite waiting_eq, Hd.
  - change (parts 0 x 0) with (mview x). unfold mview, mcalls. rewrite Ep. destruct (pr_dist x); cbn; (done || lia).
  - change (parts 0 x 0) with (mview x). unfold mview, mcalls. rewrite Ep. destruct (pr_dist x); cbn; (done || lia).
  - change (parts 0 x 0) with (mview x). unfold mview. rewrite Ep. destruct (pr_dist x); cbn; (done || lia).
Qed.

Lemma phase_slave p x j : is_master p = false → region p x j → dwait x = false → 0 < threads_per_proc → phase p x j.
Proof.
  intros Em Hr Hd Ht. pose proof (rg_calls _ _ _ _ _ _ Hr) as Hl. unfold OmpInv.lcalls in Hl. rewrite Em in Hl.
  assert (0 < num_children p) as H0 by (unfold Omp.num_children; rewrite Em; lia).
  destruct (lead_child p j 0 _ (rg_child _ _ _ _ _ _ Hr 0 H0)) as (H1 & H2 & H3 & H4).
  set (c := ch_pc (pr_child x 0)) in *. assert (parts p x 0 = cview prog c) as E by (unfold OmpInv.parts; by rewrite Em).
  apply (ph_region p x j (ccalls prog c) (ccalls prog c - (if cwait c then 1 else 0))); rewrite ?E; try done; try lia.
  unfold passed, ncalls. rewrite Hl, waiting_eq, Em, Hd. cbn. fold c. lia.
Qed.

Lemma proc_phase p x sent : 0 < threads_per_proc → proc_ok p x sent → ∃ j, phase p x j.
Proof.
  intros Ht. unfold OmpInv.proc_ok. destruct (is_master p) eqn:Em.
  - apply Nat.eqb_eq in Em as ->. intros H. unfold OmpInv.master_ok in H.
    destruct (pr_dist x) eqn:Ed, (pr_pos x) as [j o|j k] eqn:Ep; try done;
      try (exists j; unfold master_out in H; apply phase_out; [naive_solver|unfold dwait; by rewrite Ed|naive_solver lia|naive_solver]);
      try (exists j; eapply phase_master; [apply H|done|unfold dwait; by rewrite Ed|by rewrite Ed]).
    + exists j. destruct H as ((Hi & _ & Hj & _) & _ & Hn). apply phase_out; [done|unfold dwait; by rewrite Ed|lia|done].
    + exists j. destruct H as ((Hi & _ & Hj & _) & _ & Hn & _). by apply phase_in.
    + exists j. destruct H as ((Hi & _ & Hj & _) & _ & Hn). by apply phase_in.
    + exists j. destruct H as ((Hi & _ & Hj & _) & _ & Hn). apply phase_end; [done|done|unfold finished, end_region; cbn; by rewrite Ed, Ep, Nat.eqb_refl|].
      left. split; [unfold dwait; by rewrite Ed|done].
    + exists j. destruct H as ((Hi & _ & Hj & _) & _ & Hn & _). apply phase_end; [done|done|unfold finished, end_region; cbn; by rewrite Ed, Ep, Nat.eqb_refl|].
      right. split; [unfold dwait; by rewrite Ed|done].
    + exists j. destruct H as ((Hr & _ & _ & _) & _ & (Hk & _) & _). pose proof (rg_calls _ _ _ _ _ _ Hr) as Hl. unfold OmpInv.lcalls in Hl. cbn [is_master Nat.eqb] in Hl.
      apply (ph_region 0 x j (mcalls x) (mcalls x - (if is_wait b then 1 else 0))); try done.
      * unfold passed, ncalls. rewrite Hl, waiting_eq. unfold dwait, mcalls. rewrite Ed, Ep. destruct b; cbn; lia.
      * lia.
      * change (parts 0 x 0) with (mview x). unfold mview, mcalls. rewrite Ed, Ep. destruct b; cbn; lia.
      * change (parts 0 x 0) with (mview x). unfold mview, mcalls. rewrite Ed, Ep. destruct b; cbn; lia.
      * change (parts 0 x 0) with (mview x). unfold mview. rewrite Ed, Ep. destruct b; cbn; lia.
    + exists j. destruct H as (_ & [((Hi & _ & Hj & _ & Hn) & _)|(_ & (Hr & _) & _)]).
      * apply phase_out; [done|unfold dwait; by rewrite Ed|lia|done].
      * pose proof (rg_calls _ _ _ _ _ _ Hr) as Hl. unfold OmpInv.lcalls, mcalls in Hl. cbn in Hl. rewrite Ep in Hl.
        apply (ph_region 0 x j 0 0); try done; try (unfold OmpInv.parts, mview; cbn; rewrite Ep; cbn; lia).
        rewrite not_waiting; [done|]. rewrite waiting_eq. unfold dwait. by rewrite Ed.
    + destruct H as (_ & [(Hm & _ & Hk)|(Hi & _ & Hj & _ & Hn & _)]).
      * exists j. eapply phase_master; [exact Hm|done|unfold dwait; by rewrite Ed|by rewrite Ed].
      * exists (S j). apply phase_out; [done|unfold dwait; by rewrite Ed|lia|done].
  - intros [H _]. unfold OmpInv.slave_ok in H. destruct (pr_dist x) eqn:Ed; try done.
    + destruct H as (Hi & j & o & Hj & _ & _ & Hn). exists j. apply phase_out; [done|unfold dwait; by rewrite Ed|done|done].
    + destruct H as (Hi & j & o & Hj & _ & _ & _ & Hn). exists j. apply phase_out; [done|unfold dwait; by rewrite Ed|done|done].
    + destruct H as (Hi & j & (Hj & _) & Hn). exists j. apply phase_out; [done|unfold dwait; by rewrite Ed|lia|done].
    + destruct H as (Hi & j & (Hj & _) & Hn & _). exists j. by apply phase_in.
    + destruct H as (Hi & j & (Hj & _) & Hn). exists j. by apply phase_in.
    + destruct H as (j & _ & Hr & _). exists j. apply phase_slave; [done|done|unfold dwait; by rewrite Ed|done].
    + destruct H as (Hi & j & (Hj & -> & _) & Hn). exists j. apply phase_end; [done|done|unfold finished, end_region; by rewrite Ed, Em, Nat.eqb_refl|].
      left. split; [unfold dwait; by rewrite Ed|done].
    + destruct H as (Hi & j & (Hj & -> & _) & Hn & _). exists j. apply phase_end; [done|done|unfold finished, end_region; by rewrite Ed, Em, Nat.eqb_refl|].
      right. split; [unfold dwait; by rewrite Ed|done].
    + destruct H as (Hi & _ & Hn). exists R. apply phase_out; [done|unfold dwait; by rewrite Ed|done|done].
Qed.
End omp.
