(* ===== verification/OmpProgress.v ===== *)
(** The OpenMP runtime makes progress: some process can make a step until all of
    them have left the loop of the runtime. *)
From Stdlib Require Import ZArith Lia.
From stdpp Require Import base tactics functions list.
From S2P Require Import Prelude.
From S2P Require Import OmpWorker.
From S2P Require Import Omp.
From S2P Require Import OmpInv.
From S2P Require Import OmpSafe.
From S2P Require Import OmpPhase.

Lemma cnt_lt_ex n f : cnt n f < n → ∃ i, i < n ∧ f i = false.
Proof.
  induction n as [|n IH]; [lia|]. cbn. destruct (f n) eqn:E; intros H.
  - destruct IH as (i & Hi & Hf); [lia|]. exists i. split; [lia|done].
  - exists n. split; [lia|done].
Qed.

Lemma argmin n (f : nat → nat) : 0 < n → ∃ r, r < n ∧ ∀ q, q < n → f r ≤ f q.
Proof.
  induction n as [|n IH]; [lia|]. intros _. destruct n as [|n]; [exists 0; split; [lia|]; intros q Hq; by replace q with 0 by lia|].
  destruct IH as (r & Hr & Hmin); [lia|]. destruct (decide (f r ≤ f (S n))) as [H|H].
  - exists r. split; [lia|]. intros q Hq. destruct (decide (q = S n)) as [->|]; [done|]. apply Hmin. lia.
  - exists (S n). split; [lia|]. intros q Hq. destruct (decide (q = S n)) as [->|]; [done|]. specialize (Hmin q ltac:(lia)). lia.
Qed.

Section progress.
Context (prog : program) (num_procs threads_per_proc : nat).
Context (Ht : 0 < threads_per_proc).
#[local] Abbreviation inside := (inside prog).
#[local] Abbreviation outside := (outside prog).
#[local] Abbreviation num_children := (num_children threads_per_proc).
#[local] Abbreviation region := (region prog num_procs threads_per_proc).
#[local] Abbreviation parts := (parts prog).
#[local] Abbreviation base := (base prog).
#[local] Abbreviation cbase := (cbase prog).
#[local] Abbreviation proc_ok := (proc_ok prog num_procs threads_per_proc).
#[local] Abbreviation omp_inv := (omp_inv prog num_procs threads_per_proc).
#[local] Abbreviation dist_step := (dist_step prog num_procs threads_per_proc).
#[local] Abbreviation child_step := (child_step prog threads_per_proc).

(** * A process in a region *)

Section region.
Context (p : nat) (x : proc) (j : nat) (all : nat → bool) (sent : list cmd).
Context (Hok : proc_ok p x (length sent)) (Hr : region p x j).
Context (Hd : dist_step p sent all x = None) (Hc : ∀ i, child_step p i all x = None).

(** What a thread that cannot make a step waits for. *)
Definition blocked_view (v : view) : Prop :=
  (∃ g, snd v = Some g ∧ bar_passed g x = false) ∨ waiting p x = true ∧ all (ncalls x) = false ∨ v = (2 * inside j, None).

Lemma blocked_bar b num a k :
  barrier_step threads_per_proc p num a all b x = None →
  (∃ g, snd (bview k b) = Some g ∧ bar_passed g x = false) ∨ ∃ m, b = BDsmWait m ∧ all m = false.
Proof.
  destruct b as [|g| |m| |g]; cbn; try done; case_match eqn:E; try done; intros _; [left; by exists g|right; by exists m|left; by exists g].
Qed.

Lemma blocked_child i : i < num_children p →
  blocked_view (cview prog (ch_pc (pr_child x i))).
Proof.
  intros Hi. pose proof (rg_child _ _ _ _ _ _ Hr i Hi) as Hco. specialize (Hc i). unfold Omp.child_step in Hc.
  unfold child_ok in Hco. unfold blocked_view.
  destruct (ch_pc (pr_child x i)) as [|j'|j' k'|j' k'|j' k' b|j' k'|j'|j'|] eqn:Ec; try done.
  - destruct (barrier_step _ _ _ _ _ b x) eqn:Eb; [done|]. destruct Hco as (-> & (Hk & Hl & Hm) & Ew).
    destruct (blocked_bar b _ _ k' Eb) as [H|(m & -> & Ha)]; [by left|right; left].
    assert (lead p i = true) as El by by apply (lead_num threads_per_proc), Hl.
    pose proof (rg_calls _ _ _ _ _ _ Hr) as Hn. rewrite (lead_lcalls prog p x i El), Ec in Hn. cbn in Hn.
    rewrite (Hm m eq_refl) in Ha. unfold lead in El. apply andb_true_iff in El as [Em Ez]. apply negb_true_iff in Em.
    apply Nat.eqb_eq in Ez as ->. split.
    + rewrite waiting_eq, Em, Ec. cbn. by rewrite orb_true_r.
    + unfold ncalls. rewrite Hn. by rewrite Nat.add_1_r, Nat.add_succ_r.
  - right. right. destruct Hco as [-> _]. done.
  - right. right. destruct Hco as [-> _]. done.
Qed.

Lemma blocked_master : is_master p = true → blocked_view (mview x) ∧ fst (mview x) ≤ 2 * inside j ∧ (mview x = (2 * inside j, None) →
  ∃ c i, pr_dist x = DJoin c i ∧ joined i x ∧ i ≤ num_children p).
Proof.
  intros Em. pose proof Hok as H. unfold OmpInv.proc_ok in H. rewrite Em in H. unfold master_ok, master_out, master_in, master_end in H.
  unfold Omp.dist_step in Hd. rewrite Em in Hd. unfold blocked_view.
  assert (∀ j' k' w, master_region prog num_procs threads_per_proc x j' k' w → j' = j) as Hj.
  { intros j' k' w [Hr' _]. apply Nat.eqb_eq in Em as ->. by apply (region_same prog num_procs threads_per_proc 0 x). }
  pose proof (region_not_idle prog num_procs threads_per_proc p x j Hr) as Hni.
  destruct (pr_dist x) eqn:Ed, (pr_pos x) as [j' o|j' k'] eqn:Ep; try done; try (exfalso; apply Hni; apply H).
  - unfold mview. rewrite Ed, Ep. destruct H as (Hm & -> & Hjn & Hi & _). rewrite (Hj _ _ _ Hm). apply Nat.eqb_eq in Em as ->.
    split_and!; [by right; right|done|]. intros _. eauto.
  - unfold mview. rewrite Ed, Ep. destruct H as (Hm & _ & (Hk & _ & Hw) & _). assert (j' = j) as -> by exact (Hj _ _ _ Hm).
    destruct (barrier_step _ _ _ _ _ b x) eqn:Eb; [done|]. split_and!.
    + destruct (blocked_bar b _ _ k' Eb) as [H|(m & -> & Ha)]; [by left|right; left]. rewrite waiting_eq. unfold dwait. rewrite Ed. split; [done|].
      rewrite (Hw m eq_refl) in Ha. pose proof (rg_calls _ _ _ _ _ _ Hr) as Hn. unfold lcalls in Hn. rewrite Em in Hn.
      unfold mcalls in Hn. rewrite Ep, Ed in Hn. unfold ncalls. rewrite Hn. cbn. by rewrite Nat.add_1_r, Nat.add_succ_r.
    + destruct b; cbn; lia.
    + intros E. exfalso. destruct b; simplify_eq/=; lia.
Qed.
Lemma blocked_part t : t < threads_per_proc → blocked_view (parts p x t) ∧ fst (parts p x t) ≤ 2 * inside j.
Proof.
  intros Hlt. destruct (is_master p && (t =? 0)) eqn:E.
  - apply andb_true_iff in E as [Em Ez]. apply Nat.eqb_eq in Ez as ->. unfold OmpInv.parts. rewrite Em.
    destruct (blocked_master Em) as (H1 & H2 & _). done.
  - destruct (child_index threads_per_proc p t Hlt E) as [Hi Et]. rewrite <- Et, parts_tix. split; [by apply blocked_child|].
    by destruct (lead_child prog num_procs threads_per_proc p j _ _ (rg_child _ _ _ _ _ _ Hr _ Hi)) as (_ & _ & _ & H).
Qed.

(** A worker whose threads have all ended joins one of them or leaves the region. *)
Lemma ended_steps : (∀ t, t < threads_per_proc → parts p x t = (2 * inside j, None)) → False.
Proof.
  intros Hall. assert (∃ c i, pr_dist x = DJoin c i ∧ joined i x) as (c & i & Ed & Hjn).
  { destruct (is_master p) eqn:Em.
    - destruct (blocked_master Em) as (_ & _ & H). destruct H as (c & i & Ed & Hjn & _); [|by eauto].
      specialize (Hall 0 Ht). unfold OmpInv.parts in Hall. by rewrite Em in Hall.
    - pose proof Hok as H. unfold OmpInv.proc_ok in H. rewrite Em in H. destruct H as [H _]. unfold slave_ok in H.
      pose proof (region_not_idle prog num_procs threads_per_proc p x j Hr) as Hni. destruct (pr_dist x); try done; try (exfalso; apply Hni; apply H).
      destruct H as (j' & _ & _ & Hjn & _). eauto. }
  unfold Omp.dist_step in Hd. rewrite Ed, (rg_n _ _ _ _ _ _ Hr) in Hd. destruct (Nat.ltb_spec i (num_children p)) as [Hi|Hi]; [|done].
  specialize (Hall _ (tix_lt threads_per_proc Ht p i Hi)). rewrite parts_tix in Hall. specialize (Hjn i). rewrite Nat.ltb_irrefl in Hjn.
  pose proof (rg_child _ _ _ _ _ _ Hr i Hi) as Hco. specialize (Hc i). unfold Omp.child_step in Hc. unfold child_ok in Hco.
  destruct (ch_pc (pr_child x i)) as [|j'|j' k'|j' k'|j' k' b|j' k'|j'|j'|] eqn:Ec; try done.
  destruct (barrier_step _ _ _ _ _ b x) eqn:Eb; [done|]. destruct (blocked_bar b _ _ k' Eb) as [(g & Eg & _)|(m & -> & _)].
  - cbn in Hall. rewrite Hall in Eg. done.
  - cbn in Hall. injection Hall. lia.
Qed.

Lemma region_blocked : waiting p x = true ∧ all (ncalls x) = false.
Proof.
  destruct (waiting p x && negb (all (ncalls x))) eqn:Ew; [apply andb_true_iff in Ew as [? ?%negb_true_iff]; done|exfalso].
  destruct (rg_bar _ _ _ _ _ _ Hr) as (cur & gen & Eb & [H1 H2 H3 H4]).
  assert (∀ t, t < threads_per_proc → parts p x t = (2 * inside j, None) ∨ snd (parts p x t) = Some gen) as Hall.
  { intros t Hlt. destruct (blocked_part t Hlt) as [[(g & Eg & Hg)|[[H Ha]|H]] _]; [right|by rewrite H, Ha in Ew|by left].
    unfold bar_passed in Hg. rewrite Eb in Hg. apply negb_false_iff, Nat.eqb_eq in Hg as ->. done. }
  rewrite H3 in H4. destruct (cnt_lt_ex _ _ H4) as (t & Hlt & Hw). unfold waits_for in Hw. apply bool_decide_eq_false in Hw.
  destruct (Hall t Hlt) as [Et|Et]; [|done]. apply ended_steps. intros u Hu. destruct (Hall u Hu) as [Eu|Eu]; [done|exfalso].
  destruct (blocked_part u Hu) as [_ Hle]. destruct (H2 u gen Hu Eu) as [Ha _]. specialize (H1 t Hlt). rewrite Et in H1. cbn in H1.
  specialize (H1 eq_refl). lia.
Qed.
End region.
(** * All processes *)

(** A process that cannot make a step waits for sp.barrier or for a broadcast, or
    has left the loop. *)
Lemma proc_blocked p x all sent :
  proc_ok p x (length sent) → dist_step p sent all x = None → (∀ i, child_step p i all x = None) →
  (waiting p x = true ∧ all (ncalls x) = false)
  ∨ (is_master p = false ∧ pr_dist x = DRecv ∧ length sent ≤ pr_recv x) ∨ pr_dist x = DExit.
Proof.
  intros Hok Hd Hc. destruct (proc_region _ _ _ p x _ Hok) as [Hi|(j & Hr & _)].
  2:{ left. by eapply region_blocked. }
  pose proof Hok as H. unfold OmpInv.proc_ok, master_ok, slave_ok in H. unfold Omp.dist_step in Hd.
  destruct (is_master p) eqn:Em.
  - destruct (pr_dist x) eqn:Ed, (pr_pos x) eqn:Ep; try done; try (by right; right);
      try (destruct H as (_ & _ & Hn & ->); left; split; [rewrite waiting_eq; unfold dwait; by rewrite Ed|]; rewrite Hn; by case_match);
      try (destruct H as ((Hr & _) & _); by destruct (region_not_idle _ _ _ p x _ Hr)).
    + apply Nat.eqb_eq in Em as ->. destruct H as ((Hr & _) & _). by destruct (region_not_idle _ _ _ 0 x _ Hr).
    + apply Nat.eqb_eq in Em as ->. destruct H as ((Hr & _) & _). by destruct (region_not_idle _ _ _ 0 x _ Hr).
  - destruct H as [H Hs]. destruct (pr_dist x) eqn:Ed; try done; try (by right; right).
    + right. left. split_and!; [done|done|]. destruct (sent !! pr_recv x) eqn:Er; [done|]. by apply lookup_ge_None_1.
    + destruct H as (_ & j & _ & Hn & ->). left. split; [rewrite waiting_eq; unfold dwait; by rewrite Ed|]. rewrite Hn. by case_match.
    + destruct H as (j & _ & Hr & _). by destruct (region_not_idle _ _ _ p x _ Hr).
    + destruct H as (_ & j & _ & Hn & ->). left. split; [rewrite waiting_eq; unfold dwait; by rewrite Ed|]. rewrite Hn. by case_match.
Qed.

(** The broadcasts that the master made before it waits in sp.barrier. *)
Lemma master_waits x sent :
  master_ok prog num_procs threads_per_proc x sent → waiting 0 x = true → ∃ j, j < length prog ∧ sent = cbase (S j) ∧ ncalls x ≤ base (S j).
Proof.
  rewrite waiting_eq. cbn. rewrite orb_false_r. unfold dwait, master_ok.
  destruct (pr_dist x) as [| | | | | | |c n| | | |c n|b| | |] eqn:Ed, (pr_pos x) as [j o|j k] eqn:Ep; try done; intros H Hw; exists j.
  - destruct H as ((_ & _ & Hj & -> & _) & -> & Hn & _). split_and!; [done|cbn; lia|cbn; lia].
  - destruct H as ((_ & _ & Hj & _) & -> & Hn & _). split_and!; [done|done|rewrite Hn; cbn; lia].
  - destruct H as ((Hr & _) & _ & (Hk & _) & ->). pose proof (rg_calls _ _ _ _ _ _ Hr) as Hn. unfold lcalls in Hn. cbn in Hn.
    unfold mcalls in Hn. rewrite Ep, Ed in Hn. split_and!; [exact (rg_j _ _ _ _ _ _ Hr)|done|]. unfold ncalls. rewrite Hn. destruct b; cbn; lia.
Qed.

(** A slave that waits for the [r]th broadcast. *)
Lemma slave_recv p x :
  slave_ok prog num_procs threads_per_proc p x → pr_dist x = DRecv →
  ∃ j, j ≤ length prog ∧ ncalls x = base j ∧ cbase j ≤ pr_recv x ∧ (∀ j', j < j' → pr_recv x < cbase j') ∧ pr_recv x ≤ cbase (length prog).
Proof.
  intros H Ed. unfold slave_ok in H. rewrite Ed in H. destruct H as (_ & j & o & Hj & Ho & Hr & Hn). exists j. split_and!; try done; try lia.
  - intros j' Hj'. apply (cbase_lt prog) in Hj'. lia.
  - destruct (decide (j = length prog)) as [->|Hne].
    + assert (outside (length prog) = 0) as E by (unfold Omp.outside; by rewrite lookup_ge_None_2). lia.
    + pose proof (cbase_lt prog j (length prog) ltac:(lia)). lia.
Qed.

Lemma some_step s :
  omp_inv s → (∀ s', ¬ omp_step prog num_procs threads_per_proc s s') → ∀ p, p < num_procs → pr_dist (om_procs s p) = DExit.
Proof.
  intros Hinv Hno. pose proof Hinv as [_ _ Hproc Hglob].
  assert (∀ p, p < num_procs → waiting p (om_procs s p) = true ∧ all_called num_procs s (ncalls (om_procs s p)) = false
    ∨ (is_master p = false ∧ pr_dist (om_procs s p) = DRecv ∧ length (om_sent s) ≤ pr_recv (om_procs s p)) ∨ pr_dist (om_procs s p) = DExit) as Hb.
  { intros p Hp. apply (proc_blocked p _ (all_called num_procs s) (om_sent s)); [by apply Hproc| |].
    - destruct (dist_step p _ _ _) eqn:E; [|done]. destruct (Hno _ (omp_step_dist _ _ _ s p _ Hp E)).
    - intros i. destruct (child_step p i _ _) eqn:E; [|done]. destruct (Hno _ (omp_step_child _ _ _ s p i _ Hp E)). }
  intros p0 Hp0. assert (0 < num_procs) as HP by lia.
  destruct (argmin num_procs (λ p, ncalls (om_procs s p)) HP) as (q & Hq & Hmin). cbn beta in Hmin.
  assert (all_called num_procs s (ncalls (om_procs s q)) = true) as Hall by (apply (proj2 (all_called_spec _ _ Ht s _)); exact Hmin).
  pose proof (Hproc 0 HP) as H0. unfold OmpInv.proc_ok in H0. cbn in H0.
  assert (∀ p, p < num_procs → ncalls (om_procs s p) ≤ base (length prog)) as Hmax.
  { intros p Hp. unfold ncalls. rewrite (oi_calls _ _ _ _ Hinv p Hp), length_take. unfold all_calls. rewrite length_calls. lia. }
  assert (pr_dist (om_procs s 0) = DExit → length (om_sent s) = S (cbase (length prog)) ∧ ncalls (om_procs s 0) = base (length prog)) as Hexit.
  { intros Ed. unfold master_ok in H0. rewrite Ed in H0. destruct (pr_pos (om_procs s 0)) as [j o|]; [|done]. destruct H0 as ((_ & _ & _ & Ho & Hn) & -> & ->).
    assert (outside (length prog) = 0) as E by (unfold Omp.outside; by rewrite lookup_ge_None_2). split; [lia|done]. }
  assert (pr_dist (om_procs s q) = DExit) as Hqx.
  { destruct (Hb q Hq) as [[_ Ha]|[(Em & Ed & Hs)|Ed]]; [congruence| |done]. exfalso.
    pose proof (Hproc q Hq) as Hok. unfold OmpInv.proc_ok in Hok. rewrite Em in Hok. destruct Hok as [Hok Hle].
    destruct (slave_recv q _ Hok Ed) as (j & Hj & Hn & Hr1 & Hr2 & Hr3). destruct (Hb 0 HP) as [[Hw Ha]|[(Em0 & _)|Ed0]]; [|done|].
    - destruct (master_waits _ _ H0 Hw) as (j' & Hj' & Hs' & Hn0). assert (¬ j < S j') as H1 by (intros H; apply Hr2 in H; lia).
      assert (¬ S j' < j) as H2 by (intros H; apply (cbase_lt prog) in H; lia). assert (j = S j') as -> by lia.
      replace (ncalls (om_procs s 0)) with (ncalls (om_procs s q)) in Ha; [congruence|]. specialize (Hmin 0 HP). lia.
    - destruct (Hexit Ed0) as [Hs0 _]. lia. }
  assert (ncalls (om_procs s q) = base (length prog)) as Hqn.
  { pose proof (Hproc q Hq) as Hok. unfold OmpInv.proc_ok in Hok. destruct (is_master q) eqn:Em.
    - apply Nat.eqb_eq in Em as ->. by apply Hexit.
    - destruct Hok as [Hok _]. unfold slave_ok in Hok. rewrite Hqx in Hok. by destruct Hok as (_ & _ & ?). }
  assert (∀ p, p < num_procs → ncalls (om_procs s p) = ncalls (om_procs s q)) as Heq.
  { intros p Hp. specialize (Hmin p Hp). specialize (Hmax p Hp). lia. }
  assert (pr_dist (om_procs s 0) = DExit) as H0x.
  { destruct (Hb 0 HP) as [[_ Ha]|[(Em & _)|Ed]]; [|done|done]. rewrite Heq in Ha by done. congruence. }
  destruct (Hexit H0x) as [Hs _]. destruct (Hb p0 Hp0) as [[_ Ha]|[(Em & Ed & Hsr)|Ed]]; [rewrite Heq in Ha by done; congruence| |done].
  pose proof (Hproc p0 Hp0) as Hok. unfold OmpInv.proc_ok in Hok. rewrite Em in Hok. destruct Hok as [Hok _].
  destruct (slave_recv p0 _ Hok Ed) as (j & _ & _ & _ & _ & Hr3). lia.
Qed.
End progress.
