(* ===== verification/OmpTerm.v ===== *)
(** The OpenMP runtime terminates: every step lowers a rank. *)
From Stdlib Require Import ZArith Lia.
From stdpp Require Import base tactics functions list.
From S2P Require Import Prelude.
From S2P Require Import OmpWorker.
From S2P Require Import Omp.
From S2P Require Import OmpInv.
From S2P Require Import OmpSafe.
From S2P Require Import OmpPhase.
From S2P Require Import OmpProgress.

(** Sums over the numbers below [n]. *)
Fixpoint sum_upto (n : nat) (f : nat → nat) : nat := match n with O => O | S n => f n + sum_upto n f end.

Lemma sum_ext n f g : (∀ i, i < n → f i = g i) → sum_upto n f = sum_upto n g.
Proof. induction n as [|n IH]; intros H; [done|]. cbn. rewrite (H n) by lia. f_equal. apply IH. auto. Qed.

Lemma sum_lower n f g t : t < n → g t < f t → (∀ i, i ≠ t → g i = f i) → sum_upto n g < sum_upto n f.
Proof.
  induction n as [|n IH]; intros Ht Hlt H; [lia|]. cbn. destruct (decide (t = n)) as [->|Hne].
  - rewrite (sum_ext n g f) by (intros i Hi; apply H; lia). lia.
  - rewrite (H n) by done. specialize (IH ltac:(lia) Hlt H). lia.
Qed.

Lemma sum_le n f b : (∀ i, i < n → f i ≤ b) → sum_upto n f ≤ n * b.
Proof. induction n as [|n IH]; intros H; [done|]. cbn. specialize (H n) as Hn. specialize (IH ltac:(auto)). lia. Qed.

Lemma sum_zero n f : (∀ i, i < n → f i = 0) → sum_upto n f = 0.
Proof. induction n as [|n IH]; intros H; [done|]. cbn. rewrite (H n) by lia. apply IH. auto. Qed.

Definition brem (b : bpc) : nat :=
  match b with BArrive1 => 7 | BWait1 _ => 6 | BDsm => 5 | BDsmWait _ => 4 | BArrive2 => 3 | BWait2 _ => 2 end.

Definition orem (ob : option bpc) : nat := match ob with Some b => brem b | None => 0 end.

Section term.
Context (prog : program) (num_procs threads_per_proc : nat).
Context (Ht : 0 < threads_per_proc).
#[local] Abbreviation inside := (inside prog).
#[local] Abbreviation outside := (outside prog).
#[local] Abbreviation num_children := (num_children threads_per_proc).
#[local] Abbreviation region := (region prog num_procs threads_per_proc).
#[local] Abbreviation proc_ok := (proc_ok prog num_procs threads_per_proc).
#[local] Abbreviation omp_inv := (omp_inv prog num_procs threads_per_proc).
#[local] Abbreviation dist_step := (dist_step prog num_procs threads_per_proc).
#[local] Abbreviation child_step := (child_step prog threads_per_proc).

(** * The rank *)

(** The steps that a child worker has left. *)
Definition crank (pc : cpc) : nat :=
  match pc with
  | CStart j => 10 * inside j + 4
  | CUser j k => 10 * (inside j - k) + 3
  | CRoot j k => 10 * (inside j - k) + 2
  | CBar j k b => 10 * (inside j - S k) + 4 + brem b
  | CReset j k => 10 * (inside j - S k) + 4
  | CDone _ => 1
  | CNone | CJoined _ | CFailed => 0
  end.

Definition csum (x : proc) : nat := sum_upto threads_per_proc (λ i, crank (ch_pc (pr_child x i))).

(** The steps of a region. *)
Definition frank (j : nat) : nat := 12 * inside j + 24 + threads_per_proc * (10 * inside j + 4).

(** The steps of a command. *)
Definition wt (c : cmd) : nat := match c_code c with CmdStartParallel => frank (c_func c) + 9 | _ => 6 end.

Definition wsum (l : list cmd) : nat := list_sum (wt <$> l).

(** The steps that a distributed worker has left for its command. *)
Definition lrank (p : nat) (x : proc) : nat :=
  let u := if is_master p then pr_pos x else UOut 0 0 in
  match pr_dist x, u with
  | DStart, _ => 4
  | DUser, UOut _ _ => 3
  | DUser, UIn j k => 12 * (inside j - k) + 23
  | DRoot, UOut _ _ => 2
  | DRoot, UIn j k => 12 * (inside j - k) + 22
  | DBcast _, _ => 1
  | DRecv, _ => 0
  | DExec c, UOut _ _ => wt c - 1
  | DExec c, UIn j k => 12 * (inside j - k) + 21
  | DSync1 c, _ => frank (c_func c) + 7
  | DSync1Wait c _, _ => frank (c_func c) + 6
  | DFork c, _ => frank (c_func c) + 5
  | DJoin _ _, _ => 10
  | DSync2 _, _ => 9
  | DSync2Wait _ _, _ => 8
  | DBar b, UIn j k => 12 * (inside j - S k) + 24 + brem b
  | DBar _, UOut _ _ => 0
  | DReset, UOut j o => if o <? outside j then 4 else 12 * inside j + 24
  | DReset, UIn j k => if k <? inside j then 12 * (inside j - S k) + 24 else 7
  | (DExit | DFailed), _ => 0
  end.

(** The rank of a process that took [n] commands. *)
Definition prank (p n : nat) (x : proc) : nat := wsum (drop n (all_cmds prog)) + lrank p x + csum x.

Definition taken (s : omp) (p : nat) : nat := if is_master p then length (om_sent s) else pr_recv (om_procs s p).

Definition omp_rank (s : omp) : nat := sum_upto num_procs (λ p, prank p (taken s p) (om_procs s p)).

(** * The steps lower it *)

Lemma barrier_rank p num a all b x r x' ob :
  barrier_step threads_per_proc p num a all b x = Some r → r = Ok (x', ob) →
  orem ob < brem b ∧ pr_child x' = pr_child x ∧ pr_dist x' = pr_dist x ∧ pr_pos x' = pr_pos x ∧ pr_recv x' = pr_recv x.
Proof.
  intros H ->. destruct b as [|g| |m| |g]; cbn in H; unfold bar_arrive in H; repeat first [progress simplify_eq/= | case_match; try done];
    cbn; split_and!; try done; lia.
Qed.

Lemma child_rank p x j i all r x' :
  region p x j → child_step p i all x = Some r → r = Ok x' →
  csum x' < csum x ∧ pr_dist x' = pr_dist x ∧ pr_pos x' = pr_pos x ∧ pr_recv x' = pr_recv x.
Proof.
  intros Hr Hs ->. assert (i < num_children p) as Hi.
  { destruct (Nat.lt_ge_cases i (num_children p)) as [Hi|Hi]; [done|]. unfold Omp.child_step in Hs. by rewrite (rg_none _ _ _ _ _ _ Hr i Hi) in Hs. }
  assert (∀ c x1, pr_child x1 = pr_child x → crank (ch_pc c) < crank (ch_pc (pr_child x i)) → csum (set_child i c x1) < csum x) as Hsum.
  { intros c x1 E Hlt. unfold csum. apply (sum_lower _ _ _ i).
    - unfold Omp.num_children in Hi. lia.
    - cbn. by rewrite fn_lookup_insert.
    - intros i' Hne. cbn. by rewrite fn_lookup_insert_ne, E. }
  pose proof (rg_child _ _ _ _ _ _ Hr i Hi) as Hok. unfold child_ok in Hok. unfold Omp.child_step in Hs.
  destruct (pr_child x i) as [pc w] eqn:Ei. cbn [ch_pc ch_wk] in *. destruct pc as [|j'|j' k|j' k|j' k b|j' k|j'|j'|]; try done.
  - destruct Hok as [-> ->]. rewrite start_worker_idle in Hs. simplify_eq/=. split_and!; try done. apply Hsum; [done|]. cbn. lia.
  - destruct Hok as (-> & Hk & ->). match type of Hs with Some (?m ≫= _) = _ => destruct m eqn:Em; [|done] end. simplify_eq/=.
    split_and!; try done. apply Hsum; [done|]. cbn. lia.
  - destruct Hok as (-> & Hk & ->). unfold child_cmd in Hs. destruct (Nat.ltb_spec k (inside j)) as [Hlt|Hge].
    + rewrite wait_called in Hs. injection Hs as <-. split_and!; try done. apply Hsum; [done|]. cbn [ch_pc]. case_match; cbn; lia.
    + rewrite wait_ended in Hs. injection Hs as <-. split_and!; try done. apply Hsum; [done|]. cbn. lia.
  - destruct Hok as (-> & (Hk & _) & ->). destruct (barrier_step _ _ _ _ _ b x) as [[[x1 ob]|]|] eqn:Eb; try done. injection Hs as <-.
    destruct (barrier_rank _ _ _ _ _ _ _ _ _ Eb eq_refl) as (Hb & Ec & Ed & Ep & Er). split_and!; try done. apply Hsum; [done|].
    destruct ob; cbn in *; lia.
  - destruct Hok as (-> & Hk & ->). rewrite reset_called in Hs. injection Hs as <-. split_and!; try done. apply Hsum; [done|]. cbn. lia.
Qed.
Lemma csum_ext x x' : pr_child x' = pr_child x → csum x' = csum x.
Proof. unfold csum. by intros ->. Qed.

Lemma csum_idle x : idle x → csum x = 0.
Proof. intros (_ & _ & H). apply sum_zero. intros i _. by rewrite H. Qed.

(** The distributed worker makes a step that is not a join. *)
Lemma prank_lt p n n' x x' :
  csum x' + lrank p x' + wsum (drop n' (all_cmds prog)) < csum x + lrank p x + wsum (drop n (all_cmds prog)) → prank p n' x' < prank p n x.
Proof. unfold prank. lia. Qed.

Lemma prank_local p n x x' : pr_child x' = pr_child x → lrank p x' < lrank p x → prank p n x' < prank p n x.
Proof. intros E H. apply prank_lt. rewrite (csum_ext x x' E). lia. Qed.

Lemma prank_idle p n x x' : idle x' → lrank p x' < lrank p x → prank p n x' < prank p n x.
Proof. intros E H. apply prank_lt. rewrite (csum_idle x' E). lia. Qed.

Lemma wsum_drop n c : all_cmds prog !! n = Some c → wsum (drop n (all_cmds prog)) = wt c + wsum (drop (S n) (all_cmds prog)).
Proof. intros H. rewrite (drop_S _ c) by done. done. Qed.

Lemma start_rank p j x x' :
  idle x → ncalls x = S (base prog j) → j < length prog → start_parallel num_procs threads_per_proc p j x = Ok x' →
  csum x' ≤ threads_per_proc * (10 * inside j + 4) ∧ pr_dist x' = pr_dist x ∧ pr_pos x' = pr_pos x ∧ pr_recv x' = pr_recv x.
Proof.
  intros Hi Hn Hj. unfold start_parallel. intros [= <-]. split_and!; try done. apply sum_le. intros i _. cbn [pr_child set_children].
  case_match; cbn; lia.
Qed.

Lemma join_rank p j m x c :
  region p x j → m < num_children p → ch_pc (pr_child x m) = CDone j → ch_pc c = CJoined j → csum (set_child m c x) < csum x.
Proof.
  intros Hr Hm E Ec. apply (sum_lower _ _ _ m).
  - unfold Omp.num_children in Hm. lia.
  - cbn. rewrite fn_lookup_insert, Ec, E. cbn. lia.
  - intros i Hne. cbn. by rewrite fn_lookup_insert_ne.
Qed.

Lemma master_bar_rank x j k b all r x' l n :
  pr_dist x = DBar b → pr_pos x = UIn j k → k < inside j →
  dist_step 0 [] all x = Some r → r = Ok (x', l) → l = [] ∧ prank 0 n x' < prank 0 n x.
Proof.
  intros Ed Ep Hk Hs ->. unfold Omp.dist_step in Hs. rewrite Ed in Hs.
  destruct (barrier_step _ _ _ _ _ b x) as [[[x1 ob]|]|] eqn:Eb; try done. injection Hs as <- <-. split; [done|].
  destruct (barrier_rank _ _ _ _ _ _ _ _ _ Eb eq_refl) as (Hb & Ec & Ed' & Ep' & Er). apply prank_local; [by destruct ob|].
  unfold lrank. rewrite Ed, Ep. destruct ob as [b'|]; cbn [snd fst pr_dist pr_pos set_dist cmd_done is_master Nat.eqb]; rewrite Ep', Ep.
  - cbn in Hb. lia.
  - apply Nat.ltb_lt in Hk. rewrite Hk. cbn in Hb. lia.
Qed.
Lemma local_inv (m : result proc) (x' : proc) (l : list cmd) : Some (m ≫= λ x, Ok (x, [])) = Some (Ok (x', l)) → m = Ok x' ∧ l = [].
Proof. destruct m; [|done]. by intros [= <- <-]. Qed.

Lemma child_done p x j i j' : region p x j → i < num_children p → ch_pc (pr_child x i) = CDone j' → j' = j.
Proof. intros Hr Hi E. pose proof (rg_child _ _ _ _ _ _ Hr i Hi) as Hok. unfold child_ok in Hok. rewrite E in Hok. apply Hok. Qed.

(** The end of a region. *)
Lemma prank_join p x j c i all sent n x' l :
  pr_dist x = DJoin c i → region p x j → joined i x → dist_step p sent all x = Some (Ok (x', l)) → l = [] ∧ prank p n x' < prank p n x ∧ pr_recv x' = pr_recv x.
Proof.
  intros Ed Hr Hjn Hs. unfold Omp.dist_step in Hs. rewrite Ed, (rg_n _ _ _ _ _ _ Hr) in Hs. destruct (Nat.ltb_spec i (num_children p)) as [Hi|Hi].
  - destruct (ch_pc (pr_child x i)) eqn:E; try done. apply local_inv in Hs as [[= <-] ->]. split_and!; try done.
    pose proof (child_done p x j i _ Hr Hi E) as ->. pose proof (join_rank p j i x (Child (CJoined j) (reset_work_stack (ch_wk (pr_child x i)))) Hr Hi E eq_refl) as H.
    apply prank_lt. unfold csum in *. unfold lrank. rewrite Ed. cbn [pr_child pr_dist set_dist] in *. lia.
  - rewrite (end_children_ok prog num_procs threads_per_proc Ht p x j i Hr Hjn Hi) in Hs. apply local_inv in Hs as [[= <-] ->]. split_and!; try done.
    apply prank_idle; [done|]. unfold lrank. by rewrite Ed; cbn; lia.
Qed.

Lemma master_rank x sent all x' l :
  master_ok prog num_procs threads_per_proc x (length sent) →
  dist_step 0 sent all x = Some (Ok (x', l)) → prank 0 (length sent + length l) x' < prank 0 (length sent) x.
Proof.
  intros H Hs. pose proof H as H'. unfold master_ok in H.
  assert (∀ j k w, master_region prog num_procs threads_per_proc x j k w → ¬ idle x) as Hni by (intros j k w [Hr _]; by eapply region_not_idle).
  assert (∀ m y, Some (m ≫= λ x, Ok (x, [])) = Some (Ok (x', l)) → m = Ok y → pr_child y = pr_child x → lrank 0 y < lrank 0 x →
    prank 0 (length sent + length l) x' < prank 0 (length sent) x) as Hloc.
  { intros m y E -> Ec Hlt. apply local_inv in E as [[= <-] ->]. cbn. rewrite Nat.add_0_r. by apply prank_local. }
  unfold Omp.dist_step in Hs. destruct (pr_dist x) as [| | |c| |c|c|c n|c|c i|c|c n|b| | |] eqn:Ed, (pr_pos x) as [j o|j k] eqn:Ep; try done.
  - destruct H as (_ & _ & _ & _ & Ew). rewrite Ew, start_worker_idle in Hs. eapply Hloc; [exact Hs|done|done|].
    unfold lrank. cbn [pr_dist pr_pos set_dist set_wk is_master Nat.eqb]. rewrite Ed, Ep. lia.
  - match type of Hs with Some (?m ≫= _) = _ => destruct m as [y|] eqn:Em; [|done] end. eapply Hloc; [exact Hs|done| |];
      match type of Em with (?m ≫= _) = _ => destruct m; [|done] end; injection Em as <-; [done|].
    unfold lrank. cbn [pr_dist pr_pos set_dist set_wk is_master Nat.eqb]. rewrite Ed, Ep. lia.
  - match type of Hs with Some (?m ≫= _) = _ => destruct m as [y|] eqn:Em; [|done] end. eapply Hloc; [exact Hs|done| |];
      match type of Em with (?m ≫= _) = _ => destruct m; [|done] end; injection Em as <-; [done|].
    unfold lrank. cbn [pr_dist pr_pos set_dist set_wk is_master Nat.eqb]. rewrite Ed, Ep. lia.
  - destruct H as ((_ & Hp & _) & _). rewrite Hp in Hs. destruct (wait_for_cmd (pr_wk x)) as [[c w]|]; [|done]. eapply Hloc; [exact Hs|done|done|].
    unfold lrank. cbn [pr_dist pr_pos set_dist set_wk is_master Nat.eqb]. rewrite Ed, Ep. lia.
  - destruct H as ((_ & Hp & _) & _). rewrite Hp in Hs. destruct (wait_for_cmd (pr_wk x)) as [[c w]|]; [|done]. eapply Hloc; [exact Hs|done|done|].
    unfold lrank. cbn [pr_dist pr_pos set_dist set_wk is_master Nat.eqb]. rewrite Ed, Ep. lia.
  - injection Hs as <- <-. destruct H as ((_ & _ & Hj & Ho & _) & Hn & -> & _). apply prank_lt. cbn [length]. rewrite Nat.add_1_r.
    rewrite (wsum_drop (length sent) (main_cmd prog (UOut j o))) by (rewrite Hn; by apply cmd_at). rewrite (csum_ext x) by done.
    unfold lrank. cbn [pr_dist pr_pos set_dist is_master Nat.eqb]. rewrite Ed, Ep. lia.
  - destruct H as (((Hb & _) & Hp & Hj & Ho & _) & _ & -> & _). unfold execute_command in Hs. rewrite main_cmd_out in Hs.
    destruct (Nat.ltb_spec j (length prog)) as [Hlt|Hge]; [destruct (Nat.ltb_spec o (outside j)) as [Hlt'|Hge']|]; cbn [c_code] in Hs;
      rewrite ?Hb in Hs; (eapply Hloc; [exact Hs|done|done|]); unfold lrank, cmd_done; cbn [pr_dist pr_pos set_dist is_master Nat.eqb]; rewrite Ed, Ep, main_cmd_out.
    + apply Nat.ltb_lt in Hlt, Hlt'. rewrite Hlt, Hlt'. cbn. lia.
    + apply Nat.ltb_lt in Hlt. apply Nat.ltb_ge in Hge'. rewrite Hlt, Hge'. unfold wt. cbn [c_code c_func]. lia.
    + apply Nat.ltb_ge in Hge. rewrite Hge. cbn. lia.
  - destruct H as ((Hr & Hp & Hk & Hw) & _ & -> & _). destruct (rg_bar _ _ _ _ _ _ Hr) as (cur & gen & Hb & _).
    unfold execute_command in Hs. rewrite main_cmd_in in Hs. destruct (Nat.ltb_spec k (inside j)) as [Hlt|Hge]; cbn [c_code is_master Nat.eqb] in Hs;
      rewrite ?Hb in Hs; (eapply Hloc; [exact Hs|done|done|]); unfold lrank; cbn [pr_dist pr_pos set_dist is_master Nat.eqb]; rewrite Ed, Ep; cbn [brem]; lia.
  - eapply Hloc; [exact Hs|done|done|]. unfold lrank. cbn [pr_dist pr_pos set_dist add_call is_master Nat.eqb]. rewrite Ed. lia.
  - case_match; [|done]. eapply Hloc; [exact Hs|done|done|]. unfold lrank. cbn [pr_dist pr_pos set_dist add_call is_master Nat.eqb]. rewrite Ed. lia.
  - destruct H as ((Hi & _ & Hj & -> & -> & Hw) & _ & Hn). cbn [c_func] in Hs.
    destruct (start_parallel num_procs threads_per_proc 0 j x) as [y|] eqn:Es; [|done].
    destruct (start_rank 0 j x y Hi Hn Hj Es) as (Hc & Ed' & Ep' & _). cbn [mbind result_bind is_master Nat.eqb] in Hs. injection Hs as <- <-. apply prank_lt.
    rewrite (csum_ext y) by done. unfold lrank, cmd_done. cbn [pr_dist pr_pos set_dist set_wk set_par is_master Nat.eqb length]. rewrite Ep', Ed, Ep, Nat.ltb_irrefl, Nat.add_0_r.
    unfold frank. cbn [c_func]. lia.
  - destruct H as ((Hr & _) & _ & Hjn & _). destruct (prank_join 0 x j c i all sent (length sent) x' l Ed Hr Hjn) as (-> & H & _); [|by rewrite Nat.add_0_r].
    unfold Omp.dist_step. by rewrite Ed.
  - eapply Hloc; [exact Hs|done|done|]. unfold lrank. cbn [pr_dist pr_pos set_dist add_call is_master Nat.eqb]. rewrite Ed. lia.
  - destruct H as ((_ & _ & _ & -> & _) & _). case_match; [|done]. eapply Hloc; [exact Hs|done|done|]. unfold lrank, cmd_done.
    cbn [pr_dist pr_pos set_dist set_wk set_par is_master Nat.eqb]. rewrite Ed, Ep, Nat.ltb_irrefl. lia.
  - destruct H as (_ & _ & (Hk & _) & _). destruct (master_bar_rank x j k b all (Ok (x', l)) x' l (length sent) Ed Ep Hk) as [-> H]; [|done|by rewrite Nat.add_0_r].
    unfold Omp.dist_step. by rewrite Ed.
  - destruct (reset_cmd (pr_wk x)) as [w|]; [|done]. eapply Hloc; [exact Hs|done|done|]. unfold lrank. cbn [pr_dist pr_pos set_dist set_pos set_wk is_master Nat.eqb]. rewrite Ed, Ep.
    cbn [main_next]. destruct (o <? outside j); [lia|]. rewrite Nat.sub_0_r. lia.
  - destruct (reset_cmd (pr_wk x)) as [w|]; [|done]. eapply Hloc; [exact Hs|done|done|]. unfold lrank. cbn [pr_dist pr_pos set_dist set_pos set_wk is_master Nat.eqb]. rewrite Ed, Ep.
    cbn [main_next]. destruct (Nat.ltb_spec k (inside j)); lia.
Qed.
Lemma slave_rank p x sent all x' l :
  is_master p = false → sent `prefix_of` all_cmds prog → slave_ok prog num_procs threads_per_proc p x →
  dist_step p sent all x = Some (Ok (x', l)) → prank p (pr_recv x') x' < prank p (pr_recv x) x.
Proof.
  intros Em Hpre H Hs. unfold slave_ok in H.
  assert (∀ m y, Some (m ≫= λ x, Ok (x, [])) = Some (Ok (x', l)) → m = Ok y → pr_child y = pr_child x → pr_recv y = pr_recv x → lrank p y < lrank p x →
    prank p (pr_recv x') x' < prank p (pr_recv x) x) as Hloc.
  { intros m y E -> Ec Er Hlt. apply local_inv in E as [[= <-] ->]. rewrite Er. by apply prank_local. }
  unfold Omp.dist_step in Hs. destruct (pr_dist x) as [| | | | |c|c|c n|c|c i|c|c n| | | |] eqn:Ed; try done.
  - destruct (sent !! pr_recv x) as [c|] eqn:Ec; [|done]. apply local_inv in Hs as [[= <-] _]. cbn [pr_recv set_dist set_recv]. apply prank_lt.
    rewrite (wsum_drop (pr_recv x) c) by by eapply prefix_lookup_Some. rewrite (csum_ext x) by done.
    unfold lrank. cbn [pr_dist set_dist set_recv]. rewrite Ed, Em. assert (0 < wt c) by (unfold wt; case_match; lia). lia.
  - destruct H as ((Hb & _) & j & o & _ & _ & _ & -> & _). unfold execute_command in Hs. rewrite main_cmd_out in Hs.
    destruct (Nat.ltb_spec j (length prog)) as [Hlt|Hge]; [destruct (Nat.ltb_spec o (outside j)) as [Hlt'|Hge']|]; cbn [c_code] in Hs;
      rewrite ?Hb in Hs; (eapply Hloc; [exact Hs|done|by (unfold cmd_done; rewrite ?Em)|by (unfold cmd_done; rewrite ?Em)|]); unfold lrank, cmd_done; rewrite Em; cbn [pr_dist set_dist]; rewrite Ed, main_cmd_out.
    + apply Nat.ltb_lt in Hlt, Hlt'. rewrite Hlt, Hlt'. cbn. lia.
    + apply Nat.ltb_lt in Hlt. apply Nat.ltb_ge in Hge'. rewrite Hlt, Hge'. unfold wt. cbn [c_code c_func]. lia.
    + apply Nat.ltb_ge in Hge. rewrite Hge. cbn. lia.
  - eapply Hloc; [exact Hs|done|done|done|]. unfold lrank. cbn [pr_dist set_dist add_call]. rewrite Ed. lia.
  - case_match; [|done]. eapply Hloc; [exact Hs|done|done|done|]. unfold lrank. cbn [pr_dist set_dist]. rewrite Ed. lia.
  - destruct H as (Hi & j & (Hj & -> & _) & Hn). cbn [c_func] in Hs.
    destruct (start_parallel num_procs threads_per_proc p j x) as [y|] eqn:Es; [|done].
    destruct (start_rank p j x y Hi Hn Hj Es) as (Hc & Ed' & Ep' & Er). cbn [mbind result_bind] in Hs. rewrite Em in Hs. injection Hs as <- <-.
    cbn [pr_recv set_dist set_par]. rewrite Er. apply prank_lt. rewrite (csum_ext y) by done. unfold lrank. cbn [pr_dist set_dist set_par]. rewrite Ed.
    unfold frank. cbn [c_func]. lia.
  - destruct H as (j & _ & Hr & Hjn & _). destruct (prank_join p x j c i all sent (pr_recv x) x' l Ed Hr Hjn) as (_ & H & Er); [|by rewrite Er].
    unfold Omp.dist_step. by rewrite Ed.
  - eapply Hloc; [exact Hs|done|done|done|]. unfold lrank. cbn [pr_dist set_dist add_call]. rewrite Ed. lia.
  - case_match; [|done]. eapply Hloc; [exact Hs|done|by (unfold cmd_done; rewrite Em)|by (unfold cmd_done; rewrite Em)|]. unfold lrank, cmd_done. rewrite Em. cbn [pr_dist set_dist]. rewrite Ed. lia.
Qed.

(** * Runs *)

Lemma rank_update s p x' l :
  p < num_procs → (l = [] ∨ is_master p = true) →
  let n' := if is_master p then length (om_sent s) + length l else pr_recv x' in
  prank p n' x' < prank p (taken s p) (om_procs s p) →
  omp_rank (Omp (om_sent s ++ l) (<[p := x']> (om_procs s))) < omp_rank s.
Proof.
  intros Hp Hl n' Hlt. apply (sum_lower _ _ _ p); [done| |].
  - unfold taken at 1. cbn [om_procs om_sent]. rewrite !fn_lookup_insert, length_app. exact Hlt.
  - intros q Hne. unfold taken. cbn [om_procs om_sent]. rewrite fn_lookup_insert_ne by done.
    destruct Hl as [->|Em]; [by rewrite app_nil_r|]. destruct (is_master q) eqn:Eq; [|done]. apply Nat.eqb_eq in Em, Eq. congruence.
Qed.

Lemma step_rank s s' : omp_inv s → omp_step prog num_procs threads_per_proc s s' → omp_rank s' < omp_rank s.
Proof.
  intros Hinv Hs. destruct Hs as [p r Hp Hs|p i r Hp Hs]; pose proof (oi_proc _ _ _ _ Hinv p Hp) as Hok.
  - destruct (dist_ok prog num_procs threads_per_proc Ht s p r Hinv Hp Hs) as [(x' & l & -> & _) Hm].
    apply rank_update; [done|destruct (is_master p); [by right|left; by eapply Hm]|]. unfold taken, OmpInv.proc_ok in *. destruct (is_master p) eqn:Em.
    + apply Nat.eqb_eq in Em as ->. by eapply master_rank.
    + eapply slave_rank; [done| |apply Hok|exact Hs]. rewrite (oi_sent _ _ _ _ Hinv). eexists. symmetry. apply take_drop.
  - destruct (proc_region _ _ _ _ _ _ Hok) as [Hi|(j & Hr & Hdw & Hkeep)]; [by rewrite idle_child in Hs|].
    destruct (child_step_ok prog num_procs threads_per_proc Ht p _ j i _ r Hr Hdw Hs) as (x' & -> & _).
    destruct (child_rank p _ j i _ _ x' Hr Hs eq_refl) as (Hc & Ed & Ep & Er). cbn [settle_child].
    rewrite <- (app_nil_r (om_sent s)). apply rank_update; [done|by left|]. unfold taken. cbn [length]. rewrite Nat.add_0_r, Er.
    apply prank_lt. unfold lrank. rewrite Ed, Ep. lia.
Qed.

(** A process or a child that can make a step is found by looking at each. *)
Lemma step_dec s : omp_inv s → (∃ s', omp_step prog num_procs threads_per_proc s s') ∨ (∀ s', ¬ omp_step prog num_procs threads_per_proc s s').
Proof.
  intros Hinv. set (all := all_called num_procs s).
  destruct (decide (Exists (λ p, is_Some (dist_step p (om_sent s) all (om_procs s p))) (seq 0 num_procs))) as [H|Hd].
  { apply Exists_exists in H as (p & Hp%elem_of_seq & [r Hr]). left. eexists. by apply (omp_step_dist _ _ _ s p r); [lia|]. }
  destruct (decide (Exists (λ p, Exists (λ i, is_Some (child_step p i all (om_procs s p))) (seq 0 threads_per_proc)) (seq 0 num_procs))) as [H|Hc].
  { apply Exists_exists in H as (p & Hp%elem_of_seq & H). apply Exists_exists in H as (i & _ & [r Hr]). left. eexists. by apply (omp_step_child _ _ _ s p i r); [lia|]. }
  right. intros s' Hs. destruct Hs as [p r Hp Hs|p i r Hp Hs].
  - apply Hd, Exists_exists. exists p. split; [apply elem_of_seq; lia|by eexists].
  - apply Hc, Exists_exists. exists p. split; [apply elem_of_seq; lia|]. apply Exists_exists. exists i. split; [|by eexists].
    apply elem_of_seq. split; [lia|]. destruct (Nat.lt_ge_cases i threads_per_proc) as [|Hi]; [lia|exfalso].
    destruct (proc_region _ _ _ _ _ _ (oi_proc _ _ _ _ Hinv p Hp)) as [Hid|(j & Hr & _)]; [by rewrite idle_child in Hs|].
    unfold Omp.child_step in Hs. rewrite (rg_none _ _ _ _ _ _ Hr i) in Hs; [done|]. unfold Omp.num_children. lia.
Qed.
End term.

(** Runs of [n] steps. *)
Inductive omp_run (prog : program) (num_procs threads_per_proc : nat) : nat → omp → omp → Prop :=
| run_nil s : omp_run prog num_procs threads_per_proc 0 s s
| run_cons n s s1 s2 :
    omp_step prog num_procs threads_per_proc s s1 → omp_run prog num_procs threads_per_proc n s1 s2 →
    omp_run prog num_procs threads_per_proc (S n) s s2.

Lemma run_rank prog P T n s s' : 0 < T → omp_inv prog P T s → omp_run prog P T n s s' → omp_inv prog P T s' ∧ n + omp_rank prog P T s' ≤ omp_rank prog P T s.
Proof.
  intros Ht Hinv. induction 1 as [s|n s s1 s2 Hs _ IH]; [done|].
  destruct IH as [Hi Hle]; [by eapply omp_inv_step|]. split; [done|]. pose proof (step_rank prog P T Ht s s1 Hinv Hs). lia.
Qed.

Lemma run_end prog P T s : 0 < T → omp_inv prog P T s → ∃ n s', omp_run prog P T n s s' ∧ ∀ p, p < P → pr_dist (om_procs s' p) = DExit.
Proof.
  intros Ht. remember (omp_rank prog P T s) as m eqn:Em. revert s Em. induction (lt_wf m) as [m _ IH]. intros s -> Hinv.
  destruct (step_dec prog P T Ht s Hinv) as [(s1 & Hs)|Hno].
  - destruct (IH _ (step_rank prog P T Ht s s1 Hinv Hs) s1 eq_refl) as (n & s' & Hr & He); [by eapply omp_inv_step|].
    exists (S n), s'. split; [|done]. by econstructor.
  - exists 0, s. split; [constructor|]. by apply (some_step prog P T Ht).
Qed.
