(* ===== verification/OmpThm.v ===== *)
(** The theorems about the OpenMP runtime. *)
From Stdlib Require Import ZArith Lia.
From stdpp Require Import base tactics functions list.
From S2P Require Import Prelude.
From S2P Require Import OmpWorker.
From S2P Require Import Omp.
From S2P Require Import OmpInv.
From S2P Require Import OmpSafe.
From S2P Require Import OmpPhase.
From S2P Require Import OmpProgress.
From S2P Require Import OmpTerm.

(** The worker of a thread. *)
Definition thread_worker (p t : nat) (x : proc) : worker :=
  if is_master p && (t =? 0) then pr_wk x else ch_wk (pr_child x (t - (if is_master p then 1 else 0))).

(** * Execution by a schedule *)

(** A schedule names a process, and one of its children or its distributed worker;
    one that cannot make a step is skipped. *)
Definition exec_one (prog : program) (num_procs threads_per_proc : nat) (s : omp) (c : nat * option nat) : omp :=
  if fst c <? num_procs then
    match snd c with
    | None =>
        match dist_step prog num_procs threads_per_proc (fst c) (om_sent s) (all_called num_procs s) (om_procs s (fst c)) with
        | Some r => settle_dist s (fst c) r
        | None => s
        end
    | Some i =>
        match child_step prog threads_per_proc (fst c) i (all_called num_procs s) (om_procs s (fst c)) with
        | Some r => settle_child s (fst c) i r
        | None => s
        end
    end
  else s.

Definition omp_exec (prog : program) (num_procs threads_per_proc : nat) (l : list (nat * option nat)) : omp :=
  foldl (exec_one prog num_procs threads_per_proc) omp_init l.

Lemma exec_reach prog P T l : omp_reach prog P T (omp_exec prog P T l).
Proof.
  unfold omp_exec. generalize (omp_reach_init prog P T). generalize omp_init. induction l as [|c l IH]; intros s H; [done|]. cbn. apply IH.
  unfold exec_one. destruct (Nat.ltb_spec (fst c) P); [|done].
  destruct (snd c); repeat (case_match; try done); (eapply omp_reach_step; [exact H|]); [by apply omp_step_child|by apply omp_step_dist].
Qed.

(** Everyone in turn. *)
Definition round (num_procs threads_per_proc : nat) : list (nat * option nat) :=
  flat_map (λ p, (p, None) :: ((λ i, (p, Some i)) <$> seq 0 threads_per_proc)) (seq 0 num_procs).

Definition rounds (num_procs threads_per_proc n : nat) : list (nat * option nat) := mjoin (replicate n (round num_procs threads_per_proc)).

Section thm.
Context (prog : program) (num_procs threads_per_proc : nat).
Context (Ht : 0 < threads_per_proc).
#[local] Abbreviation inside := (inside prog).
#[local] Abbreviation num_children := (num_children threads_per_proc).
#[local] Abbreviation region := (region prog num_procs threads_per_proc).
#[local] Abbreviation phase := (phase prog num_procs threads_per_proc).
#[local] Abbreviation parts := (parts prog).
#[local] Abbreviation base := (base prog).
#[local] Abbreviation proc_ok := (proc_ok prog num_procs threads_per_proc).
#[local] Abbreviation omp_inv := (omp_inv prog num_procs threads_per_proc).

(** * Observations against the views of the barrier *)

(** The phase of a process in a region. *)
Lemma region_phase p x j sent :
  proc_ok p x sent → region p x j →
  ∃ n pl, ncalls x = S (base j + n) ∧ passed p x = S (base j + pl) ∧ n ≤ inside j ∧ fst (parts p x 0) ≤ 2 * pl + 1.
Proof.
  intros Hok Hr. destruct (proc_phase _ _ _ p x sent Ht Hok) as [j' [Hi|Hi|n pl Hr' Hn Hp Hle H1 H2 H3|Hi]];
    try (by destruct (region_not_idle _ _ _ p x j Hr)).
  rewrite (region_same _ _ _ p x j j' Hr Hr'). exists n, pl. split_and!; try done. unfold slack in H2. case_match; lia.
Qed.

(** A thread that arrived for the [k]th barrier has called it. *)
Lemma view_begun p x j t k sent :
  proc_ok p x sent → region p x j → t < threads_per_proc → 2 * k ≤ S (fst (parts p x t)) → 0 < k →
  ∃ k', begun prog p t x = Some (j, k') ∧ k ≤ k'.
Proof.
  intros Hok Hr Hlt Hv Hk. pose proof (region_not_idle _ _ _ p x j Hr) as Hni. unfold begun. destruct (is_master p && (t =? 0)) eqn:E.
  - apply andb_true_iff in E as [Em Ez]. apply Nat.eqb_eq in Ez as ->. unfold OmpInv.parts, mview in Hv. rewrite Em in Hv.
    unfold OmpInv.proc_ok in Hok. rewrite Em in Hok. apply Nat.eqb_eq in Em as ->. unfold OmpInv.master_ok, master_end in Hok.
    assert (∀ j' k' w, master_region prog num_procs threads_per_proc x j' k' w → j' = j) as Hj.
    { intros j' k' w [Hr' _]. by apply (region_same prog num_procs threads_per_proc 0 x). }
    destruct (pr_dist x) as [| | | | | | | | | | | |b| | |], (pr_pos x) as [j' o|j' k']; try done; cbn in Hv; try lia; try naive_solver;
      try (destruct Hok as (Hm & _); rewrite (Hj _ _ _ Hm); exists k'; split; [done|lia]).
    + destruct Hok as (Hm & _). rewrite (Hj _ _ _ Hm). exists (S k'). split; [done|]. destruct b; cbn in Hv; lia.
    + destruct Hok as (_ & [(Hm & _)|(Hi & _)]); [|done]. rewrite (Hj _ _ _ Hm). exists (S k'). split; [done|lia].
  - destruct (child_index threads_per_proc p t Hlt E) as [Hi Et]. set (i := t - _) in *. rewrite <- Et, parts_tix in Hv.
    pose proof (rg_child _ _ _ _ _ _ Hr i Hi) as Hc. unfold child_ok in Hc.
    destruct (ch_pc (pr_child x i)) as [|j'|j' k'|j' k'|j' k' b|j' k'|j'|j'|]; cbn in Hv; try done; try lia.
    + destruct Hc as [-> _]. exists k'. split; [done|lia].
    + destruct Hc as [-> _]. exists k'. split; [done|lia].
    + destruct Hc as [-> _]. exists (S k'). split; [done|]. destruct b; cbn in Hv; lia.
    + destruct Hc as [-> _]. exists (S k'). split; [done|]. lia.
    + destruct Hc as [-> _]. exists (inside j). split; [done|]. lia.
    + destruct Hc as [-> _]. exists (inside j). split; [done|]. lia.
Qed.

Lemma user_region p x t j k sent :
  proc_ok p x sent → t < threads_per_proc → user_at p t x = Some (j, k) → region p x j ∧ parts p x t = (2 * k, None).
Proof.
  intros Hok Hlt. unfold user_at. destruct (is_master p && (t =? 0)) eqn:E.
  - apply andb_true_iff in E as [Em Ez]. apply Nat.eqb_eq in Ez as ->. unfold OmpInv.proc_ok in Hok. rewrite Em in Hok.
    apply Nat.eqb_eq in Em as ->. unfold OmpInv.master_ok in Hok. destruct (pr_dist x) eqn:Ed; try done.
    destruct (pr_pos x) as [j' o|j' k'] eqn:Ep; [done|]. intros [= -> ->]. destruct Hok as ((Hr & _) & _). split; [done|].
    unfold OmpInv.parts, mview. cbn. by rewrite Ed, Ep.
  - destruct (child_index threads_per_proc p t Hlt E) as [Hi Et]. set (i := t - _) in *.
    destruct (ch_pc (pr_child x i)) as [|j'|j' k'|j' k'|j' k' b|j' k'|j'|j'|] eqn:Ec; try done. intros [= -> ->].
    destruct (proc_region _ _ _ p x sent Hok) as [(_ & _ & Hn)|(j' & Hr & _)]; [by rewrite Hn in Ec|].
    pose proof (rg_child _ _ _ _ _ _ Hr i Hi) as Hc. unfold child_ok in Hc. rewrite Ec in Hc. destruct Hc as [-> _].
    split; [done|]. rewrite <- Et, parts_tix. by rewrite Ec.
Qed.

(** The leader's calls bound the arrivals of its process. *)
Lemma lead_arrived p x j n :
  region p x j → 2 * n ≤ fst (parts p x 0) + slack (parts p x 0) → ∀ u, u < threads_per_proc → 2 * n ≤ S (fst (parts p x u)).
Proof.
  intros Hr Hn u Hu. destruct (rg_bar _ _ _ _ _ _ Hr) as (cur & gen & _ & [H1 H2 _ _]).
  assert (2 * n ≤ S gen) as Hg.
  { unfold slack in Hn. destruct (snd (parts p x 0)) as [g|] eqn:E0; [specialize (H2 0 g Ht E0); lia|specialize (H1 0 Ht E0); lia]. }
  destruct (snd (parts p x u)) as [g|] eqn:Eu; [specialize (H2 u g Hu Eu); lia|specialize (H1 u Hu Eu); lia].
Qed.

Lemma barrier_begun s p q t u j k :
  omp_reach prog num_procs threads_per_proc s → p < num_procs → q < num_procs → t < threads_per_proc → u < threads_per_proc → 0 < k →
  user_at p t (om_procs s p) = Some (j, k) →
  (∃ k', begun prog q u (om_procs s q) = Some (j, k') ∧ k ≤ k') ∨ finished q j (om_procs s q) = true.
Proof.
  intros Hreach Hp Hq Hlt Hu Hk Hat. pose proof (omp_reach_inv _ _ _ Ht s Hreach) as [_ _ Hproc Hglob].
  destruct (user_region p _ t j k _ (Hproc p Hp) Hlt Hat) as [Hr Ev].
  destruct (region_phase p _ j _ (Hproc p Hp) Hr) as (n & pl & Hn & Hpl & Hle & Ha).
  pose proof (all_arrived _ _ _ p _ j t _ Hr Hlt Ev 0 Ht) as H0. assert (k ≤ pl) as Hkpl by lia.
  pose proof (Hglob p q Hp Hq) as Hpq. pose proof (Hglob q p Hq Hp) as Hqp. rewrite Hpl in Hpq. rewrite Hn in Hqp.
  destruct (proc_phase _ _ _ q _ _ Ht (Hproc q Hq)) as [j' ph].
  assert (¬ j < j') as Hlt'.
  { intros H. apply (base_lt prog) in H. destruct ph; lia. }
  assert (¬ j' < j) as Hgt.
  { intros H. apply (base_lt prog) in H. pose proof (calls_le q (om_procs s q)).
    destruct ph as [| |n' pl' Hr' Hn' Hp' Hle' Hb1 Hb2 Hb3|]; try lia. unfold slack in Hb2. case_match; lia. }
  assert (j' = j) as -> by lia. destruct ph as [| |n' pl' Hr' Hn' Hp' Hle' Hb1 Hb2 Hb3|]; [lia..| |by right].
  left. eapply view_begun; [by apply Hproc|done|done| |done]. pose proof (lead_arrived q _ j n' Hr' Hb2 u Hu). lia.
Qed.
Lemma user_begun p t j k x : user_at p t x = Some (j, k) → begun prog p t x = Some (j, k).
Proof.
  unfold user_at, begun. case_match; [destruct (pr_dist x), (pr_pos x); by intros|]. by case_match.
Qed.

Lemma user_not_finished p t j k x sent j' :
  proc_ok p x sent → t < threads_per_proc → user_at p t x = Some (j, k) → finished p j' x = false.
Proof.
  intros Hok Hlt Hu. destruct (user_region p x t j k sent Hok Hlt Hu) as [Hr _].
  pose proof (region_not_idle _ _ _ p x j Hr) as Hni. unfold finished. destruct (pr_dist x) eqn:Ed; try done; exfalso; apply Hni;
    unfold OmpInv.proc_ok, master_ok, slave_ok, master_end in Hok; destruct (is_master p); rewrite Ed in Hok; try (by apply Hok);
    (destruct (pr_pos x); [done|]); by apply Hok.
Qed.

(** C7: When a thread of a parallel region runs user code after its [k]th barrier,
    every thread of every process has called that barrier in the same region, or the
    threads of its process have all ended the region. *)
Theorem omp_barrier s p q t u j k :
  omp_reach prog num_procs threads_per_proc s → p < num_procs → q < num_procs → t < threads_per_proc → u < threads_per_proc → 0 < k →
  user_at p t (om_procs s p) = Some (j, k) →
  (∃ k', begun prog q u (om_procs s q) = Some (j, k') ∧ k ≤ k') ∨ finished q j (om_procs s q) = true.
Proof. apply barrier_begun. Qed.

(** C19: Two threads that run user code of a region at the same time, on any
    processes, are in the same region and have passed equally many barriers. *)
Theorem omp_lockstep s p q t u j k j' k' :
  omp_reach prog num_procs threads_per_proc s → p < num_procs → q < num_procs → t < threads_per_proc → u < threads_per_proc →
  user_at p t (om_procs s p) = Some (j, k) → user_at q u (om_procs s q) = Some (j', k') → j = j' ∧ k = k'.
Proof.
  intros Hreach Hp Hq Hlt Hu Hat Hat'. pose proof (omp_reach_inv _ _ _ Ht s Hreach) as [_ _ Hproc Hglob].
  destruct (user_region p _ t j k _ (Hproc p Hp) Hlt Hat) as [Hr _]. destruct (user_region q _ u j' k' _ (Hproc q Hq) Hu Hat') as [Hr' _].
  destruct (region_phase p _ j _ (Hproc p Hp) Hr) as (n & pl & Hn & Hpl & Hle & _).
  destruct (region_phase q _ j' _ (Hproc q Hq) Hr') as (n' & pl' & Hn' & Hpl' & Hle' & _).
  pose proof (Hglob p q Hp Hq) as Hpq. pose proof (Hglob q p Hq Hp) as Hqp.
  assert (j = j') as <-.
  { destruct (Nat.lt_trichotomy j j') as [H|[H|H]]; [|done|]; apply (base_lt prog) in H; lia. }
  split; [done|]. apply Nat.le_antisymm.
  - destruct (decide (k = 0)) as [->|Hk]; [lia|].
    destruct (barrier_begun s p q t u j k Hreach Hp Hq Hlt Hu ltac:(lia) Hat) as [(i & Hb & Hi)|Hf].
    + rewrite (user_begun _ _ _ _ _ Hat') in Hb. by injection Hb as <-.
    + by rewrite (user_not_finished _ _ _ _ _ _ _ (Hproc q Hq) Hu Hat') in Hf.
  - destruct (decide (k' = 0)) as [->|Hk]; [lia|].
    destruct (barrier_begun s q p u t j k' Hreach Hq Hp Hu Hlt ltac:(lia) Hat') as [(i & Hb & Hi)|Hf].
    + rewrite (user_begun _ _ _ _ _ Hat) in Hb. by injection Hb as <-.
    + by rewrite (user_not_finished _ _ _ _ _ _ _ (Hproc p Hp) Hlt Hat) in Hf.
Qed.

(** C20: While the main function runs outside of the regions no process has a thread
    of a region or a barrier, and every process has left all earlier regions. *)
Theorem omp_sequential s q j o :
  omp_reach prog num_procs threads_per_proc s → q < num_procs → pr_dist (om_procs s 0) = DUser → pr_pos (om_procs s 0) = UOut j o →
  (∀ t, t < threads_per_proc → begun prog q t (om_procs s q) = None)
  ∧ pr_bar (om_procs s q) = None ∧ calls_before prog j `prefix_of` pr_calls (om_procs s q).
Proof.
  intros Hreach Hq Ed Ep. pose proof (omp_reach_inv _ _ _ Ht s Hreach) as [_ Hcalls Hproc Hglob]. assert (0 < num_procs) as HP by lia.
  pose proof (Hproc 0 HP) as H0. unfold OmpInv.proc_ok, master_ok in H0. cbn in H0. rewrite Ed, Ep in H0. destruct H0 as ((Hi0 & _ & Hj & _ & Hn0) & _).
  assert (passed 0 (om_procs s 0) = base j) as Hp0 by (rewrite idle_passed by done; unfold dwait; rewrite Ed, Hn0; lia).
  pose proof (Hglob 0 q HP Hq) as H1. pose proof (Hglob q 0 Hq HP) as H2. rewrite Hp0 in H1. rewrite Hn0 in H2.
  assert (idle (om_procs s q)) as Hi.
  { destruct (proc_phase _ _ _ q _ _ Ht (Hproc q Hq)) as [j' [Hi|Hi|n pl Hr Hn Hp Hle Hb1 Hb2 Hb3|Hi]]; try done. exfalso.
    destruct (region_phase q _ j' _ (Hproc q Hq) Hr) as (m & pm & Hm & _ & Hmi & _).
    destruct (decide (j' < j)) as [H|H]; [apply (base_lt prog) in H|pose proof (base_mono prog j j' ltac:(lia))]; lia. }
  split_and!.
  - intros t _. destruct Hi as (_ & _ & Hc). unfold begun. rewrite Hc. destruct (is_master q && (t =? 0)) eqn:E; [|done].
    apply andb_true_iff in E as [Em _]. apply Nat.eqb_eq in Em as ->. by rewrite Ed, Ep.
  - apply Hi.
  - rewrite (Hcalls q Hq). destruct (calls_prefix prog j (length prog) Hj) as [l El]. unfold all_calls. rewrite El.
    rewrite take_app_ge by (rewrite length_calls; lia). by eexists.
Qed.

(** C8: No assertion fails, no unexpected command or misplaced continuation ends the
    program, and the calls of the barrier of the address space match: the [n]th call
    of any two processes is made at the same point of the application. *)
Theorem omp_safe s p :
  omp_reach prog num_procs threads_per_proc s → p < num_procs →
  pr_dist (om_procs s p) ≠ DFailed ∧ (∀ i, ch_pc (pr_child (om_procs s p) i) ≠ CFailed)
  ∧ ∀ q n a b, q < num_procs → pr_calls (om_procs s p) !! n = Some a → pr_calls (om_procs s q) !! n = Some b → a = b.
Proof.
  intros Hreach Hp. pose proof (omp_reach_inv _ _ _ Ht s Hreach) as [_ Hcalls Hproc _]. split_and!.
  - intros Ed. specialize (Hproc p Hp). unfold OmpInv.proc_ok, master_ok, slave_ok in Hproc. rewrite Ed in Hproc. destruct (is_master p); [done|]. by destruct Hproc.
  - intros i E. destruct (proc_region _ _ _ p _ _ (Hproc p Hp)) as [(_ & _ & Hi)|(j & Hr & _)]; [by rewrite Hi in E|].
    destruct (Nat.lt_ge_cases i (num_children p)) as [Hi|Hi]; [|by rewrite (rg_none _ _ _ _ _ _ Hr i Hi) in E].
    pose proof (rg_child _ _ _ _ _ _ Hr i Hi) as Hc. unfold child_ok in Hc. by rewrite E in Hc.
  - intros q n a b Hq Ha Hb. rewrite (Hcalls p Hp) in Ha. rewrite (Hcalls q Hq) in Hb.
    apply lookup_take_Some in Ha as [Ha _], Hb as [Hb _]. congruence.
Qed.

(** A thread that runs user code in a region sees the number of its process times
    the threads per process plus its own, of all threads of all processes; its
    thread-local pointer is set and its stack is pinned once. *)
Theorem omp_thread_num s p t j k :
  omp_reach prog num_procs threads_per_proc s → p < num_procs → t < threads_per_proc → user_at p t (om_procs s p) = Some (j, k) →
  let w := thread_worker p t (om_procs s p) in
  w_thread_num w = p * threads_per_proc + t ∧ w_num_threads w = num_procs * threads_per_proc ∧ w_tls w = true ∧ w_pins w = 1%Z.
Proof.
  intros Hreach Hp Hlt Hat. pose proof (omp_reach_inv _ _ _ Ht s Hreach) as [_ _ Hproc _]. specialize (Hproc p Hp).
  destruct (user_region p _ t j k _ Hproc Hlt Hat) as [Hr _]. unfold user_at, thread_worker in *. destruct (is_master p && (t =? 0)) eqn:E.
  - apply andb_true_iff in E as [Em Ez]. apply Nat.eqb_eq in Ez as ->. unfold OmpInv.proc_ok, master_ok in Hproc. rewrite Em in Hproc.
    apply Nat.eqb_eq in Em as ->. destruct (pr_dist (om_procs s 0)); try done. destruct (pr_pos (om_procs s 0)); try done.
    destruct Hproc as ((_ & _ & _ & ->) & _). done.
  - destruct (child_index threads_per_proc p t Hlt E) as [Hi Et]. pose proof (rg_child _ _ _ _ _ _ Hr _ Hi) as Hc. unfold child_ok in Hc.
    destruct (ch_pc _); try done. destruct Hc as (_ & _ & ->). cbn. split_and!; try done. unfold child_thread_num, thread_num_first. unfold tix in Et.
    destruct (is_master p); lia.
Qed.

(** C14: No run of the runtime has more steps than the rank of the initial state, and
    from every reachable state there is a run to the end of all processes: the
    workers and the barriers do not deadlock. *)
Theorem omp_terminates :
  (∀ n s, omp_run prog num_procs threads_per_proc n omp_init s → n ≤ omp_rank prog num_procs threads_per_proc omp_init)
  ∧ ∀ s, omp_reach prog num_procs threads_per_proc s →
    ∃ n s', omp_run prog num_procs threads_per_proc n s s' ∧ ∀ p, p < num_procs → pr_dist (om_procs s' p) = DExit.
Proof.
  split.
  - intros n s Hr. destruct (run_rank _ _ _ n _ s Ht (omp_inv_init _ _ _ Ht) Hr) as [_ H]. lia.
  - intros s Hs. apply run_end; [exact Ht|by apply omp_reach_inv].
Qed.
End thm.

(** * An execution *)

Definition demo_prog : program := [(1, 1)].

(** Two processes of two threads; both threads of the second process and then the
    threads of the first pass the barrier of the region. *)
Definition demo_state : omp := omp_exec demo_prog 2 2 (rounds 2 2 21).
Definition demo_state2 : omp := omp_exec demo_prog 2 2 (rounds 2 2 21 ++ [(0, None); (0, Some 0)]).
Definition demo_out : omp := omp_exec demo_prog 2 2 (rounds 2 2 1).

Lemma omp_barrier_witness :
  user_at 1 0 (om_procs demo_state 1) = Some (0, 1) ∧
  ((∃ k', begun demo_prog 0 0 (om_procs demo_state 0) = Some (0, k') ∧ 1 ≤ k') ∨ finished 0 0 (om_procs demo_state 0) = true).
Proof.
  split; [by vm_compute|]. apply (omp_barrier demo_prog 2 2 (Nat.lt_0_succ 1) demo_state 1 0 0 0 0 1);
    [apply exec_reach|apply Nat.leb_le; reflexivity..|by vm_compute].
Defined.

Lemma omp_lockstep_witness : user_at 1 0 (om_procs demo_state2 1) = Some (0, 1) ∧ user_at 0 0 (om_procs demo_state2 0) = Some (0, 1) ∧ 0 = 0 ∧ 1 = 1.
Proof.
  split_and!; [by vm_compute|by vm_compute|..]; apply (omp_lockstep demo_prog 2 2 (Nat.lt_0_succ 1) demo_state2 1 0 0 0 0 1 0 1);
    solve [apply exec_reach|apply Nat.leb_le; reflexivity|by vm_compute].
Defined.

Lemma omp_sequential_witness : pr_dist (om_procs demo_out 0) = DUser ∧ pr_bar (om_procs demo_out 1) = None.
Proof.
  split; [by vm_compute|]. apply (omp_sequential demo_prog 2 2 (Nat.lt_0_succ 1) demo_out 1 0 0);
    [apply exec_reach|apply Nat.leb_le; reflexivity|by vm_compute|by vm_compute].
Defined.

Lemma omp_safe_witness : length (pr_calls (om_procs demo_state 1)) = 2 ∧ pr_dist (om_procs demo_state 1) ≠ DFailed.
Proof.
  split; [by vm_compute|]. apply (omp_safe demo_prog 2 2 (Nat.lt_0_succ 1) demo_state 1); [apply exec_reach|apply Nat.leb_le; reflexivity].
Defined.

Lemma omp_thread_num_witness : user_at 1 0 (om_procs demo_state 1) = Some (0, 1) ∧ w_thread_num (thread_worker 1 0 (om_procs demo_state 1)) = 1 * 2 + 0.
Proof.
  split; [by vm_compute|]. apply (omp_thread_num demo_prog 2 2 (Nat.lt_0_succ 1) demo_state 1 0 0 1);
    [apply exec_reach|apply Nat.leb_le; reflexivity..|by vm_compute].
Defined.

Lemma omp_terminates_witness :
  (∃ n s', omp_run demo_prog 2 2 n demo_state s' ∧ ∀ p, p < 2 → pr_dist (om_procs s' p) = DExit).
Proof. apply (omp_terminates demo_prog 2 2 (Nat.lt_0_succ 1)). apply exec_reach. Defined.
