(* ===== verification/OmpMain.v ===== *)
(** The set-up of a meomp program: main of src/meomp.cpp and its helpers, for the
    stacks of the threads, the options of the environment, and the arguments of the
    main function of the application, which are copied to the heap in the address
    space. *)
From Stdlib Require Import ZArith Lia.
From stdpp Require Import base tactics list.
From S2P Require Import Prelude.
From S2P Require Import OmpWorker.
From S2P Require Import Omp.

#[local] Open Scope Z_scope.

(** * The stacks *)

Section stacks.
Context (num_procs threads_per_proc : nat).
Context (stack_ptr stack_size : Z).

(** [make_call_stack_at]: the bounds of the stack [id]. *)
Definition make_call_stack_at (id : Z) : Z * Z := (stack_ptr + stack_size * id, stack_ptr + stack_size * (id + 1)).

(** The stack of the main function, and that of a child thread ([set_call_stack]). *)
Definition dist_stack : Z * Z := make_call_stack_at 0.
Definition child_stack (p i : nat) : Z * Z := make_call_stack_at (1 + Z.of_nat (child_thread_num threads_per_proc p i)).

(** The size of the segment that main allocates for them. *)
Definition stacks_size : Z := (Z.of_nat num_procs * Z.of_nat threads_per_proc + 1) * stack_size.

Definition disjoint_ranges (a b : Z * Z) : Prop := snd a ≤ fst b ∨ snd b ≤ fst a.
Definition in_segment (a : Z * Z) : Prop := stack_ptr ≤ fst a ∧ fst a < snd a ∧ snd a ≤ stack_ptr + stacks_size.

Lemma child_num_bounds p i :
  (p < num_procs)%nat → (i < num_children threads_per_proc p)%nat →
  (0 < child_thread_num threads_per_proc p i < num_procs * threads_per_proc)%nat.
Proof.
  unfold num_children, child_thread_num, thread_num_first, is_master. intros Hp Hi. destruct (Nat.eqb_spec p 0) as [->|]; cbn [Nat.add]; nia.
Qed.

Lemma child_num_inj p i q j :
  (i < num_children threads_per_proc p)%nat → (j < num_children threads_per_proc q)%nat →
  child_thread_num threads_per_proc p i = child_thread_num threads_per_proc q j → p = q ∧ i = j.
Proof.
  unfold num_children, child_thread_num, thread_num_first, is_master. intros Hi Hj E.
  destruct (Nat.eqb_spec p 0) as [->|Hp], (Nat.eqb_spec q 0) as [->|Hq]; cbn in *; try nia.
  assert (p = q) as -> by (destruct (Nat.lt_trichotomy p q) as [|[|]]; [|done|]; nia). lia.
Qed.

Lemma stack_disjoint a b : 0 ≤ stack_size → a ≠ b → disjoint_ranges (make_call_stack_at a) (make_call_stack_at b).
Proof. intros Hs Hne. unfold disjoint_ranges, make_call_stack_at. cbn. destruct (Z.lt_trichotomy a b) as [|[|]]; [left|done|right]; nia. Qed.

(** The stacks of the main function and of all child threads of all processes are
    inside of the segment and disjoint. *)
Theorem stacks_disjoint p i q j :
  0 < stack_size → (p < num_procs)%nat → (q < num_procs)%nat →
  (i < num_children threads_per_proc p)%nat → (j < num_children threads_per_proc q)%nat →
  in_segment (child_stack p i) ∧ in_segment dist_stack ∧ disjoint_ranges (child_stack p i) dist_stack
  ∧ ((p, i) ≠ (q, j) → disjoint_ranges (child_stack p i) (child_stack q j)).
Proof.
  intros Hs Hp Hq Hi Hj. pose proof (child_num_bounds p i Hp Hi) as Hb. split_and!.
  - unfold in_segment, child_stack, make_call_stack_at, stacks_size. cbn [fst snd]. nia.
  - unfold in_segment, dist_stack, make_call_stack_at, stacks_size. cbn [fst snd]. nia.
  - apply stack_disjoint; lia.
  - intros Hne. apply stack_disjoint; [lia|]. intros E. apply Hne. destruct (child_num_inj p i q j Hi Hj) as [-> ->]; [lia|done].
Qed.
End stacks.

Lemma stacks_disjoint_witness : child_stack 2 4096 32768 1 0 = (102400 + 0, 135168) ∧ disjoint_ranges (child_stack 2 4096 32768 0 0) (child_stack 2 4096 32768 1 0).
Proof.
  split; [by vm_compute|]. apply (stacks_disjoint 2 2 4096 32768 0 0 1 0); [lia|apply Nat.leb_le; reflexivity..|done].
Defined.

(** * The environment *)

(** [get_threads_per_proc_nocache]; [env] is what [atoi] gives for MEOMP_NUM_THREADS. *)
Definition get_threads_per_proc (env : option Z) : result Z :=
  match env with Some ret => _ ← assert_ (0 <? ret); Ok ret | None => Ok 1 end.

(** [get_stack_size], [get_heap_size] and [get_heap_block_size]: an option of the
    environment is converted to [size_t] before the checks; None is the exception. *)
Definition get_size (def : Z) (env : option Z) : option Z :=
  let ret := match env with Some x => u64 x | None => def end in
  if negb (ret mod 4096 =? 0) || (ret <=? 0) then None else Some ret.

(** A negative option passes the checks. *)
Lemma get_size_negative def k : 0 < k → k * 4096 < u64_mod → get_size def (Some (- (k * 4096))) = Some (u64_mod - k * 4096).
Proof.
  intros Hk Hlt. unfold get_size. assert (u64 (- (k * 4096)) = u64_mod - k * 4096) as ->.
  { unfold u64. symmetry. apply Z.mod_unique_pos with (-1); lia. }
  assert ((u64_mod - k * 4096) mod 4096 = 0) as ->.
  { replace (u64_mod - k * 4096) with ((2 ^ 52 - k) * 4096) by (unfold u64_mod; lia). apply Z.mod_mul. lia. }
  cbn [Z.eqb negb orb]. destruct (Z.leb_spec (u64_mod - k * 4096) 0); [lia|done].
Qed.

(** * The arguments *)

(** The bytes of the pointers, of 8 bytes each, and of the strings. *)
Definition packed_size (argv : list (list Z)) : nat := (8 * length argv + list_sum ((λ s, S (length s)) <$> argv))%nat.

(** A store of bytes at an offset of the block. *)
Definition store (off : nat) (src m : list Z) : list Z := take off m ++ overwrite src (drop off m).

(** The loop of [pack_argv] from argument [i] on, with [buf] the offset of str_buf in
    the block at the address [ptr]. *)
Fixpoint pack_loop (ptr : Z) (i buf : nat) (argv : list (list Z)) (m : list Z) : list Z * nat :=
  match argv with
  | [] => (m, buf)
  | s :: argv =>
      let m := store (8 * i) (le_bytes 8 (ptr + Z.of_nat buf)) m in
      let m := store buf (s ++ [0]) m in
      pack_loop ptr (S i) (buf + S (length s)) argv m
  end.

(** [pack_argv]: [m] is what the allocated block holds. *)
Definition pack_argv (ptr : Z) (argv : list (list Z)) (m : list Z) : result (list Z) :=
  let r := pack_loop ptr 0 (8 * length argv) argv m in
  _ ← assert_ (snd r =? packed_size argv)%nat; Ok (fst r).

(** What the application reads: a string up to its zero byte, and an argument through
    its pointer. *)
Fixpoint read_string (m : list Z) : list Z :=
  match m with [] => [] | b :: m => if b =? 0 then [] else b :: read_string m end.

Definition read_arg (ptr : Z) (m : list Z) (i : nat) : list Z :=
  read_string (drop (Z.to_nat (le_value (take 8 (drop (8 * i) m)) - ptr)) m).

Lemma store_at pre old post src : length old = length src → store (length pre) src (pre ++ old ++ post) = pre ++ src ++ post.
Proof. intros E. unfold store, overwrite. by rewrite take_app_length, drop_app_length, <- E, drop_app_length. Qed.

(** The pointers to strings from the offset [buf] on. *)
Fixpoint pointers (ptr : Z) (buf : nat) (argv : list (list Z)) : list Z :=
  match argv with [] => [] | s :: argv => le_bytes 8 (ptr + Z.of_nat buf) ++ pointers ptr (buf + S (length s)) argv end.

Definition strings (argv : list (list Z)) : list Z := mjoin ((λ s, s ++ [0]) <$> argv).

Lemma length_pointers ptr buf argv : length (pointers ptr buf argv) = (8 * length argv)%nat.
Proof. revert buf. induction argv as [|s argv IH]; intros buf; [done|]. cbn [pointers]. rewrite length_app, length_le_bytes, IH. cbn. lia. Qed.

Lemma length_strings argv : length (strings argv) = list_sum ((λ s, S (length s)) <$> argv).
Proof.
  induction argv as [|s argv IH]; [done|]. change (strings (s :: argv)) with ((s ++ [0]) ++ strings argv).
  rewrite !length_app, IH. change (list_sum (_ <$> s :: argv)) with (S (length s) + list_sum ((λ s, S (length s)) <$> argv))%nat. cbn [length]. lia.
Qed.

Lemma pack_loop_ok ptr argv done_p done_s m_p m_s i buf :
  length done_p = (8 * i)%nat → length m_p = (8 * length argv)%nat → length m_s = length (strings argv) →
  buf = (length done_p + length m_p + length done_s)%nat →
  pack_loop ptr i buf argv (done_p ++ m_p ++ done_s ++ m_s)
  = (done_p ++ pointers ptr buf argv ++ done_s ++ strings argv, (buf + length (strings argv))%nat).
Proof.
  revert done_p done_s m_p m_s i buf. induction argv as [|s argv IH]; intros done_p done_s m_p m_s i buf Hp Hmp Hms Hbuf.
  { destruct m_p; [|done]. destruct m_s; [|done]. cbn. by rewrite Nat.add_0_r. }
  cbn [length] in Hmp. change (strings (s :: argv)) with ((s ++ [0]) ++ strings argv) in *. rewrite length_app in Hms. rewrite length_app in Hms. cbn [length] in Hms.
  cbn [pack_loop]. rewrite <- Hp. set (new := le_bytes 8 _).
  rewrite <- (take_drop 8 m_p) at 1. rewrite <- (app_assoc (take 8 m_p)).
  rewrite store_at by (unfold new; rewrite length_le_bytes, length_take; lia).
  rewrite <- (take_drop (S (length s)) m_s) at 1.
  replace (done_p ++ new ++ drop 8 m_p ++ done_s ++ take (S (length s)) m_s ++ drop (S (length s)) m_s)
    with ((done_p ++ new ++ drop 8 m_p ++ done_s) ++ take (S (length s)) m_s ++ drop (S (length s)) m_s) by by rewrite <- !app_assoc.
  assert (buf = length (done_p ++ new ++ drop 8 m_p ++ done_s)) as Eb by (rewrite !length_app, length_drop; unfold new; rewrite length_le_bytes; lia).
  rewrite Eb at 2. rewrite store_at by (rewrite length_take, length_app; cbn [length]; lia).
  replace ((done_p ++ new ++ drop 8 m_p ++ done_s) ++ (s ++ [0]) ++ drop (S (length s)) m_s)
    with ((done_p ++ new) ++ drop 8 m_p ++ (done_s ++ s ++ [0]) ++ drop (S (length s)) m_s) by by rewrite <- !app_assoc.
  rewrite (IH (done_p ++ new) (done_s ++ s ++ [0])).
  - cbn [pointers]. fold new. rewrite !length_app. cbn [length]. f_equal; [by rewrite <- !app_assoc|lia].
  - rewrite length_app. unfold new. rewrite length_le_bytes. lia.
  - rewrite length_drop. lia.
  - rewrite length_drop. lia.
  - rewrite !length_app, length_drop. unfold new. rewrite length_le_bytes. cbn [length]. lia.
Qed.

Lemma pack_argv_ok ptr argv m :
  length m = packed_size argv → pack_argv ptr argv m = Ok (pointers ptr (8 * length argv) argv ++ strings argv).
Proof.
  intros Hm. unfold pack_argv. rewrite <- (take_drop (8 * length argv) m).
  pose proof (pack_loop_ok ptr argv [] [] (take (8 * length argv) m) (drop (8 * length argv) m) 0 (8 * length argv)) as H. unfold packed_size in *. cbn [app length] in H.
  rewrite H.
  - cbn [fst snd]. rewrite length_strings, Nat.eqb_refl. done.
  - done.
  - rewrite length_take. lia.
  - rewrite length_drop, length_strings. lia.
  - rewrite length_take. lia.
Qed.

(** The offset of a string among the strings. *)
Definition string_off (argv : list (list Z)) (i : nat) : nat := list_sum ((λ s, S (length s)) <$> take i argv).

Lemma string_off_cons s argv i : string_off (s :: argv) (S i) = (S (length s) + string_off argv i)%nat.
Proof. done. Qed.

Lemma pointer_at ptr argv i s buf rest :
  argv !! i = Some s → take 8 (drop (8 * i) (pointers ptr buf argv ++ rest)) = le_bytes 8 (ptr + Z.of_nat (buf + string_off argv i)).
Proof.
  revert i buf. induction argv as [|s' argv IH]; intros i buf H; [done|]. cbn [pointers]. rewrite <- app_assoc. destruct i as [|i].
  - change (string_off (s' :: argv) 0) with O. rewrite Nat.add_0_r, Nat.mul_0_r, drop_0. by rewrite take_app_le, firstn_all2 by (rewrite length_le_bytes; lia).
  - rewrite drop_app_ge by (rewrite length_le_bytes; lia). rewrite length_le_bytes. replace (8 * S i - 8)%nat with (8 * i)%nat by lia.
    rewrite (IH i (buf + S (length s'))%nat H), string_off_cons. do 3 f_equal. lia.
Qed.

Lemma string_at argv i s : argv !! i = Some s → drop (string_off argv i) (strings argv) = s ++ 0 :: strings (drop (S i) argv).
Proof.
  revert i. induction argv as [|s' argv IH]; intros i H; [done|]. change (strings (s' :: argv)) with ((s' ++ [0]) ++ strings argv). destruct i as [|i].
  - injection H as ->. change (string_off (s :: argv) 0) with O. rewrite drop_0, <- app_assoc. done.
  - rewrite string_off_cons. rewrite drop_app_ge by (rewrite length_app; cbn; lia). rewrite length_app. cbn [length].
    replace (S (length s') + string_off argv i - (length s' + 1))%nat with (string_off argv i) by lia. apply (IH i H).
Qed.

Lemma read_string_ok s rest : Forall (λ b, b ≠ 0) s → read_string (s ++ 0 :: rest) = s.
Proof. induction 1 as [|b s Hb _ IH]; [done|]. cbn. apply Z.eqb_neq in Hb. rewrite Hb. by rewrite IH. Qed.

Lemma string_off_lt argv i s : argv !! i = Some s → (string_off argv i < length (strings argv))%nat.
Proof.
  intros H. apply string_at in H as E. apply (f_equal length) in E. rewrite length_drop, length_app in E. cbn in E. lia.
Qed.

(** A string of bytes without the zero byte. *)
Definition c_string (s : list Z) : Prop := Forall (λ b, is_byte b ∧ b ≠ 0) s.

Lemma le_value_pos l : Forall (λ b, 0 ≤ b) l → 0 ≤ le_value l.
Proof. induction 1 as [|b l Hb _ IH]; [done|]. cbn [le_value]. lia. Qed.

(** C38: The application reads the arguments that main packed, through the pointers of
    the table; but the table has no null pointer at its end. *)
Theorem pack_argv_roundtrip ptr argv m :
  length m = packed_size argv → 0 ≤ ptr → ptr + Z.of_nat (packed_size argv) < u64_mod → Forall c_string argv →
  ∃ m', pack_argv ptr argv m = Ok m' ∧ length m' = packed_size argv
    ∧ (∀ i s, argv !! i = Some s → read_arg ptr m' i = s)
    ∧ ∀ b s, argv !! O = Some (b :: s) → le_value (take 8 (drop (8 * length argv) m')) ≠ 0.
Proof.
  intros Hm Hptr Hend Hargs. eexists. split; [by apply pack_argv_ok|]. split_and!.
  - unfold packed_size. rewrite length_app, length_pointers, length_strings. done.
  - intros i s Hs. unfold read_arg. rewrite (pointer_at ptr argv i s _ _ Hs). rewrite le_value_bytes.
    + replace (Z.to_nat (ptr + Z.of_nat (8 * length argv + string_off argv i) - ptr)) with (8 * length argv + string_off argv i)%nat by lia.
      rewrite drop_app_ge by (rewrite length_pointers; lia). rewrite length_pointers.
      replace (8 * length argv + string_off argv i - 8 * length argv)%nat with (string_off argv i) by lia.
      rewrite (string_at argv i s Hs). apply read_string_ok. apply (Forall_lookup_1 _ _ _ _ Hargs) in Hs. eapply Forall_impl; [exact Hs|]. by intros ? [].
    + apply string_off_lt in Hs. rewrite length_strings in Hs. unfold packed_size in Hend. unfold u64_mod in Hend.
      change (256 ^ Z.of_nat 8) with (2 ^ 64). lia.
  - intros b s Hs. rewrite drop_app_ge by (rewrite length_pointers; lia). rewrite length_pointers, Nat.sub_diag, drop_0.
    destruct argv as [|s' argv]; [done|]. injection Hs as ->. change (strings ((b :: s) :: argv)) with (b :: (s ++ [0]) ++ strings argv).
    apply Forall_cons in Hargs as [Hb Hargs]. apply Forall_cons in Hb as [[Hb Hb0] Hs]. cbn [take le_value]. intros E.
    assert (0 ≤ le_value (take 7 ((s ++ [0]) ++ strings argv))) as Hv.
    { apply le_value_pos, Forall_take, Forall_app. assert (∀ t, c_string t → Forall (λ b, 0 ≤ b) (t ++ [0])) as Ht.
      { intros t Ht. apply Forall_app. split; [|by repeat constructor]. eapply Forall_impl; [exact Ht|]. intros x [[] _]. done. }
      split; [by apply Ht|]. unfold strings. clear -Hargs Ht. induction Hargs as [|t l Hc _ IH]; [constructor|].
      change (mjoin _) with ((t ++ [0]) ++ mjoin ((λ s, s ++ [0]) <$> l)). apply Forall_app. split; [by apply Ht|done]. }
    unfold is_byte in Hb. lia.
Qed.

Lemma pack_argv_roundtrip_witness :
  let argv := [[97; 98]; []; [99]] in
  packed_size argv = 30%nat ∧ pack_argv 4104 argv (replicate 30 7) =
    Ok ([32; 16; 0; 0; 0; 0; 0; 0; 35; 16; 0; 0; 0; 0; 0; 0; 36; 16; 0; 0; 0; 0; 0; 0; 97; 98; 0; 0; 99; 0])
  ∧ ∃ m', pack_argv 4104 argv (replicate 30 7) = Ok m' ∧ read_arg 4104 m' 2 = [99].
Proof.
  intros argv. split; [by vm_compute|]. split; [by vm_compute|].
  destruct (pack_argv_roundtrip 4104 argv (replicate 30 7)) as (m' & E & _ & H & _); [done|lia|by vm_compute| |].
  - repeat constructor; lia.
  - exists m'. split; [exact E|]. by apply (H 2%nat).
Defined.
