(* ===== verification/FacadeHeap.v ===== *)
(** The heap in the address space: the linear allocator of itf/basic_dsm_facade.hpp of
    medsm2, which the default build uses. A word at the start of the segment counts the
    bytes that are used, under a mutex of the address space. *)
From Stdlib Require Import ZArith Lia.
From stdpp Require Import base tactics functions list.
From S2P Require Import Prelude.
From S2P Require Import Policy.


Record heap := Heap {
  hp_seg : Z;        (** the start of the segment, where the counter is *)
  hp_size : Z;       (** heap_size_ *)
  hp_used : Z;       (** *heap_used_ *)
  hp_locked : bool;  (** the mutex heap_mtx_id_ is locked *)
}.

Definition init_heap_seg (seg seg_size : Z) : heap := Heap seg seg_size 0 false.

(** [heap_ptr_]: behind the counter. *)
Definition heap_ptr (h : heap) : Z := hp_seg h + 8.

Inductive alloc_result :=
| Allocated (ptr : Z) (h : heap)
| ThrewBadAlloc (h : heap)
| Blocked.                          (** in [lock_mutex] *)

Definition allocate (num_bytes : Z) (h : heap) : alloc_result :=
  if hp_locked h then Blocked else
  let ptr := heap_ptr h + hp_used h in
  let used := u64 (hp_used h + u64 (roundup_divide num_bytes 16 * 16)) in
  if hp_size h <=? used then ThrewBadAlloc (Heap (hp_seg h) (hp_size h) used true)
  else Allocated ptr (Heap (hp_seg h) (hp_size h) used false).

(** [deallocate] of the linear allocator. *)
Definition deallocate (ptr : Z) (h : heap) : heap := h.

(** Requests in the order in which they lock the mutex: the blocks, as addresses
    and sizes, until the first that fails. *)
Fixpoint allocate_all (l : list Z) (h : heap) : list (Z * Z) * heap :=
  match l with
  | [] => ([], h)
  | n :: l =>
      match allocate n h with
      | Allocated ptr h => let r := allocate_all l h in ((ptr, n) :: fst r, snd r)
      | ThrewBadAlloc h => ([], h)
      | Blocked => ([], h)
      end
  end.

(** The bytes that a request takes. *)
Definition rounded (n : Z) : Z := (n + 15) / 16 * 16.

Definition heap_ok (h : heap) : Prop :=
  0 ≤ hp_used h < hp_size h ∧ hp_used h mod 16 = 0 ∧ hp_size h mod 16 = 0 ∧ 0 ≤ hp_seg h ∧ hp_seg h + hp_size h ≤ u64_mod ∧ hp_seg h mod 16 = 0.

Lemma rounded_bounds n : 0 ≤ n → n ≤ rounded n < n + 16 ∧ rounded n mod 16 = 0.
Proof.
  intros Hn. unfold rounded. pose proof (Z.div_mod (n + 15) 16 ltac:(lia)). pose proof (Z.mod_pos_bound (n + 15) 16 ltac:(lia)).
  split; [lia|]. apply Z.mod_mul. lia.
Qed.

Lemma round_ok n : 0 ≤ n → n < u64_mod - 15 → u64 (roundup_divide n 16 * 16) = rounded n.
Proof.
  intros H0 H1. unfold roundup_divide, rounded. destruct (Z.ltb_spec (n + 16) u64_mod) as [H|H].
  - rewrite (u64_small (n + 16)) by (unfold is_u64; lia). rewrite (u64_small (n + 16 - 1)) by (unfold is_u64; lia).
    replace (n + 16 - 1) with (n + 15) by lia. apply u64_small. unfold is_u64.
    pose proof (Z.div_mod (n + 15) 16 ltac:(lia)). pose proof (Z.mod_pos_bound (n + 15) 16 ltac:(lia)). lia.
  - assert (n = u64_mod - 16) as -> by lia. done.
Qed.

Definition small (size n : Z) : Prop := 0 ≤ n ∧ n + size < u64_mod - 15.

Lemma allocate_ok n h :
  heap_ok h → hp_locked h = false → small (hp_size h) n →
  allocate n h = (if hp_size h <=? hp_used h + rounded n then ThrewBadAlloc (Heap (hp_seg h) (hp_size h) (hp_used h + rounded n) true)
                  else Allocated (heap_ptr h + hp_used h) (Heap (hp_seg h) (hp_size h) (hp_used h + rounded n) false)).
Proof.
  intros (Hu & Hm & Hs & Hseg & Hend & _) Hl [H0 H1]. unfold allocate. rewrite Hl, round_ok by lia.
  pose proof (rounded_bounds n H0) as [Hr _]. by rewrite u64_small by (unfold is_u64; lia).
Qed.

Lemma heap_ok_next n h : heap_ok h → 0 ≤ n → hp_used h + rounded n < hp_size h → heap_ok (Heap (hp_seg h) (hp_size h) (hp_used h + rounded n) false).
Proof.
  intros (Hu & Hm & Hs & Hseg & Hend & Ha) H0 Hlt. pose proof (rounded_bounds n H0) as [Hr Hrm]. unfold heap_ok. cbn.
  split_and!; try done; try lia. rewrite Z.add_mod, Hm, Hrm by lia. done.
Qed.

(** The blocks of a heap, in the order of the requests. *)
Definition blocks_ok (lo hi : Z) (l : list (Z * Z)) : Prop :=
  ∀ i p n, l !! i = Some (p, n) → lo ≤ p ∧ p + n ≤ hi ∧ p mod 16 = 8 ∧ ∀ j q m, (i < j)%nat → l !! j = Some (q, m) → p + n ≤ q.

Definition total (l : list Z) : Z := foldr (λ n s, rounded n + s) 0 l.

Lemma total_nonneg l : Forall (λ n, 0 ≤ n) l → 0 ≤ total l.
Proof. induction 1 as [|n l Hn _ IH]; [done|]. pose proof (rounded_bounds n Hn). change (total (n :: l)) with (rounded n + total l). lia. Qed.

Lemma allocate_all_ok l h :
  heap_ok h → hp_locked h = false → Forall (small (hp_size h)) l →
  blocks_ok (heap_ptr h + hp_used h) (hp_seg h + hp_size h) (fst (allocate_all l h))
  ∧ (length (fst (allocate_all l h)) = length l ↔ hp_used h + total l < hp_size h).
Proof.
  revert h. induction l as [|n l IH]; intros h Hok Hl Hall.
  { split; [by intros i p n|]. cbn. pose proof Hok as (? & _). lia. }
  apply Forall_cons in Hall as [Hn Hall]. pose proof Hok as (Hu & Hm & Hs & Hseg & Hend & Ha). pose proof (rounded_bounds n (proj1 Hn)) as [Hr Hrm]. pose proof (proj1 Hn) as Hn0.
  assert (0 ≤ total l) as Ht by (apply total_nonneg; eapply Forall_impl; [exact Hall|]; intros ? []; done).
  change (total (n :: l)) with (rounded n + total l). cbn [allocate_all]. rewrite (allocate_ok n h Hok Hl Hn). destruct (Z.leb_spec (hp_size h) (hp_used h + rounded n)) as [Hle|Hlt].
  - cbn. split; [by intros i p m|]. lia.
  - pose proof (heap_ok_next n h Hok (proj1 Hn) Hlt) as Hok'. set (h' := Heap _ _ _ _) in *. destruct (IH h' Hok' eq_refl Hall) as [Hb Hlen].
    cbn [fst snd length]. assert (heap_ptr h' + hp_used h' = heap_ptr h + hp_used h + rounded n) as E by (unfold heap_ptr; cbn; lia). rewrite E in Hb. split.
    + intros [|i] p m; cbn; [intros [= <- <-]|].
      * split_and!; [lia|unfold heap_ptr; pose proof (Z.div_mod (hp_used h + rounded n) 16); pose proof (Z.div_mod (hp_size h) 16)| |].
        -- assert ((hp_used h + rounded n) mod 16 = 0) as Hz by (rewrite Z.add_mod, Hm, Hrm by lia; done). lia.
        -- unfold heap_ptr. rewrite Z.add_mod, Hm by lia. rewrite (Z.add_mod (hp_seg h)), Ha by lia. done.
        -- intros [|j] q m' Hj; [lia|]. cbn. intros Hq. destruct (Hb j q m' Hq) as (H1 & _). lia.
      * intros Hp. destruct (Hb i p m Hp) as (H1 & H2 & H3 & H4). split_and!; [lia|exact H2|done|].
        intros [|j] q m' Hj; [lia|]. cbn. intros Hq. apply (H4 j q m'); [lia|done].
    + cbn in Hlen. cbn. lia.
Qed.

(** C28: The blocks of a heap are disjoint and inside of its segment, and all requests
    succeed exactly when their sizes, rounded up to 16, add up to less than the
    heap, as long as every request is so small that its size and that of the heap stay
    below 2^64 ([heap_defects] shows what larger ones do); but every block is at 8
    modulo 16. *)
Theorem heap_blocks seg size l :
  0 ≤ seg → seg + size ≤ u64_mod → 0 < size → seg mod 4096 = 0 → size mod 4096 = 0 → Forall (small size) l →
  let r := allocate_all l (init_heap_seg seg size) in
  blocks_ok (seg + 8) (seg + size) (fst r) ∧ (length (fst r) = length l ↔ total l < size).
Proof.
  intros H0 H1 H2 Hseg Hsize Hall r.
  assert (∀ x, x mod 4096 = 0 → x mod 16 = 0) as H16.
  { intros x Hx. pose proof (Z.div_mod x 4096 ltac:(lia)) as E. rewrite Hx in E. rewrite E. replace (4096 * (x / 4096) + 0) with (256 * (x / 4096) * 16) by lia. apply Z.mod_mul. lia. }
  destruct (allocate_all_ok l (init_heap_seg seg size)) as [Hb Hl]; [|done|done|].
  - unfold heap_ok. cbn. split_and!; auto; lia.
  - unfold heap_ptr in Hb. cbn in Hb, Hl. rewrite Z.add_0_r in Hb. done.
Qed.

Lemma heap_blocks_witness :
  allocate_all [10; 100; 5000] (init_heap_seg 4096 8192) = ([(4104, 10); (4120, 100); (4232, 5000)], Heap 4096 8192 5136 false)
  ∧ blocks_ok 4104 12288 (fst (allocate_all [10; 100; 5000] (init_heap_seg 4096 8192))).
Proof.
  split; [by vm_compute|]. apply (heap_blocks 4096 8192 [10; 100; 5000]); [lia|by vm_compute|lia|done|done|].
  repeat constructor; lia.
Defined.

(** ** Requests near 2^64 *)

(** The request that brings the counter back to 0. *)
Lemma allocate_wraps h :
  heap_ok h → hp_locked h = false → 0 < hp_used h →
  allocate (u64_mod - hp_used h) h
  = Allocated (heap_ptr h + hp_used h) (Heap (hp_seg h) (hp_size h) 0 false).
Proof.
  intros (Hu & Hm & _ & Hseg & Hend & _) Hl H0. unfold allocate. rewrite Hl. assert (16 ≤ hp_used h) as H16.
  { pose proof (Z.div_mod (hp_used h) 16). lia. }
  rewrite round_ok by lia. assert (rounded (u64_mod - hp_used h) = u64_mod - hp_used h) as ->.
  { unfold rounded. pose proof (Z.div_mod (hp_used h) 16 ltac:(lia)) as E. rewrite Hm, Z.add_0_r in E.
    replace (u64_mod - hp_used h + 15) with ((2 ^ 60 - hp_used h / 16) * 16 + 15) by (unfold u64_mod; lia).
    rewrite Z.div_add_l by lia. change (15 / 16) with 0. unfold u64_mod. lia. }
  replace (hp_used h + (u64_mod - hp_used h)) with u64_mod by lia. change (u64 u64_mod) with 0.
  destruct (Z.leb_spec (hp_size h) 0); [lia|done].
Qed.

(** One that takes nothing. *)
Lemma allocate_nothing n h :
  u64_mod - 15 ≤ n < u64_mod → heap_ok h → hp_locked h = false →
  allocate n h = Allocated (heap_ptr h + hp_used h) h.
Proof.
  intros Hn (Hu & _ & _ & Hseg & Hend & _) Hl. unfold allocate. rewrite Hl.
  assert (u64 (roundup_divide n 16 * 16) = 0) as ->.
  { unfold roundup_divide. assert (u64 (n + 16) = n + 16 - u64_mod) as ->.
    { unfold u64, u64_mod in *. symmetry. apply (Z.mod_unique _ _ 1); lia. }
    rewrite (u64_small (n + 16 - u64_mod - 1)) by (unfold is_u64, u64_mod in *; lia). by rewrite Z.div_small by lia. }
  rewrite Z.add_0_r, u64_small by (unfold is_u64; lia).
  destruct (Z.leb_spec (hp_size h) (hp_used h)); [lia|]. by destruct h; cbn in *; subst.
Qed.

Lemma allocate_all_app l1 l2 h :
  length (fst (allocate_all l1 h)) = length l1 →
  allocate_all (l1 ++ l2) h
  = (fst (allocate_all l1 h) ++ fst (allocate_all l2 (snd (allocate_all l1 h))), snd (allocate_all l2 (snd (allocate_all l1 h)))).
Proof.
  revert h. induction l1 as [|n l IH]; intros h Hl; cbn [app allocate_all] in *.
  { cbn. by destruct (allocate_all l2 h). }
  destruct (allocate n h) as [ptr h'|h'|]; [|done..]. cbn in Hl. injection Hl as Hl. rewrite (IH h' Hl). done.
Qed.

(** The heap after requests that succeed. *)
Lemma allocate_all_heap l h :
  heap_ok h → hp_locked h = false → Forall (small (hp_size h)) l → length (fst (allocate_all l h)) = length l →
  snd (allocate_all l h) = Heap (hp_seg h) (hp_size h) (hp_used h + total l) false
  ∧ heap_ok (snd (allocate_all l h)).
Proof.
  revert h. induction l as [|n l IH]; intros h Hok Hl Hall Hlen.
  { split; [|done]. destruct h; cbn in *; subst. f_equal. lia. }
  apply Forall_cons in Hall as [Hn Hall]. revert Hlen. cbn [allocate_all]. rewrite (allocate_ok n h Hok Hl Hn).
  destruct (Z.leb_spec (hp_size h) (hp_used h + rounded n)) as [Hle|Hlt]; [done|]. cbn. intros [= Hlen].
  destruct (IH _ (heap_ok_next n h Hok (proj1 Hn) Hlt) eq_refl Hall Hlen) as [E Hok']. rewrite E in *. cbn in *.
  split; [|done]. f_equal. unfold total. lia.
Qed.

(** C40: A request that fails leaves the mutex locked, so that every later request
    blocks for ever. After any requests that succeed, a request of 2^64 minus the used
    bytes succeeds and resets the counter, so that the next block (if it fits the heap) is at the place of
    the first one and overlaps it; and a request of 2^64 - 15 bytes or more succeeds
    without taking a byte, so that the next block is at the same place. *)
Theorem heap_defects seg size n l m
    (Hseg : 0 ≤ seg) (Hend : seg + size ≤ u64_mod) (H0 : 0 < size) (H1 : seg mod 4096 = 0) (H2 : size mod 4096 = 0)
    (Hall : Forall (small size) (n :: l)) (Hn : 0 < n) (Hfit : total (n :: l) < size)
    (Hm : small size m) (Hpos : 0 < m) (Hm' : rounded m < size) :
  let h := init_heap_seg seg size in
  let used := total (n :: l) in
  (∀ k j h1 h2, allocate k h1 = ThrewBadAlloc h2 → allocate j h2 = Blocked)
  ∧ head (fst (allocate_all (n :: l) h)) = Some (seg + 8, n)
  ∧ fst (allocate_all ((n :: l) ++ [u64_mod - used; m]) h)
    = fst (allocate_all (n :: l) h) ++ [(seg + 8 + used, u64_mod - used); (seg + 8, m)]
  ∧ (∀ k, u64_mod - 15 ≤ k < u64_mod → used + rounded m < size →
     fst (allocate_all ((n :: l) ++ [k; m]) h)
     = fst (allocate_all (n :: l) h) ++ [(seg + 8 + used, k); (seg + 8 + used, m)]).
Proof.
  intros h used. assert (heap_ok h ∧ hp_locked h = false) as [Hok Hl].
  { split; [|done]. assert (∀ x, x mod 4096 = 0 → x mod 16 = 0) as H16; [|unfold heap_ok; cbn; split_and!; auto; lia].
    intros x Hx. pose proof (Z.div_mod x 4096 ltac:(lia)) as E. rewrite Hx in E. rewrite E.
    replace (4096 * (x / 4096) + 0) with (256 * (x / 4096) * 16) by lia. apply Z.mod_mul. lia. }
  destruct (allocate_all_ok (n :: l) h Hok Hl Hall) as [_ Hlen].
  assert (length (fst (allocate_all (n :: l) h)) = length (n :: l)) as Hlen' by (apply Hlen; done).
  destruct (allocate_all_heap (n :: l) h Hok Hl Hall Hlen') as [E Hok']. cbn [hp_seg hp_size hp_used h init_heap_seg] in E.
  rewrite Z.add_0_l in E. fold used in E.
  assert (0 < used) as Hused.
  { apply Forall_cons in Hall as [_ Ht]. assert (0 ≤ total l) by (apply total_nonneg; eapply Forall_impl; [exact Ht|]; by intros ? []).
    pose proof (rounded_bounds n ltac:(lia)). change used with (rounded n + total l). lia. }
  split_and!.
  - intros k j h1 h2. unfold allocate. destruct (hp_locked h1); [done|]. case_match; [|done]. by intros [= <-].
  - apply Forall_cons in Hall as [Hn' _]. revert Hlen'. cbn [allocate_all]. rewrite (allocate_ok n h Hok Hl Hn').
    destruct (_ <=? _); [done|]. intros _. cbn. unfold heap_ptr. cbn. do 2 f_equal. lia.
  - rewrite (allocate_all_app _ _ _ Hlen'). cbn [fst]. f_equal. rewrite E in *. cbn [allocate_all].
    pose proof (allocate_wraps _ Hok' eq_refl Hused) as Ew. cbn [hp_used hp_seg hp_size] in Ew.
    rewrite Ew. cbn [fst snd]. set (h1 := Heap seg size 0 false).
    rewrite (allocate_ok m h1 Hok eq_refl Hm). cbn [hp_size hp_used h1]. rewrite Z.add_0_l.
    destruct (Z.leb_spec size (rounded m)); [lia|]. cbn. unfold heap_ptr. cbn. by rewrite Z.add_0_r.
  - intros k Hk Hlt. rewrite (allocate_all_app _ _ _ Hlen'). cbn [fst]. f_equal. rewrite E in *. cbn [allocate_all].
    pose proof (allocate_nothing k _ Hk Hok' eq_refl) as En. cbn [hp_used] in En. rewrite En.
    cbn [fst snd]. rewrite (allocate_ok m _ Hok' eq_refl Hm). cbn [hp_size hp_used].
    destruct (Z.leb_spec size (used + rounded m)); [lia|]. done.
Qed.

(** Two blocks, the request of 2^64 - 32, and one that overlaps the first. *)
Lemma heap_defects_witness :
  fst (allocate_all ([10; 16] ++ [2 ^ 64 - 32; 100]) (init_heap_seg 4096 8192))
  = [(4104, 10); (4120, 16); (4136, 2 ^ 64 - 32); (4104, 100)].
Proof.
  destruct (heap_defects 4096 8192 10 [16] 100) as (_ & _ & E & _); [lia|by vm_compute|lia|done|done| |lia|done| |lia|done|].
  - repeat constructor; vm_compute; congruence.
  - split; vm_compute; congruence.
  - exact E.
Defined.
