(* ===== verification/FacadeSpmd.v ===== *)
(** The SPMD regions of itf/basic_dsm_facade.hpp of medsm2: a function runs on every
    thread of every process, and its threads call [barrier], which is the barrier of a
    process around that of the address space. Every process runs the same program, a
    sequence of regions and of barriers between them. *)
From Stdlib Require Import ZArith Lia.
From stdpp Require Import base tactics functions list.
From S2P Require Import Prelude.

#[local] Open Scope nat_scope.

(** Where a thread is in [barrier] of a region. *)
Inductive bpc :=
| BArrive1
| BWait1 (gen : nat)
| BSpace                  (** sp_->barrier *)
| BSpaceWait (n : nat)
| BArrive2
| BWait2 (gen : nat).

(** Where a thread of the region is: before its [k]th barrier, in it, at the end. *)
Inductive tpc := TBody (k : nat) | TBar (k : nat) (b : bpc) | TDone.

(** What the program does next: an SPMD region, with the number of calls of [barrier] in
    its function, or a barrier outside of the regions. *)
Inductive item := IRegion (num_barriers : nat) | IBarrier.

(** Where the main thread of a process is: before the next item, in [spmd_parallel] or in
    [barrier]; as thread 0 of the region it is in [sp_thr 0]. *)
Inductive mpc :=
| MNext | MPre | MPreWait (n : nat) | MFork | MIn | MJoin | MPost | MPostWait (n : nat) | MTop | MTopWait (n : nat).

(** [sp_prog] starts with the item that the process is in. *)
Record proc := Proc {
  sp_prog : list item;
  sp_main : mpc;
  sp_thr : nat → tpc;
  sp_bar : nat * nat;    (** bar_: the arrivals and the generation *)
  sp_calls : nat;        (** the calls of the barrier of the address space *)
}.

Section spmd.
Context (num_procs n_ths_per_proc : nat).

(** The calls of [barrier] in the function of the region. *)
Definition num_barriers (x : proc) : nat := match sp_prog x with IRegion b :: _ => b | _ => 0 end.

Definition th_num (p i : nat) : nat := p * n_ths_per_proc + i.

Definition arrive (x : proc) : proc * option nat :=
  let '(cur, gen) := sp_bar x in
  if S cur <? n_ths_per_proc then (Proc (sp_prog x) (sp_main x) (sp_thr x) (S cur, gen) (sp_calls x), Some gen)
  else (Proc (sp_prog x) (sp_main x) (sp_thr x) (0, S gen) (sp_calls x), None).

Definition go (i : nat) (t : tpc) (x : proc) : proc := Proc (sp_prog x) (sp_main x) (<[i := t]> (sp_thr x)) (sp_bar x) (sp_calls x).
Definition main_to (m : mpc) (x : proc) : proc := Proc (sp_prog x) m (sp_thr x) (sp_bar x) (sp_calls x).
Definition call (x : proc) : proc := Proc (sp_prog x) (sp_main x) (sp_thr x) (sp_bar x) (S (sp_calls x)).

(** A thread of the region; [all n] holds when every process has made [n] calls. *)
Definition thread_step (p i : nat) (all : nat → bool) (x : proc) : option proc :=
  let sync := if th_num p i =? 0 then BSpace else BArrive2 in
  match sp_thr x i with
  | TBody k => if k <? num_barriers x then Some (go i (TBar k BArrive1) x) else Some (go i TDone x)
  | TBar k BArrive1 =>
      let '(x, w) := arrive x in Some (go i (TBar k (match w with Some gen => BWait1 gen | None => sync end)) x)
  | TBar k (BWait1 gen) => if snd (sp_bar x) =? gen then None else Some (go i (TBar k sync) x)
  | TBar k BSpace => Some (go i (TBar k (BSpaceWait (S (sp_calls x)))) (call x))
  | TBar k (BSpaceWait n) => if all n then Some (go i (TBar k BArrive2) x) else None
  | TBar k BArrive2 =>
      let '(x, w) := arrive x in Some (go i (match w with Some gen => TBar k (BWait2 gen) | None => TBody (S k) end) x)
  | TBar k (BWait2 gen) => if snd (sp_bar x) =? gen then None else Some (go i (TBody (S k)) x)
  | TDone => None
  end.

Definition is_done (t : tpc) : bool := match t with TDone => true | _ => false end.

(** The main thread: the program, with [spmd_parallel] and [barrier]. *)
Definition next_item (x : proc) : proc := Proc (tail (sp_prog x)) MNext (sp_thr x) (sp_bar x) (sp_calls x).

Definition fork_threads (thr : nat → tpc) : nat → tpc := λ i, if i <? n_ths_per_proc then TBody 0 else thr i.

Definition main_step (all : nat → bool) (x : proc) : option proc :=
  match sp_main x with
  | MNext => match sp_prog x with [] => None | IRegion _ :: _ => Some (main_to MPre x) | IBarrier :: _ => Some (main_to MTop x) end
  | MPre => Some (main_to (MPreWait (S (sp_calls x))) (call x))
  | MPreWait n => if all n then Some (main_to MFork x) else None
  | MFork =>
      Some (Proc (sp_prog x) MIn (fork_threads (sp_thr x)) (sp_bar x) (sp_calls x))
  | MIn => if is_done (sp_thr x 0) then Some (main_to MJoin x) else None
  | MJoin => if forallb (λ i, is_done (sp_thr x i)) (seq 0 n_ths_per_proc) then Some (main_to MPost x) else None
  | MPost => Some (main_to (MPostWait (S (sp_calls x))) (call x))
  | MPostWait n => if all n then Some (next_item x) else None
  | MTop => Some (main_to (MTopWait (S (sp_calls x))) (call x))
  | MTopWait n => if all n then Some (next_item x) else None
  end.

Definition all_called (s : nat → proc) (n : nat) : bool := forallb (λ q, n <=? sp_calls (s q)) (seq 0 num_procs).

Inductive spmd_step (s : nat → proc) : (nat → proc) → Prop :=
| spmd_main p x : p < num_procs → main_step (all_called s) (s p) = Some x → spmd_step s (<[p := x]> s)
| spmd_thread p i x : p < num_procs → i < n_ths_per_proc → thread_step p i (all_called s) (s p) = Some x → spmd_step s (<[p := x]> s).

Definition spmd_init (prog : list item) : nat → proc := λ _, Proc prog MNext (λ _, TDone) (0, 0) 0.

Inductive spmd_reach (prog : list item) : (nat → proc) → Prop :=
| spmd_reach_init : spmd_reach prog (spmd_init prog)
| spmd_reach_step s s' : spmd_reach prog s → spmd_step s s' → spmd_reach prog s'.

(** The process has run its program. *)
Definition ended (x : proc) : bool := match sp_main x, sp_prog x with MNext, [] => true | _, _ => false end.

(** The calls of the barrier of the address space that the thread [th_num] 0 made in
    the region. *)
Definition tcalls (full : nat) (t : tpc) : nat :=
  match t with
  | TBody k | TBar k (BArrive1 | BWait1 _ | BSpace) => k
  | TBar k (BSpaceWait _ | BArrive2 | BWait2 _) => S k
  | TDone => full
  end.

Definition thr_ok (full p i : nat) (t : tpc) : Prop :=
  match t with
  | TBody k => k ≤ full
  | TBar k b => k < full ∧ match b with BSpace | BSpaceWait _ => th_num p i = 0 | _ => True end
  | TDone => True
  end.

(** The calls of an item that a process makes: those of its main thread, and on process 0
    those of the region. *)
Definition item_calls (p : nat) (it : item) : nat :=
  match it with IRegion b => 2 + (if p =? 0 then b else 0) | IBarrier => 1 end.
Definition prog_calls (p : nat) (prog : list item) : nat := list_sum (item_calls p <$> prog).

(** Those made in the present item. *)
Definition made (p : nat) (x : proc) : nat :=
  let full := if p =? 0 then num_barriers x else 0 in
  match sp_main x with
  | MNext | MPre | MTop => 0
  | MPreWait _ | MFork | MTopWait _ => 1
  | MIn => 1 + (if p =? 0 then tcalls (num_barriers x) (sp_thr x 0) else 0)
  | MJoin | MPost => 1 + full
  | MPostWait _ => 2 + full
  end.

(** The item fits the place of the main thread. *)
Definition item_ok (x : proc) : Prop :=
  match sp_main x with
  | MNext => True
  | MTop | MTopWait _ => ∃ l, sp_prog x = IBarrier :: l
  | _ => ∃ b l, sp_prog x = IRegion b :: l
  end.

Record proc_ok (prog : list item) (p : nat) (x : proc) : Prop := {
  pk_thr i : thr_ok (num_barriers x) p i (sp_thr x i);
  pk_out i : n_ths_per_proc ≤ i → sp_thr x i = TDone;
  pk_done : match sp_main x with MIn => True | MJoin => sp_thr x 0 = TDone | _ => ∀ i, sp_thr x i = TDone end;
  pk_item : item_ok x;
  pk_wait n : sp_main x = MPostWait n ∨ sp_main x = MTopWait n → n = sp_calls x;
  pk_calls : sp_calls x + prog_calls p (sp_prog x) = prog_calls p prog + made p x;
}.

Context (Hn : 0 < n_ths_per_proc).

Lemma th_num_zero p i : th_num p i = 0 ↔ p = 0 ∧ i = 0.
Proof. unfold th_num. nia. Qed.

(** What a thread leaves alone. *)
Record same (x x1 : proc) : Prop := {
  sm_prog : sp_prog x1 = sp_prog x;
  sm_main : sp_main x1 = sp_main x;
  sm_thr : sp_thr x1 = sp_thr x;
}.

Lemma same_refl x : same x x.
Proof. done. Qed.

Lemma same_call x : same x (call x).
Proof. done. Qed.

Lemma arrive_same x : same x (fst (arrive x)) ∧ sp_calls (fst (arrive x)) = sp_calls x.
Proof. unfold arrive. destruct (sp_bar x). by case_match. Qed.

(** A thread moves to [t]; [d] says whether it calls the barrier of the address space. *)
Lemma go_ok prog p i t x x1 (d : bool) :
  proc_ok prog p x → i < n_ths_per_proc → sp_thr x i ≠ TDone → thr_ok (num_barriers x) p i t → same x x1 →
  sp_calls x1 = sp_calls x + (if d then 1 else 0) → (d = true → th_num p i = 0) →
  (th_num p i = 0 → tcalls (num_barriers x) t = tcalls (num_barriers x) (sp_thr x i) + (if d then 1 else 0)) →
  proc_ok prog p (go i t x1).
Proof using Hn.
  intros [H1 H2 H3 H4 H5 H6] Hi Hnd Ht [Ep Em Et] Ec Hd Htc.
  assert (num_barriers (go i t x1) = num_barriers x) as Enb by (unfold num_barriers; cbn; by rewrite Ep).
  assert (∀ i', i' ≠ i → sp_thr (go i t x1) i' = sp_thr x i') as Hother.
  { intros i' Hne. cbn. rewrite Et. by rewrite fn_lookup_insert_ne. }
  assert (sp_thr (go i t x1) i = t) as Hthis by (cbn; rewrite Et; apply fn_lookup_insert).
  assert (sp_main x = MIn ∨ sp_main x = MJoin ∧ i ≠ 0) as Hm.
  { destruct (sp_main x); auto; try (by rewrite H3 in Hnd). right. split; [done|]. by intros ->. }
  split.
  - intros i'. rewrite Enb. destruct (decide (i' = i)) as [->|Hne]; [by rewrite Hthis|by rewrite Hother].
  - intros i' Hge. rewrite Hother by lia. auto.
  - cbn [go sp_main]. rewrite Em. destruct Hm as [-> | [E Hne]]; [done|]. rewrite E in *. by rewrite Hother.
  - unfold item_ok in *. cbn [go sp_main sp_prog]. by rewrite Em, Ep.
  - intros n E. cbn [go sp_main] in E. rewrite Em in E. by destruct Hm as [Hm|[Hm _]]; rewrite Hm in E; destruct E.
  - unfold made in *. rewrite Enb. change (sp_calls (go i t x1)) with (sp_calls x1).
    change (sp_main (go i t x1)) with (sp_main x1). change (sp_prog (go i t x1)) with (sp_prog x1).
    rewrite Ec, Em, Ep. destruct (decide (th_num p i = 0)) as [Hz|Hz].
    + specialize (Htc Hz). apply th_num_zero in Hz as [-> ->]. rewrite Hthis. destruct Hm as [Hm|[_ Hm]]; [|done].
      rewrite Hm in *. cbn in *. lia.
    + assert (d = false) as -> by (destruct d; [by destruct Hz; apply Hd|done]).
      assert (p = 0 → i ≠ 0) as Hpi by (intros -> ->; by apply Hz, th_num_zero).
      destruct (Nat.eqb_spec p 0) as [->|]; [rewrite (Hother 0) by (specialize (Hpi eq_refl); done)|]; lia.
Qed.

Lemma thread_ok prog p i all x x' :
  proc_ok prog p x → i < n_ths_per_proc → thread_step p i all x = Some x' → proc_ok prog p x'.
Proof using Hn.
  intros Hok Hi Hs. unfold thread_step in Hs. pose proof (pk_thr _ _ _ Hok i) as Ht.
  pose proof (arrive_same x) as (Ha & Hac). pose proof (same_refl x) as Hr.
  destruct (sp_thr x i) as [k|k b|] eqn:E; [| |done].
  - cbn in Ht. destruct (Nat.ltb_spec k (num_barriers x)) as [Hlt|Hge]; injection Hs as <-;
      apply (go_ok prog p i _ x x false); rewrite ?E; try done; cbn; lia.
  - destruct Ht as [Hk Hb]. destruct b as [|g| |n| |g].
    + destruct (arrive x) as [x1 w]. cbn in *. injection Hs as <-.
      apply (go_ok prog p i _ x x1 false); rewrite ?E, ?Nat.add_0_r; try done.
      * split; [done|]. destruct w; [done|]. destruct (Nat.eqb_spec (th_num p i) 0); done.
      * intros Hz. rewrite Hz. by destruct w.
    + destruct (snd (sp_bar x) =? g); [done|]. injection Hs as <-.
      apply (go_ok prog p i _ x x false); rewrite ?E, ?Nat.add_0_r; try done.
      * split; [done|]. destruct (Nat.eqb_spec (th_num p i) 0); done.
      * intros Hz. by rewrite Hz.
    + injection Hs as <-. apply (go_ok prog p i _ x (call x) true); rewrite ?E; try done; cbn; lia.
    + destruct (all n); [|done]. injection Hs as <-.
      apply (go_ok prog p i _ x x false); rewrite ?E, ?Nat.add_0_r; done.
    + destruct (arrive x) as [x1 w]. cbn in *. injection Hs as <-.
      apply (go_ok prog p i _ x x1 false); rewrite ?E, ?Nat.add_0_r; try done; destruct w; cbn; (done || lia).
    + destruct (snd (sp_bar x) =? g); [done|]. injection Hs as <-.
      apply (go_ok prog p i _ x x false); rewrite ?E, ?Nat.add_0_r; try done; cbn; lia.
Qed.

Lemma thread_main p i all x x' : thread_step p i all x = Some x' → sp_main x' = sp_main x ∧ sp_prog x' = sp_prog x.
Proof.
  unfold thread_step. pose proof (arrive_same x) as ([H1 H2 _] & _). destruct (arrive x) as [x1 w]. cbn in H1, H2.
  intros Hs. destruct (sp_thr x i) as [k|k b|]; [| |done]; [|destruct b]; repeat (case_match; try done); by simplify_eq.
Qed.

Lemma done_is t : is_done t = true → t = TDone.
Proof. by destruct t. Qed.

(** The main thread goes to [m], where no thread of a region runs. *)
Lemma main_to_ok prog p m x (d : bool) (x1 := if d then call x else x) :
  proc_ok prog p x → m ≠ MIn → (match m with MJoin => sp_thr x 0 = TDone | _ => ∀ i, sp_thr x i = TDone end) →
  item_ok (main_to m x) → (∀ n, m = MPostWait n ∨ m = MTopWait n → n = sp_calls x1) →
  made p (main_to m x) = made p x + (if d then 1 else 0) → proc_ok prog p (main_to m x1).
Proof.
  intros [H1 H2 H3 H4 H5 H6] Hm Hd Hi Hw Hmade.
  assert (num_barriers (main_to m x1) = num_barriers x ∧ sp_thr x1 = sp_thr x) as [Enb Et] by (subst x1; by destruct d).
  split.
  - intros i. rewrite Enb. cbn. rewrite Et. apply H1.
  - cbn. rewrite Et. auto.
  - cbn. rewrite Et. by destruct m.
  - subst x1. by destruct d.
  - done.
  - assert (made p (main_to m x1) = made p (main_to m x) ∧ sp_prog x1 = sp_prog x
      ∧ sp_calls x1 = sp_calls x + if d then 1 else 0) as (-> & Ep & Ec) by (subst x1; destruct d; cbn; split_and!; (done || lia)).
    cbn [main_to sp_calls sp_prog]. rewrite Ep, Ec. lia.
Qed.

Lemma fork_ok prog p x :
  proc_ok prog p x → sp_main x = MFork →
  proc_ok prog p (Proc (sp_prog x) MIn (fork_threads (sp_thr x)) (sp_bar x) (sp_calls x)).
Proof using Hn.
  intros [H1 H2 H3 H4 H5 H6] E. unfold item_ok, made in *. rewrite E in *.
  assert (∀ i, fork_threads (sp_thr x) i = if i <? n_ths_per_proc then TBody 0 else TDone) as Hf.
  { intros i. unfold fork_threads. case_match; [done|]. apply H2. by apply Nat.ltb_ge. }
  split; cbn [sp_thr sp_main sp_prog sp_calls]; try done.
  - intros i. rewrite Hf. case_match; [cbn; lia|done].
  - intros i Hi. rewrite Hf. apply Nat.ltb_ge in Hi. by rewrite Hi.
  - by intros n [].
  - unfold made. cbn [sp_thr sp_main sp_prog sp_calls]. apply Nat.ltb_lt in Hn as Hn'. rewrite Hf, Hn'. cbn.
    destruct (p =? 0); lia.
Qed.

Lemma prog_calls_cons p it l : prog_calls p (it :: l) = item_calls p it + prog_calls p l.
Proof. done. Qed.

Lemma next_item_ok prog p n x :
  proc_ok prog p x → sp_main x = MPostWait n ∨ sp_main x = MTopWait n → proc_ok prog p (next_item x).
Proof.
  intros [H1 H2 H3 H4 H5 H6] E. assert (∀ i, sp_thr x i = TDone) as Hd by by destruct E as [E|E]; rewrite E in H3.
  split; cbn [next_item sp_prog sp_main sp_thr sp_calls]; try done.
  - intros i. by rewrite Hd.
  - by intros n' [].
  - unfold made. cbn [next_item sp_prog sp_main sp_thr sp_calls]. unfold item_ok, made, num_barriers in *.
    destruct E as [E|E]; rewrite E in *; [destruct H4 as (b & l & Ep)|destruct H4 as (l & Ep)];
      rewrite Ep in *; rewrite prog_calls_cons in H6; cbn [tail item_calls] in *; destruct (p =? 0); lia.
Qed.

Lemma main_ok prog p all x x' : proc_ok prog p x → main_step all x = Some x' → proc_ok prog p x'.
Proof using Hn.
  intros Hok Hs. pose proof Hok as [H1 H2 H3 H4 _ _]. unfold main_step in Hs. unfold item_ok in H4.
  destruct (sp_main x) eqn:E; rewrite ?E in H3, H4; unfold made.
  - destruct (sp_prog x) as [|[b|] l] eqn:Ep; [done|..]; injection Hs as <-; apply (main_to_ok prog p _ x false); try done;
      try (by intros ? [[=]|[=]]); unfold made, item_ok; cbn; rewrite ?E, ?Ep; eauto.
  - injection Hs as <-. apply (main_to_ok prog p _ x true); try done; [by intros ? [[=]|[=]]|]. unfold made. cbn. by rewrite E.
  - destruct (all n); [|done]. injection Hs as <-. apply (main_to_ok prog p _ x false); try done; [by intros ? [[=]|[=]]|].
    unfold made. cbn. by rewrite E.
  - injection Hs as <-. by apply fork_ok.
  - destruct (is_done (sp_thr x 0)) eqn:Ed; [|done]. apply done_is in Ed. injection Hs as <-.
    apply (main_to_ok prog p _ x false); try done; [by intros ? [[=]|[=]]|]. unfold made. cbn. rewrite E, Ed. cbn. by destruct (p =? 0).
  - destruct (forallb _ _) eqn:Ef; [|done]. injection Hs as <-. apply (main_to_ok prog p _ x false); try done.
    + intros i. destruct (Nat.lt_ge_cases i n_ths_per_proc) as [Hi|Hi]; [|by apply H2].
      rewrite forallb_forall in Ef. apply done_is, Ef, in_seq. lia.
    + by intros ? [[=]|[=]].
    + unfold made. cbn. by rewrite E.
  - injection Hs as <-. apply (main_to_ok prog p _ x true); try done; [by intros n [[= <-]|[=]]|].
    unfold made. cbn. rewrite E. unfold num_barriers. cbn. lia.
  - destruct (all n); [|done]. injection Hs as <-. eapply next_item_ok; [done|by left].
  - injection Hs as <-. apply (main_to_ok prog p _ x true); try done; [by intros n [[=]|[= <-]]|].
    unfold made. cbn. by rewrite E.
  - destruct (all n); [|done]. injection Hs as <-. eapply next_item_ok; [done|by right].
Qed.

Lemma spmd_procs prog s : spmd_reach prog s → ∀ p, proc_ok prog p (s p).
Proof using Hn.
  induction 1 as [|s s' _ Hok Hs]; intros q.
  { split; cbn; try done. by intros n []. }
  destruct Hs as [p x Hp Hs|p i x Hp Hi Hs]; (destruct (decide (q = p)) as [->|Hq]; [rewrite fn_lookup_insert|by rewrite fn_lookup_insert_ne]).
  - by eapply main_ok.
  - by eapply thread_ok.
Qed.

(** The calls of [barrier] in the regions of the program. *)
Definition region_barriers (prog : list item) : nat :=
  list_sum ((λ it, match it with IRegion b => b | IBarrier => 0 end) <$> prog).

Lemma prog_calls_0 p prog : prog_calls p prog = prog_calls 1 prog + if p =? 0 then region_barriers prog else 0.
Proof.
  induction prog as [|it l IH]; [by destruct (p =? 0)|]. rewrite !prog_calls_cons.
  change (region_barriers (it :: l)) with ((match it with IRegion b => b | IBarrier => 0 end) + region_barriers l).
  unfold item_calls. rewrite IH. destruct it, (p =? 0); cbn; lia.
Qed.

(** No process makes more calls than its program has. *)
Lemma spmd_calls_le prog p x : proc_ok prog p x → sp_calls x ≤ prog_calls p prog.
Proof.
  intros [H1 H2 H3 H4 H5 H6]. enough (made p x ≤ prog_calls p (sp_prog x)) by lia. pose proof (H1 0) as Ht.
  unfold item_ok, made, num_barriers in *.
  destruct (sp_main x); try lia; (destruct H4 as (b & l & E) || destruct H4 as (l & E)); rewrite E, prog_calls_cons in *; cbn;
    destruct (p =? 0); try lia.
  destruct (sp_thr x 0) as [|k []|]; cbn in *; lia.
Qed.

Lemma ended_calls prog p x : proc_ok prog p x → ended x = true → sp_calls x = prog_calls p prog.
Proof.
  intros [_ _ _ _ _ H6] He. unfold ended, made in *. destruct (sp_main x); try done. destruct (sp_prog x); [|done].
  cbn in H6. lia.
Qed.

Context (Hprocs : 2 ≤ num_procs).

Lemma first_not_ended prog s : 0 < region_barriers prog → spmd_reach prog s → ended (s 0) = false.
Proof using Hn Hprocs.
  intros Hb. induction 1 as [|s s' Hr IH Hs].
  { cbn in *. destruct prog; [cbn in Hb; lia|done]. }
  pose proof (spmd_procs prog s Hr) as Hok.
  pose proof (spmd_procs prog s' ltac:(by eapply spmd_reach_step)) as Hok'.
  destruct (ended (s' 0)) eqn:He; [|done]. exfalso.
  pose proof (ended_calls prog 0 _ (Hok' 0) He) as Ec. rewrite prog_calls_0 in Ec. cbn in Ec.
  destruct Hs as [p x Hp Hs|p i x Hp Hi Hs]; (destruct (decide (p = 0)) as [->|Hp0];
    [rewrite fn_lookup_insert in *|rewrite fn_lookup_insert_ne in He by done; congruence]).
  - unfold ended in He. destruct (sp_main x) eqn:Em; try done. destruct (sp_prog x) eqn:Ep; try done.
    assert (∃ n, (sp_main (s 0) = MPostWait n ∨ sp_main (s 0) = MTopWait n) ∧ all_called s n = true ∧ sp_calls x = sp_calls (s 0))
      as (n & Hw & Hall & Es).
    { unfold main_step in Hs. destruct (sp_main (s 0)); repeat (case_match; try done); simplify_eq; eauto. }
    unfold all_called in Hall. rewrite forallb_forall in Hall. specialize (Hall 1). rewrite Nat.leb_le in Hall.
    assert (In 1 (seq 0 num_procs)) as Hin by (apply in_seq; lia). specialize (Hall Hin).
    pose proof (pk_wait _ _ _ (Hok 0) n Hw). pose proof (spmd_calls_le prog 1 _ (Hok 1)). lia.
  - apply thread_main in Hs as [Em Ep]. unfold ended in *. rewrite Em, Ep in He. congruence.
Qed.
End spmd.

(** * Execution *)

Definition exec_one (P T : nat) (s : nat → proc) (c : nat * option nat) : nat → proc :=
  if fst c <? P then
    match snd c with
    | None => match main_step T (all_called P s) (s (fst c)) with Some x => <[fst c := x]> s | None => s end
    | Some i =>
        if i <? T then match thread_step T (fst c) i (all_called P s) (s (fst c)) with Some x => <[fst c := x]> s | None => s end else s
    end
  else s.

Lemma spmd_exec_reach P T prog l s : spmd_reach P T prog s → spmd_reach P T prog (foldl (exec_one P T) s l).
Proof.
  revert s. induction l as [|c l IH]; intros s H; [done|]. cbn. apply IH. unfold exec_one. destruct (Nat.ltb_spec (fst c) P); [|done].
  destruct (snd c) as [i|]; [destruct (Nat.ltb_spec i T); [|done]|]; (case_match; [|done]); (eapply spmd_reach_step; [exact H|]); by econstructor.
Qed.

Definition round (P T : nat) : list (nat * option nat) :=
  flat_map (λ p, (p, None) :: ((λ i, (p, Some i)) <$> seq 0 T)) (seq 0 P).

Definition run (P T : nat) (prog : list item) (n : nat) : nat → proc :=
  foldl (exec_one P T) (spmd_init prog) (mjoin (replicate n (round P T))).

Definition two_regions : list item := [IRegion 1; IRegion 1].

(** C29: With two or more processes, a program of SPMD regions, and of barriers between
    them, in which some region calls [barrier], never ends on process 0, whatever follows
    the region: only the first thread of process 0 calls the barrier of the address space
    in a region, and the other processes make fewer calls than process 0 waits for. (The
    barriers of the network in the destructor are other calls and do not answer.) Later
    calls of the others answer earlier ones of process 0: in a program of two regions,
    process 0 goes on in the barrier of the first one when process 1 has left it. For
    contrast, a run of a program on one process and a run of one without such calls on two
    processes that end. *)
Theorem spmd_barrier_hangs P T prog s :
  2 ≤ P → 0 < T → spmd_reach P T prog s →
  (0 < region_barriers prog → ended (s 0) = false)
  ∧ (∀ p, p < P → sp_calls (s p) ≤ prog_calls p prog ∧ (ended (s p) = true → sp_calls (s p) = prog_calls p prog))
  ∧ (∃ s1, spmd_reach 2 1 two_regions s1 ∧ sp_thr (s1 0) 0 = TBar 0 BArrive2 ∧ sp_prog (s1 0) = two_regions
       ∧ sp_main (s1 1) = MNext ∧ sp_prog (s1 1) = [IRegion 1])
  ∧ (∃ s1, spmd_reach 1 2 [IRegion 2; IBarrier; IRegion 1] s1 ∧ ended (s1 0) = true)
  ∧ (∃ s1, spmd_reach 2 2 [IRegion 0; IBarrier] s1 ∧ ended (s1 0) = true ∧ ended (s1 1) = true).
Proof.
  intros HP HT Hs. pose proof (spmd_procs P T HT prog s Hs) as Hok. split_and!.
  - intros Hb. by apply (first_not_ended P T HT HP prog s).
  - intros p _. split; [by apply (spmd_calls_le T)|by apply (ended_calls T)].
  - exists (run 2 1 two_regions 11). split; [apply spmd_exec_reach; constructor|by vm_compute].
  - exists (run 1 2 [IRegion 2; IBarrier; IRegion 1] 60). split; [apply spmd_exec_reach; constructor|by vm_compute].
  - exists (run 2 2 [IRegion 0; IBarrier] 40). split; [apply spmd_exec_reach; constructor|by vm_compute].
Qed.

(** Process 1 has run both regions and process 0 waits in the second one. *)
Lemma spmd_barrier_hangs_witness :
  ended (run 2 1 two_regions 40 1) = true ∧ sp_thr (run 2 1 two_regions 40 0) 0 = TBar 0 (BSpaceWait 5)
  ∧ ended (run 2 1 two_regions 40 0) = false.
Proof.
  split_and!; [by vm_compute|by vm_compute|]. apply (spmd_barrier_hangs 2 1 two_regions); [apply Nat.leb_le; reflexivity..| |apply Nat.leb_le; reflexivity].
  apply spmd_exec_reach. constructor.
Defined.
